(* ===== verification/_CoqProject ===== *)
-Q . S2P
Prelude.v
Ids.v
GoHeap.v
TransferQueue.v
RttWindow.v
Util.v
RouteManager.v
PackChannel.v
MessagePool.v
Framer.v
ResilientTls.v
BaseCodec.v
DnsCodec.v
PacketQueues.v
PacketTranslation.v
Ip.v
MultiClientStats.v
MultiClient.v
MultiClientWindow.v
Security.v
TcpSequence.v
UdpSequence.v
Crypto.v
Contracts.v
ClientStrategy.v
DohCache.v
ProviderMonitor.v
PlatformTransport.v
Frames.v
ControlSync.v
Wire.v
ContractManager.v
ReceiveSequence.v
SendSequence.v
SendInvariant.v
Buffers.v
UserNat.v
StreamManager.v
Client.v
RemoteUserNat.v
Delivery.v
