(* ===== verification/Prelude.v ===== *)
(** * URnetwork connect: a verification library

    The program under src/ is the client side of a relay network: a [Client]
    sends messages to other clients through whatever transports are up, in
    order, with acks, resends and flow control, and pays for them with
    contracts that a platform signs. This library models that program as
    functions and step relations and proves what makes it correct.

    ** Parts, and how they interact

    Values and shared pieces:
    - [Ids] is connect.go: [Id], [TransferPath], [MultiHopId], the values used
      as map keys by all the rest, with their text, JSON, binary and protobuf
      forms.
    - [GoHeap] is Go's container/heap over a slice of pointers whose items hold
      their heap index, as the queues of the program use it.
    - [Util] is util.go: callback lists, the idle condition, weighted shuffles.
    - [RttWindow] is transfer_rtt.go and wakeup_schedule.go.
    - [MessagePool] is message_pool.go, the reference counted buffers that all
      messages are in; [Framer] is message_framer.go and the readers.
    - [Crypto] is the HMAC of the standard library that contracts are signed
      with, down to the bits, so that [Verify] can be evaluated.

    The transfer layer, transfer.go and its neighbours:
    - [TransferQueue] is transfer_queue.go: two heaps, two maps and a byte
      count over one set of items. The class [TransferQueueItem] is the Go
      interface of items, [TransferQueueCmp] what the queue needs of the
      comparison; the two sequences instantiate both.
    - [Contracts] is the protocol messages and the small states at the end of
      transfer.go: [sequenceContract], [sequenceAckWindow], [PeerAudit].
    - [ContractManager] is transfer_contract_manager.go.
    - [ReceiveSequence] and [SendSequence] are the two protocol machines, over
      all of the above; [SendInvariant] holds the proofs about the second.
    - [PackChannel] is the channel in front of a sequence with its lock and its
      idle close; [Buffers] the tables of the open sequences.
    - [Wire] is the protobuf of transfer frames; [Frames] is frame.go, the
      frames of messages in packs.
    - [RouteManager] is transfer_route_manager.go, the routes that frames take.
    - [Client] is the client around them; [Delivery] joins the sequences and
      clients of two ends by a network that loses, repeats and reorders.
    - [ControlSync] is transfer_control.go, [StreamManager] is
      transfer_stream_manager.go.

    A [SendSequence] takes packs, numbers them, charges them to a contract it
    takes from the [ContractManager], keeps them in its resend queue until the
    acks that its [sequenceAckWindow] compresses arrive, and measures the round
    trip with an [RttWindow]. A [ReceiveSequence] puts packs in order with its
    own queue, verifies and debits the contracts they bring, and acks them.

    IP over the transfer layer:
    - [Ip] is the paths and packets of ip.go, ip_packet.go and net_util.go,
      [Security] the policies of ip_security.go.
    - [TcpSequence] and [UdpSequence] are the flows of a provider, [UserNat] the
      tables of them and the dispatch of packets: ip.go.
    - [RemoteUserNat] is the two ends of a remote user NAT: a client frames its
      packets and a provider gives them to its NAT, and back.
    - [MultiClient], [MultiClientStats] and [MultiClientWindow] are
      ip_remote_multi_client.go: flows over a changing set of clients;
      [ProviderMonitor] is the monitor that shows them.

    Connections:
    - [BaseCodec], [DnsCodec], [PacketQueues] and [PacketTranslation] are packets
      as DNS messages: transport_pt.go, its codec and its queues.
    - [ResilientTls] is net_resilient.go.
    - [ClientStrategy] is net_http.go: the dialers of a client, their collapse
      and expansion over extenders, and the evaluations that choose one.
    - [PlatformTransport] is transport.go: the connections to the platform, with
      the routes that they give the [RouteManager].
    - [DohCache] is net_http_doh.go: DNS over HTTPS, its cache and the resolvers.

    ** Conventions

    A Go function that can fail or panic returns an [outcome]; the [let!]
    notation sequences outcomes. Integers are [Z] with the conversion to their
    width written where it can matter ([u64], [i64], ...); times and durations
    are nanoseconds; [float32] is SpecFloat at binary32. A slice that may be
    [nil] is an option. Pointers are modelled where the code shares or compares
    them: the queue items of [TransferQueue], the samples of [RttWindow], the
    contract queues of [ContractManager]. A method that holds a lock is one
    step, and what it calls after that, where another goroutine can come between,
    are further ones. What a goroutine reads from others (clock, channels, random numbers,
    the shared manager) is an argument of its step, and theorems quantify over
    it; what it writes to others is a list of events.

    Code outside of src/ is a class of functions with its laws: the protobuf
    codecs of [Wire] and [Frames], gopacket in [Ip], dnsmessage in [DnsCodec],
    cryptobyte in [ResilientTls]. Examples instantiate the classes.

    ** Theorems

    - Order and delivery: [delivered_in_order] and [success_means_delivered] of
      the joined system; [receive_in_order], [receive_acks_sound],
      [receive_paid], [receive_queue_bounded]; [send_in_order],
      [send_success_acked], [send_callbacks_once], [send_contracts_closed],
      [send_resends_due]. They hold of every run of the loop of [Run]: each is
      by induction over the turns, from one invariant of the state ([rs_inv],
      [ss_inv]) kept by each operation.
    - Goroutines: [pack_channel_conserves], [pack_channel_progress],
      [pack_channel_close]; [message_pool_exclusive]; [tcp_stream],
      [udp_datagrams], [udp_sequence_ends]; [route_calls]; [control_sync_order];
      [parallel_eval_tries], [serial_eval_one_success]; [monitor_followed];
      [transport_connection], [platform_routes], [mode_chosen_once];
      [doh_cache_answers]. They hold of every interleaving of the steps, by rule
      induction.
    - Tables: [send_buffer_tables], [receive_buffer_heads],
      [user_nat_tables], [lru_user_limit], [stream_buffer_tables], from the
      invariant of the generic table of [Buffers]; [route_manager_refines];
      [client_strategy_dialers].
    - Data structures: [transfer_queue_refines], [combine_queue_refines],
      [rtt_window_run], [contract_accounts], [ack_window_snapshot],
      [weighted_shuffles_permute], [callback_list_spec].
    - Contracts of the platform: [verify_characterization],
      [queue_pointers_shared], [queue_hands_out_once], [contracts_taken_in],
      [contract_byte_count_bounds].
    - Packets: [packets_through_provider], [replies_through_provider],
      [flow_keeps_destination], [security_policies]; [flow_has_one_client],
      [new_flow_follows_destination], [races_within_limits]; [resize_removes],
      [ordered_clients]; [stats_follow_buckets], [report_is_of_window],
      [sources_are_counted].
    - Round trips: [client_frames_return], [client_dispatch], [frame_roundtrip],
      [framer_roundtrip], [dns_requests_deliver_packet],
      [dns_responses_deliver_packet], [resilient_stream], [id_text_roundtrip],
      [path_proto_roundtrip], [multihop_canonical], [id_order],
      [parse_ignores_separators].

    Examples at the ends of the files run the definitions and show what the
    code does on inputs where it does not do what it means to.

    ** Bounds and fuel

    The heap operations recurse on the index with the length as fuel; the
    specifications of [GoHeap] prove the fuel is enough. [drain] and [resend]
    have as fuel one more than the length of the queue they empty:
    [receive_in_order] and [send_in_order] prove that the runs they are about do
    not panic, so that the fuel is not used up there, and [send_resends_due] that
    the resend pass ends with nothing due. Where the code loops until something outside lets it go
    on, a turn is a step, and [udp_sequence_ends], [pack_channel_progress] and
    [pack_channel_close] bound the steps by a measure. [write_loop] has the
    length of its buffer as fuel, and out of fuel is a panic, which
    [resilient_stream] excludes. Sums of byte counts and clock readings are
    assumed below 2^62 where a theorem needs that nothing wraps; the hypothesis
    says so.

    ** Not modelled

    The dials of the platform transports (web sockets and QUIC), the requests of
    the HTTP and DNS clients and their TLS, the API, the WebRTC transports and the
    commands are calls of libraries with timeouts around them. The list of
    blocked addresses is about 69,800 lines of generated literals: the policies
    take it as a parameter. Of the modelled files the logs, the traces, the
    constructors that only fill in defaults and the enumeration of destinations
    by the API are left out.
*)

From stdpp Require Export base tactics list numbers gmap.
From stdpp Require Export vector strings.
From Stdlib Require Import Strings.Byte Sorting.Permutation.
From Stdlib Require Export Lia ZArith.

#[global] Set Default Goal Selector "!".

(** ** Outcomes

    A Go function that returns [(T, error)] and may panic is modelled by a
    function into [outcome T]. *)
Inductive outcome (A : Type) : Type :=
| Val (a : A)
| Err (msg : string)
| Panic (msg : string).
Arguments Val {A} a.
Arguments Err {A} msg%_string.
Arguments Panic {A} msg%_string.

Definition obind {A B : Type} (m : outcome A) (k : A → outcome B) : outcome B :=
  match m with
  | Val a => k a
  | Err e => Err e
  | Panic e => Panic e
  end.

Declare Scope go_scope.
Delimit Scope go_scope with go.
Notation "'let!' x ':=' m 'in' k" := (obind m (λ x, k))
  (at level 10, x pattern, m at level 100, k at level 200) : go_scope.
Open Scope go_scope.

Definition is_val {A} (m : outcome A) : bool :=
  match m with Val _ => true | _ => false end.
Definition is_panic {A} (m : outcome A) : bool :=
  match m with Panic _ => true | _ => false end.

(** ** Machine integers: values of a Go integer type are [Z], and the
    operations that can overflow are followed by the conversion to the width. *)
Definition u8 (z : Z) : Z := z `mod` 2 ^ 8.
Definition u16 (z : Z) : Z := z `mod` 2 ^ 16.
Definition u32 (z : Z) : Z := z `mod` 2 ^ 32.
Definition u64 (z : Z) : Z := z `mod` 2 ^ 64.
Definition i64 (z : Z) : Z := (z + 2 ^ 63) `mod` 2 ^ 64 - 2 ^ 63.

Definition is_u8 (z : Z) : Prop := (0 ≤ z < 2 ^ 8)%Z.
Definition is_u16 (z : Z) : Prop := (0 ≤ z < 2 ^ 16)%Z.
Definition is_u32 (z : Z) : Prop := (0 ≤ z < 2 ^ 32)%Z.
Definition is_u64 (z : Z) : Prop := (0 ≤ z < 2 ^ 64)%Z.
Definition is_i64 (z : Z) : Prop := (- 2 ^ 63 ≤ z < 2 ^ 63)%Z.

Lemma u16_range z : is_u16 (u16 z).
Proof. unfold is_u16, u16. apply Z.mod_pos_bound. lia. Qed.
Lemma u32_range z : is_u32 (u32 z).
Proof. unfold is_u32, u32. apply Z.mod_pos_bound. lia. Qed.
Lemma u64_range z : is_u64 (u64 z).
Proof. unfold is_u64, u64. apply Z.mod_pos_bound. lia. Qed.
Lemma i64_range z : is_i64 (i64 z).
Proof. unfold is_i64, i64. pose proof (Z.mod_pos_bound (z + 2 ^ 63) (2 ^ 64)). lia. Qed.
Lemma u16_small z : is_u16 z → u16 z = z.
Proof. apply Z.mod_small. Qed.
Lemma u32_small z : is_u32 z → u32 z = z.
Proof. apply Z.mod_small. Qed.
Lemma u64_small z : is_u64 z → u64 z = z.
Proof. apply Z.mod_small. Qed.
Lemma i64_small z : is_i64 z → i64 z = z.
Proof. unfold is_i64, i64. intros. rewrite Z.mod_small; lia. Qed.

Lemma u64_add_l a b : u64 (u64 a + b) = u64 (a + b).
Proof. unfold u64. apply Zplus_mod_idemp_l. Qed.
Lemma i64_add_l a b : i64 (i64 a + b) = i64 (a + b).
Proof.
  unfold i64. replace ((a + 2 ^ 63) `mod` 2 ^ 64 - 2 ^ 63 + b + 2 ^ 63)%Z
    with ((a + 2 ^ 63) `mod` 2 ^ 64 + b)%Z by lia.
  rewrite Zplus_mod_idemp_l. f_equal. f_equal. lia.
Qed.

Create HintDb go_int.
Create Rewrite HintDb go_int.
#[export] Hint Resolve u16_range u32_range u64_range i64_range : go_int.
#[export] Hint Rewrite u16_small u32_small u64_small i64_small using lia : go_int.

(** ** Bytes *)
Abbreviation byte := Byte.byte.

Definition byte_val (b : byte) : Z := Z.of_N (Byte.to_N b).
Definition byte_of (z : Z) : byte :=
  match Byte.of_N (Z.to_N (u8 z)) with Some b => b | None => Byte.x00 end.

#[export] Instance byte_eq_dec : EqDecision byte := Byte.byte_eq_dec.
#[export] Program Instance byte_countable : Countable byte :=
  inj_countable Byte.to_N Byte.of_N _.
Next Obligation. apply Byte.of_to_N. Qed.

Lemma byte_val_range b : is_u8 (byte_val b).
Proof.
  unfold is_u8, byte_val. pose proof (Byte.to_N_bounded b). lia.
Qed.
Lemma byte_of_val b : byte_of (byte_val b) = b.
Proof.
  unfold byte_of, u8. rewrite Z.mod_small by apply byte_val_range.
  unfold byte_val. by rewrite N2Z.id, Byte.of_to_N.
Qed.
Lemma byte_val_of z : byte_val (byte_of z) = u8 z.
Proof.
  unfold byte_of. assert (0 ≤ u8 z < 2 ^ 8)%Z as Hr.
  { unfold u8. apply Z.mod_pos_bound. lia. }
  destruct (Byte.of_N _) as [b|] eqn:E.
  - unfold byte_val. apply Byte.to_of_N in E. rewrite E. lia.
  - apply Byte.of_N_None_iff in E. lia.
Qed.
Lemma byte_val_inj b1 b2 : byte_val b1 = byte_val b2 → b1 = b2.
Proof. intros H. rewrite <-(byte_of_val b1), <-(byte_of_val b2). by rewrite H. Qed.

(** [Id(slice)] and the other slice-to-array conversions: the first [n] bytes;
    the callers check the length. *)
Fixpoint to_array (n : nat) (l : list byte) : vec byte n :=
  match n with
  | 0 => [#]
  | S n => hd Byte.x00 l ::: to_array n (tail l)
  end.

Lemma to_array_list n (l : list byte) :
  length l = n → vec_to_list (to_array n l) = l.
Proof.
  revert l. induction n as [|n IH]; intros [|b l]; simpl; try done.
  intros [= H]. by rewrite (IH l H).
Qed.
Lemma to_array_vec n (v : vec byte n) : to_array n (vec_to_list v) = v.
Proof. induction v as [|b n v IH]; simpl; [done|]. by rewrite IH. Qed.

#[global] Arguments to_array : simpl never.

(** Big endian numbers of [encoding/binary]. *)
Definition be16 (z : Z) : list byte := [byte_of (z ≫ 8); byte_of z].
Definition de16 (l : list byte) : Z :=
  (byte_val (nth 0 l Byte.x00) ≪ 8) + byte_val (nth 1 l Byte.x00).

Lemma de16_be16 z l : is_u16 z → de16 (be16 z ++ l) = z.
Proof.
  unfold is_u16, de16, be16. intros H. cbn [app nth].
  rewrite !byte_val_of. unfold u8. rewrite Z.shiftl_mul_pow2, Z.shiftr_div_pow2 by lia.
  rewrite (Z.mod_small (z / _)).
  - pose proof (Z.div_mod z (2 ^ 8)). lia.
  - split; [apply Z.div_pos; lia|]. apply Z.div_lt_upper_bound; lia.
Qed.

(** ** Time: [time.Time] and [time.Duration] are nanoseconds. *)
Abbreviation time := Z (only parsing).
Abbreviation duration := Z (only parsing).
Definition second : duration := 1000000000%Z.
Definition millisecond : duration := 1000000%Z.

(** ** Generic lemmas *)
Definition zsum (l : list Z) : Z := foldr Z.add 0%Z l.

Lemma zsum_cons x l : zsum (x :: l) = (x + zsum l)%Z.
Proof. done. Qed.
Lemma zsum_app l1 l2 : zsum (l1 ++ l2) = (zsum l1 + zsum l2)%Z.
Proof. induction l1; simpl; unfold zsum in *; simpl in *; lia. Qed.
#[export] Instance zsum_proper : Proper ((≡ₚ) ==> (=)) zsum.
Proof. intros l1 l2 H. induction H; unfold zsum in *; simpl in *; lia. Qed.
Lemma zsum_nonneg l : Forall (λ z, 0 ≤ z)%Z l → (0 ≤ zsum l)%Z.
Proof. induction 1; unfold zsum in *; simpl in *; lia. Qed.

Ltac case_bool :=
  match goal with
  | |- context [Z.ltb ?a ?b] => destruct (Z.ltb_spec a b)
  | |- context [Z.leb ?a ?b] => destruct (Z.leb_spec a b)
  | |- context [Z.eqb ?a ?b] => destruct (Z.eqb_spec a b)
  | |- context [Nat.ltb ?a ?b] => destruct (Nat.ltb_spec a b)
  | |- context [Nat.leb ?a ?b] => destruct (Nat.leb_spec a b)
  | |- context [Nat.eqb ?a ?b] => destruct (Nat.eqb_spec a b)
  | H : context [Z.ltb ?a ?b] |- _ => destruct (Z.ltb_spec a b)
  | H : context [Z.leb ?a ?b] |- _ => destruct (Z.leb_spec a b)
  | H : context [Z.eqb ?a ?b] |- _ => destruct (Z.eqb_spec a b)
  | H : context [Nat.ltb ?a ?b] |- _ => destruct (Nat.ltb_spec a b)
  | H : context [Nat.leb ?a ?b] |- _ => destruct (Nat.leb_spec a b)
  | H : context [Nat.eqb ?a ?b] |- _ => destruct (Nat.eqb_spec a b)
  end.

(** Inversion of sequenced outcomes. *)
Lemma obind_Val {A B} (m : outcome A) (k : A → outcome B) b :
  obind m k = Val b → ∃ a, m = Val a ∧ k a = Val b.
Proof. destruct m; try done. intros H. by eexists. Qed.
Ltac inv_val :=
  repeat match goal with
  | H : Val _ = Val _ |- _ => injection H as H; try subst
  | H : obind _ _ = Val _ |- _ => apply obind_Val in H as (? & ? & H)
  | H : Err _ = Val _ |- _ => discriminate H
  | H : Panic _ = Val _ |- _ => discriminate H
  end.

(** ** A codec of any message, for the witnesses *)
(** The binary digits of an encoding of the message. *)
Fixpoint pos_bytes (p : positive) : list byte :=
  match p with
  | xH => []
  | xO p => Byte.x00 :: pos_bytes p
  | xI p => Byte.x01 :: pos_bytes p
  end.
Fixpoint bytes_pos (l : list byte) : positive :=
  match l with
  | [] => xH
  | b :: l => if bool_decide (b = Byte.x00) then xO (bytes_pos l) else xI (bytes_pos l)
  end.
Lemma bytes_pos_bytes p : bytes_pos (pos_bytes p) = p.
Proof. induction p as [p IH|p IH|]; simpl; [..|done]; by rewrite IH. Qed.
Definition encode_bytes {A} `{Countable A} (x : A) : list byte := pos_bytes (encode x).
Definition decode_bytes {A} `{Countable A} (l : list byte) : outcome A :=
  match decode (bytes_pos l) with Some x => Val x | None => Err "proto" end.
Lemma decode_encode_bytes {A} `{Countable A} (x : A) : decode_bytes (encode_bytes x) = Val x.
Proof. unfold decode_bytes, encode_bytes. by rewrite bytes_pos_bytes, decode_encode. Qed.
