(* ===== verification/Ids.v ===== *)
(** * Ids, transfer paths and multi hop ids: connect.go

    [Id], [TransferPath] and [MultiHopId] are the comparable values the rest of
    the library uses as map keys. Go's [[]byte] that may be [nil] is an
    [option (list byte)]. *)

From stdpp Require Import vector.
From S2P Require Import Prelude.
Open Scope go_scope.

(** ** Id: [type Id [16]byte] *)
Definition Id : Type := vec byte 16.
#[export] Instance Id_eq_dec : EqDecision Id := _.
#[export] Program Instance Id_countable : Countable Id :=
  inj_countable (vec_to_list (A := byte) (n := 16)) (λ l, Some (to_array 16 l)) _.
Next Obligation. intros v. simpl. f_equal. apply to_array_vec. Qed.

(** [Id{}], which is also [ControlId]. *)
Definition Id_zero : Id := to_array 16 [].
Definition ControlId : Id := Id_zero.

Definition Id_Bytes (self : Id) : list byte := vec_to_list self.

Definition IdFromBytes (idBytes : list byte) : outcome Id :=
  if bool_decide (length idBytes ≠ 16) then Err "Id must be 16 bytes"
  else Val (to_array 16 idBytes).

Definition RequireIdFromBytes (idBytes : list byte) : outcome Id :=
  match IdFromBytes idBytes with
  | Err e => Panic e
  | r => r
  end.

(** The loop of [Cmp] over the two arrays. *)
Fixpoint Id_cmp_loop (a b : list byte) : Z :=
  match a, b with
  | v :: a, w :: b =>
      if (byte_val v <? byte_val w)%Z then (-1)%Z
      else if (byte_val w <? byte_val v)%Z then 1%Z
      else Id_cmp_loop a b
  | _, _ => 0%Z
  end.
Definition Id_Cmp (self b : Id) : Z := Id_cmp_loop (vec_to_list self) (vec_to_list b).
Definition Id_LessThan (self b : Id) : bool := (Id_Cmp self b <? 0)%Z.

(** *** Hexadecimal text of [encoding/hex] and [fmt]'s verb x *)
Definition hex_digit (n : Z) : byte :=
  if (n <? 10)%Z then byte_of (48 + n) else byte_of (87 + n).
Definition hex_encode (l : list byte) : list byte :=
  concat (map (λ b, [hex_digit (byte_val b `div` 16); hex_digit (byte_val b `mod` 16)]) l).

Definition from_hex_char (c : byte) : option Z :=
  let v := byte_val c in
  if (48 <=? v)%Z && (v <=? 57)%Z then Some (v - 48)%Z
  else if (97 <=? v)%Z && (v <=? 102)%Z then Some (v - 87)%Z
  else if (65 <=? v)%Z && (v <=? 70)%Z then Some (v - 55)%Z
  else None.
Fixpoint hex_decode (s : list byte) : outcome (list byte) :=
  match s with
  | [] => Val []
  | [c] => match from_hex_char c with
           | None => Err "encoding/hex: invalid byte"
           | Some _ => Err "encoding/hex: odd length hex string"
           end
  | c1 :: c2 :: s =>
      match from_hex_char c1, from_hex_char c2 with
      | Some a, Some b => let! r := hex_decode s in Val (byte_of (a * 16 + b) :: r)
      | _, _ => Err "encoding/hex: invalid byte"
      end
  end.

(** [src[i:j]] of a string. *)
Definition slice {A} (i j : nat) (s : list A) : list A := take (j - i) (drop i s).

Definition dash : byte := Byte.x2d.
Definition quote : byte := Byte.x22.

Definition encodeUuid (src : Id) : list byte :=
  let s := vec_to_list src in
  hex_encode (slice 0 4 s) ++ [dash] ++ hex_encode (slice 4 6 s) ++ [dash] ++
  hex_encode (slice 6 8 s) ++ [dash] ++ hex_encode (slice 8 10 s) ++ [dash] ++
  hex_encode (slice 10 16 s).

Definition parseUuid (src : list byte) : outcome Id :=
  let parse src := let! buf := hex_decode src in Val (to_array 16 buf) in
  if bool_decide (length src = 36) then
    parse (slice 0 8 src ++ slice 9 13 src ++ slice 14 18 src ++ slice 19 23 src ++ drop 24 src)
  else if bool_decide (length src = 32) then parse src
  else Err "cannot parse UUID".

Definition ParseId (idStr : list byte) : outcome Id := parseUuid idStr.
Definition Id_String (self : Id) : list byte := encodeUuid self.

Definition Id_MarshalJSON (self : Id) : list byte := [quote] ++ encodeUuid self ++ [quote].
Definition Id_UnmarshalJSON (src : list byte) : outcome Id :=
  if bool_decide (length src ≠ 38) then Err "invalid length for UUID"
  else parseUuid (slice 1 (length src - 1) src).

(** ** TransferPath *)
Record TransferPath := mkTransferPath {
  SourceId_ : Id;
  DestinationId_ : Id;
  StreamId_ : Id
}.
#[export] Instance TransferPath_eq_dec : EqDecision TransferPath.
Proof. solve_decision. Defined.
#[export] Program Instance TransferPath_countable : Countable TransferPath :=
  inj_countable' (λ p, (SourceId_ p, DestinationId_ p, StreamId_ p))
    (λ '(s, d, t), mkTransferPath s d t) _.
Next Obligation. by intros []. Qed.

Definition DestinationId (destinationId : Id) : TransferPath :=
  mkTransferPath Id_zero destinationId Id_zero.
Definition SourceId (sourceId : Id) : TransferPath :=
  mkTransferPath sourceId Id_zero Id_zero.
Definition StreamId (streamId : Id) : TransferPath :=
  mkTransferPath Id_zero Id_zero streamId.

Definition NewTransferPath (sourceId destinationId streamId : Id) : TransferPath :=
  if bool_decide (streamId = Id_zero) then mkTransferPath sourceId destinationId streamId
  else mkTransferPath Id_zero Id_zero streamId.

(** [if x != nil { y, err = IdFromBytes(x) }] *)
Definition IdFromOptBytes (bytes : option (list byte)) : outcome Id :=
  match bytes with None => Val Id_zero | Some b => IdFromBytes b end.

Definition TransferPathFromBytes
    (sourceIdBytes destinationIdBytes streamIdBytes : option (list byte)) : outcome TransferPath :=
  let! streamId := IdFromOptBytes streamIdBytes in
  if bool_decide (streamId = Id_zero) then
    let! sourceId := IdFromOptBytes sourceIdBytes in
    let! destinationId := IdFromOptBytes destinationIdBytes in
    Val (mkTransferPath sourceId destinationId streamId)
  else Val (mkTransferPath Id_zero Id_zero streamId).

(** The [protocol.TransferPath] message: optional byte fields. *)
Record ProtoTransferPath := mkProtoTransferPath {
  pSourceId : option (list byte);
  pDestinationId : option (list byte);
  pStreamId : option (list byte)
}.
Definition TransferPathFromProtobuf (p : ProtoTransferPath) : outcome TransferPath :=
  TransferPathFromBytes (pSourceId p) (pDestinationId p) (pStreamId p).

Definition IsStream (self : TransferPath) : bool := bool_decide (StreamId_ self ≠ Id_zero).
Definition IsSourceMask (self : TransferPath) : bool :=
  if IsStream self
  then bool_decide (SourceId_ self = Id_zero) && bool_decide (DestinationId_ self = Id_zero)
  else bool_decide (DestinationId_ self = Id_zero).
Definition IsDestinationMask (self : TransferPath) : bool :=
  if IsStream self
  then bool_decide (SourceId_ self = Id_zero) && bool_decide (DestinationId_ self = Id_zero)
  else bool_decide (SourceId_ self = Id_zero).
Definition IsControlSource (self : TransferPath) : bool :=
  IsSourceMask self && negb (IsStream self) && bool_decide (SourceId_ self = ControlId).
Definition IsControlDestination (self : TransferPath) : bool :=
  IsDestinationMask self && negb (IsStream self) && bool_decide (DestinationId_ self = ControlId).

Definition SourceMask (self : TransferPath) : TransferPath :=
  mkTransferPath (SourceId_ self) Id_zero (StreamId_ self).
Definition DestinationMask (self : TransferPath) : TransferPath :=
  mkTransferPath Id_zero (DestinationId_ self) (StreamId_ self).
Definition Reverse (self : TransferPath) : TransferPath :=
  mkTransferPath (DestinationId_ self) (SourceId_ self) (StreamId_ self).
Definition AddSource (self : TransferPath) (sourceId : Id) : TransferPath :=
  if IsStream self then self else mkTransferPath sourceId (DestinationId_ self) Id_zero.
Definition AddDestination (self : TransferPath) (destinationId : Id) : TransferPath :=
  if IsStream self then self else mkTransferPath (SourceId_ self) destinationId Id_zero.
Definition ToProtobuf (self : TransferPath) : ProtoTransferPath :=
  if IsStream self then mkProtoTransferPath None None (Some (Id_Bytes (StreamId_ self)))
  else mkProtoTransferPath (Some (Id_Bytes (SourceId_ self)))
         (Some (Id_Bytes (DestinationId_ self))) None.

(** ** MultiHopId *)
Definition MaxMultihopLength : nat := 8.
(** [ids] is the array of [MaxMultihopLength] ids. *)
Record MultiHopId := mkMultiHopId { mh_ids : list Id; mh_len : nat }.
#[export] Instance MultiHopId_eq_dec : EqDecision MultiHopId.
Proof. solve_decision. Defined.
#[export] Program Instance MultiHopId_countable : Countable MultiHopId :=
  inj_countable' (λ m, (mh_ids m, mh_len m)) (λ '(i, n), mkMultiHopId i n) _.
Next Obligation. by intros []. Qed.

Definition MultiHopId_zero : MultiHopId := mkMultiHopId (replicate MaxMultihopLength Id_zero) 0.

(** The [for i, id := range ids] loop: writes into the zeroed array. *)
Fixpoint write_ids (arr : list Id) (i : nat) (ids : list Id) : list Id :=
  match ids with
  | [] => arr
  | id :: ids => write_ids (<[i := id]> arr) (S i) ids
  end.

Definition NewMultiHopId (ids : list Id) : outcome MultiHopId :=
  if (MaxMultihopLength <? length ids)%nat then Err "Multihop length exceeds maximum"
  else Val (mkMultiHopId (write_ids (replicate MaxMultihopLength Id_zero) 0 ids) (length ids)).
Definition RequireMultiHopId (ids : list Id) : outcome MultiHopId :=
  match NewMultiHopId ids with Err e => Panic e | r => r end.

Fixpoint ids_from_bytes (l : list (list byte)) : outcome (list Id) :=
  match l with
  | [] => Val []
  | idBytes :: l =>
      if bool_decide (length idBytes ≠ 16) then Err "Id must be 16 bytes"
      else let! r := ids_from_bytes l in Val (to_array 16 idBytes :: r)
  end.
Definition MultiHopIdFromBytes (multiHopIdBytes : list (list byte)) : outcome MultiHopId :=
  let! ids := ids_from_bytes multiHopIdBytes in NewMultiHopId ids.

Definition MultiHopId_Len (self : MultiHopId) : nat := mh_len self.
Definition MultiHopId_Ids (self : MultiHopId) : list Id := take (mh_len self) (mh_ids self).
Definition MultiHopId_Bytes (self : MultiHopId) : list (list byte) :=
  map Id_Bytes (MultiHopId_Ids self).
Definition MultiHopId_Tail (self : MultiHopId) : outcome Id :=
  if bool_decide (mh_len self = 0) then Panic "Cannot call tail on empty multi hop id."
  else match mh_ids self !! (mh_len self - 1) with
       | Some id => Val id
       | None => Panic "index out of range"
       end.
Definition MultiHopId_SplitTail (self : MultiHopId) : outcome (MultiHopId * Id) :=
  if bool_decide (mh_len self = 0) then Panic "Cannot call split tail on empty multi hop id."
  else match mh_ids self !! (mh_len self - 1) with
       | None => Panic "index out of range"
       | Some id =>
           if bool_decide (mh_len self = 1) then Val (MultiHopId_zero, id)
           else Val (mkMultiHopId
                       (write_ids (replicate MaxMultihopLength Id_zero) 0
                          (take (mh_len self - 1) (mh_ids self)))
                       (mh_len self - 1), id)
       end.

(** ** Byte counts: [type ByteCount = int64] *)
Definition Kib (c : Z) : Z := i64 (c * 1024).
Definition Mib (c : Z) : Z := i64 (i64 (c * 1024) * 1024).
Definition Gib (c : Z) : Z := i64 (i64 (i64 (c * 1024) * 1024) * 1024).

(** ** Well-formedness *)

(** A path names either a stream or a source and a destination, never both. *)
Definition path_canonical (p : TransferPath) : Prop :=
  IsStream p = true → SourceId_ p = Id_zero ∧ DestinationId_ p = Id_zero.

(** The array has its Go length and is zero past [len], so [==] on the struct
    is equality of the hop lists. *)
Definition multihop_wf (m : MultiHopId) : Prop :=
  mh_len m ≤ MaxMultihopLength ∧
  mh_ids m = take (mh_len m) (mh_ids m) ++ replicate (MaxMultihopLength - mh_len m) Id_zero ∧
  length (mh_ids m) = MaxMultihopLength.

(** ** Ids *)
Lemma Id_Bytes_length id : length (Id_Bytes id) = 16.
Proof. apply length_vec_to_list. Qed.
Lemma Id_Bytes_inj a b : Id_Bytes a = Id_Bytes b → a = b.
Proof. unfold Id_Bytes. intros H. by rewrite <-(to_array_vec _ a), <-(to_array_vec _ b), H. Qed.
Lemma IdFromBytes_Bytes id : IdFromBytes (Id_Bytes id) = Val id.
Proof.
  unfold IdFromBytes. rewrite bool_decide_eq_false_2.
  - unfold Id_Bytes. by rewrite to_array_vec.
  - rewrite Id_Bytes_length. intros []. done.
Qed.
Lemma IdFromBytes_Val l id : IdFromBytes l = Val id → Id_Bytes id = l.
Proof.
  unfold IdFromBytes. case_bool_decide as H; [done|]. intros [= <-].
  apply to_array_list. destruct (decide (length l = 16)); done.
Qed.

Lemma from_hex_digit n : (0 ≤ n < 16)%Z → from_hex_char (hex_digit n) = Some n.
Proof.
  intros H.
  assert (n = 0 ∨ n = 1 ∨ n = 2 ∨ n = 3 ∨ n = 4 ∨ n = 5 ∨ n = 6 ∨ n = 7 ∨ n = 8 ∨
          n = 9 ∨ n = 10 ∨ n = 11 ∨ n = 12 ∨ n = 13 ∨ n = 14 ∨ n = 15)%Z as Hn by lia.
  repeat (destruct Hn as [->|Hn]; [reflexivity|]). by subst n.
Qed.
Lemma hex_encode_length l : length (hex_encode l) = 2 * length l.
Proof. induction l as [|b l IH]; [done|]. unfold hex_encode in *. simpl. lia. Qed.
Lemma hex_encode_app l1 l2 : hex_encode (l1 ++ l2) = hex_encode l1 ++ hex_encode l2.
Proof. unfold hex_encode. by rewrite map_app, concat_app. Qed.
Lemma hex_decode_encode l : hex_decode (hex_encode l) = Val l.
Proof.
  induction l as [|b l IH]; [done|].
  change (hex_encode (b :: l)) with
    (hex_digit (byte_val b `div` 16) :: hex_digit (byte_val b `mod` 16) :: hex_encode l).
  pose proof (byte_val_range b) as Hb. unfold is_u8 in Hb.
  cbn [hex_decode]. rewrite !from_hex_digit.
  - rewrite IH. cbn [obind]. do 2 f_equal.
    rewrite <-(byte_of_val b) at 3. f_equal. pose proof (Z.div_mod (byte_val b) 16). lia.
  - apply Z.mod_pos_bound. lia.
  - split; [apply Z.div_pos; lia|]. apply Z.div_lt_upper_bound; lia.
Qed.

Lemma slice_app_l {A} (n : nat) (a b : list A) : length a = n → slice 0 n (a ++ b) = a.
Proof. intros <-. unfold slice. rewrite drop_0, Nat.sub_0_r. apply take_app_length. Qed.
Lemma slice_skip {A} (i j n : nat) (a b : list A) :
  length a = n → n ≤ i → slice i j (a ++ b) = slice (i - n) (j - n) b.
Proof.
  intros <- H. unfold slice. rewrite drop_app_ge by done. f_equal. lia.
Qed.

(** The five groups of the text form, of 8, 4, 4, 4 and 12 digits. *)
Lemma uuid_groups (a b c d e : list byte) (x y z w : byte) :
  length a = 8 → length b = 4 → length c = 4 → length d = 4 →
  let src := a ++ [x] ++ b ++ [y] ++ c ++ [z] ++ d ++ [w] ++ e in
  slice 0 8 src ++ slice 9 13 src ++ slice 14 18 src ++ slice 19 23 src ++ drop 24 src
  = a ++ b ++ c ++ d ++ e.
Proof.
  intros Ha Hb Hc Hd src. subst src.
  repeat (destruct a as [|? a]; try discriminate Ha).
  repeat (destruct b as [|? b]; try discriminate Hb).
  repeat (destruct c as [|? c]; try discriminate Hc).
  repeat (destruct d as [|? d]; try discriminate Hd).
  reflexivity.
Qed.
Lemma slice_length {A} (i j : nat) (s : list A) :
  j ≤ length s → length (slice i j s) = j - i.
Proof. intros H. unfold slice. rewrite length_take, length_drop. lia. Qed.
Lemma slice_concat {A} (i j k : nat) (s : list A) :
  i ≤ j → j ≤ k → slice i j s ++ slice j k s = slice i k s.
Proof.
  intros H1 H2. unfold slice.
  replace (drop j s) with (drop (j - i) (drop i s)) by (rewrite drop_drop; f_equal; lia).
  generalize (drop i s). intros l.
  replace (k - i) with ((j - i) + (k - j)) by lia.
  by rewrite take_take_drop.
Qed.
Lemma parseUuid_encodeUuid id : parseUuid (encodeUuid id) = Val id.
Proof.
  unfold parseUuid, encodeUuid. set (s := vec_to_list id).
  assert (length s = 16) as Hs by apply length_vec_to_list.
  rewrite bool_decide_eq_true_2.
  - rewrite uuid_groups; try (rewrite hex_encode_length, slice_length; lia).
    rewrite <-!hex_encode_app, !slice_concat by lia.
    replace (slice 0 16 s) with s.
    + rewrite hex_decode_encode. cbn [obind]. unfold s. by rewrite to_array_vec.
    + unfold slice. rewrite drop_0, take_ge; [done|lia].
  - rewrite !length_app, !hex_encode_length, !slice_length by lia. done.
Qed.
Lemma encodeUuid_length id : length (encodeUuid id) = 36.
Proof.
  unfold encodeUuid. set (s := vec_to_list id).
  assert (length s = 16) as Hs by apply length_vec_to_list.
  by rewrite !length_app, !hex_encode_length, !slice_length by lia.
Qed.

(** The text and JSON forms of an id round trip: [ParseId] of [String] and
    [UnmarshalJSON] of [MarshalJSON] give the id back, for every id, and the
    text form has the 36 characters the parsers require. *)
Theorem id_text_roundtrip (id : Id) :
  ParseId (Id_String id) = Val id ∧
  Id_UnmarshalJSON (Id_MarshalJSON id) = Val id ∧
  length (Id_String id) = 36.
Proof.
  split; [apply parseUuid_encodeUuid|]. split; [|apply encodeUuid_length].
  unfold Id_UnmarshalJSON, Id_MarshalJSON.
  assert (length ([quote] ++ encodeUuid id ++ [quote]) = 38) as Hl
    by by rewrite !length_app, encodeUuid_length.
  rewrite Hl, bool_decide_eq_false_2 by (intros []; done).
  rewrite (slice_skip 1 (38 - 1) 1) by (simpl; lia).
  rewrite slice_app_l by (rewrite encodeUuid_length; done).
  apply parseUuid_encodeUuid.
Qed.

(** The 36 character form is parsed by position only: whatever the four
    separator characters are, the result is that of the 32 digits alone, so
    text without dashes in those places is accepted as an id. *)
Theorem parse_ignores_separators (a b c d e : list byte) (x y z w : byte)
    (Ha : length a = 8) (Hb : length b = 4) (Hc : length c = 4) (Hd : length d = 4)
    (He : length e = 12) :
  ParseId (a ++ [x] ++ b ++ [y] ++ c ++ [z] ++ d ++ [w] ++ e) = ParseId (a ++ b ++ c ++ d ++ e).
Proof.
  unfold ParseId, parseUuid.
  rewrite bool_decide_eq_true_2 by (rewrite !length_app; simpl; lia).
  rewrite uuid_groups by done.
  rewrite bool_decide_eq_false_2 by (rewrite !length_app; lia).
  by rewrite bool_decide_eq_true_2 by (rewrite !length_app; lia).
Qed.

Example parse_ignores_separators_witness :
  let eight := replicate 8 Byte.x31 in let four := replicate 4 Byte.x32 in
  let twelve := replicate 12 Byte.x33 in
  is_val (ParseId (eight ++ [Byte.x21] ++ four ++ [Byte.x20] ++ four ++ [Byte.x00] ++
                   four ++ [Byte.x7a] ++ twelve)) = true.
Proof.
  intros eight four twelve.
  rewrite (parse_ignores_separators eight four four four twelve); try reflexivity.
Defined.

(** *** Order *)
Lemma Id_cmp_loop_eq a b :
  length a = length b → Id_cmp_loop a b = 0%Z ↔ a = b.
Proof.
  revert b. induction a as [|x a IH]; intros [|y b]; try done.
  intros [= Hl]. cbn [Id_cmp_loop]. repeat case_bool; try (split; [lia|]; intros [= -> ->]; lia).
  rewrite IH by done. assert (x = y) as -> by (apply byte_val_inj; lia).
  split; [by intros ->|by intros [= ->]].
Qed.
Lemma Id_cmp_loop_antisym a b : Id_cmp_loop b a = (- Id_cmp_loop a b)%Z.
Proof.
  revert b. induction a as [|x a IH]; intros [|y b]; try done.
  cbn [Id_cmp_loop]. repeat case_bool; try lia. apply IH.
Qed.
Lemma Id_cmp_loop_trans a b c :
  length a = length b → length b = length c →
  (Id_cmp_loop a b < 0)%Z → (Id_cmp_loop b c < 0)%Z → (Id_cmp_loop a c < 0)%Z.
Proof.
  revert b c. induction a as [|x a IH]; intros [|y b] [|z c]; try done.
  intros [= Hl1] [= Hl2]. cbn [Id_cmp_loop]. repeat case_bool; try lia.
  by apply IH.
Qed.
Lemma Id_length (a : Id) : length (vec_to_list a) = 16.
Proof. apply length_vec_to_list. Qed.
Lemma Id_Cmp_eq (a b : Id) : Id_Cmp a b = 0%Z ↔ a = b.
Proof.
  unfold Id_Cmp. rewrite Id_cmp_loop_eq by by rewrite !Id_length.
  split; [apply Id_Bytes_inj|by intros ->].
Qed.

(** [LessThan] is a strict total order on ids, the order that decides which
    of two sequences from a source is newer: irreflexive, transitive, and any
    two different ids are ordered one way. *)
Theorem id_order (a b c : Id) :
  Id_LessThan a a = false ∧
  (Id_LessThan a b = true → Id_LessThan b c = true → Id_LessThan a c = true) ∧
  (Id_LessThan a b = true ↔ Id_LessThan b a = false ∧ a ≠ b).
Proof.
  unfold Id_LessThan. rewrite !Z.ltb_lt, !Z.ltb_ge. split_and!.
  - by rewrite (proj2 (Id_Cmp_eq a a) eq_refl).
  - unfold Id_Cmp. apply Id_cmp_loop_trans; by rewrite !Id_length.
  - rewrite <-Id_Cmp_eq. unfold Id_Cmp. rewrite (Id_cmp_loop_antisym (vec_to_list a)). lia.
Qed.

(** ** Paths *)
Lemma IdFromOptBytes_Some id : IdFromOptBytes (Some (Id_Bytes id)) = Val id.
Proof. apply IdFromBytes_Bytes. Qed.
Lemma TransferPathFromBytes_canonical s d t p :
  TransferPathFromBytes s d t = Val p → path_canonical p.
Proof.
  unfold TransferPathFromBytes. destruct (IdFromOptBytes t) as [t'| |]; cbn [obind]; try done.
  case_bool_decide as Ht; [|by intros [= <-]].
  destruct (IdFromOptBytes s) as [s'| |]; cbn [obind]; try done.
  destruct (IdFromOptBytes d) as [d'| |]; cbn [obind]; try done.
  intros [= <-] Hs. apply bool_decide_eq_true in Hs. done.
Qed.
Lemma NewTransferPath_canonical s d t : path_canonical (NewTransferPath s d t).
Proof.
  unfold NewTransferPath. destruct (bool_decide (t = Id_zero)) eqn:E; [|done].
  intros Hs. apply bool_decide_eq_true in Hs, E. done.
Qed.

Lemma TransferPath_proto p : path_canonical p → TransferPathFromProtobuf (ToProtobuf p) = Val p.
Proof.
  intros Hc. unfold ToProtobuf. destruct (IsStream p) eqn:Hs.
  - destruct (Hc Hs) as [H1 H2]. unfold TransferPathFromProtobuf, TransferPathFromBytes.
    cbn [pStreamId]. rewrite IdFromOptBytes_Some. cbn [obind].
    unfold IsStream in Hs. apply bool_decide_eq_true in Hs.
    rewrite bool_decide_eq_false_2 by done. destruct p. simpl in *. by subst.
  - unfold TransferPathFromProtobuf, TransferPathFromBytes.
    cbn [pStreamId pSourceId pDestinationId IdFromOptBytes obind].
    unfold IsStream in Hs. apply bool_decide_eq_false, dec_stable in Hs.
    rewrite bool_decide_eq_true_2 by done.
    rewrite !IdFromBytes_Bytes. cbn [obind]. destruct p. simpl in *. by subst.
Qed.

(** The wire form of a path: encoding and decoding a canonical path gives it
    back, and whatever bytes arrive, a decoded path is canonical (a stream id,
    or a source and a destination, never both). *)
Theorem path_proto_roundtrip (p : TransferPath) (q : ProtoTransferPath) :
  (path_canonical p → TransferPathFromProtobuf (ToProtobuf p) = Val p) ∧
  (∀ p', TransferPathFromProtobuf q = Val p' → path_canonical p').
Proof.
  split; [apply TransferPath_proto|intros p'; apply TransferPathFromBytes_canonical].
Qed.

Lemma Reverse_Reverse p : Reverse (Reverse p) = p.
Proof. by destruct p. Qed.
Lemma IsStream_Reverse p : IsStream (Reverse p) = IsStream p.
Proof. done. Qed.
Lemma Reverse_source_mask p : IsSourceMask (Reverse p) = IsDestinationMask p.
Proof. unfold IsSourceMask, IsDestinationMask. rewrite IsStream_Reverse. simpl.
  destruct (IsStream p); [apply andb_comm|done]. Qed.
Lemma SourceMask_is_mask p : path_canonical p → IsSourceMask (SourceMask p) = true.
Proof.
  intros Hc. unfold IsSourceMask. destruct (IsStream (SourceMask p)) eqn:Hs; simpl.
  - change (IsStream (SourceMask p)) with (IsStream p) in Hs. destruct (Hc Hs) as [-> _]. done.
  - done.
Qed.
Lemma DestinationMask_is_mask p : path_canonical p → IsDestinationMask (DestinationMask p) = true.
Proof.
  intros Hc. unfold IsDestinationMask. destruct (IsStream (DestinationMask p)) eqn:Hs; simpl.
  - change (IsStream (DestinationMask p)) with (IsStream p) in Hs. destruct (Hc Hs) as [_ ->]. done.
  - done.
Qed.
Lemma masks_join p : path_canonical p → IsStream p = false →
  AddSource (DestinationMask p) (SourceId_ p) = p.
Proof.
  intros _ Hs. unfold AddSource.
  change (IsStream (DestinationMask p)) with (IsStream p). rewrite Hs.
  unfold IsStream in Hs. apply bool_decide_eq_false, dec_stable in Hs.
  destruct p. simpl in *. by subst.
Qed.

(** ** Multi hop ids *)
Lemma write_ids_app arr pre ids :
  length pre + length ids ≤ length arr →
  write_ids (pre ++ drop (length pre) arr) (length pre) ids
  = pre ++ ids ++ drop (length pre + length ids) arr.
Proof.
  revert pre. induction ids as [|id ids IH]; intros pre Hl; simpl in *.
  - by rewrite Nat.add_0_r.
  - destruct (drop (length pre) arr) as [|x rest] eqn:Hd.
    { apply (f_equal length) in Hd. rewrite length_drop in Hd. simpl in Hd. lia. }
    rewrite insert_app_r_alt, Nat.sub_diag by done. simpl.
    assert (pre ++ id :: rest = (pre ++ [id]) ++ drop (length (pre ++ [id])) arr) as ->.
    { rewrite length_app, <-app_assoc. cbn [length app]. do 2 f_equal.
      by rewrite <-drop_drop, Hd. }
    replace (S (length pre)) with (length (pre ++ [id])) by (rewrite length_app; simpl; lia).
    rewrite IH by (rewrite length_app; simpl; lia).
    rewrite length_app, <-app_assoc. simpl. do 4 f_equal. lia.
Qed.
Lemma write_ids_zero ids :
  length ids ≤ MaxMultihopLength →
  write_ids (replicate MaxMultihopLength Id_zero) 0 ids
  = ids ++ replicate (MaxMultihopLength - length ids) Id_zero.
Proof.
  intros Hl. pose proof (write_ids_app (replicate MaxMultihopLength Id_zero) [] ids) as H.
  rewrite drop_0 in H. cbn [length app Nat.add] in H.
  rewrite H by (rewrite length_replicate; lia). by rewrite drop_replicate.
Qed.
Lemma NewMultiHopId_Val ids m :
  NewMultiHopId ids = Val m ↔
  length ids ≤ MaxMultihopLength ∧
  m = mkMultiHopId (ids ++ replicate (MaxMultihopLength - length ids) Id_zero) (length ids).
Proof.
  unfold NewMultiHopId. case_bool; [split; [done|lia]|].
  rewrite write_ids_zero by lia. split; [intros [= <-]; split; [lia|done]|by intros [_ ->]].
Qed.
Lemma NewMultiHopId_wf ids m :
  NewMultiHopId ids = Val m → multihop_wf m ∧ MultiHopId_Ids m = ids.
Proof.
  intros [Hl ->]%NewMultiHopId_Val. unfold multihop_wf, MultiHopId_Ids. simpl.
  rewrite take_app_length, length_app, length_replicate. split_and!; [done|done|lia|done].
Qed.
Lemma multihop_wf_make m : multihop_wf m → NewMultiHopId (MultiHopId_Ids m) = Val m.
Proof.
  intros (H1 & H2 & H3). unfold MultiHopId_Ids. apply NewMultiHopId_Val.
  rewrite length_take, H3. split; [lia|]. destruct m as [ids n]. simpl in *.
  rewrite Nat.min_l by lia. by rewrite H2 at 1.
Qed.
Lemma multihop_last m :
  multihop_wf m → mh_len m ≠ 0 →
  ∃ id, mh_ids m !! (mh_len m - 1) = Some id ∧
        MultiHopId_Ids m = take (mh_len m - 1) (mh_ids m) ++ [id].
Proof.
  intros (H1 & _ & H3) Hn.
  destruct (lookup_lt_is_Some_2 (mh_ids m) (mh_len m - 1)) as [id Hid]; [lia|].
  exists id. split; [done|]. unfold MultiHopId_Ids.
  replace (mh_len m) with (S (mh_len m - 1)) at 1 by lia. by apply take_S_r.
Qed.

Lemma MultiHopId_SplitTail_spec m :
  multihop_wf m → mh_len m ≠ 0 →
  ∃ pre tail, MultiHopId_SplitTail m = Val (pre, tail) ∧ MultiHopId_Tail m = Val tail ∧
    multihop_wf pre ∧ MultiHopId_Ids m = MultiHopId_Ids pre ++ [tail].
Proof.
  intros Hm Hn. destruct (multihop_last m Hm Hn) as (id & Hid & Hlast).
  assert (∃ pre, NewMultiHopId (take (mh_len m - 1) (mh_ids m)) = Val pre ∧
            MultiHopId_SplitTail m = Val (pre, id)) as (pre & Hpre & Hsplit).
  { unfold MultiHopId_SplitTail. rewrite bool_decide_eq_false_2, Hid by done.
    destruct Hm as (Hl & _ & Hlen). eexists. split.
    - apply NewMultiHopId_Val. rewrite length_take. split; [lia|done].
    - case_bool_decide as H1.
      + rewrite H1. done.
      + rewrite write_ids_zero by (rewrite length_take; lia).
        rewrite length_take. by rewrite Nat.min_l by lia. }
  exists pre, id. destruct (NewMultiHopId_wf _ _ Hpre) as [Hwf Hids].
  split_and!; [done| |done|by rewrite Hids].
  unfold MultiHopId_Tail. by rewrite bool_decide_eq_false_2, Hid by done.
Qed.

(** Multi hop ids are canonical: the constructor fails exactly over the
    maximum length, otherwise its value holds the given hops and two values are
    equal ([==], the map key equality) exactly when their hop lists are; and
    [SplitTail] of a nonempty value succeeds with a canonical prefix and the
    last hop, which put together again give the value. *)
Theorem multihop_canonical (ids : list Id) (m m' : MultiHopId)
    (Hm : multihop_wf m) (Hm' : multihop_wf m') :
  (is_val (NewMultiHopId ids) = true ↔ length ids ≤ MaxMultihopLength) ∧
  (∀ r, NewMultiHopId ids = Val r → multihop_wf r ∧ MultiHopId_Ids r = ids) ∧
  (m = m' ↔ MultiHopId_Ids m = MultiHopId_Ids m') ∧
  (mh_len m ≠ 0 → ∃ pre tail, MultiHopId_SplitTail m = Val (pre, tail) ∧
     MultiHopId_Tail m = Val tail ∧ multihop_wf pre ∧
     NewMultiHopId (MultiHopId_Ids pre ++ [tail]) = Val m).
Proof.
  split_and!.
  - unfold NewMultiHopId. case_bool; simpl; split; intros; lia || done.
  - apply NewMultiHopId_wf.
  - split; [by intros ->|]. intros Heq. apply multihop_wf_make in Hm, Hm'. congruence.
  - intros Hn. destruct (MultiHopId_SplitTail_spec m Hm Hn) as (pre & tail & ? & ? & ? & E).
    exists pre, tail. split_and!; [done..|]. rewrite <-E. by apply multihop_wf_make.
Qed.

Example multihop_canonical_witness :
  let a := to_array 16 (replicate 16 Byte.x01) in let b := to_array 16 (replicate 16 Byte.x02) in
  let m := mkMultiHopId ([a; b] ++ replicate 6 Id_zero) 2 in
  multihop_wf m ∧ ∃ pre tail, MultiHopId_SplitTail m = Val (pre, tail).
Proof.
  intros a b m. assert (multihop_wf m) as Hm by (unfold multihop_wf; simpl; split_and!; [unfold MaxMultihopLength; lia|reflexivity|reflexivity]).
  split; [exact Hm|].
  destruct (multihop_canonical [a] m m Hm Hm) as (_ & _ & _ & H).
  destruct (H ltac:(done)) as (pre & tail & Hs & _). exists pre, tail. exact Hs.
Defined.
