(* ===== verification/GoHeap.v ===== *)
(** * container/heap over slices of pointers

    The queues of the program (transferQueue, transferQueueMaxHeap, rttHeap,
    combineQueue, pumpQueue, pumpQueueMaxHeap) all implement heap.Interface in
    the same way: a slice of pointers to items, and in every item a field that
    holds its index in the slice, kept by [Push] and [Swap]. This file models
    that instance and the algorithms of Go's container/heap over it. A pointer
    is a key [K]; the index field of the items is the map [h_index], the shared
    store that [Swap] writes through the pointers. An index out of range is a
    panic, and the specifications prove that no operation of a well-formed
    heap panics. *)

From S2P Require Import Prelude.
From Stdlib Require Import ZifyNat.
Open Scope go_scope.

Ltac Zify.zify_post_hook ::= Z.to_euclidean_division_equations.

Record heap (K : Type) `{Countable K} := mkHeap {
  h_items : list K;
  h_index : gmap K nat
}.
Arguments mkHeap {K _ _} _ _.
Arguments h_items {K _ _} _.
Arguments h_index {K _ _} _.

(** [le] is a preorder that the comparison [less] of a heap decides. It covers
    both a strict [Less] (min heaps) and the reflexive one of the max heaps. *)
Class HeapOrder {K : Type} (less : K → K → bool) (le : K → K → Prop) := {
  hle_refl a : le a a;
  hle_trans a b c : le a b → le b c → le a c;
  hless_true a b : less a b = true → le a b;
  hless_false a b : less a b = false → le b a
}.

Section GoHeap.
Context {K : Type} `{Countable K}.
(** [Less(i, j)] as a comparison of the two items. *)
Variable less : K → K → bool.

Definition hLen (h : heap K) : nat := length (h_items h).

Definition hLess (i j : nat) (h : heap K) : outcome bool :=
  match h_items h !! i, h_items h !! j with
  | Some a, Some b => Val (less a b)
  | _, _ => Panic "index out of range"
  end.

(** [Swap]: two slice writes and two index field writes. *)
Definition hSwap (i j : nat) (h : heap K) : outcome (heap K) :=
  match h_items h !! i, h_items h !! j with
  | Some a, Some b =>
      Val (mkHeap (<[j := a]> (<[i := b]> (h_items h))) (<[a := j]> (<[b := i]> (h_index h))))
  | _, _ => Panic "index out of range"
  end.

(** The [Push] and [Pop] methods of the slice. *)
Definition slicePush (x : K) (h : heap K) : heap K :=
  mkHeap (h_items h ++ [x]) (<[x := length (h_items h)]> (h_index h)).
Definition slicePop (h : heap K) : outcome (K * heap K) :=
  match last (h_items h) with
  | Some x => Val (x, mkHeap (take (length (h_items h) - 1) (h_items h)) (h_index h))
  | None => Panic "index out of range"
  end.

Fixpoint up (fuel : nat) (j : nat) (h : heap K) : outcome (heap K) :=
  match fuel with
  | 0 => Panic "fuel"
  | S fuel =>
      let i := (j - 1) / 2 in
      if (i =? j)%nat then Val h else
      let! lt := hLess j i h in
      if negb lt then Val h else
      let! h := hSwap i j h in up fuel i h
  end.

(** The loop of [down]: the final position and the heap. *)
Fixpoint down_loop (fuel : nat) (i n : nat) (h : heap K) : outcome (nat * heap K) :=
  match fuel with
  | 0 => Panic "fuel"
  | S fuel =>
      let j1 := 2 * i + 1 in
      if (n <=? j1)%nat then Val (i, h) else
      let! lt2 := (if (j1 + 1 <? n)%nat then hLess (j1 + 1) j1 h else Val false) in
      let j := if (lt2 : bool) then j1 + 1 else j1 in
      let! lt := hLess j i h in
      if negb lt then Val (i, h) else
      let! h := hSwap i j h in down_loop fuel j n h
  end.
Definition down (i0 n : nat) (h : heap K) : outcome (bool * heap K) :=
  let! (i, h) := down_loop (S n) i0 n h in Val ((i0 <? i)%nat, h).

(** [heap.Push], [heap.Remove], [heap.Fix], [heap.Init]. *)
Definition hPush (x : K) (h : heap K) : outcome (heap K) :=
  let h := slicePush x h in up (hLen h) (hLen h - 1) h.

Definition hRemove (i : nat) (h : heap K) : outcome (K * heap K) :=
  let n := hLen h - 1 in
  let! h := (if (n =? i)%nat then Val h else
               let! h := hSwap i n h in
               let! (moved, h) := down i n h in
               if (moved : bool) then Val h else up (S i) i h) in
  slicePop h.

Definition hFix (i : nat) (h : heap K) : outcome (heap K) :=
  let! (moved, h) := down i (hLen h) h in
  if (moved : bool) then Val h else up (S i) i h.

Fixpoint init_loop (k : nat) (h : heap K) : outcome (heap K) :=
  match k with
  | 0 => Val h
  | S k => let! (_, h) := down k (hLen h) h in init_loop k h
  end.
Definition hInit (h : heap K) : outcome (heap K) := init_loop (hLen h / 2) h.

(** ** Order *)
Variable le : K → K → Prop.
Context `{!HeapOrder less le}.

Local Lemma le_refl a : le a a.
Proof. apply hle_refl. Qed.
Local Lemma le_trans a b c : le a b → le b c → le a c.
Proof. apply hle_trans. Qed.
Local Lemma less_true a b : less a b = true → le a b.
Proof. apply hless_true. Qed.
Local Lemma less_false a b : less a b = false → le b a.
Proof. apply hless_false. Qed.

Definition parent (k : nat) : nat := (k - 1) / 2.

(** The pair (parent of k, k) is in order. *)
Definition pair_ok (l : list K) (k : nat) : Prop :=
  ∀ a b, l !! parent k = Some a → l !! k = Some b → le a b.
Definition ordered (n : nat) (l : list K) : Prop :=
  ∀ k, 0 < k < n → pair_ok l k.
(** Every item below the parent of [i] and below [i]'s place is in order with it. *)
Definition grand_ok (n : nat) (l : list K) (i : nat) : Prop :=
  ∀ k a b, 0 < i → 0 < k < n → parent k = i →
    l !! parent i = Some a → l !! k = Some b → le a b.
(** In order but for the item at [i]. *)
Definition hole (n : nat) (l : list K) (i : nat) : Prop :=
  (∀ k, 0 < k < n → k ≠ i → parent k ≠ i → pair_ok l k) ∧ grand_ok n l i.

(** Every index field points back at its item, and no pointer occurs twice. *)
Definition index_ok (h : heap K) : Prop :=
  NoDup (h_items h) ∧ ∀ i x, h_items h !! i = Some x → h_index h !! x = Some i.
Definition heap_ok (h : heap K) : Prop := index_ok h ∧ ordered (hLen h) (h_items h).

(** What the swaps of the first [n] places keep. *)
Definition same_items (n : nat) (h h' : heap K) : Prop :=
  h_items h' ≡ₚ h_items h ∧ drop n (h_items h') = drop n (h_items h) ∧
  (index_ok h → index_ok h').

Lemma same_items_refl n h : same_items n h h.
Proof. done. Qed.
Lemma same_items_trans n h1 h2 h3 :
  same_items n h1 h2 → same_items n h2 h3 → same_items n h1 h3.
Proof.
  intros (P1 & D1 & I1) (P2 & D2 & I2). split_and!; [by rewrite P2|congruence|auto].
Qed.
Lemma same_items_len n h h' : same_items n h h' → hLen h' = hLen h.
Proof. intros (P & _). unfold hLen. by rewrite P. Qed.

Lemma swap_lookup (l : list K) i j a b k :
  l !! i = Some a → l !! j = Some b →
  <[j := a]> (<[i := b]> l) !! k =
    if decide (k = j) then Some a else if decide (k = i) then Some b else l !! k.
Proof.
  intros Ha Hb. pose proof (lookup_lt_Some _ _ _ Ha). pose proof (lookup_lt_Some _ _ _ Hb).
  destruct (decide (k = j)) as [->|].
  - rewrite list_lookup_insert_eq; [done|]. by rewrite length_insert.
  - rewrite list_lookup_insert_ne by done. destruct (decide (k = i)) as [->|].
    + by rewrite list_lookup_insert_eq.
    + by rewrite list_lookup_insert_ne.
Qed.
Lemma hSwap_spec n i j h a b :
  h_items h !! i = Some a → h_items h !! j = Some b → i < n → j < n → i ≠ j →
  ∃ h', hSwap i j h = Val h' ∧ same_items n h h' ∧
    h_items h' = <[j := a]> (<[i := b]> (h_items h)).
Proof.
  intros Ha Hb Hi Hj Hij. unfold hSwap. rewrite Ha, Hb. eexists. split; [done|]. split; [|done].
  split_and!; simpl.
  - by apply Permutation_insert_swap.
  - by rewrite !drop_insert_lt.
  - intros [Hnd Hix]. split; simpl; [by rewrite Permutation_insert_swap|].
    intros k x. rewrite (swap_lookup _ _ _ a b) by done.
    destruct (decide (k = j)) as [->|]; [intros [= <-]; apply lookup_insert_eq|].
    assert (∀ k', h_items h !! k' = Some x → k' ≠ j → k' ≠ i → x ≠ a ∧ x ≠ b) as Hne.
    { intros k' Hk' ??. split; intros ->.
      - by assert (k' = i) by by eapply NoDup_lookup.
      - by assert (k' = j) by by eapply NoDup_lookup. }
    destruct (decide (k = i)) as [->|].
    + intros [= <-]. rewrite lookup_insert_ne; [apply lookup_insert_eq|].
      intros ->. by assert (i = j) by by eapply NoDup_lookup.
    + intros Hk. destruct (Hne k Hk) as [? ?]; [done..|].
      rewrite !lookup_insert_ne by done. auto.
Qed.

(** A swap of [i] and its child [j] when the child is to go up. *)
Lemma swap_up (l : list K) i j a b n :
  0 < j < n → parent j = i → n ≤ length l →
  l !! i = Some a → l !! j = Some b → le b a →
  (∀ k, 0 < k < n → k ≠ j → pair_ok l k) → grand_ok n l j →
  let l' := <[j := a]> (<[i := b]> l) in
  (∀ k, 0 < k < n → k ≠ i → pair_ok l' k) ∧ grand_ok n l' i.
Proof.
  intros Hj Hpj Hlen Ha Hb Hba Hpair Hgrand l'.
  assert (i < j) by (unfold parent in *; lia).
  split.
  - intros k Hk Hki x y. unfold l'. rewrite !(swap_lookup _ _ _ a b) by done.
    destruct (decide (k = j)) as [->|Hkj].
    + rewrite Hpj, decide_False, decide_True by lia. by intros [= <-] [= <-].
    + rewrite (decide_False (P := k = i)) by done.
      destruct (decide (parent k = j)) as [Hp|Hp].
      * intros [= <-] Hy. eapply (Hgrand k); [lia|done|done|by rewrite Hpj|done].
      * destruct (decide (parent k = i)) as [Hp'|Hp'].
        -- intros [= <-] Hy. apply le_trans with a; [done|].
           apply (Hpair k); [done|done|by rewrite Hp'|done].
        -- intros Hx Hy. by apply (Hpair k).
  - intros k x y Hi Hk Hpk. unfold l'. rewrite !(swap_lookup _ _ _ a b) by done.
    assert (parent i < i) by (unfold parent; lia).
    rewrite !(decide_False (P := parent i = _)) by lia. intros Hx.
    assert (le x a) by (apply (Hpair i); [lia|lia|done|done]).
    destruct (decide (k = j)) as [->|Hkj]; [by intros [= <-]|].
    rewrite decide_False by (unfold parent in *; lia). intros Hy.
    apply le_trans with a; [done|]. apply (Hpair k); [done|done|by rewrite Hpk|done].
Qed.

Lemma up_spec n fuel j h :
  j < n → n ≤ hLen h → j < fuel →
  (∀ k, 0 < k < n → k ≠ j → pair_ok (h_items h) k) → grand_ok n (h_items h) j →
  ∃ h', up fuel j h = Val h' ∧ same_items n h h' ∧ ordered n (h_items h').
Proof.
  revert j h. induction fuel as [|fuel IH]; intros j h Hj Hn Hf Hpair Hgrand; [lia|].
  cbn [up]. fold (parent j). case_bool.
  { assert (j = 0) by (unfold parent in *; lia).
    exists h. split_and!; [done|apply same_items_refl|]. intros k Hk. apply Hpair; lia. }
  assert (parent j < j) by (unfold parent in *; lia).
  destruct (lookup_lt_is_Some_2 (h_items h) j) as [b Hb]; [unfold hLen in *; lia|].
  destruct (lookup_lt_is_Some_2 (h_items h) (parent j)) as [a Ha]; [unfold hLen in *; lia|].
  unfold hLess. rewrite Hb, Ha. cbn [obind]. destruct (less b a) eqn:Hl; cbn [negb].
  - destruct (hSwap_spec n (parent j) j h a b) as (h1 & Heq & Hs & Hl1); [done|done|lia|lia|lia|].
    rewrite Heq. cbn [obind].
    destruct (swap_up (h_items h) (parent j) j a b n) as [H1 H2];
      [lia|done|done|done|done|by apply less_true|done|done|].
    rewrite <-Hl1 in H1, H2.
    destruct (IH (parent j) h1) as (h' & Hup & Hs' & Hord);
      [lia|by rewrite (same_items_len _ _ _ Hs)|lia|done|done|].
    exists h'. split_and!; [done|by eapply same_items_trans|done].
  - exists h. split_and!; [done|apply same_items_refl|].
    intros k Hk. destruct (decide (k = j)) as [->|]; [|by apply Hpair].
    intros x y Hx Hy. simplify_eq. by apply less_false.
Qed.

(** A swap of [i] and its least child [j] when the item at [i] is to go down. *)
Lemma swap_down (l : list K) i j a b n :
  j < n → parent j = i → i < j → n ≤ length l →
  l !! i = Some a → l !! j = Some b → le b a →
  (∀ k y, 0 < k < n → parent k = i → l !! k = Some y → le b y) →
  hole n l i →
  let l' := <[j := a]> (<[i := b]> l) in hole n l' j ∧ pair_ok l' j ∧
    (0 < i → pair_ok l' i).
Proof.
  intros Hj Hpj Hij Hlen Ha Hb Hba Hmin [Hpair Hgrand] l'.
  assert (0 < i → pair_ok l' i) as Hpi.
  { intros Hi x y. unfold l'. rewrite !(swap_lookup _ _ _ a b) by done.
    assert (parent i < i) by (unfold parent; lia).
    rewrite !(decide_False (P := parent i = _)), (decide_False (P := i = j)), decide_True by lia.
    intros Hx [= <-]. eapply (Hgrand j); eauto; lia. }
  split_and!; [split|..|done].
  - intros k Hk Hkj Hpk. destruct (decide (k = i)) as [->|Hki]; [apply Hpi; lia|].
    intros x y. unfold l'. rewrite !(swap_lookup _ _ _ a b) by done.
    rewrite !(decide_False (P := k = _)), (decide_False (P := parent k = j)) by done.
    destruct (decide (parent k = i)) as [Hp|Hp].
    + intros [= <-] Hy. by eapply Hmin.
    + intros Hx Hy. by apply (Hpair k).
  - intros k x y Hj0 Hk Hp. unfold l'. rewrite !(swap_lookup _ _ _ a b) by done.
    assert (parent k < k) by (unfold parent; lia).
    rewrite Hpj, (decide_False (P := i = j)), (decide_True (P := i = i)),
      !(decide_False (P := k = _)) by lia.
    intros [= <-] Hy. apply (Hpair k); [done|lia|lia|by rewrite Hp|done].
  - intros x y. unfold l'. rewrite !(swap_lookup _ _ _ a b) by done.
    rewrite Hpj, (decide_False (P := i = j)), !decide_True by lia. by intros [= <-] [= <-].
Qed.

Definition children_ok (n : nat) (l : list K) (i : nat) : Prop :=
  ∀ k, 0 < k < n → parent k = i → pair_ok l k.

Lemma hole_ordered n l i :
  hole n l i → children_ok n l i → (0 < i → pair_ok l i) → ordered n l.
Proof.
  intros [Hp _] Hc Hi k Hk.
  destruct (decide (k = i)) as [->|]; [apply Hi; lia|].
  destruct (decide (parent k = i)); [by apply Hc|by apply Hp].
Qed.

Lemma parent_children i k : 0 < k → parent k = i → k = 2 * i + 1 ∨ k = 2 * i + 2.
Proof. unfold parent. intros. lia. Qed.

(** The choice of the least child. *)
Lemma least_child n i h :
  n ≤ hLen h → 2 * i + 1 < n →
  ∃ lt2 j b, (if (2 * i + 1 + 1 <? n)%nat then hLess (2 * i + 1 + 1) (2 * i + 1) h
             else Val false) = Val lt2 ∧
    j = (if (lt2 : bool) then 2 * i + 1 + 1 else 2 * i + 1) ∧ j < n ∧ parent j = i ∧
    h_items h !! j = Some b ∧
    (∀ k y, 0 < k < n → parent k = i → h_items h !! k = Some y → le b y).
Proof.
  intros Hn H1.
  destruct (lookup_lt_is_Some_2 (h_items h) (2 * i + 1)) as [b1 Hb1]; [unfold hLen in *; lia|].
  case_bool.
  - destruct (lookup_lt_is_Some_2 (h_items h) (2 * i + 1 + 1)) as [b2 Hb2]; [unfold hLen in *; lia|].
    unfold hLess. rewrite Hb1, Hb2. exists (less b2 b1).
    destruct (less b2 b1) eqn:Hl; eexists _, _; split_and!;
      try done; try (unfold parent; lia); intros k y Hk Hp Hy;
      destruct (parent_children i k) as [->| ->]; try lia;
      replace (2 * i + 1 + 1) with (2 * i + 2) in * by lia; simplify_eq; auto using le_refl, less_true, less_false.
  - exists false. eexists _, b1. split_and!; try done; [unfold parent; lia|].
    intros k y Hk Hp Hy. destruct (parent_children i k) as [->| ->]; try lia.
    simplify_eq. apply le_refl.
Qed.

Lemma down_loop_spec n fuel i h :
  i < n → n ≤ hLen h → n - i < fuel → hole n (h_items h) i →
  ∃ i' h', down_loop fuel i n h = Val (i', h') ∧ same_items n h h' ∧ i ≤ i' ∧
    (i' = i → h' = h ∧ children_ok n (h_items h) i) ∧
    (i < i' → ordered n (h_items h')).
Proof.
  revert i h. induction fuel as [|fuel IH]; intros i h Hi Hn Hf Hhole; [lia|].
  assert (∃ a, h_items h !! i = Some a) as [a Ha].
  { apply lookup_lt_is_Some_2. unfold hLen in *. lia. }
  cbn [down_loop]. destruct (Nat.leb_spec n (2 * i + 1)).
  { exists i, h. split_and!; [done|apply same_items_refl|lia| |lia].
    intros _. split; [done|]. intros k Hk Hp. destruct (parent_children i k); lia. }
  destruct (least_child n i h) as (lt2 & j & b & Heq & Hj & Hjn & Hpj & Hb & Hmin); [lia|lia|].
  rewrite Heq. cbn [obind]. rewrite <-Hj.
  assert (i < j) by (destruct lt2; lia).
  unfold hLess. rewrite Hb, Ha. cbn [obind]. destruct (less b a) eqn:Hl; cbn [negb].
  - destruct (hSwap_spec n i j h a b) as (h1 & Heq1 & Hs & Hl1); [done|done|lia|lia|lia|].
    rewrite Heq1. cbn [obind].
    destruct (swap_down (h_items h) i j a b n) as (Hhole1 & Hpj1 & Hpi1);
      [done|done|done|done|done|done|by apply less_true|done|done|].
    rewrite <-Hl1 in Hhole1, Hpj1.
    destruct (IH j h1) as (i' & h' & Hd & Hs' & Hle & Hstop & Hmove);
      [done|by rewrite (same_items_len _ _ _ Hs)|lia|done|].
    exists i', h'. split_and!; [done|by eapply same_items_trans|lia|lia|].
    intros _. destruct (decide (i' = j)) as [E|]; [|apply Hmove; lia].
    destruct (Hstop E) as [-> Hc]. by apply (hole_ordered n _ j).
  - exists i, h. split_and!; [done|apply same_items_refl|lia| |lia].
    intros _. split; [done|]. intros k Hk Hp x y Hx Hy.
    rewrite Hp in Hx. simplify_eq. apply le_trans with b; [by apply less_false|by eapply Hmin].
Qed.

(** [down] and, when it did not move the item, [up]: the common part of
    [Remove] and [Fix]. *)
Lemma down_up_spec n i h :
  i < n → n ≤ hLen h → hole n (h_items h) i →
  ∃ h', (let! (moved, h1) := down i n h in
         if (moved : bool) then Val h1 else up (S i) i h1) = Val h' ∧
    same_items n h h' ∧ ordered n (h_items h').
Proof.
  intros Hi Hn Hh. unfold down.
  destruct (down_loop_spec n (S n) i h) as (i' & h' & Hd & Hs & Hle & Hstop & Hmove);
    [done|done|lia|done|].
  rewrite Hd. cbn [obind]. destruct (Nat.ltb_spec i i'); [by eauto|].
  destruct Hstop as [-> Hc]; [lia|]. destruct Hh as [Hpair Hgrand].
  apply up_spec; [done|done|lia| |done].
  intros k Hk Hki. destruct (decide (parent k = i)); [by apply Hc|by apply Hpair].
Qed.

Lemma heap_index h i x : heap_ok h → h_items h !! i = Some x → h_index h !! x = Some i.
Proof. intros [[_ H1] _]. auto. Qed.

Lemma same_items_ok h h' :
  same_items (hLen h) h h' → index_ok h → ordered (hLen h) (h_items h') → heap_ok h'.
Proof.
  intros Hs Hi Ho. split; [by apply Hs|]. by rewrite (same_items_len _ _ _ Hs).
Qed.

(** [heap.Push] of a new pointer. *)
Lemma hPush_spec x h :
  heap_ok h → x ∉ h_items h →
  ∃ h', hPush x h = Val h' ∧ heap_ok h' ∧ h_items h' ≡ₚ x :: h_items h.
Proof.
  intros [[Hnd Hix] Hord] Hx. unfold hPush. set (h0 := slicePush x h).
  assert (hLen h0 = S (hLen h)) as Hlen.
  { unfold hLen. simpl. rewrite length_app. simpl. lia. }
  assert (index_ok h0) as Hix0.
  { split; simpl.
    - apply NoDup_app. split_and!; [done| |by apply NoDup_singleton].
      intros y Hy ->%list_elem_of_singleton. done.
    - intros i y Hy. destruct (decide (x = y)) as [->|Hne].
      + rewrite lookup_insert_eq. f_equal. apply lookup_app_Some in Hy as [Hy|[? Hy]].
        * by apply list_elem_of_lookup_2 in Hy.
        * apply list_lookup_singleton_Some in Hy. lia.
      + rewrite lookup_insert_ne by done. apply Hix.
        apply lookup_app_Some in Hy as [Hy|[_ Hy]]; [done|].
        by apply list_lookup_singleton_Some in Hy as [_ ?]. }
  destruct (up_spec (hLen h0) (hLen h0) (hLen h0 - 1) h0) as (h' & Hup & Hs & Ho);
    [lia|lia|lia| | |].
  - intros k Hk Hne a b. simpl. assert (parent k < k) by (unfold parent; lia).
    unfold hLen in *. rewrite !lookup_app_l by lia. apply Hord. unfold hLen. lia.
  - intros k a b Hi Hk Hp. unfold parent in *. lia.
  - exists h'. split_and!; [done|by apply (same_items_ok h0)|].
    destruct Hs as [Hp _]. rewrite Hp. simpl. by rewrite Permutation_app_comm.
Qed.

(** Dropping the last place. *)
Lemma slicePop_spec h x :
  index_ok h → h_items h !! (hLen h - 1) = Some x → ordered (hLen h - 1) (h_items h) →
  ∃ h', slicePop h = Val (x, h') ∧ heap_ok h' ∧ x :: h_items h' ≡ₚ h_items h.
Proof.
  intros [Hnd Hix] Hl Hord. unfold slicePop. rewrite last_lookup.
  replace (pred (length (h_items h))) with (hLen h - 1) by (unfold hLen; lia). rewrite Hl.
  pose proof (lookup_lt_Some _ _ _ Hl) as Hlt.
  eexists. split; [done|]. fold (hLen h).
  assert (h_items h = take (hLen h - 1) (h_items h) ++ [x]) as E.
  { rewrite <-(take_drop (hLen h - 1) (h_items h)) at 1. f_equal.
    rewrite (drop_S _ _ _ Hl). f_equal. apply drop_ge. unfold hLen. lia. }
  split; [split; [split|]|]; simpl.
  - rewrite E in Hnd. by apply NoDup_app in Hnd as [? _].
  - intros i y [Hy _]%lookup_take_Some. auto.
  - intros k Hk a b. unfold hLen in Hk. simpl in Hk.
    rewrite length_take in Hk. fold (hLen h) in Hk. assert (parent k < k) by (unfold parent; lia).
    rewrite !lookup_take_lt by lia. apply Hord. lia.
  - rewrite E at 2. by rewrite Permutation_app_comm.
Qed.

Lemma ordered_hole n l i : ordered n l → hole n l i.
Proof.
  intros Ho. split; [intros; by apply Ho|]. intros k a b Hi Hk Hp Ha Hb.
  destruct (lookup_lt_is_Some_2 l i) as [c Hc].
  { apply lookup_lt_Some in Hb. unfold parent in *. lia. }
  apply le_trans with c; [apply (Ho i)|apply (Ho k)]; try done; [|by rewrite Hp].
  unfold parent in *. lia.
Qed.

(** [heap.Remove] at an index, at which the order may have changed. *)
Lemma hRemove_hole h i x :
  index_ok h → hole (hLen h) (h_items h) i → h_items h !! i = Some x →
  ∃ h', hRemove i h = Val (x, h') ∧ heap_ok h' ∧ x :: h_items h' ≡ₚ h_items h.
Proof.
  intros Hix Hhole Hx. pose proof (lookup_lt_Some _ _ _ Hx) as Hlt. fold (hLen h) in Hlt.
  unfold hRemove. destruct (Nat.eqb_spec (hLen h - 1) i) as [E|Hne]; cbn [obind].
  - apply slicePop_spec; [done|by rewrite E|]. intros k Hk. apply Hhole; unfold parent; lia.
  - set (n := hLen h - 1) in *.
    destruct (lookup_lt_is_Some_2 (h_items h) n) as [y Hy]; [unfold n, hLen in *; lia|].
    destruct (hSwap_spec (S n) i n h x y) as (h1 & Heq & Hs & Hl1); [done|done|lia|lia|lia|].
    rewrite Heq. cbn [obind]. pose proof (same_items_len _ _ _ Hs) as Hlen1.
    assert (hole n (h_items h1) i) as Hh.
    { destruct Hhole as [Hp Hg].
      assert (∀ k, k ≠ i → k < n → h_items h1 !! k = h_items h !! k) as Hk1.
      { intros k ??. rewrite Hl1, (swap_lookup _ _ _ x y) by done.
        rewrite !decide_False by lia. done. }
      split.
      - intros k Hk Hki Hpi a b. assert (parent k < k) by (unfold parent; lia).
        rewrite !Hk1 by lia. apply Hp; [lia|done|done].
      - intros k a b Hi Hk Hpk. assert (parent i < i ∧ parent k < k) by (unfold parent; lia).
        rewrite !Hk1 by lia. apply Hg; [done|lia|done]. }
    destruct (down_up_spec n i h1) as (h2 & Hd & Hs2 & Ho2); [lia|lia|done|].
    rewrite Hd. cbn [obind].
    assert (h_items h2 !! n = Some x) as Hn.
    { destruct Hs2 as (_ & Hdrop & _). apply (f_equal (.!! 0)) in Hdrop.
      rewrite !lookup_drop, Nat.add_0_r, Hl1, (swap_lookup _ _ _ x y) in Hdrop by done.
      by rewrite decide_True in Hdrop. }
    pose proof (same_items_len _ _ _ Hs2) as Hlen2.
    assert (hLen h2 - 1 = n) as En by (rewrite Hlen2, Hlen1; done).
    destruct (slicePop_spec h2 x) as (h' & Hpop & Hok & Hperm).
    + apply Hs2. by apply Hs.
    + by rewrite En.
    + by rewrite En.
    + exists h'. split_and!; [done..|]. rewrite Hperm.
      destruct Hs as (P1 & _), Hs2 as (P2 & _). by rewrite P2.
Qed.
Lemma hRemove_spec h i x :
  heap_ok h → h_items h !! i = Some x →
  ∃ h', hRemove i h = Val (x, h') ∧ heap_ok h' ∧ x :: h_items h' ≡ₚ h_items h.
Proof. intros [Hix Hord]. apply hRemove_hole; [done|]. by apply ordered_hole. Qed.

(** [heap.Fix]: the order may change at one place. *)
Lemma hFix_spec h i :
  index_ok h → i < hLen h → hole (hLen h) (h_items h) i →
  ∃ h', hFix i h = Val h' ∧ heap_ok h' ∧ h_items h' ≡ₚ h_items h.
Proof.
  intros Hix Hi Hh. unfold hFix.
  destruct (down_up_spec (hLen h) i h) as (h' & Hd & Hs & Ho); [done|done|done|].
  exists h'. split_and!; [done|by apply (same_items_ok h)|apply Hs].
Qed.

(** The first item is least. *)
Lemma heap_first h a b :
  heap_ok h → h_items h !! 0 = Some a → b ∈ h_items h → le a b.
Proof.
  intros [_ Ho] Ha [k Hk]%list_elem_of_lookup. revert b Hk.
  induction k as [k IH] using lt_wf_ind. intros b Hk.
  destruct (decide (k = 0)) as [->|]; [simplify_eq; apply le_refl|].
  pose proof (lookup_lt_Some _ _ _ Hk) as Hlt.
  assert (parent k < k) as Hp by (unfold parent; lia).
  destruct (lookup_lt_is_Some_2 (h_items h) (parent k)) as [c Hc]; [lia|].
  apply le_trans with c; [by apply (IH (parent k))|].
  apply (Ho k); [unfold hLen; lia|done|done].
Qed.

Definition empty_heap : heap K := mkHeap [] ∅.
Lemma empty_heap_ok : heap_ok empty_heap.
Proof.
  split; [split; [by apply NoDup_nil|done]|]. intros k Hk. unfold hLen in Hk. simpl in Hk. lia.
Qed.
End GoHeap.

(** ** A comparison that depends on a store

    The queues of items with an update time compare what the pointers point
    at: writing an item changes the comparison, at one place of the heap. *)
Section Reordered.
Context {K : Type} `{Countable K}.
Lemma heap_ok_ext (le1 le2 : K → K → Prop) h :
  (∀ a b, a ∈ h_items h → b ∈ h_items h → le1 a b → le2 a b) → heap_ok le1 h → heap_ok le2 h.
Proof.
  intros Hle [Hix Ho]. split; [done|]. intros k Hk a b Ha Hb.
  apply Hle; [by eapply list_elem_of_lookup_2..|]. by apply (Ho k).
Qed.
Lemma changed_hole (less1 : K → K → bool) (le1 le2 : K → K → Prop) `{!HeapOrder less1 le1} h i x :
  heap_ok le1 h → h_items h !! i = Some x → (∀ a b, a ≠ x → b ≠ x → le1 a b → le2 a b) →
  hole le2 (hLen h) (h_items h) i.
Proof.
  intros [[Hnd _] Ho] Hx Hle. destruct (ordered_hole less1 le1 (hLen h) (h_items h) i Ho) as [Hp Hg].
  assert (∀ k y, k ≠ i → h_items h !! k = Some y → y ≠ x) as Hne.
  { intros k y Hk Hy ->. apply Hk. by eapply NoDup_lookup. }
  split.
  - intros k Hk Hki Hpk a b Ha Hb. apply Hle; [by apply (Hne (parent k))|by apply (Hne k)|]. by apply (Hp k).
  - intros k a b Hi Hk Hpk Ha Hb. apply Hle; [eapply (Hne (parent i)); [unfold parent; lia|done]|eapply (Hne k); [unfold parent in *; lia|done]|].
    by apply (Hg k).
Qed.
End Reordered.
(** By a number, up or down. *)
Definition less_by {K} (f : K → Z) (a b : K) : bool := (f a <? f b)%Z.
Definition more_by {K} (f : K → Z) (a b : K) : bool := (f b <? f a)%Z.
#[export] Instance less_by_order {K} (f : K → Z) : HeapOrder (less_by f) (λ a b, (f a ≤ f b)%Z).
Proof. split; unfold less_by; intros *; rewrite ?Z.ltb_lt, ?Z.ltb_ge; lia. Qed.
#[export] Instance more_by_order {K} (f : K → Z) : HeapOrder (more_by f) (λ a b, (f b ≤ f a)%Z).
Proof. split; unfold more_by; intros *; rewrite ?Z.ltb_lt, ?Z.ltb_ge; lia. Qed.
