(* ===== verification/TransferQueue.v ===== *)
(** * The transfer queue: transfer_queue.go

    A [transferQueue] keeps its items in a min heap and in a max heap of the
    same comparison, indexed by message id and by sequence number, with the sum
    of the message sizes. An item is a pointer; the class [TransferQueueItem]
    is the Go interface, and the two heap index fields of the items are the
    [h_index] stores of the two heaps. The queue is proved to refine a finite
    collection of items. *)

From S2P Require Import Prelude Ids GoHeap.
Open Scope go_scope.

(** [transferQueueItem], less the heap index accessors. *)
Class TransferQueueItem (K : Type) := {
  MessageId : K → Id;
  MessageByteCount : K → Z;
  SequenceNumber : K → Z
}.

(** The comparison that a queue is made with: what a [cmp] function returns is
    the sign of a total preorder. *)
Class TransferQueueCmp {K : Type} (cmp : K → K → Z) := {
  cmp_flip a b : (cmp a b < 0 ↔ 0 < cmp b a)%Z;
  cmp_trans a b c : (cmp a b ≤ 0 → cmp b c ≤ 0 → cmp a c ≤ 0)%Z
}.

Record transferQueue (K : Type) `{Countable K} := mkTransferQueue {
  orderedItems : heap K;
  maxHeap : heap K;
  messageIdItems : gmap Id K;
  sequenceNumberItems : gmap Z K;
  byteCount : Z
}.
Arguments mkTransferQueue {K _ _} _ _ _ _ _.
Arguments orderedItems {K _ _} _.
Arguments maxHeap {K _ _} _.
Arguments messageIdItems {K _ _} _.
Arguments sequenceNumberItems {K _ _} _.
Arguments byteCount {K _ _} _.

Section TransferQueue.
Context {K : Type} `{Countable K} `{!TransferQueueItem K}.
Variable cmp : K → K → Z.

(** [Less] of the queue and of its max heap. *)
Definition transferQueue_Less (a b : K) : bool := (cmp a b <? 0)%Z.
Definition transferQueueMaxHeap_Less (a b : K) : bool := (0 <=? cmp a b)%Z.

(** The index fields: [HeapIndex()], zero before it is set. *)
Definition HeapIndex (h : heap K) (x : K) : nat := default 0 (h_index h !! x).

Definition newTransferQueue : outcome (transferQueue K) :=
  let! mh := hInit transferQueueMaxHeap_Less empty_heap in
  let! h := hInit transferQueue_Less empty_heap in
  Val (mkTransferQueue h mh ∅ ∅ 0%Z).

Definition QueueSize (q : transferQueue K) : nat * Z :=
  (hLen (orderedItems q), byteCount q).

Definition Add (item : K) (q : transferQueue K) : outcome (transferQueue K) :=
  let ids := <[MessageId item := item]> (messageIdItems q) in
  let seqs := <[SequenceNumber item := item]> (sequenceNumberItems q) in
  let! h := hPush transferQueue_Less item (orderedItems q) in
  let! mh := hPush transferQueueMaxHeap_Less item (maxHeap q) in
  Val (mkTransferQueue h mh ids seqs (i64 (byteCount q + MessageByteCount item))).

Definition ContainsMessageId (messageId : Id) (q : transferQueue K) : option Z :=
  SequenceNumber <$> messageIdItems q !! messageId.

(** The unexported [remove]. *)
Definition queue_remove (item : K) (q : transferQueue K) : outcome (K * transferQueue K) :=
  let ids := delete (MessageId item) (messageIdItems q) in
  let seqs := delete (SequenceNumber item) (sequenceNumberItems q) in
  let! (item', h) := hRemove transferQueue_Less (HeapIndex (orderedItems q) item) (orderedItems q) in
  if bool_decide (item ≠ item') then Panic "Heap invariant broken." else
  let! (_, mh) := hRemove transferQueueMaxHeap_Less (HeapIndex (maxHeap q) item) (maxHeap q) in
  Val (item, mkTransferQueue h mh ids seqs (i64 (byteCount q - MessageByteCount item))).

Definition RemoveByMessageId (messageId : Id) (q : transferQueue K)
    : outcome (option K * transferQueue K) :=
  match messageIdItems q !! messageId with
  | None => Val (None, q)
  | Some item => let! (item, q) := queue_remove item q in Val (Some item, q)
  end.
Definition RemoveBySequenceNumber (sequenceNumber : Z) (q : transferQueue K)
    : outcome (option K * transferQueue K) :=
  match sequenceNumberItems q !! sequenceNumber with
  | None => Val (None, q)
  | Some item => let! (item, q) := queue_remove item q in Val (Some item, q)
  end.

Definition GetByMessageId (messageId : Id) (q : transferQueue K) : option K :=
  messageIdItems q !! messageId.
Definition GetBySequenceNumber (sequenceNumber : Z) (q : transferQueue K) : option K :=
  sequenceNumberItems q !! sequenceNumber.

Definition RemoveFirst (q : transferQueue K) : outcome (option K * transferQueue K) :=
  if (hLen (orderedItems q) =? 0)%nat then Val (None, q) else
  let! (item, h) := hRemove transferQueue_Less 0 (orderedItems q) in
  let! (_, mh) := hRemove transferQueueMaxHeap_Less (HeapIndex (maxHeap q) item) (maxHeap q) in
  Val (Some item,
       mkTransferQueue h mh (delete (MessageId item) (messageIdItems q))
         (delete (SequenceNumber item) (sequenceNumberItems q))
         (i64 (byteCount q - MessageByteCount item))).

Definition PeekFirst (q : transferQueue K) : option K := h_items (orderedItems q) !! 0.
Definition PeekLast (q : transferQueue K) : option K := h_items (maxHeap q) !! 0.

(** ** The abstract queue

    What the queue promises: a finite collection [l] of items, whose ids and
    sequence numbers are unique, answering by id, by number and by order. *)
Inductive queue_op :=
| OpAdd (item : K)
| OpRemoveByMessageId (messageId : Id)
| OpRemoveBySequenceNumber (sequenceNumber : Z)
| OpRemoveFirst
| OpGetByMessageId (messageId : Id)
| OpGetBySequenceNumber (sequenceNumber : Z)
| OpContainsMessageId (messageId : Id)
| OpPeekFirst
| OpPeekLast
| OpQueueSize.
Inductive queue_result :=
| RUnit
| RItem (item : option K)
| RNumber (sequenceNumber : option Z)
| RSize (n : nat) (byteCount : Z).

(** One operation of the code. *)
Definition queue_step (op : queue_op) (q : transferQueue K)
    : outcome (queue_result * transferQueue K) :=
  match op with
  | OpAdd item => let! q := Add item q in Val (RUnit, q)
  | OpRemoveByMessageId m => let! (r, q) := RemoveByMessageId m q in Val (RItem r, q)
  | OpRemoveBySequenceNumber s =>
      let! (r, q) := RemoveBySequenceNumber s q in Val (RItem r, q)
  | OpRemoveFirst => let! (r, q) := RemoveFirst q in Val (RItem r, q)
  | OpGetByMessageId m => Val (RItem (GetByMessageId m q), q)
  | OpGetBySequenceNumber s => Val (RItem (GetBySequenceNumber s q), q)
  | OpContainsMessageId m => Val (RNumber (ContainsMessageId m q), q)
  | OpPeekFirst => Val (RItem (PeekFirst q), q)
  | OpPeekLast => Val (RItem (PeekLast q), q)
  | OpQueueSize => let (n, b) := QueueSize q in Val (RSize n b, q)
  end.

(** The precondition of [Add] that its callers keep: the id and the number of
    the item are new. *)
Definition op_enabled (op : queue_op) (l : list K) : Prop :=
  match op with
  | OpAdd item => ∀ x, x ∈ l → MessageId x ≠ MessageId item ∧ SequenceNumber x ≠ SequenceNumber item
  | _ => True
  end.

(** [r] is the item of [l] that [P] picks out, if there is one. *)
Definition picks (P : K → Prop) (l : list K) (r : option K) : Prop :=
  match r with
  | Some x => x ∈ l ∧ P x
  | None => ∀ x, x ∈ l → ¬ P x
  end.
Definition removes (l : list K) (r : option K) (l' : list K) : Prop :=
  match r with Some x => x :: l' ≡ₚ l | None => l' ≡ₚ l end.
Definition is_first (l : list K) (x : K) : Prop := ∀ y, y ∈ l → (cmp x y ≤ 0)%Z.
Definition is_last (l : list K) (x : K) : Prop := ∀ y, y ∈ l → (0 ≤ cmp x y)%Z.

Definition spec_step (l : list K) (op : queue_op) (r : queue_result) (l' : list K) : Prop :=
  match op, r with
  | OpAdd x, RUnit => l' ≡ₚ x :: l
  | OpRemoveByMessageId m, RItem o => picks (λ x, MessageId x = m) l o ∧ removes l o l'
  | OpRemoveBySequenceNumber s, RItem o => picks (λ x, SequenceNumber x = s) l o ∧ removes l o l'
  | OpRemoveFirst, RItem o => picks (is_first l) l o ∧ (o = None → l = []) ∧ removes l o l'
  | OpGetByMessageId m, RItem o => picks (λ x, MessageId x = m) l o ∧ l' ≡ₚ l
  | OpGetBySequenceNumber s, RItem o => picks (λ x, SequenceNumber x = s) l o ∧ l' ≡ₚ l
  | OpContainsMessageId m, RNumber o =>
      (∃ x, picks (λ x, MessageId x = m) l x ∧ o = SequenceNumber <$> x) ∧ l' ≡ₚ l
  | OpPeekFirst, RItem o => picks (is_first l) l o ∧ (o = None → l = []) ∧ l' ≡ₚ l
  | OpPeekLast, RItem o => picks (is_last l) l o ∧ (o = None → l = []) ∧ l' ≡ₚ l
  | OpQueueSize, RSize n b =>
      n = length l ∧ b = i64 (zsum (map MessageByteCount l)) ∧ l' ≡ₚ l
  | _, _ => False
  end.

(** A run of the code, and a run of the abstract queue with the same results. *)
Fixpoint queue_run (ops : list queue_op) (q : transferQueue K)
    : outcome (list queue_result * transferQueue K) :=
  match ops with
  | [] => Val ([], q)
  | op :: ops =>
      let! (r, q) := queue_step op q in
      let! (rs, q) := queue_run ops q in Val (r :: rs, q)
  end.
Inductive spec_run : list K → list queue_op → list queue_result → list K → Prop :=
| spec_run_nil l : spec_run l [] [] l
| spec_run_cons l op r l' ops rs l'' :
    spec_step l op r l' → spec_run l' ops rs l'' → spec_run l (op :: ops) (r :: rs) l''.
(** Every [Add] of the run is enabled in every state the abstract queue can be in. *)
Fixpoint run_enabled (ops : list queue_op) (l : list K) : Prop :=
  match ops with
  | [] => True
  | op :: ops => op_enabled op l ∧ ∀ r l', spec_step l op r l' → run_enabled ops l'
  end.

(** ** The invariant *)
Context `{!TransferQueueCmp cmp}.

Lemma cmp_refl a : (cmp a a ≤ 0)%Z.
Proof. pose proof (cmp_flip a a). lia. Qed.

Definition min_le (a b : K) : Prop := (cmp a b ≤ 0)%Z.
Definition max_le (a b : K) : Prop := (0 ≤ cmp a b)%Z.

#[export] Instance min_heap_order : HeapOrder transferQueue_Less min_le.
Proof.
  unfold min_le, transferQueue_Less. split.
  - apply cmp_refl.
  - apply cmp_trans.
  - intros a b. case_bool; [lia|done].
  - intros a b. pose proof (cmp_flip b a). pose proof (cmp_flip a b). case_bool; [done|lia].
Qed.
#[export] Instance max_heap_order : HeapOrder transferQueueMaxHeap_Less max_le.
Proof.
  unfold max_le, transferQueueMaxHeap_Less. split.
  - intros a. pose proof (cmp_flip a a). lia.
  - intros a b c. pose proof (cmp_flip b a). pose proof (cmp_flip c b). pose proof (cmp_flip a b).
    pose proof (cmp_flip b c). pose proof (cmp_flip c a). pose proof (cmp_flip a c).
    pose proof (cmp_trans c b a). lia.
  - intros a b. case_bool; [lia|done].
  - intros a b. pose proof (cmp_flip b a). pose proof (cmp_flip a b). case_bool; [done|lia].
Qed.

(** The queue holds exactly the items of [l]. *)
Record queue_holds (q : transferQueue K) (l : list K) : Prop := {
  qh_heap : heap_ok min_le (orderedItems q);
  qh_max : heap_ok max_le (maxHeap q);
  qh_items : h_items (orderedItems q) ≡ₚ l;
  qh_max_items : h_items (maxHeap q) ≡ₚ l;
  qh_ids x : x ∈ l → messageIdItems q !! MessageId x = Some x;
  qh_ids_back m x : messageIdItems q !! m = Some x → x ∈ l ∧ MessageId x = m;
  qh_seqs x : x ∈ l → sequenceNumberItems q !! SequenceNumber x = Some x;
  qh_seqs_back s x : sequenceNumberItems q !! s = Some x → x ∈ l ∧ SequenceNumber x = s;
  qh_bytes : byteCount q = i64 (zsum (map MessageByteCount l))
}.

#[export] Instance queue_holds_proper q : Proper ((≡ₚ) ==> iff) (queue_holds q).
Proof.
  assert (∀ l l', l ≡ₚ l' → queue_holds q l → queue_holds q l') as Hw.
  { intros l l' Hl []. split; try done.
    - by rewrite <-Hl.
    - by rewrite <-Hl.
    - intros x. rewrite <-Hl. auto.
    - intros m x. rewrite <-Hl. auto.
    - intros x. rewrite <-Hl. auto.
    - intros m x. rewrite <-Hl. auto.
    - by rewrite <-Hl. }
  intros l l' Hl. split; by apply Hw.
Qed.

Lemma newTransferQueue_holds : ∃ q, newTransferQueue = Val q ∧ queue_holds q [].
Proof.
  eexists. split; [reflexivity|]. split; simpl; try done; try apply empty_heap_ok.
  - by intros ? ?%elem_of_nil.
  - by intros ? ?%elem_of_nil.
Qed.

Lemma Add_holds q l item :
  queue_holds q l → op_enabled (OpAdd item) l →
  ∃ q', Add item q = Val q' ∧ queue_holds q' (item :: l).
Proof.
  intros [Hh Hm Hi Hmi Hid Hidb Hs Hsb Hb] He. simpl in He.
  assert (item ∉ l) as Hnew by (intros Hin; by destruct (He item Hin)).
  unfold Add.
  destruct (hPush_spec transferQueue_Less min_le item (orderedItems q))
    as (h & -> & Hh' & Hp); [done|by rewrite Hi|]. cbn [obind].
  destruct (hPush_spec transferQueueMaxHeap_Less max_le item (maxHeap q))
    as (mh & -> & Hm' & Hpm); [done|by rewrite Hmi|]. cbn [obind].
  eexists. split; [done|]. split; cbn [orderedItems maxHeap messageIdItems sequenceNumberItems byteCount].
  - done.
  - done.
  - by rewrite Hp, Hi.
  - by rewrite Hpm, Hmi.
  - intros x [->|Hx]%elem_of_cons; [by rewrite lookup_insert_eq|].
    rewrite lookup_insert_ne; [by apply Hid|]. destruct (He x Hx). congruence.
  - intros m x [[<- <-]|[? Hx]]%lookup_insert_Some; [by split; [apply elem_of_cons; left|]|].
    destruct (Hidb _ _ Hx). split; [apply elem_of_cons; by right|done].
  - intros x [->|Hx]%elem_of_cons; [by rewrite lookup_insert_eq|].
    rewrite lookup_insert_ne; [by apply Hs|]. destruct (He x Hx). congruence.
  - intros m x [[<- <-]|[? Hx]]%lookup_insert_Some; [by split; [apply elem_of_cons; left|]|].
    destruct (Hsb _ _ Hx). split; [apply elem_of_cons; by right|done].
  - rewrite Hb, i64_add_l. f_equal. unfold zsum. simpl. lia.
Qed.

(** What is left when [item] is taken out. *)
Lemma holds_removed q l item l' h mh :
  queue_holds q l → item :: l' ≡ₚ l →
  heap_ok min_le h → heap_ok max_le mh → h_items h ≡ₚ l' → h_items mh ≡ₚ l' →
  queue_holds (mkTransferQueue h mh (delete (MessageId item) (messageIdItems q))
    (delete (SequenceNumber item) (sequenceNumberItems q))
    (i64 (byteCount q - MessageByteCount item))) l'.
Proof.
  intros [Hh Hm Hi Hmi Hid Hidb Hs Hsb Hb] Hl Hh' Hm' Hp Hpm.
  assert (NoDup (item :: l')) as [Hni _]%NoDup_cons.
  { rewrite Hl, <-Hi. apply Hh. }
  assert (∀ x, x ∈ l ↔ x = item ∨ x ∈ l') as Hin.
  { intros x. by rewrite <-Hl, elem_of_cons. }
  split; cbn [orderedItems maxHeap messageIdItems sequenceNumberItems byteCount]; try done.
  - intros x Hx. assert (x ∈ l) as Hxl by (apply Hin; auto).
    rewrite lookup_delete_ne; [by apply Hid|]. intros E.
    pose proof (Hid x Hxl) as E1. rewrite <-E, (Hid item) in E1 by (apply Hin; auto). congruence.
  - intros m x [Hne Hx]%lookup_delete_Some. destruct (Hidb _ _ Hx) as [Hxl <-].
    apply Hin in Hxl as [->|]; done.
  - intros x Hx. assert (x ∈ l) as Hxl by (apply Hin; auto).
    rewrite lookup_delete_ne; [by apply Hs|]. intros E.
    pose proof (Hs x Hxl) as E1. rewrite <-E, (Hs item) in E1 by (apply Hin; auto). congruence.
  - intros m x [Hne Hx]%lookup_delete_Some. destruct (Hsb _ _ Hx) as [Hxl <-].
    apply Hin in Hxl as [->|]; done.
  - rewrite Hb, <-Hl. unfold Z.sub. rewrite i64_add_l. f_equal. unfold zsum. simpl. lia.
Qed.

Lemma HeapIndex_spec le h x :
  heap_ok le h → x ∈ h_items h → h_items h !! HeapIndex h x = Some x.
Proof.
  intros Hh [i Hi]%list_elem_of_lookup. unfold HeapIndex.
  by rewrite (heap_index le h i x Hh Hi).
Qed.

Lemma queue_remove_holds q l item :
  queue_holds q l → item ∈ l →
  ∃ q' l', queue_remove item q = Val (item, q') ∧ item :: l' ≡ₚ l ∧ queue_holds q' l'.
Proof.
  intros Hq Hin. pose proof Hq as [Hh Hm Hi Hmi _ _ _ _ _].
  unfold queue_remove.
  destruct (hRemove_spec transferQueue_Less min_le (orderedItems q)
    (HeapIndex (orderedItems q) item) item) as (h & -> & Hh' & Hp);
    [done|eapply HeapIndex_spec; [done|by rewrite Hi]|]. cbn [obind].
  rewrite bool_decide_eq_false_2 by auto.
  destruct (hRemove_spec transferQueueMaxHeap_Less max_le (maxHeap q)
    (HeapIndex (maxHeap q) item) item) as (mh & -> & Hm' & Hpm);
    [done|eapply HeapIndex_spec; [done|by rewrite Hmi]|]. cbn [obind].
  eexists _, (h_items h). split; [done|]. rewrite Hi in Hp. split; [done|].
  eapply holds_removed; try done. apply (Permutation_cons_inv (a := item)).
  by rewrite Hpm, Hp.
Qed.

Lemma RemoveFirst_holds q l :
  queue_holds q l →
  ∃ r q' l', RemoveFirst q = Val (r, q') ∧ picks (is_first l) l r ∧ (r = None → l = []) ∧
    removes l r l' ∧ queue_holds q' l'.
Proof.
  intros Hq. pose proof Hq as [Hh Hm Hi Hmi _ _ _ _ _].
  unfold RemoveFirst, hLen. destruct (h_items (orderedItems q)) as [|x0 xs] eqn:E; simpl length; cbn [Nat.eqb].
  { apply Permutation_nil_l in Hi. subst l. exists None, q, [].
    split_and!; [done|by intros ? ?%elem_of_nil|done|by simpl|done]. }
  assert (h_items (orderedItems q) !! 0 = Some x0) as H0 by (by rewrite E).
  assert (x0 ∈ l) as Hx0 by (rewrite <-Hi; apply elem_of_cons; auto).
  destruct (hRemove_spec transferQueue_Less min_le (orderedItems q) 0 x0)
    as (h & -> & Hh' & Hp); [done|done|]. cbn [obind].
  destruct (hRemove_spec transferQueueMaxHeap_Less max_le (maxHeap q)
    (HeapIndex (maxHeap q) x0) x0) as (mh & -> & Hm' & Hpm);
    [done|eapply HeapIndex_spec; [done|by rewrite Hmi]|]. cbn [obind].
  rewrite E, Hi in Hp.
  eexists (Some x0), _, (h_items h). split_and!; [done|split; [done|]|done|done|].
  - intros y Hy. apply (heap_first transferQueue_Less min_le (orderedItems q)); [done|done|].
    by rewrite E, Hi.
  - eapply holds_removed; try done. apply (Permutation_cons_inv (a := x0)). by rewrite Hpm, Hp.
Qed.

Lemma peek_holds less le `{!HeapOrder less le} h l r :
  heap_ok le h → h_items h ≡ₚ l → h_items h !! 0 = r →
  picks (λ x, ∀ y, y ∈ l → le x y) l r ∧ (r = None → l = []).
Proof.
  intros Hh Hl Hx. destruct r as [x|]; simpl.
  - split; [|done]. assert (x ∈ h_items h) as Hin by (by eapply list_elem_of_lookup_2).
    split; [by rewrite <-Hl|]. intros y Hy. eapply (heap_first less le); eauto. by rewrite Hl.
  - destruct (h_items h); [|done]. apply Permutation_nil_l in Hl. subst l.
    split; [|done]. by intros x ?%elem_of_nil.
Qed.

Lemma id_picks q l m :
  queue_holds q l → picks (λ x, MessageId x = m) l (messageIdItems q !! m).
Proof.
  intros Hq. destruct (messageIdItems q !! m) as [x|] eqn:E; simpl.
  - by apply (qh_ids_back _ _ Hq).
  - intros x Hx <-. by rewrite (qh_ids _ _ Hq) in E.
Qed.
Lemma seq_picks q l s :
  queue_holds q l → picks (λ x, SequenceNumber x = s) l (sequenceNumberItems q !! s).
Proof.
  intros Hq. destruct (sequenceNumberItems q !! s) as [x|] eqn:E; simpl.
  - by apply (qh_seqs_back _ _ Hq).
  - intros x Hx <-. by rewrite (qh_seqs _ _ Hq) in E.
Qed.

Lemma RemoveByMessageId_holds q l m :
  queue_holds q l →
  ∃ r q' l', RemoveByMessageId m q = Val (r, q') ∧ picks (λ x, MessageId x = m) l r ∧
    removes l r l' ∧ queue_holds q' l'.
Proof.
  intros Hq. unfold RemoveByMessageId. pose proof (id_picks q l m Hq) as Hp.
  destruct (messageIdItems q !! m) as [x|]; cbn [obind]; [|by exists None, q, l; split_and!; [| |simpl|]].
  destruct (queue_remove_holds q l x) as (q' & l' & -> & Hl & Hq'); [done|apply Hp|].
  cbn [obind]. by exists (Some x), q', l'.
Qed.
(** Removing an item that is there. *)
Lemma RemoveByMessageId_item q x l l' :
  queue_holds q l → x :: l' ≡ₚ l →
  ∃ q', RemoveByMessageId (MessageId x) q = Val (Some x, q') ∧ queue_holds q' l'.
Proof.
  intros Hq Hl. assert (x ∈ l) as Hx by (rewrite <-Hl; apply elem_of_cons; by left).
  destruct (RemoveByMessageId_holds q l (MessageId x) Hq) as (r & q' & l1 & E & Hp & Hr & Hq').
  destruct r as [y|]; simpl in Hp, Hr; [|by destruct (Hp x Hx)].
  assert (y = x) as ->.
  { destruct Hp as [Hy Eid]. pose proof (qh_ids _ _ Hq y Hy) as H1. rewrite Eid in H1.
    rewrite (qh_ids _ _ Hq x Hx) in H1. congruence. }
  exists q'. split; [done|]. rewrite <-Hl in Hr. apply (Permutation_cons_inv (a := x)) in Hr.
  by rewrite <-Hr.
Qed.
Lemma queue_ids_nodup q l : queue_holds q l → NoDup l → NoDup (map MessageId l).
Proof.
  intros Hq Hn. apply NoDup_fmap_2_strong; [|done]. intros x y Hx Hy E.
  pose proof (qh_ids _ _ Hq x Hx) as H1. rewrite E, (qh_ids _ _ Hq y Hy) in H1. congruence.
Qed.
Lemma RemoveBySequenceNumber_holds q l s :
  queue_holds q l →
  ∃ r q' l', RemoveBySequenceNumber s q = Val (r, q') ∧ picks (λ x, SequenceNumber x = s) l r ∧
    removes l r l' ∧ queue_holds q' l'.
Proof.
  intros Hq. unfold RemoveBySequenceNumber. pose proof (seq_picks q l s Hq) as Hp.
  destruct (sequenceNumberItems q !! s) as [x|]; cbn [obind]; [|by exists None, q, l; split_and!; [| |simpl|]].
  destruct (queue_remove_holds q l x) as (q' & l' & -> & Hl & Hq'); [done|apply Hp|].
  cbn [obind]. by exists (Some x), q', l'.
Qed.
Lemma PeekFirst_holds q l :
  queue_holds q l → picks (is_first l) l (PeekFirst q) ∧ (PeekFirst q = None → l = []).
Proof.
  intros Hq.
  by destruct (peek_holds transferQueue_Less min_le (orderedItems q) l (PeekFirst q));
    [apply Hq..|done|].
Qed.
Lemma PeekLast_holds q l :
  queue_holds q l → picks (is_last l) l (PeekLast q) ∧ (PeekLast q = None → l = []).
Proof.
  intros Hq.
  by destruct (peek_holds transferQueueMaxHeap_Less max_le (maxHeap q) l (PeekLast q));
    [apply Hq..|done|].
Qed.
Lemma QueueSize_holds q l :
  queue_holds q l → QueueSize q = (length l, i64 (zsum (map MessageByteCount l))).
Proof.
  intros Hq. unfold QueueSize, hLen. rewrite (qh_bytes _ _ Hq). by rewrite (qh_items _ _ Hq).
Qed.

Lemma queue_step_refines q l op :
  queue_holds q l → op_enabled op l →
  ∃ r q' l', queue_step op q = Val (r, q') ∧ spec_step l op r l' ∧ queue_holds q' l'.
Proof.
  intros Hq He. destruct op as [x|m|s| |m|s|m| | |]; cbn [queue_step].
  - destruct (Add_holds q l x) as (q' & -> & Hq'); [done..|]. cbn [obind].
    eexists _, _, (x :: l). split; [done|]. split; [by simpl|done].
  - destruct (RemoveByMessageId_holds q l m Hq) as (r & q' & l' & -> & ? & ? & ?). cbn [obind].
    eexists _, _, l'. split; [done|]. split; [by split|done].
  - destruct (RemoveBySequenceNumber_holds q l s Hq) as (r & q' & l' & -> & ? & ? & ?). cbn [obind].
    eexists _, _, l'. split; [done|]. split; [by split|done].
  - destruct (RemoveFirst_holds q l Hq) as (r & q' & l' & -> & ? & ? & ? & ?). cbn [obind].
    eexists _, _, l'. split; [done|]. split; [by split_and!|done].
  - eexists _, _, l. split; [done|]. split; [|done]. split; [by apply id_picks|done].
  - eexists _, _, l. split; [done|]. split; [|done]. split; [by apply seq_picks|done].
  - eexists _, _, l. split; [done|]. split; [|done]. split; [|done].
    eexists. split; [by apply id_picks|done].
  - eexists _, _, l. split; [done|]. split; [|done].
    by destruct (PeekFirst_holds q l Hq).
  - eexists _, _, l. split; [done|]. split; [|done].
    by destruct (PeekLast_holds q l Hq).
  - pose proof (QueueSize_holds q l Hq) as E. destruct (QueueSize q) as [n b].
    injection E as -> ->. eexists _, _, l. split; [done|]. split; [by split_and!|done].
Qed.

(** C10. The transfer queue refines a finite collection of items: from the new
    queue, every sequence of operations whose [Add]s bring new ids and numbers
    runs without a panic (in particular without "Heap invariant broken."), and
    its results are those of the abstract queue: lookups and removals by id and
    by number find exactly the item that has it, [PeekFirst] and [RemoveFirst]
    give a least item of the comparison and [PeekLast] a greatest one, and
    [QueueSize] the number of items and the 64-bit sum of their sizes. *)
Theorem transfer_queue_refines (ops : list queue_op) :
  run_enabled ops [] →
  ∃ q0 rs q l, newTransferQueue = Val q0 ∧ queue_run ops q0 = Val (rs, q) ∧
    spec_run [] ops rs l ∧ queue_holds q l.
Proof.
  destruct newTransferQueue_holds as (q0 & -> & Hq0).
  assert (∀ l q, queue_holds q l → run_enabled ops l →
    ∃ rs q' l', queue_run ops q = Val (rs, q') ∧ spec_run l ops rs l' ∧ queue_holds q' l') as Hrun.
  { clear q0 Hq0. induction ops as [|op ops IH]; intros l q Hq He; cbn [queue_run].
    - eexists _, _, l. split_and!; [done|constructor|done].
    - destruct He as [He1 He2].
      destruct (queue_step_refines q l op Hq He1) as (r & q1 & l1 & -> & Hs & Hq1). cbn [obind].
      destruct (IH l1 q1 Hq1 (He2 _ _ Hs)) as (rs & q2 & l2 & -> & Hr & Hq2). cbn [obind].
      eexists _, _, l2. split_and!; [done|by econstructor|done]. }
  intros He. destruct (Hrun [] q0 Hq0 He) as (rs & q & l & ?). by exists q0, rs, q, l.
Qed.
End TransferQueue.

(** ** A concrete queue: items that are pairs of a sequence number and a size *)
Module QueueExample.
#[export] Instance pair_item : TransferQueueItem (Z * Z) := {
  MessageId x := to_array 16 (be16 x.1);
  MessageByteCount x := x.2;
  SequenceNumber x := x.1
}.
Definition pair_cmp (a b : Z * Z) : Z := (a.1 - b.1)%Z.
#[export] Instance pair_cmp_laws : TransferQueueCmp pair_cmp.
Proof. split; unfold pair_cmp; lia. Qed.
Definition pair_ops : list queue_op :=
  [OpAdd (5, 100); OpAdd (3, 10); OpPeekLast; OpRemoveFirst; OpQueueSize]%Z.

Lemma transfer_queue_refines_witness :
  (∃ q0 rs q l, newTransferQueue pair_cmp = Val q0 ∧ queue_run pair_cmp pair_ops q0 = Val (rs, q) ∧
    spec_run pair_cmp [] pair_ops rs l ∧ queue_holds pair_cmp q l) ∧
  (let! q0 := newTransferQueue pair_cmp in
   let! (rs, _) := queue_run pair_cmp pair_ops q0 in Val rs) =
  Val [RUnit; RUnit; RItem (Some (5, 100)%Z); RItem (Some (3, 10)%Z); RSize 1 100].
Proof.
  split; [|vm_compute; reflexivity].
  apply (transfer_queue_refines pair_cmp pair_ops).
  split; [by intros x ?%elem_of_nil|]. intros [] l1; simpl; try done. intros Hl1.
  split.
  - intros x. rewrite Hl1. intros ->%list_elem_of_singleton. split; [vm_compute|]; done.
  - intros. repeat split; done.
Defined.
End QueueExample.
