(* ===== verification/RttWindow.v ===== *)
(** * The round trip time window: transfer_rtt.go, wakeup_schedule.go

    A ring of the last samples, a heap of the same samples and their sum. A
    sample is a pointer to a record that is never written after it is made
    (its heap index is kept by the heap), so it is modelled by the record
    together with its address. The [float32] arithmetic of the scale is that
    of [SpecFloat] at binary32. *)

From Stdlib Require Import Floats.SpecFloat.
From S2P Require Import Prelude GoHeap.
Open Scope go_scope.

(** ** float32 *)
Definition f32_prec : Z := 24.
Definition f32_emax : Z := 128.
Definition f32_of_Z (z : Z) : spec_float := binary_normalize f32_prec f32_emax z 0 false.
Definition f32_mul (a b : spec_float) : spec_float := SFmul f32_prec f32_emax a b.
(** [int64(f)]: truncation; out of range the amd64 conversion gives the least
    integer. *)
Definition f32_to_i64 (f : spec_float) : Z :=
  let r := match f with
           | S754_zero _ => 0%Z
           | S754_finite s m e =>
               let a := if (0 <=? e)%Z then Z.shiftl (Z.pos m) e else Z.shiftr (Z.pos m) (- e) in
               if s then (- a)%Z else a
           | _ => (2 ^ 63)%Z
           end in
  if ((- 2 ^ 63 <=? r)%Z && (r <? 2 ^ 63)%Z)%bool then r else (- 2 ^ 63)%Z.

(** ** Time: [Time.Sub] saturates, [Time.UnixMilli] rounds down. *)
Definition time_Sub (t u : time) : duration := Z.max (- 2 ^ 63) (Z.min (2 ^ 63 - 1) (t - u)).
Definition time_UnixMilli (t : time) : Z := t `div` 1000000.
Definition UnixMilli (ms : Z) : time := (ms * 1000000)%Z.

Record rttWindowItem := mkItem {
  it_addr : positive;
  sendTime : time;
  receiveTime : time;
  rtt : duration
}.
#[export] Instance rttWindowItem_eq_dec : EqDecision rttWindowItem.
Proof. solve_decision. Defined.
#[export] Program Instance rttWindowItem_countable : Countable rttWindowItem :=
  inj_countable' (λ i, (it_addr i, sendTime i, receiveTime i, rtt i))
    (λ '(a, s, r, d), mkItem a s r d) _.
Next Obligation. by intros []. Qed.

Definition newRttWindowItem (addr : positive) (s r : time) : rttWindowItem :=
  mkItem addr s r (time_Sub r s).

(** *** rttHeap *)
Record rttHeap := mkRttHeap { items : heap rttWindowItem; netRtt : duration }.
Definition rttHeap_Less (a b : rttWindowItem) : bool := (rtt a <? rtt b)%Z.
Definition newRttHeap : outcome rttHeap :=
  let! h := hInit rttHeap_Less empty_heap in Val (mkRttHeap h 0).
Definition rttHeap_Add (item : rttWindowItem) (h : rttHeap) : outcome rttHeap :=
  let! hp := hPush rttHeap_Less item (items h) in
  Val (mkRttHeap hp (i64 (netRtt h + rtt item))).
Definition rttHeap_Remove (item : rttWindowItem) (h : rttHeap) : outcome rttHeap :=
  let! (_, hp) := hRemove rttHeap_Less (default 0 (h_index (items h) !! item)) (items h) in
  Val (mkRttHeap hp (i64 (netRtt h - rtt item))).
Definition MinRtt (h : rttHeap) : duration :=
  match last (h_items (items h)) with Some maxItem => rtt maxItem | None => 0%Z end.
Definition MeanRtt (h : rttHeap) : duration :=
  let n := hLen (items h) in
  if (n =? 0)%nat then 0%Z else i64 (netRtt h `quot` Z.of_nat n).

(** *** RttWindow *)
Record RttWindow := mkRttWindow {
  windowTimeout : duration;
  rttScale : spec_float;
  minScaledRtt : duration;
  maxScaledRtt : duration;
  window : list (option rttWindowItem);
  windowTailIndex : nat;
  windowHeadIndex : nat;
  rtts : rttHeap;
  next_addr : positive
}.

Definition NewRttWindow (windowSize : nat) (timeout : duration) (scale : spec_float)
    (mn mx : duration) : outcome RttWindow :=
  if (windowSize =? 0)%nat then Panic "Window size must non-zero" else
  let! h := newRttHeap in
  Val (mkRttWindow timeout scale mn mx (replicate windowSize None) 0 0 h 1).

Definition set_window (w : RttWindow) (l : list (option rttWindowItem)) (tl hd : nat)
    (h : rttHeap) (a : positive) : RttWindow :=
  mkRttWindow (windowTimeout w) (rttScale w) (minScaledRtt w) (maxScaledRtt w) l tl hd h a.

(** The loop of [coalesce]; a [nil] at the tail would be dereferenced. *)
Fixpoint coalesce_loop (fuel : nat) (windowStartTime : time) (w : RttWindow) : outcome RttWindow :=
  match fuel with
  | 0 => Panic "fuel"
  | S fuel =>
      if (windowTailIndex w =? windowHeadIndex w)%nat then Val w else
      match window w !! windowTailIndex w with
      | Some (Some item) =>
          if negb (receiveTime item <? windowStartTime)%Z then Val w else
          let! h := rttHeap_Remove item (rtts w) in
          coalesce_loop fuel windowStartTime
            (set_window w (<[windowTailIndex w := None]> (window w))
               ((windowTailIndex w + 1) `mod` length (window w)) (windowHeadIndex w) h (next_addr w))
      | Some None => Panic "nil pointer dereference"
      | None => Panic "index out of range"
      end
  end.
Definition coalesce (windowTime : time) (w : RttWindow) : outcome RttWindow :=
  coalesce_loop (S (length (window w))) (windowTime + i64 (- windowTimeout w)) w.

(** [openTag]: the send time of a tag. *)
Definition openTag (t : time) : Z := u64 (time_UnixMilli t).

Definition closeTag (tag : Z) (t : time) (w : RttWindow) : outcome RttWindow :=
  let s := UnixMilli (i64 tag) in
  if (t <? s)%Z then Val w else
  let! w := coalesce t w in
  let item := newRttWindowItem (next_addr w) s t in
  let! h := rttHeap_Add item (rtts w) in
  let! h := match window w !! windowHeadIndex w with
            | Some (Some replaceItem) => rttHeap_Remove replaceItem h
            | Some None => Val h
            | None => Panic "index out of range"
            end in
  let l := <[windowHeadIndex w := Some item]> (window w) in
  let hd := (windowHeadIndex w + 1) `mod` length (window w) in
  let tl := if (windowTailIndex w =? hd)%nat
            then (windowTailIndex w + 1) `mod` length (window w) else windowTailIndex w in
  Val (set_window w l tl hd h (next_addr w + 1)).

Definition scaledRtt (t : time) (w : RttWindow) : outcome (duration * RttWindow) :=
  let! w := coalesce t w in
  let useRtt := MeanRtt (rtts w) in
  let scaled := i64 (f32_to_i64 (f32_mul (f32_of_Z (useRtt `quot` millisecond)) (rttScale w))
                     * millisecond) in
  Val (Z.min (Z.max scaled (minScaledRtt w)) (maxScaledRtt w), w).

(** *** wakeup_schedule.go *)
Definition WakeupTime (t : time) (epoch : duration) : outcome time :=
  if (epoch =? 0)%Z then Panic "integer divide by zero" else
  let r := i64 (i64 t `rem` epoch) in
  if (r =? 0)%Z then Val t else Val (t + i64 (epoch - r))%Z.
(** [WakeupAfter] at [now]: the delay it waits for. *)
Definition WakeupAfter (now : time) (d epoch : duration) : outcome duration :=
  let! t := WakeupTime (now + d)%Z epoch in Val (time_Sub t now).

(** ** The samples *)
Definition samples (w : RttWindow) : list rttWindowItem := omap id (window w).
(** The slot that is [k] places after slot [t] in a ring of [n] slots, and the
    number of slots from [t] up to [h]. *)
Definition ring (n t k : nat) : nat := if (t + k <? n)%nat then t + k else t + k - n.
Definition ring_dist (n t h : nat) : nat := if (t <=? h)%nat then h - t else h + n - t.

Definition slot (w : RttWindow) (k : nat) : option (option rttWindowItem) :=
  window w !! ring (length (window w)) (windowTailIndex w) k.
Definition live (w : RttWindow) : nat :=
  ring_dist (length (window w)) (windowTailIndex w) (windowHeadIndex w).

Definition rtt_le (a b : rttWindowItem) : Prop := (rtt a ≤ rtt b)%Z.
#[export] Instance rtt_heap_order : HeapOrder rttHeap_Less rtt_le.
Proof.
  unfold rttHeap_Less, rtt_le. split; intros *; try (case_bool; intros; try done); lia.
Qed.

(** The invariant at time [now]: the ring from tail to head has a sample in
    every slot, in the order of their times; a sample elsewhere is in the head
    slot; the heap and the sum are those of the samples. *)
Record rtt_ok (now : time) (w : RttWindow) : Prop := {
  ro_tail : windowTailIndex w < length (window w);
  ro_head : windowHeadIndex w < length (window w);
  ro_live k : k < live w → ∃ x, slot w k = Some (Some x);
  ro_slots s x : window w !! s = Some (Some x) → s = windowHeadIndex w ∨
    ∃ k, k < live w ∧ s = ring (length (window w)) (windowTailIndex w) k;
  ro_mono j k x y : j ≤ k < live w → slot w j = Some (Some x) → slot w k = Some (Some y) →
    (receiveTime x ≤ receiveTime y)%Z;
  ro_items x : x ∈ samples w → (it_addr x < next_addr w)%positive ∧ (receiveTime x ≤ now)%Z;
  ro_heap : heap_ok rtt_le (items (rtts w));
  ro_perm : h_items (items (rtts w)) ≡ₚ samples w;
  ro_net : netRtt (rtts w) = i64 (zsum (map rtt (samples w)))
}.
(** Every sample from tail to head is at most [windowTimeout] old. *)
Definition fresh (start : time) (w : RttWindow) : Prop :=
  ∀ k x, k < live w → slot w k = Some (Some x) → (start ≤ receiveTime x)%Z.

Lemma omap_insert {A} (l : list (option A)) i o o' :
  l !! i = Some o →
  option_list o ++ omap id (<[i := o']> l) ≡ₚ option_list o' ++ omap id l.
Proof.
  revert i. induction l as [|a l IH]; intros [|i] H; simplify_eq/=.
  - destruct o, o'; simpl; by try apply perm_swap.
  - specialize (IH i H). destruct a as [a|]; simpl; [|done].
    by rewrite <-!Permutation_middle, IH.
Qed.

Lemma ring_0 n t : t < n → ring n t 0 = t.
Proof. unfold ring. intros. case_bool; lia. Qed.
Lemma succ_mod n i : i < n → (i + 1) `mod` n = if (i + 1 =? n)%nat then 0 else i + 1.
Proof.
  intros. case_bool; subst; [apply Nat.Div0.mod_same|]. apply Nat.mod_small. lia.
Qed.

(** Sums and heaps *)
Lemma rttHeap_Add_spec x h :
  heap_ok rtt_le (items h) → x ∉ h_items (items h) →
  ∃ h', rttHeap_Add x h = Val h' ∧ heap_ok rtt_le (items h') ∧
    h_items (items h') ≡ₚ x :: h_items (items h) ∧ netRtt h' = i64 (netRtt h + rtt x).
Proof.
  intros Hh Hx. unfold rttHeap_Add.
  destruct (hPush_spec rttHeap_Less rtt_le x (items h)) as (hp & -> & ? & ?); [done..|].
  by eexists (mkRttHeap hp _).
Qed.
Lemma rttHeap_Remove_spec x h :
  heap_ok rtt_le (items h) → x ∈ h_items (items h) →
  ∃ h', rttHeap_Remove x h = Val h' ∧ heap_ok rtt_le (items h') ∧
    x :: h_items (items h') ≡ₚ h_items (items h) ∧ netRtt h' = i64 (netRtt h - rtt x).
Proof.
  intros Hh [i Hi]%list_elem_of_lookup. unfold rttHeap_Remove.
  rewrite (heap_index rtt_le _ _ _ Hh Hi). simpl.
  destruct (hRemove_spec rttHeap_Less rtt_le (items h) i x) as (hp & -> & ? & ?); [done..|].
  by eexists (mkRttHeap hp _).
Qed.

(** One step of [coalesce]: the tail sample goes. *)
Lemma drop_tail now w x h :
  rtt_ok now w → windowTailIndex w ≠ windowHeadIndex w →
  window w !! windowTailIndex w = Some (Some x) → heap_ok rtt_le (items h) →
  x :: h_items (items h) ≡ₚ h_items (items (rtts w)) → netRtt h = i64 (netRtt (rtts w) - rtt x) →
  let w' := set_window w (<[windowTailIndex w := None]> (window w))
     ((windowTailIndex w + 1) `mod` length (window w)) (windowHeadIndex w) h (next_addr w) in
  rtt_ok now w' ∧ S (live w') = live w.
Proof.
  intros [Ht Hh Hl Hs Hm Hi Hhp Hp Hn] Hne Hx Hhp' Hp' Hn' w'.
  pose proof (omap_insert (window w) _ _ None Hx) as Ho. simpl in Ho.
  assert (windowTailIndex w' = if (windowTailIndex w + 1 =? length (window w))%nat then 0
    else windowTailIndex w + 1) as Et by (by apply succ_mod).
  assert (length (window w') = length (window w)) as El by (simpl; by rewrite length_insert).
  assert (windowHeadIndex w' = windowHeadIndex w) as Eh by done.
  assert (S (live w') = live w) as Elive.
  { unfold live, ring_dist. rewrite Et, El, Eh. repeat case_bool; lia. }
  assert (∀ k, k < live w' → ring (length (window w')) (windowTailIndex w') k =
      ring (length (window w)) (windowTailIndex w) (S k) ∧
      ring (length (window w)) (windowTailIndex w) (S k) ≠ windowTailIndex w) as Er.
  { intros k. unfold live, ring, ring_dist. rewrite Et, El, Eh. repeat case_bool; lia. }
  assert (∀ k, k < live w' → slot w' k = slot w (S k)) as Eslot.
  { intros k Hk. unfold slot. destruct (Er k Hk) as [-> ?]. simpl.
    by rewrite list_lookup_insert_ne. }
  split; [|done]. split; try done.
  - rewrite Et, El. case_bool; lia.
  - by rewrite El.
  - intros k Hk. rewrite Eslot by done. apply Hl. lia.
  - intros s y Hy. simpl in Hy. rewrite Eh. apply list_lookup_insert_Some in Hy as [(? & ? & ?)|[Hst Hy]]; [done|].
    destruct (Hs s y Hy) as [?|([|k] & Hk & Hsk)]; [by left| |].
    + rewrite ring_0 in Hsk by done. done.
    + right. exists k. split; [lia|]. destruct (Er k) as [-> _]; [lia|done].
  - intros j k a b Hjk. rewrite !Eslot by lia. apply Hm. lia.
  - intros y Hy. apply Hi. unfold samples in *. simpl in Hy. rewrite <-Ho. apply elem_of_cons. by right.
  - unfold samples. simpl. apply (Permutation_cons_inv (a := x)). by rewrite Hp', Hp, Ho.
  - simpl. rewrite Hn', Hn. unfold samples. rewrite <-Ho. unfold Z.sub. rewrite i64_add_l.
    f_equal. unfold zsum. simpl. lia.
Qed.

Lemma live_0 now w : rtt_ok now w → windowTailIndex w = windowHeadIndex w → live w = 0.
Proof. intros _ E. unfold live, ring_dist. rewrite E. case_bool; lia. Qed.

Definition same_params (w w' : RttWindow) : Prop :=
  windowTimeout w' = windowTimeout w ∧ rttScale w' = rttScale w ∧
  minScaledRtt w' = minScaledRtt w ∧ maxScaledRtt w' = maxScaledRtt w ∧
  length (window w') = length (window w).

Lemma coalesce_loop_spec now start fuel w :
  rtt_ok now w → live w < fuel →
  ∃ w', coalesce_loop fuel start w = Val w' ∧ rtt_ok now w' ∧ fresh start w' ∧
    same_params w w' ∧ windowHeadIndex w' = windowHeadIndex w ∧
    next_addr w' = next_addr w.
Proof.
  revert w. induction fuel as [|fuel IH]; intros w Hw Hf; [lia|]. cbn [coalesce_loop].
  destruct (Nat.eqb_spec (windowTailIndex w) (windowHeadIndex w)) as [E|Hne].
  { exists w. split_and!; try done. intros k x Hk. rewrite (live_0 _ _ Hw E) in Hk. lia. }
  pose proof (ro_tail _ _ Hw) as Ht.
  assert (0 < live w) as Hpos.
  { unfold live, ring_dist. pose proof (ro_head _ _ Hw). case_bool; lia. }
  destruct (ro_live _ _ Hw 0 Hpos) as [x Hx]. pose proof Hx as Hx'.
  unfold slot in Hx'. rewrite ring_0 in Hx' by done. rewrite Hx'.
  destruct (Z.ltb_spec (receiveTime x) start); cbn [negb].
  - destruct (rttHeap_Remove_spec x (rtts w)) as (h & -> & Hh & Hp & Hn); [apply Hw| |].
    { rewrite (ro_perm _ _ Hw). apply list_elem_of_omap. exists (Some x).
      split; [by eapply list_elem_of_lookup_2|done]. }
    cbn [obind]. destruct (drop_tail now w x h) as [Hw' Hl]; [done..|].
    destruct (IH _ Hw') as (w' & -> & ? & ? & (?&?&?&?&?) & ? & ?); [lia|].
    exists w'. split_and!; try done. split_and!; try done.
    simpl in *. by rewrite length_insert in *.
  - exists w. split_and!; try done. intros k y Hk Hy.
    assert (receiveTime x ≤ receiveTime y)%Z by (eapply (ro_mono _ _ Hw 0 k); [lia|done..]). lia.
Qed.

Lemma coalesce_spec now t w :
  rtt_ok now w →
  ∃ w', coalesce t w = Val w' ∧ rtt_ok now w' ∧ fresh (t + i64 (- windowTimeout w)) w' ∧
    same_params w w' ∧ windowHeadIndex w' = windowHeadIndex w ∧ next_addr w' = next_addr w.
Proof.
  intros Hw. apply coalesce_loop_spec; [done|].
  pose proof (ro_tail _ _ Hw). pose proof (ro_head _ _ Hw).
  unfold live, ring_dist. case_bool; lia.
Qed.

(** The window of [closeTag] after the head slot is written. *)
Lemma ring_advance n tl hd :
  tl < n → hd < n →
  let d := ring_dist n tl hd in
  let hd' := if (hd + 1 =? n)%nat then 0 else hd + 1 in
  let full := (tl =? hd')%nat in
  let tl' := if full then (if (tl + 1 =? n)%nat then 0 else tl + 1) else tl in
  let d' := ring_dist n tl' hd' in
  tl' < n ∧ hd' < n ∧
  (if full then d' = d else d' = S d) ∧
  (∀ k, k < d' → ring n tl' k = ring n tl (if full then S k else k)) ∧
  (∀ k, k < d → ring n tl k ≠ hd) ∧ ring n tl d = hd ∧
  (full = true → ring n tl 0 = hd' ∧ (d = 0 → hd = hd')).
Proof.
  intros Ht Hh. unfold ring_dist, ring. cbv zeta.
  destruct (Nat.eqb_spec (hd + 1) n); destruct (Nat.eqb_spec (tl + 1) n);
    repeat match goal with
    | |- context [Nat.eqb ?a ?b] => destruct (Nat.eqb_spec a b); try lia
    | |- context [Nat.leb ?a ?b] => destruct (Nat.leb_spec a b); try lia
    end; split_and!; try lia; try (intros k Hk; repeat case_bool; lia);
    try done; repeat case_bool; lia.
Qed.

Lemma rtt_ok_later now t w : rtt_ok now w → (now ≤ t)%Z → rtt_ok t w.
Proof. intros [] H. split; try done. intros x Hx. destruct (ro_items0 x Hx). split; [done|lia]. Qed.

(** The state change of [closeTag] once the expired samples are gone. *)
Lemma put_head t w x hd' tl' h :
  rtt_ok t w → it_addr x = next_addr w → receiveTime x = t →
  hd' = (windowHeadIndex w + 1) `mod` length (window w) →
  tl' = (if (windowTailIndex w =? hd')%nat
         then (windowTailIndex w + 1) `mod` length (window w) else windowTailIndex w) →
  let w' := set_window w (<[windowHeadIndex w := Some x]> (window w)) tl' hd' h (next_addr w + 1) in
  heap_ok rtt_le (items h) → h_items (items h) ≡ₚ samples w' →
  netRtt h = i64 (zsum (map rtt (samples w'))) → rtt_ok t w'.
Proof.
  intros [Ht Hh Hl Hs Hm Hi Hhp Hp Hn] Ha Hr Ehd Etl w' Hhp' Hp' Hn'.
  pose proof (ring_advance _ _ _ Ht Hh) as Hring. cbv zeta in Hring.
  rewrite succ_mod in Ehd, Etl by done. rewrite <-Ehd, <-Etl in Hring.
  set (full := (windowTailIndex w =? hd')%nat) in *. rename Etl into Etl0.
  destruct Hring as (Htl' & Hhd' & Hd' & Hr' & Hrne & Hrd & Hfull).
  assert (length (window w') = length (window w)) as El by (simpl; by rewrite length_insert).
  change (ring_dist (length (window w)) (windowTailIndex w) (windowHeadIndex w)) with (live w) in *.
  assert (live w' = ring_dist (length (window w)) tl' hd') as Elive.
  { unfold live. by rewrite El. }
  rewrite <-Elive in *.
  assert (∀ k, k < live w' → slot w' k =
      if (if full then S k else k) =? live w then Some (Some x)
      else slot w (if full then S k else k)) as Eslot.
  { intros k Hk. unfold slot. rewrite El. simpl. rewrite (Hr' k Hk).
    set (k' := if full then S k else k).
    destruct (Nat.eqb_spec k' (live w)) as [E|Hne].
    - rewrite E, Hrd. by apply list_lookup_insert_eq.
    - rewrite list_lookup_insert_ne; [done|]. apply not_eq_sym, Hrne. destruct full; lia. }
  split; try done.
  - by rewrite El.
  - by rewrite El.
  - intros k Hk. rewrite Eslot by done. case_bool; [by eauto|]. apply Hl. destruct full; lia.
  - intros s y Hy. simpl in Hy.
    apply list_lookup_insert_Some in Hy as [(<- & _ & _)|[Hst Hy]].
    + destruct full; [destruct (decide (live w = 0)) as [E|E]|].
      * left. by apply Hfull.
      * right. exists (live w - 1). rewrite El. split; [lia|]. simpl. rewrite Hr' by lia.
        by replace (S (live w - 1)) with (live w) by lia.
      * right. exists (live w). rewrite El. split; [lia|]. simpl. by rewrite Hr' by lia.
    + destruct (Hs s y Hy) as [->|(k & Hk & ->)]; [done|].
      destruct full.
      * destruct k as [|k]; [left; by apply Hfull|]. right. exists k. rewrite El.
        split; [lia|]. simpl. by rewrite Hr' by lia.
      * right. exists k. rewrite El. split; [lia|]. simpl. by rewrite Hr' by lia.
  - intros j k y z Hjk. rewrite !Eslot by lia.
    assert (∀ k y, slot w k = Some (Some y) → (receiveTime y ≤ t)%Z) as Hle.
    { intros k0 y0 Hy0. apply Hi. unfold samples. apply list_elem_of_omap. exists (Some y0).
      split; [by eapply list_elem_of_lookup_2|done]. }
    repeat case_bool; intros Hy Hz; simplify_eq; try lia; eauto; destruct full; try lia;
      first [by apply (Hle _ _ Hy) | eapply Hm; [|done..]; lia].
  - intros y Hy. simpl. pose proof (lookup_lt_is_Some_2 _ _ Hh) as [o Ho].
    pose proof (omap_insert (window w) _ _ (Some x) Ho) as Hperm.
    assert (y ∈ option_list o ++ samples w') as Hin by (apply elem_of_app; auto).
    unfold samples in Hin. simpl in Hin, Hperm. rewrite Hperm in Hin.
    apply elem_of_cons in Hin as [->|Hin]; [split; lia|]. destruct (Hi y Hin). split; lia.
Qed.

Lemma closeTag_spec now tag t w :
  rtt_ok now w → (now ≤ t)%Z →
  ∃ w', closeTag tag t w = Val w' ∧ rtt_ok t w' ∧ same_params w w'.
Proof.
  intros Hw Hnow. unfold closeTag. apply (rtt_ok_later _ t) in Hw; [|done].
  case_bool; [by exists w|].
  destruct (coalesce_spec t t w Hw) as (w1 & -> & Hw1 & Hf1 & Hp1 & Eh & Ea). cbn [obind].
  set (x := newRttWindowItem (next_addr w1) _ t).
  assert (x ∉ samples w1) as Hx.
  { intros Hin. destruct (ro_items _ _ Hw1 x Hin) as [Hlt _]. simpl in Hlt. lia. }
  destruct (rttHeap_Add_spec x (rtts w1)) as (h & -> & Hh & Hp & Hn);
    [apply Hw1|by rewrite (ro_perm _ _ Hw1)|]. cbn [obind].
  assert (it_addr x = next_addr w1 ∧ receiveTime x = t) as [Hxa Hxt] by done. clearbody x.
  rewrite (ro_perm _ _ Hw1) in Hp. rewrite (ro_net _ _ Hw1), i64_add_l in Hn.
  destruct (lookup_lt_is_Some_2 (window w1) (windowHeadIndex w1)) as [o Ho]; [apply Hw1|].
  rewrite Ho. pose proof (omap_insert (window w1) _ _ (Some x) Ho) as Hperm. simpl in Hperm.
  assert (∃ h', (match o with Some y => rttHeap_Remove y h | None => Val h end) = Val h' ∧
    heap_ok rtt_le (items h') ∧
    h_items (items h') ≡ₚ omap id (<[windowHeadIndex w1 := Some x]> (window w1)) ∧
    netRtt h' = i64 (zsum (map rtt (omap id (<[windowHeadIndex w1 := Some x]> (window w1))))))
    as (h' & E & Hh' & Hp' & Hn').
  { destruct o as [y|]; simpl in Hperm.
    - destruct (rttHeap_Remove_spec y h) as (h' & -> & Hh' & Hp' & Hn'); [done| |].
      { rewrite Hp. apply elem_of_cons. right. apply list_elem_of_omap. exists (Some y).
        split; [by eapply list_elem_of_lookup_2|done]. }
      exists h'. split_and!; [done..| |].
      + apply (Permutation_cons_inv (a := y)). by rewrite Hp', Hp, Hperm.
      + rewrite Hn', Hn. unfold Z.sub. rewrite i64_add_l. f_equal.
        apply (Permutation_map rtt), zsum_proper in Hperm. simpl in Hperm.
        unfold samples in *. lia.
    - exists h. split_and!; [done..|by rewrite Hp, Hperm|]. rewrite Hn, Hperm.
      f_equal. simpl. unfold samples. lia. }
  rewrite E. cbn [obind]. eexists. split; [done|].
  destruct Hp1 as (P1 & P2 & P3 & P4 & P5). split; [by eapply (put_head t w1 x)|].
  split_and!; try done. simpl. by rewrite length_insert.
Qed.

(** ** Runs *)
Inductive rtt_op := OpCloseTag (tag : Z) (t : time) | OpScaledRtt (t : time).
Definition op_time (op : rtt_op) : time :=
  match op with OpCloseTag _ t => t | OpScaledRtt t => t end.
Definition rtt_step (op : rtt_op) (w : RttWindow) : outcome RttWindow :=
  match op with
  | OpCloseTag tag t => closeTag tag t w
  | OpScaledRtt t => let! (_, w) := scaledRtt t w in Val w
  end.
Fixpoint rtt_run (ops : list rtt_op) (w : RttWindow) : outcome RttWindow :=
  match ops with
  | [] => Val w
  | op :: ops => let! w := rtt_step op w in rtt_run ops w
  end.
(** The clock of the operations does not go back. *)
Fixpoint clock_ok (now : time) (ops : list rtt_op) : Prop :=
  match ops with
  | [] => True
  | op :: ops => (now ≤ op_time op)%Z ∧ clock_ok (op_time op) ops
  end.
Fixpoint end_time (now : time) (ops : list rtt_op) : time :=
  match ops with [] => now | op :: ops => end_time (op_time op) ops end.

(** The mean of the samples, in the 64-bit arithmetic of the code, and the
    scaled and clamped value. *)
Definition mean_rtt (l : list rttWindowItem) : duration :=
  if (length l =? 0)%nat then 0%Z
  else i64 (i64 (zsum (map rtt l)) `quot` Z.of_nat (length l)).
Definition clamp_rtt (scale : spec_float) (mn mx : duration) (useRtt : duration) : duration :=
  Z.min (Z.max (i64 (f32_to_i64 (f32_mul (f32_of_Z (useRtt `quot` millisecond)) scale)
                     * millisecond)) mn) mx.

Lemma MeanRtt_spec now w : rtt_ok now w → MeanRtt (rtts w) = mean_rtt (samples w).
Proof.
  intros Hw. unfold MeanRtt, mean_rtt, hLen.
  rewrite (ro_net _ _ Hw). by rewrite (Permutation_length (ro_perm _ _ Hw)).
Qed.

Lemma NewRttWindow_ok n timeout scale mn mx now :
  n ≠ 0 → ∃ w, NewRttWindow n timeout scale mn mx = Val w ∧ rtt_ok now w ∧
    windowTimeout w = timeout ∧ rttScale w = scale ∧ minScaledRtt w = mn ∧
    maxScaledRtt w = mx ∧ length (window w) = n.
Proof.
  intros Hn. unfold NewRttWindow. destruct (Nat.eqb_spec n 0); [done|].
  eexists. split; [reflexivity|].
  assert (∀ m, omap id (replicate m (None : option rttWindowItem)) = []) as Hnil.
  { intros m. induction m as [|m IH]; [done|apply IH]. }
  assert (samples (mkRttWindow timeout scale mn mx (replicate n None) 0 0 (mkRttHeap empty_heap 0) 1)
    = []) as Es by apply Hnil.
  split_and!; try done; [|by apply length_replicate]. split; simpl.
  - rewrite length_replicate. lia.
  - rewrite length_replicate. lia.
  - unfold live, ring_dist. simpl. lia.
  - intros s x [E _]%lookup_replicate. done.
  - unfold live, ring_dist. simpl. lia.
  - intros x. change (x ∈ omap id (replicate n None) → (it_addr x < 1)%positive ∧ (receiveTime x ≤ now)%Z).
    rewrite Hnil. by intros ?%elem_of_nil.
  - apply empty_heap_ok.
  - unfold samples. simpl. by rewrite Hnil.
  - unfold samples. simpl. by rewrite Hnil.
Qed.

Lemma scaledRtt_spec now t w :
  rtt_ok now w → (now ≤ t)%Z →
  ∃ w', scaledRtt t w =
      Val (clamp_rtt (rttScale w) (minScaledRtt w) (maxScaledRtt w) (mean_rtt (samples w')), w') ∧
    rtt_ok t w' ∧ same_params w w' ∧ fresh (t + i64 (- windowTimeout w)) w'.
Proof.
  intros Hw Ht. apply (rtt_ok_later _ t) in Hw; [|done]. unfold scaledRtt.
  destruct (coalesce_spec t t w Hw) as (w1 & -> & Hw1 & Hf & Hp & _). cbn [obind].
  exists w1. split; [|done]. rewrite (MeanRtt_spec t) by done.
  destruct Hp as (? & -> & -> & -> & ?). done.
Qed.

Lemma rtt_run_ok ops now w :
  rtt_ok now w → clock_ok now ops →
  ∃ w', rtt_run ops w = Val w' ∧ rtt_ok (end_time now ops) w' ∧ same_params w w'.
Proof.
  revert now w. induction ops as [|op ops IH]; intros now w Hw; [by exists w|].
  intros [Hop Hops]. cbn [rtt_run].
  assert (∃ w1, rtt_step op w = Val w1 ∧ rtt_ok (op_time op) w1 ∧ same_params w w1)
    as (w1 & -> & Hw1 & Hp).
  { destruct op as [tag t|t]; simpl in *.
    - by apply (closeTag_spec now).
    - destruct (scaledRtt_spec now t w Hw Hop) as (w1 & -> & ? & ? & _). by exists w1. }
  cbn [obind]. destruct (IH (op_time op) w1) as (w2 & -> & Hw2 & Hp2); [done..|].
  exists w2. split_and!; [done..|].
  destruct Hp as (?&?&?&?&?), Hp2 as (?&?&?&?&?). split_and!; congruence.
Qed.

Lemma samples_length w : length (samples w) ≤ length (window w).
Proof.
  unfold samples. induction (window w) as [|[x|] l IH]; [done|..]; simpl;
    unfold omap in IH; lia.
Qed.

(** From a new window of non zero size, every run of [closeTag] and
    [scaledRtt] whose clock does not go back succeeds: the ring never holds a
    [nil] where [coalesce] reads it, no index leaves the window or the heap.
    Then [ScaledRtt] is the mean of the samples that are kept (at most the size
    of the window), scaled and clamped to [minScaledRtt, maxScaledRtt], and
    every sample kept outside of the head slot is at most [windowTimeout] old. *)
Theorem rtt_window_run (n : nat) (timeout : duration) (scale : spec_float) (mn mx : duration)
    (ops : list rtt_op) (t0 t : time) :
  n ≠ 0 → clock_ok t0 ops → (end_time t0 ops ≤ t)%Z →
  ∃ w w', (let! w := NewRttWindow n timeout scale mn mx in rtt_run ops w) = Val w ∧
    scaledRtt t w = Val (clamp_rtt scale mn mx (mean_rtt (samples w')), w') ∧
    length (samples w') ≤ n ∧
    (∀ s x, window w' !! s = Some (Some x) → s ≠ windowHeadIndex w' →
      (t + i64 (- timeout) ≤ receiveTime x)%Z).
Proof.
  intros Hn Hc Ht.
  destruct (NewRttWindow_ok n timeout scale mn mx t0 Hn) as (w0 & -> & Hw0 & <- & <- & <- & <- & <-).
  cbn [obind]. destruct (rtt_run_ok ops t0 w0 Hw0 Hc) as (w & -> & Hw & Hp).
  destruct (scaledRtt_spec _ t w Hw Ht) as (w' & E & Hw' & Hp' & Hf).
  destruct Hp as (E1 & E2 & E3 & E4 & E5), Hp' as (_ & _ & _ & _ & E5').
  rewrite E1, E2, E3, E4 in *. exists w, w'. split_and!; [done|done| |].
  - rewrite <-E5, <-E5'. apply samples_length.
  - intros s x Hx Hs. destruct (ro_slots _ _ Hw' s x Hx) as [|(k & Hk & ->)]; [done|].
    by apply (Hf k).
Qed.

(** ** Concrete windows *)
Module RttExample.
(** The [float32] 1.5. *)
Definition scale15 : spec_float := f32_mul (f32_of_Z 3) (S754_finite false 1 (-1)).
Definition ex_ops : list rtt_op :=
  [OpCloseTag 1000 1010000000; OpCloseTag 1000 1030000000; OpCloseTag 1020 1040000000]%Z.

Lemma rtt_window_run_witness :
  ∃ w w', (let! w := NewRttWindow 2 1000000000 scale15 1000000 9000000000 in rtt_run ex_ops w) = Val w ∧
    scaledRtt 1050000000 w = Val (clamp_rtt scale15 1000000 9000000000 (mean_rtt (samples w')), w') ∧
    length (samples w') ≤ 2 ∧
    (∀ s x, window w' !! s = Some (Some x) → s ≠ windowHeadIndex w' →
      (1050000000 + i64 (- 1000000000) ≤ receiveTime x)%Z).
Proof.
  apply (rtt_window_run 2 1000000000 scale15 1000000 9000000000 ex_ops 0 1050000000).
  - lia.
  - repeat split; simpl; lia.
  - simpl. lia.
Defined.

(** The value of the last read: the mean of 30ms and 20ms, times 1.5. *)
Example scaled_value :
  (let! w := NewRttWindow 2 1000000000 scale15 1000000 9000000000 in
   let! w := rtt_run ex_ops w in
   let! (r, _) := scaledRtt 1050000000 w in Val r) = Val 37000000%Z.
Proof. vm_compute. reflexivity. Qed.

(** The sample in the head slot of a full window outlives the window timeout:
    an hour later the mean still is that sample's. *)
Example head_sample_never_expires :
  (let! w := NewRttWindow 2 1000000000 scale15 1000000 9000000000 in
   let! w := rtt_run ex_ops w in
   let! (r, w) := scaledRtt 3600000000000 w in Val (r, length (samples w))) = Val (45000000%Z, 1).
Proof. vm_compute. reflexivity. Qed.

(** [MinRtt] gives the last item of the heap slice, which need not be least. *)
Example MinRtt_not_min :
  (let! w := NewRttWindow 4 1000000000 scale15 1000000 9000000000 in
   let! w := rtt_run [OpCloseTag 1000 1010000000; OpCloseTag 1000 1030000000]%Z w in
   Val (MinRtt (rtts w), map rtt (samples w))) = Val (30000000%Z, [10000000%Z; 30000000%Z]).
Proof. vm_compute. reflexivity. Qed.
End RttExample.
