(* ===== verification/Util.v ===== *)
(** * Shared coordination pieces: util.go

    [CallbackList], the copy-on-write list of callbacks; [IdleCondition], which
    decides between an idle shutdown and an update that races with it;
    [MinTime]; and the weighted shuffles and the weighted selection, for every
    stream of random numbers. *)

From Stdlib Require Import Floats.SpecFloat.
From S2P Require Import Prelude RttWindow.
Open Scope go_scope.

(** ** CallbackList *)
Record CallbackList (T : Type) := mkCallbackList {
  callbacks : list T;
  callbackIds : list Z;
  nextCallbackId : Z
}.
Arguments mkCallbackList {T} _ _ _.
Arguments callbacks {T} _.
Arguments callbackIds {T} _.
Arguments nextCallbackId {T} _.

Definition NewCallbackList {T} : CallbackList T := mkCallbackList [] [] 0.
Definition CallbackList_Get {T} (self : CallbackList T) : list T := callbacks self.
Definition CallbackList_Add {T} (callback : T) (self : CallbackList T) : Z * CallbackList T :=
  let callbackId := nextCallbackId self in
  (callbackId,
   mkCallbackList (callbacks self ++ [callback]) (callbackIds self ++ [callbackId])
     (callbackId + 1)).

(** [slices.BinarySearch]: the least position in [i, j) whose element is not
    below the target, and whether the element there is the target. *)
Fixpoint search_loop (fuel : nat) (l : list Z) (target : Z) (i j : nat) : nat :=
  match fuel with
  | 0 => i
  | S fuel =>
      if (i <? j)%nat then
        let h := (i + j) / 2 in
        if (nth h l 0 <? target)%Z then search_loop fuel l target (h + 1) j
        else search_loop fuel l target i h
      else i
  end.
Definition BinarySearch (l : list Z) (target : Z) : nat * bool :=
  let n := length l in
  let i := search_loop (S n) l target 0 n in
  (i, ((i <? n)%nat && (nth i l 0%Z =? target)%Z)%bool).

(** [slices.Delete(s, i, i+1)] *)
Definition Delete1 {A} (i : nat) (l : list A) : list A := take i l ++ drop (S i) l.

Definition CallbackList_Remove {T} (callbackId : Z) (self : CallbackList T) : CallbackList T :=
  let (i, found) := BinarySearch (callbackIds self) callbackId in
  if negb found then self else
  mkCallbackList (Delete1 i (callbacks self)) (Delete1 i (callbackIds self)) (nextCallbackId self).

Fixpoint ascending (l : list Z) : Prop :=
  match l with
  | [] => True
  | x :: l => Forall (Z.lt x) l ∧ ascending l
  end.
Lemma ascending_lookup l i j x y :
  ascending l → l !! i = Some x → l !! j = Some y → i < j → (x < y)%Z.
Proof.
  revert i j. induction l as [|a l IH]; intros i j Hl Hi Hj Hij; [by rewrite lookup_nil in Hi|].
  destruct Hl as [Ha Hl], i as [|i], j as [|j]; simplify_eq/=; try lia.
  - rewrite Forall_forall in Ha. apply Ha. by eapply list_elem_of_lookup_2.
  - eapply (IH i j); eauto. lia.
Qed.
Lemma ascending_app l x : ascending l → Forall (λ y, y < x)%Z l → ascending (l ++ [x]).
Proof.
  induction l as [|a l IH]; simpl; [done|]. intros [Ha Hl] [Hax Hx]%Forall_cons.
  split; [|by apply IH]. apply Forall_app. by split; [|apply Forall_singleton].
Qed.
Lemma ascending_delete l i : ascending l → ascending (Delete1 i l).
Proof.
  revert i. induction l as [|a l IH]; intros [|i] H; try done; unfold Delete1 in *; simpl in *;
    [by destruct H|]. destruct H as [Ha Hl]. split; [|by apply IH].
  apply Forall_app. split; [by apply Forall_take|by apply Forall_drop].
Qed.

Lemma search_loop_spec fuel l target i j :
  ascending l → i ≤ j ≤ length l → j - i < fuel →
  (∀ k x, k < i → l !! k = Some x → (x < target)%Z) →
  (∀ k x, j ≤ k → l !! k = Some x → (target ≤ x)%Z) →
  let r := search_loop fuel l target i j in
  r ≤ length l ∧ (∀ k x, k < r → l !! k = Some x → (x < target)%Z) ∧
  (∀ k x, r ≤ k → l !! k = Some x → (target ≤ x)%Z).
Proof.
  intros Ha. revert i j. induction fuel as [|fuel IH]; intros i j Hij Hf Hlo Hhi; [lia|].
  cbn [search_loop]. destruct (Nat.ltb_spec i j) as [Hlt|Hge].
  - assert (i ≤ (i + j) / 2 < j) as Hh.
    { split; [apply Nat.div_le_lower_bound; lia|apply Nat.Div0.div_lt_upper_bound; lia]. }
    destruct (lookup_lt_is_Some_2 l ((i + j) / 2)) as [y Hy]; [lia|].
    rewrite (nth_lookup_Some _ _ _ _ Hy). case_bool.
    + apply IH; try lia; [|done]. intros k x Hk Hx.
      destruct (decide (k = (i + j) / 2)) as [->|]; [by simplify_eq|].
      assert (x < y)%Z by (eapply ascending_lookup; eauto; lia). lia.
    + apply IH; try lia; [done|]. intros k x Hk Hx.
      destruct (decide (k = (i + j) / 2)) as [->|]; [by simplify_eq|].
      assert (y < x)%Z by (eapply ascending_lookup; eauto; lia). lia.
  - split_and!; [lia|done|]. intros k x Hk. apply Hhi. lia.
Qed.

Lemma BinarySearch_spec l target :
  ascending l →
  match BinarySearch l target with
  | (i, true) => l !! i = Some target
  | (_, false) => target ∉ l
  end.
Proof.
  intros Ha. unfold BinarySearch.
  destruct (search_loop_spec (S (length l)) l target 0 (length l)) as (Hr & Hlo & Hhi);
    [done|lia|lia|lia| |].
  { intros k x Hk Hx%lookup_lt_Some. lia. }
  set (r := search_loop _ _ _ _ _) in *.
  destruct (Nat.ltb_spec r (length l)) as [Hlt|Hge]; simpl.
  - destruct (lookup_lt_is_Some_2 l r Hlt) as [y Hy]. rewrite (nth_lookup_Some _ _ _ _ Hy).
    destruct (Z.eqb_spec y target) as [->|Hne]; [done|].
    intros [k Hk]%list_elem_of_lookup. destruct (decide (k < r)).
    + specialize (Hlo k target). lia.
    + assert (k ≠ r) by (intros ->; congruence).
      assert (y < target)%Z by (eapply ascending_lookup; eauto; lia).
      specialize (Hhi r y). lia.
  - intros [k Hk]%list_elem_of_lookup. pose proof (lookup_lt_Some _ _ _ Hk).
    specialize (Hlo k target). lia.
Qed.

(** The abstract list: the pairs of id and callback that were added and not
    removed, in the order of their addition. *)
Inductive cb_op (T : Type) := CbAdd (callback : T) | CbRemove (callbackId : Z).
Arguments CbAdd {T} _.
Arguments CbRemove {T} _.
Definition cb_step {T} (op : cb_op T) (self : CallbackList T) : CallbackList T :=
  match op with
  | CbAdd c => (CallbackList_Add c self).2
  | CbRemove i => CallbackList_Remove i self
  end.
Definition cb_spec {T} (op : cb_op T) (s : Z * list (Z * T)) : Z * list (Z * T) :=
  match op with
  | CbAdd c => (s.1 + 1, s.2 ++ [(s.1, c)])%Z
  | CbRemove i => (s.1, filter (λ p, p.1 ≠ i) s.2)
  end.
Definition cb_rel {T} (s : Z * list (Z * T)) (self : CallbackList T) : Prop :=
  callbacks self = map snd s.2 ∧ callbackIds self = map fst s.2 ∧ nextCallbackId self = s.1 ∧
  ascending (map fst s.2) ∧ Forall (λ i, i < s.1)%Z (map fst s.2).

Lemma filter_all {A} (P : A → Prop) `{∀ x, Decision (P x)} (l : list A) :
  Forall P l → filter P l = l.
Proof. induction 1; [done|]. rewrite filter_cons_True by done. by f_equal. Qed.
Lemma filter_ids_absent {T} (l : list (Z * T)) i :
  i ∉ map fst l → filter (λ p, p.1 ≠ i) l = l.
Proof.
  intros Hi. apply filter_all. apply Forall_forall. intros p Hp Heq. apply Hi.
  rewrite <-Heq. by apply list_elem_of_fmap_2.
Qed.
Lemma filter_ids_delete {T} (l : list (Z * T)) i n :
  ascending (map fst l) → map fst l !! n = Some i →
  filter (λ p, p.1 ≠ i) l = Delete1 n l.
Proof.
  revert n. induction l as [|[a t] l IH]; intros n Hl Hn; [by destruct n|].
  destruct Hl as [Ha Hl], n as [|n]; simplify_eq/=.
  - rewrite filter_cons_False by (by intros H; apply H). unfold Delete1. simpl.
    rewrite drop_0. apply filter_ids_absent. intros Hin. rewrite Forall_forall in Ha.
    specialize (Ha _ Hin). lia.
  - rewrite filter_cons_True; [unfold Delete1 in *; simpl; by rewrite (IH n)|]. simpl.
    rewrite Forall_forall in Ha. intros ->.
    assert (i < i)%Z by (apply Ha; by eapply list_elem_of_lookup_2). lia.
Qed.
Lemma Delete1_map {A B} (f : A → B) n l : Delete1 n (map f l) = map f (Delete1 n l).
Proof. unfold Delete1. by rewrite map_app, firstn_map, skipn_map. Qed.

Lemma cb_step_rel {T} (op : cb_op T) s self :
  cb_rel s self → cb_rel (cb_spec op s) (cb_step op self).
Proof.
  destruct s as [n l]. intros (Hc & Hi & Hn & Ha & Hlt). destruct op as [c|i]; simpl in *.
  - unfold cb_rel, CallbackList_Add. simpl. rewrite !map_app, Hc, Hi, Hn. simpl. split_and!; try done.
    + by apply ascending_app.
    + apply Forall_app. split; [|by apply Forall_singleton; lia].
      eapply Forall_impl; [done|]. simpl. lia.
  - unfold CallbackList_Remove. rewrite Hi. pose proof (BinarySearch_spec (map fst l) i Ha) as Hb.
    destruct (BinarySearch _ _) as [k []]; simpl.
    + rewrite (filter_ids_delete l i k) by done. unfold cb_rel. simpl.
      rewrite Hc, !Delete1_map, Hn. split_and!; try done.
      * rewrite <-Delete1_map. by apply ascending_delete.
      * rewrite <-Delete1_map. unfold Delete1. apply Forall_app.
        split; [by apply Forall_take|by apply Forall_drop].
    + rewrite filter_ids_absent by done. done.
Qed.

(** After any sequence of [Add]s and [Remove]s, [Get] returns exactly the
    callbacks added and not removed, in the order they were added, and the next
    id is one that no callback has: [Remove] of an id removes the callback that
    [Add] returned that id for and no other, and an unknown id removes none. *)
Theorem callback_list_spec {T} (ops : list (cb_op T)) :
  let s := foldl (λ s op, cb_spec op s) (0%Z, []) ops in
  let self := foldl (λ self op, cb_step op self) NewCallbackList ops in
  CallbackList_Get self = map snd s.2 ∧ nextCallbackId self ∉ map fst s.2.
Proof.
  assert (∀ s self, cb_rel s self →
    cb_rel (foldl (λ s op, cb_spec op s) s ops) (foldl (λ self op, cb_step op self) self ops)) as H.
  { induction ops as [|op ops IH]; intros s self Hr; [done|]. simpl. apply IH. by apply cb_step_rel. }
  intros s self. destruct (H (0%Z, []) NewCallbackList) as (Hc & _ & Hn & _ & Hlt).
  { repeat split; constructor. }
  fold s self in Hc, Hn, Hlt. split; [done|].
  rewrite Hn. intros Hin. rewrite Forall_forall in Hlt. specialize (Hlt _ Hin). simpl in Hlt. lia.
Qed.

(** ** IdleCondition

    The mutex makes every method one atomic step, so the runs of any number of
    goroutines are the sequences of steps. *)
Record IdleCondition := mkIdle {
  modId : Z;
  updateOpenCount : Z;
  closed : bool
}.
Definition NewIdleCondition : IdleCondition := mkIdle 0 0 false.
Definition Checkpoint (self : IdleCondition) : Z := modId self.
Definition Idle_Close (checkpointId : Z) (self : IdleCondition) : bool * IdleCondition :=
  if negb (modId self =? checkpointId)%Z then (false, self)
  else if (0 <? updateOpenCount self)%Z then (false, self)
  else (true, mkIdle (modId self) (updateOpenCount self) true).
(** [WaitForClose] returns only in a state with no open update. *)
Definition WaitForClose (self : IdleCondition) : option (bool * IdleCondition) :=
  if (0 <? updateOpenCount self)%Z then None
  else Some (true, mkIdle (modId self) (updateOpenCount self) true).
Definition UpdateOpen (self : IdleCondition) : bool * IdleCondition :=
  if closed self then (false, self)
  else (true, mkIdle (u64 (modId self + 1)) (updateOpenCount self + 1) (closed self)).
Definition UpdateClose (self : IdleCondition) : IdleCondition :=
  mkIdle (modId self) (updateOpenCount self - 1) (closed self).

(** The steps with their results. *)
Inductive idle_label :=
| LCheckpoint (r : Z)
| LClose (checkpointId : Z) (r : bool)
| LWaitForClose
| LUpdateOpen (r : bool)
| LUpdateClose.
Inductive idle_step : IdleCondition → idle_label → IdleCondition → Prop :=
| step_checkpoint s : idle_step s (LCheckpoint (Checkpoint s)) s
| step_close s c : idle_step s (LClose c (Idle_Close c s).1) (Idle_Close c s).2
| step_wait s s' : WaitForClose s = Some (true, s') → idle_step s LWaitForClose s'
| step_open s : idle_step s (LUpdateOpen (UpdateOpen s).1) (UpdateOpen s).2
| step_update_close s : (0 < updateOpenCount s)%Z → idle_step s LUpdateClose (UpdateClose s).
Inductive idle_run : IdleCondition → list idle_label → IdleCondition → Prop :=
| idle_run_nil s : idle_run s [] s
| idle_run_cons s l s' ls s'' : idle_step s l s' → idle_run s' ls s'' → idle_run s (l :: ls) s''.

Definition opens (ls : list idle_label) : Z :=
  zsum (map (λ l, match l with LUpdateOpen true => 1 | _ => 0 end)%Z ls).
Definition closes (ls : list idle_label) : Z :=
  zsum (map (λ l, match l with LUpdateClose => 1 | _ => 0 end)%Z ls).

Lemma opens_nonneg ls : (0 ≤ opens ls)%Z.
Proof. apply zsum_nonneg, Forall_map, Forall_true. by intros [| | |[]|]. Qed.


(** What the state says of the steps taken. *)
Lemma idle_run_counts s ls s' :
  idle_run s ls s' → is_u64 (modId s) →
  modId s' = u64 (modId s + opens ls) ∧
  updateOpenCount s' = (updateOpenCount s + opens ls - closes ls)%Z ∧
  is_u64 (modId s') ∧ (0 ≤ updateOpenCount s → 0 ≤ updateOpenCount s')%Z ∧ (closed s = true → closed s' = true ∧ opens ls = 0%Z).
Proof.
  induction 1 as [s|s l s' ls s'' Hstep Hrun IH]; intros Hm.
  { unfold opens, closes. simpl. rewrite Z.add_0_r, u64_small by done.
    split_and!; [done|lia|done|done|done]. }
  unfold opens, closes in *. cbn [map]. rewrite !zsum_cons.
  assert (is_u64 (modId s') ∧ ∃ o c, modId s' = u64 (modId s + o) ∧
    updateOpenCount s' = (updateOpenCount s + o - c)%Z ∧
    o = (match l with LUpdateOpen true => 1 | _ => 0 end)%Z ∧
    c = (match l with LUpdateClose => 1 | _ => 0 end)%Z ∧
    (0 ≤ updateOpenCount s → 0 ≤ updateOpenCount s')%Z ∧
    (closed s = true → closed s' = true ∧ o = 0%Z)) as (Hm' & o & c & E1 & E2 & Eo & Ec & Hnn & Hcl).
  { destruct Hstep as [s|s c|s s1 Hw|s|s Hpos].
    - split; [done|]. exists 0%Z, 0%Z. rewrite Z.add_0_r, u64_small by done. split_and!; try done; (lia || by intros; simpl in *; auto).
    - unfold Idle_Close. repeat case_match; simpl; (split; [done|]); exists 0%Z, 0%Z;
        rewrite Z.add_0_r, u64_small by done; split_and!; try done; (lia || by intros; simpl in *; auto).
    - unfold WaitForClose in Hw. case_match; [done|]. injection Hw as <-. simpl. split; [done|].
      exists 0%Z, 0%Z. rewrite Z.add_0_r, u64_small by done. split_and!; try done; (lia || by intros; simpl in *; auto).
    - unfold UpdateOpen. destruct (closed s) eqn:Ecl; simpl.
      + split; [done|]. exists 0%Z, 0%Z. rewrite Z.add_0_r, u64_small by done. split_and!; try done; (lia || by intros; simpl in *; auto).
      + split; [apply u64_range|]. exists 1%Z, 0%Z. split_and!; try done; (lia || by intros; simpl in *; auto).
    - simpl. split; [done|]. exists 0%Z, 1%Z. rewrite Z.add_0_r, u64_small by done.
      split_and!; try done; (lia || by intros; simpl in *; auto). }
  destruct (IH Hm') as (IH1 & IH2 & IH3 & IHn & IH4). rewrite <-Eo, <-Ec.
  split_and!; [|lia|done|by auto|].
  - rewrite IH1, E1, u64_add_l. f_equal. lia.
  - intros Hc. destruct (Hcl Hc) as [Hc' ->]. destruct (IH4 Hc') as [? ->]. done.
Qed.

Lemma idle_run_app s ls1 ls2 s'' :
  idle_run s (ls1 ++ ls2) s'' → ∃ s', idle_run s ls1 s' ∧ idle_run s' ls2 s''.
Proof.
  revert s. induction ls1 as [|l ls1 IH]; intros s H; simpl in H.
  - exists s. split; [constructor|done].
  - inversion H as [|? ? s1 ? ? Hs Hr]; subst. destruct (IH s1 Hr) as (s' & ? & ?).
    exists s'. split; [by econstructor|done].
Qed.

(** An idle shutdown never loses an update: in every interleaving in which
    a [Checkpoint] returned [c] and a later [Close c] returned true, with fewer
    than 2^64 updates opened in between, no [UpdateOpen] succeeded between the
    two, every update opened before was closed, and no [UpdateOpen] after it
    succeeds. *)
Theorem idle_close_loses_no_update (before between after : list idle_label) (c : Z)
    (s : IdleCondition) :
  idle_run NewIdleCondition
    (before ++ LCheckpoint c :: between ++ LClose c true :: after) s →
  (opens between < 2 ^ 64)%Z →
  opens between = 0%Z ∧ opens before = closes (before ++ between) ∧ opens after = 0%Z.
Proof.
  intros (s1 & H1 & H2)%idle_run_app Hlt.
  destruct (idle_run_counts _ _ _ H1) as (M1 & N1 & R1 & P1 & _); [by vm_compute|].
  inversion H2 as [|? ? s2 ? ? Hc H3]; subst. inversion Hc; subst. clear Hc H2.
  apply idle_run_app in H3 as (s3 & H3 & H4).
  destruct (idle_run_counts _ _ _ H3 R1) as (M3 & N3 & R3 & P3 & _).
  inversion H4 as [|? ? s4 ? ? Hc H5]; subst. inversion Hc as [|? ? E| | |]; subst. clear H4.
  unfold Idle_Close in *. destruct (Z.eqb_spec (modId s3) (Checkpoint s2)) as [Em|]; simpl in *; [|done].
  destruct (Z.ltb_spec 0 (updateOpenCount s3)) as [|Hz]; simpl in *; [done|].
  destruct (idle_run_counts _ _ _ H5) as (_ & _ & _ & _ & H6); [done|].
  destruct (H6 eq_refl) as [_ Ha]. pose proof (opens_nonneg between).
  assert (opens between = 0%Z) as Hb.
  { unfold Checkpoint in Em. rewrite Em in M3. unfold u64, is_u64 in *.
    pose proof (Z.div_mod (modId s2 + opens between) (2 ^ 64)).
    assert (0 ≤ (modId s2 + opens between) / 2 ^ 64 < 2)%Z.
    { split; [apply Z.div_pos; lia|apply Z.div_lt_upper_bound; lia]. }
    lia. }
  split_and!; [done| |done].
  unfold closes in *. rewrite map_app, zsum_app. simpl in *. lia.
Qed.

(** A run with a racing update that loses. *)
Lemma idle_close_loses_no_update_witness :
  opens [] = 0%Z ∧ opens [LUpdateOpen true; LUpdateClose] =
    closes ([LUpdateOpen true; LUpdateClose] ++ []) ∧ opens [LUpdateOpen false] = 0%Z.
Proof.
  apply (idle_close_loses_no_update [LUpdateOpen true; LUpdateClose] [] [LUpdateOpen false] 1
    (mkIdle 1 0 true)); [|vm_compute; reflexivity].
  simpl. eapply idle_run_cons; [exact (step_open NewIdleCondition)|].
  eapply idle_run_cons; [apply step_update_close; vm_compute; reflexivity|].
  eapply idle_run_cons; [exact (step_checkpoint (mkIdle 1 0 false))|].
  eapply idle_run_cons; [exact (step_close (mkIdle 1 0 false) 1)|].
  eapply idle_run_cons; [exact (step_open (mkIdle 1 0 true))|]. constructor.
Defined.

(** ** MinTime *)
Definition MinTime (a : time) (bs : list time) : time :=
  foldl (λ m b, if (b <? m)%Z then b else m) a bs.

(** ** Weighted shuffles

    [rand_int k n] and [rand_float k] are the [k]-th draws of [mathrand]: an
    integer below [n], and a [float32] of [0, 1). *)
Definition swap_at {T} (i j : nat) (l : list T) : outcome (list T) :=
  match l !! i, l !! j with
  | Some a, Some b => Val (<[j := a]> (<[i := b]> l))
  | _, _ => Panic "index out of range"
  end.

Section Shuffle.
Context {T : Type}.
Variable rand_int : nat → nat → nat.
Variable rand_float : nat → spec_float.
Hypothesis rand_int_lt : ∀ k n, 0 < n → rand_int k n < n.

Definition f32_zero : spec_float := S754_zero false.
Definition f32_add (a b : spec_float) : spec_float := SFadd f32_prec f32_emax a b.
Definition f32_sub (a b : spec_float) : spec_float := SFsub f32_prec f32_emax a b.

(** [mathrand.Shuffle]: Fisher-Yates from the last place down. *)
Fixpoint rand_shuffle (i : nat) (l : list T) : outcome (list T) :=
  match i with
  | 0 => Val l
  | S i' => let! l := swap_at i (rand_int i (i + 1)) l in rand_shuffle i' l
  end.

Definition net_weight (weight : T → spec_float) (l : list T) : spec_float :=
  foldl (λ net v, f32_add net (weight v)) f32_zero l.

(** The choice of the inner function: [j], and [netRemaining]. *)
Fixpoint pick_loop (fuel : nat) (weight : T → spec_float) (l : list T) (j : nat)
    (rnet net netRemaining : spec_float) : outcome (nat * spec_float) :=
  match fuel with
  | 0 => Val (length l - 1, netRemaining)
  | S fuel =>
      match l !! j with
      | None => Val (length l - 1, netRemaining)
      | Some v =>
          let w := weight v in
          let net := f32_add net w in
          if SFltb rnet net then Val (j, f32_sub netRemaining w)
          else pick_loop fuel weight l (j + 1) rnet net netRemaining
      end
  end.

Fixpoint weighted_loop (k : nat) (weight : T → spec_float) (entropy : spec_float) (i : nat)
    (l : list T) (netRemaining : spec_float) : outcome (list T) :=
  match k with
  | 0 => Val l
  | S k =>
      let rnet := f32_mul (rand_float i) netRemaining in
      let net := f32_mul entropy netRemaining in
      let! (j, netRemaining) := pick_loop (length l - i) weight l i rnet net netRemaining in
      let! l := swap_at i j l in
      weighted_loop k weight entropy (i + 1) l netRemaining
  end.
Definition WeightedShuffleFuncWithEntropy (values : list T) (weight : T → spec_float)
    (entropy : spec_float) : outcome (list T) :=
  let n := length values in
  let! values := rand_shuffle (n - 1) values in
  weighted_loop (n - 1) weight entropy 0 values (net_weight weight values).
Definition WeightedShuffleFunc (values : list T) (weight : T → spec_float) : outcome (list T) :=
  WeightedShuffleFuncWithEntropy values weight f32_zero.
(** With a weights map: a missing key has weight zero. *)
Definition WeightedShuffleWithEntropy `{Countable T} (values : list T) (weights : gmap T spec_float)
    (entropy : spec_float) : outcome (list T) :=
  WeightedShuffleFuncWithEntropy values (λ v, default f32_zero (weights !! v)) entropy.
Definition WeightedShuffle `{Countable T} (values : list T) (weights : gmap T spec_float)
    : outcome (list T) :=
  WeightedShuffleWithEntropy values weights f32_zero.

(** The selection's inner function: draws of [j] until one fits. *)
Fixpoint select_loop (c : nat) (weight : T → spec_float) (l : list T) (i j draw : nat)
    (rnet net netRemaining : spec_float) : outcome (nat * spec_float) :=
  match c with
  | 0 => Val (j, netRemaining)
  | S c =>
      match l !! j with
      | None => Panic "index out of range"
      | Some v =>
          let w := weight v in
          let net := f32_add net w in
          if SFltb rnet net then Val (j, f32_sub netRemaining w)
          else
            let m := length l - i in
            select_loop c weight l i (i + rand_int draw m `mod` m) (S draw) rnet net netRemaining
      end
  end.
Fixpoint weighted_select (k : nat) (weight : T → spec_float) (entropy : spec_float) (i : nat)
    (l : list T) (netRemaining : spec_float) : outcome (list T) :=
  match k with
  | 0 => Val l
  | S k =>
      let rnet := f32_mul (rand_float i) netRemaining in
      let net := f32_mul entropy netRemaining in
      let m := length l - i in
      let draw := i * S (length l) in
      let j := i + rand_int draw m `mod` m in
      let! (j, netRemaining) := select_loop m weight l i j (S draw) rnet net netRemaining in
      let! l := swap_at i j l in
      weighted_select k weight entropy (i + 1) l netRemaining
  end.
Definition WeightedSelectFuncWithEntropy (values : list T) (n : nat) (weight : T → spec_float)
    (entropy : spec_float) : outcome (list T) :=
  weighted_select (n `min` length values) weight entropy 0 values (net_weight weight values).
Definition WeightedSelectFunc (values : list T) (n : nat) (weight : T → spec_float)
    : outcome (list T) :=
  WeightedSelectFuncWithEntropy values n weight f32_zero.

Lemma swap_at_spec i j (l : list T) :
  i < length l → j < length l → ∃ l', swap_at i j l = Val l' ∧ l' ≡ₚ l.
Proof.
  intros [a Ha]%lookup_lt_is_Some_2 [b Hb]%lookup_lt_is_Some_2. unfold swap_at.
  rewrite Ha, Hb. eexists. split; [done|].
  destruct (decide (i = j)) as [->|]; [|by apply Permutation_insert_swap].
  simplify_eq. by rewrite !list_insert_id by (by rewrite ?list_insert_id).
Qed.
Lemma rand_shuffle_spec i (l : list T) :
  i < length l ∨ i = 0 → ∃ l', rand_shuffle i l = Val l' ∧ l' ≡ₚ l.
Proof.
  revert l. induction i as [|i IH]; intros l Hi; [by exists l|]. cbn [rand_shuffle].
  destruct (swap_at_spec (S i) (rand_int (S i) (S i + 1)) l) as (l1 & -> & H1); [lia| |].
  { pose proof (rand_int_lt (S i) (S i + 1)). lia. }
  cbn [obind]. destruct (IH l1) as (l2 & -> & H2).
  { rewrite (Permutation_length H1). lia. }
  exists l2. split; [done|]. by rewrite H2.
Qed.
Lemma pick_loop_spec fuel weight (l : list T) j rnet net rem :
  0 < length l → ∃ j' rem', pick_loop fuel weight l j rnet net rem = Val (j', rem') ∧ j' < length l.
Proof.
  intros Hl. revert j net. induction fuel as [|fuel IH]; intros j net; cbn [pick_loop].
  - eexists _, _. split; [done|lia].
  - destruct (l !! j) as [v|] eqn:E; [|eexists _, _; split; [done|lia]].
    apply lookup_lt_Some in E. case_match; [by eexists _, _|apply IH].
Qed.
Lemma weighted_loop_spec k weight entropy i (l : list T) rem :
  i + k ≤ length l → ∃ l', weighted_loop k weight entropy i l rem = Val l' ∧ l' ≡ₚ l.
Proof.
  revert i l rem. induction k as [|k IH]; intros i l rem Hik; [by exists l|]. cbn [weighted_loop].
  edestruct (pick_loop_spec (length l - i) weight l i) as (j & rem' & -> & Hj); [lia|].
  cbn [obind]. destruct (swap_at_spec i j l) as (l1 & -> & H1); [lia|done|]. cbn [obind].
  destruct (IH (i + 1) l1 rem') as (l2 & -> & H2); [rewrite (Permutation_length H1); lia|].
  exists l2. split; [done|]. by rewrite H2.
Qed.
Lemma select_loop_spec c weight (l : list T) i j draw rnet net rem :
  i < length l → j < length l →
  ∃ j' rem', select_loop c weight l i j draw rnet net rem = Val (j', rem') ∧ j' < length l.
Proof.
  intros Hi. revert j draw net. induction c as [|c IH]; intros j draw net Hj; cbn [select_loop].
  - by eexists _, _.
  - destruct (lookup_lt_is_Some_2 l j Hj) as [v ->]. case_match; [by eexists _, _|].
    apply IH. pose proof (Nat.mod_upper_bound (rand_int draw (length l - i)) (length l - i)). lia.
Qed.
Lemma weighted_select_spec k weight entropy i (l : list T) rem :
  i + k ≤ length l → ∃ l', weighted_select k weight entropy i l rem = Val l' ∧ l' ≡ₚ l.
Proof.
  revert i l rem. induction k as [|k IH]; intros i l rem Hik; [by exists l|]. cbn [weighted_select].
  edestruct (select_loop_spec (length l - i) weight l i) as (j & rem' & -> & Hj); [lia| |].
  { pose proof (Nat.mod_upper_bound (rand_int (i * S (length l)) (length l - i)) (length l - i)). lia. }
  cbn [obind]. destruct (swap_at_spec i j l) as (l1 & -> & H1); [lia|done|]. cbn [obind].
  destruct (IH (i + 1) l1 rem') as (l2 & -> & H2); [rewrite (Permutation_length H1); lia|].
  exists l2. split; [done|]. by rewrite H2.
Qed.

Lemma weighted_shuffle_ok (values : list T) (weight : T → spec_float) (entropy : spec_float) :
  ∃ l, WeightedShuffleFuncWithEntropy values weight entropy = Val l ∧ l ≡ₚ values.
Proof.
  unfold WeightedShuffleFuncWithEntropy.
  destruct (rand_shuffle_spec (length values - 1) values) as (l & -> & H1); [lia|]. cbn [obind].
  edestruct (weighted_loop_spec (length values - 1) weight entropy 0 l) as (l2 & -> & H2).
  { rewrite (Permutation_length H1). lia. }
  exists l2. split; [done|]. by rewrite H2.
Qed.
(** Whatever the random draws, the weights (zeros and NaNs among them) and
    the entropy, the weighted shuffles and the weighted selection terminate
    without an index out of range and only reorder the values. *)
Theorem weighted_shuffles_permute (values : list T) (n : nat) (weight : T → spec_float)
    (entropy : spec_float) :
  (∃ l, WeightedShuffleFuncWithEntropy values weight entropy = Val l ∧ l ≡ₚ values) ∧
  (∃ l, WeightedSelectFuncWithEntropy values n weight entropy = Val l ∧ l ≡ₚ values).
Proof.
  split; [apply weighted_shuffle_ok|].
  apply weighted_select_spec. lia.
Qed.
End Shuffle.

Lemma weighted_shuffles_permute_witness :
  (∃ l, WeightedShuffleFuncWithEntropy (λ _ n, n - 1) (λ _, f32_zero) [1; 2; 3]%nat (λ v, f32_of_Z (Z.of_nat v)) f32_zero
          = Val l ∧ l ≡ₚ [1; 2; 3]%nat) ∧
  (∃ l, WeightedSelectFuncWithEntropy (λ _ n, n - 1) (λ _, f32_zero) [1; 2; 3]%nat 2 (λ v, f32_of_Z (Z.of_nat v)) f32_zero
          = Val l ∧ l ≡ₚ [1; 2; 3]%nat).
Proof.
  apply (weighted_shuffles_permute (λ _ n, n - 1) (λ _, f32_zero)). intros k n. lia.
Defined.
