(* ===== verification/RouteManager.v ===== *)
(** * Routes of a client: transfer_route_manager.go

    A transport gives the channels, its routes, by which frames go to the
    destinations that it matches. [MatchState] keeps the routes of all
    transports, and a [MultiRouteSelector] for each writer or reader with those
    of the transports that match its destination. [WriteDetailed] and [Read]
    go through the active routes in rounds.

    A transport and a route are pointers: what their methods give is in the
    class [Transports]; [TransportObject] is what the program has of them. *)

From Stdlib Require Import Floats.SpecFloat.
From stdpp Require Import sorting.
From S2P Require Import Prelude Ids RttWindow Util.
Open Scope go_scope.

(** ** Statistics *)
Record RouteStats := mkRouteStats {
  sendCount : Z;
  sendByteCount : Z;
  receiveCount : Z;
  receiveByteCount : Z
}.
Definition NewRouteStats : RouteStats := mkRouteStats 0 0 0 0.
Definition add_stats (a b : RouteStats) : RouteStats :=
  mkRouteStats (i64 (sendCount a + sendCount b)) (i64 (sendByteCount a + sendByteCount b))
    (i64 (receiveCount a + receiveCount b)) (i64 (receiveByteCount a + receiveByteCount b)).

(** ** Transports *)
Class Transports (T : Type) `{Countable T} := {
  Priority : T → Z;
  Weight : T → spec_float;
  CanEvalRouteWeight : T → RouteStats → gmap T RouteStats → bool;
  RouteWeight : T → RouteStats → gmap T RouteStats → spec_float;
  MatchesSend : T → TransferPath → bool;
  MatchesReceive : T → TransferPath → bool
}.
Definition f32_div (a b : spec_float) : spec_float := SFdiv f32_prec f32_emax a b.
Definition f32_one : spec_float := f32_of_Z 1.

(** The transports of the program, transport_p2p.go included. *)
Inductive TransportObject :=
| sendClientTransport (complement : bool) (destinations : gset TransferPath)
| sendGatewayTransport
| receiveGatewayTransport
| prioritySendGatewayTransport (priority : Z) (weight : spec_float)
| priorityReceiveGatewayTransport (priority : Z) (weight : spec_float)
| P2pSendTransport (streamId : Id)
| P2pReceiveTransport (streamId : Id).
Definition NewSendClientTransportWithComplement (complement : bool) (destinations : list TransferPath) : TransportObject :=
  sendClientTransport complement (list_to_set destinations).
Definition NewSendClientTransport (destinations : list TransferPath) : TransportObject :=
  NewSendClientTransportWithComplement false destinations.
Definition object_Priority (o : TransportObject) : Z :=
  match o with
  | prioritySendGatewayTransport p _ | priorityReceiveGatewayTransport p _ => p
  | P2pSendTransport _ | P2pReceiveTransport _ => 0
  | _ => 100
  end.
Definition object_Weight (o : TransportObject) : spec_float :=
  match o with
  | prioritySendGatewayTransport _ w | priorityReceiveGatewayTransport _ w => w
  | P2pSendTransport _ | P2pReceiveTransport _ => f32_one
  | _ => f32_zero
  end.
Definition object_MatchesSend (o : TransportObject) (destination : TransferPath) : bool :=
  match o with
  | sendClientTransport complement destinations => xorb complement (bool_decide (destination ∈ destinations))
  | sendGatewayTransport | prioritySendGatewayTransport _ _ => true
  | P2pSendTransport streamId => bool_decide (StreamId_ destination = streamId)
  | _ => false
  end.
Definition object_MatchesReceive (o : TransportObject) (destination : TransferPath) : bool :=
  match o with
  | receiveGatewayTransport | priorityReceiveGatewayTransport _ _ | P2pReceiveTransport _ => true
  | _ => false
  end.
(** The fraction of the weight that a transport takes, by the weights of those
    that remain: a map goes through them in some order. *)
Definition object_RouteWeight (weights : list spec_float) (o : TransportObject) : spec_float :=
  let uniform := f32_div f32_one (f32_of_Z (1 + Z.of_nat (length weights))) in
  match o with
  | prioritySendGatewayTransport _ w | priorityReceiveGatewayTransport _ w =>
      let netWeight := foldl f32_add w weights in
      if SFltb f32_zero netWeight then f32_div w netWeight else uniform
  | P2pSendTransport _ | P2pReceiveTransport _ => f32_one
  | _ => uniform
  end.
(** Transports as pointers to their objects. *)
Definition object_transports (T : Type) `{Countable T} (object : T → TransportObject) : Transports T := {|
  Priority t := object_Priority (object t);
  Weight t := object_Weight (object t);
  CanEvalRouteWeight _ _ _ := true;
  RouteWeight t _ remainingStats := object_RouteWeight (map (λ p, object_Weight (object p.1)) (map_to_list remainingStats)) (object t);
  MatchesSend t := object_MatchesSend (object t);
  MatchesReceive t := object_MatchesReceive (object t)
|}.

(** ** A selector *)
(** The draws of [mathrand] of one call. *)
Record draws := mkDraws { d_int : nat → nat → nat; d_float : nat → spec_float }.
Definition draws_ok (d : draws) : Prop := ∀ k n, 0 < n → d_int d k n < n.

Section Routes.
Context {T R : Type} `{Transports T} `{Countable R}.
Record MultiRouteSelector := mkSelector {
  destination : TransferPath;
  weightedRoutes : bool;
  transportRoutes : gmap T (list R);
  routeStats : gmap R RouteStats;
  routeActive : gmap R bool;
  routeWeight : gmap R spec_float;
  transportUpdates : nat    (** how often [transportUpdate] has notified *)
}.
Definition NewMultiRouteSelector (destination : TransferPath) (weightedRoutes : bool) : MultiRouteSelector :=
  mkSelector destination weightedRoutes ∅ ∅ ∅ ∅ 0.
Definition sum_stats (stats : gmap R RouteStats) (routes : list R) : RouteStats :=
  foldl (λ net r, match stats !! r with Some s => add_stats net s | None => net end) NewRouteStats routes.
Definition sel_getTransportStats (transport : T) (self : MultiRouteSelector) : option RouteStats :=
  match transportRoutes self !! transport with
  | Some currentRoutes => Some (sum_stats (routeStats self) currentRoutes)
  | None => None
  end.

Section Weights.
Variable self : MultiRouteSelector.
Definition transport_stats (t : T) : RouteStats :=
  sum_stats (routeStats self) (default [] (transportRoutes self !! t)).
Definition remaining_stats (ts : list T) : gmap T RouteStats :=
  list_to_map (map (λ t, (t, transport_stats t)) ts).
Fixpoint can_eval (ts : list T) : bool :=
  match ts with
  | [] => true
  | t :: ts => CanEvalRouteWeight t (transport_stats t) (remaining_stats ts) && can_eval ts
  end.
Fixpoint eval_weights (ts : list T) (allWeight : spec_float) (updated : gmap R spec_float) : gmap R spec_float :=
  match ts with
  | [] => updated
  | t :: ts =>
      let weight := RouteWeight t (transport_stats t) (remaining_stats ts) in
      eval_weights ts (f32_mul allWeight (f32_sub f32_one weight))
        (foldl (λ u r, <[r := f32_mul allWeight weight]> u) updated (default [] (transportRoutes self !! t)))
  end.
End Weights.
Definition all_routes (self : MultiRouteSelector) : list R := concat (map snd (map_to_list (transportRoutes self))).
Definition priority_le (a b : T) : Prop := (i64 (Priority a - Priority b) ≤ 0)%Z.
#[local] Instance priority_le_dec : RelDecision priority_le.
Proof. intros a b. unfold priority_le. apply _. Defined.
Definition updateRouteWeights (d : draws) (self : MultiRouteSelector) : outcome MultiRouteSelector :=
  let transports := map fst (map_to_list (transportRoutes self)) in
  let! shuffled := rand_shuffle (d_int d) (length transports - 1) transports in
  let orderedTransports := merge_sort priority_le shuffled in
  if can_eval self orderedTransports then
    Val (mkSelector (destination self) (weightedRoutes self) (transportRoutes self)
           (foldl (λ u r, <[r := NewRouteStats]> u) ∅ (all_routes self)) (routeActive self)
           (eval_weights self orderedTransports f32_one ∅) (transportUpdates self))
  else Val self.

Definition forget_routes (gone : list R) (self : MultiRouteSelector) : MultiRouteSelector :=
  mkSelector (destination self) (weightedRoutes self) (transportRoutes self)
    (foldl (λ m r, delete r m) (routeStats self) gone) (foldl (λ m r, delete r m) (routeActive self) gone)
    (foldl (λ m r, delete r m) (routeWeight self) gone) (transportUpdates self).
Definition set_routes (transports : gmap T (list R)) (self : MultiRouteSelector) : MultiRouteSelector :=
  mkSelector (destination self) (weightedRoutes self) transports (routeStats self) (routeActive self)
    (routeWeight self) (transportUpdates self).
Definition activate (routes : list R) (self : MultiRouteSelector) : MultiRouteSelector :=
  mkSelector (destination self) (weightedRoutes self) (transportRoutes self) (routeStats self)
    (foldl (λ m r, <[r := true]> m) (routeActive self) routes) (routeWeight self) (transportUpdates self).
Definition notify_update (self : MultiRouteSelector) : MultiRouteSelector :=
  mkSelector (destination self) (weightedRoutes self) (transportRoutes self) (routeStats self) (routeActive self)
    (routeWeight self) (S (transportUpdates self)).
Definition sel_updateTransport (d : draws) (transport : T) (routes : list R) (self : MultiRouteSelector) : outcome MultiRouteSelector :=
  let finish self :=
    let! self := if weightedRoutes self then updateRouteWeights d self else Val self in
    Val (notify_update self) in
  match routes, transportRoutes self !! transport with
  | [], Some currentRoutes =>
      finish (set_routes (delete transport (transportRoutes self)) (forget_routes currentRoutes self))
  | [], None => Val self
  | _, Some currentRoutes =>
      finish (set_routes (<[transport := routes]> (transportRoutes self))
        (activate (filter (λ r, r ∉ currentRoutes) routes)
          (forget_routes (filter (λ r, r ∉ routes) currentRoutes) self)))
  | _, None => finish (set_routes (<[transport := routes]> (transportRoutes self)) (activate routes self))
  end.

Definition is_active (self : MultiRouteSelector) (r : R) : bool := default false (routeActive self !! r).
Definition GetActiveRoutes (d : draws) (self : MultiRouteSelector) : outcome (list R) :=
  let activeRoutes := filter (λ r, is_active self r) (all_routes self) in
  if weightedRoutes self then WeightedShuffle (d_int d) (d_float d) activeRoutes (routeWeight self)
  else rand_shuffle (d_int d) (length activeRoutes - 1) activeRoutes.
Definition GetInactiveRoutes (self : MultiRouteSelector) : list R :=
  filter (λ r, negb (is_active self r)) (all_routes self).
(** The argument [active] is not used. *)
Definition setActive (route : R) (self : MultiRouteSelector) : MultiRouteSelector :=
  match routeActive self !! route with
  | Some _ => mkSelector (destination self) (weightedRoutes self) (transportRoutes self) (routeStats self)
                (<[route := false]> (routeActive self)) (routeWeight self) (transportUpdates self)
  | None => self
  end.
Definition update_stats (route : R) (s : RouteStats) (self : MultiRouteSelector) : MultiRouteSelector :=
  mkSelector (destination self) (weightedRoutes self) (transportRoutes self)
    (<[route := add_stats (default NewRouteStats (routeStats self !! route)) s]> (routeStats self))
    (routeActive self) (routeWeight self) (transportUpdates self).
Definition updateSendStats (route : R) (count byteCount : Z) := update_stats route (mkRouteStats count byteCount 0 0).
Definition updateReceiveStats (route : R) (count byteCount : Z) := update_stats route (mkRouteStats 0 0 count byteCount).

(** ** Writes and reads

    A call goes through its steps while others change the selector and the
    channels: each step has the state that it finds. A step is on a place of
    the call, and tells what it did to the channels. *)
Inductive chan_effect := Put (r : R) (frame : list byte) | Took (r : R) (frame : list byte).
(** What a step finds: whether a route takes or has a frame, or is closed. *)
Inductive route_state := Blocked | Ready (frame : list byte) | Closed.
Inductive select_case := SelContextDone | SelDone | SelTransportUpdate | SelRoute (i : nat) | SelTimeout.
Inductive call_result :=
| Success (r : R) (frame : list byte)
| Timeout
| Failed (msg : string).
Inductive call_pc :=
| CallStart
| CallTry (activeRoutes rest : list R) (retry : bool)
| CallSelect (activeRoutes : list R)
| CallDone (result : call_result).
Record call_env := mkCallEnv {
  ce_selector : MultiRouteSelector;
  ce_draws : draws;
  ce_route : R → route_state;
  ce_case : select_case
}.
Definition step_result : Type := MultiRouteSelector * list chan_effect * call_pc.
Definition wrote (r : R) (frame : list byte) (sel : MultiRouteSelector) : outcome step_result :=
  Val (updateSendStats r 1 (Z.of_nat (length frame)) sel, [Put r frame], CallDone (Success r frame)).
(** [None]: the case of the select is not enabled. *)
Definition WriteDetailed_step (transferFrameBytes : list byte) (timeout : duration) (env : call_env) (pc : call_pc)
    : option (outcome step_result) :=
  let sel := ce_selector env in
  match pc with
  | CallStart => Some (let! active := GetActiveRoutes (ce_draws env) sel in Val (sel, [], CallTry active active false))
  | CallTry active [] _ => Some (Val (sel, [], CallSelect active))
  | CallTry active (r :: rest) _ =>
      Some match ce_route env r with
           | Closed => Panic "send on closed channel"
           | Ready _ => wrote r transferFrameBytes sel
           | Blocked => Val (sel, [], CallTry active rest false)
           end
  | CallSelect active =>
      match ce_case env with
      | SelContextDone => Some (Val (sel, [], CallDone (Failed "Context done")))
      | SelDone => Some (Val (sel, [], CallDone (Failed "Done")))
      | SelTransportUpdate => Some (Val (sel, [], CallStart))
      | SelTimeout => if (0 <=? timeout)%Z then Some (Val (sel, [], CallDone Timeout)) else None
      | SelRoute i =>
          match active !! i with
          | Some r =>
              match ce_route env r with
              | Closed => Some (Panic "send on closed channel")
              | Ready _ => Some (wrote r transferFrameBytes sel)
              | Blocked => None
              end
          | None => None
          end
      end
  | CallDone _ => None
  end.
Definition got (r : R) (frame : list byte) (sel : MultiRouteSelector) : outcome step_result :=
  Val (updateReceiveStats r 1 (Z.of_nat (length frame)) sel, [Took r frame], CallDone (Success r frame)).
(** Both of the first cases of the select are the end of the selector: the
    context of the caller is not looked at. *)
Definition Read_step (timeout : duration) (env : call_env) (pc : call_pc) : option (outcome step_result) :=
  let sel := ce_selector env in
  match pc with
  | CallStart => Some (let! active := GetActiveRoutes (ce_draws env) sel in Val (sel, [], CallTry active active false))
  | CallTry active [] retry => Some (Val (sel, [], if retry then CallStart else CallSelect active))
  | CallTry active (r :: rest) retry =>
      Some match ce_route env r with
           | Ready frame => got r frame sel
           | Closed => Val (setActive r sel, [], CallTry active rest true)
           | Blocked => Val (sel, [], CallTry active rest retry)
           end
  | CallSelect active =>
      match ce_case env with
      | SelContextDone => Some (Val (sel, [], CallDone (Failed "Context done")))
      | SelDone => Some (Val (sel, [], CallDone (Failed "Done")))
      | SelTransportUpdate => Some (Val (sel, [], CallStart))
      | SelTimeout => if (0 <=? timeout)%Z then Some (Val (sel, [], CallDone Timeout)) else None
      | SelRoute i =>
          match active !! i with
          | Some r =>
              match ce_route env r with
              | Ready frame => Some (got r frame sel)
              | Closed => Some (Val (setActive r sel, [], CallStart))
              | Blocked => None
              end
          | None => None
          end
      end
  | CallDone _ => None
  end.
(** A call through the states that it finds: what it did to the channels. *)
Fixpoint call_run (step : call_env → call_pc → option (outcome step_result)) (envs : list call_env) (pc : call_pc)
    : option (outcome (list chan_effect * call_pc)) :=
  match envs with
  | [] => Some (Val ([], pc))
  | env :: envs =>
      match step env pc with
      | None => None
      | Some (Val (_, effects, pc)) =>
          match call_run step envs pc with
          | Some (Val (effects', pc)) => Some (Val (effects ++ effects', pc))
          | r => r
          end
      | Some (Err e) => Some (Err e)
      | Some (Panic e) => Some (Panic e)
      end
  end.
(** [Write]: whether there is an error. *)
Definition Write_error (result : call_result) : option string :=
  match result with Success _ _ => None | Timeout => Some "Timeout."%string | Failed e => Some e end.

(** ** The selectors of a side *)
Record MatchState := mkMatchState {
  ms_weightedRoutes : bool;
  ms_transportRoutes : gmap T (list R);
  destinationMultiRouteSelectors : gmap TransferPath (gset positive);
  transportMatchedDestinations : gmap T (gset TransferPath);
  ms_selectors : gmap positive MultiRouteSelector;   (** what the pointers to selectors are to *)
  ms_next : positive
}.
Definition NewMatchState (weightedRoutes : bool) : MatchState := mkMatchState weightedRoutes ∅ ∅ ∅ ∅ 1.
Definition set_selectors (sels : gmap positive MultiRouteSelector) (ms : MatchState) : MatchState :=
  mkMatchState (ms_weightedRoutes ms) (ms_transportRoutes ms) (destinationMultiRouteSelectors ms)
    (transportMatchedDestinations ms) sels (ms_next ms).
Fixpoint fold_outcome {A S} (f : A → S → outcome S) (l : list A) (s : S) : outcome S :=
  match l with
  | [] => Val s
  | x :: l => let! s := f x s in fold_outcome f l s
  end.

Section Match.
Variable matches : T → TransferPath → bool.
(** The draws of the call, by selector and transport. *)
Variable ds : positive → T → draws.
Definition open_transport (p : positive) (destination : TransferPath) (x : T * list R) (ms : MultiRouteSelector * gmap T (gset TransferPath))
    : outcome (MultiRouteSelector * gmap T (gset TransferPath)) :=
  let '(sel, matched) := ms in
  let '(transport, routes) := x in
  match matched !! transport with
  | Some matchedDestinations =>
      if matches transport destination then
        let! sel := sel_updateTransport (ds p transport) transport routes sel in
        Val (sel, <[transport := {[destination]} ∪ matchedDestinations]> matched)
      else Val (sel, matched)
  | None =>
      (* the new map is a variable of its own *)
      if matches transport destination then Panic "assignment to entry in nil map"
      else Val (sel, <[transport := ∅]> matched)
  end.
Definition openMultiRouteSelector (destination : TransferPath) (self : MatchState) : outcome (positive * MatchState) :=
  let p := ms_next self in
  let multiRouteSelectors := default ∅ (destinationMultiRouteSelectors self !! destination) in
  let! (sel, matched) :=
    fold_outcome (open_transport p destination) (map_to_list (ms_transportRoutes self))
      (NewMultiRouteSelector destination (ms_weightedRoutes self), transportMatchedDestinations self) in
  Val (p, mkMatchState (ms_weightedRoutes self) (ms_transportRoutes self)
            (<[destination := {[p]} ∪ multiRouteSelectors]> (destinationMultiRouteSelectors self))
            matched (<[p := sel]> (ms_selectors self)) (Pos.succ p)).
Definition closeMultiRouteSelector (p : positive) (self : MatchState) : MatchState :=
  match ms_selectors self !! p with
  | None => self
  | Some sel =>
      match destinationMultiRouteSelectors self !! destination sel with
      | None => self
      | Some multiRouteSelectors =>
          let rest := multiRouteSelectors ∖ {[p]} in
          mkMatchState (ms_weightedRoutes self) (ms_transportRoutes self)
            (<[destination sel := rest]> (destinationMultiRouteSelectors self))
            (if decide (rest = ∅) then (λ D, D ∖ {[destination sel]}) <$> transportMatchedDestinations self
             else transportMatchedDestinations self)
            (ms_selectors self) (ms_next self)
      end
  end.
(** [updateTransport] on each of some selectors. *)
Definition update_one (transport : T) (routes : list R) (p : positive) (sels : gmap positive MultiRouteSelector)
    : outcome (gmap positive MultiRouteSelector) :=
  match sels !! p with
  | Some sel => let! sel := sel_updateTransport (ds p transport) transport routes sel in Val (<[p := sel]> sels)
  | None => Panic "nil"
  end.
Definition update_selectors (ps : gset positive) (transport : T) (routes : list R)
    (sels : gmap positive MultiRouteSelector) : outcome (gmap positive MultiRouteSelector) :=
  fold_outcome (update_one transport routes) (elements ps) sels.
Definition selectors_of (self : MatchState) (destinations : list TransferPath) : gset positive :=
  ⋃ (map (λ d, default ∅ (destinationMultiRouteSelectors self !! d)) destinations).
Definition updateTransport (transport : T) (routes : list R) (self : MatchState) : outcome MatchState :=
  let current := default ∅ (transportMatchedDestinations self !! transport) in
  match routes with
  | [] =>
      let! sels := update_selectors (selectors_of self (elements current)) transport [] (ms_selectors self) in
      Val (mkMatchState (ms_weightedRoutes self) (delete transport (ms_transportRoutes self))
             (destinationMultiRouteSelectors self) (delete transport (transportMatchedDestinations self)) sels (ms_next self))
  | _ =>
      let destinations := dom (destinationMultiRouteSelectors self) in
      let matched := filter (λ d, matches transport d = true) destinations in
      let! sels := update_selectors (selectors_of self (elements matched)) transport routes (ms_selectors self) in
      (* no longer matches *)
      let! sels := update_selectors (selectors_of self (elements ((destinations ∖ matched) ∩ current))) transport [] sels in
      Val (mkMatchState (ms_weightedRoutes self) (<[transport := routes]> (ms_transportRoutes self))
             (destinationMultiRouteSelectors self) (<[transport := matched]> (transportMatchedDestinations self)) sels (ms_next self))
  end.
Definition getTransportStats (transport : T) (self : MatchState) : option RouteStats :=
  match transportMatchedDestinations self !! transport with
  | None => None
  | Some destinations =>
      Some (foldl (λ net p,
              match ms_selectors self !! p with
              | Some sel => match sel_getTransportStats transport sel with Some s => add_stats net s | None => net end
              | None => net
              end) NewRouteStats (elements (selectors_of self (elements destinations))))
  end.
(** What readers and writers do to their selector. *)
Definition upd_selector (p : positive) (f : MultiRouteSelector → MultiRouteSelector) (self : MatchState) : MatchState :=
  set_selectors (alter f p (ms_selectors self)) self.
End Match.

(** ** The manager *)
Record RouteManager := mkRouteManager { writerMatchState : MatchState; readerMatchState : MatchState }.
Definition NewRouteManager : RouteManager := mkRouteManager (NewMatchState true) (NewMatchState false).
Definition OpenMultiRouteWriter (ds : positive → T → draws) (destination : TransferPath) (self : RouteManager)
    : outcome (positive * RouteManager) :=
  if negb (IsDestinationMask destination) then Panic "Destination required for writer"
  else let! (p, ms) := openMultiRouteSelector MatchesSend ds destination (writerMatchState self) in
       Val (p, mkRouteManager ms (readerMatchState self)).
Definition CloseMultiRouteWriter (p : positive) (self : RouteManager) : RouteManager :=
  mkRouteManager (closeMultiRouteSelector p (writerMatchState self)) (readerMatchState self).
Definition OpenMultiRouteReader (ds : positive → T → draws) (destination : TransferPath) (self : RouteManager)
    : outcome (positive * RouteManager) :=
  if negb (IsDestinationMask destination) then Panic "Destination required for reader"
  else let! (p, ms) := openMultiRouteSelector MatchesReceive ds destination (readerMatchState self) in
       Val (p, mkRouteManager (writerMatchState self) ms).
Definition CloseMultiRouteReader (p : positive) (self : RouteManager) : RouteManager :=
  mkRouteManager (writerMatchState self) (closeMultiRouteSelector p (readerMatchState self)).
Definition UpdateTransport (ds : positive → T → draws) (transport : T) (routes : list R) (self : RouteManager) : outcome RouteManager :=
  let! w := updateTransport MatchesSend ds transport routes (writerMatchState self) in
  let! r := updateTransport MatchesReceive ds transport routes (readerMatchState self) in
  Val (mkRouteManager w r).
Definition RemoveTransport (ds : positive → T → draws) (transport : T) (self : RouteManager) : outcome RouteManager :=
  UpdateTransport ds transport [] self.
Definition RouteManager_getTransportStats (transport : T) (self : RouteManager) : option RouteStats * option RouteStats :=
  (getTransportStats transport (writerMatchState self), getTransportStats transport (readerMatchState self)).

(** ** A run of the manager and its specification *)
Inductive sel_op := OpInactive (r : R) | OpSent (r : R) (count byteCount : Z) | OpReceived (r : R) (count byteCount : Z).
Definition apply_op (o : sel_op) : MultiRouteSelector → MultiRouteSelector :=
  match o with
  | OpInactive r => setActive r
  | OpSent r c b => updateSendStats r c b
  | OpReceived r c b => updateReceiveStats r c b
  end.
Inductive rm_label :=
| ROpenWriter (ds : positive → T → draws) (d : TransferPath)
| ROpenReader (ds : positive → T → draws) (d : TransferPath)
| RCloseWriter (p : positive)
| RCloseReader (p : positive)
| RUpdate (ds : positive → T → draws) (transport : T) (routes : list R)
| RWriter (p : positive) (o : sel_op)
| RReader (p : positive) (o : sel_op).
Definition rm_step (l : rm_label) (rm : RouteManager) : outcome RouteManager :=
  match l with
  | ROpenWriter ds d => let! (_, rm) := OpenMultiRouteWriter ds d rm in Val rm
  | ROpenReader ds d => let! (_, rm) := OpenMultiRouteReader ds d rm in Val rm
  | RCloseWriter p => Val (CloseMultiRouteWriter p rm)
  | RCloseReader p => Val (CloseMultiRouteReader p rm)
  | RUpdate ds t routes => UpdateTransport ds t routes rm
  | RWriter p o => Val (mkRouteManager (upd_selector p (apply_op o) (writerMatchState rm)) (readerMatchState rm))
  | RReader p o => Val (mkRouteManager (writerMatchState rm) (upd_selector p (apply_op o) (readerMatchState rm)))
  end.
Definition rm_run (ls : list rm_label) (rm : RouteManager) : outcome RouteManager := fold_outcome rm_step ls rm.

(** What the manager promises: a table of routes, and the destinations of the
    writers and readers that are open. *)
Record RouteTable := mkRouteTable {
  rt_table : gmap T (list R);
  rt_writers : gmap positive TransferPath;
  rt_nextWriter : positive;
  rt_readers : gmap positive TransferPath;
  rt_nextReader : positive
}.
Definition new_table : RouteTable := mkRouteTable ∅ ∅ 1 ∅ 1.
Definition update_routes (t : T) (routes : list R) (m : gmap T (list R)) : gmap T (list R) :=
  match routes with [] => delete t m | _ => <[t := routes]> m end.
Definition table_step (l : rm_label) (rt : RouteTable) : RouteTable :=
  match l with
  | ROpenWriter _ d =>
      mkRouteTable (rt_table rt) (<[rt_nextWriter rt := d]> (rt_writers rt)) (Pos.succ (rt_nextWriter rt)) (rt_readers rt) (rt_nextReader rt)
  | ROpenReader _ d =>
      mkRouteTable (rt_table rt) (rt_writers rt) (rt_nextWriter rt) (<[rt_nextReader rt := d]> (rt_readers rt)) (Pos.succ (rt_nextReader rt))
  | RCloseWriter p => mkRouteTable (rt_table rt) (delete p (rt_writers rt)) (rt_nextWriter rt) (rt_readers rt) (rt_nextReader rt)
  | RCloseReader p => mkRouteTable (rt_table rt) (rt_writers rt) (rt_nextWriter rt) (delete p (rt_readers rt)) (rt_nextReader rt)
  | RUpdate _ t routes =>
      mkRouteTable (update_routes t routes (rt_table rt)) (rt_writers rt) (rt_nextWriter rt) (rt_readers rt) (rt_nextReader rt)
  | RWriter _ _ | RReader _ _ => rt
  end.
Definition table_run (ls : list rm_label) (rt : RouteTable) : RouteTable := foldl (λ rt l, table_step l rt) rt ls.
(** Destinations are masks, and no two transports have a route in common. *)
Definition rm_label_ok (l : rm_label) (rt : RouteTable) : Prop :=
  match l with
  | ROpenWriter ds d | ROpenReader ds d => IsDestinationMask d = true ∧ ∀ p t, draws_ok (ds p t)
  | RUpdate ds t routes =>
      (∀ p t, draws_ok (ds p t)) ∧
      ∀ t' routes' r, rt_table rt !! t' = Some routes' → r ∈ routes → r ∈ routes' → t' = t
  | _ => True
  end.
Fixpoint rm_run_ok (ls : list rm_label) (rt : RouteTable) : Prop :=
  match ls with [] => True | l :: ls => rm_label_ok l rt ∧ rm_run_ok ls (table_step l rt) end.

(** ** One selector *)
Lemma updateRouteWeights_ok d sel :
  draws_ok d → ∃ sel', updateRouteWeights d sel = Val sel' ∧ destination sel' = destination sel ∧
    weightedRoutes sel' = weightedRoutes sel ∧ transportRoutes sel' = transportRoutes sel ∧ routeActive sel' = routeActive sel.
Proof.
  intros Hd. unfold updateRouteWeights. set (ts := map fst _).
  destruct (rand_shuffle_spec (d_int d) (d_float d) Hd (length ts - 1) ts) as (l & -> & _); [lia|]. cbn [obind].
  destruct (can_eval _ _); eexists; split; done.
Qed.
Lemma lookup_fold_delete {V} (m : gmap R V) l r :
  foldl (λ m r, delete r m) m l !! r = if decide (r ∈ l) then None else m !! r.
Proof.
  revert m. induction l as [|x l IH]; intros m; cbn [foldl]; [by rewrite decide_False by set_solver|].
  rewrite IH. destruct (decide (r ∈ l)); [by rewrite decide_True by set_solver|].
  destruct (decide (r = x)) as [-> |]; [rewrite decide_True by set_solver; by rewrite lookup_delete_eq|].
  rewrite decide_False by set_solver. by rewrite lookup_delete_ne.
Qed.
Lemma lookup_fold_insert {V} (v : V) (m : gmap R V) l r :
  foldl (λ m r, <[r := v]> m) m l !! r = if decide (r ∈ l) then Some v else m !! r.
Proof.
  revert m. induction l as [|x l IH]; intros m; cbn [foldl]; [by rewrite decide_False by set_solver|].
  rewrite IH. destruct (decide (r ∈ l)); [by rewrite decide_True by set_solver|].
  destruct (decide (r = x)) as [-> |]; [rewrite decide_True by set_solver; by rewrite lookup_insert_eq|].
  rewrite decide_False by set_solver. by rewrite lookup_insert_ne.
Qed.
(** What is active after routes replace those of a transport. *)
Definition active_after (current routes : list R) (old : gmap R bool) (r : R) : option bool :=
  if decide (r ∈ routes) then (if decide (r ∈ current) then old !! r else Some true)
  else if decide (r ∈ current) then None else old !! r.
Definition sel_updated (t : T) (routes : list R) (sel sel' : MultiRouteSelector) : Prop :=
  destination sel' = destination sel ∧ weightedRoutes sel' = weightedRoutes sel ∧
  transportRoutes sel' = update_routes t routes (transportRoutes sel) ∧
  ∀ r, routeActive sel' !! r = active_after (default [] (transportRoutes sel !! t)) routes (routeActive sel) r.
Lemma sel_finish_ok d t routes sel s :
  draws_ok d → sel_updated t routes sel s →
  ∃ s', (let! s := if weightedRoutes s then updateRouteWeights d s else Val s in Val (notify_update s)) = Val s' ∧
    sel_updated t routes sel s'.
Proof.
  intros Hd Hs. destruct (weightedRoutes s) eqn:Ew; [|by eexists].
  destruct (updateRouteWeights_ok d s Hd) as (s' & -> & E1 & E2 & E3 & E4). cbn [obind]. eexists. split; [done|].
  destruct Hs as (F1 & F2 & F3 & F4). split_and!; cbn; try congruence.
Qed.
Lemma sel_update_ok d t routes sel :
  draws_ok d → ∃ sel', sel_updateTransport d t routes sel = Val sel' ∧ sel_updated t routes sel sel'.
Proof.
  intros Hd. unfold sel_updateTransport.
  destruct routes as [|r0 routes'] eqn:Er; destruct (transportRoutes sel !! t) as [cur|] eqn:Ec.
  - apply sel_finish_ok; [done|]. split; [done|]. split; [done|]. split; [done|]. intros r. rewrite Ec. cbn. unfold active_after.
    rewrite lookup_fold_delete. by rewrite (decide_False (P := r ∈ [])) by set_solver.
  - exists sel. split; [done|]. split; [done|]. split; [done|]. split; [cbn; by rewrite delete_id|]. intros r. rewrite Ec. unfold active_after. cbn.
    by rewrite !decide_False by set_solver.
  - rewrite <-Er. apply sel_finish_ok; [done|]. split; [done|]. split; [done|]. split; [by rewrite Er|]. intros r. rewrite Ec. cbn. unfold active_after.
    rewrite lookup_fold_insert, lookup_fold_delete.
    destruct (decide (r ∈ routes)), (decide (r ∈ cur));
      repeat (first [rewrite (decide_True (P := r ∈ filter _ _)) by (rewrite list_elem_of_filter; tauto)
                    |rewrite (decide_False (P := r ∈ filter _ _)) by (rewrite list_elem_of_filter; tauto)]); done.
  - rewrite <-Er. apply sel_finish_ok; [done|]. split; [done|]. split; [done|]. split; [by rewrite Er|]. intros r. rewrite Ec. cbn. unfold active_after.
    rewrite lookup_fold_insert. destruct (decide (r ∈ routes)); by rewrite (decide_False (P := r ∈ [])) by set_solver.
Qed.

(** ** The selectors of a side *)
Section MatchProofs.
Variable matches : T → TransferPath → bool.
Implicit Types tbl : T → option (list R).

(** A selector has the routes of the transports of [tbl] that match; those that
    are not active are marked. *)
Record sel_inv tbl (marked : R → Prop) (sel : MultiRouteSelector) : Prop := mkSelInv {
  si_routes : ∀ t, transportRoutes sel !! t = if matches t (destination sel) then tbl t else None;
  si_active : ∀ r, is_Some (routeActive sel !! r) ↔ ∃ t l, transportRoutes sel !! t = Some l ∧ r ∈ l;
  si_marked : ∀ r, routeActive sel !! r = Some false → marked r
}.
Definition disjoint_table tbl : Prop :=
  ∀ t1 t2 l1 l2 r, tbl t1 = Some l1 → tbl t2 = Some l2 → r ∈ l1 → r ∈ l2 → t1 = t2.
Lemma sel_inv_ext tbl tbl' marked sel : (∀ t, tbl t = tbl' t) → sel_inv tbl marked sel → sel_inv tbl' marked sel.
Proof. intros He [H1' H2' H3']. split; try done. intros t. rewrite H1'. by rewrite He. Qed.
Lemma sel_inv_mono tbl (mk mk' : R → Prop) sel : (∀ r, mk r → mk' r) → sel_inv tbl mk sel → sel_inv tbl mk' sel.
Proof. intros He [H1' H2' H3']. split; try done. intros r Hr. by apply He, H3'. Qed.

Definition tbl_update t (routes : list R) tbl (t' : T) : option (list R) :=
  if decide (t' = t) then (match routes with [] => None | _ => Some routes end) else tbl t'.
Lemma lookup_update_routes t routes (m : gmap T (list R)) t' : update_routes t routes m !! t' = tbl_update t routes (λ t, m !! t) t'.
Proof.
  unfold tbl_update, update_routes. destruct (decide (t' = t)) as [-> |].
  - destruct routes; by rewrite ?lookup_delete_eq, ?lookup_insert_eq.
  - destruct routes; by rewrite ?lookup_delete_ne, ?lookup_insert_ne by done.
Qed.
(** A selector with the routes of [t] as the table now has them. *)
Lemma sel_inv_update tbl marked t routes sel sel' :
  disjoint_table tbl → sel_inv tbl marked sel →
  sel_updated t (if matches t (destination sel) then routes else []) sel sel' →
  sel_inv (tbl_update t routes tbl) marked sel'.
Proof.
  intros Hdis [Hr Ha Hm] (Ed & _ & Et & Hac). set (rs := if matches t (destination sel) then routes else []) in *.
  assert (∀ t', transportRoutes sel' !! t' = if decide (t' = t) then (match rs with [] => None | _ => Some rs end) else transportRoutes sel !! t') as Hl.
  { intros t'. rewrite Et, lookup_update_routes. done. }
  split.
  - intros t'. rewrite Hl, Ed. unfold tbl_update. destruct (decide (t' = t)) as [-> |]; [|apply Hr].
    subst rs. destruct (matches t (destination sel)); done.
  - intros r. rewrite Hac. unfold active_after.
    destruct (decide (r ∈ rs)) as [Hin|Hin].
    + split; [|intros _].
      * intros _. exists t, rs. rewrite Hl, decide_True by done. split; [|done]. destruct rs; [set_solver|done].
      * destruct (decide (r ∈ default [] (transportRoutes sel !! t))) as [Hc|]; [|done]. apply Ha. exists t.
        destruct (transportRoutes sel !! t) as [l|]; [by exists l|set_solver].
    + destruct (decide (r ∈ default [] (transportRoutes sel !! t))) as [Hc|Hc].
      * split; [by intros []|]. intros (t' & l & Hl' & Hrl). exfalso. rewrite Hl in Hl'.
        destruct (decide (t' = t)) as [-> | Hne]; [destruct rs; [done|injection Hl' as <-; done]|].
        destruct (transportRoutes sel !! t) as [l0|] eqn:E0; [|set_solver]. apply Hne.
        rewrite Hr in Hl', E0. destruct (matches t' _), (matches t _); try done. eapply Hdis; [exact Hl'|exact E0|done|done].
      * rewrite Ha. split; intros (t' & l & Hl' & Hrl).
        -- exists t', l. rewrite Hl. split; [|done]. destruct (decide (t' = t)) as [-> |]; [|done].
           rewrite Hl' in Hc. done.
        -- exists t', l. split; [|done]. rewrite Hl in Hl'. destruct (decide (t' = t)); [|done].
           destruct rs; [done|]. injection Hl' as <-. done.
  - intros r. rewrite Hac. unfold active_after. repeat case_decide; try done; apply Hm.
Qed.
(** Nothing to do for a selector that does not match. *)
Lemma sel_inv_unmatched tbl marked t routes sel :
  matches t (destination sel) = false → sel_inv tbl marked sel → sel_inv (tbl_update t routes tbl) marked sel.
Proof.
  intros Hmt [Hr Ha Hm]. split; try done. intros t'. rewrite Hr. unfold tbl_update.
  destruct (decide (t' = t)) as [-> |]; [|done]. by rewrite Hmt.
Qed.
Lemma sel_inv_absent tbl marked t sel :
  transportRoutes sel !! t = None → sel_inv tbl marked sel → sel_inv (tbl_update t [] tbl) marked sel.
Proof.
  intros Ht [Hr Ha Hm]. split; try done. intros t'. unfold tbl_update. destruct (decide (t' = t)) as [-> |]; [|apply Hr].
  rewrite Ht. by destruct (matches _ _).
Qed.
Lemma sel_inv_op o tbl marked (mk : R → Prop) sel :
  (∀ r, marked r → mk r) → (∀ r, o = OpInactive r → mk r) → sel_inv tbl marked sel →
  sel_inv tbl mk (apply_op o sel) ∧ destination (apply_op o sel) = destination sel.
Proof.
  intros H1' H2' [Hr Ha Hm]. destruct o as [r0|r0 c b|r0 c b].
  - cbn. unfold setActive. destruct (routeActive sel !! r0) eqn:E; [|split; [split|]; try done; intros r Hf; by apply H1', Hm].
    split; [|done]. split; cbn; try done.
    + intros r. rewrite <-Ha. destruct (decide (r = r0)) as [-> |]; [rewrite lookup_insert_eq, E; by split|by rewrite lookup_insert_ne].
    + intros r. destruct (decide (r = r0)) as [-> |]; [intros _; by apply H2'|]. rewrite lookup_insert_ne by done. intros Hf. by apply H1', Hm.
  - split; [|done]. split; cbn; try done. intros r Hf. by apply H1', Hm.
  - split; [|done]. split; cbn; try done. intros r Hf. by apply H1', Hm.
Qed.

Lemma update_selectors_ok (ds : positive → T → draws) ps t routes sels :
  (∀ p, draws_ok (ds p t)) → (∀ p, p ∈ ps → is_Some (sels !! p)) →
  ∃ sels', update_selectors ds ps t routes sels = Val sels' ∧
    ∀ p, (p ∉ ps → sels' !! p = sels !! p) ∧
         (p ∈ ps → ∃ sel sel', sels !! p = Some sel ∧ sels' !! p = Some sel' ∧ sel_updated t routes sel sel').
Proof.
  intros Hd Hps. unfold update_selectors.
  assert (∀ l, NoDup l → (∀ p, p ∈ l → is_Some (sels !! p)) → ∀ sels0, (∀ p, p ∈ l → sels0 !! p = sels !! p) →
    ∃ sels', fold_outcome (update_one ds t routes) l sels0 = Val sels' ∧
    ∀ p, (p ∉ l → sels' !! p = sels0 !! p) ∧
         (p ∈ l → ∃ sel sel', sels !! p = Some sel ∧ sels' !! p = Some sel' ∧ sel_updated t routes sel sel')) as Hl.
  { intros l Hnd Hsome. induction Hnd as [|p l Hp Hnd IH]; intros sels0 Heq; cbn [fold_outcome].
    { exists sels0. split; [done|]. intros p. split; [done|]. set_solver. }
    unfold update_one at 1. rewrite (Heq p) by set_solver. destruct (Hsome p) as [sel Es]; [set_solver|]. rewrite Es.
    destruct (sel_update_ok (ds p t) t routes sel (Hd p)) as (sel' & -> & Hu). cbn [obind].
    destruct (IH ltac:(intros q Hq; apply Hsome; set_solver) (<[p := sel']> sels0)) as (sels' & -> & Hs).
    { intros q Hq. rewrite lookup_insert_ne by set_solver. apply Heq. set_solver. }
    exists sels'. split; [done|]. intros q. destruct (Hs q) as [Hs1 Hs2]. split.
    - intros Hq. rewrite Hs1 by set_solver. apply lookup_insert_ne. set_solver.
    - intros [-> |Hq]%elem_of_cons; [|by apply Hs2]. exists sel, sel'. split; [done|]. split; [|done].
      rewrite Hs1 by done. apply lookup_insert_eq. }
  destruct (Hl (elements ps) (NoDup_elements ps) ltac:(intros p Hp; apply Hps; set_solver) sels ltac:(done)) as (sels' & -> & Hs).
  exists sels'. split; [done|]. intros p. destruct (Hs p) as [Hs1 Hs2]. split; intros Hp; [apply Hs1|apply Hs2]; set_solver.
Qed.

Record ms_inv (opened : gmap positive TransferPath) (marked : positive → R → Prop) (ms : MatchState) : Prop := mkMsInv {
  mi_disjoint : disjoint_table (λ t, ms_transportRoutes ms !! t);
  mi_nonempty : ∀ t, ms_transportRoutes ms !! t ≠ Some [];
  mi_dom : ∀ t, is_Some (transportMatchedDestinations ms !! t) ↔ is_Some (ms_transportRoutes ms !! t);
  mi_open : ∀ p d, opened !! p = Some d ↔ p ∈ default ∅ (destinationMultiRouteSelectors ms !! d);
  mi_sel : ∀ p d, opened !! p = Some d → ∃ sel, ms_selectors ms !! p = Some sel ∧ destination sel = d ∧
    sel_inv (λ t, ms_transportRoutes ms !! t) (marked p) sel;
  mi_matched : ∀ t D p d, transportMatchedDestinations ms !! t = Some D → opened !! p = Some d → matches t d = true → d ∈ D;
  mi_next : ∀ p, (ms_next ms ≤ p)%positive → opened !! p = None
}.
Lemma new_ms_inv w marked : ms_inv ∅ marked (NewMatchState w).
Proof.
  split; cbn; try done.
  - intros t. rewrite !lookup_empty. done.
Qed.

Lemma elem_of_selectors_of ms ds p : p ∈ selectors_of ms ds ↔ ∃ d, d ∈ ds ∧ p ∈ default ∅ (destinationMultiRouteSelectors ms !! d).
Proof.
  unfold selectors_of. rewrite elem_of_union_list. split.
  - intros (X & HX & Hp). apply list_elem_of_fmap in HX as (d & -> & Hd). by exists d.
  - intros (d & Hd & Hp). eexists. split; [|exact Hp]. apply list_elem_of_fmap. by exists d.
Qed.
(** The selectors of some destinations are open, and are those of its
    destinations. *)
Lemma selectors_of_open opened marked ms ds p :
  ms_inv opened marked ms → p ∈ selectors_of ms ds ↔ ∃ d, opened !! p = Some d ∧ d ∈ ds.
Proof.
  intros Hi. rewrite elem_of_selectors_of. split; intros (d & H1' & H2'); exists d; rewrite (mi_open _ _ _ Hi) in *; done.
Qed.
Lemma selectors_of_some opened marked ms ds p : ms_inv opened marked ms → p ∈ selectors_of ms ds → is_Some (ms_selectors ms !! p).
Proof.
  intros Hi Hp. apply (selectors_of_open _ _ _ _ _ Hi) in Hp as (d & Hd & _).
  destruct (mi_sel _ _ _ Hi _ _ Hd) as (sel & -> & _). done.
Qed.
Lemma disjoint_update tbl t routes :
  disjoint_table tbl → (∀ t' l r, tbl t' = Some l → r ∈ routes → r ∈ l → t' = t) → disjoint_table (tbl_update t routes tbl).
Proof.
  intros Hd Hr t1 t2 l1 l2 r. unfold tbl_update.
  assert (∀ l, (match routes with [] => None | _ => Some routes end) = Some l → l = routes) as Hl by (intros l; destruct routes; congruence).
  destruct (decide (t1 = t)) as [-> |], (decide (t2 = t)) as [-> |]; try done.
  - intros ->%Hl ? ? ?. symmetry. by eapply Hr.
  - intros ? ->%Hl ? ?. by eapply Hr.
  - apply Hd.
Qed.

Lemma updateTransport_ok ds t routes opened marked ms :
  ms_inv opened marked ms → (∀ p t, draws_ok (ds p t)) →
  (∀ t' l r, ms_transportRoutes ms !! t' = Some l → r ∈ routes → r ∈ l → t' = t) →
  ∃ ms', updateTransport matches ds t routes ms = Val ms' ∧ ms_inv opened marked ms' ∧
    ms_transportRoutes ms' = update_routes t routes (ms_transportRoutes ms) ∧ ms_next ms' = ms_next ms.
Proof.
  intros Hi Hds Hdis. set (current := default ∅ (transportMatchedDestinations ms !! t)).
  set (ds1 := match routes with [] => elements current
              | _ => elements (filter (λ d, matches t d = true) (dom (destinationMultiRouteSelectors ms))) end).
  set (ds2 := match routes with [] => []
              | _ => elements ((dom (destinationMultiRouteSelectors ms) ∖
                       filter (λ d, matches t d = true) (dom (destinationMultiRouteSelectors ms))) ∩ current) end).
  destruct (update_selectors_ok ds (selectors_of ms ds1) t routes (ms_selectors ms)) as (sels1 & E1 & Hs1); [done| |].
  { intros p Hp. by eapply selectors_of_some. }
  destruct (update_selectors_ok ds (selectors_of ms ds2) t [] sels1) as (sels2 & E2 & Hs2); [done| |].
  { intros p Hp. destruct (Hs1 p) as [Ha Hb]. destruct (decide (p ∈ selectors_of ms ds1)) as [Hin|Hin].
    - destruct (Hb Hin) as (? & ? & _ & -> & _). done.
    - rewrite Ha by done. by eapply selectors_of_some. }
  assert (∀ p d, opened !! p = Some d → d ∈ dom (destinationMultiRouteSelectors ms)) as Hdom.
  { intros p d Hp%(mi_open _ _ _ Hi). apply elem_of_dom. destruct (_ !! d); [done|]. set_solver. }
  assert (∀ p d, opened !! p = Some d → ∃ sel, sels2 !! p = Some sel ∧ destination sel = d ∧
    sel_inv (λ t', update_routes t routes (ms_transportRoutes ms) !! t') (marked p) sel) as Hsel.
  { intros p d Hp. destruct (mi_sel _ _ _ Hi _ _ Hp) as (sel & Es & Ed & Hsi).
    assert (∀ ds, p ∈ selectors_of ms ds ↔ d ∈ ds) as Hin.
    { intros ds0. rewrite (selectors_of_open _ _ _ _ _ Hi). split; [intros (? & ? & ?); congruence|intros; by exists d]. }
    destruct (Hs1 p) as [Ha1 Hb1], (Hs2 p) as [Ha2 Hb2]. rewrite Hin in Ha1, Hb1, Ha2, Hb2.
    assert (∀ sel', sel_inv (tbl_update t routes (λ t', ms_transportRoutes ms !! t')) (marked p) sel' →
      sel_inv (λ t', update_routes t routes (ms_transportRoutes ms) !! t') (marked p) sel') as Hext.
    { intros sel'. apply sel_inv_ext. intros t'. by rewrite lookup_update_routes. }
    assert (∀ sel', sel_updated t (if matches t d then routes else []) sel sel' → destination sel' = d ∧
      sel_inv (λ t', update_routes t routes (ms_transportRoutes ms) !! t') (marked p) sel') as Hupd.
    { intros sel' Hu. split; [by rewrite (proj1 Hu)|]. apply Hext. eapply sel_inv_update; [apply (mi_disjoint _ _ _ Hi)|exact Hsi|by rewrite Ed]. }
    destruct (decide (d ∈ ds1)) as [H1'|H1'].
    - destruct (Hb1 H1') as (sel0 & sel1 & Es0 & Es1 & Hu). rewrite Es in Es0. injection Es0 as <-.
      assert (d ∉ ds2) as H2'.
      { unfold ds1, ds2 in *. clear -H1'. destruct routes; [apply not_elem_of_nil|].
        rewrite elem_of_elements in *. rewrite elem_of_intersection, elem_of_difference. tauto. }
      exists sel1. rewrite Ha2 by done. split; [done|]. apply Hupd.
      destruct (matches t d) eqn:Em; [done|]. unfold ds1 in H1'. destruct routes; [done|].
      apply elem_of_elements, elem_of_filter in H1' as [H1' _]. congruence.
    - rewrite Ha1 in Ha2 by done. destruct (decide (d ∈ ds2)) as [H2'|H2'].
      + destruct (Hb2 H2') as (sel0 & sel1 & Es0 & Es1 & Hu). rewrite Ha1, Es in Es0 by done. injection Es0 as <-. exists sel1. split; [done|].
        apply Hupd. destruct (matches t d) eqn:Em; [|done]. unfold ds2 in H2'. destruct routes; [done|].
        apply elem_of_elements, elem_of_intersection in H2' as [[_ H2']%elem_of_difference _].
        exfalso. apply H2', elem_of_filter. split; [done|]. by eapply Hdom.
      + exists sel. rewrite Ha2 by done. split; [done|]. split; [done|]. apply Hext.
        destruct (matches t d) eqn:Em; [|apply sel_inv_unmatched; [by rewrite Ed|done]].
        unfold ds1 in H1'. destruct routes as [|r0 routes'].
        * apply sel_inv_absent; [|done]. rewrite (si_routes _ _ _ Hsi), Ed, Em.
          destruct (ms_transportRoutes ms !! t) eqn:Et; [|done]. exfalso.
          destruct (proj2 (mi_dom _ _ _ Hi t)) as [D ED]; [by rewrite Et|].
          apply H1'. unfold current. rewrite ED. cbn. apply elem_of_elements. by eapply (mi_matched _ _ _ Hi).
        * exfalso. apply H1'. apply elem_of_elements, elem_of_filter. split; [done|]. by eapply Hdom. }
  assert (disjoint_table (λ t', update_routes t routes (ms_transportRoutes ms) !! t')) as Hdis'.
  { intros t1 t2 l1 l2 r. rewrite !lookup_update_routes. apply disjoint_update; [apply Hi|done]. }
  assert (∀ t', update_routes t routes (ms_transportRoutes ms) !! t' ≠ Some []) as Hne.
  { intros t'. rewrite lookup_update_routes. unfold tbl_update. case_decide; [by destruct routes|apply Hi]. }
  unfold updateTransport. fold current. destruct routes as [|r0 routes'] eqn:Er.
  - unfold ds1 in E1. rewrite E1. cbn [obind]. eexists. split; [done|]. split; [|done].
    assert (sels2 = sels1) as ->.
    { unfold update_selectors, ds2, selectors_of in E2. cbn [map] in E2. rewrite union_list_nil, elements_empty in E2. by injection E2. }
    split; cbn; try done.
    + intros t'. destruct (decide (t' = t)) as [-> |]; [by rewrite !lookup_delete_eq|]. rewrite !lookup_delete_ne by done. apply Hi.
    + apply Hi.
    + intros t' D p d. destruct (decide (t' = t)) as [-> |]; [by rewrite lookup_delete_eq|]. rewrite lookup_delete_ne by done. apply Hi.
    + apply Hi.
  - unfold ds1 in E1. unfold ds2 in E2. rewrite E1. cbn [obind]. rewrite E2. cbn [obind]. eexists. split; [done|]. split; [|done].
    split; cbn; try done.
    + intros t'. destruct (decide (t' = t)) as [-> |]; [by rewrite !lookup_insert_eq|]. rewrite !lookup_insert_ne by done. apply Hi.
    + apply Hi.
    + intros t' D p d. destruct (decide (t' = t)) as [-> |].
      * rewrite lookup_insert_eq. intros [= <-] Hp Hm. apply elem_of_filter. split; [done|]. by eapply Hdom.
      * rewrite lookup_insert_ne by done. apply Hi.
    + apply Hi.
Qed.

Lemma open_fold ds p d (F : T → option (list R)) (mk : R → Prop) l :
  (∀ p t, draws_ok (ds p t)) → disjoint_table F → NoDup l.*1 → (∀ t rs, (t, rs) ∈ l → F t = Some rs ∧ rs ≠ []) →
  ∀ sel matched, destination sel = d →
  sel_inv (λ t, if decide (t ∈ l.*1) then None else F t) mk sel → (∀ t, t ∈ l.*1 → is_Some (matched !! t)) →
  ∃ sel' matched', fold_outcome (open_transport matches ds p d) l (sel, matched) = Val (sel', matched') ∧
    sel_inv F mk sel' ∧ destination sel' = d ∧ (∀ t, is_Some (matched' !! t) ↔ is_Some (matched !! t)) ∧
    ∀ t D', matched' !! t = Some D' → ∃ D, matched !! t = Some D ∧ D ⊆ D' ∧ (t ∈ l.*1 → matches t d = true → d ∈ D').
Proof.
  intros Hds Hdis. induction l as [|[t rs] l IH]; intros Hnd HF sel matched Hd Hsi Hm; cbn [fold_outcome].
  { exists sel, matched. split; [done|]. split; [|split; [done|split; [done|]]].
    - eapply sel_inv_ext; [|exact Hsi]. intros t. cbn. by rewrite decide_False by set_solver.
    - intros t D' E. exists D'. split; [done|]. split; [done|]. cbn. set_solver. }
  cbn [fmap list_fmap fst] in *. apply NoDup_cons in Hnd as [Ht Hnd].
  destruct (HF t rs) as [Ft Hrs]; [apply list_elem_of_here|].
  destruct (Hm t) as [D ED]; [set_solver|]. unfold open_transport at 1. rewrite ED.
  assert (∀ sel', sel_inv (tbl_update t rs (λ t', if decide (t' ∈ t :: l.*1) then None else F t')) mk sel' →
    sel_inv (λ t', if decide (t' ∈ l.*1) then None else F t') mk sel') as Hext.
  { intros sel'. apply sel_inv_ext. intros t'. unfold tbl_update. destruct (decide (t' = t)) as [-> |].
    - rewrite decide_False by done. rewrite Ft. by destruct rs.
    - destruct (decide (t' ∈ l.*1)); [by rewrite decide_True by set_solver|]. by rewrite decide_False by set_solver. }
  assert (∀ t' rs', (t', rs') ∈ l → F t' = Some rs' ∧ rs' ≠ []) as HF' by (intros; apply HF; by apply list_elem_of_further).
  destruct (matches t d) eqn:Em.
  - destruct (sel_update_ok (ds p t) t rs sel (Hds p t)) as (sel1 & -> & Hu). cbn [obind].
    destruct (IH Hnd HF' sel1 (<[t := {[d]} ∪ D]> matched)) as (sel' & matched' & -> & Hi' & Hd' & Hdm & HD).
    + rewrite (proj1 Hu). done.
    + apply Hext. eapply sel_inv_update; [|exact Hsi|by rewrite Hd, Em].
      intros t1 t2 l1 l2 r. repeat case_decide; try done. apply Hdis.
    + intros t' Ht'. destruct (decide (t' = t)) as [-> |]; [by rewrite lookup_insert_eq|]. rewrite lookup_insert_ne by done. apply Hm. set_solver.
    + exists sel', matched'. split; [done|]. split; [done|]. split; [done|]. split.
      * intros t'. rewrite Hdm. destruct (decide (t' = t)) as [-> |]; [rewrite lookup_insert_eq, ED; done|by rewrite lookup_insert_ne].
      * intros t' D' E'. destruct (HD t' D' E') as (D0 & E0 & Hsub & Hin). destruct (decide (t' = t)) as [-> |Hne].
        -- rewrite lookup_insert_eq in E0. injection E0 as <-. exists D. split; [done|]. split; [set_solver|]. intros _ _. set_solver.
        -- rewrite lookup_insert_ne in E0 by done. exists D0. split; [done|]. split; [done|]. intros Hx. apply Hin. set_solver.
  - cbn [obind]. destruct (IH Hnd HF' sel matched) as (sel' & matched' & -> & Hi' & Hd' & Hdm & HD); try done.
    + apply Hext. apply sel_inv_unmatched; [by rewrite Hd|done].
    + intros t' Ht'. apply Hm. set_solver.
    + exists sel', matched'. split; [done|]. split; [done|]. split; [done|]. split; [done|].
      intros t' D' E'. destruct (HD t' D' E') as (D0 & E0 & Hsub & Hin). exists D0. split; [done|]. split; [done|].
      intros [-> |Hx]%elem_of_cons; [congruence|]. by apply Hin.
Qed.
Lemma open_ok ds d opened marked ms :
  ms_inv opened marked ms → (∀ p t, draws_ok (ds p t)) →
  ∃ ms', openMultiRouteSelector matches ds d ms = Val (ms_next ms, ms') ∧ ms_inv (<[ms_next ms := d]> opened) marked ms' ∧
    ms_transportRoutes ms' = ms_transportRoutes ms ∧ ms_next ms' = Pos.succ (ms_next ms).
Proof.
  intros Hi Hds. unfold openMultiRouteSelector. set (p := ms_next ms).
  destruct (open_fold ds p d (λ t, ms_transportRoutes ms !! t) (marked p) (map_to_list (ms_transportRoutes ms)) Hds
    (mi_disjoint _ _ _ Hi) (NoDup_fst_map_to_list _)) with (sel := NewMultiRouteSelector d (ms_weightedRoutes ms))
    (matched := transportMatchedDestinations ms) as (sel & matched & -> & Hsi & Hd & Hdm & HD).
  { intros t rs Ht%elem_of_map_to_list. split; [done|]. intros ->. by apply (mi_nonempty _ _ _ Hi) in Ht. }
  { done. }
  { split; cbn.
    - intros t. rewrite lookup_empty. destruct (matches t d); [|done]. case_decide as Hx; [done|].
      destruct (ms_transportRoutes ms !! t) as [rs|] eqn:E; [|done]. exfalso. apply Hx.
      apply list_elem_of_fmap. exists (t, rs). split; [done|]. by apply elem_of_map_to_list.
    - intros r. rewrite lookup_empty. split; [by intros []|]. intros (t & l & E & _). by rewrite lookup_empty in E.
    - intros r. by rewrite lookup_empty. }
  { intros t Ht. apply list_elem_of_fmap in Ht as ([t' rs] & -> & Ht). apply elem_of_map_to_list in Ht.
    apply (mi_dom _ _ _ Hi). by eexists. }
  cbn [obind]. eexists. split; [done|]. split; [|done].
  assert (opened !! p = None) as Hp by (apply (mi_next _ _ _ Hi); done).
  split; cbn.
  - apply Hi.
  - apply Hi.
  - intros t. rewrite Hdm. apply Hi.
  - intros q d'. destruct (decide (q = p)) as [-> |Hq].
    + rewrite lookup_insert_eq. destruct (decide (d' = d)) as [-> |Hne]; [rewrite lookup_insert_eq; cbn; set_solver|].
      rewrite lookup_insert_ne by done. rewrite <-(mi_open _ _ _ Hi). rewrite Hp. split; [by intros [= ->]|done].
    + rewrite lookup_insert_ne by done. destruct (decide (d' = d)) as [-> |Hne].
      * rewrite lookup_insert_eq. cbn. rewrite (mi_open _ _ _ Hi). set_solver.
      * rewrite lookup_insert_ne by done. apply Hi.
  - intros q d'. destruct (decide (q = p)) as [-> |Hq].
    + rewrite !lookup_insert_eq. intros [= <-]. by exists sel.
    + rewrite !lookup_insert_ne by done. apply Hi.
  - intros t D' q d' E'. destruct (HD t D' E') as (D & ED & Hsub & Hin). destruct (decide (q = p)) as [-> |Hq].
    + rewrite lookup_insert_eq. intros [= <-] Hm. apply Hin; [|done].
      destruct (proj1 (mi_dom _ _ _ Hi t)) as [rs Ers]; [by eexists|]. apply list_elem_of_fmap. exists (t, rs).
      split; [done|]. by apply elem_of_map_to_list.
    + rewrite lookup_insert_ne by done. intros Hq' Hm. apply Hsub. by eapply (mi_matched _ _ _ Hi).
  - intros q Hq. rewrite lookup_insert_ne by lia. apply (mi_next _ _ _ Hi). lia.
Qed.
Lemma close_ok p opened marked ms :
  ms_inv opened marked ms →
  ms_inv (delete p opened) marked (closeMultiRouteSelector p ms) ∧
  ms_transportRoutes (closeMultiRouteSelector p ms) = ms_transportRoutes ms ∧
  ms_next (closeMultiRouteSelector p ms) = ms_next ms.
Proof.
  intros Hi. unfold closeMultiRouteSelector.
  destruct (ms_selectors ms !! p) as [sel|] eqn:Es.
  2:{ assert (opened !! p = None) as Hp.
      { destruct (opened !! p) as [d|] eqn:E; [|done]. destruct (mi_sel _ _ _ Hi _ _ E) as (? & ? & _). congruence. }
      by rewrite delete_id. }
  assert (∀ d, opened !! p = Some d → d = destination sel) as Hd.
  { intros d E. destruct (mi_sel _ _ _ Hi _ _ E) as (? & ? & ? & _). congruence. }
  destruct (destinationMultiRouteSelectors ms !! destination sel) as [S|] eqn:ES.
  2:{ assert (opened !! p = None) as Hp.
      { destruct (opened !! p) as [d|] eqn:E; [|done]. pose proof (Hd d eq_refl) as ->.
        apply (mi_open _ _ _ Hi) in E. rewrite ES in E. cbn in E. set_solver. }
      by rewrite delete_id. }
  split; [|done]. split; cbn.
  - apply Hi.
  - apply Hi.
  - intros t. rewrite <-(mi_dom _ _ _ Hi). case_decide; [|done]. rewrite lookup_fmap. by destruct (_ !! t).
  - intros q d. destruct (decide (d = destination sel)) as [-> |Hne].
    + rewrite lookup_insert_eq. cbn. rewrite elem_of_difference, elem_of_singleton.
      pose proof (mi_open _ _ _ Hi q (destination sel)) as Ho. rewrite ES in Ho. cbn in Ho. rewrite <-Ho.
      rewrite lookup_delete_Some. naive_solver.
    + rewrite lookup_insert_ne by done. rewrite <-(mi_open _ _ _ Hi), lookup_delete_Some. naive_solver.
  - intros q d [_ Hq]%lookup_delete_Some. by apply Hi.
  - intros t D q d ED [Hne Hq]%lookup_delete_Some Hm. case_decide as Hx; [|by eapply (mi_matched _ _ _ Hi)].
    rewrite lookup_fmap in ED. destruct (transportMatchedDestinations ms !! t) as [D0|] eqn:E0; [|done]. injection ED as <-.
    apply elem_of_difference. split; [by eapply (mi_matched _ _ _ Hi)|]. intros ->%elem_of_singleton.
    apply (mi_open _ _ _ Hi) in Hq. rewrite ES in Hq. cbn in Hq. set_solver.
  - intros q Hq. rewrite lookup_delete_None. right. by apply Hi.
Qed.
Lemma op_ok p o opened marked (mk : positive → R → Prop) ms :
  ms_inv opened marked ms → (∀ q r, marked q r → mk q r) → (∀ r, o = OpInactive r → mk p r) →
  ms_inv opened mk (upd_selector p (apply_op o) ms).
Proof.
  intros Hi Hmk Ho. split; try apply Hi. intros q d Hq. cbn.
  destruct (mi_sel _ _ _ Hi _ _ Hq) as (sel & Es & Ed & Hsi). destruct (decide (q = p)) as [-> |Hne].
  - rewrite lookup_alter_eq, Es. cbn. eexists. split; [done|].
    destruct (sel_inv_op o _ (marked p) (mk p) sel (Hmk p) Ho Hsi) as [? ->]. done.
  - rewrite lookup_alter_ne by done. exists sel. split; [done|]. split; [done|]. eapply sel_inv_mono; [|exact Hsi]. apply Hmk.
Qed.
Lemma ms_inv_mono opened (mk mk' : positive → R → Prop) ms : (∀ p r, mk p r → mk' p r) → ms_inv opened mk ms → ms_inv opened mk' ms.
Proof.
  intros Hm Hi. split; try apply Hi. intros p d Hp. destruct (mi_sel _ _ _ Hi _ _ Hp) as (sel & ? & ? & Hsi). exists sel.
  split; [done|]. split; [done|]. eapply sel_inv_mono; [|exact Hsi]. apply Hm.
Qed.
End MatchProofs.

(** ** The manager *)
Definition writer_marked (ls : list rm_label) (p : positive) (r : R) : Prop := RWriter p (OpInactive r) ∈ ls.
Definition reader_marked (ls : list rm_label) (p : positive) (r : R) : Prop := RReader p (OpInactive r) ∈ ls.
Record rm_inv (ls : list rm_label) (rt : RouteTable) (rm : RouteManager) : Prop := mkRmInv {
  ri_writers : ms_inv MatchesSend (rt_writers rt) (writer_marked ls) (writerMatchState rm);
  ri_readers : ms_inv MatchesReceive (rt_readers rt) (reader_marked ls) (readerMatchState rm);
  ri_table : ms_transportRoutes (writerMatchState rm) = rt_table rt ∧ ms_transportRoutes (readerMatchState rm) = rt_table rt;
  ri_next : ms_next (writerMatchState rm) = rt_nextWriter rt ∧ ms_next (readerMatchState rm) = rt_nextReader rt
}.
Lemma writer_marked_app ls l p r : writer_marked ls p r → writer_marked (ls ++ l) p r.
Proof. unfold writer_marked. rewrite elem_of_app. tauto. Qed.
Lemma reader_marked_app ls l p r : reader_marked ls p r → reader_marked (ls ++ l) p r.
Proof. unfold reader_marked. rewrite elem_of_app. tauto. Qed.
Lemma rm_inv_app ls l rt rm : rm_inv ls rt rm → rm_inv (ls ++ l) rt rm.
Proof.
  intros [Hw Hr Ht Hn]. split; try done.
  - eapply ms_inv_mono; [|exact Hw]. intros p r. apply writer_marked_app.
  - eapply ms_inv_mono; [|exact Hr]. intros p r. apply reader_marked_app.
Qed.
Lemma rm_step_ok ls l rt rm :
  rm_inv ls rt rm → rm_label_ok l rt → ∃ rm', rm_step l rm = Val rm' ∧ rm_inv (ls ++ [l]) (table_step l rt) rm'.
Proof.
  intros Hi0 Hl. pose proof (rm_inv_app ls [l] rt rm Hi0) as Hi. pose proof Hi as [Hw Hr [Htw Htr] [Hnw Hnr]].
  destruct l as [ds d|ds d|p|p|ds t routes|p o|p o]; cbn [rm_step rm_label_ok table_step] in *.
  - destruct Hl as [Hd Hds]. unfold OpenMultiRouteWriter. rewrite Hd. cbn [negb].
    destruct (open_ok MatchesSend ds d _ _ _ Hw Hds) as (ms' & -> & Hw' & Et & En). cbn [obind]. eexists. split; [done|].
    rewrite Hnw in Hw'. split; cbn; try done; split; congruence.
  - destruct Hl as [Hd Hds]. unfold OpenMultiRouteReader. rewrite Hd. cbn [negb].
    destruct (open_ok MatchesReceive ds d _ _ _ Hr Hds) as (ms' & -> & Hr' & Et & En). cbn [obind]. eexists. split; [done|].
    rewrite Hnr in Hr'. split; cbn; try done; split; congruence.
  - eexists. split; [done|]. destruct (close_ok MatchesSend p _ _ _ Hw) as (Hw' & Et & En). split; cbn; try done; split; congruence.
  - eexists. split; [done|]. destruct (close_ok MatchesReceive p _ _ _ Hr) as (Hr' & Et & En). split; cbn; try done; split; congruence.
  - destruct Hl as [Hds Hdis]. unfold UpdateTransport.
    destruct (updateTransport_ok MatchesSend ds t routes _ _ _ Hw Hds) as (w' & -> & Hw' & Etw & Enw); [by rewrite Htw|]. cbn [obind].
    destruct (updateTransport_ok MatchesReceive ds t routes _ _ _ Hr Hds) as (r' & -> & Hr' & Etr & Enr); [by rewrite Htr|]. cbn [obind].
    eexists. split; [done|]. split; cbn; try done; split; congruence.
  - eexists. split; [done|]. split; cbn; try done. eapply op_ok; [exact Hw|done|].
    intros r ->. unfold writer_marked. rewrite elem_of_app. right. apply list_elem_of_here.
  - eexists. split; [done|]. split; cbn; try done. eapply op_ok; [exact Hr|done|].
    intros r ->. unfold reader_marked. rewrite elem_of_app. right. apply list_elem_of_here.
Qed.
Lemma rm_run_inv ls : ∀ done rt rm,
  rm_inv done rt rm → rm_run_ok ls rt → ∃ rm', rm_run ls rm = Val rm' ∧ rm_inv (done ++ ls) (table_run ls rt) rm'.
Proof.
  induction ls as [|l ls IH]; intros done rt rm Hi Hl.
  - exists rm. split; [reflexivity|]. by rewrite app_nil_r.
  - destruct Hl as [Hl Hls]. destruct (rm_step_ok done l rt rm Hi Hl) as (rm1 & E1 & H1').
    destruct (IH _ _ _ H1' Hls) as (rm' & E2 & H2'). exists rm'. unfold rm_run in *. cbn [fold_outcome]. rewrite E1. cbn [obind].
    split; [done|]. rewrite <-app_assoc in H2'. done.
Qed.

(** A selector of [destination] gives the routes of the transports that match,
    in some order: all of them that it has not seen closed. *)
Definition serves (matches : T → TransferPath → bool) (table : gmap T (list R)) (marked : R → Prop) (d : TransferPath)
    (sel : MultiRouteSelector) : Prop :=
  destination sel = d ∧
  (∀ t, transportRoutes sel !! t = if matches t d then table !! t else None) ∧
  ∀ dr, draws_ok dr → ∃ active, GetActiveRoutes dr sel = Val active ∧
    (∀ r, r ∈ active → ∃ t routes, matches t d = true ∧ table !! t = Some routes ∧ r ∈ routes) ∧
    (∀ t routes r, matches t d = true → table !! t = Some routes → r ∈ routes → ¬ marked r → r ∈ active) ∧
    (∀ r, r ∈ active → r ∈ GetInactiveRoutes sel → False).
Lemma elem_of_all_routes sel r : r ∈ all_routes sel ↔ ∃ t l, transportRoutes sel !! t = Some l ∧ r ∈ l.
Proof.
  unfold all_routes. rewrite list_elem_of_In, in_concat. split.
  - intros (l & Hl & Hr). apply list_elem_of_In in Hl, Hr. apply list_elem_of_fmap in Hl as ([t l'] & -> & Ht).
    exists t, l'. split; [by apply elem_of_map_to_list|done].
  - intros (t & l & Hl & Hr). exists l. split; [|by apply list_elem_of_In]. apply list_elem_of_In, list_elem_of_fmap.
    exists (t, l). split; [done|]. by apply elem_of_map_to_list.
Qed.
Lemma GetActiveRoutes_ok dr sel :
  draws_ok dr → ∃ active, GetActiveRoutes dr sel = Val active ∧ active ≡ₚ filter (λ r, is_active sel r) (all_routes sel).
Proof.
  intros Hd. unfold GetActiveRoutes. set (l := filter _ _). destruct (weightedRoutes sel).
  - destruct (weighted_shuffle_ok (d_int dr) (d_float dr) Hd l (λ v, default f32_zero (routeWeight sel !! v)) f32_zero) as (l' & E & Hp).
    exists l'. by split.
  - destruct (rand_shuffle_spec (d_int dr) (d_float dr) Hd (length l - 1) l) as (l' & E & Hp); [lia|]. by exists l'.
Qed.
Lemma sel_serves matches table marked sel :
  sel_inv matches (λ t, table !! t) marked sel → serves matches table marked (destination sel) sel.
Proof.
  intros Hi. split; [done|]. split; [apply Hi|]. intros dr Hdr. destruct (GetActiveRoutes_ok dr sel Hdr) as (active & E & Hp).
  exists active. split; [done|].
  assert (∀ r, r ∈ active ↔ is_active sel r = true ∧ r ∈ all_routes sel) as Ha.
  { intros r. rewrite Hp, list_elem_of_filter, <-Is_true_true. done. }
  split_and!.
  - intros r [_ Hr]%Ha. apply elem_of_all_routes in Hr as (t & l & Hl & Hr). rewrite (si_routes _ _ _ _ Hi) in Hl.
    exists t, l. destruct (matches t _); done.
  - intros t routes r Hm Ht Hr Hn. apply Ha.
    assert (r ∈ all_routes sel) as Hall.
    { apply elem_of_all_routes. exists t, routes. by rewrite (si_routes _ _ _ _ Hi), Hm. }
    split; [|done]. unfold is_active.
    destruct (proj2 (si_active _ _ _ _ Hi r)) as [b Eb]; [by apply elem_of_all_routes|]. rewrite Eb. cbn.
    destruct b; [done|]. by apply (si_marked _ _ _ _ Hi) in Eb.
  - intros r [Hact _]%Ha Hin. unfold GetInactiveRoutes in Hin. apply list_elem_of_filter in Hin as [Hin _]. by rewrite Hact in Hin.
Qed.
Lemma opened_serves matches opened marked ms p d :
  ms_inv matches opened marked ms → opened !! p = Some d →
  ∃ sel, ms_selectors ms !! p = Some sel ∧ serves matches (ms_transportRoutes ms) (marked p) d sel.
Proof.
  intros Hi Hp. destruct (mi_sel _ _ _ _ Hi _ _ Hp) as (sel & Es & <- & Hsi). exists sel. split; [done|]. by apply sel_serves.
Qed.

(** C27. After any sequence of transports updated and removed, writers and readers opened and closed, and routes seen
    closed, whatever the draws: nothing panics, the map of nil among them; the transports have their last routes; and
    every writer (reader) that is open gives just the routes of the transports that match its destination for sending
    (receiving) now, in some order, without those it has seen closed. *)
Theorem route_manager_refines ls :
  rm_run_ok ls new_table →
  ∃ rm, rm_run ls NewRouteManager = Val rm ∧
    let rt := table_run ls new_table in
    ms_transportRoutes (writerMatchState rm) = rt_table rt ∧ ms_transportRoutes (readerMatchState rm) = rt_table rt ∧
    (∀ p d, rt_writers rt !! p = Some d →
       ∃ sel, ms_selectors (writerMatchState rm) !! p = Some sel ∧ serves MatchesSend (rt_table rt) (writer_marked ls p) d sel) ∧
    (∀ p d, rt_readers rt !! p = Some d →
       ∃ sel, ms_selectors (readerMatchState rm) !! p = Some sel ∧ serves MatchesReceive (rt_table rt) (reader_marked ls p) d sel).
Proof.
  intros Hok. destruct (rm_run_inv ls [] new_table NewRouteManager) as (rm & E & [Hw Hr [Htw Htr] _]); [|done|].
  { split; cbn; try done; apply new_ms_inv. }
  exists rm. split; [done|]. cbv zeta. rewrite app_nil_l in *. split_and!; try done; intros p d Hp.
  - rewrite <-Htw. by eapply opened_serves.
  - rewrite <-Htr. by eapply opened_serves.
Qed.

(** ** Calls *)
(** What a call has done when it is at a place. *)
Definition call_inv (effect : R → list byte → chan_effect) (P : list R → Prop) (eff : list chan_effect) (pc : call_pc) : Prop :=
  match pc with
  | CallDone (Success r f) => eff = [effect r f] ∧ ∃ a, P a ∧ r ∈ a
  | CallTry a rest _ => eff = [] ∧ P a ∧ ∀ r, r ∈ rest → r ∈ a
  | CallSelect a => eff = [] ∧ P a
  | _ => eff = []
  end.
Definition step_keeps effect (step : call_env → call_pc → option (outcome step_result)) : Prop :=
  ∀ env pc sel eff pc', step env pc = Some (Val (sel, eff, pc')) → ∀ P : list R → Prop,
    (∀ a, GetActiveRoutes (ce_draws env) (ce_selector env) = Val a → P a) →
    ∀ eff0, call_inv effect P eff0 pc → call_inv effect P (eff0 ++ eff) pc'.
Lemma call_run_inv effect step :
  step_keeps effect step → ∀ envs pc eff0 (P : list R → Prop) eff pc',
  call_run step envs pc = Some (Val (eff, pc')) →
  (∀ env a, env ∈ envs → GetActiveRoutes (ce_draws env) (ce_selector env) = Val a → P a) →
  call_inv effect P eff0 pc → call_inv effect P (eff0 ++ eff) pc'.
Proof.
  intros Hs. induction envs as [|env envs IH]; intros pc eff0 P eff pc' E HP Hi; cbn [call_run] in E.
  - injection E as <- <-. by rewrite app_nil_r.
  - destruct (step env pc) as [[[[sel eff1] pc1]| |]|] eqn:Es; try discriminate.
    destruct (call_run step envs pc1) as [[[eff2 pc2]| |]|] eqn:Er; try discriminate. injection E as <- <-.
    rewrite app_assoc. eapply (IH pc1); [done| |].
    + intros env' a Henv. apply HP. by apply list_elem_of_further.
    + eapply Hs; [exact Es| |done]. intros a. apply HP. apply list_elem_of_here.
Qed.
Ltac solve_call :=
  repeat match goal with
  | H : Some _ = Some _ |- _ => injection H as H
  | H : Val _ = Val _ |- _ => injection H as H
  | H : obind ?m _ = Val _ |- _ => destruct m eqn:?; cbn [obind] in H; try discriminate
  | H : wrote _ _ _ = _ |- _ => unfold wrote in H
  | H : got _ _ _ = _ |- _ => unfold got in H
  | H : context [match ?x with _ => _ end] |- _ => destruct x eqn:?; try discriminate
  end; subst; cbn in *; rewrite ?app_nil_r.
Lemma write_keeps f timeout : step_keeps (λ r _, Put r f) (WriteDetailed_step f timeout).
Proof.
  intros env pc sel eff pc' E P HP eff0 Hi. unfold WriteDetailed_step in E.
  destruct pc as [|a rest b|a|res]; [|destruct rest as [|r rest]|destruct (ce_case env)|]; try discriminate.
  - solve_call. split; [done|]. split; [by apply HP|]. done.
  - solve_call. tauto.
  - destruct Hi as (-> & Ha & Hr). solve_call.
    + split; [done|]. split; [done|]. intros r' Hr'. apply Hr. by apply list_elem_of_further.
    + split; [done|]. exists a. split; [done|]. apply Hr, list_elem_of_here.
  - solve_call. tauto.
  - solve_call. tauto.
  - solve_call. tauto.
  - destruct Hi as (-> & Ha). solve_call. split; [done|]. exists a. split; [done|]. by eapply list_elem_of_lookup_2.
  - solve_call. tauto.
Qed.
Lemma read_keeps timeout : step_keeps Took (Read_step timeout).
Proof.
  intros env pc sel eff pc' E P HP eff0 Hi. unfold Read_step in E.
  destruct pc as [|a rest b|a|res]; [|destruct rest as [|r rest]|destruct (ce_case env)|]; try discriminate.
  - solve_call. split; [done|]. split; [by apply HP|]. done.
  - destruct b; solve_call; tauto.
  - destruct Hi as (-> & Ha & Hr). solve_call.
    + split; [done|]. split; [done|]. intros r' Hr'. apply Hr. by apply list_elem_of_further.
    + split; [done|]. exists a. split; [done|]. apply Hr, list_elem_of_here.
    + split; [done|]. split; [done|]. intros r' Hr'. apply Hr. by apply list_elem_of_further.
  - solve_call. tauto.
  - solve_call. tauto.
  - solve_call. tauto.
  - destruct Hi as (-> & Ha). solve_call; [|done]. split; [done|]. exists a. split; [done|]. by eapply list_elem_of_lookup_2.
  - solve_call. tauto.
Qed.
Definition env_ok (env : call_env) : Prop := draws_ok (ce_draws env) ∧ ∀ r, ce_route env r ≠ Closed.
Lemma step_not_panic read f timeout env pc r :
  draws_ok (ce_draws env) → (read = false → ∀ r, ce_route env r ≠ Closed) →
  (if read : bool then Read_step timeout env pc else WriteDetailed_step f timeout env pc) = Some r → is_val r = true.
Proof.
  intros Hd Hc E. destruct (GetActiveRoutes_ok (ce_draws env) (ce_selector env) Hd) as (a & Ea & _).
  destruct read; [unfold Read_step in E|specialize (Hc eq_refl); unfold WriteDetailed_step in E];
    destruct pc as [|a' [|r' rest]|a'|res]; rewrite ?Ea in E; cbn [obind] in E; try (by injection E as <-); try discriminate.
  - destruct (ce_route env r'); by injection E as <-.
  - repeat case_match; try discriminate; by injection E as <-.
  - pose proof (Hc r'). destruct (ce_route env r'); try done; by injection E as <-.
  - repeat case_match; try discriminate; try (by injection E as <-). by destruct (Hc r0).
Qed.
Lemma call_run_not_panic step envs :
  (∀ env, env ∈ envs → ∀ pc r, step env pc = Some r → is_val r = true) →
  ∀ pc r, call_run step envs pc = Some r → is_val r = true.
Proof.
  intros Hs. induction envs as [|env envs IH]; intros pc r E; cbn [call_run] in E; [by injection E as <-|].
  destruct (step env pc) as [o|] eqn:Es; [|done]. pose proof (Hs env (list_elem_of_here _ _) pc o Es) as Ho.
  destruct o as [[[sel eff] pc1]| |]; try done.
  destruct (call_run step envs pc1) as [o|] eqn:Er; [|done].
  assert (is_val o = true) as Ho' by (eapply IH; [|exact Er]; intros e He; apply Hs; by apply list_elem_of_further).
  destruct o as [[eff2 pc2]| |]; try done. by injection E as <-.
Qed.

(** C28. Whatever others do to the selector and to the channels between its steps, a write gives its frame to exactly
    one channel when it reports success, an active route of the selector in that round, and to none when it reports a
    timeout, an error, or has not ended; a read takes exactly the frame that it returns, or none. A read never
    panics, and a write only on a route that is closed. *)
Theorem route_calls (f : list byte) (timeout : duration) (envs : list call_env) :
  (∀ eff pc, call_run (WriteDetailed_step f timeout) envs CallStart = Some (Val (eff, pc)) →
     eff = match pc with CallDone (Success r _) => [Put r f] | _ => [] end ∧
     ∀ r g, pc = CallDone (Success r g) →
       ∃ env a, env ∈ envs ∧ GetActiveRoutes (ce_draws env) (ce_selector env) = Val a ∧ r ∈ a) ∧
  (∀ eff pc, call_run (Read_step timeout) envs CallStart = Some (Val (eff, pc)) →
     eff = match pc with CallDone (Success r g) => [Took r g] | _ => [] end ∧
     ∀ r g, pc = CallDone (Success r g) →
       ∃ env a, env ∈ envs ∧ GetActiveRoutes (ce_draws env) (ce_selector env) = Val a ∧ r ∈ a) ∧
  ((∀ env, env ∈ envs → draws_ok (ce_draws env)) →
   (∀ r, call_run (Read_step timeout) envs CallStart = Some r → is_val r = true) ∧
   ((∀ env r, env ∈ envs → ce_route env r ≠ Closed) →
    ∀ r, call_run (WriteDetailed_step f timeout) envs CallStart = Some r → is_val r = true)).
Proof.
  set (P := λ a, ∃ env, env ∈ envs ∧ GetActiveRoutes (ce_draws env) (ce_selector env) = Val a).
  assert (∀ (env : call_env) a, env ∈ envs → GetActiveRoutes (ce_draws env) (ce_selector env) = Val a → P a) as HP by (intros; by eexists).
  assert (∀ effect eff pc, call_inv effect P eff pc →
    eff = match pc with CallDone (Success r g) => [effect r g] | _ => [] end ∧
    ∀ r g, pc = CallDone (Success r g) → ∃ env a, env ∈ envs ∧ GetActiveRoutes (ce_draws env) (ce_selector env) = Val a ∧ r ∈ a) as Hfin.
  { intros effect eff pc Hi. destruct pc as [| | |[r g| |]]; cbn in Hi; try (split; [tauto|done]).
    destruct Hi as (-> & a & (env & He & Ea) & Hr). split; [done|]. intros r' g' [= <- <-]. by exists env, a. }
  split_and!.
  - intros eff pc E. apply (call_run_inv _ _ (write_keeps f timeout) _ _ [] P) in E; [|done|done]. cbn [app] in E. by apply Hfin in E.
  - intros eff pc E. apply (call_run_inv _ _ (read_keeps timeout) _ _ [] P) in E; [|done|done]. cbn [app] in E. by apply Hfin in E.
  - intros Hd. split.
    + intros r. apply call_run_not_panic. intros env He pc r' E. by eapply (step_not_panic true f timeout); [apply Hd| |exact E].
    + intros Hc r. apply call_run_not_panic. intros env He pc r' E. eapply (step_not_panic false f timeout); [by apply Hd|intros _ r0; by apply Hc|exact E].
Qed.

(** A read of a selector that nobody else changes, with the state of the routes
    as it is, up to the select. *)
Fixpoint read_poll (fuel : nat) (route : R → route_state) (d : draws) (sel : MultiRouteSelector) (pc : call_pc)
    : option (outcome (MultiRouteSelector * call_pc)) :=
  match pc with
  | CallSelect _ | CallDone _ => Some (Val (sel, pc))
  | _ =>
      match fuel with
      | 0 => None
      | S fuel =>
          match Read_step 0 (mkCallEnv sel d route SelTimeout) pc with
          | Some (Val (sel, _, pc)) => read_poll fuel route d sel pc
          | Some (Err e) => Some (Err e)
          | Some (Panic e) => Some (Panic e)
          | None => None
          end
      end
  end.
Definition active_count (sel : MultiRouteSelector) : nat := length (filter (λ r, is_active sel r) (all_routes sel)).
Definition is_closed (s : route_state) : bool := match s with Closed => true | _ => false end.
Lemma setActive_all r sel : all_routes (setActive r sel) = all_routes sel.
Proof. unfold setActive. by destruct (routeActive sel !! r). Qed.
Lemma setActive_is_active r sel x : is_active (setActive r sel) x = is_active sel x && negb (bool_decide (x = r)).
Proof.
  unfold is_active, setActive. destruct (routeActive sel !! r) as [b|] eqn:E; cbn.
  - destruct (decide (x = r)) as [-> |Hne].
    + rewrite lookup_insert_eq, bool_decide_true by done. cbn. by rewrite andb_false_r.
    + rewrite lookup_insert_ne by done. rewrite bool_decide_false by done. by rewrite andb_true_r.
  - destruct (decide (x = r)) as [-> |Hne]; [by rewrite E, bool_decide_true|]. rewrite bool_decide_false by done. by rewrite andb_true_r.
Qed.
Lemma active_count_less sel sel' r :
  all_routes sel' = all_routes sel → (∀ x, is_active sel' x = true → is_active sel x = true) →
  active_count sel' ≤ active_count sel ∧
  (r ∈ all_routes sel → is_active sel r = true → is_active sel' r = false → active_count sel' < active_count sel).
Proof.
  unfold active_count. intros -> Hx. induction (all_routes sel) as [|y l [IH1 IH2]]; [split; [done|set_solver]|].
  rewrite !filter_cons. destruct (decide (is_active sel' y)) as [Hy|Hy], (decide (is_active sel y)) as [Hz|Hz]; cbn [length].
  - split; [lia|]. intros [-> |Hr]%elem_of_cons Ha Hb; [by rewrite Hb in Hy|]. specialize (IH2 Hr Ha Hb). lia.
  - exfalso. apply Hz, Is_true_true, Hx, Is_true_true, Hy.
  - split; [lia|]. intros _ _ _. lia.
  - split; [lia|]. intros [-> |Hr]%elem_of_cons Ha Hb; [exfalso; apply Hz; by rewrite Ha|]. by apply IH2.
Qed.
Section Poll.
Variables (route : R → route_state) (d : draws).
Hypothesis Hd : draws_ok d.
Definition close_all (rest : list R) (sel : MultiRouteSelector) : MultiRouteSelector :=
  foldl (λ s r, if is_closed (route r) then setActive r s else s) sel rest.
Lemma close_all_spec rest sel :
  all_routes (close_all rest sel) = all_routes sel ∧
  ∀ x, is_active (close_all rest sel) x = true ↔ is_active sel x = true ∧ ¬ (x ∈ rest ∧ is_closed (route x) = true).
Proof.
  revert sel. induction rest as [|r rest IH]; intros sel; cbn [close_all foldl]; [split; [done|]; intros x; set_solver|].
  fold (close_all rest (if is_closed (route r) then setActive r sel else sel)).
  destruct (IH (if is_closed (route r) then setActive r sel else sel)) as [IH1 IH2]. split.
  - rewrite IH1. destruct (is_closed _); [apply setActive_all|done].
  - intros x. rewrite IH2. destruct (is_closed (route r)) eqn:Ec; [rewrite setActive_is_active|].
    + rewrite andb_true_iff, negb_true_iff, bool_decide_eq_false. set_solver.
    + split; intros [? Hn]; (split; [done|]); intros [Hin ?]; apply Hn; [|set_solver].
      apply elem_of_cons in Hin as [-> |]; [congruence|done].
Qed.
Lemma try_loop a rest retry sel :
  (∃ r g sel', route r = Ready g ∧ ∀ k, read_poll (length rest + k) route d sel (CallTry a rest retry) = Some (Val (sel', CallDone (Success r g)))) ∨
  ((∀ k, read_poll (length rest + k) route d sel (CallTry a rest retry) =
     read_poll k route d (close_all rest sel) (CallTry a [] (retry || existsb (λ r, is_closed (route r)) rest))) ∧
   ∀ r g, r ∈ rest → route r ≠ Ready g).
Proof.
  revert retry sel. induction rest as [|r rest IH]; intros retry sel.
  - right. split; [|set_solver]. intros k. cbn. by rewrite orb_false_r.
  - cbn [length Nat.add read_poll Read_step ce_selector ce_route].
    destruct (route r) eqn:Er.
    + destruct (IH retry sel) as [(r' & g & sel' & Hr & E)|[E Hn]]; [left; by exists r', g, sel'|right]. split.
      * intros k. rewrite E. cbn [close_all foldl existsb]. by rewrite Er.
      * intros x g [-> |Hx]%elem_of_cons; [congruence|by apply Hn].
    + left. exists r, frame. eexists. split; [done|]. intros k. unfold got. by destruct (length rest + k).
    + destruct (IH true (setActive r sel)) as [(r' & g & sel' & Hr & E)|[E Hn]]; [left; by exists r', g, sel'|right]. split.
      * intros k. rewrite E. cbn [close_all foldl existsb]. rewrite Er. cbn [is_closed orb]. by rewrite orb_true_r.
      * intros x g [-> |Hx]%elem_of_cons; [congruence|by apply Hn].
Qed.

(** A read of a selector that nobody else changes does not poll for ever: within the rounds that its active
    routes bound, each of which takes the routes found closed out, it returns a frame that was ready, or waits for
    routes none of which is closed or ready. *)
Theorem read_poll_ends sel fuel :
  S (active_count sel) * (length (all_routes sel) + 2) ≤ fuel →
  ∃ sel' pc, read_poll fuel route d sel CallStart = Some (Val (sel', pc)) ∧
    match pc with
    | CallSelect a => (∀ r, r ∈ a → route r = Blocked) ∧ ∀ r, r ∈ a ↔ r ∈ all_routes sel ∧ is_active sel' r = true
    | CallDone (Success r g) => route r = Ready g
    | _ => False
    end.
Proof.
  remember (active_count sel) as n eqn:En. revert sel fuel En.
  induction n as [n IH] using lt_wf_ind; intros sel fuel -> Hf.
  destruct (GetActiveRoutes_ok d sel Hd) as (a & Ea & Hp).
  assert (length a = active_count sel) as Hla by (by rewrite Hp).
  assert (active_count sel ≤ length (all_routes sel)) as Hle by apply length_filter.
  destruct fuel as [|fuel]; [lia|]. cbn [read_poll Read_step ce_draws ce_selector]. rewrite Ea. cbn [obind].
  destruct (try_loop a a false sel) as [(r & g & sel' & Hr & E)|[E Hn]].
  - exists sel', (CallDone (Success r g)). split; [|done].
    replace fuel with (length a + (fuel - length a)) by nia. apply E.
  - replace fuel with (length a + S (fuel - length a - 1)) by nia. rewrite E. cbn [orb].
    destruct (close_all_spec a sel) as [Hall Hact].
    assert (∀ r, r ∈ a ↔ is_active sel r = true ∧ r ∈ all_routes sel) as Ha.
    { intros r. rewrite Hp, list_elem_of_filter, <-Is_true_true. done. }
    destruct (existsb (λ r, is_closed (route r)) a) eqn:Ex; cbn [read_poll Read_step ce_selector].
    + apply existsb_exists in Ex as (r & Hr & Hc). apply list_elem_of_In in Hr.
      destruct (active_count_less sel (close_all a sel) r Hall) as [_ Hless]; [intros x Hx; by apply Hact|].
      assert (active_count (close_all a sel) < active_count sel) as Hlt.
      { apply Hless; [apply Ha, Hr|apply Ha, Hr|]. apply not_true_is_false. intros Hx. apply Hact in Hx as [_ Hx]. tauto. }
      rewrite <-Hall in *. apply (IH _ Hlt (close_all a sel)); [done|]. rewrite Hall in *. nia.
    + exists (close_all a sel), (CallSelect a). split; [by destruct (fuel - length a - 1)|].
      assert (∀ r, r ∈ a → is_closed (route r) = false) as Hnc.
      { intros r Hr. apply not_true_is_false. intros Hc. assert (existsb (λ r, is_closed (route r)) a = true) as Hb; [|congruence].
        apply existsb_exists. exists r. split; [by apply list_elem_of_In|done]. }
      split.
      * intros r Hr. specialize (Hnc r Hr). destruct (route r) eqn:E'; [done| |done]. exfalso. by eapply (Hn r).
      * intros r. rewrite Hact, Ha. split; [|tauto]. intros [H3 H4]. split; [done|]. split; [done|].
        intros [Hr%Ha Hc]. rewrite (Hnc r Hr) in Hc. done.
Qed.
End Poll.
End Routes.

(** ** A client with three transports *)
Module RouteExample.
Definition ex_stream : Id := to_array 16 [Byte.x07].
Definition ex_to (b : byte) : TransferPath := DestinationId (to_array 16 [b]).
Definition ex_object (t : nat) : TransportObject :=
  match t with
  | 1 => NewSendClientTransport [ex_to Byte.x01]
  | 2 => sendGatewayTransport
  | 3 => P2pSendTransport Id_zero
  | _ => receiveGatewayTransport
  end.
#[local] Instance ex_transports : Transports nat := object_transports nat ex_object.
Definition ex_draws : draws := mkDraws (λ _ n, n - 1) (λ _, f32_zero).
Definition ex_ds (p : positive) (t : nat) : draws := ex_draws.
Lemma ex_draws_ok : draws_ok ex_draws.
Proof. intros k n Hn. cbn. lia. Qed.
Definition ex_ls : list (rm_label (T := nat) (R := nat)) :=
  [ ROpenWriter ex_ds (ex_to Byte.x01); RUpdate ex_ds 1 [10; 11]; RUpdate ex_ds 2 [20];
    ROpenWriter ex_ds (ex_to Byte.x02); RWriter 1 (OpInactive 11); ROpenReader ex_ds (ex_to Byte.x01);
    RUpdate ex_ds 4 [40] ].
Lemma ex_ls_ok : rm_run_ok ex_ls new_table.
Proof.
  pose proof ex_draws_ok.
  cbn [rm_run_ok ex_ls rm_label_ok table_step rt_table new_table update_routes]. split_and!; try done.
  all: intros t' routes' r Ht Hr Hr'; repeat (apply lookup_insert_Some in Ht as [[<- <-]|[_ Ht]]); try (by rewrite lookup_empty in Ht); set_solver.
Qed.
Lemma route_manager_refines_witness :
  ∃ rm, rm_run ex_ls NewRouteManager = Val rm ∧
    ∃ sel, ms_selectors (writerMatchState rm) !! 1%positive = Some sel ∧
      serves MatchesSend (rt_table (table_run ex_ls new_table)) (writer_marked ex_ls 1) (ex_to Byte.x01) sel.
Proof.
  destruct (route_manager_refines ex_ls ex_ls_ok) as (rm & E & _ & _ & Hw & _).
  exists rm. split; [exact E|]. apply Hw. reflexivity.
Defined.

Definition ex_active (p : positive) (rm : RouteManager (T := nat) (R := nat)) : outcome (list nat) :=
  match ms_selectors (writerMatchState rm) !! p with Some sel => GetActiveRoutes ex_draws sel | None => Err "" end.
Example ex_routes :
  (let! rm := rm_run ex_ls NewRouteManager in let! a := ex_active 1 rm in let! b := ex_active 2 rm in Val (a, b))
  = Val ([20; 10], [20]).
Proof. by vm_compute. Qed.
(** The place of a destination stays when its last selector closes. *)
Example closed_destination_kept :
  (let! rm := rm_run [ROpenWriter ex_ds (ex_to Byte.x01); RCloseWriter 1] (NewRouteManager (T := nat) (R := nat)) in
   Val (destinationMultiRouteSelectors (writerMatchState rm) !! ex_to Byte.x01)) = Val (Some ∅).
Proof. by vm_compute. Qed.
(** A peer to peer transport takes all the weight, whatever else matches. *)
Example p2p_takes_all :
  (let! rm := rm_run [ROpenWriter ex_ds (ex_to Byte.x01); RUpdate ex_ds 2 [20]; RUpdate ex_ds 3 [30]] NewRouteManager in
   Val match ms_selectors (writerMatchState rm) !! 1%positive with
       | Some sel => (routeWeight sel !! 30, SFeqb (default f32_one (routeWeight sel !! 20)) f32_zero)
       | None => (None, false)
       end) = Val (Some f32_one, true).
Proof. by vm_compute. Qed.

Definition ex_selector : MultiRouteSelector (T := nat) (R := nat) :=
  mkSelector (ex_to Byte.x01) false {[2 := [20; 21]]} ∅ {[20 := true; 21 := true]} ∅ 0.
Definition ex_route (r : nat) : route_state := if r =? 20 then Blocked else Ready [Byte.x05].
Definition ex_env : call_env := mkCallEnv ex_selector ex_draws ex_route SelTimeout.
Lemma route_calls_witness :
  call_run (WriteDetailed_step [Byte.x09] 0) (replicate 3 ex_env) CallStart =
    Some (Val ([Put 21 [Byte.x09]], CallDone (Success 21 [Byte.x09]))) ∧
  ∃ env a, env ∈ replicate 3 ex_env ∧ GetActiveRoutes (ce_draws env) (ce_selector env) = Val a ∧ 21 ∈ a.
Proof.
  assert (call_run (WriteDetailed_step [Byte.x09] 0) (replicate 3 ex_env) CallStart =
    Some (Val ([Put 21 [Byte.x09]], CallDone (Success 21 [Byte.x09])))) as E by (vm_compute; reflexivity).
  split; [exact E|].
  destruct (route_calls [Byte.x09] 0 (replicate 3 ex_env)) as [H _].
  destruct (H _ _ E) as [_ Hr]. exact (Hr 21 [Byte.x09] eq_refl).
Defined.
Definition ex_closed (r : nat) : route_state := if r =? 20 then Closed else Blocked.
Lemma read_poll_ends_witness :
  ∃ sel' pc, read_poll 12 ex_closed ex_draws ex_selector CallStart = Some (Val (sel', pc)) ∧
    match pc with
    | CallSelect a => (∀ r, r ∈ a → ex_closed r = Blocked) ∧ ∀ r, r ∈ a ↔ r ∈ all_routes ex_selector ∧ is_active sel' r = true
    | CallDone (Success r g) => ex_closed r = Ready g
    | _ => False
    end.
Proof. apply (read_poll_ends ex_closed ex_draws ex_draws_ok ex_selector 12). vm_compute. lia. Defined.
(** A route that is seen closed is not tried again. *)
Example closed_route_left :
  match read_poll 12 ex_closed ex_draws ex_selector CallStart with
  | Some (Val (sel, CallSelect a)) => (a, GetInactiveRoutes sel)
  | _ => ([], [])
  end = ([21], [20]).
Proof. by vm_compute. Qed.
End RouteExample.
