(* ===== verification/PackChannel.v ===== *)
(** * The channel of packs of a sequence

    [SendSequence], [ReceiveSequence] and [ForwardSequence] of transfer.go share
    one discipline: callers of [Pack] hold [packMutex] while they wait to put a
    pack into the channel [packs]; the goroutine of the sequence takes packs in
    [Run], ends by itself or when it closes on idle under [packMutex], and then
    [Close] closes the channel under [packMutex] and drains it. This file is
    that discipline as a transition system: one step is what happens between
    two points where another goroutine can run. *)

From S2P Require Import Prelude Util.
Open Scope go_scope.

(** ** The system *)
Section PackChannel.
Context {P : Type}.
(** [SequenceBufferSize], and whether [Close] drains: [ForwardSequence.Close]
    does not. *)
Variable capacity : nat.
Variable drains : bool.

(** Where the goroutine of the sequence is: before the top of its loop, past the
    checkpoint at the top, at its select, after the timeout and before it has
    the lock, returned from the loop, past closing the channel, gone. *)
Inductive run_loc :=
| RunBusy
| RunLoop (checkpointId : Z)
| RunSelect (checkpointId : Z)
| RunTimeout (checkpointId : Z)
| RunReturned
| RunDraining
| RunGone.
(** The caller that holds [packMutex], in the select of [Pack]. A negative
    timeout waits forever, zero not at all. *)
Record packer := mkPacker { pk_pack : P; pk_timeout : Z }.

Record PackChannel := mkPackChannel {
  pc_cancelled : bool;
  pc_idle : IdleCondition;
  pc_packs : list P;
  pc_closed : bool;
  pc_holder : option packer;
  pc_run : run_loc;
  pc_accepted : list P;
  pc_taken : list P;
  pc_drained : list P
}.
Definition NewPackChannel : PackChannel :=
  mkPackChannel false NewIdleCondition [] false None RunBusy [] [] [].

Definition pc_cancel (s : PackChannel) : PackChannel :=
  mkPackChannel true (pc_idle s) (pc_packs s) (pc_closed s) (pc_holder s) (pc_run s)
    (pc_accepted s) (pc_taken s) (pc_drained s).
Definition pc_set_run (r : run_loc) (s : PackChannel) : PackChannel :=
  mkPackChannel (pc_cancelled s) (pc_idle s) (pc_packs s) (pc_closed s) (pc_holder s) r
    (pc_accepted s) (pc_taken s) (pc_drained s).
Definition pc_set_idle (i : IdleCondition) (s : PackChannel) : PackChannel :=
  mkPackChannel (pc_cancelled s) i (pc_packs s) (pc_closed s) (pc_holder s) (pc_run s)
    (pc_accepted s) (pc_taken s) (pc_drained s).
Definition pc_hold (h : option packer) (s : PackChannel) : PackChannel :=
  mkPackChannel (pc_cancelled s) (pc_idle s) (pc_packs s) (pc_closed s) h (pc_run s)
    (pc_accepted s) (pc_taken s) (pc_drained s).
Definition pc_move (packs accepted taken drained : list P) (s : PackChannel) : PackChannel :=
  mkPackChannel (pc_cancelled s) (pc_idle s) packs (pc_closed s) (pc_holder s) (pc_run s)
    accepted taken drained.
Definition pc_close (s : PackChannel) : PackChannel :=
  mkPackChannel true (pc_idle s) (pc_packs s) true (pc_holder s) (pc_run s)
    (pc_accepted s) (pc_taken s) (pc_drained s).

(** [Pack] until its select: the result when it ends at once. [packDone] is the
    context of the pack. *)
Definition Pack_enter (p : P) (timeout : Z) (packDone : bool) (s : PackChannel)
    : option string * PackChannel :=
  if (packDone || pc_cancelled s)%bool then (Some "Done."%string, s) else
  let (open, idle) := UpdateOpen (pc_idle s) in
  if negb open then (Some "Done."%string, s)
  else (None, pc_hold (Some (mkPacker p timeout)) (pc_set_idle idle s)).
(** The deferred [UpdateClose] and unlock. *)
Definition Pack_leave (s : PackChannel) : PackChannel :=
  pc_hold None (pc_set_idle (UpdateClose (pc_idle s)) s).

(** What can happen: steps of callers, of the contexts, and of the goroutine of
    the sequence. *)
Inductive pc_label :=
| LPack (p : P) (timeout : Z) (packDone : bool)
| LSend
| LPackDone (packDone : bool)
| LPackTimeout
| LCancel
| LTop
| LSelect
| LTake
| LTimeout
| LIdle
| LReturn
| LClose
| LDrain
| LDone.
(** [None] when the step cannot happen in the state. *)
Definition pc_step (l : pc_label) (s : PackChannel) : option (outcome PackChannel) :=
  match l with
  | LPack p timeout packDone =>
      match pc_holder s with
      | None => Some (Val (Pack_enter p timeout packDone s).2)
      | Some _ => None
      end
  | LSend =>
      match pc_holder s with
      | Some k =>
          if pc_closed s then Some (Panic "send on closed channel") else
          if (length (pc_packs s) <? capacity)%nat then
            Some (Val (Pack_leave (pc_move (pc_packs s ++ [pk_pack k]) (pc_accepted s ++ [pk_pack k])
                                     (pc_taken s) (pc_drained s) s)))
          else match capacity, pc_run s with
               | 0, RunSelect _ =>
                   Some (Val (Pack_leave (pc_set_run RunBusy
                     (pc_move (pc_packs s) (pc_accepted s ++ [pk_pack k]) (pc_taken s ++ [pk_pack k])
                        (pc_drained s) s))))
               | _, _ => None
               end
      | None => None
      end
  | LPackDone packDone =>
      match pc_holder s with
      | Some _ => if (packDone || pc_cancelled s)%bool then Some (Val (Pack_leave s)) else None
      | None => None
      end
  | LPackTimeout =>
      match pc_holder s with
      | Some k => if (pk_timeout k <? 0)%Z then None else Some (Val (Pack_leave s))
      | None => None
      end
  | LCancel => Some (Val (pc_cancel s))
  | LTop =>
      match pc_run s with
      | RunBusy => Some (Val (pc_set_run (RunLoop (Checkpoint (pc_idle s))) s))
      | _ => None
      end
  | LSelect =>
      match pc_run s with
      | RunLoop c => Some (Val (pc_set_run (RunSelect c) s))
      | _ => None
      end
  | LTake =>
      match pc_run s, pc_packs s with
      | RunSelect _, p :: l =>
          Some (Val (pc_set_run RunBusy (pc_move l (pc_accepted s) (pc_taken s ++ [p]) (pc_drained s) s)))
      | _, _ => None
      end
  (* the select waits for the timeout only while there is no pack *)
  | LTimeout =>
      match pc_run s, pc_packs s with
      | RunSelect c, [] => Some (Val (pc_set_run (RunTimeout c) s))
      | _, _ => None
      end
  | LIdle =>
      match pc_run s, pc_holder s with
      | RunTimeout c, None =>
          let (closed, idle) := Idle_Close c (pc_idle s) in
          Some (Val (pc_set_run (if (closed : bool) then RunReturned else RunBusy) (pc_set_idle idle s)))
      | _, _ => None
      end
  (* the end of Run for another reason: the context, an error; or no idle close *)
  | LReturn =>
      match pc_run s with
      | RunBusy | RunLoop _ => Some (Val (pc_set_run RunReturned s))
      | RunSelect _ => if pc_cancelled s then Some (Val (pc_set_run RunReturned s)) else None
      | _ => None
      end
  | LClose =>
      match pc_run s, pc_holder s with
      | RunReturned, None =>
          if pc_closed s then Some (Panic "close of closed channel")
          else Some (Val (pc_set_run RunDraining (pc_close s)))
      | _, _ => None
      end
  | LDrain =>
      match pc_run s, pc_packs s with
      | RunDraining, p :: l =>
          if drains then Some (Val (pc_move l (pc_accepted s) (pc_taken s) (pc_drained s ++ [p]) s)) else None
      | _, _ => None
      end
  | LDone =>
      match pc_run s, pc_packs s with
      | RunDraining, [] => Some (Val (pc_set_run RunGone s))
      | RunDraining, _ => if drains then None else Some (Val (pc_set_run RunGone s))
      | _, _ => None
      end
  end.
Fixpoint pc_steps (ls : list pc_label) (s : PackChannel) : option (outcome PackChannel) :=
  match ls with
  | [] => Some (Val s)
  | l :: ls => match pc_step l s with
               | Some (Val s) => pc_steps ls s
               | r => r
               end
  end.

(** ** What holds in every reachable state *)
Definition is_closed (r : run_loc) : bool := match r with RunDraining | RunGone => true | _ => false end.
Record pc_inv (s : PackChannel) : Prop := {
  pi_flow : pc_accepted s = pc_taken s ++ pc_drained s ++ pc_packs s;
  pi_drained : pc_drained s ≠ [] → is_closed (pc_run s) = true;
  pi_open : updateOpenCount (pc_idle s) = match pc_holder s with Some _ => 1%Z | None => 0%Z end;
  pi_closed : pc_closed s = is_closed (pc_run s);
  pi_after : pc_closed s = true → pc_cancelled s = true ∧ pc_holder s = None;
  pi_room : length (pc_packs s) ≤ capacity;
  pi_gone : pc_run s = RunGone → drains = true → pc_packs s = []
}.
Lemma new_inv : pc_inv NewPackChannel.
Proof. split; simpl; try done. lia. Qed.
Lemma leave_inv s k :
  pc_holder s = Some k → pc_inv s → pc_inv (Pack_leave s).
Proof.
  intros Eh [H1 H2 H3 H4 H5 H6 H7]. rewrite Eh in *. split; try done; simpl; try lia. by intros [? ?]%H5.
Qed.
Lemma step_inv l s r : pc_inv s → pc_step l s = Some r → ∃ s', r = Val s' ∧ pc_inv s'.
Proof.
  intros H E. pose proof H as [H1 H2 H3 H4 H5 H6 H7].
  destruct l; cbn [pc_step] in E.
  - destruct (pc_holder s) eqn:Eh; [done|]. injection E as <-. eexists. split; [done|].
    unfold Pack_enter. destruct (packDone || pc_cancelled s)%bool eqn:Ec; [done|].
    apply orb_false_iff in Ec as [_ Ec].
    unfold UpdateOpen. destruct (closed (pc_idle s)); [done|]. simpl. split; simpl; try done; [lia|].
    intros Hc. destruct (H5 Hc). congruence.
  - destruct (pc_holder s) as [k|] eqn:Eh; [|done]. destruct (pc_closed s) eqn:Ec.
    { destruct (H5 eq_refl). congruence. }
    assert (pc_drained s = []) as Ed.
    { destruct (pc_drained s); [done|]. rewrite <-H4 in H2. by discriminate H2. }
    case_bool.
    + injection E as <-. eexists. split; [done|]. apply (leave_inv _ k); [done|]. split; simpl; try done.
      * by rewrite H1, <-!(assoc_L (++)).
      * by rewrite Eh.
      * by rewrite Ec.
      * by rewrite Ec.
      * rewrite length_app. simpl. lia.
      * rewrite <-H4 in *. intros Eg. rewrite Eg in H4. simpl in H4. congruence.
    + destruct capacity eqn:Ecap; [|done]. destruct (pc_run s) eqn:Er; try done. injection E as <-.
      eexists. split; [done|]. apply (leave_inv _ k); [done|].
      assert (pc_packs s = []) as Ep by (destruct (pc_packs s); simpl in *; [done|lia]).
      split; simpl; try done; try lia; [by rewrite H1, Ed, Ep, !app_nil_r|by rewrite Eh|by rewrite Ec].
  - destruct (pc_holder s) eqn:Eh; [|done]. destruct (_ || _)%bool; [|done]. injection E as <-.
    eexists. split; [done|]. by eapply leave_inv.
  - destruct (pc_holder s) eqn:Eh; [|done]. case_bool; [done|]. injection E as <-. eexists. split; [done|].
    by eapply leave_inv.
  - injection E as <-. eexists. split; [done|]. split; try done. simpl. intros Hc. by destruct (H5 Hc).
  - destruct (pc_run s) eqn:Er; try done. injection E as <-. eexists. by split; [done|]; split.
  - destruct (pc_run s) eqn:Er; try done. injection E as <-. eexists. by split; [done|]; split.
  - destruct (pc_run s) eqn:Er; try done. destruct (pc_packs s) eqn:Ep; [done|]. injection E as <-.
    assert (pc_drained s = []) as Ed by (destruct (pc_drained s); [done|by discriminate H2]).
    eexists. split; [done|]. split; simpl in *; try done; [|lia]. by rewrite H1, Ed, <-(assoc_L (++)).
  - destruct (pc_run s) eqn:Er; try done. destruct (pc_packs s) eqn:Ep; [|done]. injection E as <-.
    eexists. split; [done|]. split; try done; simpl; by rewrite ?Ep.
  - destruct (pc_run s) eqn:Er; try done. destruct (pc_holder s) eqn:Eh; [done|].
    unfold Idle_Close in E. repeat case_match; simplify_eq; (eexists; split; [done|]; split; simpl; by rewrite ?Eh).
  - destruct (pc_run s) eqn:Er; try done; [..|destruct (pc_cancelled s) eqn:Ecc; [|done]]; injection E as <-;
      (eexists; split; [done|]; split; simpl; by rewrite ?Ecc).
  - destruct (pc_run s) eqn:Er; try done. destruct (pc_holder s) eqn:Eh; [done|].
    destruct (pc_closed s) eqn:Ec; [done|]. injection E as <-. eexists. split; [done|].
    split; simpl; try done. by rewrite Eh.
  - destruct (pc_run s) eqn:Er; try done. destruct (pc_packs s) eqn:Ep; [done|]. destruct drains; [|done].
    injection E as <-. eexists. split; [done|]. split; simpl in *; try done; [|by rewrite Er..|lia|by rewrite Er].
    by rewrite H1, <-(assoc_L (++)).
  - destruct (pc_run s) eqn:Er; try done. destruct (pc_packs s) eqn:Ep, drains eqn:Edr; try done; injection E as <-;
      (eexists; split; [done|]; split; simpl; rewrite ?Ep; done || congruence).
Qed.
Lemma steps_inv ls s r : pc_inv s → pc_steps ls s = Some r → ∃ s', r = Val s' ∧ pc_inv s'.
Proof.
  revert s. induction ls as [|l ls IH]; intros s H E; simpl in E; [injection E as <-; by eexists|].
  destruct (pc_step l s) as [r'|] eqn:El; [|done].
  destruct (step_inv _ _ _ H El) as (s' & -> & H'). by eapply IH.
Qed.

(** C17. No pack that a sequence accepted gets lost on the way to it: in every
    interleaving of callers of [Pack], cancels and the goroutine of the
    sequence, nothing is sent on a closed channel and no channel is closed
    twice; the packs for which [Pack] returned true are, in that order, those
    that [Run] took, those that [Close] drained and those in the channel, which
    is within its capacity; once the channel is closed every [Pack] returns an
    error; and when the goroutine is gone nothing is left in the channel, if
    [Close] drains it. *)
Theorem pack_channel_conserves (ls : list pc_label) (r : outcome PackChannel) :
  pc_steps ls NewPackChannel = Some r →
  ∃ s, r = Val s ∧ pc_accepted s = pc_taken s ++ pc_drained s ++ pc_packs s ∧
    length (pc_packs s) ≤ capacity ∧
    (pc_closed s = true → ∀ p timeout packDone, Pack_enter p timeout packDone s = (Some "Done."%string, s)) ∧
    (pc_run s = RunGone → drains = true → pc_accepted s = pc_taken s ++ pc_drained s).
Proof.
  intros E. destruct (steps_inv _ _ _ new_inv E) as (s & -> & [H1 H2 H3 H4 H5 H6 H7]).
  exists s. split_and!; [done..| |].
  - intros Hc p timeout packDone. unfold Pack_enter. destruct (H5 Hc) as [-> _]. by rewrite orb_true_r.
  - intros Eg Hd. by rewrite H1, (H7 Eg Hd), app_nil_r.
Qed.

(** The steps of the program itself: neither a new call nor a cancel from
    outside, nor the timeout of a caller. *)
Definition own_steps (s : PackChannel) : list pc_label :=
  [LSend; LPackDone false; LTop; LSelect; LTake; LTimeout; LIdle; LClose; LDrain; LDone] ++
  match pc_run s with RunReturned => if pc_cancelled s then [] else [LCancel] | _ => [] end.
#[local] Ltac member :=
  unfold own_steps; cbn [app]; repeat first [apply list_elem_of_here | apply list_elem_of_further].
(** The caller that has the lock waits for room in the channel, and the
    goroutine that would make room waits for the lock. *)
Definition deadlocked (s : PackChannel) : Prop :=
  ∃ c k, pc_run s = RunTimeout c ∧ pc_holder s = Some k ∧ pc_cancelled s = false ∧
    length (pc_packs s) = capacity.

(** The goroutine of a sequence and the caller that holds the lock never
    wait for each other, but in one case: in every reachable state in which the
    goroutine is not gone the program has a step to make by itself, unless the
    goroutine waits for the lock to close on idle while the caller that has it
    waits for room in a full channel. *)
Theorem pack_channel_progress (ls : list pc_label) (s : PackChannel) :
  pc_steps ls NewPackChannel = Some (Val s) → pc_run s ≠ RunGone →
  (∃ l, l ∈ own_steps s ∧ pc_step l s ≠ None) ∨ deadlocked s.
Proof.
  intros E Hg. destruct (steps_inv _ _ _ new_inv E) as (s' & [= <-] & [H1 H2 H3 H4 H5 H6 H7]).
  assert (∀ l, l ∈ own_steps s → pc_step l s ≠ None → (∃ l, l ∈ own_steps s ∧ pc_step l s ≠ None) ∨ deadlocked s)
    as Hl by eauto.
  assert (∀ k, pc_holder s = Some k → length (pc_packs s) < capacity →
    (∃ l, l ∈ own_steps s ∧ pc_step l s ≠ None) ∨ deadlocked s) as Hsend.
  { intros k Ek Hr. apply (Hl LSend); [member|]. simpl. rewrite Ek. destruct (pc_closed s); [done|].
    apply Nat.ltb_lt in Hr. by rewrite Hr. }
  assert (∀ k, pc_holder s = Some k → pc_cancelled s = true →
    (∃ l, l ∈ own_steps s ∧ pc_step l s ≠ None) ∨ deadlocked s) as Hdone.
  { intros k Ek Hc. apply (Hl (LPackDone false)); [member|]. simpl. by rewrite Ek, Hc. }
  destruct (pc_run s) eqn:Er; [..|done].
  - apply (Hl LTop); [member|]. simpl. by rewrite Er.
  - apply (Hl LSelect); [member|]. simpl. by rewrite Er.
  - destruct (pc_packs s) eqn:Ep.
    + apply (Hl LTimeout); [member|]. simpl. by rewrite Er, Ep.
    + apply (Hl LTake); [member|]. simpl. by rewrite Er, Ep.
  - destruct (pc_holder s) as [k|] eqn:Eh.
    + destruct (decide (length (pc_packs s) < capacity)); [by eapply Hsend|].
      destruct (pc_cancelled s) eqn:Ec; [by eapply Hdone|]. right. exists checkpointId, k.
      split_and!; try done. lia.
    + apply (Hl LIdle); [member|]. simpl. rewrite Er, Eh. by destruct (Idle_Close _ _).
  - destruct (pc_holder s) as [k|] eqn:Eh.
    + destruct (pc_cancelled s) eqn:Ec; [by eapply Hdone|]. apply (Hl LCancel); [|done].
      unfold own_steps. rewrite Er, Ec. member.
    + apply (Hl LClose); [member|]. simpl. rewrite Er, Eh. by destruct (pc_closed s).
  - destruct (pc_packs s) eqn:Ep.
    + apply (Hl LDone); [member|]. simpl. by rewrite Er, Ep.
    + destruct drains eqn:Ed.
      * apply (Hl LDrain); [member|]. simpl. by rewrite Er, Ep, Ed.
      * apply (Hl LDone); [member|]. simpl. by rewrite Er, Ep, Ed.
Qed.

(** The end terminates: once [Run] has returned, in whatever state, the
    cancel sends away the caller that holds the lock, and then [Close] closes
    the channel and takes what is left in it, one pack per step, until the
    goroutine is gone. *)
Theorem pack_channel_close (ls : list pc_label) (s : PackChannel) :
  pc_steps ls NewPackChannel = Some (Val s) → pc_run s = RunReturned →
  ∃ s', pc_steps ([LCancel] ++ (if pc_holder s is Some _ then [LPackDone false] else []) ++ [LClose] ++
                  (if drains then replicate (length (pc_packs s)) LDrain else []) ++ [LDone]) s
        = Some (Val s') ∧
    pc_run s' = RunGone ∧ pc_taken s' = pc_taken s ∧
    pc_drained s' = (if drains then pc_packs s else []).
Proof.
  intros E Er. destruct (steps_inv _ _ _ new_inv E) as (s0 & [= <-] & [H1 H2 H3 H4 H5 H6 H7]).
  assert (pc_closed s = false) as Hcl by (by rewrite H4, Er).
  assert (pc_drained s = []) as Hd.
  { destruct (pc_drained s); [done|]. rewrite Er in H2. by discriminate H2. }
  clear E H1 H2 H3 H4 H5 H6 H7.
  set (s1 := pc_hold None (pc_cancel (match pc_holder s with Some _ => pc_set_idle (UpdateClose (pc_idle s)) s
                                      | None => s end))).
  set (rest := [LClose] ++ _).
  assert (pc_steps ([LCancel] ++ (if pc_holder s is Some _ then [LPackDone false] else []) ++ rest) s
    = pc_steps rest s1) as ->.
  { subst s1. destruct s as [ca idle packs cl h run acc tk dr]. by destruct h. }
  subst rest. cbn [app pc_steps pc_step]. assert (pc_run s1 = RunReturned) as Er1 by (subst s1; by destruct (pc_holder s)).
  assert (pc_holder s1 = None) as Eh1 by done.
  assert (pc_closed s1 = false) as Ec1 by (subst s1; by destruct (pc_holder s)).
  rewrite Er1, Eh1, Ec1. set (s2 := pc_set_run RunDraining (pc_close s1)).
  assert (pc_packs s2 = pc_packs s ∧ pc_taken s2 = pc_taken s ∧ pc_drained s2 = [] ∧ pc_run s2 = RunDraining)
    as (Ep & Et & Ed & Er2) by (subst s2 s1; by destruct (pc_holder s)).
  clearbody s2. clear s1 Er1 Eh1 Ec1.
  assert (∀ l s2, pc_packs s2 = l → pc_run s2 = RunDraining → drains = true →
    ∃ s', pc_steps (replicate (length l) LDrain ++ [LDone]) s2 = Some (Val s') ∧ pc_run s' = RunGone ∧
      pc_taken s' = pc_taken s2 ∧ pc_drained s' = pc_drained s2 ++ l) as Hdr.
  { clear. intros l. induction l as [|p l IH]; intros s2 Ep Er Hd; cbn [length replicate app pc_steps pc_step].
    - rewrite Er, Ep. eexists. split; [done|]. split_and!; simpl; try done. by rewrite app_nil_r.
    - rewrite Er, Ep, Hd. destruct (IH (pc_move l (pc_accepted s2) (pc_taken s2) (pc_drained s2 ++ [p]) s2))
        as (s' & E & ? & ? & Ed); [done..|]. exists s'. split_and!; try done. rewrite Ed. simpl. by rewrite <-(assoc_L (++)). }
  destruct drains eqn:Edr.
  - destruct (Hdr (pc_packs s) s2 Ep Er2 eq_refl) as (s' & -> & ? & ? & Eds). exists s'.
    split_and!; try done; [congruence|]. by rewrite Eds, Ed.
  - cbn [app pc_steps pc_step]. rewrite Er2, Edr. exists (pc_set_run RunGone s2).
    destruct (pc_packs s2); by split_and!.
Qed.
End PackChannel.
Arguments PackChannel : clear implicits.
Arguments pc_label : clear implicits.

(** The three sequences; the last does not drain. *)
Definition SendSequence_step {P} (sequenceBufferSize : nat)
    : pc_label P → PackChannel P → option (outcome (PackChannel P)) := pc_step sequenceBufferSize true.
Definition ReceiveSequence_step {P} (sequenceBufferSize : nat)
    : pc_label P → PackChannel P → option (outcome (PackChannel P)) := pc_step sequenceBufferSize true.
Definition ForwardSequence_step {P} (sequenceBufferSize : nat)
    : pc_label P → PackChannel P → option (outcome (PackChannel P)) := pc_step sequenceBufferSize false.

(** ** Concrete interleavings *)
Module PackChannelExample.
Abbreviation run := (pc_steps (P := nat) 1 true).

(** Two packs, one of them while the channel is full; then a cancel. *)
Definition ex_labels : list (pc_label nat) :=
  [LPack 7 (-1) false; LSend; LPack 8 (-1) false; LTop; LSelect; LTake; LSend; LCancel; LReturn; LClose; LDrain; LDone].
Lemma pack_channel_conserves_witness :
  ∃ s, run ex_labels NewPackChannel = Some (Val s) ∧
    pc_accepted s = [7; 8] ∧ pc_taken s = [7] ∧ pc_drained s = [8].
Proof.
  destruct (run ex_labels NewPackChannel) as [r|] eqn:E; [|vm_compute in E; discriminate].
  destruct (pack_channel_conserves 1 true ex_labels r E) as (s & -> & _).
  exists s. split; [reflexivity|]. vm_compute in E. injection E as <-. repeat split.
Defined.

(** A burst of packs right after the idle timeout: the second caller waits for
    room while it has the lock that the idle close waits for. *)
Definition ex_burst : list (pc_label nat) :=
  [LTop; LSelect; LTimeout; LPack 7 (-1) false; LSend; LPack 8 (-1) false].
Definition ex_state (ls : list (pc_label nat)) : PackChannel nat :=
  match run ls NewPackChannel with Some (Val s) => s | _ => NewPackChannel end.
Example idle_pack_deadlock :
  run ex_burst NewPackChannel = Some (Val (ex_state ex_burst)) ∧ deadlocked 1 (ex_state ex_burst) ∧
  Forall (λ l, pc_step 1 true l (ex_state ex_burst) = None)
    [LSend; LPackDone false; LPackTimeout; LTop; LSelect; LTake; LTimeout; LIdle; LReturn; LClose; LDrain; LDone].
Proof.
  split; [vm_compute; reflexivity|]. split; [|repeat constructor].
  exists 0%Z, (mkPacker 8 (-1)). repeat split.
Qed.
Lemma pack_channel_progress_witness :
  deadlocked 1 (ex_state ex_burst) ∨ (∃ l, l ∈ own_steps (ex_state ex_burst) ∧ pc_step 1 true l (ex_state ex_burst) ≠ None).
Proof.
  destruct (pack_channel_progress 1 true ex_burst (ex_state ex_burst)) as [H|H];
    [vm_compute; reflexivity|vm_compute; discriminate|by right|by left].
Defined.

(** A pack that is on its way when the goroutine takes its checkpoint is not
    seen by the idle close, though it is in the channel by then. *)
Definition ex_late : list (pc_label nat) :=
  [LPack 7 0 false; LTop; LSelect; LTimeout; LSend; LIdle].
Example idle_close_with_pack :
  pc_run (ex_state ex_late) = RunReturned ∧ pc_accepted (ex_state ex_late) = [7] ∧
  pc_packs (ex_state ex_late) = [7].
Proof. vm_compute. repeat split. Qed.
Lemma pack_channel_close_witness :
  ∃ s', run ([LCancel] ++ [] ++ [LClose] ++ [LDrain] ++ [LDone]) (ex_state ex_late) = Some (Val s') ∧
    pc_run s' = RunGone ∧ pc_drained s' = [7].
Proof.
  destruct (pack_channel_close 1 true ex_late (ex_state ex_late)) as (s' & E & Er & _ & Ed);
    [vm_compute; reflexivity|vm_compute; reflexivity|].
  exists s'. split; [exact E|]. split; [exact Er|exact Ed].
Defined.
End PackChannelExample.
