(* ===== verification/MessagePool.v ===== *)
(** * The message pools: message_pool.go

    Pooled messages are slices of buffers whose last twelve bytes hold an id, a
    tag, flags and a reference count. The buffers are in a store by pointer, so
    that two owners of one message share it, and the bytes of the metadata are
    those that the code reads and writes.

    [MessagePoolGet] and [MessagePoolReturn] each hold the lock of the pool
    twice, with steps of other goroutines in between: [gstep] is the transition
    system of those halves, with the references that each owner holds as a
    ghost count. *)

From S2P Require Import Prelude.
Open Scope go_scope.

(** ** Slices and stores *)
Record Slice := mkSlice { sl_ptr : positive; sl_off : nat; sl_len : nat }.
#[export] Instance Slice_eq_dec : EqDecision Slice.
Proof. solve_decision. Defined.

Abbreviation store := (gmap positive (list byte)) (only parsing).
Definition buf_at (h : store) (p : positive) : list byte := default [] (h !! p).
Definition byte_at (b : list byte) (i : nat) : byte := default Byte.x00 (b !! i).
(** [copy(b[i:], d)]: what does not fit is not copied. *)
Definition copy_at (i : nat) (d b : list byte) : list byte := list_inserts i d b.
Definition slice_cap (h : store) (m : Slice) : nat := length (buf_at h (sl_ptr m)) - sl_off m.
Definition slice_bytes (h : store) (m : Slice) : list byte :=
  take (sl_len m) (drop (sl_off m) (buf_at h (sl_ptr m))).

(** ** The pools *)
Definition MessagePoolMetaByteCount : nat := 12.
Definition MessagePoolFlagShared : Z := 1.

Record messagePool := mkPool {
  mp_size : nat;
  mp_max : nat;             (** [len(pool)] *)
  mp_pool : list positive;  (** [pool\[:count\]]: the first byte of each *)
  mp_nextId : Z;
  takenTags : list Z;
  returnedTags : list Z;
  createdTags : list Z
}.
Definition newMessagePool (size maxCount : nat) : messagePool :=
  mkPool size maxCount [] 0 (replicate 256 0%Z) (replicate 256 0%Z) (replicate 256 0%Z).
Definition set_pool (q : list positive) (x : messagePool) : messagePool :=
  mkPool (mp_size x) (mp_max x) q (mp_nextId x) (takenTags x) (returnedTags x) (createdTags x).
Definition bump (tag : byte) (l : list Z) : list Z :=
  alter (λ n, u64 (n + 1)) (Z.to_nat (byte_val tag)) l.

Definition pool_Resize (maxCount : nat) (x : messagePool) : messagePool :=
  mkPool (mp_size x) maxCount (take maxCount (mp_pool x)) (mp_nextId x)
    (takenTags x) (returnedTags x) (createdTags x).
Definition pool_Clear (x : messagePool) : messagePool := set_pool [] x.
Definition pool_Put (p : positive) (x : messagePool) : messagePool :=
  if length (mp_pool x) <? mp_max x then set_pool (mp_pool x ++ [p]) x else x.
Definition pool_resetStats (x : messagePool) : messagePool :=
  mkPool (mp_size x) (mp_max x) (mp_pool x) (mp_nextId x)
    (replicate 256 0%Z) (replicate 256 0%Z) (replicate 256 0%Z).

(** The metadata is at the end of the buffer: a pool message is a slice to the
    end of its buffer whose capacity is the size of the pool and twelve. *)
Definition meta (b : list byte) : nat := length b - MessagePoolMetaByteCount.
Definition meta_tag (b : list byte) : byte := byte_at b (meta b + 8).
Definition meta_flags (b : list byte) : byte := byte_at b (meta b + 9).
Definition meta_count (b : list byte) : Z := de16 (drop (meta b + 10) b).
Definition put_tag (tag : byte) (b : list byte) : list byte := copy_at (meta b + 8) [tag] b.
Definition put_flags (f : byte) (b : list byte) : list byte := copy_at (meta b + 9) [f] b.
Definition put_count (n : Z) (b : list byte) : list byte := copy_at (meta b + 10) (be16 n) b.
(** [binary.BigEndian.PutUint64] *)
Definition be64 (z : Z) : list byte :=
  map (λ i, byte_of (z ≫ i)%Z) [56; 48; 40; 32; 24; 16; 8; 0]%Z.
Definition new_message (size : nat) (id : Z) : list byte :=
  let b := replicate (size + MessagePoolMetaByteCount) Byte.x00 in
  copy_at (size + 8) [Byte.xff] (copy_at size (be64 id) b).

Record Pools := mkPools {
  heap : store;
  next_ptr : positive;
  pools : list messagePool
}.
(** [orderedMessagePools], before the first use *)
Definition newPools (sizes : list (nat * nat)) : Pools :=
  mkPools ∅ 1 (map (λ sm, newMessagePool sm.1 sm.2) sizes).
Definition InitialMessagePoolByteCount : nat := 1024 * 1024.
Definition orderedMessagePools : Pools :=
  newPools (map (λ size, (size, InitialMessagePoolByteCount / size)) [2048; 4096]).

Definition set_heap (h : store) (s : Pools) : Pools := mkPools h (next_ptr s) (pools s).
Definition upd (p : positive) (f : list byte → list byte) (s : Pools) : Pools :=
  set_heap (alter f p (heap s)) s.
Definition upd_pool (k : nat) (f : messagePool → messagePool) (s : Pools) : Pools :=
  mkPools (heap s) (next_ptr s) (alter f k (pools s)).
Definition alloc (b : list byte) (s : Pools) : positive * Pools :=
  (next_ptr s, mkPools (<[next_ptr s := b]> (heap s)) (Pos.succ (next_ptr s)) (pools s)).

Definition ResizeMessagePools (maxByteCount : nat) (s : Pools) : Pools :=
  mkPools (heap s) (next_ptr s) (map (λ x, pool_Resize (maxByteCount / mp_size x) x) (pools s)).
Definition ClearMessagePools (s : Pools) : Pools :=
  mkPools (heap s) (next_ptr s) (map pool_Clear (pools s)).
Definition ResetMessagePoolStats (s : Pools) : Pools :=
  mkPools (heap s) (next_ptr s) (map pool_resetStats (pools s)).

(** [messagePool.Get] *)
Definition pool_Get (k : nat) (x : messagePool) (s : Pools) : positive * Pools :=
  match last (mp_pool x) with
  | Some p => (p, upd_pool k (set_pool (removelast (mp_pool x))) s)
  | None =>
      let id := u64 (mp_nextId x + 1) in
      let x' := mkPool (mp_size x) (mp_max x) (mp_pool x) id (takenTags x) (returnedTags x) (createdTags x) in
      alloc (new_message (mp_size x) id) (upd_pool k (λ _, x') s)
  end.
(** The rest of [MessagePoolGetDetailedWithTag] for a message of the pool. *)
Definition take_message (k : nat) (p : positive) (tag : byte) (s : Pools) : outcome Pools :=
  let b := buf_at (heap s) p in
  let c := bool_decide (meta_tag b = Byte.xff) in
  let s1 := upd p (put_tag tag) s in
  let s2 := upd_pool k (λ x, mkPool (mp_size x) (mp_max x) (mp_pool x) (mp_nextId x)
      (bump tag (takenTags x)) (returnedTags x)
      (if c then bump tag (createdTags x) else createdTags x)) s1 in
  if bool_decide (meta_count b ≠ 0%Z) then Panic "message already taken"
  else Val (upd p (put_count 1) s2).
(** Where a message of [n] bytes starts in a buffer of the pool. *)
Definition base_off (size : nat) (b : list byte) : nat := length b - (size + MessagePoolMetaByteCount).

Fixpoint find_pool (f : messagePool → bool) (l : list messagePool) (k : nat) : option (nat * messagePool) :=
  match l with
  | [] => None
  | x :: l => if f x then Some (k, x) else find_pool f l (S k)
  end.
Definition pool_for (n : nat) (s : Pools) : option (nat * messagePool) :=
  find_pool (λ x, n <=? mp_size x) (pools s) 0.
Definition pool_of_cap (c : nat) (s : Pools) : option (nat * messagePool) :=
  find_pool (λ x, c =? mp_size x + MessagePoolMetaByteCount) (pools s) 0.

Definition MessagePoolGetDetailedWithTag (n : nat) (tag : byte) (s : Pools) : outcome (Slice * bool * Pools) :=
  match pool_for n s with
  | Some (k, x) =>
      let '(p, s1) := pool_Get k x s in
      let! s2 := take_message k p tag s1 in
      Val (mkSlice p (base_off (mp_size x) (buf_at (heap s1) p)) n, true, s2)
  | None =>
      let '(p, s1) := alloc (replicate (n + MessagePoolMetaByteCount) Byte.x00) s in
      Val (mkSlice p 0 n, false, s1)
  end.
Definition MessagePoolGet (n : nat) (s : Pools) : outcome (Slice * Pools) :=
  let! (m, _, s') := MessagePoolGetDetailedWithTag n Byte.x00 s in Val (m, s').
(** A write through the slice. *)
Definition write_slice (m : Slice) (i : nat) (d : list byte) (s : Pools) : Pools :=
  upd (sl_ptr m) (copy_at (sl_off m + i) (take (sl_len m - i) d)) s.
Definition MessagePoolCopy (message : list byte) (s : Pools) : outcome (Slice * Pools) :=
  let! (m, s1) := MessagePoolGet (length message) s in Val (m, write_slice m 0 message s1).

(** The half of [MessagePoolReturn] under the lock: [r], and the state. *)
Definition return_check (k : nat) (p : positive) (s : Pools) : bool * Pools :=
  let b := buf_at (heap s) p in
  let count := meta_count b in
  if bool_decide (count = 0%Z) then (false, s)
  else if bool_decide (count = 1%Z) then
    (true, upd_pool k (λ x, mkPool (mp_size x) (mp_max x) (mp_pool x) (mp_nextId x)
        (takenTags x) (bump (meta_tag b) (returnedTags x)) (createdTags x)) s)
  else (false, upd p (put_count (u16 (count - 1))) s).
(** The half after it, of the last reference. *)
Definition return_put (k : nat) (p : positive) (s : Pools) : Pools :=
  upd_pool k (pool_Put p) (upd p (λ b, put_count 0 (put_flags Byte.x00 (put_tag Byte.x00 b))) s).
Definition MessagePoolReturn (m : Slice) (s : Pools) : bool * Pools :=
  match pool_of_cap (slice_cap (heap s) m) s with
  | Some (k, _) =>
      let '(r, s1) := return_check k (sl_ptr m) s in
      if r then (true, return_put k (sl_ptr m) s1) else (false, s1)
  | None => (false, s)
  end.

Definition share (p : positive) (s : Pools) : Pools :=
  let b := buf_at (heap s) p in
  if bool_decide (meta_count b = 0%Z) then s
  else upd p (λ b, put_flags (byte_of (Z.lor (byte_val (meta_flags b)) MessagePoolFlagShared))
                     (put_count (u16 (meta_count b + 1)) b)) s.
Definition MessagePoolShareReadOnly (m : Slice) (s : Pools) : Pools :=
  match pool_of_cap (slice_cap (heap s) m) s with
  | Some _ => share (sl_ptr m) s
  | None => s
  end.
Definition MessagePoolCheck (m : Slice) (s : Pools) : bool * bool :=
  match pool_of_cap (slice_cap (heap s) m) s with
  | Some _ =>
      let b := buf_at (heap s) (sl_ptr m) in
      if (0 <? meta_count b)%Z
      then (true, negb (bool_decide (Z.land (byte_val (meta_flags b)) MessagePoolFlagShared = 0%Z)))
      else (false, false)
  | None => (false, false)
  end.

(** ** Goroutines over the pools

    [refs] counts the references that callers own: one for each message that
    [MessagePoolGet] or [MessagePoolShareReadOnly] gave out and that has not been
    returned. The steps a caller may take are those on messages it owns. *)
Inductive pending :=
| PGet (k : nat) (p : positive) (n : nat) (tag : byte)
| PPut (k : nat) (p : positive).
Definition pend_ptr (x : pending) : positive := match x with PGet _ p _ _ | PPut _ p => p end.

Record Owners := mkOwners { st : Pools; pend : list pending; refs : gmap positive Z }.
Definition refs_of (g : Owners) (p : positive) : Z := default 0%Z (refs g !! p).
Definition add_ref (p : positive) (d : Z) (g : gmap positive Z) : gmap positive Z :=
  <[p := (default 0%Z (g !! p) + d)%Z]> g.
Definition newOwners (sizes : list (nat * nat)) : Owners := mkOwners (newPools sizes) [] ∅.

Inductive label :=
| LGet (n : nat) (tag : byte)      (** the first half of a get *)
| LTake (j : nat)                  (** the rest of the pending get [j] *)
| LWrite (m : Slice) (i : nat) (d : list byte)
| LShare (m : Slice)
| LReturn (m : Slice)              (** the first half of a return *)
| LPut (j : nat)
| LResize (maxByteCount : nat)
| LClear
| LResetStats.

(** A slice that its owner may write: within the message, before the metadata. *)
Definition in_message (h : store) (m : Slice) : bool :=
  sl_off m + sl_len m <=? meta (buf_at h (sl_ptr m)).

Definition gstep (l : label) (g : Owners) : option (outcome Owners) :=
  let s := st g in
  match l with
  | LGet n tag =>
      match pool_for n s with
      | Some (k, x) =>
          let '(p, s1) := pool_Get k x s in
          Some (Val (mkOwners s1 (pend g ++ [PGet k p n tag]) (refs g)))
      | None =>
          let '(p, s1) := alloc (replicate (n + MessagePoolMetaByteCount) Byte.x00) s in
          Some (Val (mkOwners s1 (pend g) (add_ref p 1 (refs g))))
      end
  | LTake j =>
      match pend g !! j with
      | Some (PGet k p n tag) =>
          Some (let! s1 := take_message k p tag s in
                Val (mkOwners s1 (delete j (pend g)) (add_ref p 1 (refs g))))
      | _ => None
      end
  | LWrite m i d =>
      if (0 <? refs_of g (sl_ptr m))%Z && in_message (heap s) m
      then Some (Val (mkOwners (write_slice m i d s) (pend g) (refs g))) else None
  | LShare m =>
      if (0 <? refs_of g (sl_ptr m))%Z && (refs_of g (sl_ptr m) <? 65535)%Z then
        match pool_of_cap (slice_cap (heap s) m) s with
        | Some _ => Some (Val (mkOwners (MessagePoolShareReadOnly m s) (pend g) (add_ref (sl_ptr m) 1 (refs g))))
        | None => Some (Val g)
        end
      else None
  | LReturn m =>
      if (0 <? refs_of g (sl_ptr m))%Z then
        match pool_of_cap (slice_cap (heap s) m) s with
        | Some (k, _) =>
            let '(r, s1) := return_check k (sl_ptr m) s in
            Some (Val (mkOwners s1 (if r then pend g ++ [PPut k (sl_ptr m)] else pend g)
              (add_ref (sl_ptr m) (-1) (refs g))))
        | None => Some (Val g)
        end
      else None
  | LPut j =>
      match pend g !! j with
      | Some (PPut k p) => Some (Val (mkOwners (return_put k p s) (delete j (pend g)) (refs g)))
      | _ => None
      end
  | LResize n => Some (Val (mkOwners (ResizeMessagePools n s) (pend g) (refs g)))
  | LClear => Some (Val (mkOwners (ClearMessagePools s) (pend g) (refs g)))
  | LResetStats => Some (Val (mkOwners (ResetMessagePoolStats s) (pend g) (refs g)))
  end.
Fixpoint gsteps (ls : list label) (g : Owners) : option (outcome Owners) :=
  match ls with
  | [] => Some (Val g)
  | l :: ls =>
      match gstep l g with
      | Some (Val g') => gsteps ls g'
      | r => r
      end
  end.

(** ** Bytes of the metadata *)
Lemma copy_at_length i d b : length (copy_at i d b) = length b.
Proof. apply length_inserts. Qed.
Lemma copy_at_lt i d b j : j < i → copy_at i d b !! j = b !! j.
Proof. apply list_lookup_inserts_lt. Qed.
Lemma copy_at_ge i d b j : i + length d ≤ j → copy_at i d b !! j = b !! j.
Proof. apply list_lookup_inserts_ge. Qed.
Lemma copy_at_in i d b j :
  i ≤ j → j < i + length d → j < length b → copy_at i d b !! j = d !! (j - i).
Proof. intros. by apply list_lookup_inserts. Qed.
Lemma take_copy_at k i d b : k ≤ i → take k (copy_at i d b) = take k b.
Proof.
  intros H. apply list_eq. intros j. destruct (decide (j < k)).
  - rewrite !lookup_take_lt by done. apply copy_at_lt. lia.
  - by rewrite !lookup_take_ge by lia.
Qed.
Lemma meta_eq b b' : length b' = length b → meta b' = meta b.
Proof. unfold meta. by intros ->. Qed.

Lemma nth_lookup_default {A} (l : list A) n d : nth n l d = default d (l !! n).
Proof. revert n. induction l; intros []; simpl; auto. Qed.
Lemma meta_count_bytes b :
  meta_count b = (byte_val (byte_at b (meta b + 10)) ≪ 8 + byte_val (byte_at b (meta b + 11)))%Z.
Proof.
  unfold meta_count, de16. rewrite !nth_lookup_default, !lookup_drop. unfold byte_at.
  by rewrite Nat.add_0_r, <-Nat.add_assoc.
Qed.
Lemma meta_count_ext b b' :
  length b' = length b → (∀ j, meta b + 10 ≤ j → b' !! j = b !! j) → meta_count b' = meta_count b.
Proof.
  intros Hl H. rewrite !meta_count_bytes. unfold byte_at. rewrite (meta_eq _ _ Hl).
  rewrite !H by lia. done.
Qed.
Lemma meta_count_before i d b :
  i + length d ≤ meta b + 10 → meta_count (copy_at i d b) = meta_count b.
Proof. intros H. apply meta_count_ext; [apply copy_at_length|]. intros j Hj. apply copy_at_ge. lia. Qed.
Lemma meta_count_put n b : 12 ≤ length b → is_u16 n → meta_count (put_count n b) = n.
Proof.
  intros Hl Hn. rewrite meta_count_bytes. unfold put_count.
  rewrite (meta_eq b _ (copy_at_length _ _ _)).
  unfold byte_at. unfold meta, MessagePoolMetaByteCount in *.
  rewrite !copy_at_in by (simpl; lia).
  replace (length b - 12 + 10 - _) with 0 by lia. replace (length b - 12 + 11 - _) with 1 by lia.
  etransitivity; [|exact (de16_be16 n [] Hn)]. unfold de16. by rewrite app_nil_r.
Qed.
Lemma meta_count_range b : is_u16 (meta_count b).
Proof.
  rewrite meta_count_bytes. unfold is_u16. rewrite Z.shiftl_mul_pow2 by lia.
  pose proof (byte_val_range (byte_at b (meta b + 10))) as [].
  pose proof (byte_val_range (byte_at b (meta b + 11))) as []. lia.
Qed.
Lemma zero_count b : (∀ j, meta b + 10 ≤ j → byte_at b j = Byte.x00) → meta_count b = 0%Z.
Proof. intros H. rewrite meta_count_bytes, !H by lia. done. Qed.
Lemma new_message_length size id : length (new_message size id) = size + 12.
Proof. unfold new_message. by rewrite !copy_at_length, length_replicate. Qed.
Lemma byte_at_zeros n j : byte_at (replicate n Byte.x00) j = Byte.x00.
Proof.
  unfold byte_at. destruct (decide (j < n)); [by rewrite lookup_replicate_2|].
  rewrite lookup_ge_None_2; [done|]. rewrite length_replicate. lia.
Qed.
Lemma new_message_count size id : meta_count (new_message size id) = 0%Z.
Proof.
  apply zero_count. unfold meta. rewrite new_message_length.
  unfold MessagePoolMetaByteCount. intros j Hj.
  unfold byte_at, new_message. rewrite copy_at_ge by (simpl; lia).
  rewrite copy_at_ge by (simpl; lia). apply byte_at_zeros.
Qed.
Lemma zeros_count n : meta_count (replicate n Byte.x00) = 0%Z.
Proof. apply zero_count. intros. apply byte_at_zeros. Qed.

(** What a step may do to a buffer: the bytes before [k] stay. *)
Definition kept (k : nat) (b b' : list byte) : Prop := length b' = length b ∧ take k b' = take k b.
#[export] Instance kept_refl k : Reflexive (kept k).
Proof. by intros b. Qed.
#[export] Instance kept_trans k : Transitive (kept k).
Proof. intros b1 b2 b3 [H1 H2] [H3 H4]. split; congruence. Qed.
Lemma kept_copy k i d b : k ≤ i → kept k b (copy_at i d b).
Proof. intros. split; [apply copy_at_length|by apply take_copy_at]. Qed.
Lemma kept_meta k b b' : kept k b b' → meta b' = meta b.
Proof. intros [H _]. by apply meta_eq. Qed.
Lemma kept_put_tag t b : kept (meta b) b (put_tag t b).
Proof. apply kept_copy. lia. Qed.
Lemma kept_put_flags t b : kept (meta b) b (put_flags t b).
Proof. apply kept_copy. lia. Qed.
Lemma kept_put_count n b : kept (meta b) b (put_count n b).
Proof. apply kept_copy. lia. Qed.
#[local] Hint Resolve kept_put_tag kept_put_flags kept_put_count : core.
Lemma put_tag_count t b : meta_count (put_tag t b) = meta_count b.
Proof. apply meta_count_before. simpl. lia. Qed.
Lemma put_flags_count t b : meta_count (put_flags t b) = meta_count b.
Proof. apply meta_count_before. simpl. lia. Qed.

(** ** The invariant

    The buffers that nobody owns are those in the pools and those between two
    halves: [idle] lists them with their pool, and whether their count is zero.
    The lemmas are about any such list up to permutation. *)
Record entry := mkEntry { e_pool : nat; e_ptr : positive; e_zero : bool }.
Definition pend_entry (x : pending) : entry :=
  match x with PGet k p _ _ => mkEntry k p true | PPut k p => mkEntry k p false end.
Fixpoint free_entries (k : nat) (l : list messagePool) : list entry :=
  match l with
  | [] => []
  | x :: l => map (λ p, mkEntry k p true) (mp_pool x) ++ free_entries (S k) l
  end.
Definition idle (s : Pools) (pd : list pending) : list entry :=
  free_entries 0 (pools s) ++ map pend_entry pd.
Definition free (s : Pools) : list positive := map e_ptr (free_entries 0 (pools s)).

Definition sizes_of (s : Pools) : list nat := map mp_size (pools s).
Definition rc (rf : gmap positive Z) (p : positive) : Z := default 0%Z (rf !! p).
Definition roomy (s : Pools) (k : nat) (p : positive) : Prop :=
  ∃ sz b, sizes_of s !! k = Some sz ∧ heap s !! p = Some b ∧ sz + 12 ≤ length b.
Definition entry_ok (s : Pools) (rf : gmap positive Z) (e : entry) : Prop :=
  roomy s (e_pool e) (e_ptr e) ∧ rc rf (e_ptr e) = 0%Z ∧
  (e_zero e = true → meta_count (buf_at (heap s) (e_ptr e)) = 0%Z).
Definition owned_ok (s : Pools) (rf : gmap positive Z) (p : positive) : Prop :=
  (0 ≤ rc rf p ≤ 65535)%Z ∧
  ((0 < rc rf p)%Z → is_Some (heap s !! p) ∧
     (meta_count (buf_at (heap s) p) = rc rf p ∨ meta_count (buf_at (heap s) p) = 0%Z)).
Record inv (s : Pools) (I : list entry) (rf : gmap positive Z) : Prop := mkInv {
  i_nodup : NoDup (map e_ptr I);
  i_entries : Forall (entry_ok s rf) I;
  i_fresh : ∀ p, is_Some (heap s !! p) → (p < next_ptr s)%positive;
  i_len : ∀ p b, heap s !! p = Some b → 12 ≤ length b;
  i_owned : ∀ p, owned_ok s rf p
}.

Lemma inv_sub s I I' rf : I' ⊆+ I → inv s I rf → inv s I' rf.
Proof.
  intros Hs [H1 H2 H3 H4 H5]. split; try done.
  - apply submseteq_Permutation in Hs as (k & Hp).
    assert (map e_ptr I ≡ₚ map e_ptr I' ++ map e_ptr k) as Hm by (by rewrite Hp, map_app).
    rewrite Hm in H1. by apply NoDup_app in H1 as (? & _).
  - apply Forall_forall. intros e He. rewrite Forall_forall in H2. apply H2.
    by eapply elem_of_submseteq.
Qed.
(** Only the sizes, the store and the next pointer matter. *)
Lemma inv_pools s s' I rf :
  heap s' = heap s → next_ptr s' = next_ptr s → sizes_of s' = sizes_of s → inv s I rf → inv s' I rf.
Proof.
  intros Hh Hn Hz [H1 H2 H3 H4 H5]. split; rewrite ?Hh, ?Hn; try done.
  - eapply Forall_impl; [exact H2|]. intros e. unfold entry_ok, roomy. by rewrite Hh, Hz.
  - intros p. specialize (H5 p). unfold owned_ok in *. by rewrite Hh.
Qed.

Lemma buf_at_upd p f s q :
  f [] = [] → buf_at (heap (upd p f s)) q = if decide (p = q) then f (buf_at (heap s) q) else buf_at (heap s) q.
Proof.
  intros Hf. unfold buf_at, upd, set_heap. cbn [heap]. case_decide as E.
  - subst. rewrite lookup_alter_eq. by destruct (heap s !! q).
  - by rewrite lookup_alter_ne.
Qed.
Lemma upd_lookup p f s q b' :
  heap (upd p f s) !! q = Some b' →
  ∃ b, heap s !! q = Some b ∧ b' = (if decide (p = q) then f b else b).
Proof.
  unfold upd, set_heap. cbn [heap]. case_decide as E.
  - subst. rewrite lookup_alter_eq. intros (b & ? & ->)%fmap_Some. eauto.
  - rewrite lookup_alter_ne by done. eauto.
Qed.
Lemma upd_is_Some p f s q : is_Some (heap (upd p f s) !! q) ↔ is_Some (heap s !! q).
Proof.
  unfold upd, set_heap. cbn [heap]. destruct (decide (p = q)) as [->|].
  - rewrite lookup_alter_eq, fmap_is_Some. done.
  - by rewrite lookup_alter_ne.
Qed.
Lemma buf_at_Some h p b : h !! p = Some b → buf_at h p = b.
Proof. unfold buf_at. by intros ->. Qed.

Lemma roomy_upd p f s k q : (∀ b, length (f b) = length b) → roomy s k q → roomy (upd p f s) k q.
Proof.
  intros Hf (sz & b & H1 & H2 & H3). unfold roomy. exists sz.
  unfold upd, set_heap, sizes_of in *. cbn [heap pools]. destruct (decide (p = q)) as [->|].
  - exists (f b). rewrite lookup_alter_eq, H2. by rewrite Hf.
  - exists b. by rewrite lookup_alter_ne.
Qed.

(** A step that changes the buffer [p] and the references to it. *)
Lemma inv_upd s I rf p f I' r :
  inv s I rf → (∀ b, length (f b) = length b) →
  (I' ≡ₚ I) ∨ (∃ e, (I' ≡ₚ e :: I) ∧ e_ptr e = p ∧ roomy s (e_pool e) p ∧ (p ∉ map e_ptr I) ∧
                (e_zero e = true → meta_count (f (buf_at (heap s) p)) = 0%Z) ∧ r = 0%Z) →
  (r ≠ 0%Z → p ∉ map e_ptr I) →
  (∀ e, e ∈ I → e_ptr e = p → e_zero e = true → meta_count (f (buf_at (heap s) p)) = 0%Z) →
  (0 ≤ r ≤ 65535)%Z →
  ((0 < r)%Z → is_Some (heap s !! p) ∧
     (meta_count (f (buf_at (heap s) p)) = r ∨ meta_count (f (buf_at (heap s) p)) = 0%Z)) →
  inv (upd p f s) I' (<[p := r]> rf).
Proof.
  intros [H1 H2 H3 H4 H5] Hf HI Hr Hz Hb Hc.
  assert (f [] = []) as Hf0 by (apply nil_length_inv; by rewrite Hf).
  assert (∀ e, e ∈ I → entry_ok (upd p f s) (<[p:=r]> rf) e) as Hok.
  { intros e He. rewrite Forall_forall in H2. destruct (H2 e He) as (Ha & Hb' & Hc').
    split_and!; [by apply roomy_upd| |].
    - unfold rc. destruct (decide (p = e_ptr e)) as [->|].
      + rewrite lookup_insert_eq. simpl. destruct (decide (r = 0%Z)) as [|Hn]; [done|].
        destruct (Hr Hn). apply list_elem_of_fmap. eauto.
      + rewrite lookup_insert_ne by done. done.
    - intros Ez. rewrite buf_at_upd by done. case_decide as E; [subst|by apply Hc'].
      by eapply Hz. }
  split.
  - destruct HI as [->|(e & -> & <- & _ & Hn & _)]; [done|]. by apply NoDup_cons.
  - destruct HI as [->|(e & -> & <- & Hy & Hn & Hez & ->)].
    + apply Forall_forall. done.
    + apply Forall_cons. split; [|by apply Forall_forall]. split_and!.
      * by apply roomy_upd.
      * unfold rc. by rewrite lookup_insert_eq.
      * intros Ez. rewrite buf_at_upd by done. rewrite decide_True by done. by apply Hez.
  - intros q Hq. apply upd_is_Some in Hq. by apply H3.
  - intros q b' Hq. apply upd_lookup in Hq as (b & Hb' & ->). apply H4 in Hb'.
    case_decide; by rewrite ?Hf.
  - intros q. unfold owned_ok, rc. destruct (decide (p = q)) as [->|].
    + rewrite lookup_insert_eq. cbn [default from_option id]. split; [done|]. intros Hp. destruct (Hc Hp).
      rewrite upd_is_Some, buf_at_upd, decide_True by done. done.
    + rewrite lookup_insert_ne by done. destruct (H5 q) as [Ho1 Ho2]. split; [done|].
      intros Hp. rewrite upd_is_Some, buf_at_upd, decide_False by done. by apply Ho2.
Qed.

(** A new buffer. *)
Lemma inv_alloc s I rf b I' r :
  inv s I rf → 12 ≤ length b → meta_count b = 0%Z →
  (r = 0%Z ∨ r = 1%Z) →
  (I' ≡ₚ I) ∨ (r = 0%Z ∧ ∃ e sz, (I' ≡ₚ e :: I) ∧ e_ptr e = next_ptr s ∧ sizes_of s !! e_pool e = Some sz ∧ sz + 12 ≤ length b) →
  inv (alloc b s).2 I' (<[next_ptr s := r]> rf).
Proof.
  intros [H1 H2 H3 H4 H5] Hl Hz Hr HI. set (p := next_ptr s).
  assert (heap s !! p = None) as Hp.
  { destruct (heap s !! p) eqn:E; [|done]. assert (is_Some (heap s !! p)) as Hs by eauto.
    apply H3 in Hs. unfold p in Hs. lia. }
  assert (∀ e, e ∈ I → e_ptr e ≠ p) as Hne.
  { intros e He Ep. rewrite Forall_forall in H2. destruct (H2 e He) as ((sz & b' & _ & Hb & _) & _).
    rewrite Ep, Hp in Hb. done. }
  assert (p ∉ map e_ptr I) as Hni by (intros (e & Ep & He)%list_elem_of_fmap; by apply (Hne e)).
  assert (∀ e, e ∈ I → entry_ok (alloc b s).2 (<[p:=r]> rf) e) as Hok.
  { intros e He. pose proof (Hne e He). rewrite Forall_forall in H2. destruct (H2 e He) as ((sz & b' & Ha1 & Ha2 & Ha3) & Hb' & Hc').
    unfold alloc, entry_ok, roomy, rc, buf_at, sizes_of in *. cbn [snd heap pools]. fold p.
    rewrite !lookup_insert_ne by done. eauto 10. }
  split.
  - destruct HI as [->|(_ & e & sz & -> & Ep & _)]; [done|]. cbn [map]. rewrite Ep. by apply NoDup_cons.
  - destruct HI as [->|(-> & e & sz & -> & Ep & Hsz & Hlen)]; [by apply Forall_forall|].
    apply Forall_cons. split; [|by apply Forall_forall].
    unfold alloc, entry_ok, roomy, rc, buf_at, sizes_of in *. cbn [snd heap pools]. rewrite Ep.
    rewrite !lookup_insert_eq. simpl. eauto 10.
  - unfold alloc. cbn [snd heap next_ptr]. intros q. destruct (decide (p = q)) as [E|]; [subst p; lia|].
    rewrite lookup_insert_ne by done. intros Hq%H3. subst p. lia.
  - unfold alloc. cbn [snd heap]. intros q b'. intros [[_ ->]|[_ Hq]]%lookup_insert_Some; [done|by eapply H4].
  - intros q. unfold owned_ok, rc, alloc, buf_at. cbn [snd heap]. destruct (decide (p = q)) as [<-|].
    + fold p. rewrite !lookup_insert_eq. simpl. rewrite Hz. split; [destruct Hr; subst; lia|]. eauto.
    + fold p. rewrite !lookup_insert_ne by done. apply (H5 q).
Qed.

(** ** Steps *)
Lemma find_pool_spec f l i k x : find_pool f l i = Some (k, x) → i ≤ k ∧ l !! (k - i) = Some x ∧ f x = true.
Proof.
  revert i. induction l as [|y l IH]; intros i; simpl; [done|].
  destruct (f y) eqn:E.
  - intros [= -> ->]. rewrite Nat.sub_diag. done.
  - intros (H1 & H2 & H3)%IH. split; [lia|]. split; [|done].
    replace (k - i) with (S (k - S i)) by lia. done.
Qed.
Lemma pool_for_spec n s k x : pool_for n s = Some (k, x) → pools s !! k = Some x ∧ n ≤ mp_size x.
Proof.
  intros (_ & H & Hn)%find_pool_spec. rewrite Nat.sub_0_r in H. apply Nat.leb_le in Hn. done.
Qed.
Lemma pool_of_cap_spec c s k x :
  pool_of_cap c s = Some (k, x) → pools s !! k = Some x ∧ c = mp_size x + 12.
Proof.
  intros (_ & H & Hn)%find_pool_spec. rewrite Nat.sub_0_r in H. apply Nat.eqb_eq in Hn. done.
Qed.

Lemma free_alter l i k x :
  l !! k = Some x → ∃ rest, ∀ f,
    free_entries i (alter f k l) ≡ₚ map (λ p, mkEntry (i + k) p true) (mp_pool (f x)) ++ rest.
Proof.
  revert i k. induction l as [|y l IH]; intros i [|k]; simpl; try done.
  - intros [= ->]. rewrite Nat.add_0_r. by exists (free_entries (S i) l).
  - intros (rest & Hr)%(IH (S i)). exists (map (λ p, mkEntry i p true) (mp_pool y) ++ rest).
    intros f. rewrite (Hr f). rewrite Nat.add_succ_comm, Permutation_app_swap_app. done.
Qed.
Lemma alter_id_list {A} (k : nat) (l : list A) : alter (λ x, x) k l = l.
Proof.
  apply list_eq. intros j. destruct (decide (k = j)) as [->|].
  - rewrite list_lookup_alter_eq. by destruct (l !! j).
  - by rewrite list_lookup_alter_ne.
Qed.
Lemma free_upd_pool s k x :
  pools s !! k = Some x → ∃ rest,
    free_entries 0 (pools s) ≡ₚ map (λ p, mkEntry k p true) (mp_pool x) ++ rest ∧
    ∀ f, free_entries 0 (pools (upd_pool k f s)) ≡ₚ map (λ p, mkEntry k p true) (mp_pool (f x)) ++ rest.
Proof.
  intros (rest & Hr)%(free_alter _ 0). exists rest. split; [|exact Hr].
  rewrite <-(Hr (λ x, x)), alter_id_list. done.
Qed.
Lemma free_same f s k :
  (∀ x, mp_pool (f x) = mp_pool x) → free_entries 0 (pools (upd_pool k f s)) = free_entries 0 (pools s).
Proof.
  intros Hf. unfold upd_pool. cbn [pools]. generalize 0. generalize (pools s). clear s. intros l. revert k.
  induction l as [|y l IH]; intros [|k] i; simpl; try done; [by rewrite Hf|by rewrite (IH k)].
Qed.
Lemma sizes_upd_pool f s k : (∀ x, mp_size (f x) = mp_size x) → sizes_of (upd_pool k f s) = sizes_of s.
Proof.
  intros Hf. unfold upd_pool, sizes_of. cbn [pools]. apply list_eq. intros j. rewrite !list_lookup_fmap.
  destruct (decide (k = j)) as [->|].
  - rewrite list_lookup_alter_eq. destruct (pools s !! j); simpl; by rewrite ?Hf.
  - by rewrite list_lookup_alter_ne.
Qed.
Lemma sizes_lookup s k x : pools s !! k = Some x → sizes_of s !! k = Some (mp_size x).
Proof. unfold sizes_of. intros H. rewrite list_lookup_fmap, H. done. Qed.
Lemma upd_upd p f g s : upd p g (upd p f s) = upd p (λ b, g (f b)) s.
Proof.
  unfold upd, set_heap. cbn [heap next_ptr pools]. f_equal. apply map_eq. intros q.
  destruct (decide (p = q)) as [->|].
  - rewrite !lookup_alter_eq. by destruct (heap s !! q).
  - by rewrite !lookup_alter_ne.
Qed.
Lemma inv_upd_pool f s k I rf :
  (∀ x, mp_size (f x) = mp_size x) → inv s I rf → inv (upd_pool k f s) I rf.
Proof. intros. apply (inv_pools s); try done. by apply sizes_upd_pool. Qed.
Lemma inv_rc s I rf rf' : (∀ p, rc rf' p = rc rf p) → inv s I rf → inv s I rf'.
Proof.
  intros Hr [H1 H2 H3 H4 H5]. split; try done.
  - eapply Forall_impl; [exact H2|]. intros e. unfold entry_ok. by rewrite Hr.
  - intros p. specialize (H5 p). unfold owned_ok in *. by rewrite Hr.
Qed.
Lemma rc_insert_same rf p r : rc rf p = r → ∀ q, rc rf q = rc (<[p:=r]> rf) q.
Proof.
  intros Hr q. unfold rc. destruct (decide (p = q)) as [->|].
  - by rewrite lookup_insert_eq.
  - by rewrite lookup_insert_ne.
Qed.

(** The buffer [e] is idle: it is nobody's. *)
Lemma inv_entry s I rf e :
  inv s I rf → e ∈ I → entry_ok s rf e.
Proof. intros [_ H _ _ _]. rewrite Forall_forall in H. apply H. Qed.
Lemma inv_owned_idle s I rf p : inv s I rf → (0 < rc rf p)%Z → p ∉ map e_ptr I.
Proof.
  intros Hi Hp (e & -> & He)%list_elem_of_fmap. destruct (inv_entry _ _ _ _ Hi He) as (_ & Hr & _).
  unfold rc in *. lia.
Qed.
Lemma inv_buf s I rf p :
  inv s I rf → is_Some (heap s !! p) → heap s !! p = Some (buf_at (heap s) p) ∧ 12 ≤ length (buf_at (heap s) p).
Proof.
  intros Hi (b & Hb). rewrite (buf_at_Some _ _ _ Hb). split; [done|]. by eapply i_len.
Qed.

(** A step on a buffer that its owner holds. *)
Lemma inv_upd_owned s I rf p f r :
  inv s I rf → (0 < rc rf p)%Z → (∀ b, length (f b) = length b) →
  (0 ≤ r ≤ 65535)%Z →
  (meta_count (f (buf_at (heap s) p)) = r ∨ meta_count (f (buf_at (heap s) p)) = 0%Z) →
  inv (upd p f s) I (<[p := r]> rf).
Proof.
  intros Hi Hp Hf Hr Hc. apply (inv_upd s I rf p f I r Hi Hf); try done.
  - by left.
  - intros _. by eapply inv_owned_idle.
  - intros e He <- _. destruct (inv_owned_idle _ _ _ _ Hi Hp). by apply list_elem_of_fmap_2.
  - intros _. split; [|done]. apply (i_owned _ _ _ Hi p). done.
Qed.

Lemma pool_Get_inv s k x pd rf n tag :
  inv s (idle s pd) rf → pools s !! k = Some x →
  inv (pool_Get k x s).2 (idle (pool_Get k x s).2 (pd ++ [PGet k (pool_Get k x s).1 n tag])) rf ∧
  sizes_of (pool_Get k x s).2 = sizes_of s.
Proof.
  intros Hi Hk. destruct (free_upd_pool s k x Hk) as (rest & Hr1 & Hr2).
  unfold pool_Get. destruct (last (mp_pool x)) as [p|] eqn:El; cbn [fst snd].
  - split; [|by apply sizes_upd_pool]. apply inv_upd_pool; [done|].
    eapply inv_sub; [|exact Hi]. unfold idle. rewrite Hr2. cbn [set_pool mp_pool].
    apply Permutation_submseteq. apply last_Some in El as (l & El).
    rewrite Hr1, El, removelast_last, !map_app. cbn [map pend_entry].
    set (l1 := map _ l). set (l2 := map _ pd). clearbody l1 l2.
    rewrite <-!app_assoc. apply Permutation_app_head. rewrite (Permutation_app_comm [_]).
    by rewrite <-app_assoc.
  - assert (mp_pool x = []) as Hx by (by apply last_None).
    set (f := λ _ : messagePool, _ : messagePool).
    assert (sizes_of (upd_pool k f s) = sizes_of s) as Hsz.
    { unfold upd_pool, sizes_of. cbn [pools]. apply list_eq. intros j. rewrite !list_lookup_fmap.
      destruct (decide (k = j)) as [<-|].
      - rewrite list_lookup_alter_eq, Hk. done.
      - by rewrite list_lookup_alter_ne. }
    set (id := u64 _). set (b := new_message _ _).
    assert (free_entries 0 (pools (upd_pool k f s)) ≡ₚ free_entries 0 (pools s)) as Hfree.
    { rewrite Hr1, Hr2. unfold f. cbn [mp_pool]. by rewrite Hx. }
    split; [|exact Hsz].
    apply (inv_rc _ _ (<[next_ptr s := 0%Z]> rf)).
    { apply rc_insert_same. destruct (i_owned _ _ _ Hi (next_ptr s)) as [Ho1 Ho2].
      destruct (decide (0 < rc rf (next_ptr s))%Z) as [Hp|]; [|lia].
      apply Ho2 in Hp as [Hp _]. apply (i_fresh _ _ _ Hi) in Hp. lia. }
    apply (inv_alloc (upd_pool k f s) (idle s pd) rf b).
    + by apply (inv_pools s).
    + unfold b. rewrite new_message_length. lia.
    + apply new_message_count.
    + by left.
    + right. split; [done|]. exists (mkEntry k (next_ptr s) true), (mp_size x). split_and!.
      * unfold idle, alloc. cbn [snd pools]. rewrite Hfree, map_app. cbn [map pend_entry fst].
        rewrite app_assoc. symmetry. apply Permutation_cons_append.
      * done.
      * rewrite Hsz. by apply sizes_lookup.
      * unfold b. by rewrite new_message_length.
Qed.

Lemma take_message_val k p tag s :
  12 ≤ length (buf_at (heap s) p) → meta_count (buf_at (heap s) p) = 0%Z →
  ∃ f, take_message k p tag s = Val (upd_pool k f (upd p (λ b, put_count 1 (put_tag tag b)) s)) ∧
    (∀ x, mp_size (f x) = mp_size x) ∧ (∀ x, mp_pool (f x) = mp_pool x).
Proof.
  intros Hl Hc. unfold take_message. rewrite bool_decide_eq_false_2 by (rewrite Hc; by intros []).
  set (f := λ x : messagePool, _). exists f. rewrite <-(upd_upd p (put_tag tag) (put_count 1)). by split_and!.
Qed.
Lemma put_count_length n b : length (put_count n b) = length b.
Proof. apply copy_at_length. Qed.
Lemma put_tag_length n b : length (put_tag n b) = length b.
Proof. apply copy_at_length. Qed.
Lemma put_flags_length n b : length (put_flags n b) = length b.
Proof. apply copy_at_length. Qed.
Create Rewrite HintDb msg.
#[local] Hint Rewrite put_count_length put_tag_length put_flags_length put_tag_count put_flags_count : msg.

Definition need (s : Pools) (x : pending) : Prop :=
  match x with PGet k _ n _ => ∃ sz, sizes_of s !! k = Some sz ∧ n ≤ sz | PPut _ _ => True end.
Definition ginv (g : Owners) : Prop :=
  inv (st g) (idle (st g) (pend g)) (refs g) ∧ Forall (need (st g)) (pend g).
Lemma need_sizes s s' pd : sizes_of s' = sizes_of s → Forall (need s) pd → Forall (need s') pd.
Proof. intros Hs H. eapply Forall_impl; [exact H|]. intros [k p n t|k p]; unfold need; by rewrite ?Hs. Qed.

Lemma new_ginv sizes : ginv (newOwners sizes).
Proof.
  split; [|constructor]. assert (idle (newPools sizes) [] = []) as HI.
  { unfold idle, newPools. cbn [pools]. generalize 0. induction sizes as [|y l IH]; intros i; simpl; [done|].
    apply (IH (S i)). }
  unfold newOwners. cbn [st pend refs]. rewrite HI. split.
  - constructor.
  - constructor.
  - intros p [b Hb]. cbn in Hb. by rewrite lookup_empty in Hb.
  - intros p b Hb. cbn in Hb. by rewrite lookup_empty in Hb.
  - intros p. unfold owned_ok, rc. rewrite lookup_empty. simpl. split; [lia|]. intros. lia.
Qed.

Lemma idle_take s pd j x :
  pd !! j = Some x → idle s pd ≡ₚ pend_entry x :: idle s (delete j pd).
Proof.
  intros Hj. unfold idle. rewrite (delete_Permutation pd j x Hj) at 1. cbn [map].
  symmetry. apply Permutation_middle.
Qed.
Lemma need_delete s pd j : Forall (need s) pd → Forall (need s) (delete j pd).
Proof. apply Forall_delete. Qed.

(** One pending half is done: its buffer is no longer idle. *)
Lemma inv_take s pd j x rf :
  inv s (idle s pd) rf → pd !! j = Some x →
  inv s (idle s (delete j pd)) rf ∧ entry_ok s rf (pend_entry x) ∧
  pend_ptr x ∉ map e_ptr (idle s (delete j pd)).
Proof.
  intros Hi Hj. pose proof (idle_take s pd j x Hj) as HI. split_and!.
  - eapply inv_sub; [|exact Hi]. rewrite HI. by apply submseteq_cons.
  - eapply inv_entry; [exact Hi|]. rewrite HI. apply list_elem_of_here.
  - pose proof (i_nodup _ _ _ Hi) as Hn. rewrite HI in Hn. cbn [map] in Hn.
    apply NoDup_cons in Hn as [Hn _]. by destruct x.
Qed.

Lemma step_take j k p n tag g :
  ginv g → pend g !! j = Some (PGet k p n tag) →
  ∃ s', take_message k p tag (st g) = Val s' ∧
    ginv (mkOwners s' (delete j (pend g)) (add_ref p 1 (refs g))).
Proof.
  intros [Hi Hn] Hj. destruct (inv_take _ _ _ _ _ Hi Hj) as (Hi' & ((sz & b & Hsz & Hb & Hlen) & Hr & Hz) & Hp).
  cbn [pend_entry e_ptr e_pool e_zero pend_ptr] in *. specialize (Hz eq_refl).
  pose proof (buf_at_Some _ _ _ Hb) as Eb.
  destruct (take_message_val k p tag (st g)) as (f & -> & Hf1 & Hf2); [rewrite Eb; lia|done|].
  eexists. split; [done|]. split.
  - cbn [st pend refs]. unfold idle. rewrite free_same by done. apply inv_upd_pool; [done|].
    unfold add_ref. fold (rc (refs g) p). rewrite Hr.
    apply (inv_upd _ _ _ p _ _ _ Hi'); try done.
    + intros c. by autorewrite with msg.
    + by left.
    + intros e He <-. destruct Hp. by apply list_elem_of_fmap_2.
    + intros _. split; [by eexists|]. left. apply meta_count_put; [|done].
      autorewrite with msg. rewrite Eb. lia.
  - cbn [st pend]. apply (need_sizes (st g)); [by rewrite sizes_upd_pool|]. by apply need_delete.
Qed.

Lemma upd_id p s : upd p (λ b, b) s = s.
Proof.
  destruct s as [h np ps]. unfold upd, set_heap. cbn [heap next_ptr pools]. f_equal.
  apply map_eq. intros q. destruct (decide (p = q)) as [->|].
  - rewrite lookup_alter_eq. by destruct (h !! q).
  - by rewrite lookup_alter_ne.
Qed.
Lemma in_message_count m i d s :
  in_message (heap s) m = true →
  meta_count (copy_at (sl_off m + i) (take (sl_len m - i) d) (buf_at (heap s) (sl_ptr m))) =
  meta_count (buf_at (heap s) (sl_ptr m)).
Proof.
  unfold in_message. intros H%Nat.leb_le. destruct (decide (i < sl_len m)).
  - apply meta_count_before. rewrite length_take. lia.
  - replace (sl_len m - i) with 0 by lia. done.
Qed.

Lemma step_share m k x g :
  ginv g → (0 < refs_of g (sl_ptr m) < 65535)%Z →
  pool_of_cap (slice_cap (heap (st g)) m) (st g) = Some (k, x) →
  ginv (mkOwners (MessagePoolShareReadOnly m (st g)) (pend g) (add_ref (sl_ptr m) 1 (refs g))).
Proof.
  intros [Hi Hn] Hr Hc. unfold MessagePoolShareReadOnly. rewrite Hc. unfold share.
  set (p := sl_ptr m) in *. unfold refs_of in Hr. fold (rc (refs g) p) in Hr.
  destruct (i_owned _ _ _ Hi p) as [_ Ho]. destruct (Ho ltac:(lia)) as [Hs Hct].
  destruct (inv_buf _ _ _ _ Hi Hs) as [Hb Hl].
  unfold add_ref. fold (rc (refs g) p). case_bool_decide as E.
  - split; [|done]. cbn [st pend refs].
    pose proof (inv_upd_owned (st g) _ _ p (λ b, b) (rc (refs g) p + 1)%Z Hi) as H.
    rewrite upd_id in H. apply H; [lia|done|lia|by right].
  - split; [|done]. cbn [st pend refs]. destruct Hct as [Hct|]; [|done].
    apply (inv_upd_owned _ _ _ _ _ _ Hi); [lia| |lia|].
    + intros b. by autorewrite with msg.
    + left. autorewrite with msg. rewrite meta_count_put by (try lia; apply u16_range).
      rewrite Hct. apply u16_small. unfold is_u16. lia.
Qed.

Lemma step_return m k x g :
  ginv g → (0 < refs_of g (sl_ptr m))%Z →
  pool_of_cap (slice_cap (heap (st g)) m) (st g) = Some (k, x) →
  ginv (mkOwners (return_check k (sl_ptr m) (st g)).2
    (if (return_check k (sl_ptr m) (st g)).1 then pend g ++ [PPut k (sl_ptr m)] else pend g)
    (add_ref (sl_ptr m) (-1) (refs g))).
Proof.
  intros [Hi Hn] Hr [Hk Hcap]%pool_of_cap_spec. set (p := sl_ptr m) in *.
  unfold refs_of in Hr. fold (rc (refs g) p) in Hr.
  destruct (i_owned _ _ _ Hi p) as [Hrange Ho]. destruct (Ho Hr) as [Hs Hct].
  destruct (inv_buf _ _ _ _ Hi Hs) as [Hb Hl].
  unfold return_check, add_ref. fold (rc (refs g) p).
  set (b := buf_at (heap (st g)) p) in *. case_bool_decide as E0; [|case_bool_decide as E1].
  - split; [|done]. cbn [st pend refs fst snd]. rewrite <-(upd_id p (st g)).
    apply (inv_upd_owned _ _ _ _ _ _ Hi); [done|done|lia|by right].
  - cbn [fst snd]. set (f := λ x : messagePool, _).
    assert (rc (refs g) p = 1%Z) as Hr1 by (destruct Hct; congruence). rewrite Hr1.
    split; cbn [st pend refs].
    + unfold idle. rewrite free_same by done. apply inv_upd_pool; [done|].
      rewrite <-(upd_id p (st g)).
      apply (inv_upd _ _ _ p _ _ _ Hi); try done.
      * right. exists (mkEntry k p false). split_and!; try done.
        -- rewrite upd_id. unfold idle. rewrite map_app, app_assoc. cbn [map pend_entry].
           symmetry. apply Permutation_cons_append.
        -- exists (mp_size x), b. cbn [e_pool]. split_and!; [by apply sizes_lookup|done|].
           unfold slice_cap in Hcap. fold p b in Hcap. lia.
        -- eapply inv_owned_idle; [exact Hi|lia].
      * intros e He Ep. exfalso. apply (inv_owned_idle _ _ _ p Hi); [lia|]. rewrite <-Ep.
        by apply list_elem_of_fmap_2.
    + apply Forall_app. split; [|by constructor]. apply (need_sizes (st g)); [by apply sizes_upd_pool|done].
  - cbn [fst snd]. destruct Hct as [Hct|]; [|done]. split; [|done]. cbn [st pend refs].
    apply (inv_upd_owned _ _ _ _ _ _ Hi); [done| |lia|].
    + intros c. by autorewrite with msg.
    + left. fold b. rewrite meta_count_put by (try lia; apply u16_range).
      rewrite Hct. rewrite u16_small; [lia|]. unfold is_u16. lia.
Qed.

Lemma step_put j k p g :
  ginv g → pend g !! j = Some (PPut k p) →
  ginv (mkOwners (return_put k p (st g)) (delete j (pend g)) (refs g)).
Proof.
  intros [Hi Hn] Hj. destruct (inv_take _ _ _ _ _ Hi Hj) as (Hi' & ((sz & b & Hsz & Hb & Hlen) & Hr & _) & Hp).
  cbn [pend_entry e_ptr e_pool e_zero pend_ptr] in *.
  unfold return_put. set (F := λ b, put_count 0 _).
  assert (∀ x, mp_size (pool_Put p x) = mp_size x) as Hps by (intros x; unfold pool_Put; by case_bool).
  assert (∃ x, pools (st g) !! k = Some x) as [x Hk].
  { unfold sizes_of in Hsz. apply list_lookup_fmap_Some in Hsz as (x & -> & Hk). eauto. }
  split; cbn [st pend refs].
  - apply (inv_rc _ _ (<[p:=0%Z]> (refs g))); [by apply rc_insert_same|].
    apply inv_upd_pool; [done|].
    assert (inv (upd p F (st g)) (mkEntry k p true :: idle (st g) (delete j (pend g))) (<[p:=0%Z]> (refs g))) as H.
    { assert (meta_count (F (buf_at (heap (st g)) p)) = 0%Z) as Hz.
      { unfold F. apply meta_count_put; [|done]. autorewrite with msg.
        rewrite (buf_at_Some _ _ _ Hb). lia. }
      apply (inv_upd _ _ _ p _ _ _ Hi'); try done.
      - intros c. unfold F. by autorewrite with msg.
      - right. exists (mkEntry k p true). split_and!; try done. exists sz, b. done. }
    eapply inv_sub; [|exact H]. unfold idle.
    destruct (free_upd_pool (upd p F (st g)) k x Hk) as (rest & Hr1 & Hr2).
    rewrite Hr2. change (pools (upd p F (st g))) with (pools (st g)) in Hr1. rewrite Hr1.
    set (l2 := map pend_entry _). clearbody l2. unfold pool_Put. case_bool.
    + cbn [set_pool mp_pool]. rewrite map_app. set (l1 := map _ (mp_pool x)). clearbody l1. cbn [map].
      rewrite <-!app_assoc. cbn [app]. apply Permutation_submseteq. symmetry. apply Permutation_middle.
    + apply submseteq_cons. done.
  - apply (need_sizes (st g)); [by rewrite sizes_upd_pool|]. by apply need_delete.
Qed.

Lemma free_map_sub (f : messagePool → messagePool) l i :
  (∀ x, mp_pool (f x) ⊆+ mp_pool x) → free_entries i (map f l) ⊆+ free_entries i l.
Proof.
  intros Hf. revert i. induction l as [|x l IH]; intros i; simpl; [done|].
  apply submseteq_app; [|apply IH]. by apply fmap_submseteq.
Qed.
Lemma step_pools (f : messagePool → messagePool) g :
  (∀ x, mp_pool (f x) ⊆+ mp_pool x) → (∀ x, mp_size (f x) = mp_size x) → ginv g →
  ginv (mkOwners (mkPools (heap (st g)) (next_ptr (st g)) (map f (pools (st g)))) (pend g) (refs g)).
Proof.
  intros Hf Hz [Hi Hn].
  assert (map mp_size (map f (pools (st g))) = map mp_size (pools (st g))) as Hs.
  { rewrite map_map. by apply map_ext. }
  split; cbn [st pend refs].
  - apply (inv_pools (st g)); try done. eapply inv_sub; [|exact Hi].
    unfold idle. cbn [pools]. apply submseteq_app; [|done]. by apply free_map_sub.
  - by apply (need_sizes (st g)).
Qed.

Lemma gstep_inv l g : ginv g → ∀ r, gstep l g = Some r → ∃ g', r = Val g' ∧ ginv g'.
Proof.
  intros Hg r. destruct l as [n tag|j|m i d|m|m|j|n| |]; cbn [gstep].
  - destruct (pool_for n (st g)) as [[k x]|] eqn:Ep.
    + apply pool_for_spec in Ep as [Hk Hn]. destruct Hg as [Hi Hne].
      destruct (pool_Get_inv (st g) k x (pend g) (refs g) n tag Hi Hk) as [Hi' Hs].
      destruct (pool_Get k x (st g)) as [p s1]. cbn [fst snd] in *. intros [= <-]. eexists. split; [done|].
      split; [done|]. cbn [st pend]. apply Forall_app. split; [by apply (need_sizes (st g))|].
      constructor; [|done]. exists (mp_size x). split; [|done]. rewrite Hs. by apply sizes_lookup.
    + cbn [alloc]. intros [= <-]. eexists. split; [done|]. destruct Hg as [Hi Hn].
      split; [|done]. cbn [st pend refs].
      destruct (i_owned _ _ _ Hi (next_ptr (st g))) as [Ho1 Ho2].
      assert (add_ref (next_ptr (st g)) 1 (refs g) = <[next_ptr (st g) := 1%Z]> (refs g)) as ->.
      { unfold add_ref. f_equal. fold (rc (refs g) (next_ptr (st g))).
        destruct (decide (0 < rc (refs g) (next_ptr (st g)))%Z) as [Hp|]; [|lia].
        apply Ho2 in Hp as [Hp _]. apply (i_fresh _ _ _ Hi) in Hp. lia. }
      apply (inv_alloc _ _ _ _ _ _ Hi).
      * rewrite length_replicate. unfold MessagePoolMetaByteCount. lia.
      * apply zeros_count.
      * by right.
      * by left.
  - destruct (pend g !! j) as [[k p n tag|]|] eqn:Ej; [|done..]. intros [= <-].
    destruct (step_take j k p n tag g Hg Ej) as (s' & -> & H). eexists. split; [done|]. done.
  - destruct (_ && _) eqn:Eb; [|done]. apply andb_true_iff in Eb as [H1 H2]. apply Z.ltb_lt in H1.
    intros [= <-]. eexists. split; [done|]. destruct Hg as [Hi Hn]. split; [|done]. cbn [st pend refs].
    unfold refs_of in H1. fold (rc (refs g) (sl_ptr m)) in H1.
    destruct (i_owned _ _ _ Hi (sl_ptr m)) as [Ho1 Ho2]. destruct (Ho2 H1) as [Hs Hc].
    apply (inv_rc _ _ (<[sl_ptr m := rc (refs g) (sl_ptr m)]> (refs g))); [by apply rc_insert_same|].
    unfold write_slice. apply (inv_upd_owned _ _ _ _ _ _ Hi); [done| |done|].
    + intros b. apply copy_at_length.
    + by rewrite in_message_count.
  - destruct (_ && _) eqn:Eb; [|done]. apply andb_true_iff in Eb as [H1%Z.ltb_lt H2%Z.ltb_lt].
    destruct (pool_of_cap _ _) as [[k x]|] eqn:Ep; intros [= <-]; eexists; (split; [done|]); [|done].
    by eapply step_share.
  - destruct (Z.ltb_spec 0 (refs_of g (sl_ptr m))) as [H1|]; [|done].
    destruct (pool_of_cap _ _) as [[k x]|] eqn:Ep; [|intros [= <-]; by exists g].
    pose proof (step_return m k x g Hg H1 Ep) as H. destruct (return_check _ _ _) as [r' s1].
    cbn [fst snd] in H. intros [= <-]. by eexists.
  - destruct (pend g !! j) as [[|k p]|] eqn:Ej; [done| |done]. intros [= <-]. eexists. split; [done|].
    by apply step_put.
  - intros [= <-]. eexists. split; [done|]. apply step_pools; try done. intros x.
    unfold pool_Resize. cbn [mp_pool]. apply sublist_submseteq, sublist_take.
  - intros [= <-]. eexists. split; [done|]. apply step_pools; try done. intros x. apply submseteq_nil_l.
  - intros [= <-]. eexists. split; [done|]. by apply step_pools.
Qed.
Lemma gsteps_inv ls g : ginv g → ∀ r, gsteps ls g = Some r → ∃ g', r = Val g' ∧ ginv g'.
Proof.
  revert g. induction ls as [|l ls IH]; intros g Hg r; simpl.
  - intros [= <-]. by exists g.
  - destruct (gstep l g) as [r'|] eqn:E; [|done]. destruct (gstep_inv l g Hg r' E) as (g' & -> & Hg').
    by apply IH.
Qed.

(** ** The bytes of messages stay *)
Definition store_kept (P : positive → Prop) (s s' : Pools) : Prop :=
  ∀ q b, P q → heap s !! q = Some b → ∃ b', heap s' !! q = Some b' ∧ kept (meta b) b b'.
#[export] Instance store_kept_refl P : Reflexive (store_kept P).
Proof. intros s q b _ Hq. by exists b. Qed.
Lemma same_kept P s s' : heap s' = heap s → store_kept P s s'.
Proof. intros E q b _ Hq. rewrite E. by exists b. Qed.
Lemma upd_kept (P : positive → Prop) p f s :
  (∀ b, P p → kept (meta b) b (f b)) → store_kept P s (upd p f s).
Proof.
  intros Hf q b HP Hq. unfold upd, set_heap. cbn [heap]. destruct (decide (p = q)) as [->|].
  - rewrite lookup_alter_eq, Hq. eexists. split; [done|]. by apply Hf.
  - rewrite lookup_alter_ne by done. by exists b.
Qed.
Lemma kept_comp f g b :
  (∀ b, kept (meta b) b (f b)) → (∀ b, kept (meta b) b (g b)) → kept (meta b) b (g (f b)).
Proof. intros Hf Hg. pose proof (Hg (f b)) as H. rewrite (kept_meta _ _ _ (Hf b)) in H. etrans; [apply Hf|exact H]. Qed.
Lemma gstep_kept l g g' :
  ginv g → gstep l g = Some (Val g') →
  store_kept (λ q, ∀ m i d, l = LWrite m i d → sl_ptr m ≠ q) (st g) (st g').
Proof.
  intros [Hi _]. set (P := λ q, _).
  assert (∀ b s, heap s = heap (st g) → next_ptr s = next_ptr (st g) → store_kept P (st g) (alloc b s).2) as Halloc.
  { intros b s Hs Hn q b' _ Hq. unfold alloc. cbn [snd heap]. rewrite Hs, Hn.
    assert (is_Some (heap (st g) !! q)) as Hq' by eauto. apply (i_fresh _ _ _ Hi) in Hq'.
    rewrite lookup_insert_ne by lia. by exists b'. }
  destruct l as [n tag|j|m i d|m|m|j|n| |]; cbn [gstep].
  - destruct (pool_for n (st g)) as [[k x]|].
    + unfold pool_Get. destruct (last (mp_pool x)) as [p|].
      * intros [= <-]. by apply same_kept.
      * cbn [alloc]. intros [= <-]. cbn [st]. by apply (Halloc _ (upd_pool k (λ _, _) (st g))).
    + cbn [alloc]. intros [= <-]. cbn [st]. by apply (Halloc _ (st g)).
  - destruct (pend g !! j) as [[k p n tag|]|]; [|done..]. intros E. injection E as E.
    unfold take_message in E. case_bool_decide; cbn [obind] in E; [done|]. injection E as <-. cbn [st].
    pose proof (upd_kept P p (λ b, put_count 1 (put_tag tag b)) (st g)
      (λ b _, kept_comp _ _ b (kept_put_tag tag) (kept_put_count 1))) as H'.
    rewrite <-upd_upd in H'. exact H'.
  - destruct (_ && _); [|done]. intros [= <-]. cbn [st]. apply upd_kept. intros b HP.
    by destruct (HP m i d eq_refl).
  - destruct (_ && _); [|done]. destruct (pool_of_cap _ _) as [[k x]|] eqn:Ep; intros [= <-]; [|by apply same_kept].
    cbn [st]. unfold MessagePoolShareReadOnly. rewrite Ep. unfold share. case_bool_decide; [by apply same_kept|].
    apply upd_kept. intros b _. apply (kept_comp (put_count _) (put_flags _)); auto.
  - destruct (Z.ltb_spec 0 (refs_of g (sl_ptr m))); [|done]. destruct (pool_of_cap _ _) as [[k x]|]; [|intros [= <-]; by apply same_kept].
    unfold return_check. repeat case_bool_decide; intros [= <-]; [by apply same_kept..|]. cbn [st].
    apply upd_kept. auto.
  - destruct (pend g !! j) as [[|k p]|]; [done| |done]. intros [= <-]. cbn [st]. unfold return_put.
    pose proof (upd_kept P p (λ b, put_count 0 (put_flags Byte.x00 (put_tag Byte.x00 b))) (st g)) as H'.
    apply H'. intros b _. apply (kept_comp (λ b, put_flags _ (put_tag _ b)) (put_count 0)); auto.
    intros c. apply (kept_comp (put_tag _) (put_flags _)); auto.
  - intros [= <-]. by apply same_kept.
  - intros [= <-]. by apply same_kept.
  - intros [= <-]. by apply same_kept.
Qed.

(** ** One goroutine at a time

    What a caller that holds no half done operation gets from the operations:
    the code of other components is proved against these lemmas. *)
Definition pools_ok (s : Pools) (rf : gmap positive Z) : Prop := ginv (mkOwners s [] rf).
Definition slice_ok (s : Pools) (m : Slice) : Prop :=
  is_Some (heap s !! sl_ptr m) ∧ in_message (heap s) m = true.

Lemma new_pools_ok sizes : pools_ok (newPools sizes) ∅.
Proof. apply new_ginv. Qed.

Lemma pending_get j k p n tag g :
  ginv g → pend g !! j = Some (PGet k p n tag) →
  refs_of g p = 0%Z ∧
  ∃ s' x, take_message k p tag (st g) = Val s' ∧ pools (st g) !! k = Some x ∧
    base_off (mp_size x) (buf_at (heap s') p) = base_off (mp_size x) (buf_at (heap (st g)) p) ∧
    let m := mkSlice p (base_off (mp_size x) (buf_at (heap s') p)) n in
    slice_ok s' m ∧ slice_cap (heap s') m = mp_size x + MessagePoolMetaByteCount.
Proof.
  intros [Hi Hn] Hj.
  destruct (inv_take _ _ _ _ _ Hi Hj) as (_ & ((sz & b & Hsz & Hb & Hlen) & Hr & Hz) & _).
  cbn [pend_entry e_ptr e_pool e_zero] in *. specialize (Hz eq_refl). split; [done|].
  rewrite Forall_forall in Hn. pose proof (Hn _ (list_elem_of_lookup_2 _ _ _ Hj)) as (sz' & Hsz' & Hle).
  assert (sz' = sz) as -> by congruence.
  destruct (take_message_val k p tag (st g)) as (f & -> & _); [rewrite (buf_at_Some _ _ _ Hb); lia|done|].
  apply list_lookup_fmap_Some in Hsz as (x & -> & Hk). eexists _, x. split; [done|]. split; [done|].
  set (h' := heap _).
  assert (h' !! p = Some (put_count 1 (put_tag tag b))) as Hb'.
  { unfold h'. cbn [upd_pool upd set_heap heap]. by rewrite lookup_alter_eq, Hb. }
  assert (length (buf_at h' p) = length b) as El.
  { rewrite (buf_at_Some _ _ _ Hb'). by autorewrite with msg. }
  unfold base_off. rewrite El, (buf_at_Some _ _ _ Hb). split; [done|].
  cbv zeta. unfold slice_ok, in_message, slice_cap, base_off, meta, MessagePoolMetaByteCount in *.
  cbn [sl_ptr sl_off sl_len]. fold h'. rewrite El. split_and!; [by eexists|apply Nat.leb_le; lia|lia].
Qed.

Lemma slice_bytes_kept P s s' m :
  store_kept P s s' → P (sl_ptr m) → slice_ok s m →
  slice_bytes (heap s') m = slice_bytes (heap s) m ∧ slice_ok s' m.
Proof.
  intros Hk HP [[b Hb] Hm]. destruct (Hk _ _ HP Hb) as (b' & Hb' & Hl & Ht).
  unfold slice_bytes, slice_ok, in_message in *. rewrite (buf_at_Some _ _ _ Hb) in *.
  rewrite (buf_at_Some _ _ _ Hb'), (meta_eq b b' Hl). split; [|by rewrite Hb'].
  apply Nat.leb_le in Hm. rewrite <-!skipn_firstn_comm || rewrite !take_drop_commute.
  f_equal. replace (sl_off m + sl_len m) with (min (sl_off m + sl_len m) (meta b)) by lia.
  rewrite <-!take_take. by rewrite Ht.
Qed.
Lemma store_kept_trans P s1 s2 s3 : store_kept P s1 s2 → store_kept P s2 s3 → store_kept P s1 s3.
Proof.
  intros H1 H2 q b HP Hq. destruct (H1 q b HP Hq) as (b2 & Hq2 & Hk2).
  destruct (H2 q b2 HP Hq2) as (b3 & Hq3 & Hk3). exists b3. split; [done|].
  rewrite (kept_meta _ _ _ Hk2) in Hk3. etrans; [exact Hk2|exact Hk3].
Qed.
Definition all_kept : Pools → Pools → Prop := store_kept (λ _, True).
Lemma gstep_all_kept l g g' :
  ginv g → gstep l g = Some (Val g') → (∀ m i d, l ≠ LWrite m i d) → all_kept (st g) (st g').
Proof.
  intros Hg Hl Hw q b _ Hq. destruct (gstep_kept l g g' Hg Hl q b) as (b' & ? & ?); [|done|by exists b'].
  intros m i d ->. by destruct (Hw m i d).
Qed.

Lemma take_message_sizes k p tag s s' : take_message k p tag s = Val s' → sizes_of s' = sizes_of s.
Proof.
  unfold take_message. set (f := λ x : messagePool, _). case_bool_decide; [done|]. intros [= <-].
  exact (sizes_upd_pool f (upd p (put_tag tag) s) k (λ x, eq_refl)).
Qed.
Lemma get_ok n tag s rf :
  pools_ok s rf →
  ∃ m c s', MessagePoolGetDetailedWithTag n tag s = Val (m, c, s') ∧
    pools_ok s' (add_ref (sl_ptr m) 1 rf) ∧ rc rf (sl_ptr m) = 0%Z ∧
    slice_ok s' m ∧ sl_len m = n ∧ all_kept s s' ∧
    (∀ x, (∃ k, pool_for n s = Some (k, x)) → slice_cap (heap s') m = mp_size x + MessagePoolMetaByteCount) ∧
    sizes_of s' = sizes_of s.
Proof.
  intros Hg. unfold MessagePoolGetDetailedWithTag.
  assert (∃ g1, gstep (LGet n tag) (mkOwners s [] rf) = Some (Val g1)) as [g1 E1].
  { cbn [gstep st]. destruct (pool_for n s) as [[k x]|]; [|by eexists]. destruct (pool_Get k x s). by eexists. }
  destruct (gstep_inv _ _ Hg _ E1) as (g1' & [= <-] & Hg1).
  pose proof (gstep_all_kept _ _ _ Hg E1 ltac:(done)) as Hk1. cbn [st] in Hk1.
  cbn [gstep st pend refs] in E1. destruct (pool_for n s) as [[k x]|] eqn:Ep.
  - pose proof (pool_for_spec _ _ _ _ Ep) as [Hx Hn].
    pose proof (pool_Get_inv s k x [] rf n tag (proj1 Hg) Hx) as [_ Hsz].
    destruct (pool_Get k x s) as [p s1]. cbn [snd] in Hsz. injection E1 as <-. cbn [st pend refs] in *.
    destruct (step_take 0 k p n tag _ Hg1 eq_refl) as (s2 & E2 & Hg2).
    destruct (pending_get 0 k p n tag _ Hg1 eq_refl) as (Hr & s2' & x' & E2' & Hx' & Hoff & Hm & Hc).
    cbn [st pend refs] in *. assert (s2' = s2) as -> by congruence. rewrite E2. cbn [obind].
    assert (sizes_of s2 = sizes_of s1 ∧ mp_size x' = mp_size x) as [Hsz2 Exx].
    { split; [by eapply take_message_sizes|]. apply sizes_lookup in Hx, Hx'. congruence. }
    rewrite Exx in *. eexists _, _, _. split; [done|]. cbn [sl_ptr sl_len].
    rewrite <-Hoff. split_and!; try done.
    + eapply store_kept_trans; [exact Hk1|].
      apply (gstep_all_kept (LTake 0) (mkOwners s1 [PGet k p n tag] rf) (mkOwners s2 [] (add_ref p 1 rf)) Hg1); [|done].
      cbn [gstep st pend lookup list_lookup]. by rewrite E2.
    + intros x2 (k2 & [= <- <-]). done.
    + congruence.
  - cbn [alloc] in *. injection E1 as <-. cbn [st pend refs] in *. eexists _, _, _. split; [done|]. cbn [sl_ptr sl_len].
    destruct Hg as [Hi Hne]. cbn [st pend refs] in *.
    assert (rc rf (next_ptr s) = 0%Z) as Hr.
    { destruct (i_owned _ _ _ Hi (next_ptr s)) as [Ho1 Ho2].
      destruct (decide (0 < rc rf (next_ptr s))%Z) as [Hp|]; [|lia].
      apply Ho2 in Hp as [Hp _]. apply (i_fresh _ _ _ Hi) in Hp. lia. }
    split_and!; try done; [|by intros ? (? & ?)].
    unfold slice_ok, in_message, buf_at. cbn [heap sl_ptr sl_off sl_len]. rewrite lookup_insert_eq.
    split; [by eexists|]. apply Nat.leb_le. simpl. unfold meta. rewrite length_replicate. lia.
Qed.
Lemma write_ok m i d s rf :
  pools_ok s rf → (0 < rc rf (sl_ptr m))%Z → slice_ok s m →
  pools_ok (write_slice m i d s) rf ∧ store_kept (λ q, sl_ptr m ≠ q) s (write_slice m i d s) ∧
  slice_ok (write_slice m i d s) m.
Proof.
  intros Hg Hr [Hs Hm].
  assert (gstep (LWrite m i d) (mkOwners s [] rf) = Some (Val (mkOwners (write_slice m i d s) [] rf))) as E.
  { cbn [gstep st refs pend]. unfold refs_of. cbn [refs]. fold (rc rf (sl_ptr m)).
    rewrite (proj2 (Z.ltb_lt _ _) Hr), Hm. done. }
  destruct (gstep_inv _ _ Hg _ E) as (g1 & [= <-] & Hg1). split; [done|]. split.
  - intros q b Hq Hb. apply (gstep_kept _ _ _ Hg E q b); [|done]. by intros m' i' d' [= <- <- <-].
  - split; [by apply upd_is_Some|]. unfold write_slice, in_message in *.
    rewrite buf_at_upd, decide_True by (done || by apply nil_length_inv; rewrite copy_at_length).
    by rewrite (meta_eq (buf_at (heap s) (sl_ptr m))) by apply copy_at_length.
Qed.
Lemma return_ok m s rf :
  pools_ok s rf → (0 < rc rf (sl_ptr m))%Z →
  pools_ok (MessagePoolReturn m s).2
    (match pool_of_cap (slice_cap (heap s) m) s with Some _ => add_ref (sl_ptr m) (-1) rf | None => rf end) ∧
  all_kept s (MessagePoolReturn m s).2 ∧ sizes_of (MessagePoolReturn m s).2 = sizes_of s.
Proof.
  intros Hg Hr. unfold MessagePoolReturn.
  destruct (pool_of_cap _ _) as [[k x]|] eqn:Ec; [|by split].
  pose proof (step_return m k x _ Hg Hr Ec) as H1. cbn [st pend refs] in H1.
  assert (gstep (LReturn m) (mkOwners s [] rf) = Some (Val (mkOwners (return_check k (sl_ptr m) s).2
    (if (return_check k (sl_ptr m) s).1 then [PPut k (sl_ptr m)] else []) (add_ref (sl_ptr m) (-1) rf)))) as E.
  { cbn [gstep st refs pend]. unfold refs_of. cbn [refs]. fold (rc rf (sl_ptr m)).
    rewrite (proj2 (Z.ltb_lt _ _) Hr), Ec. by destruct (return_check _ _ _) as [[] ?]. }
  pose proof (gstep_all_kept _ _ _ Hg E ltac:(done)) as Hk. cbn [st] in Hk. clear E.
  assert (sizes_of (return_check k (sl_ptr m) s).2 = sizes_of s) as Hsz.
  { unfold return_check. repeat case_bool_decide; try done. by apply sizes_upd_pool. }
  destruct (return_check k (sl_ptr m) s) as [[] s1]; cbn [fst snd app] in *; [|done].
  pose proof (step_put 0 k (sl_ptr m) _ H1 eq_refl) as H2. split; [exact H2|]. split.
  - eapply store_kept_trans; [exact Hk|]. exact (gstep_all_kept (LPut 0) _
      (mkOwners (return_put k (sl_ptr m) s1) [] (add_ref (sl_ptr m) (-1) rf)) H1 eq_refl ltac:(done)).
  - rewrite <-Hsz. apply (sizes_upd_pool (pool_Put (sl_ptr m)) (upd (sl_ptr m) _ s1)).
    intros y. unfold pool_Put. by case_bool.
Qed.
(** What is written through a slice is read back. *)
Lemma slice_write m i d s :
  slice_ok s m → i + length d ≤ sl_len m →
  slice_bytes (heap (write_slice m i d s)) m = copy_at i d (slice_bytes (heap s) m).
Proof.
  intros [[b Hb] Hm] Hd. unfold in_message in Hm. apply Nat.leb_le in Hm.
  unfold write_slice, slice_bytes.
  rewrite buf_at_upd, decide_True by (done || by apply nil_length_inv; rewrite copy_at_length).
  rewrite (take_ge d) by lia. rewrite (buf_at_Some _ _ _ Hb) in *. unfold meta in Hm.
  apply list_eq. intros j. destruct (decide (j < sl_len m)).
  - rewrite lookup_take_lt, lookup_drop by done. unfold copy_at.
    destruct (decide (i ≤ j ∧ j < i + length d)) as [[]|].
    + rewrite !list_lookup_inserts; rewrite ?length_take, ?length_drop; try lia. f_equal. lia.
    + destruct (decide (j < i)).
      * rewrite !list_lookup_inserts_lt by lia. by rewrite lookup_take_lt, lookup_drop by done.
      * rewrite !list_lookup_inserts_ge by lia. by rewrite lookup_take_lt, lookup_drop by done.
  - rewrite !lookup_ge_None_2; rewrite ?copy_at_length, ?length_take; lia || done.
Qed.
Lemma slice_bytes_length s m : slice_ok s m → length (slice_bytes (heap s) m) = sl_len m.
Proof.
  intros [[b Hb] Hm%Nat.leb_le]. unfold slice_bytes. unfold meta in Hm. rewrite (buf_at_Some _ _ _ Hb) in *.
  rewrite length_take, length_drop. lia.
Qed.
Lemma slice_write_all m d s :
  slice_ok s m → length d = sl_len m → slice_bytes (heap (write_slice m 0 d s)) m = d.
Proof.
  intros Hm Hd. rewrite slice_write by (done || lia). unfold copy_at.
  pose proof (slice_bytes_length s m Hm) as Hl.
  rewrite <-(app_nil_r (slice_bytes _ _)), <-(app_nil_r d) at 1.
  by rewrite app_nil_r, list_inserts_0_r, app_nil_r by congruence.
Qed.

(** A message from the pool that its owner returns leaves the references. *)
Lemma pools_ok_rc s rf rf' : (∀ p, rc rf' p = rc rf p) → pools_ok s rf → pools_ok s rf'.
Proof. intros H [Hi Hn]. split; [|done]. by apply (inv_rc _ _ rf). Qed.
Lemma rc_add_ref rf p d q : rc (add_ref p d rf) q = if decide (p = q) then (rc rf p + d)%Z else rc rf q.
Proof.
  unfold add_ref, rc. case_decide as E; [subst; by rewrite lookup_insert_eq|by rewrite lookup_insert_ne].
Qed.
Lemma pools_ok_forget s rf p : pools_ok s rf → pools_ok s (<[p:=0%Z]> rf).
Proof.
  intros [[H1 H2 H3 H4 H5] Hn]. assert (∀ q, rc (<[p:=0%Z]> rf) q = if decide (p = q) then 0%Z else rc rf q) as Hr.
  { intros q. unfold rc. case_decide as E; [subst; by rewrite lookup_insert_eq|by rewrite lookup_insert_ne]. }
  split; [|done]. split; try done.
  - eapply Forall_impl; [exact H2|]. intros e (Ha & Hb & Hc). split_and!; try done. cbn [refs] in *. rewrite Hr. by case_decide.
  - intros q. destruct (H5 q) as [Ha Hb]. cbn [refs st] in *. unfold owned_ok. rewrite Hr. case_decide; [|done].
    split; [lia|]. lia.
Qed.
Lemma got_and_returned m s rf :
  rc rf (sl_ptr m) = 0%Z → pools_ok s (add_ref (sl_ptr m) 1 rf) → pools_ok (MessagePoolReturn m s).2 rf.
Proof.
  intros Hr Hg. destruct (return_ok m s _ Hg) as (H & _); [rewrite rc_add_ref, decide_True by done; lia|].
  destruct (pool_of_cap _ _) as [kx|].
  - eapply pools_ok_rc; [|exact H]. intros p. rewrite !rc_add_ref.
    repeat case_decide; subst; try done; lia.
  - apply (pools_ok_forget _ _ (sl_ptr m)) in H. eapply pools_ok_rc; [|exact H]. intros p.
    unfold add_ref. destruct (decide (sl_ptr m = p)) as [<-|].
    + unfold rc in *. by rewrite !lookup_insert_eq.
    + unfold rc. by rewrite !lookup_insert_ne.
Qed.
(** Part of a message, as a slice. *)
Lemma sub_slice_bytes s m i n :
  slice_ok s m → i + n ≤ sl_len m →
  slice_ok s (mkSlice (sl_ptr m) (sl_off m + i) n) ∧
  slice_bytes (heap s) (mkSlice (sl_ptr m) (sl_off m + i) n) = take n (drop i (slice_bytes (heap s) m)).
Proof.
  intros [[b Hb] Hm] Hn. unfold slice_ok, in_message, slice_bytes in *. cbn [sl_ptr sl_off sl_len].
  apply Nat.leb_le in Hm. split; [split; [by eexists|apply Nat.leb_le; lia]|].
  rewrite <-drop_drop. rewrite !skipn_firstn_comm, take_take. f_equal. lia.
Qed.
Lemma slice_cap_room s rf m :
  pools_ok s rf → slice_ok s m → sl_len m + MessagePoolMetaByteCount ≤ slice_cap (heap s) m.
Proof.
  intros [Hi _] [[b Hb] Hm%Nat.leb_le]. pose proof (i_len _ _ _ Hi _ _ Hb) as Hl. cbn [st] in *.
  unfold slice_cap, meta, MessagePoolMetaByteCount in *. rewrite (buf_at_Some _ _ _ Hb) in *. lia.
Qed.
Lemma copy_at_0 d b : length d ≤ length b → copy_at 0 d b = d ++ drop (length d) b.
Proof.
  intros H. unfold copy_at. rewrite <-(take_drop (length d) b) at 1.
  rewrite list_inserts_0_r; [done|]. rewrite length_take. lia.
Qed.
Lemma copy_at_middle d b1 b2 : length d = length b2 → copy_at (length b1) d (b1 ++ b2) = b1 ++ d.
Proof.
  intros H. unfold copy_at. replace (length b1) with (length b1 + 0) by lia. rewrite list_inserts_app_r. f_equal.
  rewrite <-(app_nil_r b2), list_inserts_0_r by done. by rewrite app_nil_r.
Qed.

(** ** The pools keep messages apart *)
(** C39. However the halves of gets and returns of the owners of messages
    interleave with their writes and shares and with resizing and clearing:
    nothing panics; a buffer is at most once in the pools and between halves,
    and never while somebody owns it, so that a get gives out a buffer that
    nobody owns, with room for its bytes before the metadata and the capacity by
    which the pool knows it again; a return is the last one exactly when its
    owner holds the last reference; and the bytes of a message change by the
    writes of its owners only. *)
Theorem message_pool_exclusive (sizes : list (nat * nat)) (ls : list label) (r : outcome Owners) :
  gsteps ls (newOwners sizes) = Some r →
  ∃ g, r = Val g ∧
    NoDup (free (st g) ++ map pend_ptr (pend g)) ∧
    (∀ p, (0 < refs_of g p)%Z → p ∉ free (st g) ++ map pend_ptr (pend g)) ∧
    (∀ j k p n tag, pend g !! j = Some (PGet k p n tag) →
      refs_of g p = 0%Z ∧
      ∃ s' x, take_message k p tag (st g) = Val s' ∧ pools (st g) !! k = Some x ∧
        let m := mkSlice p (base_off (mp_size x) (buf_at (heap s') p)) n in
        in_message (heap s') m = true ∧ slice_cap (heap s') m = mp_size x + MessagePoolMetaByteCount) ∧
    (∀ m k x, (0 < refs_of g (sl_ptr m))%Z →
      pool_of_cap (slice_cap (heap (st g)) m) (st g) = Some (k, x) → (MessagePoolCheck m (st g)).1 = true →
      (return_check k (sl_ptr m) (st g)).1 = true ↔ refs_of g (sl_ptr m) = 1%Z) ∧
    (∀ l g' p, gstep l g = Some (Val g') → (0 < refs_of g p)%Z →
      (∀ m i d, l = LWrite m i d → sl_ptr m ≠ p) →
      let b := buf_at (heap (st g)) p in
      take (meta b) (buf_at (heap (st g')) p) = take (meta b) b).
Proof.
  intros E. destruct (gsteps_inv ls _ (new_ginv sizes) r E) as (g & -> & Hg). exists g.
  split; [done|]. clear E ls sizes. pose proof Hg as [Hi Hn].
  assert (map e_ptr (idle (st g) (pend g)) = free (st g) ++ map pend_ptr (pend g)) as Hid.
  { unfold idle, free. rewrite map_app, map_map. f_equal. apply map_ext. by intros []. }
  split_and!.
  - rewrite <-Hid. apply (i_nodup _ _ _ Hi).
  - intros p Hp. rewrite <-Hid. by eapply inv_owned_idle.
  - intros j k p n tag Hj. destruct (pending_get j k p n tag g Hg Hj) as (Hr & s' & x & Hs & Hx & _ & [_ Hm] & Hc).
    split; [done|]. by exists s', x.
  - intros m k x Hp Hc Hchk. destruct (i_owned _ _ _ Hi (sl_ptr m)) as [_ Ho].
    destruct (Ho Hp) as [_ Hct]. fold (refs_of g (sl_ptr m)) in Hct.
    change (rc (refs g) (sl_ptr m)) with (refs_of g (sl_ptr m)) in Hct.
    unfold MessagePoolCheck in Hchk. rewrite Hc in Hchk. case_bool; [|done].
    unfold return_check. repeat case_bool_decide; simpl; destruct Hct; split; try done; lia.
  - intros l g' p Hl Hp HP b. destruct (i_owned _ _ _ Hi p) as [_ Ho]. destruct (Ho Hp) as [[b' Hb'] _].
    destruct (gstep_kept l g g' Hg Hl p b' HP Hb') as (b2 & Hb2 & [_ Ht]).
    subst b. by rewrite (buf_at_Some _ _ _ Hb'), (buf_at_Some _ _ _ Hb2).
Qed.

(** ** Concrete runs *)
Module MessagePoolExample.
Definition bs (l : list Z) : list byte := map byte_of l.
(** Two goroutines: one has a message and shares it; a get of the other while
    the return of the first is half done gets another buffer. *)
Definition ex_labels : list label :=
  [LGet 3 Byte.x00; LTake 0; LWrite (mkSlice 1 0 3) 0 (bs [7; 8; 9]%Z); LShare (mkSlice 1 0 3);
   LReturn (mkSlice 1 0 3); LReturn (mkSlice 1 0 3); LGet 4 Byte.x00; LPut 0; LTake 0; LGet 2 Byte.x05].
Definition ex_sizes : list (nat * nat) := [(4, 2); (8, 2)].
Definition ex_owners : Owners :=
  match gsteps ex_labels (newOwners ex_sizes) with Some (Val g) => g | _ => newOwners [] end.
Lemma message_pool_exclusive_witness :
  refs_of ex_owners 2 = 1%Z ∧ (2%positive ∉ free (st ex_owners) ++ map pend_ptr (pend ex_owners)) ∧
  pend ex_owners = [PGet 0 1 2 Byte.x05].
Proof.
  assert (match gsteps ex_labels (newOwners ex_sizes) with Some (Val _) => true | _ => false end = true) as E
    by (vm_compute; reflexivity).
  destruct (message_pool_exclusive ex_sizes ex_labels (Val ex_owners)) as (g & Eg & _ & H & _).
  - unfold ex_owners. destruct (gsteps ex_labels (newOwners ex_sizes)) as [[]|]; [reflexivity|discriminate..].
  - assert (g = ex_owners) as -> by congruence.
    assert (refs_of ex_owners 2 = 1%Z) as Er by (vm_compute; reflexivity).
    split; [exact Er|]. split; [apply H; rewrite Er; lia|vm_compute; reflexivity].
Defined.

(** Without the discipline: two goroutines that return one reference at the
    same time both put the buffer back, and a later get panics. *)
Definition ex_one : Pools :=
  match MessagePoolGet 3 (newPools ex_sizes) with Val (_, s) => s | _ => newPools [] end.
Definition ex_twice : Pools := return_put 0 1 (return_put 0 1 (return_check 0 1 (return_check 0 1 ex_one).2).2).
Example returned_twice :
  (return_check 0 1 ex_one).1 = true ∧ (return_check 0 1 (return_check 0 1 ex_one).2).1 = true ∧
  free ex_twice = [1; 1]%positive ∧
  (let! (_, s) := MessagePoolGet 3 ex_twice in MessagePoolGet 3 s) = Panic "message already taken".
Proof. vm_compute. repeat split. Qed.

(** The count has sixteen bits: with 65535 references, a share makes it zero,
    and the message is taken for one that is not in use. *)
Definition ex_full : Pools := upd 1 (put_count 65535) ex_one.
Example share_wraps :
  (MessagePoolCheck (mkSlice 1 0 3) ex_full).1 = true ∧
  (MessagePoolCheck (mkSlice 1 0 3) (MessagePoolShareReadOnly (mkSlice 1 0 3) ex_full)).1 = false.
Proof. vm_compute. repeat split. Qed.

(** A slice that does not start where the message does is not returned. *)
Example inner_slice_kept :
  MessagePoolReturn (mkSlice 1 1 2) ex_one = (false, ex_one).
Proof. reflexivity. Qed.
End MessagePoolExample.
