(* ===== verification/Framer.v ===== *)
(** * Message framing and reading: message_framer.go and the readers of message_pool.go

    [io.Reader] and [io.Writer] are classes. A stream reader gives the bytes of
    its chunks in order and may give fewer than it is asked for; a packet reader
    gives one packet for each read and drops what does not fit. *)

From Stdlib Require Import Sorting.Sorted.
From S2P Require Import Prelude MessagePool.
Open Scope go_scope.

(** ** Readers and writers

    [Read k r] is what [r.Read(b)] writes to a [b] of [k] bytes, the error, and
    the reader after it. [read_rank] bounds the reads without an error. *)
Class Reader (R : Type) := {
  Read : nat → R → list byte * option string * R;
  read_rank : R → nat
}.
Class ReaderLaws (R : Type) `{!Reader R} := {
  read_length k r : length (Read k r).1.1 ≤ k;
  read_rank_lt k r : 0 < k → (Read k r).1.2 = None → read_rank (Read k r).2 < read_rank r
}.
Class Writer (W : Type) := { Write : list byte → W → option string * W }.

Definition EOF : string := "EOF".
(** The results of the coming reads; at the end, [io.EOF]. *)
Record Stream := mkStream { chunks : list (list byte * option string) }.
#[export] Instance Stream_Reader : Reader Stream := {
  Read k r :=
    match chunks r with
    | [] => ([], Some EOF, r)
    | (c, e) :: cs =>
        if length c <=? k then (c, e, mkStream cs) else (take k c, None, mkStream ((drop k c, e) :: cs))
    end;
  read_rank r := list_sum (map (λ ce, S (length ce.1)) (chunks r))
}.
Record Packets := mkPackets { packets : list (list byte) }.
#[export] Instance Packets_Reader : Reader Packets := {
  Read k r :=
    match packets r with
    | [] => ([], Some EOF, r)
    | p :: ps => (take k p, None, mkPackets ps)
    end;
  read_rank r := length (packets r)
}.
#[export] Instance Packets_Writer : Writer Packets := {
  Write b w := (None, mkPackets (packets w ++ [b]))
}.

Definition UnexpectedEOF : string := "unexpected EOF".
Definition out_of_fuel : string := "out of fuel".
Section Io.
Context {R : Type} `{!Reader R}.

(** [io.ReadFull(r, b)] for a [b] of [k] bytes: what was read, and the error. *)
Fixpoint ReadFull_loop (fuel k : nat) (r : R) : outcome (list byte * option string * R) :=
  match fuel with
  | 0 => Panic out_of_fuel
  | S fuel =>
      if k =? 0 then Val ([], None, r)
      else
        let '(d, e, r1) := Read k r in
        match e with
        | None =>
            let! (d', e', r') := ReadFull_loop fuel (k - length d) r1 in Val (d ++ d', e', r')
        | Some _ => Val (d, if k <=? length d then None else e, r1)
        end
  end.
Definition ReadFull (k : nat) (r : R) : outcome (list byte * option string * R) :=
  let! (d, e, r') := ReadFull_loop (S (read_rank r)) k r in
  Val (d, if bool_decide (e = Some EOF) && (0 <? length d) then Some UnexpectedEOF else e, r').

(** ** MessagePoolReadAll *)
(** [for i < len(b)]: the bytes read so far, and whether the loop returns. *)
Inductive fill_result := FillReturn | FillErr (e : string) | FillNext.
Fixpoint fill_loop (fuel : nat) (b : Slice) (i : nat) (r : R) (s : Pools) : outcome (fill_result * nat * R * Pools) :=
  match fuel with
  | 0 => Panic out_of_fuel
  | S fuel =>
      if sl_len b <=? i then Val (FillNext, i, r, s)
      else
        let '(d, e, r1) := Read (sl_len b - i) r in
        let s1 := write_slice b i d s in
        if length d =? 0 then Val (FillReturn, i, r1, s1)
        else match e with
        | Some e => Val (FillErr e, i, r1, (MessagePoolReturn b s1).2)
        | None => fill_loop fuel b (i + length d) r1 s1
        end
  end.
(** The last loop, with a buffer of the largest size: bytes appended to [out]. *)
Fixpoint append_loop (fuel : nat) (b : Slice) (out : list byte) (r : R) (s : Pools) : outcome ((list byte + string) * R * Pools) :=
  match fuel with
  | 0 => Panic out_of_fuel
  | S fuel =>
      let '(d, e, r1) := Read (sl_len b) r in
      let s1 := write_slice b 0 d s in
      if length d =? 0 then Val (inl out, r1, s1)
      else match e with
      | Some e => Val (inr e, r1, s1)
      | None => append_loop fuel b (out ++ slice_bytes (heap s1) (mkSlice (sl_ptr b) (sl_off b) (length d))) r1 s1
      end
  end.
(** The loop over the pools; the result is a pool message, or bytes of its own. *)
Inductive read_result := InPool (m : Slice) | Own (b : list byte) | Failed (e : string).
Fixpoint read_pools (fuel : nat) (sizes : list nat) (tag : byte) (b : Slice) (i : nat) (r : R) (s : Pools)
    : outcome (read_result * R * Pools) :=
  let! (f, i, r, s) := fill_loop fuel b i r s in
  match f with
  | FillReturn => Val (InPool (mkSlice (sl_ptr b) (sl_off b) i), r, s)
  | FillErr e => Val (Failed e, r, s)
  | FillNext =>
      match sizes with
      | [] =>
          let! (out, r, s) := append_loop fuel b (slice_bytes (heap s) (mkSlice (sl_ptr b) (sl_off b) i)) r s in
          let s' := (MessagePoolReturn b s).2 in
          Val (match out with inl out => Own out | inr e => Failed e end, r, s')
      | size :: sizes =>
          let! (b2, _, s) := MessagePoolGetDetailedWithTag size tag s in
          let s := write_slice b2 0 (slice_bytes (heap s) b) s in
          let s := (MessagePoolReturn b s).2 in
          read_pools fuel sizes tag b2 i r s
      end
  end.
Definition MessagePoolReadAllWithTag (tag : byte) (r : R) (s : Pools) : outcome (read_result * R * Pools) :=
  match map mp_size (pools s) with
  | [] => Panic "index out of range"
  | size :: sizes =>
      let! (b, _, s) := MessagePoolGetDetailedWithTag size tag s in
      read_pools (S (read_rank r)) sizes tag b 0 r s
  end.
Definition MessagePoolReadAll (r : R) (s : Pools) : outcome (read_result * R * Pools) :=
  MessagePoolReadAllWithTag Byte.x00 r s.

(** ** The framer *)
Record FramerSettings := mkFramerSettings {
  MaxMessageLen : nat;
  MaxPacketMessageLen : nat;
  SplitMinimumLen : nat
}.
Definition DefaultFramerSettings : FramerSettings := mkFramerSettings (2048 - 4) (2048 - 4) 256.
Record Framer := mkFramer { readBuffer : list byte; writeBuffer : list byte; settings : FramerSettings }.
Definition NewFramer (s : FramerSettings) : outcome Framer :=
  let f := mkFramer (replicate (MaxMessageLen s) Byte.x00) (replicate (MaxMessageLen s) Byte.x00) s in
  if length (writeBuffer f) <? SplitMinimumLen s + 4 then Panic "SplitMinimumLen" else Val f.

Definition frame_len (h : list byte) : nat := Z.to_nat (de16 h).
Definition Framer_Read (self : Framer) (r : R) (s : Pools) : outcome ((Slice + string) * R * Pools) :=
  let '(h, err, r) := Read 4 r in
  match err with
  | Some e => Val (inr e, r, s)
  | None =>
      if length h <? 4 then Val (inr "Could not read header."%string, r, s)
      else
        let messageLen := frame_len h in
        if MaxMessageLen (settings self) <? messageLen then Val (inr "Max message len exceeded"%string, r, s)
        else
          let! (message, s) := MessagePoolGet messageLen s in
          let! (d, err, r) := ReadFull messageLen r in
          let s := write_slice message 0 d s in
          match err with
          | Some e => Val (inr e, r, (MessagePoolReturn message s).2)
          | None => Val (inl message, r, s)
          end
  end.
Definition Framer_ReadPacket (self : Framer) (r : R) (s : Pools) : outcome ((Slice + string) * R * Pools) :=
  let! (h, s) := MessagePoolGet (MaxPacketMessageLen (settings self) + 4) s in
  let '(d, err, r) := Read (sl_len h) r in
  let s := write_slice h 0 d s in
  match err with
  | Some e => Val (inr e, r, s)
  | None =>
      let n := length d in
      if n <? 4 then Val (inr "Could not read header."%string, r, (MessagePoolReturn h s).2)
      else
        let messageLen := frame_len (slice_bytes (heap s) h) in
        if MaxMessageLen (settings self) <? messageLen then
          Val (inr "Max message len exceeded"%string, r, (MessagePoolReturn h s).2)
        else if slice_cap (heap s) h <? messageLen + 4 then Panic "slice bounds out of range"
        else
          let message := mkSlice (sl_ptr h) (sl_off h + 4) messageLen in
          if n - 4 <? messageLen then
            let! (d, err, r) := ReadFull (messageLen - (n - 4)) r in
            let s := write_slice message (n - 4) d s in
            match err with
            | Some e => Val (inr e, r, (MessagePoolReturn h s).2)
            | None => Val (inl message, r, s)
            end
          else Val (inl message, r, s)
  end.
End Io.

Section FramerWrite.
Context {W : Type} `{!Writer W}.
Definition framer_header (messageLen splitIndex : nat) : list byte :=
  be16 (u16 (Z.of_nat messageLen)) ++ be16 (u16 (Z.of_nat splitIndex)).
Definition Framer_Write (self : Framer) (w : W) (message : list byte) (s : Pools) : outcome (option string * W * Pools) :=
  let messageLen := length message in
  if MaxMessageLen (settings self) <? messageLen then Val (Some "Max message len exceeded"%string, w, s)
  else if (65535 <? Z.of_nat messageLen)%Z then Val (Some "Max possible message len exceeded"%string, w, s)
  else if messageLen <? max 16 (SplitMinimumLen (settings self)) then
    let! (messageWithHeader, s) := MessagePoolGet (messageLen + 4) s in
    let s := write_slice messageWithHeader 0 (framer_header messageLen 0 ++ message) s in
    let '(err, w) := Write (slice_bytes (heap s) messageWithHeader) w in
    Val (err, w, (MessagePoolReturn messageWithHeader s).2)
  else
    let splitIndex := messageLen / 2 in
    let! (h, s) := MessagePoolGet (splitIndex + 4) s in
    let s := write_slice h 0 (framer_header messageLen splitIndex ++ take splitIndex message) s in
    let '(err, w) := Write (slice_bytes (heap s) h) w in
    match err with
    | Some e => Val (Some e, w, (MessagePoolReturn h s).2)
    | None =>
        let '(err, w) := Write (drop splitIndex message) w in
        Val (err, w, (MessagePoolReturn h s).2)
    end.
End FramerWrite.

(** ** The readers keep their laws *)
#[export] Instance Stream_laws : ReaderLaws Stream.
Proof.
  split.
  - intros k [[|[c e] cs]]; simpl; [lia|]. case_bool; simpl; [lia|]. rewrite length_take. lia.
  - intros k [[|[c e] cs]] Hk; simpl; [done|]. case_bool; simpl; [lia|]. rewrite length_drop. lia.
Qed.
#[export] Instance Packets_laws : ReaderLaws Packets.
Proof.
  split.
  - intros k [[|p ps]]; simpl; [lia|]. rewrite length_take. lia.
  - intros k [[|p ps]] Hk; simpl; [done|]. lia.
Qed.

(** Every reader is read to the end in the fuel that its rank gives. *)
Lemma ReadFull_total {R} `{ReaderLaws R} k (r : R) : ∃ res, ReadFull k r = Val res.
Proof.
  unfold ReadFull. assert (∀ fuel k r, read_rank r < fuel → ∃ res, ReadFull_loop fuel k r = Val res) as Hl.
  { clear k r. induction fuel as [|fuel IH]; intros k r Hf; [lia|]. cbn [ReadFull_loop]. case_bool; [by eexists|].
    pose proof (read_rank_lt k r ltac:(lia)) as Hr. destruct (Read k r) as [[d [e|]] r1]; cbn [fst snd] in *; [by eexists|].
    destruct (IH (k - length d) r1) as [[[d' e'] r'] ->]; [specialize (Hr eq_refl); lia|]. by eexists. }
  destruct (Hl (S (read_rank r)) k r ltac:(lia)) as [[[d e] r'] ->]. by eexists.
Qed.

(** ** Streams without errors *)
Definition data (r : Stream) : list byte := concat (map fst (chunks r)).
Definition clean (r : Stream) : Prop := Forall (λ ce, ce.1 ≠ [] ∧ ce.2 = None) (chunks r).
Fixpoint skip_chunks (n : nat) (cs : list (list byte * option string)) : list (list byte * option string) :=
  match cs with
  | [] => []
  | (c, e) :: cs => if length c <=? n then skip_chunks (n - length c) cs else (drop n c, e) :: cs
  end.
Definition skip (n : nat) (r : Stream) : Stream := mkStream (skip_chunks n (chunks r)).

Lemma skip_chunks_0 cs : clean (mkStream cs) → skip_chunks 0 cs = cs.
Proof.
  destruct cs as [|[c e] cs]; [done|]. intros [[Hc _] _]%Forall_cons. simpl in *.
  case_bool; [|done]. destruct c; simpl in *; [done|lia].
Qed.
Lemma skip_0 r : clean r → skip 0 r = r.
Proof. destruct r as [cs]. intros H. unfold skip. cbn [chunks]. by rewrite skip_chunks_0. Qed.
Lemma skip_clean n r : clean r → clean (skip n r).
Proof.
  unfold clean, skip. destruct r as [cs]. cbn [chunks]. intros H. revert n. induction H as [|[c e] cs [Hc He] H IH]; intros n; [done|].
  cbn [skip_chunks]. case_bool; [apply IH|]. constructor; [|done]. simpl in *. split; [|done].
  intros E%(f_equal length). rewrite length_drop in E. simpl in E. lia.
Qed.
Lemma skip_data n r : data (skip n r) = drop n (data r).
Proof.
  unfold data, skip. destruct r as [cs]. cbn [chunks]. revert n. induction cs as [|[c e] cs IH]; intros n; simpl.
  - by rewrite drop_nil.
  - rewrite drop_app. case_bool; simpl.
    + rewrite IH, (drop_ge c) by lia. done.
    + replace (n - length c) with 0 by lia. done.
Qed.
Lemma skip_skip a b r : skip b (skip a r) = skip (a + b) r.
Proof.
  unfold skip. destruct r as [cs]. cbn [chunks]. f_equal. revert a. induction cs as [|[c e] cs IH]; intros a; [done|].
  cbn [skip_chunks]. repeat case_bool; try lia.
  - rewrite IH. f_equal. lia.
  - cbn [skip_chunks]. rewrite length_drop. case_bool; [|lia]. f_equal. lia.
  - cbn [skip_chunks]. rewrite length_drop. case_bool; [lia|]. by rewrite drop_drop.
Qed.
(** One read of a clean stream. *)
Lemma clean_read k r :
  clean r → 0 < k → chunks r ≠ [] →
  ∃ d, Read k r = (d, None, skip (length d) r) ∧ d ≠ [] ∧ length d ≤ k ∧ data r = d ++ data (skip (length d) r).
Proof.
  intros Hr Hk Hn. pose proof (skip_data) as Hsd.
  destruct r as [[|[c e] cs]]; [done|]. apply Forall_cons in Hr as [[Hc He] Hr]. cbn [fst snd] in *. subst e.
  exists (if length c <=? k then c else take k c). cbn [Read Stream_Reader chunks].
  assert (length c ≠ 0) by (by destruct c).
  unfold data, skip. cbn [chunks skip_chunks map concat fst]. case_bool.
  - rewrite Nat.leb_refl, Nat.sub_diag.
    by rewrite skip_chunks_0.
  - rewrite length_take, Nat.min_l by lia. case_bool; [lia|]. split; [done|]. cbn [map concat fst].
    split_and!; [intros E%(f_equal length); rewrite length_take in E; simpl in E; lia|lia|].
    by rewrite app_assoc, take_drop.
Qed.
Lemma clean_ReadFull k r :
  clean r → k ≤ length (data r) → ReadFull k r = Val (take k (data r), None, skip k r).
Proof.
  intros Hr Hk. unfold ReadFull.
  assert (∀ fuel k r, read_rank r < fuel → clean r → k ≤ length (data r) →
    ReadFull_loop fuel k r = Val (take k (data r), None, skip k r)) as Hl.
  { clear. induction fuel as [|fuel IH]; intros k r Hf Hr Hk; [lia|]. cbn [ReadFull_loop].
    case_bool; [subst; by rewrite skip_0|].
    assert (chunks r ≠ []) as Hn by (intros E; unfold data in Hk; rewrite E in Hk; simpl in Hk; lia).
    destruct (clean_read k r Hr ltac:(lia) Hn) as (d & Er & Hd & Hdk & Ed).
    pose proof (read_rank_lt k r ltac:(lia)) as Hrank. rewrite Er in Hrank |- *. cbn [fst snd] in Hrank.
    pose proof (f_equal length Ed) as El. rewrite length_app in El.
    rewrite IH; [|specialize (Hrank eq_refl); lia|by apply skip_clean|lia].
    cbn [obind]. rewrite skip_skip. replace (length d + (k - length d)) with k by lia. f_equal. f_equal. f_equal.
    rewrite Ed at 1. rewrite take_app. by rewrite (take_ge d) by lia. }
  rewrite Hl by (done || lia). done.
Qed.
(** The first read has the whole header, when it is in the first chunk. *)
Lemma clean_header r :
  clean r → 4 ≤ length (hd ([], None) (chunks r)).1 → Read 4 r = (take 4 (data r), None, skip 4 r).
Proof.
  intros Hr Hh. destruct r as [[|[c e] cs]]; simpl in Hh; [lia|]. apply Forall_cons in Hr as [[Hc He] Hr].
  cbn [fst snd] in *. subst e. cbn [Read Stream_Reader chunks]. unfold data, skip.
  cbn [chunks skip_chunks map concat fst]. rewrite take_app. case_bool.
  - assert (length c = 4) as E by lia. rewrite E, Nat.sub_diag. cbn [take]. rewrite app_nil_r, take_ge by lia.
    by rewrite skip_chunks_0.
  - replace (4 - length c) with 0 by lia. cbn [take]. by rewrite app_nil_r.
Qed.

(** ** The frames that are written *)
Definition frame_chunks (s : FramerSettings) (message : list byte) : list (list byte) :=
  let n := length message in
  if n <? max 16 (SplitMinimumLen s) then [framer_header n 0 ++ message]
  else [framer_header n (n / 2) ++ take (n / 2) message; drop (n / 2) message].
Definition fits (s : FramerSettings) (message : list byte) : Prop :=
  length message ≤ MaxMessageLen s ∧ (Z.of_nat (length message) ≤ 65535)%Z.

Lemma frame_len_header n x l : (Z.of_nat n ≤ 65535)%Z → frame_len (framer_header n x ++ l) = n.
Proof.
  intros Hn. unfold frame_len, framer_header. rewrite <-app_assoc, de16_be16 by apply u16_range.
  rewrite u16_small by (unfold is_u16; lia). lia.
Qed.
Lemma framer_header_length n x : length (framer_header n x) = 4.
Proof. done. Qed.
Lemma frame_chunks_concat s m :
  ∃ x, concat (frame_chunks s m) = framer_header (length m) x ++ m.
Proof.
  unfold frame_chunks. case_bool; eexists; cbn [concat]; rewrite app_nil_r; [done|].
  by rewrite <-app_assoc, take_drop.
Qed.


(** ** Writing *)
Lemma Framer_Write_spec self ps m s rf :
  pools_ok s rf → fits (settings self) m →
  ∃ s', Framer_Write self (mkPackets ps) m s = Val (None, mkPackets (ps ++ frame_chunks (settings self) m), s') ∧
    pools_ok s' rf.
Proof.
  intros Hg [Hf1 Hf2]. unfold Framer_Write, frame_chunks. rewrite (proj2 (Nat.ltb_ge _ _)) by done.
  rewrite (proj2 (Z.ltb_ge _ _)) by done.
  assert (∀ n d, length d = n → ∃ b s1, MessagePoolGet n s = Val (b, s1) ∧
    slice_bytes (heap (write_slice b 0 d s1)) b = d ∧
    pools_ok (MessagePoolReturn b (write_slice b 0 d s1)).2 rf) as Hget.
  { intros n d Hd. unfold MessagePoolGet. destruct (get_ok n Byte.x00 s rf Hg) as (b & c & s1 & -> & Hg1 & Hr & Hb & Hl & _).
    exists b, s1. split; [done|]. split; [apply slice_write_all; [done|congruence]|].
    apply got_and_returned; [done|]. apply write_ok; [done| |done]. rewrite rc_add_ref, decide_True by done. lia. }
  case_bool.
  - destruct (Hget (length m + 4) (framer_header (length m) 0 ++ m)) as (b & s1 & -> & Eb & Hg').
    { rewrite length_app, framer_header_length. lia. }
    cbn [obind Write Packets_Writer]. rewrite Eb. by eexists.
  - destruct (Hget (length m / 2 + 4) (framer_header (length m) (length m / 2) ++ take (length m / 2) m)) as (b & s1 & -> & Eb & Hg').
    { rewrite length_app, framer_header_length, length_take. pose proof (Nat.Div0.div_le_upper_bound (length m) 2 (length m)). lia. }
    cbn [obind Write Packets_Writer packets]. rewrite Eb, <-app_assoc. by eexists.
Qed.

(** ** Reading *)
Lemma Framer_Read_spec self r m x rest s rf :
  pools_ok s rf → fits (settings self) m → clean r → 4 ≤ length (hd ([], None) (chunks r)).1 →
  data r = framer_header (length m) x ++ m ++ rest →
  ∃ b s', Framer_Read self r s = Val (inl b, skip (4 + length m) r, s') ∧
    slice_bytes (heap s') b = m ∧ pools_ok (MessagePoolReturn b s').2 rf.
Proof.
  intros Hg [Hf1 Hf2] Hr Hh Ed. unfold Framer_Read. rewrite (clean_header r Hr Hh).
  assert (take 4 (data r) = framer_header (length m) x) as -> by (by rewrite Ed).
  assert (data (skip 4 r) = m ++ rest) as Ed4 by (rewrite skip_data, Ed; done).
  rewrite framer_header_length. rewrite (Nat.ltb_irrefl 4).
  rewrite <-(app_nil_r (framer_header _ _)), frame_len_header by done.
  rewrite (proj2 (Nat.ltb_ge _ _)) by done. unfold MessagePoolGet.
  destruct (get_ok (length m) Byte.x00 s rf Hg) as (b & c & s1 & -> & Hg1 & Hrc & Hb & Hl & _). cbn [obind].
  rewrite clean_ReadFull; [|by apply skip_clean|rewrite Ed4, length_app; lia]. cbn [obind].
  rewrite Ed4, take_app_length, skip_skip. eexists _, _. split; [done|]. split; [by apply slice_write_all|].
  apply got_and_returned; [done|]. apply write_ok; [done| |done]. rewrite rc_add_ref, decide_True by done. lia.
Qed.

Lemma frame_len_copy n x l b :
  (Z.of_nat n ≤ 65535)%Z → 4 + length l ≤ length b → frame_len (copy_at 0 (framer_header n x ++ l) b) = n.
Proof.
  intros Hn Hb. rewrite copy_at_0 by (rewrite length_app, framer_header_length; lia).
  rewrite <-app_assoc. by apply frame_len_header.
Qed.

Lemma Framer_ReadPacket_spec self m ps s rf :
  pools_ok s rf → fits (settings self) m → MaxMessageLen (settings self) ≤ MaxPacketMessageLen (settings self) →
  ∃ b s', Framer_ReadPacket self (mkPackets (frame_chunks (settings self) m ++ ps)) s = Val (inl b, mkPackets ps, s') ∧
    slice_bytes (heap s') b = m ∧ ∃ rf', pools_ok s' rf' ∧ (0 < rc rf' (sl_ptr b))%Z.
Proof.
  intros Hg [Hf1 Hf2] Hmax. unfold Framer_ReadPacket, MessagePoolGet.
  set (N := MaxPacketMessageLen (settings self) + 4).
  destruct (get_ok N Byte.x00 s rf Hg) as (h & c & s1 & -> & Hg1 & Hrc & Hh & Hl & _). cbn [obind].
  assert (0 < rc (add_ref (sl_ptr h) 1 rf) (sl_ptr h))%Z as Hrp by (rewrite rc_add_ref, decide_True by done; lia).
  set (old := slice_bytes (heap s1) h). assert (length old = N) as Hold by (unfold old; by rewrite slice_bytes_length).
  set (msg := mkSlice (sl_ptr h) (sl_off h + 4) (length m)).
  (* the first packet: the header and the part [a] of the message *)
  assert (∀ x a, length a ≤ length m →
    let d := framer_header (length m) x ++ a in let s2 := write_slice h 0 d s1 in
    take (sl_len h) d = d ∧ pools_ok s2 (add_ref (sl_ptr h) 1 rf) ∧ slice_ok s2 h ∧ slice_ok s2 msg ∧
    frame_len (slice_bytes (heap s2) h) = length m ∧
    slice_bytes (heap s2) msg = a ++ take (length m - length a) (drop (4 + length a) old) ∧
    (slice_cap (heap s2) h <? length m + 4) = false) as Hfirst.
  { intros x a Ha d s2. assert (length d = 4 + length a) as Hd by (unfold d; by rewrite length_app).
    destruct (write_ok h 0 d s1 _ Hg1 Hrp Hh) as (Hg2 & _ & Hh2). fold s2 in Hg2, Hh2.
    assert (slice_bytes (heap s2) h = copy_at 0 d old) as Eh.
    { apply slice_write; [done|]. unfold N in *. lia. }
    assert (4 + length m ≤ sl_len h) as Hroom by (unfold N in *; lia).
    destruct (sub_slice_bytes s2 h 4 (length m) Hh2 Hroom) as [Hmsg Em]. split_and!; try done.
    - apply take_ge. lia.
    - rewrite Eh. apply frame_len_copy; [done|]. lia.
    - fold msg in Em. rewrite Em, Eh, copy_at_0 by lia. unfold d at 1. rewrite <-app_assoc.
      change (take (length m) (a ++ drop (length d) old) = a ++ take (length m - length a) (drop (4 + length a) old)).
      by rewrite Hd, take_app, (take_ge a) by lia.
    - apply Nat.ltb_ge. pose proof (slice_cap_room _ _ _ Hg2 Hh2). unfold MessagePoolMetaByteCount in *. lia. }
  unfold frame_chunks. case_bool.
  - destruct (Hfirst 0 m) as (Et & Hg2 & Hh2 & Hm2 & El & Em & Ec); [lia|].
    cbn [app Read Packets_Reader packets]. rewrite Et.
    assert (length (framer_header (length m) 0 ++ m) = 4 + length m) as -> by (by rewrite length_app).
    rewrite (proj2 (Nat.ltb_ge _ _)) by lia. rewrite El, (proj2 (Nat.ltb_ge _ _)) by done. rewrite Ec.
    rewrite (proj2 (Nat.ltb_ge _ _)) by lia. eexists _, _. split; [done|]. split; [|eexists; split; [exact Hg2|exact Hrp]].
    fold msg. rewrite Em, Nat.sub_diag. cbn [take]. apply app_nil_r.
  - set (k := length m / 2) in *. assert (k ≤ length m) as Hk by (apply Nat.Div0.div_le_upper_bound; lia).
    assert (length (take k m) = k) as Hlk by (rewrite length_take; lia).
    destruct (Hfirst k (take k m)) as (Et & Hg2 & Hh2 & Hm2 & El & Em & Ec); [lia|].
    cbn [app Read Packets_Reader packets]. rewrite Et.
    assert (length (framer_header (length m) k ++ take k m) = 4 + k) as -> by (rewrite length_app, Hlk; done).
    rewrite (proj2 (Nat.ltb_ge _ _)) by lia. rewrite El, (proj2 (Nat.ltb_ge _ _)) by done. rewrite Ec.
    assert (0 < length m - k) as Hrest.
    { assert (16 ≤ length m) by lia. unfold k. pose proof (Nat.div_lt (length m) 2). lia. }
    replace (4 + k - 4) with k by lia. rewrite (proj2 (Nat.ltb_lt _ _)) by lia.
    assert (length (drop k m) = length m - k) as Hdk by apply length_drop.
    assert (ReadFull (length m - k) (mkPackets (drop k m :: ps)) = Val (drop k m, None, mkPackets ps)) as ->.
    { unfold ReadFull. cbn [ReadFull_loop read_rank Packets_Reader packets length Read].
      destruct (Nat.eqb_spec (length m - k) 0); [lia|]. rewrite take_ge by lia. cbn [ReadFull_loop].
      rewrite Hdk, Nat.sub_diag. cbn [Nat.eqb obind]. by rewrite app_nil_r. }
    cbn [obind]. fold msg. eexists _, _. split; [done|].
    pose proof (slice_write msg k (drop k m) _ Hm2) as Ew. rewrite Em in Ew. rewrite Hlk in Ew. rewrite Ew by (cbn [sl_len msg]; lia).
    split.
    + rewrite <-Hlk at 1. rewrite copy_at_middle; [by rewrite take_drop|].
      rewrite Hdk, length_take, length_drop, Hold. unfold N. lia.
    + eexists. split; [apply (write_ok msg k (drop k m) _ _ Hg2); [done|done]|exact Hrp].
Qed.

(** ** Reading a stream into messages of the pools *)
Definition result_bytes (s : Pools) (res : read_result) : option (list byte) :=
  match res with InPool m => Some (slice_bytes (heap s) m) | Own b => Some b | Failed _ => None end.
(** [b] is a message that the reader owns. *)
Definition owned (s : Pools) (rf : gmap positive Z) (b : Slice) : Prop :=
  pools_ok s rf ∧ (0 < rc rf (sl_ptr b))%Z ∧ slice_ok s b.
Definition filled (s : Pools) (b : Slice) (i : nat) : list byte :=
  slice_bytes (heap s) (mkSlice (sl_ptr b) (sl_off b) i).
Lemma filled_take s rf b i : owned s rf b → i ≤ sl_len b → filled s b i = take i (slice_bytes (heap s) b).
Proof.
  intros (_ & _ & Hb) Hi. destruct (sub_slice_bytes s b 0 i Hb Hi) as [_ E].
  rewrite Nat.add_0_r in E. exact E.
Qed.
Lemma owned_write s rf b i d :
  owned s rf b → i + length d ≤ sl_len b →
  owned (write_slice b i d s) rf b ∧ filled (write_slice b i d s) b (i + length d) = filled s b i ++ d ∧
  sizes_of (write_slice b i d s) = sizes_of s.
Proof.
  intros Ho Hd. pose proof Ho as (Hg & Hr & Hb). destruct (write_ok b i d s rf Hg Hr Hb) as (Hg' & _ & Hb').
  split; [done|]. split; [|done].
  rewrite (filled_take _ rf), (filled_take s rf) by (done || lia). rewrite slice_write by done.
  pose proof (slice_bytes_length s b Hb) as Hl. set (l := slice_bytes _ _) in *. clearbody l.
  rewrite <-(take_drop i l) at 1. assert (length (take i l) = i) as Hi by (rewrite length_take; lia).
  rewrite <-(take_drop (length d) (drop i l)). rewrite app_assoc. unfold copy_at.
  rewrite <-Hi at 2. replace (length (take i l)) with (length (take i l) + 0) by lia.
  rewrite <-app_assoc, list_inserts_app_r, list_inserts_0_r by (rewrite length_take, length_drop; lia).
  rewrite take_app, (take_ge (take i l)) by lia. f_equal. rewrite Hi, take_app.
  rewrite (take_ge d) by lia. replace (i + length d - i - length d) with 0 by lia. apply app_nil_r.
Qed.

Lemma fill_loop_clean fuel b i r s rf :
  owned s rf b → clean r → i ≤ sl_len b → read_rank r < fuel →
  ∃ f i' r' s', fill_loop fuel b i r s = Val (f, i', r', s') ∧ owned s' rf b ∧ clean r' ∧
    read_rank r' ≤ read_rank r ∧ sizes_of s' = sizes_of s ∧ i' ≤ sl_len b ∧
    filled s b i ++ data r = filled s' b i' ++ data r' ∧
    ((f = FillReturn ∧ data r' = []) ∨ (f = FillNext ∧ i' = sl_len b)).
Proof.
  revert i r s. induction fuel as [|fuel IH]; intros i r s Ho Hr Hi Hf; [lia|]. cbn [fill_loop].
  case_bool; [eexists _, i, r, s; split; [done|]; split_and!; try done; right; split; [done|lia]|].
  destruct (decide (chunks r = [])) as [E|Hn].
  { cbn [Read Stream_Reader]. rewrite E. cbn [length Nat.eqb].
    destruct (owned_write s rf b i [] Ho) as (Ho' & Ef & Hs); [simpl; lia|].
    rewrite Nat.add_0_r, app_nil_r in Ef. eexists _, _, _, _. split; [done|]. split_and!; try done; [by rewrite Ef|].
    left. split; [done|]. unfold data. by rewrite E. }
  destruct (clean_read (sl_len b - i) r Hr ltac:(lia) Hn) as (d & Er & Hd & Hdk & Ed).
  pose proof (read_rank_lt (sl_len b - i) r ltac:(lia)) as Hrank. rewrite Er in Hrank |- *. cbn [fst snd] in Hrank.
  specialize (Hrank eq_refl). assert (length d ≠ 0) by (by destruct d). destruct (Nat.eqb_spec (length d) 0); [done|].
  destruct (owned_write s rf b i d Ho) as (Ho' & Ef & Hs); [lia|].
  destruct (IH (i + length d) (skip (length d) r) (write_slice b i d s)) as (f & i' & r' & s' & -> & H1 & H2 & H3 & H4 & H5 & H6 & H7);
    [done|by apply skip_clean|lia|lia|].
  eexists _, _, _, _. split; [done|]. split_and!; try done; [lia|].
  rewrite <-H6, Ef, <-app_assoc. by rewrite Ed at 1.
Qed.
Lemma append_loop_clean fuel b out r s rf :
  owned s rf b → clean r → 0 < sl_len b → read_rank r < fuel →
  ∃ r' s', append_loop fuel b out r s = Val (inl (out ++ data r), r', s') ∧ owned s' rf b.
Proof.
  revert out r s. induction fuel as [|fuel IH]; intros out r s Ho Hr Hb Hf; [lia|]. cbn [append_loop].
  destruct (decide (chunks r = [])) as [E|Hn].
  { cbn [Read Stream_Reader]. rewrite E. cbn [length Nat.eqb]. eexists _, _. split.
    - unfold data. by rewrite E, app_nil_r.
    - apply (owned_write s rf b 0 [] Ho). simpl. lia. }
  destruct (clean_read (sl_len b) r Hr Hb Hn) as (d & Er & Hd & Hdk & Ed).
  pose proof (read_rank_lt (sl_len b) r ltac:(lia)) as Hrank. rewrite Er in Hrank |- *. cbn [fst snd] in Hrank.
  specialize (Hrank eq_refl). assert (length d ≠ 0) by (by destruct d). destruct (Nat.eqb_spec (length d) 0); [done|].
  destruct (owned_write s rf b 0 d Ho) as (Ho' & Ef & Hs); [lia|].
  change (slice_bytes _ (mkSlice _ _ (length d))) with (filled (write_slice b 0 d s) b (0 + length d)).
  rewrite Ef. destruct (IH (out ++ filled s b 0 ++ d) (skip (length d) r) (write_slice b 0 d s)) as (r' & s' & -> & Hs');
    [done|by apply skip_clean|done|lia|].
  eexists _, _. split; [|done]. assert (filled s b 0 = []) as -> by (unfold filled, slice_bytes; done).
  rewrite Ed at 1. cbn [app]. by rewrite app_assoc.
Qed.
(** The message [b] moves to a message of the next size. *)
Lemma grow size tag b s rf :
  owned s rf b →
  ∃ b2 c s2 rf', MessagePoolGetDetailedWithTag size tag s = Val (b2, c, s2) ∧ sl_len b2 = size ∧
    let s4 := (MessagePoolReturn b (write_slice b2 0 (slice_bytes (heap s2) b) s2)).2 in
    owned s4 rf' b2 ∧ (sl_len b ≤ size → filled s4 b2 (sl_len b) = filled s b (sl_len b)).
Proof.
  intros (Hg1 & Hrc1 & Hb1).
  destruct (get_ok size tag s rf Hg1) as (b2 & c & s2 & -> & Hg2 & Hrc2 & Hb2 & Hl2 & Hk2 & _).
  assert (slice_bytes (heap s2) b = slice_bytes (heap s) b) as Eb by apply (slice_bytes_kept _ s s2 b Hk2 I Hb1).
  assert (sl_ptr b2 ≠ sl_ptr b) as Hne by (intros E; rewrite E in Hrc2; lia).
  set (rf2 := add_ref (sl_ptr b2) 1 rf) in *.
  assert (0 < rc rf2 (sl_ptr b2))%Z as Hr2 by (unfold rf2; rewrite rc_add_ref, decide_True by done; lia).
  pose proof (slice_bytes_length s b Hb1) as Hlen.
  destruct (write_ok b2 0 (slice_bytes (heap s2) b) s2 rf2 Hg2 Hr2 Hb2) as (Hg3 & _ & Hb3).
  rewrite Eb in *. set (s3 := write_slice b2 0 _ s2) in *.
  destruct (return_ok b s3 rf2 Hg3) as (Hg4 & Hk4 & _).
  { unfold rf2. rewrite rc_add_ref, decide_False by done. done. }
  set (s4 := (MessagePoolReturn b s3).2) in *. destruct (slice_bytes_kept _ s3 s4 b2 Hk4 I Hb3) as [E4 Hb4].
  match type of Hg4 with pools_ok _ ?x => set (rf4 := x) in * end.
  assert (owned s4 rf4 b2) as Ho4.
  { split_and!; try done. unfold rf4. destruct (pool_of_cap _ _); [|done].
    rewrite rc_add_ref, decide_False by done. done. }
  exists b2, c, s2, rf4. split; [done|]. split; [done|]. cbv zeta. rewrite Eb. fold s3 s4. split; [done|]. intros Hle.
  assert (owned s2 rf2 b2) as Ho2 by (by split_and!).
  destruct (owned_write s2 rf2 b2 0 (slice_bytes (heap s) b) Ho2) as (Ho3 & Ef & _); [lia|]. fold s3 in Ho3, Ef.
  cbn [Nat.add] in Ef. rewrite Hlen in Ef. rewrite (filled_take s4 rf4), E4 by (done || lia).
  rewrite <-(filled_take s3 rf2) by (done || lia). rewrite Ef. unfold filled, slice_bytes. cbn [sl_len take]. done.
Qed.
Lemma read_pools_clean fuel sizes tag b i r s rf :
  owned s rf b → clean r → i ≤ sl_len b → read_rank r < fuel → Sorted lt (sl_len b :: sizes) → 0 < sl_len b →
  ∃ res r' s', read_pools fuel sizes tag b i r s = Val (res, r', s') ∧
    result_bytes s' res = Some (filled s b i ++ data r) ∧ ∃ rf', pools_ok s' rf'.
Proof.
  revert b i r s rf. induction sizes as [|size sizes IH]; intros b i r s rf Ho Hr Hi Hf Hs Hb; cbn [read_pools];
    destruct (fill_loop_clean fuel b i r s rf Ho Hr Hi Hf) as (f & i' & r1 & s1 & -> & Ho1 & Hr1 & Hk1 & Hz1 & Hi1 & Ed & Hres);
    cbn [obind]; destruct Hres as [[-> Hend]|[-> ->]].
  - eexists _, _, _. split; [done|]. split; [|by destruct Ho1; eexists].
    cbn [result_bytes]. change (slice_bytes _ _) with (filled s1 b i'). by rewrite Ed, Hend, app_nil_r.
  - change (slice_bytes _ (mkSlice _ _ (sl_len b))) with (filled s1 b (sl_len b)).
    destruct (append_loop_clean fuel b (filled s1 b (sl_len b)) r1 s1 rf Ho1 Hr1 Hb ltac:(lia)) as (r2 & s2 & -> & (Hg2 & Hrc2 & Hb2)).
    cbn [obind]. eexists _, _, _. split; [done|]. split; [by rewrite Ed|].
    eexists. by apply return_ok.
  - eexists _, _, _. split; [done|]. split; [|by destruct Ho1; eexists].
    cbn [result_bytes]. change (slice_bytes _ _) with (filled s1 b i'). by rewrite Ed, Hend, app_nil_r.
  - apply Sorted_inv in Hs as [Hs Hd]. apply HdRel_inv in Hd.
    destruct (grow size tag b s1 rf Ho1) as (b2 & c & s2 & rf4 & -> & Hl2 & Ho4 & Ef). cbn [obind].
    destruct (IH b2 (sl_len b) r1 _ rf4 Ho4) as (res & r' & s' & -> & Hres & Hg'); [done|lia|lia|by rewrite Hl2|lia|].
    eexists _, _, _. split; [done|]. split; [|done]. rewrite Hres, Ed. by rewrite Ef by lia.
Qed.

(** Reading ends, whatever the reader gives. *)
Section Total.
Context {R : Type} `{ReaderLaws R}.
Lemma fill_loop_total fuel b i (r : R) s rf :
  owned s rf b → read_rank r < fuel →
  ∃ f i' r' s', fill_loop fuel b i r s = Val (f, i', r', s') ∧
    (f = FillNext → owned s' rf b ∧ read_rank r' ≤ read_rank r).
Proof.
  revert i r s. induction fuel as [|fuel IH]; intros i r s Ho Hf; [lia|]. cbn [fill_loop].
  case_bool; [by eexists _, i, r, s|].
  pose proof (read_length (sl_len b - i) r) as Hd. pose proof (read_rank_lt (sl_len b - i) r ltac:(lia)) as Hr.
  destruct (Read (sl_len b - i) r) as [[d e] r1]. cbn [fst snd] in *.
  destruct (owned_write s rf b i d Ho) as (Ho' & _); [lia|].
  destruct (Nat.eqb_spec (length d) 0); [by eexists _, _, _, _|].
  destruct e as [e|]; [by eexists _, _, _, _|]. specialize (Hr eq_refl).
  destruct (IH (i + length d) r1 _ Ho') as (f & i' & r' & s' & -> & Hx); [lia|].
  eexists _, _, _, _. split; [done|]. intros E. destruct (Hx E). split; [done|]. lia.
Qed.
Lemma append_loop_total fuel b out (r : R) s rf :
  owned s rf b → read_rank r < fuel → ∃ res, append_loop fuel b out r s = Val res.
Proof.
  revert out r s. induction fuel as [|fuel IH]; intros out r s Ho Hf; [lia|]. cbn [append_loop].
  pose proof (read_length (sl_len b) r) as Hd. pose proof (read_rank_lt (sl_len b) r) as Hr.
  destruct (Read (sl_len b) r) as [[d e] r1]. cbn [fst snd] in *.
  destruct (owned_write s rf b 0 d Ho) as (Ho' & _); [lia|].
  destruct (Nat.eqb_spec (length d) 0); [by eexists|]. destruct e as [e|]; [by eexists|].
  apply IH; [done|]. specialize (Hr ltac:(lia) eq_refl). lia.
Qed.
Lemma read_pools_total fuel sizes tag b i (r : R) s rf :
  owned s rf b → read_rank r < fuel → ∃ res, read_pools fuel sizes tag b i r s = Val res.
Proof.
  revert b i r s rf. induction sizes as [|size sizes IH]; intros b i r s rf Ho Hf; cbn [read_pools];
    destruct (fill_loop_total fuel b i r s rf Ho Hf) as (f & i' & r1 & s1 & -> & Hx); cbn [obind];
    destruct f; try (by eexists); destruct (Hx eq_refl) as [Ho1 Hr1].
  - destruct (append_loop_total fuel b (filled s1 b i') r1 s1 rf Ho1) as [[[out r2] s2] E]; [lia|].
    unfold filled in E. rewrite E. by eexists.
  - destruct (grow size tag b s1 rf Ho1) as (b2 & c & s2 & rf4 & -> & _ & Ho4 & _). cbn [obind].
    apply (IH _ _ _ _ _ Ho4). lia.
Qed.
Lemma MessagePoolReadAll_total (r : R) s rf :
  pools_ok s rf → pools s ≠ [] → ∃ res, MessagePoolReadAll r s = Val res.
Proof.
  intros Hg Hn. unfold MessagePoolReadAll, MessagePoolReadAllWithTag.
  destruct (map mp_size (pools s)) as [|size sizes] eqn:Es; [by destruct (pools s)|].
  destruct (get_ok size Byte.x00 s rf Hg) as (b & c & s1 & -> & Hg1 & Hrc & Hb & _). cbn [obind].
  apply (read_pools_total _ _ _ _ _ _ _ (add_ref (sl_ptr b) 1 rf)); [|lia].
  split_and!; try done. rewrite rc_add_ref, decide_True by done. lia.
Qed.
End Total.

(** Reading a stream whole: what the stream holds, in one message of the pools
    when it fits. *)
Lemma MessagePoolReadAll_clean r s rf :
  pools_ok s rf → clean r → pools s ≠ [] → Sorted lt (0 :: map mp_size (pools s)) →
  ∃ res r' s', MessagePoolReadAll r s = Val (res, r', s') ∧ result_bytes s' res = Some (data r) ∧ ∃ rf', pools_ok s' rf'.
Proof.
  intros Hg Hr Hn Hs. unfold MessagePoolReadAll, MessagePoolReadAllWithTag.
  destruct (map mp_size (pools s)) as [|size sizes] eqn:Es; [by destruct (pools s)|].
  apply Sorted_inv in Hs as [Hs Hd%HdRel_inv].
  destruct (get_ok size Byte.x00 s rf Hg) as (b & c & s1 & -> & Hg1 & Hrc & Hb & Hl & _). cbn [obind].
  destruct (read_pools_clean (S (read_rank r)) sizes Byte.x00 b 0 r s1 (add_ref (sl_ptr b) 1 rf)) as (res & r' & s' & -> & Hres & Hg').
  - split_and!; try done. rewrite rc_add_ref, decide_True by done. lia.
  - done.
  - lia.
  - lia.
  - by rewrite Hl.
  - lia.
  - eexists _, _, _. split; [done|]. split; [|done]. rewrite Hres. unfold filled, slice_bytes. done.
Qed.

(** ** Messages through the framer *)
Section Messages.
Context (self : Framer).
(** The messages are written one after the other, and read, copied and returned
    one after the other. *)
Fixpoint framer_writes (ms : list (list byte)) (w : Packets) (s : Pools) : outcome (Packets * Pools) :=
  match ms with
  | [] => Val (w, s)
  | m :: ms =>
      let! (err, w, s) := Framer_Write self w m s in
      match err with Some e => Err e | None => framer_writes ms w s end
  end.
Context {R : Type} (read : R → Pools → outcome ((Slice + string) * R * Pools)).
Fixpoint framer_reads (n : nat) (r : R) (s : Pools) : outcome (list (list byte) * R * Pools) :=
  match n with
  | 0 => Val ([], r, s)
  | S n =>
      let! (m, r, s) := read r s in
      match m with
      | inr e => Err e
      | inl m =>
          let message := slice_bytes (heap s) m in
          let! (ms, r, s) := framer_reads n r (MessagePoolReturn m s).2 in Val (message :: ms, r, s)
      end
  end.
End Messages.

(** The chunks of a stream may be cut anywhere but in the headers. *)
Fixpoint whole_headers (ms : list (list byte)) (r : Stream) : Prop :=
  match ms with
  | [] => True
  | m :: ms => 4 ≤ length (hd ([], None) (chunks r)).1 ∧ whole_headers ms (skip (4 + length m) r)
  end.

Lemma framer_writes_spec self ms ps s rf :
  pools_ok s rf → Forall (fits (settings self)) ms →
  ∃ s', framer_writes self ms (mkPackets ps) s =
      Val (mkPackets (ps ++ concat (map (frame_chunks (settings self)) ms)), s') ∧ pools_ok s' rf.
Proof.
  intros Hg Hf. revert ps s Hg. induction Hf as [|m ms Hm Hf IH]; intros ps s Hg; cbn [framer_writes map concat].
  - rewrite app_nil_r. by eexists.
  - destruct (Framer_Write_spec self ps m s rf Hg Hm) as (s1 & -> & Hg1). cbn [obind].
    destruct (IH (ps ++ frame_chunks (settings self) m) s1 Hg1) as (s' & -> & Hg'). rewrite <-app_assoc. by eexists.
Qed.
Lemma framer_reads_stream self ms r s rf :
  pools_ok s rf → Forall (fits (settings self)) ms → clean r → whole_headers ms r →
  data r = concat (concat (map (frame_chunks (settings self)) ms)) →
  ∃ r' s', framer_reads (Framer_Read self) (length ms) r s = Val (ms, r', s') ∧ data r' = [] ∧ pools_ok s' rf.
Proof.
  intros Hg Hf. revert r s Hg. induction Hf as [|m ms Hm Hf IH]; intros r s Hg Hr Hw Ed; cbn [framer_reads length].
  - by eexists _, _.
  - cbn [map concat] in Ed. rewrite concat_app in Ed.
    destruct (frame_chunks_concat (settings self) m) as [x Ex]. rewrite Ex, <-app_assoc in Ed.
    destruct Hw as [Hh Hw].
    destruct (Framer_Read_spec self r m x _ s rf Hg Hm Hr Hh Ed) as (b & s1 & -> & Eb & Hg1). cbn [obind].
    destruct (IH (skip (4 + length m) r) _ Hg1) as (r' & s' & -> & Hr' & Hg'); [by apply skip_clean|done| |].
    + rewrite skip_data, Ed, app_assoc. apply drop_app_length'. by rewrite length_app, framer_header_length.
    + cbn [obind]. rewrite Eb. by eexists _, _.
Qed.
Lemma framer_reads_packets self ms s rf :
  pools_ok s rf → Forall (fits (settings self)) ms → MaxMessageLen (settings self) ≤ MaxPacketMessageLen (settings self) →
  ∃ s', framer_reads (Framer_ReadPacket self) (length ms)
      (mkPackets (concat (map (frame_chunks (settings self)) ms))) s = Val (ms, mkPackets [], s').
Proof.
  intros Hg Hf Hmax. revert s rf Hg. induction Hf as [|m ms Hm Hf IH]; intros s rf Hg; cbn [framer_reads length map concat].
  - by eexists.
  - destruct (Framer_ReadPacket_spec self m (concat (map (frame_chunks (settings self)) ms)) s rf Hg Hm Hmax)
      as (b & s1 & -> & Eb & (rf1 & Hg1 & Hrc)). cbn [obind].
    destruct (return_ok b s1 rf1 Hg1 Hrc) as (Hg2 & _). destruct (IH _ _ Hg2) as (s' & ->). cbn [obind]. rewrite Eb. by eexists.
Qed.

(** C40. Messages that fit, written one after the other by a framer, come out as
    they were, in order: from a stream of what was written, cut anywhere but
    inside a header, and from the written packets one by one. Writing, and
    reading from the stream, end without an error and leave the pools as they
    were. *)
Theorem framer_roundtrip (self : Framer) (ms : list (list byte)) (s : Pools) (rf : gmap positive Z) :
  pools_ok s rf → Forall (fits (settings self)) ms →
  ∃ ps s1, framer_writes self ms (mkPackets []) s = Val (ps, s1) ∧ pools_ok s1 rf ∧
    (∀ r, clean r → data r = concat (packets ps) → whole_headers ms r →
      ∃ r' s2, framer_reads (Framer_Read self) (length ms) r s1 = Val (ms, r', s2) ∧ data r' = [] ∧ pools_ok s2 rf) ∧
    (MaxMessageLen (settings self) ≤ MaxPacketMessageLen (settings self) →
      ∃ s3, framer_reads (Framer_ReadPacket self) (length ms) ps s1 = Val (ms, mkPackets [], s3)).
Proof.
  intros Hg Hf. destruct (framer_writes_spec self ms [] s rf Hg Hf) as (s1 & E & Hg1).
  eexists _, s1. split; [exact E|]. split; [done|]. cbn [packets app]. split.
  - intros r Hr Ed Hw. by apply framer_reads_stream.
  - intros Hmax. by apply (framer_reads_packets self ms s1 rf).
Qed.

(** Reading all ends for every reader that keeps its contract, in the fuel
    that the rank of the reader gives. A stream without errors is read whole:
    its bytes are in a message of the pools, or in bytes of their own when no
    pool has room. *)
Theorem read_all {R : Type} `{ReaderLaws R} (r : R) (sizes : list (nat * nat)) :
  sizes ≠ [] →
  (∃ res, MessagePoolReadAll r (newPools sizes) = Val res) ∧
  (∀ q : Stream, clean q → Sorted lt (0 :: map fst sizes) →
    ∃ res q' s', MessagePoolReadAll q (newPools sizes) = Val (res, q', s') ∧ result_bytes s' res = Some (data q)).
Proof.
  intros Hn. assert (pools (newPools sizes) ≠ []) as Hp by (by destruct sizes). split.
  - apply (MessagePoolReadAll_total r _ ∅); [apply new_pools_ok|done].
  - intros q Hq Hs. destruct (MessagePoolReadAll_clean q (newPools sizes) ∅) as (res & q' & s' & E & Hres & _).
    + apply new_pools_ok.
    + done.
    + done.
    + unfold newPools. cbn [pools]. rewrite map_map. exact Hs.
    + by eexists _, _, _.
Qed.

(** ** Concrete messages *)
Module FramerExample.
Definition bs (l : list Z) : list byte := map byte_of l.
Definition ex_settings : FramerSettings := mkFramerSettings 40 40 16.
Definition ex_framer : Framer := mkFramer (replicate 40 Byte.x00) (replicate 40 Byte.x00) ex_settings.
Example new_framer : NewFramer ex_settings = Val ex_framer.
Proof. reflexivity. Qed.
Definition ex_pools : Pools := newPools [(8, 2); (64, 2)].
Definition ex_messages : list (list byte) := [bs [1; 2; 3]%Z; replicate 20 Byte.x07; []].
(** The bytes of the three messages, cut in the middle of the second. *)
Definition ex_stream : Stream :=
  let b := concat (concat (map (frame_chunks ex_settings) ex_messages)) in
  mkStream [(take 17 b, None); (drop 17 b, None)].
Lemma framer_roundtrip_witness :
  ∃ r' s1 s2, framer_reads (Framer_Read ex_framer) 3 ex_stream s1 = Val (ex_messages, r', s2).
Proof.
  destruct (framer_roundtrip ex_framer ex_messages ex_pools ∅) as (ps & s1 & E & _ & H & _).
  - apply new_pools_ok.
  - repeat constructor; vm_compute; discriminate || lia.
  - destruct (H ex_stream) as (r' & s2 & Hr & _).
    + repeat constructor; try (vm_compute; discriminate).
    + apply (f_equal (λ o, match o with Val (ps, _) => concat (packets ps) | _ => [] end)) in E.
      rewrite <-E. vm_compute. reflexivity.
    + vm_compute. repeat split; lia.
    + exists r', s1, s2. exact Hr.
Defined.
Lemma read_all_witness :
  ∃ res r' s', MessagePoolReadAll ex_stream ex_pools = Val (res, r', s') ∧ result_bytes s' res = Some (data ex_stream).
Proof.
  apply (read_all (mkPackets []) [(8, 2); (64, 2)]).
  - discriminate.
  - repeat constructor; try (vm_compute; discriminate).
  - repeat constructor.
Defined.

(** A header that comes in two chunks is an error, and its first part is lost. *)
Definition ex_cut : Stream :=
  let b := concat (frame_chunks ex_settings (bs [1; 2; 3]%Z)) in mkStream [(take 2 b, None); (drop 2 b, None)].
Example header_cut : 
  match Framer_Read ex_framer ex_cut ex_pools with
  | Val (inr e, r, _) => e = "Could not read header."%string ∧ length (data r) = 5
  | _ => False end.
Proof. vm_compute. repeat split. Qed.
(** The message of [ReadPacket] is inside a pool message: returning it does nothing. *)
Example packet_not_returned :
  match Framer_ReadPacket ex_framer (mkPackets (frame_chunks ex_settings (bs [1; 2; 3]%Z))) ex_pools with
  | Val (inl m, _, s) => (MessagePoolReturn m s).1 = false ∧ (MessagePoolCheck m s).1 = false
  | _ => False end.
Proof. vm_compute. repeat split. Qed.
(** An error that comes without data ends the message as [io.EOF] does; an
    [io.EOF] that comes with data, as readers may, loses the message. *)
Example read_all_hides_error :
  match MessagePoolReadAll (mkStream [(bs [1; 2]%Z, None); ([], Some "connection reset"%string)]) ex_pools with
  | Val (res, _, s) => result_bytes s res = Some (bs [1; 2]%Z)
  | _ => False end.
Proof. vm_compute. reflexivity. Qed.
Example read_all_drops_last :
  match MessagePoolReadAll (mkStream [(bs [1; 2]%Z, Some EOF)]) ex_pools with
  | Val (Failed e, _, s) => e = EOF
  | _ => False end.
Proof. vm_compute. reflexivity. Qed.
End FramerExample.
