(* ===== verification/ResilientTls.v ===== *)
(** * Resilient TLS connections: net_resilient.go

    A connection under a TLS client that cuts the record of its ClientHello into
    small records around the server name, and sends pieces with a time to live
    of zero, so that they are lost and come out of order. Reading the ClientHello
    uses cryptobyte, which is third party code: a class of functions with its
    laws. Random numbers are any numbers: [Intn n] is [seed mod n]. *)

From S2P Require Import Prelude.
Open Scope go_scope.

(** ** Records *)
Definition be_value (l : list byte) : Z := fold_left (λ a b, a * 256 + byte_val b)%Z l 0%Z.
Record tlsHeader := mkTlsHeader { contentType : byte; tlsVersion : Z; contentLength : Z }.
(** The five bytes of a header. *)
Definition parseTlsHeader (b : list byte) : outcome tlsHeader :=
  match b with
  | [t; v1; v0; l1; l0] => Val (mkTlsHeader t (be_value [v1; v0]) (be_value [l1; l0]))
  | _ => Panic "index out of range"
  end.
Definition reconstruct (self : tlsHeader) (content : list byte) : list byte :=
  contentType self :: be16 (tlsVersion self) ++ be16 (u16 (Z.of_nat (length content))) ++ content.

(** ** The ClientHello *)
Class Cryptobyte := {
  ReadUint8 : list byte → option (Z * list byte);
  ReadUint16 : list byte → option (Z * list byte);
  ReadBytes : nat → list byte → option (list byte * list byte);
  (** [ReadUint8LengthPrefixed], [ReadUint16LengthPrefixed], [ReadUint24LengthPrefixed] *)
  ReadLengthPrefixed : nat → list byte → option (list byte * list byte)
}.
Class CryptobyteLaws (cb : Cryptobyte) := {
  read_uint8 s v r : ReadUint8 s = Some (v, r) → ∃ b, s = b :: r ∧ v = byte_val b;
  read_uint16 s v r : ReadUint16 s = Some (v, r) → ∃ b, s = b ++ r ∧ length b = 2 ∧ v = be_value b;
  read_bytes n s b r : ReadBytes n s = Some (b, r) → s = b ++ r ∧ length b = n;
  read_prefixed n s c r : ReadLengthPrefixed n s = Some (c, r) →
    ∃ l, s = l ++ c ++ r ∧ length l = n ∧ be_value l = Z.of_nat (length c)
}.

(** An extension with its place in the extensions. *)
Record Extension := mkExtension { ext_Type : Z; ext_Data : list byte; ext_start : nat; ext_end : nat }.
(** [ClientHelloInfo], without the names and fingerprints that tlshacks adds. *)
Record ClientHelloInfo := mkInfo {
  hello_Version : Z;
  hello_Random : list byte;
  hello_SessionID : list byte;
  hello_CipherSuites : list Z;
  hello_CompressionMethods : list Z;
  hello_Extensions : list Extension;
  hello_ServerName : option (list byte)    (** the data of the last server name *)
}.
Record clientHelloMeta := mkMeta { ServerNameValueStart : nat; ServerNameValueEnd : nat }.

Section Hello.
Context `{Cryptobyte}.
(** [for !s.Empty() { if !s.Read(&v) { return nil } ... }] *)
Fixpoint read_all {A} (read : list byte → option (A * list byte)) (fuel : nat) (s : list byte) : option (list A) :=
  match s with
  | [] => Some []
  | _ =>
      match fuel with
      | 0 => None
      | S fuel => '(v, s) ← read s; l ← read_all read fuel s; Some (v :: l)
      end
  end.
Fixpoint read_extensions (fuel extensionsLength : nat) (extensions : list byte) : option (list Extension) :=
  match extensions with
  | [] => Some []
  | _ =>
      match fuel with
      | 0 => None
      | S fuel =>
          let start := extensionsLength - length extensions in
          '(extType, extensions) ← ReadUint16 extensions;
          '(extData, extensions) ← ReadLengthPrefixed 2 extensions;
          let end_ := extensionsLength - length extensions in
          l ← read_extensions fuel extensionsLength extensions;
          Some (mkExtension extType extData start end_ :: l)
      end
  end.
(** The last extension of type 0 counts. *)
Fixpoint server_name (extensions : list Extension) : option Extension :=
  match extensions with
  | [] => None
  | e :: l => match server_name l with
              | Some e => Some e
              | None => if (ext_Type e =? 0)%Z then Some e else None
              end
  end.
Definition UnmarshalClientHello (handshakeBytes : list byte) : option (ClientHelloInfo * clientHelloMeta) :=
  '(messageType, handshakeMessage) ← ReadUint8 handshakeBytes;
  if negb (messageType =? 1)%Z then None else
  let handshakeStart := length handshakeBytes - length handshakeMessage in
  '(clientHello, handshakeMessage) ← ReadLengthPrefixed 3 handshakeMessage;
  if negb (length handshakeMessage =? 0) then None else
  let clientHelloLength := length clientHello in
  '(version, clientHello) ← ReadUint16 clientHello;
  '(random, clientHello) ← ReadBytes 32 clientHello;
  '(sessionId, clientHello) ← ReadLengthPrefixed 1 clientHello;
  '(cipherSuites, clientHello) ← ReadLengthPrefixed 2 clientHello;
  suites ← read_all ReadUint16 (length cipherSuites) cipherSuites;
  '(compressionMethods, clientHello) ← ReadLengthPrefixed 1 clientHello;
  methods ← read_all ReadUint8 (length compressionMethods) compressionMethods;
  if length clientHello =? 0 then Some (mkInfo version random sessionId suites methods [] None, mkMeta 0 0) else
  let clientHelloStart := clientHelloLength - length clientHello in
  '(extensions, clientHello) ← ReadLengthPrefixed 2 clientHello;
  exts ← read_extensions (length extensions) (length extensions) extensions;
  if negb (length clientHello =? 0) then None else
  let sn := server_name exts in
  Some (mkInfo version random sessionId suites methods exts (ext_Data <$> sn),
        match sn with
        | Some e => mkMeta (handshakeStart + clientHelloStart + ext_start e) (handshakeStart + clientHelloStart + ext_end e)
        | None => mkMeta 0 0
        end).
End Hello.

(** ** The connection *)
Inductive conn_effect := SetNoDelay | SetSocketTtl (ttl : Z) | ConnWrite (b : list byte).
Record ResilientTlsConn := mkResilient {
  rt_tcp : bool;                    (** the connection below is a TCP connection *)
  rt_fragment : bool;
  rt_reorder : bool;
  rt_nativeTtl : Z;
  rt_buffer : list byte;
  rt_enabled : bool;
  rt_effects : list conn_effect     (** what the connection below got *)
}.
Definition NewResilientTlsConn (tcp fragment reorder : bool) (nativeTtl : Z) : ResilientTlsConn :=
  mkResilient tcp fragment reorder nativeTtl [] true [].
Definition rt_set (buffer : list byte) (effects : list conn_effect) (c : ResilientTlsConn) : ResilientTlsConn :=
  mkResilient (rt_tcp c) (rt_fragment c) (rt_reorder c) (rt_nativeTtl c) buffer (rt_enabled c) effects.
Definition Off (c : ResilientTlsConn) : ResilientTlsConn :=
  mkResilient (rt_tcp c) (rt_fragment c) (rt_reorder c) (rt_nativeTtl c) (rt_buffer c) false (rt_effects c).

(** The random numbers of one record: the seeds of the split and of the step,
    and the coins of the pieces. *)
Record tls_rand := mkRand { rand_split : nat; rand_step : nat; rand_coins : nat → bool }.
Definition Intn (seed : nat) (n : Z) : outcome nat :=
  if (n <=? 0)%Z then Panic "invalid argument to Intn" else Val (seed mod Z.to_nat n).
(** [for i := split; i < end; i += step] *)
Fixpoint middle (fuel i step e : nat) (h : list byte) : list (list byte) :=
  if i <? e then
    match fuel with
    | 0 => []
    | S fuel => take (min (i + step) e - i) (drop i h) :: middle fuel (i + step) step e h
    end
  else [].
(** [for i := 0; i*blockSize < len(tlsBytes); i += 1] *)
Fixpoint tls_blocks (fuel : nat) (b : list byte) : list (list byte) :=
  match b with
  | [] => []
  | _ => match fuel with 0 => [] | S fuel => take 64 b :: tls_blocks fuel (drop 64 b) end
  end.
Fixpoint with_ttl (ttl : nat → Z) (j : nat) (l : list (list byte)) : list conn_effect :=
  match l with [] => [] | b :: l => SetSocketTtl (ttl j) :: ConnWrite b :: with_ttl ttl (S j) l end.

(** What is sent for a ClientHello with a server name. *)
Definition hello_effects (c : ResilientTlsConn) (rand : tls_rand) (header : tlsHeader) (h : list byte)
    (meta : clientHelloMeta) : outcome (list conn_effect) :=
  let s := ServerNameValueStart meta in let e := ServerNameValueEnd meta in
  let! r := Intn (rand_split rand) (Z.of_nat ((e + s) / 2) - Z.of_nat s) in
  let split := s + r in
  let! q := Intn (rand_step rand) (Z.of_nat e - Z.of_nat split) in
  let step := 1 + q in
  let parts := map (reconstruct header) (middle (e - split) split step e h) in
  let first := reconstruct header (take split h) in
  let last := reconstruct header (drop e h) in
  let native := rt_nativeTtl c in
  Val (if rt_fragment c && rt_tcp c && rt_reorder c then
         [SetNoDelay; SetSocketTtl 0; ConnWrite first] ++
         with_ttl (λ j, if rand_coins rand j then 0%Z else native) 0 parts ++ [SetSocketTtl native; ConnWrite last]
       else if rt_fragment c then map ConnWrite (first :: parts ++ [last])
       else if rt_reorder c && rt_tcp c then
         let tlsBytes := reconstruct header h in
         [SetNoDelay] ++ with_ttl (λ j, if Nat.even j then 0%Z else native) 0 (tls_blocks (length tlsBytes) tlsBytes) ++
         [SetSocketTtl native]
       else [ConnWrite (reconstruct header h)]).
Section Write.
Context `{Cryptobyte}.
(** What is sent for the record that ends at [hi] of the buffer. *)
Definition record_effects (c : ResilientTlsConn) (rand : tls_rand) (header : tlsHeader) (hi : nat)
    : outcome (list conn_effect) :=
  let raw := take hi (rt_buffer c) in
  if (byte_val (contentType header) =? 22)%Z then
    if hi <? 5 then Panic "slice bounds out of range" else
    let h := drop 5 raw in
    match UnmarshalClientHello h with
    | Some (info, meta) =>
        match hello_ServerName info with
        | Some _ => hello_effects c rand header h meta
        | None => Val [ConnWrite raw]
        end
    | None => Val [ConnWrite raw]
    end
  else Val [ConnWrite raw].
(** The connection takes [ok] more writes, then one fails; [None]: no write
    fails. What was done, whether a write failed, and what is left of [ok]. *)
Fixpoint run_effects (ok : option nat) (l : list conn_effect) : list conn_effect * bool * option nat :=
  match l with
  | [] => ([], false, ok)
  | ConnWrite b :: l =>
      match ok with
      | Some 0 => ([], true, ok)
      | _ => let '(done, failed, ok) := run_effects (pred <$> ok) l in (ConnWrite b :: done, failed, ok)
      end
  | e :: l => let '(done, failed, ok) := run_effects ok l in (e :: done, failed, ok)
  end.
(** The loop over the records of the buffer: whether a write failed. The index
    into the buffer is computed in [uint16]; a loop that does not advance runs
    out of fuel. *)
Fixpoint write_loop (fuel : nat) (ok : option nat) (rand : nat → tls_rand) (k : nat) (c : ResilientTlsConn)
    : outcome (bool * ResilientTlsConn) :=
  if length (rt_buffer c) <? 5 then Val (false, c) else
  match fuel with
  | 0 => Panic "out of fuel"
  | S fuel =>
      let! header := parseTlsHeader (take 5 (rt_buffer c)) in
      if (Z.of_nat (length (rt_buffer c)) <? 5 + contentLength header)%Z then Val (false, c) else
      let hi := Z.to_nat (u16 (5 + contentLength header)) in
      let! effects := record_effects c (rand k) header hi in
      let '(done, failed, ok) := run_effects ok effects in
      if (failed : bool) then Val (true, rt_set (rt_buffer c) (rt_effects c ++ done) c)
      else write_loop fuel ok rand (S k) (rt_set (drop hi (rt_buffer c)) (rt_effects c ++ done) c)
  end.
(** [Write]: the count, whether it failed, and the connection. *)
Definition Write (ok : option nat) (rand : nat → tls_rand) (b : list byte) (c : ResilientTlsConn)
    : outcome (nat * bool * ResilientTlsConn) :=
  if rt_enabled c then
    let buffer := rt_buffer c ++ b in
    let! (failed, c) := write_loop (length buffer) ok rand 0 (rt_set buffer (rt_effects c) c) in
    Val (if (failed : bool) then 0 else length b, failed, c)
  else match ok with
       | Some 0 => Val (0, true, c)
       | _ => Val (length b, false, rt_set (rt_buffer c) (rt_effects c ++ [ConnWrite b]) c)
       end.
End Write.

(** ** What the other side reads *)
(** The complete records of a stream of bytes, and what is left. *)
Fixpoint tls_records_from (fuel : nat) (b : list byte) : list (tlsHeader * list byte) * list byte :=
  match fuel with
  | 0 => ([], b)
  | S fuel =>
      match parseTlsHeader (take 5 b) with
      | Val header =>
          let n := Z.to_nat (contentLength header) in
          if length b <? 5 + n then ([], b)
          else let '(rs, rest) := tls_records_from fuel (drop (5 + n) b) in ((header, take n (drop 5 b)) :: rs, rest)
      | _ => ([], b)
      end
  end.
Definition tls_records (b : list byte) : list (tlsHeader * list byte) * list byte := tls_records_from (length b) b.
(** The content of records, byte by byte with its type and version. *)
Definition tls_contents (rs : list (tlsHeader * list byte)) : list (byte * Z * byte) :=
  concat (map (λ r, map (λ x, (contentType r.1, tlsVersion r.1, x)) r.2) rs).
Definition written_bytes (l : list conn_effect) : list byte :=
  concat (map (λ e, match e with ConnWrite b => b | _ => [] end) l).
(** The time to live of the socket. *)
Definition ttl_after (ttl : Z) (l : list conn_effect) : Z :=
  fold_left (λ t e, match e with SetSocketTtl t' => t' | _ => t end) l ttl.


(** *** Headers *)
Lemma be16_value v1 v0 : be16 (be_value [v1; v0]) = [v1; v0].
Proof.
  unfold be16, be_value. simpl. pose proof (byte_val_range v1) as H1. pose proof (byte_val_range v0) as H0.
  unfold is_u8 in *. f_equal; [|f_equal]; apply byte_val_inj; rewrite byte_val_of; unfold u8.
  - rewrite Z.shiftr_div_pow2 by lia. change (2 ^ 8)%Z with 256%Z.
    rewrite (Z.div_add_l (byte_val v1)) by lia. rewrite Z.div_small, Z.add_0_r by lia. apply Z.mod_small. lia.
  - change (2 ^ 8)%Z with 256%Z. rewrite Z.add_comm, Z.mod_add by lia. apply Z.mod_small. lia.
Qed.
Lemma value_be16 z : be_value (be16 z) = u16 z.
Proof.
  unfold be16, be_value. simpl. rewrite !byte_val_of. unfold u8, u16. rewrite Z.shiftr_div_pow2 by lia.
  change (2 ^ 8)%Z with 256%Z. change (2 ^ 16)%Z with (256 * 256)%Z. rewrite (Z.rem_mul_r z 256 256) by lia. lia.
Qed.
Lemma be_value_range v1 v0 : (0 ≤ be_value [v1; v0] < 2 ^ 16)%Z.
Proof.
  unfold be_value. simpl. pose proof (byte_val_range v1). pose proof (byte_val_range v0). unfold is_u8 in *. lia.
Qed.
Lemma parse_header b : 5 ≤ length b → ∃ header, parseTlsHeader (take 5 b) = Val header ∧
  (0 ≤ contentLength header < 2 ^ 16)%Z ∧
  take 5 b = contentType header :: be16 (tlsVersion header) ++ be16 (contentLength header) ∧
  (0 ≤ tlsVersion header < 2 ^ 16)%Z.
Proof.
  intros Hl. destruct b as [|t [|v1 [|v0 [|l1 [|l0 b]]]]]; simpl in Hl; try lia. eexists. split; [done|].
  cbn [contentType tlsVersion contentLength]. rewrite !be16_value. split_and!; try apply be_value_range; try lia; done.
Qed.
Lemma parse_short b : length b < 5 → ∃ e, parseTlsHeader (take 5 b) = Panic e.
Proof. intros Hl. destruct b as [|t [|v1 [|v0 [|l1 [|l0 b]]]]]; simpl in *; try lia; by eexists. Qed.
Lemma parse_reconstruct header content rest :
  (0 ≤ tlsVersion header < 2 ^ 16)%Z → (Z.of_nat (length content) < 2 ^ 16)%Z →
  parseTlsHeader (take 5 (reconstruct header content ++ rest)) =
    Val (mkTlsHeader (contentType header) (tlsVersion header) (Z.of_nat (length content))).
Proof.
  intros Hv Hc. unfold reconstruct. simpl. unfold be_value at 1 2. pose proof (value_be16 (tlsVersion header)) as E1.
  pose proof (value_be16 (u16 (Z.of_nat (length content)))) as E2. unfold be_value in E1, E2. simpl in E1, E2 |- *.
  assert (∀ z, (0 ≤ z < 2 ^ 16)%Z → u16 z = z) as Hu by (intros z Hz; by apply Z.mod_small).
  rewrite E1, E2. by rewrite !Hu by (rewrite ?Hu; lia).
Qed.
Lemma reconstruct_length header content : length (reconstruct header content) = 5 + length content.
Proof. unfold reconstruct. simpl. by rewrite ?length_app. Qed.

(** *** Records *)
Lemma records_fuel fuel fuel' b : length b ≤ fuel → length b ≤ fuel' → tls_records_from fuel b = tls_records_from fuel' b.
Proof.
  revert fuel' b. induction fuel as [|fuel IH]; intros [|fuel'] b H1 H2; try done.
  - destruct b; [|simpl in *; lia]. done.
  - destruct b; [|simpl in *; lia]. done.
  - cbn [tls_records_from]. destruct (parseTlsHeader (take 5 b)) as [header| |]; try done.
    destruct (Nat.ltb_spec (length b) (5 + Z.to_nat (contentLength header))); [done|].
    by rewrite (IH fuel') by (rewrite length_drop; lia).
Qed.
Lemma records_short b : length b < 5 → tls_records b = ([], b).
Proof.
  intros Hl. unfold tls_records. destruct (length b) eqn:E; [done|]. cbn [tls_records_from].
  destruct (parse_short b) as [e ->]; [lia|done].
Qed.
Lemma records_cut header b :
  parseTlsHeader (take 5 b) = Val header → length b < 5 + Z.to_nat (contentLength header) → tls_records b = ([], b).
Proof.
  intros E Hl. unfold tls_records. destruct (length b) eqn:El; [done|]. cbn [tls_records_from]. rewrite E.
  by rewrite (proj2 (Nat.ltb_lt _ _)) by lia.
Qed.
Lemma records_cons header b :
  parseTlsHeader (take 5 b) = Val header → 5 + Z.to_nat (contentLength header) ≤ length b →
  tls_records b = let '(rs, rest) := tls_records (drop (5 + Z.to_nat (contentLength header)) b) in
    ((header, take (Z.to_nat (contentLength header)) (drop 5 b)) :: rs, rest).
Proof.
  intros E Hl. unfold tls_records. destruct (length b) eqn:El; [lia|]. cbn [tls_records_from]. rewrite E.
  rewrite (proj2 (Nat.ltb_ge _ _)) by lia.
  by rewrite (records_fuel n (length (drop (5 + Z.to_nat (contentLength header)) b))) by (rewrite ?length_drop; lia).
Qed.
Lemma records_app b b' :
  tls_records (b ++ b') = let '(rs, rest) := tls_records b in let '(rs', rest') := tls_records (rest ++ b') in (rs ++ rs', rest').
Proof.
  remember (length b) as n eqn:Hn. revert b Hn. induction (lt_wf n) as [n _ IH]. intros b ->.
  destruct (decide (5 ≤ length b)) as [H5|H5].
  - destruct (parse_header b H5) as (header & E & Hr & _).
    destruct (decide (5 + Z.to_nat (contentLength header) ≤ length b)) as [Hl|Hl].
    + rewrite (records_cons header b E Hl). rewrite (records_cons header (b ++ b')).
      2: by rewrite take_app_le by lia. 2: rewrite length_app; lia.
      rewrite drop_app_le by lia. rewrite (drop_app_le b b' 5) by lia.
      rewrite (take_app_le (drop 5 b)) by (rewrite length_drop; lia).
      rewrite (IH (length (drop (5 + Z.to_nat (contentLength header)) b))); [|rewrite length_drop; lia|done].
      destruct (tls_records (drop _ b)) as [rs rest]. by destruct (tls_records (rest ++ b')).
    + rewrite (records_cut header b E) by lia. by destruct (tls_records (b ++ b')).
  - rewrite (records_short b) by lia. by destruct (tls_records (b ++ b')).
Qed.
Lemma records_reconstruct header content :
  (0 ≤ tlsVersion header < 2 ^ 16)%Z → (Z.of_nat (length content) < 2 ^ 16)%Z →
  tls_records (reconstruct header content) =
    ([(mkTlsHeader (contentType header) (tlsVersion header) (Z.of_nat (length content)), content)], []).
Proof.
  intros Hv Hc. pose proof (parse_reconstruct header content [] Hv Hc) as E. rewrite app_nil_r in E.
  rewrite (records_cons _ _ E) by (rewrite reconstruct_length; simpl; lia). cbn [contentLength]. rewrite Nat2Z.id.
  rewrite drop_ge by (rewrite reconstruct_length; lia). unfold tls_records. cbn [length tls_records_from].
  assert (drop 5 (reconstruct header content) = content) as -> by done. by rewrite take_ge.
Qed.
(** Bytes that are complete records. *)
Lemma records_app_whole b b' rs rs' :
  tls_records b = (rs, []) → tls_records b' = (rs', []) → tls_records (b ++ b') = (rs ++ rs', []).
Proof. intros E E'. rewrite records_app, E. simpl. by rewrite E'. Qed.
Lemma records_reconstructs header parts :
  (0 ≤ tlsVersion header < 2 ^ 16)%Z → Forall (λ p, (Z.of_nat (length p) < 2 ^ 16)%Z) parts →
  tls_records (concat (map (reconstruct header) parts)) =
    (map (λ p, (mkTlsHeader (contentType header) (tlsVersion header) (Z.of_nat (length p)), p)) parts, []).
Proof.
  intros Hv. induction 1 as [|p parts Hp _ IH]; [done|]. cbn [map concat].
  by apply (records_app_whole _ _ [_]); [apply records_reconstruct|].
Qed.

(** ** The place of the server name *)
Section Hello.
Context `{cb : Cryptobyte} `{!CryptobyteLaws cb}.

(** [b] stands at [i] in [s]. *)
Definition at_place (i : nat) (b s : list byte) : Prop := ∃ pre post, s = pre ++ b ++ post ∧ length pre = i.
Lemma at_place_shift i k b s pre post : at_place i b s → length pre = k → at_place (k + i) b (pre ++ s ++ post).
Proof.
  intros (p & q & -> & Hp) Hk. exists (pre ++ p), (q ++ post). rewrite <-!app_assoc. split; [done|].
  rewrite length_app. lia.
Qed.
Lemma be_value_zero a b : be_value [a; b] = 0%Z → a = Byte.x00 ∧ b = Byte.x00.
Proof.
  unfold be_value. simpl. pose proof (byte_val_range a). pose proof (byte_val_range b). unfold is_u8 in *. intros E.
  split; apply byte_val_inj; simpl; change (byte_val Byte.x00) with 0%Z; lia.
Qed.
Lemma read_extensions_place fuel total s l e pre :
  read_extensions fuel (length total) s = Some l → total = pre ++ s → e ∈ l →
  ext_end e = ext_start e + 4 + length (ext_Data e) ∧ ext_end e ≤ length total ∧
  ∃ t n, length t = 2 ∧ length n = 2 ∧ be_value t = ext_Type e ∧ at_place (ext_start e) (t ++ n ++ ext_Data e) total.
Proof.
  revert s l pre. induction fuel as [|fuel IH]; intros s l pre E Et He.
  { destruct s; [|done]. injection E as <-. set_solver. }
  cbn [read_extensions] in E. destruct s as [|x s']; [injection E as <-; set_solver|]. cbv zeta in E. remember (x :: s') as s eqn:Hs. clear x s' Hs.
  destruct (ReadUint16 s) as [[t s1]|] eqn:E1; [|done]. simpl in E.
  destruct (ReadLengthPrefixed 2 s1) as [[d s2]|] eqn:E2; [|done]. simpl in E.
  destruct (read_extensions fuel (length total) s2) as [l2|] eqn:E3; [|done]. simpl in E. injection E as <-.
  apply read_uint16 in E1 as (bt & Es & Hbt & ->). apply read_prefixed in E2 as (n & Es1 & Hn & _).
  assert (total = (pre ++ bt ++ n ++ d) ++ s2) as Et2 by (rewrite Et, Es, Es1; by rewrite <-!app_assoc).
  apply elem_of_cons in He as [->|He]; [|by apply (IH s2 l2 (pre ++ bt ++ n ++ d))].
  assert (length total = length pre + 4 + length d + length s2) as Hlen.
  { rewrite Et2, !length_app. lia. }
  assert (length s = 4 + length d + length s2) as Hls by (rewrite Es, Es1, !length_app; lia).
  cbn [ext_start ext_end ext_Data ext_Type]. split_and!; [lia|lia|]. exists bt, n. split_and!; try done.
  exists pre, s2. split; [rewrite Et2; by rewrite <-!app_assoc|]. lia.
Qed.
Lemma server_name_in l e : server_name l = Some e → e ∈ l ∧ ext_Type e = 0%Z.
Proof.
  induction l as [|e' l IH]; simpl; [done|]. destruct (server_name l) as [e''|].
  - intros [= ->]. destruct IH; [done|]. split; [by apply list_elem_of_further|done].
  - destruct (Z.eqb_spec (ext_Type e') 0); [|done]. intros [= ->]. split; [apply list_elem_of_here|done].
Qed.

(** [ServerNameValueStart] and [ServerNameValueEnd] are five bytes before the
    place that they name: when a ClientHello has a server name, the extension
    of type 0 with its header is the bytes from the start plus five to the end
    plus five, that is, the cuts that are made between the start and the end
    miss the last five bytes of the name. *)
Theorem server_name_place (h : list byte) (info : ClientHelloInfo) (meta : clientHelloMeta) (name : list byte) :
  UnmarshalClientHello h = Some (info, meta) → hello_ServerName info = Some name →
  let s := ServerNameValueStart meta in let e := ServerNameValueEnd meta in
  1 ≤ s ∧ e = s + 4 + length name ∧ e + 5 ≤ length h ∧
  ∃ n, length n = 2 ∧ take (e - s) (drop (s + 5) h) = [Byte.x00; Byte.x00] ++ n ++ name.
Proof.
  unfold UnmarshalClientHello. intros E Hn.
  destruct (ReadUint8 h) as [[t hm]|] eqn:E1; [|done]. simpl in E. destruct (negb _); [done|].
  destruct (ReadLengthPrefixed 3 hm) as [[ch rest]|] eqn:E2; [|done]. simpl in E.
  destruct (length rest =? 0) eqn:Er; [|done]. apply Nat.eqb_eq, nil_length_inv in Er. subst rest. simpl in E.
  destruct (ReadUint16 ch) as [[v c1]|] eqn:E3; [|done]. simpl in E.
  destruct (ReadBytes 32 c1) as [[rnd c2]|] eqn:E4; [|done]. simpl in E.
  destruct (ReadLengthPrefixed 1 c2) as [[sid c3]|] eqn:E5; [|done]. simpl in E.
  destruct (ReadLengthPrefixed 2 c3) as [[cs c4]|] eqn:E6; [|done]. simpl in E.
  destruct (read_all ReadUint16 _ cs); [|done]. simpl in E.
  destruct (ReadLengthPrefixed 1 c4) as [[cm c5]|] eqn:E7; [|done]. simpl in E.
  destruct (read_all ReadUint8 _ cm); [|done]. simpl in E.
  destruct (length c5 =? 0) eqn:E0; [by injection E as <- <-|].
  destruct (ReadLengthPrefixed 2 c5) as [[exts c6]|] eqn:E8; [|done]. simpl in E.
  destruct (read_extensions _ _ exts) as [el|] eqn:E9; [|done]. simpl in E.
  destruct (length c6 =? 0) eqn:Ec; [|done]. apply Nat.eqb_eq, nil_length_inv in Ec. subst c6. simpl in E.
  injection E as <- <-. simpl in Hn. destruct (server_name el) as [e|] eqn:Esn; [|done]. injection Hn as <-.
  apply server_name_in in Esn as [He Ht].
  destruct (read_extensions_place _ _ _ _ e [] E9 eq_refl He) as (Hee & Hle & bt & n & Hbt & Hnl & Hty & Hpl).
  apply read_uint8 in E1 as (b1 & -> & _). apply read_prefixed in E2 as (p3 & -> & Hp3 & _).
  apply read_prefixed in E8 as (p8 & -> & Hp8 & _). rewrite !app_nil_r in *. clear E9 E0.
  assert (∃ pre, ch = pre ++ p8 ++ exts) as [pre Epre].
  { apply read_uint16 in E3 as (b3 & -> & _). apply read_bytes in E4 as [-> _]. apply read_prefixed in E5 as (p5 & -> & _).
    apply read_prefixed in E6 as (p6 & -> & _). apply read_prefixed in E7 as (p7 & -> & _).
    exists (b3 ++ rnd ++ p5 ++ sid ++ p6 ++ cs ++ p7 ++ cm). by rewrite <-!app_assoc. }
  clear E3 E4 E5 E6 E7. subst ch. cbn [ServerNameValueStart ServerNameValueEnd length].
  rewrite Ht in Hty. destruct bt as [|a [|b [|? ?]]]; try done. apply be_value_zero in Hty as [-> ->].
  replace (S (length (p3 ++ pre ++ p8 ++ exts)) - length (p3 ++ pre ++ p8 ++ exts)) with 1 by lia.
  rewrite !length_app, Hp3, Hp8. replace (length pre + (2 + length exts) - (2 + length exts)) with (length pre) by lia.
  split_and!; [lia|lia|lia|]. exists n. split; [done|].
  destruct Hpl as (q1 & q2 & -> & Hq1).
  replace (b1 :: p3 ++ pre ++ p8 ++ q1 ++ ([Byte.x00; Byte.x00] ++ n ++ ext_Data e) ++ q2)
    with ((b1 :: p3 ++ pre ++ p8 ++ q1) ++ ([Byte.x00; Byte.x00] ++ n ++ ext_Data e) ++ q2) by (simpl; by rewrite <-!app_assoc).
  rewrite drop_app_length' by (simpl; rewrite !length_app; lia).
  apply take_app_length'. rewrite !length_app. simpl. lia.
Qed.
End Hello.

(** ** What is written *)
(** [effects] carry the records [rs]: the bytes written are complete records
    with the same contents, and the time to live is back at the native one. *)
Record carries (native : Z) (fragment : bool) (raw : list byte) (rs : list (tlsHeader * list byte))
    (effects : list conn_effect) : Prop := {
  carried : ∃ rs', tls_records (written_bytes effects) = (rs', []) ∧ tls_contents rs' = tls_contents rs;
  carried_ttl : ttl_after native effects = native;
  carried_same : fragment = false → written_bytes effects = raw
}.
Lemma written_of_app l l' : written_bytes (l ++ l') = written_bytes l ++ written_bytes l'.
Proof. unfold written_bytes. by rewrite map_app, concat_app. Qed.
Lemma written_writes l : written_bytes (map ConnWrite l) = concat l.
Proof. unfold written_bytes. by rewrite map_map, map_id. Qed.
Lemma written_with_ttl ttl j l : written_bytes (with_ttl ttl j l) = concat l.
Proof. revert j. induction l as [|b l IH]; intros j; [done|]. unfold written_bytes in *. simpl. by rewrite IH. Qed.
Lemma ttl_app t l l' : ttl_after t (l ++ l') = ttl_after (ttl_after t l) l'.
Proof. apply fold_left_app. Qed.
Lemma ttl_writes t l : ttl_after t (map ConnWrite l) = t.
Proof. by induction l. Qed.
Lemma contents_app rs rs' : tls_contents (rs ++ rs') = tls_contents rs ++ tls_contents rs'.
Proof. unfold tls_contents. by rewrite map_app, concat_app. Qed.
Lemma contents_parts t v (f : list byte → Z) parts :
  tls_contents (map (λ p, (mkTlsHeader t v (f p), p)) parts) = map (λ x, (t, v, x)) (concat parts).
Proof.
  unfold tls_contents. induction parts as [|p parts IH]; [done|]. cbn [map concat]. rewrite map_app. by f_equal.
Qed.
Lemma carries_app native fragment raw raw' rs rs' l l' :
  carries native fragment raw rs l → carries native fragment raw' rs' l' →
  carries native fragment (raw ++ raw') (rs ++ rs') (l ++ l').
Proof.
  intros [(r1 & E1 & C1) T1 S1] [(r2 & E2 & C2) T2 S2]. split.
  - exists (r1 ++ r2). rewrite written_of_app, !contents_app, C1, C2. split; [by apply records_app_whole|done].
  - by rewrite ttl_app, T1.
  - intros F. by rewrite written_of_app, S1, S2.
Qed.
Lemma carries_nil native fragment : carries native fragment [] [] [].
Proof. split; [by exists []|done|done]. Qed.
Lemma middle_concat fuel i step e h : e - i ≤ fuel → 1 ≤ step → concat (middle fuel i step e h) = take (e - i) (drop i h).
Proof.
  intros Hf Hs. revert i Hf. induction fuel as [|fuel IH]; intros i Hf; cbn [middle].
  - replace (e - i) with 0 by lia. by destruct (i <? e).
  - destruct (Nat.ltb_spec i e) as [Hi|Hi]; [|by replace (e - i) with 0 by lia].
    cbn [concat]. rewrite IH by lia. rewrite <-(take_drop (min (i + step) e - i) (take (e - i) (drop i h))).
    rewrite take_take, skipn_firstn_comm, drop_drop. f_equal; [f_equal; lia|].
    destruct (decide (i + step ≤ e)).
    + f_equal; [lia|f_equal; lia].
    + by replace (e - (i + step)) with 0 by lia; replace (e - i - (min (i + step) e - i)) with 0 by lia.
Qed.
Lemma middle_lengths fuel i step e h : Forall (λ p, length p ≤ length h) (middle fuel i step e h).
Proof.
  revert i. induction fuel as [|fuel IH]; intros i; cbn [middle]; destruct (i <? e); constructor; [|apply IH].
  rewrite length_take, length_drop. lia.
Qed.
Lemma tls_blocks_concat fuel b : length b ≤ fuel → concat (tls_blocks fuel b) = b.
Proof.
  revert b. induction fuel as [|fuel IH]; intros [|x b] Hl; try done; [simpl in Hl; lia|].
  cbn [tls_blocks concat]. rewrite IH; [apply take_drop|]. rewrite length_drop. simpl in *. lia.
Qed.
Lemma Intn_pos seed n : (0 < n)%Z → ∃ r, Intn seed n = Val r ∧ (Z.of_nat r < n)%Z.
Proof.
  intros Hn. unfold Intn. rewrite (proj2 (Z.leb_gt _ _)) by lia. eexists. split; [done|].
  pose proof (Nat.mod_upper_bound seed (Z.to_nat n)). lia.
Qed.
Lemma hello_carried c rand header h meta :
  (0 ≤ tlsVersion header < 2 ^ 16)%Z → contentLength header = Z.of_nat (length h) → (Z.of_nat (length h) < 2 ^ 16)%Z →
  ServerNameValueStart meta + 4 ≤ ServerNameValueEnd meta → ServerNameValueEnd meta ≤ length h →
  ∃ effects, hello_effects c rand header h meta = Val effects ∧
    carries (rt_nativeTtl c) (rt_fragment c) (reconstruct header h) [(header, h)] effects.
Proof.
  intros Hv Hc Hl Hs He. unfold hello_effects. set (s := ServerNameValueStart meta) in *. set (e := ServerNameValueEnd meta) in *.
  assert (s + 2 ≤ (e + s) / 2 ≤ e) as Hm.
  { split; [apply Nat.div_le_lower_bound; lia|apply Nat.Div0.div_le_upper_bound; lia]. }
  destruct (Intn_pos (rand_split rand) (Z.of_nat ((e + s) / 2) - Z.of_nat s)) as (r & -> & Hr); [lia|]. cbn [obind].
  destruct (Intn_pos (rand_step rand) (Z.of_nat e - Z.of_nat (s + r))) as (q & -> & _); [lia|]. cbn [obind].
  eexists. split; [done|].
  set (parts := middle (e - (s + r)) (s + r) (1 + q) e h).
  pose (all := take (s + r) h :: parts ++ [drop e h]).
  assert (concat all = h) as Hall.
  { unfold all, parts. cbn [concat]. rewrite concat_app, middle_concat by lia. cbn [concat]. rewrite app_nil_r.
    replace (drop e h) with (drop (e - (s + r)) (drop (s + r) h)) by (rewrite drop_drop; f_equal; lia).
    by rewrite take_drop, take_drop. }
  assert (Forall (λ p, (Z.of_nat (length p) < 2 ^ 16)%Z) all) as Hlen.
  { unfold all. constructor; [rewrite length_take; lia|]. apply Forall_app. split.
    - eapply Forall_impl; [apply middle_lengths|]. simpl. intros p Hp. lia.
    - repeat constructor. rewrite length_drop. lia. }
  assert (∀ l, written_bytes l = concat (map (reconstruct header) all) → ∃ rs', tls_records (written_bytes l) = (rs', []) ∧
      tls_contents rs' = tls_contents [(header, h)]) as Hfrag.
  { intros l ->. rewrite records_reconstructs by done. eexists. split; [done|]. rewrite contents_parts, Hall.
    unfold tls_contents. simpl. by rewrite app_nil_r. }
  assert (∀ l, written_bytes l = reconstruct header h → ∃ rs', tls_records (written_bytes l) = (rs', []) ∧
      tls_contents rs' = tls_contents [(header, h)]) as Hwhole.
  { intros l ->. rewrite records_reconstruct by done. eexists. split; [done|]. done. }
  assert (concat (map (reconstruct header) all) = reconstruct header (take (s + r) h) ++
      concat (map (reconstruct header) parts) ++ reconstruct header (drop e h)) as Hsum.
  { unfold all. cbn [map concat]. rewrite map_app, concat_app. cbn [map concat]. by rewrite app_nil_r. }
  destruct (rt_fragment c) eqn:Ef; cbn [andb].
  - destruct (rt_tcp c && rt_reorder c).
    + assert (written_bytes (([SetNoDelay; SetSocketTtl 0; ConnWrite (reconstruct header (take (s + r) h))] ++
          with_ttl (λ j, if rand_coins rand j then 0%Z else rt_nativeTtl c) 0 (map (reconstruct header) parts)) ++
          [SetSocketTtl (rt_nativeTtl c); ConnWrite (reconstruct header (drop e h))]) =
          concat (map (reconstruct header) all)) as Hw.
      { rewrite !written_of_app, written_with_ttl, Hsum. unfold written_bytes. cbn. by rewrite !app_nil_r, <-app_assoc. }
      split; [apply Hfrag| |done]; rewrite app_assoc; [exact Hw|]. by rewrite ttl_app.
    + split; [apply Hfrag| |done].
      * rewrite written_writes. unfold all. cbn [map concat]. by rewrite map_app.
      * apply ttl_writes.
  - destruct (rt_reorder c && rt_tcp c).
    + assert (written_bytes ([SetNoDelay] ++ with_ttl (λ j, if Nat.even j then 0%Z else rt_nativeTtl c) 0
          (tls_blocks (length (reconstruct header h)) (reconstruct header h)) ++ [SetSocketTtl (rt_nativeTtl c)]) =
          reconstruct header h) as Hw.
      { rewrite !written_of_app, written_with_ttl, tls_blocks_concat by done. unfold written_bytes. cbn. by rewrite app_nil_r. }
      split; [by apply Hwhole| |done]. by rewrite !ttl_app.
    + split; [apply Hwhole|done|intros _]; unfold written_bytes; cbn; by rewrite app_nil_r.
Qed.

(** ** A stream of writes *)
Section Stream.
Context `{cb : Cryptobyte} `{!CryptobyteLaws cb}.

Lemma run_all l : run_effects None l = (l, false, None).
Proof. induction l as [|[|t|b] l IH]; cbn [run_effects fmap option_fmap option_map]; by rewrite ?IH. Qed.
Lemma record_carried c rand header :
  parseTlsHeader (take 5 (rt_buffer c)) = Val header → (contentLength header ≤ 65530)%Z →
  5 + Z.to_nat (contentLength header) ≤ length (rt_buffer c) →
  let hi := 5 + Z.to_nat (contentLength header) in
  ∃ effects, record_effects c rand header hi = Val effects ∧
    carries (rt_nativeTtl c) (rt_fragment c) (take hi (rt_buffer c))
      [(header, take (Z.to_nat (contentLength header)) (drop 5 (rt_buffer c)))] effects.
Proof.
  intros E Hm Hl hi. destruct (parse_header (rt_buffer c)) as (h' & E' & Hr & Ht & Hv); [lia|].
  rewrite E in E'. injection E' as <-. set (h := take (Z.to_nat (contentLength header)) (drop 5 (rt_buffer c))).
  assert (length h = Z.to_nat (contentLength header)) as Hh by (unfold h; rewrite length_take, length_drop; lia).
  assert (contentLength header = Z.of_nat (length h)) as Hc by lia.
  assert (take hi (rt_buffer c) = reconstruct header h) as Hraw.
  { unfold hi, reconstruct. rewrite <-(take_drop 5 (rt_buffer c)) at 1.
    rewrite take_app_ge by (rewrite length_take; lia). rewrite Ht at 1. rewrite length_take, Nat.min_l by lia.
    replace (5 + Z.to_nat (contentLength header) - 5) with (Z.to_nat (contentLength header)) by lia.
    fold h. rewrite <-Hc. unfold u16. rewrite (Z.mod_small (contentLength header)) by lia.
    cbn [app]. by rewrite <-app_assoc. }
  assert (carries (rt_nativeTtl c) (rt_fragment c) (take hi (rt_buffer c)) [(header, h)] [ConnWrite (take hi (rt_buffer c))]) as Hflush.
  { split; [|done|]; unfold written_bytes; cbn [map concat]; rewrite app_nil_r; [|done].
    rewrite Hraw, records_reconstruct by lia. by eexists. }
  unfold record_effects. destruct (byte_val (contentType header) =? 22)%Z; [|by eexists].
  destruct (Nat.ltb_spec hi 5); [lia|].
  assert (drop 5 (take hi (rt_buffer c)) = h) as -> by (rewrite Hraw; done).
  destruct (UnmarshalClientHello h) as [[info meta]|] eqn:Eu; [|by eexists].
  destruct (hello_ServerName info) as [name|] eqn:En; [|by eexists].
  destruct (server_name_place h info meta name Eu En) as (H1 & H2 & H3 & _).
  rewrite Hraw. apply hello_carried; lia.
Qed.
Lemma loop_carried fuel rand k c :
  length (rt_buffer c) ≤ fuel →
  Forall (λ r, contentLength r.1 ≤ 65530)%Z (tls_records (rt_buffer c)).1 →
  ∃ effects rest, write_loop fuel None rand k c = Val (false, rt_set rest (rt_effects c ++ effects) c) ∧
    ∃ raw, rt_buffer c = raw ++ rest ∧ rest = (tls_records (rt_buffer c)).2 ∧
    carries (rt_nativeTtl c) (rt_fragment c) raw (tls_records (rt_buffer c)).1 effects.
Proof.
  assert (∀ c, rt_set (rt_buffer c) (rt_effects c ++ []) c = c) as Hid.
  { intros []. unfold rt_set. simpl. by rewrite app_nil_r. }
  assert (∀ c, tls_records (rt_buffer c) = ([], rt_buffer c) → ∃ effects rest,
    Val (false, c) = Val (false, rt_set rest (rt_effects c ++ effects) c) ∧
    ∃ raw, rt_buffer c = raw ++ rest ∧ rest = (tls_records (rt_buffer c)).2 ∧
    carries (rt_nativeTtl c) (rt_fragment c) raw (tls_records (rt_buffer c)).1 effects) as Hstop.
  { intros c' E. exists [], (rt_buffer c'). rewrite Hid, E. split; [done|]. exists []. split_and!; [done..|]. apply carries_nil. }
  revert k c. induction fuel as [|fuel IH]; intros k c Hf Hm; cbn [write_loop].
  { destruct (Nat.ltb_spec (length (rt_buffer c)) 5); [|lia]. apply Hstop, records_short. lia. }
  destruct (Nat.ltb_spec (length (rt_buffer c)) 5) as [H5|H5]; [by apply Hstop, records_short|].
  destruct (parse_header (rt_buffer c) H5) as (header & E & Hr & _). rewrite E. cbn [obind].
  destruct (Z.ltb_spec (Z.of_nat (length (rt_buffer c))) (5 + contentLength header)) as [Hs|Hs].
  { apply Hstop. apply (records_cut header); [done|lia]. }
  assert (5 + Z.to_nat (contentLength header) ≤ length (rt_buffer c)) as Hle by lia.
  pose proof (records_cons header (rt_buffer c) E Hle) as Erec. rewrite Erec in Hm |- *.
  destruct (tls_records (drop _ (rt_buffer c))) as [rs rest] eqn:Ers. cbn [fst snd] in *.
  apply Forall_cons in Hm as [Hh Hm]. cbn [fst] in Hh.
  assert (Z.to_nat (u16 (5 + contentLength header)) = 5 + Z.to_nat (contentLength header)) as ->.
  { unfold u16. rewrite Z.mod_small by lia. lia. }
  destruct (record_carried c (rand k) header E Hh Hle) as (eff & -> & Hcar). cbn [obind]. rewrite run_all.
  destruct (IH (S k) (rt_set (drop (5 + Z.to_nat (contentLength header)) (rt_buffer c)) (rt_effects c ++ eff) c))
    as (eff' & rest' & -> & raw & Hraw & Hrest & Hcar').
  { cbn [rt_set rt_buffer]. rewrite length_drop. lia. }
  { cbn [rt_set rt_buffer]. by rewrite Ers. }
  cbn [rt_set rt_buffer rt_nativeTtl rt_fragment rt_effects] in *. rewrite Ers in Hrest, Hcar'. cbn [fst snd] in *. subst rest'.
  exists (eff ++ eff'), rest. split; [by rewrite app_assoc|].
  exists (take (5 + Z.to_nat (contentLength header)) (rt_buffer c) ++ raw).
  split_and!; [by rewrite <-app_assoc, <-Hraw, take_drop|done|]. by apply (carries_app _ _ _ _ [_]).
Qed.

(** The writes of a TLS client one after the other. *)
Fixpoint writes (rand : nat → nat → tls_rand) (k : nat) (bs : list (list byte)) (c : ResilientTlsConn)
    : outcome ResilientTlsConn :=
  match bs with
  | [] => Val c
  | b :: bs => let! r := Write None (rand k) b c in writes rand (S k) bs r.2
  end.
Lemma records_rest b rs rest : tls_records b = (rs, rest) → tls_records rest = ([], rest).
Proof.
  intros E. pose proof (records_app b []) as A. rewrite app_nil_r, E, app_nil_r in A.
  destruct (tls_records rest) as [rs' rest']. injection A as A ->. apply (f_equal length) in A. rewrite length_app in A.
  by destruct rs'; [|simpl in A; lia].
Qed.
Lemma writes_carried rand k bs c :
  rt_enabled c = true → tls_records (rt_buffer c) = ([], rt_buffer c) →
  Forall (λ r, contentLength r.1 ≤ 65530)%Z (tls_records (rt_buffer c ++ concat bs)).1 →
  ∃ effects rest, writes rand k bs c = Val (rt_set rest (rt_effects c ++ effects) c) ∧
    ∃ raw, rt_buffer c ++ concat bs = raw ++ rest ∧ rest = (tls_records (rt_buffer c ++ concat bs)).2 ∧
    carries (rt_nativeTtl c) (rt_fragment c) raw (tls_records (rt_buffer c ++ concat bs)).1 effects.
Proof.
  revert k c. induction bs as [|b bs IH]; intros k c Hen Hb Hm; cbn [writes concat] in *.
  { exists [], (rt_buffer c). rewrite !app_nil_r, Hb. split; [by destruct c|].
    exists []. split_and!; [done..|]. apply carries_nil. }
  rewrite app_assoc in *. rewrite records_app in Hm |- *. unfold Write. rewrite Hen.
  destruct (loop_carried (length (rt_buffer c ++ b)) (rand k) 0 (rt_set (rt_buffer c ++ b) (rt_effects c) c))
    as (eff & rest & -> & raw & Hraw & Hrest & Hcar); [done| |]; cbn [rt_set rt_buffer rt_effects rt_nativeTtl rt_fragment] in *.
  { destruct (tls_records (rt_buffer c ++ b)) as [rs rest], (tls_records (rest ++ concat bs)). by apply Forall_app in Hm as [? _]. }
  destruct (tls_records (rt_buffer c ++ b)) as [rs1 rest1] eqn:E1. cbn [fst snd] in *. subst rest1.
  destruct (tls_records (rest ++ concat bs)) as [rs2 rest2] eqn:E2. cbn [fst snd obind] in *.
  apply Forall_app in Hm as [_ Hm2].
  destruct (IH (S k) (rt_set rest (rt_effects c ++ eff) c)) as (eff' & rest' & Ew & raw' & Hraw' & -> & Hcar');
    cbn [rt_set rt_buffer rt_effects rt_nativeTtl rt_fragment rt_enabled] in *.
  { done. } { by apply (records_rest _ _ _ E1). } { by rewrite E2. }
  rewrite E2 in Ew, Hcar', Hraw'. cbn [fst snd] in *. exists (eff ++ eff'), rest2. split; [rewrite app_assoc; exact Ew|].
  exists (raw ++ raw'). split_and!; [by rewrite Hraw, <-!app_assoc, Hraw'|done|by apply carries_app].
Qed.
(** C38. However a TLS client cuts its stream into writes, and whatever the random
    numbers are, no write panics, and what the connection below gets is
    complete records that carry, byte for byte, what the complete records of
    the stream carry, with the type and version of their record; the rest of
    the stream is kept for the next write, the time to live of the socket is
    back at the native one, and without fragmentation the bytes are the same.
    The records of the stream have at most 65530 bytes. *)
Theorem resilient_stream (tcp fragment reorder : bool) (native : Z) (rand : nat → nat → tls_rand) (bs : list (list byte)) :
  Forall (λ r, contentLength r.1 ≤ 65530)%Z (tls_records (concat bs)).1 →
  ∃ c, writes rand 0 bs (NewResilientTlsConn tcp fragment reorder native) = Val c ∧
    rt_buffer c = (tls_records (concat bs)).2 ∧
    (∃ rs, tls_records (written_bytes (rt_effects c)) = (rs, []) ∧ tls_contents rs = tls_contents (tls_records (concat bs)).1) ∧
    ttl_after native (rt_effects c) = native ∧
    (fragment = false → written_bytes (rt_effects c) ++ rt_buffer c = concat bs).
Proof.
  intros Hm. destruct (writes_carried rand 0 bs (NewResilientTlsConn tcp fragment reorder native))
    as (eff & rest & -> & raw & Hraw & -> & [Hrec Httl Hsame]); [done..|].
  eexists. split; [done|]. cbn [NewResilientTlsConn rt_set rt_buffer rt_effects rt_nativeTtl rt_fragment app] in *. split_and!; try done. intros F. by rewrite (Hsame F).
Qed.
End Stream.

Module TlsExample.
Import Byte.
(** The reads of cryptobyte over lists of bytes. *)
Definition ex_prefixed (n : nat) (s : list byte) : option (list byte * list byte) :=
  let m := Z.to_nat (be_value (take n s)) in
  if (length s <? n) || (length (drop n s) <? m) then None else Some (take m (drop n s), drop m (drop n s)).
#[local] Instance ex_cryptobyte : Cryptobyte := {
  ReadUint8 s := match s with b :: r => Some (byte_val b, r) | [] => None end;
  ReadUint16 s := if length s <? 2 then None else Some (be_value (take 2 s), drop 2 s);
  ReadBytes n s := if length s <? n then None else Some (take n s, drop n s);
  ReadLengthPrefixed := ex_prefixed
}.
Lemma be_value_nonneg l : (0 ≤ be_value l)%Z.
Proof.
  unfold be_value. assert (∀ a, (0 ≤ a → 0 ≤ fold_left (λ a b, a * 256 + byte_val b) l a)%Z) as H; [|by apply H].
  induction l as [|x l IH]; intros a Ha; [done|]. simpl. apply IH. pose proof (byte_val_range x). unfold is_u8 in *. lia.
Qed.
#[local] Instance ex_cryptobyte_laws : CryptobyteLaws ex_cryptobyte.
Proof.
  split; simpl.
  - intros [|b s] v r; [done|]. intros [= <- <-]. by exists b.
  - intros s v r. destruct (Nat.ltb_spec (length s) 2); [done|]. intros [= <- <-]. exists (take 2 s).
    rewrite take_drop, length_take. split_and!; [done|lia|done].
  - intros n s b r. destruct (Nat.ltb_spec (length s) n); [done|]. intros [= <- <-].
    rewrite take_drop, length_take. split; [done|lia].
  - intros n s c r. unfold ex_prefixed. destruct (Nat.ltb_spec (length s) n); [done|].
    destruct (Nat.ltb_spec (length (drop n s)) (Z.to_nat (be_value (take n s)))); [done|]. intros [= <- <-].
    exists (take n s). rewrite (take_drop _ (drop n s)), take_drop, !length_take.
    pose proof (be_value_nonneg (take n s)). split_and!; [done|lia|lia].
Qed.
(** A ClientHello with the name "abc.com", then an alert record, then a record that is not complete. *)
Definition ex_name : list byte := [x61; x62; x63; x2e; x63; x6f; x6d].
Definition ex_hello : list byte :=
  [x01; x00; x00; x3b; x03; x03] ++ repeat x07 32 ++ [x00; x00; x02; x13; x01; x01; x00] ++
  [x00; x10; x00; x00; x00; x0c; x00; x0a; x00; x00; x07] ++ ex_name.
Definition ex_stream : list byte :=
  [x16; x03; x01; x00; x3f] ++ ex_hello ++ [x15; x03; x03; x00; x02; x01; x00] ++ [x17; x03; x03].
Definition ex_rand : nat → nat → tls_rand := λ _ _, mkRand 3 2 Nat.even.
Definition ex_writes : list (list byte) := [take 10 ex_stream; drop 10 ex_stream].
Example ex_contents : length (tls_contents (tls_records (concat ex_writes)).1) = 65 ∧
  (tls_records (concat ex_writes)).2 = [x17; x03; x03].
Proof. by vm_compute. Qed.
Lemma resilient_stream_witness :
  Forall (λ r, contentLength r.1 ≤ 65530)%Z (tls_records (concat ex_writes)).1 ∧
  ∃ c, writes ex_rand 0 ex_writes (NewResilientTlsConn true true true 64) = Val c ∧
    rt_buffer c = (tls_records (concat ex_writes)).2 ∧
    (∃ rs, tls_records (written_bytes (rt_effects c)) = (rs, []) ∧
       tls_contents rs = tls_contents (tls_records (concat ex_writes)).1) ∧
    ttl_after 64 (rt_effects c) = 64%Z ∧
    (true = false → written_bytes (rt_effects c) ++ rt_buffer c = concat ex_writes).
Proof.
  assert (Forall (λ r, contentLength r.1 ≤ 65530)%Z (tls_records (concat ex_writes)).1) as Hm.
  { vm_compute. repeat constructor; done. }
  split; [exact Hm|]. exact (resilient_stream true true true 64 ex_rand ex_writes Hm).
Defined.
(** The records of the example: the ClientHello in seven pieces, the last of
    which has five bytes of the name, "c.com", and the alert. *)
Example ex_pieces :
  match writes ex_rand 0 ex_writes (NewResilientTlsConn true true true 64) with
  | Val c => map (λ r, length r.2) (tls_records (written_bytes (rt_effects c))).1 = [45; 3; 3; 3; 3; 1; 5; 2]
  | _ => False
  end.
Proof. by vm_compute. Qed.
(** A record that says that it has 65531 bytes makes the index wrap around. *)
Example record_wraps :
  match Write None (λ _, mkRand 0 0 Nat.even) ([x16; x03; x03; xff; xfb] ++ repeat x00 (Z.to_nat 65531))
    (NewResilientTlsConn true true true 64) with Panic _ => true | _ => false end = true.
Proof. by vm_compute. Qed.
(** [Off] before a record is complete: the bytes that are kept are never written. *)
Example off_loses_bytes :
  match Write None (λ _, mkRand 0 0 Nat.even) [x17; x03; x03] (NewResilientTlsConn true true true 64) with
  | Val (_, _, c) =>
      match Write None (λ _, mkRand 0 0 Nat.even) [x00; x01; x05] (Off c) with
      | Val (n, failed, c) => (n, failed, written_bytes (rt_effects c)) = (3, false, [x00; x01; x05])
      | _ => False
      end
  | _ => False
  end.
Proof. by vm_compute. Qed.
End TlsExample.
