(* ===== verification/BaseCodec.v ===== *)
(** * base32 and base64 without padding

    The Go encodings [encoding/base32] and [encoding/base64] that the DNS
    translation of packets uses, by quanta: five bytes are eight digits of five
    bits, three bytes are four digits of six bits. Decoding skips line ends,
    writes to a slice of a given length, and panics past its end. *)

From S2P Require Import Prelude.
Open Scope go_scope.

(** Bits from the highest. *)
Definition byte_bits (b : byte) : list bool :=
  let '(b0, (b1, (b2, (b3, (b4, (b5, (b6, b7))))))) := Byte.to_bits b in [b7; b6; b5; b4; b3; b2; b1; b0].
Definition bits_byte (l : list bool) : byte :=
  match l with
  | [b7; b6; b5; b4; b3; b2; b1; b0] => Byte.of_bits (b0, (b1, (b2, (b3, (b4, (b5, (b6, b7)))))))
  | _ => Byte.x00
  end.
Definition bits_nat (l : list bool) : nat := fold_left (λ n b, 2 * n + (if b : bool then 1 else 0)) l 0.
Fixpoint nat_bits (k n : nat) : list bool :=
  match k with 0 => [] | S k => Nat.odd (n / 2 ^ k) :: nat_bits k n end.

(** The bits in groups of [k], the last one filled with zeros. *)
Fixpoint groups (fuel k : nat) (l : list bool) : list (list bool) :=
  match fuel, l with
  | S fuel, _ :: _ => let g := take k l in (g ++ replicate (k - length g) false) :: groups fuel k (drop k l)
  | _, _ => []
  end.
(** The whole bytes of some bits. *)
Fixpoint whole_bytes (m : nat) (l : list bool) : list byte :=
  match m with 0 => [] | S m => bits_byte (take 8 l) :: whole_bytes m (drop 8 l) end.

Record encoding := mkEncoding {
  enc_bits : nat;              (** of a digit *)
  enc_bytes : nat;             (** of a quantum *)
  enc_digits : nat;            (** of a quantum *)
  enc_alphabet : list byte;
  enc_size : nat → option nat  (** the bytes of a quantum with that many digits *)
}.
Definition char_of (e : encoding) (bits : list bool) : byte := nth (bits_nat bits) (enc_alphabet e) Byte.x00.
Definition digit_of (e : encoding) (c : byte) : option (list bool) :=
  match list_find (eq c) (enc_alphabet e) with Some (i, _) => Some (nat_bits (enc_bits e) i) | None => None end.

Definition encode_quantum (e : encoding) (l : list byte) : list byte :=
  map (char_of e) (groups (enc_digits e) (enc_bits e) (concat (map byte_bits l))).
Fixpoint encode_loop (fuel : nat) (e : encoding) (l : list byte) : list byte :=
  match fuel, l with
  | S fuel, _ :: _ => encode_quantum e (take (enc_bytes e) l) ++ encode_loop fuel e (drop (enc_bytes e) l)
  | _, _ => []
  end.
Definition base_encode (e : encoding) (l : list byte) : list byte := encode_loop (length l) e l.

Fixpoint digits_of (e : encoding) (l : list byte) : option (list bool) :=
  match l with
  | [] => Some []
  | c :: l => match digit_of e c, digits_of e l with Some d, Some ds => Some (d ++ ds) | _, _ => None end
  end.
(** [dst] is the length of the slice that is written. *)
Definition decode_quantum (e : encoding) (dst : nat) (l : list byte) : outcome (list byte) :=
  match digits_of e l, enc_size e (length l) with
  | Some bits, Some m => if m <=? dst then Val (whole_bytes m bits) else Panic "index out of range"
  | _, _ => Err "illegal base data"
  end.
Fixpoint decode_loop (fuel : nat) (e : encoding) (dst : nat) (l : list byte) : outcome (list byte) :=
  match fuel, l with
  | S fuel, _ :: _ =>
      let! b := decode_quantum e dst (take (enc_digits e) l) in
      let! rest := decode_loop fuel e (dst - length b) (drop (enc_digits e) l) in
      Val (b ++ rest)
  | _, _ => Val []
  end.
Definition is_newline (c : byte) : bool := bool_decide (c = Byte.x0a ∨ c = Byte.x0d).
Definition base_decode (e : encoding) (dst : nat) (l : list byte) : outcome (list byte) :=
  let l := filter (λ c, negb (is_newline c)) l in decode_loop (length l) e dst l.

Definition ascii_bytes (s : string) : list byte := String.list_byte_of_string s.
(** A quantum of one, three or six digits writes nothing. *)
Definition size32 (n : nat) : option nat :=
  Some match n with 8 => 5 | 7 => 4 | 5 => 3 | 4 => 2 | 2 => 1 | _ => 0 end.
Definition size64 (n : nat) : option nat :=
  match n with 4 => Some 3 | 3 => Some 2 | 2 => Some 1 | _ => None end.
Definition base32HexEncoding : encoding := mkEncoding 5 5 8 (ascii_bytes "0123456789ABCDEFGHIJKLMNOPQRSTUV") size32.
Definition base32StdEncoding : encoding := mkEncoding 5 5 8 (ascii_bytes "ABCDEFGHIJKLMNOPQRSTUVWXYZ234567") size32.
Definition base64StdEncoding : encoding :=
  mkEncoding 6 3 4 (ascii_bytes "ABCDEFGHIJKLMNOPQRSTUVWXYZabcdefghijklmnopqrstuvwxyz0123456789+/") size64.

(** ** What is encoded is decoded *)
(** The laws of an encoding, which the three are proved to have. *)
Class EncodingLaws (e : encoding) := {
  el_bytes : 0 < enc_bytes e;
  el_digits : 0 < enc_digits e;
  el_quantum l : 0 < length l ≤ enc_bytes e →
    0 < length (encode_quantum e l) ≤ enc_digits e ∧
    (length l = enc_bytes e → length (encode_quantum e l) = enc_digits e) ∧
    (∀ dst, length l ≤ dst → decode_quantum e dst (encode_quantum e l) = Val l) ∧
    Forall (λ c, c ∈ enc_alphabet e) (encode_quantum e l);
  el_alphabet c : c ∈ enc_alphabet e → is_newline c = false ∧ c ≠ Byte.x2e
}.

Lemma bits_byte_bits b : bits_byte (byte_bits b) = b.
Proof.
  unfold byte_bits. pose proof (Byte.of_bits_to_bits b) as E.
  destruct (Byte.to_bits b) as (b0 & b1 & b2 & b3 & b4 & b5 & b6 & b7). exact E.
Qed.
Lemma byte_bits_vars b : ∃ b7 b6 b5 b4 b3 b2 b1 b0 : bool, byte_bits b = [b7; b6; b5; b4; b3; b2; b1; b0].
Proof.
  unfold byte_bits. destruct (Byte.to_bits b) as (b0 & b1 & b2 & b3 & b4 & b5 & b6 & b7). by repeat eexists.
Qed.
Lemma list_upto_5 {A} (l : list A) :
  0 < length l ≤ 5 → (∃ a, l = [a]) ∨ (∃ a b, l = [a; b]) ∨ (∃ a b c, l = [a; b; c]) ∨ (∃ a b c d, l = [a; b; c; d]) ∨
    ∃ a b c d e, l = [a; b; c; d; e].
Proof.
  intros Hl. destruct l as [|a [|b [|c [|d [|e [|f l]]]]]]; simpl in Hl; try lia; [left|right; left|do 2 right; left|do 3 right; left|do 4 right]; by repeat eexists.
Qed.

(** A digit is read back, and is in the alphabet. *)
Definition digit_ok (e : encoding) (bits : list bool) : bool :=
  bool_decide (digit_of e (char_of e bits) = Some bits) && bool_decide (char_of e bits ∈ enc_alphabet e).
Fixpoint all_bits (k : nat) : list (list bool) :=
  match k with 0 => [[]] | S k => map (cons true) (all_bits k) ++ map (cons false) (all_bits k) end.
Lemma elem_of_all_bits l : l ∈ all_bits (length l).
Proof.
  induction l as [|b l IH]; cbn [all_bits length]; [apply list_elem_of_here|].
  apply elem_of_app. destruct b; [left|right]; apply list_elem_of_fmap; by exists l.
Qed.
Lemma digit_ok_all e l :
  forallb (digit_ok e) (all_bits (length l)) = true →
  digit_of e (char_of e l) = Some l ∧ char_of e l ∈ enc_alphabet e.
Proof.
  intros H. rewrite forallb_forall in H. specialize (H l). rewrite <-list_elem_of_In in H.
  specialize (H (elem_of_all_bits l)). unfold digit_ok in H. by rewrite andb_true_iff, !bool_decide_eq_true in H.
Qed.
Lemma digits_of_chars e ls :
  (∀ l, l ∈ ls → length l = enc_bits e) → forallb (digit_ok e) (all_bits (enc_bits e)) = true →
  digits_of e (map (char_of e) ls) = Some (concat ls) ∧ Forall (λ c, c ∈ enc_alphabet e) (map (char_of e) ls).
Proof.
  intros Hl Ha. induction ls as [|l ls IH]; [by split|].
  destruct (digit_ok_all e l) as [E1 E2]; [by rewrite (Hl l) by apply list_elem_of_here|].
  destruct IH as [E3 E4]; [intros x Hx; apply Hl; by apply list_elem_of_further|].
  cbn [map digits_of concat]. rewrite E1, E3. split; [done|by constructor].
Qed.
(** One quantum, given that its groups hold its bits. *)
Lemma quantum_ok e l gs :
  groups (enc_digits e) (enc_bits e) (concat (map byte_bits l)) = gs →
  (∀ g, g ∈ gs → length g = enc_bits e) → forallb (digit_ok e) (all_bits (enc_bits e)) = true →
  enc_size e (length gs) = Some (length l) → whole_bytes (length l) (concat gs) = l →
  length (encode_quantum e l) = length gs ∧
  (∀ dst, length l ≤ dst → decode_quantum e dst (encode_quantum e l) = Val l) ∧
  Forall (λ c, c ∈ enc_alphabet e) (encode_quantum e l).
Proof.
  intros Hg Hl Ha Hs Hw. unfold encode_quantum. rewrite Hg. destruct (digits_of_chars e gs Hl Ha) as [E1 E2].
  split; [apply length_map|]. split; [|done]. intros dst Hd. unfold decode_quantum. rewrite E1, length_map, Hs.
  rewrite (proj2 (Nat.leb_le _ _)) by done. by rewrite Hw.
Qed.
Ltac quantum :=
  match goal with |- context [encode_quantum ?e ?l] => destruct (quantum_ok e l _ eq_refl) as (E1 & E2 & E3) end.
Ltac name_bits a :=
  let E := fresh "E" in let F := fresh "F" in
  destruct (byte_bits_vars a) as (? & ? & ? & ? & ? & ? & ? & ? & E); pose proof (bits_byte_bits a) as F; rewrite E in F.
(** Computes the groups of a quantum whose bytes are variables. *)
Ltac show_groups :=
  unfold groups; cbn [enc_digits enc_bits enc_size base32HexEncoding base32StdEncoding base64StdEncoding map concat];
  repeat match goal with E : byte_bits _ = _ |- _ => rewrite E end; cbn -[bits_byte];
  repeat match goal with F : bits_byte _ = _ |- _ => rewrite F end.
Ltac solve_quantum :=
  match goal with |- context [encode_quantum ?e ?l] =>
    destruct (quantum_ok e l _ eq_refl) as (Hq1 & Hq2 & Hq3);
    [ show_groups; set_solver | by vm_compute | show_groups; reflexivity | show_groups; reflexivity
    | rewrite Hq1; split; [show_groups; lia|]; split; [intros Hlen; revert Hlen; show_groups; try discriminate; reflexivity|];
      split; [exact Hq2|exact Hq3]] end.
Lemma alphabet_ok (e : encoding) :
  forallb (λ c, negb (is_newline c) && negb (bool_decide (c = Byte.x2e))) (enc_alphabet e) = true →
  ∀ c, c ∈ enc_alphabet e → is_newline c = false ∧ c ≠ Byte.x2e.
Proof.
  intros H c Hc. rewrite forallb_forall in H. apply list_elem_of_In, H in Hc.
  by rewrite andb_true_iff, !negb_true_iff, bool_decide_eq_false in Hc.
Qed.
Ltac solve_base32 l Hl :=
  destruct (list_upto_5 l Hl) as [(a & ->)|[(a & b & ->)|[(a & b & c & ->)|[(a & b & c & d & ->)|(a & b & c & d & f & ->)]]]];
  [name_bits a|name_bits a; name_bits b|name_bits a; name_bits b; name_bits c
  |name_bits a; name_bits b; name_bits c; name_bits d|name_bits a; name_bits b; name_bits c; name_bits d; name_bits f];
  solve_quantum.
#[export] Instance base32Hex_laws : EncodingLaws base32HexEncoding.
Proof. split; [simpl; lia|simpl; lia| |apply alphabet_ok; by vm_compute]. intros l Hl. solve_base32 l Hl. Qed.
#[export] Instance base32Std_laws : EncodingLaws base32StdEncoding.
Proof. split; [simpl; lia|simpl; lia| |apply alphabet_ok; by vm_compute]. intros l Hl. solve_base32 l Hl. Qed.
#[export] Instance base64Std_laws : EncodingLaws base64StdEncoding.
Proof.
  split; [simpl; lia|simpl; lia| |apply alphabet_ok; by vm_compute]. intros l Hl.
  assert ((∃ a, l = [a]) ∨ (∃ a b, l = [a; b]) ∨ ∃ a b c, l = [a; b; c]) as Hc.
  { destruct l as [|a [|b [|c [|d l]]]]; simpl in Hl; try lia; [left|right; left|do 2 right]; by repeat eexists. }
  destruct Hc as [(a & ->)|[(a & b & ->)|(a & b & c & ->)]];
    [name_bits a|name_bits a; name_bits b|name_bits a; name_bits b; name_bits c]; solve_quantum.
Qed.

Section Laws.
Context (e : encoding) `{!EncodingLaws e}.
Lemma encode_loop_fuel f1 f2 l : length l ≤ f1 → length l ≤ f2 → encode_loop f1 e l = encode_loop f2 e l.
Proof.
  revert f2 l. induction f1 as [|f1 IH]; intros f2 l H1 H2; [by destruct l, f2; simpl in *; try lia|].
  destruct l as [|x l']; [by destruct f2|]. destruct f2 as [|f2]; [simpl in H2; lia|]. cbn [encode_loop]. f_equal.
  pose proof el_bytes. apply IH; rewrite length_drop; simpl in *; lia.
Qed.
Lemma base_encode_nil : base_encode e [] = [].
Proof. done. Qed.
Lemma base_encode_cons l : l ≠ [] → base_encode e l = encode_quantum e (take (enc_bytes e) l) ++ base_encode e (drop (enc_bytes e) l).
Proof.
  intros Hl. unfold base_encode. destruct l as [|x l']; [done|]. cbn [length encode_loop]. f_equal.
  apply encode_loop_fuel; rewrite length_drop; pose proof el_bytes; simpl; lia.
Qed.
Lemma decode_loop_fuel f1 f2 dst l : length l ≤ f1 → length l ≤ f2 → decode_loop f1 e dst l = decode_loop f2 e dst l.
Proof.
  revert f2 dst l. induction f1 as [|f1 IH]; intros f2 dst l H1 H2; [by destruct l, f2; simpl in *; try lia|].
  destruct l as [|x l']; [by destruct f2|]. destruct f2 as [|f2]; [simpl in H2; lia|]. cbn [decode_loop].
  destruct (decode_quantum _ _ _); try done. cbn [obind]. pose proof el_digits.
  rewrite (IH f2 (dst - length a) (drop (enc_digits e) (x :: l'))); [done| |]; rewrite length_drop; simpl in *; lia.
Qed.
Lemma quantum_take (l : list byte) : l ≠ [] → 0 < length (take (enc_bytes e) l) ≤ enc_bytes e.
Proof. intros Hl. rewrite length_take. pose proof el_bytes. destruct l; [done|]. simpl. lia. Qed.
(** What is encoded can be followed by more digits when it is of whole quanta. *)
Lemma decode_loop_app n dst l s :
  length l ≤ n → (s = [] ∨ ∃ k, length l = k * enc_bytes e) → length l ≤ dst →
  ∀ fuel, length (base_encode e l ++ s) ≤ fuel →
  decode_loop fuel e dst (base_encode e l ++ s) = let! b := decode_loop (length s) e (dst - length l) s in Val (l ++ b).
Proof.
  revert l dst. induction n as [|n IH]; intros l dst Hn Hs Hd fuel Hf.
  - destruct l; [|simpl in Hn; lia]. rewrite base_encode_nil in *. cbn [app] in *. rewrite Nat.sub_0_r.
    rewrite (decode_loop_fuel fuel (length s)) by done. by destruct (decode_loop _ _ _ _).
  - destruct (decide (l = [])) as [-> |Hne].
    { rewrite base_encode_nil in *. cbn [app length] in *. rewrite Nat.sub_0_r.
      rewrite (decode_loop_fuel fuel (length s)) by done. by destruct (decode_loop _ _ _ _). }
    rewrite (base_encode_cons l Hne) in Hf |- *. set (q := take (enc_bytes e) l) in *. set (r := drop (enc_bytes e) l) in *.
    assert (l = q ++ r) as El by (symmetry; apply take_drop).
    destruct (el_quantum q (quantum_take l Hne)) as (Hq1 & Hq2 & Hq3 & _).
    pose proof (quantum_take l Hne) as Hql. fold q in Hql.
    assert (length l = length q + length r) as Hlen by (rewrite El at 1; apply length_app).
    assert (take (enc_digits e) (encode_quantum e q ++ base_encode e r ++ s) = encode_quantum e q ∧
            drop (enc_digits e) (encode_quantum e q ++ base_encode e r ++ s) = base_encode e r ++ s) as [Et Edr].
    { destruct (decide (length q = enc_bytes e)) as [Ef|Ef].
      - rewrite <-(Hq2 Ef). by rewrite take_app_length, drop_app_length.
      - assert (r = []) as ->.
        { unfold r. apply nil_length_inv. rewrite length_drop. unfold q in Ef, Hql. rewrite length_take in *. lia. }
        assert (s = []) as ->.
        { destruct Hs as [->|[k Hk]]; [done|]. exfalso. cbn [length] in Hlen. rewrite Nat.add_0_r in Hlen. rewrite Hlen in Hk.
          destruct k as [|[|k]]; lia. }
        rewrite base_encode_nil, !app_nil_r. split; [apply take_ge; lia|apply drop_ge; lia]. }
    rewrite <-app_assoc in *. destruct (encode_quantum e q ++ base_encode e r ++ s) as [|x xs] eqn:Ex.
    { apply (f_equal length) in Ex. rewrite length_app in Ex. simpl in Ex. lia. }
    destruct fuel as [|fuel]; [simpl in Hf; lia|]. cbn [decode_loop]. rewrite Et, Edr, Hq3 by lia. cbn [obind].
    rewrite (IH r (dst - length q)).
    + rewrite Hlen, Nat.sub_add_distr. destruct (decode_loop _ _ _ s); try done. cbn [obind]. by rewrite app_assoc, <-El.
    + lia.
    + destruct Hs as [->|[k Hk]]; [by left|right]. destruct (decide (length q = enc_bytes e)) as [Ef|Ef].
      * destruct k as [|k]; [lia|]. exists k. lia.
      * exists 0. unfold q, r in *. rewrite length_take in Ef. rewrite length_drop. lia.
    + lia.
    + assert (length (x :: xs) = length (encode_quantum e q) + length (base_encode e r ++ s)) as Hx by (by rewrite <-Ex, length_app).
      simpl in Hx, Hf. lia.
Qed.
Lemma base_encode_alphabet l : Forall (λ c, c ∈ enc_alphabet e) (base_encode e l).
Proof.
  remember (length l) as n eqn:En. revert l En. induction n as [n IH] using lt_wf_ind. intros l ->.
  destruct (decide (l = [])) as [-> |Hne]; [constructor|]. rewrite base_encode_cons by done. apply Forall_app. split.
  - destruct (el_quantum _ (quantum_take l Hne)) as (_ & _ & _ & ?). done.
  - eapply (IH (length (drop (enc_bytes e) l))); [|done]. rewrite length_drop. pose proof el_bytes. destruct l; [done|]. simpl. lia.
Qed.
Lemma filter_alphabet l : Forall (λ c, c ∈ enc_alphabet e) l → filter (λ c, negb (is_newline c)) l = l.
Proof.
  induction 1 as [|c l Hc Hl IH]; [done|]. rewrite filter_cons, decide_True; [by rewrite IH|].
  destruct (el_alphabet c Hc) as [-> _]. done.
Qed.
Lemma base_decode_encode dst l : length l ≤ dst → base_decode e dst (base_encode e l) = Val l.
Proof.
  intros Hd. unfold base_decode. rewrite filter_alphabet by apply base_encode_alphabet.
  pose proof (decode_loop_app (length l) dst l [] (Nat.le_refl _) (or_introl eq_refl) Hd (length (base_encode e l))) as H.
  rewrite app_nil_r in H. rewrite H by done. cbn. by rewrite app_nil_r.
Qed.
(** Two encodings of which the first is of whole quanta. *)
Lemma base_decode_encode_app dst l1 l2 k :
  length l1 = k * enc_bytes e → length l1 + length l2 ≤ dst →
  base_decode e dst (base_encode e l1 ++ base_encode e l2) = Val (l1 ++ l2).
Proof.
  intros Hk Hd. unfold base_decode. rewrite filter_alphabet by (apply Forall_app; split; apply base_encode_alphabet).
  rewrite (decode_loop_app (length l1)); [|done|right; by exists k|lia|done].
  pose proof (decode_loop_app (length l2) (dst - length l1) l2 [] (Nat.le_refl _) (or_introl eq_refl) ltac:(lia) (length (base_encode e l2))) as H.
  rewrite app_nil_r in H. rewrite H by done. cbn. by rewrite app_nil_r.
Qed.
End Laws.

(** ** Lengths *)
(** The digits of [n] bytes. *)
Definition encoded_size (e : encoding) (n : nat) : nat := (8 * n + enc_bits e - 1) / enc_bits e.
Lemma length_groups k l : 0 < k → ∀ fuel, length l ≤ fuel * k → length (groups fuel k l) = (length l + k - 1) / k.
Proof.
  intros Hk fuel. revert l. induction fuel as [|fuel IH]; intros l Hl.
  - destruct l; [|simpl in Hl; lia]. cbn. symmetry. apply Nat.div_small. lia.
  - destruct l as [|x l'] eqn:E; [cbn; symmetry; apply Nat.div_small; lia|]. rewrite <-E in *.
    assert (groups (S fuel) k l = (take k l ++ replicate (k - length (take k l)) false) :: groups fuel k (drop k l)) as -> by (by rewrite E).
    cbn [length]. assert (0 < length l) by (rewrite E; simpl; lia).
    rewrite IH by (rewrite length_drop; lia). rewrite length_drop.
    destruct (decide (length l ≤ k)).
    + replace (length l - k) with 0 by lia. rewrite Nat.div_small by lia.
      replace (length l + k - 1) with (1 * k + (length l - 1)) by lia. rewrite Nat.div_add_l by lia. rewrite Nat.div_small; lia.
    + replace (length l + k - 1) with (1 * k + (length l - k + k - 1)) by lia. by rewrite Nat.div_add_l by lia.
Qed.
Lemma length_bits l : length (concat (map byte_bits l)) = 8 * length l.
Proof.
  induction l as [|b l IH]; [done|]. cbn [map concat length]. rewrite length_app, IH.
  destruct (byte_bits_vars b) as (? & ? & ? & ? & ? & ? & ? & ? & ->). simpl. lia.
Qed.
(** A quantum fills its digits: 5 * 8 = 8 * 5, 3 * 8 = 4 * 6. *)
Lemma base_encode_length (e : encoding) l :
  0 < enc_bits e → 0 < enc_bytes e → enc_bytes e * 8 = enc_digits e * enc_bits e →
  length (base_encode e l) = encoded_size e (length l).
Proof.
  intros Hb Hby Hq. unfold base_encode, encoded_size.
  assert (∀ fuel l, length l ≤ fuel → length (encode_loop fuel e l) = (8 * length l + enc_bits e - 1) / enc_bits e) as H; [|by apply H].
  clear l. induction fuel as [|fuel IH]; intros l Hl.
  { destruct l; [|simpl in Hl; lia]. cbn. symmetry. apply Nat.div_small. lia. }
  destruct l as [|x l'] eqn:E; [cbn; symmetry; apply Nat.div_small; lia|]. rewrite <-E in *.
  assert (encode_loop (S fuel) e l = encode_quantum e (take (enc_bytes e) l) ++ encode_loop fuel e (drop (enc_bytes e) l)) as -> by (by rewrite E).
  assert (0 < length l) by (rewrite E; simpl; lia).
  rewrite length_app, IH by (rewrite length_drop; lia). unfold encode_quantum. rewrite length_map, length_groups; [|done|].
  2:{ rewrite length_bits, length_take. nia. }
  rewrite length_bits, length_take, length_drop. destruct (decide (length l ≤ enc_bytes e)).
  - rewrite Nat.min_r by done. replace (length l - enc_bytes e) with 0 by lia. rewrite (Nat.div_small (8 * 0 + enc_bits e - 1)) by lia. lia.
  - rewrite Nat.min_l by lia.
    replace (8 * enc_bytes e + enc_bits e - 1) with (enc_digits e * enc_bits e + (enc_bits e - 1)) by lia.
    rewrite Nat.div_add_l by lia. rewrite Nat.div_small by lia.
    replace (8 * length l + enc_bits e - 1) with (enc_digits e * enc_bits e + (8 * (length l - enc_bytes e) + enc_bits e - 1)) by lia.
    rewrite Nat.div_add_l by lia. lia.
Qed.
Example encode_foobar :
  base_encode base32StdEncoding (ascii_bytes "foobar") = ascii_bytes "MZXW6YTBOI" ∧
  base_encode base32HexEncoding (ascii_bytes "foobar") = ascii_bytes "CPNMUOJ1E8" ∧
  base_encode base64StdEncoding (ascii_bytes "fooba") = ascii_bytes "Zm9vYmE".
Proof. by vm_compute. Qed.
