(* ===== verification/DnsCodec.v ===== *)
(** * Packets as DNS messages: transport_pt_codec.go

    A piece of a packet is the name of a TXT question, in labels of base32, or
    the text of TXT answers, in base64. The messages themselves are made and
    parsed by golang.org/x/net/dns/dnsmessage: a class of functions with the
    law that names and texts within the limits of DNS come back. *)

From S2P Require Import Prelude BaseCodec.
Open Scope go_scope.

Definition dot : byte := Byte.x2e.
Definition TypeTXT : Z := 16.
Definition HeaderSize : nat := 18.

(** ** dnsmessage *)
Record Question := mkQuestion { q_name : list byte; q_type : Z }.
Record Resource := mkResource { r_name : list byte; r_type : Z; r_txt : list (list byte) }.
#[export] Instance Question_eq_dec : EqDecision Question.
Proof. solve_decision. Defined.
#[export] Instance Resource_eq_dec : EqDecision Resource.
Proof. solve_decision. Defined.
(** Labels of 1 to 63 bytes that end with a dot, 254 bytes in all. *)
Definition name_of_labels (ls : list (list byte)) : list byte := concat (map (λ l, l ++ [dot]) ls).
Definition label_ok (l : list byte) : Prop := 0 < length l ≤ 63 ∧ dot ∉ l.
Definition name_ok (n : list byte) : Prop :=
  length n ≤ 254 ∧ ∃ ls, ls ≠ [] ∧ Forall label_ok ls ∧ n = name_of_labels ls.
Definition txt_ok (r : Resource) : Prop := r_txt r ≠ [] ∧ Forall (λ t, length t ≤ 255) (r_txt r).

(** The questions (answers) of a message with an id, and what is parsed of a
    message: an error before the id is known, or the id with the questions. *)
Class DnsMessage := {
  buildQuestions : Z → list Question → outcome (list byte);
  buildAnswers : Z → list Resource → outcome (list byte);
  parseQuestions : list byte → outcome (Z * outcome (list Question));
  parseAnswers : list byte → outcome (Z * outcome (list Resource))
}.
Class DnsMessageLaws `(dm : DnsMessage) := {
  dns_questions id qs :
    is_u16 id → length qs ≤ 2 → Forall (λ q, name_ok (q_name q) ∧ is_u16 (q_type q)) qs →
    ∃ b, buildQuestions id qs = Val b ∧ parseQuestions b = Val (id, Val qs);
  dns_answers id rs :
    is_u16 id → length rs ≤ 2 → Forall (λ r, name_ok (r_name r) ∧ r_type r = TypeTXT ∧ txt_ok r) rs →
    ∃ b, buildAnswers id rs = Val b ∧ parseAnswers b = Val (id, Val rs);
  dns_no_panic b : is_panic (parseQuestions b) = false ∧ is_panic (parseAnswers b) = false ∧
    (∀ id o, parseQuestions b = Val (id, o) → is_panic o = false) ∧
    (∀ id o, parseAnswers b = Val (id, o) → is_panic o = false)
}.

(** ** Requests *)
Definition ceil_div (n m : Z) : Z := if (n `rem` m =? 0)%Z then n `quot` m else n `quot` m + 1.
(** A division by zero panics. *)
Definition count_of_size (n m : Z) : outcome Z :=
  if (m =? 0)%Z then Panic "integer divide by zero" else Val (ceil_div n m).
Definition encodeDnsRequestCount (packet tld : list byte) : outcome Z :=
  count_of_size (Z.of_nat (length packet)) (157 - 18 - Z.of_nat (length tld)).

(** The labels after the first one: the bytes from [n] to [m], by thirty. *)
Fixpoint request_labels (fuel n m : nat) (packet : list byte) : list byte :=
  match fuel with
  | 0 => []
  | S fuel =>
      if n <? m then
        let j := min (n + 30) m in
        base_encode base32HexEncoding (take (j - n) (drop n packet)) ++ [dot] ++ request_labels fuel j m packet
      else []
  end.
(** [name.Length = uint8(len(nameBuf))]: a longer name has wrapped. *)
Definition dns_name (nameBuf : list byte) : list byte := take (Z.to_nat (u8 (Z.of_nat (length nameBuf)))) nameBuf.
Definition request_name (header packet tld : list byte) (m : nat) : list byte :=
  let j := min (30 - length header) m in
  base_encode base32HexEncoding (header ++ take j packet) ++ [dot] ++ request_labels m j m packet ++ tld.
Definition pump_name (e : encoding) (header tld : list byte) : list byte := base_encode e header ++ [dot] ++ tld.

Section Codec.
Context `{DnsMessage}.
(** The bytes of the packet that were taken, and the message. *)
Definition encodeDnsRequest (id : Z) (header packet tld : list byte) : outcome (nat * list byte) :=
  let m := Z.min (Z.of_nat (length packet)) (157 - Z.of_nat (length header) - Z.of_nat (length tld)) in
  if (m <? 0)%Z then Panic "slice bounds out of range"
  else
    let name := request_name header packet tld (Z.to_nat m) in
    let! out := buildQuestions id
      [mkQuestion (dns_name name) TypeTXT; mkQuestion (dns_name (pump_name base32HexEncoding header tld)) TypeTXT] in
    Val (Z.to_nat m, out).

(** The first of [tlds] that ends the name after a dot. *)
Definition ends_name (name tld : list byte) : bool :=
  (length tld <? length name) && bool_decide (drop (length name - length tld) name = tld) &&
  bool_decide (name !! (length name - length tld - 1) = Some dot).
Definition find_tld (tlds : list (list byte)) (name : list byte) : option (list byte) := find (ends_name name) tlds.

(** [buf[n:]] is written. *)
Definition write_buf (buf : list byte) (n : nat) (b : list byte) : list byte := take n buf ++ b ++ drop (n + length b) buf.
Fixpoint until_dot (l : list byte) : list byte :=
  match l with [] => [] | c :: l => if decide (c = dot) then [] else c :: until_dot l end.
(** The labels of a question from [i] on; [first]: [i] is zero. *)
Fixpoint decode_labels (fuel : nat) (first : bool) (rest : list byte) (buf : list byte) (n : nat) : outcome (list byte * nat) :=
  match fuel, rest with
  | S fuel, _ :: _ =>
      let label := until_dot rest in
      let! b := base_decode base32HexEncoding (length buf - n) label in
      let buf := write_buf buf n b in
      if (0 <? n) && first && (length b <=? HeaderSize) then Val (buf, n)
      else decode_labels fuel false (drop (length label + 1) rest) buf (n + length b)
  | _, _ => Val (buf, n)
  end.
(** What a decoder returns. On an error the header is zero and the bytes, a
    part of the scratch buffer, are never looked at: they are left out. *)
Record decoded := mkDecoded {
  d_id : Z;
  d_pumpHeader : list byte;   (** of a response *)
  d_header : list byte;
  d_out : list byte;
  d_tld : option (list byte); (** of a request *)
  d_err : option string;
  d_otherData : bool
}.
Definition zero_header : list byte := replicate HeaderSize Byte.x00.
Definition decode_failed (id : Z) (tld : option (list byte)) (err : string) (otherData : bool) : decoded :=
  mkDecoded id zero_header zero_header [] tld (Some err) otherData.
(** [header = out[0:18]; out = out[18:n]] when there is one. *)
Definition split_header (buf : list byte) (n : nat) : list byte * list byte :=
  if HeaderSize <=? n then (take HeaderSize buf, drop HeaderSize (take n buf)) else (zero_header, buf).
Fixpoint decode_questions (tlds : list (list byte)) (qs : list Question) (tld : option (list byte)) (buf : list byte) (n : nat)
    (otherData : bool) : outcome (list byte * nat * option (list byte) * bool + option (list byte) * string * bool) :=
  match qs with
  | [] => Val (inl (buf, n, tld, otherData))
  | q :: qs =>
      if (q_type q =? TypeTXT)%Z then
        let name := q_name q in
        match find_tld tlds name with
        | None => decode_questions tlds qs None buf n otherData
        | Some tld =>
            match decode_labels (length name) true (take (length name - length tld) name) buf n with
            | Val (buf, n) => decode_questions tlds qs (Some tld) buf n otherData
            | Err e => Val (inr (Some tld, e, otherData))
            | Panic e => Panic e
            end
        end
      else decode_questions tlds qs tld buf n true
  end.
Definition buf_size : nat := 1024.
Definition decodeDnsRequest (packet : list byte) (tlds : list (list byte)) : outcome decoded :=
  match parseQuestions packet with
  | Err e => Val (decode_failed 0 None e false)
  | Panic e => Panic e
  | Val (id, Err e) => Val (decode_failed id None e false)
  | Val (_, Panic e) => Panic e
  | Val (id, Val qs) =>
      let! r := decode_questions tlds qs None (replicate buf_size Byte.x00) 0 false in
      match r with
      | inl (buf, n, tld, otherData) =>
          let (header, out) := split_header buf n in
          Val (mkDecoded id zero_header header out tld None otherData)
      | inr (tld, e, otherData) => Val (decode_failed id tld e otherData)
      end
  end.

(** ** Responses *)
Definition encodeDnsResponseCount (packet tld : list byte) : outcome Z :=
  count_of_size (Z.of_nat (length packet)) (191 - 18 + 160 - Z.of_nat (length tld)).
Definition encodeDnsResponse (id : Z) (pumpHeader header packet tld : list byte) : outcome (nat * list byte) :=
  let name := dns_name (pump_name base32StdEncoding pumpHeader tld) in
  let n := Z.min (Z.of_nat (length packet)) (191 - Z.of_nat (length header) - Z.of_nat (length tld)) in
  if (n <? 0)%Z then Panic "slice bounds out of range"
  else
    let n := Z.to_nat n in
    let first := mkResource name TypeTXT [base_encode base64StdEncoding header ++ base_encode base64StdEncoding (take n packet)] in
    if n <? length packet then
      let m := min (length packet - n) 160 in
      let second := mkResource name TypeTXT [base_encode base64StdEncoding (take m (drop n packet))] in
      let! out := buildAnswers id [first; second] in Val (n + m, out)
    else let! out := buildAnswers id [first] in Val (n, out).

Fixpoint decode_texts (texts : list (list byte)) (buf : list byte) (n : nat) : outcome (list byte * nat) :=
  match texts with
  | [] => Val (buf, n)
  | txt :: texts =>
      let! b := base_decode base64StdEncoding (length buf - n) txt in
      decode_texts texts (write_buf buf n b) (n + length b)
  end.
Fixpoint decode_answers (tlds : list (list byte)) (rs : list Resource) (pumpHeader : list byte) (buf : list byte) (n : nat)
    : outcome (list byte * list byte * nat + list byte * string) :=
  match rs with
  | [] => Val (inl (pumpHeader, buf, n))
  | a :: rs =>
      match find_tld tlds (r_name a) with
      | None => decode_answers tlds rs pumpHeader buf n
      | Some tld =>
          (* into the 18 bytes of the header *)
          match base_decode base32StdEncoding HeaderSize (until_dot (take (length (r_name a) - length tld) (r_name a))) with
          | Err e => Val (inr (pumpHeader, e))
          | Panic e => Panic e
          | Val b =>
              let pumpHeader := write_buf pumpHeader 0 b in
              if (r_type a =? TypeTXT)%Z then
                match decode_texts (r_txt a) buf n with
                | Val (buf, n) => decode_answers tlds rs pumpHeader buf n
                | Err e => Val (inr (pumpHeader, e))
                | Panic e => Panic e
                end
              else decode_answers tlds rs pumpHeader buf n
          end
      end
  end.
Definition decodeDnsResponse (packet : list byte) (tlds : list (list byte)) : outcome decoded :=
  match parseAnswers packet with
  | Err e => Val (decode_failed 0 None e false)
  | Panic e => Panic e
  | Val (id, Err e) => Val (decode_failed id None e false)
  | Val (_, Panic e) => Panic e
  | Val (id, Val rs) =>
      let! r := decode_answers tlds rs zero_header (replicate buf_size Byte.x00) 0 in
      match r with
      | inl (pumpHeader, buf, n) =>
          let (header, out) := split_header buf n in
          Val (mkDecoded id pumpHeader header out None None false)
      | inr (pumpHeader, e) => Val (mkDecoded id pumpHeader zero_header [] None (Some e) false)
      end
  end.
End Codec.

(** ** Names *)
#[local] Ltac Zify.zify_post_hook ::= Z.to_euclidean_division_equations.
Definition tld_ok (tld : list byte) : Prop := ∃ ls, ls ≠ [] ∧ Forall label_ok ls ∧ tld = name_of_labels ls.
(** None of the zones is within another one. *)
Definition tlds_ok (tlds : list (list byte)) : Prop :=
  Forall tld_ok tlds ∧ ∀ t1 t2 x, t1 ∈ tlds → t2 ∈ tlds → t1 ≠ x ++ dot :: t2.
Lemma tld_no_dot tld x : tld_ok tld → tld ≠ dot :: x.
Proof.
  intros (ls & Hne & Hl & ->) E. destruct ls as [|l ls]; [done|]. apply Forall_cons in Hl as [[Hlen Hd] _].
  destruct l as [|c l]; [simpl in Hlen; lia|]. cbn in E. injection E as -> _. apply Hd, list_elem_of_here.
Qed.
Lemma name_of_labels_app l1 l2 : name_of_labels (l1 ++ l2) = name_of_labels l1 ++ name_of_labels l2.
Proof. unfold name_of_labels. by rewrite map_app, concat_app. Qed.
Lemma name_of_labels_cons l ls : name_of_labels (l :: ls) = l ++ dot :: name_of_labels ls.
Proof. unfold name_of_labels. cbn [map concat]. by rewrite <-app_assoc. Qed.

Lemma ends_name_spec name tld :
  ends_name name tld = true ↔ ∃ p, name = p ++ dot :: tld.
Proof.
  unfold ends_name. rewrite !andb_true_iff, !bool_decide_eq_true, Nat.ltb_lt. split.
  - intros [[Hl Hd] Hn]. exists (take (length name - length tld - 1) name).
    rewrite <-(take_drop (length name - length tld - 1) name) at 1. f_equal.
    rewrite (drop_S _ dot) by done. f_equal. etrans; [|exact Hd]. f_equal. lia.
  - intros (p & ->). rewrite length_app. cbn [length]. split; [split; [lia|]|].
    + replace (p ++ dot :: tld) with ((p ++ [dot]) ++ tld) by (by rewrite <-app_assoc).
      rewrite drop_app_length'; [done|]. rewrite length_app. cbn. lia.
    + rewrite lookup_app_r by lia. by replace (length p + S (length tld) - length tld - 1 - length p) with 0 by lia.
Qed.
Lemma find_tld_spec tlds tld p :
  tlds_ok tlds → tld ∈ tlds → find_tld tlds (p ++ dot :: tld) = Some tld.
Proof.
  intros [Hok Hsub] Hin. unfold find_tld.
  destruct (find (ends_name (p ++ dot :: tld)) tlds) as [t|] eqn:E.
  - f_equal. apply find_some in E as [Ht He]. apply list_elem_of_In in Ht. apply ends_name_spec in He as (p' & He).
    assert (∀ (a b : list byte) x y, a ++ dot :: x = b ++ dot :: y → length y < length x → x = dot :: y ∨ ∃ z, x = z ++ dot :: y) as Hcmp.
    { clear. intros a b x y E Hl.
      assert (b = a ++ dot :: take (length b - length a - 1) x) as Eb.
      { assert (length a + length x = length b + length y) as El by (apply (f_equal length) in E; rewrite !length_app in E; simpl in E; lia).
        apply (f_equal (take (length b))) in E. rewrite take_app_length in E.
        etrans; [symmetry; exact E|]. rewrite take_app, (take_ge a) by lia. f_equal.
        by replace (length b - length a) with (S (length b - length a - 1)) at 1 by lia. }
      rewrite Eb in E. rewrite <-app_assoc in E. apply app_inv_head in E. cbn in E. injection E as E. right. by eexists. }
    destruct (lt_eq_lt_dec (length t) (length tld)) as [[Hl|Hl]|Hl].
    + exfalso. destruct (Hcmp p p' tld t He Hl) as [Hx|[z Hx]]; [|by apply (Hsub tld t z)].
      rewrite Forall_forall in Hok. by apply (tld_no_dot tld t (Hok _ Hin)).
    + apply app_inj_2 in He as [_ He]; [|simpl; lia]. by injection He.
    + exfalso. destruct (Hcmp p' p t tld (eq_sym He) Hl) as [Hx|[z Hx]]; [|by apply (Hsub t tld z)].
      rewrite Forall_forall in Hok. by apply (tld_no_dot t tld (Hok _ Ht)).
  - exfalso. apply list_elem_of_In in Hin. pose proof (find_none _ _ E tld Hin) as Hx.
    assert (ends_name (p ++ dot :: tld) tld = true) as Hy by (apply ends_name_spec; by exists p). congruence.
Qed.

(** The labels that encode some pieces. *)
Section Labels.
Context (e : encoding) `{!EncodingLaws e}.
Lemma encode_no_dot l : dot ∉ base_encode e l.
Proof.
  intros Hin. pose proof (base_encode_alphabet e l) as Hf. rewrite Forall_forall in Hf.
  apply Hf in Hin. by destruct (el_alphabet _ Hin).
Qed.
Lemma encode_nonempty l : l ≠ [] → 0 < length (base_encode e l).
Proof.
  intros Hl. rewrite base_encode_cons by done. rewrite length_app.
  destruct (el_quantum _ (quantum_take e l Hl)) as ([? _] & _). lia.
Qed.
Lemma until_dot_encode l rest : until_dot (base_encode e l ++ dot :: rest) = base_encode e l.
Proof.
  pose proof (encode_no_dot l) as Hn. induction (base_encode e l) as [|c x IH]; cbn [app until_dot]; [by rewrite decide_True|].
  rewrite decide_False by set_solver. f_equal. apply IH. set_solver.
Qed.
End Labels.

Lemma write_buf_app buf n a b :
  n + length a + length b ≤ length buf → write_buf (write_buf buf n a) (n + length a) b = write_buf buf n (a ++ b).
Proof.
  intros Hl. unfold write_buf. assert (length (take n buf) = n) as Ht by (rewrite length_take; lia).
  rewrite (app_assoc (take n buf) a). assert (length (take n buf ++ a) = n + length a) as Hta by (rewrite length_app; lia).
  rewrite take_app_length' by done. rewrite drop_app, Hta, (drop_ge (take n buf ++ a)) by lia. cbn [app].
  rewrite drop_drop, length_app, <-!app_assoc. do 4 f_equal. lia.
Qed.
Lemma write_buf_length buf n b : n + length b ≤ length buf → length (write_buf buf n b) = length buf.
Proof. intros H. unfold write_buf. rewrite !length_app, length_take, length_drop. lia. Qed.
Lemma write_buf_take buf n b : n + length b ≤ length buf → take (n + length b) (write_buf buf n b) = take n buf ++ b.
Proof.
  intros H. unfold write_buf. rewrite app_assoc. rewrite take_app_length'; [done|]. rewrite length_app, length_take. lia.
Qed.

Lemma decode_labels_pieces ps : ∀ fuel first buf n,
  Forall (λ p, p ≠ []) ps → length (name_of_labels (map (base_encode base32HexEncoding) ps)) ≤ fuel →
  n + length (concat ps) ≤ length buf → (first = false ∨ n = 0) →
  decode_labels fuel first (name_of_labels (map (base_encode base32HexEncoding) ps)) buf n =
  Val (write_buf buf n (concat ps), n + length (concat ps)).
Proof.
  induction ps as [|p ps IH]; intros fuel first buf n Hne Hf Hl Hfirst.
  { cbn. rewrite Nat.add_0_r. destruct fuel; cbn; unfold write_buf; cbn; by rewrite Nat.add_0_r, take_drop. }
  apply Forall_cons in Hne as [Hp Hps]. cbn [map concat] in *. rewrite name_of_labels_cons in *. rewrite !length_app in *. cbn [length] in Hf.
  pose proof (encode_nonempty base32HexEncoding p Hp) as H0.
  destruct (base_encode base32HexEncoding p ++ dot :: name_of_labels (map (base_encode base32HexEncoding) ps)) as [|c x] eqn:Ex.
  { apply (f_equal length) in Ex. rewrite length_app in Ex. simpl in Ex. lia. }
  destruct fuel as [|fuel]; [lia|]. cbn [decode_labels]. rewrite <-Ex, until_dot_encode by apply _.
  rewrite base_decode_encode by (apply _ || lia). cbn [obind].
  assert ((0 <? n) && first && (length p <=? HeaderSize) = false) as ->.
  { destruct Hfirst as [-> | ->]; [by rewrite andb_false_r|done]. }
  assert (drop (length (base_encode base32HexEncoding p) + 1) (base_encode base32HexEncoding p ++ dot :: name_of_labels (map (base_encode base32HexEncoding) ps))
    = name_of_labels (map (base_encode base32HexEncoding) ps)) as ->.
  { rewrite drop_app. rewrite (drop_ge (base_encode _ p)) by lia. cbn [app]. by replace (_ - _) with 1 by lia. }
  rewrite IH; [|done|lia|rewrite write_buf_length by lia; lia|by left].
  rewrite write_buf_app by lia. do 2 f_equal. lia.
Qed.

(** ** Requests *)
(** The length of the labels of [k] bytes. *)
Definition labels_length (k : nat) : nat :=
  49 * (k / 30) + (if k mod 30 =? 0 then 0 else (8 * (k mod 30) + 4) / 5 + 1).
Lemma labels_length_step k : labels_length (30 + k) = 49 + labels_length k.
Proof.
  unfold labels_length. replace (30 + k) with (1 * 30 + k) by lia.
  rewrite Nat.div_add_l by lia. replace (1 * 30 + k) with (k + 1 * 30) by lia.
  rewrite Nat.Div0.mod_add. destruct (k mod 30 =? 0); lia.
Qed.
Lemma labels_length_small k : 0 < k < 30 → labels_length k = (8 * k + 4) / 5 + 1.
Proof.
  intros Hk. unfold labels_length. rewrite Nat.mod_small, Nat.div_small by lia.
  destruct (Nat.eqb_spec k 0); [lia|]. by rewrite Nat.mul_0_r.
Qed.
Lemma encode_size_hex p : length (base_encode base32HexEncoding p) = (8 * length p + 4) / 5.
Proof. rewrite base_encode_length by (simpl; lia). unfold encoded_size. cbn [enc_bits base32HexEncoding]. f_equal. lia. Qed.
Lemma request_labels_pieces packet m fuel n :
  n ≤ m → m ≤ length packet → m - n ≤ fuel →
  ∃ ps, request_labels fuel n m packet = name_of_labels (map (base_encode base32HexEncoding) ps) ∧
    concat ps = take (m - n) (drop n packet) ∧ Forall (λ p, p ≠ [] ∧ length p ≤ 30) ps ∧
    length (name_of_labels (map (base_encode base32HexEncoding) ps)) = labels_length (m - n).
Proof.
  revert n. induction fuel as [|fuel IH]; intros n Hn Hm Hf.
  - exists []. replace (m - n) with 0 by lia. by rewrite take_0.
  - cbn [request_labels]. destruct (Nat.ltb_spec n m) as [Hlt|Hge].
    2:{ exists []. replace (m - n) with 0 by lia. by rewrite take_0. }
    set (j := min (n + 30) m). destruct (IH j) as (ps & E & Ec & Hps & Hl); [lia|done|lia|].
    assert (length (take (j - n) (drop n packet)) = j - n) as Hlen by (rewrite length_take, length_drop; lia).
    exists (take (j - n) (drop n packet) :: ps). cbn [map concat]. rewrite name_of_labels_cons. split_and!.
    + by rewrite E.
    + rewrite Ec. replace (drop j packet) with (drop (j - n) (drop n packet)) by (rewrite drop_drop; f_equal; lia).
      rewrite take_take_drop. f_equal. lia.
    + constructor; [|done]. split; [|lia]. intros E0. rewrite E0 in Hlen. simpl in Hlen. lia.
    + rewrite length_app. cbn [length]. rewrite Hl, encode_size_hex, Hlen. destruct (decide (n + 30 ≤ m)).
      * replace (j - n) with 30 by lia. replace (m - n) with (30 + (m - j)) by lia. rewrite labels_length_step.
        replace ((8 * 30 + 4) / 5) with 48 by reflexivity. lia.
      * replace j with m by lia. rewrite Nat.sub_diag, (labels_length_small (m - n)) by lia.
        change (labels_length 0) with 0. lia.
Qed.
(** Names of requests are long enough for what is put in them. *)
Lemma request_fits j k : j ≤ 12 → j = 12 ∨ k = 0 → j + k ≤ 133 →
  (8 * (18 + j) + 4) / 5 + 1 + labels_length k ≤ 115 + (j + k).
Proof.
  intros Hj Hk Hjk.
  assert (forallb (λ j, forallb (λ k, ((8 * (18 + j) + 4) / 5 + 1 + labels_length k <=? 115 + (j + k)) || negb ((j =? 12) || (k =? 0))) (seq 0 122)) (seq 0 13) = true) as H by reflexivity.
  rewrite forallb_forall in H. specialize (H j ltac:(apply in_seq; lia)). rewrite forallb_forall in H.
  destruct Hk as [->| ->]; [specialize (H k ltac:(apply in_seq; lia))|specialize (H 0 ltac:(apply in_seq; lia))]; by apply orb_true_iff in H as [H%Nat.leb_le|H%negb_true_iff];
    [|rewrite ?orb_true_r in H].
Qed.
Lemma label_ok_encode e `{!EncodingLaws e} p :
  p ≠ [] → length (base_encode e p) ≤ 63 → label_ok (base_encode e p).
Proof. intros Hp Hl. split; [|by apply encode_no_dot]. by pose proof (encode_nonempty e p Hp). Qed.
Lemma name_ok_labels ls tld :
  Forall label_ok ls → tld_ok tld → length (name_of_labels ls ++ tld) ≤ 254 → name_ok (name_of_labels ls ++ tld).
Proof.
  intros Hl (ts & Hne & Ht & ->) Hlen. split; [done|]. exists (ls ++ ts). split; [by destruct ls|]. split; [by apply Forall_app|].
  by rewrite name_of_labels_app.
Qed.
Lemma dns_name_short n : length n ≤ 255 → dns_name n = n.
Proof. intros H. unfold dns_name, u8. rewrite Z.mod_small by lia. rewrite Nat2Z.id. apply firstn_all. Qed.
Lemma request_name_spec header packet tld m :
  length header = HeaderSize → m ≤ length packet → m + length tld ≤ 139 → 6 ≤ length tld → tld_ok tld →
  ∃ ps, request_name header packet tld m = name_of_labels (map (base_encode base32HexEncoding) ps) ++ tld ∧
    concat ps = header ++ take m packet ∧ Forall (λ p, p ≠ []) ps ∧ ps ≠ [] ∧ name_ok (request_name header packet tld m).
Proof.
  intros Hh Hm Hmt Ht Htld. unfold request_name. rewrite Hh. unfold HeaderSize in *. replace (30 - 18) with 12 by done.
  set (j := min 12 m). destruct (request_labels_pieces packet m m j) as (ps & E & Ec & Hps & Hl); [lia|done|lia|].
  assert (length (header ++ take j packet) = 18 + j) as Hp by (rewrite length_app, length_take; lia).
  exists ((header ++ take j packet) :: ps). cbn [map concat]. rewrite name_of_labels_cons, E.
  assert (base_encode base32HexEncoding (header ++ take j packet) ++ [dot] ++ name_of_labels (map (base_encode base32HexEncoding) ps) ++ tld
    = (base_encode base32HexEncoding (header ++ take j packet) ++ dot :: name_of_labels (map (base_encode base32HexEncoding) ps)) ++ tld) as ->
    by (by rewrite <-app_assoc).
  assert (header ++ take j packet ≠ []) as Hne by (intros E0; rewrite E0 in Hp; simpl in Hp; lia).
  split; [done|]. split; [|split; [|split; [done|]]].
  - rewrite Ec, <-app_assoc. f_equal. rewrite take_take_drop. f_equal. lia.
  - constructor; [done|]. eapply Forall_impl; [exact Hps|]. by intros p [].
  - rewrite <-name_of_labels_cons, <-map_cons. apply name_ok_labels; [|done|].
    + rewrite map_cons. constructor.
      * apply (label_ok_encode base32HexEncoding); [exact Hne|]. rewrite encode_size_hex, Hp. apply Nat.Div0.div_le_upper_bound; lia.
      * apply Forall_map. eapply Forall_impl; [exact Hps|]. intros p [Hpn Hpl]. apply (label_ok_encode base32HexEncoding); [exact Hpn|].
        rewrite encode_size_hex. apply Nat.Div0.div_le_upper_bound; lia.
    + rewrite map_cons, name_of_labels_cons, !length_app. cbn [length]. rewrite Hl, encode_size_hex, Hp.
      pose proof (request_fits j (m - j) ltac:(lia) ltac:(lia) ltac:(lia)). lia.
Qed.
Lemma pump_name_ok e `{!EncodingLaws e} header tld :
  length (base_encode e header) ≤ 63 → header ≠ [] → tld_ok tld → length (base_encode e header) + 1 + length tld ≤ 254 →
  name_ok (pump_name e header tld).
Proof.
  intros H1 H2 H3 H4. unfold pump_name.
  assert (base_encode e header ++ [dot] ++ tld = name_of_labels [base_encode e header] ++ tld) as ->.
  { rewrite name_of_labels_cons. cbn. by rewrite <-app_assoc. }
  apply name_ok_labels; [|done|].
  - constructor; [by apply (label_ok_encode e)|constructor].
  - rewrite name_of_labels_cons, !length_app. simpl. lia.
Qed.

(** A name under a zone, as the decoders find it. *)
Lemma name_of_labels_dot ls : ls ≠ [] → ∃ p, name_of_labels ls = p ++ [dot].
Proof.
  intros Hne. destruct ls as [|l ls _] using rev_ind; [done|]. exists (name_of_labels ls ++ l).
  rewrite name_of_labels_app. cbn. by rewrite !app_nil_r, app_assoc.
Qed.
Lemma find_tld_labels tlds tld ls :
  tlds_ok tlds → tld ∈ tlds → ls ≠ [] → find_tld tlds (name_of_labels ls ++ tld) = Some tld.
Proof.
  intros Hok Hin Hne. destruct (name_of_labels_dot ls Hne) as [p ->]. rewrite <-app_assoc. by apply find_tld_spec.
Qed.
Lemma take_name {A} (a b : list A) : take (length (a ++ b) - length b) (a ++ b) = a.
Proof. rewrite length_app, Nat.add_sub. apply take_app_length. Qed.
Lemma pump_name_labels e header tld : pump_name e header tld = name_of_labels [base_encode e header] ++ tld.
Proof. unfold pump_name. rewrite name_of_labels_cons. cbn. by rewrite <-app_assoc. Qed.
Lemma name_ok_length n : name_ok n → dns_name n = n.
Proof. intros [Hl _]. apply dns_name_short. lia. Qed.
Lemma write_buf_all buf b : length b = length buf → write_buf buf 0 b = b.
Proof. intros H. unfold write_buf. cbn. rewrite drop_ge by lia. apply app_nil_r. Qed.
(** The header question that follows data is skipped. *)
Lemma decode_header_question fuel header buf n :
  0 < fuel → 0 < n → length header = HeaderSize → n + HeaderSize ≤ length buf →
  ∃ buf', decode_labels fuel true (name_of_labels [base_encode base32HexEncoding header]) buf n = Val (buf', n) ∧
    take n buf' = take n buf ∧ length buf' = length buf.
Proof.
  intros Hf Hn Hh Hl. destruct fuel as [|fuel]; [lia|]. exists (write_buf buf n header).
  assert (header ≠ []) as Hne by (by destruct header).
  pose proof (encode_nonempty base32HexEncoding header Hne) as H0. rewrite name_of_labels_cons.
  destruct (base_encode base32HexEncoding header ++ dot :: name_of_labels []) as [|c x] eqn:Ex.
  { apply (f_equal length) in Ex. rewrite length_app in Ex. simpl in Ex. lia. }
  cbn [decode_labels]. rewrite <-Ex, until_dot_encode by apply _. rewrite base_decode_encode by (apply _ || lia). cbn [obind].
  rewrite (proj2 (Nat.ltb_lt _ _)) by done. rewrite (proj2 (Nat.leb_le _ _)) by lia. cbn. split_and!; [done| |].
  - unfold write_buf. rewrite take_app_length'; [done|]. rewrite length_take. lia.
  - apply write_buf_length. lia.
Qed.
Lemma split_header_take buf header data n :
  length header = HeaderSize → n = length (header ++ data) → take n buf = header ++ data → split_header buf n = (header, data).
Proof.
  intros Hh Hn Ht. unfold split_header. rewrite length_app in Hn. rewrite (proj2 (Nat.leb_le _ _)) by lia. f_equal.
  - assert (take HeaderSize (take n buf) = take HeaderSize buf) as <- by (rewrite take_take; f_equal; lia).
    rewrite Ht. by apply take_app_length'.
  - rewrite Ht. by apply drop_app_length'.
Qed.

Lemma type_txt_u16 : is_u16 TypeTXT.
Proof. unfold is_u16, TypeTXT. lia. Qed.

Section Roundtrip.
Context `{dml : DnsMessageLaws}.
Lemma decode_request_name tlds tld ps header buf :
  tlds_ok tlds → tld ∈ tlds → ps ≠ [] → Forall (λ p, p ≠ []) ps → length header = HeaderSize → HeaderSize ≤ length (concat ps) →
  length (concat ps) + HeaderSize ≤ length buf →
  ∃ buf', decode_questions tlds
    [mkQuestion (name_of_labels (map (base_encode base32HexEncoding) ps) ++ tld) TypeTXT;
     mkQuestion (pump_name base32HexEncoding header tld) TypeTXT] None buf 0 false =
    Val (inl (buf', length (concat ps), Some tld, false)) ∧ take (length (concat ps)) buf' = concat ps.
Proof.
  intros Hok Hin Hne Hps Hh Hc Hl. cbn [decode_questions q_type q_name]. change ((TypeTXT =? TypeTXT)%Z) with true. cbn match.
  rewrite find_tld_labels by (done || by destruct ps). rewrite take_name, decode_labels_pieces;
    [|done|rewrite length_app; lia|lia|by right]. cbn match. rewrite Nat.add_0_l.
  rewrite pump_name_labels, find_tld_labels by done. rewrite take_name.
  pose proof (write_buf_length buf 0 (concat ps) ltac:(lia)) as Hw.
  destruct (decode_header_question (length (name_of_labels [base_encode base32HexEncoding header] ++ tld)) header
    (write_buf buf 0 (concat ps)) (length (concat ps))) as (buf' & -> & Ht & _);
    [rewrite length_app, name_of_labels_cons, length_app; simpl; lia|unfold HeaderSize in *; lia|done|lia|].
  exists buf'. split; [done|]. rewrite Ht. apply (write_buf_take buf 0 (concat ps)). lia.
Qed.
(** What a request is made of is what the server reads of it: the bytes
    of the packet that fit under the zone, with their header, their zone and
    their id; a request for a longer packet takes a part of it that depends on
    the length of the zone alone. *)
Theorem dns_request_roundtrip id header packet tld tlds :
  is_u16 id → length header = HeaderSize → tlds_ok tlds → tld ∈ tlds → 6 ≤ length tld ≤ 139 →
  let n := min (length packet) (139 - length tld) in
  ∃ message, encodeDnsRequest id header packet tld = Val (n, message) ∧
    decodeDnsRequest message tlds = Val (mkDecoded id zero_header header (take n packet) (Some tld) None false).
Proof.
  intros Hid Hh Hok Hin Ht n. assert (tld_ok tld) as Htld by (destruct Hok as [Hf _]; rewrite Forall_forall in Hf; by apply Hf).
  unfold encodeDnsRequest. rewrite Hh.
  replace (Z.min (Z.of_nat (length packet)) (157 - Z.of_nat HeaderSize - Z.of_nat (length tld))) with (Z.of_nat n) by (unfold HeaderSize; lia).
  rewrite (proj2 (Z.ltb_ge _ _)) by lia. rewrite Nat2Z.id.
  destruct (request_name_spec header packet tld n) as (ps & E & Ec & Hps & Hne & Hnm); [done|lia|lia|lia|done|].
  assert (name_ok (pump_name base32HexEncoding header tld)) as Hpn.
  { apply pump_name_ok; [apply _|rewrite encode_size_hex, Hh; cbn; lia|by destruct header|done|rewrite encode_size_hex, Hh; cbn; lia]. }
  rewrite !name_ok_length by done.
  destruct (dns_questions id [mkQuestion (request_name header packet tld n) TypeTXT; mkQuestion (pump_name base32HexEncoding header tld) TypeTXT])
    as (b & Eb & Ep); [done|done|apply Forall_cons_2; [by split; [|apply type_txt_u16]|apply Forall_cons_2; [by split; [|apply type_txt_u16]|constructor]]|].
  rewrite Eb. exists b. split; [done|]. unfold decodeDnsRequest. rewrite Ep, E.
  assert (length (concat ps) = HeaderSize + n) as Hcl by (rewrite Ec, length_app, length_take, Hh; lia).
  destruct (decode_request_name tlds tld ps header (replicate buf_size Byte.x00)) as (buf' & -> & Htk);
    [done..|unfold HeaderSize in *; lia|rewrite length_replicate; unfold HeaderSize, buf_size in *; lia|].
  cbn [obind]. rewrite (split_header_take buf' header (take n packet)); [done|done|by rewrite Ec|by rewrite Htk, Ec].
Qed.

(** An answer of one text under the zone. *)
Lemma decode_answer tlds tld pumpHeader old text rs buf n data :
  tlds_ok tlds → tld ∈ tlds → length pumpHeader = HeaderSize → length old = HeaderSize →
  base_decode base64StdEncoding (length buf - n) text = Val data →
  decode_answers tlds (mkResource (pump_name base32StdEncoding pumpHeader tld) TypeTXT [text] :: rs) old buf n =
  decode_answers tlds rs pumpHeader (write_buf buf n data) (n + length data).
Proof.
  intros Hok Hin Hp Ho Hd. cbn [decode_answers r_name r_type r_txt]. rewrite pump_name_labels, find_tld_labels by done.
  rewrite take_name, name_of_labels_cons, until_dot_encode by apply _.
  rewrite base_decode_encode by (apply _ || lia). rewrite write_buf_all by lia.
  change ((TypeTXT =? TypeTXT)%Z) with true. cbn [decode_texts]. by rewrite Hd.
Qed.
Lemma encode_size_64 p : length (base_encode base64StdEncoding p) = (8 * length p + 5) / 6.
Proof. rewrite base_encode_length by (simpl; lia). unfold encoded_size. cbn [enc_bits base64StdEncoding]. f_equal. lia. Qed.
Lemma encode_size_std p : length (base_encode base32StdEncoding p) = (8 * length p + 4) / 5.
Proof. rewrite base_encode_length by (simpl; lia). unfold encoded_size. cbn [enc_bits base32StdEncoding]. f_equal. lia. Qed.
Lemma response_name_ok pumpHeader tld :
  length pumpHeader = HeaderSize → tld_ok tld → length tld ≤ 173 → name_ok (pump_name base32StdEncoding pumpHeader tld).
Proof.
  intros Hp Htld Ht.
  apply pump_name_ok; [apply _|rewrite encode_size_std, Hp; cbn; lia|by destruct pumpHeader|done|rewrite encode_size_std, Hp; cbn; lia].
Qed.
Lemma text_fits k : k ≤ 191 → (8 * k + 5) / 6 ≤ 255.
Proof. intros Hk. apply Nat.lt_succ_r, Nat.Div0.div_lt_upper_bound. lia. Qed.
(** The header and the start of the packet: the header is of whole quanta. *)
Lemma decode_first_text header data room :
  length header = HeaderSize → HeaderSize + length data ≤ room →
  base_decode base64StdEncoding room (base_encode base64StdEncoding header ++ base_encode base64StdEncoding data) = Val (header ++ data).
Proof. intros Hh Hr. rewrite (base_decode_encode_app base64StdEncoding room header data 6); [done|by rewrite Hh|lia]. Qed.

Lemma first_text_length header data :
  length header = HeaderSize → length data ≤ 173 → length (base_encode base64StdEncoding header ++ base_encode base64StdEncoding data) ≤ 255.
Proof.
  intros Hh Hd. rewrite length_app, !encode_size_64, Hh. pose proof (text_fits (18 + length data) ltac:(lia)) as H1.
  replace (8 * (18 + length data) + 5) with (24 * 6 + (8 * length data + 5)) in H1 by lia.
  rewrite Nat.div_add_l in H1 by lia. exact H1.
Qed.
Lemma answer_ok name text :
  name_ok name → length text ≤ 255 →
  name_ok (r_name (mkResource name TypeTXT [text])) ∧ r_type (mkResource name TypeTXT [text]) = TypeTXT ∧ txt_ok (mkResource name TypeTXT [text]).
Proof. intros Hn Ht. split_and!; [done..|]. split; [done|]. by apply Forall_singleton. Qed.
Lemma dns_one_answer id name t1 :
  is_u16 id → name_ok name → length t1 ≤ 255 →
  let rs := [mkResource name TypeTXT [t1]] in ∃ b, buildAnswers id rs = Val b ∧ parseAnswers b = Val (id, Val rs).
Proof.
  intros Hid Hn H1. apply dns_answers; [done|simpl; lia|]. apply Forall_cons_2; [by apply answer_ok|constructor].
Qed.
Lemma dns_two_answers id name t1 t2 :
  is_u16 id → name_ok name → length t1 ≤ 255 → length t2 ≤ 255 →
  let rs := [mkResource name TypeTXT [t1]; mkResource name TypeTXT [t2]] in
  ∃ b, buildAnswers id rs = Val b ∧ parseAnswers b = Val (id, Val rs).
Proof.
  intros Hid Hn H1 H2. apply dns_answers; [done|simpl; lia|].
  apply Forall_cons_2; [by apply answer_ok|]. apply Forall_cons_2; [by apply answer_ok|constructor].
Qed.
(** What the records of a response decode to. *)
Lemma decode_first_answer tlds tld pumpHeader header d1 rs :
  tlds_ok tlds → tld ∈ tlds → length pumpHeader = HeaderSize → length header = HeaderSize → length d1 ≤ 173 →
  decode_answers tlds (mkResource (pump_name base32StdEncoding pumpHeader tld) TypeTXT
    [base_encode base64StdEncoding header ++ base_encode base64StdEncoding d1] :: rs) zero_header (replicate buf_size Byte.x00) 0 =
  decode_answers tlds rs pumpHeader (write_buf (replicate buf_size Byte.x00) 0 (header ++ d1)) (length (header ++ d1)).
Proof.
  intros Hok Hin Hp Hh Hd. apply (decode_answer tlds tld pumpHeader _ _ _ _ 0 (header ++ d1)); [done..|].
  apply decode_first_text; [done|]. rewrite length_replicate. unfold HeaderSize, buf_size. lia.
Qed.
Lemma decode_second_answer tlds tld pumpHeader header d1 d2 :
  tlds_ok tlds → tld ∈ tlds → length pumpHeader = HeaderSize → length header = HeaderSize → length d1 ≤ 173 → length d2 ≤ 160 →
  decode_answers tlds [mkResource (pump_name base32StdEncoding pumpHeader tld) TypeTXT [base_encode base64StdEncoding d2]] pumpHeader
    (write_buf (replicate buf_size Byte.x00) 0 (header ++ d1)) (length (header ++ d1)) =
  Val (inl (pumpHeader, write_buf (replicate buf_size Byte.x00) 0 (header ++ d1 ++ d2), length (header ++ d1 ++ d2))).
Proof.
  intros Hok Hin Hp Hh Hd1 Hd2.
  assert (length (header ++ d1) = HeaderSize + length d1) as Hl by (rewrite length_app; lia). unfold HeaderSize in Hl.
  assert (length (replicate buf_size Byte.x00) = 1024) as Hb by apply length_replicate.
  assert (length (write_buf (replicate buf_size Byte.x00) 0 (header ++ d1)) = 1024) as Hw by (rewrite write_buf_length; lia).
  rewrite (decode_answer tlds tld pumpHeader _ _ _ _ _ d2); [|done..|apply base_decode_encode; [apply _|lia]].
  pose proof (write_buf_app (replicate buf_size Byte.x00) 0 (header ++ d1) d2 ltac:(lia)) as Hc. rewrite Nat.add_0_l in Hc.
  cbn [decode_answers]. rewrite Hc, <-app_assoc, <-length_app, <-app_assoc. done.
Qed.
Lemma split_header_buf header data :
  length header = HeaderSize → length data ≤ 333 →
  split_header (write_buf (replicate buf_size Byte.x00) 0 (header ++ data)) (length (header ++ data)) = (header, data).
Proof.
  intros Hh Hd. apply split_header_take; [done..|]. apply (write_buf_take _ 0).
  rewrite length_replicate, length_app, Hh. unfold HeaderSize, buf_size. lia.
Qed.

(** A response brings back the header of the request that it answers with
    its id, and the bytes of the packet that its two records hold. *)
Theorem dns_response_roundtrip id pumpHeader header packet tld tlds :
  is_u16 id → length pumpHeader = HeaderSize → length header = HeaderSize → tlds_ok tlds → tld ∈ tlds → length tld ≤ 173 →
  let n := min (length packet) (333 - length tld) in
  ∃ message, encodeDnsResponse id pumpHeader header packet tld = Val (n, message) ∧
    decodeDnsResponse message tlds = Val (mkDecoded id pumpHeader header (take n packet) None None false).
Proof.
  intros Hid Hp Hh Hok Hin Ht n. assert (tld_ok tld) as Htld by (destruct Hok as [Hf _]; rewrite Forall_forall in Hf; by apply Hf).
  pose proof (response_name_ok pumpHeader tld Hp Htld Ht) as Hnm. unfold encodeDnsResponse, decodeDnsResponse.
  rewrite name_ok_length by done. rewrite Hh. set (n1 := min (length packet) (173 - length tld)).
  replace (Z.min (Z.of_nat (length packet)) (191 - Z.of_nat HeaderSize - Z.of_nat (length tld))) with (Z.of_nat n1) by (unfold HeaderSize; lia).
  rewrite (proj2 (Z.ltb_ge _ _)) by lia. rewrite Nat2Z.id.
  assert (length (take n1 packet) ≤ 173) as Hl1 by (rewrite length_take; lia).
  pose proof (first_text_length header _ Hh Hl1) as Hok1.
  assert (length (take n packet) ≤ 333) as Hln by (rewrite length_take; lia).
  destruct (Nat.ltb_spec n1 (length packet)) as [Hlt|Hge].
  - set (m := min (length packet - n1) 160).
    assert (length (take m (drop n1 packet)) ≤ 160) as Hl2 by (rewrite length_take; lia).
    assert (length (base_encode base64StdEncoding (take m (drop n1 packet))) ≤ 255) as Ht2 by (rewrite encode_size_64; apply text_fits; lia).
    destruct (dns_two_answers id _ _ _ Hid Hnm Hok1 Ht2) as (b & Eb & Ep).
    rewrite Eb. exists b. split; [cbn; f_equal; f_equal; lia|]. rewrite Ep, decode_first_answer by done.
    rewrite decode_second_answer by done. cbn [obind].
    assert (take n1 packet ++ take m (drop n1 packet) = take n packet) as -> by (rewrite take_take_drop; f_equal; lia).
    by rewrite split_header_buf.
  - destruct (dns_one_answer id _ _ Hid Hnm Hok1) as (b & Eb & Ep).
    rewrite Eb. exists b. split; [cbn; f_equal; f_equal; lia|]. rewrite Ep, decode_first_answer by done.
    cbn [decode_answers obind]. assert (n1 = n) as -> by lia. by rewrite split_header_buf.
Qed.
End Roundtrip.

(** ** The codec at work *)
Module DnsExample.
#[export] Program Instance Question_countable : Countable Question :=
  inj_countable' (λ q, (q_name q, q_type q)) (λ '(n, t), mkQuestion n t) _.
Next Obligation. by intros []. Qed.
#[export] Program Instance Resource_countable : Countable Resource :=
  inj_countable' (λ r, (r_name r, r_type r, r_txt r)) (λ '(n, t, x), mkResource n t x) _.
Next Obligation. by intros []. Qed.
(** Messages that hold any names and texts. *)
Definition parse_with {A} `{Countable A} (b : list byte) : outcome (Z * outcome A) :=
  match decode_bytes b with Val (id, x) => Val (id, Val x) | _ => Err "unpack" end.
#[export] Instance ex_dns : DnsMessage := {
  buildQuestions id qs := Val (encode_bytes (id, qs));
  buildAnswers id rs := Val (encode_bytes (id, rs));
  parseQuestions := parse_with;
  parseAnswers := parse_with
}.
#[export] Instance ex_dns_laws : DnsMessageLaws ex_dns.
Proof.
  split; cbn.
  - intros id qs _ _ _. eexists. split; [done|]. unfold parse_with. by rewrite decode_encode_bytes.
  - intros id rs _ _ _. eexists. split; [done|]. unfold parse_with. by rewrite decode_encode_bytes.
  - intros b. unfold parse_with. split_and!; [by destruct (decode_bytes b) as [[]| |]..| |].
    + intros id o. destruct (decode_bytes b) as [[? ?]| |]; intros E; [|done..]. injection E as _ <-. done.
    + intros id o. destruct (decode_bytes b) as [[? ?]| |]; intros E; [|done..]. injection E as _ <-. done.
Qed.
Definition ex_tld : list byte := ascii_bytes "ur.example.com.".
Definition ex_tlds : list (list byte) := [ascii_bytes "other.net."; ex_tld].
Definition ex_header : list byte := replicate 16 Byte.x2a ++ [Byte.x02; Byte.x01].
Definition ex_packet : list byte := map (λ i, byte_of (Z.of_nat i)) (seq 0 200).
Lemma ex_tlds_ok : tlds_ok ex_tlds.
Proof.
  assert (label_ok (ascii_bytes "other") ∧ label_ok (ascii_bytes "net") ∧ label_ok (ascii_bytes "ur") ∧
    label_ok (ascii_bytes "example") ∧ label_ok (ascii_bytes "com")) as (L1 & L2 & L3 & L4 & L5).
  { unfold label_ok. split_and!; (by vm_compute) || (simpl; lia) || (by apply (bool_decide_unpack _)). }
  split.
  - repeat apply Forall_cons_2; [| |constructor].
    + exists [ascii_bytes "other"; ascii_bytes "net"]. split; [done|]. split; [repeat (apply Forall_cons_2; [done|]); constructor|]. by vm_compute.
    + exists [ascii_bytes "ur"; ascii_bytes "example"; ascii_bytes "com"]. split; [done|]. split; [repeat (apply Forall_cons_2; [done|]); constructor|]. by vm_compute.
  - intros t1 t2 x H1 H2 E.
    assert (∀ t1, t1 ∈ ex_tlds → ∀ t2, t2 ∈ ex_tlds → ends_name t1 t2 = false) as Hn.
    { assert (forallb (λ t1, forallb (λ t2, negb (ends_name t1 t2)) ex_tlds) ex_tlds = true) as Hb by by vm_compute.
      intros a Ha b Hb'. rewrite forallb_forall in Hb. apply list_elem_of_In in Ha, Hb'. specialize (Hb a Ha).
      rewrite forallb_forall in Hb. apply negb_true_iff. by apply Hb. }
    specialize (Hn t1 H1 t2 H2). assert (ends_name t1 t2 = true) by (apply ends_name_spec; by exists x). congruence.
Qed.
Lemma dns_request_roundtrip_witness :
  ∃ message, encodeDnsRequest 7 ex_header ex_packet ex_tld = Val (124, message) ∧
    decodeDnsRequest message ex_tlds = Val (mkDecoded 7 zero_header ex_header (take 124 ex_packet) (Some ex_tld) None false).
Proof.
  apply (dns_request_roundtrip 7 ex_header ex_packet ex_tld ex_tlds).
  - unfold is_u16. lia.
  - reflexivity.
  - exact ex_tlds_ok.
  - apply list_elem_of_further, list_elem_of_here.
  - vm_compute. lia.
Defined.
Lemma dns_response_roundtrip_witness :
  ∃ message, encodeDnsResponse 7 ex_header ex_header ex_packet ex_tld = Val (200, message) ∧
    decodeDnsResponse message ex_tlds = Val (mkDecoded 7 ex_header ex_header ex_packet None None false).
Proof.
  apply (dns_response_roundtrip 7 ex_header ex_header ex_packet ex_tld ex_tlds).
  - unfold is_u16. lia.
  - reflexivity.
  - reflexivity.
  - exact ex_tlds_ok.
  - apply list_elem_of_further, list_elem_of_here.
  - vm_compute. lia.
Defined.

(** Under a zone of three bytes the name of a full request is of 256 bytes,
    and its length wraps to zero. *)
Example short_tld_wraps :
  let name := request_name ex_header ex_packet (ascii_bytes "ab.") 136 in
  length name = 256 ∧ dns_name name = [].
Proof. by vm_compute. Qed.
(** Eight questions of data are more than the buffer holds. *)
Example many_questions_panic :
  let q := mkQuestion (request_name ex_header ex_packet ex_tld 124) TypeTXT in
  is_panic (decode_questions ex_tlds (replicate 8 q) None (replicate buf_size Byte.x00) 0 false) = true.
Proof. by vm_compute. Qed.
(** The header of an answer is decoded into eighteen bytes, whatever its length. *)
Example long_label_panics :
  let name := base_encode base32StdEncoding (ex_header ++ [Byte.x00]) ++ [dot] ++ ex_tld in
  is_panic (decode_answers ex_tlds [mkResource name TypeTXT [[]]] zero_header (replicate buf_size Byte.x00) 0) = true.
Proof. by vm_compute. Qed.
End DnsExample.
