(* ===== verification/PacketQueues.v ===== *)
(** * Fragments and pump headers: transport_pt_queue.go

    A [combineQueue] puts the fragments of packets together, whatever their
    order; a [pumpQueue] keeps the headers that responses can use. Both are
    heaps of pointers to items that are ordered by a time in the items, with
    maps to find them; both are proved to refine collections of items. *)

From S2P Require Import Prelude GoHeap.
Open Scope go_scope.

Record PacketTranslationSettings := mkPacketTranslationSettings {
  DnsTlds : list (list byte);
  DnsPumpTimeout : Z;
  DnsStateTimeout : Z;
  DnsMaxCombinePerAddress : Z;
  DnsMaxCombine : Z;
  DnsMaxPumpHostsPerAddress : Z;
  DnsMaxPumpHosts : Z;
  WritePacketsPerSecond : Z;
  SequenceBufferSize : Z
}.
(** [1 * time.Second / time.Duration(100)] and so on, in nanoseconds. *)
Definition DefaultPacketTranslationSettings : PacketTranslationSettings := {|
  DnsTlds := [];
  DnsPumpTimeout := 1000000000 / 100;
  DnsStateTimeout := 5 * 1000000000;
  DnsMaxCombinePerAddress := 64 * 1024;
  DnsMaxCombine := 64 * 1024 * 1024 * 1024;
  DnsMaxPumpHostsPerAddress := 2 * 1024;
  DnsMaxPumpHosts := 1024 * 1024 * 1024;
  WritePacketsPerSecond := 200;
  SequenceBufferSize := 32
|}.

Definition ptr := positive.
(** A count of items per address: [delete] at the last one. *)
Definition dec_count (a : string) (m : gmap string Z) : gmap string Z :=
  let c := default 0%Z (m !! a) in if (c <=? 1)%Z then delete a m else <[a := (c - 1)%Z]> m.
Definition inc_count (a : string) (m : gmap string Z) : gmap string Z :=
  <[a := (default 0%Z (m !! a) + 1)%Z]> m.

(** ** The combine queue *)
Section CombineQueue.
(** [net.Addr] and its [String]. *)
Context {Addr : Type} (addrString : Addr → string).

Record packet := mkPacket { pk_data : list byte; pk_addr : Addr }.
Record combineItem := mkCombineItem {
  ci_key : list byte;
  ci_addr : Addr;
  ci_packets : list (option packet);
  ci_n : nat;
  ci_updateAddr : Addr;
  ci_updateTime : Z
}.
(** The items that the pointers point at, and the queue. *)
Record combineQueue := mkCombineQueue {
  cq_store : gmap ptr combineItem;
  cq_orderedItems : heap ptr;
  cq_keyItems : gmap (list byte) ptr;
  cq_addrItemCount : gmap string Z
}.
Definition newCombineQueue : combineQueue := mkCombineQueue ∅ empty_heap ∅ ∅.
Definition cq_time (store : gmap ptr combineItem) (p : ptr) : Z := from_option ci_updateTime 0%Z (store !! p).
Definition cq_less (store : gmap ptr combineItem) : ptr → ptr → bool := less_by (cq_time store).

Fixpoint cq_remove_older (fuel : nat) (minUpdateTime : Z) (q : combineQueue) : outcome combineQueue :=
  match fuel with
  | 0 => Panic "fuel"
  | S fuel =>
      match h_items (cq_orderedItems q) !! 0 with
      | None => Val q
      | Some first =>
          if (cq_time (cq_store q) first <? minUpdateTime)%Z then
            let! (p, h) := hRemove (cq_less (cq_store q)) 0 (cq_orderedItems q) in
            match cq_store q !! p with
            | None => Panic "nil pointer dereference"
            | Some item =>
                cq_remove_older fuel minUpdateTime
                  (mkCombineQueue (cq_store q) h (delete (ci_key item) (cq_keyItems q))
                     (dec_count (addrString (ci_addr item)) (cq_addrItemCount q)))
            end
          else Val q
      end
  end.
Definition cq_RemoveOlder (minUpdateTime : Z) (q : combineQueue) : outcome combineQueue :=
  cq_remove_older (S (hLen (cq_orderedItems q))) minUpdateTime q.

(** What Combine returns: [err], [limit], or [out]. *)
Inductive combined :=
| CombineErr
| CombineLimit
| Combined (out : option packet).
Definition header_count (header : list byte) : nat := Z.to_nat (byte_val (nth 16 header Byte.x00)).
Definition header_index (header : list byte) : nat := Z.to_nat (byte_val (nth 17 header Byte.x00)).
(** A new item, before its first packet: its update address is then set. *)
Definition new_item (key : list byte) (addr : Addr) : combineItem :=
  mkCombineItem key addr (replicate (header_count key) None) 0 addr 0.
(** The packet at [i] of an item. *)
Definition put_packet (now : Z) (addr : Addr) (data : list byte) (i : nat) (item : combineItem) : combineItem :=
  mkCombineItem (ci_key item) (ci_addr item) (<[i := Some (mkPacket data addr)]> (ci_packets item))
    (match ci_packets item !! i with Some (Some _) => ci_n item | _ => S (ci_n item) end) addr now.
Definition packets_data (l : list (option packet)) : list byte :=
  concat (map (λ p, from_option pk_data [] p) l).
Definition complete (item : combineItem) : bool := (ci_n item =? length (ci_packets item))%nat.
Definition out_packet (item : combineItem) : packet := mkPacket (packets_data (ci_packets item)) (ci_updateAddr item).

Definition Combine (settings : PacketTranslationSettings) (now : Z) (addr : Addr) (header data : list byte) (q : combineQueue)
    : outcome (combineQueue * combined) :=
  let c := header_count header in
  let i := header_index header in
  if (c <=? i)%nat then Val (q, CombineErr) else
  let key := take 17 header in
  match cq_keyItems q !! key with
  | None =>
      if (DnsMaxCombinePerAddress settings <=? default 0 (cq_addrItemCount q !! addrString addr))%Z then Val (q, CombineLimit)
      else if (DnsMaxCombine settings <=? Z.of_nat (hLen (cq_orderedItems q)))%Z then Val (q, CombineLimit)
      else
        let item := put_packet now addr data i (new_item key addr) in
        if complete item then Val (q, Combined (Some (out_packet item)))
        else
          let p := fresh (dom (cq_store q)) in
          let store := <[p := item]> (cq_store q) in
          let! h := hPush (cq_less store) p (cq_orderedItems q) in
          Val (mkCombineQueue store h (<[ci_key item := p]> (cq_keyItems q)) (inc_count (addrString addr) (cq_addrItemCount q)),
               Combined None)
  | Some p =>
      match cq_store q !! p with
      | None => Panic "nil pointer dereference"
      | Some item =>
          let item := put_packet now addr data i item in
          let store := <[p := item]> (cq_store q) in
          let index := default 0 (h_index (cq_orderedItems q) !! p) in
          if complete item then
            let! (_, h) := hRemove (cq_less store) index (cq_orderedItems q) in
            Val (mkCombineQueue store h (delete (ci_key item) (cq_keyItems q)) (dec_count (addrString addr) (cq_addrItemCount q)),
                 Combined (Some (out_packet item)))
          else
            let! h := hFix (cq_less store) index (cq_orderedItems q) in
            Val (mkCombineQueue store h (cq_keyItems q) (cq_addrItemCount q), Combined None)
      end
  end.
End CombineQueue.
Arguments packet _ : clear implicits.
Arguments combineItem _ : clear implicits.
Arguments combineQueue _ : clear implicits.
Arguments combined _ : clear implicits.

(** ** What the combine queue promises

    A collection of items by key, with the counts that the limits are about. *)
Section CombineSpec.
Context {Addr : Type} (addrString : Addr → string).
Record combineSpec := mkCombineSpec {
  cs_items : gmap (list byte) (combineItem Addr);
  cs_count : string → Z
}.
Definition spec_new : combineSpec := mkCombineSpec ∅ (λ _, 0%Z).
Definition older (minUpdateTime : Z) (item : combineItem Addr) : bool := (ci_updateTime item <? minUpdateTime)%Z.
Definition spec_RemoveOlder (minUpdateTime : Z) (s : combineSpec) : combineSpec :=
  mkCombineSpec (filter (λ x, older minUpdateTime x.2 = false) (cs_items s))
    (λ a, Z.max 0 (cs_count s a - Z.of_nat (size
       (filter (λ x, older minUpdateTime x.2 = true ∧ addrString (ci_addr x.2) = a) (cs_items s))))).
Definition spec_dec (a : string) (count : string → Z) : string → Z :=
  λ b, if decide (b = a) then Z.max 0 (count b - 1) else count b.
Definition spec_inc (a : string) (count : string → Z) : string → Z :=
  λ b, if decide (b = a) then (count b + 1)%Z else count b.
Definition spec_Combine (settings : PacketTranslationSettings) (now : Z) (addr : Addr) (header data : list byte)
    (s : combineSpec) : combineSpec * combined Addr :=
  let i := header_index header in
  if (header_count header <=? i)%nat then (s, CombineErr) else
  let key := take 17 header in
  match cs_items s !! key with
  | None =>
      if (DnsMaxCombinePerAddress settings <=? cs_count s (addrString addr))%Z ||
         (DnsMaxCombine settings <=? Z.of_nat (size (cs_items s)))%Z then (s, CombineLimit)
      else
        let item := put_packet now addr data i (new_item key addr) in
        if complete item then (s, Combined (Some (out_packet item)))
        else (mkCombineSpec (<[key := item]> (cs_items s)) (spec_inc (addrString addr) (cs_count s)), Combined None)
  | Some item =>
      let item := put_packet now addr data i item in
      if complete item
      then (mkCombineSpec (delete key (cs_items s)) (spec_dec (addrString addr) (cs_count s)), Combined (Some (out_packet item)))
      else (mkCombineSpec (<[key := item]> (cs_items s)) (cs_count s), Combined None)
  end.

(** The operations on a queue, and their runs. *)
Inductive combine_op :=
| OpRemoveOlder (minUpdateTime : Z)
| OpCombine (now : Z) (addr : Addr) (header data : list byte).
Variable settings : PacketTranslationSettings.
Fixpoint combine_run (ops : list combine_op) (q : combineQueue Addr) : outcome (combineQueue Addr * list (combined Addr)) :=
  match ops with
  | [] => Val (q, [])
  | OpRemoveOlder minUpdateTime :: ops => let! q := cq_RemoveOlder addrString minUpdateTime q in combine_run ops q
  | OpCombine now addr header data :: ops =>
      let! (q, r) := Combine addrString settings now addr header data q in
      let! (q, rs) := combine_run ops q in Val (q, r :: rs)
  end.
Fixpoint spec_run (ops : list combine_op) (s : combineSpec) : combineSpec * list (combined Addr) :=
  match ops with
  | [] => (s, [])
  | OpRemoveOlder minUpdateTime :: ops => spec_run ops (spec_RemoveOlder minUpdateTime s)
  | OpCombine now addr header data :: ops =>
      let (s, r) := spec_Combine settings now addr header data s in
      let (s, rs) := spec_run ops s in (s, r :: rs)
  end.

(** ** Invariant *)
Definition present {A} (l : list (option A)) : nat := length (omap id l).
Definition item_ok (key : list byte) (item : combineItem Addr) : Prop :=
  ci_key item = key ∧ length (ci_packets item) = header_count key ∧
  ci_n item = present (ci_packets item) ∧ ci_n item < length (ci_packets item).
Definition time_le (store : gmap ptr (combineItem Addr)) (a b : ptr) : Prop := (cq_time store a ≤ cq_time store b)%Z.
#[local] Instance cq_less_order store : HeapOrder (cq_less store) (time_le store).
Proof. apply less_by_order. Qed.
Record cq_ok (q : combineQueue Addr) : Prop := mkCqOk {
  cqo_heap : heap_ok (time_le (cq_store q)) (cq_orderedItems q);
  cqo_items : h_items (cq_orderedItems q) ≡ₚ (map_to_list (cq_keyItems q)).*2;
  cqo_store key p : cq_keyItems q !! key = Some p → ∃ item, cq_store q !! p = Some item ∧ item_ok key item;
  cqo_count a c : cq_addrItemCount q !! a = Some c → (0 < c)%Z
}.
Record cq_abs (q : combineQueue Addr) (s : combineSpec) : Prop := mkCqAbs {
  cqa_items key : cs_items s !! key = cq_keyItems q !! key ≫= λ p, cq_store q !! p;
  cqa_count a : cs_count s a = default 0%Z (cq_addrItemCount q !! a)
}.

Lemma new_queue_ok : cq_ok newCombineQueue ∧ cq_abs newCombineQueue spec_new.
Proof.
  split; split; cbn; try done; try apply empty_heap_ok.
Qed.
Lemma cq_pointer q p : cq_ok q → p ∈ h_items (cq_orderedItems q) ↔ ∃ key, cq_keyItems q !! key = Some p.
Proof.
  intros Hq. rewrite (cqo_items q Hq), list_elem_of_fmap. split.
  - intros ([key p'] & -> & H%elem_of_map_to_list). by exists key.
  - intros [key H]. exists (key, p). split; [done|]. by apply elem_of_map_to_list.
Qed.
Lemma cq_key_unique q k1 k2 p : cq_ok q → cq_keyItems q !! k1 = Some p → cq_keyItems q !! k2 = Some p → k1 = k2.
Proof.
  intros Hq H1 H2. destruct (cqo_store q Hq _ _ H1) as (i1 & E1 & <- & _).
  destruct (cqo_store q Hq _ _ H2) as (i2 & E2 & <- & _). congruence.
Qed.
Lemma cq_size q : cq_ok q → hLen (cq_orderedItems q) = size (cq_keyItems q).
Proof. intros Hq. unfold hLen. rewrite (cqo_items q Hq), length_fmap. by rewrite length_map_to_list. Qed.
Lemma cq_size_abs q s : cq_ok q → cq_abs q s → size (cs_items s) = hLen (cq_orderedItems q).
Proof.
  intros Hq Ha. rewrite cq_size by done. rewrite <-!size_dom. f_equal. apply set_eq. intros key.
  rewrite !elem_of_dom, (cqa_items q s Ha). destruct (cq_keyItems q !! key) as [p|] eqn:E; cbn; [|done].
  destruct (cqo_store q Hq _ _ E) as (item & -> & _). split; by eexists.
Qed.
Lemma count_abs a m c : (∀ x v, m !! x = Some v → (0 < v)%Z) → (∀ x, c x = default 0%Z (m !! x)) →
  (∀ x, spec_dec a c x = default 0%Z (dec_count a m !! x)) ∧ (∀ x v, dec_count a m !! x = Some v → (0 < v)%Z) ∧
  (∀ x, spec_inc a c x = default 0%Z (inc_count a m !! x)) ∧ (∀ x v, inc_count a m !! x = Some v → (0 < v)%Z).
Proof.
  intros Hp Hc. unfold spec_dec, spec_inc, dec_count, inc_count. split_and!.
  - intros x. rewrite Hc. destruct (decide (x = a)) as [->|Hne].
    + destruct (Z.leb_spec (default 0%Z (m !! a)) 1); [rewrite lookup_delete_eq|rewrite lookup_insert_eq]; cbn; lia.
    + case_bool; [by rewrite lookup_delete_ne|by rewrite lookup_insert_ne].
  - intros x v. destruct (Z.leb_spec (default 0%Z (m !! a)) 1); [intros [_ H1]%lookup_delete_Some; by eapply Hp|].
    intros [[_ <-]|[_ H1]]%lookup_insert_Some; [lia|by eapply Hp].
  - intros x. rewrite Hc. destruct (decide (x = a)) as [->|Hne]; [by rewrite lookup_insert_eq|by rewrite lookup_insert_ne].
  - intros x v [[_ <-]|[_ H1]]%lookup_insert_Some; [|by eapply Hp].
    destruct (m !! a) as [v|] eqn:E; cbn; [|lia]. pose proof (Hp _ _ E). lia.
Qed.

(** *** RemoveOlder *)
Lemma spec_remove_none minUpdateTime s :
  (∀ key item, cs_items s !! key = Some item → older minUpdateTime item = false) → (∀ a, (0 ≤ cs_count s a)%Z) →
  cs_items (spec_RemoveOlder minUpdateTime s) = cs_items s ∧ ∀ a, cs_count (spec_RemoveOlder minUpdateTime s) a = cs_count s a.
Proof.
  intros Hold Hc. cbn. split; [by apply map_filter_id|]. intros a.
  assert (filter (λ x : list byte * combineItem Addr, older minUpdateTime x.2 = true ∧ addrString (ci_addr x.2) = a) (cs_items s) = ∅) as ->.
  { apply map_empty. intros key. apply map_lookup_filter_None. right. intros item Hi [Ho _]. cbn in Ho. rewrite (Hold _ _ Hi) in Ho. done. }
  rewrite map_size_empty. specialize (Hc a). lia.
Qed.
Lemma spec_remove_one minUpdateTime s key item :
  cs_items s !! key = Some item → older minUpdateTime item = true → (∀ a, (0 ≤ cs_count s a)%Z) →
  let s' := mkCombineSpec (delete key (cs_items s)) (spec_dec (addrString (ci_addr item)) (cs_count s)) in
  cs_items (spec_RemoveOlder minUpdateTime s') = cs_items (spec_RemoveOlder minUpdateTime s) ∧
  ∀ a, cs_count (spec_RemoveOlder minUpdateTime s') a = cs_count (spec_RemoveOlder minUpdateTime s) a.
Proof.
  intros Hk Ho Hc s'. cbn. split.
  - rewrite map_filter_delete. apply delete_id, map_lookup_filter_None. right. intros x Hx. cbn. congruence.
  - intros a. rewrite map_filter_delete. unfold spec_dec. specialize (Hc a).
    destruct (decide (addrString (ci_addr item) = a)) as [Ha|Ha].
    + rewrite decide_True by done.
      assert (filter (λ x : list byte * combineItem Addr, older minUpdateTime x.2 = true ∧ addrString (ci_addr x.2) = a) (cs_items s) !! key = Some item) as Hf
        by (by apply map_lookup_filter_Some).
      revert Hf. generalize (filter (λ x : list byte * combineItem Addr, older minUpdateTime x.2 = true ∧ addrString (ci_addr x.2) = a) (cs_items s)).
      intros m Hf. rewrite map_size_delete_Some by by eexists. assert (size m ≠ 0) by (intros Hz%map_size_empty_inv; by rewrite Hz in Hf). lia.
    + rewrite decide_False by done. rewrite delete_id; [done|]. apply map_lookup_filter_None. right. intros x Hx [_ Hxa]. cbn in *. congruence.
Qed.
(** Two states of the promise that cannot be told apart. *)
Definition spec_equiv (s1 s2 : combineSpec) : Prop := cs_items s1 = cs_items s2 ∧ ∀ a, cs_count s1 a = cs_count s2 a.
Lemma cq_abs_equiv q s1 s2 : spec_equiv s1 s2 → cq_abs q s1 → cq_abs q s2.
Proof. intros [E1 E2] Ha. split; [intros; by rewrite <-E1, (cqa_items q s1 Ha)|intros; by rewrite <-E2, (cqa_count q s1 Ha)]. Qed.
Lemma cq_count_nonneg q s a : cq_ok q → cq_abs q s → (0 ≤ cs_count s a)%Z.
Proof.
  intros Hq Ha. rewrite (cqa_count q s Ha). destruct (cq_addrItemCount q !! a) as [c|] eqn:E; cbn; [|lia].
  pose proof (cqo_count q Hq _ _ E). lia.
Qed.
(** Taking an item of a key out of the heap and of the map. *)
Lemma drop_key q p key h :
  cq_ok q → cq_keyItems q !! key = Some p → p :: h_items h ≡ₚ h_items (cq_orderedItems q) →
  h_items h ≡ₚ (map_to_list (delete key (cq_keyItems q))).*2.
Proof.
  intros Hq Hk Hp. rewrite (cqo_items q Hq) in Hp.
  rewrite <-(map_to_list_delete (cq_keyItems q) key p Hk) in Hp. cbn in Hp. by apply Permutation.Permutation_cons_inv in Hp.
Qed.
Lemma cq_remove_stop minUpdateTime q s :
  cq_ok q → cq_abs q s → (∀ key item, cs_items s !! key = Some item → older minUpdateTime item = false) →
  cq_abs q (spec_RemoveOlder minUpdateTime s).
Proof.
  intros Hq Ha Hold. eapply cq_abs_equiv; [|exact Ha].
  destruct (spec_remove_none minUpdateTime s Hold (λ a, cq_count_nonneg q s a Hq Ha)) as [E1 E2].
  split; [done|]. intros a. by rewrite E2.
Qed.
Lemma cq_remove_older_ok minUpdateTime fuel q s :
  cq_ok q → cq_abs q s → hLen (cq_orderedItems q) < fuel →
  ∃ q', cq_remove_older addrString fuel minUpdateTime q = Val q' ∧ cq_ok q' ∧ cq_abs q' (spec_RemoveOlder minUpdateTime s).
Proof.
  revert q s. induction fuel as [|fuel IH]; intros q s Hq Ha Hf; [lia|]. cbn [cq_remove_older].
  destruct (h_items (cq_orderedItems q) !! 0) as [first|] eqn:E0.
  2:{ exists q. split_and!; [done..|]. apply cq_remove_stop; [done..|]. intros key item.
      rewrite (cqa_items q s Ha). destruct (cq_keyItems q !! key) as [p|] eqn:E; cbn; [|done].
      assert (p ∈ h_items (cq_orderedItems q)) as [k Hk]%list_elem_of_lookup by (apply cq_pointer; [done|by exists key]).
      destruct (h_items (cq_orderedItems q)); [done|by cbn in E0]. }
  destruct (proj1 (cq_pointer q first Hq) (list_elem_of_lookup_2 _ _ _ E0)) as [key Hk].
  destruct (cqo_store q Hq _ _ Hk) as (item & Hi & Hok). pose proof Hok as (Ekey & _).
  assert (cs_items s !! key = Some item) as Hs by (by rewrite (cqa_items q s Ha), Hk).
  unfold cq_time at 1. rewrite Hi. cbn [from_option]. destruct (ci_updateTime item <? minUpdateTime)%Z eqn:Et.
  - destruct (hRemove_spec (cq_less (cq_store q)) (time_le (cq_store q)) (cq_orderedItems q) 0 first) as (h & Er & Hh & Hp); [apply Hq|done|].
    rewrite Er. cbn [obind]. rewrite Hi.
    destruct (count_abs (addrString (ci_addr item)) (cq_addrItemCount q) (cs_count s) (cqo_count q Hq) (cqa_count q s Ha)) as (Hd1 & Hd2 & _).
    destruct (IH (mkCombineQueue (cq_store q) h (delete (ci_key item) (cq_keyItems q)) (dec_count (addrString (ci_addr item)) (cq_addrItemCount q)))
      (mkCombineSpec (delete key (cs_items s)) (spec_dec (addrString (ci_addr item)) (cs_count s)))) as (q' & -> & Hq' & Ha').
    + rewrite Ekey. split; cbn; [done|by apply (drop_key q first)| |done].
      intros k p [_ Hkp]%lookup_delete_Some. by apply (cqo_store q Hq).
    + rewrite Ekey. split; cbn; [|done]. intros k. rewrite !lookup_delete. case_decide; [done|]. apply (cqa_items q s Ha).
    + cbn. apply Permutation_length in Hp. unfold hLen in *. cbn in Hp. lia.
    + exists q'. split_and!; [done..|]. eapply cq_abs_equiv; [|exact Ha']. apply spec_remove_one; [done|done|]. intros a. by apply (cq_count_nonneg q).
  - exists q. split_and!; [done..|]. apply cq_remove_stop; [done..|].
    intros k it. rewrite (cqa_items q s Ha). destruct (cq_keyItems q !! k) as [p|] eqn:E; cbn; [|done]. intros Hit.
    pose proof (heap_first (cq_less (cq_store q)) (time_le (cq_store q)) _ _ p (cqo_heap q Hq) E0
      (proj2 (cq_pointer q p Hq) (ex_intro _ k E))) as Hle.
    unfold time_le, cq_time in Hle. rewrite Hi, Hit in Hle. cbn in Hle. unfold older. apply Z.ltb_ge in Et. apply Z.ltb_ge. lia.
Qed.

(** *** Combine *)
Lemma present_insert {A} (l : list (option A)) i x :
  i < length l → present (<[i := Some x]> l) = (match l !! i with Some (Some _) => present l | _ => S (present l) end).
Proof.
  revert i. induction l as [|y l IH]; intros i Hi; [simpl in Hi; lia|]. destruct i as [|i]; cbn in *; [by destruct y|].
  unfold present in *. cbn. destruct y as [y|]; cbn; rewrite IH by lia; by destruct (l !! i) as [[]|].
Qed.
Lemma present_le {A} (l : list (option A)) : present l ≤ length l.
Proof. unfold present. induction l as [|[x|] l IH]; cbn; lia. Qed.
Lemma present_all {A} (l : list (option A)) : present l = length l ↔ Forall is_Some l.
Proof.
  induction l as [|y l IH]; [done|]. pose proof (present_le l). rewrite Forall_cons, <-IH. unfold present in *.
  destruct y as [y|]; cbn; split; [intros E; split; [by eexists|lia]|intros [_ E]; lia|lia|intros [[? ?] _]; done].
Qed.
Lemma present_none {A} n : present (replicate n (@None A)) = 0.
Proof. unfold present. induction n as [|n IH]; [done|]. cbn. done. Qed.
(** An item of which some packets may be missing or none. *)
Definition pre_ok (key : list byte) (item : combineItem Addr) : Prop :=
  ci_key item = key ∧ length (ci_packets item) = header_count key ∧ ci_n item = present (ci_packets item).
Lemma put_packet_ok now addr data i key item :
  pre_ok key item → i < header_count key → pre_ok key (put_packet now addr data i item).
Proof.
  intros (Hk & Hl & Hn) Hi. unfold pre_ok, put_packet. cbn [ci_key ci_packets ci_n]. rewrite length_insert. split_and!; [done..|].
  rewrite present_insert by lia. rewrite Hn. by destruct (ci_packets item !! i) as [[]|].
Qed.
Lemma complete_false key item : pre_ok key item → complete item = false → item_ok key item.
Proof.
  intros (Hk & Hl & Hn) Hc. split_and!; [done..|]. unfold complete in Hc. apply Nat.eqb_neq in Hc.
  pose proof (present_le (ci_packets item)). lia.
Qed.
Lemma new_item_ok key addr : pre_ok key (new_item key addr).
Proof. unfold pre_ok, new_item. cbn [ci_key ci_packets ci_n]. by rewrite length_replicate, present_none. Qed.
Lemma header_count_key header : header_count (take 17 header) = header_count header.
Proof.
  unfold header_count. do 2 f_equal. destruct (decide (16 < length header)).
  - rewrite !nth_lookup, lookup_take_lt by lia. done.
  - rewrite take_ge by lia. done.
Qed.

Lemma time_le_insert store p item a b :
  a ≠ p → b ≠ p → time_le store a b → time_le (<[p := item]> store) a b.
Proof. intros Ha Hb. unfold time_le, cq_time. by rewrite !lookup_insert_ne. Qed.
Lemma cq_find q key p :
  cq_ok q → cq_keyItems q !! key = Some p →
  ∃ i, h_index (cq_orderedItems q) !! p = Some i ∧ h_items (cq_orderedItems q) !! i = Some p.
Proof.
  intros Hq Hk. assert (p ∈ h_items (cq_orderedItems q)) as [i Hi]%list_elem_of_lookup by (apply cq_pointer; [done|by exists key]).
  exists i. split; [|done]. by eapply heap_index; [apply Hq|].
Qed.
(** An item is written: the items of the other keys are as they were. *)
Lemma store_others q key p item k p' :
  cq_ok q → cq_keyItems q !! key = Some p → cq_keyItems q !! k = Some p' → k ≠ key →
  <[p := item]> (cq_store q) !! p' = cq_store q !! p'.
Proof.
  intros Hq Hk Hk' Hne. apply lookup_insert_ne. intros <-. apply Hne. by eapply cq_key_unique.
Qed.
(** The three changes of the queue. *)
Lemma cq_insert_ok q s key item :
  cq_ok q → cq_abs q s → cq_keyItems q !! key = None → item_ok key item →
  let p := fresh (dom (cq_store q)) in let store := <[p := item]> (cq_store q) in
  ∀ a, ∃ h, hPush (cq_less store) p (cq_orderedItems q) = Val h ∧
  let q' := mkCombineQueue store h (<[key := p]> (cq_keyItems q)) (inc_count a (cq_addrItemCount q)) in
  cq_ok q' ∧ cq_abs q' (mkCombineSpec (<[key := item]> (cs_items s)) (spec_inc a (cs_count s))).
Proof.
  intros Hq Ha Hk Hit p store a.
  assert (cq_store q !! p = None) as Hp by apply not_elem_of_dom, is_fresh.
  assert (∀ k p', cq_keyItems q !! k = Some p' → p' ≠ p) as Hne.
  { intros k p' Hkp ->. destruct (cqo_store q Hq _ _ Hkp) as (? & E & _). congruence. }
  assert (∀ p', p' ∈ h_items (cq_orderedItems q) → p' ≠ p) as Hni by (intros p' [k Hkp]%cq_pointer; [by eapply Hne|done]).
  destruct (hPush_spec (cq_less store) (time_le store) p (cq_orderedItems q)) as (h & Eh & Hh & Hperm).
  { eapply heap_ok_ext; [|apply (cqo_heap q Hq)]. intros x y Hx Hy. apply time_le_insert; by apply Hni. }
  { intros Hin. by apply (Hni p). }
  destruct (count_abs a (cq_addrItemCount q) (cs_count s) (cqo_count q Hq) (cqa_count q s Ha)) as (_ & _ & Hi1 & Hi2).
  exists h. split; [done|]. split; split; cbn; try done.
  - rewrite Hperm, (map_to_list_insert (cq_keyItems q) key p Hk). cbn. by rewrite (cqo_items q Hq).
  - intros k p' [[<- <-]|[Hkk Hkp]]%lookup_insert_Some; [exists item; split; [apply lookup_insert_eq|done]|].
    unfold store. rewrite lookup_insert_ne by (by apply not_eq_sym, (Hne k)). by apply (cqo_store q Hq).
  - intros k. rewrite !lookup_insert. case_decide; [subst; cbn; symmetry; apply lookup_insert_eq|].
    rewrite (cqa_items q s Ha). destruct (cq_keyItems q !! k) as [p'|] eqn:E; [|done]. cbn.
    unfold store. by rewrite lookup_insert_ne by (by apply not_eq_sym, (Hne k)).
Qed.
Lemma cq_update_ok q s key p item i :
  cq_ok q → cq_abs q s → cq_keyItems q !! key = Some p → item_ok key item →
  h_items (cq_orderedItems q) !! i = Some p →
  let store := <[p := item]> (cq_store q) in
  ∃ h, hFix (cq_less store) i (cq_orderedItems q) = Val h ∧
  let q' := mkCombineQueue store h (cq_keyItems q) (cq_addrItemCount q) in
  cq_ok q' ∧ cq_abs q' (mkCombineSpec (<[key := item]> (cs_items s)) (cs_count s)).
Proof.
  intros Hq Ha Hk Hit Hi store. destruct (hFix_spec (cq_less store) (time_le store) (cq_orderedItems q) i) as (h & Eh & Hh & Hperm).
  { apply (cqo_heap q Hq). }
  { by eapply lookup_lt_Some. }
  { eapply (changed_hole (cq_less (cq_store q))); [apply _|apply (cqo_heap q Hq)|done|]. intros a b. apply time_le_insert. }
  exists h. split; [done|]. split; split; cbn; try done.
  - rewrite Hperm. apply Hq.
  - intros k p' Hkp. destruct (decide (k = key)) as [->|Hne]; [assert (p' = p) as -> by congruence; exists item; split; [apply lookup_insert_eq|done]|].
    unfold store. rewrite (store_others q key p item k p') by done. by apply (cqo_store q Hq).
  - apply Hq.
  - intros k. destruct (decide (k = key)) as [->|Hne]; [rewrite lookup_insert_eq, Hk; cbn; symmetry; apply lookup_insert_eq|].
    rewrite lookup_insert_ne by done. rewrite (cqa_items q s Ha). destruct (cq_keyItems q !! k) as [p'|] eqn:E; [|done]. cbn.
    unfold store. by rewrite (store_others q key p item k p').
  - apply Ha.
Qed.
Lemma cq_complete_ok q s key p item i :
  cq_ok q → cq_abs q s → cq_keyItems q !! key = Some p → h_items (cq_orderedItems q) !! i = Some p →
  let store := <[p := item]> (cq_store q) in
  ∀ a, ∃ h, hRemove (cq_less store) i (cq_orderedItems q) = Val (p, h) ∧
  let q' := mkCombineQueue store h (delete key (cq_keyItems q)) (dec_count a (cq_addrItemCount q)) in
  cq_ok q' ∧ cq_abs q' (mkCombineSpec (delete key (cs_items s)) (spec_dec a (cs_count s))).
Proof.
  intros Hq Ha Hk Hi store a. destruct (hRemove_hole (cq_less store) (time_le store) (cq_orderedItems q) i p) as (h & Eh & Hh & Hperm).
  { apply (cqo_heap q Hq). }
  { eapply (changed_hole (cq_less (cq_store q))); [apply _|apply (cqo_heap q Hq)|done|]. intros x y. apply time_le_insert. }
  { done. }
  destruct (count_abs a (cq_addrItemCount q) (cs_count s) (cqo_count q Hq) (cqa_count q s Ha)) as (Hd1 & Hd2 & _).
  exists h. split; [done|]. split; split; cbn; try done.
  - by apply (drop_key q p).
  - intros k p' [Hne Hkp]%lookup_delete_Some. unfold store. rewrite (store_others q key p item k p') by done. by apply (cqo_store q Hq).
  - intros k. rewrite !lookup_delete. case_decide; [done|].
    rewrite (cqa_items q s Ha). destruct (cq_keyItems q !! k) as [p'|] eqn:E; [|done]. cbn.
    unfold store. by rewrite (store_others q key p item k p').
Qed.
Lemma Combine_ok now addr header data q s :
  cq_ok q → cq_abs q s →
  ∃ q', Combine addrString settings now addr header data q = Val (q', (spec_Combine settings now addr header data s).2) ∧
    cq_ok q' ∧ cq_abs q' (spec_Combine settings now addr header data s).1.
Proof.
  intros Hq Ha. unfold Combine, spec_Combine. destruct (Nat.leb_spec (header_count header) (header_index header)) as [|Hi]; [by exists q|].
  set (key := take 17 header). rewrite <-header_count_key in Hi. fold key in Hi. rewrite (cqa_items q s Ha key).
  destruct (cq_keyItems q !! key) as [p|] eqn:Ek; cbn [mbind option_bind].
  - destruct (cqo_store q Hq _ _ Ek) as (item & Ei & Hok). rewrite Ei.
    assert (pre_ok key item) as Hpre by (by destruct Hok as (? & ? & ? & ?)).
    pose proof (put_packet_ok now addr data _ key item Hpre Hi) as Hput. set (item' := put_packet now addr data (header_index header) item) in *.
    destruct (cq_find q key p Hq Ek) as (i & Hx & Hl). rewrite Hx. cbn [default from_option id].
    assert (ci_key item' = key) as -> by apply Hput.
    destruct (complete item') eqn:Ec.
    + destruct (cq_complete_ok q s key p item' i Hq Ha Ek Hl (addrString addr)) as (h & -> & ? & ?). cbn [obind]. eexists. by split_and!.
    + destruct (cq_update_ok q s key p item' i Hq Ha Ek (complete_false key item' Hput Ec) Hl) as (h & -> & ? & ?). cbn [obind]. eexists. by split_and!.
  - rewrite <-(cqa_count q s Ha), (cq_size_abs q s Hq Ha).
    destruct (_ <=? cs_count s _)%Z; cbn [orb]; [by exists q|]. destruct (_ <=? _)%Z; [by exists q|].
    pose proof (put_packet_ok now addr data _ key _ (new_item_ok key addr) Hi) as Hput.
    set (item' := put_packet now addr data (header_index header) (new_item key addr)) in *.
    destruct (complete item') eqn:Ec; [by exists q|]. assert (ci_key item' = key) as -> by apply Hput.
    destruct (cq_insert_ok q s key item' Hq Ha Ek (complete_false key item' Hput Ec) (addrString addr)) as (h & -> & ? & ?). cbn [obind]. eexists. by split_and!.
Qed.
(** The combine queue is what it promises under every sequence of
    operations: [RemoveOlder] drops just the items that were not updated
    since, and an item gives a packet when, and only when, all its parts are
    there. No run panics. *)
Theorem combine_queue_refines ops :
  ∃ q, combine_run ops newCombineQueue = Val (q, (spec_run ops spec_new).2) ∧ cq_ok q ∧ cq_abs q (spec_run ops spec_new).1.
Proof.
  destruct new_queue_ok as [Hq Ha]. revert Hq Ha. generalize (newCombineQueue (Addr := Addr)), spec_new.
  induction ops as [|op ops IH]; intros q s Hq Ha; [by exists q|]. destruct op as [m|now addr header data]; cbn [combine_run spec_run].
  - unfold cq_RemoveOlder. destruct (cq_remove_older_ok m (S (hLen (cq_orderedItems q))) q s Hq Ha ltac:(lia)) as (q' & -> & Hq' & Ha'). cbn [obind]. by apply IH.
  - destruct (Combine_ok now addr header data q s Hq Ha) as (q' & -> & Hq' & Ha'). cbn [obind].
    destruct (spec_Combine settings now addr header data s) as [s' r]. cbn [fst snd] in *.
    destruct (IH q' s' Hq' Ha') as (q2 & -> & ? & ?). cbn [obind]. exists q2. by destruct (spec_run ops s').
Qed.

(** *** What is put together

    [f i] is the part of index [i] of the packet of [key]. The results of the
    parts of that key, when they arrive in any order and number, between
    others: a packet each time that all the parts have come, and nothing else. *)
Section Delivers.
Context (key : list byte) (f : nat → list byte) (t0 : Z).
Let c := header_count key.
Definition whole : list byte := concat (map f (seq 0 c)).
Fixpoint expected (got : gset nat) (ops : list combine_op) : list (option (list byte)) :=
  match ops with
  | [] => []
  | OpRemoveOlder _ :: ops => expected got ops
  | OpCombine _ _ header _ :: ops =>
      if decide (take 17 header = key) then
        let got := {[header_index header]} ∪ got in
        if decide (got = set_seq 0 c) then Some whole :: expected ∅ ops else None :: expected got ops
      else expected got ops
  end.
(** The parts are as they were sent, and not older than the state timeout. *)
Definition delivers_ok (op : combine_op) : Prop :=
  match op with
  | OpRemoveOlder m => (m ≤ t0)%Z
  | OpCombine now _ header data =>
      take 17 header = key → header_index header < c ∧ data = f (header_index header) ∧ (t0 ≤ now)%Z
  end.
Fixpoint key_results (ops : list combine_op) (rs : list (combined Addr)) : list (combined Addr) :=
  match ops, rs with
  | OpRemoveOlder _ :: ops, _ => key_results ops rs
  | OpCombine _ _ header _ :: ops, r :: rs =>
      if decide (take 17 header = key) then r :: key_results ops rs else key_results ops rs
  | _, _ => []
  end.
Definition result_data (r : combined Addr) : option (list byte) :=
  match r with Combined (Some p) => Some (pk_data p) | _ => None end.

Definition got_packets (got : gset nat) (l : list (option (packet Addr))) : Prop :=
  length l = c ∧ ∀ i, i < c → (i ∈ got → ∃ a, l !! i = Some (Some (mkPacket (f i) a))) ∧ (i ∉ got → l !! i = Some None).
Definition got_item (got : gset nat) (s : combineSpec) : Prop :=
  match cs_items s !! key with
  | None => got = ∅
  | Some item => pre_ok key item ∧ got ≠ ∅ ∧ got ⊆ set_seq 0 c ∧ got_packets got (ci_packets item) ∧ (t0 ≤ ci_updateTime item)%Z
  end.
Lemma got_packets_put got l i a :
  i < c → got_packets got l → got_packets ({[i]} ∪ got) (<[i := Some (mkPacket (f i) a)]> l).
Proof.
  intros Hi [Hl Hg]. split; [by rewrite length_insert|]. intros j Hj. destruct (decide (j = i)) as [->|Hne].
  - split; [|set_solver]. intros _. exists a. apply list_lookup_insert_eq. lia.
  - rewrite list_lookup_insert_ne by done. destruct (Hg j Hj) as [H1 H2]. split; intros H; [apply H1|apply H2]; set_solver.
Qed.
Lemma got_packets_new a : got_packets ∅ (ci_packets (new_item (Addr := Addr) key a)).
Proof.
  unfold new_item. cbn [ci_packets]. split; [apply length_replicate|]. intros i Hi. split; [set_solver|].
  intros _. by apply lookup_replicate_2.
Qed.
Lemma got_complete got l : got_packets got l → got ⊆ set_seq 0 c → present l = length l ↔ got = set_seq 0 c.
Proof.
  intros [Hl Hg] Hsub. rewrite present_all. split.
  - intros Hf. apply set_eq. intros i. split; [apply Hsub|]. intros Hi%elem_of_set_seq. destruct (decide (i ∈ got)) as [|Hn]; [done|].
    destruct (Hg i ltac:(lia)) as [_ H2]. specialize (H2 Hn). rewrite Forall_lookup in Hf. destruct (Hf _ _ H2) as [? E]. done.
  - intros ->. apply Forall_lookup. intros i x Hx. pose proof (lookup_lt_Some _ _ _ Hx) as Hi.
    destruct (Hg i ltac:(lia)) as [H1 _]. destruct H1 as [a E]; [apply elem_of_set_seq; lia|]. rewrite E in Hx. injection Hx as <-. by eexists.
Qed.
Lemma got_data l : got_packets (set_seq 0 c) l → packets_data l = whole.
Proof.
  intros [Hl Hg]. unfold packets_data, whole. f_equal. apply list_eq. intros i. rewrite !list_lookup_fmap.
  destruct (decide (i < c)) as [Hi|Hi].
  - destruct (Hg i Hi) as [H1 _]. destruct H1 as [a ->]; [apply elem_of_set_seq; lia|]. by rewrite (proj2 (lookup_seq 0 c i i) ltac:(lia)).
  - rewrite lookup_ge_None_2 by lia. by rewrite (lookup_ge_None_2 (seq 0 c)) by (rewrite length_seq; lia).
Qed.
Lemma put_got now a got item i :
  pre_ok key item → got_packets got (ci_packets item) → got ⊆ set_seq 0 c → i < c → (t0 ≤ now)%Z →
  let item' := put_packet now a (f i) i item in let got' := {[i]} ∪ got in
  pre_ok key item' ∧ got' ≠ ∅ ∧ got' ⊆ set_seq 0 c ∧ got_packets got' (ci_packets item') ∧ (t0 ≤ ci_updateTime item')%Z ∧
  (if complete item' then got' = set_seq 0 c ∧ pk_data (out_packet item') = whole else got' ≠ set_seq 0 c).
Proof.
  intros Hpre Hg Hsub Hi Ht item' got'. pose proof (put_packet_ok now a (f i) i key item Hpre Hi) as Hpre'. fold item' in Hpre'.
  assert (got' ⊆ set_seq 0 c) as Hsub' by (intros j [->%elem_of_singleton|Hj]%elem_of_union; [apply elem_of_set_seq; lia|by apply Hsub]).
  pose proof (got_packets_put got _ i a Hi Hg) as Hg'. split_and!; [done|set_solver|done|done|done|].
  pose proof (got_complete got' (ci_packets item') Hg' Hsub') as Hc. destruct Hpre' as (_ & _ & Hn). unfold complete. rewrite Hn.
  destruct (Nat.eqb_spec (present (ci_packets item')) (length (ci_packets item'))) as [E|E]; [|by rewrite <-Hc].
  apply Hc in E. split; [done|]. apply got_data. by rewrite <-E.
Qed.
Lemma spec_key_step now a header data s got :
  got_item got s → delivers_ok (OpCombine now a header data) → take 17 header = key →
  (spec_Combine settings now a header data s).2 ≠ CombineLimit →
  let r := spec_Combine settings now a header data s in let got' := {[header_index header]} ∪ got in
  if decide (got' = set_seq 0 c) then result_data r.2 = Some whole ∧ got_item ∅ r.1 else result_data r.2 = None ∧ got_item got' r.1.
Proof.
  intros Hg Hok Hk. destruct (Hok Hk) as (Hi & -> & Ht). unfold spec_Combine. rewrite <-header_count_key, Hk. fold c.
  rewrite (proj2 (Nat.leb_gt _ _)) by done. unfold got_item in Hg. destruct (cs_items s !! key) as [item|] eqn:E.
  - intros _. destruct Hg as (Hpre & Hne & Hsub & Hgp & _).
    destruct (put_got now a got item (header_index header) Hpre Hgp Hsub Hi Ht) as (Hpre' & Hne' & Hsub' & Hgp' & Ht' & Hc).
    destruct (complete _); cbn zeta.
    + destruct Hc as [Hc Hd]. rewrite decide_True by done. cbn. split; [by rewrite <-Hd|]. unfold got_item. cbn. by rewrite lookup_delete_eq.
    + rewrite decide_False by done. split; [done|]. unfold got_item. cbn. by rewrite lookup_insert_eq.
  - subst got. destruct (_ || _)%Z; [done|]. intros _.
    destruct (put_got now a ∅ (new_item key a) (header_index header) (new_item_ok key a) (got_packets_new a) (empty_subseteq _) Hi Ht)
      as (Hpre' & Hne' & Hsub' & Hgp' & Ht' & Hc).
    destruct (complete _); cbn zeta.
    + destruct Hc as [Hc Hd]. rewrite decide_True by done. cbn. split; [by rewrite <-Hd|]. unfold got_item. by rewrite E.
    + rewrite decide_False by done. split; [done|]. unfold got_item. cbn. by rewrite lookup_insert_eq.
Qed.
Lemma spec_other_step now a header data s got :
  got_item got s → take 17 header ≠ key → got_item got (spec_Combine settings now a header data s).1.
Proof.
  intros Hg Hk. unfold spec_Combine. destruct (_ <=? _)%nat; [done|]. unfold got_item in *. destruct (cs_items s !! take 17 header) as [item|].
  - destruct (complete _); cbn; [by rewrite lookup_delete_ne|by rewrite lookup_insert_ne].
  - destruct (_ || _)%Z; [done|]. destruct (complete _); cbn; [done|by rewrite lookup_insert_ne].
Qed.
Lemma spec_remove_step m s got : got_item got s → (m ≤ t0)%Z → got_item got (spec_RemoveOlder m s).
Proof.
  intros Hg Hm. unfold got_item in *. cbn. destruct (cs_items s !! key) as [item|] eqn:E.
  - assert (filter (λ x : list byte * combineItem Addr, older m x.2 = false) (cs_items s) !! key = Some item) as ->; [|done].
    apply map_lookup_filter_Some. split; [done|]. cbn. unfold older. apply Z.ltb_ge. destruct Hg as (_ & _ & _ & _ & Ht). lia.
  - by rewrite (proj2 (map_lookup_filter_None _ _ _) (or_introl E)).
Qed.
Lemma spec_delivers ops s got :
  got_item got s → Forall delivers_ok ops → CombineLimit ∉ key_results ops (spec_run ops s).2 →
  map result_data (key_results ops (spec_run ops s).2) = expected got ops.
Proof.
  revert s got. induction ops as [|op ops IH]; intros s got Hg Hok Hlim; [done|]. apply Forall_cons in Hok as [Hop Hok].
  destruct op as [m|now a header data]; cbn [spec_run expected] in *.
  - apply IH; [|done|done]. by apply spec_remove_step.
  - destruct (decide (take 17 header = key)) as [Hk|Hk].
    + pose proof (spec_key_step now a header data s got Hg Hop Hk) as Hs.
      destruct (spec_Combine settings now a header data s) as [s' r]. cbn [fst snd] in Hs.
      destruct (spec_run ops s') as [s2 rs] eqn:Er. cbn [fst snd key_results] in *. rewrite decide_True in * by done.
      apply not_elem_of_cons in Hlim as [Hl1 Hl2]. specialize (Hs (not_eq_sym Hl1)).
      pose proof (IH s') as IHs. rewrite Er in IHs. cbn [map].
      destruct (decide _); destruct Hs as [-> Hg']; f_equal; by apply IHs.
    + pose proof (spec_other_step now a header data s got Hg Hk) as Hs.
      destruct (spec_Combine settings now a header data s) as [s' r]. cbn [fst] in Hs.
      pose proof (IH s' got Hs Hok) as IHs. destruct (spec_run ops s') as [s2 rs]. cbn [fst snd key_results] in *.
      rewrite decide_False in * by done. by apply IHs.
Qed.
End Delivers.
(** *** Limits and an example *)
Lemma spec_size_bound ops :
  (0 ≤ DnsMaxCombine settings)%Z → (Z.of_nat (size (cs_items (spec_run ops spec_new).1)) ≤ DnsMaxCombine settings)%Z.
Proof.
  intros H0. assert (∀ s, (Z.of_nat (size (cs_items s)) ≤ DnsMaxCombine settings)%Z →
    (Z.of_nat (size (cs_items (spec_run ops s).1)) ≤ DnsMaxCombine settings)%Z) as H; [|by apply H].
  induction ops as [|[m|now a header data] ops IH]; intros s Hs; [done| |]; cbn [spec_run].
  - apply IH. cbn. pose proof (map_size_filter (λ x : list byte * combineItem Addr, older m x.2 = false) (cs_items s)). lia.
  - assert (Z.of_nat (size (cs_items (spec_Combine settings now a header data s).1)) ≤ DnsMaxCombine settings)%Z as Hs'.
    { unfold spec_Combine. destruct (_ <=? _)%nat; [done|]. destruct (cs_items s !! take 17 header) as [item|] eqn:E.
      - destruct (complete _); cbn; [rewrite map_size_delete, E; lia|]. by rewrite map_size_insert, E.
      - destruct (_ || _)%Z eqn:El; [done|]. apply orb_false_iff in El as [_ El]. apply Z.leb_gt in El.
        destruct (complete _); cbn; [done|]. rewrite map_size_insert_None by done. lia. }
    destruct (spec_Combine settings now a header data s) as [s' r]. cbn in Hs'. specialize (IH s' Hs'). by destruct (spec_run ops s').
Qed.
End CombineSpec.

(** ** The pump queue *)
Section PumpQueue.
Context {Addr : Type} (addrString : Addr → string).
Record pumpItem := mkPumpItem {
  pi_addr : option Addr;          (** of a new header: none *)
  pi_id : Z;
  pi_header : list byte;
  pi_tld : option (list byte);    (** nil: none of the zones *)
  pi_updateTime : Z
}.
(** The items that the pointers point at, the heap of all of them, and a max
    heap per address: the two index fields are in the two heaps of an item. *)
Record pumpQueue := mkPumpQueue {
  pq_store : gmap ptr pumpItem;
  pq_orderedItems : heap ptr;
  pq_addrMaxHeap : gmap string (heap ptr)
}.
Definition newPumpQueue : pumpQueue := mkPumpQueue ∅ empty_heap ∅.
Definition pq_time (store : gmap ptr pumpItem) (p : ptr) : Z := from_option pi_updateTime 0%Z (store !! p).
Definition pq_less (store : gmap ptr pumpItem) : ptr → ptr → bool := less_by (pq_time store).
Definition pq_more (store : gmap ptr pumpItem) : ptr → ptr → bool := more_by (pq_time store).
Definition pi_addrString (item : pumpItem) : string := from_option addrString ""%string (pi_addr item).

(** [delete] of a max heap that became empty. *)
Definition put_max (a : string) (mh : heap ptr) (m : gmap string (heap ptr)) : gmap string (heap ptr) :=
  if (hLen mh =? 0)%nat then delete a m else <[a := mh]> m.
Definition max_RemoveFirst (store : gmap ptr pumpItem) (mh : heap ptr) : outcome (option ptr * heap ptr) :=
  if (hLen mh =? 0)%nat then Val (None, mh)
  else let! (p, mh) := hRemove (pq_more store) 0 mh in Val (Some p, mh).
(** The last item of a max heap, out of both heaps. *)
Definition pq_take (a : string) (mh : heap ptr) (q : pumpQueue) : outcome (ptr * heap ptr * pumpQueue) :=
  let! (first, mh) := max_RemoveFirst (pq_store q) mh in
  let maxHeaps := put_max a mh (pq_addrMaxHeap q) in
  match first with
  | None => Panic "nil pointer dereference"
  | Some p =>
      let! (_, h) := hRemove (pq_less (pq_store q)) (default 0 (h_index (pq_orderedItems q) !! p)) (pq_orderedItems q) in
      Val (p, mh, mkPumpQueue (pq_store q) h maxHeaps)
  end.
Definition RemoveLast (addr : Addr) (q : pumpQueue) : outcome (option ptr * pumpQueue) :=
  let a := addrString addr in
  match pq_addrMaxHeap q !! a with
  | None => Val (None, q)
  | Some mh => let! (p, _, q) := pq_take a mh q in Val (Some p, q)
  end.
Fixpoint pq_take_n (n : nat) (a : string) (mh : heap ptr) (q : pumpQueue) : outcome (list ptr * pumpQueue) :=
  match n with
  | 0 => Val ([], q)
  | S n => let! (p, mh, q) := pq_take a mh q in let! (ps, q) := pq_take_n n a mh q in Val (p :: ps, q)
  end.
Definition RemoveLastN (addr : Addr) (n : nat) (q : pumpQueue) : outcome (option (list ptr) * pumpQueue) :=
  let a := addrString addr in
  match pq_addrMaxHeap q !! a with
  | None => Val (None, q)
  | Some mh => if (hLen mh <? n)%nat then Val (None, q) else let! (ps, q) := pq_take_n n a mh q in Val (Some ps, q)
  end.
Fixpoint pq_remove_older (fuel : nat) (minUpdateTime : Z) (q : pumpQueue) : outcome pumpQueue :=
  match fuel with
  | 0 => Panic "fuel"
  | S fuel =>
      match h_items (pq_orderedItems q) !! 0 with
      | None => Val q
      | Some first =>
          if (pq_time (pq_store q) first <? minUpdateTime)%Z then
            let! (p, h) := hRemove (pq_less (pq_store q)) 0 (pq_orderedItems q) in
            match pq_store q !! p with
            | None => Panic "nil pointer dereference"
            | Some item =>
                let a := pi_addrString item in
                match pq_addrMaxHeap q !! a with
                | None => pq_remove_older fuel minUpdateTime (mkPumpQueue (pq_store q) h (pq_addrMaxHeap q))
                | Some mh =>
                    let! (_, mh) := hRemove (pq_more (pq_store q)) (default 0 (h_index mh !! p)) mh in
                    pq_remove_older fuel minUpdateTime (mkPumpQueue (pq_store q) h (put_max a mh (pq_addrMaxHeap q)))
                end
            end
          else Val q
      end
  end.
Definition pq_RemoveOlder (minUpdateTime : Z) (q : pumpQueue) : outcome pumpQueue :=
  pq_remove_older (S (hLen (pq_orderedItems q))) minUpdateTime q.
(** [limit], and the queue. A max heap that is made stays when its limit is
    zero. *)
Definition pq_Add (settings : PacketTranslationSettings) (now : Z) (item : pumpItem) (q : pumpQueue) : outcome (bool * pumpQueue) :=
  if (DnsMaxPumpHosts settings <=? Z.of_nat (hLen (pq_orderedItems q)))%Z then Val (true, q)
  else
    let a := pi_addrString item in
    let mh := default empty_heap (pq_addrMaxHeap q !! a) in
    let maxHeaps := <[a := mh]> (pq_addrMaxHeap q) in
    if (DnsMaxPumpHostsPerAddress settings <=? Z.of_nat (hLen mh))%Z
    then Val (true, mkPumpQueue (pq_store q) (pq_orderedItems q) maxHeaps)
    else
      let p := fresh (dom (pq_store q)) in
      let store := <[p := mkPumpItem (pi_addr item) (pi_id item) (pi_header item) (pi_tld item) now]> (pq_store q) in
      let! h := hPush (pq_less store) p (pq_orderedItems q) in
      let! mh := hPush (pq_more store) p mh in
      Val (false, mkPumpQueue store h (<[a := mh]> maxHeaps)).

(** ** What the pump queue promises

    A collection of items: of an address, the newest comes first. *)
Definition of_addr (a : string) (m : (gmap ptr pumpItem)) : (gmap ptr pumpItem) := filter (λ x, pi_addrString x.2 = a) m.
Definition newest (a : string) (m : (gmap ptr pumpItem)) (p : ptr) : Prop :=
  ∃ item, of_addr a m !! p = Some item ∧ ∀ p' item', of_addr a m !! p' = Some item' → (pi_updateTime item' ≤ pi_updateTime item)%Z.
Fixpoint newest_n (a : string) (m : (gmap ptr pumpItem)) (ps : list ptr) (m' : (gmap ptr pumpItem)) : Prop :=
  match ps with [] => m' = m | p :: ps => newest a m p ∧ newest_n a (delete p m) ps m' end.
Inductive pump_op :=
| PumpAdd (now : Z) (item : pumpItem)
| PumpRemoveLast (addr : Addr)
| PumpRemoveLastN (addr : Addr) (n : nat)
| PumpRemoveOlder (minUpdateTime : Z).
Inductive pump_result :=
| PumpLimit (limit : bool)
| PumpItem (item : option ptr)
| PumpItems (items : option (list ptr))
| PumpDone.
Variable settings : PacketTranslationSettings.
Inductive pump_spec (m : (gmap ptr pumpItem)) : pump_op → pump_result → (gmap ptr pumpItem) → Prop :=
| spec_add_limit now item :
    (DnsMaxPumpHosts settings ≤ Z.of_nat (size m) ∨
     DnsMaxPumpHostsPerAddress settings ≤ Z.of_nat (size (of_addr (pi_addrString item) m)))%Z →
    pump_spec m (PumpAdd now item) (PumpLimit true) m
| spec_add now item p :
    (Z.of_nat (size m) < DnsMaxPumpHosts settings ∧
     Z.of_nat (size (of_addr (pi_addrString item) m)) < DnsMaxPumpHostsPerAddress settings)%Z → m !! p = None →
    pump_spec m (PumpAdd now item) (PumpLimit false)
      (<[p := mkPumpItem (pi_addr item) (pi_id item) (pi_header item) (pi_tld item) now]> m)
| spec_last_none addr : of_addr (addrString addr) m = ∅ → pump_spec m (PumpRemoveLast addr) (PumpItem None) m
| spec_last addr p : newest (addrString addr) m p → pump_spec m (PumpRemoveLast addr) (PumpItem (Some p)) (delete p m)
| spec_last_n_none addr n :
    (size (of_addr (addrString addr) m) < n ∨ of_addr (addrString addr) m = ∅) → pump_spec m (PumpRemoveLastN addr n) (PumpItems None) m
| spec_last_n addr n ps m' :
    length ps = n → newest_n (addrString addr) m ps m' → pump_spec m (PumpRemoveLastN addr n) (PumpItems (Some ps)) m'
| spec_older minUpdateTime :
    pump_spec m (PumpRemoveOlder minUpdateTime) PumpDone (filter (λ x, (minUpdateTime ≤ pi_updateTime x.2)%Z) m).
Definition pump_step (op : pump_op) (q : pumpQueue) : outcome (pump_result * pumpQueue) :=
  match op with
  | PumpAdd now item => let! (limit, q) := pq_Add settings now item q in Val (PumpLimit limit, q)
  | PumpRemoveLast addr => let! (p, q) := RemoveLast addr q in Val (PumpItem p, q)
  | PumpRemoveLastN addr n => let! (ps, q) := RemoveLastN addr n q in Val (PumpItems ps, q)
  | PumpRemoveOlder minUpdateTime => let! q := pq_RemoveOlder minUpdateTime q in Val (PumpDone, q)
  end.
Fixpoint pump_run (ops : list pump_op) (q : pumpQueue) : outcome (list pump_result * pumpQueue) :=
  match ops with
  | [] => Val ([], q)
  | op :: ops => let! (r, q) := pump_step op q in let! (rs, q) := pump_run ops q in Val (r :: rs, q)
  end.
Inductive pump_specs : (gmap ptr pumpItem) → list pump_op → list pump_result → (gmap ptr pumpItem) → Prop :=
| specs_nil m : pump_specs m [] [] m
| specs_cons m op r m' ops rs m'' : pump_spec m op r m' → pump_specs m' ops rs m'' → pump_specs m (op :: ops) (r :: rs) m''.

(** ** Invariant *)
Definition ptime_le (store : gmap ptr pumpItem) (a b : ptr) : Prop := (pq_time store a ≤ pq_time store b)%Z.
Definition ptime_ge (store : gmap ptr pumpItem) (a b : ptr) : Prop := (pq_time store b ≤ pq_time store a)%Z.
#[local] Instance pq_less_order store : HeapOrder (pq_less store) (ptime_le store).
Proof. apply less_by_order. Qed.
#[local] Instance pq_more_order store : HeapOrder (pq_more store) (ptime_ge store).
Proof. apply more_by_order. Qed.
Record pq_ok (q : pumpQueue) (m : (gmap ptr pumpItem)) : Prop := mkPqOk {
  pqo_heap : heap_ok (ptime_le (pq_store q)) (pq_orderedItems q);
  pqo_items p : p ∈ h_items (pq_orderedItems q) ↔ is_Some (m !! p);
  pqo_store p item : m !! p = Some item → pq_store q !! p = Some item;
  pqo_max a mh : pq_addrMaxHeap q !! a = Some mh →
    heap_ok (ptime_ge (pq_store q)) mh ∧ h_items mh ≠ [] ∧ ∀ p, p ∈ h_items mh ↔ is_Some (of_addr a m !! p);
  pqo_addr p item : m !! p = Some item → is_Some (pq_addrMaxHeap q !! pi_addrString item)
}.
Lemma heap_size le (h : heap ptr) (m : (gmap ptr pumpItem)) :
  heap_ok le h → (∀ p, p ∈ h_items h ↔ is_Some (m !! p)) → hLen h = size m.
Proof.
  intros [[Hnd _] _] Hp. rewrite <-length_map_to_list, <-(length_fmap fst). apply Permutation_length.
  apply NoDup_Permutation; [done|apply NoDup_fst_map_to_list|]. intros p. rewrite Hp, list_elem_of_fmap. split.
  - intros [item Hi]. exists (p, item). split; [done|]. by apply elem_of_map_to_list.
  - intros ([p' item] & -> & Hi%elem_of_map_to_list). by eexists.
Qed.
Lemma of_addr_lookup a m p item : of_addr a m !! p = Some item ↔ m !! p = Some item ∧ pi_addrString item = a.
Proof. unfold of_addr. by rewrite map_lookup_filter_Some. Qed.
Lemma of_addr_none q m a : pq_ok q m → pq_addrMaxHeap q !! a = None → of_addr a m = ∅.
Proof.
  intros Hq Hn. apply map_empty. intros p. destruct (of_addr a m !! p) as [item|] eqn:E; [|done].
  apply of_addr_lookup in E as [E <-]. destruct (pqo_addr q m Hq p item E). congruence.
Qed.
Lemma heap_index_default le (h : heap ptr) p : heap_ok le h → p ∈ h_items h → h_items h !! default 0 (h_index h !! p) = Some p.
Proof. intros Hh [i Hi]%list_elem_of_lookup. by rewrite (heap_index le h i p Hh Hi). Qed.
(** An item leaves both heaps. *)
Lemma pq_drop_ok q m p item a mh h' mh' :
  pq_ok q m → of_addr a m !! p = Some item → pq_addrMaxHeap q !! a = Some mh →
  heap_ok (ptime_le (pq_store q)) h' → p :: h_items h' ≡ₚ h_items (pq_orderedItems q) →
  heap_ok (ptime_ge (pq_store q)) mh' → p :: h_items mh' ≡ₚ h_items mh →
  pq_ok (mkPumpQueue (pq_store q) h' (put_max a mh' (pq_addrMaxHeap q))) (delete p m) ∧
  ∀ p', p' ∈ h_items mh' ↔ is_Some (of_addr a (delete p m) !! p').
Proof.
  intros Hq Hp Hmh Hh' Hperm Hmh' Hperm'. pose proof Hp as [Hm Ha]%of_addr_lookup.
  destruct (pqo_max q m Hq a mh Hmh) as (Hok & _ & Hin).
  assert (NoDup (p :: h_items h')) as Hnd by (rewrite Hperm; apply (pqo_heap q m Hq)).
  assert (NoDup (p :: h_items mh')) as Hnd' by (rewrite Hperm'; apply Hok).
  assert (∀ p', p' ∈ h_items mh' ↔ is_Some (of_addr a (delete p m) !! p')) as Hin'.
  { intros p'. unfold of_addr. rewrite map_filter_delete. fold (of_addr a m). rewrite lookup_delete_is_Some, <-Hin, <-Hperm', elem_of_cons.
    apply NoDup_cons in Hnd' as [Hn _]. split; [intros H; split; [by intros ->|by right]|by intros [? [-> |?]]]. }
  split; [|done]. split; cbn; [done| | | |].
  - intros p'. rewrite lookup_delete_is_Some, <-(pqo_items q m Hq), <-Hperm, elem_of_cons. apply NoDup_cons in Hnd as [Hn _].
    split; [intros H; split; [by intros ->|by right]|by intros [? [-> |?]]].
  - intros p' it [_ E]%lookup_delete_Some. by apply (pqo_store q m Hq).
  - intros b mb. unfold put_max. destruct (Nat.eqb_spec (hLen mh') 0) as [E|E].
    + intros [Hne Hb]%lookup_delete_Some. destruct (pqo_max q m Hq b mb Hb) as (H1 & H2 & H3). split_and!; [done..|].
      intros p'. rewrite H3. unfold of_addr. rewrite map_filter_delete. fold (of_addr b m). rewrite lookup_delete_is_Some.
      split; [|by intros []]. intros [it Hit]. split; [|by eexists]. intros <-. apply of_addr_lookup in Hit as [? ?]. congruence.
    + intros [[<- <-]|[Hne Hb]]%lookup_insert_Some.
      * split_and!; [done| |done]. intros E0. unfold hLen in E. by rewrite E0 in E.
      * destruct (pqo_max q m Hq b mb Hb) as (H1 & H2 & H3). split_and!; [done..|].
        intros p'. rewrite H3. unfold of_addr. rewrite map_filter_delete. fold (of_addr b m). rewrite lookup_delete_is_Some.
        split; [|by intros []]. intros [it Hit]. split; [|by eexists]. intros <-. apply of_addr_lookup in Hit as [? ?]. congruence.
  - intros p' it [Hne E]%lookup_delete_Some. unfold put_max. destruct (Nat.eqb_spec (hLen mh') 0) as [E0|E0].
    + rewrite lookup_delete_is_Some. split; [|by apply (pqo_addr q m Hq p')]. intros Hab.
      assert (p' ∈ h_items mh') as Hin2.
      { apply Hin'. exists it. apply of_addr_lookup. split; [by rewrite lookup_delete_ne|done]. }
      unfold hLen in E0. apply nil_length_inv in E0. rewrite E0 in Hin2. by apply not_elem_of_nil in Hin2.
    + apply lookup_insert_is_Some'. destruct (decide (a = pi_addrString it)); [by left|right]. by apply (pqo_addr q m Hq p').
Qed.
Lemma pq_newest q m a mh p :
  pq_ok q m → pq_addrMaxHeap q !! a = Some mh → h_items mh !! 0 = Some p → newest a m p.
Proof.
  intros Hq Hmh Hp. destruct (pqo_max q m Hq a mh Hmh) as (Hok & _ & Hin).
  destruct (proj1 (Hin p) (list_elem_of_lookup_2 _ _ _ Hp)) as [item Hi]. exists item. split; [done|]. intros p' item' Hi'.
  pose proof (heap_first (pq_more (pq_store q)) (ptime_ge (pq_store q)) mh p p' Hok Hp (proj2 (Hin p') (ex_intro _ _ Hi'))) as Hle.
  apply of_addr_lookup in Hi as [Hi _], Hi' as [Hi' _]. apply (pqo_store q m Hq) in Hi, Hi'.
  unfold ptime_ge, pq_time in Hle. by rewrite Hi, Hi' in Hle.
Qed.
(** What taking the last item of a max heap does. *)
Lemma pq_take_ok q m a mh :
  pq_ok q m → pq_addrMaxHeap q !! a = Some mh →
  ∃ p mh' q', pq_take a mh q = Val (p, mh', q') ∧ newest a m p ∧ pq_ok q' (delete p m) ∧ hLen mh = S (hLen mh') ∧
    (hLen mh' ≠ 0 → pq_addrMaxHeap q' !! a = Some mh').
Proof.
  intros Hq Hmh. destruct (pqo_max q m Hq a mh Hmh) as (Hok & Hne & Hin).
  destruct (h_items mh !! 0) as [p|] eqn:E0; [|by destruct (h_items mh)].
  assert (p ∈ h_items mh) as Hpin by by eapply list_elem_of_lookup_2. destruct (proj1 (Hin p) Hpin) as [item Hi].
  unfold pq_take, max_RemoveFirst. destruct (Nat.eqb_spec (hLen mh) 0) as [E|E]; [unfold hLen in E; by apply nil_length_inv in E|].
  destruct (hRemove_spec (pq_more (pq_store q)) (ptime_ge (pq_store q)) mh 0 p Hok E0) as (mh' & -> & Hok' & Hperm'). cbn [obind].
  assert (p ∈ h_items (pq_orderedItems q)) as Hpo by (apply (pqo_items q m Hq); apply of_addr_lookup in Hi as [Hi _]; by eexists).
  destruct (hRemove_spec (pq_less (pq_store q)) (ptime_le (pq_store q)) (pq_orderedItems q) _ p (pqo_heap q m Hq)
    (heap_index_default _ _ _ (pqo_heap q m Hq) Hpo)) as (h' & -> & Hh' & Hperm). cbn [obind].
  exists p, mh'. eexists. split_and!; [done|by eapply pq_newest| | |].
  - by eapply pq_drop_ok.
  - apply Permutation_length in Hperm'. unfold hLen. cbn in Hperm'. lia.
  - intros Hn. cbn. unfold put_max. rewrite (proj2 (Nat.eqb_neq _ _)) by done. apply lookup_insert_eq.
Qed.
Lemma pq_take_n_ok n : ∀ q m a mh,
  pq_ok q m → (n ≠ 0 → pq_addrMaxHeap q !! a = Some mh) → n ≤ hLen mh →
  ∃ ps q' m', pq_take_n n a mh q = Val (ps, q') ∧ length ps = n ∧ newest_n a m ps m' ∧ pq_ok q' m'.
Proof.
  induction n as [|n IH]; intros q m a mh Hq Hmh Hn; [by exists [], q, m|]. cbn [pq_take_n].
  destruct (pq_take_ok q m a mh Hq (Hmh ltac:(lia))) as (p & mh' & q' & -> & Hp & Hq' & Hl & Hmh'). cbn [obind].
  destruct (IH q' (delete p m) a mh' Hq') as (ps & q2 & m2 & -> & Hps & Hm2 & Hq2); [intros; apply Hmh'; lia|lia|]. cbn [obind].
  exists (p :: ps), q2, m2. split_and!; [done|by cbn; rewrite Hps|done|done].
Qed.
Lemma RemoveLast_ok q m addr :
  pq_ok q m → ∃ r q' m', RemoveLast addr q = Val (r, q') ∧ pump_spec m (PumpRemoveLast addr) (PumpItem r) m' ∧ pq_ok q' m'.
Proof.
  intros Hq. unfold RemoveLast. destruct (pq_addrMaxHeap q !! addrString addr) as [mh|] eqn:E.
  - destruct (pq_take_ok q m _ mh Hq E) as (p & mh' & q' & -> & Hp & Hq' & _). cbn [obind]. eexists _, _, _. split_and!; [done|by apply spec_last|done].
  - eexists _, _, _. split_and!; [done| |exact Hq]. apply spec_last_none. by eapply of_addr_none.
Qed.
Lemma RemoveLastN_ok q m addr n :
  pq_ok q m → ∃ r q' m', RemoveLastN addr n q = Val (r, q') ∧ pump_spec m (PumpRemoveLastN addr n) (PumpItems r) m' ∧ pq_ok q' m'.
Proof.
  intros Hq. unfold RemoveLastN. destruct (pq_addrMaxHeap q !! addrString addr) as [mh|] eqn:E.
  - destruct (Nat.ltb_spec (hLen mh) n) as [Hl|Hl].
    + eexists _, _, _. split_and!; [done| |exact Hq]. apply spec_last_n_none. left.
      destruct (pqo_max q m Hq _ mh E) as (Hok & _ & Hin). by rewrite <-(heap_size _ mh _ Hok Hin).
    + destruct (pq_take_n_ok n q m (addrString addr) mh Hq (λ _, E) Hl) as (ps & q' & m' & -> & Hps & Hm' & Hq'). cbn [obind].
      eexists _, _, _. split_and!; [done|by eapply spec_last_n|done].
  - eexists _, _, _. split_and!; [done| |exact Hq]. apply spec_last_n_none. right. by eapply of_addr_none.
Qed.
Lemma pq_remove_older_ok minUpdateTime fuel : ∀ q m,
  pq_ok q m → hLen (pq_orderedItems q) < fuel →
  ∃ q', pq_remove_older fuel minUpdateTime q = Val q' ∧ pq_ok q' (filter (λ x, (minUpdateTime ≤ pi_updateTime x.2)%Z) m).
Proof.
  induction fuel as [|fuel IH]; intros q m Hq Hf; [lia|]. cbn [pq_remove_older].
  destruct (h_items (pq_orderedItems q) !! 0) as [first|] eqn:E0.
  2:{ exists q. split; [done|]. rewrite map_filter_id; [done|]. intros p item E. exfalso.
      destruct (proj2 (pqo_items q m Hq p) (ex_intro _ _ E)) as [|]; [by cbn in E0|by cbn in E0]. }
  assert (first ∈ h_items (pq_orderedItems q)) as Hin by by eapply list_elem_of_lookup_2.
  destruct (proj1 (pqo_items q m Hq first) Hin) as [item Hi]. pose proof (pqo_store q m Hq _ _ Hi) as Hs.
  unfold pq_time at 1. rewrite Hs. cbn [from_option]. destruct (Z.ltb_spec (pi_updateTime item) minUpdateTime) as [Ht|Ht].
  - destruct (hRemove_spec (pq_less (pq_store q)) (ptime_le (pq_store q)) (pq_orderedItems q) 0 first (pqo_heap q m Hq) E0) as (h & -> & Hh & Hp).
    cbn [obind]. rewrite Hs. destruct (pqo_addr q m Hq _ _ Hi) as [mh Hmh]. rewrite Hmh.
    destruct (pqo_max q m Hq _ _ Hmh) as (Hok & _ & Hmi).
    assert (of_addr (pi_addrString item) m !! first = Some item) as Ho by by apply of_addr_lookup.
    assert (first ∈ h_items mh) as Hfm by (apply Hmi; by eexists).
    destruct (hRemove_spec (pq_more (pq_store q)) (ptime_ge (pq_store q)) mh _ first Hok (heap_index_default _ _ _ Hok Hfm)) as (mh' & -> & Hok' & Hp').
    cbn [obind]. destruct (pq_drop_ok q m first item (pi_addrString item) mh h mh' Hq Ho Hmh Hh Hp Hok' Hp') as [Hq' _].
    destruct (IH _ _ Hq') as (q' & -> & Hq2). { cbn. apply Permutation_length in Hp. unfold hLen in *. cbn in Hp. lia. }
    exists q'. split; [done|]. rewrite map_filter_delete, delete_id in Hq2; [done|]. apply map_lookup_filter_None. right.
    intros x Hx Hle. cbn in Hle. assert (x = item) as -> by congruence. lia.
  - exists q. split; [done|]. rewrite map_filter_id; [done|]. intros p it E. cbn.
    pose proof (heap_first (pq_less (pq_store q)) (ptime_le (pq_store q)) _ _ p (pqo_heap q m Hq) E0 (proj2 (pqo_items q m Hq p) (ex_intro _ _ E))) as Hle.
    unfold ptime_le, pq_time in Hle. rewrite Hs, (pqo_store q m Hq _ _ E) in Hle. cbn in Hle. lia.
Qed.
Lemma ptime_le_insert store p item a b : a ≠ p → b ≠ p → ptime_le store a b → ptime_le (<[p := item]> store) a b.
Proof. intros Ha Hb. unfold ptime_le, pq_time. by rewrite !lookup_insert_ne. Qed.
Lemma of_addr_insert a m p item :
  m !! p = None → of_addr a (<[p := item]> m) = if decide (pi_addrString item = a) then <[p := item]> (of_addr a m) else of_addr a m.
Proof.
  intros Hp. unfold of_addr. destruct (decide (pi_addrString item = a)) as [E|E]; [by rewrite map_filter_insert_True|].
  rewrite map_filter_insert_False by done. by rewrite delete_id.
Qed.
(** The max heap of an address, or a new one. *)
Lemma pq_max_heap q m a :
  pq_ok q m → let mh := default empty_heap (pq_addrMaxHeap q !! a) in
  heap_ok (ptime_ge (pq_store q)) mh ∧ (∀ p, p ∈ h_items mh ↔ is_Some (of_addr a m !! p)).
Proof.
  intros Hq. destruct (pq_addrMaxHeap q !! a) as [mh|] eqn:E; cbn [default from_option id].
  - destruct (pqo_max q m Hq _ _ E) as (H1 & _ & H2). by split.
  - split; [apply empty_heap_ok|]. intros p. rewrite (of_addr_none q m a Hq E), lookup_empty. cbn. rewrite elem_of_nil, is_Some_alt. done.
Qed.
Lemma pq_Add_ok q m now item :
  (0 < DnsMaxPumpHostsPerAddress settings)%Z → pq_ok q m →
  ∃ r q' m', pq_Add settings now item q = Val (r, q') ∧ pump_spec m (PumpAdd now item) (PumpLimit r) m' ∧ pq_ok q' m'.
Proof.
  intros Hmax Hq. unfold pq_Add. rewrite (heap_size _ _ m (pqo_heap q m Hq) (pqo_items q m Hq)).
  destruct (Z.leb_spec (DnsMaxPumpHosts settings) (Z.of_nat (size m))) as [Hl|Hl].
  { eexists _, _, _. split_and!; [done| |exact Hq]. apply spec_add_limit. by left. }
  set (a := pi_addrString item). destruct (pq_max_heap q m a Hq) as [Hmh Hmi].
  set (mh := default empty_heap (pq_addrMaxHeap q !! a)) in *. rewrite (heap_size _ _ _ Hmh Hmi).
  destruct (Z.leb_spec (DnsMaxPumpHostsPerAddress settings) (Z.of_nat (size (of_addr a m)))) as [Hla|Hla].
  { eexists _, _, _. split_and!; [done|apply spec_add_limit; by right|].
    (* the max heap is not new *)
    destruct (pq_addrMaxHeap q !! a) as [mh0|] eqn:E; [|rewrite (of_addr_none q m a Hq E), map_size_empty in Hla; lia].
    unfold mh. cbn [default from_option id]. rewrite insert_id by done. by destruct q. }
  set (p := fresh (dom (pq_store q))). set (item' := mkPumpItem (pi_addr item) (pi_id item) (pi_header item) (pi_tld item) now).
  set (store := <[p := item']> (pq_store q)).
  assert (pq_store q !! p = None) as Hps by apply not_elem_of_dom, is_fresh.
  assert (m !! p = None) as Hpm. { destruct (m !! p) as [it|] eqn:E; [|done]. apply (pqo_store q m Hq) in E. congruence. }
  assert (∀ x, is_Some (m !! x) → x ≠ p) as Hne by (intros x [? E] ->; congruence).
  assert (∀ b x, is_Some (of_addr b m !! x) → x ≠ p) as Hne2 by (intros b x [it [E _]%of_addr_lookup]; apply Hne; by eexists).
  destruct (hPush_spec (pq_less store) (ptime_le store) p (pq_orderedItems q)) as (h & -> & Hh & Hperm).
  { eapply heap_ok_ext; [|apply (pqo_heap q m Hq)]. intros x y Hx%(pqo_items q m Hq) Hy%(pqo_items q m Hq). apply ptime_le_insert; by apply Hne. }
  { intros Hin%(pqo_items q m Hq). by apply (Hne p). }
  assert (∀ b mb, heap_ok (ptime_ge (pq_store q)) mb → (∀ x, x ∈ h_items mb ↔ is_Some (of_addr b m !! x)) → heap_ok (ptime_ge store) mb) as Hge.
  { intros b mb Hb Hbi. eapply heap_ok_ext; [|exact Hb]. intros x y Hx%Hbi%Hne2 Hy%Hbi%Hne2. unfold ptime_ge, pq_time, store. by rewrite !lookup_insert_ne. }
  destruct (hPush_spec (pq_more store) (ptime_ge store) p mh) as (mh' & Emh' & Hmh' & Hperm'); [by apply (Hge a)|intros Hin%Hmi; by apply (Hne2 a p)|].
  cbn [obind]. rewrite Emh'. cbn [obind]. exists false. eexists _, _. split_and!; [done|by apply spec_add|]. rewrite insert_insert_eq. fold item'.
  split; cbn; [done| | | |].
  - intros x. rewrite Hperm, elem_of_cons, (pqo_items q m Hq), lookup_insert_is_Some'. split; intros [H|H]; auto.
  - intros x it [[<- <-]|[Hx E]]%lookup_insert_Some; [apply lookup_insert_eq|]. unfold store. rewrite lookup_insert_ne by done. by apply (pqo_store q m Hq).
  - intros b mb [[<- <-]|[Hb Emb]]%lookup_insert_Some.
    + split_and!; [done|intros E0; rewrite E0 in Hperm'; by apply Permutation_nil_cons in Hperm'|].
      intros x. rewrite Hperm', elem_of_cons, Hmi, of_addr_insert, decide_True by done. rewrite lookup_insert_is_Some'.
      split; intros [H|H]; auto.
    + destruct (pqo_max q m Hq b mb Emb) as (H1 & H2 & H3). split_and!; [by apply (Hge b)|done|].
      intros x. rewrite H3, of_addr_insert, decide_False; done.
  - intros x it [[<- <-]|[Hx E]]%lookup_insert_Some; [unfold pi_addrString; cbn; rewrite lookup_insert_eq; by eexists|].
    apply lookup_insert_is_Some'. right. by apply (pqo_addr q m Hq x).
Qed.
Lemma new_pump_ok : pq_ok newPumpQueue ∅.
Proof.
  split; cbn; [apply empty_heap_ok| | | |].
  - intros p. rewrite lookup_empty, elem_of_nil, is_Some_alt. done.
  - intros p it E. by rewrite lookup_empty in E.
  - intros a mh E. by rewrite lookup_empty in E.
  - intros p it E. by rewrite lookup_empty in E.
Qed.
Lemma pump_step_ok op q m :
  (0 < DnsMaxPumpHostsPerAddress settings)%Z → pq_ok q m →
  ∃ r q' m', pump_step op q = Val (r, q') ∧ pump_spec m op r m' ∧ pq_ok q' m'.
Proof.
  intros Hmax Hq. destruct op as [now item|addr|addr n|minUpdateTime]; cbn [pump_step].
  - destruct (pq_Add_ok q m now item Hmax Hq) as (r & q' & m' & -> & ? & ?). cbn [obind]. by eexists _, _, _.
  - destruct (RemoveLast_ok q m addr Hq) as (r & q' & m' & -> & ? & ?). cbn [obind]. by eexists _, _, _.
  - destruct (RemoveLastN_ok q m addr n Hq) as (r & q' & m' & -> & ? & ?). cbn [obind]. by eexists _, _, _.
  - unfold pq_RemoveOlder. destruct (pq_remove_older_ok minUpdateTime (S (hLen (pq_orderedItems q))) q m Hq ltac:(lia)) as (q' & -> & Hq').
    cbn [obind]. eexists _, _, _. split_and!; [done|apply spec_older|done].
Qed.
Lemma pump_run_ok ops : (0 < DnsMaxPumpHostsPerAddress settings)%Z → ∀ q m, pq_ok q m →
  ∃ rs q' m', pump_run ops q = Val (rs, q') ∧ pump_specs m ops rs m' ∧ pq_ok q' m'.
Proof.
  intros Hmax. induction ops as [|op ops IH]; intros q m Hq; [exists [], q, m; by split_and!; [|constructor|]|]. cbn [pump_run].
  destruct (pump_step_ok op q m Hmax Hq) as (r & q' & m' & -> & Hs & Hq'). cbn [obind].
  destruct (IH q' m' Hq') as (rs & q2 & m2 & -> & Hs2 & Hq2). cbn [obind]. exists (r :: rs), q2, m2. split_and!; [done|by econstructor|done].
Qed.
(** The pump queue is what it promises under every sequence of operations: a
    header that is removed is the newest of its address and is handed out
    once, N are given together or none, and an expired one is never given. *)
Theorem pump_queue_refines ops :
  (0 < DnsMaxPumpHostsPerAddress settings)%Z →
  ∃ rs q m, pump_run ops newPumpQueue = Val (rs, q) ∧ pump_specs ∅ ops rs m ∧ pq_ok q m.
Proof. intros Hmax. apply pump_run_ok; [done|]. apply new_pump_ok. Qed.
End PumpQueue.

(** ** The queues at work *)
Module PacketQueuesExample.
Definition ex_limits (combine pump : Z) : PacketTranslationSettings :=
  mkPacketTranslationSettings [] 10 5000 combine 1000 pump 1000 200 32.
Definition ex_part (key : Byte.byte) (c i : Z) : list byte := replicate 16 key ++ [byte_of c; byte_of i].
Definition ex_name (a : string) : string := a.
(** The two parts of a packet come from two addresses: the count of the first
    one stays, and in the end the address is refused. *)
Example combine_count_drifts :
  match combine_run ex_name (ex_limits 1 1)
    [OpCombine 1 "a"%string (ex_part Byte.x01 2 0) [Byte.x0a]; OpCombine 2 "b"%string (ex_part Byte.x01 2 1) [Byte.x0b];
     OpCombine 3 "a"%string (ex_part Byte.x02 2 0) [Byte.x0c]] newCombineQueue with
  | Val (q, rs) => rs = [Combined None; Combined (Some (mkPacket [Byte.x0a; Byte.x0b] "b"%string)); CombineLimit] ∧
      h_items (cq_orderedItems q) = []
  | _ => False
  end.
Proof. by vm_compute. Qed.
Definition ex_item (a : string) (id : Z) : pumpItem := mkPumpItem (Some a) id (replicate 18 Byte.x00) None 0.
Lemma pump_queue_refines_witness :
  ∃ rs q m, pump_run ex_name (ex_limits 10 10)
    [PumpAdd 1 (ex_item "a" 1); PumpAdd 2 (ex_item "a" 2); PumpAdd 3 (ex_item "b" 3); PumpRemoveLast "a"%string;
     PumpRemoveLastN "a"%string 2; PumpRemoveOlder 2] newPumpQueue = Val (rs, q) ∧
    pump_specs ex_name (ex_limits 10 10) ∅
      [PumpAdd 1 (ex_item "a" 1); PumpAdd 2 (ex_item "a" 2); PumpAdd 3 (ex_item "b" 3); PumpRemoveLast "a"%string;
       PumpRemoveLastN "a"%string 2; PumpRemoveOlder 2] rs m ∧ pq_ok ex_name q m.
Proof. apply pump_queue_refines. reflexivity. Defined.
(** With a limit of zero per address an empty max heap stays, and the address
    cannot be asked for. *)
Example pump_limit_zero_panics :
  is_panic (pump_run ex_name (ex_limits 10 0) [PumpAdd 1 (ex_item "a" 1); PumpRemoveLast "a"%string] newPumpQueue) = true.
Proof. by vm_compute. Qed.
End PacketQueuesExample.
