(* ===== verification/PacketTranslation.v ===== *)
(** * Packet translation: transport_pt.go

    A packet is written as a number of DNS messages, each with a header of
    sixteen bytes that the packet determines, the number of the parts and the
    index of the part; what is read is decoded and put together. The writers,
    the reader with its two goroutines, and what they do together. The hash of
    the header is of golang.org/x/crypto: a function of the model. *)

From S2P Require Import Prelude GoHeap BaseCodec DnsCodec PacketQueues.
Open Scope go_scope.

Section PacketTranslation.
Context `{dm : DnsMessage}.
(** [sha3.ShakeSum128] into so many bytes. *)
Context (ShakeSum128 : nat → list byte → list byte).
Context {Addr : Type} (addrString : Addr → string).
Variable settings : PacketTranslationSettings.
Variable headerPrefix : list byte.

(** ** Headers *)
(** [header[0:len(prefix)]] and [header[len(prefix):16]] of a longer prefix
    are out of range. [fill n] are the bytes after the prefix. *)
Definition make_header (fill : nat → list byte) : outcome (list byte) :=
  if 16 <? length headerPrefix then Panic "slice bounds out of range"
  else Val (headerPrefix ++ fill (16 - length headerPrefix) ++ [Byte.x00; Byte.x00]).
Definition newHeader (rand : nat → list byte) : outcome (list byte) := make_header rand.
Definition newHeaderWithContentAddress (p : list byte) : outcome (list byte) := make_header (λ n, ShakeSum128 n p).
(** [header[16] = uint8(c)] and [header[17] = uint8(i)]. *)
Definition set_count (c : Z) (header : list byte) : list byte := <[16 := byte_of c]> header.
Definition set_index (i : nat) (header : list byte) : list byte := <[17 := byte_of (Z.of_nat i)]> header.

(** ** Writing *)
(** What follows a write: the next one, an error of the connection, or that the
    translation is done. *)
Inductive after_write := WriteNext | WriteError (err : string) | WriteDone.
Record pt_written := mkWritten {
  w_id : Z;                       (** the next id *)
  w_messages : list (list byte);  (** what was written *)
  w_result : outcome unit
}.
(** The parts from [i] on. *)
Fixpoint client_parts (k i : nat) (header packet tld : list byte) (write : nat → after_write) (id : Z) (n : nat) : pt_written :=
  match k with
  | 0 => mkWritten id [] (if (n =? length packet)%nat then Val tt else Err "Header count estimate incorrect.")
  | S k =>
      match encodeDnsRequest id (set_index i header) (drop n packet) tld with
      | Panic e => mkWritten id [] (Panic e)
      | Err e => mkWritten (u16 (id + 1)) [] (Err e)
      | Val (m, packetData) =>
          match write i with
          | WriteError e => mkWritten (u16 (id + 1)) [packetData] (Err e)
          | WriteDone => mkWritten (u16 (id + 1)) [packetData] (Val tt)
          | WriteNext =>
              let w := client_parts k (S i) header packet tld write (u16 (id + 1)) (n + m) in
              mkWritten (w_id w) (packetData :: w_messages w) (w_result w)
          end
      end
  end.
(** [writeOne] of a client; [tld] is one of the zones. *)
Definition client_writeOne (packet tld : list byte) (write : nat → after_write) (id : Z) : pt_written :=
  match (let! c := encodeDnsRequestCount packet tld in
         let! header := newHeaderWithContentAddress packet in Val (c, header)) with
  | Val (c, header) => client_parts (Z.to_nat c) 0 (set_count c header) packet tld write id 0
  | Err e => mkWritten id [] (Err e)
  | Panic e => mkWritten id [] (Panic e)
  end.
(** The pump of a client that has written to an address. An error of the
    encoder drops the message. *)
Definition pump_message (rand : nat → list byte) (tld : list byte) (id : Z) : outcome (Z * option (list byte)) :=
  let! header := newHeader rand in
  match encodeDnsRequest id header [] tld with
  | Val (_, packetData) => Val (u16 (id + 1), Some packetData)
  | Err _ => Val (u16 (id + 1), None)
  | Panic e => Panic e
  end.

Definition longest_tld (tlds : list (list byte)) : outcome (list byte) :=
  match tlds with
  | [] => Panic "index out of range"
  | tld :: tlds => Val (fold_left (λ l t, if length l <? length t then t else l) tlds tld)
  end.
(** The headers that responses are made with. [fresh_headers]: for the rest,
    random ones with zones that are drawn. *)
Fixpoint fresh_items (k : nat) (rand : nat → nat → list byte) (tlds : nat → list byte) (id : Z) : outcome (Z * list (pumpItem (Addr := Addr))) :=
  match k with
  | 0 => Val (id, [])
  | S k =>
      let! header := newHeader (rand k) in
      let! (id', items) := fresh_items k rand tlds (u16 (id + 1)) in
      Val (id', mkPumpItem None id header (Some (tlds k)) 0 :: items)
  end.
Fixpoint take_items (k : nat) (addr : Addr) (q : pumpQueue) : outcome (list pumpItem * pumpQueue) :=
  match k with
  | 0 => Val ([], q)
  | S k =>
      let! (p, q) := RemoveLast addrString addr q in
      match p ≫= λ p, pq_store q !! p with
      | None => Val ([], q)
      | Some item => let! (items, q) := take_items k addr q in Val (item :: items, q)
      end
  end.
(** None: there are not enough of them, and the packet is dropped. *)
Definition pump_items (dnsRequirePump : bool) (c : Z) (addr : Addr) (rand : nat → nat → list byte) (tlds : nat → list byte)
    (id : Z) (q : pumpQueue) : outcome (option (list pumpItem) * Z * pumpQueue) :=
  if dnsRequirePump then
    if (c <? 0)%Z && bool_decide (is_Some (pq_addrMaxHeap q !! addrString addr)) then Panic "makeslice: len out of range"
    else
      let! (ps, q) := RemoveLastN addrString addr (Z.to_nat c) q in
      Val (match ps with None => None | Some ps => Some (omap (λ p, pq_store q !! p) ps) end, id, q)
  else if (c <? 0)%Z then Panic "makeslice: len out of range"
  else
    let! (items, q) := take_items (Z.to_nat c) addr q in
    let! (id, rest) := fresh_items (Z.to_nat c - length items) rand tlds id in
    Val (Some (items ++ rest), id, q).
Fixpoint server_parts (items : list (pumpItem (Addr := Addr))) (i : nat) (header packet : list byte) (write : nat → after_write) (n : nat)
    : list (list byte) * outcome unit :=
  match items with
  | [] => ([], if (n =? length packet)%nat then Val tt else Err "Header count estimate incorrect.")
  | item :: items =>
      match encodeDnsResponse (pi_id item) (pi_header item) (set_index i header) (drop n packet) (default [] (pi_tld item)) with
      | Panic e => ([], Panic e)
      | Err e => ([], Err e)
      | Val (m, packetData) =>
          match write i with
          | WriteError e => ([packetData], Err e)
          | WriteDone => ([packetData], Val tt)
          | WriteNext => let (ms, r) := server_parts items (S i) header packet write (n + m) in (packetData :: ms, r)
          end
      end
  end.
(** [writeOne] of a server, in one step: other goroutines do not touch the queue
    of pump headers between its turns here. *)
Definition server_writeOne (now : Z) (dnsRequirePump : bool) (packet : list byte) (addr : Addr) (rand : nat → nat → list byte)
    (tlds : nat → list byte) (write : nat → after_write) (id : Z) (q : pumpQueue) : outcome (Z * pumpQueue * list (list byte) * outcome unit) :=
  let! q := pq_RemoveOlder addrString (now - DnsStateTimeout settings) q in
  let! longestTld := longest_tld (DnsTlds settings) in
  let! c := encodeDnsResponseCount packet longestTld in
  let! (items, id, q) := pump_items dnsRequirePump c addr rand tlds id q in
  match items with
  | None => Val (id, q, [], Val tt)
  | Some items =>
      let! header := newHeaderWithContentAddress packet in
      let (ms, r) := server_parts items 0 (set_count c header) packet write 0 in Val (id, q, ms, r)
  end.

(** ** Reading *)
(** What the loop of [decodeDns] makes of a message: an item for the pump
    queue, and a part for the combine queue. The error of the decoder is not
    looked at: the header is then zero. *)
Record read_message := mkRead {
  rm_pump : option (pumpItem (Addr := Addr));
  rm_part : option (list byte * list byte)
}.
Definition part_of (d : decoded) : option (list byte * list byte) :=
  if (header_count (d_header d) =? 0)%nat then None else Some (d_header d, d_out d).
Definition client_read (packetData : list byte) : outcome read_message :=
  let! d := decodeDnsResponse packetData (DnsTlds settings) in Val (mkRead None (part_of d)).
Definition server_read (addr : Addr) (packetData : list byte) : outcome read_message :=
  let! d := decodeDnsRequest packetData (DnsTlds settings) in
  if d_otherData d then Val (mkRead None None)
  else if (0 <? length headerPrefix) && (18 <? length headerPrefix) then Panic "slice bounds out of range"
  else if (0 <? length headerPrefix) && negb (bool_decide (headerPrefix = take (length headerPrefix) (d_header d))) then Val (mkRead None None)
  else Val (mkRead (Some (mkPumpItem (Some addr) (d_id d) (d_header d) (d_tld d) 0)) (part_of d)).

(** The goroutine of the combine queue on a part: at [now], then at [now'].
    The goroutine of the pump queue on an item, likewise. *)
Definition combine_part (now now' : Z) (addr : Addr) (part : list byte * list byte) (q : combineQueue Addr)
    : outcome (combineQueue Addr * combined Addr) :=
  let! q := cq_RemoveOlder addrString (now - DnsStateTimeout settings) q in
  Combine addrString settings now' addr part.1 part.2 q.
Definition pump_add (now now' : Z) (item : pumpItem) (q : pumpQueue) : outcome (bool * pumpQueue) :=
  let! q := pq_RemoveOlder addrString (now - DnsStateTimeout settings) q in
  pq_Add addrString settings now' item q.

(** A message that is read, with the times at which its part is combined. *)
Record datagram := mkDatagram { dg_now : Z; dg_now' : Z; dg_addr : Addr; dg_data : list byte }.
(** The parts of messages that are read in this order, with what came of
    them: a packet that is put together is sent to the reader. The parts go
    through a channel to the combine queue. *)
Fixpoint read_run (read : Addr → list byte → outcome read_message) (ds : list datagram) (q : combineQueue Addr)
    : outcome (combineQueue Addr * list (list byte * combined Addr)) :=
  match ds with
  | [] => Val (q, [])
  | d :: ds =>
      let! m := read (dg_addr d) (dg_data d) in
      match rm_part m with
      | None => read_run read ds q
      | Some part =>
          let! (q, r) := combine_part (dg_now d) (dg_now' d) (dg_addr d) part q in
          let! (q, rs) := read_run read ds q in
          Val (q, (part.1, r) :: rs)
      end
  end.

(** ** The connection *)
(** [ReadFrom] of a packet that came in: what fits in the buffer. *)
Definition pt_ReadFrom (size : nat) (p : packet Addr) : nat * Addr * list byte :=
  (min size (length (pk_data p)), pk_addr p, take size (pk_data p)).
(** Zones are canonical: a dot at the end, none at the start. *)
Definition check_tlds (tlds : list (list byte)) : outcome unit :=
  let fix go l := match l with
    | [] => Val tt
    | tld :: l => match last tld, tld !! 0 with
                  | Some e, Some b => if decide (e ≠ dot ∨ b = dot) then Err "TLD must be canonical" else go l
                  | _, _ => Panic "index out of range"
                  end
    end in go tlds.
End PacketTranslation.

Section Expected.
Context {Addr : Type}.
Fixpoint op_headers (ops : list (combine_op (Addr := Addr))) : list (list byte) :=
  match ops with
  | [] => []
  | OpRemoveOlder _ :: ops => op_headers ops
  | OpCombine _ _ header _ :: ops => header :: op_headers ops
  end.
(** The parts of a key that are expected. *)
Lemma expected_results key f got (ops : list (combine_op (Addr := Addr))) x :
  x ∈ expected key f got ops → x = None ∨ x = Some (whole key f).
Proof.
  revert got. induction ops as [|[m|now a header data] ops IH]; intros got; cbn [expected]; [by intros ?%not_elem_of_nil|apply IH|].
  case_decide; [|apply IH]. case_decide; intros [-> |H']%elem_of_cons; auto; by eapply IH.
Qed.
Definition key_indexes key (ops : list (combine_op (Addr := Addr))) : list nat :=
  map header_index (filter (λ h, take 17 h = key) (op_headers ops)).
Lemma expected_covers key f (ops : list (combine_op (Addr := Addr))) : ∀ got,
  got ≠ set_seq 0 (header_count key) → (∀ i, i < header_count key → i ∈ got ∨ i ∈ key_indexes key ops) →
  got ⊆ set_seq 0 (header_count key) → (∀ i, i ∈ key_indexes key ops → i < header_count key) →
  Some (whole key f) ∈ expected key f got ops.
Proof.
  induction ops as [|[m|now a header data] ops IH]; intros got Hne Hcov Hsub Hlt; cbn [expected].
  - exfalso. apply Hne. apply set_eq. intros i. split; [apply Hsub|]. intros Hi%elem_of_set_seq.
    destruct (Hcov i ltac:(lia)) as [|Hn%not_elem_of_nil]; done.
  - by apply IH.
  - unfold key_indexes in *. cbn [op_headers] in *. rewrite filter_cons in Hcov, Hlt. destruct (decide (take 17 header = key)) as [Hk|Hk]; [|by apply IH].
    cbn [map] in *. assert (header_index header < header_count key) as Hi by apply Hlt, list_elem_of_here.
    case_decide as Hfull; [apply list_elem_of_here|]. apply list_elem_of_further, IH; [done| | |].
    + intros i Hic. destruct (Hcov i Hic) as [Hg|[-> |Hr]%elem_of_cons]; [left; set_solver|left; set_solver|by right].
    + intros j [->%elem_of_singleton|Hj]%elem_of_union; [apply elem_of_set_seq; lia|by apply Hsub].
    + intros i Hin. apply Hlt. by apply list_elem_of_further.
Qed.
Lemma expected_count key f (ops : list (combine_op (Addr := Addr))) : ∀ got,
  header_count key * length (omap id (expected key f got ops)) ≤ length (key_indexes key ops) + size got.
Proof.
  induction ops as [|[m|now a header data] ops IH]; intros got; cbn [expected].
  - cbn. lia.
  - apply IH.
  - unfold key_indexes in *. cbn [op_headers]. rewrite filter_cons. destruct (decide (take 17 header = key)) as [Hk|Hk]; [|apply IH].
    cbn [map length]. assert (size ({[header_index header]} ∪ got) ≤ S (size got)) as Hsz.
    { destruct (decide (header_index header ∈ got)); [replace ({[header_index header]} ∪ got) with got by set_solver; lia|].
      rewrite size_union by set_solver. rewrite size_singleton. lia. }
    case_decide as Hfull.
    + cbn. specialize (IH ∅). rewrite size_empty in IH.
      assert (size (set_seq 0 (header_count key) : gset nat) = header_count key) as Hc by apply size_set_seq. rewrite Hfull, Hc in Hsz. lia.
    + cbn. specialize (IH ({[header_index header]} ∪ got)). lia.
Qed.
End Expected.

(** ** What is put together of what is read *)
Section Reads.
Context {Addr : Type} (addrString : Addr → string).
Variable settings : PacketTranslationSettings.
Variable read : Addr → list byte → outcome (read_message (Addr := Addr)).
(** The operations on the combine queue. *)
Fixpoint read_ops (ds : list (datagram (Addr := Addr))) : outcome (list (combine_op (Addr := Addr))) :=
  match ds with
  | [] => Val []
  | d :: ds =>
      let! m := read (dg_addr d) (dg_data d) in
      let! ops := read_ops ds in
      Val (match rm_part m with
           | None => ops
           | Some part => OpRemoveOlder (dg_now d - DnsStateTimeout settings) :: OpCombine (dg_now' d) (dg_addr d) part.1 part.2 :: ops
           end)
  end.
Lemma read_run_ops ds : ∀ q s ops,
  cq_ok q → cq_abs q s → read_ops ds = Val ops →
  ∃ q', read_run addrString settings read ds q = Val (q', zip (op_headers ops) (spec_run addrString settings ops s).2) ∧
    length (op_headers ops) = length (spec_run addrString settings ops s).2 ∧ cq_ok q'.
Proof.
  induction ds as [|d ds IH]; intros q s ops Hq Ha Ho; cbn [read_ops read_run] in *; [inv_val; by exists q|].
  destruct (read (dg_addr d) (dg_data d)) as [m| |]; cbn [obind] in *; [|done..].
  destruct (read_ops ds) as [ops'| |]; cbn [obind] in *; [|done..]. injection Ho as <-.
  destruct (rm_part m) as [part|]; [|by apply IH]. unfold combine_part, cq_RemoveOlder. cbn [spec_run op_headers].
  destruct (cq_remove_older_ok addrString (dg_now d - DnsStateTimeout settings) (S (hLen (cq_orderedItems q))) q s Hq Ha ltac:(lia))
    as (q1 & -> & Hq1 & Ha1). cbn [obind].
  destruct (Combine_ok addrString settings (dg_now' d) (dg_addr d) part.1 part.2 q1 _ Hq1 Ha1) as (q2 & -> & Hq2 & Ha2). cbn [obind].
  destruct (spec_Combine addrString settings (dg_now' d) (dg_addr d) part.1 part.2 _) as [s2 r]. cbn [fst snd] in *.
  destruct (IH q2 s2 ops' Hq2 Ha2 eq_refl) as (q3 & -> & Hl & Hq3). cbn [obind]. exists q3.
  destruct (spec_run addrString settings ops' s2) as [s3 rs]. cbn in *. split_and!; [done|by f_equal|done].
Qed.
Lemma key_results_zip key (ops : list (combine_op (Addr := Addr))) rs :
  length (op_headers ops) = length rs →
  key_results key ops rs = (filter (λ x, take 17 x.1 = key) (zip (op_headers ops) rs)).*2.
Proof.
  revert rs. induction ops as [|[m|now a header data] ops IH]; intros rs Hl; cbn [key_results op_headers] in *; [done|by apply IH|].
  destruct rs as [|r rs]; [done|]. cbn [zip zip_with]. injection Hl as Hl. rewrite filter_cons. cbn [fst].
  destruct (decide (take 17 header = key)); [|by apply IH]. rewrite fmap_cons. f_equal. by apply IH.
Qed.
End Reads.

(** ** The parts of a packet, over a network that loses, repeats and reorders *)
Section Parts.
Context {Addr : Type} (addrString : Addr → string).
Variable settings : PacketTranslationSettings.
Variable read : Addr → list byte → outcome (read_message (Addr := Addr)).
Variables (key : list byte) (f : nat → list byte) (ms : list (list byte)) (t0 : Z).
(** Message [i] is read as the part of index [i]. *)
Definition parts_read : Prop :=
  header_count key = length ms ∧ ∀ i m addr, ms !! i = Some m → ∃ pump header,
    read addr m = Val (mkRead pump (Some (header, f i))) ∧ take 17 header = key ∧ header_index header = i.
(** What is read are these messages, any number of times in any order, and
    others that are not parts of this packet; nothing is read later than the
    state timeout after [t0], and the messages are not read before it. *)
Definition network_ok (ds : list (datagram (Addr := Addr))) : Prop :=
  ∀ d, d ∈ ds → (dg_now d - DnsStateTimeout settings ≤ t0)%Z ∧
    (dg_data d ∈ ms ∧ (t0 ≤ dg_now' d)%Z ∨
     ∃ rm, read (dg_addr d) (dg_data d) = Val rm ∧ ∀ part, rm_part rm = Some part → take 17 part.1 ≠ key).
(** The packets of the key in a trace. *)
Definition delivered (trace : list (list byte * combined Addr)) : list (list byte) :=
  omap (λ x, if decide (take 17 x.1 = key) then result_data x.2 else None) trace.
Definition refused (trace : list (list byte * combined Addr)) : Prop := ∃ h, (h, CombineLimit) ∈ trace ∧ take 17 h = key.

Lemma delivered_results trace :
  delivered trace = omap id (map result_data (filter (λ x, take 17 x.1 = key) trace).*2).
Proof.
  unfold delivered. induction trace as [|[h r] trace IH]; [done|]. rewrite filter_cons. cbn [omap list_omap fst snd].
  destruct (decide (take 17 h = key)); [|done]. rewrite fmap_cons. cbn. rewrite <-IH. done.
Qed.
Lemma network_ops ds :
  parts_read → network_ok ds →
  ∃ ops, read_ops settings read ds = Val ops ∧ Forall (delivers_ok key f t0) ops ∧
    (∀ d i, d ∈ ds → ms !! i = Some (dg_data d) → i ∈ key_indexes key ops) ∧
    (∀ i, i ∈ key_indexes key ops → i < header_count key) ∧
    length (key_indexes key ops) ≤ length (filter (λ d, dg_data d ∈ ms) ds).
Proof.
  intros [Hc Hread] Hnet. induction ds as [|d ds IH].
  { exists []. split_and!; [done|constructor|intros d i H; by apply not_elem_of_nil in H|intros i H; by apply not_elem_of_nil in H|cbn; lia]. }
  destruct IH as (ops & Eo & Hok & Hin & Hlt & Hlen); [intros d' Hd'; apply Hnet; by apply list_elem_of_further|].
  destruct (Hnet d ltac:(apply list_elem_of_here)) as [Ht Hd]. cbn [read_ops]. rewrite Eo.
  destruct Hd as [[Hm Ht']|(rm & Hrm & Hother)].
  - pose proof Hm as [i Hi]%list_elem_of_lookup. destruct (Hread i _ (dg_addr d) Hi) as (pump & header & -> & Hk & Hix). cbn [obind rm_part fst snd].
    assert (i < header_count key) as Hic by (rewrite Hc; by eapply lookup_lt_Some).
    assert (key_indexes key (OpRemoveOlder (dg_now d - DnsStateTimeout settings) :: OpCombine (dg_now' d) (dg_addr d) header (f i) :: ops)
      = i :: key_indexes key ops) as Hki.
    { unfold key_indexes. cbn [op_headers]. rewrite filter_cons_True by done. cbn [map]. by rewrite Hix. }
    eexists. split; [done|]. rewrite Hki. split_and!.
    + apply Forall_cons_2; [done|]. apply Forall_cons_2; [|done]. cbn. intros _. by rewrite Hix.
    + intros d' j [-> |Hd']%elem_of_cons Hj; [|apply list_elem_of_further; by apply (Hin d')].
      destruct (Hread j _ (dg_addr d) Hj) as (pump' & h' & E' & _ & Hix'). destruct (Hread i _ (dg_addr d) Hi) as (pump2 & h2 & E2 & _ & Hix2).
      assert (j = i) as -> by congruence. apply list_elem_of_here.
    + intros j [-> |Hj]%elem_of_cons; [done|by apply Hlt].
    + rewrite filter_cons_True by done. cbn. lia.
  - rewrite Hrm. cbn [obind]. assert (length (filter (λ d, dg_data d ∈ ms) ds) ≤ length (filter (λ d, dg_data d ∈ ms) (d :: ds))) as Hle
      by (rewrite filter_cons; case_decide; cbn; lia).
    assert (∀ i, ms !! i = Some (dg_data d) → ∃ part, rm_part rm = Some part ∧ take 17 part.1 = key) as Hno.
    { intros i Hi. destruct (Hread i _ (dg_addr d) Hi) as (pump & header & E & Hk & _). rewrite Hrm in E. injection E as ->.
      eexists. split; [done|]. done. }
    assert (∀ d' i, d' ∈ d :: ds → ms !! i = Some (dg_data d') → i ∈ key_indexes key ops) as Hin'.
    { intros d' i [-> |Hd']%elem_of_cons Hi; [|by apply (Hin d')]. destruct (Hno i Hi) as (part & Hp & Hk). by destruct (Hother part Hp). }
    destruct (rm_part rm) as [part|] eqn:Ep; [|exists ops; split_and!; [done..|lia]].
    assert (key_indexes key (OpRemoveOlder (dg_now d - DnsStateTimeout settings) :: OpCombine (dg_now' d) (dg_addr d) part.1 part.2 :: ops)
      = key_indexes key ops) as Hki.
    { unfold key_indexes. cbn [op_headers]. rewrite filter_cons_False by (by apply Hother). done. }
    eexists. split; [done|]. rewrite Hki. split_and!; [|done..|lia].
    apply Forall_cons_2; [done|]. apply Forall_cons_2; [|done]. cbn. intros Hk. by destruct (Hother part eq_refl).
Qed.
Lemma parts_delivered packet ds :
  whole key f = packet → parts_read → network_ok ds → ms ≠ [] →
  ∃ q trace, read_run addrString settings read ds newCombineQueue = Val (q, trace) ∧
    (¬ refused trace →
      (∀ p, p ∈ delivered trace → p = packet) ∧
      ((∀ m, m ∈ ms → ∃ d, d ∈ ds ∧ dg_data d = m) → packet ∈ delivered trace) ∧
      length ms * length (delivered trace) ≤ length (filter (λ d, dg_data d ∈ ms) ds)).
Proof.
  intros <- Hp Hnet Hne. destruct (network_ops ds Hp Hnet) as (ops & Eo & Hok & Hin & Hlt & Hlen).
  destruct (new_queue_ok (Addr := Addr)) as [Hq Ha].
  destruct (read_run_ops addrString settings read ds _ _ ops Hq Ha Eo) as (q' & Er & Hl & _).
  eexists q', _. split; [exact Er|]. intros Hlim. set (rs := (spec_run addrString settings ops spec_new).2) in *.
  pose proof (key_results_zip key ops rs Hl) as Hz. destruct Hp as [Hc Hread].
  assert (CombineLimit ∉ key_results key ops rs) as Hnl.
  { rewrite Hz. intros ([h r] & E & Hf)%list_elem_of_fmap. cbn in E. subst r. apply list_elem_of_filter in Hf as [Hk Hin']. apply Hlim. by exists h. }
  assert (got_item key f t0 ∅ (spec_new (Addr := Addr))) as Hg by done.
  pose proof (spec_delivers addrString settings key f t0 ops spec_new ∅ Hg Hok Hnl) as He. fold rs in He.
  rewrite delivered_results, <-Hz, He. split_and!.
  - intros p Hpin. apply list_elem_of_omap in Hpin as (x & Hx & Ep). apply expected_results in Hx as [-> | ->]; [done|].
    by injection Ep.
  - intros Hall. apply list_elem_of_omap. exists (Some (whole key f)). split; [|done]. apply expected_covers; [|..|done].
    + intros E. assert (0 ∈ (∅ : gset nat)) as H0; [|set_solver]. rewrite E. apply elem_of_set_seq. destruct ms; [done|]. rewrite Hc. simpl. lia.
    + intros i Hi. right. rewrite Hc in Hi. destruct (lookup_lt_is_Some_2 ms i Hi) as [m Hm].
      destruct (Hall m ltac:(by eapply list_elem_of_lookup_2)) as (d & Hd & <-). by eapply Hin.
    + set_solver.
  - pose proof (expected_count key f ops ∅) as H. rewrite size_empty, Hc in H. lia.
Qed.
End Parts.

(** ** The parts that are written *)
Section Parts2.
Context `{dml : DnsMessageLaws}.
Context (ShakeSum128 : nat → list byte → list byte).
Context {Addr : Type} (addrString : Addr → string).
Variable settings : PacketTranslationSettings.
Variable headerPrefix : list byte.
Hypothesis shake_length : ∀ n p, length (ShakeSum128 n p) = n.
Hypothesis prefix_length : length headerPrefix ≤ 16.
Let tlds := DnsTlds settings.

(** The part of index [i] of a packet cut in pieces of [w] bytes. *)
Definition piece (w : nat) (packet : list byte) (i : nat) : list byte := take w (drop (i * w) packet).
Lemma take_min {A} w (l : list A) : take (min (length l) w) l = take w l.
Proof. destruct (Nat.le_ge_cases w (length l)); [by rewrite Nat.min_r|]. rewrite Nat.min_l by done. by rewrite !take_ge. Qed.
Lemma map_nth_seq {A} (d : A) l : map (λ i, nth i l d) (seq 0 (length l)) = l.
Proof.
  apply list_eq. intros i. rewrite list_lookup_fmap. destruct (decide (i < length l)) as [Hi|Hi].
  - rewrite (proj2 (lookup_seq 0 (length l) i i) ltac:(lia)). cbn. destruct (lookup_lt_is_Some_2 l i Hi) as [x Hx]. rewrite Hx. f_equal. by apply nth_lookup_Some.
  - rewrite !lookup_ge_None_2 by (rewrite ?length_seq; lia). done.
Qed.
Lemma pieces_concat w packet c j :
  length packet ≤ (j + c) * w → concat (map (piece w packet) (seq j c)) = drop (j * w) packet.
Proof.
  revert j. induction c as [|c IH]; intros j Hl; [cbn; symmetry; apply drop_ge; lia|].
  cbn [seq map concat]. rewrite IH by lia. unfold piece. replace (S j * w) with (j * w + w) by lia. rewrite <-drop_drop. apply take_drop.
Qed.
Definition parts_count (l w : nat) : nat := (l + (w - 1)) / w.
Lemma parts_count_bounds l w : 0 < w → l ≤ parts_count l w * w ∧ (0 < l → 0 < parts_count l w) ∧ (0 < l → (parts_count l w - 1) * w < l).
Proof.
  intros Hw. unfold parts_count. pose proof (Nat.div_mod (l + (w - 1)) w ltac:(lia)) as E.
  pose proof (Nat.mod_upper_bound (l + (w - 1)) w ltac:(lia)). set (d := (l + (w - 1)) / w) in *. split_and!; [nia| |intros; nia].
  intros Hl. destruct (decide (d = 0)) as [E0|]; [|lia]. rewrite E0 in E. lia.
Qed.
Lemma ceil_div_count l w : 0 < w → count_of_size (Z.of_nat l) (Z.of_nat w) = Val (Z.of_nat (parts_count l w)).
Proof.
  intros Hw. unfold count_of_size, ceil_div, parts_count. rewrite (proj2 (Z.eqb_neq _ _)) by lia. f_equal.
  rewrite Z.rem_mod_nonneg, Z.quot_div_nonneg by lia. rewrite Nat2Z.inj_div, Nat2Z.inj_add, Nat2Z.inj_sub by lia.
  pose proof (Z.div_mod (Z.of_nat l) (Z.of_nat w) ltac:(lia)) as E. pose proof (Z.mod_pos_bound (Z.of_nat l) (Z.of_nat w) ltac:(lia)) as Hb.
  destruct (Z.eqb_spec (Z.of_nat l mod Z.of_nat w) 0) as [E0|E0].
  - symmetry. symmetry. apply Z.div_unique with (Z.of_nat w - 1)%Z; lia.
  - apply Z.div_unique with (Z.of_nat l mod Z.of_nat w - 1)%Z; lia.
Qed.

(** Headers. *)
Definition content_header (packet : list byte) : list byte :=
  headerPrefix ++ ShakeSum128 (16 - length headerPrefix) packet ++ [Byte.x00; Byte.x00].
Lemma content_header_length packet : length (content_header packet) = HeaderSize.
Proof. unfold content_header, HeaderSize. rewrite !length_app, shake_length. simpl. lia. Qed.
Lemma content_header_ok packet : newHeaderWithContentAddress ShakeSum128 headerPrefix packet = Val (content_header packet).
Proof. unfold newHeaderWithContentAddress, make_header. by rewrite (proj2 (Nat.ltb_ge _ _)). Qed.
Definition part_key (c : nat) (packet : list byte) : list byte := take 17 (set_count (Z.of_nat c) (content_header packet)).
Definition part_header (c : nat) (packet : list byte) (i : nat) : list byte := set_index i (set_count (Z.of_nat c) (content_header packet)).
Lemma part_header_length c packet i : length (part_header c packet i) = HeaderSize.
Proof. unfold part_header, set_index, set_count. rewrite !length_insert. apply content_header_length. Qed.
Lemma part_header_key c packet i : take 17 (part_header c packet i) = part_key c packet.
Proof. unfold part_header, part_key, set_index. by rewrite take_insert_ge. Qed.
Lemma byte_of_nat_val i : i < 256 → Z.to_nat (byte_val (byte_of (Z.of_nat i))) = i.
Proof. intros Hi. rewrite byte_val_of. unfold u8. rewrite Z.mod_small by lia. apply Nat2Z.id. Qed.
Lemma part_header_index c packet i : i < 256 → header_index (part_header c packet i) = i.
Proof.
  intros Hi. unfold header_index. rewrite nth_lookup. unfold part_header, set_index.
  rewrite list_lookup_insert_eq; [by apply byte_of_nat_val|]. unfold set_count. rewrite length_insert, content_header_length. unfold HeaderSize. lia.
Qed.
Lemma part_key_count c packet : c < 256 → header_count (part_key c packet) = c.
Proof.
  intros Hc. unfold part_key. rewrite header_count_key. unfold header_count. rewrite nth_lookup. unfold set_count.
  rewrite list_lookup_insert_eq; [by apply byte_of_nat_val|]. rewrite content_header_length. unfold HeaderSize. lia.
Qed.
Lemma part_header_count c packet i : c < 256 → header_count (part_header c packet i) = c.
Proof. intros Hc. by rewrite <-header_count_key, part_header_key, part_key_count. Qed.
Lemma part_header_prefix c packet i : take (length headerPrefix) (part_header c packet i) = headerPrefix.
Proof.
  unfold part_header, set_index, set_count. rewrite !take_insert_ge by lia. unfold content_header. apply take_app_length.
Qed.

(** *** Of a client *)
Lemma client_parts_ok header packet tld w : tlds_ok tlds → tld ∈ tlds → 6 ≤ length tld → w + length tld = 139 →
  length header = HeaderSize → ∀ k i id n, n = min (i * w) (length packet) → length packet ≤ (i + k) * w → is_u16 id →
  ∃ ms, client_parts k i header packet tld (λ _, WriteNext) id n = mkWritten (u16 (id + Z.of_nat k)) ms (Val tt) ∧ length ms = k ∧
    ∀ j m, ms !! j = Some m → ∃ id, decodeDnsRequest m tlds =
      Val (mkDecoded id zero_header (set_index (i + j) header) (piece w packet (i + j)) (Some tld) None false).
Proof.
  intros Hok Hin Ht Hw Hh. induction k as [|k IH]; intros i id n Hn Hl Hid; cbn [client_parts].
  { exists []. split_and!; [|done|done]. rewrite Z.add_0_r, u16_small by done. rewrite (proj2 (Nat.eqb_eq _ _)) by lia. done. }
  destruct (dns_request_roundtrip id (set_index i header) (drop n packet) tld tlds Hid) as (m & -> & Hm);
    [unfold set_index; by rewrite length_insert|done|done|lia|].
  replace (139 - length tld) with w in * by lia.
  destruct (IH (S i) (u16 (id + 1)) (n + min (length (drop n packet)) w)) as (ms & -> & Hlen & Hms); [rewrite length_drop; lia|lia|apply u16_range|].
  cbn [w_id w_messages w_result]. exists (m :: ms). split_and!.
  - f_equal. unfold u16. rewrite Zplus_mod_idemp_l. f_equal. lia.
  - cbn. by rewrite Hlen.
  - intros [|j] x Hx.
    + injection Hx as <-. exists id. rewrite Hm, Nat.add_0_r. rewrite take_min. do 3 f_equal. unfold piece. subst n.
      destruct (decide (i * w ≤ length packet)); [by rewrite Nat.min_l|]. rewrite Nat.min_r by lia. by rewrite !drop_ge by lia.
    + destruct (Hms j x Hx) as [id' E]. exists id'. by rewrite <-Nat.add_succ_comm.
Qed.
(** A server reads these parts. *)
Lemma server_read_part (addr : Addr) m id header data tld :
  decodeDnsRequest m tlds = Val (mkDecoded id zero_header header data (Some tld) None false) →
  take (length headerPrefix) header = headerPrefix → header_count header ≠ 0 →
  ∃ pump, server_read settings headerPrefix addr m = Val (mkRead pump (Some (header, data))).
Proof.
  intros Hd Hp Hc. unfold server_read. fold tlds. rewrite Hd. cbn [obind d_otherData d_header].
  assert ((0 <? length headerPrefix) && (18 <? length headerPrefix) = false) as -> by (rewrite (proj2 (Nat.ltb_ge 18 _)) by lia; apply andb_false_r).
  rewrite Hp, bool_decide_eq_true_2, andb_false_r by done. eexists. unfold part_of. cbn [d_header d_out d_id d_tld].
  by rewrite (proj2 (Nat.eqb_neq _ _)).
Qed.

(** The requests of a packet, as the server reads them. *)
Lemma client_write_ok packet tld id :
  tlds_ok tlds → tld ∈ tlds → 6 ≤ length tld < 139 → 0 < length packet ≤ 255 * (139 - length tld) → is_u16 id →
  let w := client_writeOne ShakeSum128 headerPrefix packet tld (λ _, WriteNext) id in
  let key := part_key (length (w_messages w)) packet in
  w_result w = Val tt ∧ w_messages w ≠ [] ∧
  ∃ f, parts_read (server_read (Addr := Addr) settings headerPrefix) key f (w_messages w) ∧ whole key f = packet.
Proof.
  intros Hok Hin Ht Hl Hid. set (wd := 139 - length tld). set (c := parts_count (length packet) wd).
  destruct (parts_count_bounds (length packet) wd) as (Hc1 & Hc2 & Hc3); [lia|]. fold c in Hc1, Hc2, Hc3.
  specialize (Hc3 ltac:(lia)). assert (c < 256) as Hc256 by nia. cbn zeta. unfold client_writeOne, encodeDnsRequestCount.
  replace (157 - 18 - Z.of_nat (length tld))%Z with (Z.of_nat wd) by lia. rewrite ceil_div_count by lia. fold c. cbn [obind].
  rewrite content_header_ok. cbn [obind]. rewrite Nat2Z.id.
  destruct (client_parts_ok (set_count (Z.of_nat c) (content_header packet)) packet tld wd Hok Hin ltac:(lia) ltac:(lia)
    ltac:(unfold set_count; by rewrite length_insert, content_header_length) c 0 id 0 ltac:(lia) ltac:(lia) Hid) as (ms & -> & Hlen & Hms).
  cbn [w_messages w_result]. rewrite Hlen. split_and!; [done|intros ->; simpl in Hlen; lia|].
  exists (piece wd packet). split.
  - split; [by rewrite part_key_count|]. intros i m addr Hi. assert (i < c) by (rewrite <-Hlen; by eapply lookup_lt_Some).
    destruct (Hms i m Hi) as [id' Hd]. rewrite Nat.add_0_l in Hd.
    destruct (server_read_part addr m id' _ _ tld Hd (part_header_prefix c packet i)) as [pump E].
    { change (header_count (part_header c packet i) ≠ 0). rewrite part_header_count by done. lia. }
    exists pump, (part_header c packet i). split_and!; [done|apply part_header_key|apply part_header_index; lia].
  - unfold whole. rewrite part_key_count by done. by rewrite pieces_concat by lia.
Qed.

(** C25. A packet that a client writes is cut into DNS requests; what a server
    puts together, when the network loses, repeats and reorders them and
    mixes them with other messages, is that packet and nothing else: it is
    delivered when all its requests arrive, and not more often than they do. *)
Theorem dns_requests_deliver_packet packet tld id t0 (ds : list (datagram (Addr := Addr))) :
  tlds_ok tlds → tld ∈ tlds → 6 ≤ length tld < 139 → 0 < length packet ≤ 255 * (139 - length tld) → is_u16 id →
  let w := client_writeOne ShakeSum128 headerPrefix packet tld (λ _, WriteNext) id in
  let key := part_key (length (w_messages w)) packet in
  w_result w = Val tt ∧
  (network_ok settings (server_read settings headerPrefix) key (w_messages w) t0 ds →
   ∃ q trace, read_run addrString settings (server_read settings headerPrefix) ds newCombineQueue = Val (q, trace) ∧
     (¬ refused key trace →
       (∀ p, p ∈ delivered key trace → p = packet) ∧
       ((∀ m, m ∈ w_messages w → ∃ d, d ∈ ds ∧ dg_data d = m) → packet ∈ delivered key trace) ∧
       length (w_messages w) * length (delivered key trace) ≤ length (filter (λ d, dg_data d ∈ w_messages w) ds))).
Proof.
  intros Hok Hin Ht Hl Hid. cbn zeta. destruct (client_write_ok packet tld id Hok Hin Ht Hl Hid) as (Hr & Hne & f & Hp & Hw).
  split; [done|]. intros Hnet. by eapply parts_delivered.
Qed.

(** *** Of a server *)
Definition item_good (item : pumpItem (Addr := Addr)) : Prop :=
  is_u16 (pi_id item) ∧ length (pi_header item) = HeaderSize ∧ ∃ tld, pi_tld item = Some tld ∧ tld ∈ tlds ∧ length tld ≤ 173.
Definition item_room (item : pumpItem (Addr := Addr)) : nat := 333 - length (default [] (pi_tld item)).
Lemma server_parts_ok header packet : tlds_ok tlds → length header = HeaderSize → ∀ items i n,
  Forall item_good items → n ≤ length packet → length packet ≤ n + sum_list_with item_room items →
  ∃ ms fs, server_parts items i header packet (λ _, WriteNext) n = (ms, Val tt) ∧ length ms = length items ∧ length fs = length items ∧
    concat fs = drop n packet ∧
    ∀ j m, ms !! j = Some m → ∃ id ph, decodeDnsResponse m tlds = Val (mkDecoded id ph (set_index (i + j) header) (nth j fs []) None None false).
Proof.
  intros Hok Hh. induction items as [|item items IH]; intros i n Hg Hn Hl; cbn [server_parts].
  { exists [], []. cbn in Hl. rewrite (proj2 (Nat.eqb_eq _ _)) by lia. split_and!; [done..| |done]. rewrite drop_ge by lia. done. }
  apply Forall_cons in Hg as [(Hid & Hph & tld & Ht & Hin & Htl) Hg]. cbn [sum_list_with] in Hl. unfold item_room at 1 in Hl. rewrite Ht in *.
  cbn [default from_option id] in *.
  destruct (dns_response_roundtrip (pi_id item) (pi_header item) (set_index i header) (drop n packet) tld tlds Hid Hph) as (m & -> & Hm);
    [unfold set_index; by rewrite length_insert|done|done|done|].
  rewrite length_drop in *. set (k := min (length packet - n) (333 - length tld)) in *.
  destruct (IH (S i) (n + k) Hg) as (ms & fs & -> & Hlm & Hlf & Hc & Hms); [lia|lia|].
  exists (m :: ms), (take k (drop n packet) :: fs). split_and!; [done|cbn; lia|cbn; lia| |].
  - cbn [concat]. by rewrite Hc, <-drop_drop, take_drop.
  - intros [|j] x Hx; [injection Hx as <-; exists (pi_id item), (pi_header item); by rewrite Nat.add_0_r|].
    destruct (Hms j x Hx) as (id' & ph & E). exists id', ph. by rewrite <-Nat.add_succ_comm.
Qed.
(** The items that responses are made with. *)
Lemma pq_take_store a mh q p mh' q' : pq_take a mh q = Val (p, mh', q') → pq_store (Addr := Addr) q' = pq_store q.
Proof.
  unfold pq_take. intros H. destruct (max_RemoveFirst (pq_store q) mh) as [[[x|] y]| |]; cbn [obind] in H; [|done..].
  destruct (hRemove _ _ _) as [[z h]| |]; cbn [obind] in H; [|done..]. by injection H as _ _ <-.
Qed.
Lemma pq_take_n_store n a : ∀ mh q ps q', pq_take_n n a mh q = Val (ps, q') → pq_store (Addr := Addr) q' = pq_store q.
Proof.
  induction n as [|n IH]; intros mh q ps q' H; cbn [pq_take_n] in H; [by injection H as _ <-|].
  destruct (pq_take a mh q) as [[[p mh'] q1]| |] eqn:E; cbn [obind] in H; [|done..].
  destruct (pq_take_n n a mh' q1) as [[ps' q2]| |] eqn:E2; cbn [obind] in H; [|done..]. injection H as _ <-.
  rewrite (IH _ _ _ _ E2). by eapply pq_take_store.
Qed.
Definition items_good (m : gmap ptr (pumpItem (Addr := Addr))) : Prop := ∀ p item, m !! p = Some item → item_good item.
Lemma items_good_delete p m : items_good m → items_good (delete p m).
Proof. intros Hg p' item [_ H]%lookup_delete_Some. by eapply Hg. Qed.
Lemma take_items_ok k addr : ∀ q m, pq_ok addrString q m → items_good m →
  ∃ items q' m', take_items addrString k addr q = Val (items, q') ∧ pq_ok addrString q' m' ∧ items_good m' ∧
    length items ≤ k ∧ Forall item_good items.
Proof.
  induction k as [|k IH]; intros q m Hq Hg; cbn [take_items]; [by exists [], q, m|].
  unfold RemoveLast. destruct (pq_addrMaxHeap q !! addrString addr) as [mh|] eqn:E; cbn [obind].
  2:{ exists [], q, m. split_and!; [done..|cbn; lia|constructor]. }
  destruct (pq_take_ok addrString q m _ mh Hq E) as (p & mh' & q' & Et & (item & Hi & _) & Hq' & _). rewrite Et. cbn [obind mbind option_bind].
  rewrite (pq_take_store _ _ _ _ _ _ Et). apply of_addr_lookup in Hi as [Hi _]. rewrite (pqo_store addrString q m Hq p item Hi).
  destruct (IH q' (delete p m) Hq' (items_good_delete p m Hg)) as (items & q2 & m2 & -> & Hq2 & Hg2 & Hl & Hf). cbn [obind].
  exists (item :: items), q2, m2. split_and!; [done..|cbn; lia|]. constructor; [by eapply Hg|done].
Qed.
Lemma newest_n_items a ps : ∀ m m', newest_n addrString a m ps m' → items_good m →
  (∀ p, p ∈ ps → is_Some (m !! p)) ∧ items_good m'.
Proof.
  induction ps as [|p ps IH]; intros m m' Hn Hg; cbn in Hn; [subst; split; [|done]; intros p H; by apply not_elem_of_nil in H|].
  destruct Hn as [(item & Hi & _) Hn]. apply of_addr_lookup in Hi as [Hi _].
  destruct (IH _ _ Hn (items_good_delete p m Hg)) as [H1 H2]. split; [|done].
  intros p' [-> |Hp']%elem_of_cons; [by eexists|]. apply H1 in Hp'. by apply lookup_delete_is_Some in Hp' as [_ ?].
Qed.
Lemma omap_items q m ps : pq_ok addrString q m → items_good m → (∀ p, p ∈ ps → is_Some (m !! p)) →
  length (omap (λ p, pq_store q !! p) ps) = length ps ∧ Forall item_good (omap (λ p, pq_store q !! p) ps).
Proof.
  intros Hq Hg. induction ps as [|p ps IH]; intros Hps; [done|].
  destruct (Hps p ltac:(apply list_elem_of_here)) as [item Hi]. destruct IH as [H1 H2]; [intros; apply Hps; by apply list_elem_of_further|].
  cbn. rewrite (pqo_store addrString q m Hq p item Hi). cbn. split; [by rewrite H1|]. constructor; [by eapply Hg|done].
Qed.
Lemma fresh_items_ok rand ts : (∀ k n, length (rand k n) = n) → (∀ k, ts k ∈ tlds ∧ length (ts k) ≤ 173) → ∀ k id,
  is_u16 id → ∃ id' items, fresh_items headerPrefix k rand ts id = Val (id', items) ∧ is_u16 id' ∧ length items = k ∧ Forall item_good items.
Proof.
  intros Hr Ht. induction k as [|k IH]; intros id Hid; cbn [fresh_items]; [by exists id, []|].
  unfold newHeader, make_header. rewrite (proj2 (Nat.ltb_ge _ _)) by done. cbn [obind].
  destruct (IH (u16 (id + 1)) (u16_range _)) as (id' & items & -> & Hid' & Hl & Hf). cbn [obind]. eexists _, _. split; [done|].
  split_and!; [done|cbn; by rewrite Hl|]. constructor; [|done]. split_and!; cbn; [done| |].
  - rewrite !length_app, Hr. cbn. unfold HeaderSize. lia.
  - exists (ts k). destruct (Ht k). by split_and!.
Qed.
Lemma pump_items_ok require c addr rand ts id q m :
  (∀ k n, length (rand k n) = n) → (∀ k, ts k ∈ tlds ∧ length (ts k) ≤ 173) → is_u16 id →
  pq_ok addrString q m → items_good m →
  ∃ r id' q' m', pump_items addrString headerPrefix require (Z.of_nat c) addr rand ts id q = Val (r, id', q') ∧
    is_u16 id' ∧ pq_ok addrString q' m' ∧ items_good m' ∧
    match r with None => require = true | Some items => length items = c ∧ Forall item_good items end.
Proof.
  intros Hr Ht Hid Hq Hg. unfold pump_items. rewrite (proj2 (Z.ltb_ge _ _)) by lia. cbn [andb]. rewrite Nat2Z.id. destruct require.
  - unfold RemoveLastN. destruct (pq_addrMaxHeap q !! addrString addr) as [mh|] eqn:E; cbn [obind]; [|by exists None, id, q, m].
    destruct (Nat.ltb_spec (hLen mh) c); cbn [obind]; [by exists None, id, q, m|].
    destruct (pq_take_n_ok addrString c q m (addrString addr) mh Hq (λ _, E)) as (ps & q' & m' & Et & Hl & Hn & Hq'); [done|].
    rewrite Et. cbn [obind]. destruct (newest_n_items _ _ _ _ Hn Hg) as [Hps Hg']. eexists (Some _), id, q', m'. split; [done|].
    rewrite (pq_take_n_store _ _ _ _ _ _ Et). destruct (omap_items q m ps Hq Hg Hps) as [H1 H2]. split_and!; [done..|by rewrite H1|done].
  - destruct (take_items_ok c addr q m Hq Hg) as (items & q' & m' & -> & Hq' & Hg' & Hl & Hf). cbn [obind].
    destruct (fresh_items_ok rand ts Hr Ht (c - length items) id Hid) as (id' & rest & -> & Hid' & Hlr & Hfr). cbn [obind].
    eexists (Some _), id', q', m'. split_and!; [done..| |by apply Forall_app]. rewrite length_app. lia.
Qed.
Definition op_good (op : pump_op (Addr := Addr)) : Prop := match op with PumpAdd _ item => item_good item | _ => True end.
Lemma newest_n_good a ps m m' : newest_n addrString a m ps m' → items_good m → items_good m'.
Proof. intros Hn Hg. by destruct (newest_n_items a ps m m' Hn Hg). Qed.
Lemma pump_spec_good op r m m' : pump_spec addrString settings m op r m' → op_good op → items_good m → items_good m'.
Proof.
  intros Hs Ho Hg. destruct Hs as [| now item p _ _| |addr p _| |addr n ps m' _ Hn|m0]; try done.
  - intros p' it [[<- <-]|[_ H]]%lookup_insert_Some; [done|by eapply Hg].
  - by apply items_good_delete.
  - by eapply newest_n_good.
  - intros p it [H _]%map_lookup_filter_Some. by eapply Hg.
Qed.
Lemma pump_specs_good ops : ∀ rs m m', pump_specs addrString settings m ops rs m' → Forall op_good ops → items_good m → items_good m'.
Proof.
  induction ops as [|op ops IH]; intros rs m m' Hs Ho Hg; inversion Hs; subst; [done|].
  apply Forall_cons in Ho as [Ho1 Ho]. eapply IH; [done..|]. by eapply pump_spec_good.
Qed.
Lemma longest_tld_spec t ts : ∃ l, longest_tld (t :: ts) = Val l ∧ l ∈ t :: ts ∧ ∀ x, x ∈ t :: ts → length x ≤ length l.
Proof.
  cbn [longest_tld]. eexists. split; [done|]. revert t. induction ts as [|u ts IH]; intros t; cbn [fold_left].
  - split; [apply list_elem_of_here|]. intros x [-> |H]%elem_of_cons; [done|by apply not_elem_of_nil in H].
  - destruct (IH (if length t <? length u then u else t)) as [H1 H2]. split.
    + apply elem_of_cons in H1 as [E|H1]; [|by do 2 apply list_elem_of_further]. rewrite E.
      destruct (length t <? length u); [apply list_elem_of_further, list_elem_of_here|apply list_elem_of_here].
    + intros x Hx. pose proof (H2 _ (list_elem_of_here _ _)) as Hm.
      apply elem_of_cons in Hx as [-> |[-> |Hx]%elem_of_cons]; [| |by apply H2, list_elem_of_further].
      all: destruct (Nat.ltb_spec (length t) (length u)); lia.
Qed.
Lemma items_room items w :
  Forall item_good items → (∀ t, t ∈ tlds → w + length t ≤ 333) → length items * w ≤ sum_list_with item_room items.
Proof.
  intros Hg Hw. induction Hg as [|item items (_ & _ & tld & Ht & Hin & _) Hg IH]; [done|]. cbn [length sum_list_with].
  unfold item_room at 1. rewrite Ht. cbn [default from_option id]. specialize (Hw tld Hin). lia.
Qed.

(** The responses of a packet, as the client reads them. *)
Lemma server_parts_read header c packet items ms fs :
  header = set_count (Z.of_nat c) (content_header packet) → c < 256 → length ms = c → length fs = c → concat fs = packet → ms ≠ [] →
  (∀ j m, ms !! j = Some m → ∃ id ph, decodeDnsResponse m tlds = Val (mkDecoded id ph (set_index j header) (nth j fs []) None None false)) →
  items = length ms →
  ∃ f, parts_read (Addr := Addr) (λ _, client_read settings) (part_key items packet) f ms ∧ whole (part_key items packet) f = packet.
Proof.
  intros -> Hc Hlm Hlf Hcat Hne Hms ->. rewrite Hlm. exists (λ i, nth i fs []). split; [split; [by rewrite part_key_count|]|].
  - intros i x a Hi. assert (i < c) by (rewrite <-Hlm; by eapply lookup_lt_Some).
    destruct (Hms i x Hi) as (id2 & ph & Hd). exists None, (part_header c packet i).
    split_and!; [|apply part_header_key|apply part_header_index; lia].
    unfold client_read. fold tlds. rewrite Hd. cbn [obind]. unfold part_of. cbn [d_header d_out].
    change (set_index i (set_count (Z.of_nat c) (content_header packet))) with (part_header c packet i).
    rewrite part_header_count by done. by rewrite (proj2 (Nat.eqb_neq _ _)) by lia.
  - unfold whole. rewrite part_key_count by done. rewrite <-Hlf, map_nth_seq. done.
Qed.
Lemma server_write_ok requirePump packet addr rand ts now id q m :
  pq_ok addrString q m → items_good m → tlds_ok tlds → tlds ≠ [] → (∀ t, t ∈ tlds → length t ≤ 173) →
  (∀ k n, length (rand k n) = n) → (∀ k, ts k ∈ tlds) → is_u16 id →
  0 < length packet → (∀ t, t ∈ tlds → length packet ≤ 255 * (333 - length t)) →
  ∃ id' q' ms, server_writeOne ShakeSum128 addrString settings headerPrefix now requirePump packet addr rand ts (λ _, WriteNext) id q =
    Val (id', q', ms, Val tt) ∧ (ms = [] → requirePump = true) ∧
    (ms ≠ [] → ∃ f, parts_read (Addr := Addr) (λ _, client_read settings) (part_key (length ms) packet) f ms ∧
       whole (part_key (length ms) packet) f = packet).
Proof.
  intros Hq Hg Hok Hne Ht Hr Hts Hid Hl0 Hl. unfold server_writeOne, pq_RemoveOlder.
  destruct (pq_remove_older_ok addrString (now - DnsStateTimeout settings) (S (hLen (pq_orderedItems q))) q m Hq ltac:(lia)) as (q1 & -> & Hq1).
  cbn [obind]. assert (items_good (filter (λ x, (now - DnsStateTimeout settings ≤ pi_updateTime x.2)%Z) m)) as Hg1.
  { intros p it [E _]%map_lookup_filter_Some. by eapply Hg. }
  fold tlds. destruct tlds as [|t0' ts0] eqn:Etl; [done|]. destruct (longest_tld_spec t0' ts0) as (L & -> & HLin & HL). cbn [obind]. rewrite <-Etl in *.
  set (w := 333 - length L). pose proof (Ht L HLin) as HLt. unfold encodeDnsResponseCount.
  replace (191 - 18 + 160 - Z.of_nat (length L))%Z with (Z.of_nat w) by lia. rewrite ceil_div_count by lia. cbn [obind].
  set (c := parts_count (length packet) w). destruct (parts_count_bounds (length packet) w) as (Hc1 & Hc2 & Hc3); [lia|]. fold c in Hc1, Hc2, Hc3.
  specialize (Hl L HLin). specialize (Hc3 Hl0). assert (c < 256) as Hc256 by nia.
  destruct (pump_items_ok requirePump c addr rand ts id q1 _ Hr (λ k, conj (Hts k) (Ht _ (Hts k))) Hid Hq1 Hg1) as (r & id' & q' & m' & -> & _ & _ & _ & Hitems).
  cbn [obind]. destruct r as [items|]; [|eexists _, _, []; by split_and!]. destruct Hitems as [Hlen Hgi].
  rewrite content_header_ok. cbn [obind].
  destruct (server_parts_ok (set_count (Z.of_nat c) (content_header packet)) packet Hok
    ltac:(unfold set_count; by rewrite length_insert, content_header_length) items 0 0 Hgi ltac:(lia)) as (ms & fs & -> & Hlm & Hlf & Hcat & Hms).
  { pose proof (items_room items w Hgi ltac:(intros t Hin; specialize (HL t Hin); unfold w; lia)). rewrite Hlen in *. lia. }
  eexists _, _, ms. split; [done|]. split; [intros ->; cbn in Hlm; lia|]. intros Hne'.
  by apply (server_parts_read _ c packet _ ms fs eq_refl Hc256); [congruence|congruence| | | |].
Qed.

(** C26. A packet that a server writes is cut into DNS responses, each made for
    a request of the pump queue or, when there may be none, for a random one;
    what a client puts together of them is that packet and nothing else, as
    above. Without enough requests, when they are required, nothing is sent. *)
Theorem dns_responses_deliver_packet ops rs q requirePump packet addr rand ts now id t0 (ds : list (datagram (Addr := Addr))) :
  (0 < DnsMaxPumpHostsPerAddress settings)%Z → pump_run addrString settings ops newPumpQueue = Val (rs, q) → Forall op_good ops →
  tlds_ok tlds → tlds ≠ [] → (∀ t, t ∈ tlds → length t ≤ 173) → (∀ k n, length (rand k n) = n) → (∀ k, ts k ∈ tlds) → is_u16 id →
  0 < length packet → (∀ t, t ∈ tlds → length packet ≤ 255 * (333 - length t)) →
  ∃ id' q' ms, server_writeOne ShakeSum128 addrString settings headerPrefix now requirePump packet addr rand ts (λ _, WriteNext) id q =
    Val (id', q', ms, Val tt) ∧ (ms = [] → requirePump = true) ∧
  let key := part_key (length ms) packet in
  (ms ≠ [] → network_ok settings (λ _, client_read settings) key ms t0 ds →
   ∃ cq trace, read_run addrString settings (λ _, client_read settings) ds newCombineQueue = Val (cq, trace) ∧
     (¬ refused key trace →
       (∀ p, p ∈ delivered key trace → p = packet) ∧
       ((∀ m, m ∈ ms → ∃ d, d ∈ ds ∧ dg_data d = m) → packet ∈ delivered key trace) ∧
       length ms * length (delivered key trace) ≤ length (filter (λ d, dg_data d ∈ ms) ds))).
Proof.
  intros Hmax Hrun Hops Hok Hne Ht Hr Hts Hid Hl0 Hl.
  destruct (pump_run_ok addrString settings ops Hmax _ _ (new_pump_ok addrString)) as (rs' & q0 & m & Er & Hs & Hq).
  rewrite Hrun in Er. injection Er as <- <-. assert (items_good m) as Hg by (eapply pump_specs_good; [exact Hs|done|]; intros p it E; done).
  destruct (server_write_ok requirePump packet addr rand ts now id q m Hq Hg Hok Hne Ht Hr Hts Hid Hl0 Hl) as (id' & q' & ms & E & Hr' & Hms).
  exists id', q', ms. split_and!; [done..|]. cbn zeta. intros Hne' Hnet. destruct (Hms Hne') as (f & Hp & Hw). by eapply parts_delivered.
Qed.
End Parts2.

(** ** A packet both ways *)
Module TranslationExample.
Import DnsExample.
Definition ex_settings : PacketTranslationSettings :=
  mkPacketTranslationSettings ex_tlds 10 5000 100 1000 50 1000 200 32.
Definition ex_shake (n : nat) (p : list byte) : list byte := replicate n (byte_of (Z.of_nat (length p))).
Lemma ex_shake_length n p : length (ex_shake n p) = n.
Proof. apply length_replicate. Qed.
Definition ex_addr (a : string) : string := a.
Definition ex_prefix : list byte := [Byte.x75; Byte.x72].
Definition ex_request : pt_written := client_writeOne ex_shake ex_prefix ex_packet ex_tld (λ _, WriteNext) 65535.
Definition ex_key (ms : list (list byte)) : list byte := part_key ex_shake ex_prefix (length ms) ex_packet.
(** The requests in the other order, the last one twice, and one that is not
    of the protocol. *)
Definition ex_datagrams (ms : list (list byte)) : list datagram :=
  map (mkDatagram 10 11 "a"%string) (rev ms ++ [Byte.x00] :: take 1 ms).
Definition ex_server_read : string → list byte → outcome read_message := server_read ex_settings ex_prefix.
Definition ex_client_read (a : string) : list byte → outcome (read_message (Addr := string)) := client_read ex_settings.
Lemma ex_prefix_length : length ex_prefix ≤ 16.
Proof. cbn. lia. Qed.
Lemma ex_network (read : string → list byte → outcome read_message) key ms rm :
  read "a"%string [Byte.x00] = Val rm → rm_part rm = None → network_ok ex_settings read key ms 11 (ex_datagrams ms).
Proof.
  intros Hr Hp d Hd. unfold ex_datagrams in Hd. apply list_elem_of_In, in_map_iff in Hd as (m & <- & Hm). cbn. split; [lia|].
  apply list_elem_of_In, elem_of_app in Hm as [Hm|[-> |Hm]%elem_of_cons].
  - left. split; [|lia]. by apply list_elem_of_In, in_rev, list_elem_of_In.
  - right. exists rm. split; [done|]. intros part E. congruence.
  - left. split; [|lia]. by eapply elem_of_take in Hm as (i & Hi & _); eapply list_elem_of_lookup_2.
Qed.
Lemma ex_tld_in : ex_tld ∈ ex_tlds.
Proof. apply list_elem_of_further, list_elem_of_here. Qed.
Lemma ex_tld_length : 6 ≤ length ex_tld < 139.
Proof. vm_compute. lia. Qed.
Lemma ex_packet_length : 0 < length ex_packet ≤ 255 * (139 - length ex_tld).
Proof. split; apply Nat.leb_le; vm_compute; reflexivity. Qed.
Lemma ex_reads_garbage : server_read ex_settings ex_prefix "a"%string [Byte.x00] = Val (mkRead None None).
Proof. vm_compute. reflexivity. Qed.
Lemma dns_requests_deliver_packet_witness :
  let w := client_writeOne ex_shake ex_prefix ex_packet ex_tld (λ _, WriteNext) 65535 in
  let key := part_key ex_shake ex_prefix (length (w_messages w)) ex_packet in
  let ds := ex_datagrams (w_messages w) in
  w_result w = Val tt ∧
  ∃ q trace, read_run ex_addr ex_settings (server_read ex_settings ex_prefix) ds newCombineQueue = Val (q, trace) ∧
    (¬ refused key trace →
      (∀ p, p ∈ delivered key trace → p = ex_packet) ∧
      ((∀ m, m ∈ w_messages w → ∃ d, d ∈ ds ∧ dg_data d = m) → ex_packet ∈ delivered key trace) ∧
      length (w_messages w) * length (delivered key trace) ≤ length (filter (λ d, dg_data d ∈ w_messages w) ds)).
Proof.
  intros w key ds.
  destruct (dns_requests_deliver_packet ex_shake ex_addr ex_settings ex_prefix ex_shake_length ex_prefix_length
    ex_packet ex_tld 65535 11 ds ex_tlds_ok ex_tld_in ex_tld_length ex_packet_length ltac:(unfold is_u16; lia)) as [Hr H].
  split; [exact Hr|]. apply H. exact (ex_network _ _ _ _ ex_reads_garbage eq_refl).
Defined.
(** The two requests are read in any order, and the packet comes out once. *)
Example requests_run :
  ∃ q trace, read_run ex_addr ex_settings ex_server_read (ex_datagrams (w_messages ex_request)) newCombineQueue = Val (q, trace) ∧
    delivered (ex_key (w_messages ex_request)) trace = [ex_packet].
Proof. eexists _, _. split; vm_compute; reflexivity. Qed.

Definition ex_pump : pumpItem := mkPumpItem (Some "a"%string) 9 ex_header (Some ex_tld) 0.
Definition ex_ops : list (pump_op (Addr := string)) := [PumpAdd 5 ex_pump; PumpAdd 6 ex_pump].
Definition ex_queue : list pump_result * pumpQueue :=
  match pump_run ex_addr ex_settings ex_ops newPumpQueue with Val x => x | _ => ([], newPumpQueue) end.
Definition ex_rand (k n : nat) : list byte := replicate n Byte.x05.
Definition ex_zones (k : nat) : list byte := ex_tld.
Definition ex_large : list byte := ex_packet ++ ex_packet ++ ex_packet.
Definition ex_response : outcome (Z * pumpQueue * list (list byte) * outcome unit) :=
  server_writeOne ex_shake ex_addr ex_settings ex_prefix 5 true ex_large "a"%string ex_rand ex_zones (λ _, WriteNext) 0 ex_queue.2.
Definition ex_messages : list (list byte) := match ex_response with Val (_, _, ms, _) => ms | _ => [] end.
Definition ex_large_key (ms : list (list byte)) : list byte := part_key ex_shake ex_prefix (length ms) ex_large.
Lemma ex_large_le t : t ∈ ex_tlds → length ex_large ≤ 255 * (333 - length t).
Proof. intros [-> |[-> |H]%elem_of_cons]%elem_of_cons; [apply Nat.leb_le; vm_compute; reflexivity..|]. by apply not_elem_of_nil in H. Qed.
Lemma ex_tlds_le t : t ∈ ex_tlds → length t ≤ 173.
Proof. intros [-> |[-> |H]%elem_of_cons]%elem_of_cons; [apply Nat.leb_le; vm_compute; reflexivity..|]. by apply not_elem_of_nil in H. Qed.
Lemma ex_ops_good : Forall (op_good ex_settings) ex_ops.
Proof.
  repeat apply Forall_cons_2; [..|constructor].
  all: split; [unfold is_u16; cbn; lia|]; split; [reflexivity|]; exists ex_tld; split_and!; [done|apply ex_tld_in|apply ex_tlds_le, ex_tld_in].
Qed.
Lemma ex_client_garbage : client_read (Addr := string) ex_settings [Byte.x00] = Val (mkRead None None).
Proof. vm_compute. reflexivity. Qed.
Lemma ex_messages_some : ex_messages ≠ [].
Proof. intros E. assert (length ex_messages = 2) as H by (vm_compute; reflexivity). by rewrite E in H. Qed.
Lemma ex_queue_run : pump_run ex_addr ex_settings ex_ops newPumpQueue = Val (ex_queue.1, ex_queue.2).
Proof. vm_compute. reflexivity. Qed.
Lemma ex_large_length : 0 < length ex_large.
Proof. apply Nat.ltb_lt. vm_compute. reflexivity. Qed.
Lemma ex_rand_length k n : length (ex_rand k n) = n.
Proof. apply length_replicate. Qed.
Lemma dns_responses_deliver_packet_witness :
  let ms := ex_messages in
  let ds := ex_datagrams ms in
  (∃ id' q', ex_response = Val (id', q', ms, Val tt)) ∧
  ∃ cq trace, read_run ex_addr ex_settings (λ _, client_read ex_settings) ds newCombineQueue = Val (cq, trace) ∧
     (¬ refused (ex_large_key ms) trace →
       (∀ p, p ∈ delivered (ex_large_key ms) trace → p = ex_large) ∧
       ((∀ m, m ∈ ms → ∃ d, d ∈ ds ∧ dg_data d = m) → ex_large ∈ delivered (ex_large_key ms) trace) ∧
       length ms * length (delivered (ex_large_key ms) trace) ≤ length (filter (λ d, dg_data d ∈ ms) ds)).
Proof.
  destruct (dns_responses_deliver_packet ex_shake ex_addr ex_settings ex_prefix ex_shake_length ex_prefix_length ex_ops ex_queue.1 ex_queue.2
    true ex_large "a"%string ex_rand ex_zones 5 0 11 (ex_datagrams ex_messages) eq_refl ex_queue_run ex_ops_good ex_tlds_ok
    ltac:(discriminate) ex_tlds_le ex_rand_length (λ _, ex_tld_in) ltac:(unfold is_u16; lia) ex_large_length ex_large_le)
    as (id' & q' & ms & E & _ & H).
  assert (ms = ex_messages) as -> by (unfold ex_messages, ex_response; rewrite E; reflexivity).
  split; [exists id', q'; exact E|]. apply H; [exact ex_messages_some|]. exact (ex_network _ _ _ _ ex_client_garbage eq_refl).
Defined.
Example responses_run :
  length ex_messages = 2 ∧
  ∃ q trace, read_run ex_addr ex_settings ex_client_read (ex_datagrams ex_messages) newCombineQueue = Val (q, trace) ∧
    delivered (ex_large_key ex_messages) trace = [ex_large].
Proof. split; [vm_compute; reflexivity|]. eexists _, _. split; vm_compute; reflexivity. Qed.

(** A message that is not DNS is a header of zeros for the pump queue, with no
    zone: a response that is made with it is not found by the client. *)
Example garbage_is_pumped :
  ex_server_read "a"%string [Byte.x00] = Val (mkRead None None) ∧
  server_read ex_settings [] "a"%string [Byte.x00] =
    Val (mkRead (Some (mkPumpItem (Some "a"%string) 0 zero_header None 0)) None) ∧
  match encodeDnsResponse 0 zero_header ex_header ex_packet [] with
  | Val (_, m) => ex_client_read "a"%string m = Val (mkRead None None)
  | _ => False
  end.
Proof. split_and!; vm_compute; reflexivity. Qed.
End TranslationExample.
