(* ===== verification/Ip.v ===== *)
(** * IP packets: ip.go, ip_packet.go, net_util.go and ip_security.go

    Paths of IP packets, the packets that the program makes, and the security
    policies. The decoding and serialization of the layers is gopacket's: a
    class of functions, with the law that what it serializes it decodes to the
    same layers. *)

From S2P Require Import Prelude.
Open Scope go_scope.

(** ** net.IP: four or sixteen bytes *)
Abbreviation IP := (list byte) (only parsing).
Definition b_ (l : list Z) : list byte := map byte_of l.
Definition v4InV6Prefix : IP := b_ [0; 0; 0; 0; 0; 0; 0; 0; 0; 0; 255; 255]%Z.
Definition To4 (ip : IP) : option IP :=
  if length ip =? 4 then Some ip
  else if (length ip =? 16) && bool_decide (take 12 ip = v4InV6Prefix) then Some (drop 12 ip)
  else None.
Definition To16 (ip : IP) : option IP :=
  if length ip =? 4 then Some (v4InV6Prefix ++ ip)
  else if length ip =? 16 then Some ip else None.
(** [ip.Equal(x)]: an IPv4 address and its IPv6 form are equal. *)
Definition IP_Equal (ip x : IP) : bool :=
  if length ip =? length x then bool_decide (ip = x)
  else if (length ip =? 4) && (length x =? 16) then bool_decide (take 12 x = v4InV6Prefix ∧ ip = drop 12 x)
  else if (length ip =? 16) && (length x =? 4) then bool_decide (take 12 ip = v4InV6Prefix ∧ drop 12 ip = x)
  else false.
Definition ipb (ip : IP) (i : nat) : Z := byte_val (nth i ip Byte.x00).
Definition IPv4zero : IP := b_ [0; 0; 0; 0]%Z.
Definition IPv6unspecified : IP := replicate 16 Byte.x00.
Definition IPv6loopback : IP := replicate 15 Byte.x00 ++ [Byte.x01].
Definition IsUnspecified (ip : IP) : bool := IP_Equal ip IPv4zero || IP_Equal ip IPv6unspecified.
Definition IsLoopback (ip : IP) : bool :=
  match To4 ip with Some ip4 => (ipb ip4 0 =? 127)%Z | None => IP_Equal ip IPv6loopback end.
Definition IsPrivate (ip : IP) : bool :=
  match To4 ip with
  | Some ip4 =>
      (ipb ip4 0 =? 10)%Z || ((ipb ip4 0 =? 172)%Z && (Z.land (ipb ip4 1) 240 =? 16)%Z) ||
      ((ipb ip4 0 =? 192)%Z && (ipb ip4 1 =? 168)%Z)
  | None => (length ip =? 16) && (Z.land (ipb ip 0) 254 =? 252)%Z
  end.
Definition IsMulticast (ip : IP) : bool :=
  match To4 ip with
  | Some ip4 => (Z.land (ipb ip4 0) 240 =? 224)%Z
  | None => (length ip =? 16) && (ipb ip 0 =? 255)%Z
  end.
Definition IsLinkLocalUnicast (ip : IP) : bool :=
  match To4 ip with
  | Some ip4 => (ipb ip4 0 =? 169)%Z && (ipb ip4 1 =? 254)%Z
  | None => (length ip =? 16) && (ipb ip 0 =? 254)%Z && (Z.land (ipb ip 1) 192 =? 128)%Z
  end.

(** ** Paths *)
Inductive IpProtocol := IpProtocolUnknown | IpProtocolTcp | IpProtocolUdp.
#[export] Instance IpProtocol_eq_dec : EqDecision IpProtocol.
Proof. solve_decision. Defined.
#[export] Instance IpProtocol_countable : Countable IpProtocol.
Proof.
  refine (inj_countable (λ p, match p with IpProtocolUnknown => 0 | IpProtocolTcp => 1 | IpProtocolUdp => 2 end)
    (λ n, match n with 0 => Some IpProtocolUnknown | 1 => Some IpProtocolTcp | _ => Some IpProtocolUdp end) _).
  by intros [].
Defined.

Record IpPath := mkIpPath {
  Version : Z;
  Protocol : IpProtocol;
  SourceIp : IP;
  SourcePort : Z;
  DestinationIp : IP;
  DestinationPort : Z;
  SequenceNumber : Z;
  Syn : bool;
  Rst : bool;
  Ack : bool
}.
#[export] Instance IpPath_eq_dec : EqDecision IpPath.
Proof. solve_decision. Defined.
(** A path without the TCP fields. *)
Definition flow_path (version : Z) (protocol : IpProtocol) (sourceIp : IP) (sourcePort : Z)
    (destinationIp : IP) (destinationPort : Z) : IpPath :=
  mkIpPath version protocol sourceIp sourcePort destinationIp destinationPort 0 false false false.

(** [Ip4Path] and [Ip6Path] differ in the width of the addresses. *)
Record IpNPath (n : nat) := mkIpNPath {
  p_Protocol : IpProtocol;
  p_SourceIp : vec byte n;
  p_SourcePort : Z;
  p_DestinationIp : vec byte n;
  p_DestinationPort : Z
}.
Arguments mkIpNPath {n}.
Arguments p_Protocol {n}.
Arguments p_SourceIp {n}.
Arguments p_SourcePort {n}.
Arguments p_DestinationIp {n}.
Arguments p_DestinationPort {n}.
#[export] Instance IpNPath_eq_dec n : EqDecision (IpNPath n).
Proof. solve_decision. Defined.
#[export] Program Instance IpNPath_countable n : Countable (IpNPath n) :=
  inj_countable'
    (λ p, (p_Protocol p, vec_to_list (p_SourceIp p), p_SourcePort p, vec_to_list (p_DestinationIp p), p_DestinationPort p))
    (λ '(a, s, sp, d, dp), mkIpNPath a (to_array n s) sp (to_array n d) dp) _.
Next Obligation. intros n []. simpl. by rewrite !to_array_vec. Qed.
Abbreviation Ip4Path := (IpNPath 4).
Abbreviation Ip6Path := (IpNPath 16).
Definition zero_array (n : nat) : vec byte n := to_array n [].
Definition array_or_zero (n : nat) (ip : option IP) : vec byte n :=
  match ip with Some ip => to_array n ip | None => zero_array n end.
Definition ToIp4Path (self : IpPath) : Ip4Path :=
  mkIpNPath (Protocol self) (array_or_zero 4 (To4 (SourceIp self))) (SourcePort self)
    (array_or_zero 4 (To4 (DestinationIp self))) (DestinationPort self).
Definition ToIp6Path (self : IpPath) : Ip6Path :=
  mkIpNPath (Protocol self) (array_or_zero 16 (To16 (SourceIp self))) (SourcePort self)
    (array_or_zero 16 (To16 (DestinationIp self))) (DestinationPort self).
Definition IpPath_Source (self : IpPath) : IpPath :=
  flow_path (Version self) (Protocol self) (SourceIp self) (SourcePort self) [] 0.
Definition IpPath_Destination (self : IpPath) : IpPath :=
  flow_path (Version self) (Protocol self) [] 0 (DestinationIp self) (DestinationPort self).
Definition IpPath_Reverse (self : IpPath) : IpPath :=
  flow_path (Version self) (Protocol self) (DestinationIp self) (DestinationPort self) (SourceIp self) (SourcePort self).
Definition IpNPath_Source {n} (self : IpNPath n) : IpNPath n :=
  mkIpNPath (p_Protocol self) (p_SourceIp self) (p_SourcePort self) (zero_array n) 0.
Definition IpNPath_Destination {n} (self : IpNPath n) : IpNPath n :=
  mkIpNPath (p_Protocol self) (zero_array n) 0 (p_DestinationIp self) (p_DestinationPort self).

(** ** Layers *)
Definition IPProtocolTCP : Z := 6.
Definition IPProtocolUDP : Z := 17.
Record IpLayer := mkIpLayer {
  ip_Version : Z;
  ip_TTL : Z;
  ip_SrcIP : IP;
  ip_DstIP : IP;
  ip_Protocol : Z
}.
Record UdpLayer := mkUdpLayer { udp_SrcPort : Z; udp_DstPort : Z }.
Definition TCPOptionKindWindowScale : Z := 3.
Record TcpLayer := mkTcpLayer {
  tcp_SrcPort : Z;
  tcp_DstPort : Z;
  tcp_Seq : Z;
  tcp_Ack : Z;
  tcp_FIN : bool;
  tcp_SYN : bool;
  tcp_RST : bool;
  tcp_ACK : bool;
  tcp_Window : Z;
  tcp_Options : list (Z * list byte)
}.

(** Decoded options can have the end of the list that pads them. *)
Definition set_options (opts : list (Z * list byte)) (tcp : TcpLayer) : TcpLayer :=
  mkTcpLayer (tcp_SrcPort tcp) (tcp_DstPort tcp) (tcp_Seq tcp) (tcp_Ack tcp) (tcp_FIN tcp) (tcp_SYN tcp)
    (tcp_RST tcp) (tcp_ACK tcp) (tcp_Window tcp) opts.
Lemma set_options_same tcp : set_options (tcp_Options tcp) tcp = tcp.
Proof. by destruct tcp. Qed.

(** [DecodeFromBytes], whose error the callers ignore, gives the fields that it
    had set, and the payload; [SerializeLayers] the bytes of a packet. *)
Class GoPacket := {
  decodeIPv4 : list byte → IpLayer * list byte;
  decodeIPv6 : list byte → IpLayer * list byte;
  decodeUDP : list byte → UdpLayer * list byte;
  decodeTCP : list byte → TcpLayer * list byte;
  serializeUDP : IpLayer → UdpLayer → list byte → outcome (list byte);
  serializeTCP : IpLayer → TcpLayer → list byte → outcome (list byte)
}.

Definition Ipv4HeaderSizeWithoutExtensions : Z := 20.
Definition Ipv6HeaderSize : Z := 40.
Definition UdpHeaderSize : Z := 8.
Definition TcpHeaderSizeWithoutExtensions : Z := 20.
Definition ip_header_size (version : Z) : Z :=
  if (version =? 4)%Z then Ipv4HeaderSizeWithoutExtensions
  else if (version =? 6)%Z then Ipv6HeaderSize else 0.

Definition ip_addr_len (version : Z) : nat := if (version =? 4)%Z then 4 else 16.
Record ip_layer_ok (ip : IpLayer) (protocol : Z) : Prop := {
  il_version : ip_Version ip = 4%Z ∨ ip_Version ip = 6%Z;
  il_src : length (ip_SrcIP ip) = ip_addr_len (ip_Version ip);
  il_dst : length (ip_DstIP ip) = ip_addr_len (ip_Version ip);
  il_ttl : is_u8 (ip_TTL ip);
  il_protocol : ip_Protocol ip = protocol
}.
Definition udp_layer_ok (udp : UdpLayer) : Prop := is_u16 (udp_SrcPort udp) ∧ is_u16 (udp_DstPort udp).
Definition tcp_layer_ok (tcp : TcpLayer) : Prop :=
  is_u16 (tcp_SrcPort tcp) ∧ is_u16 (tcp_DstPort tcp) ∧ is_u32 (tcp_Seq tcp) ∧ is_u32 (tcp_Ack tcp) ∧
  is_u16 (tcp_Window tcp) ∧
  (tcp_Options tcp = [] ∨ ∃ b, tcp_Options tcp = [(TCPOptionKindWindowScale, [b])]).
Definition decodeIP `{GoPacket} (version : Z) : list byte → IpLayer * list byte :=
  if (version =? 4)%Z then decodeIPv4 else decodeIPv6.
(** [uint8(ipPacket[0]) >> 4] *)
Definition packet_version (packet : list byte) : outcome Z :=
  match packet with
  | [] => Panic "index out of range"
  | b :: _ => Val (byte_val b ≫ 4)%Z
  end.

Class GoPacketLaws `(gp : GoPacket) := {
  udp_packet ip udp payload :
    ip_layer_ok ip IPProtocolUDP → udp_layer_ok udp → (Z.of_nat (length payload) < 65000)%Z →
    ∃ b l, serializeUDP ip udp payload = Val b ∧ packet_version b = Val (ip_Version ip) ∧
      Z.of_nat (length b) = (ip_header_size (ip_Version ip) + UdpHeaderSize + Z.of_nat (length payload))%Z ∧
      decodeIP (ip_Version ip) b = (ip, l) ∧ decodeUDP l = (udp, payload);
  tcp_packet ip tcp payload :
    ip_layer_ok ip IPProtocolTCP → tcp_layer_ok tcp → (Z.of_nat (length payload) < 65000)%Z →
    ∃ b l, serializeTCP ip tcp payload = Val b ∧ packet_version b = Val (ip_Version ip) ∧
      (tcp_Options tcp = [] →
       Z.of_nat (length b) = (ip_header_size (ip_Version ip) + TcpHeaderSizeWithoutExtensions + Z.of_nat (length payload))%Z) ∧
      decodeIP (ip_Version ip) b = (ip, l) ∧
      ∃ opts, decodeTCP l = (set_options opts tcp, payload) ∧ (tcp_Options tcp = [] → opts = [])
}.

(** ** Parsing a packet *)
Section Parse.
Context `{GoPacket}.
Definition parse_transport (version : Z) (ip : IpLayer) (payload : list byte) : outcome (IpPath * list byte) :=
  if (ip_Protocol ip =? IPProtocolUDP)%Z then
    let '(udp, p) := decodeUDP payload in
    Val (flow_path version IpProtocolUdp (ip_SrcIP ip) (udp_SrcPort udp) (ip_DstIP ip) (udp_DstPort udp), p)
  else if (ip_Protocol ip =? IPProtocolTCP)%Z then
    let '(tcp, p) := decodeTCP payload in
    Val (mkIpPath version IpProtocolTcp (ip_SrcIP ip) (tcp_SrcPort tcp) (ip_DstIP ip) (tcp_DstPort tcp)
           (tcp_Seq tcp) (tcp_SYN tcp) (tcp_RST tcp) (tcp_ACK tcp), p)
  else Err "No support for protocol".
Definition ParseIpPathWithPayload (ipPacket : list byte) : outcome (IpPath * list byte) :=
  let! ipVersion := packet_version ipPacket in
  if (ipVersion =? 4)%Z then
    let '(ip, payload) := decodeIPv4 ipPacket in parse_transport ipVersion ip payload
  else if (ipVersion =? 6)%Z then
    let '(ip, payload) := decodeIPv6 ipPacket in parse_transport ipVersion ip payload
  else Err "No support for ip version".
Definition ParseIpPath (ipPacket : list byte) : outcome IpPath :=
  let! (ipPath, _) := ParseIpPathWithPayload ipPacket in Val ipPath.

(** ** Packets out of a flow: ip_packet.go *)
Definition or_nil (ip : option IP) : IP := default [] ip.
Definition oos_ip (ipPath : IpPath) (protocol : Z) : IpLayer :=
  if (Version ipPath =? 4)%Z
  then mkIpLayer 4 64 (or_nil (To4 (SourceIp ipPath))) (or_nil (To4 (DestinationIp ipPath))) protocol
  else mkIpLayer 6 64 (or_nil (To16 (SourceIp ipPath))) (or_nil (To16 (DestinationIp ipPath))) protocol.
(** [if err != nil { panic(err) }] *)
Definition must {A} (o : outcome A) : outcome A :=
  match o with Err e => Panic e | o => o end.
Definition oos_tcp (ipPath : IpPath) (rst : bool) : TcpLayer :=
  mkTcpLayer (u16 (SourcePort ipPath)) (u16 (DestinationPort ipPath)) 0 0 false false rst false 4096 [].
Definition oos_udp (ipPath : IpPath) : UdpLayer :=
  mkUdpLayer (u16 (SourcePort ipPath)) (u16 (DestinationPort ipPath)).
Definition ipOosUdpPacket (ipPath : IpPath) (payload : list byte) : outcome (list byte) :=
  must (serializeUDP (oos_ip ipPath IPProtocolUDP) (oos_udp ipPath) payload).
Definition ipOosTcpPacket (ipPath : IpPath) (payload : list byte) : outcome (list byte) :=
  must (serializeTCP (oos_ip ipPath IPProtocolTCP) (oos_tcp ipPath false) payload).
Definition ipOosPacket (ipPath : IpPath) (payload : list byte) : outcome (list byte) :=
  if (Version ipPath =? 4)%Z || (Version ipPath =? 6)%Z then
    match Protocol ipPath with
    | IpProtocolUdp => ipOosUdpPacket ipPath payload
    | IpProtocolTcp => ipOosTcpPacket ipPath payload
    | IpProtocolUnknown => Panic "Bad ip protocol"
    end
  else Panic "Bad ip version".
Definition ipOosTcpRst (ipPath : IpPath) : outcome (list byte) :=
  must (serializeTCP (oos_ip ipPath IPProtocolTCP) (oos_tcp ipPath true) []).
(** The packet, and whether there is one. *)
Definition ipOosRst (ipPath : IpPath) : outcome (option (list byte)) :=
  match Protocol ipPath with
  | IpProtocolTcp =>
      if (Version ipPath =? 4)%Z || (Version ipPath =? 6)%Z
      then let! b := ipOosTcpRst ipPath in Val (Some b) else Val None
  | _ => Val None
  end.
End Parse.

(** ** The addresses of a network: net_util.go *)
(** [ip[j] += 1] with the overflow propagated up; the bytes from the lowest. *)
Fixpoint incr_bytes (l : list byte) : list byte :=
  match l with
  | [] => []
  | b :: l =>
      let b' := byte_of (byte_val b + 1) in
      if bool_decide (byte_val b' = 0%Z) then b' :: incr_bytes l else b' :: l
  end.
Definition incr_ip (ip : IP) : IP := reverse (incr_bytes (reverse ip)).
Fixpoint addrs_from (n : nat) (ip : IP) : list IP :=
  match n with
  | 0 => []
  | S n => let ip := incr_ip ip in ip :: addrs_from n ip
  end.
(** [0x01 << bits] of an [int] *)
Definition net_count (bits : Z) : Z := i64 (1 ≪ bits).
(** [net.IP.Mask] with a mask of [ones] bits. *)
Definition mask_byte (ones : Z) (b : byte) : byte :=
  byte_of (Z.land (byte_val b) (255 - (2 ^ (8 - Z.max 0 (Z.min 8 ones)) - 1)))%Z.
Fixpoint mask_ip (ones : Z) (ip : IP) : IP :=
  match ip with [] => [] | b :: ip => mask_byte ones b :: mask_ip (ones - 8) ip end.
Definition IpsInNet (ip : IP) (ones : Z) : list IP :=
  let ip := mask_ip ones ip in
  addrs_from (Z.to_nat (net_count (8 * Z.of_nat (length ip) - ones))) ip.
Definition AddrsInPrefix (addr : IP) (bits : Z) : list IP :=
  let ip := mask_ip bits addr in
  addrs_from (Z.to_nat (net_count (8 * Z.of_nat (length ip) - bits))) ip.

(** ** A codec that satisfies the laws: the headers with no checksums *)
Module IpExample.
Fixpoint be_bytes (n : nat) (z : Z) : list byte :=
  match n with 0 => [] | S n => byte_of (z ≫ (8 * Z.of_nat n)) :: be_bytes n z end.
Definition de_bytes (l : list byte) : Z := fold_left (λ a b, a * 256 + byte_val b)%Z l 0%Z.
Lemma be_bytes_length n z : length (be_bytes n z) = n.
Proof. induction n; simpl; by f_equal. Qed.
Lemma de_be_acc n z a :
  fold_left (λ a b, a * 256 + byte_val b)%Z (be_bytes n z) a = (a * 256 ^ Z.of_nat n + z `mod` 256 ^ Z.of_nat n)%Z.
Proof.
  revert a. induction n as [|n IH]; intros a; cbn [be_bytes fold_left].
  - rewrite Z.mod_1_r. simpl. lia.
  - rewrite IH, byte_val_of. unfold u8. rewrite Z.shiftr_div_pow2 by lia.
    assert (0 < 256 ^ Z.of_nat n)%Z as Hp by (apply Z.pow_pos_nonneg; lia).
    replace (2 ^ (8 * Z.of_nat n))%Z with (256 ^ Z.of_nat n)%Z by (rewrite Z.pow_mul_r by lia; done).
    replace (256 ^ Z.of_nat (S n))%Z with (256 ^ Z.of_nat n * 256)%Z
      by (rewrite Nat2Z.inj_succ, Z.pow_succ_r by lia; lia).
    rewrite Z.rem_mul_r by lia. change (2 ^ 8)%Z with 256%Z. lia.
Qed.
Lemma de_be n z : (0 ≤ z < 256 ^ Z.of_nat n)%Z → de_bytes (be_bytes n z) = z.
Proof. intros H. unfold de_bytes. rewrite de_be_acc, Z.mod_small by done. lia. Qed.
Definition sub (i n : nat) (b : list byte) : list byte := take n (drop i b).

Definition ser_ip (ip : IpLayer) (payload : list byte) : list byte :=
  if (ip_Version ip =? 4)%Z then
    [byte_of 69; Byte.x00] ++ be_bytes 2 (20 + Z.of_nat (length payload)) ++ be_bytes 4 0 ++
    [byte_of (ip_TTL ip); byte_of (ip_Protocol ip); Byte.x00; Byte.x00] ++ ip_SrcIP ip ++ ip_DstIP ip ++ payload
  else
    [byte_of 96; Byte.x00; Byte.x00; Byte.x00] ++ be_bytes 2 (Z.of_nat (length payload)) ++
    [byte_of (ip_Protocol ip); byte_of (ip_TTL ip)] ++ ip_SrcIP ip ++ ip_DstIP ip ++ payload.
Definition de_ip4 (b : list byte) : IpLayer * list byte :=
  (mkIpLayer 4 (de_bytes (sub 8 1 b)) (sub 12 4 b) (sub 16 4 b) (de_bytes (sub 9 1 b)), drop 20 b).
Definition de_ip6 (b : list byte) : IpLayer * list byte :=
  (mkIpLayer 6 (de_bytes (sub 7 1 b)) (sub 8 16 b) (sub 24 16 b) (de_bytes (sub 6 1 b)), drop 40 b).
Definition ser_udp (udp : UdpLayer) (payload : list byte) : list byte :=
  be_bytes 2 (udp_SrcPort udp) ++ be_bytes 2 (udp_DstPort udp) ++ be_bytes 2 (8 + Z.of_nat (length payload)) ++
  be_bytes 2 0 ++ payload.
Definition de_udp (b : list byte) : UdpLayer * list byte :=
  (mkUdpLayer (de_bytes (sub 0 2 b)) (de_bytes (sub 2 2 b)), drop 8 b).
Definition flag_byte (tcp : TcpLayer) : Z :=
  (Z.b2z (tcp_FIN tcp) + 2 * Z.b2z (tcp_SYN tcp) + 4 * Z.b2z (tcp_RST tcp) + 16 * Z.b2z (tcp_ACK tcp))%Z.
Definition ser_opts (opts : list (Z * list byte)) : list byte :=
  match opts with (_, [b]) :: _ => [Byte.x03; Byte.x03; b; Byte.x00] | _ => [] end.
Definition ser_tcp (tcp : TcpLayer) (payload : list byte) : list byte :=
  let opts := ser_opts (tcp_Options tcp) in
  be_bytes 2 (tcp_SrcPort tcp) ++ be_bytes 2 (tcp_DstPort tcp) ++ be_bytes 4 (tcp_Seq tcp) ++
  be_bytes 4 (tcp_Ack tcp) ++ [byte_of ((5 + Z.of_nat (length opts) / 4) * 16); byte_of (flag_byte tcp)] ++
  be_bytes 2 (tcp_Window tcp) ++ be_bytes 4 0 ++ opts ++ payload.
Definition de_tcp (b : list byte) : TcpLayer * list byte :=
  let off := (de_bytes (sub 12 1 b) / 16)%Z in let f := de_bytes (sub 13 1 b) in
  (mkTcpLayer (de_bytes (sub 0 2 b)) (de_bytes (sub 2 2 b)) (de_bytes (sub 4 4 b)) (de_bytes (sub 8 4 b))
     (Z.testbit f 0) (Z.testbit f 1) (Z.testbit f 2) (Z.testbit f 4) (de_bytes (sub 14 2 b))
     (if (off =? 6)%Z then [(TCPOptionKindWindowScale, sub 22 1 b)] else []),
   drop (Z.to_nat (4 * off)) b).
#[export] Instance ex_gopacket : GoPacket := {
  decodeIPv4 := de_ip4; decodeIPv6 := de_ip6; decodeUDP := de_udp; decodeTCP := de_tcp;
  serializeUDP ip udp payload := Val (ser_ip ip (ser_udp udp payload));
  serializeTCP ip tcp payload := Val (ser_ip ip (ser_tcp tcp payload))
}.

Lemma de_byte z : is_u8 z → de_bytes [byte_of z] = z.
Proof. intros H. unfold de_bytes. cbn [fold_left]. rewrite byte_val_of. unfold u8. by rewrite Z.mod_small. Qed.
Lemma two_addrs n (src dst l : list byte) :
  length src = n → length dst = n →
  take n (src ++ dst ++ l) = src ∧ take n (drop n (src ++ dst ++ l)) = dst ∧ drop (n + n) (src ++ dst ++ l) = l.
Proof.
  intros Hs Hd. rewrite <-drop_drop. rewrite (drop_app_length' src) by done.
  rewrite (drop_app_length' dst) by done. by rewrite !take_app_length' by done.
Qed.
Lemma ser_ip_ok ip proto l :
  ip_layer_ok ip proto → is_u8 proto →
  packet_version (ser_ip ip l) = Val (ip_Version ip) ∧
  Z.of_nat (length (ser_ip ip l)) = (ip_header_size (ip_Version ip) + Z.of_nat (length l))%Z ∧
  decodeIP (ip_Version ip) (ser_ip ip l) = (ip, l).
Proof.
  intros [Hv Hs Hd Ht Hp] Hpr. destruct ip as [v ttl src dst pr]. cbn [ip_Version ip_SrcIP ip_DstIP ip_TTL ip_Protocol] in *. subst pr.
  destruct Hv as [-> | ->]; unfold ip_addr_len in *; cbn [Z.eqb Pos.eqb] in *; unfold ser_ip, decodeIP, ip_header_size;
    cbn [ip_Version ip_SrcIP ip_DstIP ip_TTL ip_Protocol Z.eqb Pos.eqb]; (split; [done|]); split.
  - rewrite !length_app, !be_bytes_length, Hs, Hd. cbn [length]. unfold Ipv4HeaderSizeWithoutExtensions. lia.
  - cbn [decodeIPv4 ex_gopacket]. unfold de_ip4, sub. cbn [be_bytes app take drop].
    destruct (two_addrs 4 src dst l Hs Hd) as (E1 & E2 & E3). rewrite !de_byte by done.
    change (drop 0 ?x) with x. rewrite E1, E2. cbn [Nat.add] in E3. by rewrite E3.
  - rewrite !length_app, !be_bytes_length, Hs, Hd. cbn [length]. unfold Ipv6HeaderSize. lia.
  - cbn [decodeIPv6 ex_gopacket]. unfold de_ip6, sub. cbn [be_bytes app take drop].
    destruct (two_addrs 16 src dst l Hs Hd) as (E1 & E2 & E3). rewrite !de_byte by done.
    change (drop 0 ?x) with x. rewrite E1, E2. cbn [Nat.add] in E3. by rewrite E3.
Qed.
Lemma sub_skip m z i n b : m ≤ i → sub i n (be_bytes m z ++ b) = sub (i - m) n b.
Proof.
  intros Hm. unfold sub. rewrite drop_app, be_bytes_length. by rewrite drop_ge by (rewrite be_bytes_length; lia).
Qed.
Lemma sub_here n z b : (0 ≤ z < 256 ^ Z.of_nat n)%Z → de_bytes (sub 0 n (be_bytes n z ++ b)) = z.
Proof. intros Hz. unfold sub. rewrite drop_0, take_app_length' by (symmetry; apply be_bytes_length). by apply de_be. Qed.
Lemma drop_be m z i b : m ≤ i → drop i (be_bytes m z ++ b) = drop (i - m) b.
Proof. intros Hm. rewrite drop_app, be_bytes_length. by rewrite drop_ge by (rewrite be_bytes_length; lia). Qed.
Ltac skip_be :=
  repeat match goal with
  | |- context [sub ?i ?n (be_bytes ?m ?z ++ ?b)] => rewrite (sub_skip m z i n b) by lia; cbn [Nat.sub]
  end;
  rewrite ?sub_here by assumption.
#[export] Instance ex_gopacket_laws : GoPacketLaws ex_gopacket.
Proof.
  split.
  - intros ip udp payload Hip [Hu1 Hu2] Hl.
    destruct (ser_ip_ok ip _ (ser_udp udp payload) Hip) as (H1 & H2 & H3); [by vm_compute|].
    eexists _, _. split; [done|]. split; [exact H1|]. split; [|split; [exact H3|]].
    + rewrite H2. unfold ser_udp. rewrite !length_app, !be_bytes_length. unfold UdpHeaderSize. lia.
    + cbn [decodeUDP ex_gopacket]. unfold de_udp, ser_udp. destruct udp as [s d]. cbn [udp_SrcPort udp_DstPort] in *.
      skip_be. done.
  - intros ip tcp payload Hip (Ht1 & Ht2 & Ht3 & Ht4 & Ht5 & Ho) Hl.
    destruct (ser_ip_ok ip _ (ser_tcp tcp payload) Hip) as (H1 & H2 & H3); [by vm_compute|].
    eexists _, _. split; [done|]. split; [exact H1|]. split; [|split; [exact H3|]].
    + intros Hn. rewrite H2. unfold ser_tcp. rewrite Hn. rewrite !length_app, !be_bytes_length. cbn [length ser_opts].
      unfold TcpHeaderSizeWithoutExtensions. lia.
    + exists (tcp_Options tcp). split; [|done]. rewrite set_options_same.
      cbn [decodeTCP ex_gopacket]. unfold de_tcp, ser_tcp. destruct tcp as [s d sq ak fi sy rs ac w opts].
      cbn [tcp_SrcPort tcp_DstPort tcp_Seq tcp_Ack tcp_FIN tcp_SYN tcp_RST tcp_ACK tcp_Window tcp_Options] in *.
      set (fl := flag_byte _). skip_be.
      assert (is_u8 fl) as Hfl by (subst fl; unfold is_u8, flag_byte; cbn; destruct fi, sy, rs, ac; cbn; lia).
      assert (opts = [] ∧ ser_opts opts = [] ∨ ∃ b, opts = [(TCPOptionKindWindowScale, [b])] ∧ ser_opts opts = [Byte.x03; Byte.x03; b; Byte.x00]) as Hopts.
      { destruct Ho as [-> | [b ->]]; [left|right; exists b]; by split. }
      assert (∀ f a, sub 0 1 ([byte_of a; byte_of f] ++ be_bytes 2 w ++ be_bytes 4 0 ++ ser_opts opts ++ payload) = [byte_of a]) as E1 by done.
      assert (∀ f a, sub 1 1 ([byte_of a; byte_of f] ++ be_bytes 2 w ++ be_bytes 4 0 ++ ser_opts opts ++ payload) = [byte_of f]) as E2 by done.
      assert (∀ f a, sub 2 2 ([byte_of a; byte_of f] ++ be_bytes 2 w ++ be_bytes 4 0 ++ ser_opts opts ++ payload) = be_bytes 2 w) as E3 by done.
      rewrite E1, E2, E3, (de_byte fl), (de_be 2 w) by done.
      assert (Z.testbit fl 0 = fi ∧ Z.testbit fl 1 = sy ∧ Z.testbit fl 2 = rs ∧ Z.testbit fl 4 = ac) as (-> & -> & -> & ->).
      { subst fl. unfold flag_byte. cbn. by destruct fi, sy, rs, ac. }
      destruct Hopts as [[-> ->]|[b [-> ->]]]; cbn [length]; rewrite de_byte by done; reflexivity.
Qed.
End IpExample.
