(* ===== verification/MultiClientStats.v ===== *)
(** * The window of events of a client: ip_remote_multi_client.go

    A [multiClientChannel] counts what it sends and receives in buckets of
    time, keeps the sums of the buckets of the window beside them, and derives
    from them how well the client does: how many sources its destinations have,
    its rate, and for how long it has been healthy. A time that can be zero is
    an option; an operation reads the clock once. *)

From S2P Require Import Prelude Ip.
From stdpp Require Import sorting.
From Stdlib Require Import QArith.QArith_base QArith.Qround.
Close Scope Q_scope.
Open Scope go_scope.

Record MultiClientStatsSettings := mkMultiClientStatsSettings {
  StatsWindowDuration : Z;
  StatsWindowBucketDuration : Z;
  StatsWindowGraceperiod : Z;
  StatsWindowMaxEstimatedByteCountPerSecond : Z;
  StatsSourceCountSelection : Q;
  MaxClientLifetime : Z;
  BlackholeTimeout : Z
}.
Definition seconds (n : Z) : duration := n * second.
Definition DefaultMultiClientStatsSettings : MultiClientStatsSettings := {|
  StatsWindowDuration := seconds 30;
  StatsWindowBucketDuration := seconds 1;
  StatsWindowGraceperiod := seconds 30;
  StatsWindowMaxEstimatedByteCountPerSecond := 16 * 1024 * 1024;
  StatsSourceCountSelection := (9 # 10)%Q;
  MaxClientLifetime := 60 * seconds 60;
  BlackholeTimeout := seconds 15
|}.

(** ** Buckets *)
Record multiClientEventBucket := mkBucket {
  eb_createTime : Z;
  eb_eventTime : Z;
  eb_sendAckCount : Z;
  eb_sendAckByteCount : Z;
  eb_sendNackCount : Z;
  eb_sendNackByteCount : Z;
  eb_receiveAckCount : Z;
  eb_receiveAckByteCount : Z;
  eb_sendAckTime : option Z;
  eb_sendNackTime : option Z;
  eb_errs : list string;
  eb_ip4Paths : gset Ip4Path;
  eb_ip6Paths : gset Ip6Path
}.
Definition newMultiClientEventBucket (now : Z) : multiClientEventBucket :=
  mkBucket now now 0 0 0 0 0 0 None None [] ∅ ∅.
Definition set_eventTime (now : Z) (b : multiClientEventBucket) : multiClientEventBucket :=
  mkBucket (eb_createTime b) now (eb_sendAckCount b) (eb_sendAckByteCount b) (eb_sendNackCount b) (eb_sendNackByteCount b)
    (eb_receiveAckCount b) (eb_receiveAckByteCount b) (eb_sendAckTime b) (eb_sendNackTime b) (eb_errs b) (eb_ip4Paths b) (eb_ip6Paths b).
Definition bucket_sendNack (now byteCount : Z) (b : multiClientEventBucket) : multiClientEventBucket :=
  mkBucket (eb_createTime b) (eb_eventTime b) (eb_sendAckCount b) (eb_sendAckByteCount b)
    (eb_sendNackCount b + 1) (eb_sendNackByteCount b + byteCount) (eb_receiveAckCount b) (eb_receiveAckByteCount b)
    (eb_sendAckTime b) (if eb_sendNackCount b =? 0 then Some now else eb_sendNackTime b)%Z (eb_errs b) (eb_ip4Paths b) (eb_ip6Paths b).
Definition bucket_sendAck (now byteCount : Z) (b : multiClientEventBucket) : multiClientEventBucket :=
  mkBucket (eb_createTime b) (eb_eventTime b) (eb_sendAckCount b + 1) (eb_sendAckByteCount b + byteCount)
    (eb_sendNackCount b) (eb_sendNackByteCount b) (eb_receiveAckCount b) (eb_receiveAckByteCount b)
    (if eb_sendAckCount b =? 0 then Some now else eb_sendAckTime b)%Z (eb_sendNackTime b) (eb_errs b) (eb_ip4Paths b) (eb_ip6Paths b).
Definition bucket_receiveAck (byteCount : Z) (b : multiClientEventBucket) : multiClientEventBucket :=
  mkBucket (eb_createTime b) (eb_eventTime b) (eb_sendAckCount b) (eb_sendAckByteCount b) (eb_sendNackCount b) (eb_sendNackByteCount b)
    (eb_receiveAckCount b + 1) (eb_receiveAckByteCount b + byteCount) (eb_sendAckTime b) (eb_sendNackTime b) (eb_errs b)
    (eb_ip4Paths b) (eb_ip6Paths b).
Definition bucket_error (err : string) (b : multiClientEventBucket) : multiClientEventBucket :=
  mkBucket (eb_createTime b) (eb_eventTime b) (eb_sendAckCount b) (eb_sendAckByteCount b) (eb_sendNackCount b) (eb_sendNackByteCount b)
    (eb_receiveAckCount b) (eb_receiveAckByteCount b) (eb_sendAckTime b) (eb_sendNackTime b) (eb_errs b ++ [err])
    (eb_ip4Paths b) (eb_ip6Paths b).
Definition bucket_paths (ip4Paths : gset Ip4Path) (ip6Paths : gset Ip6Path) (b : multiClientEventBucket) : multiClientEventBucket :=
  mkBucket (eb_createTime b) (eb_eventTime b) (eb_sendAckCount b) (eb_sendAckByteCount b) (eb_sendNackCount b) (eb_sendNackByteCount b)
    (eb_receiveAckCount b) (eb_receiveAckByteCount b) (eb_sendAckTime b) (eb_sendNackTime b) (eb_errs b) ip4Paths ip6Paths.

(** ** The channel *)
(** The counts of [packetStats] that are kept. *)
Record packetStats := mkPacketStats {
  ps_sendAckCount : Z;
  ps_sendAckByteCount : Z;
  ps_sendNackCount : Z;
  ps_sendNackByteCount : Z;
  ps_receiveAckCount : Z;
  ps_receiveAckByteCount : Z
}.
(** Health, and the best rate, between reports. *)
Record healthState := mkHealth {
  hs_maxEffectiveByteCountPerSecond : Z;
  hs_firstEventTime : option Z;
  hs_healthy : bool;
  hs_lastHealthyTime : option Z;
  hs_lastUnhealthyTime : option Z;
  hs_netHealthyDuration : Z;
  hs_netUnhealthyDuration : Z
}.
(** Destination, source, count. The counts are of [int64], and too small to wrap. *)
Abbreviation source_counts n := (gmap (IpNPath n) (gmap (IpNPath n) Z)).
Record multiClientStats := mkMultiClientStats {
  mc_eventBuckets : list multiClientEventBucket;
  mc_ip4DestinationSourceCount : source_counts 4;
  mc_ip6DestinationSourceCount : source_counts 16;
  mc_packetStats : packetStats;
  mc_endErr : option string;
  mc_health : healthState
}.
Definition newMultiClientStats : multiClientStats :=
  mkMultiClientStats [] ∅ ∅ (mkPacketStats 0 0 0 0 0 0) None (mkHealth 0 None false None None 0 0).
Definition set_buckets (l : list multiClientEventBucket) (c : multiClientStats) : multiClientStats :=
  mkMultiClientStats l (mc_ip4DestinationSourceCount c) (mc_ip6DestinationSourceCount c) (mc_packetStats c) (mc_endErr c) (mc_health c).
Definition set_packetStats (p : packetStats) (c : multiClientStats) : multiClientStats :=
  mkMultiClientStats (mc_eventBuckets c) (mc_ip4DestinationSourceCount c) (mc_ip6DestinationSourceCount c) p (mc_endErr c) (mc_health c).
Definition set_sources (m4 : source_counts 4) (m6 : source_counts 16) (c : multiClientStats) : multiClientStats :=
  mkMultiClientStats (mc_eventBuckets c) m4 m6 (mc_packetStats c) (mc_endErr c) (mc_health c).

(** [sourceCount[source] += 1] under its destination. *)
Definition add_source {n} (path : IpNPath n) (m : source_counts n) : source_counts n :=
  let source := IpNPath_Source path in
  let destination := IpNPath_Destination path in
  let sourceCount := default ∅ (m !! destination) in
  <[destination := <[source := (default 0 (sourceCount !! source) + 1)%Z]> sourceCount]> m.
(** One off the count; the source and the destination go at the last one. *)
Definition remove_source {n} (path : IpNPath n) (m : source_counts n) : source_counts n :=
  let source := IpNPath_Source path in
  let destination := IpNPath_Destination path in
  match m !! destination with
  | None => m
  | Some sourceCount =>
      let count := default 0%Z (sourceCount !! source) in
      let sourceCount := if (count - 1 <=? 0)%Z then delete source sourceCount else <[source := (count - 1)%Z]> sourceCount in
      if bool_decide (sourceCount = ∅) then delete destination m else <[destination := sourceCount]> m
  end.
Definition remove_sources {n} (paths : gset (IpNPath n)) (m : source_counts n) : source_counts n :=
  foldr remove_source m (elements paths).
Definition removeEventBucket (b : multiClientEventBucket) (c : multiClientStats) : multiClientStats :=
  let p := mc_packetStats c in
  mkMultiClientStats (mc_eventBuckets c)
    (remove_sources (eb_ip4Paths b) (mc_ip4DestinationSourceCount c))
    (remove_sources (eb_ip6Paths b) (mc_ip6DestinationSourceCount c))
    (mkPacketStats (ps_sendAckCount p - eb_sendAckCount b) (ps_sendAckByteCount p - eb_sendAckByteCount b)
       (ps_sendNackCount p) (ps_sendNackByteCount p)
       (ps_receiveAckCount p - eb_receiveAckCount b) (ps_receiveAckByteCount p - eb_receiveAckByteCount b))
    (mc_endErr c) (mc_health c).

Section MultiClientStats.
Variable settings : MultiClientStatsSettings.

Definition minBucketCount : outcome nat :=
  if (StatsWindowBucketDuration settings =? 0)%Z then Panic "integer divide by zero"
  else Val (Z.to_nat (1 + StatsWindowDuration settings `quot` StatsWindowBucketDuration settings)).
Fixpoint older_count (windowStart : Z) (l : list multiClientEventBucket) : nat :=
  match l with b :: l => if (eb_eventTime b <? windowStart)%Z then S (older_count windowStart l) else 0 | [] => 0 end.
(** The number of buckets that go: those before the window; and then, since the
    slice is only cut after the loop, all of them when there are too many. *)
Definition drop_count (minCount : nat) (windowStart : Z) (l : list multiClientEventBucket) : nat :=
  if (minCount <? length l)%nat then length l else older_count windowStart l.
Definition coalesceEventBuckets (now : Z) (c : multiClientStats) : outcome (multiClientStats * nat) :=
  let! minCount := minBucketCount in
  let l := mc_eventBuckets c in
  let i := drop_count minCount (now - StatsWindowDuration settings) l in
  Val (set_buckets (drop i l) (fold_left (λ c b, removeEventBucket b c) (take i l) c), i).

(** [eventBucket], and what its caller does to the bucket: one that has been
    dropped by then is not in the slice any more. *)
Definition current_bucket (now : Z) (l : list multiClientEventBucket) : list multiClientEventBucket :=
  match last l with
  | Some b =>
      if (eb_createTime b + StatsWindowBucketDuration settings <? now)%Z then l ++ [newMultiClientEventBucket now]
      else take (length l - 1) l ++ [set_eventTime now b]
  | None => [newMultiClientEventBucket now]
  end.
Definition update_last (f : multiClientEventBucket → multiClientEventBucket) (l : list multiClientEventBucket) : list multiClientEventBucket :=
  match last l with Some b => take (length l - 1) l ++ [f b] | None => [] end.
Definition eventBucket (now : Z) (f : multiClientEventBucket → multiClientEventBucket) (c : multiClientStats) : outcome multiClientStats :=
  let c := set_buckets (current_bucket now (mc_eventBuckets c)) c in
  let! (c, _) := coalesceEventBuckets now c in
  Val (set_buckets (update_last f (mc_eventBuckets c)) c).

Definition addSendNack (now ackByteCount : Z) (c : multiClientStats) : outcome multiClientStats :=
  let p := mc_packetStats c in
  let c := set_packetStats (mkPacketStats (ps_sendAckCount p) (ps_sendAckByteCount p) (ps_sendNackCount p + 1)
    (ps_sendNackByteCount p + ackByteCount) (ps_receiveAckCount p) (ps_receiveAckByteCount p)) c in
  eventBucket now (bucket_sendNack now ackByteCount) c.
Definition addSendAck (now ackByteCount : Z) (c : multiClientStats) : outcome multiClientStats :=
  let p := mc_packetStats c in
  let c := set_packetStats (mkPacketStats (ps_sendAckCount p + 1) (ps_sendAckByteCount p + ackByteCount) (ps_sendNackCount p - 1)
    (ps_sendNackByteCount p - ackByteCount) (ps_receiveAckCount p) (ps_receiveAckByteCount p)) c in
  eventBucket now (bucket_sendAck now ackByteCount) c.
Definition addReceiveAck (now ackByteCount : Z) (c : multiClientStats) : outcome multiClientStats :=
  let p := mc_packetStats c in
  let c := set_packetStats (mkPacketStats (ps_sendAckCount p) (ps_sendAckByteCount p) (ps_sendNackCount p)
    (ps_sendNackByteCount p) (ps_receiveAckCount p + 1) (ps_receiveAckByteCount p + ackByteCount)) c in
  eventBucket now (bucket_receiveAck ackByteCount) c.
(** The maps are written after the buckets are coalesced. *)
Definition addSource (now : Z) (ipPath : IpPath) (c : multiClientStats) : outcome multiClientStats :=
  if (Version ipPath =? 4)%Z then
    let ip4Path := ToIp4Path ipPath in
    let! c := eventBucket now (λ b, bucket_paths ({[ip4Path]} ∪ eb_ip4Paths b) (eb_ip6Paths b) b) c in
    Val (set_sources (add_source ip4Path (mc_ip4DestinationSourceCount c)) (mc_ip6DestinationSourceCount c) c)
  else if (Version ipPath =? 6)%Z then
    let ip6Path := ToIp6Path ipPath in
    let! c := eventBucket now (λ b, bucket_paths (eb_ip4Paths b) ({[ip6Path]} ∪ eb_ip6Paths b) b) c in
    Val (set_sources (mc_ip4DestinationSourceCount c) (add_source ip6Path (mc_ip6DestinationSourceCount c)) c)
  else let! _ := eventBucket now id c in Panic "Bad protocol version".
Definition addError (now : Z) (err : string) (c : multiClientStats) : outcome multiClientStats :=
  let endErr := match mc_endErr c with Some e => Some e | None => Some err end in
  let c := mkMultiClientStats (mc_eventBuckets c) (mc_ip4DestinationSourceCount c) (mc_ip6DestinationSourceCount c)
    (mc_packetStats c) endErr (mc_health c) in
  eventBucket now (bucket_error err) c.

(** ** Reports *)
Record clientWindowStats := mkWindowStats {
  ws_sourceCount : nat;
  ws_netSourceCount : nat;
  ws_packetStats : packetStats;
  ws_windowDuration : Z;
  ws_firstSendAckTime : option Z;
  ws_firstSendNackTime : option Z;
  ws_bucketCount : nat;
  (** [estimated] and the durations are set below *)
  ws_estimatedByteCountPerSecond : Z;
  ws_clientDuration : Z;
  ws_healthyDuration : Z;
  ws_unhealthyDuration : Z;
  ws_netHealthyDuration : Z;
  ws_netUnhealthyDuration : Z;
  ws_healthy : bool;
  ws_removeTime : option Z;
  ws_lastEventTime : option Z
}.
(** [1000 * bytes / millis], rounded. *)
Definition rate (byteCount millis : Z) : Z := (i64 (i64 (1000 * byteCount) + millis `quot` 2) `quot` millis)%Z.
Definition EffectiveByteCountPerSecond (windowDuration : Z) (p : packetStats) : Z :=
  let millis := (windowDuration `quot` 1000000)%Z in
  if (millis <=? 0)%Z then 0%Z else rate (ps_sendAckByteCount p + ps_receiveAckByteCount p) millis.
Definition EffectiveByteCount (windowDuration : Z) (p : packetStats) : Z * Z :=
  if (windowDuration `quot` 1000000 <=? 0)%Z then (0, 0)%Z else (ps_sendAckByteCount p, ps_receiveAckByteCount p).
Definition ExpectedByteCountPerSecond (s : clientWindowStats) : Z :=
  let millis := (ws_windowDuration s `quot` 1000000)%Z in
  let p := ws_packetStats s in
  if (millis <=? 0)%Z then ws_estimatedByteCountPerSecond s
  else Z.max (ws_estimatedByteCountPerSecond s - rate (ps_sendAckByteCount p + ps_sendNackByteCount p + ps_receiveAckByteCount p) millis)%Z 0.

(** The buckets less the latest two, which may be partial. *)
Definition full_buckets (l : list multiClientEventBucket) : list multiClientEventBucket := take (length l - 2) l.
Definition window_duration (l : list multiClientEventBucket) : Z :=
  match l, last l with b :: _, Some e => eb_eventTime e - eb_createTime b | _, _ => 0 end.
Definition first_time (count : multiClientEventBucket → Z) (time : multiClientEventBucket → option Z) (l : list multiClientEventBucket) : option Z :=
  match find (λ b, 0 <? count b)%Z l with Some b => time b | None => None end.
Definition isPublicPort (port : Z) : bool := (port =? 443)%Z.
Definition public_counts {n} (m : source_counts n) : list nat :=
  omap (λ x, if isPublicPort (p_DestinationPort x.1) then Some (size x.2) else None) (map_to_list m).
Definition all_counts {n} (m : source_counts n) : nat := sum_list_with (λ x, size x.2) (map_to_list m).
(** The product of a float is that of a rational here. *)
Definition max_source_count (counts : list nat) : outcome nat :=
  let sorted := merge_sort Nat.le counts in
  let selectionIndex := Qceiling (StatsSourceCountSelection settings * inject_Z (Z.of_nat (length counts) - 1))%Q in
  if (selectionIndex <? Z.of_nat (length sorted))%Z then
    if (selectionIndex <? 0)%Z then Panic "index out of range" else Val (nth (Z.to_nat selectionIndex) sorted 0%nat)
  else Val 0%nat.

(** A report on health at [eventTime]: the next state, and the durations since
    it was last otherwise. *)
Definition health_step (eventTime : Z) (healthy : bool) (h : healthState) : healthState * Z * Z :=
  let max := hs_maxEffectiveByteCountPerSecond h in
  let first := hs_firstEventTime h in
  if healthy then
    let lastUnhealthyTime := default eventTime (hs_lastUnhealthyTime h) in
    let netUnhealthy :=
      if hs_healthy h then hs_netUnhealthyDuration h
      else match hs_lastHealthyTime h with
           | Some t => (hs_netUnhealthyDuration h + (lastUnhealthyTime - t))%Z
           | None => hs_netUnhealthyDuration h
           end in
    (mkHealth max first true (Some eventTime) (Some lastUnhealthyTime) (hs_netHealthyDuration h) netUnhealthy,
     eventTime - lastUnhealthyTime, 0)%Z
  else
    let lastHealthyTime := default eventTime (hs_lastHealthyTime h) in
    let netHealthy :=
      if hs_healthy h then
        match hs_lastUnhealthyTime h with
        | Some t => (hs_netHealthyDuration h + (lastHealthyTime - t))%Z
        | None => hs_netHealthyDuration h
        end
      else hs_netHealthyDuration h in
    (mkHealth max first false (Some lastHealthyTime) (Some eventTime) netHealthy (hs_netUnhealthyDuration h),
     0, eventTime - lastHealthyTime)%Z.
Definition set_max (rate : Z) (h : healthState) : healthState :=
  mkHealth (Z.max (hs_maxEffectiveByteCountPerSecond h) rate) (hs_firstEventTime h) (hs_healthy h) (hs_lastHealthyTime h)
    (hs_lastUnhealthyTime h) (hs_netHealthyDuration h) (hs_netUnhealthyDuration h).
Definition set_firstEventTime (t : option Z) (h : healthState) : healthState :=
  mkHealth (hs_maxEffectiveByteCountPerSecond h) t (hs_healthy h) (hs_lastHealthyTime h)
    (hs_lastUnhealthyTime h) (hs_netHealthyDuration h) (hs_netUnhealthyDuration h).
(** [windowStatsWithCoalesce], with the estimate of the arguments of the
    client. [done]: its context, or its client's, is. *)
Definition windowStatsWithCoalesce (coalesce : bool) (estimate : Z) (is_done : bool) (now : Z) (c : multiClientStats)
    : outcome (multiClientStats * clientWindowStats * option string) :=
  let! (c, _) := (if coalesce then coalesceEventBuckets now c else Val (c, 0)) in
  let l := full_buckets (mc_eventBuckets c) in
  let p := mc_packetStats c in
  let windowDuration := window_duration l in
  let! sourceCount := max_source_count (public_counts (mc_ip4DestinationSourceCount c) ++ public_counts (mc_ip6DestinationSourceCount c)) in
  let netSourceCount := all_counts (mc_ip4DestinationSourceCount c) + all_counts (mc_ip6DestinationSourceCount c) in
  let h := mc_health c in
  let err := match mc_endErr c with Some e => Some e | None => if is_done then Some "Done."%string else None end in
  let report h clientDuration healthyDuration unhealthyDuration netHealthy netUnhealthy healthy removeTime :=
    let estimated :=
      if (StatsWindowGraceperiod settings <? clientDuration)%Z then hs_maxEffectiveByteCountPerSecond h
      else Z.max (Z.min estimate (StatsWindowMaxEstimatedByteCountPerSecond settings)) (hs_maxEffectiveByteCountPerSecond h) in
    (mkMultiClientStats (mc_eventBuckets c) (mc_ip4DestinationSourceCount c) (mc_ip6DestinationSourceCount c) p (mc_endErr c) h,
     mkWindowStats sourceCount netSourceCount p windowDuration
       (first_time eb_sendAckCount eb_sendAckTime l) (first_time eb_sendNackCount eb_sendNackTime l) (length l)
       estimated clientDuration healthyDuration unhealthyDuration netHealthy netUnhealthy healthy removeTime
       (eb_eventTime <$> last l), err) in
  match l, hs_firstEventTime h with
  | [], None => Val (report h 0 0 0 0 0 false None)%Z
  | _, first =>
      let (send, receive) := EffectiveByteCount windowDuration p in
      let healthy := Bool.eqb (0 <? send)%Z (0 <? receive)%Z in
      let '(h, healthyDuration, unhealthyDuration) := health_step now healthy (set_max (EffectiveByteCountPerSecond windowDuration p) h) in
      let firstEventTime := match first, l with Some t, _ => t | None, b :: _ => eb_createTime b | None, [] => 0%Z end in
      Val (report (set_firstEventTime (Some firstEventTime) h) (now - firstEventTime) healthyDuration unhealthyDuration
             (hs_netHealthyDuration h + healthyDuration) (hs_netUnhealthyDuration h + unhealthyDuration) healthy
             (Some (firstEventTime + MaxClientLifetime settings)))%Z
  end.
(** [detectBlackhole]: data was sent, and nothing came back within the timeout. *)
Definition blackhole (now : Z) (s : clientWindowStats) : bool :=
  let p := ws_packetStats s in
  (* the zero time is long ago *)
  let late t := match t with Some t => (BlackholeTimeout settings - (now - t) <=? 0)%Z | None => true end && (ps_receiveAckCount p <=? 0)%Z in
  if (0 <? ps_sendAckCount p)%Z then late (ws_firstSendAckTime s)
  else if (0 <? ps_sendNackCount p)%Z then late (ws_firstSendNackTime s) else false.
End MultiClientStats.

(** ** Runs *)
Inductive stats_op :=
| OpSendNack (byteCount : Z)
| OpSendAck (byteCount : Z)
| OpReceiveAck (byteCount : Z)
| OpSource (ipPath : IpPath)
| OpError (err : string)
| OpWindowStats (coalesce : bool) (estimate : Z) (is_done : bool).

Section Runs.
Variable settings : MultiClientStatsSettings.

Definition run_op (now : Z) (op : stats_op) (c : multiClientStats) : outcome multiClientStats :=
  match op with
  | OpSendNack n => addSendNack settings now n c
  | OpSendAck n => addSendAck settings now n c
  | OpReceiveAck n => addReceiveAck settings now n c
  | OpSource ipPath => addSource settings now ipPath c
  | OpError err => addError settings now err c
  | OpWindowStats coalesce estimate is_done =>
      let! (c, _, _) := windowStatsWithCoalesce settings coalesce estimate is_done now c in Val c
  end.
Fixpoint run_ops (ops : list (Z * stats_op)) (c : multiClientStats) : outcome multiClientStats :=
  match ops with
  | [] => Val c
  | (now, op) :: ops => let! c := run_op now op c in run_ops ops c
  end.

(** A counter that goes back as buckets go. *)
Inductive counter := SendAcks | SendAckBytes | ReceiveAcks | ReceiveAckBytes.
Definition counter_total (k : counter) (p : packetStats) : Z :=
  match k with
  | SendAcks => ps_sendAckCount p | SendAckBytes => ps_sendAckByteCount p
  | ReceiveAcks => ps_receiveAckCount p | ReceiveAckBytes => ps_receiveAckByteCount p
  end.
Definition counter_of (k : counter) (b : multiClientEventBucket) : Z :=
  match k with
  | SendAcks => eb_sendAckCount b | SendAckBytes => eb_sendAckByteCount b
  | ReceiveAcks => eb_receiveAckCount b | ReceiveAckBytes => eb_receiveAckByteCount b
  end.
Definition op_amount (k : counter) (op : stats_op) : Z :=
  match k, op with
  | SendAcks, OpSendAck _ | ReceiveAcks, OpReceiveAck _ => 1
  | SendAckBytes, OpSendAck n | ReceiveAckBytes, OpReceiveAck n => n
  | _, _ => 0
  end.
Definition in_buckets (k : counter) (l : list multiClientEventBucket) : Z := zsum (counter_of k <$> l).
Definition is_report (op : stats_op) : bool := match op with OpWindowStats _ _ _ => true | _ => false end.
(** What was counted while every bucket was dropped. *)
Fixpoint unbucketed (k : counter) (ops : list (Z * stats_op)) (c : multiClientStats) : Z :=
  match ops with
  | [] => 0
  | (now, op) :: ops =>
      match run_op now op c with
      | Val c => (match mc_eventBuckets c with [] => op_amount k op | _ => 0 end + unbucketed k ops c)%Z
      | _ => 0
      end
  end.
Definition drift (k : counter) (c : multiClientStats) : Z := counter_total k (mc_packetStats c) - in_buckets k (mc_eventBuckets c).

(** *** Buckets *)
Lemma in_buckets_app k l1 l2 : in_buckets k (l1 ++ l2) = (in_buckets k l1 + in_buckets k l2)%Z.
Proof. unfold in_buckets. by rewrite fmap_app, zsum_app. Qed.
Lemma in_buckets_cons k b l : in_buckets k (b :: l) = (counter_of k b + in_buckets k l)%Z.
Proof. done. Qed.
Lemma last_split {A} (l : list A) x : last l = Some x → l = take (length l - 1) l ++ [x].
Proof.
  intros [l' ->]%last_Some. rewrite length_app. simpl.
  by replace (length l' + 1 - 1) with (length l') by lia; rewrite take_app_length.
Qed.
Lemma remove_buckets_totals k bs c :
  counter_total k (mc_packetStats (fold_left (λ c b, removeEventBucket b c) bs c)) =
  (counter_total k (mc_packetStats c) - in_buckets k bs)%Z.
Proof.
  revert c. induction bs as [|b bs IH]; intros c; simpl; [unfold in_buckets; simpl; lia|].
  rewrite IH, in_buckets_cons. destruct k; simpl; lia.
Qed.
Lemma coalesce_inv now c c' i :
  coalesceEventBuckets settings now c = Val (c', i) →
  ∃ n, minBucketCount settings = Val n
    ∧ i = drop_count n (now - StatsWindowDuration settings) (mc_eventBuckets c)
    ∧ c' = set_buckets (drop i (mc_eventBuckets c)) (fold_left (λ c b, removeEventBucket b c) (take i (mc_eventBuckets c)) c).
Proof. unfold coalesceEventBuckets. intros H. inv_val. by eexists. Qed.
Lemma coalesce_drift k now c c' i :
  coalesceEventBuckets settings now c = Val (c', i) → drift k c' = drift k c.
Proof.
  intros (n & _ & _ & ->)%coalesce_inv. unfold drift. simpl.
  rewrite remove_buckets_totals.
  pose proof (in_buckets_app k (take i (mc_eventBuckets c)) (drop i (mc_eventBuckets c))) as H.
  rewrite take_drop in H. lia.
Qed.
Lemma current_bucket_total k now l : in_buckets k (current_bucket settings now l) = in_buckets k l.
Proof.
  unfold current_bucket. destruct (last l) as [b|] eqn:E.
  - case_bool.
    + rewrite in_buckets_app, in_buckets_cons. destruct k; apply Z.add_0_r.
    + rewrite (last_split _ _ E) at 3. by rewrite !in_buckets_app, !in_buckets_cons; destruct k.
  - apply last_None in E as ->. by destruct k.
Qed.
Lemma update_last_total k d f l :
  (∀ b, counter_of k (f b) = (counter_of k b + d)%Z) →
  in_buckets k (update_last f l) = (in_buckets k l + match update_last f l with [] => 0 | _ => d end)%Z.
Proof.
  intros Hf. unfold update_last. destruct (last l) as [b|] eqn:E.
  - rewrite (last_split _ _ E) at 3. rewrite !in_buckets_app.
    destruct (_ ++ [f b]) eqn:Eq; [by destruct (take _ l)|].
    rewrite !in_buckets_cons, Hf. lia.
  - apply last_None in E as ->. done.
Qed.
Lemma eventBucket_drift k d now f c c' :
  (∀ b, counter_of k (f b) = (counter_of k b + d)%Z) →
  eventBucket settings now f c = Val c' →
  drift k c' = (drift k c - match mc_eventBuckets c' with [] => 0 | _ => d end)%Z.
Proof.
  intros Hf H. unfold eventBucket in H. apply obind_Val in H as ([c1 i] & H1 & H). inv_val.
  apply coalesce_drift with (k := k) in H1. unfold drift in *. simpl in *.
  rewrite (update_last_total k d f _ Hf). rewrite current_bucket_total in H1. lia.
Qed.
Lemma windowStats_state coalesce estimate is_done now c c' s err :
  windowStatsWithCoalesce settings coalesce estimate is_done now c = Val (c', s, err) →
  ∃ c1, (if coalesce then ∃ i, coalesceEventBuckets settings now c = Val (c1, i) else c1 = c)
    ∧ mc_eventBuckets c' = mc_eventBuckets c1 ∧ mc_packetStats c' = mc_packetStats c1
    ∧ mc_ip4DestinationSourceCount c' = mc_ip4DestinationSourceCount c1
    ∧ mc_ip6DestinationSourceCount c' = mc_ip6DestinationSourceCount c1
    ∧ ws_windowDuration s = window_duration (full_buckets (mc_eventBuckets c1))
    ∧ ws_packetStats s = mc_packetStats c1
    ∧ ws_netSourceCount s = all_counts (mc_ip4DestinationSourceCount c1) + all_counts (mc_ip6DestinationSourceCount c1).
Proof.
  unfold windowStatsWithCoalesce. intros H. apply obind_Val in H as ([c1 i] & H1 & H).
  exists c1. split.
  { destruct coalesce; [by exists i|]. by inv_val. }
  apply obind_Val in H as (n & _ & H).
  destruct (full_buckets _) eqn:El, (hs_firstEventTime _) eqn:Ef;
    try destruct (EffectiveByteCount _ _) as [s1 s2]; try destruct (health_step _ _ _) as [[h d1] d2]; inv_val; simpl; rewrite <-?El; repeat split.
Qed.
Lemma run_op_drift k now op c c' :
  run_op now op c = Val c' →
  drift k c' = (drift k c + match mc_eventBuckets c' with [] => op_amount k op | _ => 0 end)%Z.
Proof.
  intros H. destruct op as [n|n|n|ipPath|err|co est dn]; simpl in H.
  - eapply (eventBucket_drift k 0) in H; [|by destruct k; simpl; lia..].
    rewrite H. unfold drift. destruct k; simpl; destruct (mc_eventBuckets c'); lia.
  - eapply (eventBucket_drift k (op_amount k (OpSendAck n))) in H; [|by destruct k; simpl; lia..].
    rewrite H. unfold drift. destruct k; simpl; destruct (mc_eventBuckets c'); lia.
  - eapply (eventBucket_drift k (op_amount k (OpReceiveAck n))) in H; [|by destruct k; simpl; lia..].
    rewrite H. unfold drift. destruct k; simpl; destruct (mc_eventBuckets c'); lia.
  - assert (op_amount k (OpSource ipPath) = 0%Z) as Ha by by destruct k.
    unfold addSource in H. repeat case_bool; apply obind_Val in H as (c1 & H1 & H); inv_val;
      eapply (eventBucket_drift k 0) in H1; try by destruct k; simpl; lia.
    all: unfold drift in *; simpl in *; rewrite H1, Ha; destruct (mc_eventBuckets c1); lia.
  - eapply (eventBucket_drift k 0) in H; [|by destruct k; simpl; lia..].
    rewrite H. unfold drift. destruct k; simpl; destruct (mc_eventBuckets c'); lia.
  - apply obind_Val in H as ([[c1 s] er] & H1 & H). inv_val.
    apply windowStats_state in H1 as (c2 & Hc & Hb & Hp & _).
    assert (drift k c' = drift k c2) as -> by (unfold drift; by rewrite Hb, Hp).
    assert (op_amount k (OpWindowStats co est dn) = 0%Z) as -> by by destruct k.
    assert (drift k c2 = drift k c) as ->.
    { destruct co; [|by subst]. destruct Hc as [i Hc]. by eapply coalesce_drift. }
    destruct (mc_eventBuckets c'); lia.
Qed.

(** *** Nothing panics *)
Definition stats_settings_ok : Prop :=
  (StatsWindowBucketDuration settings ≠ 0)%Z ∧ (0 <= StatsSourceCountSelection settings < 1)%Q.
Definition op_ok (op : stats_op) : bool :=
  match op with OpSource ipPath => ((Version ipPath =? 4) || (Version ipPath =? 6))%Z | _ => true end.

Lemma max_source_count_Val counts : stats_settings_ok → is_val (max_source_count settings counts).
Proof.
  intros [_ [H1 H2]]. unfold max_source_count. repeat case_bool; try done. exfalso.
  set (x := (StatsSourceCountSelection settings * inject_Z (Z.of_nat (length counts) - 1))%Q) in *.
  pose proof (Qle_ceiling x) as Hx.
  assert (-(1) < x)%Q as Hy.
  { subst x. destruct (length counts) as [|n].
    - simpl. unfold Qlt, Qle, Qmult in *. simpl in *. lia.
    - apply Qlt_le_trans with 0%Q; [done|]. apply Qmult_le_0_compat; [done|].
      unfold Qle. simpl. lia. }
  assert (-(1) < inject_Z (Qceiling x))%Q as Hz by by eapply Qlt_le_trans.
  unfold Qlt in Hz. simpl in Hz. lia.
Qed.
Lemma coalesce_Val now c : stats_settings_ok → is_val (coalesceEventBuckets settings now c).
Proof. intros [H _]. unfold coalesceEventBuckets, minBucketCount. by case_bool. Qed.
Lemma eventBucket_Val now f c : stats_settings_ok → is_val (eventBucket settings now f c).
Proof.
  intros H. unfold eventBucket. pose proof (coalesce_Val now (set_buckets (current_bucket settings now (mc_eventBuckets c)) c) H) as Hv.
  by destruct (coalesceEventBuckets _ _ _) as [[c1 i]| |].
Qed.
Lemma windowStats_Val coalesce estimate is_done now c :
  stats_settings_ok → is_val (windowStatsWithCoalesce settings coalesce estimate is_done now c).
Proof.
  intros H. unfold windowStatsWithCoalesce.
  assert (is_val (if coalesce then coalesceEventBuckets settings now c else Val (c, 0))) as Hv
    by by destruct coalesce; [apply coalesce_Val|].
  destruct (if coalesce then _ else _) as [[c1 i]| |]; [|done..]. cbn [obind].
  pose proof (max_source_count_Val (public_counts (mc_ip4DestinationSourceCount c1) ++ public_counts (mc_ip6DestinationSourceCount c1)) H) as Hm.
  destruct (max_source_count _ _); [|done..]. cbn [obind].
  destruct (EffectiveByteCount _ _) as [send receive]. destruct (health_step _ _ _) as [[h d1] d2].
  by destruct (full_buckets _), (hs_firstEventTime _).
Qed.
Lemma run_op_Val now op c : stats_settings_ok → op_ok op → is_val (run_op now op c).
Proof.
  intros H Ho. destruct op as [n|n|n|ipPath|err|co est dn]; simpl; try by apply eventBucket_Val.
  - simpl in Ho. unfold addSource.
    destruct (Version ipPath =? 4)%Z; [|destruct (Version ipPath =? 6)%Z; [|done]];
      lazymatch goal with |- Is_true (is_val (obind ?m _)) => assert (is_val m) by (by apply eventBucket_Val); by destruct m end.
  - pose proof (windowStats_Val co est dn now c H). by destruct (windowStatsWithCoalesce _ _ _ _ _ _) as [[[??]?]| |].
Qed.

(** C34. No operation panics, and the sums of a channel are those of its
    buckets and of the packets that were counted while the window dropped all
    its buckets. *)
Theorem stats_follow_buckets k ops :
  stats_settings_ok → Forall (λ x, op_ok x.2) ops →
  ∃ c, run_ops ops newMultiClientStats = Val c
    ∧ counter_total k (mc_packetStats c) = (in_buckets k (mc_eventBuckets c) + unbucketed k ops newMultiClientStats)%Z.
Proof.
  intros Hs Ho.
  enough (∀ c0, ∃ c, run_ops ops c0 = Val c ∧ drift k c = (drift k c0 + unbucketed k ops c0)%Z) as Hr.
  { destruct (Hr newMultiClientStats) as (c & Hc & Hd). exists c. split; [done|].
    assert (drift k newMultiClientStats = 0%Z) as H0 by by destruct k. rewrite H0 in Hd. unfold drift in Hd. lia. }
  induction Ho as [|[now op] ops Hop _ IH]; intros c0; simpl in *; [exists c0; split; [done|lia]|].
  pose proof (run_op_Val now op c0 Hs Hop) as Hv.
  destruct (run_op now op c0) as [c1| |] eqn:E; try done. simpl.
  destruct (IH c1) as (c & Hc & Hd). exists c. split; [done|]. rewrite Hd, (run_op_drift k _ _ _ _ E). lia.
Qed.
End Runs.

(** *** Sources *)
(** How often a path is counted. *)
Definition count_of {n} (path : IpNPath n) (m : source_counts n) : Z :=
  default 0%Z (m !! IpNPath_Destination path ≫= λ s, s !! IpNPath_Source path).

Section Sources.
Context {n : nat}.
Implicit Types (p q : IpNPath n) (m : source_counts n).

Lemma path_of_ends p q :
  IpNPath_Destination p = IpNPath_Destination q → IpNPath_Source p = IpNPath_Source q → p = q.
Proof. destruct p, q. unfold IpNPath_Destination, IpNPath_Source. simpl. intros [= -> -> ->] [= -> ->]. done. Qed.
Lemma path_count_add p q m : count_of p (add_source q m) = (count_of p m + if decide (p = q) then 1 else 0)%Z.
Proof.
  unfold count_of, add_source. destruct (decide (IpNPath_Destination q = IpNPath_Destination p)) as [E|E].
  - rewrite E, lookup_insert_eq. simpl.
    destruct (decide (IpNPath_Source q = IpNPath_Source p)) as [E2|E2].
    + rewrite E2, lookup_insert_eq. rewrite decide_True by (by apply path_of_ends). simpl.
      destruct (m !! IpNPath_Destination p) as [s|]; simpl; [|by rewrite lookup_empty].
      by destruct (s !! IpNPath_Source p).
    + rewrite lookup_insert_ne by done. rewrite decide_False by (by intros ->).
      destruct (m !! IpNPath_Destination p) as [s|]; simpl; [lia|]. by rewrite lookup_empty.
  - rewrite lookup_insert_ne by done. rewrite decide_False by (by intros ->). lia.
Qed.
Lemma path_count_remove p q m :
  count_of p (remove_source q m) =
  (if decide (p = q) then if (count_of p m - 1 <=? 0)%Z then 0 else count_of p m - 1 else count_of p m)%Z.
Proof.
  unfold count_of, remove_source. destruct (decide (p = q)) as [->|Hn].
  - destruct (m !! IpNPath_Destination q) as [s|] eqn:Es; [|by rewrite Es].
    set (s' := if (_ <=? 0)%Z then _ else _). simpl.
    assert (s' !! IpNPath_Source q = if (default 0 (s !! IpNPath_Source q) - 1 <=? 0)%Z then None
      else Some (default 0 (s !! IpNPath_Source q) - 1)%Z) as Hs.
    { subst s'. destruct (_ <=? 0)%Z; [apply lookup_delete_eq|apply lookup_insert_eq]. }
    case_bool_decide as Hb.
    + rewrite lookup_delete_eq. simpl. rewrite Hb, lookup_empty in Hs. by destruct (_ <=? 0)%Z.
    + rewrite lookup_insert_eq. simpl. rewrite Hs. by destruct (_ <=? 0)%Z.
  - destruct (m !! IpNPath_Destination q) as [s|] eqn:Es; [|done].
    set (s' := if (_ <=? 0)%Z then _ else _).
    destruct (decide (IpNPath_Destination q = IpNPath_Destination p)) as [E|E].
    + assert (IpNPath_Source q ≠ IpNPath_Source p) as Hsn by (intros E2; apply Hn; by apply path_of_ends).
      assert (s' !! IpNPath_Source p = s !! IpNPath_Source p) as Hs.
      { subst s'. destruct (_ <=? 0)%Z; [by apply lookup_delete_ne|by apply lookup_insert_ne]. }
      rewrite <-E, Es. simpl. case_bool_decide as Hb.
      * rewrite lookup_delete_eq. simpl. by rewrite <-Hs, Hb, lookup_empty.
      * rewrite lookup_insert_eq. simpl. by rewrite Hs.
    + case_bool_decide; [by rewrite lookup_delete_ne|by rewrite lookup_insert_ne].
Qed.
Lemma path_count_remove_sources p (ps : gset (IpNPath n)) m :
  (count_of p m - (if decide (p ∈ ps) then 1 else 0) <= count_of p (remove_sources ps m))%Z.
Proof.
  unfold remove_sources. pose proof (NoDup_elements ps) as Hd.
  rewrite (decide_ext (p ∈ ps) (p ∈ elements ps)) by (by rewrite elem_of_elements).
  induction (elements ps) as [|q l IH]; simpl.
  - lia.
  - apply NoDup_cons in Hd as [Hq Hd]. specialize (IH Hd). rewrite path_count_remove.
    destruct (decide (p = q)) as [->|Hn].
    + rewrite decide_False in IH by done. rewrite decide_True by set_solver. case_bool; lia.
    + rewrite (decide_ext (p ∈ q :: l) (p ∈ l)) by set_solver. lia.
Qed.
Lemma count_of_sized p m : (0 < count_of p m)%Z → IpNPath_Destination p ∈ dom m ∧ (0 < all_counts m).
Proof.
  unfold count_of. destruct (m !! IpNPath_Destination p) as [s|] eqn:Es; simpl; [|lia]. intros Hs.
  split; [by apply elem_of_dom_2 in Es|].
  unfold all_counts. apply elem_of_map_to_list in Es.
  destruct (s !! IpNPath_Source p) as [z|] eqn:Ez; simpl in Hs; [|lia].
  assert (0 < size s) as Hsz.
  { destruct (decide (size s = 0)) as [H0|]; [|lia]. apply map_size_empty_inv in H0. subst s. by rewrite lookup_empty in Ez. }
  apply list_elem_of_In, in_split in Es as (l1 & l2 & ->). rewrite sum_list_with_app. simpl. lia.
Qed.
End Sources.

Section Sized.
Context {n : nat}.
Lemma sized_sources (X : gset (IpNPath n)) (m : source_counts n) :
  (∀ p, p ∈ X → (0 < count_of p m)%Z) → size X ≤ all_counts m.
Proof.
  intros HX.
  set (L := map_to_list m ≫= λ x, (λ y, (x.1, y.1)) <$> map_to_list x.2).
  assert (length L = all_counts m) as <-.
  { unfold all_counts. subst L. induction (map_to_list m) as [|x l IH]; [done|].
    rewrite bind_cons, length_app, length_fmap, IH. simpl. by rewrite length_map_to_list. }
  set (f := λ p : IpNPath n, (IpNPath_Destination p, IpNPath_Source p)).
  assert (f <$> elements X ⊆+ L) as Hsub.
  { apply NoDup_submseteq.
    - apply NoDup_fmap_2; [|apply NoDup_elements]. intros p q Hpq. apply path_of_ends; [exact (f_equal fst Hpq)|exact (f_equal snd Hpq)].
    - intros x (p & -> & Hp)%list_elem_of_fmap. apply elem_of_elements, HX in Hp.
      unfold count_of in Hp. destruct (m !! IpNPath_Destination p) as [s|] eqn:Es; simpl in Hp; [|lia].
      destruct (s !! IpNPath_Source p) as [z|] eqn:Ez; simpl in Hp; [|lia].
      apply elem_of_map_to_list in Es, Ez. unfold L. apply list_elem_of_bind.
      exists (IpNPath_Destination p, s). split; [|done]. simpl. apply list_elem_of_fmap.
      by exists (IpNPath_Source p, z). }
  apply submseteq_length in Hsub. rewrite length_fmap in Hsub. exact Hsub.
Qed.

(** The counts of one version, and the paths of a bucket they count. *)
Variable paths : multiClientEventBucket → gset (IpNPath n).
Variable counts : multiClientStats → source_counts n.
Hypothesis remove_counts : ∀ b c, counts (removeEventBucket b c) = remove_sources (paths b) (counts c).
Hypothesis set_buckets_counts : ∀ l c, counts (set_buckets l c) = counts c.
Hypothesis new_paths : ∀ now, paths (newMultiClientEventBucket now) = ∅.
Hypothesis time_paths : ∀ now b, paths (set_eventTime now b) = paths b.
Variable settings : MultiClientStatsSettings.

Definition occurrences (p : IpNPath n) (l : list multiClientEventBucket) : Z :=
  zsum ((λ b, if decide (p ∈ paths b) then 1 else 0)%Z <$> l).
Definition counted (c : multiClientStats) : Prop :=
  ∀ p, (occurrences p (mc_eventBuckets c) <= count_of p (counts c))%Z.

Lemma occurrences_app p l1 l2 : occurrences p (l1 ++ l2) = (occurrences p l1 + occurrences p l2)%Z.
Proof. unfold occurrences. by rewrite fmap_app, zsum_app. Qed.
Lemma occurrences_cons p b l : occurrences p (b :: l) = ((if decide (p ∈ paths b) then 1 else 0) + occurrences p l)%Z.
Proof. done. Qed.
Lemma occurrences_elem p b l : b ∈ l → p ∈ paths b → (0 < occurrences p l)%Z.
Proof.
  intros (l1 & l2 & ->)%list_elem_of_split Hp. rewrite occurrences_app, occurrences_cons, decide_True by done.
  assert (∀ l', 0 <= occurrences p l')%Z as Hn.
  { intros l'. apply zsum_nonneg, Forall_fmap, Forall_true. intros x. simpl. by destruct (decide _). }
  pose proof (Hn l1). pose proof (Hn l2). lia.
Qed.
Lemma remove_buckets_counted p bs c :
  (count_of p (counts c) - occurrences p bs <= count_of p (counts (fold_left (λ c b, removeEventBucket b c) bs c)))%Z.
Proof.
  revert c. induction bs as [|b bs IH]; intros c; simpl; [unfold occurrences; simpl; lia|].
  pose proof (IH (removeEventBucket b c)) as H. rewrite remove_counts in H.
  pose proof (path_count_remove_sources p (paths b) (counts c)). rewrite occurrences_cons. lia.
Qed.
Lemma coalesce_counted now c c' i : coalesceEventBuckets settings now c = Val (c', i) → counted c → counted c'.
Proof.
  intros (k & _ & _ & ->)%coalesce_inv H p. specialize (H p).
  pose proof (occurrences_app p (take i (mc_eventBuckets c)) (drop i (mc_eventBuckets c))) as Ha. rewrite take_drop in Ha.
  pose proof (remove_buckets_counted p (take i (mc_eventBuckets c)) c).
  rewrite set_buckets_counts. simpl. lia.
Qed.
Lemma current_bucket_occurrences p now l : occurrences p (current_bucket settings now l) = occurrences p l.
Proof.
  unfold current_bucket. destruct (last l) as [b|] eqn:E.
  - case_bool.
    + rewrite occurrences_app, occurrences_cons, new_paths, decide_False by set_solver. apply Z.add_0_r.
    + rewrite (last_split _ _ E) at 3. by rewrite !occurrences_app, !occurrences_cons, time_paths.
  - apply last_None in E as ->. rewrite occurrences_cons, new_paths, decide_False by set_solver. done.
Qed.
(** A caller that puts the paths [X] in the bucket. *)
Lemma update_last_occurrences p X f l :
  (∀ b, paths (f b) = X ∪ paths b) →
  (occurrences p (update_last f l) <= occurrences p l + if decide (p ∈ X) then 1 else 0)%Z.
Proof.
  intros Hf. unfold update_last. destruct (last l) as [b|] eqn:E.
  - rewrite (last_split _ _ E) at 3. rewrite !occurrences_app, !occurrences_cons, Hf.
    destruct (decide (p ∈ X ∪ paths b)) as [[Hu|Hu]%elem_of_union|].
    + rewrite (decide_True (P := p ∈ X)) by done. destruct (decide _); lia.
    + rewrite (decide_True (P := p ∈ paths b)) by done. destruct (decide _); lia.
    + destruct (decide _), (decide _); lia.
  - apply last_None in E as ->. destruct (decide _); unfold occurrences; simpl; lia.
Qed.
Lemma eventBucket_counted X now f c c' :
  (∀ b, paths (f b) = X ∪ paths b) →
  eventBucket settings now f c = Val c' → counted c →
  ∀ p, (occurrences p (mc_eventBuckets c') <= count_of p (counts c') + if decide (p ∈ X) then 1 else 0)%Z.
Proof.
  intros Hf H Hc p. unfold eventBucket in H. apply obind_Val in H as ([c1 i] & H1 & H). inv_val.
  apply coalesce_counted in H1.
  - pose proof (update_last_occurrences p X f (mc_eventBuckets c1) Hf). specialize (H1 p).
    rewrite set_buckets_counts. simpl. lia.
  - intros q. rewrite set_buckets_counts. simpl. rewrite current_bucket_occurrences. apply Hc.
Qed.
Lemma eventBucket_keeps_counted now f c c' :
  (∀ b, paths (f b) = paths b) → eventBucket settings now f c = Val c' → counted c → counted c'.
Proof.
  intros Hf H Hc p. assert (∀ b, paths (f b) = ∅ ∪ paths b) as Hf' by (intros b; rewrite Hf; set_solver).
  pose proof (eventBucket_counted ∅ now f c c' Hf' H Hc p) as Hp. rewrite decide_False in Hp by set_solver. lia.
Qed.
End Sized.

Section Claims.
Variable settings : MultiClientStatsSettings.

(** *** What the counts cover *)
Lemma run_op_counted now op c c' :
  run_op settings now op c = Val c' →
  counted eb_ip4Paths mc_ip4DestinationSourceCount c ∧ counted eb_ip6Paths mc_ip6DestinationSourceCount c →
  counted eb_ip4Paths mc_ip4DestinationSourceCount c' ∧ counted eb_ip6Paths mc_ip6DestinationSourceCount c'.
Proof.
  intros H [H4 H6].
  assert (∀ f c1 c2, (∀ b, eb_ip4Paths (f b) = eb_ip4Paths b) → (∀ b, eb_ip6Paths (f b) = eb_ip6Paths b) →
    counted eb_ip4Paths mc_ip4DestinationSourceCount c1 → counted eb_ip6Paths mc_ip6DestinationSourceCount c1 →
    eventBucket settings now f c1 = Val c2 →
    counted eb_ip4Paths mc_ip4DestinationSourceCount c2 ∧ counted eb_ip6Paths mc_ip6DestinationSourceCount c2) as Hk.
  { intros f c1 c2 Hf4 Hf6 H41 H61 He. split; by eapply eventBucket_keeps_counted. }
  destruct op as [k|k|k|ipPath|err|co est dn]; simpl in H; try by eapply Hk, H.
  - unfold addSource in H. destruct (Version ipPath =? 4)%Z; [|destruct (Version ipPath =? 6)%Z];
      apply obind_Val in H as (c1 & H1 & H); inv_val; split.
    + intros p. eapply (eventBucket_counted eb_ip4Paths mc_ip4DestinationSourceCount) with (X := {[ToIp4Path ipPath]}) (p := p) in H1; try done.
      simpl. rewrite path_count_add. rewrite (decide_ext (p = ToIp4Path ipPath) (p ∈ ({[ToIp4Path ipPath]} : gset Ip4Path))) by set_solver. exact H1.
    + by eapply (eventBucket_keeps_counted eb_ip6Paths mc_ip6DestinationSourceCount) in H1.
    + by eapply (eventBucket_keeps_counted eb_ip4Paths mc_ip4DestinationSourceCount) in H1.
    + intros p. eapply (eventBucket_counted eb_ip6Paths mc_ip6DestinationSourceCount) with (X := {[ToIp6Path ipPath]}) (p := p) in H1; try done.
      simpl. rewrite path_count_add. rewrite (decide_ext (p = ToIp6Path ipPath) (p ∈ ({[ToIp6Path ipPath]} : gset Ip6Path))) by set_solver. exact H1.
  - apply obind_Val in H as ([[c1 s] er] & H1 & H). inv_val.
    apply windowStats_state in H1 as (c2 & Hc & Hb & _ & Hm4 & Hm6 & _).
    assert (counted eb_ip4Paths mc_ip4DestinationSourceCount c2 ∧ counted eb_ip6Paths mc_ip6DestinationSourceCount c2) as [H42 H62].
    { destruct co; [|by subst]. destruct Hc as [i Hc]. split; by eapply coalesce_counted. }
    split; intros p; rewrite Hb; [rewrite Hm4; apply H42|rewrite Hm6; apply H62].
Qed.
Lemma run_ops_counted ops c c' :
  run_ops settings ops c = Val c' →
  counted eb_ip4Paths mc_ip4DestinationSourceCount c ∧ counted eb_ip6Paths mc_ip6DestinationSourceCount c →
  counted eb_ip4Paths mc_ip4DestinationSourceCount c' ∧ counted eb_ip6Paths mc_ip6DestinationSourceCount c'.
Proof.
  revert c. induction ops as [|[now op] ops IH]; intros c H Hc; simpl in H; [by inv_val|].
  apply obind_Val in H as (c1 & H1 & H). eapply IH; [done|]. by eapply run_op_counted.
Qed.
Lemma counted_new : counted eb_ip4Paths mc_ip4DestinationSourceCount newMultiClientStats
  ∧ counted eb_ip6Paths mc_ip6DestinationSourceCount newMultiClientStats.
Proof. split; intros p; unfold count_of; simpl; by rewrite lookup_empty. Qed.
Lemma counted_size {n} (paths : multiClientEventBucket → gset (IpNPath n)) counts c :
  counted paths counts c → size (⋃ (paths <$> mc_eventBuckets c)) ≤ all_counts (counts c).
Proof.
  intros Hc. apply sized_sources. intros p (X & HX & Hp)%elem_of_union_list.
  apply list_elem_of_fmap in HX as (b & -> & Hb). specialize (Hc p).
  pose proof (occurrences_elem paths p b _ Hb Hp). lia.
Qed.

(** A report counts every source of a packet that is in a bucket. *)
Theorem sources_are_counted ops c coalesce estimate is_done now c' s err :
  run_ops settings ops newMultiClientStats = Val c →
  windowStatsWithCoalesce settings coalesce estimate is_done now c = Val (c', s, err) →
  size (⋃ (eb_ip4Paths <$> mc_eventBuckets c')) + size (⋃ (eb_ip6Paths <$> mc_eventBuckets c')) ≤ ws_netSourceCount s.
Proof.
  intros Hr Hs.
  assert (run_op settings now (OpWindowStats coalesce estimate is_done) c = Val c') as Hop by (simpl; by rewrite Hs).
  apply windowStats_state in Hs as (c2 & _ & _ & _ & Hm4 & Hm6 & _ & _ & ->).
  destruct (run_op_counted _ _ _ _ Hop (run_ops_counted _ _ _ Hr counted_new)) as [H4%counted_size H6%counted_size].
  rewrite Hm4 in H4. rewrite Hm6 in H6. lia.
Qed.

(** *** The window *)
Definition bucket_time_ok (now : Z) (b : multiClientEventBucket) : Prop :=
  (eb_createTime b <= eb_eventTime b <= eb_createTime b + StatsWindowBucketDuration settings)%Z ∧ (eb_eventTime b <= now)%Z.
Definition before (a b : multiClientEventBucket) : Prop := (eb_eventTime a < eb_createTime b)%Z.
Definition window_ok (now : Z) (l : list multiClientEventBucket) : Prop :=
  Forall (bucket_time_ok now) l ∧ StronglySorted before l.
Fixpoint clock_ok (t : Z) (times : list Z) : Prop :=
  match times with [] => True | t' :: times => (t <= t')%Z ∧ clock_ok t' times end.

Fixpoint final_time (t : Z) (times : list Z) : Z :=
  match times with [] => t | t' :: times => final_time t' times end.

Lemma clock_ok_app t times now : clock_ok t (times ++ [now]) ↔ clock_ok t times ∧ (final_time t times <= now)%Z.
Proof. revert t. induction times as [|t' times IH]; intros t; simpl; [tauto|]. rewrite IH. tauto. Qed.
Lemma window_ok_app now l1 l2 :
  window_ok now (l1 ++ l2) ↔ window_ok now l1 ∧ window_ok now l2 ∧ Forall (λ a, Forall (before a) l2) l1.
Proof.
  assert (Forall (λ a, Forall (before a) l2) l1 ↔ (∀ a b, a ∈ l1 → b ∈ l2 → before a b)) as ->
    by (rewrite Forall_forall; setoid_rewrite Forall_forall; naive_solver).
  unfold window_ok. rewrite Forall_app, StronglySorted_app. naive_solver.
Qed.
Lemma window_ok_later now now' l : (now <= now')%Z → window_ok now l → window_ok now' l.
Proof. intros Hn [Hf Hs]. split; [|done]. eapply Forall_impl; [exact Hf|]. intros b [? ?]. split; [done|]. lia. Qed.
Lemma window_ok_same now l b b' :
  eb_createTime b' = eb_createTime b → (eb_eventTime b <= eb_eventTime b')%Z → bucket_time_ok now b' →
  window_ok now (l ++ [b]) → window_ok now (l ++ [b']).
Proof.
  intros Hc He Hb (H1 & _ & Hx)%window_ok_app. apply window_ok_app. split; [done|]. split.
  - split; [by apply Forall_singleton|]. constructor; constructor.
  - eapply Forall_impl; [exact Hx|]. intros a [Ha _]%Forall_cons. apply Forall_singleton. unfold before in *. lia.
Qed.
Lemma current_bucket_ok t now l :
  (0 <= StatsWindowBucketDuration settings)%Z → (t <= now)%Z → window_ok t l → window_ok now (current_bucket settings now l).
Proof.
  intros HB Ht Hl%(window_ok_later t now); [|done]. unfold current_bucket.
  assert (bucket_time_ok now (newMultiClientEventBucket now)) as Hnew by (split; simpl; lia).
  destruct (last l) as [b|] eqn:E.
  - rewrite (last_split _ _ E) in Hl. case_bool.
    + apply window_ok_app. rewrite (last_split _ _ E). split; [done|]. split.
      * split; [by apply Forall_singleton|]. constructor; constructor.
      * apply window_ok_app in Hl as (_ & [[Hb _]%Forall_cons _] & Hx). destruct Hb as [Hb1 Hb2].
        apply Forall_app. split; [|apply Forall_singleton, Forall_singleton; unfold before; simpl; lia].
        eapply Forall_impl; [exact Hx|]. intros a [Ha _]%Forall_cons. apply Forall_singleton. unfold before in *. simpl. lia.
    + pose proof (proj1 (window_ok_app _ _ _) Hl) as (_ & [[Hb _]%Forall_cons _] & _). destruct Hb as [Hb1 Hb2].
      eapply window_ok_same; [..|exact Hl]; simpl; [done|lia|]. split; simpl; lia.
  - split; [by apply Forall_singleton|]. constructor; constructor.
Qed.
Lemma drop_window_ok now i l : window_ok now l → window_ok now (drop i l).
Proof. intros H. rewrite <-(take_drop i l) in H. by apply window_ok_app in H as (_ & H & _). Qed.
Lemma older_kept now ws l :
  window_ok now l → Forall (λ b, ws <= eb_eventTime b)%Z (drop (older_count ws l) l).
Proof.
  induction l as [|b l IH]; intros [Hf Hs]; simpl; [constructor|].
  apply Forall_cons in Hf as [Hb Hf]. apply StronglySorted_inv in Hs as [Hs Hx].
  case_bool; simpl; [by apply IH|]. constructor; [done|].
  pose proof (proj1 (Forall_forall _ _) Hf) as Hf'. rewrite Forall_forall in Hx |- *. intros x Hin.
  specialize (Hx _ Hin). destruct (Hf' _ Hin) as [? _]. unfold before in Hx. lia.
Qed.
Lemma coalesce_window now c c' i :
  coalesceEventBuckets settings now c = Val (c', i) → window_ok now (mc_eventBuckets c) →
  window_ok now (mc_eventBuckets c')
  ∧ Forall (λ b, now - StatsWindowDuration settings <= eb_eventTime b)%Z (mc_eventBuckets c')
  ∧ ∃ k, minBucketCount settings = Val k ∧ length (mc_eventBuckets c') ≤ k.
Proof.
  intros (k & Hk & -> & ->)%coalesce_inv Hw. simpl. split; [by apply drop_window_ok|].
  unfold drop_count. case_bool.
  - rewrite drop_all. split; [constructor|]. exists k. split; [done|simpl; lia].
  - split; [by eapply older_kept|]. exists k. split; [done|]. rewrite length_drop. lia.
Qed.
Lemma eventBucket_window t now f c c' :
  (0 <= StatsWindowBucketDuration settings)%Z → (t <= now)%Z →
  (∀ b, eb_createTime (f b) = eb_createTime b ∧ eb_eventTime (f b) = eb_eventTime b) →
  eventBucket settings now f c = Val c' → window_ok t (mc_eventBuckets c) → window_ok now (mc_eventBuckets c').
Proof.
  intros HB Ht Hf H Hw. unfold eventBucket in H. apply obind_Val in H as ([c1 i] & H1 & H). inv_val.
  apply coalesce_window in H1 as (H1 & _); [|by eapply current_bucket_ok]. simpl. unfold update_last.
  destruct (last _) as [b|] eqn:E; [|split; constructor].
  rewrite (last_split _ _ E) in H1. destruct (Hf b) as [Hf1 Hf2].
  pose proof (proj1 (window_ok_app _ _ _) H1) as (_ & [[Hb _]%Forall_cons _] & _).
  eapply window_ok_same; [..|exact H1]; [done|lia|]. unfold bucket_time_ok in *. lia.
Qed.
Lemma run_op_window t now op c c' :
  (0 <= StatsWindowBucketDuration settings)%Z → (t <= now)%Z →
  run_op settings now op c = Val c' → window_ok t (mc_eventBuckets c) → window_ok now (mc_eventBuckets c').
Proof.
  intros HB Ht H Hw. destruct op as [k|k|k|ipPath|err|co est dn]; simpl in H;
    try by eapply eventBucket_window in H.
  - unfold addSource in H. destruct (Version ipPath =? 4)%Z; [|destruct (Version ipPath =? 6)%Z];
      apply obind_Val in H as (c1 & H1 & H); inv_val; by eapply eventBucket_window in H1.
  - apply obind_Val in H as ([[c1 s] er] & H1 & H). inv_val.
    apply windowStats_state in H1 as (c2 & Hc & -> & _). apply (window_ok_later t now) in Hw; [|done].
    destruct co; [|by subst]. destruct Hc as [i Hc]. by apply coalesce_window in Hc as (Hc & _).
Qed.
Lemma run_ops_window t ops c c' :
  (0 <= StatsWindowBucketDuration settings)%Z → clock_ok t ops.*1 →
  run_ops settings ops c = Val c' → window_ok t (mc_eventBuckets c) →
  window_ok (final_time t ops.*1) (mc_eventBuckets c').
Proof.
  intros HB. revert t c. induction ops as [|[now op] ops IH]; intros t c Hc H Hw; simpl in H; [by inv_val|].
  apply obind_Val in H as (c1 & H1 & H). simpl in Hc. destruct Hc as [Ht Hc].
  eapply run_op_window in H1; [|done..]. by eapply (IH now c1).
Qed.
Lemma window_duration_bounds now start l :
  (0 <= StatsWindowBucketDuration settings)%Z → (start <= now)%Z → window_ok now l → Forall (λ b, start <= eb_eventTime b)%Z l →
  (0 <= window_duration l <= now - start + StatsWindowBucketDuration settings)%Z.
Proof.
  intros HB Hs Hw Hf. unfold window_duration. destruct l as [|b l]; [lia|].
  destruct (last (b :: l)) as [e|] eqn:E; [|lia].
  apply Forall_cons in Hf as [Hb _]. pose proof (proj1 Hw) as Ht.
  pose proof (proj1 (Forall_cons _ _ _) Ht) as [[Hb1 Hb2] _].
  assert (bucket_time_ok now e) as [He1 He2].
  { rewrite Forall_forall in Ht. apply Ht. apply last_Some_elem_of in E. done. }
  assert (e = b ∨ before b e) as [->|Hbe]; [|lia|unfold before in Hbe; lia].
  destruct l as [|x l]; [left; by injection E|]. right. destruct Hw as [_ Hss].
  apply StronglySorted_inv in Hss as [_ Hx]. rewrite Forall_forall in Hx. apply Hx.
  change (last (x :: l) = Some e) in E. by apply last_Some_elem_of in E.
Qed.
Lemma full_buckets_prefix l : ∃ l2, l = full_buckets l ++ l2.
Proof. exists (drop (length l - 2) l). unfold full_buckets. by rewrite take_drop. Qed.

(** With a clock that does not go back, a report is about the window: the
    buckets kept are of its time and no more than fit, and the duration of the
    report is at most the window and a bucket. *)
Theorem report_is_of_window t ops c estimate is_done now c' s err :
  (0 <= StatsWindowBucketDuration settings)%Z → (0 <= StatsWindowDuration settings)%Z →
  clock_ok t (ops.*1 ++ [now]) →
  run_ops settings ops newMultiClientStats = Val c →
  windowStatsWithCoalesce settings true estimate is_done now c = Val (c', s, err) →
  (0 <= ws_windowDuration s <= StatsWindowDuration settings + StatsWindowBucketDuration settings)%Z
  ∧ Forall (λ b, now - StatsWindowDuration settings <= eb_eventTime b <= now)%Z (mc_eventBuckets c')
  ∧ ∃ k, minBucketCount settings = Val k ∧ length (mc_eventBuckets c') ≤ k.
Proof.
  intros HB HW [Hc Ht]%clock_ok_app Hr Hs.
  apply windowStats_state in Hs as (c2 & [i Hco] & -> & _ & _ & _ & -> & _).
  assert (window_ok t (mc_eventBuckets newMultiClientStats)) as Hw by (split; constructor).
  eapply run_ops_window in Hr; [|done..]. apply (window_ok_later _ now) in Hr; [|done].
  apply coalesce_window in Hco as (Hw2 & Hf & Hk); [|done].
  destruct (full_buckets_prefix (mc_eventBuckets c2)) as [l2 El]. split; [|split; [|done]].
  - rewrite El in Hw2, Hf. apply window_ok_app in Hw2 as [Hw2 _]. apply Forall_app in Hf as [Hf _].
    pose proof (window_duration_bounds now (now - StatsWindowDuration settings) _ HB ltac:(lia) Hw2 Hf). lia.
  - destruct Hw2 as [Hw2 _]. rewrite Forall_forall in Hf, Hw2 |- *. intros b Hb. destruct (Hw2 b Hb). specialize (Hf b Hb). lia.
Qed.
End Claims.

(** ** Health *)
Section Health.
(** The reports that tell, at their times. *)
Fixpoint health_run (reports : list (Z * bool)) (h : healthState) : healthState :=
  match reports with
  | [] => h
  | (eventTime, healthy) :: reports => health_run reports (health_step eventTime healthy h).1.1
  end.
Definition newHealth : healthState := mc_health newMultiClientStats.
(** At [t], since [t0]: the net durations reach to the last change. *)
Definition health_ok (t0 t : Z) (h : healthState) : Prop :=
  ∃ a b, hs_lastHealthyTime h = Some a ∧ hs_lastUnhealthyTime h = Some b ∧ (0 <= hs_netHealthyDuration h)%Z ∧ (0 <= hs_netUnhealthyDuration h)%Z ∧
    if hs_healthy h then (b <= a ∧ a = t ∧ hs_netHealthyDuration h + hs_netUnhealthyDuration h = b - t0)%Z
    else (a <= b ∧ b = t ∧ hs_netHealthyDuration h + hs_netUnhealthyDuration h = a - t0)%Z.

Lemma health_first t healthy : health_ok t t (health_step t healthy newHealth).1.1.
Proof. exists t, t. destruct healthy; simpl; repeat split; lia. Qed.
Lemma health_next t0 t t' healthy h : (t <= t')%Z → health_ok t0 t h → health_ok t0 t' (health_step t' healthy h).1.1.
Proof.
  intros Ht (a & b & Ea & Eb & H1 & H2 & H3). unfold health_ok, health_step.
  destruct healthy, (hs_healthy h) eqn:Eh; simpl; rewrite ?Ea, ?Eb; simpl; do 2 eexists; repeat split; lia.
Qed.
Lemma health_reports t0 t reports h :
  clock_ok t reports.*1 → health_ok t0 t h → health_ok t0 (final_time t reports.*1) (health_run reports h).
Proof.
  revert t h. induction reports as [|[t' b] reports IH]; intros t h Hc H; [done|].
  destruct Hc as [Ht Hc]. simpl. apply IH; [done|]. by eapply health_next.
Qed.

(** The time since the first report is the time healthy and the time not:
    what a report adds to the net durations makes them up to its time. *)
Theorem health_times_add_up t0 b0 reports t healthy h' healthyDuration unhealthyDuration :
  clock_ok t0 (reports.*1 ++ [t]) →
  health_step t healthy (health_run ((t0, b0) :: reports) newHealth) = (h', healthyDuration, unhealthyDuration) →
  (0 <= hs_netHealthyDuration h' + healthyDuration ∧ 0 <= hs_netUnhealthyDuration h' + unhealthyDuration
   ∧ hs_netHealthyDuration h' + healthyDuration + (hs_netUnhealthyDuration h' + unhealthyDuration) = t - t0)%Z.
Proof.
  intros [Hc Ht]%clock_ok_app Hs. simpl in Hs.
  pose proof (health_reports t0 t0 reports _ Hc (health_first t0 b0)) as (a & b & Ea & Eb & H1 & H2 & H3).
  set (h := health_run reports _) in *. clearbody h. unfold health_step in Hs.
  destruct (hs_healthy h), healthy; rewrite ?Ea, ?Eb in Hs; simpl in Hs; injection Hs as <- <- <-; simpl; lia.
Qed.
End Health.

Module StatsExample.
Definition settings : MultiClientStatsSettings := {|
  StatsWindowDuration := 20; StatsWindowBucketDuration := 10; StatsWindowGraceperiod := 20;
  StatsWindowMaxEstimatedByteCountPerSecond := 1000; StatsSourceCountSelection := (9 # 10)%Q;
  MaxClientLifetime := 1000; BlackholeTimeout := seconds 15 |}.
Definition path (client : Z) : IpPath :=
  flow_path 4 IpProtocolTcp [byte_of 10; byte_of 0; byte_of 0; byte_of client] 4000 [byte_of 1; byte_of 1; byte_of 1; byte_of 1] 443.
Definition acks (times : list Z) : list (Z * stats_op) := (λ t, (t, OpSendAck 100)) <$> times.

(** Two packets of a source in a bucket count as two, and as one less when the
    bucket goes: the source stays. *)
Example source_not_forgotten :
  match run_ops settings [(0, OpSource (path 1)); (1, OpSource (path 1)); (100, OpWindowStats true 0 false)]%Z newMultiClientStats with
  | Val c => (length (mc_eventBuckets c), all_counts (mc_ip4DestinationSourceCount c)) = (0, 1)
  | _ => False
  end.
Proof. vm_compute. reflexivity. Qed.

(** Acks at most 11 apart fill the window of 20 so that the next bucket finds
    one that is due as well: all go, and an ack is in the sum for good. *)
Example window_dropped :
  match run_ops settings (acks [0; 10; 11; 22; 30; 33]%Z) newMultiClientStats with
  | Val c => (length (mc_eventBuckets c), ps_sendAckCount (mc_packetStats c)) = (0, 1%Z)
  | _ => False
  end.
Proof. vm_compute. reflexivity. Qed.
Example window_stays :
  match run_ops settings (acks [0; 10; 11; 22; 31; 33]%Z) newMultiClientStats with
  | Val c => (length (mc_eventBuckets c), ps_sendAckCount (mc_packetStats c)) = (2, 3%Z)
  | _ => False
  end.
Proof. vm_compute. reflexivity. Qed.

(** A millisecond after its first packet, no time is known for it. *)
Example blackhole_at_once :
  match run_ops DefaultMultiClientStatsSettings [(0, OpSendNack 100)]%Z newMultiClientStats with
  | Val c => match windowStatsWithCoalesce DefaultMultiClientStatsSettings true 0 false millisecond c with
             | Val (_, s, _) => blackhole DefaultMultiClientStatsSettings millisecond s = true
             | _ => False
             end
  | _ => False
  end.
Proof. vm_compute. reflexivity. Qed.

(** The highest percentile of no sources. *)
Example no_sources_panic :
  max_source_count (mkMultiClientStatsSettings 20 10 20 1000 1 1000 15) [] = Panic "index out of range".
Proof. vm_compute. reflexivity. Qed.

(** The bytes of the latest buckets are over the time of the others. *)
Example rate_of_partial_buckets :
  match run_ops DefaultMultiClientStatsSettings
    [(0, OpReceiveAck 1); (seconds 1, OpReceiveAck 1); (seconds 2, OpReceiveAck 1000000); (seconds 4, OpReceiveAck 1000000)]%Z
    newMultiClientStats with
  | Val c => match windowStatsWithCoalesce DefaultMultiClientStatsSettings true 0 false (seconds 4) c with
             | Val (_, s, _) => (ws_windowDuration s, EffectiveByteCountPerSecond (ws_windowDuration s) (ws_packetStats s)) = (seconds 1, 2000002)%Z
             | _ => False
             end
  | _ => False
  end.
Proof. vm_compute. reflexivity. Qed.

Lemma settings_ok : stats_settings_ok settings.
Proof. split; [done|]. split; [done|]. reflexivity. Qed.
Lemma stats_follow_buckets_witness :
  ∃ c, run_ops settings (acks [0; 10; 11; 22; 30; 33]%Z) newMultiClientStats = Val c
    ∧ counter_total SendAcks (mc_packetStats c) =
      (in_buckets SendAcks (mc_eventBuckets c) + unbucketed settings SendAcks (acks [0; 10; 11; 22; 30; 33]%Z) newMultiClientStats)%Z.
Proof. apply (stats_follow_buckets settings SendAcks (acks [0; 10; 11; 22; 30; 33]%Z)); [exact settings_ok|]. repeat constructor. Defined.

Definition sources : list (Z * stats_op) := [(0, OpSource (path 1)); (1, OpSource (path 2)); (2, OpSource (path 1))]%Z.
Definition or_new (m : outcome multiClientStats) : multiClientStats := match m with Val c => c | _ => newMultiClientStats end.
Definition after_sources : multiClientStats := or_new (run_ops settings sources newMultiClientStats).
Definition report (c : multiClientStats) : multiClientStats * clientWindowStats * option string :=
  match windowStatsWithCoalesce settings true 0 false 5 c with
  | Val x => x
  | _ => (c, mkWindowStats 0 0 (mkPacketStats 0 0 0 0 0 0) 0 None None 0 0 0 0 0 0 0 false None None, None)
  end.
Lemma or_new_run m : is_val m = true → m = Val (or_new m).
Proof. by destruct m. Qed.
Lemma report_run c : is_val (windowStatsWithCoalesce settings true 0 false 5 c) = true →
  windowStatsWithCoalesce settings true 0 false 5 c = Val ((report c).1.1, (report c).1.2, (report c).2).
Proof. unfold report. by destruct (windowStatsWithCoalesce _ _ _ _ _ _) as [[[??]?]| |]. Qed.
Lemma sources_are_counted_witness :
  size (⋃ (eb_ip4Paths <$> mc_eventBuckets (report after_sources).1.1))
  + size (⋃ (eb_ip6Paths <$> mc_eventBuckets (report after_sources).1.1)) ≤ ws_netSourceCount (report after_sources).1.2
  ∧ ws_netSourceCount (report after_sources).1.2 = 2.
Proof.
  split; [|vm_compute; reflexivity].
  apply (sources_are_counted settings sources after_sources true 0 false 5 (report after_sources).1.1 (report after_sources).1.2
    (report after_sources).2); [apply or_new_run|apply report_run]; vm_compute; reflexivity.
Defined.

Definition after_acks : multiClientStats := or_new (run_ops settings (acks [0; 4; 5]%Z) newMultiClientStats).
Lemma report_is_of_window_witness :
  (0 <= ws_windowDuration (report after_acks).1.2 <= StatsWindowDuration settings + StatsWindowBucketDuration settings)%Z
  ∧ Forall (λ b, 5 - StatsWindowDuration settings <= eb_eventTime b <= 5)%Z (mc_eventBuckets (report after_acks).1.1)
  ∧ ∃ k, minBucketCount settings = Val k ∧ length (mc_eventBuckets (report after_acks).1.1) ≤ k.
Proof.
  apply (report_is_of_window settings 0 (acks [0; 4; 5]%Z) after_acks 0 false 5 (report after_acks).1.1 (report after_acks).1.2
    (report after_acks).2); try (vm_compute; reflexivity); vm_compute; repeat split; discriminate.
Defined.

Definition health_reports : list (Z * bool) := [(1, true); (3, false); (7, true)]%Z.
Definition report_at_8 : healthState * Z * Z := health_step 8 true (health_run ((0, false) :: health_reports)%Z newHealth).
Lemma health_times_add_up_witness :
  (0 <= hs_netHealthyDuration report_at_8.1.1 + report_at_8.1.2 ∧ 0 <= hs_netUnhealthyDuration report_at_8.1.1 + report_at_8.2
   ∧ hs_netHealthyDuration report_at_8.1.1 + report_at_8.1.2 + (hs_netUnhealthyDuration report_at_8.1.1 + report_at_8.2) = 8 - 0)%Z.
Proof.
  apply (health_times_add_up 0 false health_reports 8 true report_at_8.1.1 report_at_8.1.2 report_at_8.2);
    [simpl; lia|vm_compute; reflexivity].
Defined.
End StatsExample.
