(* ===== verification/MultiClient.v ===== *)
(** * The routing of flows to clients: ip_remote_multi_client.go

    A [RemoteUserNatMultiClient] sends the packets of a flow through one client
    of many. The flow has an update, which holds the client once it is chosen:
    by affinity, as the only one in the window, or by a race between the clients
    that the first packets were sent to. The state changes in sections under one
    lock; a transition system of these sections interleaves sends, receives, the
    ends of races, idle flows and the removal of clients. Clients, updates and
    races are pointers: numbers, into a heap where they have fields. What a
    section decides to deliver, reset or return is in variables of its goroutine,
    which does it after the lock is released, one call at a time. *)

From S2P Require Import Prelude Ids Ip.
From Stdlib Require Import QArith.QArith_base QArith.Qround.
Close Scope Q_scope.
Open Scope go_scope.

Record MultiClientSettings := mkMultiClientSettings {
  SequenceIdleTimeout : Z;
  MultiRaceSetOnNoResponseTimeout : Z;
  MultiRaceClientSentPacketMaxCount : Z;
  MultiRaceClientPacketMaxCount : nat;
  MultiRacePacketMaxCount : Z;
  MultiRaceClientEarlyCompleteFraction : Q;
  MultiRaceClientCount : nat;
  DestinationAffinity : bool;
  TcpCollapsePrevention : bool
}.
Definition DefaultMultiClientSettings : MultiClientSettings := {|
  SequenceIdleTimeout := 120 * second;
  MultiRaceSetOnNoResponseTimeout := 5 * second;
  MultiRaceClientSentPacketMaxCount := 16;
  MultiRaceClientPacketMaxCount := 8;
  MultiRacePacketMaxCount := 32;
  MultiRaceClientEarlyCompleteFraction := (1 # 4)%Q;
  MultiRaceClientCount := 0;
  DestinationAffinity := true;
  TcpCollapsePrevention := true
|}.

(** ** Window types *)
Inductive WindowType := WindowTypeQuality | WindowTypeSpeed.
Definition selectWindowTypes (performanceProfile : option WindowType) (ipPath : IpPath) : list WindowType :=
  match performanceProfile with
  | Some windowType => [windowType]
  | None => if (DestinationPort ipPath =? 443)%Z then [WindowTypeQuality; WindowTypeSpeed] else [WindowTypeSpeed; WindowTypeQuality]
  end.

(** ** Data *)
(** [rp_client] is not in the code: the client the packet came from. *)
Record receivePacket := mkReceivePacket {
  rp_client : nat;
  rp_Source : TransferPath;
  rp_ProvideMode : Z;
  rp_IpPath : IpPath;
  rp_Packet : list byte;
  rp_Pooled : bool
}.
Definition set_pooled (b : bool) (p : receivePacket) : receivePacket :=
  mkReceivePacket (rp_client p) (rp_Source p) (rp_ProvideMode p) (rp_IpPath p) (rp_Packet p) b.

(** A packet from a client, as one of the flow it answers. *)
Definition reversed (p : receivePacket) : receivePacket :=
  mkReceivePacket (rp_client p) (rp_Source p) (rp_ProvideMode p) (IpPath_Reverse (rp_IpPath p)) (rp_Packet p) false.

Record raceClientState := mkRaceClientState {
  rc_sendTime : Z;
  rc_receiveTime : option Z;
  rc_packets : list receivePacket;
  rc_sentPacketCount : Z
}.
(** [r_ipPath], [r_scheduled]: the goroutine that completes the race. *)
Record updateRace := mkRace {
  r_clientStates : gmap nat raceClientState;
  r_sentPacketCount : Z;
  r_packetCount : Z;
  r_clientsWithPacketCount : Z;
  r_done : bool;
  r_complete : bool;
  r_ipPath : IpPath;
  r_scheduled : bool
}.
Definition newRace (ipPath : IpPath) : updateRace := mkRace ∅ 0 0 0 false false ipPath true.

(** [u_done]: the context; [u_running]: the goroutine that waits for idle. *)
Record channelUpdate := mkUpdate {
  u_client : option nat;
  u_race : option nat;
  u_activityTime : Z;
  u_ipPath : IpPath;
  u_normalPacketCount : Z;
  u_sequenceNumber : Z;
  u_done : bool;
  u_running : bool
}.
Definition newUpdate (closed : bool) (ipPath : IpPath) : channelUpdate := mkUpdate None None 0 ipPath 0 0 closed true.
Definition set_client (c : option nat) (u : channelUpdate) : channelUpdate :=
  mkUpdate c (u_race u) (u_activityTime u) (u_ipPath u) (u_normalPacketCount u) (u_sequenceNumber u) (u_done u) (u_running u).
Definition set_race (r : option nat) (u : channelUpdate) : channelUpdate :=
  mkUpdate (u_client u) r (u_activityTime u) (u_ipPath u) (u_normalPacketCount u) (u_sequenceNumber u) (u_done u) (u_running u).
Definition set_activity (now : Z) (u : channelUpdate) : channelUpdate :=
  mkUpdate (u_client u) (u_race u) now (u_ipPath u) (u_normalPacketCount u) (u_sequenceNumber u) (u_done u) (u_running u).
(** A packet was sent to the client. *)
Definition count_packet (sequenceNumber : Z) (u : channelUpdate) : channelUpdate :=
  mkUpdate (u_client u) (u_race u) (u_activityTime u) (u_ipPath u) (u_normalPacketCount u + 1)
    (if u_sequenceNumber u <? sequenceNumber then sequenceNumber else u_sequenceNumber u)%Z (u_done u) (u_running u).
Definition cancel_update (running : bool) (u : channelUpdate) : channelUpdate :=
  mkUpdate (u_client u) (u_race u) (u_activityTime u) (u_ipPath u) (u_normalPacketCount u) (u_sequenceNumber u) true running.

(** The paths of one version: their updates, and by destination the paths with
    their times. *)
Record path_table (n : nat) := mkTable {
  pt_updates : gmap (IpNPath n) nat;
  pt_affinity : gmap (IpNPath n) (gmap (IpNPath n) Z)
}.
Arguments mkTable {n}.
Arguments pt_updates {n}.
Arguments pt_affinity {n}.

(** The order in which a loop over a map goes through it: any. *)
Record iteration := mkIteration {
  it_order {n} : gmap (IpNPath n) Z → list (IpNPath n * Z);
  it_all {n} (m : gmap (IpNPath n) Z) : it_order m ≡ₚ map_to_list m
}.
(** [time.After], with the zero time before all. *)
Definition after (t : Z) (u : option Z) : bool := match u with Some u => (u <? t)%Z | None => true end.

(** What a section decides on for a flow. A reset is the packet of [ipOosRst], if
    it makes one. The last two are not calls, and note what the section did: the
    race of a flow went over its limits, and a client replaced another. *)
Inductive output :=
| ODeliver (u : nat) (p : receivePacket)
| OResetSource (u : nat) (ipPath : IpPath) (packet : outcome (option (list byte)))
| OResetClient (c : nat) (ipPath : IpPath) (packet : outcome (option (list byte)))
| OReturn (packet : list byte)
| OLimit (u : nat)
| OReplaced (u : nat).
Definition is_effect (o : output) : bool := match o with OLimit _ | OReplaced _ => false | _ => true end.
(** A goroutine: a call, or one of those of a race in it. *)
Definition key : Type := nat * option nat.
(** What the sections decided, in the order of the lock; what the goroutines hold
    in [receivePackets], [rstPackets], [abandonedClients] and [returnPackets] and
    have not done yet; what was done, in order. *)
Record effects := mkEffects {
  ef_decided : list (key * output);
  ef_pending : gmap key (list output);
  ef_done : list (key * output)
}.

(** ** Calls in flight *)
(** A goroutine of a race: before its checks, sending, after the section. *)
Inductive race_pc := RStart | RSending | ROut.
#[export] Instance race_pc_eq_dec : EqDecision race_pc.
Proof. solve_decision. Defined.
(** Where a send is. [SRace]: the goroutines that are not done, and the number of
    successes. [SResets]: before the test of the context that comes before
    resets. [SOut]: doing what is pending. *)
Inductive send_pc :=
| SCheck
| SCurrent
| SDirect (c : nat)
| SSelect
| SSingle (c : nat)
| SRace (todo : gmap nat race_pc) (successCount : nat)
| SResets
| SOut.
Inductive call_kind :=
| KSend (ipPath : IpPath) (packet : list byte) (pc : send_pc)
| KReceive (p : receivePacket)
| KComplete (race : nat)
| KFinal.
Record call := mkCall {
  ca_update : nat;
  ca_previous : option nat;
  ca_kind : call_kind
}.
Definition set_kind (k : call_kind) (ca : call) : call := mkCall (ca_update ca) (ca_previous ca) k.

(** [mu_nextUpdate], [mu_nextRace]: pointers not given out yet. [mu_ends]: the
    goroutines that only have pending calls left, and whether they still test the
    context before. *)
Record multiClient := mkMultiClient {
  mu_ip4 : path_table 4;
  mu_ip6 : path_table 16;
  mu_clientUpdates : gmap nat (gset nat);
  mu_updates : gmap nat channelUpdate;
  mu_nextUpdate : nat;
  mu_races : gmap nat updateRace;
  mu_nextRace : nat;
  mu_clientDone : gset nat;
  mu_clientWarning : gset nat;
  mu_closed : bool;
  mu_calls : gmap nat call;
  mu_ends : gmap nat bool;
  mu_log : effects
}.
Definition newMultiClient : multiClient :=
  mkMultiClient (mkTable ∅ ∅) (mkTable ∅ ∅) ∅ ∅ 0 ∅ 0 ∅ ∅ false ∅ ∅ (mkEffects [] ∅ []).
Definition set_tables (t4 : path_table 4) (t6 : path_table 16) (s : multiClient) : multiClient :=
  mkMultiClient t4 t6 (mu_clientUpdates s) (mu_updates s) (mu_nextUpdate s) (mu_races s) (mu_nextRace s)
    (mu_clientDone s) (mu_clientWarning s) (mu_closed s) (mu_calls s) (mu_ends s) (mu_log s).
Definition set_clientUpdates (m : gmap nat (gset nat)) (s : multiClient) : multiClient :=
  mkMultiClient (mu_ip4 s) (mu_ip6 s) m (mu_updates s) (mu_nextUpdate s) (mu_races s) (mu_nextRace s)
    (mu_clientDone s) (mu_clientWarning s) (mu_closed s) (mu_calls s) (mu_ends s) (mu_log s).
Definition set_updates (m : gmap nat channelUpdate) (s : multiClient) : multiClient :=
  mkMultiClient (mu_ip4 s) (mu_ip6 s) (mu_clientUpdates s) m (mu_nextUpdate s) (mu_races s) (mu_nextRace s)
    (mu_clientDone s) (mu_clientWarning s) (mu_closed s) (mu_calls s) (mu_ends s) (mu_log s).
Definition set_races (m : gmap nat updateRace) (s : multiClient) : multiClient :=
  mkMultiClient (mu_ip4 s) (mu_ip6 s) (mu_clientUpdates s) (mu_updates s) (mu_nextUpdate s) m (mu_nextRace s)
    (mu_clientDone s) (mu_clientWarning s) (mu_closed s) (mu_calls s) (mu_ends s) (mu_log s).
Definition set_calls (m : gmap nat call) (s : multiClient) : multiClient :=
  mkMultiClient (mu_ip4 s) (mu_ip6 s) (mu_clientUpdates s) (mu_updates s) (mu_nextUpdate s) (mu_races s) (mu_nextRace s)
    (mu_clientDone s) (mu_clientWarning s) (mu_closed s) m (mu_ends s) (mu_log s).
Definition set_clients (is_done warning : gset nat) (s : multiClient) : multiClient :=
  mkMultiClient (mu_ip4 s) (mu_ip6 s) (mu_clientUpdates s) (mu_updates s) (mu_nextUpdate s) (mu_races s) (mu_nextRace s)
    is_done warning (mu_closed s) (mu_calls s) (mu_ends s) (mu_log s).
Definition set_ends (m : gmap nat bool) (s : multiClient) : multiClient :=
  mkMultiClient (mu_ip4 s) (mu_ip6 s) (mu_clientUpdates s) (mu_updates s) (mu_nextUpdate s) (mu_races s) (mu_nextRace s)
    (mu_clientDone s) (mu_clientWarning s) (mu_closed s) (mu_calls s) m (mu_log s).
Definition set_log (l : effects) (s : multiClient) : multiClient :=
  mkMultiClient (mu_ip4 s) (mu_ip6 s) (mu_clientUpdates s) (mu_updates s) (mu_nextUpdate s) (mu_races s) (mu_nextRace s)
    (mu_clientDone s) (mu_clientWarning s) (mu_closed s) (mu_calls s) (mu_ends s) l.
Definition pending_of (s : multiClient) (k : key) : list output := default [] (ef_pending (mu_log s) !! k).
(** A section of a goroutine decides. *)
Definition emit (k : key) (l : list output) (s : multiClient) : multiClient :=
  set_log (mkEffects (ef_decided (mu_log s) ++ (pair k <$> l))
    (<[k := pending_of s k ++ filter is_effect l]> (ef_pending (mu_log s))) (ef_done (mu_log s))) s.
(** A goroutine makes its next call. *)
Definition perform (k : key) (s : multiClient) : option multiClient :=
  match pending_of s k with
  | o :: l => Some (set_log (mkEffects (ef_decided (mu_log s)) (<[k := l]> (ef_pending (mu_log s))) (ef_done (mu_log s) ++ [(k, o)])) s)
  | [] => None
  end.
(** The resets are not sent when the context is done. *)
Definition drop_if_closed (k : key) (s : multiClient) : multiClient :=
  if mu_closed s then set_log (mkEffects (ef_decided (mu_log s)) (delete k (ef_pending (mu_log s))) (ef_done (mu_log s))) s else s.
Definition at_update (u : nat) (f : channelUpdate → channelUpdate) (s : multiClient) : multiClient :=
  set_updates (alter f u (mu_updates s)) s.
Definition at_race (r : nat) (f : updateRace → updateRace) (s : multiClient) : multiClient :=
  set_races (alter f r (mu_races s)) s.
Definition client_of (s : multiClient) (u : nat) : option nat := mu_updates s !! u ≫= u_client.
Definition race_of (s : multiClient) (u : nat) : option (nat * updateRace) :=
  r ← mu_updates s !! u ≫= u_race; x ← mu_races s !! r; Some (r, x).
Definition is_done (s : multiClient) (u : nat) : bool :=
  match mu_updates s !! u with Some x => u_done x | None => false end.

(** ** Sections under the lock *)
Section MultiClient.
Context `{GoPacket}.
Variable settings : MultiClientSettings.

Definition reset_source (u : nat) (ipPath : IpPath) : output := OResetSource u ipPath (ipOosRst (IpPath_Reverse ipPath)).
Definition reset_client (ipPath : IpPath) (c : nat) : output := OResetClient c ipPath (ipOosRst ipPath).

(** *** Updates *)
Definition add_path {n} (now : Z) (path : IpNPath n) (u : nat) (t : path_table n) : path_table n :=
  mkTable (<[path := u]> (pt_updates t))
    (if DestinationAffinity settings then
       <[IpNPath_Destination path := <[path := now]> (default ∅ (pt_affinity t !! IpNPath_Destination path))]> (pt_affinity t)
     else pt_affinity t).
Definition remove_path {n} (path : IpNPath n) (t : path_table n) : path_table n :=
  mkTable (delete path (pt_updates t))
    (if DestinationAffinity settings then
       match pt_affinity t !! IpNPath_Destination path with
       | Some paths =>
           let paths := delete path paths in
           if bool_decide (paths = ∅) then delete (IpNPath_Destination path) (pt_affinity t)
           else <[IpNPath_Destination path := paths]> (pt_affinity t)
       | None => pt_affinity t
       end
     else pt_affinity t).
(** A turn of the loop over the paths of the destination, with the latest time so
    far, none at first, and the client of the update: what the loop set it to is
    also the client of the path itself, [path], when the loop comes to it.
    Version 6 does not look at the warning. *)
Definition affinity_visit {n} (warnings : bool) (t : path_table n) (s : multiClient) (path : IpNPath n)
    (best : option Z * option nat) (x : IpNPath n * Z) : option Z * option nat :=
  let '(mostRecentCreateTime, client) := best in
  let '(copyPath, createTime) := x in
  match pt_updates t !! copyPath with
  | Some copyUpdate =>
      match if decide (copyPath = path) then client else client_of s copyUpdate with
      | Some c =>
          if negb (warnings && bool_decide (c ∈ mu_clientWarning s)) && after createTime mostRecentCreateTime
          then (Some createTime, Some c) else best
      | None => best
      end
  | None => best
  end.
Definition affinity_client {n} (warnings : bool) (t : path_table n) (s : multiClient) (path : IpNPath n)
    (paths : list (IpNPath n * Z)) : option nat :=
  (fold_left (affinity_visit warnings t s path) paths (None, None)).2.
(** A new update for a path: its client is that of the destination. [put] writes
    the table back. *)
Definition new_path {n} (warnings : bool) (put : path_table n → multiClient → multiClient) (it : iteration) (now : Z)
    (ipPath : IpPath) (path : IpNPath n) (t : path_table n) (s : multiClient) : multiClient :=
  let u := mu_nextUpdate s in
  let t' := add_path now path u t in
  let client :=
    if DestinationAffinity settings then
      affinity_client warnings t' s path (it_order it (default ∅ (pt_affinity t' !! IpNPath_Destination path)))
    else None in
  let s := put t' s in
  mkMultiClient (mu_ip4 s) (mu_ip6 s) (mu_clientUpdates s)
    (<[u := set_activity now (set_client client (newUpdate (mu_closed s) ipPath))]> (mu_updates s)) (S u)
    (mu_races s) (mu_nextRace s) (mu_clientDone s) (mu_clientWarning s) (mu_closed s) (mu_calls s) (mu_ends s) (mu_log s).
(** The update of a path, and the client it had. *)
Definition reserve_path {n} (warnings : bool) (put : path_table n → multiClient → multiClient) (it : iteration) (now : Z)
    (ipPath : IpPath) (path : IpNPath n) (t : path_table n) (s : multiClient) : multiClient * nat * option nat :=
  match pt_updates t !! path with
  | Some u =>
      if is_done s u then (new_path warnings put it now ipPath path t s, mu_nextUpdate s, None)
      else (at_update u (set_activity now) s, u, client_of s u)
  | None => (new_path warnings put it now ipPath path t s, mu_nextUpdate s, None)
  end.
Definition put4 (t : path_table 4) (s : multiClient) : multiClient := set_tables t (mu_ip6 s) s.
Definition put6 (t : path_table 16) (s : multiClient) : multiClient := set_tables (mu_ip4 s) t s.
Definition reserveUpdate (it : iteration) (now : Z) (ipPath : IpPath) (s : multiClient) : outcome (multiClient * nat * option nat) :=
  if (Version ipPath =? 4)%Z then Val (reserve_path true put4 it now ipPath (ToIp4Path ipPath) (mu_ip4 s) s)
  else if (Version ipPath =? 6)%Z then Val (reserve_path false put6 it now ipPath (ToIp6Path ipPath) (mu_ip6 s) s)
  else Panic "Bad protocol version".

(** *** Registration *)
Definition unregister (u c : nat) (s : multiClient) : multiClient :=
  match mu_clientUpdates s !! c with
  | Some updates =>
      let updates := updates ∖ {[u]} in
      set_clientUpdates (if bool_decide (updates = ∅) then delete c (mu_clientUpdates s) else <[c := updates]> (mu_clientUpdates s)) s
  | None => s
  end.
Definition register (u c : nat) (s : multiClient) : multiClient :=
  set_clientUpdates (<[c := {[u]} ∪ default ∅ (mu_clientUpdates s !! c)]> (mu_clientUpdates s)) s.
(** The end of [updateClientPath]. *)
Definition settle (u : nat) (previousClient : option nat) (s : multiClient) : multiClient :=
  let client := client_of s u in
  if decide (previousClient = client) then s
  else
    let s := match previousClient with Some c => unregister u c s | None => s end in
    match client with
    | Some c => if decide (c ∈ mu_clientDone s) then s else register u c s
    | None => s
    end.

(** *** The end of an idle flow *)
Definition idle_end (now : Z) (k : key) (u : nat) (s : multiClient) : option multiClient :=
  match mu_updates s !! u with
  | Some x =>
      if u_running x && (u_activityTime x + SequenceIdleTimeout settings - now <=? 0)%Z then
        let s := if (Version (u_ipPath x) =? 4)%Z
          then put4 (remove_path (ToIp4Path (u_ipPath x)) (mu_ip4 s)) s
          else put6 (remove_path (ToIp6Path (u_ipPath x)) (mu_ip6 s)) s in
        let s := match u_client x with Some c => unregister u c s | None => s end in
        let s := at_update u (λ x, cancel_update false (set_client None x)) s in
        Some (emit k (match u_client x with Some c => [reset_client (u_ipPath x) c] | None => [] end ++ [reset_source u (u_ipPath x)]) s)
      else None
  | None => None
  end.

(** *** [removeClient] *)
Definition reset_update (k : key) (c : nat) (s : multiClient) (u : nat) : multiClient :=
  match mu_updates s !! u with
  | Some x =>
      if decide (u_client x = Some c) then
        emit k [reset_source u (u_ipPath x)] (at_update u (set_client None) s)
      else s
  | None => s
  end.
Definition removeClient (k : key) (c : nat) (s : multiClient) : multiClient :=
  match mu_clientUpdates s !! c with
  | Some updates => fold_left (reset_update k c) (elements updates) (set_clientUpdates (delete c (mu_clientUpdates s)) s)
  | None => s
  end.

(** *** Races *)
Definition clear_race (u : nat) (s : multiClient) : multiClient :=
  match mu_updates s !! u ≫= u_race with
  | Some r =>
      at_update u (set_race None) (at_race r (λ x, mkRace (r_clientStates x) (r_sentPacketCount x) (r_packetCount x)
        (r_clientsWithPacketCount x) true (r_complete x) (r_ipPath x) (r_scheduled x)) s)
  | None => s
  end.
Definition init_race (u : nat) (s : multiClient) : multiClient :=
  match mu_updates s !! u with
  | Some x =>
      match u_race x with
      | Some _ => s
      | None =>
          let r := mu_nextRace s in
          let s := at_update u (set_race (Some r)) s in
          mkMultiClient (mu_ip4 s) (mu_ip6 s) (mu_clientUpdates s) (mu_updates s) (mu_nextUpdate s)
            (<[r := newRace (u_ipPath x)]> (mu_races s)) (S r) (mu_clientDone s) (mu_clientWarning s) (mu_closed s)
            (mu_calls s) (mu_ends s) (mu_log s)
      end
  | None => s
  end.
(** The buffers that go back to the pool. *)
Definition return_pooled (packets : list receivePacket) : list output :=
  omap (λ p, if rp_Pooled p then Some (OReturn (rp_Packet p)) else None) packets.
(** The clients of a race but the one chosen. *)
Definition abandoned (client : option nat) (x : updateRace) : list (nat * raceClientState) :=
  filter (λ y, client ≠ Some y.1) (map_to_list (r_clientStates x)).
Definition abandon (ipPath : IpPath) (l : list (nat * raceClientState)) : list output := reset_client ipPath <$> l.*1.

(** A packet was sent to a client of a race. *)
Definition race_sent (now : Z) (k : key) (u c : nat) (s : multiClient) : multiClient :=
  if decide (client_of s u ≠ None) then s
  else
    let s := init_race u s in
    match race_of s u, mu_updates s !! u with
    | Some (r, x), Some y =>
        let state := default (mkRaceClientState now None [] 0) (r_clientStates x !! c) in
        let state := mkRaceClientState (rc_sendTime state) (rc_receiveTime state) (rc_packets state) (rc_sentPacketCount state + 1) in
        let x := mkRace (<[c := state]> (r_clientStates x)) (r_sentPacketCount x + 1) (r_packetCount x)
          (r_clientsWithPacketCount x) (r_done x) (r_complete x) (r_ipPath x) (r_scheduled x) in
        let s := at_race r (λ _, x) s in
        let bufferExceeded := (MultiRaceSetOnNoResponseTimeout settings <=? now - rc_sendTime state)%Z
          || (MultiRaceClientSentPacketMaxCount settings <? rc_sentPacketCount state)%Z in
        if (r_packetCount x =? 0)%Z && bufferExceeded then
          emit k (abandon (u_ipPath y) (abandoned (Some c) x)) (at_update u (set_client (Some c)) (clear_race u s))
        else s
    | _, _ => s
    end.
(** [int] of a product of floats; the product of rationals here. *)
Definition early_count (x : updateRace) : Z :=
  Qfloor (inject_Z (Z.of_nat (size (r_clientStates x))) * MultiRaceClientEarlyCompleteFraction settings)%Q.
(** The section of [clientReceivePacket]; [pooled]: the copy is in the pool. *)
Definition receive_section (now : Z) (k : key) (u : nat) (pooled : bool) (p : receivePacket) (s : multiClient) : multiClient :=
  match client_of s u with
  | Some c => if decide (c = rp_client p) then emit k [ODeliver u p] s else s
  | None =>
      match race_of s u with
      | None => s
      | Some (r, x) =>
          match r_clientStates x !! rp_client p with
          | None => s
          | Some state =>
              if (length (rc_packets state) <? MultiRaceClientPacketMaxCount settings)
                 && (r_packetCount x <? MultiRacePacketMaxCount settings)%Z then
                let first := match rc_packets state with [] => true | _ => false end in
                let state := mkRaceClientState (rc_sendTime state) (if first then Some now else rc_receiveTime state)
                  (rc_packets state ++ [set_pooled pooled p]) (rc_sentPacketCount state) in
                let x := mkRace (<[rp_client p := state]> (r_clientStates x)) (r_sentPacketCount x) (r_packetCount x + 1)
                  (if first then r_clientsWithPacketCount x + 1 else r_clientsWithPacketCount x)%Z
                  (r_done x) (r_complete x) (r_ipPath x) (r_scheduled x) in
                let complete := first && (early_count x <=? r_clientsWithPacketCount x)%Z in
                at_race r (λ _, mkRace (r_clientStates x) (r_sentPacketCount x) (r_packetCount x) (r_clientsWithPacketCount x)
                  (r_done x) (r_complete x || complete) (r_ipPath x) (r_scheduled x)) s
              else
                (* every client is abandoned, for [client] is none *)
                let out := abandoned None x in
                emit k ((abandon (rp_IpPath p) out
                  ++ (ODeliver u <$> (set_pooled false <$> rc_packets state) ++ [p])
                  ++ return_pooled (concat (rc_packets <$> out.*2))) ++ [OLimit u])
                  (at_update u (set_client None) (clear_race u s))
          end
      end
  end.
(** Those with packets, and [order]: them, shuffled by the time of their first
    response. The last is chosen. *)
Definition responded (x : updateRace) : list nat :=
  fst <$> filter (λ y, rc_packets y.2 ≠ []) (map_to_list (r_clientStates x)).
Definition complete_section (k : key) (ipPath : IpPath) (u race : nat) (order : list nat) (s : multiClient) : multiClient :=
  match race_of s u with
  | Some (r, x) =>
      if decide (r = race) then
        let '(s, packets) :=
          match client_of s u, last order with
          | None, Some c => (at_update u (set_client (Some c)) s, default [] (rc_packets <$> r_clientStates x !! c))
          | _, _ => (s, [])
          end in
        let out := abandoned (client_of s u) x in
        emit k (abandon ipPath out ++ (ODeliver u <$> packets) ++ return_pooled packets ++ return_pooled (concat (rc_packets <$> out.*2)))
          (clear_race u s)
      else s
  | None => s
  end.

(** *** Sends *)
Definition canSendPacket (ipPath : IpPath) (x : channelUpdate) : bool :=
  match Protocol ipPath with
  | IpProtocolTcp =>
      if TcpCollapsePrevention settings then
        Syn ipPath || Rst ipPath || Ack ipPath || (u_normalPacketCount x =? 0)%Z || (u_sequenceNumber x <? SequenceNumber ipPath)%Z
      else true
  | _ => true
  end.
(** The result of a send: [(true, nil)], [(false, nil)] or an error. *)
Inductive send_result := Sent | NotSent | SendError.
Definition direct_section (k : key) (u : nat) (ipPath : IpPath) (r : send_result) (s : multiClient) : multiClient :=
  match r with
  | Sent => at_update u (count_packet (SequenceNumber ipPath)) s
  | NotSent => s
  | SendError =>
      match mu_updates s !! u with
      | Some x => emit k [reset_source u (u_ipPath x)] (at_update u (set_client None) s)
      | None => s
      end
  end.
Definition single_section (k : key) (u c : nat) (s : multiClient) : multiClient :=
  let s' := at_update u (set_client (Some c)) s in
  match client_of s u with
  | Some c' => if decide (c' = c) then s' else emit k [OReplaced u] s'
  | None => s'
  end.
Definition race_clients (orderedClients : list nat) : list nat :=
  if (0 <? MultiRaceClientCount settings) && (MultiRaceClientCount settings <? length orderedClients)
  then take (MultiRaceClientCount settings) orderedClients else orderedClients.

(** ** Steps *)
Inductive label :=
| LSend (k : nat) (it : iteration) (ipPath : IpPath) (packet : list byte)
| LCheck (k : nat)
| LCurrent (k : nat)
| LDirect (k : nat) (r : send_result)
| LSelect (k : nat) (orderedClients : list nat)
| LSingle (k : nat) (success : bool)
| LRaceStart (k c : nat)
| LRaceSent (k c : nat) (success : bool)
| LRaceOut (k c : nat)
| LRaceEnd (k : nat) (retry : bool)
| LReceive (k : nat) (it : iteration) (p : receivePacket)
| LReceiveSection (k : nat) (pooled : bool)
| LComplete (k : nat) (it : iteration) (race : nat)
| LCompleteSection (k : nat) (order : list nat)
| LSettle (k : nat)
| LResets (k : nat)
| LOut (k : nat)
| LIdle (k u : nat)
| LClientDone (c : nat)
| LWarning (c : nat) (warning : bool)
| LRemove (k c : nat)
| LClose.

Definition set_call (k : nat) (ca : call) (s : multiClient) : multiClient := set_calls (<[k := ca]> (mu_calls s)) s.
(** No goroutine has the number. *)
Definition is_free (k : nat) (s : multiClient) : bool := bool_decide (mu_calls s !! k = None ∧ mu_ends s !! k = None).
(** A call of [updateClientPath] begins. *)
Definition begin_call (it : iteration) (now : Z) (k : nat) (ipPath : IpPath) (kind : call_kind) (s : multiClient) : option multiClient :=
  match is_free k s, reserveUpdate it now ipPath s with
  | true, Val (s, u, previous) => Some (set_call k (mkCall u previous kind) s)
  | _, _ => None
  end.
(** The section is over; [guard]: the context is tested before the calls. *)
Definition begin_end (k : nat) (guard : bool) (s : multiClient) : multiClient := set_ends (<[k := guard]> (mu_ends s)) s.
(** [updateClientPath] returned; what its callback left is done now. *)
Definition end_call (k : nat) (s : multiClient) : multiClient :=
  let s := set_calls (delete k (mu_calls s)) s in
  match pending_of s (k, None) with [] => s | _ => begin_end k false s end.
(** The next call of a goroutine that is past its section, or its end. *)
Definition end_step (k : nat) (s : multiClient) : option multiClient :=
  match mu_ends s !! k with
  | Some false => Some (default (set_ends (delete k (mu_ends s)) s) (perform (k, None) s))
  | _ => None
  end.
Definition close_race_of (s : multiClient) (u : nat) : multiClient := clear_race u s.
Definition close (s : multiClient) : multiClient :=
  let removed := (map_to_list (pt_updates (mu_ip4 s))).*2 ++ (map_to_list (pt_updates (mu_ip6 s))).*2 in
  let s := fold_left close_race_of removed s in
  let s := set_updates ((λ x, cancel_update (u_running x) x) <$> mu_updates s) (set_tables (mkTable ∅ ∅) (mkTable ∅ ∅) s) in
  mkMultiClient (mu_ip4 s) (mu_ip6 s) (mu_clientUpdates s) (mu_updates s) (mu_nextUpdate s) (mu_races s) (mu_nextRace s)
    (mu_clientDone s) (mu_clientWarning s) true (mu_calls s) (mu_ends s) (mu_log s).

(** A send in flight. *)
Definition send_step (now : Z) (l : label) (k : nat) (ca : call) (ipPath : IpPath) (packet : list byte) (pc : send_pc)
    (s : multiClient) : option multiClient :=
  let u := ca_update ca in
  let go pc s := Some (set_call k (set_kind (KSend ipPath packet pc) ca) s) in
  let return_ s := Some (set_call k (set_kind KFinal ca) s) in
  match pc, l with
  | SCheck, LCheck _ =>
      match mu_updates s !! u with
      | Some x => if canSendPacket ipPath x then go SCurrent s else return_ s
      | None => None
      end
  | SCurrent, LCurrent _ => match client_of s u with Some c => go (SDirect c) s | None => go SSelect s end
  | SDirect c, LDirect _ r =>
      let s := direct_section (k, None) u ipPath r s in
      match r with SendError => go SResets s | _ => return_ s end
  | SSelect, LSelect _ orderedClients =>
      match orderedClients with
      | [] => go (SRace ∅ 0) s
      | [c] => go (SSingle c) s
      | l => go (SRace (list_to_map ((λ c, (c, RStart)) <$> race_clients l)) 0) s
      end
  | SSingle c, LSingle _ success => if success then return_ (single_section (k, None) u c s) else go (SRace ∅ 0) s
  | SRace todo n, LRaceStart _ c =>
      if decide (todo !! c = Some RStart) then
        if is_done s u || bool_decide (client_of s u ≠ None) then go (SRace (delete c todo) n) s
        else go (SRace (<[c := RSending]> todo) n) s
      else None
  | SRace todo n, LRaceSent _ c success =>
      if decide (todo !! c = Some RSending) then
        if success then go (SRace (<[c := ROut]> todo) (S n)) (race_sent now (k, Some c) u c s) else go (SRace (delete c todo) n) s
      else None
  | SRace todo n, LRaceOut _ c =>
      if decide (todo !! c = Some ROut) then
        match perform (k, Some c) s with Some s => Some s | None => go (SRace (delete c todo) n) s end
      else None
  | SRace todo n, LRaceEnd _ retry =>
      if decide (todo = ∅) then
        if 0 <? n then go SOut (emit (k, None) [OReturn packet] s) else if retry then go SSelect s else return_ s
      else None
  | SResets, LResets _ => go SOut (drop_if_closed (k, None) s)
  | SOut, LOut _ => match perform (k, None) s with Some s => Some s | None => return_ s end
  | _, _ => None
  end.
Definition on_call (k : nat) (s : multiClient) (f : call → option multiClient) : option multiClient := mu_calls s !! k ≫= f.
Definition mc_step (now : Z) (l : label) (s : multiClient) : option multiClient :=
  match l with
  | LSend k it ipPath packet => begin_call it now k ipPath (KSend ipPath packet SCheck) s
  | LReceive k it p => let p := reversed p in begin_call it now k (rp_IpPath p) (KReceive p) s
  | LComplete k it race =>
      match mu_races s !! race with
      | Some x =>
          if r_scheduled x then
            begin_call it now k (r_ipPath x) (KComplete race) (at_race race (λ x, mkRace (r_clientStates x) (r_sentPacketCount x)
              (r_packetCount x) (r_clientsWithPacketCount x) (r_done x) (r_complete x) (r_ipPath x) false) s)
          else None
      | None => None
      end
  | LCheck k | LCurrent k | LDirect k _ | LSelect k _ | LSingle k _ | LRaceStart k _ | LRaceSent k _ _ | LRaceOut k _ | LRaceEnd k _ =>
      on_call k s (λ ca, match ca_kind ca with KSend ipPath packet pc => send_step now l k ca ipPath packet pc s | _ => None end)
  | LReceiveSection k pooled =>
      on_call k s (λ ca, match ca_kind ca with
        | KReceive p => Some (set_call k (set_kind KFinal ca) (receive_section now (k, None) (ca_update ca) pooled p s))
        | _ => None end)
  | LCompleteSection k order =>
      on_call k s (λ ca, match ca_kind ca with
        | KComplete race =>
            match mu_races s !! race with
            | Some x =>
                if decide (order ≡ₚ responded x)
                then Some (set_call k (set_kind KFinal ca) (complete_section (k, None) (r_ipPath x) (ca_update ca) race order s))
                else None
            | None => None
            end
        | _ => None end)
  | LSettle k =>
      on_call k s (λ ca, match ca_kind ca with
        | KFinal => Some (end_call k (settle (ca_update ca) (ca_previous ca) s))
        | _ => None end)
  | LResets k =>
      match mu_ends s !! k with
      | Some true => Some (begin_end k false (drop_if_closed (k, None) s))
      | _ => on_call k s (λ ca, match ca_kind ca with KSend ipPath packet pc => send_step now l k ca ipPath packet pc s | _ => None end)
      end
  | LOut k =>
      match mu_ends s !! k with
      | Some _ => end_step k s
      | None => on_call k s (λ ca, match ca_kind ca with KSend ipPath packet pc => send_step now l k ca ipPath packet pc s | _ => None end)
      end
  | LIdle k u => if is_free k s then begin_end k true <$> idle_end now (k, None) u s else None
  | LClientDone c => Some (set_clients ({[c]} ∪ mu_clientDone s) (mu_clientWarning s) s)
  | LWarning c warning =>
      Some (set_clients (mu_clientDone s) (if warning then {[c]} ∪ mu_clientWarning s else mu_clientWarning s ∖ {[c]}) s)
  | LRemove k c => if is_free k s then Some (begin_end k true (removeClient (k, None) c s)) else None
  | LClose => Some (close s)
  end.
Fixpoint mc_run (ls : list (Z * label)) (s : multiClient) : option multiClient :=
  match ls with
  | [] => Some s
  | (now, l) :: ls => mc_step now l s ≫= mc_run ls
  end.
End MultiClient.

Section Flows.
Context `{GoPacket}.
Variable settings : MultiClientSettings.

(** ** Flows *)
(** The client whose packets a flow delivers, after some outputs; none when they
    are of more than one. *)
Fixpoint scan (u : nat) (current : option nat) (l : list output) : option (option nat) :=
  match l with
  | [] => Some current
  | ODeliver u' p :: l =>
      if decide (u' = u) then
        match current with
        | Some c => if decide (c = rp_client p) then scan u current l else None
        | None => scan u (Some (rp_client p)) l
        end
      else scan u current l
  | (OResetSource u' _ _ | OLimit u' | OReplaced u') :: l => if decide (u' = u) then scan u None l else scan u current l
  | _ :: l => scan u current l
  end.
Lemma scan_app u cur l1 l2 : scan u cur (l1 ++ l2) = scan u cur l1 ≫= λ cur, scan u cur l2.
Proof. revert cur. induction l1 as [|[] l1 IH]; intros cur; simpl; try done; repeat case_decide; try done; destruct cur; try done; case_decide; try done. Qed.
Definition decided (s : multiClient) : list output := (ef_decided (mu_log s)).*2.
(** What a goroutine decided, or did. *)
Definition from (k : key) (l : list (key * output)) : list output := (filter (λ x, x.1 = k) l).*2.
(** What a goroutine decided is what it did, and then what it has not done yet. *)
Definition log_ok (k : key) (s : multiClient) : Prop :=
  from k (ef_done (mu_log s)) ++ pending_of s k = filter is_effect (from k (ef_decided (mu_log s))).
(** From one state to another, what is accepted is of the client chosen. *)
Definition scans (s s' : multiClient) : Prop :=
  ∃ l, decided s' = decided s ++ l ∧
    ∀ u cur, (∀ c, cur = Some c → client_of s u = Some c) →
      ∃ cur', scan u cur l = Some cur' ∧ ∀ c, cur' = Some c → client_of s' u = Some c.
Definition logs (s s' : multiClient) : Prop := mu_closed s' = mu_closed s ∧ ∀ k, log_ok k s → log_ok k s'.
Definition moves (s s' : multiClient) : Prop := scans s s' ∧ logs s s'.
(** What the source does not see. *)
Definition quiet (o : output) : Prop := match o with OResetClient _ _ _ | OReturn _ => True | _ => False end.
Lemma from_app k l1 l2 : from k (l1 ++ l2) = from k l1 ++ from k l2.
Proof. unfold from. by rewrite filter_app, fmap_app. Qed.
Lemma from_pair k k' l : from k (pair k' <$> l) = if decide (k' = k) then l else [].
Proof.
  case_decide as E; induction l as [|o l IH]; try done; unfold from in *; rewrite fmap_cons.
  - rewrite filter_cons_True by done. rewrite fmap_cons. by f_equal.
  - by rewrite filter_cons_False.
Qed.
Lemma logs_refl s : logs s s.
Proof. done. Qed.
Lemma logs_trans s1 s2 s3 : logs s1 s2 → logs s2 s3 → logs s1 s3.
Proof. intros [E1 H1] [E2 H2]. split; [congruence|auto]. Qed.
Lemma logs_same s s' : mu_log s' = mu_log s → mu_closed s' = mu_closed s → logs s s'.
Proof. intros E Ec. split; [done|]. intros k. unfold log_ok, pending_of. by rewrite E. Qed.
Lemma logs_emit k l s : logs s (emit k l s).
Proof.
  split; [done|]. intros k'. unfold log_ok. simpl. rewrite from_app, from_pair, filter_app. intros Hk. rewrite <-Hk.
  unfold pending_of at 1. simpl. destruct (decide (k = k')) as [->|Hn].
  - by rewrite lookup_insert_eq, <-app_assoc.
  - rewrite lookup_insert_ne by done. simpl. by rewrite app_nil_r.
Qed.
Lemma logs_perform k s s' : perform k s = Some s' → logs s s'.
Proof.
  unfold perform. destruct (pending_of s k) as [|o l] eqn:E; [done|]. intros [= <-]. split; [done|]. intros k'. unfold log_ok. simpl.
  intros Hk. rewrite <-Hk, from_app, <-app_assoc. f_equal. unfold pending_of at 1. simpl. destruct (decide (k = k')) as [->|Hn].
  - rewrite lookup_insert_eq, E. unfold from. by rewrite filter_cons_True.
  - rewrite lookup_insert_ne by done. unfold from. by rewrite filter_cons_False.
Qed.
Lemma scans_refl s : scans s s.
Proof. exists []. split; [by rewrite app_nil_r|]. intros u cur Hc. by exists cur. Qed.
Lemma scans_trans s1 s2 s3 : scans s1 s2 → scans s2 s3 → scans s1 s3.
Proof.
  intros (l1 & E1 & H1) (l2 & E2 & H2). exists (l1 ++ l2). rewrite E2, E1, app_assoc. split; [done|].
  intros u cur Hc. destruct (H1 u cur Hc) as (c1 & Es1 & Hc1). destruct (H2 u c1 Hc1) as (c2 & Es2 & Hc2).
  exists c2. by rewrite scan_app, Es1.
Qed.
Lemma scans_quiet s s' :
  decided s' = decided s → (∀ u c, client_of s u = Some c → client_of s' u = Some c) → scans s s'.
Proof. intros E Hc. exists []. rewrite app_nil_r. split; [done|]. intros u cur Hcur. exists cur. split; [done|]. naive_solver. Qed.
Lemma moves_refl s : moves s s.
Proof. split; [apply scans_refl|apply logs_refl]. Qed.
Lemma moves_trans s1 s2 s3 : moves s1 s2 → moves s2 s3 → moves s1 s3.
Proof. intros [H1 H2] [H3 H4]. split; [by eapply scans_trans|by eapply logs_trans]. Qed.
(** Nothing is decided, and clients stay. *)
Lemma moves_quiet s s' :
  mu_log s' = mu_log s → mu_closed s' = mu_closed s → (∀ u c, client_of s u = Some c → client_of s' u = Some c) → moves s s'.
Proof. intros E Ec Hc. split; [|by apply logs_same]. apply scans_quiet; [|done]. unfold decided. by rewrite E. Qed.
Lemma moves_same s s' : mu_log s' = mu_log s → mu_closed s' = mu_closed s → mu_updates s' = mu_updates s → moves s s'.
Proof. intros E1 E2 E3. apply moves_quiet; [done..|]. intros u c. unfold client_of. by rewrite E3. Qed.
Lemma decided_emit k l s : decided (emit k l s) = decided s ++ l.
Proof. unfold decided. simpl. rewrite fmap_app, <-list_fmap_compose. f_equal. apply list_fmap_id. Qed.
Lemma client_of_at_update s u v f :
  client_of (at_update u f s) v = if decide (u = v) then (mu_updates s !! u ≫= λ x, u_client (f x)) else client_of s v.
Proof.
  unfold client_of. simpl. case_decide as E; [subst; rewrite lookup_alter_eq; by destruct (mu_updates s !! v)|].
  by rewrite lookup_alter_ne.
Qed.
Lemma moves_at_update s u f : (∀ x, u_client (f x) = u_client x) → moves s (at_update u f s).
Proof.
  intros Hf. apply moves_quiet; [done..|]. intros v c. rewrite client_of_at_update. case_decide; [|done]. subst.
  unfold client_of. destruct (mu_updates s !! v); simpl; [|done]. by rewrite Hf.
Qed.
Lemma moves_emit k s l : Forall quiet l → moves s (emit k l s).
Proof.
  intros Hl. split; [|apply logs_emit]. exists l. split; [apply decided_emit|]. intros u cur Hc. exists cur. split; [|done].
  induction Hl as [|o l Ho _ IH]; [done|]. by destruct o.
Qed.
(** A client is taken from an update, and an output says so. *)
Lemma moves_reset k s u o f :
  (match o with OResetSource u' _ _ | OLimit u' | OReplaced u' => u' = u | _ => False end) →
  moves s (emit k [o] (at_update u f s)).
Proof.
  intros Ho. split; [|exact (logs_trans s (at_update u f s) _ (logs_same _ _ eq_refl eq_refl) (logs_emit k [o] _))].
  exists [o]. split; [exact (decided_emit k [o] (at_update u f s))|]. intros v cur Hc.
  destruct (decide (u = v)) as [->|Hn].
  - exists None. split; [|done]. destruct o; try done; subst; simpl; by rewrite decide_True.
  - exists cur. split; [destruct o; try done; subst; simpl; by rewrite decide_False|].
    intros c E. change (client_of (emit k [o] (at_update u f s)) v) with (client_of (at_update u f s) v).
    rewrite client_of_at_update, decide_False by done. by apply Hc.
Qed.
(** A flow without a client gets one. *)
Lemma moves_choose s u c : client_of s u = None → moves s (at_update u (set_client (Some c)) s).
Proof.
  intros Hn. apply moves_quiet; [done..|]. intros v c' Hv. rewrite client_of_at_update. case_decide; [subst; congruence|done].
Qed.
Lemma scan_other u v cur l : u ≠ v → Forall (λ o, match o with ODeliver w _ | OResetSource w _ _ | OLimit w | OReplaced w => w = u | _ => True end) l → scan v cur l = Some cur.
Proof. intros Hn. induction 1 as [|o l Ho _ IH]; [done|]. destruct o; simpl; try done; subst; by rewrite decide_False. Qed.
Lemma scan_deliver u c ps : Forall (λ p, rp_client p = c) ps → scan u (Some c) (ODeliver u <$> ps) = Some (Some c).
Proof. induction 1 as [|p ps Hp _ IH]; [done|]. simpl. by rewrite !decide_True. Qed.
(** Packets of the client of a flow are delivered. *)
Lemma moves_deliver k s u c ps :
  client_of s u = Some c → Forall (λ p, rp_client p = c) ps → moves s (emit k (ODeliver u <$> ps) s).
Proof.
  intros Hc Hp. split; [|apply logs_emit]. exists (ODeliver u <$> ps). split; [apply decided_emit|]. intros v cur Hcur.
  destruct (decide (u = v)) as [->|Hn].
  - destruct cur as [c'|].
    + specialize (Hcur _ eq_refl). assert (c' = c) as -> by congruence. exists (Some c). split; [by apply scan_deliver|].
      by intros ? [= <-].
    + destruct ps as [|p ps]; [by exists None|]. apply Forall_cons in Hp as [Hp1 Hp]. exists (Some c). split.
      * simpl. rewrite decide_True by done. rewrite Hp1. by apply scan_deliver.
      * by intros ? [= <-].
  - exists cur. split; [|done]. apply (scan_other u); [done|]. apply Forall_fmap, Forall_true. done.
Qed.
Lemma emit_app k s l1 l2 : emit k (l1 ++ l2) s = emit k l2 (emit k l1 s).
Proof.
  unfold emit, pending_of. simpl. rewrite lookup_insert_eq, insert_insert_eq, fmap_app, filter_app. simpl. by rewrite !app_assoc.
Qed.
Lemma quiet_abandon ipPath l : Forall quiet (abandon ipPath l).
Proof. apply Forall_fmap, Forall_true. done. Qed.
Lemma quiet_return ps : Forall quiet (return_pooled ps).
Proof. apply Forall_forall. intros o (p & Hp & E)%list_elem_of_omap. by destruct (rp_Pooled p); simplify_eq. Qed.
End Flows.

Section Invariants.
Context `{GoPacket}.
Variable settings : MultiClientSettings.

(** ** Races *)
Definition total (f : raceClientState → Z) (m : gmap nat raceClientState) : Z := zsum (f <$> (map_to_list m).*2).
Definition count_packets (x : raceClientState) : Z := Z.of_nat (length (rc_packets x)).
Definition has_packets (x : raceClientState) : Z := match rc_packets x with [] => 0 | _ => 1 end.
(** The packets a race holds are of their client and within the limits, and its
    counts are those of its clients. *)
Record race_ok (x : updateRace) : Prop := {
  ro_client c st : r_clientStates x !! c = Some st →
    Forall (λ p, rp_client p = c) (rc_packets st) ∧ length (rc_packets st) ≤ MultiRaceClientPacketMaxCount settings;
  ro_packets : r_packetCount x = total count_packets (r_clientStates x);
  ro_limit : (r_packetCount x <= Z.max 0 (MultiRacePacketMaxCount settings))%Z;
  ro_clients : r_clientsWithPacketCount x = total has_packets (r_clientStates x);
  ro_sent : r_sentPacketCount x = total rc_sentPacketCount (r_clientStates x)
}.
Record mc_inv (s : multiClient) : Prop := {
  mi_updates u : is_Some (mu_updates s !! u) → u < mu_nextUpdate s;
  mi_races : map_Forall (λ _ x, race_ok x) (mu_races s)
}.
Lemma total_insert_new f m c st : m !! c = None → total f (<[c:=st]> m) = (f st + total f m)%Z.
Proof. intros Hn. unfold total. rewrite map_to_list_insert by done. done. Qed.
Lemma total_insert f m c st st' : m !! c = Some st → total f (<[c:=st']> m) = (total f m - f st + f st')%Z.
Proof.
  intros Hc. rewrite <-(insert_delete_id m c st Hc) at 2. rewrite <-insert_delete_eq.
  rewrite !total_insert_new by apply lookup_delete_eq. lia.
Qed.
(** The clients of a race are what matters. *)
Lemma race_ok_same x x' :
  r_clientStates x' = r_clientStates x → r_packetCount x' = r_packetCount x → r_sentPacketCount x' = r_sentPacketCount x →
  r_clientsWithPacketCount x' = r_clientsWithPacketCount x → race_ok x → race_ok x'.
Proof. intros E1 E2 E3 E4 [H1 H2 H3 H4 H5]. split; rewrite ?E2, ?E3, ?E4, ?E1; done. Qed.
Lemma newRace_ok ipPath : race_ok (newRace ipPath).
Proof. split; simpl; try done; lia. Qed.
Definition sent_to (now : Z) (c : nat) (x : updateRace) : raceClientState :=
  let state := default (mkRaceClientState now None [] 0) (r_clientStates x !! c) in
  mkRaceClientState (rc_sendTime state) (rc_receiveTime state) (rc_packets state) (rc_sentPacketCount state + 1).
Lemma race_ok_sent now c x :
  race_ok x →
  race_ok (mkRace (<[c := sent_to now c x]> (r_clientStates x)) (r_sentPacketCount x + 1) (r_packetCount x)
    (r_clientsWithPacketCount x) (r_done x) (r_complete x) (r_ipPath x) (r_scheduled x)).
Proof.
  intros [H1 H2 H3 H4 H5]. unfold sent_to. destruct (r_clientStates x !! c) as [st|] eqn:E; simpl; split; simpl; try done.
  2-4: rewrite (total_insert _ _ _ _ _ E); unfold count_packets, has_packets in *; simpl in *; lia.
  3-5: rewrite total_insert_new by done; unfold count_packets, has_packets in *; simpl in *; lia.
  - intros c' st' Hl. apply lookup_insert_Some in Hl as [[<- <-]|[_ Hl]]; [simpl; by apply H1|by apply H1].
  - intros c' st' Hl. apply lookup_insert_Some in Hl as [[<- <-]|[_ Hl]]; [simpl; split; [done|lia]|by apply H1].
Qed.
Lemma race_ok_received now p st x b :
  r_clientStates x !! rp_client p = Some st → length (rc_packets st) < MultiRaceClientPacketMaxCount settings →
  (r_packetCount x < MultiRacePacketMaxCount settings)%Z → race_ok x →
  race_ok (mkRace (<[rp_client p := mkRaceClientState (rc_sendTime st) (match rc_packets st with [] => Some now | _ => rc_receiveTime st end)
      (rc_packets st ++ [set_pooled b p]) (rc_sentPacketCount st)]> (r_clientStates x)) (r_sentPacketCount x) (r_packetCount x + 1)
    (match rc_packets st with [] => r_clientsWithPacketCount x + 1 | _ => r_clientsWithPacketCount x end)%Z
    (r_done x) (r_complete x) (r_ipPath x) (r_scheduled x)).
Proof.
  intros E Hl Hm [H1 H2 H3 H4 H5]. destruct (H1 _ _ E) as [Hp Hlen]. split; simpl.
  - intros c' st' Hl'. apply lookup_insert_Some in Hl' as [[<- <-]|[_ Hl']]; [|by apply H1]. simpl. split.
    + apply Forall_app. split; [done|]. by apply Forall_singleton.
    + rewrite length_app. simpl. lia.
  - rewrite (total_insert _ _ _ _ _ E). unfold count_packets in *. simpl. rewrite length_app. simpl. lia.
  - lia.
  - rewrite (total_insert _ _ _ _ _ E). unfold has_packets in *. simpl. destruct (rc_packets st); simpl; lia.
  - rewrite (total_insert _ _ _ _ _ E). simpl. lia.
Qed.

(** ** What the sections keep *)
Lemma mc_inv_same s s' :
  mu_nextUpdate s' = mu_nextUpdate s → (∀ u, is_Some (mu_updates s' !! u) → is_Some (mu_updates s !! u)) →
  mu_races s' = mu_races s → mc_inv s → mc_inv s'.
Proof. intros E1 E2 E3 [H1 H2]. split; rewrite ?E1, ?E3; naive_solver. Qed.
Lemma mc_inv_emit k l s : mc_inv s → mc_inv (emit k l s).
Proof. intros [H1 H2]. by split. Qed.
Lemma mc_inv_at_update s u f : mc_inv s → mc_inv (at_update u f s).
Proof.
  apply mc_inv_same; [done| |done]. intros v. simpl. destruct (decide (u = v)) as [->|Hn].
  - rewrite lookup_alter_eq, fmap_is_Some. done.
  - by rewrite lookup_alter_ne.
Qed.
Lemma mc_inv_at_race s r f : (∀ x, race_ok x → race_ok (f x)) → mc_inv s → mc_inv (at_race r f s).
Proof.
  intros Hf [H1 H2]. split; [done|]. intros r' x. simpl. destruct (decide (r = r')) as [->|Hn].
  - rewrite lookup_alter_eq. intros (y & Hy & ->)%fmap_Some. by apply Hf, (H2 r').
  - rewrite lookup_alter_ne by done. apply H2.
Qed.
Lemma clear_race_ok s u : mc_inv s → mc_inv (clear_race u s) ∧ moves s (clear_race u s).
Proof.
  intros Hi. unfold clear_race. destruct (mu_updates s !! u ≫= u_race) as [r|]; [|split; [done|apply moves_refl]]. split.
  - apply mc_inv_at_update, mc_inv_at_race; [|done]. intros x. by apply race_ok_same.
  - eapply moves_trans; [|apply moves_at_update; done]. by apply moves_same.
Qed.
Lemma clear_race_client s u v : client_of (clear_race u s) v = client_of s v.
Proof.
  unfold clear_race. destruct (mu_updates s !! u ≫= u_race) as [r|]; [|done]. rewrite client_of_at_update. case_decide; [|done].
  subst. simpl. unfold client_of. by destruct (mu_updates s !! v).
Qed.
Lemma init_race_ok s u : mc_inv s → mc_inv (init_race u s) ∧ moves s (init_race u s).
Proof.
  intros Hi. unfold init_race. destruct (mu_updates s !! u) as [x|] eqn:E; [|split; [done|apply moves_refl]].
  destruct (u_race x); [split; [done|apply moves_refl]|]. split.
  - destruct (mc_inv_at_update s u (set_race (Some (mu_nextRace s))) Hi) as [H1 H2]. split; [exact H1|].
    simpl. apply map_Forall_insert_2; [apply newRace_ok|exact H2].
  - eapply moves_trans; [by apply (moves_at_update s u (set_race (Some (mu_nextRace s))))|]. by apply moves_same.
Qed.
Lemma init_race_client s u v : client_of (init_race u s) v = client_of s v.
Proof.
  unfold init_race. destruct (mu_updates s !! u) as [x|] eqn:E; [|done]. destruct (u_race x); [done|].
  change (client_of (at_update u (set_race (Some (mu_nextRace s))) s) v = client_of s v).
  rewrite client_of_at_update. case_decide; [|done]. subst. unfold client_of. rewrite E. done.
Qed.
Lemma race_of_ok s u r x : mc_inv s → race_of s u = Some (r, x) → race_ok x ∧ mu_races s !! r = Some x.
Proof.
  intros [_ Hr] E. unfold race_of in E. apply bind_Some in E as (r' & _ & E). apply bind_Some in E as (x' & Ex & [= -> ->]).
  split; [|done]. by apply (Hr _ _ Ex).
Qed.
Lemma race_sent_ok now k u c s : mc_inv s → mc_inv (race_sent settings now k u c s) ∧ moves s (race_sent settings now k u c s).
Proof.
  intros Hi. unfold race_sent. case_decide as Hn; [split; [done|apply moves_refl]|].
  destruct (init_race_ok s u Hi) as [Hi1 Hm1].
  destruct (race_of (init_race u s) u) as [[r x]|] eqn:Er; [|by split].
  destruct (mu_updates (init_race u s) !! u) as [y|] eqn:Ey; [|by split].
  destruct (race_of_ok _ _ _ _ Hi1 Er) as [Hx _]. fold (sent_to now c x). set (x' := mkRace _ _ _ _ _ _ _ _).
  set (s1 := at_race r (λ _, x') (init_race u s)).
  assert (mc_inv s1) as Hi2 by (apply mc_inv_at_race; [|done]; intros _ _; by apply race_ok_sent).
  assert (moves s s1) as Hm2 by (eapply moves_trans; [exact Hm1|]; by apply moves_same).
  destruct (_ && _); [|by split]. destruct (clear_race_ok s1 u Hi2) as [Hi3 Hm3]. split.
  - by apply mc_inv_emit, mc_inv_at_update.
  - eapply moves_trans; [exact Hm2|]. eapply moves_trans; [exact Hm3|].
    eapply moves_trans; [apply (moves_choose _ u c)|apply moves_emit, quiet_abandon].
    rewrite clear_race_client. change (client_of (init_race u s) u = None). by rewrite init_race_client.
Qed.
Lemma deliver_choose_ok k s u c ps l1 l2 :
  client_of s u = Some c → Forall (λ p, rp_client p = c) ps →
  Forall quiet l1 →
  Forall quiet l2 →
  moves s (emit k (l1 ++ (ODeliver u <$> ps) ++ l2) s).
Proof.
  intros Hc Hp H1 H2. rewrite !emit_app.
  apply (moves_trans _ (emit k l1 s)); [by apply moves_emit|].
  apply (moves_trans _ (emit k (ODeliver u <$> ps) (emit k l1 s))); [by apply (moves_deliver k (emit k l1 s) u c)|].
  by apply moves_emit.
Qed.
Lemma moves_ext s s1 s2 : mu_log s2 = mu_log s1 → mu_closed s2 = mu_closed s1 → (∀ u, client_of s2 u = client_of s1 u) → moves s s1 → moves s s2.
Proof.
  intros E1 Ec E2 [(l & El & Hl) Hg]. split; [|by eapply logs_trans; [exact Hg|apply logs_same]]. exists l. split; [unfold decided in *; by rewrite E1|]. intros u cur Hc.
  destruct (Hl u cur Hc) as (cur' & Hs & Hc'). exists cur'. split; [done|]. intros c E. rewrite E2. by apply Hc'.
Qed.
Lemma receive_section_ok now k u pooled p s :
  mc_inv s → mc_inv (receive_section settings now k u pooled p s) ∧ moves s (receive_section settings now k u pooled p s).
Proof.
  intros Hi. unfold receive_section. destruct (client_of s u) as [c|] eqn:Ec.
  { case_decide as E; [|split; [done|apply moves_refl]]. subst. split; [by apply mc_inv_emit|].
    apply (moves_deliver k s u (rp_client p) [p]); [done|]. by apply Forall_singleton. }
  destruct (race_of s u) as [[r x]|] eqn:Er; [|split; [done|apply moves_refl]].
  destruct (race_of_ok _ _ _ _ Hi Er) as [Hx _].
  destruct (r_clientStates x !! rp_client p) as [st|] eqn:Est; [|split; [done|apply moves_refl]].
  destruct (_ && _) eqn:Eb.
  - apply andb_true_iff in Eb as [E1%Nat.ltb_lt E2%Z.ltb_lt]. split; [|by apply moves_same].
    apply mc_inv_at_race; [|done]. intros _ _.
    pose proof (race_ok_received now p st x pooled Est E1 E2 Hx) as Hr.
    eapply race_ok_same; [..|exact Hr]; simpl; try done; by destruct (rc_packets st).
  - destruct (clear_race_ok s u Hi) as [Hi1 Hm1]. set (s1 := at_update u (set_client None) (clear_race u s)).
    split; [by apply mc_inv_emit, mc_inv_at_update|].
    set (ps := (set_pooled false <$> rc_packets st) ++ [p]).
    assert (Forall (λ q, rp_client q = rp_client p) ps) as Hps.
    { apply Forall_app. split; [|by apply Forall_singleton]. apply Forall_fmap. by apply (ro_client _ Hx _ _ Est). }
    (* as if the client were chosen, and then not *)
    set (s2 := at_update u (set_client (Some (rp_client p))) s).
    assert (moves s s2) as Hm2 by by apply moves_choose.
    rewrite emit_app. set (out := abandoned None x).
    destruct (mu_updates s !! u) as [y|] eqn:Ey.
    2:{ unfold race_of in Er. by rewrite Ey in Er. }
    assert (client_of s2 u = Some (rp_client p)) as Hc2.
    { unfold s2. rewrite client_of_at_update, decide_True, Ey by done. done. }
    eapply moves_trans; [exact Hm2|].
    eapply moves_trans; [exact (deliver_choose_ok k s2 u _ ps _ _ Hc2 Hps (quiet_abandon (rp_IpPath p) out) (quiet_return (concat (rc_packets <$> out.*2))))|].
    eapply moves_ext; [..|apply (moves_reset k _ u (OLimit u) (set_client None)); done].
    + unfold s1, emit, pending_of. simpl. unfold clear_race. by destruct (mu_updates s !! u ≫= u_race).
    + unfold s1. simpl. unfold clear_race. by destruct (mu_updates s !! u ≫= u_race).
    + intros v. change (client_of s1 v = client_of (at_update u (set_client None) s2) v). unfold s1.
      rewrite !client_of_at_update, clear_race_client. case_decide as Ev.
      * subst v. assert (is_Some (mu_updates (clear_race u s) !! u)) as [z ->].
        { unfold clear_race. destruct (mu_updates s !! u ≫= u_race); simpl; rewrite ?lookup_alter_eq, Ey; eauto. }
        unfold s2. simpl. by rewrite lookup_alter_eq, Ey.
      * unfold s2. by rewrite client_of_at_update, decide_False.
Qed.
Lemma complete_section_ok k ipPath u race order s x :
  mu_races s !! race = Some x → order ≡ₚ responded x → mc_inv s →
  mc_inv (complete_section k ipPath u race order s) ∧ moves s (complete_section k ipPath u race order s).
Proof.
  intros Ex Ho Hi. unfold complete_section. destruct (race_of s u) as [[r x']|] eqn:Er; [|split; [done|apply moves_refl]].
  case_decide as E; [|split; [done|apply moves_refl]]. subst r. destruct (race_of_ok _ _ _ _ Hi Er) as [Hx Ex'].
  assert (x' = x) as -> by congruence. clear Ex'.
  assert (∀ s2 ps, mc_inv s2 → moves s s2 → (ps = [] ∨ ∃ c, client_of s2 u = Some c ∧ Forall (λ p, rp_client p = c) ps) →
    ∀ l1 l2, Forall quiet l1 → Forall quiet l2 →
    mc_inv (emit k (l1 ++ (ODeliver u <$> ps) ++ l2) (clear_race u s2)) ∧ moves s (emit k (l1 ++ (ODeliver u <$> ps) ++ l2) (clear_race u s2))) as Hk.
  { intros s2 ps Hi2 Hm2 Hps l1 l2 H1 H2. destruct (clear_race_ok s2 u Hi2) as [Hi3 Hm3]. split; [by apply mc_inv_emit|].
    eapply moves_trans; [exact Hm2|]. eapply moves_trans; [exact Hm3|].
    destruct Hps as [->|(c & Hc & Hp)].
    - apply moves_emit, Forall_app. done.
    - eapply deliver_choose_ok; [|exact Hp|done..]. by rewrite clear_race_client. }
  destruct (client_of s u) as [c|] eqn:Ec.
  - apply (Hk s []); [done|apply moves_refl|by left|apply quiet_abandon|].
    apply Forall_app. split; apply quiet_return.
  - destruct (last order) as [c|] eqn:El.
    + assert (is_Some (mu_updates s !! u)) as [y Ey] by (unfold race_of in Er; destruct (mu_updates s !! u); [eauto|done]).
      apply Hk; [by apply mc_inv_at_update|by apply moves_choose| |apply quiet_abandon|apply Forall_app; split; apply quiet_return].
      right. exists c. rewrite client_of_at_update, decide_True, Ey by done. split; [done|].
      destruct (r_clientStates x !! c) as [st|] eqn:Est; simpl; [|constructor]. by apply (ro_client _ Hx _ _ Est).
    + apply (Hk s []); [done|apply moves_refl|by left|apply quiet_abandon|]. apply Forall_app. split; apply quiet_return.
Qed.

Lemma new_path_ok {n} warnings put it now ipPath (path : IpNPath n) t s :
  (∀ t s, ∃ t4 t6, put t s = set_tables t4 t6 s) → mc_inv s →
  mc_inv (new_path settings warnings put it now ipPath path t s) ∧ moves s (new_path settings warnings put it now ipPath path t s).
Proof.
  intros Hput Hi. unfold new_path. destruct (Hput (add_path settings now path (mu_nextUpdate s) t) s) as (t4 & t6 & ->). cbn.
  split.
  - destruct Hi as [H1 H2]. split; [|exact H2]. intros u. simpl. rewrite lookup_insert_is_Some. intros [->|[_ Hu]]; [lia|].
    apply H1 in Hu. lia.
  - apply moves_quiet; [done..|]. intros u c Hc. unfold client_of in *. simpl. rewrite lookup_insert_ne; [done|].
    intros <-. destruct (mu_updates s !! mu_nextUpdate s) as [y|] eqn:Ey; [|done].
    pose proof (mi_updates _ Hi (mu_nextUpdate s) ltac:(eauto)). lia.
Qed.
Lemma reserve_path_ok {n} warnings put it now ipPath (path : IpNPath n) t s s' u previous :
  (∀ t s, ∃ t4 t6, put t s = set_tables t4 t6 s) → mc_inv s →
  reserve_path settings warnings put it now ipPath path t s = (s', u, previous) → mc_inv s' ∧ moves s s'.
Proof.
  intros Hput Hi E. unfold reserve_path in E.
  pose proof (new_path_ok warnings put it now ipPath path t s Hput Hi) as Hn.
  destruct (pt_updates t !! path); [destruct (is_done s _)|]; simplify_eq; try done.
  split; [by apply mc_inv_at_update|by apply moves_at_update].
Qed.
Lemma reserveUpdate_ok it now ipPath s s' u previous :
  mc_inv s → reserveUpdate settings it now ipPath s = Val (s', u, previous) → mc_inv s' ∧ moves s s'.
Proof.
  intros Hi E. unfold reserveUpdate in E. destruct (Version ipPath =? 4)%Z; [|destruct (Version ipPath =? 6)%Z; [|done]];
    injection E as E; eapply reserve_path_ok in E; [exact E|by do 2 eexists|done|exact E|by do 2 eexists|done].
Qed.
Lemma mc_inv_calls s m : mc_inv s → mc_inv (set_calls m s).
Proof. intros [H1 H2]. by split. Qed.
Lemma begin_call_ok it now k ipPath kind s s' :
  mc_inv s → begin_call settings it now k ipPath kind s = Some s' → mc_inv s' ∧ moves s s'.
Proof.
  intros Hi E. unfold begin_call in E. destruct (is_free k s); [|done].
  destruct (reserveUpdate settings it now ipPath s) as [[[s1 u] previous]| |] eqn:Er; simplify_eq.
  eapply reserveUpdate_ok in Er as (H1 & H2); [|done]. split; [by apply mc_inv_calls|].
  eapply moves_trans; [exact H2|]. by apply moves_same.
Qed.
(** Registration is not seen. *)
Lemma unregister_ok u c s : mc_inv s → mc_inv (unregister u c s) ∧ moves s (unregister u c s).
Proof.
  intros Hi. unfold unregister. destruct (mu_clientUpdates s !! c); [|split; [done|apply moves_refl]].
  split; [destruct Hi; by split|by apply moves_same].
Qed.
Lemma settle_ok u previous s : mc_inv s → mc_inv (settle u previous s) ∧ moves s (settle u previous s).
Proof.
  intros Hi. unfold settle. case_decide; [split; [done|apply moves_refl]|].
  set (s1 := match previous with Some c => unregister u c s | None => s end).
  assert (mc_inv s1 ∧ moves s s1) as [H1 H2] by (subst s1; destruct previous; [by apply unregister_ok|split; [done|apply moves_refl]]).
  destruct (client_of s u); [|done]. case_decide; [done|]. split; [destruct H1; by split|].
  eapply moves_trans; [exact H2|]. by apply moves_same.
Qed.
Lemma idle_end_ok now k u s s' : mc_inv s → idle_end settings now k u s = Some s' → mc_inv s' ∧ moves s s'.
Proof.
  intros Hi E. unfold idle_end in E. destruct (mu_updates s !! u) as [x|] eqn:Ex; [|done]. destruct (_ && _); [|done].
  set (s1 := if (Version (u_ipPath x) =? 4)%Z then _ else _) in E.
  assert (∃ t4 t6, s1 = set_tables t4 t6 s) as (t4 & t6 & E1) by (subst s1; destruct (_ =? _)%Z; by do 2 eexists).
  clearbody s1. subst s1.
  set (s2 := match u_client x with Some c => unregister u c (set_tables t4 t6 s) | None => set_tables t4 t6 s end) in E.
  assert (mc_inv s2 ∧ moves s s2) as (H1 & H2).
  { assert (mc_inv (set_tables t4 t6 s)) as Hi1 by (destruct Hi; by split).
    assert (moves s (set_tables t4 t6 s)) as Hm1 by by apply moves_same.
    subst s2. destruct (u_client x) as [c|]; [|done]. destruct (unregister_ok u c _ Hi1) as [? ?].
    split; [done|]. by apply (moves_trans _ (set_tables t4 t6 s)). }
  clearbody s2. simplify_eq. split; [by apply mc_inv_emit, mc_inv_at_update|]. eapply moves_trans; [exact H2|].
  rewrite emit_app. set (l := match u_client x with Some _ => _ | None => _ end).
  assert (Forall quiet l) as Hl by (subst l; destruct (u_client x); repeat constructor).
  eapply moves_trans; [by apply (moves_emit k s2 l)|].
  exact (moves_reset k (emit k l s2) u (reset_source u (u_ipPath x)) (λ x, cancel_update false (set_client None x)) eq_refl).
Qed.
Lemma reset_update_ok k c s u : mc_inv s → mc_inv (reset_update k c s u) ∧ moves s (reset_update k c s u).
Proof.
  intros Hi. unfold reset_update. destruct (mu_updates s !! u) as [x|]; [|split; [done|apply moves_refl]].
  case_decide; [|split; [done|apply moves_refl]]. split; [by apply mc_inv_emit, mc_inv_at_update|by apply moves_reset].
Qed.
Lemma removeClient_ok k c s : mc_inv s → mc_inv (removeClient k c s) ∧ moves s (removeClient k c s).
Proof.
  intros Hi. unfold removeClient. destruct (mu_clientUpdates s !! c) as [us|]; [|split; [done|apply moves_refl]].
  set (s1 := set_clientUpdates _ s). assert (mc_inv s1) as Hi1 by (destruct Hi; by split).
  assert (moves s s1) as Hm1 by by apply moves_same. clearbody s1. revert s1 Hi1 Hm1.
  induction (elements us) as [|u l IH]; intros s1 Hi1 Hm1; simpl; [done|]. destruct (reset_update_ok k c s1 u Hi1) as [H1 H2].
  apply IH; [done|]. by eapply moves_trans.
Qed.
Lemma direct_section_ok k u ipPath r s : mc_inv s → mc_inv (direct_section k u ipPath r s) ∧ moves s (direct_section k u ipPath r s).
Proof.
  intros Hi. destruct r; simpl.
  - split; [by apply mc_inv_at_update|by apply moves_at_update].
  - split; [done|apply moves_refl].
  - destruct (mu_updates s !! u) as [x|]; [|split; [done|apply moves_refl]].
    split; [by apply mc_inv_emit, mc_inv_at_update|by apply moves_reset].
Qed.
Lemma single_section_ok k u c s : mc_inv s → mc_inv (single_section k u c s) ∧ moves s (single_section k u c s).
Proof.
  intros Hi. unfold single_section. destruct (client_of s u) as [c'|] eqn:Ec.
  - case_decide as E.
    + subst. split; [by apply mc_inv_at_update|]. apply moves_quiet; [done..|]. intros v d. rewrite client_of_at_update.
      case_decide; [|done]. subst. intros Hd. assert (d = c) as -> by congruence. unfold client_of in Ec.
      by destruct (mu_updates s !! v).
    + split; [by apply mc_inv_emit, mc_inv_at_update|]. by apply moves_reset.
  - split; [by apply mc_inv_at_update|]. by apply moves_choose.
Qed.

(** ** Runs *)
Definition step_ok (s s' : multiClient) : Prop :=
  mc_inv s' ∧ scans s s' ∧ (mu_closed s' = false → mu_closed s = false ∧ ∀ k, log_ok k s → log_ok k s').
Lemma step_ok_moves s s' : mc_inv s' ∧ moves s s' → step_ok s s'.
Proof. intros [H1 [H2 [E H3]]]. split; [done|]. split; [done|]. intros Hc. split; [congruence|done]. Qed.
Lemma step_ok_refl s : mc_inv s → step_ok s s.
Proof. intros Hi. apply step_ok_moves. split; [done|apply moves_refl]. Qed.
Lemma step_ok_trans s1 s2 s3 : step_ok s1 s2 → step_ok s2 s3 → step_ok s1 s3.
Proof.
  intros (H1 & H2 & H3) (H4 & H5 & H6). split; [done|]. split; [by eapply scans_trans|].
  intros Hc. destruct (H6 Hc) as [Hc2 H7]. destruct (H3 Hc2) as [Hc1 H8]. auto.
Qed.
Lemma step_ok_calls s s' m : step_ok s s' → step_ok s (set_calls m s').
Proof.
  intros Hs. eapply step_ok_trans; [exact Hs|]. apply step_ok_moves. split; [apply mc_inv_calls, Hs|by apply moves_same].
Qed.
Lemma step_ok_ends s s' m : step_ok s s' → step_ok s (set_ends m s').
Proof.
  intros Hs. eapply step_ok_trans; [exact Hs|]. apply step_ok_moves. split; [|by apply moves_same].
  destruct Hs as [[H1 H2] _]. by split.
Qed.
Lemma perform_ok k s s' : mc_inv s → perform k s = Some s' → step_ok s s'.
Proof.
  intros Hi E. pose proof (logs_perform _ _ _ E) as Hl. unfold perform in E. destruct (pending_of s k); simplify_eq.
  apply step_ok_moves. split; [destruct Hi; by split|]. split; [by apply scans_quiet|done].
Qed.
Lemma drop_ok k s : mc_inv s → step_ok s (drop_if_closed k s).
Proof.
  intros Hi. unfold drop_if_closed. destruct (mu_closed s) eqn:Ec; [|by apply step_ok_refl].
  split; [destruct Hi; by split|]. split; [by apply scans_quiet|]. simpl. congruence.
Qed.
Lemma end_call_ok k s s' : step_ok s s' → step_ok s (end_call k s').
Proof. intros Hs. unfold end_call. destruct (pending_of _ _); [|apply step_ok_ends]; by apply step_ok_calls. Qed.
Lemma end_step_ok k s s' : mc_inv s → end_step k s = Some s' → step_ok s s'.
Proof.
  intros Hi E. unfold end_step in E. destruct (mu_ends s !! k) as [[]|]; simplify_eq.
  destruct (perform (k, None) s) as [s'|] eqn:Ep; simpl; [by apply perform_ok in Ep|]. by apply step_ok_ends, step_ok_refl.
Qed.
Lemma send_step_ok now l k ca ipPath packet pc s s' :
  mc_inv s → send_step settings now l k ca ipPath packet pc s = Some s' → step_ok s s'.
Proof.
  intros Hi E. pose proof (step_ok_refl s Hi) as Hr. unfold send_step in E. destruct pc, l; simpl in E; try done.
  - destruct (mu_updates s !! ca_update ca); [|done]. destruct (canSendPacket _ _ _); simplify_eq; by apply step_ok_calls.
  - destruct (client_of s (ca_update ca)); simplify_eq; by apply step_ok_calls.
  - pose proof (step_ok_moves _ _ (direct_section_ok (k, None) (ca_update ca) ipPath r s Hi)) as Hd.
    destruct r; simplify_eq; by apply step_ok_calls.
  - destruct orderedClients as [|c1 [|c2 cs]]; simplify_eq; by apply step_ok_calls.
  - destruct success; simplify_eq; apply step_ok_calls; [|done]. by apply step_ok_moves, single_section_ok.
  - case_decide; [|done]. destruct (_ || _); simplify_eq; by apply step_ok_calls.
  - case_decide; [|done]. destruct success; simplify_eq; apply step_ok_calls; [|done]. by apply step_ok_moves, race_sent_ok.
  - case_decide; [|done]. destruct (perform _ s) as [s2|] eqn:Ep; simplify_eq; [by apply perform_ok in Ep|by apply step_ok_calls].
  - case_decide; [|done]. destruct (0 <? successCount); [simplify_eq; apply step_ok_calls|destruct retry; simplify_eq; by apply step_ok_calls].
    apply step_ok_moves. split; [by apply mc_inv_emit|]. apply moves_emit. repeat constructor.
  - simplify_eq. by apply step_ok_calls, drop_ok.
  - destruct (perform _ s) as [s2|] eqn:Ep; simplify_eq; [by apply perform_ok in Ep|by apply step_ok_calls].
Qed.
Lemma closing_ok s : mc_inv s → step_ok s (close s).
Proof.
  intros Hi. unfold close. set (l := _ ++ _).
  assert (mc_inv (fold_left close_race_of l s) ∧ moves s (fold_left close_race_of l s)) as [[H1 H2] Hm].
  { clearbody l.
    enough (∀ s1, mc_inv s1 → moves s s1 → mc_inv (fold_left close_race_of l s1) ∧ moves s (fold_left close_race_of l s1)) as Hk.
    { apply Hk; [done|apply moves_refl]. }
    induction l as [|u l IH]; intros s1 Hi1 Hm1; simpl; [done|]. destruct (clear_race_ok s1 u Hi1) as [H1 H2].
    apply IH; [done|]. by eapply moves_trans. }
  split; [split; [|exact H2]; intros u; simpl; rewrite lookup_fmap, fmap_is_Some; apply H1|]. split; [|done].
  eapply scans_trans; [apply Hm|]. apply scans_quiet; [done|]. intros u c. unfold client_of. simpl. rewrite lookup_fmap.
  by destruct (mu_updates _ !! u).
Qed.
Lemma on_call_some k s f s' : on_call k s f = Some s' → ∃ ca, f ca = Some s'.
Proof. intros (ca & _ & Ef)%bind_Some. by exists ca. Qed.
Lemma mc_step_ok now l s s' : mc_inv s → mc_step settings now l s = Some s' → step_ok s s'.
Proof.
  intros Hi E. pose proof (step_ok_refl s Hi) as Hr.
  destruct l; simpl in E; try (apply on_call_some in E as [ca E]; destruct (ca_kind ca); try done; by eapply send_step_ok).
  - by apply begin_call_ok in E; [apply step_ok_moves|].
  - by apply begin_call_ok in E; [apply step_ok_moves|].
  - apply on_call_some in E as [ca E]. destruct (ca_kind ca); simplify_eq. by apply step_ok_calls, step_ok_moves, receive_section_ok.
  - destruct (mu_races s !! race) as [x|] eqn:Ex; [|done]. destruct (r_scheduled x); [|done].
    apply begin_call_ok in E as [H1 H2]; [|apply mc_inv_at_race; [|done]; intros y; by apply race_ok_same].
    apply step_ok_moves. split; [done|]. eapply moves_trans; [|exact H2]. by apply moves_same.
  - apply on_call_some in E as [ca E]. destruct (ca_kind ca); try done. destruct (mu_races s !! race) as [x|] eqn:Ex; [|done].
    case_decide; simplify_eq. apply step_ok_calls, step_ok_moves. by eapply complete_section_ok.
  - apply on_call_some in E as [ca E]. destruct (ca_kind ca); simplify_eq. by apply end_call_ok, step_ok_moves, settle_ok.
  - destruct (mu_ends s !! k) as [[]|]; [simplify_eq; by apply step_ok_ends, drop_ok|..];
      apply on_call_some in E as [ca E]; destruct (ca_kind ca); try done; by eapply send_step_ok.
  - destruct (mu_ends s !! k); [by eapply end_step_ok|].
    apply on_call_some in E as [ca E]; destruct (ca_kind ca); try done; by eapply send_step_ok.
  - destruct (is_free k s); [|done]. apply fmap_Some in E as (s1 & E & ->). apply idle_end_ok in E; [|done]. by apply step_ok_ends, step_ok_moves.
  - simplify_eq. apply step_ok_moves. split; [destruct Hi; by split|by apply moves_same].
  - simplify_eq. apply step_ok_moves. split; [destruct Hi; by split|by apply moves_same].
  - destruct (is_free k s); simplify_eq. by apply step_ok_ends, step_ok_moves, removeClient_ok.
  - simplify_eq. by apply closing_ok.
Qed.
Lemma mc_run_ok ls s s' : mc_inv s → mc_run settings ls s = Some s' → step_ok s s'.
Proof.
  revert s. induction ls as [|[now l] ls IH]; intros s Hi E; simpl in E; [simplify_eq; by apply step_ok_refl|].
  apply bind_Some in E as (s1 & E1 & E). apply mc_step_ok in E1 as H1; [|done]. apply IH in E as H2; [|apply H1].
  by eapply step_ok_trans.
Qed.
Lemma newMultiClient_inv : mc_inv newMultiClient.
Proof. split; [intros u [x Hx]; discriminate Hx|intros r x Hx; discriminate Hx]. Qed.
Definition is_flow_end (u : nat) (o : output) : bool :=
  match o with OResetSource u' _ _ | OLimit u' | OReplaced u' => u' =? u | _ => false end.
Lemma scan_same u c l cur :
  scan u (Some c) l = Some cur → forallb (λ o, negb (is_flow_end u o)) l = true → cur = Some c.
Proof.
  revert c. induction l as [|o l IH]; intros c E Hl; simpl in *; [by injection E|]. apply andb_true_iff in Hl as [Ho Hl].
  destruct o as [u' p|u' ip pk|c' ip pk|pk|u'|u']; simpl in Ho; try (by eapply IH);
    try (destruct (Nat.eqb_spec u' u); [done|]; rewrite decide_False in E by done; by eapply IH).
  case_decide; [|by eapply IH]. case_decide; [|done]. by eapply IH.
Qed.

(** C30. What the sections under the lock accept for a flow is of one client
    until they decide to reset the source; or until the race of the flow goes
    over its limits, or a client replaces another without a race, where the code
    goes on without a reset. And, while the context is not done, what a goroutine
    has delivered, reset and given back is what it decided, each once and in the
    order decided, less what it has not done yet. The calls of different
    goroutines have no order: they come after the lock is released, and a packet
    that was accepted from one client can be delivered after the reset and after
    packets of the next client (Example delivered_after_the_next). *)
Theorem flow_has_one_client ls s :
  mc_run settings ls newMultiClient = Some s →
  (∀ u p q l1 l2 l3, decided s = l1 ++ ODeliver u p :: l2 ++ ODeliver u q :: l3 →
    forallb (λ o, negb (is_flow_end u o)) l2 = true → rp_client p = rp_client q) ∧
  (mu_closed s = false → ∀ k,
    from k (ef_done (mu_log s)) ++ pending_of s k = filter is_effect (from k (ef_decided (mu_log s)))).
Proof.
  intros Hr. apply mc_run_ok in Hr as (_ & Hm & Hl); [|apply newMultiClient_inv]. split; [|intros Hc k; by apply Hl].
  intros u p q l1 l2 l3 Eo Hf. destruct Hm as (l & El & Hs). simpl in El. subst l.
  destruct (Hs u None) as (cur & Es & _); [done|]. rewrite Eo, scan_app in Es.
  apply bind_Some in Es as (c1 & _ & Es). simpl in Es. rewrite decide_True in Es by done.
  assert (scan u (Some (rp_client p)) (l2 ++ ODeliver u q :: l3) = Some cur) as Es2.
  { destruct c1 as [c1|]; [|done]. case_decide; [by subst|done]. }
  rewrite scan_app in Es2. apply bind_Some in Es2 as (c2 & Es2 & Es3). apply scan_same in Es2 as ->; [|done].
  simpl in Es3. rewrite decide_True in Es3 by done. by case_decide.
Qed.

(** C32. What the races of flows hold is within their limits, each packet with
    its client, and their counts are right, the one that decides the early end
    included. *)
Theorem races_within_limits ls s r x :
  mc_run settings ls newMultiClient = Some s → mu_races s !! r = Some x → race_ok x.
Proof. intros Hr Hx. apply mc_run_ok in Hr as [[_ Hi] _]; [|apply newMultiClient_inv]. by apply (Hi r x). Qed.
End Invariants.

Section Affinity.
Context `{GoPacket}.
Variable settings : MultiClientSettings.

(** ** Affinity *)
(** The client that the loop sees for a path that is not the new one. *)
Definition path_client {n} (warnings : bool) (t : path_table n) (s : multiClient) (p : IpNPath n) : option nat :=
  c ← pt_updates t !! p ≫= client_of s; if warnings && bool_decide (c ∈ mu_clientWarning s) then None else Some c.
Lemma affinity_visit_other {n} warnings (t : path_table n) s path best p z :
  p ≠ path →
  affinity_visit warnings t s path best (p, z) =
    match path_client warnings t s p with Some c => if after z best.1 then (Some z, Some c) else best | None => best end.
Proof.
  intros Hn. destruct best as [m client]. unfold affinity_visit, path_client. destruct (pt_updates t !! p) as [v|]; [|done]. simpl.
  rewrite decide_False by done. destruct (client_of s v) as [c|]; simpl; [|done]. by destruct (warnings && _).
Qed.
(** The loop over paths that are not the new one: the latest with a client, if
    it is later than what was found before. *)
Lemma affinity_visits_other {n} warnings (t : path_table n) s path l m client :
  path ∉ l.*1 →
  let '(m', client') := fold_left (affinity_visit warnings t s path) l (m, client) in
  (∀ p z c, (p, z) ∈ l → path_client warnings t s p = Some c → after z m' = false) ∧
  ((m', client') = (m, client) ∨
   ∃ p z c, (p, z) ∈ l ∧ path_client warnings t s p = Some c ∧ m' = Some z ∧ client' = Some c ∧ after z m = true).
Proof.
  revert m client. induction l as [|[p z] l IH]; intros m client Hl; simpl; [split; [intros ? ? ? []%elem_of_nil|by left]|].
  apply not_elem_of_cons in Hl as [Hp Hl]. change (path ≠ p) in Hp.
  change (let '(m', client') := fold_left (affinity_visit warnings t s path) l (affinity_visit warnings t s path (m, client) (p, z)) in
    (∀ p' z' c', (p', z') ∈ (p, z) :: l → path_client warnings t s p' = Some c' → after z' m' = false) ∧
    ((m', client') = (m, client) ∨ ∃ p' z' c', (p', z') ∈ (p, z) :: l ∧ path_client warnings t s p' = Some c' ∧ m' = Some z' ∧ client' = Some c' ∧ after z' m = true)).
  rewrite affinity_visit_other by done. simpl.
  destruct (path_client warnings t s p) as [c|] eqn:Ec; [destruct (after z m) eqn:Ea|].
  - specialize (IH (Some z) (Some c) Hl). destruct (fold_left _ l _) as [m' client']. destruct IH as [H1 H2].
    destruct H2 as [[= -> ->]|(p' & z' & c' & Hi & Hc' & -> & -> & Hz)].
    + split; [|right; exists p, z, c; split; [left|done]].
      intros p' z' c' [[= -> ->]|Hi]%elem_of_cons Hc'; [simpl; by apply Z.ltb_irrefl|by eapply H1].
    + split.
      * intros p2 z2 c2 [[= -> ->]|Hi2]%elem_of_cons Hc2; [|by eapply H1]. simpl in *. lia.
      * right. exists p', z', c'. split; [by right|]. split; [done|]. split; [done|]. split; [done|].
        destruct m as [m|]; [simpl in *; lia|done].
  - specialize (IH m client Hl). destruct (fold_left _ l _) as [m' client']. destruct IH as [H1 H2]. split.
    + intros p' z' c' [[= -> ->]|Hi]%elem_of_cons Hc'; [|by eapply H1].
      destruct H2 as [[= -> _]|(p2 & z2 & c2 & _ & _ & -> & _ & Hz)]; [done|]. destruct m as [m|]; [simpl in *; lia|done].
    + destruct H2 as [?|(p2 & z2 & c2 & Hi & H2)]; [by left|right]. exists p2, z2, c2. split; [by right|done].
  - specialize (IH m client Hl). destruct (fold_left _ l _) as [m' client']. destruct IH as [H1 H2]. split.
    + intros p' z' c' [[= -> ->]|Hi]%elem_of_cons Hc'; [congruence|by eapply H1].
    + destruct H2 as [?|(p2 & z2 & c2 & Hi & H2)]; [by left|right]. exists p2, z2, c2. split; [by right|done].
Qed.
(** At the new path the time of the choice becomes its own, when it is later. *)
Lemma affinity_visit_self {n} warnings (t : path_table n) s path m client z :
  (m = None → client = None) →
  let '(m', client') := affinity_visit warnings t s path (m, client) (path, z) in
  client' = client ∧ (m = None → m' = None) ∧ ∀ z', after z' m = false → after z' m' = false.
Proof.
  intros Hm. unfold affinity_visit. destruct (pt_updates t !! path); [|done]. rewrite decide_True by done.
  destruct client as [c|]; [|done]. destruct (negb _ && after z m) eqn:E; [|done]. split; [done|]. split; [by intros ?%Hm|].
  apply andb_true_iff in E as [_ E]. intros z'. destruct m as [m|]; [simpl in *; lia|done].
Qed.
(** The choice: the client of a path, the latest of those before the new path,
    and of all when none before it has a client. *)
Lemma affinity_client_spec {n} warnings (t : path_table n) s path l1 z l2 :
  path ∉ l1.*1 → path ∉ l2.*1 →
  match affinity_client warnings t s path (l1 ++ (path, z) :: l2) with
  | Some c => ∃ p zp, p ≠ path ∧ (p, zp) ∈ l1 ++ (path, z) :: l2 ∧ path_client warnings t s p = Some c ∧
      (∀ p' z' c', (p', z') ∈ l1 → path_client warnings t s p' = Some c' → (z' <= zp)%Z) ∧
      ((∀ p' z' c', (p', z') ∈ l1 → path_client warnings t s p' ≠ Some c') →
       ∀ p' z' c', (p', z') ∈ l2 → path_client warnings t s p' = Some c' → (z' <= zp)%Z)
  | None => ∀ p' z', (p', z') ∈ l1 ++ l2 → path_client warnings t s p' = None
  end.
Proof.
  intros Hl1 Hl2. unfold affinity_client. rewrite fold_left_app.
  pose proof (affinity_visits_other warnings t s path l1 None None Hl1) as H1. destruct (fold_left _ l1 _) as [m1 client1].
  destruct H1 as [A1 B1]. assert (m1 = None → client1 = None) as Hm1 by (destruct B1 as [[= -> ->]|(? & ? & ? & _ & _ & -> & -> & _)]; done).
  change (fold_left ?f (?x :: l2) ?b) with (fold_left f l2 (f b x)).
  pose proof (affinity_visit_self warnings t s path m1 client1 z Hm1) as Hs. destruct (affinity_visit _ _ _ _ _ _) as [m2 client2].
  destruct Hs as (-> & Hm2 & Hs).
  pose proof (affinity_visits_other warnings t s path l2 m2 client1 Hl2) as H2. destruct (fold_left _ l2 _) as [m3 client3].
  destruct H2 as [A2 B2]. simpl.
  assert (∀ l p (z0 : Z), path ∉ l.*1 → (p, z0) ∈ l → p ≠ path) as Hne.
  { intros l p z0 Hl Hi ->. apply Hl. by apply (list_elem_of_fmap_2' _ _ (path, z0)). }
  assert (∀ a b, after a (Some b) = false → (a <= b)%Z) as Hle by (simpl; lia).
  destruct B2 as [[= -> ->]|(p & zp & c & Hi & Hc & -> & -> & Hz)].
  - destruct B1 as [[= -> ->]|(p & zp & c & Hi & Hc & -> & -> & _)].
    + rewrite Hm2 in A2 by done. intros p' z' Hp'. destruct (path_client _ _ _ p') as [c'|] eqn:Ec; [|done].
      apply elem_of_app in Hp' as [Hp'|Hp']; [by specialize (A1 _ _ _ Hp' Ec)|by specialize (A2 _ _ _ Hp' Ec)].
    + exists p, zp. split; [by apply (Hne l1 p zp)|]. split; [apply elem_of_app; by left|]. split; [done|]. split.
      * intros p' z' c' Hp' Hc'. apply Hle. by eapply A1.
      * intros Hno. by destruct (Hno _ _ _ Hi Hc).
  - exists p, zp. split; [by apply (Hne l2 p zp)|]. split; [apply elem_of_app; right; by right|]. split; [done|]. split.
    + intros p' z' c' Hp' Hc'. specialize (Hs z' (A1 _ _ _ Hp' Hc')). destruct m2 as [m2|]; [simpl in *; lia|done].
    + intros _ p' z' c' Hp' Hc'. apply Hle. by eapply A2.
Qed.
(** The paths of a destination are those that have updates. *)
Definition table_ok {n} (t : path_table n) : Prop :=
  ∀ d p, (∃ paths z, pt_affinity t !! d = Some paths ∧ paths !! p = Some z) ↔ d = IpNPath_Destination p ∧ is_Some (pt_updates t !! p).
Lemma add_path_ok {n} now (path : IpNPath n) u t :
  DestinationAffinity settings = true → table_ok t → table_ok (add_path settings now path u t).
Proof.
  intros Ha Ht d p. unfold add_path. rewrite Ha. simpl. rewrite lookup_insert_is_Some.
  destruct (decide (IpNPath_Destination path = d)) as [<-|Hd].
  - rewrite lookup_insert_eq. transitivity (path = p ∨ path ≠ p ∧ ∃ paths z, pt_affinity t !! IpNPath_Destination path = Some paths ∧ paths !! p = Some z).
    + split.
      * intros (paths & z & [= <-] & Hp). apply lookup_insert_Some in Hp as [[-> _]|[Hn Hp]]; [by left|right].
        split; [done|]. destruct (pt_affinity t !! _) as [m|]; simpl in Hp; [|done]. by exists m, z.
      * intros [->|(Hn & m & z & Em & Hp)]; [eexists _, now; split; [done|apply lookup_insert_eq]|].
        eexists _, z. split; [done|]. rewrite lookup_insert_ne by done. by rewrite Em.
    + rewrite (Ht (IpNPath_Destination path) p). split; [intros [->|(? & ? & ?)]; auto|].
      intros [Hd [->|[? ?]]]; auto.
  - rewrite lookup_insert_ne by done. rewrite (Ht d p). split; [naive_solver|]. intros [-> [->|[_ Hp]]]; done.
Qed.
Lemma remove_path_ok {n} (path : IpNPath n) t :
  DestinationAffinity settings = true → table_ok t → table_ok (remove_path settings path t).
Proof.
  intros Ha Ht d p. unfold remove_path. rewrite Ha. simpl. rewrite lookup_delete_is_Some.
  transitivity (path ≠ p ∧ ∃ paths z, pt_affinity t !! d = Some paths ∧ paths !! p = Some z);
    [|rewrite (Ht d p); naive_solver].
  destruct (pt_affinity t !! IpNPath_Destination path) as [m|] eqn:Em.
  - destruct (decide (IpNPath_Destination path = d)) as [<-|Hd].
    + transitivity (∃ z, delete path m !! p = Some z).
      * case_bool_decide as Eb.
        -- rewrite lookup_delete_eq, Eb. split; [naive_solver|]. intros [z Hz]. by rewrite lookup_empty in Hz.
        -- rewrite lookup_insert_eq. naive_solver.
      * rewrite Em. setoid_rewrite lookup_delete_Some. naive_solver.
    + assert ((if bool_decide (delete path m = ∅) then delete (IpNPath_Destination path) (pt_affinity t)
        else <[IpNPath_Destination path:=delete path m]> (pt_affinity t)) !! d = pt_affinity t !! d) as ->.
      { case_bool_decide; [by rewrite lookup_delete_ne|by rewrite lookup_insert_ne]. }
      split; [|naive_solver]. intros Hx. split; [|done]. intros ->. apply Ht in Hx as [-> _]. done.
  - split; [|naive_solver]. intros (m & z & Hm & Hp). split; [|eauto]. intros ->.
    assert (d = IpNPath_Destination p ∧ is_Some (pt_updates t !! p)) as [-> _] by (apply Ht; eauto). congruence.
Qed.

Definition tables_ok (s : multiClient) : Prop := table_ok (mu_ip4 s) ∧ table_ok (mu_ip6 s).
Definition same_tables (s s' : multiClient) : Prop := mu_ip4 s' = mu_ip4 s ∧ mu_ip6 s' = mu_ip6 s.
Lemma same_tables_ok s s' : same_tables s s' → tables_ok s → tables_ok s'.
Proof. intros [E1 E2]. unfold tables_ok. by rewrite E1, E2. Qed.
Lemma same_tables_trans s1 s2 s3 : same_tables s1 s2 → same_tables s2 s3 → same_tables s1 s3.
Proof. unfold same_tables. intuition congruence. Qed.
Ltac by_cases := repeat match goal with |- same_tables _ (match ?x with _ => _ end) => destruct x end; try done.
Lemma unregister_tables u c s : same_tables s (unregister u c s).
Proof. unfold unregister. by_cases. Qed.
Lemma settle_tables u previous s : same_tables s (settle u previous s).
Proof.
  unfold settle. case_decide; [done|].
  assert (same_tables s (match previous with Some c => unregister u c s | None => s end)) as Hs by (by_cases; apply unregister_tables).
  by_cases.
Qed.
Lemma clear_race_tables u s : same_tables s (clear_race u s).
Proof. unfold clear_race. by_cases. Qed.
Lemma init_race_tables u s : same_tables s (init_race u s).
Proof. unfold init_race. by_cases. Qed.
Lemma race_sent_tables now k u c s : same_tables s (race_sent settings now k u c s).
Proof.
  pose proof (init_race_tables u s) as Hi. unfold race_sent. case_decide; [done|].
  destruct (race_of (init_race u s) u) as [[r x]|]; [|done]. destruct (mu_updates (init_race u s) !! u) as [y|]; [|done].
  destruct (_ && _); [|done]. eapply same_tables_trans; [exact Hi|]. exact (clear_race_tables u (at_race r _ (init_race u s))).
Qed.
Lemma receive_section_tables now k u pooled p s : same_tables s (receive_section settings now k u pooled p s).
Proof.
  unfold receive_section. destruct (client_of s u); [by case_decide|]. destruct (race_of s u) as [[r x]|]; [|done].
  destruct (r_clientStates x !! rp_client p); [|done]. destruct (_ && _); [done|]. apply clear_race_tables.
Qed.
Lemma complete_section_tables k ipPath u race order s : same_tables s (complete_section k ipPath u race order s).
Proof.
  unfold complete_section. destruct (race_of s u) as [[r x]|]; [|done]. case_decide; [|done].
  destruct (client_of s u); [apply clear_race_tables|].
  destruct (last order) as [c|]; [exact (clear_race_tables u (at_update u (set_client (Some c)) s))|apply clear_race_tables].
Qed.
Lemma removeClient_tables k c s : same_tables s (removeClient k c s).
Proof.
  unfold removeClient. destruct (mu_clientUpdates s !! c) as [us|]; [|done]. set (s1 := set_clientUpdates _ s).
  assert (same_tables s s1) as H1 by done. clearbody s1. revert s1 H1.
  induction (elements us) as [|u l IH]; intros s1 H1; simpl; [done|]. apply IH. eapply same_tables_trans; [exact H1|].
  unfold reset_update. by_cases.
Qed.
Lemma new_path_tables4 it now ipPath path s :
  DestinationAffinity settings = true → tables_ok s → tables_ok (new_path settings true put4 it now ipPath path (mu_ip4 s) s).
Proof. intros Ha [H1 H2]. split; [|exact H2]. by apply add_path_ok. Qed.
Lemma new_path_tables6 it now ipPath path s :
  DestinationAffinity settings = true → tables_ok s → tables_ok (new_path settings false put6 it now ipPath path (mu_ip6 s) s).
Proof. intros Ha [H1 H2]. split; [exact H1|]. by apply add_path_ok. Qed.
Lemma reserve_tables it now ipPath s s' u previous :
  DestinationAffinity settings = true → reserveUpdate settings it now ipPath s = Val (s', u, previous) → tables_ok s → tables_ok s'.
Proof.
  intros Ha E Ht. unfold reserveUpdate, reserve_path in E. destruct (Version ipPath =? 4)%Z; [|destruct (Version ipPath =? 6)%Z; [|done]].
  - destruct (pt_updates _ !! _); [destruct (is_done s _)|]; simplify_eq; try done; by apply new_path_tables4.
  - destruct (pt_updates _ !! _); [destruct (is_done s _)|]; simplify_eq; try done; by apply new_path_tables6.
Qed.
Lemma begin_call_tables it now k ipPath kind s s' :
  DestinationAffinity settings = true → begin_call settings it now k ipPath kind s = Some s' → tables_ok s → tables_ok s'.
Proof.
  intros Ha E. unfold begin_call in E. destruct (is_free k s); [|done].
  destruct (reserveUpdate settings it now ipPath s) as [[[s1 u] previous]| |] eqn:Er; simplify_eq.
  intros Ht. by eapply reserve_tables in Er.
Qed.
Lemma idle_end_tables now k u s s' :
  DestinationAffinity settings = true → idle_end settings now k u s = Some s' → tables_ok s → tables_ok s'.
Proof.
  intros Ha E [H4 H6]. unfold idle_end in E. destruct (mu_updates s !! u) as [x|]; [|done]. destruct (_ && _); [|done].
  set (s1 := if (Version (u_ipPath x) =? 4)%Z then _ else _) in E.
  assert (tables_ok s1) as H1 by (subst s1; destruct (_ =? _)%Z; split; try done; by apply remove_path_ok).
  clearbody s1. set (s2 := match u_client x with Some c => unregister u c s1 | None => s1 end) in E.
  assert (same_tables s1 s2) as H2 by (subst s2; destruct (u_client x); [apply unregister_tables|done]). clearbody s2.
  eapply same_tables_ok in H2; [|exact H1]. by simplify_eq.
Qed.
Lemma perform_tables k s s' : perform k s = Some s' → same_tables s s'.
Proof. unfold perform. destruct (pending_of s k); [done|]. by intros [= <-]. Qed.
Lemma drop_tables k s : same_tables s (drop_if_closed k s).
Proof. unfold drop_if_closed. by destruct (mu_closed s). Qed.
Lemma end_call_tables k s s' : same_tables s s' → same_tables s (end_call k s').
Proof. unfold end_call. by destruct (pending_of _ _). Qed.
Lemma end_step_tables k s s' : end_step k s = Some s' → same_tables s s'.
Proof.
  unfold end_step. destruct (mu_ends s !! k) as [[]|]; [done| |done]. intros [= <-].
  destruct (perform (k, None) s) as [s'|] eqn:Ep; [by apply perform_tables in Ep|done].
Qed.
Lemma send_step_tables now l k ca ipPath packet pc s s' :
  send_step settings now l k ca ipPath packet pc s = Some s' → same_tables s s'.
Proof.
  intros E. unfold send_step in E. destruct pc, l; simpl in E; try done.
  - destruct (mu_updates s !! ca_update ca); [|done]. destruct (canSendPacket _ _ _); by simplify_eq.
  - destruct (client_of s (ca_update ca)); by simplify_eq.
  - unfold direct_section in E. destruct r; simplify_eq; [done..|]. by destruct (mu_updates s !! _).
  - destruct orderedClients as [|c1 [|c2 cs]]; by simplify_eq.
  - destruct success; simplify_eq; [|done]. unfold single_section. destruct (client_of s _); [|done]. by case_decide.
  - case_decide; [|done]. destruct (_ || _); by simplify_eq.
  - case_decide; [|done]. destruct success; simplify_eq; [|done]. apply race_sent_tables.
  - case_decide; [|done]. destruct (perform _ s) as [s2|] eqn:Ep; simplify_eq; [by apply perform_tables in Ep|done].
  - case_decide; [|done]. destruct (0 <? successCount); [by simplify_eq|destruct retry; by simplify_eq].
  - simplify_eq. apply drop_tables.
  - destruct (perform _ s) as [s2|] eqn:Ep; simplify_eq; [by apply perform_tables in Ep|done].
Qed.
Lemma mc_step_tables now l s s' :
  DestinationAffinity settings = true → mc_step settings now l s = Some s' → tables_ok s → tables_ok s'.
Proof.
  intros Ha E Ht.
  destruct l; simpl in E;
    try (apply on_call_some in E as [ca E]; destruct (ca_kind ca); try done; eapply same_tables_ok; [by eapply send_step_tables|done]).
  - by eapply begin_call_tables.
  - by eapply begin_call_tables.
  - apply on_call_some in E as [ca E]. destruct (ca_kind ca); simplify_eq. eapply same_tables_ok; [|exact Ht].
    exact (receive_section_tables now (k, None) (ca_update ca) pooled p s).
  - destruct (mu_races s !! race) as [x|]; [|done]. destruct (r_scheduled x); [|done]. by eapply begin_call_tables.
  - apply on_call_some in E as [ca E]. destruct (ca_kind ca); try done. destruct (mu_races s !! race) as [x|]; [|done].
    case_decide; simplify_eq. eapply same_tables_ok; [|exact Ht]. exact (complete_section_tables (k, None) (r_ipPath x) (ca_update ca) race order s).
  - apply on_call_some in E as [ca E]. destruct (ca_kind ca); simplify_eq. eapply same_tables_ok; [|exact Ht].
    apply end_call_tables, settle_tables.
  - destruct (mu_ends s !! k) as [[]|]; [simplify_eq; eapply same_tables_ok; [apply drop_tables|done]|..];
      apply on_call_some in E as [ca E]; destruct (ca_kind ca); try done; eapply same_tables_ok; [by eapply send_step_tables|done|by eapply send_step_tables|done].
  - destruct (mu_ends s !! k); [eapply same_tables_ok; [by eapply end_step_tables|done]|].
    apply on_call_some in E as [ca E]; destruct (ca_kind ca); try done; eapply same_tables_ok; [by eapply send_step_tables|done].
  - destruct (is_free k s); [|done]. apply fmap_Some in E as (s1 & E & ->). by eapply idle_end_tables in E.
  - by simplify_eq.
  - by simplify_eq.
  - destruct (is_free k s); simplify_eq. eapply same_tables_ok; [apply removeClient_tables|done].
  - simplify_eq. split; intros d p; simpl; rewrite !lookup_empty; split; [naive_solver|intros [_ [? ?]]; done|naive_solver|intros [_ [? ?]]; done].
Qed.
Lemma mc_run_tables ls s s' :
  DestinationAffinity settings = true → mc_run settings ls s = Some s' → tables_ok s → tables_ok s'.
Proof.
  intros Ha. revert s. induction ls as [|[now l] ls IH]; intros s E Ht; simpl in E; [by simplify_eq|].
  apply bind_Some in E as (s1 & E1 & E). eapply IH; [done|]. by eapply mc_step_tables.
Qed.
Lemma default_lookup {n} (m : gmap (IpNPath n) (gmap (IpNPath n) Z)) d p :
  (∃ z, default ∅ (m !! d) !! p = Some z) ↔ ∃ paths z, m !! d = Some paths ∧ paths !! p = Some z.
Proof.
  destruct (m !! d) as [paths|]; simpl.
  - split; [intros [z Hz]; by exists paths, z|intros (paths' & z & [= ->] & Hz); by exists z].
  - split; [intros [z Hz]; by rewrite lookup_empty in Hz|by intros (? & ? & ? & _)].
Qed.
(** [c] is the client of another flow, [p], to the destination of [path]; with
    [warnings], it is not in warning. *)
Definition destination_client {n} (warnings : bool) (t : path_table n) (s : multiClient) (path p : IpNPath n) (c : nat) : Prop :=
  p ≠ path ∧ IpNPath_Destination p = IpNPath_Destination path ∧
  ∃ v, pt_updates t !! p = Some v ∧ client_of s v = Some c ∧ (warnings = true → c ∉ mu_clientWarning s).
(** The client of a new flow, when the loop goes through the paths as [visited]:
    that of a flow to the destination, if one has a client; the latest of those
    that come before the flow itself, and the latest of all when there is none. *)
Definition follows_destination {n} (warnings : bool) (t : path_table n) (visited : list (IpNPath n * Z)) (s : multiClient)
    (path : IpNPath n) (client : option nat) : Prop :=
  match client with
  | Some c => ∃ p z l1 z0 l2, visited = l1 ++ (path, z0) :: l2 ∧ (p, z) ∈ visited ∧ destination_client warnings t s path p c ∧
      (∀ p' z' c', (p', z') ∈ l1 → destination_client warnings t s path p' c' → (z' <= z)%Z) ∧
      ((∀ p' z' c', (p', z') ∈ l1 → ¬ destination_client warnings t s path p' c') →
       ∀ p' z' c', (p', z') ∈ visited → destination_client warnings t s path p' c' → (z' <= z)%Z)
  | None => ∀ p c, ¬ destination_client warnings t s path p c
  end.
Definition visited {n} (it : iteration) (t : path_table n) (path : IpNPath n) : list (IpNPath n * Z) :=
  it_order it (default ∅ (pt_affinity t !! IpNPath_Destination path)).
(** There is no update for the path, or one that is done. *)
Definition is_new {n} (t : path_table n) (s : multiClient) (path : IpNPath n) : bool :=
  match pt_updates t !! path with Some u => is_done s u | None => true end.
Lemma add_path_updates {n} now (path : IpNPath n) u t : pt_updates (add_path settings now path u t) = <[path := u]> (pt_updates t).
Proof. done. Qed.
(** The loop goes through the flows to the destination, and the flow itself. *)
Lemma visited_paths {n} it now (path : IpNPath n) u t p :
  DestinationAffinity settings = true → table_ok t →
  p ∈ (visited it (add_path settings now path u t) path).*1
  ↔ IpNPath_Destination p = IpNPath_Destination path ∧ (path = p ∨ is_Some (pt_updates t !! p)).
Proof.
  intros Ha Ht. unfold visited. rewrite it_all.
  transitivity (∃ z, default ∅ (pt_affinity (add_path settings now path u t) !! IpNPath_Destination path) !! p = Some z).
  - rewrite list_elem_of_fmap. split.
    + intros ([p' z] & -> & Hp%elem_of_map_to_list). by exists z.
    + intros [z Hz]. exists (p, z). split; [done|]. by apply elem_of_map_to_list.
  - rewrite default_lookup, (add_path_ok now path u t Ha Ht (IpNPath_Destination path) p), add_path_updates, lookup_insert_is_Some'.
    split; intros [? ?]; done.
Qed.
Lemma path_client_destination {n} warnings now it (path : IpNPath n) u t s p z c :
  DestinationAffinity settings = true → table_ok t → (p, z) ∈ visited it (add_path settings now path u t) path → p ≠ path →
  path_client warnings (add_path settings now path u t) s p = Some c ↔ destination_client warnings t s path p c.
Proof.
  intros Ha Ht Hp Hn. apply (list_elem_of_fmap_2' fst _ (p, z) p) in Hp; [|done]. apply visited_paths in Hp as [Hd _]; [|done..].
  unfold path_client, destination_client. rewrite add_path_updates, lookup_insert_ne by done.
  destruct (pt_updates t !! p) as [v|]; simpl; [|split; [done|by intros (_ & _ & ? & ? & _)]].
  destruct (client_of s v) as [c'|] eqn:Ec; simpl; [|split; [done|intros (_ & _ & w & [= <-] & Ew & _); congruence]].
  destruct warnings; simpl; [case_bool_decide as Eb|]; split; try done.
  - intros (_ & _ & w & [= <-] & Ew & Hw). destruct (Hw eq_refl). congruence.
  - intros [= <-]. eauto 7.
  - intros (_ & _ & w & [= <-] & Ew & _). congruence.
  - intros [= <-]. split; [done|]. split; [done|]. by exists v.
  - intros (_ & _ & w & [= <-] & Ew & _). congruence.
Qed.
Lemma new_path_follows {n} warnings put it now ipPath (path : IpNPath n) t s :
  (∀ t s, ∃ t4 t6, put t s = set_tables t4 t6 s) → DestinationAffinity settings = true → table_ok t →
  follows_destination warnings t (visited it (add_path settings now path (mu_nextUpdate s) t) path) s path
    (client_of (new_path settings warnings put it now ipPath path t s) (mu_nextUpdate s)).
Proof.
  intros Hput Ha Ht. unfold client_of, new_path. destruct (Hput (add_path settings now path (mu_nextUpdate s) t) s) as (t4 & t6 & ->).
  cbn [mu_updates]. rewrite lookup_insert_eq. cbn [mbind option_bind u_client set_activity set_client]. rewrite Ha.
  set (t' := add_path settings now path (mu_nextUpdate s) t). fold (visited it t' path).
  pose proof (λ p z c, path_client_destination warnings now it path (mu_nextUpdate s) t s p z c Ha Ht) as Hpc. fold t' in Hpc.
  assert (path ∈ (visited it t' path).*1) as Hin by (apply visited_paths; auto).
  assert (NoDup (visited it t' path).*1) as Hnd by (unfold visited; rewrite it_all; apply NoDup_fst_map_to_list).
  apply list_elem_of_fmap in Hin as ([path' z0] & Ep & Hin). simpl in Ep. subst path'.
  apply list_elem_of_split in Hin as (l1 & l2 & Ev).
  assert ((path ∉ l1.*1) ∧ path ∉ l2.*1) as [Hl1 Hl2].
  { rewrite Ev, fmap_app, fmap_cons in Hnd. apply NoDup_app in Hnd as (_ & H1 & H2). apply NoDup_cons in H2 as [H2 _].
    split; [|done]. intros H3. apply (H1 _ H3). left. }
  pose proof (affinity_client_spec warnings t' s path l1 z0 l2 Hl1 Hl2) as Hs. rewrite <-Ev in Hs.
  assert (∀ p' z', (p', z') ∈ l1 ∨ (p', z') ∈ l2 → (p', z') ∈ visited it t' path ∧ p' ≠ path) as Hl.
  { intros p' z' Hp'. rewrite Ev, elem_of_app, elem_of_cons. split; [naive_solver|]. intros ->.
    destruct Hp' as [Hp'|Hp']; [apply Hl1|apply Hl2]; by apply (list_elem_of_fmap_2' fst _ (path, z')). }
  unfold follows_destination. destruct (affinity_client warnings t' s path (visited it t' path)) as [c|].
  - destruct Hs as (p & z & Hne & Hi & Hc & H1 & H2). exists p, z, l1, z0, l2. split; [done|]. split; [done|].
    split; [by apply (Hpc p z)|]. split.
    + intros p' z' c' Hp' Hd. apply (H1 p' z' c' Hp'). destruct (Hl p' z') as [? ?]; [by left|]. by apply (Hpc p' z').
    + intros Hno p' z' c' Hp' Hd. rewrite Ev in Hp'. apply elem_of_app in Hp' as [Hp'|[[= -> ->]|Hp']%elem_of_cons].
      * by destruct (Hno _ _ _ Hp' Hd).
      * by destruct Hd.
      * destruct (Hl p' z') as [? ?]; [by right|]. apply H2 with p' c'; [|done|by apply (Hpc p' z')].
        intros p2 z2 c2 Hp2 Hc2. destruct (Hl p2 z2) as [? ?]; [by left|]. apply (Hno p2 z2 c2 Hp2). by apply (Hpc p2 z2).
  - intros p c Hd. assert (p ∈ (visited it t' path).*1) as Hp.
    { apply visited_paths; [done..|]. destruct Hd as (_ & ? & v & Hv & _). split; [done|]. right. by exists v. }
    apply list_elem_of_fmap in Hp as ([p' z] & -> & Hp). simpl in *. assert (p' ≠ path) as Hne by apply Hd.
    assert ((p', z) ∈ l1 ++ l2) as Hp2.
    { rewrite Ev in Hp. apply elem_of_app in Hp as [?|[[= -> ->]|?]%elem_of_cons]; [by apply elem_of_app; left|done|by apply elem_of_app; right]. }
    specialize (Hs _ _ Hp2). apply (Hpc p' z) in Hd; [congruence|done..].
Qed.

(** C31. A new flow goes to a client of the flows to its destination, address
    and port, whenever one of them has a client; for version 4, one that is not
    in warning, which version 6 does not look at. Which one depends on the order
    in which the loop goes through the paths, and this includes the new path:
    it takes over the client chosen so far, with its own time, the latest. So
    the client is that of the latest flow among those visited before the new one,
    and of the latest of all only when none of these has a client. *)
Theorem new_flow_follows_destination ls s it now ipPath s' u previous :
  DestinationAffinity settings = true →
  mc_run settings ls newMultiClient = Some s →
  reserveUpdate settings it now ipPath s = Val (s', u, previous) →
  (Version ipPath = 4%Z → is_new (mu_ip4 s) s (ToIp4Path ipPath) = true →
    follows_destination true (mu_ip4 s) (visited it (mu_ip4 s') (ToIp4Path ipPath)) s (ToIp4Path ipPath) (client_of s' u)) ∧
  (Version ipPath = 6%Z → is_new (mu_ip6 s) s (ToIp6Path ipPath) = true →
    follows_destination false (mu_ip6 s) (visited it (mu_ip6 s') (ToIp6Path ipPath)) s (ToIp6Path ipPath) (client_of s' u)).
Proof.
  intros Ha Hr E.
  assert (tables_ok s) as [H4 H6].
  { eapply mc_run_tables; [done..|]. split; intros d p; simpl; rewrite !lookup_empty; split; [naive_solver|intros [_ [? ?]]; done|naive_solver|intros [_ [? ?]]; done]. }
  unfold reserveUpdate, reserve_path in E. split; intros Hv Hn; rewrite Hv in E; simpl in E; unfold is_new in Hn.
  - assert (s' = new_path settings true put4 it now ipPath (ToIp4Path ipPath) (mu_ip4 s) s ∧ u = mu_nextUpdate s) as [-> ->].
    { destruct (pt_updates _ !! _); [rewrite Hn in E|]; by simplify_eq. }
    apply (new_path_follows true put4); [by do 2 eexists|done..].
  - assert (s' = new_path settings false put6 it now ipPath (ToIp6Path ipPath) (mu_ip6 s) s ∧ u = mu_nextUpdate s) as [-> ->].
    { destruct (pt_updates _ !! _); [rewrite Hn in E|]; by simplify_eq. }
    apply (new_path_follows false put6); [by do 2 eexists|done..].
Qed.
End Affinity.

Module MultiClientExample.
Import IpExample.
Definition settings : MultiClientSettings := DefaultMultiClientSettings.
Definition ip (l : list Z) : list byte := byte_of <$> l.
Definition flow (port : Z) : IpPath := mkIpPath 4 IpProtocolTcp (ip [10; 0; 0; 1]%Z) port (ip [1; 1; 1; 1]%Z) 443 7 false false true.
Definition flow6 (port : Z) : IpPath := mkIpPath 6 IpProtocolTcp (ip (repeat 1%Z 16)) port (ip (repeat 2%Z 16)) 443 7 false false true.
(** A packet of a client back to a flow. *)
Definition back (path : IpPath) (c : nat) (b : Z) : receivePacket :=
  mkReceivePacket c (NewTransferPath Id_zero Id_zero Id_zero) 0 (IpPath_Reverse path) (ip [b]) false.
(** Loops over maps, in two orders. *)
Definition forwards : iteration := mkIteration (λ n m, map_to_list m) (λ n m, Permutation_refl _).
Lemma backwards_all {n} (m : gmap (IpNPath n) Z) : rev (map_to_list m) ≡ₚ map_to_list m.
Proof. symmetry. apply Permutation_rev. Qed.
Definition backwards : iteration := mkIteration (λ n m, rev (map_to_list m)) (λ n m, backwards_all m).
(** Steps at one time. *)
Definition at_time (now : Z) (ls : list label) : list (Z * label) := pair now <$> ls.
(** The calls of a goroutine after its section, and its end. *)
Definition finish (k n : nat) : list (Z * label) := at_time 0 (repeat (LOut k) (S n)).
Definition send_race (k : nat) (path : IpPath) (clients : list nat) : list (Z * label) :=
  at_time 0 ([LSend k forwards path (ip [0]%Z); LCheck k; LCurrent k; LSelect k clients] ++
    concat ((λ c, [LRaceStart k c; LRaceSent k c true; LRaceOut k c]) <$> clients) ++ [LRaceEnd k false]) ++
  finish k 1 ++ at_time 0 [LSettle k].
Definition send_single (k : nat) (path : IpPath) (c : nat) : list (Z * label) :=
  at_time 0 [LSend k forwards path (ip [0]%Z); LCheck k; LCurrent k; LSelect k [c]; LSingle k true; LSettle k].
Definition receive (k : nat) (path : IpPath) (c : nat) (b : Z) : list (Z * label) :=
  at_time 0 [LReceive k forwards (back path c b); LReceiveSection k true; LSettle k].
Definition complete (k race : nat) (order : list nat) : list (Z * label) :=
  at_time 0 [LComplete k forwards race; LCompleteSection k order; LSettle k].
(** The clients of the packets delivered, and where resets of the source are. *)
Definition source_sees (o : key * output) : option (option nat) :=
  match o.2 with ODeliver _ p => Some (Some (rp_client p)) | OResetSource _ _ _ => Some None | _ => None end.
Definition deliveries (s : option multiClient) : list (option nat) :=
  match s with Some s => omap source_sees (ef_done (mu_log s)) | None => [] end.

(** Two clients race; the first to answer gets the flow, and the packet of the
    other is not delivered. *)
Definition race_run : list (Z * label) :=
  send_race 0 (flow 1) [1; 2] ++ receive 1 (flow 1) 2 5 ++ receive 2 (flow 1) 1 6 ++ complete 3 0 [1; 2] ++ finish 3 4 ++
  receive 4 (flow 1) 2 7 ++ finish 4 1.
Example race_won : deliveries (mc_run settings race_run newMultiClient) = [Some 2; Some 2].
Proof. vm_compute. reflexivity. Qed.

(** A packet of client 2 is accepted; before it is delivered the client is
    removed, the flow gets client 1, and a packet of it is delivered. *)
Definition overtaken_run : list (Z * label) :=
  race_run ++ receive 5 (flow 1) 2 8 ++ at_time 0 [LClientDone 2; LRemove 6 2; LResets 6] ++ finish 6 1 ++
  send_single 7 (flow 1) 1 ++ receive 8 (flow 1) 1 9 ++ finish 8 1 ++ finish 5 1.
Example delivered_after_the_next :
  deliveries (mc_run settings overtaken_run newMultiClient) = [Some 2; Some 2; None; Some 1; Some 2].
Proof. vm_compute. reflexivity. Qed.

(** When the packets of a client go over the limit of the race, they are
    delivered, and then no client is chosen: the next packet starts another race,
    and the flow goes on with the other client, without a reset. *)
Definition limited : MultiClientSettings := {|
  SequenceIdleTimeout := 120 * second; MultiRaceSetOnNoResponseTimeout := 5 * second; MultiRaceClientSentPacketMaxCount := 16;
  MultiRaceClientPacketMaxCount := 1; MultiRacePacketMaxCount := 32; MultiRaceClientEarlyCompleteFraction := (1 # 4)%Q;
  MultiRaceClientCount := 0; DestinationAffinity := true; TcpCollapsePrevention := true |}.
Definition limit_run : list (Z * label) :=
  send_race 0 (flow 1) [1; 2] ++ receive 1 (flow 1) 1 5 ++ receive 2 (flow 1) 1 6 ++ finish 2 5 ++
  send_race 3 (flow 1) [1; 2] ++ receive 4 (flow 1) 2 7 ++ complete 5 1 [2] ++ finish 5 3.
Example limit_changes_client : deliveries (mc_run limited limit_run newMultiClient) = [Some 1; Some 1; Some 2].
Proof. vm_compute. reflexivity. Qed.

(** A send to the only client of the window takes the flow from the client that
    won the race meanwhile. *)
Definition replace_run : list (Z * label) :=
  send_race 0 (flow 1) [1; 2] ++ receive 1 (flow 1) 2 5 ++
  at_time 0 [LSend 2 forwards (flow 1) (ip [0]%Z); LCheck 2; LCurrent 2; LSelect 2 [1]] ++
  complete 3 0 [2] ++ finish 3 3 ++ at_time 0 [LSingle 2 true; LSettle 2] ++ receive 4 (flow 1) 1 6 ++ finish 4 1.
Example replaced_without_reset : deliveries (mc_run settings replace_run newMultiClient) = [Some 2; Some 1].
Proof. by vm_compute. Qed.

(** Two sends of a flow: the first fails and takes its client off, the second
    chooses the client again, and leaves it as it was when it began: not
    registered, so that the end of the client does not reset the flow. *)
Definition unregistered_run : list (Z * label) :=
  send_single 0 (flow 1) 1 ++
  at_time 0 [LSend 1 forwards (flow 1) (ip [0]%Z); LCheck 1; LCurrent 1; LSend 2 forwards (flow 1) (ip [0]%Z); LCheck 2;
    LDirect 1 SendError; LResets 1] ++ finish 1 1 ++
  at_time 0 [LSettle 1; LCurrent 2; LSelect 2 [1]; LSingle 2 true; LSettle 2; LClientDone 1; LRemove 3 1].
Example not_registered :
  match mc_run settings unregistered_run newMultiClient with
  | Some s => client_of s 0 = Some 1 ∧ omap source_sees (ef_decided (mu_log s)) = [None]
  | None => False
  end.
Proof. by vm_compute. Qed.

(** A client in warning gets the new flows of version 6, not those of 4. *)
Definition warned (path : Z → IpPath) : list (Z * label) :=
  send_single 0 (path 1%Z) 1 ++ at_time 0 [LWarning 1 true; LSend 1 forwards (path 2%Z) (ip [0]%Z)].
Example warning_of_version :
  (mc_run settings (warned flow) newMultiClient ≫= λ s, client_of s 1,
   mc_run settings (warned flow6) newMultiClient ≫= λ s, client_of s 1) = (None, Some 1).
Proof. by vm_compute. Qed.

(** Sequence numbers are compared without wrapping. *)
Example wrapped_not_sent :
  canSendPacket settings (mkIpPath 4 IpProtocolTcp [] 1 [] 443 0 false false false)
    (mkUpdate (Some 1) None 0 (flow 1) 1 (2 ^ 32 - 1) false true) = false.
Proof. by vm_compute. Qed.

Definition ran (settings : MultiClientSettings) (ls : list (Z * label)) : multiClient := default newMultiClient (mc_run settings ls newMultiClient).
Lemma ran_run settings ls : bool_decide (is_Some (mc_run settings ls newMultiClient)) = true → mc_run settings ls newMultiClient = Some (ran settings ls).
Proof. unfold ran. intros [s ->]%bool_decide_eq_true. done. Qed.
(** The acceptances of a run: what comes before, between and after two. *)
Definition accepted (n : nat) : receivePacket :=
  nth n (omap (λ o, match o with ODeliver _ p => Some p | _ => None end) (decided (ran settings overtaken_run))) (reversed (back (flow 1) 0 0)).
Lemma flow_has_one_client_witness :
  rp_client (accepted 1) = rp_client (accepted 2) ∧ rp_client (accepted 1) = 2 ∧
  map rp_client [accepted 0; accepted 1; accepted 2; accepted 3] = [2; 2; 2; 1] ∧
  from (5, None) (ef_done (mu_log (ran settings overtaken_run))) ++ pending_of (ran settings overtaken_run) (5, None) = [ODeliver 0 (accepted 2)].
Proof.
  destruct (flow_has_one_client settings overtaken_run (ran settings overtaken_run)) as [H1 H2]; [apply ran_run; vm_compute; reflexivity|].
  split; [|split; [vm_compute; reflexivity|split; [vm_compute; reflexivity|rewrite H2; vm_compute; reflexivity]]].
  apply (H1 0 (accepted 1) (accepted 2) (take 5 (decided (ran settings overtaken_run))) [] (drop 7 (decided (ran settings overtaken_run))));
    vm_compute; reflexivity.
Defined.
Definition raced : updateRace := default (newRace (flow 1)) (mu_races (ran settings race_run) !! 0).
Lemma raced_found : mu_races (ran settings race_run) !! 0 = Some raced.
Proof.
  unfold raced. assert (bool_decide (is_Some (mu_races (ran settings race_run) !! 0)) = true) as [x ->]%bool_decide_eq_true; [|done].
  vm_compute. reflexivity.
Qed.
Lemma races_within_limits_witness : race_ok settings raced.
Proof. apply (races_within_limits settings race_run (ran settings race_run) 0); [apply ran_run; vm_compute; reflexivity|exact raced_found]. Defined.
Definition reserved (it : iteration) (ipPath : IpPath) (s : multiClient) : multiClient * nat * option nat :=
  match reserveUpdate settings it 9 ipPath s with Val x => x | _ => (s, 0, None) end.
Lemma reserved_found it ipPath s :
  is_val (reserveUpdate settings it 9 ipPath s) = true → reserveUpdate settings it 9 ipPath s = Val (reserved it ipPath s).
Proof. unfold reserved. by destruct (reserveUpdate settings it 9 ipPath s). Qed.
Definition after_reserve : multiClient * nat * option nat := reserved forwards (flow 2) (ran settings race_run).
Lemma new_flow_follows_destination_witness :
  follows_destination true (mu_ip4 (ran settings race_run)) (visited forwards (mu_ip4 after_reserve.1.1) (ToIp4Path (flow 2)))
    (ran settings race_run) (ToIp4Path (flow 2)) (client_of after_reserve.1.1 after_reserve.1.2).
Proof.
  refine (proj1 (new_flow_follows_destination settings race_run (ran settings race_run) forwards 9 (flow 2)
    after_reserve.1.1 after_reserve.1.2 after_reserve.2 _ _ _) _ _).
  - reflexivity.
  - apply ran_run. vm_compute. reflexivity.
  - rewrite reserved_found by (vm_compute; reflexivity). fold after_reserve. by destruct after_reserve as [[? ?] ?].
  - reflexivity.
  - vm_compute. reflexivity.
Defined.
Example follows : client_of after_reserve.1.1 after_reserve.1.2 = Some 2.
Proof. vm_compute. reflexivity. Qed.
(** Client 1 is in warning when the second of two flows begins, which gets client
    2. A third flow, between them in the order of the loop, gets client 1 in that
    order, which comes to it before the later flow, and client 2 in the other. *)
Definition start_at (k : nat) (now port : Z) (c : nat) : list (Z * label) :=
  pair now <$> [LSend k forwards (flow port) (ip [0]%Z); LCheck k; LCurrent k; LSelect k [c]; LSingle k true; LSettle k].
Definition two_flows : multiClient :=
  ran settings (start_at 0 1 1 1 ++ at_time 1 [LWarning 1 true] ++ start_at 1 2 2 2 ++ at_time 2 [LWarning 1 false]).
Example not_the_latest :
  (λ it, let s := reserved it (flow 6) two_flows in client_of s.1.1 s.1.2) <$> [forwards; backwards] = [Some 1; Some 2] ∧
  (λ x, (p_SourcePort x.1, x.2)) <$> visited forwards (mu_ip4 (reserved forwards (flow 6) two_flows).1.1) (ToIp4Path (flow 6)) =
    [(1, 1); (6, 9); (2, 2)]%Z.
Proof. by vm_compute. Qed.
End MultiClientExample.
