(* ===== verification/MultiClientWindow.v ===== *)
(** * The window of clients: ip_remote_multi_client.go

    A [multiClientWindow] resizes its set of clients from their statistics:
    unhealthy clients are removed but for the healthiest, those that may soon be
    are warned, the window expands to a target size and collapses from a hard
    maximum. [OrderedClients] are those a new flow may use. The clients are in
    maps: every function takes them as a list in any order. *)

From S2P Require Import Prelude RttWindow Util Ip MultiClientStats MultiClient.
From stdpp Require Import sorting.
From Stdlib Require Import QArith.QArith_base QArith.Qround Floats.SpecFloat.
Close Scope Q_scope.
Open Scope go_scope.

Record WindowSizeSettings := mkWindowSizeSettings {
  WindowSizeMin : Z;
  WindowSizeMinP2pOnly : Z;
  WindowSizeMax : Z;
  WindowSizeHardMax : Z;
  FixedWindowSize : Z;
  WindowSizeReconnectScale : Q;
  KeepHealthiestCount : Z;
  Ulimit : Z
}.
Definition WindowSizeSettings_Validate (self : WindowSizeSettings) : outcome unit :=
  if (WindowSizeMax self <? WindowSizeMin self)%Z then Err "Window size invalid. Max must be >= min"
  else if (0 <? FixedWindowSize self)%Z && ((FixedWindowSize self <? WindowSizeMin self)%Z || (WindowSizeMax self <? FixedWindowSize self)%Z)
  then Err "Window size must include the fixed size"
  else Val tt.
Record PerformanceProfile := mkPerformanceProfile {
  pp_WindowType : WindowType;
  pp_WindowSize : WindowSizeSettings
}.
Definition PerformanceProfile_Validate (self : PerformanceProfile) : outcome unit := WindowSizeSettings_Validate (pp_WindowSize self).
Definition DefaultWindowSizeSettings : WindowSizeSettings := mkWindowSizeSettings 1 0 1 4 0 1 1 0.
(** The sizes of [DefaultMultiClientSettings]. *)
Definition DefaultWindowSizes (windowType : WindowType) : WindowSizeSettings :=
  match windowType with
  | WindowTypeQuality => mkWindowSizeSettings 2 0 6 12 0 (6 # 5)%Q 0 0
  | WindowTypeSpeed => mkWindowSizeSettings 1 0 2 4 1 1 0 0
  end.
(** The profile that is set, or the settings of the type. *)
Definition window_size (profile : option PerformanceProfile) (windowSizes : WindowType → WindowSizeSettings)
    (windowType : WindowType) : WindowSizeSettings :=
  match profile with Some p => pp_WindowSize p | None => windowSizes windowType end.

Record WindowSettings := mkWindowSettings {
  StatsWindowMaxUnhealthyDuration : Z;
  StatsWindowWarnUnhealthyDuration : Z;
  WindowStatsWindowGraceperiod : Z;
  DefaultUlimit : Z;
  DefaultReconnectScale : Q
}.
Definition DefaultWindowSettings : WindowSettings := mkWindowSettings (15 * second) (5 * second) (30 * second) 0 1.

(** A client with its statistics. *)
Record clientInfo := mkClientInfo {
  ci_client : nat;
  ci_stats : clientWindowStats;
  ci_p2pOnly : bool;
  ci_tier : Z;
  ci_warning : bool
}.
Definition effective_weight (c : clientInfo) : spec_float :=
  f32_of_Z (EffectiveByteCountPerSecond (ws_windowDuration (ci_stats c)) (ws_packetStats (ci_stats c))).

(** ** Health *)
(** Healthy for longer first, then for longer in all. *)
Definition health_before (a b : clientInfo) : Prop :=
  (ws_healthyDuration (ci_stats b) < ws_healthyDuration (ci_stats a))%Z
  ∨ (ws_healthyDuration (ci_stats b) = ws_healthyDuration (ci_stats a)
     ∧ ws_netHealthyDuration (ci_stats b) <= ws_netHealthyDuration (ci_stats a))%Z.
#[export] Instance health_before_dec : RelDecision health_before.
Proof. intros a b. unfold health_before. apply _. Defined.
Definition health_order (l : list clientInfo) : list clientInfo := merge_sort health_before l.
Fixpoint index_of (c : nat) (l : list nat) : nat :=
  match l with [] => 0 | x :: l => if c =? x then 0 else S (index_of c l) end.
Definition netHealthRank (l : list clientInfo) (c : clientInfo) : nat := index_of (ci_client c) (ci_client <$> health_order l).

Section Window.
Variable settings : WindowSettings.
Variable windowSize : WindowSizeSettings.

(** What becomes of a client, and its warning. *)
Inductive verdict := VRemove | VWarn (warning : bool) | VKeep.
Definition protected_count : Z := Z.max (FixedWindowSize windowSize) (KeepHealthiestCount windowSize).
Definition judge (startTime : Z) (rank : nat) (stats : clientWindowStats) : verdict :=
  let remove := (protected_count <=? Z.of_nat rank)%Z in
  if (ws_unhealthyDuration stats <? StatsWindowMaxUnhealthyDuration settings)%Z then
    if (ws_unhealthyDuration stats <? StatsWindowWarnUnhealthyDuration settings)%Z then
      if match ws_removeTime stats with Some t => (t <? startTime)%Z | None => false end then VWarn remove
      else
        let windowSizeUlimit := if (0 <? Ulimit windowSize)%Z then Ulimit windowSize else DefaultUlimit settings in
        if (0 <? windowSizeUlimit)%Z && (windowSizeUlimit <=? Z.of_nat (ws_netSourceCount stats))%Z then VWarn true else VKeep
    else VWarn remove
  else if remove then VRemove else VWarn false.
Record resizePass := mkResizePass {
  rz_clients : list clientInfo;
  rz_warnedClients : list clientInfo;
  rz_removed : list clientInfo;
  (** the calls of [setWarning] *)
  rz_warnings : list (nat * bool)
}.
Definition judge_client (startTime : Z) (all : list clientInfo) (r : resizePass) (c : clientInfo) : resizePass :=
  match judge startTime (netHealthRank all c) (ci_stats c) with
  | VKeep => mkResizePass (rz_clients r ++ [c]) (rz_warnedClients r) (rz_removed r) (rz_warnings r ++ [(ci_client c, false)])
  | VWarn w => mkResizePass (rz_clients r) (rz_warnedClients r ++ [c]) (rz_removed r) (rz_warnings r ++ [(ci_client c, w)])
  | VRemove => mkResizePass (rz_clients r) (rz_warnedClients r) (rz_removed r ++ [c]) (rz_warnings r ++ [(ci_client c, true)])
  end.
Definition judge_clients (startTime : Z) (l : list clientInfo) : resizePass :=
  fold_left (judge_client startTime l) l (mkResizePass [] [] [] []).
Definition max_source (l : list clientInfo) : Z := foldr Z.max 0%Z ((λ c, Z.of_nat (ws_sourceCount (ci_stats c))) <$> l).

(** ** Sizes *)
(** The target, and the least size. [fixedDestinationSize]: the generator's;
    [fixedWindowType]: that of a profile. *)
Definition target_size (fixedDestinationSize : option Z) (fixedWindowType : option WindowType) (windowType : WindowType)
    (maxSourceCount p2pOnlyWindowSize : Z) : Z * Z :=
  match fixedDestinationSize with
  | Some n => (n, n)
  | None =>
      if (0 <? FixedWindowSize windowSize)%Z then
        let target :=
          match fixedWindowType, windowType with
          | None, _ | Some WindowTypeQuality, WindowTypeQuality | Some WindowTypeSpeed, WindowTypeSpeed => FixedWindowSize windowSize
          | _, _ => 0%Z
          end in
        (target, target)
      else
        let scale := if negb (Qle_bool (WindowSizeReconnectScale windowSize) 0) then WindowSizeReconnectScale windowSize
          else DefaultReconnectScale settings in
        let target := Qceiling (inject_Z maxSourceCount * scale)%Q in
        let n := (WindowSizeMinP2pOnly windowSize - p2pOnlyWindowSize)%Z in
        let target := if (0 <? n)%Z then (target + n)%Z else target in
        (Z.min (WindowSizeMax windowSize) (Z.max (WindowSizeMin windowSize) target), WindowSizeMin windowSize)
  end.

(** ** Collapse *)
(** Descending weight, then duration. *)
Definition weight_before (a b : clientInfo) : Prop :=
  SFltb (effective_weight b) (effective_weight a) = true
  ∨ (SFltb (effective_weight a) (effective_weight b) = false
     ∧ ws_clientDuration (ci_stats b) <= ws_clientDuration (ci_stats a))%Z.
#[export] Instance weight_before_dec : RelDecision weight_before.
Proof. intros a b. unfold weight_before. apply _. Defined.
(** A client that carries nothing, after the grace period. *)
Definition idle_client (c : clientInfo) : bool :=
  (WindowStatsWindowGraceperiod settings <=? ws_clientDuration (ci_stats c))%Z && SFleb (effective_weight c) f32_zero.
(** Of the [n] last: those removed, and what is left of [n]. *)
Definition collapse (n : Z) (cs : list clientInfo) : list clientInfo * Z :=
  let m := Z.min (Z.of_nat (length cs)) n in
  if (0 <? m)%Z then
    (filter idle_client (drop (length cs - Z.to_nat m) (merge_sort weight_before cs)), n - m)%Z
  else ([], n).
Definition collapseLowestWeighted (targetWindowSize : Z) (warnedClients clients : list clientInfo) : list clientInfo :=
  let n := (Z.of_nat (length warnedClients + length clients) - targetWindowSize)%Z in
  let (removed1, n) := collapse n warnedClients in
  let (removed2, _) := collapse n clients in
  removed1 ++ removed2.

(** An iteration of [resize]: how many to add, and, given how many were, what
    is removed. *)
Definition p2p_count (clients : list clientInfo) : Z := Z.of_nat (length (filter ci_p2pOnly clients)).
Definition expand_count (fixedDestinationSize : option Z) (fixedWindowType : option WindowType) (windowType : WindowType)
    (r : resizePass) : Z :=
  let (target, _) := target_size fixedDestinationSize fixedWindowType windowType
    (max_source (rz_clients r ++ rz_warnedClients r)) (p2p_count (rz_clients r)) in
  Z.max 0 (target - Z.of_nat (length (rz_clients r))).
Definition collapsed (addedCount : Z) (r : resizePass) : list clientInfo :=
  let total := (Z.of_nat (length (rz_clients r) + length (rz_warnedClients r)) + addedCount)%Z in
  if (0 <? WindowSizeHardMax windowSize)%Z && (WindowSizeHardMax windowSize <? total)%Z
  then collapseLowestWeighted (Z.max 0 (WindowSizeHardMax windowSize - addedCount)) (rz_warnedClients r) (rz_clients r)
  else [].

(** *** A pass *)
(** [l]: the clients of the window with what [WindowStats] returned, the
    statistics or an error. [addedCount]: how many [expand] added. Those with an
    error are removed first, then those judged out, then those collapsed. *)
Record pass := mkPass {
  ps_errors : list nat;
  ps_judged : resizePass;
  ps_collapsed : list clientInfo
}.
Definition with_stats (l : list (clientInfo + nat)) : list clientInfo :=
  omap (λ x, match x with inl c => Some c | inr _ => None end) l.
Definition with_error (l : list (clientInfo + nat)) : list nat := omap (λ x, match x with inl _ => None | inr n => Some n end) l.
Definition resize_pass (startTime addedCount : Z) (l : list (clientInfo + nat)) : pass :=
  let r := judge_clients startTime (with_stats l) in
  mkPass (with_error l) r (collapsed addedCount r).
(** The calls of [removeClient], in order, and the clients that stay. *)
Definition pass_removed (p : pass) : list nat := ps_errors p ++ (ci_client <$> rz_removed (ps_judged p)) ++ (ci_client <$> ps_collapsed p).
Definition window_client (x : clientInfo + nat) : nat := match x with inl c => ci_client c | inr n => n end.
Definition pass_clients (p : pass) (l : list (clientInfo + nat)) : list nat :=
  filter (λ n, n ∉ pass_removed p) (window_client <$> l).

(** How likely [expand] makes a client of p2p only: the share of what is missing
    of that kind. *)
Definition p2pOnlyP (currentWindowSize currentP2pOnlyWindowSize added addedP2pOnly : Z) : Q :=
  let a := Z.max (WindowSizeMin windowSize - (currentWindowSize + added)) 0 in
  let b := Z.max (WindowSizeMinP2pOnly windowSize - (currentP2pOnlyWindowSize + addedP2pOnly)) 0 in
  match (a + b)%Z with Z.pos n => b # n | _ => 0%Q end.

(** ** [OrderedClients] *)
Definition ordered_weight (c : clientInfo) : spec_float := f32_of_Z (1 + ExpectedByteCountPerSecond (ci_stats c)).
(** Latest event first, then descending weight; no event is long ago. *)
Definition time_before (a b : option Z) : bool :=
  match a, b with None, Some _ => true | Some a, Some b => (a <? b)%Z | _, None => false end.
Definition lru_before (a b : clientInfo) : Prop :=
  let ta := ws_lastEventTime (ci_stats a) in let tb := ws_lastEventTime (ci_stats b) in
  time_before tb ta = true ∨ (time_before ta tb = false ∧ SFltb (ordered_weight a) (ordered_weight b) = false).
#[export] Instance lru_before_dec : RelDecision lru_before.
Proof. intros a b. unfold lru_before. apply _. Defined.
(** Those without an error and not in warning. *)
Definition usable (l : list (clientInfo * option string)) : list clientInfo :=
  omap (λ x, match x with (c, None) => if ci_warning c then None else Some c | _ => None end) l.
Definition most_recent (cs : list clientInfo) : list clientInfo :=
  if (0 <? FixedWindowSize windowSize)%Z && (FixedWindowSize windowSize <? Z.of_nat (length cs))%Z
  then take (Z.to_nat (FixedWindowSize windowSize)) (merge_sort lru_before cs) else cs.
Definition min_tier (cs : list clientInfo) : list clientInfo :=
  match cs with
  | [] => []
  | c :: _ => let minTier := foldr (λ c m, Z.min m (ci_tier c)) (ci_tier c) cs in filter (λ c, ci_tier c = minTier) cs
  end.
Definition OrderedClients (rand_int : nat → nat → nat) (rand_float : nat → spec_float) (entropy : spec_float)
    (l : list (clientInfo * option string)) : outcome (list clientInfo) :=
  match usable l with
  | [] => Val []
  | cs =>
      let! cs := WeightedShuffleFuncWithEntropy rand_int rand_float (most_recent cs) ordered_weight entropy in
      Val (min_tier cs)
  end.
End Window.

(** ** What a pass of [resize] does *)
Section Resize.
Variable settings : WindowSettings.
Variable windowSize : WindowSizeSettings.

Lemma health_before_total a b : health_before a b ∨ health_before b a.
Proof. unfold health_before. lia. Qed.
#[local] Instance health_before_total' : Total health_before := health_before_total.
#[local] Instance health_before_trans : Transitive health_before.
Proof. intros a b c. unfold health_before. lia. Qed.
Lemma health_order_perm l : health_order l ≡ₚ l.
Proof. apply merge_sort_Permutation. Qed.
Lemma health_order_sorted l : StronglySorted health_before (health_order l).
Proof. apply Sorted_StronglySorted; [apply _|]. apply Sorted_merge_sort. apply _. Qed.
Lemma index_of_lookup c l : c ∈ l → l !! index_of c l = Some c.
Proof. induction l as [|x l IH]; simpl; [by intros ?%elem_of_nil|]. case_bool; [by subst|]. intros [?|?]%elem_of_cons; [done|by apply IH]. Qed.
Lemma index_of_elem i c l : NoDup l → l !! i = Some c → index_of c l = i.
Proof.
  revert i. induction l as [|x l IH]; intros i Hd Hi; [done|]. apply NoDup_cons in Hd as [Hx Hd]. destruct i as [|i]; simpl in *.
  - injection Hi as ->. by rewrite Nat.eqb_refl.
  - case_bool; [|f_equal; by apply IH]. subst. exfalso. apply Hx. by eapply list_elem_of_lookup_2.
Qed.

(** The clients and the verdicts are in step. *)
Definition with_verdict (v : verdict → bool) (startTime : Z) (all l : list clientInfo) : list clientInfo :=
  filter (λ c, v (judge settings windowSize startTime (netHealthRank all c) (ci_stats c))) l.
Definition is_keep (v : verdict) : bool := match v with VKeep => true | _ => false end.
Definition is_warn (v : verdict) : bool := match v with VWarn _ => true | _ => false end.
Definition is_remove (v : verdict) : bool := match v with VRemove => true | _ => false end.
Lemma judge_fold startTime all l r :
  let r' := fold_left (judge_client settings windowSize startTime all) l r in
  rz_clients r' = rz_clients r ++ with_verdict is_keep startTime all l
  ∧ rz_warnedClients r' = rz_warnedClients r ++ with_verdict is_warn startTime all l
  ∧ rz_removed r' = rz_removed r ++ with_verdict is_remove startTime all l.
Proof.
  revert r. induction l as [|c l IH]; intros r; simpl; [by rewrite !app_nil_r|].
  destruct (IH (judge_client settings windowSize startTime all r c)) as (-> & -> & ->).
  unfold judge_client, with_verdict. rewrite !filter_cons. destruct (judge _ _ _ _ _); simpl; rewrite <-?app_assoc; done.
Qed.
Lemma judge_clients_spec startTime l :
  rz_clients (judge_clients settings windowSize startTime l) = with_verdict is_keep startTime l l
  ∧ rz_warnedClients (judge_clients settings windowSize startTime l) = with_verdict is_warn startTime l l
  ∧ rz_removed (judge_clients settings windowSize startTime l) = with_verdict is_remove startTime l l.
Proof. apply (judge_fold startTime l l (mkResizePass [] [] [] [])). Qed.
Lemma verdicts_partition startTime all l :
  with_verdict is_keep startTime all l ++ with_verdict is_warn startTime all l ++ with_verdict is_remove startTime all l ≡ₚ l.
Proof.
  unfold with_verdict. induction l as [|c l IH]; [done|]. rewrite !filter_cons.
  destruct (judge _ _ _ _ _); simpl; rewrite <-?Permutation_middle; rewrite ?app_assoc in *; rewrite <-?Permutation_middle; by rewrite IH.
Qed.
Lemma removed_iff startTime rank stats :
  is_remove (judge settings windowSize startTime rank stats) = true ↔
  (StatsWindowMaxUnhealthyDuration settings <= ws_unhealthyDuration stats ∧ protected_count windowSize <= Z.of_nat rank)%Z.
Proof.
  unfold judge. destruct (Z.ltb_spec (ws_unhealthyDuration stats) (StatsWindowMaxUnhealthyDuration settings)).
  - split; [|lia]. destruct (_ <? _)%Z; [|done]. destruct (match ws_removeTime stats with Some _ => _ | None => _ end); [done|].
    by destruct (_ && _).
  - destruct (Z.leb_spec (protected_count windowSize) (Z.of_nat rank)); simpl; split; try done; lia.
Qed.
Lemma same_client l c d : NoDup (ci_client <$> l) → c ∈ l → d ∈ l → ci_client c = ci_client d → c = d.
Proof.
  intros Hd [i Hi]%list_elem_of_lookup [j Hj]%list_elem_of_lookup E.
  assert (i = j) as ->; [|congruence]. eapply (proj1 (NoDup_alt _) Hd i j (ci_client c)); rewrite list_lookup_fmap.
  - by rewrite Hi.
  - rewrite Hj, E. done.
Qed.
(** Ranks are positions. *)
Lemma rank_lookup l c : NoDup (ci_client <$> l) → c ∈ l → health_order l !! netHealthRank l c = Some c.
Proof.
  intros Hd Hc. unfold netHealthRank. assert (ci_client c ∈ ci_client <$> health_order l) as Hin.
  { apply list_elem_of_fmap. exists c. split; [done|]. by rewrite health_order_perm. }
  apply index_of_lookup in Hin. rewrite list_lookup_fmap in Hin. apply fmap_Some in Hin as (d & Hd1 & Hd2). rewrite Hd1. f_equal.
  apply list_elem_of_lookup_2 in Hd1. rewrite health_order_perm in Hd1. symmetry.
  by eapply same_client.
Qed.

(** The judging loop keeps, warns or removes each client, once; it removes those
    that have been unhealthy for too long and are not among the healthiest, of
    which as many stay as are to be kept; and no client that stays for its rank
    is less healthy than one that goes. *)
Lemma resize_judges startTime l (Hl : NoDup (ci_client <$> l)) :
  let r := judge_clients settings windowSize startTime l in
  rz_clients r ++ rz_warnedClients r ++ rz_removed r ≡ₚ l
  ∧ (∀ c, c ∈ l → c ∈ rz_removed r ↔
      (StatsWindowMaxUnhealthyDuration settings <= ws_unhealthyDuration (ci_stats c)
       ∧ protected_count windowSize <= Z.of_nat (netHealthRank l c))%Z)
  ∧ (Z.min (protected_count windowSize) (Z.of_nat (length l)) <= Z.of_nat (length (rz_clients r) + length (rz_warnedClients r)))%Z
  ∧ (∀ c d, c ∈ rz_removed r → d ∈ l → (Z.of_nat (netHealthRank l d) < protected_count windowSize)%Z → health_before d c).
Proof.
  simpl. destruct (judge_clients_spec startTime l) as (-> & -> & ->). pose proof (verdicts_partition startTime l l) as Hp.
  assert (∀ c, c ∈ with_verdict is_remove startTime l l ↔ c ∈ l ∧ (StatsWindowMaxUnhealthyDuration settings <= ws_unhealthyDuration (ci_stats c)
    ∧ protected_count windowSize <= Z.of_nat (netHealthRank l c))%Z) as Hr.
  { intros c. unfold with_verdict. rewrite list_elem_of_filter, <-(removed_iff startTime), Is_true_true. tauto. }
  split; [done|]. split; [intros c Hc; rewrite Hr; tauto|]. split.
  - assert (with_verdict is_remove startTime l l ⊆+ drop (Z.to_nat (protected_count windowSize)) (health_order l)) as Hs.
    { apply NoDup_submseteq.
      - apply NoDup_filter. by eapply NoDup_fmap_1.
      - intros c (Hc & _ & Hk)%Hr. pose proof (rank_lookup l c Hl Hc) as Hi.
        apply list_elem_of_lookup. exists (netHealthRank l c - Z.to_nat (protected_count windowSize)).
        rewrite lookup_drop. rewrite <-Hi. f_equal. lia. }
    apply submseteq_length in Hs. rewrite length_drop, (Permutation_length (health_order_perm l)) in Hs.
    apply Permutation_length in Hp. rewrite !length_app in Hp. lia.
  - intros c d (Hc & _ & Hk)%Hr Hd Hlt. pose proof (rank_lookup l c Hl Hc) as Hi. pose proof (rank_lookup l d Hl Hd) as Hj.
    pose proof (health_order_sorted l) as Hs. set (j := netHealthRank l d) in *. set (k := netHealthRank l c) in *.
    rewrite <-(take_drop (S j) (health_order l)) in Hs. eapply StronglySorted_app_1_elem_of; [exact Hs|..].
    + apply list_elem_of_lookup. exists j. by rewrite lookup_take_lt by lia.
    + apply list_elem_of_lookup. exists (k - S j). rewrite lookup_drop, <-Hi. f_equal. lia.
Qed.

(** The target is one of the window. *)
Lemma target_size_bounds fixedWindowType windowType maxSourceCount p2pOnlyWindowSize target least :
  WindowSizeSettings_Validate windowSize = Val tt →
  target_size settings windowSize None fixedWindowType windowType maxSourceCount p2pOnlyWindowSize = (target, least) →
  (WindowSizeMin windowSize <= target <= WindowSizeMax windowSize ∧ least <= target)%Z ∨ (0 < FixedWindowSize windowSize ∧ target = 0 ∧ least = 0)%Z.
Proof.
  unfold WindowSizeSettings_Validate, target_size. intros Hv E.
  destruct (Z.ltb_spec (WindowSizeMax windowSize) (WindowSizeMin windowSize)); [done|].
  destruct (Z.ltb_spec 0 (FixedWindowSize windowSize)); simpl in Hv.
  - repeat case_bool; simpl in Hv; try done. destruct fixedWindowType as [[]|], windowType; simplify_eq; lia.
  - set (n := (WindowSizeMinP2pOnly windowSize - p2pOnlyWindowSize)%Z) in E. simplify_eq. left. lia.
Qed.
Lemma p2pOnlyP_bounds currentWindowSize currentP2pOnlyWindowSize added addedP2pOnly :
  (0 <= p2pOnlyP windowSize currentWindowSize currentP2pOnlyWindowSize added addedP2pOnly <= 1)%Q.
Proof.
  unfold p2pOnlyP. set (a := Z.max _ 0). set (b := Z.max (_ - (_ + addedP2pOnly)) 0).
  assert (0 <= a)%Z by (subst a; lia). assert (0 <= b)%Z by (subst b; lia). clearbody a b.
  destruct (a + b)%Z as [|n|n] eqn:E; unfold Qle; simpl; lia.
Qed.
Lemma collapse_spec n cs removed rest :
  collapse settings n cs = (removed, rest) →
  Forall (λ c, idle_client settings c) removed ∧ removed ⊆+ cs ∧ (Z.of_nat (length removed) + Z.max 0 rest <= Z.max 0 n)%Z.
Proof.
  unfold collapse. set (m := Z.min _ _). destruct (Z.ltb_spec 0 m) as [Hm|Hm]; intros [= <- <-].
  - split; [|split].
    + apply Forall_forall. intros c Hc. by apply list_elem_of_filter in Hc as [Hc _].
    + transitivity (drop (length cs - Z.to_nat m) (merge_sort weight_before cs)).
      * apply sublist_submseteq, sublist_filter.
      * transitivity (merge_sort weight_before cs); [apply sublist_submseteq, sublist_drop|].
        apply Permutation_submseteq, merge_sort_Permutation.
    + pose proof (sublist_length _ _ (sublist_filter (λ c, idle_client settings c) (drop (length cs - Z.to_nat m) (merge_sort weight_before cs)))) as Hf.
      rewrite length_drop, (Permutation_length (merge_sort_Permutation weight_before cs)) in Hf. lia.
  - split; [constructor|]. split; [apply submseteq_nil_l|]. simpl. lia.
Qed.
(** Collapsing removes idle clients only, and no more than are over the maximum. *)
Lemma collapsed_spec addedCount r :
  (0 <= addedCount)%Z →
  let total := (Z.of_nat (length (rz_clients r) + length (rz_warnedClients r)) + addedCount)%Z in
  Forall (λ c, idle_client settings c) (collapsed settings windowSize addedCount r)
  ∧ collapsed settings windowSize addedCount r ⊆+ rz_warnedClients r ++ rz_clients r
  ∧ (Z.of_nat (length (collapsed settings windowSize addedCount r)) <= Z.max 0 (total - WindowSizeHardMax windowSize))%Z.
Proof.
  intros Ha total. unfold collapsed. fold total. destruct (_ && _) eqn:E.
  2:{ split; [constructor|]. split; [apply submseteq_nil_l|]. simpl. lia. }
  apply andb_true_iff in E as [E1%Z.ltb_lt E2%Z.ltb_lt]. unfold collapseLowestWeighted.
  set (n := (Z.of_nat (length (rz_warnedClients r) + length (rz_clients r)) - Z.max 0 (WindowSizeHardMax windowSize - addedCount))%Z).
  destruct (collapse settings n (rz_warnedClients r)) as [r1 n1] eqn:E3.
  destruct (collapse settings n1 (rz_clients r)) as [r2 n2] eqn:E4.
  apply collapse_spec in E3 as (H1 & H2 & H3), E4 as (H4 & H5 & H6). split; [by apply Forall_app|]. split; [by apply submseteq_app|].
  rewrite length_app. subst n total. lia.
Qed.
Lemma collapsed_over addedCount r c :
  c ∈ collapsed settings windowSize addedCount r →
  (0 < WindowSizeHardMax windowSize < Z.of_nat (length (rz_clients r) + length (rz_warnedClients r)) + addedCount)%Z.
Proof.
  unfold collapsed. destruct (_ && _) eqn:E; [|by intros ?%elem_of_nil]. apply andb_true_iff in E as [E1%Z.ltb_lt E2%Z.ltb_lt]. lia.
Qed.
Lemma NoDup_part {A} (l k : list A) : l ⊆+ k → NoDup k → NoDup l.
Proof. intros [k' ->]%submseteq_Permutation Hk. by apply NoDup_app in Hk as [Hl _]. Qed.
Lemma removed_and_left (removed l : list nat) :
  NoDup l → NoDup removed → (∀ n, n ∈ removed → n ∈ l) → removed ++ filter (λ n, n ∉ removed) l ≡ₚ l.
Proof.
  intros Hl Hr Hin. apply NoDup_Permutation; [|done|].
  - apply NoDup_app. split; [done|]. split; [|by apply NoDup_filter]. intros n Hn [Hn' _]%list_elem_of_filter. done.
  - intros n. rewrite elem_of_app, list_elem_of_filter. destruct (decide (n ∈ removed)); naive_solver.
Qed.
Lemma with_stats_elem l c : c ∈ with_stats l ↔ inl c ∈ l.
Proof.
  unfold with_stats. rewrite list_elem_of_omap. split; [|intros Hc; by exists (inl c)].
  intros ([d|n] & Hd & E); by simplify_eq.
Qed.
Lemma with_error_elem l n : n ∈ with_error l ↔ inr n ∈ l.
Proof.
  unfold with_error. rewrite list_elem_of_omap. split; [|intros Hn; by exists (inr n)].
  intros ([d|m] & Hd & E); by simplify_eq.
Qed.
Lemma window_clients l : window_client <$> l ≡ₚ with_error l ++ (ci_client <$> with_stats l).
Proof.
  induction l as [|[c|n] l IH]; [done|..]; unfold with_error, with_stats in *; simpl; rewrite IH; [|done]. by rewrite Permutation_middle.
Qed.

(** C33. A pass of [resize] calls [removeClient] for a client at most once: when
    its statistics are an error; when it has been unhealthy for too long and is
    not among the healthiest, those protected; or when it is collapsed. The
    healthiest protected are never judged out, and no client judged out is
    healthier than one of them. Clients are collapsed only when the window, with
    those added, is over its hard maximum, no more than are over it, and only
    such as carry nothing after the grace period; but these may be among the
    protected (Example collapse_removes_protected). So of the clients with
    statistics, as many stay as are protected, less those collapsed; and the
    clients that stay are those of the window that were not removed. *)
Theorem resize_removes startTime addedCount l :
  NoDup (window_client <$> l) → (0 <= addedCount)%Z →
  let p := resize_pass settings windowSize startTime addedCount l in
  let r := ps_judged p in
  let rank c := Z.of_nat (netHealthRank (with_stats l) c) in
  let total := (Z.of_nat (length (rz_clients r) + length (rz_warnedClients r)) + addedCount)%Z in
  NoDup (pass_removed p) ∧ pass_removed p ++ pass_clients p l ≡ₚ window_client <$> l ∧
  (∀ n, inr n ∈ l → n ∈ pass_removed p) ∧
  (∀ c, inl c ∈ l → ci_client c ∈ pass_removed p ↔
    (StatsWindowMaxUnhealthyDuration settings <= ws_unhealthyDuration (ci_stats c) ∧ protected_count windowSize <= rank c)%Z
    ∨ c ∈ ps_collapsed p) ∧
  (∀ c d, c ∈ rz_removed r → inl d ∈ l → (rank d < protected_count windowSize)%Z → health_before d c) ∧
  (∀ c, c ∈ ps_collapsed p → (0 < WindowSizeHardMax windowSize < total)%Z
    ∧ (WindowStatsWindowGraceperiod settings <= ws_clientDuration (ci_stats c))%Z
    ∧ SFleb (effective_weight c) f32_zero = true) ∧
  (Z.of_nat (length (ps_collapsed p)) <= Z.max 0 (total - WindowSizeHardMax windowSize))%Z ∧
  (Z.min (protected_count windowSize) (Z.of_nat (length (with_stats l))) - Z.of_nat (length (ps_collapsed p))
    <= Z.of_nat (length (pass_clients p l)))%Z.
Proof.
  intros Hd Ha p r rank total. subst rank. rewrite window_clients in Hd. apply NoDup_app in Hd as (He & Hdis & Hs).
  destruct (resize_judges startTime (with_stats l) Hs) as (Hp & Hr & Hk & Ho).
  change (judge_clients settings windowSize startTime (with_stats l)) with r in *.
  destruct (collapsed_spec addedCount r Ha) as (Hi & Hsub & Hn). change (collapsed settings windowSize addedCount r) with (ps_collapsed p) in *.
  assert (with_stats l ≡ₚ (rz_warnedClients r ++ rz_clients r) ++ rz_removed r) as Hp'.
  { rewrite <-Hp, app_assoc. by rewrite (Permutation_app_comm (rz_clients r)). }
  assert (NoDup (pass_removed p) ∧ ∀ c, c ∈ ps_collapsed p → c ∈ with_stats l) as [Hnd Hcol].
  { assert (ci_client <$> (ps_collapsed p ++ rz_removed r) ⊆+ ci_client <$> with_stats l) as Hsub'.
    { apply fmap_submseteq. rewrite Hp'. by apply submseteq_app. }
    split.
    - apply NoDup_app. split; [exact He|]. split.
      + intros n Hn1 Hn2. apply (Hdis n Hn1). eapply elem_of_submseteq; [|exact Hsub']. rewrite fmap_app, elem_of_app in *. tauto.
      + rewrite (Permutation_app_comm (ci_client <$> rz_removed _)), <-fmap_app. by eapply NoDup_part.
    - intros c Hc. rewrite Hp'. apply elem_of_app. left. by eapply elem_of_submseteq. }
  assert (pass_removed p ++ pass_clients p l ≡ₚ window_client <$> l) as Hall.
  { apply removed_and_left; [by rewrite window_clients; apply NoDup_app|done|].
    intros n Hn'. rewrite window_clients. unfold pass_removed in Hn'. rewrite !elem_of_app in Hn'. apply elem_of_app.
    destruct Hn' as [?|[(c & -> & Hc)%list_elem_of_fmap|(c & -> & Hc)%list_elem_of_fmap]]; [by left|right..];
      apply list_elem_of_fmap_2; [rewrite Hp'; apply elem_of_app; by right|by apply Hcol]. }
  split; [exact Hnd|]. split; [exact Hall|]. split.
  { intros n Hn'. apply elem_of_app. left. by apply with_error_elem. }
  split.
  { intros c Hc%with_stats_elem. pose proof (Hr c Hc) as Hrc. rewrite <-Hrc. unfold pass_removed. rewrite !elem_of_app. split.
    - assert (∀ d, ci_client c = ci_client d → d ∈ with_stats l → d = c) as Hsame by (intros d E Hd'; by eapply same_client).
      intros [Hn'|[(d & E & Hd')%list_elem_of_fmap|(d & E & Hd')%list_elem_of_fmap]].
      + by destruct (Hdis _ Hn' (list_elem_of_fmap_2 ci_client _ _ Hc)).
      + left. rewrite <-(Hsame d E); [done|]. rewrite Hp'. apply elem_of_app. by right.
      + right. by rewrite <-(Hsame d E); [|apply Hcol].
    - intros [H1|H1]; right; [left|right]; by apply list_elem_of_fmap_2. }
  split; [intros c d Hc Hd'%with_stats_elem; by apply Ho|]. split; [|split; [exact Hn|]].
  - intros c Hc. split; [by apply (collapsed_over addedCount r c)|]. rewrite Forall_forall in Hi. specialize (Hi c Hc).
    apply Is_true_true, andb_true_iff in Hi as [Hi1%Z.leb_le Hi2]. done.
  - apply Permutation_length in Hall, Hp. unfold pass_removed in Hall. pose proof (Permutation_length (window_clients l)) as Hw.
    change (ps_judged p) with r in Hall. change (ps_errors p) with (with_error l) in Hall.
    rewrite !length_app, !length_fmap in *. lia.
Qed.
End Resize.

Section Ordered.
Variable windowSize : WindowSizeSettings.
Variable rand_int : nat → nat → nat.
Variable rand_float : nat → spec_float.
Hypothesis rand_int_lt : ∀ k n, 0 < n → rand_int k n < n.

Lemma usable_elem l c : c ∈ usable l ↔ (c, None) ∈ l ∧ ci_warning c = false.
Proof.
  unfold usable. rewrite list_elem_of_omap. split.
  - intros ([d [e|]] & Hd & E); [done|]. destruct (ci_warning d) eqn:Ew; simplify_eq. done.
  - intros [Hc Ew]. exists (c, None). by rewrite Ew.
Qed.
Lemma most_recent_sub cs : most_recent windowSize cs ⊆+ cs.
Proof.
  unfold most_recent. destruct (_ && _); [|done]. transitivity (merge_sort lru_before cs); [apply sublist_submseteq, sublist_take|].
  apply Permutation_submseteq, merge_sort_Permutation.
Qed.
Lemma most_recent_length cs : cs ≠ [] → most_recent windowSize cs ≠ [].
Proof.
  intros Hcs E. unfold most_recent in E. destruct (_ && _) eqn:Eb; [|done]. apply andb_true_iff in Eb as [E1%Z.ltb_lt E2%Z.ltb_lt].
  apply (f_equal length) in E. rewrite length_take, (Permutation_length (merge_sort_Permutation lru_before cs)) in E. simpl in E. lia.
Qed.
Lemma min_tier_le (cs : list clientInfo) m c : c ∈ cs → (foldr (λ c m, Z.min m (ci_tier c)) m cs <= ci_tier c)%Z.
Proof. induction cs as [|x cs IH]; simpl; [by intros ?%elem_of_nil|]. intros [->|Hc]%elem_of_cons; [lia|]. specialize (IH Hc). lia. Qed.
Lemma min_tier_reached (cs : list clientInfo) m :
  foldr (λ c m, Z.min m (ci_tier c)) m cs = m ∨ ∃ c, c ∈ cs ∧ ci_tier c = foldr (λ c m, Z.min m (ci_tier c)) m cs.
Proof.
  induction cs as [|x cs IH]; simpl; [by left|].
  destruct (Z.min_spec (foldr (λ c m, Z.min m (ci_tier c)) m cs) (ci_tier x)) as [[_ ->]|[_ ->]].
  - destruct IH as [IH|(c & Hc & E)]; [by left|right]. exists c. split; [by right|done].
  - right. exists x. split; [left|done].
Qed.
Lemma min_tier_spec (cs : list clientInfo) :
  (min_tier cs = [] ↔ cs = []) ∧ ∀ c, c ∈ min_tier cs ↔ c ∈ cs ∧ ∀ d, d ∈ cs → (ci_tier c <= ci_tier d)%Z.
Proof.
  destruct cs as [|x cs]; [split; [done|]; intros c; simpl; split; [by intros ?%elem_of_nil|by intros [? _]]|].
  unfold min_tier. set (m := foldr _ _ (x :: cs)).
  assert (∀ d, d ∈ x :: cs → (m <= ci_tier d)%Z) as Hm by (intros d Hd; by apply min_tier_le).
  assert (∃ c, c ∈ x :: cs ∧ ci_tier c = m) as (y & Hy & Ey).
  { destruct (min_tier_reached (x :: cs) (ci_tier x)) as [E|E]; [|exact E]. exists x. split; [left|done]. }
  split.
  - split; [|done]. intros E. assert (y ∈ filter (λ c, ci_tier c = m) (x :: cs)) as Hin by (by apply list_elem_of_filter).
    rewrite E in Hin. by apply elem_of_nil in Hin.
  - intros c. rewrite list_elem_of_filter. split.
    + intros [-> Hc]. done.
    + intros [Hc Hle]. split; [|done]. specialize (Hle y Hy). specialize (Hm c Hc). lia.
Qed.

(** The clients for a new flow are usable ones of the least tier among those
    that were active last, no more than a fixed size; and there is one whenever
    a client is usable. *)
Theorem ordered_clients entropy l :
  ∃ cs recent, OrderedClients windowSize rand_int rand_float entropy l = Val cs
    ∧ recent ⊆+ usable l ∧ (0 < FixedWindowSize windowSize → Z.of_nat (length recent) <= FixedWindowSize windowSize)%Z
    ∧ (∀ c, c ∈ cs ↔ c ∈ recent ∧ ∀ d, d ∈ recent → (ci_tier c <= ci_tier d)%Z)
    ∧ (cs = [] ↔ usable l = []).
Proof.
  unfold OrderedClients. destruct (usable l) as [|x us] eqn:Eu.
  { exists [], []. split; [done|]. split; [done|]. split; [simpl; lia|]. split; [|done]. intros c.
    split; [by intros ?%elem_of_nil|by intros [?%elem_of_nil _]]. }
  destruct (weighted_shuffle_ok rand_int rand_float rand_int_lt (most_recent windowSize (x :: us)) ordered_weight entropy) as (cs & -> & Hp).
  pose proof (min_tier_spec cs) as [Hn Hm]. exists (min_tier cs), (most_recent windowSize (x :: us)). split; [done|].
  split; [apply most_recent_sub|]. split.
  { intros Hf. unfold most_recent. destruct (_ && _) eqn:Eb.
    - rewrite length_take. lia.
    - apply andb_false_iff in Eb as [E%Z.ltb_ge|E%Z.ltb_ge]; lia. }
  split.
  - intros c. rewrite Hm. setoid_rewrite Hp. done.
  - rewrite Hn. split; [|done]. intros ->. apply Permutation_nil_l in Hp.
    by destruct (most_recent_length (x :: us)).
Qed.
End Ordered.

Module WindowExample.
Definition stats (healthy unhealthy : Z) (last : option Z) : clientWindowStats :=
  mkWindowStats 1 1 (mkPacketStats 0 0 0 0 0 0) 0 None None 0 0 (60 * second) healthy unhealthy healthy unhealthy (unhealthy =? 0)%Z None last.
Definition client (c : nat) (healthy unhealthy tier : Z) (last : option Z) : clientInfo :=
  mkClientInfo c (stats healthy unhealthy last) false tier false.
Definition one_kept : WindowSizeSettings := mkWindowSizeSettings 1 0 2 4 0 1 1 0.
Definition l : list clientInfo :=
  [client 1 0 (20 * second) 0 None; client 2 (5 * second) 0 0 None; client 3 0 (7 * second) 0 None; client 4 0 (30 * second) 0 None]%Z.
Example resized :
  let r := judge_clients DefaultWindowSettings one_kept 0 l in
  (ci_client <$> rz_clients r, ci_client <$> rz_warnedClients r, ci_client <$> rz_removed r) = ([2], [3], [1; 4]).
Proof. by vm_compute. Qed.
(** All unhealthy: the healthiest stays, warned no more. *)
Example healthiest_stays :
  let r := judge_clients DefaultWindowSettings one_kept 0 [client 1 0 (20 * second) 0 None; client 4 0 (30 * second) 0 None]%Z in
  (ci_client <$> rz_warnedClients r, rz_warnings r) = ([1], [(1, false); (4, true)]).
Proof. by vm_compute. Qed.
(** The target follows the sources. *)
Example target_scales :
  (target_size DefaultWindowSettings (DefaultWindowSizes WindowTypeQuality) None None WindowTypeQuality 3 0,
   target_size DefaultWindowSettings (DefaultWindowSizes WindowTypeQuality) None None WindowTypeQuality 9 0) = ((4, 2), (6, 2))%Z.
Proof. by vm_compute. Qed.
Definition no_draw (k n : nat) : nat := n - 1.
Definition fixed : WindowSizeSettings := mkWindowSizeSettings 1 0 2 4 2 1 1 0.
Definition usable_clients : list (clientInfo * option string) :=
  [(client 1 0 0 0 (Some 5), None); (client 2 0 0 1 (Some 9), None); (client 3 0 0 1 (Some 8), None); (client 4 0 0 0 None, Some "Done."%string)]%Z.
(** The least tier is that of the clients that are left: the first, of a lower
    tier, has not been active as lately. *)
Example ordered :
  match OrderedClients fixed no_draw (λ _, f32_zero) f32_zero usable_clients with
  | Val cs => ci_client <$> cs = [2; 3] ∨ ci_client <$> cs = [3; 2]
  | _ => False
  end.
Proof. vm_compute. auto. Qed.

(** A hard maximum of two, and four clients, one with an error. The healthiest,
    that is to be kept, carries nothing and is the last by weight: it is
    collapsed. *)
Definition hard_max : WindowSizeSettings := mkWindowSizeSettings 1 0 2 1 0 1 1 0.
Definition loaded (c : nat) (healthy : Z) : clientInfo :=
  mkClientInfo c (mkWindowStats 1 1 (mkPacketStats 1 5000 0 0 0 0) second None None 0 0 (60 * second) healthy 0 healthy 0 true None None) false 0 false.
Definition window : list (clientInfo + nat) := [inl (client 1 (9 * second) 0 0 None); inr 4%nat; inl (client 2 0 (20 * second) 0 None); inl (loaded 3 (5 * second))]%Z.
Example collapse_removes_protected :
  let p := resize_pass DefaultWindowSettings hard_max 0 0 window in
  netHealthRank (with_stats window) (client 1 (9 * second) 0 0 None) = 0 ∧ protected_count hard_max = 1%Z ∧
  pass_removed p = [4; 2; 1] ∧ pass_clients p window = [3].
Proof. by vm_compute. Qed.
Lemma clients_differ : NoDup (window_client <$> window).
Proof. change (window_client <$> window) with [1; 4; 2; 3]. apply (bool_decide_unpack _). vm_compute. exact I. Defined.
Lemma resize_removes_witness :
  let p := resize_pass DefaultWindowSettings hard_max 0 0 window in
  NoDup (pass_removed p) ∧ (length (ps_collapsed p) = 1) ∧
  (Z.min (protected_count hard_max) (Z.of_nat (length (with_stats window))) - Z.of_nat (length (ps_collapsed p))
    <= Z.of_nat (length (pass_clients p window)))%Z.
Proof.
  destruct (resize_removes DefaultWindowSettings hard_max 0 0 window clients_differ ltac:(done)) as (H1 & _ & _ & _ & _ & _ & _ & H2).
  split; [exact H1|]. split; [vm_compute; reflexivity|exact H2].
Defined.
Lemma ordered_clients_witness :
  ∃ cs recent, OrderedClients fixed no_draw (λ _, f32_zero) f32_zero usable_clients = Val cs
    ∧ recent ⊆+ usable usable_clients ∧ (0 < FixedWindowSize fixed → Z.of_nat (length recent) <= FixedWindowSize fixed)%Z
    ∧ (∀ c, c ∈ cs ↔ c ∈ recent ∧ ∀ d, d ∈ recent → (ci_tier c <= ci_tier d)%Z)
    ∧ (cs = [] ↔ usable usable_clients = []).
Proof. apply (ordered_clients fixed no_draw (λ _, f32_zero)). intros k n Hn. unfold no_draw. lia. Defined.
End WindowExample.
