(* ===== verification/Security.v ===== *)
(** * Security policies of IP flows: ip_security.go

    What a provider lets out and a client lets in. The block list of addresses
    is generated from public lists: it is a parameter. *)

From S2P Require Import Prelude Ip.
Open Scope go_scope.

Inductive SecurityPolicyResult := SecurityPolicyResultDrop | SecurityPolicyResultAllow | SecurityPolicyResultIncident.
#[export] Instance SecurityPolicyResult_eq_dec : EqDecision SecurityPolicyResult.
Proof. solve_decision. Defined.
#[export] Instance SecurityPolicyResult_countable : Countable SecurityPolicyResult.
Proof.
  refine (inj_countable
    (λ p, match p with SecurityPolicyResultDrop => 0 | SecurityPolicyResultAllow => 1 | SecurityPolicyResultIncident => 2 end)
    (λ n, match n with 0 => Some SecurityPolicyResultDrop | 1 => Some SecurityPolicyResultAllow | _ => Some SecurityPolicyResultIncident end) _).
  by intros [].
Defined.

Definition isPublicUnicast (ip : list byte) : bool :=
  negb (IsPrivate ip || IsLoopback ip || IsLinkLocalUnicast ip || IsMulticast ip || IsUnspecified ip).

Definition egress_allow (ipPath : IpPath) : bool :=
  let dPort := DestinationPort ipPath in
  if (dPort =? 53)%Z then bool_decide (Protocol ipPath = IpProtocolUdp)
  else if (dPort =? 80)%Z then bool_decide (Protocol ipPath = IpProtocolTcp)
  else if (dPort =? 443)%Z then true
  else if (dPort =? 465)%Z || (dPort =? 993)%Z || (dPort =? 995)%Z then true
  else if (dPort =? 853)%Z then true
  else if (dPort =? 123)%Z || (dPort =? 500)%Z then true
  else if ((6881 <=? dPort)%Z && (dPort <=? 6889)%Z) || (dPort =? 6969)%Z then false
  else if (dPort =? 1337)%Z || (dPort =? 9337)%Z || (dPort =? 2710)%Z then false
  else if (dPort <? 1024)%Z then false
  else if (11000 <=? dPort)%Z then false
  else true.
Definition ingress_allow (ipPath : IpPath) : bool := negb (11000 <=? SourcePort ipPath)%Z.

(** ** Counts of outcomes *)
Record SecurityDestination := mkSecurityDestination {
  sd_Version : Z;
  sd_Protocol : IpProtocol;
  sd_Ip : option (list byte);   (** the text of the address; [None] for the empty one *)
  sd_Port : Z
}.
#[export] Instance SecurityDestination_eq_dec : EqDecision SecurityDestination.
Proof. solve_decision. Defined.
#[export] Program Instance SecurityDestination_countable : Countable SecurityDestination :=
  inj_countable' (λ d, (sd_Version d, sd_Protocol d, sd_Ip d, sd_Port d))
    (λ '(v, p, i, q), mkSecurityDestination v p i q) _.
Next Obligation. by intros []. Qed.
Abbreviation SecurityPolicyStats := (gmap SecurityPolicyResult (gmap SecurityDestination Z)).
(** [net.IP.String]: the two forms of an IPv4 address have one text. *)
Definition ip_text (ip : list byte) : list byte := default ip (To16 ip).
Definition newSecurityDestinationPort (ipPath : IpPath) : SecurityDestination :=
  mkSecurityDestination (Version ipPath) (Protocol ipPath) None (DestinationPort ipPath).
Definition newSecurityDestination (ipPath : IpPath) : SecurityDestination :=
  mkSecurityDestination (Version ipPath) (Protocol ipPath) (Some (ip_text (DestinationIp ipPath))) (DestinationPort ipPath).
Definition newSecuritySourcePort (ipPath : IpPath) : SecurityDestination :=
  mkSecurityDestination (Version ipPath) (Protocol ipPath) None (SourcePort ipPath).
Definition newSecuritySource (ipPath : IpPath) : SecurityDestination :=
  mkSecurityDestination (Version ipPath) (Protocol ipPath) (Some (ip_text (SourceIp ipPath))) (SourcePort ipPath).

Record SecurityPolicyStatsCollector := mkCollector {
  includeIp : bool;
  resultDestinationCounts : SecurityPolicyStats
}.
Definition DefaultSecurityPolicyStatsCollector : SecurityPolicyStatsCollector := mkCollector false ∅.
Definition count_of (result : SecurityPolicyResult) (d : SecurityDestination) (c : SecurityPolicyStatsCollector) : Z :=
  default 0%Z (default ∅ (resultDestinationCounts c !! result) !! d).
Definition add_count (result : SecurityPolicyResult) (d : SecurityDestination) (count : Z)
    (self : SecurityPolicyStatsCollector) : SecurityPolicyStatsCollector :=
  let destinationCounts := default ∅ (resultDestinationCounts self !! result) in
  mkCollector (includeIp self)
    (<[result := <[d := u64 (default 0%Z (destinationCounts !! d) + count)]> destinationCounts]> (resultDestinationCounts self)).
Definition Collector_AddDestination (ipPath : IpPath) (result : SecurityPolicyResult) (count : Z)
    (self : SecurityPolicyStatsCollector) : SecurityPolicyStatsCollector :=
  add_count result (if includeIp self then newSecurityDestination ipPath else newSecurityDestinationPort ipPath) count self.
Definition Collector_AddSource (ipPath : IpPath) (result : SecurityPolicyResult) (count : Z)
    (self : SecurityPolicyStatsCollector) : SecurityPolicyStatsCollector :=
  add_count result (if includeIp self then newSecuritySource ipPath else newSecuritySourcePort ipPath) count self.
(** The copy that is returned, and the collector. *)
Definition Collector_Stats (reset : bool) (self : SecurityPolicyStatsCollector) : SecurityPolicyStats * SecurityPolicyStatsCollector :=
  (resultDestinationCounts self,
   if reset then mkCollector (includeIp self) ∅ else self).

Section Policy.
Context (blockIp4s : vec byte 4 → bool).
Definition egress_inspect (ipPath : IpPath) : SecurityPolicyResult :=
  if negb (isPublicUnicast (DestinationIp ipPath)) then SecurityPolicyResultIncident
  else if (Version ipPath =? 4)%Z &&
       match To4 (DestinationIp ipPath) with Some dIp4 => blockIp4s (to_array 4 dIp4) | None => false end
  then SecurityPolicyResultDrop
  else if egress_allow ipPath then SecurityPolicyResultAllow else SecurityPolicyResultDrop.
Definition ingress_inspect (ipPath : IpPath) : SecurityPolicyResult :=
  if ingress_allow ipPath then SecurityPolicyResultAllow else SecurityPolicyResultDrop.
Inductive SecurityPolicy := EgressPolicy | IngressPolicy | DisabledPolicy.
(** [SecurityPolicy.Inspect] of the three policies. *)
Definition Inspect (policy : SecurityPolicy) (ipPath : IpPath) (stats : SecurityPolicyStatsCollector)
    : SecurityPolicyResult * SecurityPolicyStatsCollector :=
  match policy with
  | EgressPolicy => let r := egress_inspect ipPath in (r, Collector_AddDestination ipPath r 1 stats)
  | IngressPolicy => let r := ingress_inspect ipPath in (r, Collector_AddSource ipPath r 1 stats)
  | DisabledPolicy => (SecurityPolicyResultAllow, stats)
  end.
Fixpoint inspect_all (policy : SecurityPolicy) (paths : list IpPath) (stats : SecurityPolicyStatsCollector)
    : list SecurityPolicyResult * SecurityPolicyStatsCollector :=
  match paths with
  | [] => ([], stats)
  | p :: paths =>
      let '(r, stats) := Inspect policy p stats in
      let '(rs, stats) := inspect_all policy paths stats in (r :: rs, stats)
  end.
End Policy.

(** ** What the policies mean

    The ranges of addresses and ports, as tables. *)
Definition in_cidr (ip : list byte) (net : list Z * Z) : bool := bool_decide (mask_ip net.2 ip = b_ net.1).
Definition v6_net (l : list Z) : list Z := l ++ replicate (16 - length l) 0%Z.
Definition denied4 : list (list Z * Z) :=
  [([10; 0; 0; 0], 8); ([172; 16; 0; 0], 12); ([192; 168; 0; 0], 16);    (* private *)
   ([127; 0; 0; 0], 8); ([169; 254; 0; 0], 16); ([224; 0; 0; 0], 4);     (* loopback, link local, multicast *)
   ([0; 0; 0; 0], 32)]%Z.
Definition denied6 : list (list Z * Z) :=
  [(v6_net [252], 7); (replicate 15 0 ++ [1], 128); (v6_net [254; 128], 10); (v6_net [255], 8); (v6_net [], 128)]%Z.
Definition denied (ip : list byte) : bool :=
  match To4 ip with Some ip4 => existsb (in_cidr ip4) denied4 | None => existsb (in_cidr ip) denied6 end.
Definition open_ports : list Z := [443; 465; 993; 995; 853; 123; 500]%Z.
Definition closed_ports : list Z := [6881; 6882; 6883; 6884; 6885; 6886; 6887; 6888; 6889; 6969; 1337; 9337; 2710]%Z.
Definition port_open (protocol : IpProtocol) (port : Z) : Prop :=
  (port = 53 ∧ protocol = IpProtocolUdp)%Z ∨ (port = 80 ∧ protocol = IpProtocolTcp)%Z ∨ port ∈ open_ports ∨
  ((1024 ≤ port < 11000)%Z ∧ port ∉ closed_ports).

Lemma mask_byte_full k b : (8 ≤ k)%Z → mask_byte k b = b.
Proof.
  intros Hk. unfold mask_byte. rewrite Z.min_l, Z.max_r by lia. destruct b; reflexivity.
Qed.
Lemma mask_byte_none k b : (k ≤ 0)%Z → mask_byte k b = Byte.x00.
Proof. intros Hk. unfold mask_byte. rewrite Z.max_l by lia. destruct b; reflexivity. Qed.
Lemma mask_cons k b ip : mask_ip k (b :: ip) = mask_byte k b :: mask_ip (k - 8) ip.
Proof. done. Qed.
Lemma mask_none k ip : (k ≤ 0)%Z → mask_ip k ip = replicate (length ip) Byte.x00.
Proof.
  revert k. induction ip as [|b ip IH]; intros k Hk; [done|]. rewrite mask_cons, mask_byte_none by done.
  simpl. f_equal. apply IH. lia.
Qed.
Lemma mask_full k ip : (8 * Z.of_nat (length ip) ≤ k)%Z → mask_ip k ip = ip.
Proof.
  revert k. induction ip as [|b ip IH]; intros k Hk; [done|]. rewrite mask_cons, mask_byte_full by (simpl in Hk; lia).
  f_equal. apply IH. simpl in Hk. lia.
Qed.
Lemma cidr_full ip l n : (8 * Z.of_nat (length ip) ≤ n)%Z → in_cidr ip (l, n) = bool_decide (ip = b_ l).
Proof. intros H. unfold in_cidr. cbn [fst snd]. by rewrite mask_full. Qed.
Lemma b_zeros n : b_ (replicate n 0%Z) = replicate n Byte.x00.
Proof. induction n; simpl; [done|]. by f_equal. Qed.
(** A prefix of one or two bytes. *)
Lemma cidr_one b ip x n :
  (0 < n ≤ 8)%Z → in_cidr (b :: ip) (x :: replicate (length ip) 0%Z, n) = bool_decide (mask_byte n b = byte_of x).
Proof.
  intros Hn. unfold in_cidr. cbn [fst snd]. rewrite mask_cons, mask_none by lia.
  unfold b_. cbn [map]. fold (b_ (replicate (length ip) 0%Z)). rewrite b_zeros.
  apply bool_decide_ext. split; [by intros [= ?]|by intros ->].
Qed.
Lemma cidr_two b c ip x y n :
  (8 < n ≤ 16)%Z →
  in_cidr (b :: c :: ip) (x :: y :: replicate (length ip) 0%Z, n) =
  bool_decide (b = byte_of x) && bool_decide (mask_byte (n - 8) c = byte_of y).
Proof.
  intros Hn. unfold in_cidr. cbn [fst snd]. rewrite !mask_cons, mask_none by lia. rewrite mask_byte_full by lia.
  unfold b_. cbn [map]. fold (b_ (replicate (length ip) 0%Z)). rewrite b_zeros.
  rewrite <-bool_decide_and. apply bool_decide_ext. split; [by intros [= ? ?]|by intros [-> ->]].
Qed.

Lemma byte_eqb b z : is_u8 z → bool_decide (b = byte_of z) = (byte_val b =? z)%Z.
Proof.
  intros Hz. apply eq_true_iff_eq. rewrite bool_decide_eq_true, Z.eqb_eq. split; [intros ->|intros <-].
  - rewrite byte_val_of. unfold u8. by rewrite Z.mod_small.
  - by rewrite byte_of_val.
Qed.
Lemma mask_4 b z : is_u8 z → bool_decide (mask_byte 4 b = byte_of z) = (Z.land (byte_val b) 240 =? z)%Z.
Proof.
  intros Hz. rewrite byte_eqb by done. f_equal. by destruct b.
Qed.
Lemma mask_2 b z : is_u8 z → bool_decide (mask_byte 2 b = byte_of z) = (Z.land (byte_val b) 192 =? z)%Z.
Proof. intros Hz. rewrite byte_eqb by done. f_equal. by destruct b. Qed.
Lemma mask_7 b z : is_u8 z → bool_decide (mask_byte 7 b = byte_of z) = (Z.land (byte_val b) 254 =? z)%Z.
Proof. intros Hz. rewrite byte_eqb by done. f_equal. by destruct b. Qed.

Lemma denied4_spec a b c d :
  existsb (in_cidr [a; b; c; d]) denied4 =
  ((byte_val a =? 10) || ((byte_val a =? 172) && (Z.land (byte_val b) 240 =? 16)) ||
   ((byte_val a =? 192) && (byte_val b =? 168)) || (byte_val a =? 127) ||
   ((byte_val a =? 169) && (byte_val b =? 254)) || (Z.land (byte_val a) 240 =? 224) ||
   bool_decide ([a; b; c; d] = IPv4zero))%Z.
Proof.
  unfold denied4. cbn [existsb].
  pose proof (cidr_one a [b; c; d] 10 8) as H1. pose proof (cidr_two a b [c; d] 172 16 12) as H2.
  pose proof (cidr_two a b [c; d] 192 168 16) as H3. pose proof (cidr_one a [b; c; d] 127 8) as H4.
  pose proof (cidr_two a b [c; d] 169 254 16) as H5. pose proof (cidr_one a [b; c; d] 224 4) as H6.
  cbn [length replicate] in *. rewrite H1, H2, H3, H4, H5, H6 by lia.
  rewrite cidr_full by (simpl; lia). change (16 - 8)%Z with 8%Z. rewrite !(mask_byte_full 8) by lia.
  change (12 - 8)%Z with 4%Z. rewrite !mask_4, !byte_eqb by (unfold is_u8; lia).
  fold IPv4zero. rewrite orb_false_r, <-!orb_assoc. done.
Qed.
Lemma denied6_spec ip b0 b1 l :
  ip = b0 :: b1 :: l → length l = 14 →
  existsb (in_cidr ip) denied6 =
  ((Z.land (byte_val b0) 254 =? 252) || bool_decide (ip = IPv6loopback) ||
   ((byte_val b0 =? 254) && (Z.land (byte_val b1) 192 =? 128)) || (byte_val b0 =? 255) ||
   bool_decide (ip = IPv6unspecified))%Z.
Proof.
  intros -> Hl. unfold denied6, v6_net. cbn [existsb].
  pose proof (cidr_one b0 (b1 :: l) 252 7) as H1. pose proof (cidr_two b0 b1 l 254 128 10) as H2.
  pose proof (cidr_one b0 (b1 :: l) 255 8) as H3. cbn [length] in H1, H3. rewrite Hl in H1, H2, H3.
  change ([252]%Z ++ replicate (16 - length [252%Z]) 0%Z) with (252 :: replicate 15 0)%Z.
  change ([254; 128]%Z ++ replicate (16 - length [254; 128]%Z) 0%Z) with (254 :: 128 :: replicate 14 0)%Z.
  change ([255]%Z ++ replicate (16 - length [255%Z]) 0%Z) with (255 :: replicate 15 0)%Z.
  rewrite H1, H2, H3 by lia. rewrite !cidr_full by (simpl; rewrite Hl; lia). change (10 - 8)%Z with 2%Z.
  rewrite mask_7, mask_2, (mask_byte_full 8), !byte_eqb by (unfold is_u8; lia).
  change (b_ (replicate 15 0 ++ [1])%Z) with IPv6loopback.
  change (b_ ([] ++ replicate (16 - length (@nil Z)) 0)%Z) with IPv6unspecified.
  rewrite orb_false_r, <-!orb_assoc. done.
Qed.

Lemma To4_cases ip :
  length ip = 4 ∨ length ip = 16 →
  (∃ a b c d, ip = [a; b; c; d] ∧ To4 ip = Some [a; b; c; d]) ∨
  (∃ a b c d, ip = v4InV6Prefix ++ [a; b; c; d] ∧ To4 ip = Some [a; b; c; d]) ∨
  (∃ b0 b1 l, ip = b0 :: b1 :: l ∧ length l = 14 ∧ To4 ip = None ∧ take 12 ip ≠ v4InV6Prefix).
Proof.
  intros [Hl|Hl].
  - left. destruct ip as [|a [|b [|c [|d [|]]]]]; try done. by exists a, b, c, d.
  - right. unfold To4. rewrite Hl. cbn [Nat.eqb andb]. case_bool_decide as E.
    + left. pose proof (take_drop 12 ip) as Ht. rewrite E in Ht.
      assert (length (drop 12 ip) = 4) as Hd by (rewrite length_drop; lia).
      destruct (drop 12 ip) as [|a [|b [|c [|d [|]]]]]; try done. by exists a, b, c, d.
    + right. destruct ip as [|b0 [|b1 l]]; try done. exists b0, b1, l. split; [done|]. split; [|done].
      simpl in Hl. lia.
Qed.
Lemma isPublicUnicast_denied ip : length ip = 4 ∨ length ip = 16 → isPublicUnicast ip = negb (denied ip).
Proof.
  intros Hl. unfold isPublicUnicast, denied, IsPrivate, IsLoopback, IsLinkLocalUnicast, IsMulticast.
  f_equal. destruct (To4_cases ip Hl) as [(a & b & c & d & E & ->)|[(a & b & c & d & E & ->)|(b0 & b1 & l & E & Hll & -> & Hp)]].
  - rewrite denied4_spec. unfold IsUnspecified, IP_Equal. rewrite E. cbn [length Nat.eqb andb orb IPv4zero IPv6unspecified b_ map replicate].
    unfold ipb. cbn [nth]. 
    assert (bool_decide (take 12 (replicate 16 Byte.x00) = v4InV6Prefix ∧ [a; b; c; d] = drop 12 (replicate 16 Byte.x00)) = false) as Hn
      by (apply bool_decide_eq_false; intros [H _]; vm_compute in H; discriminate).
    change [Byte.x00; Byte.x00; Byte.x00; Byte.x00; Byte.x00; Byte.x00; Byte.x00; Byte.x00; Byte.x00; Byte.x00; Byte.x00; Byte.x00; Byte.x00; Byte.x00; Byte.x00; Byte.x00] with (replicate 16 Byte.x00).
    rewrite Hn, orb_false_r. change [byte_of 0; byte_of 0; byte_of 0; byte_of 0] with IPv4zero. done.
  - rewrite denied4_spec. unfold IsUnspecified, IP_Equal. rewrite E.
    change (length (v4InV6Prefix ++ [a; b; c; d])) with 16. change (length IPv4zero) with 4. change (length IPv6unspecified) with 16.
    cbn [Nat.eqb andb]. change (drop 12 (v4InV6Prefix ++ [a; b; c; d])) with [a; b; c; d].
    change (take 12 (v4InV6Prefix ++ [a; b; c; d])) with v4InV6Prefix.
    assert (bool_decide (v4InV6Prefix ++ [a; b; c; d] = IPv6unspecified) = false) as Hn
      by (apply bool_decide_eq_false; intros H; apply (f_equal (take 12)) in H; vm_compute in H; discriminate).
    rewrite Hn, orb_false_r. unfold ipb. cbn [nth].
    f_equal. apply bool_decide_ext. split; [by intros [_ ?]|by split].
  - rewrite (denied6_spec ip b0 b1 l E Hll). assert (length ip = 16) as Hl16 by (rewrite E; simpl; lia).
    unfold IsUnspecified, IP_Equal. rewrite Hl16. change (length IPv4zero) with 4. change (length IPv6unspecified) with 16.
    change (length IPv6loopback) with 16. cbn [Nat.eqb andb].
    rewrite (bool_decide_eq_false_2 (take 12 ip = _ ∧ _)) by (by intros [? _]). cbn [orb].
    unfold ipb. rewrite E. cbn [nth]. rewrite <-E. rewrite <-!orb_assoc. f_equal.
Qed.

Lemma egress_allow_spec ipPath : egress_allow ipPath = true ↔ port_open (Protocol ipPath) (DestinationPort ipPath).
Proof.
  unfold egress_allow, port_open, open_ports, closed_ports. rewrite !elem_of_cons, !elem_of_nil.
  set (p := DestinationPort ipPath). clearbody p.
  assert (∀ q, bool_decide (Protocol ipPath = q) = true ↔ Protocol ipPath = q) as Hpr by (intros q; apply bool_decide_eq_true).
  destruct (Z.eqb_spec p 53) as [->|]; [rewrite Hpr; intuition lia|].
  destruct (Z.eqb_spec p 80) as [->|]; [rewrite Hpr; intuition lia|].
  transitivity ((p = 443 ∨ p = 465 ∨ p = 993 ∨ p = 995 ∨ p = 853 ∨ p = 123 ∨ p = 500 ∨ False)%Z ∨
    ((1024 ≤ p < 11000)%Z ∧ ¬ (p = 6881 ∨ p = 6882 ∨ p = 6883 ∨ p = 6884 ∨ p = 6885 ∨ p = 6886 ∨ p = 6887 ∨
      p = 6888 ∨ p = 6889 ∨ p = 6969 ∨ p = 1337 ∨ p = 9337 ∨ p = 2710 ∨ False)%Z)); [|tauto].
  repeat (case_bool; cbn [andb orb]; try (split; [intros _|done]; lia); try (split; [done|intros Hx; exfalso; lia])).
Qed.

(** The counters: each inspection adds one to the count of its outcome. *)
Definition counted (policy : SecurityPolicy) (stats : SecurityPolicyStatsCollector) (p : IpPath) : SecurityDestination :=
  match policy with
  | IngressPolicy => if includeIp stats then newSecuritySource p else newSecuritySourcePort p
  | _ => if includeIp stats then newSecurityDestination p else newSecurityDestinationPort p
  end.
Lemma count_of_add result d count self r' d' :
  count_of r' d' (add_count result d count self) =
  if decide (result = r' ∧ d = d') then u64 (count_of result d self + count) else count_of r' d' self.
Proof.
  unfold count_of, add_count. cbn [resultDestinationCounts]. destruct (decide (result = r')) as [<-|Hr].
  - rewrite lookup_insert_eq. cbn [default from_option id]. destruct (decide (d = d')) as [<-|Hd].
    + rewrite lookup_insert_eq, decide_True by done. done.
    + rewrite lookup_insert_ne by done. rewrite decide_False by (by intros [_ ?]). done.
  - rewrite lookup_insert_ne by done. rewrite decide_False by (by intros [? _]). done.
Qed.
Lemma includeIp_Inspect f policy p stats : includeIp (Inspect f policy p stats).2 = includeIp stats.
Proof. by destruct policy. Qed.
Lemma counted_same f policy q stats p :
  counted policy (Inspect f policy q stats).2 p = counted policy stats p.
Proof. unfold counted. rewrite !includeIp_Inspect. done. Qed.
Lemma Inspect_count f policy p stats r d :
  policy ≠ DisabledPolicy → is_u64 (count_of r d stats) →
  count_of r d (Inspect f policy p stats).2 =
  u64 (count_of r d stats + Z.b2z (bool_decide ((Inspect f policy p stats).1 = r ∧ counted policy stats p = d))).
Proof.
  intros Hp Hc. destruct policy; [| |done]; cbn [Inspect fst snd]; unfold Collector_AddDestination, Collector_AddSource, counted;
    rewrite count_of_add; case_decide as E; case_bool_decide as E'; try tauto; cbn [Z.b2z];
    try (by destruct E as [-> ->]); by rewrite Z.add_0_r, u64_small.
Qed.
Lemma count_range r d stats f policy p :
  is_u64 (count_of r d stats) → is_u64 (count_of r d (Inspect f policy p stats).2).
Proof.
  intros Hc. destruct policy; [| |done]; (rewrite Inspect_count by done); apply u64_range.
Qed.
Lemma inspect_all_spec f policy paths stats r d :
  policy ≠ DisabledPolicy → is_u64 (count_of r d stats) →
  (inspect_all f policy paths stats).1 = map (λ p, (Inspect f policy p stats).1) paths ∧
  count_of r d (inspect_all f policy paths stats).2 =
  u64 (count_of r d stats +
       zsum (map (λ p, Z.b2z (bool_decide ((Inspect f policy p stats).1 = r ∧ counted policy stats p = d))) paths)).
Proof.
  intros Hp. revert stats. induction paths as [|p paths IH]; intros stats Hc; cbn [inspect_all map].
  - cbn [fst snd]. split; [done|]. change (zsum []) with 0%Z. by rewrite Z.add_0_r, u64_small.
  - pose proof (Inspect_count f policy p stats r d Hp Hc) as H1.
    pose proof (count_range r d stats f policy p Hc) as H2.
    destruct (Inspect f policy p stats) as [r1 s1] eqn:E1. cbn [fst snd] in *.
    assert (∀ q, (Inspect f policy q s1).1 = (Inspect f policy q stats).1) as Hs by (intros q; by destruct policy).
    assert (∀ q, counted policy s1 q = counted policy stats q) as Hcs.
    { intros q. replace s1 with (Inspect f policy p stats).2 by (by rewrite E1). apply counted_same. }
    destruct (IH s1 H2) as [IH1 IH2]. destruct (inspect_all f policy paths s1) as [rs s2]. cbn [fst snd] in *.
    split.
    + f_equal. rewrite IH1. apply map_ext. intros q. apply Hs.
    + rewrite IH2, H1, u64_add_l, zsum_cons, Z.add_assoc. f_equal. f_equal. f_equal.
      apply map_ext. intros q. by rewrite Hs, Hcs.
Qed.

(** C21. The egress policy against its tables: an address is turned down as an
    incident exactly when it is in one of the private, loopback, link local,
    multicast or unspecified ranges, in either form of an IPv4 address; what is
    let out goes to no blocked address, when the packet is an IPv4 one, and to
    one of the open ports. The ingress policy closes the source ports from 11000
    on. And the counters count, up to the width of a counter: after any
    sequence of inspections each has grown by the number of its outcomes. *)
Theorem security_policies (f : vec byte 4 → bool) (p : IpPath) (paths : list IpPath) (stats : SecurityPolicyStatsCollector) :
  length (DestinationIp p) = 4 ∨ length (DestinationIp p) = 16 →
  (egress_inspect f p = SecurityPolicyResultIncident ↔ denied (DestinationIp p) = true) ∧
  (egress_inspect f p = SecurityPolicyResultAllow ↔
     denied (DestinationIp p) = false ∧ port_open (Protocol p) (DestinationPort p) ∧
     ¬ (Version p = 4%Z ∧ ∃ ip4, To4 (DestinationIp p) = Some ip4 ∧ f (to_array 4 ip4) = true)) ∧
  (ingress_inspect p = SecurityPolicyResultAllow ↔ (SourcePort p < 11000)%Z) ∧
  (∀ policy r d, policy ≠ DisabledPolicy → is_u64 (count_of r d stats) →
    let results := (inspect_all f policy paths stats).1 in
    results = map (λ q, (Inspect f policy q stats).1) paths ∧
    count_of r d (inspect_all f policy paths stats).2 =
    u64 (count_of r d stats +
         zsum (map (λ q, Z.b2z (bool_decide ((Inspect f policy q stats).1 = r ∧ counted policy stats q = d))) paths))).
Proof.
  intros Hl. pose proof (isPublicUnicast_denied _ Hl) as Hd. split_and!.
  - unfold egress_inspect. rewrite Hd, negb_involutive. destruct (denied _); [done|]. by repeat case_match.
  - unfold egress_inspect. rewrite Hd, negb_involutive. destruct (denied _); [split; [done|by intros [? _]]|].
    rewrite <-egress_allow_spec. destruct (Z.eqb_spec (Version p) 4) as [Hv|Hv]; cbn [andb].
    + destruct (To4 (DestinationIp p)) as [ip4|].
      * destruct (f (to_array 4 ip4)) eqn:Ef.
        -- split; [done|]. intros (_ & _ & Hn). destruct Hn. eauto.
        -- destruct (egress_allow p); split; try done; [|by intros (_ & ? & _)].
           intros _. split_and!; try done. intros (_ & x & [= <-] & ?). congruence.
      * destruct (egress_allow p); split; try done; [|by intros (_ & ? & _)]. intros _. split_and!; try done.
        by intros (_ & x & ? & _).
    + destruct (egress_allow p); split; try done; [|by intros (_ & ? & _)]. intros _. split_and!; try done. by intros [? _].
  - unfold ingress_inspect, ingress_allow. case_bool; cbn [negb]; split; try done; lia.
  - intros policy r d Hp Hc. cbv zeta. by apply inspect_all_spec.
Qed.

(** ** Concrete flows *)
Module SecurityExample.
Definition ex_path (version : Z) (ip : list Z) (port : Z) : IpPath :=
  flow_path version IpProtocolTcp (b_ [10; 0; 0; 1]%Z) 40000 (b_ ip) port.
Definition ex_blocked : vec byte 4 → bool := λ a, bool_decide (vec_to_list a = b_ [1; 0; 154; 183]%Z).
Definition ex_web : IpPath := ex_path 4 [93; 184; 216; 34]%Z 443.
Lemma security_policies_witness :
  egress_inspect ex_blocked ex_web = SecurityPolicyResultAllow ↔
  denied (DestinationIp ex_web) = false ∧ port_open (Protocol ex_web) (DestinationPort ex_web) ∧
  ¬ (Version ex_web = 4%Z ∧ ∃ ip4, To4 (DestinationIp ex_web) = Some ip4 ∧ ex_blocked (to_array 4 ip4) = true).
Proof.
  destruct (security_policies ex_blocked ex_web [] DefaultSecurityPolicyStatsCollector) as (_ & H & _); [by left|exact H].
Defined.
Example ex_web_allowed : egress_inspect ex_blocked ex_web = SecurityPolicyResultAllow.
Proof. reflexivity. Qed.
(** A blocked address is let out in its IPv6 form. *)
Example mapped_not_blocked :
  egress_inspect ex_blocked (ex_path 4 [1; 0; 154; 183]%Z 443) = SecurityPolicyResultDrop ∧
  egress_inspect ex_blocked (ex_path 6 [0; 0; 0; 0; 0; 0; 0; 0; 0; 0; 255; 255; 1; 0; 154; 183]%Z 443) = SecurityPolicyResultAllow.
Proof. by split. Qed.
(** The broadcast address and carrier NAT addresses are taken for public unicast ones. *)
Example broadcast_allowed :
  egress_inspect ex_blocked (ex_path 4 [255; 255; 255; 255]%Z 443) = SecurityPolicyResultAllow ∧
  egress_inspect ex_blocked (ex_path 4 [100; 64; 0; 1]%Z 443) = SecurityPolicyResultAllow.
Proof. by split. Qed.
End SecurityExample.
