(* ===== verification/TcpSequence.v ===== *)
(** * The user space TCP of a provider: ConnectionState and TcpSequence of ip.go

    A flow of TCP packets from a client is carried over a socket: the payloads
    of the client's packets are written to the socket, and what is read from the
    socket goes back to the client as packets, acked and windowed, but never sent
    again, since the transfer to the client loses nothing.

    [tcp_step] is the transition system of the goroutines of [TcpSequence.Run]:
    the main loop, the writer and the reader of the socket, the sender of
    acks and the one that calls the receive callback. A step is a section under
    the mutex, or an operation on a channel or on the socket. *)

From S2P Require Import Prelude Ip.
Open Scope go_scope.

(** ** The connection *)
Record Flow := mkFlow {
  fl_ipVersion : Z;
  fl_sourceIp : list byte;
  fl_sourcePort : Z;
  fl_destinationIp : list byte;
  fl_destinationPort : Z
}.
Record ConnectionState := mkConn {
  flow : Flow;
  sendSeq : Z;
  receiveSeq : Z;
  receiveSeqAck : Z;
  receiveWindowSize : Z;
  receiveWindowScale : Z;
  enableWindowScale : bool;
  windowSize : Z;
  windowScale : Z
}.
Definition ConnectionState_IpPath (c : ConnectionState) : IpPath :=
  flow_path (fl_ipVersion (flow c)) IpProtocolTcp (fl_sourceIp (flow c)) (fl_sourcePort (flow c))
    (fl_destinationIp (flow c)) (fl_destinationPort (flow c)).
Definition encodedWindowSize (c : ConnectionState) : Z := Z.min (windowSize c ≫ windowScale c) 65535.

(** The layers of a packet to the client: [ip] is [nil] for other versions. *)
Definition reply_ip (f : Flow) (protocol : Z) : outcome IpLayer :=
  if (fl_ipVersion f =? 4)%Z || (fl_ipVersion f =? 6)%Z
  then Val (mkIpLayer (fl_ipVersion f) 64 (fl_destinationIp f) (fl_sourceIp f) protocol)
  else Panic "interface conversion: interface is nil".
Definition reply_tcp (c : ConnectionState) (seq : Z) (syn fin rst : bool) (opts : list (Z * list byte)) : TcpLayer :=
  mkTcpLayer (fl_destinationPort (flow c)) (fl_sourcePort (flow c)) seq (sendSeq c) fin syn rst true
    (encodedWindowSize c) opts.

Section Packets.
Context `{GoPacket}.
Definition conn_packet (c : ConnectionState) (tcp : TcpLayer) (payload : list byte) : outcome (list byte) :=
  let! ip := reply_ip (flow c) IPProtocolTCP in serializeTCP ip tcp payload.
Definition SynAck (c : ConnectionState) : outcome (list byte) :=
  let opts := if enableWindowScale c then [(TCPOptionKindWindowScale, [byte_of (windowScale c)])] else [] in
  conn_packet c (reply_tcp c (receiveSeq c) true false false opts) [].
Definition PureAck (c : ConnectionState) : outcome (list byte) :=
  conn_packet c (reply_tcp c (receiveSeq c) false false false []) [].
Definition FinAck (c : ConnectionState) : outcome (list byte) :=
  conn_packet c (reply_tcp c (receiveSeq c) false true false []) [].
Definition RstAck (c : ConnectionState) : outcome (list byte) :=
  conn_packet c (reply_tcp c (receiveSeq c) false false true []) [].

(** [for i := 0; i < n;] with pieces of [packetSize] bytes: the pieces with
    their offsets. A loop that does not advance runs out of fuel. *)
Fixpoint pieces (fuel : nat) (packetSize : Z) (i : nat) (payload : list byte) : outcome (list (nat * list byte)) :=
  match payload with
  | [] => Val []
  | _ =>
      match fuel with
      | 0 => Panic "out of fuel"
      | S fuel =>
          if (packetSize <=? 0)%Z then Panic "out of fuel"
          else
            let piece := take (Z.to_nat packetSize) payload in
            let! rest := pieces fuel packetSize (i + length piece) (drop (Z.to_nat packetSize) payload) in
            Val ((i, piece) :: rest)
      end
  end.
Fixpoint map_outcome {A B} (f : A → outcome B) (l : list A) : outcome (list B) :=
  match l with
  | [] => Val []
  | x :: l => let! y := f x in let! ys := map_outcome f l in Val (y :: ys)
  end.
(** The payloads of the packets and their offsets. *)
Definition split_payload (headerSize mtu : Z) (payload : list byte) : outcome (list (nat * list byte)) :=
  if (headerSize + Z.of_nat (length payload) <=? mtu)%Z then Val [(0, payload)]
  else pieces (length payload) (mtu - headerSize) 0 payload.
Definition ConnectionState_DataPackets (c : ConnectionState) (payload : list byte) (mtu : Z) : outcome (list (list byte)) :=
  let headerSize := (ip_header_size (fl_ipVersion (flow c)) + TcpHeaderSizeWithoutExtensions)%Z in
  let! ps := split_payload headerSize mtu payload in
  map_outcome (λ '(i, p), conn_packet c (reply_tcp c (u32 (receiveSeq c + Z.of_nat i)) false false false []) p) ps.

(** The UDP of a provider has no more state than its flow. *)
Definition StreamState_DataPackets (f : Flow) (payload : list byte) (mtu : Z) : outcome (list (list byte)) :=
  let headerSize := (ip_header_size (fl_ipVersion f) + UdpHeaderSize)%Z in
  let! ps := split_payload headerSize mtu payload in
  let! ip := reply_ip f IPProtocolUDP in
  map_outcome (λ '(_, p), serializeUDP ip (mkUdpLayer (fl_destinationPort f) (fl_sourcePort f)) p) ps.
End Packets.

(** ** The SYN *)
Record TcpBufferSettings := mkTcpSettings {
  SequenceBufferSize : nat;
  Mtu : Z;
  MinWindowSize : Z;
  MaxWindowSize : Z
}.
(** [ceil(log2(MaxWindowSize / MaxUint16))], and zero below it. *)
Definition window_scale_for (maxWindowSize : Z) : Z :=
  if (maxWindowSize <=? 65535)%Z then 0 else Z.log2_up ((maxWindowSize + 65534) `div` 65535).
Definition de_bytes (l : list byte) : Z := fold_left (λ a b, a * 256 + byte_val b)%Z l 0%Z.
Fixpoint parseWindowScaleOpts (opts : list (Z * list byte)) : outcome (bool * Z) :=
  match opts with
  | [] => Val (false, 0%Z)
  | (kind, data) :: opts =>
      if (kind =? TCPOptionKindWindowScale)%Z then
        if 4 <? length data then Panic "slice bounds out of range"
        else Val (true, Z.min (de_bytes data) 14)
      else parseWindowScaleOpts opts
  end.
Definition NewTcpSequence_conn (f : Flow) (s : TcpBufferSettings) : ConnectionState :=
  mkConn f 0 0 0 0 0 false (MinWindowSize s) 0.
(** The state after the SYN, with the [receiveSeq] that the SYN+ACK has. *)
Definition receive_syn (s : TcpBufferSettings) (tcp : TcpLayer) (c : ConnectionState) : outcome ConnectionState :=
  let! (enable, scale) := parseWindowScaleOpts (tcp_Options tcp) in
  Val (mkConn (flow c) (u32 (tcp_Seq tcp + 1)) (tcp_Seq tcp) (tcp_Seq tcp)
         (u32 (tcp_Window tcp ≪ scale)) scale enable (windowSize c)
         (if enable then window_scale_for (MaxWindowSize s) else 0)).

(** ** The sequence *)
Record TcpSendItem := mkTcpSendItem { item_tcp : TcpLayer; item_payload : list byte }.

Inductive main_pc :=
| MInit                     (** waits for the SYN *)
| MConnect (packet : list byte)  (** dials, with the SYN+ACK that it will send *)
| MIdle                     (** waits for a packet *)
| MFin (item : TcpSendItem) (** the packet is in order and has a FIN *)
| MPush (item : TcpSendItem) (** the payload goes to the writer *)
| MSeq (item : TcpSendItem) (** the payload is with the writer *)
| MFlush                    (** after a FIN: waits for the end *)
| MExit.
(** The end of the socket, as a read reports it. *)
Inductive read_end := ReadMore | ReadEof | ReadError.
Inductive reader_pc :=
| ROff                      (** not yet started *)
| RIdle
| RWait (b : list byte) (e : read_end)       (** waits for the window *)
| RCheck (ps : list (list byte)) (e : read_end)  (** has packets, looks at the context *)
| RPush (ps : list (list byte)) (e : read_end)
| RExit (fin : bool)        (** leaves: whether a FIN went out *)
| RClosing (fin : bool)     (** the context is cancelled, a RST goes out without a FIN *)
| RClosed.
Inductive writer_pc := WIdle | WHave (rest : list byte) | WDead.
Inductive acker_pc := AIdle | AHave (packet : list byte) | AExit.

Record TcpSequence := mkTcpSequence {
  conn : ConnectionState;
  main : main_pc;
  ackedSendSeq : Z;
  nonBlockingByteCount : Z;
  blockingByteCount : Z;
  writePayloads : list (list byte);
  writeClosed : bool;
  writing : writer_pc;             (** with what it has left of a payload *)
  written : list byte;             (** what the socket has taken *)
  reader : reader_pc;
  wasRead : list byte;             (** what the socket gave, in packets or lost with the sequence *)
  readPackets : list (list byte);
  acker : acker_pc;
  received : list (list byte);     (** the packets given to the receive callback *)
  done : bool                      (** the context is cancelled *)
}.
Definition NewTcpSequence (f : Flow) (s : TcpBufferSettings) : TcpSequence :=
  mkTcpSequence (NewTcpSequence_conn f s) MInit 0 0 0 [] false WIdle [] ROff [] [] AIdle [] false.

Definition set_conn c s := mkTcpSequence c (main s) (ackedSendSeq s) (nonBlockingByteCount s) (blockingByteCount s)
  (writePayloads s) (writeClosed s) (writing s) (written s) (reader s) (wasRead s) (readPackets s) (acker s) (received s) (done s).
Definition set_main m s := mkTcpSequence (conn s) m (ackedSendSeq s) (nonBlockingByteCount s) (blockingByteCount s)
  (writePayloads s) (writeClosed s) (writing s) (written s) (reader s) (wasRead s) (readPackets s) (acker s) (received s) (done s).
Definition set_acked a s := mkTcpSequence (conn s) (main s) a (nonBlockingByteCount s) (blockingByteCount s)
  (writePayloads s) (writeClosed s) (writing s) (written s) (reader s) (wasRead s) (readPackets s) (acker s) (received s) (done s).
Definition set_counts nb b s := mkTcpSequence (conn s) (main s) (ackedSendSeq s) nb b
  (writePayloads s) (writeClosed s) (writing s) (written s) (reader s) (wasRead s) (readPackets s) (acker s) (received s) (done s).
Definition set_writer wp wc wr wn s := mkTcpSequence (conn s) (main s) (ackedSendSeq s) (nonBlockingByteCount s) (blockingByteCount s)
  wp wc wr wn (reader s) (wasRead s) (readPackets s) (acker s) (received s) (done s).
Definition set_reader r w p s := mkTcpSequence (conn s) (main s) (ackedSendSeq s) (nonBlockingByteCount s) (blockingByteCount s)
  (writePayloads s) (writeClosed s) (writing s) (written s) r w p (acker s) (received s) (done s).
Definition set_acker a s := mkTcpSequence (conn s) (main s) (ackedSendSeq s) (nonBlockingByteCount s) (blockingByteCount s)
  (writePayloads s) (writeClosed s) (writing s) (written s) (reader s) (wasRead s) (readPackets s) a (received s) (done s).
Definition add_received p s := mkTcpSequence (conn s) (main s) (ackedSendSeq s) (nonBlockingByteCount s) (blockingByteCount s)
  (writePayloads s) (writeClosed s) (writing s) (written s) (reader s) (wasRead s) (readPackets s) (acker s) (received s ++ [p]) (done s).
Definition cancel s := mkTcpSequence (conn s) (main s) (ackedSendSeq s) (nonBlockingByteCount s) (blockingByteCount s)
  (writePayloads s) (writeClosed s) (writing s) (written s) (reader s) (wasRead s) (readPackets s) (acker s) (received s) true.

(** ** Steps *)
Inductive tcp_label :=
| LSyn (item : TcpSendItem)
| LConnected (ok : bool)
| LItem (item : TcpSendItem)
| LFin
| LPush (blocked : bool)
| LSeq
| LLeave                        (** the main loop sees the end of the context, or has been idle *)
| LWriteTake
| LWrite (n : nat) (err : bool)
| LWriteEnd
| LRead (b : list byte) (e : read_end)
| LSegment
| LCheck
| LPushPacket (dropped : bool)
| LReadNext (dropped : bool)
| LExit
| LRst
| LDeliver
| LAck
| LAckDeliver (dropped : bool)
| LCancel.

(** An ack of the client for packets that it got. *)
Definition receive_ack (tcp : TcpLayer) (c : ConnectionState) : ConnectionState :=
  if tcp_ACK tcp && (receiveSeqAck c <=? tcp_Ack tcp)%Z then
    mkConn (flow c) (sendSeq c) (receiveSeq c) (tcp_Ack tcp)
      (u32 (tcp_Window tcp ≪ receiveWindowScale c)) (receiveWindowScale c) (enableWindowScale c) (windowSize c) (windowScale c)
  else c.
Definition add_sendSeq (n : Z) (c : ConnectionState) : ConnectionState :=
  mkConn (flow c) (u32 (sendSeq c + n)) (receiveSeq c) (receiveSeqAck c) (receiveWindowSize c) (receiveWindowScale c)
    (enableWindowScale c) (windowSize c) (windowScale c).
Definition add_receiveSeq (n : Z) (c : ConnectionState) : ConnectionState :=
  mkConn (flow c) (sendSeq c) (u32 (receiveSeq c + n)) (receiveSeqAck c) (receiveWindowSize c) (receiveWindowScale c)
    (enableWindowScale c) (windowSize c) (windowScale c).
Definition set_windowSize (w : Z) (c : ConnectionState) : ConnectionState :=
  mkConn (flow c) (sendSeq c) (receiveSeq c) (receiveSeqAck c) (receiveWindowSize c) (receiveWindowScale c)
    (enableWindowScale c) w (windowScale c).
(** The window after [nonBlocking] and [blocking] bytes went to the writer, and
    whether the counts start again. *)
Definition next_window (s : TcpBufferSettings) (nonBlocking blocking : Z) (c : ConnectionState) : Z * bool :=
  if (windowSize c <=? u32 (blocking + nonBlocking))%Z then
    (if (windowSize c <=? nonBlocking)%Z then Z.min (u32 (windowSize c * 2)) (MaxWindowSize s)
     else if (windowSize c `div` 2 <=? blocking)%Z then Z.max (windowSize c `div` 2) (MinWindowSize s)
     else windowSize c, true)
  else (windowSize c, false).
(** Room in a channel of [size], or a receiver that waits. *)
Definition has_room {A} (size : nat) (queue : list A) : bool := length queue <? max size 1.
(** A full reader is at the data that it has, in [uint32] arithmetic. *)
Definition window_closed (n : nat) (c : ConnectionState) : bool :=
  (receiveWindowSize c <? u32 (receiveSeq c - receiveSeqAck c + Z.of_nat n))%Z.

Section Steps.
Context `{GoPacket} (settings : TcpBufferSettings).
Definition leave (s : TcpSequence) : TcpSequence := cancel (set_main MExit s).

(** The main loop. *)
Definition run_main (l : tcp_label) (s : TcpSequence) : option (outcome TcpSequence) :=
  let c := conn s in
  match l with
  | LSyn item =>
      match main s with
      | MInit =>
          if tcp_SYN (item_tcp item) then
            Some (let! c1 := receive_syn settings (item_tcp item) c in
                  match SynAck c1 with
                  | Val packet => Val (set_main (MConnect packet) (set_conn (add_receiveSeq 1 c1) s))
                  | Err _ => Val (leave (set_conn (add_receiveSeq 1 c1) s))
                  | Panic e => Panic e
                  end)
          else Some (Val s)
      | _ => None
      end
  | LConnected ok =>
      match main s with
      | MConnect packet =>
          Some (Val (if ok then set_reader RIdle (wasRead s) (readPackets s)
                                  (set_main MIdle (set_acked (sendSeq c) (add_received packet s)))
                     else leave s))
      | _ => None
      end
  | LItem item =>
      match main s with
      | MIdle =>
          let tcp := item_tcp item in
          if tcp_RST tcp then Some (Val (leave s))
          else if negb (sendSeq c =? tcp_Seq tcp)%Z || tcp_SYN tcp then Some (Val s)
          else Some (Val (set_main (if tcp_FIN tcp then MFin item else MPush item) (set_conn (receive_ack tcp c) s)))
      | _ => None
      end
  | LFin =>
      match main s with
      | MFin item => Some (Val (set_main (MPush item) (set_conn (add_sendSeq 1 c) s)))
      | _ => None
      end
  | LPush blocked =>
      match main s with
      | MPush item =>
          let payload := item_payload item in
          if length payload =? 0 then Some (Val (set_main (MSeq item) s))
          else if has_room (SequenceBufferSize settings) (writePayloads s) then
            let n := Z.of_nat (length payload) in
            Some (Val (set_main (MSeq item)
              (set_counts (if blocked then nonBlockingByteCount s else u32 (nonBlockingByteCount s + n))
                          (if blocked then u32 (blockingByteCount s + n) else blockingByteCount s)
                (set_writer (writePayloads s ++ [payload]) (writeClosed s) (writing s) (written s) s))))
          else None
      | _ => None
      end
  | LSeq =>
      match main s with
      | MSeq item =>
          let payload := item_payload item in
          let s1 :=
            if length payload =? 0 then s
            else
              let '(w, reset) := next_window settings (nonBlockingByteCount s) (blockingByteCount s) c in
              set_conn (add_sendSeq (Z.of_nat (length payload)) (set_windowSize w c))
                (if reset then set_counts 0 0 s else s) in
          Some (Val (if tcp_FIN (item_tcp item)
                     then set_main MFlush (set_writer (writePayloads s1) true (writing s1) (written s1) s1)
                     else set_main MIdle s1))
      | _ => None
      end
  | LLeave =>
      match main s with
      | MInit | MIdle => Some (Val (leave s))
      | MPush item => if done s && negb (length (item_payload item) =? 0) then Some (Val (leave s)) else None
      | MFlush => if done s then Some (Val (leave s)) else None
      | _ => None
      end
  | _ => None
  end.
(** The writer of the socket. *)
Definition run_writer (l : tcp_label) (s : TcpSequence) : option (outcome TcpSequence) :=
  let c := conn s in
  match l with
  | LWriteTake =>
      match writing s, writePayloads s with
      | WIdle, p :: ps => Some (Val (set_writer ps (writeClosed s) (WHave p) (written s) s))
      | _, _ => None
      end
  | LWrite n err =>
      match writing s with
      | WHave p =>
          if (n <=? length p) && ((0 <? n) || err) then
            let s1 := set_writer (writePayloads s) (writeClosed s)
                        (if err then WDead else if length p =? n then WIdle else WHave (drop n p)) (written s ++ take n p) s in
            Some (Val (if err then cancel s1 else s1))
          else None
      | _ => None
      end
  | LWriteEnd =>
      match writing s with
      | WDead => None
      | w =>
          if done s || match w, writePayloads s with WIdle, [] => writeClosed s | _, _ => false end
          then Some (Val (cancel (set_writer (writePayloads s) (writeClosed s) WDead (written s) s)))
          else None
      end
  | _ => None
  end.
(** The reader of the socket. *)
Definition run_reader (l : tcp_label) (s : TcpSequence) : option (outcome TcpSequence) :=
  let c := conn s in
  match l with
  | LRead b e =>
      match reader s with
      | RIdle =>
          if done s then Some (Val (set_reader (RExit false) (wasRead s) (readPackets s) s))
          else if length b =? 0 then Some (Val (set_reader (RPush [] e) (wasRead s) (readPackets s) s))
          else Some (Val (set_reader (RWait b e) (wasRead s) (readPackets s) s))
      | _ => None
      end
  | LSegment =>
      match reader s with
      | RWait b e =>
          if done s then Some (Val (set_reader (RExit false) (wasRead s) (readPackets s) s))
          else if window_closed (length b) c then None
          else match ConnectionState_DataPackets c b (Mtu settings) with
          | Panic e => Some (Panic e)
          | Err _ => Some (Val (set_reader (RExit false) (wasRead s) (readPackets s) s))
          | Val ps =>
              Some (Val (set_acked (sendSeq c)
                (set_conn (add_receiveSeq (Z.of_nat (length b)) c)
                  (set_reader (RCheck ps e) (wasRead s ++ b) (readPackets s) s))))
          end
      | _ => None
      end
  | LCheck =>
      match reader s with
      | RCheck ps e =>
          Some (Val (set_reader (if done s then RExit false else RPush ps e) (wasRead s) (readPackets s) s))
      | _ => None
      end
  | LPushPacket dropped =>
      match reader s with
      | RPush (p :: ps) e =>
          if dropped then
            if done s then Some (Val (set_reader (RPush ps e) (wasRead s) (readPackets s) s)) else None
          else if has_room (SequenceBufferSize settings) (readPackets s)
          then Some (Val (set_reader (RPush ps e) (wasRead s) (readPackets s ++ [p]) s))
          else None
      | _ => None
      end
  | LReadNext dropped =>
      match reader s with
      | RPush [] ReadMore => Some (Val (set_reader RIdle (wasRead s) (readPackets s) s))
      | RPush [] ReadEof =>
          if (if dropped then done s else has_room (SequenceBufferSize settings) (readPackets s)) then
            let s1 := set_conn (add_receiveSeq 1 c) s in
            Some (match FinAck c with
                  | Val fin =>
                      Val (if dropped then set_reader (RExit false) (wasRead s) (readPackets s) s1
                           else set_reader (RExit true) (wasRead s) (readPackets s ++ [fin]) s1)
                  | Err _ => Val (set_reader (RExit false) (wasRead s) (readPackets s) s1)
                  | Panic e => Panic e
                  end)
          else None
      | RPush [] ReadError => Some (Val (set_reader (RExit false) (wasRead s) (readPackets s) s))
      | _ => None
      end
  | LExit =>
      match reader s with
      | RExit fin => Some (Val (cancel (set_reader (RClosing fin) (wasRead s) (readPackets s) s)))
      | _ => None
      end
  | LRst =>
      match reader s with
      | RClosing true => Some (Val (set_reader RClosed (wasRead s) (readPackets s) s))
      | RClosing false =>
          if has_room (SequenceBufferSize settings) (readPackets s) then
            Some (match RstAck c with
                  | Val rst => Val (set_reader RClosed (wasRead s) (readPackets s ++ [rst]) s)
                  | Err _ => Val (set_reader RClosed (wasRead s) (readPackets s) s)
                  | Panic e => Panic e
                  end)
          else None
      | _ => None
      end
  | _ => None
  end.
(** The sender of acks. *)
Definition run_acker (l : tcp_label) (s : TcpSequence) : option (outcome TcpSequence) :=
  let c := conn s in
  match l with
  | LAck =>
      match acker s, reader s with
      | _, ROff => None
      | AIdle, _ =>
          if done s then Some (Val (set_acker AExit s))
          else if (sendSeq c =? ackedSendSeq s)%Z then None
          else Some (match PureAck c with
                     | Val p => Val (set_acker (AHave p) (set_acked (sendSeq c) s))
                     | Err _ => Val (cancel (set_acker AExit (set_acked (sendSeq c) s)))
                     | Panic e => Panic e
                     end)
      | _, _ => None
      end
  | LAckDeliver dropped =>
      match acker s with
      | AHave p =>
          if dropped then if done s then Some (Val (set_acker AExit s)) else None
          else Some (Val (set_acker AIdle (add_received p s)))
      | _ => None
      end
  | _ => None
  end.
(** The goroutine that calls the receive callback with the packets of the reader. *)
Definition run_receiver (s : TcpSequence) : option (outcome TcpSequence) :=
  match readPackets s with
  | p :: ps => Some (Val (add_received p (set_reader (reader s) (wasRead s) ps s)))
  | [] => None
  end.
Definition tcp_step (l : tcp_label) (s : TcpSequence) : option (outcome TcpSequence) :=
  match l with
  | LSyn _ | LConnected _ | LItem _ | LFin | LPush _ | LSeq | LLeave => run_main l s
  | LWriteTake | LWrite _ _ | LWriteEnd => run_writer l s
  | LRead _ _ | LSegment | LCheck | LPushPacket _ | LReadNext _ | LExit | LRst => run_reader l s
  | LDeliver => run_receiver s
  | LAck | LAckDeliver _ => run_acker l s
  | LCancel => Some (Val (cancel s))
  end.
Fixpoint tcp_steps (ls : list tcp_label) (s : TcpSequence) : option (outcome TcpSequence) :=
  match ls with
  | [] => Some (Val s)
  | l :: ls =>
      match tcp_step l s with
      | Some (Val s') => tcp_steps ls s'
      | r => r
      end
  end.
End Steps.

(** ** Packets that are made *)
Lemma pieces_ok (size : Z) (payload : list byte) i fuel :
  (0 < size)%Z → length payload ≤ fuel →
  ∃ ps, pieces fuel size i payload = Val ps ∧ concat (map snd ps) = payload ∧
    ∀ j p, (j, p) ∈ ps → i ≤ j ∧ (Z.of_nat (length p) ≤ size)%Z ∧ j - i + length p ≤ length payload ∧
      p = take (length p) (drop (j - i) payload).
Proof.
  intros Hs. revert i payload. induction fuel as [|fuel IH]; intros i payload Hl.
  - destruct payload; [|simpl in Hl; lia]. exists []. split_and!; try done. intros j p Hx. set_solver.
  - destruct payload as [|x payload'] eqn:E; [exists []; split_and!; try done; intros j p Hx; set_solver|].
    rewrite <-E in *. assert (payload ≠ []) as Hne by (by rewrite E).
    assert (pieces (S fuel) size i payload =
      let piece := take (Z.to_nat size) payload in
      let! rest := pieces fuel size (i + length piece) (drop (Z.to_nat size) payload) in Val ((i, piece) :: rest)) as ->.
    { rewrite E. cbn [pieces]. by rewrite (proj2 (Z.leb_gt _ _)) by done. }
    set (piece := take _ _). assert (length piece = min (Z.to_nat size) (length payload)) as Hpl by apply length_take.
    assert (0 < length payload) by (rewrite E; simpl; lia).
    destruct (IH (i + length piece) (drop (Z.to_nat size) payload)) as (ps & Ep & Ec & Hps).
    { rewrite length_drop. lia. }
    cbv zeta. rewrite Ep. cbn [obind]. eexists. split; [done|]. cbn [map concat snd]. rewrite Ec. split; [apply take_drop|].
    intros j p [[= -> ->]|Hx]%elem_of_cons.
    + rewrite Nat.sub_diag, drop_0. split_and!; [lia|lia|lia|]. rewrite Hpl. unfold piece.
      destruct (Nat.min_spec (Z.to_nat size) (length payload)) as [[? ->]|[? ->]]; [done|]. by rewrite !take_ge by lia.
    + destruct (Hps j p Hx) as (H1 & H2 & H3 & H4). rewrite length_drop in H3.
      split_and!; [lia|done|lia|]. destruct (decide (length p = 0)) as [E0|].
      * rewrite E0. by apply nil_length_inv.
      * rewrite H4 at 1. rewrite drop_drop. f_equal. f_equal. lia.
Qed.

Section Proofs.
Context `{GP : GoPacket} {GPL : GoPacketLaws GP}.
Context (f : Flow) (settings : TcpBufferSettings).

Record flow_ok : Prop := {
  fo_version : fl_ipVersion f = 4%Z ∨ fl_ipVersion f = 6%Z;
  fo_source : length (fl_sourceIp f) = ip_addr_len (fl_ipVersion f);
  fo_destination : length (fl_destinationIp f) = ip_addr_len (fl_ipVersion f);
  fo_sourcePort : is_u16 (fl_sourcePort f);
  fo_destinationPort : is_u16 (fl_destinationPort f)
}.
Definition header_size : Z := (ip_header_size (fl_ipVersion f) + TcpHeaderSizeWithoutExtensions)%Z.
Context (Hf : flow_ok) (Hmtu : (header_size < Mtu settings < 65000)%Z).

Definition conn_ok (c : ConnectionState) : Prop :=
  flow c = f ∧ is_u32 (sendSeq c) ∧ is_u32 (receiveSeq c) ∧ (0 ≤ windowSize c)%Z ∧ (0 ≤ windowScale c)%Z.
Lemma encoded_u16 c : conn_ok c → is_u16 (encodedWindowSize c).
Proof.
  intros (_ & _ & _ & Hw & Hs). unfold encodedWindowSize, is_u16.
  assert (0 ≤ windowSize c ≫ windowScale c)%Z by (by apply Z.shiftr_nonneg). lia.
Qed.

(** [b] goes from the destination of the flow back to its source. *)
Definition packet_is (b : list byte) (seq ack : Z) (payload : list byte) : Prop :=
  ∃ ip tcp l, decodeIP (fl_ipVersion f) b = (ip, l) ∧ decodeTCP l = (tcp, payload) ∧
    packet_version b = Val (fl_ipVersion f) ∧
    ip_SrcIP ip = fl_destinationIp f ∧ ip_DstIP ip = fl_sourceIp f ∧ ip_Protocol ip = IPProtocolTCP ∧
    tcp_SrcPort tcp = fl_destinationPort f ∧ tcp_DstPort tcp = fl_sourcePort f ∧
    tcp_Seq tcp = seq ∧ tcp_Ack tcp = ack ∧ tcp_ACK tcp = true.
Definition packet_payload (b : list byte) : list byte := (decodeTCP (decodeIP (fl_ipVersion f) b).2).2.
Lemma packet_is_payload b seq ack payload : packet_is b seq ack payload → packet_payload b = payload.
Proof. intros (ip & tcp & l & E1 & E2 & _). unfold packet_payload. rewrite E1. cbn [snd]. by rewrite E2. Qed.
(** What the parser of the other side makes of it. *)
Lemma packet_is_parse b seq ack payload :
  packet_is b seq ack payload →
  ∃ p, ParseIpPathWithPayload b = Val (p, payload) ∧ Protocol p = IpProtocolTcp ∧ SequenceNumber p = seq ∧
    SourceIp p = fl_destinationIp f ∧ SourcePort p = fl_destinationPort f ∧
    DestinationIp p = fl_sourceIp f ∧ DestinationPort p = fl_sourcePort f.
Proof.
  intros (ip & tcp & l & E1 & E2 & Ev & Es & Ed & Ep & Esp & Edp & Eseq & _).
  unfold ParseIpPathWithPayload. rewrite Ev. cbn [obind]. unfold decodeIP in E1.
  assert (parse_transport (fl_ipVersion f) ip l =
    Val (mkIpPath (fl_ipVersion f) IpProtocolTcp (ip_SrcIP ip) (tcp_SrcPort tcp) (ip_DstIP ip) (tcp_DstPort tcp)
           (tcp_Seq tcp) (tcp_SYN tcp) (tcp_RST tcp) (tcp_ACK tcp), payload)) as Et.
  { unfold parse_transport. rewrite Ep. cbn [IPProtocolTCP IPProtocolUDP Z.eqb Pos.eqb]. by rewrite E2. }
  destruct (fo_version Hf) as [Hv|Hv]; rewrite Hv in E1, Et |- *; cbn [Z.eqb Pos.eqb] in E1 |- *; rewrite E1, Et;
    eexists; (split; [done|]); cbn; by split_and!.
Qed.

Lemma conn_packet_ok c seq syn fin rst opts payload :
  conn_ok c → is_u32 seq → (Z.of_nat (length payload) < 65000)%Z →
  (opts = [] ∨ ∃ b, opts = [(TCPOptionKindWindowScale, [b])]) →
  ∃ b, conn_packet c (reply_tcp c seq syn fin rst opts) payload = Val b ∧ packet_is b seq (sendSeq c) payload ∧
    (opts = [] → Z.of_nat (length b) = (header_size + Z.of_nat (length payload))%Z).
Proof.
  intros Hc Hs Hp Ho. pose proof (encoded_u16 c Hc) as Hw. destruct Hc as (Ef & Hss & Hrs & _).
  unfold conn_packet, reply_ip. rewrite Ef.
  assert ((fl_ipVersion f =? 4)%Z || (fl_ipVersion f =? 6)%Z = true) as ->.
  { destruct (fo_version Hf) as [-> | ->]; done. }
  cbn [obind]. set (ip := mkIpLayer _ _ _ _ _). set (tcp := reply_tcp _ _ _ _ _ _).
  assert (ip_layer_ok ip IPProtocolTCP) as Hip.
  { split; cbn; try apply Hf; [|done]. unfold is_u8. lia. }
  assert (tcp_layer_ok tcp) as Htcp.
  { unfold tcp_layer_ok, tcp, reply_tcp. cbn. rewrite Ef. split_and!; try done; apply Hf. }
  destruct (tcp_packet ip tcp payload Hip Htcp Hp) as (b & l & -> & Ev & Hl & Ed & opts' & Et & _).
  exists b. split; [done|]. split; [|exact Hl].
  exists ip, (set_options opts' tcp), l. unfold tcp, reply_tcp, set_options, ip in *. cbn in *. rewrite Ef in *.
  by split_and!.
Qed.

Lemma split_payload_ok payload :
  payload ≠ [] →
  ∃ ps, split_payload header_size (Mtu settings) payload = Val ps ∧ concat (map snd ps) = payload ∧
    ∀ j p, (j, p) ∈ ps → (header_size + Z.of_nat (length p) ≤ Mtu settings)%Z ∧ j + length p ≤ length payload ∧
      p = take (length p) (drop j payload).
Proof.
  intros Hne. unfold split_payload. case_bool.
  - exists [(0, payload)]. split; [done|]. split; [apply app_nil_r|]. intros j p Hx%list_elem_of_singleton.
    injection Hx as -> ->. split_and!; [done|lia|]. by rewrite drop_0, take_ge by lia.
  - destruct (pieces_ok (Mtu settings - header_size) payload 0 (length payload)) as (ps & E & Ec & Hps); [lia|lia|].
    exists ps. split_and!; try done. intros j p Hx. destruct (Hps j p Hx) as (_ & H1 & H2 & H3).
    rewrite Nat.sub_0_r in *. split_and!; try done; lia.
Qed.

Lemma map_outcome_Val {A B} (g : A → outcome B) (P : A → B → Prop) l :
  (∀ x, x ∈ l → ∃ y, g x = Val y ∧ P x y) → ∃ ys, map_outcome g l = Val ys ∧ Forall2 P l ys.
Proof.
  induction l as [|x l IH]; intros Hx; [exists []; by split|]. cbn [map_outcome].
  destruct (Hx x) as (y & -> & Hy); [apply list_elem_of_here|].
  destruct IH as (ys & -> & Hys); [intros z Hz; apply Hx; by apply list_elem_of_further|].
  exists (y :: ys). split; [done|]. by constructor.
Qed.
Lemma DataPackets_ok c b :
  conn_ok c → b ≠ [] →
  ∃ ps, ConnectionState_DataPackets c b (Mtu settings) = Val ps ∧ concat (map packet_payload ps) = b ∧
    Forall (λ p, ∃ o payload, packet_is p (u32 (receiveSeq c + Z.of_nat o)) (sendSeq c) payload ∧
      o + length payload ≤ length b ∧ payload = take (length payload) (drop o b) ∧
      (Z.of_nat (length p) ≤ Mtu settings)%Z) ps.
Proof.
  intros Hc Hb. unfold ConnectionState_DataPackets. assert (flow c = f) as -> by apply Hc. fold header_size.
  destruct (split_payload_ok b Hb) as (qs & -> & Eq & Hqs). cbn [obind].
  destruct (map_outcome_Val (λ '(i, p), conn_packet c (reply_tcp c (u32 (receiveSeq c + Z.of_nat i)) false false false []) p)
    (λ q p, packet_is p (u32 (receiveSeq c + Z.of_nat q.1)) (sendSeq c) q.2 ∧
       Z.of_nat (length p) = (header_size + Z.of_nat (length q.2))%Z) qs) as (ps & -> & Hps).
  { intros [o p] Hx. destruct (Hqs o p Hx) as (H1 & _ & _).
    assert (0 ≤ header_size)%Z as Hh.
    { unfold header_size, ip_header_size, Ipv4HeaderSizeWithoutExtensions, Ipv6HeaderSize, TcpHeaderSizeWithoutExtensions.
      repeat case_match; lia. }
    destruct (conn_packet_ok c (u32 (receiveSeq c + Z.of_nat o)) false false false [] p Hc) as (y & -> & Hy & Hl);
      [apply u32_range|lia|by left|]. exists y. split; [done|]. split; [done|]. by apply Hl. }
  exists ps. split; [done|]. split.
  - rewrite <-Eq. f_equal. clear -Hps. induction Hps as [|[o p] y l1 l2 [H1 _] H2 IH]; [done|]. cbn [map snd].
    f_equal; [by eapply packet_is_payload|done].
  - apply Forall_forall. intros p Hp. apply list_elem_of_lookup in Hp as [i Hp].
    destruct (Forall2_lookup_r _ _ _ _ _ Hps Hp) as ([o q] & Hq & H1 & H2). cbn [fst snd] in *.
    destruct (Hqs o q (list_elem_of_lookup_2 _ _ _ Hq)) as (H3 & H4 & H5). exists o, q. split_and!; try done. lia.
Qed.

(** ** The invariant, for one client: its first sequence number and its bytes *)
Context (isn : Z) (stream : list byte).
Context (Hisn : is_u32 isn) (Hstream : (Z.of_nat (length stream) < 2 ^ 32 - 2)%Z).
Definition seq_at (k : nat) : Z := u32 (isn + 1 + Z.of_nat k).
Lemma seq_at_add k n : u32 (seq_at k + Z.of_nat n) = seq_at (k + n).
Proof. unfold seq_at, u32. rewrite Zplus_mod_idemp_l. f_equal. lia. Qed.
Lemma seq_at_inj j k : j ≤ length stream → k ≤ length stream → seq_at j = seq_at k → j = k.
Proof.
  intros Hj Hk E. unfold seq_at, u32 in E.
  assert ((Z.of_nat j - Z.of_nat k) `mod` 2 ^ 32 = 0)%Z as E0.
  { replace (Z.of_nat j - Z.of_nat k)%Z with ((isn + 1 + Z.of_nat j) - (isn + 1 + Z.of_nat k))%Z by lia.
    rewrite Zminus_mod, E, Z.sub_diag. done. }
  apply Z.mod_divide in E0; [|lia]. destruct E0 as [q Eq]. assert (q = 0)%Z by nia. lia.
Qed.
Lemma seq_at_u32 k : is_u32 (seq_at k).
Proof. apply u32_range. Qed.

(** The packets of the client: segments of its bytes, with a FIN at the end
    only, in any order and any number of times, and acks of anything. *)
Definition fin_of (i : TcpSendItem) : nat := if tcp_FIN (item_tcp i) then 1 else 0.
Definition item_next (k : nat) (i : TcpSendItem) : Prop :=
  k + length (item_payload i) ≤ length stream ∧
  item_payload i = take (length (item_payload i)) (drop k stream) ∧
  (tcp_FIN (item_tcp i) = true → k + length (item_payload i) = length stream).
Definition item_ok (i : TcpSendItem) : Prop :=
  (∃ o, tcp_Seq (item_tcp i) = seq_at o ∧ item_next o i) ∨
  (item_payload i = [] ∧ tcp_FIN (item_tcp i) = false).
Definition label_ok (l : tcp_label) : Prop :=
  match l with
  | LSyn i => tcp_SYN (item_tcp i) = true →
      tcp_Seq (item_tcp i) = isn ∧ Forall (λ o, length o.2 ≤ 4) (tcp_Options (item_tcp i))
  | LItem i => item_ok i
  | _ => True
  end.

Definition ack_le (k : nat) (z : Z) : Prop := ∃ a, a ≤ k + 1 ∧ z = seq_at a.
Definition packet_ok (k : nat) (w : list byte) (p : list byte) : Prop :=
  ∃ seq ack payload, packet_is p seq ack payload ∧ ack_le k ack ∧
    (payload = [] ∨
     ∃ o, seq = seq_at o ∧ o + length payload ≤ length w ∧ payload = take (length payload) (drop o w) ∧
       (Z.of_nat (length p) ≤ Mtu settings)%Z).
Definition rpush (r : reader_pc) : list (list byte) := match r with RCheck ps _ | RPush ps _ => ps | _ => [] end.
Definition apack (a : acker_pc) : list (list byte) := match a with AHave p => [p] | _ => [] end.
Definition pending (w : writer_pc) : list byte := match w with WHave p => p | _ => [] end.

(** [k] bytes of the client have been handed to the writer. *)
Definition main_ok (k : nat) (m : main_pc) (started : bool) (z : Z) : Prop :=
  match m with
  | MInit => k = 0 ∧ started = false
  | MConnect p => k = 0 ∧ started = false ∧ z = seq_at 0 ∧ packet_ok 0 [] p ∧ packet_payload p = []
  | MIdle => started = true ∧ z = seq_at k
  | MFin i => started = true ∧ z = seq_at k ∧ item_next k i ∧ tcp_FIN (item_tcp i) = true
  | MPush i => started = true ∧ z = seq_at (k + fin_of i) ∧ item_next k i
  | MSeq i => started = true ∧ ∃ j, k = j + length (item_payload i) ∧ z = seq_at (j + fin_of i)
  | MFlush => started = true ∧ z = seq_at (k + 1)
  | MExit => started = false ∨ ack_le k z
  end.
Definition writer_ok (k : nat) (s : TcpSequence) : Prop :=
  k ≤ length stream ∧
  match writing s with
  | WDead => written s `prefix_of` take k stream
  | w => written s ++ pending w ++ concat (writePayloads s) = take k stream
  end.
Definition is_started (r : reader_pc) : bool := match r with ROff => false | _ => true end.
Definition reader_ok (m : main_pc) (r : reader_pc) (z : Z) (w : list byte) : Prop :=
  match r with
  | ROff => w = [] ∧ (match m with MConnect _ => z = seq_at 0 | _ => True end)
  | RIdle | RCheck _ _ | RPush _ _ => z = seq_at (length w)
  | RWait b _ => z = seq_at (length w) ∧ b ≠ []
  | RExit _ | RClosing _ | RClosed => z = seq_at (length w) ∨ z = seq_at (length w + 1)
  end.
Record tcp_inv (k : nat) (s : TcpSequence) : Prop := mkTcpInv {
  ti_conn : conn_ok (conn s);
  ti_main : main_ok k (main s) (is_started (reader s)) (sendSeq (conn s));
  ti_writer : writer_ok k s;
  ti_reader : reader_ok (main s) (reader s) (receiveSeq (conn s)) (wasRead s);
  ti_received : Forall (packet_ok k (wasRead s)) (received s);
  ti_queued : Forall (packet_ok k (wasRead s)) (readPackets s);
  ti_pushed : Forall (packet_ok k (wasRead s)) (rpush (reader s));
  ti_acker : Forall (packet_ok k (wasRead s)) (apack (acker s)) ∧ Forall (λ p, packet_payload p = []) (apack (acker s));
  ti_flow : done s = false →
    concat (map packet_payload (received s ++ readPackets s ++ rpush (reader s))) = wasRead s
}.

Lemma packet_ok_mono k k' w w' p : k ≤ k' → packet_ok k w p → packet_ok k' (w ++ w') p.
Proof.
  intros Hk (seq & ack & pl & Hp & (a & Ha & Ea) & Hpl). exists seq, ack, pl. split; [done|]. split; [exists a; split; [lia|done]|].
  destruct Hpl as [?|(o & Eo & Hle & Et & Hl)]; [by left|right]. exists o. rewrite length_app. split_and!; try done; [lia|].
  rewrite Et at 1. rewrite drop_app_le by lia. rewrite take_app_le; [done|]. rewrite length_drop. lia.
Qed.
Lemma packets_mono k k' w ps : k ≤ k' → Forall (packet_ok k w) ps → Forall (packet_ok k' w) ps.
Proof. intros Hk H. eapply Forall_impl; [exact H|]. intros p Hp. rewrite <-(app_nil_r w). by eapply packet_ok_mono. Qed.
Lemma packets_mono_w k w w' ps : Forall (packet_ok k w) ps → Forall (packet_ok k (w ++ w')) ps.
Proof. intros H. eapply Forall_impl; [exact H|]. intros p. by apply packet_ok_mono. Qed.
Lemma main_ack k m z : main_ok k m true z → ack_le k z.
Proof.
  destruct m; cbn; unfold fin_of; try (intros (? & ? & _); done); try (by intros [? ?]).
  - intros [_ ->]. exists k. split; [lia|done].
  - intros (_ & -> & _). exists k. split; [lia|done].
  - intros (_ & -> & _). eexists. split; [|done]. case_match; lia.
  - intros (_ & j & -> & ->). eexists. split; [|done]. case_match; lia.
  - intros [_ ->]. exists (k + 1). split; [lia|done].
  - by intros [?|?].
Qed.
Lemma new_tcp_inv : (0 ≤ MinWindowSize settings)%Z → tcp_inv 0 (NewTcpSequence f settings).
Proof.
  intros Hw. split; try done; try (by constructor).
  unfold conn_ok. cbn. split_and!; try done; unfold is_u32; lia.
Qed.
(** A packet of the connection without a payload. *)
Lemma control_packet k w c syn fin rst opts seq :
  conn_ok c → is_u32 seq → ack_le k (sendSeq c) → (opts = [] ∨ ∃ b, opts = [(TCPOptionKindWindowScale, [b])]) →
  ∃ p, conn_packet c (reply_tcp c seq syn fin rst opts) [] = Val p ∧ packet_ok k w p ∧ packet_payload p = [].
Proof.
  intros Hc Hs Ha Ho. destruct (conn_packet_ok c seq syn fin rst opts [] Hc Hs) as (p & E & Hp & _); [simpl; lia|done|].
  exists p. split; [done|]. split; [|by eapply packet_is_payload]. exists seq, (sendSeq c), []. split_and!; try done. by left.
Qed.

Ltac tcp_cbn := cbn [conn main ackedSendSeq nonBlockingByteCount blockingByteCount writePayloads writeClosed writing written
  reader wasRead readPackets acker received done set_conn set_main set_acked set_counts set_writer set_reader set_acker
  add_received cancel leave sendSeq receiveSeq receiveSeqAck receiveWindowSize flow windowSize windowScale
  add_sendSeq add_receiveSeq set_windowSize is_started rpush apack pending main_ok reader_ok] in *.

(** Parts of the invariant that most steps leave. *)
Lemma tcp_leave_inv k s : tcp_inv k s → (is_started (reader s) = false ∨ ack_le k (sendSeq (conn s))) → tcp_inv k (leave s).
Proof.
  intros [H1 H2 H3 H4 H5 H6 H7 H8 H9] Hm. split; tcp_cbn; try done.
  destruct (reader s); tcp_cbn; done || tauto.
Qed.
Lemma cancel_inv k s : tcp_inv k s → tcp_inv k (cancel s).
Proof. intros [H1 H2 H3 H4 H5 H6 H7 H8 H9]. by split. Qed.
Lemma conn_ok_upd c c' :
  conn_ok c → flow c' = flow c → is_u32 (sendSeq c') → is_u32 (receiveSeq c') →
  (0 ≤ windowSize c')%Z → (0 ≤ windowScale c')%Z → conn_ok c'.
Proof. intros (Hfl & _) E. unfold conn_ok. by rewrite E. Qed.
(** A step of the main loop that changes its place and [sendSeq]. *)
Lemma main_step_inv k s m c :
  tcp_inv k s → is_started (reader s) = true → conn_ok c → receiveSeq c = receiveSeq (conn s) →
  main_ok k m true (sendSeq c) → (∀ p, m ≠ MConnect p) → tcp_inv k (set_main m (set_conn c s)).
Proof.
  intros [H1 H2 H3 H4 H5 H6 H7 H8 H9] Hst Hc Hr Hm Hn. split; tcp_cbn; try done.
  - by rewrite Hst.
  - rewrite Hr. destruct (reader s); tcp_cbn; done.
Qed.
Lemma set_conn_same s : set_conn (conn s) s = s.
Proof. by destruct s. Qed.

Lemma parseWindowScaleOpts_ok opts :
  Forall (λ o, length o.2 ≤ 4) opts → ∃ e sc, parseWindowScaleOpts opts = Val (e, sc) ∧ (sc ≤ 14)%Z.
Proof.
  induction 1 as [|[k d] opts Hd Ho IH]; [by exists false, 0%Z|]. cbn [parseWindowScaleOpts snd] in *.
  destruct (k =? TCPOptionKindWindowScale)%Z; [|done]. rewrite (proj2 (Nat.ltb_ge _ _)) by done.
  eexists _, _. split; [done|]. lia.
Qed.

Lemma step_syn k i s r :
  tcp_inv k s → label_ok (LSyn i) → tcp_step settings (LSyn i) s = Some r → ∃ s', r = Val s' ∧ tcp_inv k s'.
Proof.
  intros Hi Hl E. cbn [tcp_step run_main run_writer run_reader run_acker] in E. destruct (main s) eqn:Em; try discriminate.
  destruct (tcp_SYN (item_tcp i)) eqn:Es; [|injection E as <-; by exists s].
  destruct (Hl Es) as [Hseq Ho]. destruct (parseWindowScaleOpts_ok _ Ho) as (e & sc & Ep & Hsc).
  pose proof Hi as [H1 H2 H3 H4 H5 H6 H7 H8 H9]. rewrite Em in H2. cbn in H2. destruct H2 as [-> Hst].
  assert (reader s = ROff) as Er by (by destruct (reader s)). rewrite Er in *. cbn in H4. destruct H4 as [Hw _].
  injection E as E. unfold receive_syn in E. rewrite Ep in E. cbn [obind] in E.
  set (c1 := mkConn _ _ _ _ _ _ _ _ _) in E.
  assert (conn_ok c1) as Hc1.
  { apply (conn_ok_upd (conn s)); try done; cbn.
    - apply u32_range.
    - by rewrite Hseq.
    - apply H1.
    - unfold window_scale_for. destruct e; [|lia]. case_bool; [lia|]. apply Z.log2_up_nonneg. }
  assert (sendSeq c1 = seq_at 0) as Hs1 by (cbn; rewrite Hseq; unfold seq_at; f_equal; lia).
  assert (conn_ok (add_receiveSeq 1 c1)) as Hc2.
  { apply (conn_ok_upd c1); try done; [apply Hc1|apply u32_range|apply Hc1|apply Hc1]. }
  unfold SynAck in E.
  destruct (control_packet 0 [] c1 true false false
    (if enableWindowScale c1 then [(TCPOptionKindWindowScale, [byte_of (windowScale c1)])] else []) (receiveSeq c1)) as (p & Ep1 & Hp & Hpl).
  - done.
  - cbn. by rewrite Hseq.
  - exists 0. split; [lia|done].
  - destruct (enableWindowScale c1); [right; by eexists|by left].
  - rewrite Ep1 in E. subst r. eexists. split; [done|]. split; tcp_cbn; rewrite ?Er; tcp_cbn; try done.
Qed.

Lemma step_item k i s r :
  tcp_inv k s → label_ok (LItem i) → tcp_step settings (LItem i) s = Some r → ∃ s', r = Val s' ∧ tcp_inv k s'.
Proof.
  intros Hi Hl E. cbn [tcp_step run_main run_writer run_reader run_acker] in E. destruct (main s) eqn:Em; try discriminate.
  pose proof (ti_main _ _ Hi) as Hm. rewrite Em in Hm. cbn in Hm. destruct Hm as [Hst Hseq].
  destruct (tcp_RST _); [injection E as <-; eexists; split; [done|]; apply tcp_leave_inv; [done|right; by exists k; split; [lia|]]|].
  destruct (negb _ || _) eqn:Ed; [injection E as <-; by exists s|].
  apply orb_false_iff in Ed as [Ed _]. apply negb_false_iff, Z.eqb_eq in Ed.
  injection E as <-. eexists. split; [done|].
  assert (item_next k i) as Hnext.
  { destruct Hl as [(o & Eo & Hn)|[Hp Hfin]].
    - assert (o = k) as -> by (apply seq_at_inj; [destruct Hn; lia|apply (ti_writer _ _ Hi)|congruence]). done.
    - split_and!; rewrite ?Hp; simpl; try done.
      + pose proof (ti_writer _ _ Hi) as [? _]. lia.
      + by rewrite Hfin. }
  pose proof (ti_conn _ _ Hi) as Hc.
  assert (conn_ok (receive_ack (item_tcp i) (conn s)) ∧ receiveSeq (receive_ack (item_tcp i) (conn s)) = receiveSeq (conn s) ∧
          sendSeq (receive_ack (item_tcp i) (conn s)) = sendSeq (conn s)) as (Hc' & Hr' & Hs').
  { unfold receive_ack. destruct (_ && _); [|done]. split; [|done].
    apply (conn_ok_upd (conn s)); try done; apply Hc. }
  apply main_step_inv; try done.
  - rewrite Hs'. destruct (tcp_FIN (item_tcp i)) eqn:Ef; cbn; [done|]. split_and!; try done.
    unfold fin_of. rewrite Ef, Nat.add_0_r. done.
  - by destruct (tcp_FIN (item_tcp i)).
Qed.

Lemma step_fin k s r : tcp_inv k s → tcp_step settings LFin s = Some r → ∃ s', r = Val s' ∧ tcp_inv k s'.
Proof.
  intros Hi E. cbn [tcp_step run_main run_writer run_reader run_acker] in E. destruct (main s) eqn:Em; try discriminate. injection E as <-. eexists. split; [done|].
  pose proof (ti_main _ _ Hi) as Hm. rewrite Em in Hm. destruct Hm as (Hst & Hseq & Hn & Hfin).
  pose proof (ti_conn _ _ Hi) as Hc. apply main_step_inv; try done.
  - apply (conn_ok_upd (conn s)); try done; try apply Hc. apply u32_range.
  - cbn. split_and!; try done. rewrite Hseq. unfold fin_of. rewrite Hfin. apply (seq_at_add k 1).
Qed.

Lemma take_next k i : item_next k i → take k stream ++ item_payload i = take (k + length (item_payload i)) stream.
Proof.
  intros (Hl & Et & _). rewrite Et at 1. rewrite <-(take_drop k stream) at 3.
  rewrite take_app, length_take, Nat.min_l by lia.
  replace (k + length (item_payload i) - k) with (length (item_payload i)) by lia. by rewrite take_take, Nat.min_r by lia.
Qed.
Lemma step_push k b s r :
  tcp_inv k s → tcp_step settings (LPush b) s = Some r → ∃ s' k', r = Val s' ∧ k ≤ k' ∧ tcp_inv k' s'.
Proof.
  intros Hi E. cbn [tcp_step run_main run_writer run_reader run_acker] in E. destruct (main s) as [| | | |i| | |] eqn:Em; try discriminate.
  pose proof (ti_main _ _ Hi) as Hm. rewrite Em in Hm. destruct Hm as (Hst & Hseq & Hn).
  destruct (Nat.eqb_spec (length (item_payload i)) 0) as [E0|E0].
  - injection E as <-. eexists _, k. split; [done|]. split; [done|]. rewrite <-(set_conn_same s) at 1.
    apply main_step_inv; try done; [apply (ti_conn _ _ Hi)|]. cbn. split; [done|]. exists k. rewrite E0. split; [lia|done].
  - destruct (has_room _ _); [|done]. injection E as <-. eexists _, (k + length (item_payload i)). split; [done|]. split; [lia|].
    pose proof Hi as [H1 H2 H3 H4 H5 H6 H7 H8 H9]. assert (k ≤ k + length (item_payload i)) as Hle by lia.
    split; tcp_cbn; try done; try (by eapply packets_mono).
    + split; [done|]. exists k. done.
    + destruct H3 as [Hk Hw]. split; [apply Hn|]. tcp_cbn. rewrite <-take_next by done. destruct (writing s).
      * rewrite concat_app. cbn [concat]. rewrite app_nil_r, !app_assoc. f_equal. rewrite <-!app_assoc. done.
      * rewrite concat_app. cbn [concat]. rewrite app_nil_r, !app_assoc. f_equal. rewrite <-!app_assoc. done.
      * etrans; [exact Hw|]. apply prefix_app_r. done.
    + destruct (reader s); done.
    + destruct H8. split; [by eapply packets_mono|done].
Qed.

Lemma next_window_range nb b c :
  conn_ok c → (0 ≤ MinWindowSize settings)%Z → (0 ≤ MaxWindowSize settings)%Z → (0 ≤ (next_window settings nb b c).1)%Z.
Proof.
  intros (_ & _ & _ & Hw & _) H1 H2. unfold next_window. repeat case_bool; cbn [fst]; try done.
  - pose proof (u32_range (windowSize c * 2)) as []. lia.
  - lia.
Qed.
Lemma step_seq k s r :
  (0 ≤ MinWindowSize settings)%Z → (0 ≤ MaxWindowSize settings)%Z →
  tcp_inv k s → tcp_step settings LSeq s = Some r → ∃ s', r = Val s' ∧ tcp_inv k s'.
Proof.
  intros Hw1 Hw2 Hi E. cbn [tcp_step run_main run_writer run_reader run_acker] in E. destruct (main s) as [| | | | |i| |] eqn:Em; try discriminate.
  pose proof (ti_main _ _ Hi) as Hm. rewrite Em in Hm. destruct Hm as (Hst & j & -> & Hseq).
  injection E as <-. eexists. split; [done|]. pose proof Hi as [H1 H2 H3 H4 H5 H6 H7 H8 H9].
  set (n := length (item_payload i)) in *.
  assert (∃ c1 nb bb, (if n =? 0 then s else let '(w, reset) := next_window settings (nonBlockingByteCount s) (blockingByteCount s) (conn s) in
      set_conn (add_sendSeq (Z.of_nat n) (set_windowSize w (conn s))) (if reset then set_counts 0 0 s else s)) =
      set_conn c1 (set_counts nb bb s) ∧ conn_ok c1 ∧ sendSeq c1 = seq_at (j + n + fin_of i) ∧ receiveSeq c1 = receiveSeq (conn s))
    as (c1 & nb & bb & -> & Hc1 & Hs1 & Hr1).
  { destruct (Nat.eqb_spec n 0) as [E0|E0].
    - exists (conn s), (nonBlockingByteCount s), (blockingByteCount s). split; [by destruct s|]. split_and!; try done.
      rewrite Hseq. f_equal. lia.
    - pose proof (next_window_range (nonBlockingByteCount s) (blockingByteCount s) (conn s) H1 Hw1 Hw2) as Hr.
      destruct (next_window _ _ _ _) as [w reset]. cbn [fst] in Hr.
      exists (add_sendSeq (Z.of_nat n) (set_windowSize w (conn s))),
        (if reset then 0%Z else nonBlockingByteCount s), (if reset then 0%Z else blockingByteCount s).
      split; [by destruct reset, s|]. split; [|split; [|done]].
      + apply (conn_ok_upd (conn s)); try done; try apply H1. apply u32_range.
      + cbn. rewrite Hseq, seq_at_add. f_equal. lia. }
  unfold fin_of in Hs1. destruct (tcp_FIN (item_tcp i)); (split; tcp_cbn; try done); try (rewrite Hs1; split; [done|f_equal; lia]);
    rewrite Hr1; destruct (reader s); done.
Qed.

Lemma step_connected k ok s r :
  tcp_inv k s → tcp_step settings (LConnected ok) s = Some r → ∃ s', r = Val s' ∧ tcp_inv k s'.
Proof.
  intros Hi E. cbn [tcp_step run_main run_writer run_reader run_acker] in E. destruct (main s) as [|p| | | | | |] eqn:Em; try discriminate.
  injection E as <-. eexists. split; [done|]. pose proof Hi as [H1 H2 H3 H4 H5 H6 H7 H8 H9]. rewrite Em in *.
  destruct H2 as (-> & Hst & Hs & Hp & Hpl). destruct ok; [|by apply tcp_leave_inv; [|left]].
  destruct (reader s) eqn:Er; try done. destruct H4 as [Hw Hr]. rewrite Hw in *. split; tcp_cbn; rewrite ?Hw; try done.
  - apply Forall_app. split; [done|]. by apply Forall_singleton.
  - intros Hd. specialize (H9 Hd). rewrite <-app_assoc, map_app, concat_app. cbn [map concat app]. rewrite Hpl, app_nil_l.
    rewrite <-concat_app, <-map_app. done.
Qed.
Lemma step_leave k s r : tcp_inv k s → tcp_step settings LLeave s = Some r → ∃ s', r = Val s' ∧ tcp_inv k s'.
Proof.
  intros Hi E. cbn [tcp_step run_main run_writer run_reader run_acker] in E. assert (r = Val (leave s)) as -> by (repeat case_match; congruence).
  eexists. split; [done|]. apply tcp_leave_inv; [done|]. pose proof (ti_main _ _ Hi) as Hm.
  destruct (is_started (reader s)); [right|by left]. by eapply main_ack.
Qed.

(** A step of the writer. *)
Lemma writer_step k s ps w wn :
  tcp_inv k s → writer_ok k (set_writer ps (writeClosed s) w wn s) → tcp_inv k (set_writer ps (writeClosed s) w wn s).
Proof. intros [H1 H2 H3 H4 H5 H6 H7 H8 H9] Hw. by split. Qed.
Lemma writer_prefix k s : writer_ok k s → written s `prefix_of` take k stream.
Proof. intros [_ Hw]. destruct (writing s); [| |done]; eexists; by rewrite <-Hw. Qed.
Lemma step_write_take k s r : tcp_inv k s → tcp_step settings LWriteTake s = Some r → ∃ s', r = Val s' ∧ tcp_inv k s'.
Proof.
  intros Hi E. cbn [tcp_step run_main run_writer run_reader run_acker] in E. destruct (writing s) eqn:Ew; try discriminate. destruct (writePayloads s) as [|p ps] eqn:Ep; [done|].
  injection E as <-. eexists. split; [done|]. apply writer_step; [done|]. pose proof (ti_writer _ _ Hi) as [Hk Hw].
  rewrite Ew, Ep in Hw. split; [done|]. done.
Qed.
Lemma step_write k n err s r :
  tcp_inv k s → tcp_step settings (LWrite n err) s = Some r → ∃ s', r = Val s' ∧ tcp_inv k s'.
Proof.
  intros Hi E. cbn [tcp_step run_main run_writer run_reader run_acker] in E. destruct (writing s) as [|p|] eqn:Ew; try discriminate.
  destruct ((n <=? length p) && _) eqn:En; [|done]. apply andb_true_iff in En as [Hn%Nat.leb_le _].
  injection E as <-. eexists. split; [done|]. pose proof (ti_writer _ _ Hi) as [Hk Hw]. rewrite Ew in Hw. cbn [pending] in Hw.
  assert (tcp_inv k (set_writer (writePayloads s) (writeClosed s)
    (if err then WDead else if length p =? n then WIdle else WHave (drop n p)) (written s ++ take n p) s)) as Ht.
  { apply writer_step; [done|]. split; [done|]. tcp_cbn. destruct err; [|destruct (Nat.eqb_spec (length p) n) as [<-|]].
    - rewrite <-Hw. apply prefix_app. rewrite <-(take_drop n p) at 2. rewrite <-app_assoc. by eexists.
    - tcp_cbn. rewrite firstn_all, <-app_assoc. done.
    - tcp_cbn. rewrite <-app_assoc, (app_assoc (take n p)), take_drop. done. }
  destruct err; [|done]. by apply cancel_inv.
Qed.
Lemma step_write_end k s r : tcp_inv k s → tcp_step settings LWriteEnd s = Some r → ∃ s', r = Val s' ∧ tcp_inv k s'.
Proof.
  intros Hi E. cbn [tcp_step run_main run_writer run_reader run_acker] in E.
  assert (r = Val (cancel (set_writer (writePayloads s) (writeClosed s) WDead (written s) s))) as ->.
  { destruct (writing s); try discriminate; destruct (_ || _); congruence. }
  eexists. split; [done|]. apply cancel_inv, writer_step; [done|]. pose proof (ti_writer _ _ Hi) as Hw.
  split; [exact (proj1 Hw)|exact (writer_prefix k s Hw)].
Qed.

(** A step of the reader that has no new data. *)
Lemma reader_step k s rd ps :
  tcp_inv k s → is_started (reader s) = true → is_started rd = true →
  reader_ok (main s) rd (receiveSeq (conn s)) (wasRead s) →
  Forall (packet_ok k (wasRead s)) ps → Forall (packet_ok k (wasRead s)) (rpush rd) →
  (done s = false → concat (map packet_payload (ps ++ rpush rd)) = concat (map packet_payload (readPackets s ++ rpush (reader s)))) →
  tcp_inv k (set_reader rd (wasRead s) ps s).
Proof.
  intros [H1 H2 H3 H4 H5 H6 H7 H8 H9] Hst Hst' Hr Hp Hq Hd. split; tcp_cbn; try done.
  - rewrite Hst'. by rewrite <-Hst.
  - intros Hn. specialize (H9 Hn). specialize (Hd Hn). rewrite map_app, concat_app, Hd. by rewrite <-concat_app, <-map_app.
Qed.
Lemma reader_exit k s : tcp_inv k s → is_started (reader s) = true → rpush (reader s) = [] → tcp_inv k (set_reader (RExit false) (wasRead s) (readPackets s) s).
Proof.
  intros Hi Hst Hp. apply reader_step; try done; [|apply Hi|by rewrite Hp].
  pose proof (ti_reader _ _ Hi) as Hr. destruct (reader s); tcp_cbn; try done; try tauto; by left.
Qed.
Lemma step_read k b e s r : tcp_inv k s → tcp_step settings (LRead b e) s = Some r → ∃ s', r = Val s' ∧ tcp_inv k s'.
Proof.
  intros Hi E. cbn [tcp_step run_main run_writer run_reader run_acker] in E. destruct (reader s) eqn:Er; try discriminate.
  destruct (done s) eqn:Ed.
  { injection E as <-. eexists. split; [done|]. apply reader_exit; by rewrite ?Er. }
  pose proof (ti_reader _ _ Hi) as Hr. rewrite Er in Hr.
  destruct (Nat.eqb_spec (length b) 0); injection E as <-; (eexists; split; [done|]);
    (apply reader_step; rewrite ?Er; try done; [apply Hi]) || idtac.
  apply reader_step; rewrite ?Er; try done; [|apply Hi]. split; [done|]. intros ->. done.
Qed.
Lemma step_segment k s r :
  tcp_inv k s → tcp_step settings LSegment s = Some r → ∃ s', r = Val s' ∧ tcp_inv k s'.
Proof.
  intros Hi E. cbn [tcp_step run_main run_writer run_reader run_acker] in E. destruct (reader s) as [| |b e| | | | |] eqn:Er; try discriminate.
  destruct (done s) eqn:Ed.
  { injection E as <-. eexists. split; [done|]. apply reader_exit; by rewrite ?Er. }
  destruct (window_closed _ _); [done|].
  pose proof Hi as [H1 H2 H3 H4 H5 H6 H7 H8 H9]. rewrite Er in *. destruct H4 as [Hr Hb].
  destruct (DataPackets_ok (conn s) b H1 Hb) as (ps & Ep & Ec & Hps). rewrite Ep in E.
  injection E as <-. eexists. split; [done|]. split; tcp_cbn; try done; try (by apply packets_mono_w).
  - apply (conn_ok_upd (conn s)); try done; try apply H1. apply u32_range.
  - rewrite Hr, seq_at_add, length_app. done.
  - eapply Forall_impl; [exact Hps|]. intros p (o & pl & Hp & Hle & Et & Hl).
    exists (u32 (receiveSeq (conn s) + Z.of_nat o)), (sendSeq (conn s)), pl. split; [done|]. split; [by eapply main_ack|].
    right. exists (length (wasRead s) + o). rewrite Hr, seq_at_add, length_app. split_and!; try done; [lia|].
    rewrite drop_app. rewrite (drop_ge (wasRead s)) by lia. rewrite app_nil_l.
    by replace (length (wasRead s) + o - length (wasRead s)) with o by lia.
  - destruct H8. split; [by apply packets_mono_w|done].
  - intros _. specialize (H9 Ed). rewrite !app_nil_r in H9. rewrite app_assoc, map_app, concat_app, H9, Ec. done.
Qed.
Lemma step_check k s r : tcp_inv k s → tcp_step settings LCheck s = Some r → ∃ s', r = Val s' ∧ tcp_inv k s'.
Proof.
  intros Hi E. cbn [tcp_step run_main run_writer run_reader run_acker] in E. destruct (reader s) as [| | |ps e| | | |] eqn:Er; try discriminate.
  injection E as <-. eexists. split; [done|]. pose proof (ti_reader _ _ Hi) as Hr. pose proof (ti_pushed _ _ Hi) as Hp.
  rewrite Er in Hr, Hp. destruct (done s) eqn:Ed; apply reader_step; rewrite ?Er; try done; try apply Hi; [by left|by rewrite Ed].
Qed.
Lemma step_push_packet k d s r :
  tcp_inv k s → tcp_step settings (LPushPacket d) s = Some r → ∃ s', r = Val s' ∧ tcp_inv k s'.
Proof.
  intros Hi E. cbn [tcp_step run_main run_writer run_reader run_acker] in E. destruct (reader s) as [| | | |[|p ps] e| | |] eqn:Er; try discriminate.
  pose proof (ti_reader _ _ Hi) as Hr. pose proof (ti_pushed _ _ Hi) as Hp. rewrite Er in Hr, Hp. cbn [rpush] in Hp.
  apply Forall_cons in Hp as [Hp Hps].
  destruct d.
  - destruct (done s) eqn:Ed; [|done]. injection E as <-. eexists. split; [done|].
    apply reader_step; rewrite ?Er; try done; [apply Hi|by rewrite Ed].
  - destruct (has_room _ _); [|done]. injection E as <-. eexists. split; [done|].
    apply reader_step; rewrite ?Er; try done.
    + apply Forall_app. split; [apply Hi|]. by apply Forall_singleton.
    + intros _. cbn [rpush]. by rewrite <-app_assoc.
Qed.

(** The packets without data that the reader and the sender of acks make. *)
Lemma own_packet k s fin rst :
  tcp_inv k s → is_started (reader s) = true →
  ∃ p, conn_packet (conn s) (reply_tcp (conn s) (receiveSeq (conn s)) false fin rst []) [] = Val p ∧
    packet_ok k (wasRead s) p ∧ packet_payload p = [].
Proof.
  intros Hi Hst. pose proof (ti_conn _ _ Hi) as Hc. pose proof (ti_main _ _ Hi) as Hm. rewrite Hst in Hm.
  apply control_packet; [done|apply Hc|by eapply main_ack|by left].
Qed.
Lemma conn_step k s c :
  tcp_inv k s → conn_ok c → sendSeq c = sendSeq (conn s) → reader_ok (main s) (reader s) (receiveSeq c) (wasRead s) →
  tcp_inv k (set_conn c s).
Proof. intros [H1 H2 H3 H4 H5 H6 H7 H8 H9] Hc Hs Hr. split; tcp_cbn; try done. by rewrite Hs. Qed.
Lemma concat_payloads_last ps p (qs : list (list byte)) :
  packet_payload p = [] → concat (map packet_payload ((ps ++ [p]) ++ qs)) = concat (map packet_payload (ps ++ qs)).
Proof. intros Hp. rewrite <-app_assoc, !map_app, !concat_app. cbn. by rewrite Hp. Qed.

Lemma step_read_next k d s r :
  tcp_inv k s → tcp_step settings (LReadNext d) s = Some r → ∃ s', r = Val s' ∧ tcp_inv k s'.
Proof.
  intros Hi E. cbn [tcp_step run_main run_writer run_reader run_acker] in E. destruct (reader s) as [| | | |[|p ps] e| | |] eqn:Er; try discriminate.
  pose proof (ti_reader _ _ Hi) as Hr. rewrite Er in Hr. cbn in Hr.
  destruct e.
  - injection E as <-. eexists. split; [done|]. apply reader_step; rewrite ?Er; try done. apply Hi.
  - destruct (if d then _ else _); [|done]. injection E as <-.
    destruct (own_packet k s true false Hi) as (fin & Ef & Hp & Hpl); [by rewrite Er|].
    unfold FinAck. rewrite Ef.
    assert (∀ b ps, Forall (packet_ok k (wasRead s)) ps →
      (done s = false → concat (map packet_payload ps) = concat (map packet_payload (readPackets s))) →
      tcp_inv k (set_reader (RExit b) (wasRead s) ps (set_conn (add_receiveSeq 1 (conn s)) s))) as Hx.
    { intros b ps Hps Hd.
      assert (tcp_inv k (set_reader (RExit b) (wasRead s) ps s)) as Hy.
      { apply reader_step; rewrite ?Er; try done; [by left|]. cbn [rpush]. by rewrite !app_nil_r. }
      pose proof (ti_conn _ _ Hi) as Hc. apply (conn_step k _ (add_receiveSeq 1 (conn s))) in Hy; [done| |done|].
      - apply (conn_ok_upd (conn s)); try done; try apply Hc. apply u32_range.
      - tcp_cbn. right. rewrite Hr. apply (seq_at_add _ 1). }
    destruct d; (eexists; split; [done|]); apply Hx; try done; try apply Hi.
    + apply Forall_app. split; [apply Hi|by apply Forall_singleton].
    + intros _. pose proof (concat_payloads_last (readPackets s) fin [] Hpl) as Hcc. by rewrite !app_nil_r in Hcc.
  - injection E as <-. eexists. split; [done|]. apply reader_exit; by rewrite ?Er.
Qed.
Lemma step_exit k s r : tcp_inv k s → tcp_step settings LExit s = Some r → ∃ s', r = Val s' ∧ tcp_inv k s'.
Proof.
  intros Hi E. cbn [tcp_step run_main run_writer run_reader run_acker] in E. destruct (reader s) as [| | | | |b| |] eqn:Er; try discriminate.
  pose proof (ti_reader _ _ Hi) as Hr. rewrite Er in Hr.
  injection E as <-. eexists. split; [done|]. apply cancel_inv, reader_step; rewrite ?Er; try done. apply Hi.
Qed.
Lemma step_rst k s r : tcp_inv k s → tcp_step settings LRst s = Some r → ∃ s', r = Val s' ∧ tcp_inv k s'.
Proof.
  intros Hi E. cbn [tcp_step run_main run_writer run_reader run_acker] in E. destruct (reader s) as [| | | | | |b|] eqn:Er; try discriminate.
  pose proof (ti_reader _ _ Hi) as Hr. rewrite Er in Hr. cbn in Hr.
  destruct b.
  - injection E as <-. eexists. split; [done|]. apply reader_step; rewrite ?Er; try done. apply Hi.
  - destruct (has_room _ _); [|done]. injection E as <-.
    destruct (own_packet k s false true Hi) as (rst & Ep & Hp & Hpl); [by rewrite Er|]. unfold RstAck. rewrite Ep.
    eexists. split; [done|]. apply reader_step; rewrite ?Er; try done.
    + apply Forall_app. split; [apply Hi|by apply Forall_singleton].
    + intros _. by apply concat_payloads_last.
Qed.
Lemma step_deliver k s r : tcp_inv k s → tcp_step settings LDeliver s = Some r → ∃ s', r = Val s' ∧ tcp_inv k s'.
Proof.
  intros Hi E. cbn [tcp_step] in E. unfold run_receiver in E. destruct (readPackets s) as [|p ps] eqn:Ep; [done|]. injection E as <-.
  eexists. split; [done|]. destruct Hi as [H1 H2 H3 H4 H5 H6 H7 H8 H9]. rewrite Ep in H6, H9. apply Forall_cons in H6 as [H6 H6'].
  split; tcp_cbn; try done.
  - apply Forall_app. split; [done|by apply Forall_singleton].
  - intros Hd. specialize (H9 Hd). by rewrite <-app_assoc.
Qed.
Lemma step_ack k s r : tcp_inv k s → tcp_step settings LAck s = Some r → ∃ s', r = Val s' ∧ tcp_inv k s'.
Proof.
  intros Hi E. cbn [tcp_step run_main run_writer run_reader run_acker] in E.
  assert (is_started (reader s) = true) as Hst by (destruct (acker s), (reader s); done).
  pose proof Hi as [H1 H2 H3 H4 H5 H6 H7 H8 H9].
  assert (acker s = AIdle) as Ea by (destruct (acker s), (reader s); done).
  destruct (own_packet k s false false Hi Hst) as (p & Ep & Hp & Hpl).
  assert (∃ s', r = Val s' ∧ (s' = set_acker AExit s ∨ s' = set_acker (AHave p) (set_acked (sendSeq (conn s)) s)))
    as (s' & -> & Hs').
  { rewrite Ea in E. unfold PureAck in E. rewrite Ep in E.
    destruct (reader s); try done; (destruct (done s); [|destruct (_ =? _)%Z; [done|]]); injection E as <-; eexists; split; eauto. }
  exists s'. split; [done|]. destruct Hs' as [-> | ->]; split; tcp_cbn; try done; by rewrite ?Forall_singleton.
Qed.
Lemma step_ack_deliver k d s r :
  tcp_inv k s → tcp_step settings (LAckDeliver d) s = Some r → ∃ s', r = Val s' ∧ tcp_inv k s'.
Proof.
  intros Hi E. cbn [tcp_step run_main run_writer run_reader run_acker] in E. destruct (acker s) as [|p|] eqn:Ea; try done.
  destruct Hi as [H1 H2 H3 H4 H5 H6 H7 H8 H9]. rewrite Ea in H8. cbn [apack] in H8. rewrite !Forall_singleton in H8. destruct H8 as [Hp Hpl].
  destruct d.
  - destruct (done s) eqn:Ed; [|done]. injection E as <-. eexists. split; [done|]. split; tcp_cbn; try done. by rewrite Ed.
  - injection E as <-. eexists. split; [done|]. split; tcp_cbn; try done.
    + apply Forall_app. split; [done|by apply Forall_singleton].
    + intros Hd. rewrite concat_payloads_last by done. by apply H9.
Qed.

Lemma step_ok k l s r :
  (0 ≤ MinWindowSize settings)%Z → (0 ≤ MaxWindowSize settings)%Z →
  tcp_inv k s → label_ok l → tcp_step settings l s = Some r → ∃ s' k', r = Val s' ∧ k ≤ k' ∧ tcp_inv k' s'.
Proof.
  intros Hw1 Hw2 Hi Hl E. destruct l.
  5: by eapply step_push.
  all: cut (∃ s', r = Val s' ∧ tcp_inv k s'); [intros (s' & ? & ?); by exists s', k|].
  - by eapply step_syn.
  - by eapply step_connected.
  - by eapply step_item.
  - by eapply step_fin.
  - by eapply step_seq.
  - by eapply step_leave.
  - by eapply step_write_take.
  - by eapply step_write.
  - by eapply step_write_end.
  - by eapply step_read.
  - by eapply step_segment.
  - by eapply step_check.
  - by eapply step_push_packet.
  - by eapply step_read_next.
  - by eapply step_exit.
  - by eapply step_rst.
  - by eapply step_deliver.
  - by eapply step_ack.
  - by eapply step_ack_deliver.
  - injection E as <-. eexists. split; [done|]. by apply cancel_inv.
Qed.
Lemma steps_ok k ls s r :
  (0 ≤ MinWindowSize settings)%Z → (0 ≤ MaxWindowSize settings)%Z →
  tcp_inv k s → Forall label_ok ls → tcp_steps settings ls s = Some r → ∃ s' k', r = Val s' ∧ tcp_inv k' s'.
Proof.
  intros Hw1 Hw2 Hi Hl. revert k s Hi. induction Hl as [|l ls Hl _ IH]; intros k s Hi E.
  - injection E as <-. by exists s, k.
  - cbn [tcp_steps] in E. destruct (tcp_step settings l s) as [r'|] eqn:El; [|done].
    destruct (step_ok k l s r' Hw1 Hw2 Hi Hl El) as (s' & k' & -> & _ & Hi'). by eapply IH.
Qed.

Lemma segment_in_window s s' :
  tcp_step settings LSegment s = Some (Val s') → wasRead s' ≠ wasRead s →
  (u32 (receiveSeq (conn s') - receiveSeqAck (conn s')) ≤ receiveWindowSize (conn s'))%Z.
Proof.
  intros E Hne. cbn [tcp_step run_main run_writer run_reader run_acker] in E. destruct (reader s) as [| |b e| | | | |]; try discriminate.
  destruct (done s); [injection E as <-; done|]. destruct (window_closed _ _) eqn:Ew; [done|].
  destruct (ConnectionState_DataPackets _ _ _); [|injection E as <-; done|discriminate]. injection E as <-.
  unfold window_closed in Ew. apply Z.ltb_ge in Ew. cbn. etrans; [|exact Ew].
  unfold u32. rewrite Zminus_mod_idemp_l. apply Z.eq_le_incl. f_equal. lia.
Qed.

(** C13. A run of a sequence of a valid flow, whose client sends the segments of one stream of less than 2^32 bytes
    in any order and any number of times, with any acks, does not panic. What the socket has taken is a prefix of
    the stream: with what the writer and its queue hold, it is the [k] bytes that were accepted, while the socket
    takes them. Every packet that goes back parses as a packet from the destination of the flow to its source, acks
    no more than the [k] bytes and a FIN, and has no data, or has a section of what was read from the socket, at its
    sequence number and within the MTU. Until the end of the context no byte that was read is missing, twice or out
    of order. New data never exceeds the window that the client announced. *)
Theorem tcp_stream ls r :
  (0 ≤ MinWindowSize settings)%Z → (0 ≤ MaxWindowSize settings)%Z → Forall label_ok ls →
  tcp_steps settings ls (NewTcpSequence f settings) = Some r →
  ∃ s k, r = Val s ∧ k ≤ length stream ∧ written s `prefix_of` take k stream ∧
    (writing s ≠ WDead → written s ++ pending (writing s) ++ concat (writePayloads s) = take k stream) ∧
    Forall (λ p, packet_ok k (wasRead s) p ∧
      ∃ path, ParseIpPathWithPayload p = Val (path, packet_payload p) ∧ Protocol path = IpProtocolTcp ∧
        SourceIp path = fl_destinationIp f ∧ SourcePort path = fl_destinationPort f ∧
        DestinationIp path = fl_sourceIp f ∧ DestinationPort path = fl_sourcePort f) (received s) ∧
    (done s = false →
     concat (map packet_payload (received s ++ readPackets s ++ rpush (reader s))) = wasRead s) ∧
    (∀ s', tcp_step settings LSegment s = Some (Val s') → wasRead s' ≠ wasRead s →
       (u32 (receiveSeq (conn s') - receiveSeqAck (conn s')) ≤ receiveWindowSize (conn s'))%Z).
Proof.
  intros Hw1 Hw2 Hl E. destruct (steps_ok 0 ls _ r Hw1 Hw2 (new_tcp_inv Hw1) Hl E) as (s & k & -> & Hi).
  exists s, k. pose proof (ti_writer _ _ Hi) as Hw. split_and!; try done.
  - apply Hw.
  - by apply writer_prefix.
  - destruct Hw as [_ Hw]. by destruct (writing s).
  - eapply Forall_impl; [apply (ti_received _ _ Hi)|]. intros p Hp. split; [done|].
    destruct Hp as (seq & ack & pl & Hp & _). rewrite (packet_is_payload _ _ _ _ Hp).
    destruct (packet_is_parse _ _ _ _ Hp) as (path & Ep & ? & _ & ? & ? & ? & ?). by exists path.
  - apply (ti_flow _ _ Hi).
  - intros s' Es Hne. by eapply segment_in_window.
Qed.
End Proofs.

(** ** A run *)
Module TcpExample.
Import IpExample.
Definition bytes (l : list Z) : list byte := map byte_of l.
Definition ex_flow : Flow := mkFlow 4 (bytes [10; 0; 0; 1]%Z) 40000 (bytes [93; 184; 216; 34]%Z) 80.
Definition ex_settings : TcpBufferSettings := mkTcpSettings 2 44 16 131072.
Definition ex_item (seq ack : Z) (syn fin : bool) (window : Z) opts (payload : list byte) : TcpSendItem :=
  mkTcpSendItem (mkTcpLayer 40000 80 seq ack fin syn false (negb syn) window opts) payload.
Definition ex_stream : list byte := bytes [71; 69; 84; 10]%Z.
(** A SYN at [isn]; the stream in two segments, the second one also too early
    and twice; a reply of six bytes in packets of four. *)
Definition ex_ls (isn : Z) : list tcp_label :=
  [ LSyn (ex_item isn 0 true false 8 [(TCPOptionKindWindowScale, bytes [1]%Z)] []); LConnected true;
    LItem (ex_item (u32 (isn + 3)) (u32 (isn + 1)) false false 8 [] (bytes [84; 10]%Z));
    LItem (ex_item (u32 (isn + 1)) (u32 (isn + 1)) false false 8 [] (bytes [71; 69]%Z)); LPush false; LSeq;
    LItem (ex_item (u32 (isn + 3)) (u32 (isn + 1)) false false 8 [] (bytes [84; 10]%Z)); LPush false; LSeq;
    LItem (ex_item (u32 (isn + 3)) (u32 (isn + 1)) false false 8 [] (bytes [84; 10]%Z));
    LAck; LAckDeliver false; LWriteTake; LWrite 1 false; LWrite 1 false; LWriteTake; LWrite 2 false;
    LRead (bytes [1; 2; 3; 4; 5; 6]%Z) ReadMore; LSegment; LCheck; LPushPacket false; LDeliver; LPushPacket false; LDeliver;
    LReadNext false ].
Definition ex_end : TcpSequence :=
  match tcp_steps ex_settings (ex_ls 4294967290) (NewTcpSequence ex_flow ex_settings) with
  | Some (Val s) => s
  | _ => NewTcpSequence ex_flow ex_settings
  end.
Example ex_tcp_run :
  written ex_end = ex_stream ∧ length (received ex_end) = 4 ∧
  map (packet_payload ex_flow) (received ex_end) = [[]; []; bytes [1; 2; 3; 4]%Z; bytes [5; 6]%Z] ∧
  map length (received ex_end) = [44; 40; 44; 42].
Proof. by vm_compute. Qed.
Lemma ex_item_ok (o n : nat) seq ack window opts :
  o + n ≤ 4 → seq = seq_at 4294967290 o →
  item_ok 4294967290 ex_stream (ex_item seq ack false false window opts (take n (drop o ex_stream))).
Proof.
  intros Ho ->. left. exists o. split; [done|]. unfold item_next. cbn [item_payload ex_item item_tcp tcp_FIN].
  assert (length (take n (drop o ex_stream)) = n) as -> by (rewrite length_take, length_drop; simpl; lia).
  split_and!; done.
Qed.
Lemma tcp_stream_witness :
  ∃ s k, Val ex_end = Val s ∧ k ≤ length ex_stream ∧ written s `prefix_of` take k ex_stream ∧
    (done s = false →
     concat (map (packet_payload ex_flow) (received s ++ readPackets s ++ rpush (reader s))) = wasRead s).
Proof.
  destruct (tcp_stream ex_flow ex_settings ltac:(by split; [left| | | |]; vm_compute) ltac:(by vm_compute)
    4294967290 ex_stream ltac:(by vm_compute) ltac:(by vm_compute) (ex_ls 4294967290) (Val ex_end))
    as (s & k & E & Hk & Hw & _ & _ & Hd & _).
  - by vm_compute.
  - by vm_compute.
  - repeat (apply Forall_cons; split); try done.
    + intros _. split; [done|]. apply Forall_singleton. simpl. lia.
    + by apply (ex_item_ok 2 2); [lia|].
    + by apply (ex_item_ok 0 2); [lia|].
    + by apply (ex_item_ok 2 2); [lia|].
    + by apply (ex_item_ok 2 2); [lia|].
  - by vm_compute.
  - exists s, k. split_and!; assumption.
Defined.

(** Past the wrap of the sequence numbers the acks of the client are not taken:
    the reader waits for ever for a window that is open. *)
Definition ex_stuck : list tcp_label :=
  [ LSyn (ex_item 4294967294 0 true false 8 [] []); LConnected true;
    LRead (bytes [1; 2; 3; 4]%Z) ReadMore; LSegment; LCheck; LPushPacket false; LDeliver; LReadNext false;
    LItem (ex_item 4294967295 3 false false 8 [] []); LPush false; LSeq;
    LRead (bytes [1; 2; 3; 4; 5]%Z) ReadMore; LSegment ].
Example ack_past_wrap_ignored :
  tcp_steps ex_settings ex_stuck (NewTcpSequence ex_flow ex_settings) = None ∧
  is_Some (tcp_steps ex_settings (take 12 ex_stuck) (NewTcpSequence ex_flow ex_settings)).
Proof. split; [by vm_compute|eexists; by vm_compute]. Qed.
(** A SYN with a window scale option of five bytes ends the process. *)
Example long_window_scale_panics :
  tcp_steps ex_settings [LSyn (ex_item 7 0 true false 8 [(TCPOptionKindWindowScale, bytes [0; 0; 0; 0; 1]%Z)] [])]
    (NewTcpSequence ex_flow ex_settings) = Some (Panic "slice bounds out of range").
Proof. by vm_compute. Qed.
End TcpExample.
