(* ===== verification/UdpSequence.v ===== *)
(** * UDP sequences of a provider: UdpSequence of ip.go

    The datagrams of one flow of a client, through a socket of the provider.
    [UdpSequence.Run] is its main loop and three goroutines: the one that writes
    to the socket, the one that reads from it, and the one that calls the receive
    callback. A step is what happens between two points where another goroutine
    can run. The channel [sendItems] in front of [Run] and its idle close follow
    the discipline of PackChannel.v, and give [Run] any items here. *)

From S2P Require Import Prelude Util PackChannel Ip TcpSequence.
Open Scope go_scope.

(** ** The channel in front of a sequence *)
(** [UdpSequence.send] and [TcpSequence.send] with the deferred end of [Run],
    which closes the channel and drains it: the result of [send] until its
    select, if it returns there. It is [(false, nil)], no error, when the idle
    condition is closed. *)
Definition ip_send_enter {P} (sendItem : P) (timeout : Z) (s : PackChannel P)
    : option (bool * option string) * PackChannel P :=
  if pc_cancelled s then (Some (false, Some "Done."%string), s)
  else if negb (UpdateOpen (pc_idle s)).1 then (Some (false, None), s)
  else (None, (Pack_enter sendItem timeout false s).2).
Definition ip_send_step {P} (sequenceBufferSize : nat)
    : pc_label P → PackChannel P → option (outcome (PackChannel P)) := pc_step sequenceBufferSize true.

(** ** The sequence *)
Record UdpBufferSettings := mkUdpSettings {
  udp_Mtu : Z;
  udp_ReadBufferByteCount : nat;
  udp_SequenceBufferSize : nat;
  udp_UserLimit : Z
}.
(** The payload of the datagram is a part of the buffer of its packet. *)
Record UdpSendItem := mkUdpSendItem { usi_payload : list byte; usi_ipPacket : list byte }.
#[export] Instance UdpSendItem_eq_dec : EqDecision UdpSendItem.
Proof. solve_decision. Defined.

Inductive udp_main := UMDial | UMSelect | UMPush (item : UdpSendItem) | UMExit.
Inductive udp_writer :=
| UWOff
| UWIdle
| UWHave (item : UdpSendItem) (rest : list byte)   (** at the top of the loop over the payload *)
| UWWrite (item : UdpSendItem) (rest : list byte)
| UWDead.
Inductive udp_reader := UROff | URTop | URRead | URPush (packets : list (list byte)) (err : bool) | URExit | URGone.
Inductive udp_receiver := UVOff | UVLoop | UVGone.
#[export] Instance udp_writer_eq_dec : EqDecision udp_writer.
Proof. solve_decision. Defined.

Record UdpSequence := mkUdpSequence {
  us_main : udp_main;
  us_writePayloads : list UdpSendItem;
  us_writer : udp_writer;
  us_reader : udp_reader;
  us_readPackets : list (list byte);
  us_receiver : udp_receiver;
  us_cancelled : bool;
  us_taken : list UdpSendItem;          (** the items taken by the main loop *)
  us_returned : list UdpSendItem;       (** those whose packet went back to the pool *)
  us_written : list (list byte);        (** what each write gave to the socket, if anything *)
  us_short : bool;                      (** a write took a part of what it was given *)
  us_datagrams : list (list byte);      (** the datagrams read *)
  us_received : list (list byte);       (** the packets given to the receive callback *)
  us_lost : list (list byte)            (** the packets returned to the pool unseen *)
}.
Definition NewUdpSequence : UdpSequence :=
  mkUdpSequence UMDial [] UWOff UROff [] UVOff false [] [] [] false [] [] [].

Definition us_set_main m s := mkUdpSequence m (us_writePayloads s) (us_writer s) (us_reader s) (us_readPackets s)
  (us_receiver s) (us_cancelled s) (us_taken s) (us_returned s) (us_written s) (us_short s) (us_datagrams s) (us_received s) (us_lost s).
Definition us_set_writer wp w s := mkUdpSequence (us_main s) wp w (us_reader s) (us_readPackets s)
  (us_receiver s) (us_cancelled s) (us_taken s) (us_returned s) (us_written s) (us_short s) (us_datagrams s) (us_received s) (us_lost s).
Definition us_set_reader r q s := mkUdpSequence (us_main s) (us_writePayloads s) (us_writer s) r q
  (us_receiver s) (us_cancelled s) (us_taken s) (us_returned s) (us_written s) (us_short s) (us_datagrams s) (us_received s) (us_lost s).
Definition us_set_receiver v s := mkUdpSequence (us_main s) (us_writePayloads s) (us_writer s) (us_reader s) (us_readPackets s)
  v (us_cancelled s) (us_taken s) (us_returned s) (us_written s) (us_short s) (us_datagrams s) (us_received s) (us_lost s).
Definition us_cancel s := mkUdpSequence (us_main s) (us_writePayloads s) (us_writer s) (us_reader s) (us_readPackets s)
  (us_receiver s) true (us_taken s) (us_returned s) (us_written s) (us_short s) (us_datagrams s) (us_received s) (us_lost s).
Definition us_take i s := mkUdpSequence (us_main s) (us_writePayloads s) (us_writer s) (us_reader s) (us_readPackets s)
  (us_receiver s) (us_cancelled s) (us_taken s ++ [i]) (us_returned s) (us_written s) (us_short s) (us_datagrams s) (us_received s) (us_lost s).
Definition us_return i s := mkUdpSequence (us_main s) (us_writePayloads s) (us_writer s) (us_reader s) (us_readPackets s)
  (us_receiver s) (us_cancelled s) (us_taken s) (us_returned s ++ [i]) (us_written s) (us_short s) (us_datagrams s) (us_received s) (us_lost s).
Definition us_wrote b short s := mkUdpSequence (us_main s) (us_writePayloads s) (us_writer s) (us_reader s) (us_readPackets s)
  (us_receiver s) (us_cancelled s) (us_taken s) (us_returned s) (us_written s ++ b) (us_short s || short) (us_datagrams s) (us_received s) (us_lost s).
Definition us_read d s := mkUdpSequence (us_main s) (us_writePayloads s) (us_writer s) (us_reader s) (us_readPackets s)
  (us_receiver s) (us_cancelled s) (us_taken s) (us_returned s) (us_written s) (us_short s) (us_datagrams s ++ [d]) (us_received s) (us_lost s).
Definition us_receive p s := mkUdpSequence (us_main s) (us_writePayloads s) (us_writer s) (us_reader s) (us_readPackets s)
  (us_receiver s) (us_cancelled s) (us_taken s) (us_returned s) (us_written s) (us_short s) (us_datagrams s) (us_received s ++ [p]) (us_lost s).
Definition us_lose p s := mkUdpSequence (us_main s) (us_writePayloads s) (us_writer s) (us_reader s) (us_readPackets s)
  (us_receiver s) (us_cancelled s) (us_taken s) (us_returned s) (us_written s) (us_short s) (us_datagrams s) (us_received s) (us_lost s ++ [p]).

(** ** Steps *)
Inductive udp_label :=
| UDialed (ok : bool)
| UTake (item : UdpSendItem)
| UPush
| ULeave                          (** the main loop sees the end of the context, or has been idle *)
| UWriteTake
| UWriteCheck
| UWrite (n : nat) (err : bool)
| UWriteLeave
| UReadTop
| URead (b : list byte) (err : bool)
| UPushPacket (dropped : bool)
| UReadNext
| UReadEnd
| UDeliver
| UReceiveEnd
| UCancel.

Section Steps.
Context `{GoPacket} (f : Flow) (settings : UdpBufferSettings).

(** The main loop. *)
Definition udp_run_main (l : udp_label) (s : UdpSequence) : option (outcome UdpSequence) :=
  match l, us_main s with
  | UDialed ok, UMDial =>
      Some (Val (if (ok : bool)
                 then us_set_main UMSelect (us_set_writer (us_writePayloads s) UWIdle
                        (us_set_reader URTop (us_readPackets s) (us_set_receiver UVLoop s)))
                 else us_cancel (us_set_main UMExit s)))
  | UTake i, UMSelect =>
      let s := us_take i s in
      Some (Val (if 0 <? length (usi_payload i) then us_set_main (UMPush i) s else us_return i s))
  | UPush, UMPush i =>
      if has_room (udp_SequenceBufferSize settings) (us_writePayloads s)
      then Some (Val (us_set_main UMSelect (us_set_writer (us_writePayloads s ++ [i]) (us_writer s) s)))
      else None
  | ULeave, UMSelect => Some (Val (us_cancel (us_set_main UMExit s)))
  | ULeave, UMPush i =>
      if us_cancelled s then Some (Val (us_set_main UMExit (us_return i s))) else None
  | _, _ => None
  end.
(** The writer of the socket. *)
Definition udp_run_writer (l : udp_label) (s : UdpSequence) : option (outcome UdpSequence) :=
  match l, us_writer s with
  | UWriteTake, UWIdle =>
      match us_writePayloads s with
      | i :: q => Some (Val (us_set_writer q (UWHave i (usi_payload i)) s))
      | [] => None
      end
  | UWriteCheck, UWHave i rest =>
      Some (Val (match rest with
                 | [] => us_return i (us_set_writer (us_writePayloads s) UWIdle s)
                 | _ => if us_cancelled s then us_cancel (us_return i (us_set_writer (us_writePayloads s) UWDead s))
                        else us_set_writer (us_writePayloads s) (UWWrite i rest) s
                 end))
  | UWrite n err, UWWrite i rest =>
      if (n <=? length rest) && ((0 <? n) || err) then
        let s1 := us_wrote (if 0 <? n then [take n rest] else []) ((0 <? n) && (n <? length rest)) s in
        Some (Val (if err then us_cancel (us_return i (us_set_writer (us_writePayloads s) UWDead s1))
                   else us_set_writer (us_writePayloads s) (UWHave i (drop n rest)) s1))
      else None
  | UWriteLeave, UWIdle =>
      if us_cancelled s then Some (Val (us_set_writer (us_writePayloads s) UWDead s)) else None
  | _, _ => None
  end.
(** The reader of the socket. *)
Definition udp_run_reader (l : udp_label) (s : UdpSequence) : option (outcome UdpSequence) :=
  match l, us_reader s with
  | UReadTop, URTop => Some (Val (us_set_reader (if us_cancelled s then URExit else URRead) (us_readPackets s) s))
  | URead b err, URRead =>
      if length b <=? udp_ReadBufferByteCount settings then
        if 0 <? length b then
          match StreamState_DataPackets f b (udp_Mtu settings) with
          | Val ps => Some (Val (us_read b (us_set_reader (URPush ps err) (us_readPackets s) s)))
          | Err _ => Some (Val (us_set_reader URExit (us_readPackets s) s))
          | Panic e => Some (Panic e)
          end
        else Some (Val (us_set_reader (URPush [] err) (us_readPackets s) s))
      else None
  | UPushPacket dropped, URPush (p :: ps) err =>
      if (dropped : bool) then
        if us_cancelled s then Some (Val (us_lose p (us_set_reader (URPush ps err) (us_readPackets s) s))) else None
      else if has_room (udp_SequenceBufferSize settings) (us_readPackets s)
      then Some (Val (us_set_reader (URPush ps err) (us_readPackets s ++ [p]) s))
      else None
  | UReadNext, URPush [] err => Some (Val (us_set_reader (if err then URExit else URTop) (us_readPackets s) s))
  | UReadEnd, URExit => Some (Val (us_cancel (us_set_reader URGone (us_readPackets s) s)))
  | _, _ => None
  end.
(** The goroutine that calls the receive callback; once the context is done it
    goes on in its deferred function until the reader has closed the channel. *)
Definition udp_run_receiver (l : udp_label) (s : UdpSequence) : option (outcome UdpSequence) :=
  match l, us_receiver s, us_readPackets s with
  | UDeliver, UVLoop, p :: q => Some (Val (us_receive p (us_set_reader (us_reader s) q s)))
  | UReceiveEnd, UVLoop, [] =>
      match us_reader s with
      | URGone => Some (Val (us_cancel (us_set_receiver UVGone s)))
      | _ => None
      end
  | _, _, _ => None
  end.
Definition udp_step (l : udp_label) (s : UdpSequence) : option (outcome UdpSequence) :=
  match l with
  | UDialed _ | UTake _ | UPush | ULeave => udp_run_main l s
  | UWriteTake | UWriteCheck | UWrite _ _ | UWriteLeave => udp_run_writer l s
  | UReadTop | URead _ _ | UPushPacket _ | UReadNext | UReadEnd => udp_run_reader l s
  | UDeliver | UReceiveEnd => udp_run_receiver l s
  | UCancel => Some (Val (us_cancel s))
  end.
Fixpoint udp_steps (ls : list udp_label) (s : UdpSequence) : option (outcome UdpSequence) :=
  match ls with
  | [] => Some (Val s)
  | l :: ls =>
      match udp_step l s with
      | Some (Val s') => udp_steps ls s'
      | r => r
      end
  end.
End Steps.

(** ** Replies *)
Section Proofs.
Context `{GP : GoPacket} {GPL : GoPacketLaws GP}.
Context (f : Flow) (settings : UdpBufferSettings).
Definition udp_header_size : Z := (ip_header_size (fl_ipVersion f) + UdpHeaderSize)%Z.
Context (Hf : flow_ok f) (Hmtu : (udp_header_size < udp_Mtu settings < 65000)%Z).

(** [b] is a UDP packet from the destination of the flow back to its source, as
    the parser of the other side reads it. *)
Definition udp_packet_is (b payload : list byte) : Prop :=
  ParseIpPathWithPayload b =
    Val (flow_path (fl_ipVersion f) IpProtocolUdp (fl_destinationIp f) (fl_destinationPort f)
           (fl_sourceIp f) (fl_sourcePort f), payload) ∧
  Z.of_nat (length b) = (udp_header_size + Z.of_nat (length payload))%Z.
Definition reply_packet (payload : list byte) : outcome (list byte) :=
  let! ip := reply_ip f IPProtocolUDP in
  serializeUDP ip (mkUdpLayer (fl_destinationPort f) (fl_sourcePort f)) payload.
Lemma reply_packet_ok payload :
  (Z.of_nat (length payload) < 65000)%Z → ∃ b, reply_packet payload = Val b ∧ udp_packet_is b payload.
Proof.
  intros Hl. unfold reply_packet, reply_ip.
  assert ((fl_ipVersion f =? 4)%Z || (fl_ipVersion f =? 6)%Z = true) as ->.
  { destruct (fo_version _ Hf) as [-> | ->]; done. }
  cbn [obind]. set (ip := mkIpLayer _ _ _ _ _). set (udp := mkUdpLayer _ _).
  assert (ip_layer_ok ip IPProtocolUDP) as Hip.
  { split; cbn; try apply Hf; [|done]. unfold is_u8. lia. }
  assert (udp_layer_ok udp) as Hudp by (split; cbn; apply Hf).
  destruct (udp_packet ip udp payload Hip Hudp Hl) as (b & l & -> & Ev & Hb & Ed & Eu).
  exists b. split; [done|]. split; [|exact Hb].
  unfold ParseIpPathWithPayload. rewrite Ev. cbn [obind]. unfold decodeIP in Ed. cbn [ip_Version ip] in *.
  assert (parse_transport (fl_ipVersion f) ip l =
    Val (flow_path (fl_ipVersion f) IpProtocolUdp (fl_destinationIp f) (fl_destinationPort f)
           (fl_sourceIp f) (fl_sourcePort f), payload)) as Et.
  { unfold parse_transport, ip. cbn [ip_Protocol IPProtocolTCP IPProtocolUDP Z.eqb Pos.eqb]. by rewrite Eu. }
  destruct (fo_version _ Hf) as [Hv|Hv]; rewrite Hv in Ed, Et |- *; cbn [Z.eqb Pos.eqb] in Ed |- *; by rewrite Ed, Et.
Qed.

(** The pieces of a datagram. *)
Lemma udp_pieces payload :
  ∃ ps, split_payload udp_header_size (udp_Mtu settings) payload = Val ps ∧ concat (map snd ps) = payload ∧
    (∀ o p, (o, p) ∈ ps → (udp_header_size + Z.of_nat (length p) ≤ udp_Mtu settings)%Z) ∧
    ((udp_header_size + Z.of_nat (length payload) ≤ udp_Mtu settings)%Z ↔ length ps = 1).
Proof.
  unfold split_payload. case_bool.
  - exists [(0, payload)]. split_and!; [done|apply app_nil_r| |done].
    intros o p Hx%list_elem_of_singleton. by injection Hx as -> ->.
  - destruct (pieces_ok (udp_Mtu settings - udp_header_size) payload 0 (length payload)) as (ps & E & Ec & Hps); [lia|lia|].
    exists ps. split_and!; [done..| |].
    + intros o p Hx. destruct (Hps o p Hx) as (_ & ? & _). lia.
    + split; [lia|]. intros Hl. destruct ps as [|[o p] [|? ?]]; try done. simpl in Ec. rewrite app_nil_r in Ec. subst p.
      destruct (Hps o payload) as (_ & ? & _); [apply list_elem_of_here|]. lia.
Qed.
Lemma udp_reply_packets payload :
  ∃ ps pays, StreamState_DataPackets f payload (udp_Mtu settings) = Val ps ∧ concat pays = payload ∧
    Forall2 udp_packet_is ps pays ∧ Forall (λ p, (Z.of_nat (length p) ≤ udp_Mtu settings)%Z) ps ∧
    ((udp_header_size + Z.of_nat (length payload) ≤ udp_Mtu settings)%Z ↔ length ps = 1).
Proof.
  destruct (udp_pieces payload) as (qs & E & Ec & Hqs & Hone).
  unfold StreamState_DataPackets. fold udp_header_size. rewrite E. cbn [obind].
  destruct (map_outcome_Val (λ x : nat * list byte, reply_packet x.2) (λ x b, udp_packet_is b x.2) qs) as (ps & Em & Hps).
  { intros [o p] Hx. apply reply_packet_ok. cbn [snd]. specialize (Hqs o p Hx).
    unfold udp_header_size, ip_header_size, Ipv4HeaderSizeWithoutExtensions, Ipv6HeaderSize, UdpHeaderSize in *.
    repeat case_match; lia. }
  assert (reply_ip f IPProtocolUDP = Val (mkIpLayer (fl_ipVersion f) 64 (fl_destinationIp f) (fl_sourceIp f) IPProtocolUDP)) as Er.
  { unfold reply_ip. by destruct (fo_version _ Hf) as [-> | ->]. }
  rewrite Er. cbn [obind]. unfold reply_packet in Em. rewrite Er in Em. cbn [obind] in Em.
  exists ps, (map snd qs). split_and!.
  - rewrite <-Em. clear. induction qs as [|[o p] qs IH]; [done|]. cbn [map_outcome]. by rewrite IH.
  - done.
  - apply Forall2_flip. clear -Hps. induction Hps; simpl; by constructor.
  - apply Forall_forall. intros b Hb. apply list_elem_of_lookup in Hb as [i Hb].
    destruct (Forall2_lookup_r _ _ _ _ _ Hps Hb) as ([o q] & Hq & _ & Hlen). cbn [snd] in Hlen.
    specialize (Hqs o q (list_elem_of_lookup_2 _ _ _ Hq)). lia.
  - rewrite Hone. by rewrite (Forall2_length _ _ _ Hps).
Qed.
End Proofs.

(** ** The invariant *)
Section Invariant.
Context `{GP : GoPacket} {GPL : GoPacketLaws GP}.
Context (f : Flow) (settings : UdpBufferSettings).
Context (Hf : flow_ok f) (Hmtu : (udp_header_size f < udp_Mtu settings < 65000)%Z).

(** The datagrams that the client sent, without the empty ones. *)
Definition sent_payloads (items : list UdpSendItem) : list (list byte) :=
  List.filter (λ p, 0 <? length p) (map usi_payload items).
Lemma sent_payloads_app l l' : sent_payloads (l ++ l') = sent_payloads l ++ sent_payloads l'.
Proof. unfold sent_payloads. by rewrite map_app, List.filter_app. Qed.
Definition main_items (m : udp_main) : list UdpSendItem := match m with UMPush i => [i] | _ => [] end.
Definition writer_items (w : udp_writer) : list UdpSendItem :=
  match w with UWHave i _ | UWWrite i _ => [i] | _ => [] end.
Definition reader_packets (r : udp_reader) : list (list byte) := match r with URPush ps _ => ps | _ => [] end.
(** The packets of the datagrams read. *)
Definition packets_of (datagrams : list (list byte)) (pss : list (list (list byte))) : Prop :=
  Forall2 (λ d ps, StreamState_DataPackets f d (udp_Mtu settings) = Val ps) datagrams pss.

(** What was written against the payloads that the writer is through with. *)
Definition writing_ok (w : udp_writer) (short : bool) (written through all : list (list byte)) : Prop :=
  match w with
  | UWOff | UWIdle => concat written = concat through ∧ (short = false → written = through)
  | UWHave i rest | UWWrite i rest => ∃ got, usi_payload i = got ++ rest ∧
      concat written = concat through ++ got ∧
      (short = false → (rest = usi_payload i ∧ written = through) ∨ (rest = [] ∧ written = through ++ [usi_payload i]))
  | UWDead => concat written `prefix_of` concat all ∧ (short = false → written `prefix_of` all)
  end.
Record udp_inv (s : UdpSequence) : Prop := {
  ui_items : us_taken s ≡ₚ us_returned s ++ us_writePayloads s ++ main_items (us_main s) ++ writer_items (us_writer s);
  ui_queue : Forall (λ i, 0 < length (usi_payload i)) (us_writePayloads s ++ main_items (us_main s) ++ writer_items (us_writer s));
  ui_order : us_writer s ≠ UWDead → ∃ through tail,
    sent_payloads (us_taken s) = through ++ map usi_payload (writer_items (us_writer s) ++ us_writePayloads s) ++ tail ∧
    (us_main s ≠ UMExit → tail = map usi_payload (main_items (us_main s))) ∧
    writing_ok (us_writer s) (us_short s) (us_written s) through (sent_payloads (us_taken s));
  ui_dead : us_writer s = UWDead →
    writing_ok UWDead (us_short s) (us_written s) [] (sent_payloads (us_taken s));
  ui_packets : ∃ pss, packets_of (us_datagrams s) pss ∧
    (us_received s ++ us_readPackets s ++ reader_packets (us_reader s)) `sublist_of` concat pss ∧
    concat pss ≡ₚ us_received s ++ us_readPackets s ++ reader_packets (us_reader s) ++ us_lost s;
  ui_lost : us_lost s ≠ [] → us_cancelled s = true;
  ui_dial : us_main s = UMDial → us_writer s = UWOff;
  ui_off : us_writer s = UWOff →
    us_reader s = UROff ∧ us_receiver s = UVOff ∧ us_writePayloads s = [] ∧ us_readPackets s = [] ∧
    us_taken s = [] ∧ us_written s = [] ∧ (us_main s = UMDial ∨ us_main s = UMExit);
  ui_started : us_writer s ≠ UWOff → us_reader s ≠ UROff ∧ us_receiver s ≠ UVOff;
  ui_exit : us_main s = UMExit ∨ us_writer s = UWDead ∨ us_reader s = URGone ∨ us_receiver s = UVGone → us_cancelled s = true;
  ui_gone : us_receiver s = UVGone → us_reader s = URGone ∧ us_readPackets s = []
}.
Lemma new_udp_inv : udp_inv NewUdpSequence.
Proof.
  split; simpl; try done; try naive_solver.
  - intros _. by exists [], [].
  - exists []. split; [constructor|done].
Qed.
Lemma writing_dead w short written through rest all :
  all = through ++ map usi_payload (writer_items w) ++ rest → w ≠ UWDead →
  writing_ok w short written through all → writing_ok UWDead short written [] all.
Proof.
  intros -> Hw. destruct w as [| |i r|i r|]; simpl; [..|done].
  1,2: intros [H1 H2]; split; [rewrite H1, concat_app; by eexists|]; intros Hs; rewrite (H2 Hs); by eexists.
  1,2: intros (got & E & H1 & H2); split;
    [rewrite H1, concat_app; apply prefix_app; simpl; rewrite E, <-app_assoc; by eexists|];
    intros Hs; destruct (H2 Hs) as [[_ ->]|[_ ->]]; [by eexists|apply prefix_app; by eexists].
Qed.
Lemma udp_cancel_inv s : udp_inv s → udp_inv (us_cancel s).
Proof. intros []. split; try done. Qed.
(** The reader and the receiver only touch their own part. *)
Lemma reader_inv s s' :
  udp_inv s →
  us_main s' = us_main s → us_writePayloads s' = us_writePayloads s → us_writer s' = us_writer s →
  us_taken s' = us_taken s → us_returned s' = us_returned s → us_written s' = us_written s → us_short s' = us_short s →
  us_writer s ≠ UWOff → (us_cancelled s = true → us_cancelled s' = true) →
  us_reader s' ≠ UROff → us_receiver s' ≠ UVOff →
  (∃ pss, packets_of (us_datagrams s') pss ∧
    (us_received s' ++ us_readPackets s' ++ reader_packets (us_reader s')) `sublist_of` concat pss ∧
    concat pss ≡ₚ us_received s' ++ us_readPackets s' ++ reader_packets (us_reader s') ++ us_lost s') →
  (us_lost s' ≠ [] → us_cancelled s' = true) →
  (us_reader s' = URGone ∨ us_receiver s' = UVGone → us_cancelled s' = true) →
  (us_receiver s' = UVGone → us_reader s' = URGone ∧ us_readPackets s' = []) → udp_inv s'.
Proof.
  intros [] E1 E2 E3 E4 E5 E6 E7 Hw Hc Hr Hv Hp Hl Hx Hg. split; rewrite ?E1, ?E2, ?E3, ?E4, ?E5, ?E6, ?E7; try done.
  intros [?|[?|?]]; [| |by apply Hx]; apply Hc; naive_solver.
Qed.
Lemma packets_push s p q :
  (∃ pss, packets_of (us_datagrams s) pss ∧ (us_received s ++ us_readPackets s ++ p :: q) `sublist_of` concat pss ∧
    concat pss ≡ₚ us_received s ++ us_readPackets s ++ (p :: q) ++ us_lost s) →
  (∃ pss, packets_of (us_datagrams s) pss ∧ (us_received s ++ (us_readPackets s ++ [p]) ++ q) `sublist_of` concat pss ∧
    concat pss ≡ₚ us_received s ++ (us_readPackets s ++ [p]) ++ q ++ us_lost s).
Proof. intros (pss & H1 & H2 & H3). exists pss. by rewrite <-!(app_assoc (us_readPackets s)). Qed.
Lemma udp_reader_step_inv l s r :
  udp_inv s → udp_run_reader f settings l s = Some r → ∃ s', r = Val s' ∧ udp_inv s'.
Proof.
  intros Hs E. pose proof (ui_packets _ Hs) as Hp. pose proof (ui_lost _ Hs) as Hl. pose proof (ui_exit _ Hs) as Hx.
  pose proof (ui_gone _ Hs) as Hg. pose proof (ui_off _ Hs) as Ho. pose proof (ui_started _ Hs) as Hst.
  assert (us_reader s ≠ UROff → us_writer s ≠ UWOff) as Hon by naive_solver.
  unfold udp_run_reader in E; destruct l as [| | | | | | | | |b err|dropped| | | | |]; try done;
    destruct (us_reader s) as [| | |[|p ps] err'| |] eqn:Er; try done; cbn match in E; destruct (Hst (Hon ltac:(done))) as [_ Hv].
  - injection E as <-. eexists. split; [done|]. apply (reader_inv s); try done; simpl; rewrite ?Er; auto;
      try (by case_match); case_match; simpl; naive_solver.
  - destruct (_ <=? _); [|done]. destruct (0 <? length b) eqn:Elb.
    + destruct (udp_reply_packets f settings Hf Hmtu b) as (ps & pays & Eb & _).
      rewrite Eb in E. injection E as <-. eexists. split; [done|]. apply (reader_inv s); try done; simpl; auto; [|naive_solver..].
      destruct Hp as (pss & H1 & H2 & H3). exists (pss ++ [ps]).
      assert (concat (pss ++ [ps]) = concat pss ++ ps) as -> by (by rewrite concat_app; simpl; rewrite app_nil_r).
      simpl in H2, H3. rewrite app_nil_r in H2. split_and!.
      * apply Forall2_app; [done|]. by constructor.
      * rewrite (app_assoc (us_received s)). by apply sublist_app.
      * rewrite H3. solve_Permutation.
    + injection E as <-. eexists. split; [done|]. by apply (reader_inv s); simpl; rewrite ?Er; auto; naive_solver.
  - destruct dropped.
    + destruct (us_cancelled s) eqn:Ec; [|done]. injection E as <-. eexists. split; [done|].
      apply (reader_inv s); simpl; rewrite ?Er; auto; [|naive_solver].
      destruct Hp as (pss & H1 & H2 & H3). exists pss. split_and!; [done| |].
      * etrans; [|exact H2]. apply sublist_app; [done|]. apply sublist_app; [done|]. simpl. by apply sublist_cons.
      * rewrite H3. simpl. solve_Permutation.
    + case_match; [|done]. injection E as <-. eexists. split; [done|]. simpl.
      apply (reader_inv s); simpl; rewrite ?Er; auto; [by apply packets_push|naive_solver..].
  - injection E as <-. eexists. split; [done|]. apply (reader_inv s); try done; simpl; rewrite ?Er; auto;
      try (by case_match); case_match; simpl; naive_solver.
  - injection E as <-. eexists. split; [done|]. apply (reader_inv s); try done; simpl; rewrite ?Er; auto. naive_solver.
Qed.
Lemma udp_receiver_step_inv l s r :
  udp_inv s → udp_run_receiver l s = Some r → ∃ s', r = Val s' ∧ udp_inv s'.
Proof.
  intros Hs E. pose proof (ui_packets _ Hs) as Hp. pose proof (ui_lost _ Hs) as Hl. pose proof (ui_exit _ Hs) as Hx.
  pose proof (ui_off _ Hs) as Ho. pose proof (ui_started _ Hs) as Hst.
  assert (us_receiver s ≠ UVOff → us_writer s ≠ UWOff) as Hon by naive_solver.
  destruct l; simpl in E; try done; destruct (us_receiver s) eqn:Ev; try done;
    destruct (us_readPackets s) as [|p q] eqn:Eq; try done; destruct (Hst (Hon ltac:(done))) as [Hr _].
  - injection E as <-. eexists. split; [done|]. apply (reader_inv s); simpl; rewrite ?Ev; auto; [|done].
    destruct Hp as (pss & H1 & H2 & H3). exists pss. rewrite <-!app_assoc. by split_and!.
  - destruct (us_reader s) eqn:Er; try done. injection E as <-. eexists. split; [done|].
    apply (reader_inv s); simpl; rewrite ?Er, ?Eq; auto.
Qed.
(** The main loop. *)
Lemma writing_more w short written through all more :
  writing_ok w short written through all → writing_ok w short written through (all ++ more).
Proof.
  destruct w; simpl; try done. intros [H1 H2]. split.
  - rewrite concat_app. by apply prefix_app_r.
  - intros Hs. by apply prefix_app_r, H2.
Qed.
Lemma main_inv s s' :
  udp_inv s →
  us_writer s' = us_writer s → us_reader s' = us_reader s → us_readPackets s' = us_readPackets s →
  us_receiver s' = us_receiver s → us_datagrams s' = us_datagrams s → us_received s' = us_received s →
  us_lost s' = us_lost s → us_writer s ≠ UWOff → (us_cancelled s = true → us_cancelled s' = true) →
  us_main s' ≠ UMDial → (us_main s' = UMExit → us_cancelled s' = true) →
  us_taken s' ≡ₚ us_returned s' ++ us_writePayloads s' ++ main_items (us_main s') ++ writer_items (us_writer s) →
  Forall (λ i, 0 < length (usi_payload i)) (us_writePayloads s' ++ main_items (us_main s') ++ writer_items (us_writer s)) →
  (us_writer s ≠ UWDead → ∃ through tail,
    sent_payloads (us_taken s') = through ++ map usi_payload (writer_items (us_writer s) ++ us_writePayloads s') ++ tail ∧
    (us_main s' ≠ UMExit → tail = map usi_payload (main_items (us_main s'))) ∧
    writing_ok (us_writer s) (us_short s') (us_written s') through (sent_payloads (us_taken s'))) →
  (us_writer s = UWDead → writing_ok UWDead (us_short s') (us_written s') [] (sent_payloads (us_taken s'))) → udp_inv s'.
Proof.
  intros [I Q O D P L DI OF ST X G] E1 E2 E3 E4 E5 E6 E7 Hw Hc Hm Hx HI HQ HO HD.
  split; rewrite ?E1, ?E2, ?E3, ?E4, ?E5, ?E6, ?E7; try done; [auto|].
  intros [?|Hr]; [auto|]. apply Hc, X. by right.
Qed.
Lemma udp_main_step_inv l s r :
  udp_inv s → udp_run_main settings l s = Some r → ∃ s', r = Val s' ∧ udp_inv s'.
Proof.
  intros Hs E. pose proof Hs as [I Q O D P L DI OF ST X G].
  unfold udp_run_main in E. destruct l as [ok|i| | | | | | | | | | | | | |]; try done;
    destruct (us_main s) as [| |j|] eqn:Em; try done; cbn match in E.
  - injection E as <-. eexists. split; [done|]. specialize (DI eq_refl).
    rewrite DI in I, Q, O. destruct (OF DI) as (R1 & R2 & R3 & R4 & R5 & R6 & _).
    rewrite R1 in P, X. rewrite R2 in X. rewrite R3, R4 in *.
    destruct ok; split; simpl; rewrite ?DI, ?R1, ?R2, ?R3, ?R4; try done; try tauto.
    + intros _. rewrite R5, R6. by exists [], [].
    + by intros [?|[?|[?|?]]].
    + intros _. rewrite R5, R6. by exists [], [].
  - injection E as <-. eexists. split; [done|]. assert (us_writer s ≠ UWOff) as Hw.
    { intros Hw. destruct (OF Hw) as (_ & _ & _ & _ & _ & _ & [?|?]); congruence. }
    assert (∀ l, us_taken s ++ l ≡ₚ (us_returned s ++ us_writePayloads s ++ writer_items (us_writer s)) ++ l) as I'.
    { intros l. by rewrite I. }
    destruct (0 <? length (usi_payload i)) eqn:El.
    + apply Nat.ltb_lt in El.
      assert (sent_payloads (us_taken s ++ [i]) = sent_payloads (us_taken s) ++ [usi_payload i]) as Esent.
      { rewrite sent_payloads_app. unfold sent_payloads at 2. simpl. by destruct (usi_payload i); [simpl in El; lia|]. }
      apply (main_inv s); simpl; rewrite ?Esent; try done.
      * rewrite I'. simpl. solve_Permutation.
      * simpl in Q. rewrite !Forall_app, ?Forall_cons in *. tauto.
      * intros Hd. destruct (O Hd) as (th & tl & E1 & E2 & E3). exists th, [usi_payload i].
        split_and!; [|done|by apply writing_more].
        rewrite E1, (E2 ltac:(done)). simpl. by rewrite app_nil_r, <-app_assoc.
      * intros Hd. exact (writing_more UWDead _ _ [] _ _ (D Hd)).
    + assert (sent_payloads (us_taken s ++ [i]) = sent_payloads (us_taken s)) as Esent.
      { rewrite sent_payloads_app. unfold sent_payloads at 2. simpl. destruct (usi_payload i); [|done]. simpl. apply app_nil_r. }
      apply (main_inv s); simpl; rewrite ?Em, ?Esent; try done.
      rewrite I'. simpl. solve_Permutation.
  - destruct (has_room _ _); [|done]. injection E as <-. eexists. split; [done|]. assert (us_writer s ≠ UWOff) as Hw.
    { intros Hw. destruct (OF Hw) as (_ & _ & _ & _ & _ & _ & [?|?]); congruence. }
    apply (main_inv s); simpl; try done.
    + rewrite I. simpl. solve_Permutation.
    + simpl in Q. rewrite <-app_assoc. exact Q.
    + intros Hd. destruct (O Hd) as (th & tl & E1 & E2 & E3). exists th, []. split_and!; [|done..].
      rewrite E1, (E2 ltac:(done)). simpl. rewrite !map_app, app_nil_r, <-!app_assoc. done.
  - injection E as <-. eexists. split; [done|]. assert (us_writer s ≠ UWOff) as Hw.
    { intros Hw. destruct (OF Hw) as (_ & _ & _ & _ & _ & _ & [?|?]); congruence. }
    apply (main_inv s); simpl; try done. intros Hd. destruct (O Hd) as (th & tl & E1 & E2 & E3). by exists th, tl.
  - destruct (us_cancelled s) eqn:Ec; [|done]. injection E as <-. eexists. split; [done|]. assert (us_writer s ≠ UWOff) as Hw.
    { intros Hw. destruct (OF Hw) as (_ & _ & _ & _ & _ & _ & [?|?]); congruence. }
    apply (main_inv s); simpl; rewrite ?Ec; try done.
    + rewrite I. simpl. solve_Permutation.
    + simpl in Q. rewrite !Forall_app, ?Forall_cons in *. tauto.
    + intros Hd. destruct (O Hd) as (th & tl & E1 & E2 & E3). by exists th, tl.
Qed.
(** The writer. *)
Lemma writer_inv s s' :
  udp_inv s →
  us_main s' = us_main s → us_reader s' = us_reader s → us_readPackets s' = us_readPackets s →
  us_receiver s' = us_receiver s → us_datagrams s' = us_datagrams s → us_received s' = us_received s →
  us_lost s' = us_lost s → us_taken s' = us_taken s →
  us_writer s ≠ UWOff → us_writer s' ≠ UWOff → (us_cancelled s = true → us_cancelled s' = true) →
  (us_writer s' = UWDead → us_cancelled s' = true) →
  us_returned s' ++ us_writePayloads s' ++ main_items (us_main s) ++ writer_items (us_writer s') ≡ₚ
    us_returned s ++ us_writePayloads s ++ main_items (us_main s) ++ writer_items (us_writer s) →
  (∀ i, i ∈ us_writePayloads s' ++ writer_items (us_writer s') → i ∈ us_writePayloads s ++ writer_items (us_writer s)) →
  (us_writer s' ≠ UWDead → us_writer s ≠ UWDead ∧ ∀ through tail,
    sent_payloads (us_taken s) = through ++ map usi_payload (writer_items (us_writer s) ++ us_writePayloads s) ++ tail →
    writing_ok (us_writer s) (us_short s) (us_written s) through (sent_payloads (us_taken s)) →
    ∃ through', sent_payloads (us_taken s) = through' ++ map usi_payload (writer_items (us_writer s') ++ us_writePayloads s') ++ tail ∧
      writing_ok (us_writer s') (us_short s') (us_written s') through' (sent_payloads (us_taken s))) →
  (us_writer s' = UWDead → writing_ok UWDead (us_short s') (us_written s') [] (sent_payloads (us_taken s))) → udp_inv s'.
Proof.
  intros [I Q O D P L DI OF ST X G] E1 E2 E3 E4 E5 E6 E7 E8 Hw Hw' Hc Hd HI HQ HO HD.
  split; rewrite ?E1, ?E2, ?E3, ?E4, ?E5, ?E6, ?E7, ?E8; try done; try auto.
  - by rewrite HI.
  - apply Forall_forall. intros i Hi. rewrite Forall_forall in Q. apply Q. rewrite !elem_of_app in Hi |- *.
    destruct Hi as [Hi|[Hi|Hi]]; [|by right; left|]; (assert (i ∈ us_writePayloads s ++ writer_items (us_writer s)) as [?|?]%elem_of_app
      by (apply HQ, elem_of_app; tauto)); [by left|by right; right|by left|by right; right].
  - intros Hn. destruct (HO Hn) as [Hs HO']. destruct (O Hs) as (th & tl & F1 & F2 & F3).
    destruct (HO' th tl F1 F3) as (th' & ? & ?). by exists th', tl.
  - by intros ?%DI.
  - intros [?|[?|?]]; [|by apply Hd|]; apply Hc, X; [by left|by right; right].
Qed.
Lemma dead_from s : udp_inv s → us_writer s ≠ UWDead →
  writing_ok UWDead (us_short s) (us_written s) [] (sent_payloads (us_taken s)).
Proof.
  intros Hs Hd. destruct (ui_order _ Hs Hd) as (th & tl & E1 & _ & E3).
  rewrite map_app, <-app_assoc in E1. by eapply writing_dead.
Qed.
Lemma udp_writer_step_inv l s r :
  udp_inv s → udp_run_writer l s = Some r → ∃ s', r = Val s' ∧ udp_inv s'.
Proof.
  intros Hs E. pose proof (ui_queue _ Hs) as Q.
  unfold udp_run_writer in E. destruct l as [| | | | | |n err| | | | | | | | |]; try done;
    destruct (us_writer s) as [| |i rest|i rest|] eqn:Ew; try done; cbn match in E.
  - destruct (us_writePayloads s) as [|i q] eqn:Eq; [done|]. injection E as <-. eexists. split; [done|].
    apply (writer_inv s); simpl; rewrite ?Ew, ?Eq; try done; [solve_Permutation|set_solver|].
    intros _. split; [done|]. intros th tl E1 [H1 H2]. exists th. split; [by rewrite E1|]. exists [].
    rewrite app_nil_r. split_and!; [done..|]. auto.
  - destruct rest as [|x rest'] eqn:Erest.
    + injection E as <-. eexists. split; [done|].
      apply (writer_inv s); simpl; rewrite ?Ew; try done; [solve_Permutation|set_solver|].
      intros _. split; [done|]. intros th tl E1 (got & H1 & H2 & H3). exists (th ++ [usi_payload i]).
      rewrite E1. split; [by rewrite <-app_assoc|]. rewrite app_nil_r in H1. subst got. rewrite H2, concat_app. simpl.
      rewrite app_nil_r. split; [done|]. intros Hsh. destruct (H3 Hsh) as [[Ep _]|[_ ?]]; [|done].
      simpl in Q. rewrite !Forall_app, Forall_cons in Q. destruct Q as (_ & _ & Q & _). rewrite <-Ep in Q. simpl in Q. lia.
    + destruct (us_cancelled s) eqn:Ec; injection E as <-; (eexists; split; [done|]).
      * apply (writer_inv s); simpl; rewrite ?Ew; try done; [solve_Permutation|set_solver|].
        intros _. apply dead_from; [done|]. by rewrite Ew.
      * apply (writer_inv s); simpl; rewrite ?Ew, ?Ec; try done.
        intros _. split; [done|]. intros th tl E1 H1. by exists th.
  - destruct ((n <=? length rest) && _) eqn:En; [|done]. apply andb_true_iff in En as [En%Nat.leb_le En2].
    destruct (ui_order _ Hs ltac:(by rewrite Ew)) as (th & tl & E1 & _ & E3). rewrite Ew in E1, E3.
    destruct E3 as (got & H1 & H2 & H3).
    assert (concat (if 0 <? n then [take n rest] else []) = take n rest) as Hcat.
    { destruct n; [done|]. simpl. apply app_nil_r. }
    assert (us_short (us_wrote (if 0 <? n then [take n rest] else []) ((0 <? n) && (n <? length rest)) s) = false →
      n = 0 ∨ (n = length rest ∧ rest = usi_payload i ∧ us_written s = th)) as Hshort.
    { simpl. intros [Hs1 Hs2]%orb_false_iff. destruct n as [|n]; [by left|]. right.
      apply andb_false_iff in Hs2 as [?|Hs2%Nat.ltb_ge]; [done|].
      destruct (H3 Hs1) as [[? ?]|[-> _]]; [|simpl in *; lia]. split_and!; [lia|done..]. }
    destruct err; injection E as <-; (eexists; split; [done|]).
    + apply (writer_inv s); simpl; rewrite ?Ew; try done; [solve_Permutation|set_solver|].
      intros _. split.
      * rewrite concat_app, Hcat, H2, E1, concat_app, <-app_assoc. apply prefix_app. simpl.
        rewrite H1, <-app_assoc. apply prefix_app. rewrite <-(take_drop n rest) at 2. rewrite <-app_assoc. by eexists.
      * intros Hsh. destruct (Hshort Hsh) as [->|(-> & Er & ->)].
        { simpl. rewrite app_nil_r. apply (dead_from s Hs); [by rewrite Ew|]. simpl in Hsh. by rewrite orb_false_r in Hsh. }
        rewrite E1. apply prefix_app. rewrite take_ge, Er by lia. destruct (0 <? length (usi_payload i)); [|apply prefix_nil]. simpl. apply prefix_cons, prefix_nil.
    + destruct n as [|n]; [done|]. apply (writer_inv s); simpl; rewrite ?Ew; try done.
      intros _. split; [done|]. intros th' tl' F1 (got' & F2 & F3 & F4). exists th'. split; [done|].
      exists (got' ++ take (S n) rest). split_and!.
      * by rewrite <-app_assoc, take_drop.
      * rewrite concat_app, F3, <-app_assoc. simpl. by rewrite app_nil_r.
      * intros [Hs1 Hs2%Nat.leb_gt]%orb_false_iff. right. destruct (F4 Hs1) as [[Er ->]|[-> _]]; [|simpl in En; lia].
        split; [apply drop_ge; lia|]. by rewrite take_ge, Er by lia.
  - destruct (us_cancelled s) eqn:Ec; [|done]. injection E as <-. eexists. split; [done|].
    apply (writer_inv s); simpl; rewrite ?Ew; try done.
    intros _. apply dead_from; [done|]. by rewrite Ew.
Qed.
Lemma sublist_full {A} (l k : list A) : l `sublist_of` k → length k ≤ length l → l = k.
Proof.
  induction 1 as [|x l k _ IH|x l k H _]; simpl; intros Hl; [done|by rewrite IH by lia|].
  apply sublist_length in H. lia.
Qed.
Lemma udp_step_inv l s r : udp_inv s → udp_step f settings l s = Some r → ∃ s', r = Val s' ∧ udp_inv s'.
Proof.
  intros Hs. destruct l; cbn [udp_step];
    first [by apply udp_main_step_inv | by apply udp_writer_step_inv | by apply udp_reader_step_inv
          | by apply udp_receiver_step_inv | idtac].
  intros [= <-]. eexists. split; [done|by apply udp_cancel_inv].
Qed.
Lemma udp_steps_inv ls s r : udp_inv s → udp_steps f settings ls s = Some r → ∃ s', r = Val s' ∧ udp_inv s'.
Proof.
  revert s. induction ls as [|l ls IH]; intros s Hs; [intros [= <-]; eauto|]. cbn [udp_steps].
  destruct (udp_step f settings l s) as [r1|] eqn:E; [|done].
  destruct (udp_step_inv l s r1 Hs E) as (s1 & -> & H1). by apply IH.
Qed.
Lemma udp_written s :
  udp_inv s → concat (us_written s) `prefix_of` concat (sent_payloads (us_taken s)) ∧
  (us_short s = false → us_written s `prefix_of` sent_payloads (us_taken s)).
Proof.
  intros Hs. destruct (decide (us_writer s = UWDead)) as [Hd|Hd]; [by apply (ui_dead _ Hs)|by apply (dead_from s)].
Qed.
(** No goroutine is left. *)
Definition udp_gone (s : UdpSequence) : Prop :=
  us_main s = UMExit ∧ (us_writer s = UWOff ∨ us_writer s = UWDead) ∧ (us_reader s = UROff ∨ us_reader s = URGone) ∧
  (us_receiver s = UVOff ∨ us_receiver s = UVGone).
(** The packets that a datagram becomes. *)
Definition datagram_packets (d : list byte) (ps : list (list byte)) : Prop :=
  ∃ pays, concat pays = d ∧ Forall2 (udp_packet_is f) ps pays ∧
    Forall (λ p, (Z.of_nat (length p) ≤ udp_Mtu settings)%Z) ps ∧
    ((udp_header_size f + Z.of_nat (length d) ≤ udp_Mtu settings)%Z ↔ length ps = 1).
Lemma packets_of_datagrams ds pss : packets_of ds pss → Forall2 datagram_packets ds pss.
Proof.
  intros H. eapply Forall2_impl; [exact H|]. clear H. intros d ps E. destruct (udp_reply_packets f settings Hf Hmtu d) as (ps' & pays & E' & H).
  rewrite E in E'. injection E' as <-. by exists pays.
Qed.

(** C16. UDP through a provider, in every interleaving of its goroutines, of the
    client and of the socket, none of which panics: the socket takes the
    payloads of the client's datagrams in the order in which they came, without
    the empty ones, and each in one write unless a write took a part of one;
    every datagram that was read becomes packets from the destination of the
    flow to its source, each within the mtu, that hold its bytes in order, and
    is one packet exactly when it fits into one; the client gets these packets
    in order, and without a gap until the sequence is cancelled. Every packet
    of the client is given back to the pool but those at a goroutine and those
    in the channel to the writer; when all goroutines are gone, each packet
    for the client was delivered or given back, and of the packets of the client
    only those in that channel were not. *)
Theorem udp_datagrams (ls : list udp_label) (r : outcome UdpSequence) :
  udp_steps f settings ls NewUdpSequence = Some r →
  ∃ s pss, r = Val s ∧
    concat (us_written s) `prefix_of` concat (sent_payloads (us_taken s)) ∧
    (us_short s = false → us_written s `prefix_of` sent_payloads (us_taken s)) ∧
    Forall2 datagram_packets (us_datagrams s) pss ∧
    us_received s `sublist_of` concat pss ∧
    (us_cancelled s = false → us_received s `prefix_of` concat pss) ∧
    us_taken s ≡ₚ us_returned s ++ us_writePayloads s ++ main_items (us_main s) ++ writer_items (us_writer s) ∧
    (udp_gone s → us_taken s ≡ₚ us_returned s ++ us_writePayloads s ∧ concat pss ≡ₚ us_received s ++ us_lost s).
Proof.
  intros E. destruct (udp_steps_inv _ _ _ new_udp_inv E) as (s & -> & Hs).
  destruct (ui_packets _ Hs) as (pss & P1 & P2 & P3). destruct (udp_written s Hs) as [W1 W2].
  exists s, pss. split_and!; [done..|by apply packets_of_datagrams| | |apply Hs|].
  - etrans; [|exact P2]. by apply sublist_inserts_r.
  - intros Hc. assert (us_lost s = []) as El.
    { destruct (us_lost s) eqn:El; [done|]. pose proof (ui_lost _ Hs). rewrite El, Hc in *. naive_solver. }
    rewrite El, app_nil_r in P3.
    assert (us_received s ++ us_readPackets s ++ reader_packets (us_reader s) = concat pss) as <-; [|by eexists].
    apply sublist_full; [done|]. by rewrite P3.
  - intros (Em & Ew & Er & Ev). pose proof (ui_items _ Hs) as HI. rewrite Em in HI.
    assert (writer_items (us_writer s) = []) as Ewi by (by destruct Ew as [-> | ->]).
    assert (reader_packets (us_reader s) = []) as Eri by (by destruct Er as [-> | ->]).
    assert (us_readPackets s = []) as Eq.
    { destruct Ev as [Ev|Ev]; [|by apply (ui_gone _ Hs)]. destruct (decide (us_writer s = UWOff)) as [Hw|Hw].
      - by apply (ui_off _ Hs).
      - by destruct (ui_started _ Hs Hw). }
    rewrite Ewi in HI. rewrite Eri, Eq in P3. simpl in HI, P3. by rewrite app_nil_r in HI.
Qed.

(** ** The end of a sequence *)
(** The steps that are left when the context is done: nothing new comes from
    the client or from the socket, whose calls return an error. *)
Definition closing (l : udp_label) : bool :=
  match l with
  | UDialed ok => negb ok
  | UTake _ | UCancel => false
  | UWrite _ err => err
  | URead b err => err && (length b =? 0)
  | _ => true
  end.
Definition udp_measure (s : UdpSequence) : nat :=
  match us_main s with UMDial => 1 | UMSelect => 1 | UMPush _ => 4 | UMExit => 0 end +
  2 * length (us_writePayloads s) +
  match us_writer s with UWOff | UWDead => 0 | UWIdle => 4 | UWHave _ _ => 5 | UWWrite _ _ => 6 end +
  match us_reader s with
  | UROff | URGone => 0 | URExit => 1 | URTop => 2 | URRead => 3
  | URPush ps err => (if err then 2 else 3) + 2 * length ps
  end + length (us_readPackets s) +
  match us_receiver s with UVLoop => 1 | _ => 0 end.
Lemma closing_decreases l s s' :
  us_cancelled s = true → closing l = true → udp_step f settings l s = Some (Val s') →
  us_cancelled s' = true ∧ udp_measure s' < udp_measure s.
Proof.
  intros Hc Hl E. unfold udp_measure.
  destruct l as [ok|i| | | | |n err| | |b err|dropped| | | | |]; try done; cbn [udp_step] in E;
    unfold udp_run_main, udp_run_writer, udp_run_reader, udp_run_receiver in E.
  - destruct ok; [done|]. destruct (us_main s) eqn:Em; try done. injection E as <-. simpl. lia.
  - destruct (us_main s) eqn:Em; try done. destruct (has_room _ _); [|done]. injection E as <-. simpl.
    rewrite length_app. simpl. by split; [|lia].
  - destruct (us_main s) eqn:Em; try done; [|rewrite Hc in E]; injection E as <-; simpl; split; done || lia.
  - destruct (us_writer s) eqn:Ew; try done. destruct (us_writePayloads s) eqn:Eq; [done|]. injection E as <-. simpl.
    by split; [|lia].
  - destruct (us_writer s) as [| |i rest|i rest|] eqn:Ew; try done.
    destruct rest; [|rewrite Hc in E]; injection E as <-; simpl; split; done || lia.
  - destruct err; [|done]. destruct (us_writer s) eqn:Ew; try done. destruct (_ && _); [|done]. injection E as <-. simpl.
    by split; [|lia].
  - destruct (us_writer s) eqn:Ew; try done. rewrite Hc in E. injection E as <-. simpl. by split; [|lia].
  - destruct (us_reader s) eqn:Er; try done. rewrite Hc in E. injection E as <-. simpl. by split; [|lia].
  - destruct err; [|done]. destruct b; [|done]. destruct (us_reader s) eqn:Er; try done. cbn in E. injection E as <-. simpl.
    by split; [|lia].
  - destruct (us_reader s) as [| | |[|p ps] err| |] eqn:Er; try done.
    destruct dropped; [rewrite Hc in E|destruct (has_room _ _); [|done]]; injection E as <-; simpl;
      rewrite ?length_app; simpl; split; done || lia.
  - destruct (us_reader s) as [| | |[|p ps] err| |] eqn:Er; try done. injection E as <-. simpl.
    destruct err; split; done || lia.
  - destruct (us_reader s) eqn:Er; try done. injection E as <-. simpl. by split; [|lia].
  - destruct (us_receiver s) eqn:Ev; try done. destruct (us_readPackets s) eqn:Eq; [done|]. injection E as <-. simpl.
    rewrite Ev. by split; [|lia].
  - destruct (us_receiver s) eqn:Ev; try done. destruct (us_readPackets s) eqn:Eq; [|done].
    destruct (us_reader s) eqn:Er; try done. injection E as <-. simpl. rewrite Er, Eq. by split; [|simpl; lia].
Qed.
Lemma closing_step s :
  udp_inv s → us_cancelled s = true → udp_gone s ∨ ∃ l s', closing l = true ∧ udp_step f settings l s = Some (Val s').
Proof.
  intros Hs Hc.
  assert (∀ l, closing l = true → (∃ s', udp_step f settings l s = Some (Val s')) →
    udp_gone s ∨ ∃ l s', closing l = true ∧ udp_step f settings l s = Some (Val s')) as Hl.
  { intros l H1 [s' H2]. right. by exists l, s'. }
  destruct (us_main s) eqn:Em.
  1: apply (Hl (UDialed false)); [done|]; simpl; rewrite Em; by eexists.
  1,2: apply (Hl ULeave); [done|]; simpl; rewrite Em, ?Hc; by eexists.
  destruct (us_writer s) as [| |i rest|i rest|] eqn:Ew.
  2: apply (Hl UWriteLeave); [done|]; simpl; rewrite Ew, Hc; by eexists.
  2: apply (Hl UWriteCheck); [done|]; simpl; rewrite Ew; destruct rest; rewrite ?Hc; by eexists.
  2: apply (Hl (UWrite 0 true)); [done|]; simpl; rewrite Ew; by eexists.
  - left. destruct (ui_off _ Hs Ew) as (Er & Ev & _). unfold udp_gone. rewrite Em, Ew, Er, Ev. tauto.
  - destruct (us_reader s) as [| | |[|p ps] err| |] eqn:Er.
    1: by destruct (ui_started _ Hs ltac:(by rewrite Ew)).
    1: apply (Hl UReadTop); [done|]; simpl; rewrite Er; by eexists.
    1: apply (Hl (URead [] true)); [done|]; simpl; rewrite Er; by eexists.
    1: apply (Hl UReadNext); [done|]; simpl; rewrite Er; by eexists.
    1: apply (Hl (UPushPacket true)); [done|]; simpl; rewrite Er, Hc; by eexists.
    1: apply (Hl UReadEnd); [done|]; simpl; rewrite Er; by eexists.
    destruct (us_receiver s) eqn:Ev.
    1: by destruct (ui_started _ Hs ltac:(by rewrite Ew)).
    2: left; unfold udp_gone; rewrite Em, Ew, Er, Ev; tauto.
    destruct (us_readPackets s) eqn:Eq.
    + apply (Hl UReceiveEnd); [done|]. simpl. rewrite Ev, Eq, Er. by eexists.
    + apply (Hl UDeliver); [done|]. simpl. rewrite Ev, Eq. by eexists.
Qed.

(** C22. A cancelled UDP sequence ends: in every reachable state in which the
    context is done, while a goroutine is left one of them has a step to make
    that waits for nothing but an error from the socket, and no more such steps
    can follow each other than a measure of the state says. *)
Theorem udp_sequence_ends (ls : list udp_label) (s : UdpSequence) :
  udp_steps f settings ls NewUdpSequence = Some (Val s) → us_cancelled s = true →
  (udp_gone s ∨ ∃ l s', closing l = true ∧ udp_step f settings l s = Some (Val s')) ∧
  ∀ ls' s', Forall (λ l, closing l = true) ls' → udp_steps f settings ls' s = Some (Val s') →
    length ls' + udp_measure s' ≤ udp_measure s.
Proof.
  intros E Hc. destruct (udp_steps_inv _ _ _ new_udp_inv E) as (s0 & [= <-] & Hs). split; [by apply closing_step|].
  intros ls'. clear E Hs. revert s Hc. induction ls' as [|l ls' IH]; intros s Hc s'; [by intros _ [= <-]|].
  intros [Hl Hls]%Forall_cons. cbn [udp_steps length].
  destruct (udp_step f settings l s) as [[s1| |]|] eqn:E; try done. intros E'.
  destruct (closing_decreases l s s1 Hc Hl E) as [Hc1 Hm]. specialize (IH s1 Hc1 s' Hls E'). lia.
Qed.
End Invariant.

(** ** A flow *)
Module UdpExample.
Import IpExample TcpExample.
Definition ex_udp_settings : UdpBufferSettings := mkUdpSettings 32 100 2 512.
Definition ex_send (l : list Z) : UdpSendItem := mkUdpSendItem (bytes l) (bytes (69 :: l)%Z).
Lemma ex_flow_ok : flow_ok ex_flow.
Proof. split; [left|..]; by vm_compute. Qed.
Lemma ex_mtu_ok : (udp_header_size ex_flow < udp_Mtu ex_udp_settings < 65000)%Z.
Proof. by vm_compute. Qed.

(** Two datagrams and an empty one out; one of six bytes back, through packets
    with room for four; then the end of the context. *)
Definition ex_udp_open : list udp_label :=
  [UDialed true; UTake (ex_send [1; 2]%Z); UPush; UTake (ex_send []); UTake (ex_send [3]%Z); UPush;
   UWriteTake; UWriteCheck; UWrite 2 false; UWriteCheck; UWriteTake; UWriteCheck; UWrite 1 false; UWriteCheck;
   UReadTop; URead (bytes [1; 2; 3; 4; 5; 6]%Z) false; UPushPacket false; UPushPacket false; UReadNext; UDeliver].
Definition ex_udp_close : list udp_label :=
  [UCancel; ULeave; UWriteLeave; UReadTop; UReadEnd; UDeliver; UReceiveEnd].
Definition ex_udp (ls : list udp_label) : UdpSequence :=
  match udp_steps ex_flow ex_udp_settings ls NewUdpSequence with Some (Val s) => s | _ => NewUdpSequence end.
Definition ex_open_end : UdpSequence := Eval vm_compute in ex_udp ex_udp_open.
Definition ex_close_end : UdpSequence := Eval vm_compute in ex_udp (ex_udp_open ++ ex_udp_close).
Example ex_udp_run :
  us_written ex_open_end = [bytes [1; 2]%Z; bytes [3]%Z] ∧ length (us_received ex_open_end) = 1 ∧
  map length (us_received ex_close_end) = [32; 30] ∧ us_returned ex_close_end = [ex_send []; ex_send [1; 2]%Z; ex_send [3]%Z].
Proof. by vm_compute. Qed.

Lemma udp_datagrams_witness :
  ∃ s pss, Val ex_open_end = Val s ∧ us_written s `prefix_of` sent_payloads (us_taken s) ∧
    Forall2 (datagram_packets ex_flow ex_udp_settings) (us_datagrams s) pss ∧ us_received s `prefix_of` concat pss.
Proof.
  destruct (udp_datagrams ex_flow ex_udp_settings ex_flow_ok ex_mtu_ok ex_udp_open (Val ex_open_end))
    as (s & pss & E & _ & Hw & Hd & _ & Hr & _); [by vm_compute|].
  injection E as <-. exists ex_open_end, pss. split_and!; [done|by apply Hw|exact Hd|by apply Hr].
Defined.
Lemma udp_sequence_ends_witness :
  us_cancelled (us_cancel ex_open_end) = true ∧
  ∀ ls' s', Forall (λ l, closing l = true) ls' →
    udp_steps ex_flow ex_udp_settings ls' (us_cancel ex_open_end) = Some (Val s') → length ls' + udp_measure s' ≤ 9.
Proof.
  split; [done|]. intros ls' s' H1 H2.
  by apply (udp_sequence_ends ex_flow ex_udp_settings ex_flow_ok ex_mtu_ok (ex_udp_open ++ [UCancel])
    (us_cancel ex_open_end) ltac:(by vm_compute) eq_refl).
Defined.

(** Datagrams that are in the channel to the writer when the sequence ends are
    not given back to the pool. *)
Example udp_packets_leak :
  let s := ex_udp [UDialed true; UTake (ex_send [1]%Z); UPush; UCancel; ULeave; UWriteLeave; UReadTop; UReadEnd; UReceiveEnd] in
  udp_gone s ∧ us_taken s = [ex_send [1]%Z] ∧ us_returned s = [].
Proof. by vm_compute; split_and!; auto. Qed.
(** A datagram that does not fit into a packet reaches the client as two. *)
Example udp_datagram_split :
  ∃ ps, StreamState_DataPackets ex_flow (bytes [1; 2; 3; 4; 5; 6]%Z) 32 = Val ps ∧
    map (λ p, match ParseIpPathWithPayload p with Val (_, payload) => payload | _ => [] end) ps =
    [bytes [1; 2; 3; 4]%Z; bytes [5; 6]%Z].
Proof. eexists. split; by vm_compute. Qed.
(** An empty datagram of the server is not delivered, nor is one of the client sent. *)
Example udp_empty_dropped :
  let s := ex_udp [UDialed true; UTake (ex_send []); UReadTop; URead [] false; UReadNext; UReadTop] in
  us_datagrams s = [] ∧ us_returned s = us_taken s ∧ us_writePayloads s = [].
Proof. by vm_compute. Qed.
(** After the idle close [send] reports no error, so that [udpSend], which
    starts a new sequence for an error, drops the packet. *)
Example udp_send_after_idle :
  ∀ s : PackChannel nat, pc_cancelled s = false → (UpdateOpen (pc_idle s)).1 = false →
    (ip_send_enter 7 (-1) s).1 = Some (false, None).
Proof. intros s Hc Ho. unfold ip_send_enter. by rewrite Hc, Ho. Qed.
End UdpExample.
