(* ===== verification/Crypto.v ===== *)
(** * SHA-256 and HMAC as [crypto/sha256] and [crypto/hmac] compute them

    The contract manager signs and verifies with [hmac.New(sha256.New, key)].
    The hash state is a list of eight 32-bit words; [mac_Sum] is the method
    [Sum(b)], which appends the digest of what was written to [b]. *)

From Stdlib Require Import Strings.Byte.
From S2P Require Import Prelude.
Open Scope go_scope.

Definition rotr (n x : Z) : Z :=
  Z.lor (Z.shiftr x n) (u32 (Z.shiftl x (32 - n))).
(** The constants of the hash: the first 32 bits of the fractional parts of the
    roots of the first primes, cube roots for the rounds and square roots for
    the initial state. *)
Definition is_prime (n : nat) : bool := forallb (λ d, negb (n `mod` d =? 0)%nat) (seq 2 (n - 2)).
Definition sha_primes : list nat := List.filter is_prime (seq 2 310).
(** The largest [r] under [2 ^ bits] with [r ^ 3 ≤ n]. *)
Fixpoint cube_root (bits : nat) (r n : Z) : Z :=
  match bits with
  | 0 => r
  | S b =>
      let r' := (r + 2 ^ Z.of_nat b)%Z in
      cube_root b (if (r' ^ 3 <=? n)%Z then r' else r) n
  end.
Definition sha_k : list Z := Eval vm_compute in
  map (λ p, u32 (cube_root 35 0 (Z.of_nat p * 2 ^ 96))) sha_primes.
Definition sha_init : list Z := Eval vm_compute in
  map (λ p, u32 (Z.sqrt (Z.of_nat p * 2 ^ 64))) (take 8 sha_primes).

Definition be_word (l : list byte) : Z :=
  foldl (λ acc b, acc * 256 + byte_val b)%Z 0%Z l.
Fixpoint be_bytes (n : nat) (z : Z) : list byte :=
  match n with
  | 0 => []
  | S n => byte_of (Z.shiftr z (8 * Z.of_nat n)%Z) :: be_bytes n z
  end.
Fixpoint chunks {A} (fuel n : nat) (l : list A) : list (list A) :=
  match fuel, l with
  | _, [] => []
  | 0, _ => []
  | S fuel, _ => take n l :: chunks fuel n (drop n l)
  end.

(** The message schedule, the last word first. *)
Fixpoint schedule (k : nat) (w : list Z) : list Z :=
  match k with
  | 0 => w
  | S k =>
      let v i := nth i w 0%Z in
      let s0 := Z.lxor (Z.lxor (rotr 7 (v 14)) (rotr 18 (v 14))) (Z.shiftr (v 14) 3) in
      let s1 := Z.lxor (Z.lxor (rotr 17 (v 1)) (rotr 19 (v 1))) (Z.shiftr (v 1) 10) in
      schedule k (u32 (s1 + v 6%nat + s0 + v 15%nat)%Z :: w)
  end.
Definition sha_round (st : list Z) (kw : Z * Z) : list Z :=
  match st with
  | [a; b; c; d; e; f; g; h] =>
      let s1 := Z.lxor (Z.lxor (rotr 6 e) (rotr 11 e)) (rotr 25 e) in
      let ch := Z.lxor (Z.land e f) (Z.land (Z.lxor e (2 ^ 32 - 1)) g) in
      let t1 := (h + s1 + ch + kw.1 + kw.2)%Z in
      let s0 := Z.lxor (Z.lxor (rotr 2 a) (rotr 13 a)) (rotr 22 a) in
      let maj := Z.lxor (Z.lxor (Z.land a b) (Z.land a c)) (Z.land b c) in
      [u32 (t1 + s0 + maj); a; b; c; u32 (d + t1); e; f; g]%Z
  | _ => st
  end.
Definition sha_block (st : list Z) (block : list byte) : list Z :=
  let w := rev (schedule 48 (rev (map be_word (chunks 16 4 block)))) in
  zip_with (λ a b, u32 (a + b)) st (foldl sha_round st (zip sha_k w)).
Definition sha_pad (m : list byte) : list byte :=
  let n := length m in
  m ++ Byte.x80 :: replicate ((119 - n `mod` 64) `mod` 64) Byte.x00 ++ be_bytes 8 (8 * Z.of_nat n)%Z.
Definition sha256 (m : list byte) : list byte :=
  let p := sha_pad m in
  concat (map (be_bytes 4) (foldl sha_block sha_init (chunks (length p) 64 p))).

(** [hmac.New(sha256.New, key)], [Write(msg)], and the digest. *)
Definition hmac_key (key : list byte) : list byte :=
  let k := if (64 <? length key)%nat then sha256 key else key in
  k ++ replicate (64 - length k) Byte.x00.
Definition xor_bytes (c : Z) (l : list byte) : list byte :=
  map (λ b, byte_of (Z.lxor (byte_val b) c)) l.
Definition hmac_sha256 (key written : list byte) : list byte :=
  sha256 (xor_bytes 0x5c (hmac_key key) ++ sha256 (xor_bytes 0x36 (hmac_key key) ++ written)).
(** [mac.Sum(b)] after [written] was written: [b] followed by the digest. *)
Definition mac_Sum (key written b : list byte) : list byte := b ++ hmac_sha256 key written.
(** [hmac.Equal] *)
Definition hmac_Equal (mac1 mac2 : list byte) : bool := bool_decide (mac1 = mac2).

(** The standard test vectors. *)
Example sha256_abc :
  be_word (sha256 (map byte_of [97; 98; 99]%Z)) =
  0xba7816bf8f01cfea414140de5dae2223b00361a396177a9cb410ff61f20015ad%Z.
Proof. vm_compute. reflexivity. Qed.
Example hmac_empty :
  be_word (hmac_sha256 [] []) =
  0xb613679a0814d9ec772f95d778c35fc5ff1697c493715653c6c712144292c5ad%Z.
Proof. vm_compute. reflexivity. Qed.
