(* ===== verification/Contracts.v ===== *)
(** * Protocol messages, sequence contracts, ack windows, peer audits

    The messages that the sequences handle (protocol/transfer.proto,
    protocol/frame.proto) as records; and the three small states that a
    sequence keeps beside its queue, from the end of transfer.go:
    [sequenceContract], [sequenceAckWindow] and [PeerAudit]. The protobuf codec
    of the stored contract is third party code, a parameter of what uses it. *)

From Stdlib Require Import Floats.SpecFloat.
From S2P Require Import Prelude Ids RttWindow.
Open Scope go_scope.

(** ** Messages *)
Record Frame := mkFrame { MessageType : Z; MessageBytes : list byte; Raw : bool }.
#[export] Instance Frame_eq_dec : EqDecision Frame.
Proof. solve_decision. Defined.
#[export] Program Instance Frame_countable : Countable Frame :=
  inj_countable' (λ f, (MessageType f, MessageBytes f, Raw f)) (λ '(t, b, r), mkFrame t b r) _.
Next Obligation. by intros []. Qed.

Definition MessageType_TransferPack : Z := 0.
Definition MessageType_TransferAck : Z := 1.
Definition MessageType_TransferContract : Z := 2.
Definition MessageType_TransferCreateContractResult : Z := 11.

Definition ProvideMode_None : Z := 0.
Definition ProvideMode_Network : Z := 1.
Definition ProvideMode_FriendsAndFamily : Z := 2.
Definition ProvideMode_Public : Z := 3.
Definition ProvideMode_Stream : Z := 4.
Definition ProvideMode_PublicStream : Z := 5.

(** A [Tag] is its send time. *)
Record Contract := mkContract {
  StoredContractBytes : list byte;
  StoredContractHmac : list byte;
  Contract_ProvideMode : Z
}.
#[export] Instance Contract_eq_dec : EqDecision Contract.
Proof. solve_decision. Defined.
Record StoredContract := mkStored {
  ContractId : list byte;
  TransferByteCount : Z;
  Stored_SourceId : option (list byte);
  Stored_DestinationId : option (list byte);
  Stored_StreamId : option (list byte);
  Priority : option Z
}.

(** [MessageByteCount] of frames *)
Definition MessageByteCount_frames (frames : list Frame) : Z :=
  foldl (λ n f, i64 (n + Z.of_nat (length (MessageBytes f)))) 0%Z frames.

(** ** sequenceContract *)
Record sequenceContract := mkSC {
  sc_localId : positive;
  sc_contract : Contract;
  sc_contractId : Id;
  transferByteCount : Z;
  effectiveTransferByteCount : Z;
  provideMode : Z;
  minUpdateByteCount : Z;
  sc_path : TransferPath;
  ackedByteCount : Z;
  unackedByteCount : Z
}.
#[export] Instance sequenceContract_eq_dec : EqDecision sequenceContract.
Proof. solve_decision. Defined.

Definition newSequenceContract (unmarshal : list byte → outcome StoredContract) (localId : positive)
    (contract : Contract) (minUpdate : Z) (contractFillFraction : spec_float)
    : outcome sequenceContract :=
  let! stored := unmarshal (StoredContractBytes contract) in
  let! contractId := IdFromBytes (ContractId stored) in
  let! path := TransferPathFromBytes (Stored_SourceId stored) (Stored_DestinationId stored)
                 (Stored_StreamId stored) in
  Val (mkSC localId contract contractId (i64 (TransferByteCount stored))
         (f32_to_i64 (f32_mul (f32_of_Z (TransferByteCount stored)) contractFillFraction))
         (Contract_ProvideMode contract) minUpdate path 0 0).

Definition set_counts (c : sequenceContract) (acked unacked : Z) : sequenceContract :=
  mkSC (sc_localId c) (sc_contract c) (sc_contractId c) (transferByteCount c)
    (effectiveTransferByteCount c) (provideMode c) (minUpdateByteCount c) (sc_path c) acked unacked.

Definition effectiveByteCount (c : sequenceContract) (byteCount : Z) : Z :=
  Z.max (minUpdateByteCount c) byteCount.

Definition sc_update (byteCount : Z) (c : sequenceContract) : bool * sequenceContract :=
  let e := effectiveByteCount c byteCount in
  if (effectiveTransferByteCount c <? i64 (ackedByteCount c + unackedByteCount c + e))%Z
  then (false, c)
  else (true, set_counts c (ackedByteCount c) (i64 (unackedByteCount c + e))).

Definition sc_ack (byteCount : Z) (c : sequenceContract) : outcome sequenceContract :=
  let e := effectiveByteCount c byteCount in
  if (unackedByteCount c <? e)%Z then Panic "Bad accounting"
  else Val (set_counts c (i64 (ackedByteCount c + e)) (i64 (unackedByteCount c - e))).

(** The accounts are right when [pending] are the byte counts that were debited
    and are not acked yet. *)
Record sc_ok (pending : list Z) (c : sequenceContract) : Prop := {
  sk_min : (0 ≤ minUpdateByteCount c)%Z;
  sk_acked : (0 ≤ ackedByteCount c)%Z;
  sk_unacked : unackedByteCount c = zsum (map (effectiveByteCount c) pending);
  sk_fits : (ackedByteCount c + unackedByteCount c ≤ Z.max 0 (effectiveTransferByteCount c))%Z;
  sk_small : (effectiveTransferByteCount c < 2 ^ 62)%Z
}.

Lemma effective_nonneg c b : (0 ≤ minUpdateByteCount c → 0 ≤ effectiveByteCount c b)%Z.
Proof. unfold effectiveByteCount. lia. Qed.
Lemma pending_nonneg pending c : sc_ok pending c → (0 ≤ unackedByteCount c)%Z.
Proof.
  intros [Hm _ -> _ _]. apply zsum_nonneg, Forall_map, Forall_true.
  intros b. by apply effective_nonneg.
Qed.

Lemma sc_update_ok pending c b :
  sc_ok pending c → (minUpdateByteCount c < 2 ^ 62)%Z → (b < 2 ^ 62)%Z →
  let e := effectiveByteCount c b in
  if (ackedByteCount c + unackedByteCount c + e <=? effectiveTransferByteCount c)%Z
  then ∃ c', sc_update b c = (true, c') ∧ sc_ok (b :: pending) c' ∧
    c' = set_counts c (ackedByteCount c) (unackedByteCount c + e)
  else sc_update b c = (false, c).
Proof.
  intros Hc Hm Hb e. pose proof (pending_nonneg _ _ Hc) as Hu. destruct Hc as [Hm0 Ha Hun Hf Hs].
  assert (0 ≤ e < 2 ^ 62)%Z as He by (unfold e, effectiveByteCount; lia).
  unfold sc_update. fold e. rewrite (i64_small (_ + _ + _)) by (unfold is_i64; lia).
  case_bool; case_bool; try lia; try done. eexists. split; [done|].
  rewrite i64_small by (unfold is_i64; lia). split; [|done]. split; simpl; try done; try lia.
  rewrite Hun. unfold effectiveByteCount in *. simpl. unfold zsum in *. simpl. lia.
Qed.

Lemma sc_ack_ok pending c b :
  sc_ok (b :: pending) c →
  ∃ c', sc_ack b c = Val c' ∧ sc_ok pending c' ∧
    c' = set_counts c (ackedByteCount c + effectiveByteCount c b)
           (unackedByteCount c - effectiveByteCount c b).
Proof.
  intros [Hm0 Ha Hun Hf Hs]. unfold sc_ack. set (e := effectiveByteCount c b).
  assert (0 ≤ e)%Z as He by (by apply effective_nonneg).
  assert (0 ≤ zsum (map (effectiveByteCount c) pending))%Z as Hp.
  { apply zsum_nonneg, Forall_map, Forall_true. intros b'. by apply effective_nonneg. }
  assert (unackedByteCount c = e + zsum (map (effectiveByteCount c) pending))%Z as Hun'.
  { rewrite Hun. done. }
  case_bool; [lia|]. rewrite !i64_small by (unfold is_i64; lia).
  eexists. split; [done|]. split; [|done]. split; simpl; try done; try lia.
  transitivity (zsum (map (effectiveByteCount c) pending)); [lia|reflexivity].
Qed.

(** A contract that was just made. *)
Lemma newSequenceContract_fresh unmarshal localId contract mn fill c :
  (0 ≤ mn)%Z →
  (∀ b s, unmarshal b = Val s → f32_to_i64 (f32_mul (f32_of_Z (TransferByteCount s)) fill) < 2 ^ 62)%Z →
  newSequenceContract unmarshal localId contract mn fill = Val c →
  sc_ok [] c ∧ minUpdateByteCount c = mn ∧ sc_contract c = contract ∧
  provideMode c = Contract_ProvideMode contract.
Proof.
  intros Hmn Hsmall. unfold newSequenceContract.
  destruct (unmarshal _) as [s| |] eqn:Es; simpl; [|done..].
  destruct (IdFromBytes _); simpl; [|done..].
  destruct (TransferPathFromBytes _ _ _); simpl; [|done..].
  intros [= <-]. split_and!; try done. apply Hsmall in Es.
  split; simpl; try done; unfold zsum; simpl; lia.
Qed.

(** Runs of debits and acks; [debited] are the counts whose debit passed. *)
Inductive sc_op := SUpdate (byteCount : Z) | SAck (byteCount : Z).
Fixpoint sc_run (ops : list sc_op) (c : sequenceContract) : outcome (list bool * sequenceContract) :=
  match ops with
  | [] => Val ([], c)
  | SUpdate b :: ops =>
      let (ok, c) := sc_update b c in
      let! (r, c) := sc_run ops c in Val (ok :: r, c)
  | SAck b :: ops =>
      let! c := sc_ack b c in let! (r, c) := sc_run ops c in Val (r, c)
  end.
(** The abstract account: a limit, what was acked and the debits that are
    pending. An ack must be of a pending debit, which it settles. *)
Fixpoint remove1 (b : Z) (l : list Z) : option (list Z) :=
  match l with
  | [] => None
  | x :: l => if (x =? b)%Z then Some l else cons x <$> remove1 b l
  end.
Definition cost (mn b : Z) : Z := Z.max mn b.
Fixpoint account (limit mn acked : Z) (pending : list Z) (ops : list sc_op)
    : option (list bool * Z * list Z) :=
  match ops with
  | [] => Some ([], acked, pending)
  | SUpdate b :: ops =>
      let fits := (acked + zsum (map (cost mn) pending) + cost mn b <=? limit)%Z in
      '(r, a, p) ← account limit mn acked (if fits then b :: pending else pending) ops;
      Some (fits :: r, a, p)
  | SAck b :: ops =>
      pending' ← remove1 b pending; account limit mn (acked + cost mn b) pending' ops
  end.

Lemma sc_ok_perm p p' c : p ≡ₚ p' → sc_ok p c → sc_ok p' c.
Proof. intros Hp []. split; try done. by rewrite <-Hp. Qed.
Lemma remove1_perm b l l' : remove1 b l = Some l' → l ≡ₚ b :: l'.
Proof.
  revert l'. induction l as [|x l IH]; intros l' H; simplify_eq/=.
  destruct (Z.eqb_spec x b); simplify_eq; [done|].
  destruct (remove1 b l) as [l1|]; simplify_eq/=. rewrite (IH l1) by done. apply perm_swap.
Qed.

Definition small_op (op : sc_op) : Prop :=
  match op with SUpdate b => (b < 2 ^ 62)%Z | SAck _ => True end.

Lemma account_run ops pending c r a p :
  sc_ok pending c → (minUpdateByteCount c < 2 ^ 62)%Z → Forall small_op ops →
  account (effectiveTransferByteCount c) (minUpdateByteCount c) (ackedByteCount c) pending ops
    = Some (r, a, p) →
  ∃ u, sc_run ops c = Val (r, set_counts c a u) ∧ sc_ok p (set_counts c a u).
Proof.
  revert pending c r. induction ops as [|[b|b] ops IH]; intros pending c r Hok Hm Hsm H; simpl in H.
  - injection H as <- <- <-. exists (unackedByteCount c). by destruct c.
  - apply Forall_cons in Hsm as [Hb Hsm].
    pose proof (sc_update_ok _ _ b Hok Hm Hb) as Hup. simpl in Hup. cbn [sc_run].
    change (cost (minUpdateByteCount c)) with (effectiveByteCount c) in H.
    rewrite <-(sk_unacked _ _ Hok) in H.
    destruct (_ <=? _)%Z.
    + destruct Hup as (c1 & -> & Hok1 & ->).
      destruct (account _ _ _ _ _) as [[[r1 a1] p1]|] eqn:E; simplify_eq/=.
      destruct (IH (b :: pending) _ r1 Hok1) as (u & -> & Hok2); [done..|].
      exists u. by cbn [obind].
    + rewrite Hup.
      destruct (account _ _ _ _ _) as [[[r1 a1] p1]|] eqn:E; simplify_eq/=.
      destruct (IH pending c r1 Hok) as (u & -> & Hok2); [done..|].
      exists u. by cbn [obind].
  - apply Forall_cons in Hsm as [_ Hsm].
    destruct (remove1 b pending) as [p1|] eqn:E; simplify_eq/=.
    apply remove1_perm in E. apply (sc_ok_perm _ _ _ E) in Hok.
    destruct (sc_ack_ok _ _ _ Hok) as (c1 & -> & Hok1 & ->). cbn [obind].
    destruct (IH p1 _ r Hok1) as (u & -> & Hok2); [done..|].
    exists u. by cbn [obind].
Qed.

(** The accounts of a contract refine the abstract account: as long as a
    sequence acks only what was debited, each debit once, no ack panics ("Bad
    accounting"); a debit passes exactly when everything debited so far and the
    message (counted as at least the minimum) fit the effective transfer byte
    count; [ackedByteCount] is what was acked, [unackedByteCount] the sum of
    the pending messages, and together they never exceed the contract. *)
Theorem contract_accounts (c : sequenceContract) (ops : list sc_op) (r : list bool) (a : Z)
    (pending : list Z) :
  (0 ≤ minUpdateByteCount c < 2 ^ 62)%Z → (effectiveTransferByteCount c < 2 ^ 62)%Z →
  ackedByteCount c = 0%Z → unackedByteCount c = 0%Z → Forall small_op ops →
  account (effectiveTransferByteCount c) (minUpdateByteCount c) 0 [] ops = Some (r, a, pending) →
  ∃ c', sc_run ops c = Val (r, c') ∧ ackedByteCount c' = a ∧
    unackedByteCount c' = zsum (map (cost (minUpdateByteCount c)) pending) ∧
    (ackedByteCount c' + unackedByteCount c' ≤ Z.max 0 (effectiveTransferByteCount c))%Z.
Proof.
  intros Hm Hs Ha Hu Hsm H.
  assert (sc_ok [] c) as Hok by (split; rewrite ?Ha, ?Hu; try done; lia).
  rewrite <-Ha in H. destruct (account_run ops [] c r a pending Hok) as (u & -> & Hok'); try done; try lia.
  exists (set_counts c a u). pose proof (sk_unacked _ _ Hok'). pose proof (sk_fits _ _ Hok').
  split_and!; done.
Qed.

(** ** sequenceAckWindow *)
Record sequenceAck := mkAck {
  ack_sequenceNumber : Z;
  ack_messageId : Id;
  ack_selective : bool;
  ack_tag : option Z
}.
Record sequenceAckWindow := mkAckWindow {
  headAck : option sequenceAck;
  ackUpdateCount : Z;
  selectiveAcks : gmap Id sequenceAck
}.
Record ackSnapshot := mkSnapshot {
  snap_headAck : option sequenceAck;
  snap_ackUpdateCount : Z;
  snap_selectiveAcks : gmap Id sequenceAck
}.
Definition newSequenceAckWindow : sequenceAckWindow := mkAckWindow None 0 ∅.

Definition ackWindow_Update (ack : sequenceAck) (w : sequenceAckWindow) : sequenceAckWindow :=
  if match headAck w with
     | None => true
     | Some h => (ack_sequenceNumber h <? ack_sequenceNumber ack)%Z
     end
  then
    if ack_selective ack
    then mkAckWindow (headAck w) (ackUpdateCount w) (<[ack_messageId ack := ack]> (selectiveAcks w))
    else mkAckWindow (Some ack) (ackUpdateCount w + 1) (selectiveAcks w)
  else mkAckWindow (headAck w) (ackUpdateCount w + 1) (selectiveAcks w).

Definition after_head (h : sequenceAck) (p : Id * sequenceAck) : Prop :=
  (ack_sequenceNumber h < ack_sequenceNumber p.2)%Z.
#[export] Instance after_head_dec h p : Decision (after_head h p).
Proof. unfold after_head. apply _. Defined.
(** With no head ack, a positive count would dereference nil. *)
Definition ackWindow_Snapshot (reset : bool) (w : sequenceAckWindow)
    : outcome (ackSnapshot * sequenceAckWindow) :=
  let! sel := (if (0 <? ackUpdateCount w)%Z
    then match headAck w with
         | Some h => Val (filter (after_head h) (selectiveAcks w))
         | None => if bool_decide (selectiveAcks w = ∅) then Val ∅
                   else Panic "nil pointer dereference"
         end
    else Val (selectiveAcks w)) in
  Val (mkSnapshot (headAck w) (ackUpdateCount w) sel,
       if reset then mkAckWindow (headAck w) 0 ∅ else w).

(** Runs: the acks that come in, with the resets in between. *)
Inductive aw_op := AUpdate (ack : sequenceAck) | AReset.
Fixpoint aw_run (ops : list aw_op) (w : sequenceAckWindow) : outcome sequenceAckWindow :=
  match ops with
  | [] => Val w
  | AUpdate a :: ops => aw_run ops (ackWindow_Update a w)
  | AReset :: ops => let! (_, w) := ackWindow_Snapshot true w in aw_run ops w
  end.
(** The greatest number acked in full. *)
Definition head_number (ops : list aw_op) : option Z :=
  foldl (λ m op, match op with
    | AUpdate a => if ack_selective a then m
                   else Some (match m with None => ack_sequenceNumber a
                              | Some x => Z.max x (ack_sequenceNumber a) end)
    | AReset => m end) None ops.
Definition since_reset (ops : list aw_op) : list sequenceAck :=
  foldl (λ l op, match op with AUpdate a => l ++ [a] | AReset => [] end) [] ops.

Record aw_ok (ops : list aw_op) (w : sequenceAckWindow) : Prop := {
  aw_head : ack_sequenceNumber <$> headAck w = head_number ops;
  aw_head_full h : headAck w = Some h → ack_selective h = false;
  aw_count : (0 ≤ ackUpdateCount w)%Z ∧ (headAck w = None → ackUpdateCount w = 0%Z);
  aw_sel_sound i a : selectiveAcks w !! i = Some a →
    a ∈ since_reset ops ∧ ack_selective a = true ∧ ack_messageId a = i;
  aw_sel_above i a h : selectiveAcks w !! i = Some a → headAck w = Some h →
    ackUpdateCount w = 0%Z → (ack_sequenceNumber h < ack_sequenceNumber a)%Z;
  aw_sel_complete a : a ∈ since_reset ops → ack_selective a = true →
    (∀ n, head_number ops = Some n → (n < ack_sequenceNumber a)%Z) →
    is_Some (selectiveAcks w !! ack_messageId a)
}.

Lemma aw_run_app ops1 ops2 w :
  aw_run (ops1 ++ ops2) w = let! w := aw_run ops1 w in aw_run ops2 w.
Proof.
  revert w. induction ops1 as [|[a|] ops1 IH]; intros w; [done|apply IH|]. simpl.
  destruct (ackWindow_Snapshot true w) as [[? ?]| |]; simpl; auto.
Qed.

Lemma head_number_snoc ops op :
  head_number (ops ++ [op]) =
  match op with
  | AUpdate a => if ack_selective a then head_number ops
                 else Some (match head_number ops with None => ack_sequenceNumber a
                            | Some x => Z.max x (ack_sequenceNumber a) end)
  | AReset => head_number ops
  end.
Proof. unfold head_number. by rewrite foldl_app. Qed.
Lemma since_reset_snoc ops op :
  since_reset (ops ++ [op]) = match op with AUpdate a => since_reset ops ++ [a] | AReset => [] end.
Proof. unfold since_reset. by rewrite foldl_app. Qed.

(** [ack] is past the head so far. *)
Definition past_head (ops : list aw_op) (a : sequenceAck) : Prop :=
  ∀ n, head_number ops = Some n → (n < ack_sequenceNumber a)%Z.

Lemma since_reset_in ops a b :
  b ∈ since_reset (ops ++ [AUpdate a]) ↔ b ∈ since_reset ops ∨ b = a.
Proof. by rewrite since_reset_snoc, elem_of_app, list_elem_of_singleton. Qed.

(** A selective ack past the head. *)
Lemma aw_update_selective ops w a :
  aw_ok ops w → ack_selective a = true → past_head ops a →
  aw_ok (ops ++ [AUpdate a])
    (mkAckWindow (headAck w) (ackUpdateCount w) (<[ack_messageId a := a]> (selectiveAcks w))).
Proof.
  intros [Hh Hf Hc Hs Ha Hcomp] Hsel Hpast. split; simpl; try done.
  - by rewrite head_number_snoc, Hsel.
  - intros i b [[<- <-]|[_ Hb]]%lookup_insert_Some; rewrite since_reset_in; [by auto|].
    destruct (Hs _ _ Hb). by auto.
  - intros i b h [[<- <-]|[_ Hb]]%lookup_insert_Some Eh; [|by eapply Ha].
    intros _. apply Hpast. by rewrite <-Hh, Eh.
  - intros b. rewrite since_reset_in, head_number_snoc, Hsel, lookup_insert_is_Some.
    destruct (decide (ack_messageId a = ack_messageId b)); [by auto|].
    intros [Hb| ->] Hbs Hbp; [|done]. right. auto.
Qed.
(** An ack that becomes the head. *)
Lemma aw_update_head ops w a :
  aw_ok ops w → ack_selective a = false → past_head ops a →
  aw_ok (ops ++ [AUpdate a]) (mkAckWindow (Some a) (ackUpdateCount w + 1) (selectiveAcks w)).
Proof.
  intros [Hh Hf Hc Hs Ha Hcomp] Hsel Hpast.
  assert (head_number (ops ++ [AUpdate a]) = Some (ack_sequenceNumber a)) as Hn.
  { rewrite head_number_snoc, Hsel. f_equal. unfold past_head in Hpast.
    destruct (head_number ops) as [x|]; [|done]. specialize (Hpast x eq_refl). lia. }
  split; simpl; rewrite ?Hn; try done; try lia.
  - by intros h [= <-].
  - split; [lia|done].
  - intros i b Hb. rewrite since_reset_in. destruct (Hs _ _ Hb). by auto.
  - intros b. rewrite since_reset_in. intros [Hb| ->] Hbs Hbp; [|congruence].
    apply Hcomp; [done..|]. intros n En. specialize (Hpast n En). specialize (Hbp _ eq_refl). lia.
Qed.
(** An ack that is not past the head: the head is to be sent again. *)
Lemma aw_update_past ops w a h :
  aw_ok ops w → headAck w = Some h → (ack_sequenceNumber a ≤ ack_sequenceNumber h)%Z →
  aw_ok (ops ++ [AUpdate a]) (mkAckWindow (headAck w) (ackUpdateCount w + 1) (selectiveAcks w)).
Proof.
  intros [Hh Hf Hc Hs Ha Hcomp] Eh Hle. rewrite Eh in Hh. simpl in Hh.
  assert (head_number (ops ++ [AUpdate a]) = head_number ops) as Hn.
  { rewrite head_number_snoc, <-Hh. destruct (ack_selective a); [done|]. f_equal. lia. }
  split; simpl; rewrite ?Hn, ?Eh; try done; try lia.
  - by rewrite <-Eh.
  - split; [lia|done].
  - intros i b Hb. rewrite since_reset_in. destruct (Hs _ _ Hb). by auto.
  - intros b. rewrite since_reset_in. intros [Hb| ->] Hbs Hbp; [by apply Hcomp|].
    specialize (Hbp _ (eq_sym Hh)). lia.
Qed.
Lemma aw_update_ok ops w a :
  aw_ok ops w → aw_ok (ops ++ [AUpdate a]) (ackWindow_Update a w).
Proof.
  intros Hw. unfold ackWindow_Update. pose proof (aw_head _ _ Hw) as Hh.
  destruct (headAck w) as [h|] eqn:Eh; simpl in Hh.
  - destruct (Z.ltb_spec (ack_sequenceNumber h) (ack_sequenceNumber a)).
    + assert (past_head ops a) as Hp by (intros n; rewrite <-Hh; intros [= <-]; done).
      destruct (ack_selective a) eqn:Es; [rewrite <-Eh; by apply aw_update_selective|].
      by apply aw_update_head.
    + rewrite <-Eh. by eapply aw_update_past.
  - assert (past_head ops a) as Hp by (intros n; by rewrite <-Hh).
    destruct (ack_selective a) eqn:Es; [rewrite <-Eh; by apply aw_update_selective|].
    by apply aw_update_head.
Qed.
Lemma aw_reset_ok ops w :
  aw_ok ops w → aw_ok (ops ++ [AReset]) (mkAckWindow (headAck w) 0 ∅).
Proof.
  intros [Hh Hf Hc Hs Ha Hcomp]. split; simpl; try done.
  - by rewrite head_number_snoc.
  - intros b. rewrite since_reset_snoc. by intros ?%elem_of_nil.
Qed.

(** One message id is one sequence number. *)
Definition ids_ok (l : list sequenceAck) : Prop :=
  ∀ a b, a ∈ l → b ∈ l → ack_messageId a = ack_messageId b →
    ack_sequenceNumber a = ack_sequenceNumber b.

Lemma aw_snapshot_ok ops w reset :
  aw_ok ops w →
  ∃ snap, ackWindow_Snapshot reset w =
      Val (snap, if reset then mkAckWindow (headAck w) 0 ∅ else w) ∧
    snap_headAck snap = headAck w ∧ snap_ackUpdateCount snap = ackUpdateCount w ∧
    (∀ i a, snap_selectiveAcks snap !! i = Some a ↔ selectiveAcks w !! i = Some a ∧
      ∀ h, headAck w = Some h → (ack_sequenceNumber h < ack_sequenceNumber a)%Z).
Proof.
  intros [Hh Hf [Hc Hn] Hs Ha Hcomp]. unfold ackWindow_Snapshot.
  destruct (Z.ltb_spec 0 (ackUpdateCount w)).
  - destruct (headAck w) as [h|] eqn:Eh; [|rewrite Hn in *; by auto with lia].
    eexists. split; [reflexivity|]. simpl. split_and!; try done. intros i a.
    rewrite map_lookup_filter_Some. unfold after_head. simpl.
    split; [intros [Hi Hb]|intros [Hi Hb]]; (split; [done|]); [by intros h' [= <-]|by apply Hb].
  - eexists. split; [reflexivity|]. simpl. split_and!; try done. intros i a.
    split; [|by intros []]. intros Hi. split; [done|]. intros h Eh. eapply Ha; eauto; lia.
Qed.

Lemma aw_run_ok ops1 ops w :
  aw_ok ops1 w → ∃ w', aw_run ops w = Val w' ∧ aw_ok (ops1 ++ ops) w'.
Proof.
  revert ops1 w. induction ops as [|[a|] ops IH]; intros ops1 w Hw; simpl.
  - exists w. by rewrite app_nil_r.
  - rewrite cons_middle, (assoc_L (++)). apply IH. by apply aw_update_ok.
  - destruct (aw_snapshot_ok _ _ true Hw) as (snap & -> & _). cbn [obind].
    rewrite cons_middle, (assoc_L (++)). apply IH. by apply aw_reset_ok.
Qed.

(** The ack window compresses acks without losing or inventing one: no
    sequence of updates and snapshots dereferences a nil head; a snapshot's
    head is the greatest full ack so far; its selective acks are exactly acks
    that came in since the last reset and are past that head, and every
    selective ack past the head that came in since the last reset is among
    them (by message id, when one id has one number). *)
Theorem ack_window_snapshot (ops : list aw_op) (reset : bool) :
  ids_ok (since_reset ops) →
  ∃ w snap w', aw_run ops newSequenceAckWindow = Val w ∧
    ackWindow_Snapshot reset w = Val (snap, w') ∧
    ack_sequenceNumber <$> snap_headAck snap = head_number ops ∧
    (∀ i a, snap_selectiveAcks snap !! i = Some a →
      a ∈ since_reset ops ∧ ack_selective a = true ∧ ack_messageId a = i ∧ past_head ops a) ∧
    (∀ a, a ∈ since_reset ops → ack_selective a = true → past_head ops a →
      is_Some (snap_selectiveAcks snap !! ack_messageId a)).
Proof.
  intros Hids. destruct (aw_run_ok [] ops newSequenceAckWindow) as (w & Hr & Hw).
  { split; simpl; try done. by intros a ?%elem_of_nil. }
  simpl in Hw. destruct (aw_snapshot_ok ops w reset Hw) as (snap & Hsn & Eh & _ & Hsel).
  destruct Hw as [Hh Hf Hc Hs Ha Hcomp].
  eexists w, snap, _. split_and!; [done|done|by rewrite Eh| |].
  - intros i a [Hi Hab]%Hsel. destruct (Hs i a Hi) as (? & ? & ?). split_and!; try done.
    intros n. rewrite <-Hh. destruct (headAck w) as [h|]; [|done]. intros [= <-]. by apply Hab.
  - intros a Hin Hse Hp. destruct (Hcomp a Hin Hse Hp) as [b Hb]. exists b. apply Hsel.
    split; [done|]. intros h E. destruct (Hs _ _ Hb) as (Hbin & _ & Eid).
    rewrite (Hids b a) by done. apply Hp. by rewrite <-Hh, E.
Qed.

(** ** PeerAudit *)
Record PeerAudit := mkAudit {
  startTime : time;
  lastModifiedTime : time;
  Abuse : bool;
  BadContractCount : Z;
  DiscardedByteCount : Z;
  DiscardedCount : Z;
  BadMessageByteCount : Z;
  BadMessageCount : Z;
  SendByteCount : Z;
  SendCount : Z;
  ResendByteCount : Z;
  ResendCount : Z
}.
Definition NewPeerAudit (startTime : time) : PeerAudit :=
  mkAudit startTime startTime false 0 0 0 0 0 0 0 0 0.
Definition audit_badMessage (b : Z) (a : PeerAudit) : PeerAudit :=
  mkAudit (startTime a) (lastModifiedTime a) (Abuse a) (BadContractCount a) (DiscardedByteCount a)
    (DiscardedCount a) (i64 (BadMessageByteCount a + b)) (i64 (BadMessageCount a + 1))
    (SendByteCount a) (SendCount a) (ResendByteCount a) (ResendCount a).
Definition audit_discard (b : Z) (a : PeerAudit) : PeerAudit :=
  mkAudit (startTime a) (lastModifiedTime a) (Abuse a) (BadContractCount a)
    (i64 (DiscardedByteCount a + b)) (i64 (DiscardedCount a + 1)) (BadMessageByteCount a)
    (BadMessageCount a) (SendByteCount a) (SendCount a) (ResendByteCount a) (ResendCount a).
Definition audit_badContract (a : PeerAudit) : PeerAudit :=
  mkAudit (startTime a) (lastModifiedTime a) (Abuse a) (i64 (BadContractCount a + 1))
    (DiscardedByteCount a) (DiscardedCount a) (BadMessageByteCount a) (BadMessageCount a)
    (SendByteCount a) (SendCount a) (ResendByteCount a) (ResendCount a).
Definition audit_received (b : Z) (a : PeerAudit) : PeerAudit :=
  mkAudit (startTime a) (lastModifiedTime a) (Abuse a) (BadContractCount a) (DiscardedByteCount a)
    (DiscardedCount a) (BadMessageByteCount a) (BadMessageCount a) (i64 (SendByteCount a + b))
    (i64 (SendCount a + 1)) (ResendByteCount a) (ResendCount a).
Definition audit_resend (b : Z) (a : PeerAudit) : PeerAudit :=
  mkAudit (startTime a) (lastModifiedTime a) (Abuse a) (BadContractCount a) (DiscardedByteCount a)
    (DiscardedCount a) (BadMessageByteCount a) (BadMessageCount a) (SendByteCount a) (SendCount a)
    (i64 (ResendByteCount a + b)) (i64 (ResendCount a + 1)).
Definition audit_touch (t : time) (a : PeerAudit) : PeerAudit :=
  mkAudit (startTime a) t (Abuse a) (BadContractCount a) (DiscardedByteCount a)
    (DiscardedCount a) (BadMessageByteCount a) (BadMessageCount a) (SendByteCount a) (SendCount a)
    (ResendByteCount a) (ResendCount a).

(** [math.Ceil(d.Seconds())] in float64, converted to uint64. *)
Definition f64_of_Z (z : Z) : spec_float := binary_normalize 53 1024 z 0 false.
Definition f64_Seconds (d : duration) : spec_float :=
  SFadd 53 1024 (f64_of_Z (d `quot` second)) (SFdiv 53 1024 (f64_of_Z (d `rem` second)) (f64_of_Z second)).
Definition f64_Ceil (f : spec_float) : Z :=
  match f with
  | S754_finite s m e =>
      let v := (if s then - Z.pos m else Z.pos m)%Z in
      if (0 <=? e)%Z then Z.shiftl v e else (- (Z.shiftr (- v) (- e)))%Z
  | _ => 0%Z
  end.

(** The protocol message: the counts as uint64. *)
Record AuditMessage := mkAuditMessage {
  PeerId : Id;
  AuditStreamId : Id;
  AuditDuration : Z;
  AuditAbuse : bool;
  AuditCounts : list Z
}.
Definition audit_message (source : TransferPath) (a : PeerAudit) : AuditMessage :=
  mkAuditMessage (SourceId_ source) (StreamId_ source)
    (u64 (f64_Ceil (f64_Seconds (time_Sub (lastModifiedTime a) (startTime a))))) (Abuse a)
    (map u64 [BadContractCount a; DiscardedByteCount a; DiscardedCount a; BadMessageByteCount a;
              BadMessageCount a; SendByteCount a; SendCount a; ResendByteCount a; ResendCount a]).

Record SequencePeerAudit := mkSeqAudit {
  audit_source : TransferPath;
  maxAuditDuration : duration;
  peerAudit : option PeerAudit
}.
Definition NewSequencePeerAudit (source : TransferPath) (maxAudit : duration) : SequencePeerAudit :=
  mkSeqAudit source maxAudit None.
(** [Complete] and [Update] with the messages they send out of band. The frame
    of an audit always encodes. *)
Definition audit_Complete (s : SequencePeerAudit) : list AuditMessage * SequencePeerAudit :=
  match peerAudit s with
  | None => ([], s)
  | Some a => ([audit_message (audit_source s) a],
               mkSeqAudit (audit_source s) (maxAuditDuration s) None)
  end.
Definition audit_Update (auditTime : time) (callback : PeerAudit → PeerAudit) (s : SequencePeerAudit)
    : list AuditMessage * SequencePeerAudit :=
  let (out, s) :=
    match peerAudit s with
    | Some a => if (maxAuditDuration s <=? time_Sub auditTime (startTime a))%Z
                then audit_Complete s else ([], s)
    | None => ([], s)
    end in
  let a := default (NewPeerAudit auditTime) (peerAudit s) in
  (out, mkSeqAudit (audit_source s) (maxAuditDuration s) (Some (audit_touch auditTime (callback a)))).

(** ** Concrete runs *)
Module ContractExample.
Definition ex_id (n : Z) : Id := to_array 16 (be16 n).
Definition ex_contract : sequenceContract :=
  mkSC 1 (mkContract [] [] ProvideMode_Network) (ex_id 1) 100 100 ProvideMode_Network 10
    (SourceId (ex_id 2)) 0 0.
Definition ex_sc_ops : list sc_op := [SUpdate 60; SUpdate 5; SAck 60; SUpdate 31; SUpdate 30].

Lemma contract_accounts_witness :
  ∃ c', sc_run ex_sc_ops ex_contract = Val ([true; true; false; true], c') ∧
    ackedByteCount c' = 60%Z ∧ unackedByteCount c' = zsum (map (cost 10) [30; 5]%Z) ∧
    (ackedByteCount c' + unackedByteCount c' ≤ Z.max 0 100)%Z.
Proof.
  apply (contract_accounts ex_contract ex_sc_ops [true; true; false; true] 60 [30; 5]%Z).
  - simpl. lia.
  - simpl. lia.
  - reflexivity.
  - reflexivity.
  - repeat constructor; simpl; lia.
  - vm_compute. reflexivity.
Defined.

Definition ex_ack (n : Z) (sel : bool) : sequenceAck := mkAck n (ex_id n) sel None.
Definition ex_aw_ops : list aw_op :=
  [AUpdate (ex_ack 3 true); AUpdate (ex_ack 5 true); AUpdate (ex_ack 3 false)].
Lemma ack_window_snapshot_witness :
  ∃ w snap w', aw_run ex_aw_ops newSequenceAckWindow = Val w ∧
    ackWindow_Snapshot true w = Val (snap, w') ∧
    ack_sequenceNumber <$> snap_headAck snap = head_number ex_aw_ops ∧
    (∀ i a, snap_selectiveAcks snap !! i = Some a →
      a ∈ since_reset ex_aw_ops ∧ ack_selective a = true ∧ ack_messageId a = i ∧ past_head ex_aw_ops a) ∧
    (∀ a, a ∈ since_reset ex_aw_ops → ack_selective a = true → past_head ex_aw_ops a →
      is_Some (snap_selectiveAcks snap !! ack_messageId a)).
Proof.
  apply (ack_window_snapshot ex_aw_ops true).
  intros a b. cbn [ex_aw_ops since_reset foldl app]. rewrite !elem_of_cons, !elem_of_nil.
  intros [->|[->|[->|[]]]] [->|[->|[->|[]]]]; simpl; try done; vm_compute; discriminate.
Defined.
Example ack_window_value :
  (let! w := aw_run ex_aw_ops newSequenceAckWindow in
   let! (s, _) := ackWindow_Snapshot true w in
   Val (ack_sequenceNumber <$> snap_headAck s,
        (λ p, ack_sequenceNumber p.2) <$> map_to_list (snap_selectiveAcks s)))
  = Val (Some 3, [5])%Z.
Proof. vm_compute. reflexivity. Qed.

(** The receiver's limit is the transfer byte count rounded to a float32,
    which can be above it. *)
Example effective_rounds_up :
  f32_to_i64 (f32_mul (f32_of_Z (2 ^ 24 + 3)) (f32_of_Z 1)) = (2 ^ 24 + 4)%Z.
Proof. vm_compute. reflexivity. Qed.
End ContractExample.
