(* ===== verification/ClientStrategy.v ===== *)
(** * Client strategies: net_http.go and net_extender_profiles.go

    A [ClientStrategy] keeps dialers, which are ways to connect, with their
    successes and failures. A request is tried with the dialers that worked last,
    one after the other in the order of their priority, then with blocks of the
    others in parallel, and then with new dialers over extenders. The dial itself
    and the HTTP client are third party code: an evaluation of a dialer succeeds
    or fails, and changes the counts of the dialer.

    Dialers are shared pointers: a heap holds them, and a set says which of them
    the strategy has. What a call under the mutex does is one step; random
    numbers, the order of maps and what DNS answers are arguments. *)

From Stdlib Require Import Floats.SpecFloat.
From stdpp Require Import gmap sorting.
From S2P Require Import Prelude RttWindow Util Contracts.
Open Scope go_scope.

(** ** Extenders *)
(** [netip.Addr]: the value of an address of version 4 or 6. *)
Record Addr := mkAddr { addr_is6 : bool; addr_value : Z }.
#[export] Instance Addr_eq_dec : EqDecision Addr.
Proof. solve_decision. Defined.
#[export] Program Instance Addr_countable : Countable Addr :=
  inj_countable' (λ a, (addr_is6 a, addr_value a)) (λ '(b, v), mkAddr b v) _.
Next Obligation. by intros []. Qed.
(** [netip.Prefix] *)
Record Prefix := mkPrefix { px_addr : Addr; px_bits : Z }.
Definition addr_width (a : Addr) : Z := if addr_is6 a then 128 else 32.
Definition prefix_Contains (p : Prefix) (a : Addr) : bool :=
  bool_decide (addr_is6 a = addr_is6 (px_addr p)) && (addr_value a <? 2 ^ addr_width a)%Z &&
  (addr_value a ≫ (addr_width a - px_bits p) =? addr_value (px_addr p) ≫ (addr_width a - px_bits p))%Z.
Definition addr_Next (a : Addr) : Addr := mkAddr (addr_is6 a) (addr_value a + 1).

Record ExtenderProfile := mkProfile {
  ConnectMode : string;
  ServerName : string;
  ext_Port : Z;
  ext_Fragment : bool;
  ext_Reorder : bool
}.
#[export] Instance ExtenderProfile_eq_dec : EqDecision ExtenderProfile.
Proof. solve_decision. Defined.
#[export] Program Instance ExtenderProfile_countable : Countable ExtenderProfile :=
  inj_countable' (λ p, (ConnectMode p, ServerName p, ext_Port p, ext_Fragment p, ext_Reorder p))
    (λ '(m, s, p, f, r), mkProfile m s p f r) _.
Next Obligation. by intros []. Qed.
Record ExtenderConfig := mkExtender { ec_Profile : ExtenderProfile; ec_Ip : Addr; ec_Secret : string }.

(** [persona] of [EnumerateExtenderProfiles]; the map of ports as a list. *)
Record persona := mkPersona { hosts : list string; portConnectModes : list (Z * list string) }.
(** The personas of [mailHosts], [mailPorts], [serviceHosts] and [servicePorts]. *)
Definition personas_of (mail service : persona) : list persona :=
  List.filter (λ p, (0 <? length (hosts p)) && (0 <? length (portConnectModes p))) [mail; service].
(** The random numbers of an iteration. *)
Record profile_draw := mkDraw {
  pd_persona : nat; pd_port : nat; pd_mode : nat; pd_host : nat; pd_fragment : bool; pd_reorder : bool
}.
(** [l[mathrand.Intn(len(l))]] *)
Definition rand_choice {A} (seed : nat) (l : list A) : outcome A :=
  match l !! (seed mod length l) with Some x => Val x | None => Panic "invalid argument to Intn" end.
Definition draw_profile (personas : list persona) (d : profile_draw) : outcome ExtenderProfile :=
  let! persona := rand_choice (pd_persona d) personas in
  let! (port, connectModes) := rand_choice (pd_port d) (portConnectModes persona) in
  let! connectMode := rand_choice (pd_mode d) connectModes in
  let! host := rand_choice (pd_host d) (hosts persona) in
  Val (mkProfile connectMode host port (pd_fragment d) (pd_reorder d)).
(** The loop; the keys of [out] are in the order in which they came. *)
Fixpoint enumerate_loop (fuel i : nat) (n : Z) (personas : list persona) (draws : nat → profile_draw)
    (visited : gset ExtenderProfile) (out : list ExtenderProfile) : outcome (list ExtenderProfile) :=
  match fuel with
  | 0 => Val out
  | S fuel =>
      if (Z.of_nat (length out) <? n)%Z then
        let! profile := draw_profile personas (draws i) in
        enumerate_loop fuel (S i) n personas draws visited
          (if bool_decide (profile ∈ visited ∨ profile ∈ out) then out else out ++ [profile])
      else Val out
  end.
Definition EnumerateExtenderProfiles (n : Z) (personas : list persona) (draws : nat → profile_draw)
    (visited : gset ExtenderProfile) : outcome (list ExtenderProfile) :=
  if 0 <? length personas then enumerate_loop (Z.to_nat (32 * n)) 0 n personas draws visited [] else Val [].

(** ** Dialers *)
(** The zero [time.Time], January 1 of year 1. *)
Definition zero_time : time := (-62135596800 * second)%Z.
Record clientDialer := mkDialer {
  cd_description : string;
  cd_minimumWeight : spec_float;
  cd_priority : Z;
  cd_extenderConfig : option ExtenderConfig;
  cd_successCount : Z;
  cd_errorCount : Z;
  cd_lastSuccessTime : time;
  cd_lastErrorTime : time;
  cd_httpClient : bool                 (** there is an HTTP client *)
}.
Definition new_dialer (description : string) (minimumWeight : spec_float) (priority : Z)
    (extenderConfig : option ExtenderConfig) : clientDialer :=
  mkDialer description minimumWeight priority extenderConfig 0 0 zero_time zero_time false.
Definition HttpClient (d : clientDialer) : clientDialer :=
  mkDialer (cd_description d) (cd_minimumWeight d) (cd_priority d) (cd_extenderConfig d) (cd_successCount d)
    (cd_errorCount d) (cd_lastSuccessTime d) (cd_lastErrorTime d) true.
Definition dialer_Close (d : clientDialer) : clientDialer :=
  mkDialer (cd_description d) (cd_minimumWeight d) (cd_priority d) (cd_extenderConfig d) (cd_successCount d)
    (cd_errorCount d) (cd_lastSuccessTime d) (cd_lastErrorTime d) false.
(** The conversion of a [float64] to a [float32]. *)
Definition f32_of_f64 (f : spec_float) : spec_float :=
  match f with S754_finite s m e => binary_normalize f32_prec f32_emax (cond_Zopp s (Zpos m)) e s | _ => f end.
Definition f32_max (a b : spec_float) : spec_float := if SFltb a b then b else a.
Definition dialer_Weight (d : clientDialer) : spec_float :=
  let c := u64 (cd_successCount d + cd_errorCount d) in
  if (0 <? c)%Z
  then f32_max (f32_of_f64 (SFdiv 53 1024 (f64_of_Z (cd_successCount d)) (f64_of_Z c))) (cd_minimumWeight d)
  else cd_minimumWeight d.
(** [Update] at [now]; [done]: the context of the call is done. *)
Definition dialer_Update (done : bool) (ok : bool) (now : time) (d : clientDialer) : clientDialer :=
  if ok then mkDialer (cd_description d) (cd_minimumWeight d) (cd_priority d) (cd_extenderConfig d)
               (u64 (cd_successCount d + 1)) (cd_errorCount d) now (cd_lastErrorTime d) (cd_httpClient d)
  else if done then d
  else mkDialer (cd_description d) (cd_minimumWeight d) (cd_priority d) (cd_extenderConfig d)
         (cd_successCount d) (u64 (cd_errorCount d + 1)) (cd_lastSuccessTime d) now (cd_httpClient d).
Definition IsExtender (d : clientDialer) : bool := match cd_extenderConfig d with Some _ => true | None => false end.
Definition IsLastSuccess (d : clientDialer) : bool := negb (cd_lastSuccessTime d <? cd_lastErrorTime d)%Z.

(** ** The strategy *)
Record ClientStrategySettings := mkStrategySettings {
  ExposeServerIps : bool;
  ExposeServerHostNames : bool;
  EnableNormal : bool;
  EnableResilient : bool;
  ParallelBlockSize : nat;
  ExpandExtenderProfileCount : Z;
  ExtenderNetworks : list Prefix;
  ExtenderHostnames : list string;
  MaxExtenderCount : Z;
  ExtenderMinimumWeight : spec_float;
  ExtenderDropTimeout : duration;
  MinNextConnectDelay : duration;
  MaxNextConnectDelay : duration
}.
Record ClientStrategy := mkStrategy {
  sg_heap : gmap positive clientDialer;     (** all dialers there ever were *)
  sg_next : positive;
  sg_dialers : gset positive;
  resolvedExtenderIps : list Addr;
  extenderIpSecrets : gmap Addr string;
  nextConnectTime : time
}.
Definition sg_set_heap (h : gmap positive clientDialer) (s : ClientStrategy) : ClientStrategy :=
  mkStrategy h (sg_next s) (sg_dialers s) (resolvedExtenderIps s) (extenderIpSecrets s) (nextConnectTime s).
Definition sg_update (f : clientDialer → clientDialer) (i : positive) (s : ClientStrategy) : ClientStrategy :=
  sg_set_heap (alter f i (sg_heap s)) s.
(** A new dialer is put into the set. *)
Definition sg_add (d : clientDialer) (s : ClientStrategy) : positive * ClientStrategy :=
  (sg_next s,
   mkStrategy (<[sg_next s := d]> (sg_heap s)) (Pos.succ (sg_next s)) ({[sg_next s]} ∪ sg_dialers s)
     (resolvedExtenderIps s) (extenderIpSecrets s) (nextConnectTime s)).
Fixpoint sg_add_all (ds : list clientDialer) (s : ClientStrategy) : list positive * ClientStrategy :=
  match ds with
  | [] => ([], s)
  | d :: ds => let (i, s) := sg_add d s in let (is_, s) := sg_add_all ds s in (i :: is_, s)
  end.
(** [dialer.Close()] and [delete(self.dialers, dialer)] *)
Definition sg_drop (i : positive) (s : ClientStrategy) : ClientStrategy :=
  let s := sg_update dialer_Close i s in
  mkStrategy (sg_heap s) (sg_next s) (sg_dialers s ∖ {[i]}) (resolvedExtenderIps s) (extenderIpSecrets s) (nextConnectTime s).
Definition sg_test (p : clientDialer → bool) (s : ClientStrategy) (i : positive) : bool :=
  match sg_heap s !! i with Some d => p d | None => false end.

Definition f32_half : spec_float := S754_finite false 1 (-1).
Definition f32_quarter : spec_float := S754_finite false 1 (-2).
Definition initial_dialers (settings : ClientStrategySettings) : list clientDialer :=
  (if EnableNormal settings && ExposeServerHostNames settings && ExposeServerIps settings
   then [new_dialer "normal" f32_half 25 None] else []) ++
  (if EnableResilient settings && ExposeServerHostNames settings && ExposeServerIps settings
   then [new_dialer "fragment+reorder" f32_quarter 50 None; new_dialer "fragment" f32_quarter 0 None;
         new_dialer "reorder" f32_quarter 50 None] else []).
Definition NewClientStrategy (settings : ClientStrategySettings) : ClientStrategy :=
  (sg_add_all (initial_dialers settings) (mkStrategy ∅ 1 ∅ [] ∅ zero_time)).2.

Definition SetCustomExtenders (secrets : gmap Addr string) (s : ClientStrategy) : ClientStrategy :=
  foldr sg_drop
    (mkStrategy (sg_heap s) (sg_next s) (sg_dialers s) (resolvedExtenderIps s) secrets (nextConnectTime s))
    (List.filter (sg_test IsExtender s) (elements (sg_dialers s))).
(** [NextConnectTime]: what it returns, and the strategy. *)
Definition NextConnectTime (settings : ClientStrategySettings) (now : time) (seed : nat) (s : ClientStrategy)
    : outcome (time * ClientStrategy) :=
  let d := (MaxNextConnectDelay settings - MinNextConnectDelay settings)%Z in
  if (d <=? 0)%Z then Panic "invalid argument to Int63n" else
  let connectDelay := (MinNextConnectDelay settings + Z.of_nat seed `mod` d)%Z in
  let next := (nextConnectTime s + connectDelay)%Z in
  let next := if (next <? now)%Z then now else next in
  Val (now, mkStrategy (sg_heap s) (sg_next s) (sg_dialers s) (resolvedExtenderIps s) (extenderIpSecrets s) next).
Definition dialerWeights (s : ClientStrategy) : gmap positive spec_float :=
  let ds := filter (λ p, p.1 ∈ sg_dialers s) (sg_heap s) in
  if bool_decide (extenderIpSecrets s = ∅) then dialer_Weight <$> ds
  else (λ _, f32_of_Z 1) <$> filter (λ p, IsExtender p.2 = true) ds.
Definition collapsible (settings : ClientStrategySettings) (now : time) (d : clientDialer) : bool :=
  IsExtender d && IsLastSuccess d && (ExtenderDropTimeout settings <=? time_Sub now (cd_lastErrorTime d))%Z.
Definition collapseExtenderDialers (settings : ClientStrategySettings) (now : time) (s : ClientStrategy) : ClientStrategy :=
  foldr sg_drop s (List.filter (sg_test (collapsible settings now) s) (elements (sg_dialers s))).

(** *** New dialers over extenders *)
(** [for ip := network.Addr(); network.Contains(ip); ip = ip.Next()] *)
Fixpoint network_loop (fuel : nat) (network : Prefix) (ip : Addr) : list Addr :=
  match fuel with
  | 0 => []
  | S fuel => if prefix_Contains network ip then ip :: network_loop fuel network (addr_Next ip) else []
  end.
Definition network_ips (network : Prefix) : list Addr :=
  network_loop (Z.to_nat (2 ^ (addr_width (px_addr network) - px_bits network))) network (px_addr network).
(** [if !visitedExtenderIps[ip] { ... append }] *)
Fixpoint add_new (l : list Addr) (visited : gset Addr) (ips : list Addr) : gset Addr * list Addr :=
  match l with
  | [] => (visited, ips)
  | ip :: l => if bool_decide (ip ∈ visited) then add_new l visited ips else add_new l ({[ip]} ∪ visited) (ips ++ [ip])
  end.
(** What a call reads: random numbers, the networks of the device, what DNS
    answers, and the order of the map of dialers. *)
Record expand_env := mkExpandEnv {
  ee_personas : list persona;
  ee_draws : nat → profile_draw;
  ee_ipv4 : bool;
  ee_ipv6 : bool;
  ee_doh4 : list Addr;
  ee_doh6 : list Addr;
  ee_shuffle1 : nat → nat;
  ee_shuffle2 : nat → nat;
  ee_shuffle3 : nat → nat;
  ee_order : list positive → list positive;
  ee_floats : nat → spec_float;
  ee_choices : nat → nat
}.
Definition shuffle_ips (seed : nat → nat) (l : list Addr) : outcome (list Addr) :=
  rand_shuffle (λ k n, seed k mod n) (length l - 1) l.
(** The addresses that a call adds: of the networks, and then of DNS. *)
Definition expanded_ips (settings : ClientStrategySettings) (env : expand_env) (visited : gset Addr) (n : nat)
    : outcome (list Addr) :=
  let networks := List.filter (λ p, if addr_is6 (px_addr p) then ee_ipv6 env else ee_ipv4 env) (ExtenderNetworks settings) in
  let (visited, ips) := add_new (concat (map network_ips networks)) visited [] in
  let! ips := shuffle_ips (ee_shuffle1 env) ips in
  let ips := if n <=? length ips then take n ips else ips in
  if (length ips <? n) && (0 <? length (ExtenderHostnames settings)) then
    let (visited, ips) := if ee_ipv4 env then add_new (ee_doh4 env) visited ips else (visited, ips) in
    Val (if ee_ipv6 env then add_new (ee_doh6 env) visited ips else (visited, ips)).2
  else Val ips.
(** The weights of the addresses in use, and their sum. *)
Fixpoint ip_weights (ds : list clientDialer) (acc : gmap Addr spec_float * spec_float) : gmap Addr spec_float * spec_float :=
  match ds with
  | [] => acc
  | d :: ds =>
      ip_weights ds
        (match cd_extenderConfig d with
         | Some c => (<[ec_Ip c := dialer_Weight d]> acc.1, f32_add acc.2 (dialer_Weight d))
         | None => acc
         end)
  end.
Definition unused_weights (settings : ClientStrategySettings) (unused : list Addr)
    (acc : gmap Addr spec_float * spec_float) : gmap Addr spec_float * spec_float :=
  foldl (λ acc ip, (<[ip := ExtenderMinimumWeight settings]> acc.1, f32_add acc.2 (ExtenderMinimumWeight settings))) acc unused.
(** [for i < len(ips)-1 { v -= weights[ips[i]]; if v <= 0 { break }; i += 1 }], then [ips[i]] *)
Fixpoint weighted_ip (v : spec_float) (weights : gmap Addr spec_float) (ip : Addr) (ips : list Addr) : Addr :=
  match ips with
  | [] => ip
  | ip' :: ips =>
      let v := f32_sub v (default f32_zero (weights !! ip)) in
      if SFleb v f32_zero then ip else weighted_ip v weights ip' ips
  end.
Definition existing_configs (settings : ClientStrategySettings) (env : expand_env) (unused : list Addr)
    (profiles : list ExtenderProfile) (s : ClientStrategy) : outcome (list ExtenderConfig) :=
  let ds := omap (λ i, sg_heap s !! i) (ee_order env (elements (sg_dialers s))) in
  let (weights, netWeight) := unused_weights settings unused (ip_weights ds (∅, f32_zero)) in
  let! ips := shuffle_ips (ee_shuffle3 env) (map fst (map_to_list weights)) in
  match ips with
  | [] => Val []
  | ip :: ips =>
      Val (imap (λ k p, mkExtender p (weighted_ip (f32_mul (ee_floats env k) netWeight) weights ip ips) "") profiles)
  end.
Definition config_of (d : clientDialer) : option ExtenderConfig := cd_extenderConfig d.
Definition dialer_configs (s : ClientStrategy) : list ExtenderConfig :=
  omap (λ i, d ← sg_heap s !! i; config_of d) (elements (sg_dialers s)).
Fixpoint custom_configs (secrets : gmap Addr string) (choices : nat → nat) (k : nat) (profiles : list ExtenderProfile)
    : outcome (list ExtenderConfig) :=
  match profiles with
  | [] => Val []
  | p :: profiles =>
      let! ip := rand_choice (choices k) (map fst (map_to_list secrets)) in
      let! l := custom_configs secrets choices (S k) profiles in
      Val (mkExtender p ip (default ""%string (secrets !! ip)) :: l)
  end.
(** The configs of the new dialers, and the addresses that are added. *)
Definition expand_configs (settings : ClientStrategySettings) (env : expand_env) (visited : gset Addr)
    (profiles : list ExtenderProfile) (s : ClientStrategy) : outcome (list ExtenderConfig * list Addr) :=
  if bool_decide (extenderIpSecrets s = ∅) then
    let unused := List.filter (λ ip, negb (bool_decide (ip ∈ visited))) (resolvedExtenderIps s) in
    let! expanded := if length unused <? length profiles then expanded_ips settings env visited (length profiles) else Val [] in
    let! unused := shuffle_ips (ee_shuffle2 env) (unused ++ expanded) in
    let n := min (length profiles) (length unused) in
    let configs := zip_with (λ p ip, mkExtender p ip "") profiles unused in
    let! existing := if n <? length profiles then existing_configs settings env unused (drop n profiles) s else Val [] in
    Val (configs ++ existing, expanded)
  else
    let! configs := custom_configs (extenderIpSecrets s) (ee_choices env) 0 profiles in
    Val (configs, []).
Definition expandExtenderDialers (settings : ClientStrategySettings) (env : expand_env) (s : ClientStrategy)
    : outcome (list positive * ClientStrategy) :=
  if (ExpandExtenderProfileCount settings <=? 0)%Z then Val ([], s) else
  let visitedProfiles : gset ExtenderProfile := list_to_set (map ec_Profile (dialer_configs s)) in
  let visitedIps : gset Addr := list_to_set (map ec_Ip (dialer_configs s)) in
  if (MaxExtenderCount settings <=? Z.of_nat (size visitedProfiles))%Z then Val ([], s) else
  let! profiles := EnumerateExtenderProfiles
    (Z.min (ExpandExtenderProfileCount settings) (MaxExtenderCount settings - Z.of_nat (size visitedProfiles)))
    (ee_personas env) (ee_draws env) visitedProfiles in
  let! (configs, expanded) := expand_configs settings env visitedIps profiles s in
  let (is_, s) := sg_add_all (map (λ c, new_dialer "" (ExtenderMinimumWeight settings) 100 (Some c)) configs) s in
  Val (is_, mkStrategy (sg_heap s) (sg_next s) (sg_dialers s) (resolvedExtenderIps s ++ expanded) (extenderIpSecrets s)
              (nextConnectTime s)).

(** What happens to a strategy, in any order: an evaluation of a dialer, that is
    perhaps not in the set any more, and the calls. *)
Inductive sg_label :=
| SgSetCustom (secrets : gmap Addr string)
| SgCollapse (now : time)
| SgExpand (env : expand_env)
| SgClient (i : positive)
| SgUpdate (i : positive) (done ok : bool) (now : time)
| SgConnectTime (now : time) (seed : nat).
Definition sg_step (settings : ClientStrategySettings) (l : sg_label) (s : ClientStrategy) : outcome ClientStrategy :=
  match l with
  | SgSetCustom secrets => Val (SetCustomExtenders secrets s)
  | SgCollapse now => Val (collapseExtenderDialers settings now s)
  | SgExpand env => let! (_, s) := expandExtenderDialers settings env s in Val s
  | SgClient i => Val (sg_update HttpClient i s)
  | SgUpdate i done ok now => Val (sg_update (dialer_Update done ok now) i s)
  | SgConnectTime now seed => let! (_, s) := NextConnectTime settings now seed s in Val s
  end.
Fixpoint sg_steps (settings : ClientStrategySettings) (ls : list sg_label) (s : ClientStrategy) : outcome ClientStrategy :=
  match ls with [] => Val s | l :: ls => let! s := sg_step settings l s in sg_steps settings ls s end.

(** ** Evaluations *)
(** [parallelEval] with its goroutines, each of which evaluates a dialer and then
    offers its result, until the context of the call is done. *)
Inductive pe_result := PeTimeout | PeSelected (i : positive) | PeNoStrategy.
Inductive pe_phase :=
| PeStart
| PeWeigh
| PeSerial (serial parallel : list positive) (weights : gmap positive spec_float)    (** at the check of the context *)
| PeSerialEval (i : positive) (serial parallel : list positive) (weights : gmap positive spec_float)
| PeParallel (parallel : list positive)    (** waits for a result, to start the next *)
| PeExpand                                 (** at the check of the context *)
| PeExpandNew
| PeExpanding (expanded : list positive)   (** waits for a result, to start the next *)
| PeWait
| PeDrain (k : nat)
| PeReturn (r : pe_result).
(** A goroutine evaluates, or offers its result. *)
Inductive pe_run := RunEval | RunOffer (ok : bool).
(** What was done, by dialer: the ones that the call knew of, with those that
    worked last in the order of priority, those evaluated in the order of their
    starts, the results of the evaluations, those whose failure the call has
    taken, and those whose result was thrown away. *)
Record pe_trace := mkTrace {
  pt_known : list positive;
  pt_worked : list positive;
  pt_tried : list positive;
  pt_results : gmap positive bool;
  pt_failed : list positive;
  pt_left : list positive
}.
Record parallelEval := mkParallelEval {
  pe_strategy : ClientStrategy;
  pe_done : bool;                     (** the context of the call is done *)
  pe_at : pe_phase;
  pe_n : nat;
  pe_runs : gmap positive pe_run;
  pe_trc : pe_trace
}.
Definition new_parallelEval (s : ClientStrategy) : parallelEval :=
  mkParallelEval s false PeStart 0 ∅ (mkTrace [] [] [] ∅ [] []).
Definition pe_set (ph : pe_phase) (e : parallelEval) : parallelEval :=
  mkParallelEval (pe_strategy e) (pe_done e) ph (pe_n e) (pe_runs e) (pe_trc e).
Definition pe_set_strategy (s : ClientStrategy) (e : parallelEval) : parallelEval :=
  mkParallelEval s (pe_done e) (pe_at e) (pe_n e) (pe_runs e) (pe_trc e).
Definition pe_set_runs (n : nat) (runs : gmap positive pe_run) (t : pe_trace) (e : parallelEval) : parallelEval :=
  mkParallelEval (pe_strategy e) (pe_done e) (pe_at e) n runs t.
Definition trace_try (is_ : list positive) (t : pe_trace) : pe_trace :=
  mkTrace (pt_known t) (pt_worked t) (pt_tried t ++ is_) (pt_results t) (pt_failed t) (pt_left t).
Definition trace_known (is_ worked : list positive) (t : pe_trace) : pe_trace :=
  mkTrace (pt_known t ++ is_) (pt_worked t ++ worked) (pt_tried t) (pt_results t) (pt_failed t) (pt_left t).
Definition trace_result (i : positive) (ok : bool) (t : pe_trace) : pe_trace :=
  mkTrace (pt_known t) (pt_worked t) (pt_tried t) (<[i := ok]> (pt_results t)) (pt_failed t) (pt_left t).
Definition trace_fail (i : positive) (t : pe_trace) : pe_trace :=
  mkTrace (pt_known t) (pt_worked t) (pt_tried t) (pt_results t) (pt_failed t ++ [i]) (pt_left t).
Definition trace_leave (i : positive) (t : pe_trace) : pe_trace :=
  mkTrace (pt_known t) (pt_worked t) (pt_tried t) (pt_results t) (pt_failed t) (pt_left t ++ [i]).
(** [go run(dialer)] for each of the dialers *)
Definition pe_start_all (is_ : list positive) (n : nat) (e : parallelEval) : parallelEval :=
  pe_set_runs n (foldr (λ i runs, <[i := RunEval]> runs) (pe_runs e) is_) (trace_try is_ (pe_trc e)) e.
(** [handleCtx] is done: also when the call has returned. *)
Definition pe_cancelled (e : parallelEval) : bool :=
  pe_done e || match pe_at e with PeReturn _ => true | _ => false end.
(** The end of an evaluation, of which [Update] has recorded [updated]; the body
    of the response is read after that, and when this fails, so does the result,
    [ok]. *)
Definition pe_evaluated (i : positive) (updated ok : bool) (now : time) (e : parallelEval) : parallelEval :=
  mkParallelEval (sg_update (dialer_Update (pe_cancelled e) updated now) i (sg_update HttpClient i (pe_strategy e))) (pe_done e) (pe_at e)
    (pe_n e) (pe_runs e) (trace_result i ok (pe_trc e)).
(** A result is taken: a success is returned. *)
Definition pe_result_of (i : positive) (ok : bool) (next : parallelEval → parallelEval) (e : parallelEval) : parallelEval :=
  if ok then pe_set (PeReturn (PeSelected i)) e
  else next (pe_set_runs (pe_n e) (pe_runs e) (trace_fail i (pe_trc e)) e).
Definition pe_take (i : positive) (next : parallelEval → parallelEval) (e : parallelEval) : option (outcome parallelEval) :=
  match pe_runs e !! i with
  | Some (RunOffer ok) =>
      Some (Val (pe_result_of i ok next (pe_set_runs (pe_n e) (delete i (pe_runs e)) (pe_trc e) e)))
  | _ => None
  end.
Definition priority_order (s : ClientStrategy) (i j : positive) : Prop :=
  (from_option cd_priority 0 (sg_heap s !! i) ≤ from_option cd_priority 0 (sg_heap s !! j))%Z.
#[export] Instance priority_order_dec s : RelDecision (priority_order s).
Proof. intros i j. unfold priority_order. apply _. Defined.

Inductive pe_label :=
| PeDone                                             (** the context is done, or the time is up *)
| PeOther (l : sg_label)                             (** another call on the strategy *)
| PeCollapse (now : time)
| PeWeights (order : list positive → list positive)  (** the weights and which dialers worked last; the order of the map *)
| PeShuffle (rand_int : nat → nat → nat) (rand_float : nat → spec_float)
| PeNext                                             (** a step of the call that waits for nothing *)
| PeEvaluated (updated ok : bool) (now : time)       (** the end of the evaluation in the call itself *)
| PeEvalEnd (i : positive) (updated ok : bool) (now : time)  (** the end of the evaluation of a goroutine *)
| PeTake (i : positive)                              (** the call takes the result that a goroutine offers *)
| PeLeave (i : positive)                             (** a goroutine throws its result away *)
| PeGrow (env : expand_env).                         (** new dialers, of which the first are started *)
Definition pe_step (settings : ClientStrategySettings) (l : pe_label) (e : parallelEval) : option (outcome parallelEval) :=
  match l, pe_at e with
  | PeDone, ph => Some (Val (mkParallelEval (pe_strategy e) true ph (pe_n e) (pe_runs e) (pe_trc e)))
  | PeOther l, _ => Some (let! s := sg_step settings l (pe_strategy e) in Val (pe_set_strategy s e))
  | PeCollapse now, PeStart =>
      Some (Val (pe_set PeWeigh (pe_set_strategy (collapseExtenderDialers settings now (pe_strategy e)) e)))
  | PeWeights order, PeWeigh =>
      let s := pe_strategy e in
      let weights := dialerWeights s in
      let ds := order (map fst (map_to_list weights)) in
      let serial := merge_sort (priority_order s) (List.filter (sg_test IsLastSuccess s) ds) in
      let parallel := List.filter (λ i, negb (sg_test IsLastSuccess s i)) ds in
      Some (Val (pe_set (PeSerial serial parallel weights)
                   (pe_set_runs (pe_n e) (pe_runs e) (trace_known (serial ++ parallel) serial (pe_trc e)) e)))
  | PeNext, PeSerial (i :: serial) parallel weights =>
      Some (Val (if pe_done e then pe_set (PeReturn PeTimeout) e
                 else pe_set (PeSerialEval i serial parallel weights)
                        (pe_set_runs (pe_n e) (pe_runs e) (trace_try [i] (pe_trc e)) e)))
  | PeEvaluated updated ok now, PeSerialEval i serial parallel weights =>
      if implb ok updated
      then Some (Val (pe_result_of i ok (pe_set (PeSerial serial parallel weights)) (pe_evaluated i updated ok now e))) else None
  | PeShuffle rand_int rand_float, PeSerial [] parallel weights =>
      Some (let! parallel := WeightedShuffle (λ k n, rand_int k n mod n) rand_float parallel weights in
            let n := min (length parallel) (ParallelBlockSize settings) in
            Val (pe_set (PeParallel (drop n parallel)) (pe_start_all (take n parallel) n e)))
  | PeTake i, PeParallel (j :: parallel) =>
      pe_take i (λ e, pe_set (PeParallel parallel) (pe_start_all [j] (pe_n e) e)) e
  | PeNext, PeParallel [] => Some (Val (pe_set PeExpand e))
  | PeCollapse now, PeExpand =>
      if pe_done e then None
      else Some (Val (pe_set PeExpandNew (pe_set_strategy (collapseExtenderDialers settings now (pe_strategy e)) e)))
  | PeGrow env, PeExpandNew =>
      Some (let! (expanded, s) := expandExtenderDialers settings env (pe_strategy e) in
            let e := pe_set_strategy s e in
            if length expanded =? 0 then Val (pe_set (PeDrain (pe_n e)) e) else
            let m := min (length expanded) (ParallelBlockSize settings - pe_n e) in
            let e := pe_set_runs (pe_n e) (pe_runs e) (trace_known expanded [] (pe_trc e)) e in
            Val (pe_set (PeExpanding (drop m expanded)) (pe_start_all (take m expanded) (pe_n e + m) e)))
  | PeTake i, PeExpanding (j :: expanded) =>
      pe_take i (λ e, pe_set (PeExpanding expanded) (pe_start_all [j] (pe_n e) e)) e
  | PeNext, PeExpanding [] => Some (Val (pe_set PeWait e))
  | PeNext, PeWait => Some (Val (pe_set (if pe_done e then PeReturn PeTimeout else PeExpand) e))
  | PeTake i, PeDrain (S k) => pe_take i (pe_set (PeDrain k)) e
  | PeNext, PeDrain 0 => Some (Val (pe_set (PeReturn PeNoStrategy) e))
  | PeNext, PeParallel (_ :: _) | PeNext, PeExpanding (_ :: _) | PeNext, PeDrain (S _) | PeNext, PeExpand =>
      if pe_done e then Some (Val (pe_set (PeReturn PeTimeout) e)) else None
  | PeEvalEnd i updated ok now, _ =>
      match pe_runs e !! i with
      | Some RunEval =>
          if implb ok updated then
            let e := pe_evaluated i updated ok now e in
            Some (Val (pe_set_runs (pe_n e) (<[i := RunOffer ok]> (pe_runs e)) (pe_trc e) e))
          else None
      | _ => None
      end
  | PeLeave i, _ =>
      match pe_runs e !! i with
      | Some (RunOffer _) =>
          if pe_cancelled e
          then Some (Val (pe_set_runs (pe_n e) (delete i (pe_runs e)) (trace_leave i (pe_trc e)) e)) else None
      | _ => None
      end
  | _, _ => None
  end.
Fixpoint pe_steps (settings : ClientStrategySettings) (ls : list pe_label) (e : parallelEval) : option (outcome parallelEval) :=
  match ls with
  | [] => Some (Val e)
  | l :: ls =>
      match pe_step settings l e with
      | Some (Val e) => pe_steps settings ls e
      | r => r
      end
  end.

(** ** The dialers of a strategy *)
Record sg_inv (s : ClientStrategy) : Prop := {
  si_dialers i : i ∈ sg_dialers s → is_Some (sg_heap s !! i);
  si_next i : is_Some (sg_heap s !! i) → (i < sg_next s)%positive
}.
Definition config_at (h : gmap positive clientDialer) (i : positive) : option ExtenderConfig :=
  d ← h !! i; cd_extenderConfig d.
Lemma dialer_configs_eq s : dialer_configs s = omap (config_at (sg_heap s)) (elements (sg_dialers s)).
Proof. done. Qed.
Lemma omap_submseteq {A B} (f : A → option B) l k : l ⊆+ k → omap f l ⊆+ omap f k.
Proof.
  induction 1 as [|x l k _ IH|x y l|x l k _ IH|l k k' _ IH1 _ IH2]; simpl; try done.
  - destruct (f x); [by apply submseteq_skip|done].
  - destruct (f x), (f y); try done. apply submseteq_swap.
  - destruct (f x); [by apply submseteq_cons|done].
  - by etrans.
Qed.
(** Steps that add no dialer and keep the configs. *)
Record sg_shrinks (s s' : ClientStrategy) : Prop := {
  sh_dialers : sg_dialers s' ⊆ sg_dialers s;
  sh_config i : config_at (sg_heap s') i = config_at (sg_heap s) i;
  sh_heap i : is_Some (sg_heap s' !! i) ↔ is_Some (sg_heap s !! i);
  sh_next : sg_next s' = sg_next s
}.
Lemma sg_shrinks_refl s : sg_shrinks s s.
Proof. by split. Qed.
Lemma sg_shrinks_trans s1 s2 s3 : sg_shrinks s1 s2 → sg_shrinks s2 s3 → sg_shrinks s1 s3.
Proof.
  intros [A1 A2 A3 A4] [B1 B2 B3 B4]. split; [set_solver|intros i; by rewrite B2|intros i; by rewrite B3|congruence].
Qed.
Lemma sg_shrinks_inv s s' : sg_shrinks s s' → sg_inv s → sg_inv s'.
Proof. intros [A1 A2 A3 A4] [B1 B2]. split; intros i; rewrite A3; [auto|]. rewrite A4. auto. Qed.
Lemma sg_shrinks_configs s s' : sg_shrinks s s' → dialer_configs s' ⊆+ dialer_configs s.
Proof.
  intros [A1 A2 A3 A4]. rewrite !dialer_configs_eq.
  replace (omap (config_at (sg_heap s')) (elements (sg_dialers s')))
    with (omap (config_at (sg_heap s)) (elements (sg_dialers s'))).
  - apply omap_submseteq. by apply elements_submseteq.
  - apply list_omap_ext. apply Forall2_same_length_lookup_2; [done|]. intros k i j Hi Hj.
    assert (i = j) as -> by congruence. by rewrite A2.
Qed.
Lemma sg_update_shrinks f i s :
  (∀ d, cd_extenderConfig (f d) = cd_extenderConfig d) → sg_shrinks s (sg_update f i s).
Proof.
  intros Hf. split; try done; intros j; simpl; [|apply lookup_alter_is_Some].
  unfold config_at. destruct (decide (j = i)) as [->|Hj].
  - rewrite lookup_alter_eq. destruct (sg_heap s !! i) as [d|]; simpl; [apply Hf|done].
  - by rewrite lookup_alter_ne.
Qed.
Lemma sg_drop_shrinks i s : sg_shrinks s (sg_drop i s).
Proof.
  pose proof (sg_update_shrinks dialer_Close i s (λ _, eq_refl)) as [A1 A2 A3 A4]. split; simpl in *; try done. set_solver.
Qed.
Lemma sg_drops l s :
  sg_shrinks s (foldr sg_drop s l) ∧ sg_dialers (foldr sg_drop s l) = sg_dialers s ∖ list_to_set l ∧
  extenderIpSecrets (foldr sg_drop s l) = extenderIpSecrets s ∧ resolvedExtenderIps (foldr sg_drop s l) = resolvedExtenderIps s.
Proof.
  induction l as [|i l (IH1 & IH2 & IH3 & IH4)]; simpl; [split_and!; try done; set_solver|].
  split_and!; [by eapply sg_shrinks_trans; [|apply sg_drop_shrinks]|rewrite IH2; set_solver|done|done].
Qed.
Lemma sg_test_config s i : sg_test IsExtender s i = true ↔ is_Some (config_at (sg_heap s) i).
Proof.
  unfold sg_test, config_at, IsExtender. destruct (sg_heap s !! i) as [d|]; simpl; [|by split; [|intros []]].
  by destruct (cd_extenderConfig d); split.
Qed.

(** What holds of the dialers; [base] is the dialers that are no extenders. *)
Record dialers_ok (settings : ClientStrategySettings) (base : gset positive) (s : ClientStrategy) : Prop := {
  do_inv : sg_inv s;
  do_profiles : NoDup (map ec_Profile (dialer_configs s));
  do_count : (Z.of_nat (length (dialer_configs s)) ≤ Z.max 0 (MaxExtenderCount settings))%Z;
  do_secrets c : c ∈ dialer_configs s →
    if bool_decide (extenderIpSecrets s = ∅) then ec_Secret c = ""%string
    else extenderIpSecrets s !! ec_Ip c = Some (ec_Secret c);
  do_base i : i ∈ base → i ∈ sg_dialers s ∧ config_at (sg_heap s) i = None
}.
Lemma dialers_ok_shrinks settings base s s' :
  dialers_ok settings base s → sg_shrinks s s' → extenderIpSecrets s' = extenderIpSecrets s →
  (∀ i, i ∈ base → i ∈ sg_dialers s') → dialers_ok settings base s'.
Proof.
  intros [H1 H2 H3 H4 H5] Hs He Hb. pose proof (sg_shrinks_configs _ _ Hs) as Hc. split.
  - by eapply sg_shrinks_inv.
  - apply submseteq_Permutation in Hc as [k Hk]. rewrite Hk, map_app in H2. by apply NoDup_app in H2 as [? _].
  - pose proof (submseteq_length _ _ Hc). lia.
  - intros c Hin. rewrite He. apply H4. by eapply elem_of_submseteq.
  - intros i Hi. rewrite (sh_config _ _ Hs). split; [auto|by apply H5].
Qed.
Lemma filter_base (p : clientDialer → bool) s base settings :
  dialers_ok settings base s → (∀ d, p d = true → IsExtender d = true) →
  ∀ i, i ∈ base → i ∉ List.filter (sg_test p s) (elements (sg_dialers s)).
Proof.
  intros Hok Hp i Hi Hin. apply list_elem_of_In, filter_In in Hin as [_ Ht].
  pose proof (proj2 (do_base _ _ _ Hok i Hi)) as Hn.
  assert (sg_test IsExtender s i = true) as He.
  { unfold sg_test in *. destruct (sg_heap s !! i); [auto|done]. }
  apply sg_test_config in He as [? ?]. congruence.
Qed.
Lemma collapse_ok settings base now s : dialers_ok settings base s → dialers_ok settings base (collapseExtenderDialers settings now s).
Proof.
  intros Hok. unfold collapseExtenderDialers. destruct (sg_drops (List.filter (sg_test (collapsible settings now) s)
    (elements (sg_dialers s))) s) as (Hs & Hd & He & _).
  apply (dialers_ok_shrinks _ _ s); try done. intros i Hi. rewrite Hd.
  apply elem_of_difference. split; [by apply (do_base _ _ _ Hok)|]. rewrite elem_of_list_to_set.
  eapply filter_base; [done| |done]. intros d. unfold collapsible. by destruct (IsExtender d).
Qed.
Lemma custom_ok settings base secrets s : dialers_ok settings base s → dialers_ok settings base (SetCustomExtenders secrets s).
Proof.
  intros Hok. unfold SetCustomExtenders.
  set (s0 := mkStrategy (sg_heap s) (sg_next s) (sg_dialers s) (resolvedExtenderIps s) secrets (nextConnectTime s)).
  set (l := List.filter (sg_test IsExtender s) (elements (sg_dialers s))).
  destruct (sg_drops l s0) as (Hs & Hd & He & _). set (s' := foldr sg_drop s0 l) in *.
  assert (dialer_configs s' = []) as Hnil.
  { destruct (dialer_configs s') as [|c cs] eqn:E; [done|]. exfalso.
    assert (c ∈ dialer_configs s') as Hc by (rewrite E; apply list_elem_of_here).
    rewrite dialer_configs_eq in Hc. apply list_elem_of_omap in Hc as (i & Hi & Hc).
    rewrite elem_of_elements, Hd in Hi. apply elem_of_difference in Hi as [Hi Hn]. apply Hn, elem_of_list_to_set.
    apply list_elem_of_In, filter_In. split; [by apply list_elem_of_In, elem_of_elements|].
    apply sg_test_config. rewrite (sh_config _ _ Hs) in Hc. by eexists. }
  split; rewrite ?Hnil; simpl.
  - eapply sg_shrinks_inv; [done|]. by destruct Hok as [[? ?] _ _ _ _].
  - constructor.
  - lia.
  - intros c Hc. by apply not_elem_of_nil in Hc.
  - intros i Hi. rewrite (sh_config _ _ Hs). split; [|by apply (do_base _ _ _ Hok)]. rewrite Hd.
    apply elem_of_difference. split; [by apply (do_base _ _ _ Hok)|]. rewrite elem_of_list_to_set.
    by eapply filter_base.
Qed.

(** *** Expanding *)
(** Every persona can be drawn from. *)
Definition persona_ok (p : persona) : Prop :=
  hosts p ≠ [] ∧ portConnectModes p ≠ [] ∧ Forall (λ q, q.2 ≠ []) (portConnectModes p).
Lemma rand_choice_in {A} seed (l : list A) : l ≠ [] → ∃ x, rand_choice seed l = Val x ∧ x ∈ l.
Proof.
  intros Hl. unfold rand_choice. destruct (lookup_lt_is_Some_2 l (seed mod length l)) as [x Hx].
  { apply Nat.mod_upper_bound. by destruct l. }
  rewrite Hx. exists x. split; [done|]. by eapply list_elem_of_lookup_2.
Qed.
Lemma draw_profile_ok personas d : personas ≠ [] → Forall persona_ok personas → ∃ p, draw_profile personas d = Val p.
Proof.
  intros Hne Hok. unfold draw_profile.
  destruct (rand_choice_in (pd_persona d) personas Hne) as (q & -> & Hq). cbn [obind].
  rewrite Forall_forall in Hok. destruct (Hok q Hq) as (H1 & H2 & H3).
  destruct (rand_choice_in (pd_port d) (portConnectModes q) H2) as ([port modes] & -> & Hp). cbn [obind].
  rewrite Forall_forall in H3. destruct (rand_choice_in (pd_mode d) modes (H3 _ Hp)) as (m & -> & _). cbn [obind].
  destruct (rand_choice_in (pd_host d) (hosts q) H1) as (h & -> & _). cbn [obind]. by eexists.
Qed.
Lemma enumerate_loop_ok fuel i n personas draws visited out :
  personas ≠ [] → Forall persona_ok personas → NoDup out → (∀ p, p ∈ out → p ∉ visited) →
  (Z.of_nat (length out) ≤ Z.max 0 n)%Z →
  ∃ l, enumerate_loop fuel i n personas draws visited out = Val l ∧ NoDup l ∧ (∀ p, p ∈ l → p ∉ visited) ∧
    (Z.of_nat (length l) ≤ Z.max 0 n)%Z.
Proof.
  intros Hne Hok. revert i out. induction fuel as [|fuel IH]; intros i out Hn Hv Hl; cbn [enumerate_loop]; [by exists out|].
  destruct (Z.ltb_spec (Z.of_nat (length out)) n); [|by exists out].
  destruct (draw_profile_ok personas (draws i) Hne Hok) as [p ->]. cbn [obind]. case_bool_decide as Hp; [by apply IH|].
  apply IH.
  - apply NoDup_app. split; [done|]. split; [|apply NoDup_singleton]. intros q Hq ->%list_elem_of_singleton. tauto.
  - intros q [Hq| ->%list_elem_of_singleton]%elem_of_app; [auto|tauto].
  - rewrite length_app. simpl. lia.
Qed.
Lemma EnumerateExtenderProfiles_ok n personas draws visited :
  Forall persona_ok personas →
  ∃ l, EnumerateExtenderProfiles n personas draws visited = Val l ∧ NoDup l ∧ (∀ p, p ∈ l → p ∉ visited) ∧
    (Z.of_nat (length l) ≤ Z.max 0 n)%Z.
Proof.
  intros Hok. unfold EnumerateExtenderProfiles.
  destruct (Nat.ltb_spec 0 (length personas)); [|exists []; split_and!; [done|constructor|intros p Hp; by apply not_elem_of_nil in Hp|simpl; lia]].
  apply enumerate_loop_ok; [by destruct personas; [simpl in *; lia|]|done|constructor|intros p Hp; by apply not_elem_of_nil in Hp|simpl; lia].
Qed.
Lemma shuffle_ips_ok seed l : ∃ l', shuffle_ips seed l = Val l' ∧ l' ≡ₚ l.
Proof.
  unfold shuffle_ips. apply (rand_shuffle_spec _ (λ _, f32_zero)).
  - intros k n Hn. apply Nat.mod_upper_bound. lia.
  - destruct l; simpl; lia.
Qed.
Lemma expanded_ips_ok settings env visited n : ∃ ips, expanded_ips settings env visited n = Val ips.
Proof.
  unfold expanded_ips. destruct (add_new _ visited []) as [v ips].
  destruct (shuffle_ips_ok (ee_shuffle1 env) ips) as (ips' & -> & _). cbn [obind].
  destruct (_ && _); [|by eexists]. destruct (if ee_ipv4 env then _ else _). by eexists.
Qed.
Lemma imap_configs (f : nat → Addr) profiles :
  map ec_Profile (imap (λ k p, mkExtender p (f k) "") profiles) = profiles ∧
  Forall (λ c, ec_Secret c = ""%string) (imap (λ k p, mkExtender p (f k) "") profiles).
Proof.
  revert f. induction profiles as [|p profiles IH]; intros f; [done|]. destruct (IH (λ k, f (S k))) as [H1 H2].
  simpl. unfold compose. split; [by f_equal|by constructor].
Qed.
Lemma existing_configs_ok settings env unused profiles s :
  ∃ cs, existing_configs settings env unused profiles s = Val cs ∧
    map ec_Profile cs `prefix_of` profiles ∧ Forall (λ c, ec_Secret c = ""%string) cs.
Proof.
  unfold existing_configs. destruct (unused_weights _ _ _) as [w net].
  destruct (shuffle_ips_ok (ee_shuffle3 env) (map fst (map_to_list w))) as (ips & -> & _). cbn [obind].
  destruct ips as [|ip ips]; [exists []; split_and!; [done|apply prefix_nil|constructor]|].
  eexists. split; [done|].
  destruct (imap_configs (λ k, weighted_ip (f32_mul (ee_floats env k) net) w ip ips) profiles) as [H1 H2].
  split; [by rewrite H1|exact H2].
Qed.
Lemma custom_configs_ok secrets choices k profiles :
  secrets ≠ ∅ → ∃ cs, custom_configs secrets choices k profiles = Val cs ∧ map ec_Profile cs = profiles ∧
    Forall (λ c, secrets !! ec_Ip c = Some (ec_Secret c)) cs.
Proof.
  intros Hne. revert k. induction profiles as [|p profiles IH]; intros k; cbn [custom_configs]; [by exists []|].
  destruct (rand_choice_in (choices k) (map fst (map_to_list secrets))) as (ip & -> & Hip).
  { intros E%map_eq_nil. by apply Hne, map_to_list_empty_iff. }
  cbn [obind]. destruct (IH (S k)) as (cs & -> & Hp & Hs). cbn [obind]. eexists. split; [done|]. split; [simpl; by f_equal|].
  constructor; [|done]. simpl. apply list_elem_of_fmap in Hip as ([ip' v] & -> & Hv). apply elem_of_map_to_list in Hv.
  simpl. by rewrite Hv.
Qed.
Lemma zip_profiles (f : ExtenderProfile → Addr → ExtenderConfig) profiles unused :
  (∀ p ip, ec_Profile (f p ip) = p) →
  map ec_Profile (zip_with f profiles unused) = take (min (length profiles) (length unused)) profiles.
Proof.
  intros Hf. revert unused. induction profiles as [|p profiles IH]; intros [|ip unused]; try done. simpl. by rewrite Hf, IH.
Qed.
Lemma zip_secrets profiles unused :
  Forall (λ c, ec_Secret c = ""%string) (zip_with (λ p ip, mkExtender p ip "") profiles unused).
Proof. revert unused. induction profiles as [|p profiles IH]; intros [|ip unused]; simpl; constructor; [done|apply IH]. Qed.
Lemma expand_configs_ok settings env visited profiles s :
  ∃ cs ips, expand_configs settings env visited profiles s = Val (cs, ips) ∧ map ec_Profile cs `prefix_of` profiles ∧
    Forall (λ c, if bool_decide (extenderIpSecrets s = ∅) then ec_Secret c = ""%string
                 else extenderIpSecrets s !! ec_Ip c = Some (ec_Secret c)) cs.
Proof.
  unfold expand_configs. case_bool_decide as He.
  - set (unused := List.filter _ (resolvedExtenderIps s)).
    assert (∃ ips, (if length unused <? length profiles then expanded_ips settings env visited (length profiles) else Val []) = Val ips) as [ips ->].
    { destruct (_ <? _); [apply expanded_ips_ok|by eexists]. }
    cbn [obind]. destruct (shuffle_ips_ok (ee_shuffle2 env) (unused ++ ips)) as (un & -> & _). cbn [obind].
    set (n := min (length profiles) (length un)).
    assert (∃ cs, (if n <? length profiles then existing_configs settings env un (drop n profiles) s else Val []) = Val cs ∧
      map ec_Profile cs `prefix_of` drop n profiles ∧ Forall (λ c, ec_Secret c = ""%string) cs) as (cs & -> & Hp & Hs).
    { destruct (_ <? _); [apply existing_configs_ok|]. exists []. split_and!; [done|apply prefix_nil|constructor]. }
    cbn [obind]. eexists _, _. split; [done|]. split.
    + rewrite map_app, zip_profiles by done. fold n. rewrite <-(take_drop n profiles) at 2. by apply prefix_app.
    + apply Forall_app. split; [apply zip_secrets|done].
  - destruct (custom_configs_ok (extenderIpSecrets s) (ee_choices env) 0 profiles He) as (cs & -> & Hp & Hs). cbn [obind].
    eexists _, _. split; [done|]. rewrite Hp. by split.
Qed.
(** New dialers. *)
Lemma omap_config_insert i d (h : gmap positive clientDialer) (X : gset positive) :
  i ∉ X → omap (M:=list) (config_at (<[i := d]> h)) (elements X) = omap (M:=list) (config_at h) (elements X).
Proof.
  intros Hi. apply list_omap_ext, Forall2_same_length_lookup_2; [done|]. intros k j j' Hj Hj'.
  assert (j = j') as <- by congruence. unfold config_at. rewrite lookup_insert_ne; [done|]. intros <-.
  apply list_elem_of_lookup_2 in Hj. by apply Hi, elem_of_elements.
Qed.
Lemma sg_add_all_spec ds s :
  sg_inv s → let '(is_, s') := sg_add_all ds s in
  sg_inv s' ∧ length is_ = length ds ∧ NoDup is_ ∧ (∀ i, i ∈ is_ → (i ∉ sg_dialers s) ∧ sg_heap s !! i = None) ∧
  (∀ i, i ∈ is_ → i ∈ sg_dialers s') ∧ sg_dialers s ⊆ sg_dialers s' ∧
  (∀ i d, sg_heap s !! i = Some d → sg_heap s' !! i = Some d) ∧
  dialer_configs s' ≡ₚ omap cd_extenderConfig ds ++ dialer_configs s ∧
  extenderIpSecrets s' = extenderIpSecrets s.
Proof.
  revert s. induction ds as [|d ds IH]; intros s Hs; cbn [sg_add_all].
  { split_and!; try done; [constructor|intros i Hi; by apply not_elem_of_nil in Hi|intros i Hi; by apply not_elem_of_nil in Hi]. }
  cbn [sg_add]. set (s1 := mkStrategy _ _ _ _ _ _).
  assert (sg_heap s !! sg_next s = None) as Hn.
  { apply eq_None_not_Some. intros H. pose proof (si_next _ Hs _ H). lia. }
  assert (sg_next s ∉ sg_dialers s) as Hnd.
  { intros H%(si_dialers _ Hs). rewrite Hn in H. by apply is_Some_None in H. }
  assert (sg_inv s1) as Hs1.
  { split; simpl; intros i.
    - intros [->%elem_of_singleton|Hi]%elem_of_union; [by rewrite lookup_insert_eq; eexists|].
      rewrite lookup_insert_ne; [by apply Hs|]. intros <-. done.
    - intros [x [[<- _]|[_ Hx]]%lookup_insert_Some]; [lia|]. pose proof (si_next _ Hs i ltac:(by eexists)). lia. }
  specialize (IH s1 Hs1). destruct (sg_add_all ds s1) as [is_ s']. destruct IH as (H1 & H2 & H3 & H4 & H5 & H6 & H7 & H8 & H9).
  assert (sg_next s ∉ is_) as Hni.
  { intros Hi. apply H4 in Hi as [Hi _]. apply Hi. simpl. set_solver. }
  split_and!.
  - done.
  - simpl. by rewrite H2.
  - by constructor.
  - intros i [->|Hi]%elem_of_cons; [done|]. destruct (H4 i Hi) as [Ha Hb]. simpl in Ha, Hb.
    apply lookup_insert_None in Hb as [Hb _]. set_solver.
  - intros i [->|Hi]%elem_of_cons; [|auto]. apply H6. simpl. set_solver.
  - etrans; [|exact H6]. simpl. set_solver.
  - intros i x Hx. apply H7. simpl. rewrite lookup_insert_ne; [done|]. intros <-. congruence.
  - rewrite H8. rewrite (dialer_configs_eq s1), (dialer_configs_eq s).
    assert (omap (config_at (sg_heap s1)) (elements (sg_dialers s1)) ≡ₚ
      option_list (cd_extenderConfig d) ++ omap (config_at (sg_heap s)) (elements (sg_dialers s))) as ->.
    { simpl. rewrite (elements_union_singleton (sg_dialers s) (sg_next s) Hnd). simpl.
      unfold config_at at 1. rewrite lookup_insert_eq. simpl.
      rewrite (omap_config_insert _ d _ _ Hnd). by destruct (cd_extenderConfig d). }
    cbn [omap list_omap]. destruct (cd_extenderConfig d) as [c|]; cbn [option_list app]; [|done].
    symmetry. apply Permutation_middle.
  - done.
Qed.
Lemma expand_ok settings base env s :
  Forall persona_ok (ee_personas env) → dialers_ok settings base s →
  ∃ is_ s', expandExtenderDialers settings env s = Val (is_, s') ∧ dialers_ok settings base s' ∧
    NoDup is_ ∧ (∀ i, i ∈ is_ → sg_heap s !! i = None ∧ i ∈ sg_dialers s') ∧
    (∀ i d, sg_heap s !! i = Some d → sg_heap s' !! i = Some d).
Proof.
  intros Hp Hok. unfold expandExtenderDialers.
  destruct (Z.leb_spec (ExpandExtenderProfileCount settings) 0); [exists [], s; split_and!; try done; [constructor|set_solver]|].
  set (visited := list_to_set (map ec_Profile (dialer_configs s)) : gset ExtenderProfile).
  destruct (Z.leb_spec (MaxExtenderCount settings) (Z.of_nat (size visited))) as [Hm|Hm];
    [exists [], s; split_and!; try done; [constructor|set_solver]|].
  assert (size visited = length (dialer_configs s)) as Hsz.
  { unfold visited. rewrite size_list_to_set by apply Hok. apply length_map. }
  edestruct (EnumerateExtenderProfiles_ok (Z.min (ExpandExtenderProfileCount settings) (MaxExtenderCount settings - Z.of_nat (size visited)))
    (ee_personas env) (ee_draws env) visited Hp) as (profiles & -> & Hnd & Hnew & Hlen). cbn [obind].
  edestruct (expand_configs_ok settings env (list_to_set (map ec_Ip (dialer_configs s))) profiles s) as (cs & ips & -> & [rest Hpre] & Hsec).
  cbn [obind].
  pose proof (sg_add_all_spec (map (λ c, new_dialer "" (ExtenderMinimumWeight settings) 100 (Some c)) cs) s (do_inv _ _ _ Hok)) as Hadd.
  destruct (sg_add_all _ s) as [is_ s']. destruct Hadd as (H1 & H2 & H3 & H4 & H5 & H6 & H7 & H8 & H9).
  assert (∀ cs, omap cd_extenderConfig (map (λ c, new_dialer "" (ExtenderMinimumWeight settings) 100 (Some c)) cs) = cs) as Hom.
  { intros l. induction l as [|c l IH]; [done|]. cbn [map omap list_omap new_dialer cd_extenderConfig]. f_equal. exact IH. }
  rewrite Hom in H8. eexists _, _. split; [done|]. split_and!; simpl; [|done|intros i Hi; split; [by apply H4|by apply H5]|done].
  set (s'' := mkStrategy _ _ _ _ _ _). assert (dialer_configs s'' = dialer_configs s') as Es by done.
  pose proof (f_equal length Hpre) as Hl. rewrite length_app, length_map in Hl. split; rewrite ?Es.
  - by destruct H1.
  - rewrite H8, map_app. apply NoDup_app. rewrite Hpre in Hnd. apply NoDup_app in Hnd as [Hnd _]. split; [done|]. split; [|apply Hok].
    intros p Hpc Hpd. apply (Hnew p); [rewrite Hpre; by apply elem_of_app; left|]. unfold visited. by apply elem_of_list_to_set.
  - rewrite (Permutation_length H8), length_app. lia.
  - intros c Hc. rewrite H8 in Hc. simpl. rewrite H9. apply elem_of_app in Hc as [Hc|Hc]; [|by apply Hok].
    rewrite Forall_forall in Hsec. by apply Hsec.
  - intros i Hi. destruct (do_base _ _ _ Hok i Hi) as [Ha Hb]. split; [simpl; set_solver|]. simpl. unfold config_at in *.
    destruct (si_dialers _ (do_inv _ _ _ Hok) i Ha) as [d Hd]. rewrite Hd in Hb. by rewrite (H7 i d Hd).
Qed.

(** *** Histories *)
Definition sg_label_ok (l : sg_label) : Prop :=
  match l with SgExpand env => Forall persona_ok (ee_personas env) | _ => True end.
Lemma new_dialers_ok settings : dialers_ok settings (sg_dialers (NewClientStrategy settings)) (NewClientStrategy settings).
Proof.
  unfold NewClientStrategy. set (s0 := mkStrategy ∅ 1 ∅ [] ∅ zero_time).
  assert (sg_inv s0) as H0 by (split; simpl; intros i; [set_solver|by rewrite lookup_empty; intros [? ?]]).
  pose proof (sg_add_all_spec (initial_dialers settings) s0 H0) as H. destruct (sg_add_all (initial_dialers settings) s0) as [is_ s].
  destruct H as (H1 & _ & _ & _ & _ & _ & _ & H8 & H9). simpl.
  assert (omap cd_extenderConfig (initial_dialers settings) = []) as Ho.
  { unfold initial_dialers. by destruct (EnableNormal settings && _ && _), (EnableResilient settings && _ && _). }
  assert (dialer_configs s = []) as Hn.
  { rewrite Ho in H8. apply Permutation_nil. by rewrite H8. }
  split; rewrite ?Hn; simpl; [done|constructor|lia|intros c Hc; by apply not_elem_of_nil in Hc|].
  intros i Hi. split; [done|]. destruct (config_at (sg_heap s) i) as [c|] eqn:E; [|done]. exfalso.
  apply (not_elem_of_nil c). rewrite <-Hn, dialer_configs_eq. apply list_elem_of_omap. exists i.
  split; [by apply elem_of_elements|done].
Qed.
Lemma sg_step_ok settings base l s :
  (MinNextConnectDelay settings < MaxNextConnectDelay settings)%Z → sg_label_ok l → dialers_ok settings base s →
  ∃ s', sg_step settings l s = Val s' ∧ dialers_ok settings base s'.
Proof.
  intros Hd Hl Hok. destruct l as [secrets|now|env|i|i done ok now|now seed]; simpl.
  - eexists. split; [done|]. by apply custom_ok.
  - eexists. split; [done|]. by apply collapse_ok.
  - destruct (expand_ok settings base env s Hl Hok) as (is_ & s' & -> & H & _). by eexists.
  - eexists. split; [done|]. apply (dialers_ok_shrinks _ _ s); [done|by apply sg_update_shrinks|done|].
    intros j Hj. by apply (do_base _ _ _ Hok).
  - eexists. split; [done|]. apply (dialers_ok_shrinks _ _ s); [done|apply sg_update_shrinks|done|].
    + intros d. unfold dialer_Update. by destruct ok, done.
    + intros j Hj. by apply (do_base _ _ _ Hok).
  - unfold NextConnectTime. destruct (Z.leb_spec (MaxNextConnectDelay settings - MinNextConnectDelay settings) 0); [lia|].
    cbn [obind]. eexists. split; [done|]. destruct Hok as [[? ?] ? ? ? ?]. by split; [split|..].
Qed.
Lemma sg_steps_ok settings base ls s :
  (MinNextConnectDelay settings < MaxNextConnectDelay settings)%Z → Forall sg_label_ok ls → dialers_ok settings base s →
  ∃ s', sg_steps settings ls s = Val s' ∧ dialers_ok settings base s'.
Proof.
  intros Hd Hls. revert s. induction Hls as [|l ls Hl _ IH]; intros s Hok; cbn [sg_steps]; [by eexists|].
  destruct (sg_step_ok settings base l s Hd Hl Hok) as (s1 & -> & Hok1). cbn [obind]. by apply IH.
Qed.

(** The dialers of a strategy, in every history of its calls, with any random
    numbers and answers of DNS, none of which panics: the dialers that are no
    extenders are never dropped; the extenders have profiles of their own, are
    never more than the maximum, and when there are custom extenders each has
    one of their addresses with its secret, and otherwise none has a secret. *)
Theorem client_strategy_dialers (settings : ClientStrategySettings) (ls : list sg_label) :
  (MinNextConnectDelay settings < MaxNextConnectDelay settings)%Z → Forall sg_label_ok ls →
  ∃ s, sg_steps settings ls (NewClientStrategy settings) = Val s ∧
    (∀ i, i ∈ sg_dialers (NewClientStrategy settings) → i ∈ sg_dialers s) ∧
    NoDup (map ec_Profile (dialer_configs s)) ∧
    (Z.of_nat (length (dialer_configs s)) ≤ Z.max 0 (MaxExtenderCount settings))%Z ∧
    ∀ c, c ∈ dialer_configs s →
      (extenderIpSecrets s = ∅ → ec_Secret c = ""%string) ∧
      (extenderIpSecrets s ≠ ∅ → extenderIpSecrets s !! ec_Ip c = Some (ec_Secret c)).
Proof.
  intros Hd Hls. destruct (sg_steps_ok settings _ ls _ Hd Hls (new_dialers_ok settings)) as (s & E & [H1 H2 H3 H4 H5]).
  exists s. split_and!; try done; [intros i Hi; by apply H5|]. intros c Hc. specialize (H4 c Hc).
  by case_bool_decide.
Qed.
(** The extenders that are dropped are not those that fail: an extender whose last
    connection failed stays, and one that was never used goes at the first
    collapse, before its first use if another call makes it. *)
Theorem collapse_drops_working (settings : ClientStrategySettings) (now : time) (s : ClientStrategy) (i : positive)
    (d : clientDialer) :
  i ∈ sg_dialers s → sg_heap s !! i = Some d →
  (IsLastSuccess d = false → i ∈ sg_dialers (collapseExtenderDialers settings now s)) ∧
  (IsExtender d = true → cd_lastSuccessTime d = zero_time → cd_lastErrorTime d = zero_time →
   (0 ≤ now)%Z → (ExtenderDropTimeout settings ≤ 2 ^ 55)%Z → i ∉ sg_dialers (collapseExtenderDialers settings now s)).
Proof.
  intros Hi Hd. unfold collapseExtenderDialers.
  destruct (sg_drops (List.filter (sg_test (collapsible settings now) s) (elements (sg_dialers s))) s) as (_ & -> & _).
  rewrite elem_of_difference, elem_of_list_to_set. split.
  - intros Hs. split; [done|]. intros Hin. apply list_elem_of_In, filter_In in Hin as [_ Ht]. revert Ht.
    unfold sg_test, collapsible. by rewrite Hd, Hs, andb_false_r.
  - intros He Hs1 Hs2 Hn Ht [_ Hin]. apply Hin, list_elem_of_In, filter_In.
    split; [by apply list_elem_of_In, elem_of_elements|]. unfold sg_test, collapsible, IsLastSuccess. rewrite Hd, He, Hs1, Hs2.
    rewrite Z.ltb_irrefl. simpl. apply Z.leb_le. unfold time_Sub, zero_time, second. lia.
Qed.
(** The time of the next connection is always now, whatever the calls before. *)
Theorem next_connect_time_is_now (settings : ClientStrategySettings) (now t : time) (seed : nat) (s s' : ClientStrategy) :
  NextConnectTime settings now seed s = Val (t, s') → t = now.
Proof. unfold NextConnectTime. destruct (_ <=? 0)%Z; [done|]. by intros [= <- _]. Qed.

(** ** Evaluations in parallel *)
(** *** The heap only grows, and priorities stay *)
Definition sg_grows (s s' : ClientStrategy) : Prop :=
  ∀ i d, sg_heap s !! i = Some d → ∃ d', sg_heap s' !! i = Some d' ∧ cd_priority d' = cd_priority d.
Lemma sg_grows_refl s : sg_grows s s.
Proof. intros i d Hd. by exists d. Qed.
Lemma sg_grows_trans s1 s2 s3 : sg_grows s1 s2 → sg_grows s2 s3 → sg_grows s1 s3.
Proof. intros A B i d (d' & Hd' & E)%A. destruct (B i d' Hd') as (d'' & ? & ?). exists d''. split; [done|congruence]. Qed.
Lemma sg_update_grows f i s : (∀ d, cd_priority (f d) = cd_priority d) → sg_grows s (sg_update f i s).
Proof.
  intros Hf j d Hd. simpl. destruct (decide (j = i)) as [->|Hj].
  - rewrite lookup_alter_eq, Hd. simpl. exists (f d). by rewrite Hf.
  - rewrite lookup_alter_ne by done. by exists d.
Qed.
Lemma sg_drops_grow l s : sg_grows s (foldr sg_drop s l).
Proof.
  induction l as [|i l IH]; [apply sg_grows_refl|]. eapply sg_grows_trans; [exact IH|]. simpl.
  intros j d Hd. by apply (sg_update_grows dialer_Close i (foldr sg_drop s l) (λ _, eq_refl) j d).
Qed.
Lemma update_priority done ok now d : cd_priority (dialer_Update done ok now d) = cd_priority d.
Proof. unfold dialer_Update. by destruct ok, done. Qed.
Lemma expand_grows settings env s is_ s' :
  Forall persona_ok (ee_personas env) → dialers_ok settings ∅ s → expandExtenderDialers settings env s = Val (is_, s') →
  sg_grows s s'.
Proof.
  intros Hp Hok E. destruct (expand_ok settings ∅ env s Hp Hok) as (is' & s'' & E' & _ & _ & _ & Hg).
  rewrite E in E'. injection E' as <- <-. intros i d Hd. exists d. split; [by apply Hg|done].
Qed.
Lemma sg_step_grows settings l s s' :
  sg_label_ok l → dialers_ok settings ∅ s → sg_step settings l s = Val s' → sg_grows s s'.
Proof.
  intros Hl Hok. destruct l as [secrets|now|env|i|i done ok now|now seed]; simpl.
  - intros [= <-]. apply (sg_drops_grow _ (mkStrategy _ _ _ _ _ _)).
  - intros [= <-]. apply sg_drops_grow.
  - destruct (expandExtenderDialers settings env s) as [[is_ s1]| |] eqn:E; try done. intros [= <-].
    by eapply expand_grows.
  - intros [= <-]. by apply sg_update_grows.
  - intros [= <-]. apply sg_update_grows. intros d. apply update_priority.
  - unfold NextConnectTime. destruct (_ <=? 0)%Z; [done|]. cbn [obind]. intros [= <-]. intros i d Hd. by exists d.
Qed.
Lemma grows_sorted s s' l :
  sg_grows s s' → Forall (λ i, is_Some (sg_heap s !! i)) l → StronglySorted (priority_order s) l → StronglySorted (priority_order s') l.
Proof.
  intros Hg Hl. induction 1 as [|i l _ IH Hi]; [constructor|]. apply Forall_cons in Hl as [[d Hd] Hl].
  constructor; [auto|]. rewrite Forall_forall in Hi, Hl |- *. intros j Hj. specialize (Hi j Hj). unfold priority_order in *.
  destruct (Hl j Hj) as [d2 Hd2]. destruct (Hg i d Hd) as (d' & Hd' & E1), (Hg j d2 Hd2) as (d2' & Hd2' & E2).
  rewrite Hd, Hd2 in Hi. rewrite Hd', Hd2'. simpl in *. lia.
Qed.

(** *** The goroutines and the results *)
Definition running (runs : gmap positive pe_run) : list positive := map fst (map_to_list runs).
Lemma running_in i (runs : gmap positive pe_run) : i ∈ running runs ↔ is_Some (runs !! i).
Proof.
  unfold running. rewrite list_elem_of_fmap. split.
  - intros ([j x] & -> & Hx%elem_of_map_to_list). by exists x.
  - intros [x Hx]. exists (i, x). by rewrite elem_of_map_to_list.
Qed.
Lemma running_insert i x (runs : gmap positive pe_run) : runs !! i = None → running (<[i := x]> runs) ≡ₚ i :: running runs.
Proof. intros Hi. unfold running. by rewrite (map_to_list_insert _ _ _ Hi). Qed.
Lemma running_delete i (runs : gmap positive pe_run) : is_Some (runs !! i) → running runs ≡ₚ i :: running (delete i runs).
Proof.
  intros [x Hx]. rewrite <-(running_insert i x) by apply lookup_delete_eq. by rewrite insert_delete_id.
Qed.
Lemma running_set i x (runs : gmap positive pe_run) : is_Some (runs !! i) → running (<[i := x]> runs) ≡ₚ running runs.
Proof.
  intros Hi. rewrite (running_delete i runs Hi), <-(running_insert i x) by apply lookup_delete_eq.
  by rewrite insert_delete_eq.
Qed.
Lemma running_length runs : length (running runs) = size runs.
Proof. unfold running. by rewrite length_map, length_map_to_list. Qed.
Definition started (l : list positive) (runs : gmap positive pe_run) : gmap positive pe_run :=
  foldr (λ i runs, <[i := RunEval]> runs) runs l.
Lemma started_lookup l runs i : started l runs !! i = if bool_decide (i ∈ l) then Some RunEval else runs !! i.
Proof.
  induction l as [|j l IH]; simpl; [done|]. destruct (decide (j = i)) as [->|Hj].
  - rewrite lookup_insert_eq, bool_decide_true by apply list_elem_of_here. done.
  - rewrite lookup_insert_ne by done. rewrite IH. case_bool_decide as E1; case_bool_decide as E2; try done.
    + exfalso. apply E2. by apply list_elem_of_further.
    + exfalso. apply elem_of_cons in E2 as [->|E2]; done.
Qed.
Lemma started_running l runs :
  NoDup l → (∀ i, i ∈ l → runs !! i = None) → running (started l runs) ≡ₚ l ++ running runs.
Proof.
  induction 1 as [|i l Hi _ IH]; intros Hn; [done|]. simpl. rewrite running_insert, IH; [done| |].
  - intros j Hj. apply Hn. by apply list_elem_of_further.
  - fold (started l runs). rewrite started_lookup, bool_decide_false by done. apply Hn, list_elem_of_here.
Qed.

(** What holds of a call: [block] is the number of goroutines at most. *)
Record tr_inv (block : nat) (t : pe_trace) (runs : gmap positive pe_run) : Prop := {
  ti_known : NoDup (pt_known t);
  ti_tried : pt_tried t ⊆+ pt_known t;
  ti_runs i x : runs !! i = Some x → i ∈ pt_tried t ∧
    pt_results t !! i = match x with RunEval => None | RunOffer ok => Some ok end;
  ti_results i : is_Some (pt_results t !! i) → i ∈ pt_tried t;
  ti_failed i : i ∈ pt_failed t → pt_results t !! i = Some false;
  ti_size : size runs ≤ block
}.
(** Every dialer tried has failed, runs, or was left; [k] results are to come. *)
Definition balance (t : pe_trace) (runs : gmap positive pe_run) (k : nat) : Prop :=
  pt_tried t ≡ₚ pt_failed t ++ running runs ++ pt_left t ∧ size runs + length (pt_left t) = k.
Lemma tr_start block l rest t runs :
  tr_inv block t runs → pt_known t ≡ₚ pt_tried t ++ l ++ rest → size runs + length l ≤ block →
  tr_inv block (trace_try l t) (started l runs) ∧
  ∀ k, balance t runs k → balance (trace_try l t) (started l runs) (k + length l).
Proof.
  intros [H1 H2 H3 H4 H5 H6] Hk Hs. pose proof H1 as Hnd. rewrite Hk in Hnd.
  apply NoDup_app in Hnd as (_ & Hdis & Hl). apply NoDup_app in Hl as (Hl & _ & _).
  assert (∀ i, i ∈ l → i ∉ pt_tried t) as Hnew.
  { intros i Hi Ht. apply (Hdis i Ht), elem_of_app. by left. }
  assert (∀ i, i ∈ l → runs !! i = None) as Hno.
  { intros i Hi. destruct (runs !! i) as [x|] eqn:E; [|done]. exfalso. by apply (Hnew i Hi), (H3 i x). }
  pose proof (started_running l runs Hl Hno) as Hr.
  assert (size (started l runs) = size runs + length l) as Hsz.
  { rewrite <-!running_length, (Permutation_length Hr), length_app. lia. }
  split; [split; simpl|].
  - done.
  - rewrite Hk, app_assoc. by apply submseteq_inserts_r.
  - intros i x. rewrite started_lookup. case_bool_decide as Hi.
    + intros [= <-]. split; [apply elem_of_app; by right|]. destruct (pt_results t !! i) eqn:E; [|done].
      exfalso. apply (Hnew i Hi), H4. by eexists.
    + intros Hx. destruct (H3 i x Hx). split; [apply elem_of_app; by left|done].
  - intros i Hi. apply elem_of_app. left. auto.
  - done.
  - lia.
  - intros k [B1 B2]. split; simpl; [|lia]. rewrite Hr, B1. solve_Permutation.
Qed.
Lemma tr_result block i ok t runs :
  tr_inv block t runs → runs !! i = Some RunEval →
  tr_inv block (trace_result i ok t) (<[i := RunOffer ok]> runs) ∧
  ∀ k, balance t runs k → balance (trace_result i ok t) (<[i := RunOffer ok]> runs) k.
Proof.
  intros [H1 H2 H3 H4 H5 H6] Hi. destruct (H3 i _ Hi) as [Ht Hr].
  assert (size (<[i := RunOffer ok]> runs) = size runs) as Hsz.
  { rewrite map_size_insert, Hi. done. }
  split; [split; simpl; try done|].
  - intros j x [[<- <-]|[Hj Hx]]%lookup_insert_Some; [by rewrite lookup_insert_eq|].
    rewrite lookup_insert_ne by done. by apply H3.
  - intros j [y [[<- _]|[_ Hy]]%lookup_insert_Some]; [done|]. apply H4. by eexists.
  - intros j Hj. rewrite lookup_insert_ne; [by apply H5|]. intros <-. rewrite (H5 i Hj) in Hr. done.
  - lia.
  - intros k [B1 B2]. split; simpl; [|lia]. by rewrite running_set by (by eexists).
Qed.
Lemma tr_take block i ok t runs :
  tr_inv block t runs → runs !! i = Some (RunOffer ok) →
  pt_results t !! i = Some ok ∧ size (delete i runs) = pred (size runs) ∧ 0 < size runs ∧
  tr_inv block t (delete i runs) ∧
  (ok = false → tr_inv block (trace_fail i t) (delete i runs) ∧
    ∀ k, balance t runs (S k) → balance (trace_fail i t) (delete i runs) k) ∧
  (∀ k, balance t runs k → balance (trace_leave i t) (delete i runs) k).
Proof.
  intros [H1 H2 H3 H4 H5 H6] Hi. destruct (H3 i _ Hi) as [Ht Hr].
  pose proof (running_delete i runs ltac:(by eexists)) as Hp.
  pose proof (Permutation_length Hp) as Hl. cbn [length] in Hl. rewrite !running_length in Hl.
  assert (tr_inv block t (delete i runs)) as Hd.
  { split; try done; [|lia]. intros j x [_ Hx]%lookup_delete_Some. by apply H3. }
  split_and!; [done|lia|lia|done| |].
  - intros ->. destruct Hd as [D1 D2 D3 D4 D5 D6]. split; [split; simpl; try done|].
    + intros j [Hj| ->%list_elem_of_singleton]%elem_of_app; [by apply H5|done].
    + intros k [B1 B2]. split; simpl; [|lia]. rewrite B1, Hp. solve_Permutation.
  - intros k [B1 B2]. split; simpl; [|rewrite length_app; simpl; lia]. rewrite B1, Hp. solve_Permutation.
Qed.

(** *** The phases of a call *)
Definition same_call (e : parallelEval) (failed : list positive) : Prop :=
  let t := pe_trc e in
  pt_failed t = failed ∧ pt_left t = [] ∧ pe_runs e = ∅ ∧ pe_n e = 0.
Definition rest_ok (l : list positive) (k : nat) (e : parallelEval) : Prop :=
  let t := pe_trc e in
  pt_known t ≡ₚ pt_tried t ++ l ∧ pt_worked t `prefix_of` pt_tried t ∧ balance t (pe_runs e) k.
Definition phase_ok (settings : ClientStrategySettings) (e : parallelEval) : Prop :=
  let t := pe_trc e in
  match pe_at e with
  | PeStart | PeWeigh => same_call e [] ∧ pt_known t = [] ∧ pt_tried t = [] ∧ pt_worked t = []
  | PeSerial serial parallel _ =>
      same_call e (pt_tried t) ∧ pt_known t = pt_tried t ++ serial ++ parallel ∧ pt_worked t = pt_tried t ++ serial
  | PeSerialEval i serial parallel _ =>
      ∃ tried, pt_tried t = tried ++ [i] ∧ same_call e tried ∧ pt_known t = pt_tried t ++ serial ++ parallel ∧
        pt_worked t = pt_tried t ++ serial
  | PeParallel l | PeExpanding l => rest_ok l (pe_n e) e ∧ pe_n e ≤ ParallelBlockSize settings
  | PeExpand | PeExpandNew | PeWait => rest_ok [] (pe_n e) e ∧ pe_n e ≤ ParallelBlockSize settings
  | PeDrain k => rest_ok [] k e
  | PeReturn r =>
      (pt_tried t `prefix_of` pt_worked t ∧ pe_runs e = ∅ ∨ pt_worked t `prefix_of` pt_tried t) ∧
      match r with
      | PeTimeout => pe_done e = true
      | PeSelected i => pt_results t !! i = Some true
      | PeNoStrategy => pt_known t ≡ₚ pt_tried t ∧ pt_failed t ≡ₚ pt_tried t
      end
  end.
Record pe_base (settings : ClientStrategySettings) (e : parallelEval) : Prop := {
  pv_strategy : dialers_ok settings ∅ (pe_strategy e);
  pv_heap : Forall (λ i, is_Some (sg_heap (pe_strategy e) !! i)) (pt_known (pe_trc e));
  pv_trace : tr_inv (ParallelBlockSize settings) (pe_trc e) (pe_runs e);
  pv_sorted : StronglySorted (priority_order (pe_strategy e)) (pt_worked (pe_trc e));
  pv_worked i : i ∈ pt_worked (pe_trc e) → i ∈ pt_known (pe_trc e)
}.
Definition pe_inv (settings : ClientStrategySettings) (e : parallelEval) : Prop :=
  pe_base settings e ∧ phase_ok settings e.
(** A change of the strategy, by another call, a collapse or an update. *)
Lemma pe_strategy_base settings s e :
  pe_base settings e → dialers_ok settings ∅ s → sg_grows (pe_strategy e) s → pe_base settings (pe_set_strategy s e).
Proof.
  intros [H1 H2 H3 H4 H5] Hs Hg. split; simpl; try done.
  - eapply Forall_impl; [exact H2|]. simpl. intros i [d Hd]. destruct (Hg i d Hd) as (d' & ? & _). by eexists.
  - eapply grows_sorted; [done| |done]. rewrite Forall_forall in H2 |- *. auto.
Qed.
Lemma pe_collapse_base settings now e :
  pe_base settings e → pe_base settings (pe_set_strategy (collapseExtenderDialers settings now (pe_strategy e)) e).
Proof. intros He. apply pe_strategy_base; [done|apply collapse_ok, He|apply sg_drops_grow]. Qed.
Lemma phase_strategy settings s e : phase_ok settings e → phase_ok settings (pe_set_strategy s e).
Proof. done. Qed.
Lemma pe_set_base settings ph e : pe_base settings e → pe_base settings (pe_set ph e).
Proof. by intros [H1 H2 H3 H4 H5]. Qed.
(** [go run] for the first of the dialers that are left. *)
Lemma pe_start_base settings l rest n e k :
  pe_base settings e → rest_ok (l ++ rest) k e → k + length l ≤ ParallelBlockSize settings →
  pe_base settings (pe_start_all l n e) ∧ rest_ok rest (k + length l) (pe_start_all l n e).
Proof.
  intros [H1 H2 H3 H4 H5] (Hk & Hw & Hb) Hn.
  destruct (tr_start _ l rest _ _ H3 Hk) as [Ht Hb']; [destruct Hb as [_ Hb]; lia|].
  split; [by split|]. split_and!; simpl; [by rewrite Hk, app_assoc|by apply prefix_app_r|by apply Hb'].
Qed.
(** A result that the call takes. *)
Lemma pe_take_inv settings i next e o l k :
  pe_take i next e = Some o → pe_base settings e → rest_ok l (S k) e →
  (∀ e', pe_base settings e' → rest_ok l k e' → pe_n e' = pe_n e → pe_inv settings (next e')) →
  ∃ e', o = Val e' ∧ pe_inv settings e'.
Proof.
  unfold pe_take. destruct (pe_runs e !! i) as [[|ok]|] eqn:Ei; try done. intros [= <-] [H1 H2 H3 H4 H5] (Hk & Hw & Hb) Hnext.
  destruct (tr_take _ i ok _ _ H3 Ei) as (Hr & _ & _ & Hd & Hfail & _). eexists. split; [done|].
  unfold pe_result_of. destruct ok.
  - split; [by split|]. split; [by right|done].
  - destruct (Hfail eq_refl) as [Hf Hb']. apply Hnext; [by split| |done]. split_and!; [done|done|]. simpl. by apply Hb'.
Qed.
(** The end of the evaluation of a goroutine. *)
Lemma update_ok settings done ok now i s :
  dialers_ok settings ∅ s → let s' := sg_update (dialer_Update done ok now) i (sg_update HttpClient i s) in
  dialers_ok settings ∅ s' ∧ sg_grows s s'.
Proof.
  intros Hs s'. split.
  - apply (dialers_ok_shrinks _ _ s); [done| |done|done].
    eapply sg_shrinks_trans; apply sg_update_shrinks; [done|]. intros d. unfold dialer_Update. by destruct ok, done.
  - eapply sg_grows_trans; apply sg_update_grows; [done|]. intros d. apply update_priority.
Qed.
(** A change of the goroutines and of what they have to offer. *)
Lemma phase_runs settings e e' :
  phase_ok settings e → pe_runs e ≠ ∅ → pe_at e' = pe_at e → pe_n e' = pe_n e → pe_done e' = pe_done e →
  (∀ l k, rest_ok l k e → rest_ok l k e') → pt_known (pe_trc e') = pt_known (pe_trc e) →
  pt_tried (pe_trc e') = pt_tried (pe_trc e) → pt_worked (pe_trc e') = pt_worked (pe_trc e) →
  pt_failed (pe_trc e') = pt_failed (pe_trc e) →
  (∀ j, pt_results (pe_trc e) !! j = Some true → pt_results (pe_trc e') !! j = Some true) → phase_ok settings e'.
Proof.
  unfold phase_ok. intros Hp Hne -> -> -> Hrest -> -> -> -> Hres.
  destruct (pe_at e) as [| |s p w|j s p w|l| | |l| |k|r].
  - by destruct Hp as [(_ & _ & ? & _) _].
  - by destruct Hp as [(_ & _ & ? & _) _].
  - by destruct Hp as [(_ & _ & ? & _) _].
  - by destruct Hp as (? & _ & (_ & _ & ? & _) & _).
  - destruct Hp. auto.
  - destruct Hp. auto.
  - destruct Hp. auto.
  - destruct Hp. auto.
  - destruct Hp. auto.
  - auto.
  - destruct Hp as [[[_ ?]|Ho] Hr]; [done|]. split; [by right|]. destruct r; auto.
Qed.
Lemma pe_eval_end_inv settings i updated ok now e :
  pe_inv settings e → pe_runs e !! i = Some RunEval →
  pe_inv settings (let e := pe_evaluated i updated ok now e in pe_set_runs (pe_n e) (<[i := RunOffer ok]> (pe_runs e)) (pe_trc e) e).
Proof.
  intros [[H1 H2 H3 H4 H5] Hp] Hi.
  destruct (update_ok settings (pe_cancelled e) updated now i (pe_strategy e) H1) as [Hs Hg].
  destruct (tr_result _ i ok _ _ H3 Hi) as [Ht Hb].
  assert (pe_base settings (pe_set_strategy (pe_strategy (pe_evaluated i updated ok now e)) e)) as Hbase by (by apply pe_strategy_base).
  destruct Hbase as [B1 B2 B3 B4 B5]. split; [by split|]. apply (phase_runs _ e); try done.
  - intros E. by rewrite E, lookup_empty in Hi.
  - intros l k (R1 & R2 & R3). split_and!; [done|done|]. simpl. by apply Hb.
  - intros j Hj. simpl. rewrite lookup_insert_ne; [done|]. intros <-. destruct (ti_runs _ _ _ H3 _ _ Hi) as [_ E]. congruence.
Qed.
Lemma pe_leave_inv settings i ok e :
  pe_inv settings e → pe_runs e !! i = Some (RunOffer ok) →
  pe_inv settings (pe_set_runs (pe_n e) (delete i (pe_runs e)) (trace_leave i (pe_trc e)) e).
Proof.
  intros [[H1 H2 H3 H4 H5] Hp] Hi. destruct (tr_take _ i ok _ _ H3 Hi) as (_ & _ & _ & [D1 D2 D3 D4 D5 D6] & _ & Hb).
  split; [by split|]. apply (phase_runs _ e); try done.
  - intros E. by rewrite E, lookup_empty in Hi.
  - intros l k (R1 & R2 & R3). split_and!; [done|done|]. simpl. by apply Hb.
Qed.

Definition pe_label_ok (l : pe_label) : Prop :=
  match l with
  | PeOther l => sg_label_ok l
  | PeWeights order => ∀ l, order l ≡ₚ l
  | PeGrow env => Forall persona_ok (ee_personas env)
  | _ => True
  end.
Lemma dialerWeights_heap s i : i ∈ map fst (map_to_list (dialerWeights s)) → is_Some (sg_heap s !! i).
Proof.
  intros Hi. apply list_elem_of_fmap in Hi as ([j w] & -> & Hj%elem_of_map_to_list). simpl. unfold dialerWeights in Hj.
  case_bool_decide; rewrite lookup_fmap in Hj; apply fmap_Some in Hj as (d & Hd & _).
  - apply map_lookup_filter_Some in Hd as [Hd _]. by eexists.
  - apply map_lookup_filter_Some in Hd as [Hd _]. apply map_lookup_filter_Some in Hd as [Hd _]. by eexists.
Qed.
Lemma filter_split {A} (p : A → bool) l : List.filter p l ++ List.filter (λ x, negb (p x)) l ≡ₚ l.
Proof.
  induction l as [|x l IH]; simpl; [done|]. destruct (p x); simpl; [by rewrite IH|]. rewrite <-Permutation_middle. by rewrite IH.
Qed.
(** The weights are read. *)
Lemma pe_weights_inv settings order e e' :
  (∀ l, order l ≡ₚ l) → pe_at e = PeWeigh → pe_inv settings e → pe_step settings (PeWeights order) e = Some (Val e') →
  pe_inv settings e'.
Proof.
  intros Ho Ea [[H1 H2 [T1 T2 T3 T4 T5 T6] H4 H5] Hp]. unfold pe_step. rewrite Ea. intros [= <-].
  unfold phase_ok in Hp. rewrite Ea in Hp. destruct Hp as ((P1 & P2 & P3 & P4) & P5 & P6 & P7).
  set (s := pe_strategy e). set (ds := order (map fst (map_to_list (dialerWeights s)))).
  set (serial := merge_sort (priority_order s) (List.filter (sg_test IsLastSuccess s) ds)).
  set (parallel := List.filter (λ i, negb (sg_test IsLastSuccess s i)) ds).
  assert (serial ++ parallel ≡ₚ map fst (map_to_list (dialerWeights s))) as Hds.
  { unfold serial. rewrite merge_sort_Permutation, <-(Ho (map fst _)). fold ds. apply filter_split. }
  assert (StronglySorted (priority_order s) serial) as Hsort.
  { apply StronglySorted_merge_sort.
    - intros i j k Hij Hjk. unfold priority_order in *. lia.
    - intros i j. unfold priority_order. lia. }
  split; [split|]; simpl; rewrite ?P5, ?P6, ?P7; simpl.
  - done.
  - apply Forall_forall. intros i Hi. rewrite Hds in Hi. by apply dialerWeights_heap.
  - split; simpl; rewrite ?P5, ?P6, ?P7; simpl; try done.
    + rewrite Hds. apply NoDup_fst_map_to_list.
    + apply submseteq_nil_l.
    + intros i x Hx. by rewrite P3, lookup_empty in Hx.
    + intros i Hi. apply T4 in Hi. rewrite P6 in Hi. done.
  - done.
  - intros i Hi. apply elem_of_app. by left.
  - unfold phase_ok, same_call. simpl. rewrite ?P1, ?P2, ?P3, ?P4, ?P5, ?P6, ?P7. by split_and!.
Qed.
(** The end of an evaluation in the call itself. *)
Lemma pe_evaluated_inv settings i updated ok now serial parallel w e :
  pe_at e = PeSerialEval i serial parallel w → pe_inv settings e →
  pe_inv settings (pe_result_of i ok (pe_set (PeSerial serial parallel w)) (pe_evaluated i updated ok now e)).
Proof.
  intros Ea [[H1 H2 [T1 T2 T3 T4 T5 T6] H4 H5] Hp]. unfold phase_ok in Hp. rewrite Ea in Hp.
  destruct Hp as (tried & Pt & (P1 & P2 & P3 & P4) & P5 & P6).
  destruct (update_ok settings (pe_cancelled e) updated now i (pe_strategy e) H1) as [Hs Hg].
  assert (pe_base settings (pe_evaluated i updated ok now e)) as Hb.
  { assert (pe_base settings e) as Hb by (by split).
    destruct (pe_strategy_base settings _ e Hb Hs Hg) as [B1 B2 B3 B4 B5]. split; [done|done| |done|done].
    pose proof T1 as Hnd. rewrite P5, Pt in Hnd.
    split; simpl; [done|done|intros j x Hx; by rewrite P3, lookup_empty in Hx| | |done].
    - intros j [y [[<- _]|[_ Hy]]%lookup_insert_Some]; [rewrite Pt; set_solver|]. apply T4. by eexists.
    - intros j Hj. rewrite lookup_insert_ne; [by apply T5|]. intros <-. rewrite P1 in Hj.
      apply NoDup_app in Hnd as (Hnd & _ & _). apply NoDup_app in Hnd as (_ & Hnd & _). by apply (Hnd i Hj), list_elem_of_singleton. }
  destruct Hb as [B1 B2 B3 B4 B5]. unfold pe_result_of. destruct ok.
  - split; [by split|]. split; simpl; [left|by rewrite lookup_insert_eq]. split; [|done]. rewrite P6. by apply prefix_app_r.
  - split; [split; simpl; try done|].
    + destruct B3 as [C1 C2 C3 C4 C5 C6]. split; simpl; try done.
      intros j [Hj| ->%list_elem_of_singleton]%elem_of_app; [by apply C5|]. by rewrite lookup_insert_eq.
    + unfold phase_ok, same_call. simpl. rewrite P1, P2, P3, P4. by split_and!.
Qed.
(** The first goroutines. *)
Lemma pe_shuffle_inv settings rand_int rand_float parallel w e :
  pe_at e = PeSerial [] parallel w → pe_inv settings e →
  ∃ e', pe_step settings (PeShuffle rand_int rand_float) e = Some (Val e') ∧ pe_inv settings e'.
Proof.
  intros Ea [Hb Hp]. unfold phase_ok in Hp. rewrite Ea in Hp. destruct Hp as ((P1 & P2 & P3 & P4) & P5 & P6).
  unfold pe_step. rewrite Ea. unfold WeightedShuffle, WeightedShuffleWithEntropy.
  assert (∀ k n, 0 < n → rand_int k n mod n < n) as Hr by (intros k n Hn; apply Nat.mod_upper_bound; lia).
  destruct (weighted_shuffle_ok _ rand_float Hr parallel (λ v, default f32_zero (w !! v)) f32_zero) as (parallel' & -> & Hperm).
  cbn [obind]. eexists. split; [done|]. set (n := min (length parallel') (ParallelBlockSize settings)).
  assert (length (take n parallel') = n) as Hn by (rewrite length_take; lia).
  assert (rest_ok (take n parallel' ++ drop n parallel') 0 e) as Hrest.
  { split_and!; [rewrite take_drop, P5, Hperm; done|rewrite P6, app_nil_r; done|]. unfold balance. rewrite P1, P2, P3.
    split; [by rewrite !app_nil_r|done]. }
  destruct (pe_start_base settings _ _ n e 0 Hb Hrest) as [Hb' Hr']; [lia|].
  split; [by apply pe_set_base|]. rewrite Hn in Hr'. split; [exact Hr'|simpl; lia].
Qed.
(** New dialers. *)
Lemma pe_grow_inv settings env e :
  Forall persona_ok (ee_personas env) → pe_at e = PeExpandNew → pe_inv settings e →
  ∃ e', pe_step settings (PeGrow env) e = Some (Val e') ∧ pe_inv settings e'.
Proof.
  intros Hpe Ea [Hb Hp]. unfold phase_ok in Hp. rewrite Ea in Hp. destruct Hp as [(R1 & R2 & R3) Hn].
  unfold pe_step. rewrite Ea.
  destruct (expand_ok settings ∅ env (pe_strategy e) Hpe (pv_strategy _ _ Hb)) as (is_ & s' & Eexp & Hok & Hnd & Hnew & Hheap).
  rewrite Eexp. cbn [obind]. pose proof (expand_grows _ _ _ _ _ Hpe (pv_strategy _ _ Hb) Eexp) as Hg.
  destruct (pe_strategy_base settings s' e Hb Hok Hg) as [B1 B2 B3 B4 B5].
  destruct (length is_ =? 0); eexists (_ : parallelEval); (split; [done|]).
  - split; [by split|]. by split_and!.
  - set (e1 := pe_set_runs _ _ _ _). set (m := min (length is_) (ParallelBlockSize settings - pe_n _)).
    assert (∀ i, i ∈ is_ → i ∉ pt_known (pe_trc e)) as Hfresh.
    { intros i Hi Hk. pose proof (pv_heap _ _ Hb) as Hh. rewrite Forall_forall in Hh.
      destruct (Hh i Hk) as [d Hd], (Hnew i Hi) as [Hno _]. congruence. }
    assert (pe_base settings e1) as Hb1.
    { destruct B3 as [C1 C2 C3 C4 C5 C6]. split; simpl; rewrite ?app_nil_r; try done.
      - apply Forall_app. split; [done|]. apply Forall_forall. intros i Hi. apply (si_dialers _ (do_inv _ _ _ Hok)). by apply Hnew.
      - split; simpl; try done.
        + apply NoDup_app. split_and!; [done| |done]. intros i Hi Hi'. by apply (Hfresh i).
        + by apply submseteq_inserts_r.
      - intros i Hi. apply elem_of_app. left. auto. }
    assert (rest_ok (take m is_ ++ drop m is_) (pe_n e) e1) as Hrest.
    { split_and!; simpl; [|by rewrite app_nil_r|done]. rewrite take_drop, R1, app_nil_r. done. }
    assert (length (take m is_) = m) as Hm by (rewrite length_take; lia).
    assert (m + pe_n e ≤ ParallelBlockSize settings) as Hmn.
    { unfold m. simpl. lia. }
    destruct (pe_start_base settings _ _ (pe_n e + m) e1 (pe_n e) Hb1 Hrest) as [Hb' Hr']; [lia|].
    split; [by apply pe_set_base|]. rewrite Hm in Hr'. split; [exact Hr'|simpl; lia].
Qed.
(** A step of the call that waits for nothing. *)
Lemma pe_timeout_inv settings l k e :
  pe_base settings e → pe_done e = true → rest_ok l k e → pe_inv settings (pe_set (PeReturn PeTimeout) e).
Proof. intros Hb Ht (_ & Hw & _). split; [by apply pe_set_base|]. by split; [right|]. Qed.
Lemma pe_next_inv settings e r :
  pe_inv settings e → pe_step settings PeNext e = Some r → ∃ e', r = Val e' ∧ pe_inv settings e'.
Proof.
  intros [Hb Hp].
  unfold pe_step. unfold phase_ok in Hp. destruct (pe_at e) as [| |[|i s] p w| |[|j l]| | |[|j l]| |[|k]|] eqn:Ea; try done.
  - intros [= <-]. eexists. split; [done|]. destruct Hp as ((P1 & P2 & P3 & P4) & P5 & P6). destruct (pe_done e) eqn:Edone.
    + split; [by apply pe_set_base|]. split; [left|done]. split; [|done]. simpl. rewrite P6. by apply prefix_app_r.
    + destruct Hb as [B1 B2 [C1 C2 C3 C4 C5 C6] B4 B5]. split; [split; try done|].
      * split; simpl; try done.
        -- rewrite P5. change (i :: s) with ([i] ++ s). rewrite <-!app_assoc, app_assoc. by apply submseteq_inserts_r.
        -- intros j x Hx. by rewrite P3, lookup_empty in Hx.
        -- intros j Hj. apply elem_of_app. left. auto.
      * unfold phase_ok. simpl. exists (pt_tried (pe_trc e)). split_and!; try done; simpl.
        -- by rewrite P5, <-app_assoc.
        -- by rewrite P6, <-app_assoc.
  - intros [= <-]. eexists. split; [done|]. split; [by apply pe_set_base|exact Hp].
  - destruct (pe_done e) eqn:Edone; [|done]. intros [= <-]. eexists. split; [done|]. eapply pe_timeout_inv; [done|done|apply Hp].
  - destruct (pe_done e) eqn:Edone; [|done]. intros [= <-]. eexists. split; [done|]. eapply pe_timeout_inv; [done|done|apply Hp].
  - intros [= <-]. eexists. split; [done|]. split; [by apply pe_set_base|exact Hp].
  - destruct (pe_done e) eqn:Edone; [|done]. intros [= <-]. eexists. split; [done|]. eapply pe_timeout_inv; [done|done|apply Hp].
  - intros [= <-]. eexists. split; [done|]. destruct (pe_done e) eqn:Edone; [eapply pe_timeout_inv; [done|done|apply Hp]|].
    split; [by apply pe_set_base|exact Hp].
  - intros [= <-]. eexists. split; [done|]. split; [by apply pe_set_base|]. destruct Hp as (R1 & R2 & R3 & R4).
    split; [by right|]. split; simpl; [by rewrite R1, app_nil_r|].
    assert (running (pe_runs e) = []) as Er by (apply nil_length_inv; rewrite running_length; lia).
    assert (pt_left (pe_trc e) = []) as El by (apply nil_length_inv; lia).
    by rewrite R3, Er, El, !app_nil_r.
  - destruct (pe_done e) eqn:Edone; [|done]. intros [= <-]. eexists. split; [done|]. eapply pe_timeout_inv; [done|done|apply Hp].
Qed.
(** The call takes a result. *)
Lemma pe_take_next settings i j l ph e r :
  (∀ e', pe_n e' = pe_n e → rest_ok l (pe_n e) e' → pe_n e ≤ ParallelBlockSize settings → phase_ok settings (pe_set ph e')) →
  pe_base settings e → rest_ok (j :: l) (pe_n e) e → pe_n e ≤ ParallelBlockSize settings →
  pe_take i (λ e, pe_set ph (pe_start_all [j] (pe_n e) e)) e = Some r → ∃ e', r = Val e' ∧ pe_inv settings e'.
Proof.
  intros Hph Hb Hrest Hn E. destruct (pe_n e) as [|k] eqn:En.
  { exfalso. destruct Hrest as (_ & _ & _ & Hz). unfold pe_take in E. destruct (pe_runs e !! i) eqn:Ei; [|done].
    assert (size (pe_runs e) = 0) as Hz0 by lia. apply map_size_empty_inv in Hz0. by rewrite Hz0, lookup_empty in Ei. }
  eapply (pe_take_inv _ _ _ e _ (j :: l) k); [exact E|done|done|]. intros e' Hb' Hr' Hn'.
  destruct (pe_start_base settings [j] l (S k) e' k Hb' Hr') as [Hb2 Hr2]; [simpl; lia|].
  simpl in Hr2. rewrite Nat.add_1_r in Hr2. rewrite Hn', En. split; [by apply pe_set_base|]. by apply Hph.
Qed.
Lemma pe_take_step_inv settings i e r :
  pe_inv settings e → pe_step settings (PeTake i) e = Some r → ∃ e', r = Val e' ∧ pe_inv settings e'.
Proof.
  intros [Hb Hp]. unfold pe_step. unfold phase_ok in Hp.
  destruct (pe_at e) as [| | | |[|j l]| | |[|j l]| |[|k]|] eqn:Ea; try done; intros E.
  - destruct Hp as [Hrest Hn]. eapply pe_take_next; [|done|exact Hrest|exact Hn|exact E].
    intros e' En Hr Hn'. by unfold phase_ok; simpl; rewrite En.
  - destruct Hp as [Hrest Hn]. eapply pe_take_next; [|done|exact Hrest|exact Hn|exact E].
    intros e' En Hr Hn'. by unfold phase_ok; simpl; rewrite En.
  - eapply (pe_take_inv _ _ _ e _ [] k); [exact E|done|exact Hp|]. intros e' Hb' Hr' _.
    split; [by apply pe_set_base|exact Hr'].
Qed.
Lemma pe_step_inv settings l e r :
  (MinNextConnectDelay settings < MaxNextConnectDelay settings)%Z → pe_label_ok l → pe_inv settings e →
  pe_step settings l e = Some r → ∃ e', r = Val e' ∧ pe_inv settings e'.
Proof.
  intros Hd Hl He. pose proof He as [Hb Hp].
  destruct l as [|sl|now|order|ri rf| |upd ok now|i upd ok now|i|i|env].
  - intros [= <-]. eexists. split; [done|]. destruct Hb as [B1 B2 B3 B4 B5]. split; [by split|].
    unfold phase_ok in *. simpl. destruct (pe_at e) as [| | | | | | | | | |[]]; try exact Hp. by destruct Hp.
  - intros [= <-]. destruct (sg_step_ok settings ∅ sl (pe_strategy e) Hd Hl (pv_strategy _ _ Hb)) as (s' & Es & Hok).
    rewrite Es. eexists. split; [done|]. split; [|done]. apply pe_strategy_base; [done|done|].
    eapply sg_step_grows; [exact Hl|apply Hb|exact Es].
  - unfold pe_step. destruct (pe_at e) as [| | | | | | | | | |] eqn:Ea; try done; [|destruct (pe_done e); [done|]]; intros [= <-];
      eexists; (split; [done|]); (split; [by apply pe_set_base, pe_collapse_base|]); unfold phase_ok in *; rewrite Ea in Hp; exact Hp.
  - intros E. assert (pe_at e = PeWeigh) as Ea by (unfold pe_step in E; by destruct (pe_at e)).
    unfold pe_step in E. rewrite Ea in E. injection E as <-. eexists. split; [done|]. eapply (pe_weights_inv _ order e); [done..|].
    unfold pe_step. by rewrite Ea.
  - intros E. assert (∃ p w, pe_at e = PeSerial [] p w) as (p & w & Ea).
    { unfold pe_step in E. destruct (pe_at e) as [| |[|? ?] ? ?| | | | | | | |]; try done. by eexists _, _. }
    destruct (pe_shuffle_inv settings ri rf p w e Ea He) as (e' & E' & He'). rewrite E' in E. injection E as <-. by exists e'.
  - by apply pe_next_inv.
  - unfold pe_step. destruct (pe_at e) as [| | |i s p w| | | | | | |] eqn:Ea; try done. destruct (implb ok upd); [|done]. intros [= <-]. eexists. split; [done|].
    by apply pe_evaluated_inv.
  - intros E. assert (pe_runs e !! i = Some RunEval) as Ei.
    { unfold pe_step in E. destruct (pe_at e), (pe_runs e !! i) as [[|]|]; done. }
    assert (pe_step settings (PeEvalEnd i upd ok now) e = if implb ok upd then Some (Val (let e := pe_evaluated i upd ok now e in
      pe_set_runs (pe_n e) (<[i := RunOffer ok]> (pe_runs e)) (pe_trc e) e)) else None) as E'.
    { unfold pe_step. rewrite Ei. by destruct (pe_at e). }
    destruct (implb ok upd); [|congruence].
    rewrite E' in E. injection E as <-. eexists. split; [done|]. by apply pe_eval_end_inv.
  - by apply pe_take_step_inv.
  - intros E. assert (∃ ok, pe_runs e !! i = Some (RunOffer ok)) as [ok Ei].
    { unfold pe_step in E. destruct (pe_at e), (pe_runs e !! i) as [[|]|]; try done; by eexists. }
    assert (r = Val (pe_set_runs (pe_n e) (delete i (pe_runs e)) (trace_leave i (pe_trc e)) e)) as ->.
    { unfold pe_step in E. rewrite Ei in E. destruct (pe_at e), (pe_cancelled e); try done; by injection E as <-. }
    eexists. split; [done|]. by eapply pe_leave_inv.
  - intros E. assert (pe_at e = PeExpandNew) as Ea by (unfold pe_step in E; by destruct (pe_at e)).
    destruct (pe_grow_inv settings env e Hl Ea He) as (e' & E' & He'). rewrite E' in E. injection E as <-. by exists e'.
Qed.

Lemma new_call_inv settings s : dialers_ok settings ∅ s → pe_inv settings (new_parallelEval s).
Proof.
  intros Hs. split; [|by split_and!]. split; simpl.
  - done.
  - constructor.
  - split; simpl.
    + constructor.
    + done.
    + intros i x Hx. by rewrite lookup_empty in Hx.
    + intros i Hi. rewrite lookup_empty in Hi. by apply is_Some_None in Hi.
    + intros i Hi. by apply not_elem_of_nil in Hi.
    + rewrite map_size_empty. lia.
  - constructor.
  - done.
Qed.
Lemma pe_steps_inv settings ls e r :
  (MinNextConnectDelay settings < MaxNextConnectDelay settings)%Z → Forall pe_label_ok ls → pe_inv settings e →
  pe_steps settings ls e = Some r → ∃ e', r = Val e' ∧ pe_inv settings e'.
Proof.
  intros Hd Hls. revert e. induction Hls as [|l ls Hl _ IH]; intros e He; cbn [pe_steps]; [intros [= <-]; by exists e|].
  destruct (pe_step settings l e) as [o|] eqn:E; [|done].
  destruct (pe_step_inv settings l e o Hd Hl He E) as (e1 & -> & He1). by apply IH.
Qed.
Lemma base_weaken settings base s : dialers_ok settings base s → dialers_ok settings ∅ s.
Proof. intros [H1 H2 H3 H4 H5]. split; try done; intros i Hi; by apply elem_of_empty in Hi. Qed.
Lemma phase_order settings e :
  phase_ok settings e →
  pt_tried (pe_trc e) `prefix_of` pt_worked (pe_trc e) ∧ pe_runs e = ∅ ∨ pt_worked (pe_trc e) `prefix_of` pt_tried (pe_trc e).
Proof.
  unfold phase_ok. destruct (pe_at e) as [| |s p w|j s p w|l| | |l| |k|r].
  - intros ((_ & _ & ? & _) & _ & -> & ->). by left.
  - intros ((_ & _ & ? & _) & _ & -> & ->). by left.
  - intros ((_ & _ & ? & _) & _ & ->). left. split; [by apply prefix_app_r|done].
  - intros (t & _ & (_ & _ & ? & _) & _ & ->). left. split; [by apply prefix_app_r|done].
  - intros [(_ & ? & _) _]. by right.
  - intros [(_ & ? & _) _]. by right.
  - intros [(_ & ? & _) _]. by right.
  - intros [(_ & ? & _) _]. by right.
  - intros [(_ & ? & _) _]. by right.
  - intros (_ & ? & _). by right.
  - by intros [? _].
Qed.

(** *** The dialers that worked last *)
(** A call uses the dialers of the strategy; the extenders only, when the
    strategy has custom ones. *)
Definition in_use (s : ClientStrategy) (i : positive) (d : clientDialer) : Prop :=
  i ∈ sg_dialers s ∧ sg_heap s !! i = Some d ∧ (extenderIpSecrets s = ∅ ∨ is_Some (cd_extenderConfig d)).
Lemma dialerWeights_in_use s i :
  i ∈ map fst (map_to_list (dialerWeights s)) ↔ ∃ d, in_use s i d.
Proof.
  transitivity (is_Some (dialerWeights s !! i)).
  { rewrite list_elem_of_fmap. split.
    - intros ([j w] & -> & Hj%elem_of_map_to_list). by exists w.
    - intros [w Hw]. exists (i, w). split; [done|]. by apply elem_of_map_to_list. }
  unfold dialerWeights, in_use. case_bool_decide as Ee; rewrite lookup_fmap, fmap_is_Some.
  - split.
    + intros [d [Hd Hi]%map_lookup_filter_Some]. exists d. auto.
    + intros (d & Hi & Hd & _). exists d. by apply map_lookup_filter_Some.
  - split.
    + intros [d [[Hd Hi]%map_lookup_filter_Some Hx]%map_lookup_filter_Some]. exists d. split; [done|]. split; [done|]. right.
      unfold IsExtender in Hx. simpl in Hx. by destruct (cd_extenderConfig d).
    + intros (d & Hi & Hd & [?|[c Hc]]); [done|]. exists d. apply map_lookup_filter_Some. split; [by apply map_lookup_filter_Some|].
      unfold IsExtender. simpl. by rewrite Hc.
Qed.
(** The weighing finds them. *)
Lemma serial_dialers s order i :
  (∀ l, order l ≡ₚ l) →
  i ∈ merge_sort (priority_order s) (List.filter (sg_test IsLastSuccess s) (order (map fst (map_to_list (dialerWeights s)))))
  ↔ ∃ d, in_use s i d ∧ (cd_lastErrorTime d ≤ cd_lastSuccessTime d)%Z.
Proof.
  intros Ho. rewrite merge_sort_Permutation, list_elem_of_In, filter_In, <-list_elem_of_In, Ho, dialerWeights_in_use.
  unfold sg_test, IsLastSuccess. split.
  - intros [(d & Hd) Ht]. exists d. split; [done|]. destruct Hd as (_ & Hd & _). rewrite Hd in Ht.
    apply negb_true_iff, Z.ltb_ge in Ht. done.
  - intros (d & Hd & Ht). split; [by exists d|]. destruct Hd as (_ & -> & _). by apply negb_true_iff, Z.ltb_ge.
Qed.
(** They are found once. *)
Definition weighed (e : parallelEval) : bool := match pe_at e with PeStart | PeWeigh => false | _ => true end.
Lemma pe_take_worked i next e o :
  (∀ e, weighed (next e) = true ∧ pt_worked (pe_trc (next e)) = pt_worked (pe_trc e)) →
  pe_take i next e = Some (Val o) → weighed o = true ∧ pt_worked (pe_trc o) = pt_worked (pe_trc e).
Proof.
  intros Hn. unfold pe_take. destruct (pe_runs e !! i) as [[|ok]|]; [done| |done]. intros [= <-]. unfold pe_result_of.
  destruct ok; [done|]. set (e1 := pe_set_runs _ _ _ _). destruct (Hn e1) as [H1 H2]. by rewrite H2.
Qed.
Lemma pe_step_worked settings l e e' :
  weighed e = true → pe_step settings l e = Some (Val e') → weighed e' = true ∧ pt_worked (pe_trc e') = pt_worked (pe_trc e).
Proof.
  intros Hw E. unfold weighed in Hw. unfold pe_step in E.
  destruct l as [|sl|now|order|ri rf| |upd ok now|i upd ok now|i|i|env]; destruct (pe_at e) as [| |[|j s] p w|j s p w|[|j p]| | |[|j p]| |[|k]|r] eqn:Ea;
    try done; try (destruct (pe_done e); [|done]); try (injection E as <-; unfold weighed; simpl; rewrite ?Ea; done);
    try (destruct (pe_runs e !! i) as [[|ok']|]; try done; try (destruct (implb ok upd); [|done]); try (destruct (pe_cancelled e); [|done]);
         injection E as <-; unfold weighed; simpl; rewrite ?Ea; done);
    try (eapply pe_take_worked in E; [exact E|done]);
    try (destruct (sg_step settings sl (pe_strategy e)); try done; injection E as <-; unfold weighed; simpl; rewrite ?Ea; done).
  - destruct (pe_done e); [done|]. by injection E as <-.
  - destruct (WeightedShuffle _ _ _ _); try done. by injection E as <-.
  - injection E as <-. by destruct (pe_done e).
  - injection E as <-. by destruct (pe_done e).
  - destruct (implb ok upd); [|done]. injection E as <-. unfold pe_result_of. by destruct ok.
  - destruct (expandExtenderDialers _ _ _) as [[expanded s]| |]; try done. cbn [obind] in E.
    destruct (length expanded =? 0); injection E as <-; simpl; [done|]. by rewrite app_nil_r.
Qed.
Lemma pe_steps_worked settings ls e e' :
  weighed e = true → pe_steps settings ls e = Some (Val e') → weighed e' = true ∧ pt_worked (pe_trc e') = pt_worked (pe_trc e).
Proof.
  revert e. induction ls as [|l ls IH]; intros e Hw E; cbn [pe_steps] in E; [by injection E as <-|].
  destruct (pe_step settings l e) as [[e1| |]|] eqn:E1; try done. destruct (pe_step_worked settings l e e1 Hw E1) as [H1 <-]. by apply IH.
Qed.
(** Before the weighing, a step is the weighing, or tries nothing. *)
Lemma pe_step_before settings l e e' :
  weighed e = false → pe_step settings l e = Some (Val e') →
  (weighed e' = false ∧ pt_tried (pe_trc e') = pt_tried (pe_trc e)) ∨ (∃ order, l = PeWeights order ∧ pe_at e = PeWeigh).
Proof.
  intros Hw E. unfold weighed in Hw. unfold pe_step in E.
  destruct l as [|sl|now|order|ri rf| |upd ok now|i upd ok now|i|i|env], (pe_at e) as [| |[|j s] p w|j s p w|[|j p]| | |[|j p]| |[|k]|r] eqn:Ea;
    try done; try (injection E as <-; left; unfold weighed; simpl; rewrite ?Ea; done);
    try (right; by eexists);
    try (destruct (pe_runs e !! i) as [[|ok']|]; try done; try (destruct (implb ok upd); [|done]); try (destruct (pe_cancelled e); [|done]);
         injection E as <-; left; unfold weighed; simpl; rewrite ?Ea; done).
  all: destruct (sg_step settings sl (pe_strategy e)); try done; injection E as <-; left; unfold weighed; simpl; rewrite ?Ea; done.
Qed.
Definition worked_first (e1 : parallelEval) (worked : list positive) (e : parallelEval) : Prop :=
  let s := pe_strategy e1 in
  NoDup worked ∧ StronglySorted (priority_order s) worked ∧
  (∀ i, i ∈ worked ↔ ∃ d, in_use s i d ∧ (cd_lastErrorTime d ≤ cd_lastSuccessTime d)%Z) ∧
  (pt_tried (pe_trc e) `prefix_of` worked ∧ pe_runs e = ∅ ∨ worked `prefix_of` pt_tried (pe_trc e)).
Lemma pe_steps_order settings ls e e' :
  (MinNextConnectDelay settings < MaxNextConnectDelay settings)%Z → Forall pe_label_ok ls →
  weighed e = false → pe_inv settings e → pe_steps settings ls e = Some (Val e') →
  pt_tried (pe_trc e') = pt_tried (pe_trc e) ∨
  ∃ ls1 order ls2 e1 worked, ls = ls1 ++ PeWeights order :: ls2 ∧ pe_steps settings ls1 e = Some (Val e1) ∧ worked_first e1 worked e'.
Proof.
  intros Hd Hls. revert e. induction Hls as [|l ls Hl Hls IH]; intros e Hw He E; cbn [pe_steps] in E; [left; by injection E as <-|].
  destruct (pe_step settings l e) as [[e1| |]|] eqn:E1; try done.
  destruct (pe_step_inv settings l e (Val e1) Hd Hl He E1) as (e1' & [= <-] & He1).
  destruct (pe_step_before settings l e e1 Hw E1) as [[Hw1 Ht]|(order & -> & Ea)].
  - destruct (IH e1 Hw1 He1 E) as [->|(ls1 & order & ls2 & e2 & worked & -> & E2 & H2)]; [by left|right].
    exists (l :: ls1), order, ls2, e2, worked. split; [done|]. split; [|done]. cbn [pe_steps]. by rewrite E1.
  - right. simpl in Hl. exists [], order, ls, e. destruct (pe_steps_inv settings ls e1 (Val e') Hd Hls He1 E) as (? & [= <-] & [[B1 B2 B3 B4 B5] Hp]).
    destruct (pe_steps_worked settings ls e1 e') as [_ Hwk]; [|exact E|].
    { unfold pe_step in E1. rewrite Ea in E1. by injection E1 as <-. }
    unfold pe_step in E1. rewrite Ea in E1. injection E1 as <-. simpl in Hwk.
    destruct He as [_ Hpe]. unfold phase_ok in Hpe. rewrite Ea in Hpe. destruct Hpe as (_ & _ & _ & Hnil). rewrite Hnil in Hwk. simpl in Hwk.
    set (s := pe_strategy e) in *. set (worked := merge_sort _ _) in Hwk. exists worked. split; [done|]. split; [done|].
    assert (NoDup worked) as Hnd.
    { unfold worked. rewrite merge_sort_Permutation. apply NoDup_ListNoDup, List.NoDup_filter, NoDup_ListNoDup. rewrite Hl.
      apply NoDup_fst_map_to_list. }
    split; [exact Hnd|]. split.
    { apply StronglySorted_merge_sort; [intros i j k Hij Hjk|intros i j]; unfold priority_order in *; lia. }
    split; [intros i; by apply serial_dialers|]. rewrite <-Hwk. by apply (phase_order settings).
Qed.

(** C29. The tries of a call, in every interleaving of its goroutines, of other
    calls on the strategy and of its context, with any random numbers, none of
    which panics: no dialer is tried twice; when one is tried, the dialers that
    worked last, those in use at the weighing whose last error is not after their
    last success, are tried before all others, one after the other in the order
    of their priority, before a goroutine runs; never more than a block of
    goroutines run at once; a dialer is returned only if its evaluation
    succeeded, and no strategy is found only if every dialer that the call knew
    of, the new ones included, was tried and failed; and a timeout is returned
    only when the context is done. An evaluation can fail although the dialer
    recorded a success, when the body of the response cannot be read. *)
Theorem parallel_eval_tries (settings : ClientStrategySettings) (ls0 : list sg_label) (s0 : ClientStrategy)
    (ls : list pe_label) (r : outcome parallelEval) :
  (MinNextConnectDelay settings < MaxNextConnectDelay settings)%Z → Forall sg_label_ok ls0 → Forall pe_label_ok ls →
  sg_steps settings ls0 (NewClientStrategy settings) = Val s0 → pe_steps settings ls (new_parallelEval s0) = Some r →
  ∃ e, r = Val e ∧ let t := pe_trc e in
    NoDup (pt_known t) ∧ pt_tried t ⊆+ pt_known t ∧
    (pt_tried t = [] ∨
     ∃ ls1 order ls2 e1 worked, ls = ls1 ++ PeWeights order :: ls2 ∧
       pe_steps settings ls1 (new_parallelEval s0) = Some (Val e1) ∧
       NoDup worked ∧ StronglySorted (priority_order (pe_strategy e1)) worked ∧
       (∀ i, i ∈ worked ↔ ∃ d, i ∈ sg_dialers (pe_strategy e1) ∧ sg_heap (pe_strategy e1) !! i = Some d ∧
          (extenderIpSecrets (pe_strategy e1) = ∅ ∨ is_Some (cd_extenderConfig d)) ∧
          (cd_lastErrorTime d ≤ cd_lastSuccessTime d)%Z) ∧
       (pt_tried t `prefix_of` worked ∧ pe_runs e = ∅ ∨ worked `prefix_of` pt_tried t)) ∧
    size (pe_runs e) ≤ ParallelBlockSize settings ∧
    (∀ i, pe_at e = PeReturn (PeSelected i) → pt_results t !! i = Some true) ∧
    (pe_at e = PeReturn PeNoStrategy → pt_tried t ≡ₚ pt_known t ∧ ∀ i, i ∈ pt_known t → pt_results t !! i = Some false) ∧
    (pe_at e = PeReturn PeTimeout → pe_done e = true).
Proof.
  intros Hd Hls0 Hls E0 E. destruct (sg_steps_ok settings _ ls0 _ Hd Hls0 (new_dialers_ok settings)) as (s & Es & Hok).
  rewrite E0 in Es. injection Es as <-. pose proof (new_call_inv settings s0 (base_weaken _ _ _ Hok)) as Hnew.
  destruct (pe_steps_inv settings ls _ r Hd Hls Hnew E) as (e & -> & [H1 H2 H3 H4 H5] & Hp).
  exists e. split; [done|]. destruct H3 as [T1 T2 T3 T4 T5 T6]. pose proof (pe_steps_order settings ls (new_parallelEval s0) e Hd Hls eq_refl Hnew E) as Ho.
  split_and!; try done.
  - destruct Ho as [->|(ls1 & order & ls2 & e1 & worked & E1 & E2 & W1 & W2 & W3 & W4)]; [by left|right].
    exists ls1, order, ls2, e1, worked. split_and!; try done. intros i. rewrite W3. unfold in_use.
    split; intros (d & Hi); exists d; tauto.
  - intros i Ea. unfold phase_ok in Hp. rewrite Ea in Hp. apply Hp.
  - intros Ea. unfold phase_ok in Hp. rewrite Ea in Hp. destruct Hp as (_ & Hk & Hf). split; [done|].
    intros i Hi. apply T5. by rewrite Hf, <-Hk.
  - intros Ea. unfold phase_ok in Hp. rewrite Ea in Hp. apply Hp.
Qed.


(** ** Evaluations one after the other *)
(** [serialEval]: the request itself is tried only with the dialers that worked
    last, one at a time; when all have failed, a hello is evaluated in parallel,
    again and again until one has worked. *)
Inductive se_phase :=
| SeTop
| SeCollapsed
| SeSerial (serial : list positive)
| SeEval (i : positive) (serial : list positive)
| SeHello (e : parallelEval)
| SeCheck
| SeWait
| SeReturn (r : pe_result).
Record serialEval := mkSerialEval {
  se_strategy : ClientStrategy;        (** while a hello is evaluated, that of the hello *)
  se_done : bool;
  se_at : se_phase;
  se_requests : list (positive * bool)   (** the evaluations of the request that have ended *)
}.
Definition new_serialEval (s : ClientStrategy) : serialEval := mkSerialEval s false SeTop [].
Definition se_set (ph : se_phase) (e : serialEval) : serialEval :=
  mkSerialEval (se_strategy e) (se_done e) ph (se_requests e).
Definition se_set_strategy (s : ClientStrategy) (e : serialEval) : serialEval :=
  mkSerialEval s (se_done e) (se_at e) (se_requests e).
Definition pe_cancel (e : parallelEval) : parallelEval :=
  mkParallelEval (pe_strategy e) true (pe_at e) (pe_n e) (pe_runs e) (pe_trc e).
Inductive se_label :=
| SeDone
| SeOther (l : sg_label)
| SeCollapse (now : time)
| SeWeights (order : list positive → list positive)
| SeNext
| SeEvaluated (updated ok : bool) (now : time)
| SeStep (l : pe_label).               (** a step of the hello *)
Definition se_step (settings : ClientStrategySettings) (l : se_label) (e : serialEval) : option (outcome serialEval) :=
  match l, se_at e with
  | SeDone, SeHello h => Some (Val (mkSerialEval (se_strategy e) true (SeHello (pe_cancel h)) (se_requests e)))
  | SeDone, ph => Some (Val (mkSerialEval (se_strategy e) true ph (se_requests e)))
  | SeStep l, SeHello h =>
      match pe_step settings l h with
      | Some o => Some (let! h := o in Val (se_set (SeHello h) (se_set_strategy (pe_strategy h) e)))
      | None => None
      end
  | SeOther l, SeHello _ => None        (** a step of the hello, [PeOther] *)
  | SeOther l, _ => Some (let! s := sg_step settings l (se_strategy e) in Val (se_set_strategy s e))
  | SeNext, SeTop => if se_done e then Some (Val (se_set (SeReturn PeTimeout) e)) else None
  | SeCollapse now, SeTop =>
      if se_done e then None
      else Some (Val (se_set SeCollapsed (se_set_strategy (collapseExtenderDialers settings now (se_strategy e)) e)))
  | SeWeights order, SeCollapsed =>
      let s := se_strategy e in
      let ds := order (map fst (map_to_list (dialerWeights s))) in
      Some (Val (se_set (SeSerial (merge_sort (priority_order s) (List.filter (sg_test IsLastSuccess s) ds))) e))
  | SeNext, SeSerial (i :: serial) => Some (Val (se_set (if se_done e then SeReturn PeTimeout else SeEval i serial) e))
  | SeNext, SeSerial [] => Some (Val (se_set (SeHello (new_parallelEval (se_strategy e))) e))
  | SeEvaluated updated ok now, SeEval i serial =>
      let s := sg_update (dialer_Update (se_done e) updated now) i (sg_update HttpClient i (se_strategy e)) in
      if implb ok updated
      then Some (Val (mkSerialEval s (se_done e) (if (ok : bool) then SeReturn (PeSelected i) else SeSerial serial)
                   (se_requests e ++ [(i, ok)]))) else None
  | SeNext, SeHello h =>
      match pe_at h with PeReturn _ => Some (Val (se_set SeCheck e)) | _ => None end
  | SeNext, SeCheck =>
      let s := se_strategy e in
      Some (Val (se_set (if existsb (sg_test IsLastSuccess s) (map fst (map_to_list (dialerWeights s))) then SeTop else SeWait) e))
  | SeNext, SeWait =>
      Some (Val (se_set (if se_done e then SeReturn PeTimeout else SeHello (new_parallelEval (se_strategy e))) e))
  | _, _ => None
  end.
Fixpoint se_steps (settings : ClientStrategySettings) (ls : list se_label) (e : serialEval) : option (outcome serialEval) :=
  match ls with
  | [] => Some (Val e)
  | l :: ls =>
      match se_step settings l e with
      | Some (Val e) => se_steps settings ls e
      | r => r
      end
  end.

Definition se_label_ok (l : se_label) : Prop :=
  match l with
  | SeOther l => sg_label_ok l
  | SeWeights order => ∀ l, order l ≡ₚ l
  | SeStep l => pe_label_ok l
  | _ => True
  end.
Record se_inv (settings : ClientStrategySettings) (e : serialEval) : Prop := {
  sv_strategy : dialers_ok settings ∅ (se_strategy e);
  sv_hello h : se_at e = SeHello h → pe_inv settings h;
  sv_return r : se_at e = SeReturn r →
    match r with
    | PeSelected i => ∃ l, se_requests e = l ++ [(i, true)] ∧ Forall (λ q, q.2 = false) l
    | PeTimeout => se_done e = true ∧ Forall (λ q, q.2 = false) (se_requests e)
    | PeNoStrategy => False
    end;
  sv_failed : (∀ r, se_at e ≠ SeReturn r) → Forall (λ q, q.2 = false) (se_requests e)
}.
Lemma pe_cancel_inv settings h : pe_inv settings h → pe_inv settings (pe_cancel h).
Proof.
  intros [[B1 B2 B3 B4 B5] Hp]. split; [by split|]. unfold phase_ok in *. simpl.
  destruct (pe_at h) as [| | | | | | | | | |[]]; try exact Hp. by destruct Hp.
Qed.
Lemma se_step_inv settings l e r :
  (MinNextConnectDelay settings < MaxNextConnectDelay settings)%Z → se_label_ok l → se_inv settings e →
  se_step settings l e = Some r → ∃ e', r = Val e' ∧ se_inv settings e'.
Proof.
  intros Hd Hl [H1 H2 H3 H4].
  assert (∀ ph, phase_ok settings (new_parallelEval (se_strategy e)) → (∀ r, se_at e ≠ SeReturn r) →
    (∀ h, ph = SeHello h → h = new_parallelEval (se_strategy e)) → (∀ r, ph = SeReturn r → r = PeTimeout ∧ se_done e = true) →
    se_inv settings (se_set ph e)) as Hset.
  { intros ph _ Hr Hh Ht. split; simpl; [done| | |auto].
    - intros h ->. rewrite (Hh h eq_refl). by apply new_call_inv.
    - intros q ->. destruct (Ht q eq_refl) as [-> ?]. auto. }
  assert (phase_ok settings (new_parallelEval (se_strategy e))) as Hnew by (by split_and!).
  unfold se_step. destruct l as [|sl|now|order| |upd ok now|pl].
  - destruct (se_at e) as [| | | |h| | |q] eqn:Ea; intros [= <-]; eexists; (split; [done|]); split; simpl; try done; try (intros _; by apply H4).
    + intros h' [= <-]. by apply pe_cancel_inv, H2.
    + intros q' [= <-]. specialize (H3 q eq_refl). destruct q; tauto.
  - destruct (sg_step_ok settings ∅ sl (se_strategy e) Hd Hl H1) as (s' & Es & Hok). rewrite Es. cbn [obind].
    destruct (se_at e) as [| | | |h| | |q] eqn:Ea; try done; intros [= <-]; eexists; (split; [done|]);
      split; simpl; rewrite ?Ea; try done; auto.
  - destruct (se_at e) as [| | | |h| | |q] eqn:Ea; try done. destruct (se_done e); [done|]. intros [= <-].
    eexists. split; [done|]. split; simpl; try done; [by apply collapse_ok|intros _; by apply H4].
  - destruct (se_at e) as [| | | |h| | |q] eqn:Ea; try done. intros [= <-]. eexists. split; [done|]. by apply Hset.
  - destruct (se_at e) as [| |[|i s]| |h| | |q] eqn:Ea; try done.
    + destruct (se_done e) eqn:Edone; [|done]. intros [= <-]. eexists. split; [done|]. apply Hset; try done. by intros q [= <-].
    + intros [= <-]. eexists. split; [done|]. apply Hset; try done. by intros h [= <-].
    + intros [= <-]. eexists. split; [done|]. apply Hset; try done; destruct (se_done e) eqn:Edone; try done. by intros q [= <-].
    + destruct (pe_at h); try done. intros [= <-]. eexists. split; [done|]. by apply Hset.
    + intros [= <-]. eexists. split; [done|]. apply Hset; try done; by destruct (existsb _ _).
    + intros [= <-]. eexists. split; [done|]. apply Hset; try done; destruct (se_done e) eqn:Edone; try done.
      * by intros h [= <-].
      * by intros q [= <-].
  - destruct (se_at e) as [| | |i s|h| | |q] eqn:Ea; try done. destruct (implb ok upd); [|done]. intros [= <-]. eexists. split; [done|].
    destruct (update_ok settings (se_done e) upd now i (se_strategy e) H1) as [Hs _].
    assert (Forall (λ q, q.2 = false) (se_requests e)) as Hf by (by apply H4).
    destruct ok; split; simpl; try done.
    + intros q [= <-]. by exists (se_requests e).
    + intros Hr. by destruct (Hr (PeSelected i)).
    + intros _. apply Forall_app. split; [done|]. by repeat constructor.
  - destruct (se_at e) as [| | | |h| | |q] eqn:Ea; try done. destruct (pe_step settings pl h) as [o|] eqn:E; [|done].
    destruct (pe_step_inv settings pl h o Hd Hl (H2 h eq_refl) E) as (h' & -> & Hh'). cbn [obind]. intros [= <-].
    eexists. split; [done|]. split; simpl; [apply Hh'|by intros h2 [= <-]|done|by intros _; apply H4].
Qed.
Lemma se_steps_inv settings ls e r :
  (MinNextConnectDelay settings < MaxNextConnectDelay settings)%Z → Forall se_label_ok ls → se_inv settings e →
  se_steps settings ls e = Some r → ∃ e', r = Val e' ∧ se_inv settings e'.
Proof.
  intros Hd Hls. revert e. induction Hls as [|l ls Hl _ IH]; intros e He; cbn [se_steps]; [intros [= <-]; by exists e|].
  destruct (se_step settings l e) as [o|] eqn:E; [|done].
  destruct (se_step_inv settings l e o Hd Hl He E) as (e1 & -> & He1). by apply IH.
Qed.
(** A request is sent again only after it has failed: in every interleaving of
    steps, none of which panics, all evaluations of the request but the last one
    have failed when the call returns; it returns a dialer only if the last one
    succeeded with it, and otherwise only when the context is done. *)
Theorem serial_eval_one_success (settings : ClientStrategySettings) (ls0 : list sg_label) (s0 : ClientStrategy)
    (ls : list se_label) (r : outcome serialEval) :
  (MinNextConnectDelay settings < MaxNextConnectDelay settings)%Z → Forall sg_label_ok ls0 → Forall se_label_ok ls →
  sg_steps settings ls0 (NewClientStrategy settings) = Val s0 → se_steps settings ls (new_serialEval s0) = Some r →
  ∃ e, r = Val e ∧
    ((∀ q, se_at e ≠ SeReturn q) → Forall (λ q, q.2 = false) (se_requests e)) ∧
    ∀ q, se_at e = SeReturn q →
      (∃ i l, q = PeSelected i ∧ se_requests e = l ++ [(i, true)] ∧ Forall (λ q, q.2 = false) l) ∨
      (q = PeTimeout ∧ se_done e = true ∧ Forall (λ q, q.2 = false) (se_requests e)).
Proof.
  intros Hd Hls0 Hls E0 E. destruct (sg_steps_ok settings _ ls0 _ Hd Hls0 (new_dialers_ok settings)) as (s & Es & Hok).
  rewrite E0 in Es. injection Es as <-.
  destruct (se_steps_inv settings ls (new_serialEval s0) r Hd Hls) as (e & -> & [H1 H2 H3 H4]); [|done|].
  { split; simpl; try done. by eapply base_weaken. }
  exists e. split; [done|]. split; [done|]. intros q Eq. specialize (H3 q Eq). destruct q as [|i|]; [by right| |done].
  destruct H3 as (l & ? & ?). left. by exists i, l.
Qed.
(** ** A call *)
Module StrategyExample.
Definition ex_settings : ClientStrategySettings :=
  mkStrategySettings true true true true 2 2 [] [] 3 (f32_of_Z 0) (300 * second) 0 second.
Definition ex_persona : persona := mkPersona ["example.com"%string] [(443%Z, ["tcptls"%string]); (853%Z, ["tcptls"%string])].
Definition ex_draw (k : nat) : profile_draw := mkDraw 0 k 0 0 (Nat.even (k / 2)) false.
Definition ex_ip (v : Z) : Addr := mkAddr false v.
Definition ex_env : expand_env :=
  mkExpandEnv [ex_persona] ex_draw true false [ex_ip 1; ex_ip 2] [] id id id id (λ _, f32_of_Z 0) id.
Definition ex_custom : gmap Addr string := {[ex_ip 5 := "secret"%string]}.
Definition ex_history : list sg_label := [SgSetCustom ex_custom; SgExpand ex_env; SgUpdate 5 false false second].
Definition ex_strategy : ClientStrategy :=
  match sg_steps ex_settings ex_history (NewClientStrategy ex_settings) with Val s => s | _ => NewClientStrategy ex_settings end.
Lemma ex_history_ok : Forall sg_label_ok ex_history.
Proof.
  unfold ex_history. constructor; [done|]. constructor; [|constructor; [done|constructor]].
  simpl. constructor; [|constructor]. unfold persona_ok. simpl. split_and!; try done. by repeat constructor.
Qed.
Lemma ex_strategy_runs : sg_steps ex_settings ex_history (NewClientStrategy ex_settings) = Val ex_strategy.
Proof.
  assert (is_val (sg_steps ex_settings ex_history (NewClientStrategy ex_settings)) = true) as E by (by vm_compute).
  unfold ex_strategy. by destruct (sg_steps ex_settings ex_history (NewClientStrategy ex_settings)).
Qed.
(** With custom extenders only the extenders count: two were added, one has failed. *)
Lemma client_strategy_dialers_witness :
  Forall sg_label_ok ex_history ∧
  ∃ s, sg_steps ex_settings ex_history (NewClientStrategy ex_settings) = Val s ∧
    (∀ i, i ∈ sg_dialers (NewClientStrategy ex_settings) → i ∈ sg_dialers s) ∧
    NoDup (map ec_Profile (dialer_configs s)) ∧
    (Z.of_nat (length (dialer_configs s)) ≤ Z.max 0 (MaxExtenderCount ex_settings))%Z ∧
    ∀ c, c ∈ dialer_configs s →
      (extenderIpSecrets s = ∅ → ec_Secret c = ""%string) ∧
      (extenderIpSecrets s ≠ ∅ → extenderIpSecrets s !! ec_Ip c = Some (ec_Secret c)).
Proof.
  split; [exact ex_history_ok|]. exact (client_strategy_dialers ex_settings ex_history ltac:(done) ex_history_ok).
Defined.
(** A call: the extender that was never used is dropped; the one that failed is
    tried and fails again; of two new ones the first succeeds. *)
Definition ex_call : list pe_label :=
  [PeCollapse 0; PeWeights id; PeShuffle (λ _ _, 0) (λ _, f32_of_Z 0); PeEvalEnd 5 false false 0; PeNext; PeCollapse 0;
   PeGrow ex_env; PeTake 5; PeEvalEnd 7 true true 0; PeNext; PeNext; PeCollapse 0; PeGrow ex_env; PeTake 7].
Definition ex_call_end : parallelEval :=
  match pe_steps ex_settings ex_call (new_parallelEval ex_strategy) with Some (Val e) => e | _ => new_parallelEval ex_strategy end.
Lemma ex_call_ok : Forall pe_label_ok ex_call.
Proof.
  pose proof ex_history_ok as H. apply Forall_cons in H as [_ H]. apply Forall_cons in H as [H' _]. simpl in H'.
  by repeat (constructor; [first [done | exact H' | by intros l]|]).
Qed.
Lemma ex_call_runs : pe_steps ex_settings ex_call (new_parallelEval ex_strategy) = Some (Val ex_call_end).
Proof.
  assert (match pe_steps ex_settings ex_call (new_parallelEval ex_strategy) with Some (Val _) => true | _ => false end = true) as E
    by (by vm_compute).
  unfold ex_call_end. by destruct (pe_steps ex_settings ex_call (new_parallelEval ex_strategy)) as [[| |]|].
Qed.
Lemma parallel_eval_tries_witness :
  pe_at ex_call_end = PeReturn (PeSelected 7) ∧
  pe_steps ex_settings ex_call (new_parallelEval ex_strategy) = Some (Val ex_call_end) ∧
  ∃ e, Val ex_call_end = Val e ∧ NoDup (pt_known (pe_trc e)) ∧ pt_tried (pe_trc e) ⊆+ pt_known (pe_trc e).
Proof.
  split; [by vm_compute|]. split; [exact ex_call_runs|].
  destruct (parallel_eval_tries ex_settings ex_history ex_strategy ex_call (Val ex_call_end) ltac:(done) ex_history_ok
    ex_call_ok ex_strategy_runs ex_call_runs) as (e & He & H1 & H2 & _). exists e. exact (conj He (conj H1 H2)).
Defined.
(** A request of a new strategy: the dialer of the highest priority answers, but
    the body of its response cannot be read; the next one works. *)
Definition ex_request : list se_label :=
  [SeCollapse 0; SeWeights id; SeNext; SeEvaluated true false 0; SeNext; SeEvaluated true true 0].
Definition ex_request_end : serialEval :=
  match se_steps ex_settings ex_request (new_serialEval (NewClientStrategy ex_settings)) with
  | Some (Val e) => e
  | _ => new_serialEval (NewClientStrategy ex_settings)
  end.
Lemma ex_request_runs : se_steps ex_settings ex_request (new_serialEval (NewClientStrategy ex_settings)) = Some (Val ex_request_end).
Proof.
  assert (match se_steps ex_settings ex_request (new_serialEval (NewClientStrategy ex_settings)) with
          | Some (Val _) => true | _ => false end = true) as E by (by vm_compute).
  unfold ex_request_end. by destruct (se_steps ex_settings ex_request _) as [[| |]|].
Qed.
Lemma serial_eval_one_success_witness :
  se_at ex_request_end = SeReturn (PeSelected 1) ∧ se_requests ex_request_end = [(3, false); (1, true)]%positive ∧
  ∃ e, Val ex_request_end = Val e ∧
    ((∀ q, se_at e ≠ SeReturn q) → Forall (λ q, q.2 = false) (se_requests e)) ∧
    ∀ q, se_at e = SeReturn q →
      (∃ i l, q = PeSelected i ∧ se_requests e = l ++ [(i, true)] ∧ Forall (λ q, q.2 = false) l) ∨
      (q = PeTimeout ∧ se_done e = true ∧ Forall (λ q, q.2 = false) (se_requests e)).
Proof.
  split; [by vm_compute|]. split; [by vm_compute|].
  assert (Forall se_label_ok ex_request) as Hok by (repeat (constructor; [first [done | by intros l]|]); constructor).
  exact (serial_eval_one_success ex_settings [] (NewClientStrategy ex_settings) ex_request (Val ex_request_end) ltac:(done)
    (Forall_nil_2 _) Hok eq_refl ex_request_runs).
Defined.
(** Of the extenders of the example the one that failed stays and the other goes. *)
Example working_dropped :
  elements (sg_dialers (collapseExtenderDialers ex_settings 0 ex_strategy)) = [5; 3; 4; 2; 1]%positive.
Proof. by vm_compute. Qed.
End StrategyExample.
