(* ===== verification/DohCache.v ===== *)
(** * DNS over HTTPS: net_http_doh.go and net_http_doh_regional.go

    [DohCache] answers a query from the addresses that it has, while none of them
    has expired, and otherwise asks the resolvers, one after the other until one
    has an answer. What the servers answer is an argument: JSON and the addresses
    in it are decoded. Domains and record types are ASCII. *)

From Stdlib Require Import Strings.Ascii.
From stdpp Require Import gmap.
From S2P Require Import Prelude RttWindow Contracts ClientStrategy.
Open Scope go_scope.

(** ** Settings *)
Record DnsResolverSettings := mkResolver {
  EnableRemoteDoh : bool;
  EnableRemoteDns : bool;
  EnableLocalDns : bool;
  RemoteDohUrlsIpv4 : list string;
  RemoteDohUrlsIpv6 : list string;
  RemoteDnsIpv4 : list string;
  RemoteDnsIpv6 : list string;
  LocalDnsIpv4 : list string;
  LocalDnsIpv6 : list string
}.
Record DohSettings := mkDohSettings {
  IpVersion : Z;
  MissExpiration : duration;
  LocalExpiration : duration;
  resolverSettings : DnsResolverSettings
}.
Definition DefaultDnsResolverSettings : DnsResolverSettings :=
  mkResolver true false true ["https://1.1.1.1/dns-query"%string] [] [] [] ["1.1.1.1"%string] [].
(** [strings.ToLower] and [strings.ToUpper] of ASCII *)
Definition map_ascii (lo hi : nat) (f : nat → nat) (s : string) : string :=
  String.string_of_list_ascii (map (λ c, let n := nat_of_ascii c in if (lo <=? n) && (n <=? hi) then ascii_of_nat (f n) else c)
                          (String.list_ascii_of_string s)).
Definition ToLower : string → string := map_ascii 65 90 (λ n, n + 32).
Definition ToUpper : string → string := map_ascii 97 122 (λ n, n - 32).
Definition regional (remote : list string) : DnsResolverSettings :=
  mkResolver false true true [] [] remote [] ["1.1.1.1"%string] [].
Definition RegionalDnsResolverSettings (countryCode : string) : option DnsResolverSettings :=
  let c := ToLower countryCode in
  if (c =? "cn")%string then Some (regional ["223.5.5.5"; "119.29.29.29"]%string)
  else if (c =? "ru")%string then Some (regional ["77.88.8.8"; "195.208.6.1"]%string)
  else if (c =? "ir")%string then Some (regional ["178.22.122.100"; "10.202.10.10"]%string)
  else if (c =? "tr")%string then Some (regional ["195.175.39.39"; "212.252.114.8"]%string)
  else if (c =? "kz")%string then Some (regional ["8.8.8.8"]%string)
  else if (c =? "tm")%string then Some (regional ["217.174.238.141"; "8.8.4.4"]%string)
  else None.

(** ** The query of the servers *)
(** [netip.Addr]; [None] is the zero value. *)
Definition IpAddr : Type := option Addr.
Record DohAnswer := mkAnswer {
  da_TTL : Z;
  da_Addr : option IpAddr   (** [netip.ParseAddr] of the data; [None] is an error *)
}.
Record DohResponse := mkResponse { dr_Status : Z; dr_Answer : list DohAnswer }.
(** [query] of [DohQueryWithClient]: [None] is an error before the response is decoded. *)
Definition doh_query (response : option DohResponse) : gmap IpAddr Z :=
  match response with
  | None => ∅
  | Some r =>
      if negb (dr_Status r =? 0)%Z then ∅
      else foldl (λ result a, match da_Addr a with
                              | Some ip => <[ip := Z.max (default 0%Z (result !! ip)) (da_TTL a)]> result
                              | None => result
                              end) ∅ (dr_Answer r)
  end.
Definition doh_urls (ipVersion : Z) (settings : DnsResolverSettings) : list string :=
  if (ipVersion =? 4)%Z then RemoteDohUrlsIpv4 settings
  else if (ipVersion =? 6)%Z then RemoteDohUrlsIpv6 settings
  else RemoteDohUrlsIpv4 settings ++ RemoteDohUrlsIpv6 settings.
(** What a server says of a domain, and whether it says it in time. *)
Definition doh_servers : Type := string → string → option DohResponse * bool.
Definition DohQueryWithClient (ipVersion : Z) (recordType : string) (settings : DnsResolverSettings)
    (domains : list string) (servers : doh_servers) : gmap IpAddr Z :=
  if negb ((recordType =? "A")%string || (recordType =? "AAAA")%string) then ∅
  else
    foldl (λ merged out, if snd out && negb (bool_decide (doh_query (fst out) = ∅)) then doh_query (fst out) ∪ merged else merged) ∅
      (flat_map (λ url, map (servers url) domains) (doh_urls ipVersion settings)).

(** ** [DohCache] *)
Record DohKey := mkDohKey { RecordType : string; Domain : string }.
#[export] Instance DohKey_eq_dec : EqDecision DohKey.
Proof. solve_decision. Defined.
#[export] Program Instance DohKey_countable : Countable DohKey :=
  inj_countable' (λ k, (RecordType k, Domain k)) (λ '(r, d), mkDohKey r d) _.
Next Obligation. by intros []. Qed.
Definition NewDohKey (recordType domain : string) : DohKey := mkDohKey (ToUpper recordType) (ToLower domain).
Record DohResult := mkDohResult { dh_Time : time; AddrExpirations : gmap IpAddr time }.
Definition DohCache : Type := gmap DohKey DohResult.
(** [Before(now)] of none of the expirations *)
Definition result_ok (settings : DohSettings) (now : time) (r : DohResult) : bool :=
  negb (bool_decide (AddrExpirations r = ∅) && (dh_Time r + MissExpiration settings <? now)%Z) &&
  forallb (λ p, negb (p.2 <? now)%Z) (map_to_list (AddrExpirations r)).
(** What a query gets of the network: of the servers, and of the two resolvers,
    where [None] is an error and an address of version 6 is one that [To4] makes nil of. *)
Record doh_env := mkDohEnv {
  de_servers : doh_servers;
  de_remote : option (list Addr);
  de_local : option (list Addr)
}.
(** [netip.AddrFromSlice(ip.To4())] *)
Definition addr_from4 (a : Addr) : IpAddr := if addr_is6 a then None else Some a.
Definition lookup_expirations (settings : DohSettings) (now : time) (ips : option (list Addr)) : gmap IpAddr time :=
  match ips with
  | None => ∅
  | Some ips => foldl (λ m ip, <[addr_from4 ip := (now + LocalExpiration settings)%Z]> m) ∅ ips
  end.
Definition doh_expirations (settings : DohSettings) (now : time) (q : DohKey) (env : doh_env) : gmap IpAddr time :=
  (λ ttlSeconds, (now + i64 (ttlSeconds * second))%Z) <$>
    DohQueryWithClient (IpVersion settings) (RecordType q) (resolverSettings settings) [Domain q] (de_servers env).
(** The part of [Query] that asks the network. *)
Definition doh_resolve (settings : DohSettings) (now : time) (q : DohKey) (env : doh_env) : gmap IpAddr time :=
  let rs := resolverSettings settings in
  let addrExpirations := if EnableLocalDns rs then doh_expirations settings now q env else ∅ in
  let addrExpirations :=
    if bool_decide (addrExpirations = ∅) && EnableRemoteDns rs
    then lookup_expirations settings now (de_remote env) else addrExpirations in
  if bool_decide (addrExpirations = ∅) && EnableLocalDns rs
  then lookup_expirations settings now (de_local env) else addrExpirations.
(** The two parts of [Query] under the lock: what it finds, and what it stores. *)
Definition doh_lookup (settings : DohSettings) (now : time) (q : DohKey) (cache : DohCache) : option (gset IpAddr) :=
  match cache !! q with
  | Some r => if result_ok settings now r then Some (dom (AddrExpirations r)) else None
  | None => None
  end.
Definition doh_store (now : time) (q : DohKey) (found : gmap IpAddr time) (cache : DohCache) : DohCache :=
  if bool_decide (found = ∅) then cache else <[q := mkDohResult now found]> cache.

(** *** Calls *)
(** A query waits for the network between the two parts: other calls go on. *)
Inductive doh_label :=
| DohCall (n : nat) (now : time) (recordType domain : string)
| DohResolved (n : nat) (env : doh_env).
Record doh_answer := mkDohAnswer { dq_key : DohKey; dq_now : time; dq_ips : gset IpAddr }.
Record doh_state := mkDohState {
  dc_cache : DohCache;
  dc_calls : gmap nat (DohKey * time);
  dc_found : list (DohKey * time * gmap IpAddr time);   (** what the network said, with the time of the call *)
  dc_answers : list doh_answer                          (** what [Query] returned *)
}.
Definition new_doh : doh_state := mkDohState ∅ ∅ [] [].
Definition doh_step (settings : DohSettings) (l : doh_label) (s : doh_state) : option doh_state :=
  match l with
  | DohCall n now recordType domain =>
      let q := NewDohKey recordType domain in
      match dc_calls s !! n with
      | Some _ => None
      | None =>
          match doh_lookup settings now q (dc_cache s) with
          | Some ips => Some (mkDohState (dc_cache s) (dc_calls s) (dc_found s) (dc_answers s ++ [mkDohAnswer q now ips]))
          | None => Some (mkDohState (dc_cache s) (<[n := (q, now)]> (dc_calls s)) (dc_found s) (dc_answers s))
          end
      end
  | DohResolved n env =>
      match dc_calls s !! n with
      | Some (q, now) =>
          let found := doh_resolve settings now q env in
          Some (mkDohState (doh_store now q found (dc_cache s)) (delete n (dc_calls s)) (dc_found s ++ [(q, now, found)])
                  (dc_answers s ++ [mkDohAnswer q now (dom found)]))
      | None => None
      end
  end.
Fixpoint doh_steps (settings : DohSettings) (ls : list doh_label) (s : doh_state) : option doh_state :=
  match ls with
  | [] => Some s
  | l :: ls => match doh_step settings l s with Some s => doh_steps settings ls s | None => None end
  end.

(** ** The order of the resolvers *)
(** The first of the enabled ways that finds an address; the servers are asked
    when the local resolver is enabled, whatever [EnableRemoteDoh] is. *)
Definition first_found (l : list (gmap IpAddr time)) : gmap IpAddr time :=
  default ∅ (head (filter (λ m, m ≠ ∅) l)).
Theorem doh_resolve_order (settings : DohSettings) (now : time) (q : DohKey) (env : doh_env) :
  let rs := resolverSettings settings in
  doh_resolve settings now q env = first_found (
    (if EnableLocalDns rs then [doh_expirations settings now q env] else []) ++
    (if EnableRemoteDns rs then [lookup_expirations settings now (de_remote env)] else []) ++
    (if EnableLocalDns rs then [lookup_expirations settings now (de_local env)] else [])).
Proof.
  unfold doh_resolve, first_found. cbv zeta.
  destruct (EnableLocalDns (resolverSettings settings)), (EnableRemoteDns (resolverSettings settings)); cbn [app];
    rewrite ?andb_true_r, ?andb_false_r; rewrite ?filter_cons;
    repeat (case_bool_decide || case_decide || done || simpl); congruence.
Qed.
(** Version 6 addresses of a resolver are lost: all become the zero address. *)
Theorem lookup_version6 (settings : DohSettings) (now : time) (ips : list Addr) :
  Forall (λ a, addr_is6 a = true) ips → dom (lookup_expirations settings now (Some ips)) ⊆ {[None]}.
Proof.
  intros H. unfold lookup_expirations.
  assert (∀ m : gmap IpAddr time, dom m ⊆ ({[None]} : gset IpAddr) →
    dom (foldl (λ m ip, <[addr_from4 ip := (now + LocalExpiration settings)%Z]> m) m ips) ⊆ ({[None]} : gset IpAddr)) as G.
  { induction H as [|a ips Ha _ IH]; intros m Hm; [done|]. simpl. apply IH. rewrite dom_insert_L. unfold addr_from4. rewrite Ha. set_solver. }
  apply G. set_solver.
Qed.

(** ** The answers of the servers *)
Definition answered (ip : IpAddr) (r : option DohResponse) : Prop :=
  ∃ r', r = Some r' ∧ dr_Status r' = 0%Z ∧ ∃ a, a ∈ dr_Answer r' ∧ da_Addr a = Some ip.
Definition answer_ttls (ip : IpAddr) (l : list DohAnswer) : list Z :=
  omap (λ a, if bool_decide (da_Addr a = Some ip) then Some (da_TTL a) else None) l.
Lemma doh_query_fold (ip : IpAddr) (l : list DohAnswer) (m : gmap IpAddr Z) :
  foldl (λ result a, match da_Addr a with
                     | Some ip => <[ip := Z.max (default 0%Z (result !! ip)) (da_TTL a)]> result
                     | None => result
                     end) m l !! ip =
  match answer_ttls ip l with [] => m !! ip | ttls => Some (foldr Z.max (default 0%Z (m !! ip)) ttls) end.
Proof.
  revert m. induction l as [|a l IH]; intros m; [done|]. cbn [foldl]. rewrite IH. unfold answer_ttls. cbn [omap list_omap].
  fold (answer_ttls ip l). destruct (da_Addr a) as [ip'|] eqn:Ea.
  - case_bool_decide as Hip.
    + injection Hip as ->. rewrite lookup_insert_eq. cbn [default from_option]. cbn [foldr].
      set (t := answer_ttls ip l). assert (∀ x y, foldr Z.max (Z.max x y) t = Z.max y (foldr Z.max x t)) as Hm.
      { intros x y. induction t as [|z t IHt]; simpl; lia. }
      destruct t; [simpl; f_equal; lia|]. f_equal. apply Hm.
    + rewrite lookup_insert_ne by congruence. done.
  - case_bool_decide; [done|]. done.
Qed.
(** A server that answers gives an address the largest of the times to live that
    it names for it, and at least 0. *)
Theorem doh_query_ttl (r : DohResponse) (ip : IpAddr) :
  doh_query (Some r) !! ip =
  if negb (dr_Status r =? 0)%Z then None
  else match answer_ttls ip (dr_Answer r) with [] => None | ttls => Some (foldr Z.max 0%Z ttls) end.
Proof. unfold doh_query. destruct (negb _); [done|]. by rewrite doh_query_fold. Qed.
Lemma doh_query_dom r ip : ip ∈ dom (doh_query r) ↔ answered ip r.
Proof.
  destruct r as [r|]; [|cbn [doh_query]; unfold answered; rewrite dom_empty; split; [set_solver|by intros (? & ? & _)]].
  rewrite elem_of_dom, doh_query_ttl. unfold answered. destruct (Z.eqb_spec (dr_Status r) 0) as [Hs|Hs]; simpl.
  - assert (answer_ttls ip (dr_Answer r) ≠ [] ↔ ∃ a, a ∈ dr_Answer r ∧ da_Addr a = Some ip) as Ht.
    { induction (dr_Answer r) as [|a l IH]; [split; [done|intros (? & ?%elem_of_nil & _); done]|]. unfold answer_ttls. cbn [omap list_omap].
      fold (answer_ttls ip l). case_bool_decide as Ha.
      - split; [|done]. intros _. exists a. split; [by left|done].
      - rewrite IH. split; intros (b & Hb & E); [exists b; split; [by right|done]|].
        apply elem_of_cons in Hb as [->|Hb]; [done|]. eauto. }
    split.
    + intros H. exists r. split_and!; try done. apply Ht. intros E. rewrite E in H. by destruct H.
    + intros (r' & [= <-] & _ & H). apply Ht in H. destruct (answer_ttls _ _); [done|]. eauto.
  - split; [by intros []|]. intros (r' & [= <-] & E & _). done.
Qed.
(** The addresses of a query are those that some server named in time for one of
    the domains; other record types have none. *)
Theorem doh_query_merged (ipVersion : Z) (recordType : string) (settings : DnsResolverSettings)
    (domains : list string) (servers : doh_servers) (ip : IpAddr) :
  ip ∈ dom (DohQueryWithClient ipVersion recordType settings domains servers) ↔
  (recordType = "A"%string ∨ recordType = "AAAA"%string) ∧
  ∃ url domain r, url ∈ doh_urls ipVersion settings ∧ domain ∈ domains ∧ servers url domain = (r, true) ∧ answered ip r.
Proof.
  unfold DohQueryWithClient. destruct (negb _) eqn:Et.
  { rewrite dom_empty. split; [set_solver|]. intros [[->| ->] _]; done. }
  apply negb_false_iff, orb_true_iff in Et. rewrite !String.eqb_eq in Et.
  set (outs := flat_map _ _).
  assert (∀ m : gmap IpAddr Z, ip ∈ dom (foldl (λ merged out, if snd out && negb (bool_decide (doh_query (fst out) = ∅))
    then doh_query (fst out) ∪ merged else merged) m outs) ↔ ip ∈ dom m ∨ ∃ r, (r, true) ∈ outs ∧ answered ip r) as G.
  { induction outs as [|[r b] outs IH]; intros m; cbn [foldl].
    - split; [by left|]. intros [?|(r & Hr & _)]; [done|]. by apply elem_of_nil in Hr.
    - rewrite IH. simpl. setoid_rewrite elem_of_cons. destruct b; simpl.
      + case_bool_decide as Hq; simpl.
        * split; [intros [?|(r' & ? & ?)]; eauto|]. intros [?|(r' & [[= ->]|?] & Ha)]; [by left| |eauto].
          apply doh_query_dom in Ha. rewrite Hq in Ha. set_solver.
        * rewrite dom_union, elem_of_union, doh_query_dom. naive_solver.
      + naive_solver. }
  rewrite G, dom_empty. unfold outs. split.
  - intros [?|(r & Hin & Ha)]; [set_solver|]. split; [done|].
    apply list_elem_of_In, in_flat_map in Hin as (url & Hu & Hin). apply in_map_iff in Hin as (d & E & Hd).
    exists url, d, r. by rewrite !list_elem_of_In.
  - intros [_ (url & d & r & Hu & Hd & E & Ha)]. right. exists r. split; [|done].
    apply list_elem_of_In, in_flat_map. exists url. split; [by apply list_elem_of_In|]. apply in_map_iff. exists d.
    split; [done|by apply list_elem_of_In].
Qed.

(** ** The cache *)
Record doh_inv (settings : DohSettings) (s : doh_state) : Prop := {
  di_cache : ∀ q r, dc_cache s !! q = Some r →
    AddrExpirations r ≠ ∅ ∧ (q, dh_Time r, AddrExpirations r) ∈ dc_found s;
  di_answers : Forall (λ a, ∃ t found, (dq_key a, t, found) ∈ dc_found s ∧ dq_ips a = dom found ∧
    (t = dq_now a ∨ found ≠ ∅ ∧ ∀ ip e, found !! ip = Some e → (dq_now a ≤ e)%Z)) (dc_answers s)
}.
Lemma result_ok_live settings now r :
  result_ok settings now r = true → ∀ ip e, AddrExpirations r !! ip = Some e → (now ≤ e)%Z.
Proof.
  unfold result_ok. rewrite andb_true_iff, forallb_forall. intros [_ H] ip e He.
  apply elem_of_map_to_list, list_elem_of_In, H in He. simpl in He. apply negb_true_iff, Z.ltb_ge in He. done.
Qed.
Lemma doh_step_inv settings l s s' : doh_inv settings s → doh_step settings l s = Some s' → doh_inv settings s'.
Proof.
  intros [Hc Ha] E. destruct l as [n now rt d|n env]; simpl in E.
  - destruct (dc_calls s !! n); [done|]. unfold doh_lookup in E.
    destruct (dc_cache s !! NewDohKey rt d) as [r|] eqn:Er; [destruct (result_ok settings now r) eqn:Eo|];
      injection E as <-; split; simpl; try done.
    apply Forall_app. split; [done|]. apply Forall_singleton. simpl. destruct (Hc _ _ Er) as [Hr Hin].
    exists (dh_Time r), (AddrExpirations r). split_and!; try done. right. split; [done|]. by eapply result_ok_live.
  - destruct (dc_calls s !! n) as [[q now]|]; [|done]. injection E as <-. set (found := doh_resolve settings now q env). split; simpl.
    + intros q' r. unfold doh_store, DohCache. setoid_rewrite elem_of_app. case_bool_decide as Hf; [intros [? ?]%Hc; split; [done|by left]|].
      rewrite lookup_insert. case_decide as Hq; [intros [= <-]; subst; simpl|intros [? ?]%Hc; split; [done|by left]].
      split; [done|]. right. by apply list_elem_of_singleton.
    + apply Forall_app. split.
      * eapply Forall_impl; [done|]. simpl. intros a (t & f & ? & ?). exists t, f. by rewrite elem_of_app; split; [left|].
      * apply Forall_singleton. exists now, found. simpl. split_and!; [|done|by left]. apply elem_of_app. right. by apply list_elem_of_singleton.
Qed.
Lemma doh_steps_inv settings ls s s' : doh_inv settings s → doh_steps settings ls s = Some s' → doh_inv settings s'.
Proof.
  revert s. induction ls as [|l ls IH]; intros s Hi E; simpl in E; [by injection E as <-|].
  destruct (doh_step settings l s) eqn:E1; [|done]. eapply IH; [|done]. by eapply doh_step_inv.
Qed.
(** A query answers what the network said to a query of its key: its own one, or
    an earlier one that found something of which nothing has expired; in every
    interleaving of queries. So a miss is asked again at once, and the miss
    expiration has no effect. *)
Theorem doh_cache_answers (settings : DohSettings) (ls : list doh_label) (s : doh_state) (a : doh_answer) :
  doh_steps settings ls new_doh = Some s → a ∈ dc_answers s →
  (∃ t found, (dq_key a, t, found) ∈ dc_found s ∧ dq_ips a = dom found ∧
    (t = dq_now a ∨ found ≠ ∅ ∧ ∀ ip e, found !! ip = Some e → (dq_now a ≤ e)%Z)) ∧
  ∀ miss now q, doh_lookup (mkDohSettings (IpVersion settings) miss (LocalExpiration settings) (resolverSettings settings)) now q (dc_cache s) =
    doh_lookup settings now q (dc_cache s).
Proof.
  intros E Hin. assert (doh_inv settings s) as [Hc Ha].
  { eapply doh_steps_inv; [|done]. by split. }
  split; [by rewrite Forall_forall in Ha; apply Ha|]. intros miss now q. unfold doh_lookup.
  destruct (dc_cache s !! q) as [r|] eqn:Er; [|done]. unfold result_ok. destruct (Hc _ _ Er) as [Hr _]. by rewrite bool_decide_false.
Qed.

(** ** Keys and regions *)
Lemma map_ascii_idem lo hi f s :
  (∀ n, lo ≤ n ≤ hi → f n < 256 ∧ (f n < lo ∨ hi < f n)) → map_ascii lo hi f (map_ascii lo hi f s) = map_ascii lo hi f s.
Proof.
  intros Hf. unfold map_ascii. rewrite String.list_ascii_of_string_of_list_ascii, map_map. f_equal. apply map_ext. intros c. cbv zeta.
  destruct ((lo <=? nat_of_ascii c) && (nat_of_ascii c <=? hi)) eqn:E; [|by rewrite E].
  apply andb_true_iff in E as [E1%Nat.leb_le E2%Nat.leb_le]. destruct (Hf (nat_of_ascii c)) as [H1 H2]; [done|].
  rewrite nat_ascii_embedding by done. destruct (_ && _) eqn:E'; [|done].
  apply andb_true_iff in E' as [?%Nat.leb_le ?%Nat.leb_le]. lia.
Qed.
(** The key of a query does not depend on the case of its parts. *)
Theorem doh_key_canonical (recordType domain : string) :
  let q := NewDohKey recordType domain in NewDohKey (RecordType q) (Domain q) = q.
Proof. unfold NewDohKey, ToLower, ToUpper. simpl. f_equal; apply map_ascii_idem; intros n Hn; lia. Qed.
(** The settings of a region ask resolvers only, and have a server for each of
    the resolvers that they enable, of which the dial chooses one. *)
Theorem regional_resolvers (countryCode : string) (rs : DnsResolverSettings) :
  RegionalDnsResolverSettings countryCode = Some rs →
  EnableRemoteDns rs = true ∧ RemoteDnsIpv4 rs ≠ [] ∧ EnableLocalDns rs = true ∧ LocalDnsIpv4 rs ≠ [] ∧
  ∀ ipVersion, doh_urls ipVersion rs = [].
Proof.
  unfold RegionalDnsResolverSettings. cbv zeta. intros E.
  repeat (destruct (_ =? _)%string; [injection E as <-; split_and!; try done; intros v; unfold doh_urls; simpl; by repeat case_match|]).
  done.
Qed.

Module DohExample.
Definition ex_addr (v : Z) : Addr := mkAddr false v.
Definition ex_doh : DohSettings := mkDohSettings 4 (300 * second) (300 * second) DefaultDnsResolverSettings.
Definition ex_servers : doh_servers :=
  λ url domain, (Some (mkResponse 0 [mkAnswer 60 (Some (Some (ex_addr 1))); mkAnswer 5 (Some (Some (ex_addr 2))); mkAnswer 30 None]), true).
Definition ex_net : doh_env := mkDohEnv ex_servers None (Some [ex_addr 9]).
Definition ex_down : doh_env := mkDohEnv (λ _ _, (None, true)) None (Some [ex_addr 9]).
Definition ex_queries : list doh_label :=
  [DohCall 1 0 "a" "Example.com"; DohCall 2 (1 * second) "A" "example.com"; DohResolved 1 ex_net; DohCall 3 (5 * second) "A" "EXAMPLE.com";
   DohCall 4 (6 * second) "A" "example.com"; DohResolved 4 ex_down; DohResolved 2 ex_net].
Definition ex_doh_end : doh_state := default new_doh (doh_steps ex_doh ex_queries new_doh).
Example ex_doh_answers :
  map (λ a, (dq_now a, elements (dq_ips a))) (dc_answers ex_doh_end) =
  [(0%Z, [Some (ex_addr 2); Some (ex_addr 1)]); ((5 * second)%Z, [Some (ex_addr 2); Some (ex_addr 1)]);
   ((6 * second)%Z, [Some (ex_addr 9)]); ((1 * second)%Z, [Some (ex_addr 2); Some (ex_addr 1)])].
Proof. vm_compute. reflexivity. Qed.
(** A setting with DNS over HTTPS alone finds nothing. *)
Example doh_alone_finds_nothing :
  doh_resolve (mkDohSettings 4 0 0 (mkResolver true false false ["https://1.1.1.1/dns-query"%string] [] [] [] [] []))
    0 (NewDohKey "A" "example.com") ex_net = ∅.
Proof. vm_compute. reflexivity. Qed.
Example region_of_any_case : RegionalDnsResolverSettings "Kz" = RegionalDnsResolverSettings "kz".
Proof. vm_compute. reflexivity. Qed.
End DohExample.
