(* ===== verification/ProviderMonitor.v ===== *)
(** * The monitor of a multi client: ip_remote_multi_client_monitor.go

    [RemoteUserNatMultiClientMonitor] keeps the state of the providers of a window
    and tells callbacks the differences; [MergedMultiClientMonitor] shows several
    monitors as one. A method changes the state under its lock, reads the
    callbacks after it, and calls them one after the other: each of these is a
    step, and steps of different calls interleave. *)

From Stdlib Require Import Strings.Byte.
From stdpp Require Import gmap.
From S2P Require Import Prelude Ids Util.
Open Scope go_scope.

(** ** Events *)
Record WindowExpandEvent := mkWindowEvent { TargetSize : Z; MinSatisfied : bool }.
#[export] Instance WindowExpandEvent_eq_dec : EqDecision WindowExpandEvent.
Proof. solve_decision. Defined.
Inductive ProviderState :=
| ProviderStateInEvaluation | ProviderStateEvaluationFailed | ProviderStateNotAdded
| ProviderStateAdded | ProviderStateRemoved.
#[export] Instance ProviderState_eq_dec : EqDecision ProviderState.
Proof. solve_decision. Defined.
Definition IsTerminal (self : ProviderState) : bool :=
  match self with
  | ProviderStateEvaluationFailed | ProviderStateNotAdded | ProviderStateRemoved => true
  | _ => false
  end.
Definition IsActive (self : ProviderState) : bool :=
  match self with ProviderStateAdded => true | _ => false end.
Record ProviderEvent := mkProviderEvent { pv_ClientId : Id; pv_State : ProviderState }.
#[export] Instance ProviderEvent_eq_dec : EqDecision ProviderEvent.
Proof. solve_decision. Defined.
(** The arguments of a [MonitorEventFunction]. *)
Record monitor_message := mkMessage {
  mm_window : WindowExpandEvent;
  mm_providers : gmap Id ProviderEvent;
  mm_reset : bool
}.

(** ** [MultiClientMonitor] *)
Class MultiClientMonitor (M : Type) := {
  Events : M → WindowExpandEvent * gmap Id ProviderEvent;
  WindowExpandEvent_of : M → WindowExpandEvent;
  ProviderEvents_of : M → gmap Id ProviderEvent
}.
Class MultiClientMonitorLaws (M : Type) `{MultiClientMonitor M} := {
  events_are_both (m : M) : Events m = (WindowExpandEvent_of m, ProviderEvents_of m)
}.

(** ** [RemoteUserNatMultiClientMonitor] *)
(** A callback is named by a number. *)
Record RemoteUserNatMultiClientMonitor := mkMonitor {
  windowExpandEvent : WindowExpandEvent;
  clientIdProviderEvents : gmap Id ProviderEvent;
  monitorEventCallbacks : CallbackList nat
}.
Definition NewRemoteUserNatMultiClientMonitor : RemoteUserNatMultiClientMonitor :=
  mkMonitor (mkWindowEvent 0 false) ∅ NewCallbackList.
#[export] Instance RemoteUserNatMultiClientMonitor_monitor : MultiClientMonitor RemoteUserNatMultiClientMonitor := {
  Events m := (windowExpandEvent m, clientIdProviderEvents m);
  WindowExpandEvent_of := windowExpandEvent;
  ProviderEvents_of := clientIdProviderEvents
}.
#[export] Instance RemoteUserNatMultiClientMonitor_laws : MultiClientMonitorLaws RemoteUserNatMultiClientMonitor.
Proof. by split. Qed.
Definition set_callbacks (cbs : CallbackList nat) (m : RemoteUserNatMultiClientMonitor) : RemoteUserNatMultiClientMonitor :=
  mkMonitor (windowExpandEvent m) (clientIdProviderEvents m) cbs.
(** [AddMonitorEventCallback]: the id that the function it returns removes. *)
Definition AddMonitorEventCallback (c : nat) (m : RemoteUserNatMultiClientMonitor) : Z * RemoteUserNatMultiClientMonitor :=
  let (callbackId, cbs) := CallbackList_Add c (monitorEventCallbacks m) in (callbackId, set_callbacks cbs m).
Definition RemoveMonitorEventCallback (callbackId : Z) (m : RemoteUserNatMultiClientMonitor) : RemoteUserNatMultiClientMonitor :=
  set_callbacks (CallbackList_Remove callbackId (monitorEventCallbacks m)) m.
(** The part of [AddWindowExpandEvent] under the lock, and the message if there is one. *)
Definition AddWindowExpandEvent (minSatisfied : bool) (targetSize : Z) (m : RemoteUserNatMultiClientMonitor)
    : RemoteUserNatMultiClientMonitor * option monitor_message :=
  let event := mkWindowEvent targetSize minSatisfied in
  if bool_decide (windowExpandEvent m ≠ event)
  then (mkMonitor event (clientIdProviderEvents m) (monitorEventCallbacks m), Some (mkMessage event ∅ false))
  else (m, None).
(** The part of [AddProviderEvent] under the lock, and the message. *)
Definition AddProviderEvent (clientId : Id) (state : ProviderState) (m : RemoteUserNatMultiClientMonitor)
    : RemoteUserNatMultiClientMonitor * option monitor_message :=
  let providerEvent := mkProviderEvent clientId state in
  (mkMonitor (windowExpandEvent m)
     (if IsTerminal state then delete clientId (clientIdProviderEvents m)
      else <[clientId := providerEvent]> (clientIdProviderEvents m)) (monitorEventCallbacks m),
   Some (mkMessage (windowExpandEvent m) {[clientId := providerEvent]} false)).

(** *** Calls *)
Inductive mn_call := CallWindow (minSatisfied : bool) (targetSize : Z) | CallProvider (clientId : Id) (state : ProviderState).
Inductive mn_phase :=
| MnAtLock (c : mn_call)
| MnAtGet (msg : monitor_message)                        (** before [monitorEventCallbacks.Get()] *)
| MnAtCallbacks (cbs : list nat) (msg : monitor_message).
Record mn_state := mkMn {
  mn_monitor : RemoteUserNatMultiClientMonitor;
  mn_calls : gmap nat mn_phase;
  mn_received : list (nat * monitor_message);      (** what callbacks were called with *)
  mn_taken : list (Id * ProviderState)             (** the provider events, as the lock ordered them *)
}.
Definition new_mn : mn_state := mkMn NewRemoteUserNatMultiClientMonitor ∅ [] [].
Definition mn_phase_of (id : Id) (ph : mn_phase) : bool :=
  match ph with
  | MnAtLock (CallProvider id' _) => bool_decide (id = id')
  | MnAtLock _ => false
  | MnAtGet msg | MnAtCallbacks _ msg => bool_decide (id ∈ dom (mm_providers msg))
  end.
(** A call for the client is in progress. *)
Definition mn_busy (id : Id) (s : mn_state) : bool :=
  existsb (mn_phase_of id) (map snd (map_to_list (mn_calls s))).
Definition mn_lock (c : mn_call) (m : RemoteUserNatMultiClientMonitor) : RemoteUserNatMultiClientMonitor * option monitor_message :=
  match c with
  | CallWindow minSatisfied targetSize => AddWindowExpandEvent minSatisfied targetSize m
  | CallProvider clientId state => AddProviderEvent clientId state m
  end.
Definition mn_take (c : mn_call) : list (Id * ProviderState) :=
  match c with CallWindow _ _ => [] | CallProvider id state => [(id, state)] end.
Inductive mn_label :=
| MnAdd (c : nat)
| MnRemove (callbackId : Z)
| MnCall (n : nat) (c : mn_call)   (** a goroutine makes a call *)
| MnLock (n : nat)
| MnGet (n : nat)
| MnCallback (n : nat).            (** the next callback, or the return *)
(** The provider events of a client are serialized, as the code says. *)
Definition mn_step (l : mn_label) (s : mn_state) : option mn_state :=
  match l with
  | MnAdd c => Some (mkMn (AddMonitorEventCallback c (mn_monitor s)).2 (mn_calls s) (mn_received s) (mn_taken s))
  | MnRemove i => Some (mkMn (RemoveMonitorEventCallback i (mn_monitor s)) (mn_calls s) (mn_received s) (mn_taken s))
  | MnCall n c =>
      match mn_calls s !! n with
      | Some _ => None
      | None =>
          if match c with CallProvider id _ => mn_busy id s | _ => false end then None
          else Some (mkMn (mn_monitor s) (<[n := MnAtLock c]> (mn_calls s)) (mn_received s) (mn_taken s))
      end
  | MnLock n =>
      match mn_calls s !! n with
      | Some (MnAtLock c) =>
          let (m, msg) := mn_lock c (mn_monitor s) in
          Some (mkMn m (match msg with Some msg => <[n := MnAtGet msg]> (mn_calls s) | None => delete n (mn_calls s) end)
                  (mn_received s) (mn_taken s ++ mn_take c))
      | _ => None
      end
  | MnGet n =>
      match mn_calls s !! n with
      | Some (MnAtGet msg) =>
          Some (mkMn (mn_monitor s)
                  (<[n := MnAtCallbacks (CallbackList_Get (monitorEventCallbacks (mn_monitor s))) msg]> (mn_calls s))
                  (mn_received s) (mn_taken s))
      | _ => None
      end
  | MnCallback n =>
      match mn_calls s !! n with
      | Some (MnAtCallbacks [] _) => Some (mkMn (mn_monitor s) (delete n (mn_calls s)) (mn_received s) (mn_taken s))
      | Some (MnAtCallbacks (c :: cbs) msg) =>
          Some (mkMn (mn_monitor s) (<[n := MnAtCallbacks cbs msg]> (mn_calls s)) (mn_received s ++ [(c, msg)]) (mn_taken s))
      | _ => None
      end
  end.
Fixpoint mn_steps (ls : list mn_label) (s : mn_state) : option mn_state :=
  match ls with
  | [] => Some s
  | l :: ls => match mn_step l s with Some s => mn_steps ls s | None => None end
  end.

(** ** [MergedMultiClientMonitor] *)
Definition MergedMultiClientMonitor (M : Type) : Type := list M.
Definition merged_WindowExpandEvent {M} `{MultiClientMonitor M} (monitors : MergedMultiClientMonitor M) : WindowExpandEvent :=
  foldl (λ net m, mkWindowEvent (i64 (TargetSize net + TargetSize (WindowExpandEvent_of m)))
                    (MinSatisfied net || MinSatisfied (WindowExpandEvent_of m))) (mkWindowEvent 0 false) monitors.
(** [maps.Copy] of each *)
Definition merged_ProviderEvents {M} `{MultiClientMonitor M} (monitors : MergedMultiClientMonitor M) : gmap Id ProviderEvent :=
  foldl (λ net m, ProviderEvents_of m ∪ net) ∅ monitors.
#[export] Instance Merged_monitor {M} `{MultiClientMonitor M} : MultiClientMonitor (MergedMultiClientMonitor M) := {
  Events m := (merged_WindowExpandEvent m, merged_ProviderEvents m);
  WindowExpandEvent_of := merged_WindowExpandEvent;
  ProviderEvents_of := merged_ProviderEvents
}.
#[export] Instance Merged_laws {M} `{MultiClientMonitor M} : MultiClientMonitorLaws (MergedMultiClientMonitor M).
Proof. by split. Qed.
(** What the callback of a merged monitor is called with. *)
Definition merged_callback {M} `{MultiClientMonitor M} (monitors : MergedMultiClientMonitor M) (msg : monitor_message) : monitor_message :=
  mkMessage (WindowExpandEvent_of monitors) (mm_providers msg) (mm_reset msg).

(** ** What a callback can know *)
(** The providers as a client of the monitor follows them from the messages. *)
Definition follow (view : gmap Id ProviderEvent) (msg : monitor_message) : gmap Id ProviderEvent :=
  filter (λ p, IsTerminal (pv_State p.2) = false) (mm_providers msg) ∪
  (if mm_reset msg then ∅ else filter (λ p, p.1 ∉ dom (mm_providers msg)) view).
Definition followed (c : nat) (received : list (nat * monitor_message)) : gmap Id ProviderEvent :=
  foldl follow ∅ (map snd (List.filter (λ p, p.1 =? c) received)).
(** The state of a client after the events of a history. *)
Definition last_state (id : Id) (taken : list (Id * ProviderState)) : option ProviderEvent :=
  state ← last (map snd (filter (λ p, p.1 = id) taken)); if IsTerminal state then None else Some (mkProviderEvent id state).
Definition event_of (id : Id) (state : ProviderState) : option ProviderEvent :=
  if IsTerminal state then None else Some (mkProviderEvent id state).

Lemma follow_empty view w : follow view (mkMessage w ∅ false) = view.
Proof.
  unfold follow. simpl. rewrite map_filter_empty, (left_id_L ∅ (∪)). apply map_filter_id. intros i x _. rewrite dom_empty_L. set_solver.
Qed.
Lemma follow_lookup view w id state i :
  follow view (mkMessage w {[id := mkProviderEvent id state]} false) !! i = if decide (i = id) then event_of id state else view !! i.
Proof.
  unfold follow. simpl. rewrite dom_singleton_L. unfold event_of. destruct (decide (i = id)) as [->|Hi].
  - rewrite lookup_union, !map_lookup_filter, lookup_singleton_eq. simpl.
    destruct (IsTerminal state) eqn:Et; simpl.
    + destruct (view !! id); simpl; [|done]. rewrite option_guard_False; [done|set_solver].
    + by destruct (view !! id ≫= _).
  - rewrite lookup_union, !map_lookup_filter, lookup_singleton_ne by done. simpl. rewrite (left_id_L None (∪)).
    destruct (view !! i); simpl; [|done]. rewrite option_guard_True; [done|set_solver].
Qed.
Lemma followed_app c l c' msg :
  followed c (l ++ [(c', msg)]) = if c' =? c then follow (followed c l) msg else followed c l.
Proof.
  unfold followed. rewrite List.filter_app, map_app, foldl_app. simpl. by destruct (_ =? _).
Qed.
Lemma last_state_app id l id' state :
  last_state id (l ++ [(id', state)]) = if decide (id = id') then event_of id state else last_state id l.
Proof.
  unfold last_state. rewrite filter_app, map_app, filter_cons. simpl. destruct (decide (id' = id)) as [->|Hn].
  - rewrite filter_nil. simpl. rewrite last_snoc, decide_True by done. done.
  - by rewrite filter_nil, app_nil_r, decide_False by congruence.
Qed.
(** A registered callback stays while it is not removed. *)
Definition registered (i : Z) (c : nat) (cbs : CallbackList nat) : Prop := ∃ n l, cb_rel (n, l) cbs ∧ (i, c) ∈ l.
Lemma registered_get i c cbs : registered i c cbs → c ∈ CallbackList_Get cbs.
Proof.
  intros (n & l & (Hc & _) & Hin). unfold CallbackList_Get. rewrite Hc. simpl. by apply (list_elem_of_fmap_2 snd) in Hin.
Qed.
Lemma registered_step i c op cbs :
  (∀ j, op = CbRemove j → j ≠ i) → registered i c cbs → registered i c (cb_step op cbs).
Proof.
  intros Hop (n & l & Hr & Hin). pose proof (cb_step_rel op _ _ Hr) as Hr'. destruct op as [c'|j]; simpl in *.
  - exists (n + 1)%Z, (l ++ [(n, c')]). split; [done|]. apply elem_of_app. by left.
  - exists n, (filter (λ p, p.1 ≠ j) l). split; [done|]. apply list_elem_of_filter. split; [|done]. simpl. intros ->. by eapply Hop.
Qed.

(** What a call that has left the lock has to say. *)
Definition said (m : RemoteUserNatMultiClientMonitor) (msg : monitor_message) : Prop :=
  (∃ w, msg = mkMessage w ∅ false) ∨
  ∃ w id state, msg = mkMessage w {[id := mkProviderEvent id state]} false ∧ clientIdProviderEvents m !! id = event_of id state.
Record mn_inv (i : Z) (c : nat) (s : mn_state) : Prop := {
  mn_reg : registered i c (monitorEventCallbacks (mn_monitor s));
  mn_last : ∀ id, clientIdProviderEvents (mn_monitor s) !! id = last_state id (mn_taken s);
  mn_said : ∀ n ph, mn_calls s !! n = Some ph →
    match ph with MnAtLock _ => True | MnAtGet msg | MnAtCallbacks _ msg => said (mn_monitor s) msg end;
  mn_one : ∀ id n n' ph ph', mn_calls s !! n = Some ph → mn_calls s !! n' = Some ph' →
    mn_phase_of id ph = true → mn_phase_of id ph' = true → n = n';
  mn_view : ∀ id, followed c (mn_received s) !! id = clientIdProviderEvents (mn_monitor s) !! id ∨
    ∃ n ph, mn_calls s !! n = Some ph ∧ mn_phase_of id ph = true ∧
      match ph with MnAtLock _ => False | MnAtGet _ => True | MnAtCallbacks cbs _ => c ∈ cbs end
}.
Lemma mn_busy_spec id s : mn_busy id s = true ↔ ∃ n ph, mn_calls s !! n = Some ph ∧ mn_phase_of id ph = true.
Proof.
  unfold mn_busy. rewrite existsb_exists. split.
  - intros (ph & Hin & Hp). apply list_elem_of_In, list_elem_of_fmap in Hin as ([n ph'] & -> & Hin).
    apply elem_of_map_to_list in Hin. eauto.
  - intros (n & ph & Hn & Hp). exists ph. split; [|done]. apply list_elem_of_In, list_elem_of_fmap. exists (n, ph).
    split; [done|]. by apply elem_of_map_to_list.
Qed.
Lemma said_phase m msg id : said m msg → bool_decide (id ∈ dom (mm_providers msg)) = true →
  ∃ w state, msg = mkMessage w {[id := mkProviderEvent id state]} false ∧ clientIdProviderEvents m !! id = event_of id state.
Proof.
  intros [[w ->]|(w & id' & state & -> & Hm)] Hd; apply bool_decide_eq_true in Hd; simpl in Hd.
  - set_solver.
  - rewrite dom_singleton_L in Hd. apply elem_of_singleton in Hd as ->. eauto.
Qed.
(** A call changes its phase, and the state under it does not change. *)
Lemma mn_phase_inv i c s n ph ph' received :
  mn_inv i c s → mn_calls s !! n = Some ph →
  (∀ id, mn_phase_of id ph' = mn_phase_of id ph) →
  match ph' with MnAtLock _ => False | MnAtGet msg | MnAtCallbacks _ msg => said (mn_monitor s) msg end →
  (∀ id, followed c received !! id = followed c (mn_received s) !! id ∧
           (mn_phase_of id ph = true → match ph with MnAtLock _ => False | MnAtGet _ => True | MnAtCallbacks cbs _ => c ∈ cbs end →
            match ph' with MnAtCallbacks cbs _ => c ∈ cbs | _ => False end) ∨
         followed c received !! id = clientIdProviderEvents (mn_monitor s) !! id) →
  mn_inv i c (mkMn (mn_monitor s) (<[n := ph']> (mn_calls s)) received (mn_taken s)).
Proof.
  intros [H1 H2 H3 H4 H5] Hn Hid Hsaid Hview. split; simpl; try done.
  - intros k q. rewrite lookup_insert. case_decide; [intros [= <-]; by destruct ph'|apply H3].
  - intros id k k' q q'. rewrite !lookup_insert. do 2 case_decide; subst.
    + done.
    + intros [= <-] ? E E'. rewrite Hid in E. by eapply H4.
    + intros ? [= <-] E E'. rewrite Hid in E'. by eapply H4.
    + apply H4.
  - intros id. destruct (Hview id) as [[E Hc]|E]; [|by left]. rewrite E.
    destruct (H5 id) as [?|(k & q & Hk & Hp & Hq)]; [by left|]. right. destruct (decide (k = n)) as [->|Hkn].
    + rewrite Hn in Hk. injection Hk as <-. exists n, ph'. rewrite lookup_insert_eq, Hid. split_and!; try done.
      specialize (Hc Hp Hq). by destruct ph'.
    + exists k, q. by rewrite lookup_insert_ne.
Qed.
Lemma mn_delete_inv i c s n ph m' :
  mn_inv i c s → mn_calls s !! n = Some ph → clientIdProviderEvents m' = clientIdProviderEvents (mn_monitor s) →
  monitorEventCallbacks m' = monitorEventCallbacks (mn_monitor s) →
  (∀ id, mn_phase_of id ph = true → match ph with MnAtLock _ => True | MnAtGet _ => False | MnAtCallbacks cbs _ => cbs = [] end) →
  mn_inv i c (mkMn m' (delete n (mn_calls s)) (mn_received s) (mn_taken s)).
Proof.
  intros [H1 H2 H3 H4 H5] Hn Hm Hc Hph. split; simpl; rewrite ?Hm, ?Hc; try done.
  - intros k q [_ Hk]%lookup_delete_Some. specialize (H3 k q Hk). unfold said in *. by rewrite Hm.
  - intros id k k' q q' [_ Hk]%lookup_delete_Some [_ Hk']%lookup_delete_Some. by eapply H4.
  - intros id. destruct (H5 id) as [?|(k & q & Hk & Hp & Hq)]; [by left|]. destruct (decide (k = n)) as [->|Hkn].
    + rewrite Hn in Hk. injection Hk as <-. specialize (Hph id Hp). destruct ph as [|?|cbs ?]; try done. subst. by apply elem_of_nil in Hq.
    + right. exists k, q. by rewrite lookup_delete_ne.
Qed.
Lemma mn_lock_inv i c s n call m msg :
  mn_inv i c s → mn_calls s !! n = Some (MnAtLock call) → mn_lock call (mn_monitor s) = (m, Some msg) →
  mn_inv i c (mkMn m (<[n := MnAtGet msg]> (mn_calls s)) (mn_received s) (mn_taken s ++ mn_take call)).
Proof.
  intros [H1 H2 H3 H4 H5] Hn Hl. destruct call as [b z|id state]; simpl in Hl.
  - unfold AddWindowExpandEvent in Hl. case_bool_decide as Hw; [|done]. injection Hl as <- <-. split; simpl; rewrite ?app_nil_r; try done.
    + intros k q. rewrite lookup_insert. case_decide; [|apply H3]. intros [= <-]. left. eauto.
    + intros id k k' q q'. rewrite !lookup_insert. do 2 case_decide; subst; [done| | |apply H4].
      * intros [= <-] _ E _. apply bool_decide_eq_true in E. simpl in E. set_solver.
      * intros _ [= <-] _ E. apply bool_decide_eq_true in E. simpl in E. set_solver.
    + intros id. destruct (H5 id) as [?|(k & q & Hk & Hp & Hq)]; [by left|]. right. exists k, q. rewrite lookup_insert_ne; [done|].
      intros ->. rewrite Hn in Hk. by injection Hk as <-.
  - unfold AddProviderEvent in Hl. injection Hl as <- <-.
    assert (∀ id' k q, mn_calls s !! k = Some q → k ≠ n → mn_phase_of id' q = true → id' ≠ id) as Hother.
    { intros id' k q Hk Hkn Hq ->. apply Hkn. eapply (H4 id); [done|exact Hn|done|]. simpl. by apply bool_decide_eq_true. }
    set (provs := if IsTerminal state then _ else _).
    assert (∀ j, provs !! j = if decide (j = id) then event_of id state else clientIdProviderEvents (mn_monitor s) !! j) as Hp.
    { intros j. unfold provs, event_of. destruct (IsTerminal state), (decide (j = id)) as [->|]; by simplify_map_eq. }
    split; simpl; try done.
    + intros j. rewrite Hp, last_state_app. repeat case_decide; by subst.
    + intros k q. rewrite lookup_insert. case_decide as Hk; [intros [= <-]; right|].
      { exists (windowExpandEvent (mn_monitor s)), id, state. split; [done|]. simpl. by rewrite Hp, decide_True. }
      intros Hq. specialize (H3 k q Hq). specialize (Hother) as Ho. specialize (λ id', Ho id' k q Hq (not_eq_sym Hk)) as Ho'.
      assert (∀ ms, (∀ id', mn_phase_of id' q = bool_decide (id' ∈ dom (mm_providers ms))) → said (mn_monitor s) ms →
        said (mkMonitor (windowExpandEvent (mn_monitor s)) provs (monitorEventCallbacks (mn_monitor s))) ms) as Hs.
      { intros ms Hd [[w ->]|(w & id' & st & -> & E)]; [left; eauto|]. right. exists w, id', st. split; [done|]. simpl.
        rewrite Hp, decide_False; [done|]. apply Ho'. rewrite Hd. apply bool_decide_eq_true. simpl. set_solver. }
      destruct q; [done| |]; by apply Hs.
    + intros id' k k' q q'. rewrite !lookup_insert.
      assert (mn_phase_of id' (MnAtGet (mkMessage (windowExpandEvent (mn_monitor s)) {[id := mkProviderEvent id state]} false)) = true → id' = id) as Hid.
      { intros E. apply bool_decide_eq_true in E. simpl in E. set_solver. }
      do 2 case_decide; subst; [done| | |apply H4].
      * intros [= <-] Hk' E E'. exfalso. by eapply Hother, Hid.
      * intros Hk [= <-] E E'. exfalso. by eapply Hother, Hid.
    + intros j. rewrite Hp. destruct (decide (j = id)) as [->|Hj].
      * right. exists n, (MnAtGet (mkMessage (windowExpandEvent (mn_monitor s)) {[id := mkProviderEvent id state]} false)).
        rewrite lookup_insert_eq. split_and!; [done| |done]. apply bool_decide_eq_true. simpl. set_solver.
      * destruct (H5 j) as [?|(k & q & Hk & Hq & Hc)]; [by left|]. right. exists k, q. rewrite lookup_insert_ne; [done|].
        intros ->. rewrite Hn in Hk. by injection Hk as <-.
Qed.
Lemma mn_callbacks_inv i c s op :
  (∀ j, op = CbRemove j → j ≠ i) → mn_inv i c s →
  mn_inv i c (mkMn (set_callbacks (cb_step op (monitorEventCallbacks (mn_monitor s))) (mn_monitor s)) (mn_calls s) (mn_received s) (mn_taken s)).
Proof. intros Hop [H1 H2 H3 H4 H5]. split; simpl; try done. by apply registered_step. Qed.
Lemma mn_step_inv i c l s s' :
  l ≠ MnRemove i → mn_inv i c s → mn_step l s = Some s' → mn_inv i c s'.
Proof.
  intros Hl Hinv E. destruct l as [c'|j|n call|n|n|n]; simpl in E.
  - injection E as <-. by apply (mn_callbacks_inv i c s (CbAdd c')).
  - injection E as <-. apply (mn_callbacks_inv i c s (CbRemove j)); [|done]. intros j' [= <-]. congruence.
  - destruct (mn_calls s !! n) as [?|] eqn:Hn; [done|]. destruct (match call with CallProvider _ _ => _ | _ => _ end) eqn:Hb; [done|].
    injection E as <-. destruct Hinv as [H1 H2 H3 H4 H5].
    assert (∀ id k q, mn_calls s !! k = Some q → mn_phase_of id q = true → mn_phase_of id (MnAtLock call) = true → False) as Hne.
    { intros id k q Hk Hq Hc. destruct call as [|id' st]; [done|]. simpl in Hc. apply bool_decide_eq_true in Hc as ->.
      assert (mn_busy id' s = true) as Hb' by (apply mn_busy_spec; eauto). congruence. }
    split; simpl; try done.
    + intros k q. rewrite lookup_insert. case_decide; [by intros [= <-]|apply H3].
    + intros id k k' q q'. rewrite !lookup_insert. do 2 case_decide; subst; [done| | |apply H4].
      * intros [= <-] Hk' A B. exfalso. by eapply Hne.
      * intros Hk [= <-] A B. exfalso. by eapply Hne.
    + intros id. destruct (H5 id) as [?|(k & q & Hk & Hq)]; [by left|]. right. exists k, q. rewrite lookup_insert_ne; [done|]. congruence.
  - destruct (mn_calls s !! n) as [[call| |]|] eqn:Hn; try done. destruct (mn_lock call (mn_monitor s)) as [m [msg|]] eqn:Em.
    + injection E as <-. by apply mn_lock_inv.
    + injection E as <-. destruct call as [b z|]; [|done]. simpl in *. unfold AddWindowExpandEvent in Em. case_bool_decide; [done|].
      injection Em as <-. rewrite app_nil_r. by eapply mn_delete_inv.
  - destruct (mn_calls s !! n) as [[|msg|]|] eqn:Hn; try done. injection E as <-. eapply mn_phase_inv; try done.
    + apply (mn_said i c s Hinv n _ Hn).
    + intros id. left. split; [done|]. intros _ _. eapply registered_get, (mn_reg i c s Hinv).
  - destruct (mn_calls s !! n) as [[| |[|c' cbs] msg]|] eqn:Hn; try done.
    + injection E as <-. by eapply mn_delete_inv.
    + injection E as <-. pose proof (mn_said i c s Hinv n _ Hn) as Hs. eapply mn_phase_inv; try done.
      intros id. rewrite followed_app. destruct (Nat.eqb_spec c' c) as [->|Hne].
      * destruct (mn_phase_of id (MnAtCallbacks (c :: cbs) msg)) eqn:Hp.
        -- right. destruct (said_phase _ _ _ Hs Hp) as (w & st & -> & Hv). by rewrite follow_lookup, decide_True.
        -- left. split; [|done]. destruct Hs as [[w ->]|(w & id' & st & -> & Hv)]; [by rewrite follow_empty|].
           rewrite follow_lookup, decide_False; [done|]. intros ->. apply bool_decide_eq_false in Hp. simpl in Hp. set_solver.
      * left. split; [done|]. intros _ Hin. apply elem_of_cons in Hin as [<-|?]; done.
Qed.
Lemma mn_steps_inv i c ls s s' :
  Forall (λ l, l ≠ MnRemove i) ls → mn_inv i c s → mn_steps ls s = Some s' → mn_inv i c s'.
Proof.
  intros Hls. revert s. induction Hls as [|l ls Hl _ IH]; intros s Hinv E; simpl in E; [by injection E as <-|].
  destruct (mn_step l s) as [s1|] eqn:E1; [|done]. eapply IH; [|done]. by eapply mn_step_inv.
Qed.

(** What a callback follows. While a callback is registered, in every
    interleaving of calls, of which those of one client follow each other: the
    monitor has of every client the state that the last event left, so no
    client whose last state is terminal, and a callback that follows the
    messages has the same of every client that no call is in progress for. *)
Theorem monitor_followed (c : nat) (ls : list mn_label) (s : mn_state) :
  Forall (λ l, l ≠ MnRemove 0) ls → mn_steps (MnAdd c :: ls) new_mn = Some s →
  ∀ id, ProviderEvents_of (mn_monitor s) !! id = last_state id (mn_taken s) ∧
    (mn_busy id s = false → followed c (mn_received s) !! id = ProviderEvents_of (mn_monitor s) !! id).
Proof.
  intros Hls E id. assert (mn_inv 0 c s) as [H1 H2 H3 H4 H5].
  { cbn [mn_steps mn_step] in E. eapply mn_steps_inv; [exact Hls| |exact E].
    split; simpl; try done; [|by left].
    exists 1%Z, [(0%Z, c)]. split; [|set_solver]. unfold cb_rel. simpl. split_and!; try done; repeat constructor. }
  split; [apply H2|]. intros Hb. destruct (H5 id) as [?|(n & ph & Hn & Hp & _)]; [done|].
  assert (mn_busy id s = true) by (apply mn_busy_spec; eauto). congruence.
Qed.

(** ** Merged monitors *)
Definition net_target {M} `{MultiClientMonitor M} (l : list M) : Z := foldr Z.add 0%Z (map (λ m, TargetSize (WindowExpandEvent_of m)) l).
Lemma merged_window_from {M} `{MultiClientMonitor M} (l : list M) t b :
  foldl (λ net m, mkWindowEvent (i64 (TargetSize net + TargetSize (WindowExpandEvent_of m)))
                    (MinSatisfied net || MinSatisfied (WindowExpandEvent_of m))) (mkWindowEvent (i64 t) b) l =
  mkWindowEvent (i64 (t + net_target l)) (b || existsb (λ m, MinSatisfied (WindowExpandEvent_of m)) l).
Proof.
  revert t b. induction l as [|m l IH]; intros t b; cbn [foldl net_target map foldr existsb TargetSize MinSatisfied].
  - by rewrite orb_false_r, Z.add_0_r.
  - rewrite i64_add_l, IH. by rewrite orb_assoc, Z.add_assoc.
Qed.
(** A merged monitor: its target is the sum of the targets, its minimum is
    satisfied when that of one of them is, and of a client it has what the last
    of the monitors that has the client says. *)
Theorem merged_monitor {M} `{MultiClientMonitorLaws M} (monitors : list M) :
  let '(window, providers) := Events monitors in
  window = mkWindowEvent (i64 (foldr Z.add 0%Z (map (λ m, TargetSize (Events m).1) monitors)))
             (existsb (λ m, MinSatisfied (Events m).1) monitors) ∧
  ∀ id, providers !! id = last (omap (λ m, (Events m).2 !! id) monitors).
Proof.
  simpl. split.
  - unfold merged_WindowExpandEvent. change (mkWindowEvent 0 false) with (mkWindowEvent (i64 0) false). rewrite merged_window_from. f_equal.
    + f_equal. unfold net_target. rewrite Z.add_0_l. f_equal. apply map_ext. intros m. by rewrite events_are_both.
    + induction monitors as [|m l IH]; [done|]. simpl in *. by rewrite IH, events_are_both.
  - intros id. unfold merged_ProviderEvents. induction monitors as [|m l IH] using rev_ind; [done|].
    rewrite foldl_app, omap_app. simpl. rewrite lookup_union, IH, events_are_both. simpl.
    destruct (ProviderEvents_of m !! id) eqn:E; simpl; [rewrite last_snoc; by destruct (last _)|].
    rewrite app_nil_r. by destruct (last _).
Qed.

Module MonitorExample.
Definition ex_id (k : nat) : Id := to_array 16 (replicate k x01).
(** Two clients, of which one is removed, while the window grows. *)
Definition ex_calls : list mn_label :=
  [MnCall 1 (CallProvider (ex_id 1) ProviderStateInEvaluation); MnLock 1; MnCall 2 (CallProvider (ex_id 2) ProviderStateAdded);
   MnLock 2; MnGet 2; MnCallback 2; MnCall 3 (CallWindow true 2); MnLock 3; MnGet 1; MnCallback 1; MnGet 3; MnCallback 3;
   MnCallback 2; MnCall 2 (CallProvider (ex_id 2) ProviderStateRemoved); MnLock 2; MnGet 2; MnCallback 2; MnCallback 2;
   MnCallback 1; MnCallback 3; MnCall 3 (CallWindow true 2); MnLock 3].
Definition ex_end : mn_state := match mn_steps (MnAdd 7 :: ex_calls) new_mn with Some s => s | None => new_mn end.
Example ex_followed :
  map pv_State (map snd (map_to_list (followed 7 (mn_received ex_end)))) = [ProviderStateInEvaluation] ∧ size (mn_calls ex_end) = 0.
Proof. split; vm_compute; reflexivity. Qed.
Lemma monitor_followed_witness :
  mn_steps (MnAdd 7 :: ex_calls) new_mn = Some ex_end ∧
  followed 7 (mn_received ex_end) !! ex_id 1 = ProviderEvents_of (mn_monitor ex_end) !! ex_id 1.
Proof.
  assert (mn_steps (MnAdd 7 :: ex_calls) new_mn = Some ex_end) as E by (vm_compute; reflexivity).
  split; [exact E|].
  refine (proj2 (monitor_followed 7 ex_calls ex_end _ E (ex_id 1)) _); [|vm_compute; reflexivity].
  repeat (apply Forall_cons_2; [discriminate|]). apply Forall_nil_2.
Defined.
(** The windows are not followed: the last event that a callback gets can be one
    that was replaced before. *)
Definition ex_stale : list mn_label :=
  [MnAdd 7; MnCall 1 (CallProvider (ex_id 1) ProviderStateAdded); MnLock 1; MnCall 2 (CallWindow true 3); MnLock 2; MnGet 2;
   MnCallback 2; MnCallback 2; MnGet 1; MnCallback 1; MnCallback 1].
Example window_event_stale :
  (λ s, (map (λ p, mm_window p.2) (mn_received s), WindowExpandEvent_of (mn_monitor s), size (mn_calls s))) <$> mn_steps ex_stale new_mn =
  Some ([mkWindowEvent 3 true; mkWindowEvent 0 false], mkWindowEvent 3 true, 0).
Proof. vm_compute. reflexivity. Qed.
(** [expand] of the multi client removes a client that is replaced by one of the
    same id after it has added the new one: the new one is not shown. *)
Definition ex_replaced : list mn_label :=
  flat_map (λ st, [MnCall 1 (CallProvider (ex_id 1) st); MnLock 1; MnGet 1; MnCallback 1; MnCallback 1])
    [ProviderStateAdded; ProviderStateInEvaluation; ProviderStateAdded; ProviderStateRemoved].
Example replaced_not_shown :
  (λ s, size (ProviderEvents_of (mn_monitor s))) <$> mn_steps (MnAdd 7 :: ex_replaced) new_mn = Some 0.
Proof. vm_compute. reflexivity. Qed.
(** Of a client of two windows the last window counts. *)
Example merged_last :
  pv_State <$>
    merged_ProviderEvents [mkMonitor (mkWindowEvent 1 true) {[ex_id 1 := mkProviderEvent (ex_id 1) ProviderStateAdded]} NewCallbackList;
                           mkMonitor (mkWindowEvent 2 false) {[ex_id 1 := mkProviderEvent (ex_id 1) ProviderStateInEvaluation]} NewCallbackList]
    !! ex_id 1 = Some ProviderStateInEvaluation.
Proof. vm_compute. reflexivity. Qed.
End MonitorExample.
