(* ===== verification/PlatformTransport.v ===== *)
(** * Platform transports: transport.go

    A [PlatformTransport] keeps a connection to the platform open, one goroutine
    for each mode that its target has, and gives the route manager the routes of
    the connection while it is up. A connection has three goroutines: one writes
    what is sent and echoes control messages, one reads, and one looks whether
    the connection is idle in a mode that is not active. The web socket and the
    QUIC stream are the network: messages that come, and writes that succeed or
    fail. [WsDialContext] and the dial of QUIC are arguments. [run] starts the
    goroutines without an initial delay, and [DebugCloseSend] is false. *)

From Stdlib Require Import Strings.Byte Strings.Ascii.
From stdpp Require Import gmap.
From S2P Require Import Prelude.
Open Scope go_scope.

(** ** Modes *)
Inductive TransportMode :=
| TransportModeAuto | TransportModeH3DnsPump | TransportModeH3Dns | TransportModeH1 | TransportModeH3 | TransportModeNone.
#[export] Instance TransportMode_eq_dec : EqDecision TransportMode.
Proof. solve_decision. Defined.
Definition mode_code (m : TransportMode) : nat :=
  match m with
  | TransportModeAuto => 0 | TransportModeH3DnsPump => 1 | TransportModeH3Dns => 2
  | TransportModeH1 => 3 | TransportModeH3 => 4 | TransportModeNone => 5
  end.
Definition mode_decode (n : nat) : TransportMode :=
  match n with
  | 0 => TransportModeAuto | 1 => TransportModeH3DnsPump | 2 => TransportModeH3Dns
  | 3 => TransportModeH1 | 4 => TransportModeH3 | _ => TransportModeNone
  end.
#[export] Program Instance TransportMode_countable : Countable TransportMode := inj_countable' mode_code mode_decode _.
Next Obligation. by intros []. Qed.
(** [transportModePreferences]; a mode that is not in the map has 0. *)
Definition transportModePreferences (m : TransportMode) : Z :=
  match m with
  | TransportModeH3DnsPump => 1 | TransportModeH3Dns => 2 | TransportModeH3 => 3 | TransportModeH1 => 3
  | _ => 0
  end.
Definition preference_keys : list TransportMode :=
  [TransportModeH3DnsPump; TransportModeH3Dns; TransportModeH3; TransportModeH1].
Definition isBetterMode (current other : TransportMode) : bool :=
  (transportModePreferences current <? transportModePreferences other)%Z.
Definition mode_cmp (a b : TransportMode) : Z :=
  if bool_decide (a = b) then 0 else if isBetterMode a b then -1 else 1.
(** [slices.SortFunc] of at most 12 elements is an insertion sort: an element is
    moved to the left while it compares below the one before it. The sorted part
    is kept with its last element first. *)
Fixpoint sort_insert (cmp : TransportMode → TransportMode → Z) (x : TransportMode) (sorted : list TransportMode) : list TransportMode :=
  match sorted with
  | [] => [x]
  | y :: sorted => if (cmp x y <? 0)%Z then y :: sort_insert cmp x sorted else x :: y :: sorted
  end.
Definition SortFunc (cmp : TransportMode → TransportMode → Z) (l : list TransportMode) : list TransportMode :=
  rev (foldl (λ sorted x, sort_insert cmp x sorted) [] l).
(** The mode that a pass of [run] makes active, if any; [keys] is the map in its order. *)
Definition choose_mode (keys : list TransportMode) (available : gmap TransportMode bool) : option TransportMode :=
  head (List.filter (λ m, default false (available !! m)) (SortFunc mode_cmp keys)).

(** [Monitor] of util.go: the channels made so far; the last one is open. *)
Record Monitor := mkMonitor { notify : nat }.
Definition NewMonitor : Monitor := mkMonitor 0.
Definition NotifyChannel (m : Monitor) : nat := notify m.
Definition NotifyAll (m : Monitor) : Monitor := mkMonitor (S (notify m)).
Definition notified (channel : nat) (m : Monitor) : bool := channel <? notify m.

(** ** A connection *)
Definition message : Type := list byte.
Definition TransportControlSpeedStart : byte := byte_of 1.
Definition TransportControlSpeedStop : byte := byte_of 2.
Definition is_control (c : byte) (m : message) : bool :=
  (length m =? 5) && match m with b :: _ => bool_decide (b = c) | [] => false end.
Record PlatformTransportSettings := mkPlatformSettings { TransportBufferSize : nat }.

(** What the writer holds: a message of [send], one of [controlSend], a ping. *)
Inductive wr_item := WrData (m : message) | WrControl (m : message) | WrPing.
Inductive wr_phase := WrTop | WrWrite (x : wr_item) | WrDone.
Inductive rd_phase :=
| RdTop                        (** at the check of the context *)
| RdReading
| RdEcho (m : message)         (** puts it into [controlSend] *)
| RdDeliver (m : message)      (** puts it into [receive] *)
| RdCancel | RdCloseReceive | RdCloseControl | RdDrainReceive | RdDrainControl
| RdDone.
Inductive wt_phase :=
| WtTop
| WtWait (idle : option (Z * Z)) (channel : nat)   (** with the counts at the start when the mode is not active *)
| WtDone.
Record conn := mkConn {
  cn_self_done : bool;             (** the context of the transport *)
  cn_handle_done : bool;
  cn_send : list message;
  cn_receive : list message;
  cn_receive_closed : bool;
  cn_control : list message;
  cn_control_closed : bool;
  cn_writer : wr_phase;
  cn_writer_speed : bool;          (** [speedTest] of the writer *)
  cn_reader : rd_phase;
  cn_reader_speed : bool;          (** [speedTest] of the reader *)
  cn_watch : wt_phase;
  cn_reads : Z;
  cn_writes : Z
}.
(** What happened: messages accepted by [send], what was written, messages read,
    messages put into [controlSend], into [receive] and dropped at its timeout,
    taken by the client, and returned to the pool. *)
Record conn_trace := mkConnTrace {
  ct_sent : list message;
  ct_written : list wr_item;
  ct_read : list message;
  ct_echoed : list message;
  ct_delivered : list (message * bool);    (** [false]: dropped *)
  ct_taken : list message;
  ct_pool : list message
}.
Definition new_conn (self_done : bool) : conn :=
  mkConn self_done self_done [] [] false [] false WrTop false RdTop false WtTop 0 0.
Definition new_trace : conn_trace := mkConnTrace [] [] [] [] [] [] [].
Definition conn_state : Type := conn * conn_trace.

Definition cn_cancel (c : conn) : conn :=
  mkConn (cn_self_done c) true (cn_send c) (cn_receive c) (cn_receive_closed c) (cn_control c) (cn_control_closed c)
    (cn_writer c) (cn_writer_speed c) (cn_reader c) (cn_reader_speed c) (cn_watch c) (cn_reads c) (cn_writes c).
Definition cn_cancel_self (c : conn) : conn :=
  mkConn true true (cn_send c) (cn_receive c) (cn_receive_closed c) (cn_control c) (cn_control_closed c)
    (cn_writer c) (cn_writer_speed c) (cn_reader c) (cn_reader_speed c) (cn_watch c) (cn_reads c) (cn_writes c).
Definition cn_set_send (l : list message) (c : conn) : conn :=
  mkConn (cn_self_done c) (cn_handle_done c) l (cn_receive c) (cn_receive_closed c) (cn_control c) (cn_control_closed c)
    (cn_writer c) (cn_writer_speed c) (cn_reader c) (cn_reader_speed c) (cn_watch c) (cn_reads c) (cn_writes c).
Definition cn_set_receive (l : list message) (closed : bool) (c : conn) : conn :=
  mkConn (cn_self_done c) (cn_handle_done c) (cn_send c) l closed (cn_control c) (cn_control_closed c)
    (cn_writer c) (cn_writer_speed c) (cn_reader c) (cn_reader_speed c) (cn_watch c) (cn_reads c) (cn_writes c).
Definition cn_set_control (l : list message) (closed : bool) (c : conn) : conn :=
  mkConn (cn_self_done c) (cn_handle_done c) (cn_send c) (cn_receive c) (cn_receive_closed c) l closed
    (cn_writer c) (cn_writer_speed c) (cn_reader c) (cn_reader_speed c) (cn_watch c) (cn_reads c) (cn_writes c).
Definition cn_set_writer (w : wr_phase) (speed : bool) (writes : Z) (c : conn) : conn :=
  mkConn (cn_self_done c) (cn_handle_done c) (cn_send c) (cn_receive c) (cn_receive_closed c) (cn_control c) (cn_control_closed c)
    w speed (cn_reader c) (cn_reader_speed c) (cn_watch c) (cn_reads c) writes.
Definition cn_set_reader (r : rd_phase) (speed : bool) (reads : Z) (c : conn) : conn :=
  mkConn (cn_self_done c) (cn_handle_done c) (cn_send c) (cn_receive c) (cn_receive_closed c) (cn_control c) (cn_control_closed c)
    (cn_writer c) (cn_writer_speed c) r speed (cn_watch c) reads (cn_writes c).
Definition cn_set_watch (w : wt_phase) (c : conn) : conn :=
  mkConn (cn_self_done c) (cn_handle_done c) (cn_send c) (cn_receive c) (cn_receive_closed c) (cn_control c) (cn_control_closed c)
    (cn_writer c) (cn_writer_speed c) (cn_reader c) (cn_reader_speed c) w (cn_reads c) (cn_writes c).
Definition ct_set_sent l t := mkConnTrace l (ct_written t) (ct_read t) (ct_echoed t) (ct_delivered t) (ct_taken t) (ct_pool t).
Definition ct_set_written l t := mkConnTrace (ct_sent t) l (ct_read t) (ct_echoed t) (ct_delivered t) (ct_taken t) (ct_pool t).
Definition ct_set_read l t := mkConnTrace (ct_sent t) (ct_written t) l (ct_echoed t) (ct_delivered t) (ct_taken t) (ct_pool t).
Definition ct_set_echoed l t := mkConnTrace (ct_sent t) (ct_written t) (ct_read t) l (ct_delivered t) (ct_taken t) (ct_pool t).
Definition ct_set_delivered l t := mkConnTrace (ct_sent t) (ct_written t) (ct_read t) (ct_echoed t) l (ct_taken t) (ct_pool t).
Definition ct_set_taken l t := mkConnTrace (ct_sent t) (ct_written t) (ct_read t) (ct_echoed t) (ct_delivered t) l (ct_pool t).
(** [MessagePoolReturn] *)
Definition ct_return (l : list message) t :=
  mkConnTrace (ct_sent t) (ct_written t) (ct_read t) (ct_echoed t) (ct_delivered t) (ct_taken t) (ct_pool t ++ l).
Definition wr_message (x : wr_item) : list message := match x with WrData m | WrControl m => [m] | WrPing => [] end.

Inductive conn_label :=
| CnSelfDone                     (** the transport is closed *)
| CnPut (m : message)            (** the route manager writes to the route *)
| CnTake                         (** the client reads from the route *)
| CnWriteData | CnWriteControl | CnWritePing | CnWritten (ok : bool) | CnWriteEnd
| CnCheck | CnRead (m : message) | CnReadOther | CnReadError | CnReadPut | CnReadDone | CnReadTimeout | CnReadExit
| CnLook (mode : TransportMode) (channel : nat) | CnIdle | CnNotify (monitor : Monitor) | CnWatchEnd.

(** *** The writer *)
Definition cn_writer_end (s : conn_state) : conn_state :=
  (cn_cancel (cn_set_writer WrDone (cn_writer_speed s.1) (cn_writes s.1) s.1), s.2).
Definition writer_step (h3 : bool) (l : conn_label) (s : conn_state) : option conn_state :=
  let (c, t) := s in
  match l, cn_writer c with
  | CnWriteEnd, WrTop =>
      if cn_handle_done c || negb h3 && cn_control_closed c && bool_decide (cn_control c = []) then Some (cn_writer_end s) else None
  | CnWriteData, WrTop =>
      if cn_writer_speed c then None else
      match cn_send c with
      | [] => None
      | m :: send =>
          let c := cn_set_send send c in
          if negb h3 && (length m <=? 16) then Some (c, ct_return [m] t)
          else Some (cn_set_writer (WrWrite (WrData m)) (cn_writer_speed c) (cn_writes c) c, t)
      end
  | CnWriteControl, WrTop =>
      if h3 then None else
      match cn_control c with
      | [] => None
      | m :: control =>
          let c := cn_set_control control (cn_control_closed c) c in
          let speed := if cn_writer_speed c then negb (is_control TransportControlSpeedStop m)
                       else is_control TransportControlSpeedStart m in
          Some (cn_set_writer (WrWrite (WrControl m)) speed (cn_writes c) c, t)
      end
  | CnWritePing, WrTop => Some (cn_set_writer (WrWrite WrPing) (cn_writer_speed c) (cn_writes c) c, t)
  | CnWritten ok, WrWrite x =>
      let t := ct_return (wr_message x) t in
      if ok then
        let writes := match x with WrPing => cn_writes c | _ => if h3 then cn_writes c else u64 (cn_writes c + 1) end in
        Some (cn_set_writer WrTop (cn_writer_speed c) writes c, ct_set_written (ct_written t ++ [x]) t)
      else Some (cn_writer_end (c, t))
  | _, _ => None
  end.

(** *** The reader *)
Definition cn_at (r : rd_phase) (c : conn) : conn := cn_set_reader r (cn_reader_speed c) (cn_reads c) c.
(** A message that was read: what the reader does next. *)
Definition reader_message (h3 : bool) (m : message) (s : conn_state) : conn_state :=
  let (c, t) := s in
  let t := ct_set_read (ct_read t ++ [m]) t in
  let return_ := (cn_at RdTop c, ct_return [m] t) in
  if h3 then if length m =? 0 then return_ else (cn_at (RdDeliver m) c, t)
  else
    let c := cn_set_reader (cn_reader c) (cn_reader_speed c) (u64 (cn_reads c + 1)) c in
    let return_ := (cn_at RdTop c, ct_return [m] t) in
    if length m <=? 16 then
      if is_control TransportControlSpeedStart m then (cn_set_reader (RdEcho m) true (cn_reads c) c, t)
      else if is_control TransportControlSpeedStop m then (cn_set_reader (RdEcho m) false (cn_reads c) c, t)
      else if length m =? 16 then (cn_at (RdEcho m) c, t)
      else return_
    else if cn_reader_speed c then (cn_at (RdEcho m) c, t)
    else (cn_at (RdDeliver m) c, t).
Definition reader_step (settings : PlatformTransportSettings) (h3 : bool) (l : conn_label) (s : conn_state) : option conn_state :=
  let (c, t) := s in
  match l, cn_reader c with
  | CnCheck, RdTop => Some (cn_at (if cn_handle_done c then RdCancel else RdReading) c, t)
  | CnRead m, RdReading => Some (reader_message h3 m s)
  | CnReadOther, RdReading => if h3 then None else Some (cn_at RdTop c, t)
  | CnReadError, RdReading => Some (cn_at RdCancel c, t)
  | CnReadPut, RdEcho m =>
      if length (cn_control c) <? TransportBufferSize settings
      then Some (cn_at RdTop (cn_set_control (cn_control c ++ [m]) (cn_control_closed c) c), ct_set_echoed (ct_echoed t ++ [m]) t)
      else None
  | CnReadDone, RdEcho m => if cn_self_done c then Some (cn_at RdTop c, ct_return [m] t) else None
  | CnReadPut, RdDeliver m =>
      if length (cn_receive c) <? TransportBufferSize settings
      then Some (cn_at RdTop (cn_set_receive (cn_receive c ++ [m]) (cn_receive_closed c) c), ct_set_delivered (ct_delivered t ++ [(m, true)]) t)
      else None
  | CnReadDone, RdDeliver m => if cn_handle_done c then Some (cn_at RdCancel c, ct_return [m] t) else None
  | CnReadTimeout, RdDeliver m => Some (cn_at RdTop c, ct_return [m] (ct_set_delivered (ct_delivered t ++ [(m, false)]) t))
  | CnReadExit, RdCancel => Some (cn_at RdCloseReceive (cn_cancel c), t)
  | CnReadExit, RdCloseReceive => Some (cn_at (if h3 then RdDone else RdCloseControl) (cn_set_receive (cn_receive c) true c), t)
  | CnReadExit, RdCloseControl => Some (cn_at RdDrainReceive (cn_set_control (cn_control c) true c), t)
  | CnReadExit, RdDrainReceive =>
      match cn_receive c with
      | [] => Some (cn_at RdDrainControl c, t)
      | m :: l => Some (cn_set_receive l (cn_receive_closed c) c, ct_return [m] t)
      end
  | CnReadExit, RdDrainControl =>
      match cn_control c with
      | [] => Some (cn_at RdDone c, t)
      | m :: l => Some (cn_set_control l (cn_control_closed c) c, ct_return [m] t)
      end
  | _, _ => None
  end.

(** *** The goroutine that looks for idle connections *)
Definition watch_step (ptMode : TransportMode) (l : conn_label) (s : conn_state) : option conn_state :=
  let (c, t) := s in
  match l, cn_watch c with
  | CnLook mode channel, WtTop =>
      Some (cn_set_watch (WtWait (if bool_decide (mode ≠ ptMode) then Some (cn_reads c, cn_writes c) else None) channel) c, t)
  | CnIdle, WtWait (Some (r, w)) _ =>
      let c := cn_set_watch WtTop c in
      Some (if (cn_reads c =? r)%Z && (cn_writes c =? w)%Z then cn_cancel c else c, t)
  | CnNotify monitor, WtWait _ channel => if notified channel monitor then Some (cn_set_watch WtTop c, t) else None
  | CnWatchEnd, WtWait _ _ => if cn_handle_done c then Some (cn_cancel (cn_set_watch WtDone c), t) else None
  | _, _ => None
  end.
Definition conn_step (settings : PlatformTransportSettings) (ptMode : TransportMode) (l : conn_label) (s : conn_state) : option conn_state :=
  let (c, t) := s in
  let h3 := bool_decide (ptMode ≠ TransportModeH1) in
  match l with
  | CnSelfDone => Some (cn_cancel_self c, t)
  | CnPut m =>
      if length (cn_send c) <? TransportBufferSize settings
      then Some (cn_set_send (cn_send c ++ [m]) c, ct_set_sent (ct_sent t ++ [m]) t) else None
  | CnTake =>
      match cn_receive c with
      | [] => None
      | m :: l => Some (cn_set_receive l (cn_receive_closed c) c, ct_set_taken (ct_taken t ++ [m]) t)
      end
  | CnWriteData | CnWriteControl | CnWritePing | CnWritten _ | CnWriteEnd => writer_step h3 l s
  | CnLook _ _ | CnIdle | CnNotify _ | CnWatchEnd => watch_step ptMode l s
  | _ => reader_step settings h3 l s
  end.
Fixpoint conn_steps (settings : PlatformTransportSettings) (ptMode : TransportMode) (ls : list conn_label) (s : conn_state) : option conn_state :=
  match ls with
  | [] => Some s
  | l :: ls => match conn_step settings ptMode l s with Some s => conn_steps settings ptMode ls s | None => None end
  end.

(** ** The transport *)
(** The transports of connection [n]: [true] is the one that sends. *)
Inductive run_act := ActAvailable (available : bool) | ActUpdate (send : bool) | ActRemove (send : bool) | ActStart | ActCancel.
(** A goroutine [runH1] or [runH3]; a connection is set up and taken down in steps. *)
Inductive run_phase :=
| PrLook
| PrWait (channel : nat)              (** a better mode is active *)
| PrConnect
| PrReconnect                         (** until the time of the next try *)
| PrUp (n : nat) (acts : list run_act)
| PrDown (n : nat) (acts : list run_act)
| PrDone.
Definition up_acts : list run_act := [ActAvailable true; ActUpdate true; ActUpdate false; ActStart].
Definition down_acts : list run_act := [ActRemove true; ActRemove false; ActCancel; ActAvailable false].
Inductive main_phase :=
| MainLook
| MainSet (mode : option TransportMode) (channel : nat)
| MainWait (channel : nat)
| MainDone.
Record PlatformTransport := mkPlatform {
  pf_done : bool;
  modeMonitor : Monitor;
  availableModes : gmap TransportMode bool;
  pf_mode : TransportMode;
  pf_main : main_phase;
  pf_runs : gmap TransportMode run_phase;
  pf_conns : gmap nat (TransportMode * conn_state);
  pf_next : nat;
  pf_routes : gset (nat * bool)       (** the transports that the route manager has *)
}.
(** The goroutines that [run] starts for a target. *)
Definition target_modes (targetMode : TransportMode) : list TransportMode :=
  match targetMode with
  | TransportModeAuto => [TransportModeH1]
  | TransportModeNone => []
  | m => [m]
  end.
Definition NewPlatformTransportWithTargetMode (targetMode : TransportMode) : PlatformTransport :=
  mkPlatform false NewMonitor ∅ TransportModeNone MainLook
    (list_to_map (map (λ m, (m, PrLook)) (target_modes targetMode))) ∅ 0 ∅.
Definition pf_set_main (ph : main_phase) (p : PlatformTransport) : PlatformTransport :=
  mkPlatform (pf_done p) (modeMonitor p) (availableModes p) (pf_mode p) ph (pf_runs p) (pf_conns p) (pf_next p) (pf_routes p).
Definition pf_set_run (m : TransportMode) (ph : run_phase) (p : PlatformTransport) : PlatformTransport :=
  mkPlatform (pf_done p) (modeMonitor p) (availableModes p) (pf_mode p) (pf_main p) (<[m := ph]> (pf_runs p)) (pf_conns p) (pf_next p) (pf_routes p).
Definition pf_set_conns (conns : gmap nat (TransportMode * conn_state)) (p : PlatformTransport) : PlatformTransport :=
  mkPlatform (pf_done p) (modeMonitor p) (availableModes p) (pf_mode p) (pf_main p) (pf_runs p) conns (pf_next p) (pf_routes p).
Definition pf_set_routes (routes : gset (nat * bool)) (p : PlatformTransport) : PlatformTransport :=
  mkPlatform (pf_done p) (modeMonitor p) (availableModes p) (pf_mode p) (pf_main p) (pf_runs p) (pf_conns p) (pf_next p) routes.
Definition setModeAvailable (m : TransportMode) (available : bool) (p : PlatformTransport) : PlatformTransport :=
  mkPlatform (pf_done p) (modeMonitor p) (<[m := available]> (availableModes p)) (pf_mode p) (pf_main p) (pf_runs p) (pf_conns p) (pf_next p) (pf_routes p).
Definition setActiveMode (m : TransportMode) (p : PlatformTransport) : PlatformTransport :=
  mkPlatform (pf_done p) (modeMonitor p) (availableModes p) m (pf_main p) (pf_runs p) (pf_conns p) (pf_next p) (pf_routes p).
(** [cancel]: the contexts of the connections are children of the context. *)
Definition pf_cancel (p : PlatformTransport) : PlatformTransport :=
  mkPlatform true (modeMonitor p) (availableModes p) (pf_mode p) (pf_main p) (pf_runs p)
    ((λ x : TransportMode * conn_state, (x.1, (cn_cancel_self x.2.1, x.2.2))) <$> pf_conns p) (pf_next p) (pf_routes p).
Definition Close (p : PlatformTransport) : PlatformTransport := pf_cancel p.
Definition run_do (m : TransportMode) (n : nat) (a : run_act) (p : PlatformTransport) : PlatformTransport :=
  match a with
  | ActAvailable available => setModeAvailable m available p
  | ActUpdate send => pf_set_routes ({[(n, send)]} ∪ pf_routes p) p
  | ActRemove send => pf_set_routes (pf_routes p ∖ {[(n, send)]}) p
  | ActStart => pf_set_conns (<[n := (m, (new_conn (pf_done p), new_trace))]> (pf_conns p)) p
  | ActCancel => pf_set_conns (alter (λ x : TransportMode * conn_state, (x.1, (cn_cancel x.2.1, x.2.2))) n (pf_conns p)) p
  end.
Definition run_end (m : TransportMode) (p : PlatformTransport) : PlatformTransport := pf_cancel (pf_set_run m PrDone p).
Inductive run_label := RunNext | RunEnd | RunConnected (ok : bool).
Definition run_step (m : TransportMode) (l : run_label) (ph : run_phase) (p : PlatformTransport) : option PlatformTransport :=
  match l, ph with
  | RunNext, PrLook =>
      Some (pf_set_run m (if isBetterMode m (pf_mode p) then PrWait (NotifyChannel (modeMonitor p)) else PrConnect) p)
  | RunNext, PrWait channel => if notified channel (modeMonitor p) then Some (pf_set_run m PrLook p) else None
  | RunEnd, PrWait _ => if pf_done p then Some (pf_set_run m PrConnect p) else None   (** the function of the wait returns *)
  | RunEnd, PrConnect => if bool_decide (m = TransportModeH1) && pf_done p then Some (run_end m p) else None   (** the delay *)
  | RunConnected ok, PrConnect =>
      if (ok : bool)
      then Some (pf_set_run m (PrUp (pf_next p) up_acts)
                   (mkPlatform (pf_done p) (modeMonitor p) (availableModes p) (pf_mode p) (pf_main p) (pf_runs p) (pf_conns p)
                      (S (pf_next p)) (pf_routes p)))
      else Some (pf_set_run m PrReconnect p)
  | RunNext, PrReconnect => Some (pf_set_run m PrLook p)
  | RunEnd, PrReconnect => if pf_done p then Some (run_end m p) else None
  | RunNext, PrUp n (a :: acts) => Some (pf_set_run m (PrUp n acts) (run_do m n a p))
  | RunNext, PrUp n [] =>
      match pf_conns p !! n with
      | Some (_, (c, _)) => if cn_handle_done c then Some (pf_set_run m (PrDown n down_acts) p) else None
      | None => None
      end
  | RunNext, PrDown n (a :: acts) => Some (pf_set_run m (PrDown n acts) (run_do m n a p))
  | RunNext, PrDown n [] => Some (pf_set_run m PrReconnect p)
  | _, _ => None
  end.
Inductive main_label := MainNext (keys : list TransportMode) | MainEnd.
Definition main_step (l : main_label) (p : PlatformTransport) : option PlatformTransport :=
  match l, pf_main p with
  | MainNext keys, MainLook => Some (pf_set_main (MainSet (choose_mode keys (availableModes p)) (NotifyChannel (modeMonitor p))) p)
  | MainNext _, MainSet mode channel =>
      Some (pf_set_main (MainWait channel) (match mode with Some m => setActiveMode m p | None => p end))
  | MainNext _, MainWait channel => if notified channel (modeMonitor p) then Some (pf_set_main MainLook p) else None
  | MainEnd, MainWait _ => if pf_done p then Some (pf_cancel (pf_set_main MainDone p)) else None
  | _, _ => None
  end.
(** What a connection sees of the transport. *)
Definition conn_label_ok (p : PlatformTransport) (l : conn_label) : bool :=
  match l with
  | CnSelfDone => false
  | CnLook mode channel => bool_decide (mode = pf_mode p) && (channel =? NotifyChannel (modeMonitor p))
  | CnNotify monitor => notify monitor =? notify (modeMonitor p)
  | _ => true
  end.
Inductive platform_label :=
| PfClose
| PfMain (l : main_label)
| PfRun (m : TransportMode) (l : run_label)
| PfConn (n : nat) (l : conn_label).
Definition platform_step (settings : PlatformTransportSettings) (l : platform_label) (p : PlatformTransport) : option PlatformTransport :=
  match l with
  | PfClose => Some (Close p)
  | PfMain l => main_step l p
  | PfRun m l => match pf_runs p !! m with Some ph => run_step m l ph p | None => None end
  | PfConn n l =>
      if negb (conn_label_ok p l) then None else
      match pf_conns p !! n with
      | Some (m, s) =>
          match conn_step settings m l s with
          | Some s => Some (pf_set_conns (<[n := (m, s)]> (pf_conns p)) p)
          | None => None
          end
      | None => None
      end
  end.
Fixpoint platform_steps (settings : PlatformTransportSettings) (ls : list platform_label) (p : PlatformTransport) : option PlatformTransport :=
  match ls with
  | [] => Some p
  | l :: ls => match platform_step settings l p with Some p => platform_steps settings ls p | None => None end
  end.

(** ** What a connection does with its messages *)
(** *** The specification *)
Definition sendable (h3 : bool) (l : list message) : list message := List.filter (λ m, h3 || negb (length m <=? 16)) l.
Definition data_written (l : list wr_item) : list message := omap (λ x, match x with WrData m => Some m | _ => None end) l.
Definition control_written (l : list wr_item) : list message := omap (λ x, match x with WrControl m => Some m | _ => None end) l.
(** The speed test as the writer sees it: from a start until a stop. *)
Definition speed_after (speed : bool) (x : wr_item) : bool :=
  match x with
  | WrControl m => if speed then negb (is_control TransportControlSpeedStop m) else is_control TransportControlSpeedStart m
  | _ => speed
  end.
Definition item_ok (speed : bool) (x : wr_item) : bool := match x with WrData _ => negb speed | _ => true end.
Fixpoint quiet (speed : bool) (l : list wr_item) : bool :=
  match l with [] => true | x :: l => item_ok speed x && quiet (speed_after speed x) l end.
(** What a message that is read is for: its echo or the client, and the speed
    test after it. *)
Inductive read_use := UseNothing | UseEcho | UseClient.
Definition use_of (h3 speed : bool) (m : message) : read_use * bool :=
  if h3 then (if length m =? 0 then UseNothing else UseClient, speed)
  else if length m <=? 16 then
    if is_control TransportControlSpeedStart m then (UseEcho, true)
    else if is_control TransportControlSpeedStop m then (UseEcho, false)
    else (if length m =? 16 then UseEcho else UseNothing, speed)
  else (if speed then UseEcho else UseClient, speed).
Fixpoint uses (h3 speed : bool) (l : list message) : list (read_use * message) :=
  match l with [] => [] | m :: l => ((use_of h3 speed m).1, m) :: uses h3 (use_of h3 speed m).2 l end.
Fixpoint reads_speed (h3 speed : bool) (l : list message) : bool :=
  match l with [] => speed | m :: l => reads_speed h3 (use_of h3 speed m).2 l end.
Definition for_echo (l : list (read_use * message)) : list message := omap (λ u, match u.1 with UseEcho => Some u.2 | _ => None end) l.
Definition for_client (l : list (read_use * message)) : list message := omap (λ u, match u.1 with UseClient => Some u.2 | _ => None end) l.
Definition delivered (l : list (message * bool)) : list message := map fst (List.filter snd l).

Lemma read_uses_app h3 speed l m :
  uses h3 speed (l ++ [m]) = uses h3 speed l ++ [((use_of h3 (reads_speed h3 speed l) m).1, m)].
Proof. revert speed. induction l as [|x l IH]; intros speed; simpl; [done|]. by rewrite IH. Qed.
Lemma reads_speed_app h3 speed l m : reads_speed h3 speed (l ++ [m]) = (use_of h3 (reads_speed h3 speed l) m).2.
Proof. revert speed. induction l as [|x l IH]; intros speed; simpl; [done|]. by rewrite IH. Qed.
Lemma quiet_app speed l x : quiet speed (l ++ [x]) = quiet speed l && item_ok (foldl speed_after speed l) x.
Proof. revert speed. induction l as [|y l IH]; intros speed; simpl; [by rewrite andb_true_r|]. by rewrite IH, andb_assoc. Qed.
Lemma delivered_app l m b : delivered (l ++ [(m, b)]) = delivered l ++ (if b then [m] else []).
Proof. unfold delivered. rewrite List.filter_app, map_app. by destruct b. Qed.
Lemma sendable_app h3 l l' : sendable h3 (l ++ l') = sendable h3 l ++ sendable h3 l'.
Proof. apply List.filter_app. Qed.

(** *** The invariant *)
Definition wr_hand (w : wr_phase) : list wr_item := match w with WrWrite x => [x] | _ => [] end.
Definition rd_hand (r : rd_phase) : list message := match r with RdEcho m | RdDeliver m => [m] | _ => [] end.
Definition rd_exiting (r : rd_phase) : bool :=
  match r with RdTop | RdReading | RdEcho _ | RdDeliver _ => false | _ => true end.
Definition draining (r : rd_phase) : bool := match r with RdDrainReceive | RdDrainControl | RdDone => true | _ => false end.
(** The exit of a reader of a web socket. *)
Definition h1_only (r : rd_phase) : bool := match r with RdCloseControl | RdDrainReceive | RdDrainControl => true | _ => false end.
Definition kept {A} (w : wr_phase) (lost hand : list A) : Prop :=
  match w with WrDone => length lost ≤ 1 | _ => lost = hand end.
Record wr_inv (h3 : bool) (c : conn) (t : conn_trace) : Prop := {
  wi_data : ∃ lost, sendable h3 (ct_sent t) = data_written (ct_written t) ++ lost ++ sendable h3 (cn_send c) ∧
    kept (cn_writer c) lost (data_written (wr_hand (cn_writer c)));
  wi_control : ∃ lost, sublist (control_written (ct_written t) ++ lost ++ cn_control c) (ct_echoed t) ∧
    kept (cn_writer c) lost (control_written (wr_hand (cn_writer c))) ∧
    (draining (cn_reader c) = false → ct_echoed t = control_written (ct_written t) ++ lost ++ cn_control c);
  wi_quiet : quiet false (ct_written t ++ wr_hand (cn_writer c)) = true;
  wi_speed : match cn_writer c with
             | WrDone => True
             | w => cn_writer_speed c = foldl speed_after false (ct_written t ++ wr_hand w)
             end
}.
Record rd_inv (h3 : bool) (c : conn) (t : conn_trace) : Prop := {
  ri_done : cn_self_done c = true → cn_handle_done c = true;
  ri_speed : cn_reader_speed c = reads_speed h3 false (ct_read t);
  ri_echo : ∃ lost, for_echo (uses h3 false (ct_read t)) = ct_echoed t ++ lost ∧
    match cn_reader c with
    | RdTop => lost = [] ∨ cn_handle_done c = true ∧ length lost ≤ 1
    | RdEcho m => lost = [m]
    | RdReading | RdDeliver _ => lost = []
    | _ => length lost ≤ 1
    end;
  ri_client : ∃ lost, for_client (uses h3 false (ct_read t)) = map fst (ct_delivered t) ++ lost ∧
    match cn_reader c with
    | RdDeliver m => lost = [m]
    | RdTop | RdReading | RdEcho _ => lost = []
    | _ => length lost ≤ 1
    end;
  ri_taken : sublist (ct_taken t ++ cn_receive c) (delivered (ct_delivered t)) ∧
    (draining (cn_reader c) = false ∨ h3 = true → delivered (ct_delivered t) = ct_taken t ++ cn_receive c);
  ri_end : h3 = false → (cn_reader c = RdDrainControl ∨ cn_reader c = RdDone → cn_receive c = []) ∧
    (cn_reader c = RdDone → cn_control c = []);
  ri_h3 : h3 = true → ct_echoed t = [] ∧ h1_only (cn_reader c) = false
}.
Definition conserved (c : conn) (t : conn_trace) : Prop :=
  ct_sent t ++ ct_read t ≡ₚ ct_pool t ++ ct_taken t ++ cn_send c ++ cn_receive c ++ cn_control c ++
    flat_map wr_message (wr_hand (cn_writer c)) ++ rd_hand (cn_reader c).
Record bounded (settings : PlatformTransportSettings) (c : conn) : Prop := {
  bd_send : length (cn_send c) ≤ TransportBufferSize settings;
  bd_receive : length (cn_receive c) ≤ TransportBufferSize settings;
  bd_control : length (cn_control c) ≤ TransportBufferSize settings
}.
Record conn_inv (settings : PlatformTransportSettings) (h3 : bool) (s : conn_state) : Prop := {
  ci_writer : wr_inv h3 s.1 s.2;
  ci_reader : rd_inv h3 s.1 s.2;
  ci_pool : conserved s.1 s.2;
  ci_bounded : bounded settings s.1
}.
Lemma rd_inv_writer h3 c t c' t' :
  rd_inv h3 c t → cn_self_done c' = cn_self_done c → (cn_handle_done c = true → cn_handle_done c' = true) →
  cn_reader_speed c' = cn_reader_speed c → cn_reader c' = cn_reader c → cn_receive c' = cn_receive c →
  (cn_control c = [] → cn_control c' = []) → ct_read t' = ct_read t → ct_echoed t' = ct_echoed t →
  ct_delivered t' = ct_delivered t → ct_taken t' = ct_taken t → rd_inv h3 c' t'.
Proof.
  intros [H1 H2 H3 H4 H5 H6 H7] E1 E2 E3 E4 E5 E6 T1 T2 T3 T4.
  split; rewrite ?E1, ?E3, ?E4, ?E5, ?T1, ?T2, ?T3, ?T4; try done; [naive_solver| |naive_solver].
  destruct H3 as (lost & ? & ?). exists lost. split; [done|]. destruct (cn_reader c); naive_solver.
Qed.
Lemma wr_inv_reader h3 c t c' t' :
  wr_inv h3 c t → cn_send c' = cn_send c → cn_writer c' = cn_writer c → cn_writer_speed c' = cn_writer_speed c →
  (draining (cn_reader c') = false → draining (cn_reader c) = false) → cn_control c' = cn_control c →
  ct_sent t' = ct_sent t → ct_written t' = ct_written t → ct_echoed t' = ct_echoed t → wr_inv h3 c' t'.
Proof.
  intros [H1 H2 H3 H4] E1 E2 E3 E4 E5 T1 T2 T3. split; rewrite ?E1, ?E2, ?E3, ?E5, ?T1, ?T2, ?T3; try done.
  destruct H2 as (lost & ? & ? & ?). exists lost. naive_solver.
Qed.

(** *** The writer keeps it *)
Lemma kept_top {A} w (lost : list A) : w = WrTop → kept w lost [] → lost = [].
Proof. by intros ->. Qed.
Lemma writer_take_inv h3 c t x c' t' :
  wr_inv h3 c t → cn_writer c = WrTop → cn_writer c' = WrWrite x →
  item_ok (cn_writer_speed c) x = true → cn_writer_speed c' = speed_after (cn_writer_speed c) x →
  sendable h3 (cn_send c) = data_written [x] ++ sendable h3 (cn_send c') →
  cn_control c = control_written [x] ++ cn_control c' →
  cn_reader c' = cn_reader c → t' = t → wr_inv h3 c' t'.
Proof.
  intros [H1 H2 H3 H4] Hw Hw' Hok Hs Hd Hc Hr ->. rewrite Hw in *. cbn [wr_hand kept] in *. rewrite app_nil_r in *.
  split; rewrite ?Hw', ?Hr; cbn [wr_hand kept].
  - destruct H1 as (lost & E & ->). exists (data_written [x]). split; [|done]. by rewrite E, Hd.
  - destruct H2 as (lost & E & -> & Eq). exists (control_written [x]). cbn in E, Eq. rewrite Hc in E, Eq. split_and!; try done.
  - by rewrite quiet_app, H3, <-H4, Hok.
  - by rewrite foldl_app, <-H4, Hs.
Qed.
Lemma writer_done_inv h3 c t c' t' ok x :
  wr_inv h3 c t → cn_writer c = WrWrite x → cn_writer c' = (if (ok : bool) then WrTop else WrDone) →
  cn_writer_speed c' = cn_writer_speed c → cn_send c' = cn_send c → cn_control c' = cn_control c → cn_reader c' = cn_reader c →
  ct_sent t' = ct_sent t → ct_echoed t' = ct_echoed t →
  ct_written t' = ct_written t ++ (if ok then [x] else []) → wr_inv h3 c' t'.
Proof.
  intros [H1 H2 H3 H4] Hw Hw' Hs E1 E2 E3 T1 T2 T3. rewrite Hw in *. cbn [wr_hand kept] in *.
  split; rewrite ?E1, ?E2, ?E3, ?T1, ?T2, ?T3, ?Hw'.
  - destruct H1 as (lost & E & ->). destruct ok; cbn [kept wr_hand].
    + exists []. split; [|done]. rewrite E. unfold data_written. by rewrite omap_app, <-app_assoc.
    + exists (data_written [x]). rewrite app_nil_r. split; [done|]. destruct x; simpl; lia.
  - destruct H2 as (lost & E & -> & Eq). destruct ok; cbn [kept wr_hand].
    + exists []. unfold control_written in *. rewrite omap_app, <-app_assoc. done.
    + exists (control_written [x]). rewrite app_nil_r. split_and!; [done| |done]. destruct x; simpl; lia.
  - destruct ok; cbn [wr_hand]; rewrite ?app_nil_r; [done|]. rewrite quiet_app in H3. by apply andb_true_iff in H3 as [? _].
  - destruct ok; [|done]. cbn [wr_hand]. rewrite app_nil_r. by rewrite Hs.
Qed.
Ltac perm := repeat (cbn [flat_map wr_message wr_hand rd_hand app]); solve_Permutation.
Lemma writer_step_inv settings h3 l s s' :
  conn_inv settings h3 s → writer_step h3 l s = Some s' → conn_inv settings h3 s'.
Proof.
  destruct s as [c t]. intros [Hwi Hri Hp Hb] E. cbn [fst snd] in *. unfold writer_step in E. unfold conserved in Hp.
  destruct l; try done; destruct (cn_writer c) as [|x|] eqn:Hw; try done.
  - destruct (cn_writer_speed c) eqn:Hs; [done|]. destruct (cn_send c) as [|m send] eqn:Hsd; [done|].
    assert (length send ≤ TransportBufferSize settings) as Hlen by (destruct Hb as [Hb _ _]; rewrite Hsd in Hb; simpl in Hb; lia).
    destruct (negb h3 && (length m <=? 16)) eqn:Hm; injection E as <-; split; cbn [fst snd].
    + destruct Hwi as [H1 H2 H3 H4]. split; [|exact H2|exact H3|exact H4]. simpl.
      destruct H1 as (lost & E & K). exists lost. split; [|done]. rewrite E, Hsd. unfold sendable. simpl.
      assert (h3 || negb (length m <=? 16) = false) as -> by (destruct h3, (length m <=? 16); done). done.
    + by eapply rd_inv_writer.
    + unfold conserved. simpl. rewrite Hp, ?Hw. perm.
    + destruct Hb. by split.
    + eapply writer_take_inv; try done; [by rewrite Hs|]. simpl. rewrite Hsd. unfold sendable. simpl.
      assert (h3 || negb (length m <=? 16) = true) as -> by (destruct h3, (length m <=? 16); done). done.
    + by eapply rd_inv_writer.
    + unfold conserved. simpl. rewrite Hp, ?Hw. perm.
    + destruct Hb. by split.
  - destruct h3; [done|]. destruct (cn_control c) as [|m control] eqn:Hc; [done|].
    assert (length control ≤ TransportBufferSize settings) as Hlen by (destruct Hb as [_ _ Hb]; rewrite Hc in Hb; simpl in Hb; lia).
    injection E as <-. split; cbn [fst snd].
    + eapply writer_take_inv; try done.
    + eapply rd_inv_writer; try done. simpl. congruence.
    + unfold conserved. simpl. rewrite Hp, ?Hw. perm.
    + destruct Hb. by split.
  - injection E as <-. split; cbn [fst snd].
    + by eapply writer_take_inv.
    + by eapply rd_inv_writer.
    + unfold conserved. simpl. rewrite Hp, ?Hw. perm.
    + destruct Hb. by split.
  - destruct ok; injection E as <-; split; cbn [fst snd].
    + by eapply (writer_done_inv h3 c t _ _ true x).
    + by eapply rd_inv_writer.
    + unfold conserved. simpl. rewrite Hp, ?Hw. perm.
    + destruct Hb. by split.
    + eapply (writer_done_inv h3 c t _ _ false x); try done. simpl. by rewrite app_nil_r.
    + by eapply rd_inv_writer.
    + unfold conserved. simpl. rewrite Hp, ?Hw. perm.
    + destruct Hb. by split.
  - destruct (_ || _); [|done]. injection E as <-. split; cbn [fst snd].
    + destruct Hwi as [H1 H2 H3 H4]. rewrite Hw in *. split; simpl; try done.
      * destruct H1 as (lost & E & K). exists lost. split; [done|]. simpl in K. subst. simpl. lia.
      * destruct H2 as (lost & E & K & Q). exists lost. split_and!; try done. simpl in K. subst. simpl. lia.
    + by eapply rd_inv_writer.
    + unfold conserved. simpl. rewrite Hp, ?Hw. perm.
    + destruct Hb. by split.
Qed.

(** *** The reader keeps it *)
Definition use_phase (u : read_use) (m : message) : rd_phase :=
  match u with UseNothing => RdTop | UseEcho => RdEcho m | UseClient => RdDeliver m end.
Definition use_return (u : read_use) (m : message) : list message := match u with UseNothing => [m] | _ => [] end.
Lemma reader_message_use h3 m c t :
  let u := use_of h3 (cn_reader_speed c) m in
  reader_message h3 m (c, t) =
  (cn_set_reader (use_phase u.1 m) u.2 (if h3 then cn_reads c else u64 (cn_reads c + 1)) c,
   ct_return (use_return u.1 m) (ct_set_read (ct_read t ++ [m]) t)).
Proof.
  unfold reader_message, use_of, ct_return, ct_set_read, cn_at. destruct c as [? ? ? ? ? ? ? ? ? ? sp ? ? ?], t. simpl.
  destruct h3; [by destruct (length m =? 0); simpl; rewrite ?app_nil_r|].
  destruct (length m <=? 16); [|by destruct sp; simpl; rewrite ?app_nil_r].
  destruct (is_control TransportControlSpeedStart m); [by simpl; rewrite app_nil_r|].
  destruct (is_control TransportControlSpeedStop m); [by simpl; rewrite app_nil_r|].
  by destruct (length m =? 16); simpl; rewrite ?app_nil_r.
Qed.
Lemma for_echo_app l u : for_echo (l ++ [u]) = for_echo l ++ (match u.1 with UseEcho => [u.2] | _ => [] end).
Proof. unfold for_echo. rewrite omap_app. simpl. by destruct u.1. Qed.
Lemma for_client_app l u : for_client (l ++ [u]) = for_client l ++ (match u.1 with UseClient => [u.2] | _ => [] end).
Proof. unfold for_client. rewrite omap_app. simpl. by destruct u.1. Qed.
Lemma use_h3 speed m : (use_of true speed m).1 ≠ UseEcho.
Proof. unfold use_of. by destruct (length m =? 0). Qed.

Lemma reader_message_inv h3 m c t :
  rd_inv h3 c t → cn_reader c = RdReading →
  let s := reader_message h3 m (c, t) in rd_inv h3 s.1 s.2.
Proof.
  intros [H1 H2 H3 H4 H5 H6 H7] Hr. rewrite reader_message_use. cbv zeta. cbn [fst snd]. rewrite Hr in *.
  destruct H3 as (lost & E & ->), H4 as (lost' & E' & ->). rewrite app_nil_r in E, E'.
  set (u := use_of h3 (cn_reader_speed c) m).
  assert (h3 = true → u.1 ≠ UseEcho) as Hu by (unfold u; intros ->; apply use_h3).
  split; simpl; try done.
  - by rewrite reads_speed_app, <-H2.
  - rewrite read_uses_app, for_echo_app, E, <-H2. fold u. simpl. exists (match u.1 with UseEcho => [m] | _ => [] end).
    split; [done|]. destruct u as [[] ?]; simpl; auto.
  - rewrite read_uses_app, for_client_app, E', <-H2. fold u. simpl. exists (match u.1 with UseClient => [m] | _ => [] end).
    split; [done|]. by destruct u as [[] ?].
  - split; [apply H5|]. intros _. apply H5. by left.
  - intros ->. split; [by intros [E1|E1]; destruct u as [[] ?]|by intros E1; destruct u as [[] ?]].
  - intros ->. split; [by apply H7|]. by destruct u as [[] ?].
Qed.
Lemma uses_h3_echo l speed : for_echo (uses true speed l) = [].
Proof.
  revert speed. induction l as [|m l IH]; intros speed; [done|]. cbn [uses]. unfold for_echo. cbn [omap list_omap fst snd].
  fold (for_echo (uses true (use_of true speed m).2 l)). rewrite IH. by unfold use_of; destruct (length m =? 0).
Qed.
(** A change of the place of the reader alone. *)
Lemma reader_at_inv h3 c t c' t' :
  rd_inv h3 c t → cn_self_done c' = cn_self_done c → (cn_handle_done c = true → cn_handle_done c' = true) →
  cn_reader_speed c' = cn_reader_speed c → cn_receive c' = cn_receive c →
  ct_read t' = ct_read t → ct_echoed t' = ct_echoed t → ct_delivered t' = ct_delivered t → ct_taken t' = ct_taken t →
  (cn_reader c = RdTop ∧ (cn_handle_done c = true → cn_reader c' = RdCancel) ∧ (cn_handle_done c = false → cn_reader c' = RdReading)
   ∨ rd_exiting (cn_reader c') = true ∧ (draining (cn_reader c) = true → draining (cn_reader c') = true)) →
  (h3 = false → (cn_reader c' = RdDrainControl ∨ cn_reader c' = RdDone → cn_receive c' = []) ∧ (cn_reader c' = RdDone → cn_control c' = [])) →
  (h3 = true → h1_only (cn_reader c') = false) →
  rd_inv h3 c' t'.
Proof.
  intros [H1 H2 H3 H4 H5 H6 H7] E1 E2 E3 E4 T1 T2 T3 T4 Hr He Hh.
  split; rewrite ?E1, ?E3, ?E4, ?T1, ?T2, ?T3, ?T4; try done.
  - naive_solver.
  - destruct H3 as (lost & E & K). exists lost. split; [done|]. destruct Hr as [(Hr & Hd & Hn)|[Hr _]].
    + rewrite Hr in K. destruct (cn_handle_done c); [rewrite Hd by done|rewrite Hn by done]; destruct K as [->|[? ?]]; simpl; try done; lia.
    + assert (length lost ≤ 1) as Hl by (destruct (cn_reader c); subst; simpl in *; try done; try lia; destruct K as [->|[]]; simpl; lia).
      by destruct (cn_reader c').
  - destruct H4 as (lost & E & K). exists lost. split; [done|]. destruct Hr as [(Hr & Hd & Hn)|[Hr _]].
    + rewrite Hr in K. destruct (cn_handle_done c); [rewrite Hd by done|rewrite Hn by done]; subst; simpl; try done; lia.
    + assert (length lost ≤ 1) as Hl by (destruct (cn_reader c); subst; simpl in *; try done; lia).
      by destruct (cn_reader c').
  - split; [apply H5|]. intros Hd. apply H5. destruct Hd as [Hd|]; [left|by right].
    destruct Hr as [(Hr & _)|[_ Hr]]; [by rewrite Hr|]. destruct (draining (cn_reader c)); [|done]. by rewrite Hr in Hd.
  - by rewrite <-E4.
  - intros Hh3. split; [by apply H7|]. by apply Hh.
Qed.
Lemma h1_only_h3 h3 c t : rd_inv h3 c t → h1_only (cn_reader c) = true → h3 = false.
Proof. intros [_ _ _ _ _ _ H7] H. destruct h3; [|done]. destruct (H7 eq_refl). congruence. Qed.
Lemma reader_step_inv settings h3 l s s' :
  conn_inv settings h3 s → reader_step settings h3 l s = Some s' → conn_inv settings h3 s'.
Proof.
  destruct s as [c t]. intros [Hwi Hri Hp Hb] E. cbn [fst snd] in *. unfold reader_step in E. unfold conserved in Hp.
  destruct l; try done; destruct (cn_reader c) as [| |m'|m'| | | | | |] eqn:Hr; try done.
  - injection E as <-. split; cbn [fst snd].
    + eapply wr_inv_reader; try done; by rewrite Hr.
    + eapply reader_at_inv; try done; simpl.
      * left. rewrite Hr. by destruct (cn_handle_done c).
      * intros _. by destruct (cn_handle_done c); split; [intros []| |intros []|].
      * intros _. by destruct (cn_handle_done c).
    + unfold conserved. simpl. rewrite Hp. destruct (cn_handle_done c); perm.
    + destruct Hb. by split.
  - assert (s' = reader_message h3 m (c, t)) as -> by congruence. clear E. pose proof (reader_message_inv h3 m c t Hri Hr) as Hri'. rewrite reader_message_use in Hri'. cbv zeta in *. cbn [fst snd] in *.
    rewrite reader_message_use. cbv zeta. split; cbn [fst snd].
    + eapply wr_inv_reader; try done; by rewrite Hr.
    + done.
    + unfold conserved. simpl. rewrite (Permutation_app_comm (ct_read t)), (assoc_L (++)), (Permutation_app_comm (ct_sent t)), <-(assoc_L (++)), Hp.
      destruct (use_of _ _ _) as [[] ?]; perm.
    + destruct Hb. by split.
  - destruct h3; [done|]. injection E as <-. split; cbn [fst snd].
    + eapply wr_inv_reader; try done; by rewrite Hr.
    + destruct Hri as [H1 H2 H3 H4 H5 H6 H7]. rewrite Hr in *. split; simpl; try done; [naive_solver|]. intros _. by split; [intros []|].
    + unfold conserved. simpl. rewrite Hp. perm.
    + destruct Hb. by split.
  - injection E as <-. split; cbn [fst snd].
    + eapply wr_inv_reader; try done; by rewrite Hr.
    + eapply reader_at_inv; try done; simpl; [by right; rewrite Hr|]. by split; [intros []|].
    + unfold conserved. simpl. rewrite Hp. perm.
    + destruct Hb. by split.
  - destruct (Nat.ltb_spec (length (cn_control c)) (TransportBufferSize settings)); [|done]. injection E as <-. split; cbn [fst snd].
    + destruct Hwi as [H1 H2 H3 H4]. split; simpl; [exact H1| |exact H3|exact H4]. destruct H2 as (lost & E & K & Q). exists lost.
      rewrite Hr in Q. rewrite Q by done. rewrite <-!app_assoc. split_and!; done.
    + destruct Hri as [H1 H2 H3 H4 H5 H6 H7]. rewrite Hr in *. destruct h3.
      { destruct H3 as (lost & E & ->). rewrite uses_h3_echo in E. symmetry in E. by apply app_eq_nil in E as [_ E]. }
      split; simpl; try done; [| by intros _; split; [intros []|]]. destruct H3 as (lost & E & ->). exists []. rewrite app_nil_r. split; [done|by left].
    + unfold conserved. simpl. rewrite Hp. perm.
    + destruct Hb. split; try done. simpl. rewrite length_app. simpl. lia.
  - destruct (Nat.ltb_spec (length (cn_receive c)) (TransportBufferSize settings)); [|done]. injection E as <-. split; cbn [fst snd].
    + eapply wr_inv_reader; try done; by rewrite Hr.
    + destruct Hri as [H1 H2 H3 H4 H5 H6 H7]. rewrite Hr in *. split; simpl; try done.
      * destruct H3 as (lost & E & ->). exists []. split; [done|by left].
      * destruct H4 as (lost & E & ->). exists []. rewrite map_app, app_nil_r. done.
      * rewrite delivered_app. destruct H5 as [_ H5]. rewrite H5 by (by left). by rewrite <-app_assoc.
      * intros _. by split; [intros []|].
    + unfold conserved. simpl. rewrite Hp. perm.
    + destruct Hb. split; try done. simpl. rewrite length_app. simpl. lia.
  - destruct (cn_self_done c) eqn:Hs; [|done]. injection E as <-. split; cbn [fst snd].
    + eapply wr_inv_reader; try done; by rewrite Hr.
    + destruct Hri as [H1 H2 H3 H4 H5 H6 H7]. rewrite Hr in *. split; simpl; try done.
      * destruct H3 as (lost & E & ->). exists [m']. split; [done|right]. rewrite H1 by done. by split; [|simpl; lia].
      * intros _. by split; [intros []|].
    + unfold conserved. simpl. rewrite Hp. perm.
    + destruct Hb. by split.
  - destruct (cn_handle_done c) eqn:Hs; [|done]. injection E as <-. split; cbn [fst snd].
    + eapply wr_inv_reader; try done; by rewrite Hr.
    + eapply reader_at_inv; try done; simpl; [by right; rewrite Hr|]. by split; [intros []|].
    + unfold conserved. simpl. rewrite Hp. perm.
    + destruct Hb. by split.
  - injection E as <-. split; cbn [fst snd].
    + eapply wr_inv_reader; try done; by rewrite Hr.
    + destruct Hri as [H1 H2 H3 H4 H5 H6 H7]. rewrite Hr in *. split; simpl; try done.
      * destruct H3 as (lost & E & ->). exists []. split; [done|by left].
      * destruct H4 as (lost & E & ->). exists []. rewrite map_app, app_nil_r. done.
      * rewrite delivered_app, app_nil_r. done.
      * intros _. by split; [intros []|].
    + unfold conserved. simpl. rewrite Hp. perm.
    + destruct Hb. by split.
  - injection E as <-. split; cbn [fst snd].
    + eapply wr_inv_reader; try done; by rewrite Hr.
    + eapply reader_at_inv; try done; simpl; [by right; rewrite Hr|]. by split; [intros []|].
    + unfold conserved. simpl. rewrite Hp. perm.
    + destruct Hb. by split.
  - injection E as <-. split; cbn [fst snd].
    + eapply wr_inv_reader; try done; by rewrite Hr.
    + eapply reader_at_inv; try done; simpl; [by right; rewrite Hr; destruct h3| |by destruct h3].
      intros ->. by split; [intros []|].
    + unfold conserved. simpl. rewrite Hp. destruct h3; perm.
    + destruct Hb. by split.
  - injection E as <-. split; cbn [fst snd].
    + eapply wr_inv_reader; try done; by rewrite Hr.
    + assert (h3 = false) as -> by (by eapply h1_only_h3; rewrite ?Hr). eapply reader_at_inv; try done; simpl; [by right; rewrite Hr|].
      by split; [intros []|].
    + unfold conserved. simpl. rewrite Hp. perm.
    + destruct Hb. by split.
  - assert (h3 = false) as -> by (by eapply h1_only_h3; rewrite ?Hr).
    destruct (cn_receive c) as [|m l] eqn:Hc; injection E as <-; split; cbn [fst snd].
    + eapply wr_inv_reader; try done; by rewrite Hr.
    + eapply reader_at_inv; try done; simpl; [by right; rewrite Hr|..]; done.
    + unfold conserved. simpl. rewrite Hp, Hc. perm.
    + destruct Hb. by split.
    + eapply wr_inv_reader; try done; by rewrite Hr.
    + destruct Hri as [H1 H2 H3 H4 H5 H6 H7]. rewrite Hr in *. split; simpl; rewrite ?Hr; try done.
      * split; [|by intros [|]]. destruct H5 as [H5 _]. etrans; [|exact H5]. rewrite Hc.
        apply sublist_app; [done|]. by constructor.
      * intros _. by split; [intros []|].
    + unfold conserved. simpl. rewrite Hp, Hr. perm.
    + destruct Hb as [? Hb ?]. rewrite Hc in Hb. simpl in Hb. split; simpl; try done. lia.
  - assert (h3 = false) as -> by (by eapply h1_only_h3; rewrite ?Hr).
    assert (cn_receive c = []) as Hrc by (destruct Hri as [_ _ _ _ _ H6 _]; apply H6; auto).
    destruct (cn_control c) as [|m l] eqn:Hc; injection E as <-; split; cbn [fst snd].
    + eapply wr_inv_reader; try done; by rewrite Hr.
    + eapply reader_at_inv; try done; simpl; [by right; rewrite Hr|..]; done.
    + unfold conserved. simpl. rewrite Hp, Hc. perm.
    + destruct Hb. by split.
    + destruct Hwi as [H1 H2 H3 H4]. split; simpl; [exact H1| |exact H3|exact H4]. destruct H2 as (lost & E & K & Q). exists lost.
      split_and!; [|done|by rewrite Hr]. etrans; [|exact E]. rewrite Hc. apply sublist_app; [done|]. apply sublist_app; [done|]. by constructor.
    + destruct Hri as [H1 H2 H3 H4 H5 H6 H7]. rewrite Hr in *. split; simpl; rewrite ?Hr; done.
    + unfold conserved. simpl. rewrite Hp, Hr. perm.
    + destruct Hb as [? ? Hb]. rewrite Hc in Hb. simpl in Hb. split; simpl; try done. lia.
Qed.

(** *** A connection keeps it *)
Lemma other_step_inv settings h3 c t c' t' :
  conn_inv settings h3 (c, t) → cn_send c' = cn_send c → cn_receive c' = cn_receive c → cn_control c' = cn_control c →
  cn_writer c' = cn_writer c → cn_writer_speed c' = cn_writer_speed c → cn_reader c' = cn_reader c →
  cn_reader_speed c' = cn_reader_speed c → (cn_handle_done c = true → cn_handle_done c' = true) →
  (cn_self_done c' = true → cn_handle_done c' = true) → t' = t → conn_inv settings h3 (c', t').
Proof.
  intros [Hwi Hri Hp [Hb1 Hb2 Hb3]] E1 E2 E3 E4 E5 E6 E7 E8 E9 ->. cbn [fst snd] in *. split; cbn [fst snd].
  - eapply wr_inv_reader; try done; by rewrite E6.
  - destruct Hri as [H1 H2 H3 H4 H5 H6 H7]. split; rewrite ?E2, ?E3, ?E6, ?E7; try done.
    destruct H3 as (lost & ? & ?). exists lost. split; [done|]. destruct (cn_reader c); naive_solver.
  - unfold conserved. by rewrite E1, E2, E3, E4, E6.
  - split; by rewrite ?E1, ?E2, ?E3.
Qed.
Lemma watch_step_inv settings h3 ptMode l s s' :
  conn_inv settings h3 s → watch_step ptMode l s = Some s' → conn_inv settings h3 s'.
Proof.
  destruct s as [c t]. intros Hi E. pose proof (ri_done h3 c t (ci_reader _ _ _ Hi)) as Hd. unfold watch_step in E.
  destruct l; try done; destruct (cn_watch c) as [|[[r w]|] ch|]; try done.
  - injection E as <-. by eapply other_step_inv.
  - injection E as <-. destruct (_ && _); by eapply other_step_inv.
  - destruct (notified _ _); [|done]. injection E as <-. by eapply other_step_inv.
  - destruct (notified _ _); [|done]. injection E as <-. by eapply other_step_inv.
  - destruct (cn_handle_done c); [|done]. injection E as <-. by eapply other_step_inv.
  - destruct (cn_handle_done c); [|done]. injection E as <-. by eapply other_step_inv.
Qed.
Definition is_h3 (ptMode : TransportMode) : bool := bool_decide (ptMode ≠ TransportModeH1).
Lemma conn_step_inv settings ptMode l s s' :
  conn_inv settings (is_h3 ptMode) s → conn_step settings ptMode l s = Some s' → conn_inv settings (is_h3 ptMode) s'.
Proof.
  destruct s as [c t]. intros Hi E. destruct l; cbn [conn_step] in E; try (by eapply writer_step_inv);
    try (by eapply reader_step_inv); try (by eapply watch_step_inv).
  - injection E as <-. by eapply other_step_inv.
  - destruct (Nat.ltb_spec (length (cn_send c)) (TransportBufferSize settings)); [|done]. injection E as <-.
    destruct Hi as [Hwi Hri Hp [Hb1 Hb2 Hb3]]. cbn [fst snd] in *. split; cbn [fst snd].
    + destruct Hwi as [H1 H2 H3 H4]. split; [|exact H2|exact H3|exact H4]. destruct H1 as (lost & E & K). exists lost. simpl.
      by rewrite !sendable_app, E, <-!(assoc_L (++)).
    + by eapply rd_inv_writer.
    + unfold conserved in *. simpl. rewrite <-(assoc_L (++)), (Permutation_app_comm [m]), (assoc_L (++)), Hp. perm.
    + split; simpl; rewrite ?length_app; simpl; lia.
  - destruct (cn_receive c) as [|m l] eqn:Hc; [done|]. injection E as <-.
    destruct Hi as [Hwi Hri Hp [Hb1 Hb2 Hb3]]. cbn [fst snd] in *. split; cbn [fst snd].
    + by eapply wr_inv_reader.
    + destruct Hri as [H1 H2 H3 H4 H5 H6 H7]. rewrite Hc in *. split; simpl; try done; [by rewrite <-(assoc_L (++))|].
      intros Hh. destruct (H6 Hh) as [H8 H9]. split; [|done]. intros Hd. by specialize (H8 Hd).
    + unfold conserved in *. simpl. rewrite Hp, Hc. perm.
    + rewrite Hc in Hb2. simpl in Hb2. split; simpl; lia.
Qed.
Lemma new_conn_inv settings h3 d : conn_inv settings h3 (new_conn d, new_trace).
Proof.
  split; simpl.
  - split; simpl; [by exists []|by exists []|done|done].
  - split; simpl; [done|done|exists []; split; [done|by left]|by exists []|done| |done]. intros _. by split; [intros []|].
  - apply Permutation_refl.
  - split; simpl; lia.
Qed.
Lemma conn_steps_inv settings ptMode ls s s' :
  conn_inv settings (is_h3 ptMode) s → conn_steps settings ptMode ls s = Some s' → conn_inv settings (is_h3 ptMode) s'.
Proof.
  revert s. induction ls as [|l ls IH]; intros s Hi E; simpl in E; [by injection E as <-|].
  destruct (conn_step settings ptMode l s) eqn:E1; [|done]. eapply IH; [|done]. by eapply conn_step_inv.
Qed.

(** C19. What a connection does with messages, in every interleaving of its
    goroutines, the route, the client and the network, and however it ends. What
    is written of the route is what was put into it, in order, without the
    messages that are too short for a web socket: only the last one may be lost,
    when its write fails, and what the connection leaves in the route; and it is
    never written during a speed test. The client gets what was read for it in
    order, without what was dropped at a timeout and, when the reader ends,
    drained. The echoes that are written are those of the messages read for it,
    in order. The routes never hold more than their size. No message is lost
    from the pool or returned twice: what was put in or read is returned, taken
    by the client, still in a route, or in the hands of a goroutine. *)
Theorem transport_connection (settings : PlatformTransportSettings) (ptMode : TransportMode) (self_done : bool)
    (ls : list conn_label) (c : conn) (t : conn_trace) :
  conn_steps settings ptMode ls (new_conn self_done, new_trace) = Some (c, t) →
  let h3 := is_h3 ptMode in
  let read := uses h3 false (ct_read t) in
  (∃ lost, sendable h3 (ct_sent t) = data_written (ct_written t) ++ lost ++ sendable h3 (cn_send c) ∧
     length lost ≤ 1 ∧ (cn_writer c = WrTop → lost = [])) ∧
  quiet false (ct_written t) = true ∧
  (∃ lost, for_client read = map fst (ct_delivered t) ++ lost ∧ length lost ≤ 1 ∧ (cn_reader c = RdTop → lost = [])) ∧
  sublist (ct_taken t ++ cn_receive c) (delivered (ct_delivered t)) ∧
  (draining (cn_reader c) = false → delivered (ct_delivered t) = ct_taken t ++ cn_receive c) ∧
  ct_echoed t `prefix_of` for_echo read ∧
  sublist (control_written (ct_written t)) (ct_echoed t) ∧
  (draining (cn_reader c) = false → control_written (ct_written t) `prefix_of` ct_echoed t) ∧
  (length (cn_send c) ≤ TransportBufferSize settings ∧ length (cn_receive c) ≤ TransportBufferSize settings ∧
   length (cn_control c) ≤ TransportBufferSize settings) ∧
  conserved c t ∧
  (h3 = false → cn_writer c = WrDone → cn_reader c = RdDone →
   ct_sent t ++ ct_read t ≡ₚ ct_pool t ++ ct_taken t ++ cn_send c).
Proof.
  intros E h3 read. destruct (conn_steps_inv _ _ _ _ _ (new_conn_inv settings h3 self_done) E) as [[W1 W2 W3 W4] [R1 R2 R3 R4 R5 R6 R7] Hp [B1 B2 B3]].
  cbn [fst snd] in *. destruct W1 as (lost1 & E1 & K1), W2 as (lost2 & E2 & K2 & Q2), R3 as (lost3 & E3 & K3), R4 as (lost4 & E4 & K4).
  assert (∀ l w, kept w l (data_written (wr_hand w)) → length l ≤ 1 ∧ (w = WrTop → l = [])) as Hk.
  { intros l [|x|] Hl; simpl in Hl; [by subst; split; [simpl; lia|]| |by split]. subst. split; [|done]. destruct x; simpl; lia. }
  split_and!; try done.
  - exists lost1. split; [done|by eapply Hk].
  - destruct (cn_writer c); cbn [wr_hand] in W3; rewrite ?app_nil_r in W3; try done. rewrite quiet_app in W3. by apply andb_true_iff in W3 as [? _].
  - exists lost4. split; [done|]. destruct (cn_reader c); subst; simpl; split; try done; lia.
  - apply R5.
  - intros Hd. apply R5. by left.
  - by exists lost3.
  - etrans; [|exact E2]. apply sublist_inserts_r. reflexivity.
  - intros Hd. rewrite Q2 by done. by apply prefix_app_r.
  - intros Hh Hw Hr. destruct (R6 Hh) as [H8 H9]. rewrite Hr in *. unfold conserved in Hp. rewrite Hw, Hr, H8, H9 in Hp by auto.
    rewrite Hp. perm.
Qed.

(** ** What the transport gives the route manager *)
Definition phase_conn (ph : run_phase) : option nat := match ph with PrUp n _ | PrDown n _ => Some n | _ => None end.
(** The goroutine of a connection still has to take down what is up. *)
Definition still_up (a : run_act) (ph : run_phase) : Prop := match ph with PrUp _ _ => True | PrDown _ acts => a ∈ acts | _ => False end.
Record platform_inv (settings : PlatformTransportSettings) (p : PlatformTransport) : Prop := {
  pi_routes : ∀ n b, (n, b) ∈ pf_routes p → ∃ m ph, pf_runs p !! m = Some ph ∧ phase_conn ph = Some n ∧ still_up (ActRemove b) ph;
  pi_available : ∀ m, availableModes p !! m = Some true → ∃ ph, pf_runs p !! m = Some ph ∧ still_up (ActAvailable false) ph;
  pi_next : ∀ m ph n, pf_runs p !! m = Some ph → phase_conn ph = Some n → n < pf_next p;
  pi_own : ∀ m m' ph ph' n, pf_runs p !! m = Some ph → pf_runs p !! m' = Some ph' →
    phase_conn ph = Some n → phase_conn ph' = Some n → m = m';
  pi_up : ∀ m n acts, pf_runs p !! m = Some (PrUp n acts) → acts `suffix_of` up_acts;
  pi_down : ∀ m n acts, pf_runs p !! m = Some (PrDown n acts) → acts `suffix_of` down_acts;
  pi_monitor : modeMonitor p = NewMonitor;
  pi_conns : ∀ n m s, pf_conns p !! n = Some (m, s) → conn_inv settings (is_h3 m) s ∧ (pf_done p = true → cn_self_done s.1 = true);
  pi_mode : match pf_main p with
            | MainWait channel => channel = 0
            | MainLook => pf_mode p = TransportModeNone
            | MainSet _ channel => channel = 0 ∧ pf_mode p = TransportModeNone
            | MainDone => True
            end;
  pi_waits : ∀ m channel, pf_runs p !! m = Some (PrWait channel) → channel = 0
}.
Lemma suffix_up n acts m a settings p :
  platform_inv settings p → pf_runs p !! m = Some (PrUp n (a :: acts)) → acts `suffix_of` up_acts ∧ (∀ b, a ≠ ActRemove b) ∧ a ≠ ActAvailable false ∧ a ≠ ActCancel.
Proof.
  intros Hi Hm. pose proof (pi_up _ _ Hi _ _ _ Hm) as Hs. split; [etrans; [|exact Hs]; by apply suffix_cons_r|].
  destruct Hs as [k Hk]. assert (a ∈ up_acts) as Hin by (rewrite Hk; set_solver). unfold up_acts in Hin. set_solver.
Qed.
Lemma suffix_down n acts m a settings p :
  platform_inv settings p → pf_runs p !! m = Some (PrDown n (a :: acts)) →
  acts `suffix_of` down_acts ∧ (∀ b, a ≠ ActUpdate b) ∧ a ≠ ActAvailable true ∧ a ≠ ActStart.
Proof.
  intros Hi Hm. pose proof (pi_down _ _ Hi _ _ _ Hm) as Hs. split; [etrans; [|exact Hs]; by apply suffix_cons_r|].
  destruct Hs as [k Hk]. assert (a ∈ down_acts) as Hin by (rewrite Hk; set_solver). unfold down_acts in Hin. set_solver.
Qed.
(** A goroutine that has no connection goes to a place where it has none, or has
    a new one. *)
Lemma run_move_inv settings m ph ph' p :
  platform_inv settings p → pf_runs p !! m = Some ph → (∀ a, ¬ still_up a ph) → phase_conn ph' = None →
  (∀ channel, ph' = PrWait channel → channel = 0) → platform_inv settings (pf_set_run m ph' p).
Proof.
  intros [H1 H2 H3 H4 H5 H6 H7 H8 H9 H10] Hm Hu Hc Hw. split; simpl; try done.
  - intros n b Hin. destruct (H1 n b Hin) as (m' & q & Hq & Hn & Hs). exists m', q. rewrite lookup_insert_ne; [done|].
    intros ->. rewrite Hm in Hq. injection Hq as <-. by eapply Hu.
  - intros m' Ha. destruct (H2 m' Ha) as (q & Hq & Hs). exists q. rewrite lookup_insert_ne; [done|].
    intros ->. rewrite Hm in Hq. injection Hq as <-. by eapply Hu.
  - intros m' q n. rewrite lookup_insert. case_decide; [intros [= <-]; by rewrite Hc|apply H3].
  - intros m1 m2 q1 q2 n. rewrite !lookup_insert. repeat case_decide; subst; try done; [intros [= <-] ? ?; congruence|intros ? [= <-] ? ?; congruence|apply H4].
  - intros m' n acts. rewrite lookup_insert. case_decide; [intros [= ->]; done|apply H5].
  - intros m' n acts. rewrite lookup_insert. case_decide; [intros [= ->]; done|apply H6].
  - intros m' ch. rewrite lookup_insert. case_decide; [intros [= ->]; by apply Hw|apply H10].
Qed.
Lemma run_connected_inv settings m ph p :
  platform_inv settings p → pf_runs p !! m = Some ph → (∀ a, ¬ still_up a ph) →
  platform_inv settings (pf_set_run m (PrUp (pf_next p) up_acts)
    (mkPlatform (pf_done p) (modeMonitor p) (availableModes p) (pf_mode p) (pf_main p) (pf_runs p) (pf_conns p) (S (pf_next p)) (pf_routes p))).
Proof.
  intros [H1 H2 H3 H4 H5 H6 H7 H8 H9 H10] Hm Hu. split; simpl; try done.
  - intros n b Hin. destruct (H1 n b Hin) as (m' & q & Hq & Hn & Hs). exists m', q. rewrite lookup_insert_ne; [done|].
    intros ->. rewrite Hm in Hq. injection Hq as <-. by eapply Hu.
  - intros m' Ha. destruct (H2 m' Ha) as (q & Hq & Hs). exists q. rewrite lookup_insert_ne; [done|].
    intros ->. rewrite Hm in Hq. injection Hq as <-. by eapply Hu.
  - intros m' q n. rewrite lookup_insert. case_decide; [intros [= <-] [= <-]; lia|]. intros Hq Hn. specialize (H3 m' q n Hq Hn). lia.
  - intros m1 m2 q1 q2 n. rewrite !lookup_insert. repeat case_decide; subst; try done.
    + intros [= <-] Hq [= <-] Hn. specialize (H3 _ _ _ Hq Hn). lia.
    + intros Hq [= <-] Hn [= <-]. specialize (H3 _ _ _ Hq Hn). lia.
    + apply H4.
  - intros m' n acts. rewrite lookup_insert. case_decide; [intros [= <- <-]; done|apply H5].
  - intros m' n acts. rewrite lookup_insert. case_decide; [done|apply H6].
  - intros m' ch. rewrite lookup_insert. case_decide; [done|apply H10].
Qed.
(** A goroutine with a connection goes on; [p'] is what it did. *)
Lemma run_phase_inv settings m n ph ph' p p' :
  platform_inv settings p → pf_runs p !! m = Some ph → phase_conn ph = Some n → phase_conn ph' = Some n →
  (∀ n' acts', ph' = PrUp n' acts' → acts' `suffix_of` up_acts) → (∀ n' acts', ph' = PrDown n' acts' → acts' `suffix_of` down_acts) →
  pf_runs p' = pf_runs p → pf_next p' = pf_next p → modeMonitor p' = modeMonitor p → pf_main p' = pf_main p → pf_mode p' = pf_mode p →
  (∀ k b, (k, b) ∈ pf_routes p' → ∃ m' q, <[m := ph']> (pf_runs p) !! m' = Some q ∧ phase_conn q = Some k ∧ still_up (ActRemove b) q) →
  (∀ m', availableModes p' !! m' = Some true → ∃ q, <[m := ph']> (pf_runs p) !! m' = Some q ∧ still_up (ActAvailable false) q) →
  (∀ k m' s, pf_conns p' !! k = Some (m', s) → conn_inv settings (is_h3 m') s ∧ (pf_done p' = true → cn_self_done s.1 = true)) →
  platform_inv settings (pf_set_run m ph' p').
Proof.
  intros [H1 H2 H3 H4 H5 H6 H7 H8 H9 H10] Hm Hc Hc' Hup Hdn E1 E2 E3 E4 E5 Hr Ha Hcn.
  split; simpl; rewrite ?E1, ?E2, ?E3, ?E4, ?E5; try done.
  - intros m' q k. rewrite lookup_insert. case_decide; [intros [= <-] E|apply H3]. rewrite Hc' in E. injection E as <-. by eapply H3.
  - intros m1 m2 q1 q2 k. rewrite !lookup_insert. repeat case_decide; subst; try done.
    + intros [= <-] Hq E E'. rewrite Hc' in E. injection E as <-. by eapply H4.
    + intros Hq [= <-] E E'. rewrite Hc' in E'. injection E' as <-. by eapply H4.
    + apply H4.
  - intros m' k acts'. rewrite lookup_insert. case_decide; [intros [= ->]; by eapply Hup|apply H5].
  - intros m' k acts'. rewrite lookup_insert. case_decide; [intros [= ->]; by eapply Hdn|apply H6].
  - intros m' ch. rewrite lookup_insert. case_decide; [intros [= ->]; done|apply H10].
Qed.
(** What is up stays up, for the goroutines that do not take it down. *)
Lemma up_stays settings m n ph ph' p k b :
  platform_inv settings p → pf_runs p !! m = Some ph → phase_conn ph = Some n → phase_conn ph' = Some n →
  (n = k → still_up (ActRemove b) ph → still_up (ActRemove b) ph') → (k, b) ∈ pf_routes p →
  ∃ m' q, <[m := ph']> (pf_runs p) !! m' = Some q ∧ phase_conn q = Some k ∧ still_up (ActRemove b) q.
Proof.
  intros Hi Hm Hc Hc' Hs Hk. destruct (pi_routes _ _ Hi _ _ Hk) as (m' & q & Hq & Hqk & Hst). destruct (decide (m' = m)) as [->|Hn].
  - rewrite Hm in Hq. injection Hq as <-. assert (n = k) as Ek by congruence. exists m, ph'. rewrite lookup_insert_eq.
    split_and!; [done|congruence|by apply Hs].
  - exists m', q. by rewrite lookup_insert_ne.
Qed.
Lemma available_stays settings m ph ph' p m' :
  platform_inv settings p → pf_runs p !! m = Some ph →
  (m = m' → still_up (ActAvailable false) ph → still_up (ActAvailable false) ph') → availableModes p !! m' = Some true →
  ∃ q, <[m := ph']> (pf_runs p) !! m' = Some q ∧ still_up (ActAvailable false) q.
Proof.
  intros Hi Hm Hs Ha. destruct (pi_available _ _ Hi _ Ha) as (q & Hq & Hst). destruct (decide (m' = m)) as [->|Hn].
  - rewrite Hm in Hq. injection Hq as <-. exists ph'. rewrite lookup_insert_eq. split; [done|by apply Hs].
  - exists q. by rewrite lookup_insert_ne.
Qed.
(** The end of a connection. *)
Lemma run_down_inv settings m n p :
  platform_inv settings p → pf_runs p !! m = Some (PrUp n []) → platform_inv settings (pf_set_run m (PrDown n down_acts) p).
Proof.
  intros Hi Hm. eapply run_phase_inv; try done.
  - by intros n' acts' [= <- <-].
  - intros k b. eapply up_stays; try done. intros _ _. unfold still_up, down_acts. destruct b; set_solver.
  - intros m'. eapply available_stays; try done. intros _ _. unfold still_up, down_acts. set_solver.
  - apply (pi_conns _ _ Hi).
Qed.
(** An action of the goroutine. *)
Lemma run_act_inv settings m n a ph ph' p :
  platform_inv settings p → pf_runs p !! m = Some ph → phase_conn ph = Some n → phase_conn ph' = Some n →
  (∀ n' acts', ph' = PrUp n' acts' → acts' `suffix_of` up_acts) → (∀ n' acts', ph' = PrDown n' acts' → acts' `suffix_of` down_acts) →
  (∀ a', still_up a' ph → a' ≠ a → still_up a' ph') →
  (∀ b, a = ActUpdate b → still_up (ActRemove b) ph') →
  (a = ActAvailable true → still_up (ActAvailable false) ph') →
  platform_inv settings (pf_set_run m ph' (run_do m n a p)).
Proof.
  intros Hi Hm Hc Hc' Hup Hdn Hs Hupd Hav.
  assert (∀ k b, (k, b) ∈ pf_routes p → a ≠ ActRemove b ∨ n ≠ k →
    ∃ m' q, <[m := ph']> (pf_runs p) !! m' = Some q ∧ phase_conn q = Some k ∧ still_up (ActRemove b) q) as Hkeep.
  { intros k b Hk Hne. eapply up_stays; try done. intros -> Hst. apply Hs; [done|]. destruct Hne; congruence. }
  assert (∀ m', availableModes p !! m' = Some true → a ≠ ActAvailable false ∨ m' ≠ m →
    ∃ q, <[m := ph']> (pf_runs p) !! m' = Some q ∧ still_up (ActAvailable false) q) as Hkeepa.
  { intros m' Ha Hne. eapply available_stays; try done. intros -> Hst. apply Hs; [done|]. destruct Hne; congruence. }
  pose proof (pi_conns _ _ Hi) as H8.
  eapply run_phase_inv; try done; destruct a; simpl; try done; try (intros k b Hk; by apply Hkeep; [|left]); try (intros m' Ha; by apply Hkeepa; [|left]).
  - intros k b [[= -> ->]%elem_of_singleton|Hk]%elem_of_union; [|by apply Hkeep; [|left]].
    exists m, ph'. rewrite lookup_insert_eq. split_and!; [done..|by apply Hupd].
  - intros k b [Hk Hne]%elem_of_difference. apply Hkeep; [done|].
    destruct (decide (n = k)) as [->|]; [|by right]. left. intros [= ->]. set_solver.
  - intros m' Ha. apply lookup_insert_Some in Ha as [[<- ->]|[Hne Ha]].
    + exists ph'. rewrite lookup_insert_eq. split; [done|by apply Hav].
    + apply Hkeepa; [done|by right].
  - intros k m' s. rewrite lookup_insert. case_decide; [intros [= <- <-]|apply H8]. split; [apply new_conn_inv|]. simpl. done.
  - intros k m' s Hk. apply lookup_alter_Some in Hk as [(<- & [m1 [c t]] & Hk & [= -> ->])|[_ Hk]]; [|by eapply H8].
    destruct (H8 _ _ _ Hk) as [Hci Hsd]. split; [|done]. simpl. by eapply other_step_inv.
Qed.
Lemma platform_cancel_inv settings p : platform_inv settings p → platform_inv settings (pf_cancel p).
Proof.
  intros [H1 H2 H3 H4 H5 H6 H7 H8 H9 H10]. split; simpl; try done.
  intros n m s. rewrite lookup_fmap. destruct (pf_conns p !! n) as [[m' [c t]]|] eqn:Hn; simpl; [|done]. intros [= <- <-].
  destruct (H8 _ _ _ Hn) as [Hi _]. split; [|done]. by eapply other_step_inv.
Qed.
Lemma set_main_inv settings ph p :
  platform_inv settings p → (match ph with MainLook | MainSet _ _ => pf_mode p = TransportModeNone | _ => True end) →
  (match ph with MainSet _ channel | MainWait channel => channel = 0 | _ => True end) → platform_inv settings (pf_set_main ph p).
Proof. intros [H1 H2 H3 H4 H5 H6 H7 H8 H9 H10] Hm Hc. split; simpl; try done. by destruct ph. Qed.
Lemma platform_main_inv settings l p p' : platform_inv settings p → main_step l p = Some p' → platform_inv settings p'.
Proof.
  intros Hi E. pose proof (pi_mode _ _ Hi) as Hm. pose proof (pi_monitor _ _ Hi) as Hn. unfold main_step in E.
  destruct l as [keys|]; destruct (pf_main p) as [|mode ch|ch|] eqn:Em; try done.
  - injection E as <-. apply set_main_inv; [done..|]. by rewrite Hn.
  - injection E as <-. destruct Hm as [-> Hm]. destruct mode as [m|]; [|by apply set_main_inv].
    destruct Hi as [H1 H2 H3 H4 H5 H6 H7 H8 H9 H10]. by split.
  - subst ch. by rewrite Hn in E.
  - destruct (pf_done p); [|done]. injection E as <-. by apply platform_cancel_inv, set_main_inv.
Qed.
Lemma platform_run_inv settings m l ph p p' :
  platform_inv settings p → pf_runs p !! m = Some ph → run_step m l ph p = Some p' → platform_inv settings p'.
Proof.
  intros Hi Hm E. pose proof (pi_monitor _ _ Hi) as Hn.
  destruct l as [| |ok]; destruct ph as [|ch| | |n acts|n acts|]; simpl in E; try done.
  - injection E as <-. eapply run_move_inv; try done; [by intros a []| |]; destruct (isBetterMode _ _); try done.
    intros ch [= <-]. by rewrite Hn.
  - destruct (notified _ _); [|done]. injection E as <-. eapply run_move_inv; try done. by intros a [].
  - injection E as <-. eapply run_move_inv; try done. by intros a [].
  - destruct acts as [|a acts].
    + destruct (pf_conns p !! n) as [[m' [c t]]|]; [|done]. destruct (cn_handle_done c); [|done]. injection E as <-.
      by apply run_down_inv.
    + injection E as <-. destruct (suffix_up _ _ _ _ _ _ Hi Hm) as (Hs & Hr & Ha & Hc).
      eapply run_act_inv; try done. by intros n' acts' [= <- <-].
  - destruct acts as [|a acts].
    + injection E as <-. eapply run_move_inv; try done. intros a []%elem_of_nil.
    + injection E as <-. destruct (suffix_down _ _ _ _ _ _ Hi Hm) as (Hs & Hu & Ha & Hc).
      eapply run_act_inv; try done; [by intros n' acts' [= <- <-]| |intros b E; by destruct (Hu b)].
      simpl. intros a' Hin Hne. by apply elem_of_cons in Hin as [->|].
  - destruct (pf_done p); [|done]. injection E as <-. eapply run_move_inv; try done. by intros a [].
  - destruct (_ && _); [|done]. injection E as <-. apply platform_cancel_inv. eapply run_move_inv; try done. by intros a [].
  - destruct (pf_done p); [|done]. injection E as <-. apply platform_cancel_inv. eapply run_move_inv; try done. by intros a [].
  - destruct ok; injection E as <-; [eapply run_connected_inv; try done|eapply run_move_inv; try done]; by intros a [].
Qed.
Lemma conn_step_self settings ptMode l s s' :
  conn_step settings ptMode l s = Some s' → cn_self_done s.1 = true → cn_self_done s'.1 = true.
Proof.
  destruct s as [c t]. intros E Hs. destruct l as [|m| | | | |ok| | |m| | | | | | |mode ch| |mon|]; cbn [conn_step writer_step watch_step] in E;
    try (assert (s' = reader_message (bool_decide (ptMode ≠ TransportModeH1)) m (c, t)) as ->
         by (unfold reader_step in E; destruct (cn_reader c); try done; congruence); by rewrite reader_message_use);
    unfold reader_step in E; repeat case_match; simplify_eq/=; done.
Qed.
Lemma platform_step_inv settings l p p' : platform_inv settings p → platform_step settings l p = Some p' → platform_inv settings p'.
Proof.
  intros Hi E. destruct l as [|l|m l|n l]; simpl in E.
  - injection E as <-. by apply platform_cancel_inv.
  - by eapply platform_main_inv.
  - destruct (pf_runs p !! m) eqn:Hm; [|done]. by eapply platform_run_inv.
  - destruct (negb _); [done|]. destruct (pf_conns p !! n) as [[m s]|] eqn:Hn; [|done].
    destruct (conn_step settings m l s) as [s1|] eqn:E1; [|done]. injection E as <-.
    pose proof (pi_conns _ _ Hi _ _ _ Hn) as [Hci Hsd].
    destruct Hi as [H1 H2 H3 H4 H5 H6 H7 H8 H9 H10]. split; simpl; try done.
    intros n' m' s'. rewrite lookup_insert. case_decide; [|apply H8]. intros [= <- <-]. split; [by eapply conn_step_inv|].
    intros Hd. by rewrite (conn_step_self settings m l s s1 E1 (Hsd Hd)).
Qed.
Lemma platform_steps_inv settings ls p p' : platform_inv settings p → platform_steps settings ls p = Some p' → platform_inv settings p'.
Proof.
  revert p. induction ls as [|l ls IH]; intros p Hi E; simpl in E; [by injection E as <-|].
  destruct (platform_step settings l p) eqn:E1; [|done]. eapply IH; [|done]. by eapply platform_step_inv.
Qed.
Lemma target_runs targetMode m ph : pf_runs (NewPlatformTransportWithTargetMode targetMode) !! m = Some ph → ph = PrLook.
Proof.
  simpl. intros H. apply elem_of_list_to_map_2, list_elem_of_fmap in H as (x & [= _ ->] & _). done.
Qed.
Lemma new_platform_inv settings targetMode : platform_inv settings (NewPlatformTransportWithTargetMode targetMode).
Proof.
  pose proof (target_runs targetMode) as Hr. split; try done.
  - intros m ph n Hm. by rewrite (Hr _ _ Hm).
  - intros m m' ph ph' n Hm Hm'. by rewrite (Hr _ _ Hm).
  - intros m n acts Hm. by specialize (Hr _ _ Hm).
  - intros m n acts Hm. by specialize (Hr _ _ Hm).
  - intros m ch Hm. by specialize (Hr _ _ Hm).
Qed.
(** The goroutine of a mode holds no connection. *)
Definition idle_run (p : PlatformTransport) (m : TransportMode) : Prop :=
  match pf_runs p !! m with Some (PrUp _ _ | PrDown _ _) => False | _ => True end.

(** C18. What a transport gives the route manager, in every interleaving of its
    goroutines, their connections, a close and the network: a transport is
    registered only while the goroutine of one mode holds its connection, so no
    two modes or connections of a mode have the same, and none is left by a
    goroutine that connects, waits or has ended; and a mode is shown as available
    only while its goroutine holds a connection. Every connection keeps the
    properties of a connection, and its context is done when that of the
    transport is. *)
Theorem platform_routes (settings : PlatformTransportSettings) (targetMode : TransportMode) (ls : list platform_label)
    (p : PlatformTransport) :
  platform_steps settings ls (NewPlatformTransportWithTargetMode targetMode) = Some p →
  (∀ n b, (n, b) ∈ pf_routes p → ∃ m ph, pf_runs p !! m = Some ph ∧ phase_conn ph = Some n ∧
     ∀ m' ph', pf_runs p !! m' = Some ph' → phase_conn ph' = Some n → m' = m) ∧
  ((∀ m, idle_run p m) → pf_routes p = ∅) ∧
  (∀ m, idle_run p m → availableModes p !! m ≠ Some true) ∧
  (∀ n m s, pf_conns p !! n = Some (m, s) → conn_inv settings (is_h3 m) s ∧ (pf_done p = true → cn_self_done s.1 = true)).
Proof.
  intros E. pose proof (platform_steps_inv _ _ _ _ (new_platform_inv settings targetMode) E) as Hi. split_and!.
  - intros n b Hin. destruct (pi_routes _ _ Hi _ _ Hin) as (m & ph & Hm & Hn & _). exists m, ph. split_and!; try done.
    intros m' ph' Hm' Hn'. by eapply (pi_own _ _ Hi).
  - intros Hidle. apply set_eq. intros [n b]. split; [|set_solver]. intros Hin.
    destruct (pi_routes _ _ Hi _ _ Hin) as (m & ph & Hm & Hn & _). specialize (Hidle m). unfold idle_run in Hidle. rewrite Hm in Hidle.
    by destruct ph.
  - intros m Hidle Ha. destruct (pi_available _ _ Hi _ Ha) as (ph & Hm & Hs). unfold idle_run in Hidle. rewrite Hm in Hidle. by destruct ph.
  - apply (pi_conns _ _ Hi).
Qed.

(** *** The choice of the mode *)
(** [run] chooses a mode once: after that nothing wakes it up, whatever becomes
    available, and a goroutine that waits for a better mode to end waits for ever. *)
Theorem mode_chosen_once (settings : PlatformTransportSettings) (targetMode : TransportMode) (ls ls' : list platform_label)
    (p p' : PlatformTransport) (channel : nat) :
  platform_steps settings ls (NewPlatformTransportWithTargetMode targetMode) = Some p → pf_main p = MainWait channel →
  platform_steps settings ls' p = Some p' → pf_mode p' = pf_mode p.
Proof.
  intros E Hw E'. pose proof (platform_steps_inv _ _ _ _ (new_platform_inv settings targetMode) E) as Hi.
  assert (∃ ch, pf_main p = MainWait ch ∨ pf_main p = MainDone) as Hm by (exists channel; by left). clear E Hw.
  revert p Hi Hm E'. induction ls' as [|l ls' IH]; intros p Hi [ch Hm] E'; simpl in E'; [by injection E' as <-|].
  destruct (platform_step settings l p) as [p1|] eqn:E1; [|done].
  assert (pf_mode p1 = pf_mode p ∧ ∃ ch, pf_main p1 = MainWait ch ∨ pf_main p1 = MainDone) as [Hm1 Hw1].
  { destruct l as [|l|m l|n l]; simpl in E1.
    - injection E1 as <-. simpl. eauto.
    - pose proof (pi_mode _ _ Hi) as Hc. pose proof (pi_monitor _ _ Hi) as Hn. unfold main_step in E1.
      destruct Hm as [Hm|Hm]; rewrite Hm in *; destruct l; try done; [subst ch; by rewrite Hn in E1|].
      destruct (pf_done p); [|done]. injection E1 as <-. split; [done|exists 0; by right].
    - destruct (pf_runs p !! m) as [ph|]; [|done].
      destruct l as [| |ok]; destruct ph as [| | | |n [|a acts]|n [|a acts]|]; simpl in E1; repeat case_match; simplify_eq/=; eauto; destruct a; simpl; eauto.
    - destruct (negb _); [done|]. destruct (pf_conns p !! n) as [[m s]|]; [|done]. destruct (conn_step settings m l s); [|done].
      injection E1 as <-. simpl. eauto. }
  rewrite <-Hm1. eapply IH; [by eapply platform_step_inv|done|done].
Qed.
Lemma sort_insert_perm cmp x l : sort_insert cmp x l ≡ₚ x :: l.
Proof. induction l as [|y l IH]; simpl; [done|]. destruct (_ <? _)%Z; [|done]. rewrite IH. constructor. Qed.
Lemma SortFunc_perm cmp l : SortFunc cmp l ≡ₚ l.
Proof.
  unfold SortFunc. rewrite <-Permutation_rev. rewrite <-(app_nil_r l) at 2. generalize (@nil TransportMode).
  induction l as [|x l IH]; intros acc; simpl; [done|]. rewrite IH, sort_insert_perm. by rewrite Permutation_middle.
Qed.
Definition mode_mask (b1 b2 b3 b4 : bool) (m : TransportMode) : bool :=
  match m with TransportModeH3DnsPump => b1 | TransportModeH3Dns => b2 | TransportModeH3 => b3 | TransportModeH1 => b4 | _ => false end.
Definition least_preferred (f : TransportMode → bool) (m : option TransportMode) : bool :=
  forallb (λ m', negb (f m') || match m with Some m => (transportModePreferences m <=? transportModePreferences m')%Z | None => false end)
    preference_keys && match m with Some m => f m | None => true end.
Lemma least_preferred_mask :
  forallb (λ keys, forallb (λ b1, forallb (λ b2, forallb (λ b3, forallb (λ b4,
    least_preferred (mode_mask b1 b2 b3 b4) (head (List.filter (mode_mask b1 b2 b3 b4) (SortFunc mode_cmp keys))))
    [true; false]) [true; false]) [true; false]) [true; false]) (permutations preference_keys) = true.
Proof. vm_compute. reflexivity. Qed.
Lemma in_bools b : In b [true; false].
Proof. destruct b; simpl; auto. Qed.
(** The sort puts the least preferred mode first, against the comment, whatever
    the order of the map is: the mode that is chosen is the least preferred of
    those that are available, and there is one if any is available. *)
Theorem chooses_least_preferred (keys : list TransportMode) (available : gmap TransportMode bool) :
  keys ≡ₚ preference_keys →
  least_preferred (λ m, default false (available !! m)) (choose_mode keys available) = true.
Proof.
  intros Hk. pose proof least_preferred_mask as H. set (f := λ m, default false (available !! m)). unfold choose_mode. fold f.
  rewrite forallb_forall in H. specialize (H keys). rewrite <-list_elem_of_In, permutations_Permutation in H. specialize (H (symmetry Hk)).
  set (g := mode_mask (f TransportModeH3DnsPump) (f TransportModeH3Dns) (f TransportModeH3) (f TransportModeH1)).
  assert (∀ m, m ∈ preference_keys → g m = f m) as Hg by (intros m; unfold preference_keys; set_solver).
  assert (least_preferred g (head (List.filter g (SortFunc mode_cmp keys))) = true) as Hl.
  { rewrite forallb_forall in H. specialize (H _ (in_bools (f TransportModeH3DnsPump))).
    rewrite forallb_forall in H. specialize (H _ (in_bools (f TransportModeH3Dns))).
    rewrite forallb_forall in H. specialize (H _ (in_bools (f TransportModeH3))).
    rewrite forallb_forall in H. exact (H _ (in_bools (f TransportModeH1))). }
  assert (List.filter g (SortFunc mode_cmp keys) = List.filter f (SortFunc mode_cmp keys)) as Hf.
  { apply filter_ext_in. intros m Hm. apply Hg. by rewrite <-Hk, <-(SortFunc_perm mode_cmp keys), list_elem_of_In. }
  rewrite Hf in Hl. destruct (head (List.filter f (SortFunc mode_cmp keys))) as [m|] eqn:Eh; [|exact Hl].
  assert (f m = true) as Hm.
  { destruct (List.filter f (SortFunc mode_cmp keys)) as [|y l] eqn:El; [done|]. injection Eh as ->.
    assert (In m (List.filter f (SortFunc mode_cmp keys))) as Hin by (rewrite El; by left). apply filter_In in Hin as [_ Hin]. exact Hin. }
  unfold least_preferred in *. rewrite Hm. apply andb_true_iff in Hl as [Hl _]. by rewrite andb_true_r.
Qed.
(** A connection of QUIC does not count what it reads and writes: it is ended
    when it was in a mode that is not active for the time of a drain. *)
Theorem h3_not_counted (settings : PlatformTransportSettings) (ptMode : TransportMode) (self_done : bool) (ls : list conn_label)
    (c : conn) (t : conn_trace) :
  ptMode ≠ TransportModeH1 → conn_steps settings ptMode ls (new_conn self_done, new_trace) = Some (c, t) →
  cn_reads c = 0%Z ∧ cn_writes c = 0%Z ∧
  ∀ c' t', conn_step settings ptMode CnIdle (c, t) = Some (c', t') → cn_handle_done c' = true.
Proof.
  intros Hpt E.
  set (P := λ s : conn_state, cn_reads s.1 = 0%Z ∧ cn_writes s.1 = 0%Z ∧
    match cn_watch s.1 with WtWait (Some (r, w)) _ => r = 0%Z ∧ w = 0%Z | _ => True end).
  assert (∀ l s s', P s → conn_step settings ptMode l s = Some s' → P s') as Hstep.
  { intros l [c1 t1] s' (Hr & Hw & Hwt) E1. cbn [fst snd] in *. assert (bool_decide (ptMode ≠ TransportModeH1) = true) as Hb by by apply bool_decide_eq_true.
    unfold P. destruct (cn_watch c1) as [|[[r w]|] ch0|] eqn:Ew; destruct l as [|m| | | | |ok| | |m| | | | | | |mode ch| |mon|]; cbn [conn_step writer_step watch_step] in E1; rewrite ?Hb, ?Ew in E1;
    try (assert (s' = reader_message true m (c1, t1)) as ->
         by (unfold reader_step in E1; destruct (cn_reader c1); try done; congruence); by rewrite reader_message_use; cbn; rewrite Ew);
    unfold reader_step in E1; repeat case_match; simplify_eq/=; rewrite ?Ew; try done; first [congruence|destruct Hwt; split_and!; congruence]. }
  assert (∀ s, P s → conn_steps settings ptMode ls s = Some (c, t) → P (c, t)) as Hsteps.
  { clear E. induction ls as [|l ls IH]; intros s Hs E; simpl in E; [by injection E as ->|].
    destruct (conn_step settings ptMode l s) eqn:E1; [|done]. eapply IH; [|done]. by eapply Hstep. }
  destruct (Hsteps (new_conn self_done, new_trace)) as (Hr & Hw & Hwt); [by unfold P|done|]. cbn [fst snd] in *.
  split_and!; [done..|]. intros c' t' E'. cbn in E'. destruct (cn_watch c) as [|[[r w]|]|]; try done. destruct Hwt as [-> ->].
  rewrite Hr, Hw in E'. by injection E' as <- <-.
Qed.
(** When the writer has ended and [controlSend] is full, the reader that has a
    message to echo waits until the whole transport is closed: it does not look
    at the context of the connection, which has ended. *)
Theorem echo_waits_for_close (settings : PlatformTransportSettings) (l : conn_label) (c c' : conn) (t t' : conn_trace) (m : message) :
  cn_writer c = WrDone → cn_reader c = RdEcho m → TransportBufferSize settings ≤ length (cn_control c) → cn_self_done c = false →
  l ≠ CnSelfDone → conn_step settings TransportModeH1 l (c, t) = Some (c', t') →
  cn_writer c' = WrDone ∧ cn_reader c' = RdEcho m ∧ cn_control c' = cn_control c ∧ cn_self_done c' = false.
Proof.
  intros Hw Hr Hf Hs Hl E. destruct l; cbn [conn_step writer_step watch_step reader_step] in E; rewrite ?Hw, ?Hr, ?Hs in E; try done;
    try (destruct (Nat.ltb_spec (length (cn_control c)) (TransportBufferSize settings)); [lia|done]);
    repeat case_match; simplify_eq/=; done.
Qed.

(** ** Connecting *)
Inductive ws_read := WsError | WsBinary (m : message) | WsOther.
(** [connect] of [runH1] after the dial: with version 2 the auth is in the
    request, and otherwise it is written and must come back. *)
Definition connect_auth (v2 : bool) (authBytes : outcome message) (written : bool) (r : ws_read) : outcome unit :=
  if v2 then Val tt else
  let! authBytes := authBytes in
  if negb written then Err "write" else
  match r with
  | WsError => Err "read"
  | WsBinary m => if bool_decide (authBytes = m) then Val tt else Err "Auth response error: bad bytes."
  | WsOther => Err "Auth response error."
  end.
Lemma connect_auth_echo authBytes written r :
  connect_auth false authBytes written r = Val tt ↔ ∃ b, authBytes = Val b ∧ written = true ∧ r = WsBinary b.
Proof.
  unfold connect_auth. destruct authBytes as [b|e|e]; simpl; [|by split; [|intros (? & ? & _)]..].
  destruct written; simpl; [|by split; [|intros (? & _ & ? & _)]]. destruct r as [|m|]; try by split; [|intros (? & _ & _ & ?)].
  case_bool_decide; subst; [by split; [intros _; exists m|]|]. split; [done|]. intros (? & [= ->] & _ & [= ->]). done.
Qed.
(** [strings.SplitN(host, ".", 2)[1]] *)
Fixpoint after_dot (s : string) : option string :=
  match s with
  | EmptyString => None
  | String c s => if (c =? ".")%char then Some s else after_dot s
  end.
Fixpoint replace_dots (s : string) : string :=
  match s with
  | EmptyString => EmptyString
  | String c s => String (if (c =? ".")%char then "-"%char else c) (replace_dots s)
  end.
(** [pumpHost] of the host name of the url; [is_ip]: [net.ParseIP] accepts it. *)
Definition pumpHost (host : string) (is_ip : bool) (tld : string) : outcome string :=
  if is_ip then Val host
  else match after_dot host with
       | Some baseHost => Val ("zone-" +:+ replace_dots tld +:+ "." +:+ baseHost)%string
       | None => Panic "index out of range"
       end.

Module TransportExample.
Definition ex_platform_settings : PlatformTransportSettings := mkPlatformSettings 1.
Definition ex_data (k : nat) : message := replicate (17 + k) x00.
Definition ex_control (b : byte) : message := b :: replicate 4 x00.
(** Two messages out, of which one waits for a speed test, and two in. *)
Definition ex_conn : list conn_label :=
  [CnPut (ex_data 0); CnWriteData; CnPut (ex_data 1); CnWritten true; CnCheck; CnRead (ex_control TransportControlSpeedStart); CnReadPut;
   CnCheck; CnWriteControl; CnRead (ex_data 2); CnReadPut; CnWritten true; CnWriteControl; CnWritten true; CnCheck;
   CnRead (ex_control TransportControlSpeedStop); CnReadPut; CnWriteControl; CnWritten true; CnWriteData; CnWritten true; CnCheck;
   CnRead (ex_data 3); CnReadPut; CnTake; CnPut [x00]; CnWriteData; CnLook TransportModeNone 0; CnCheck; CnReadError;
   CnReadExit; CnReadExit; CnReadExit; CnReadExit; CnReadExit; CnWriteEnd].
Definition ex_conn_end : conn_state := default (new_conn false, new_trace) (conn_steps ex_platform_settings TransportModeH1 ex_conn (new_conn false, new_trace)).
Example ex_written :
  ct_written ex_conn_end.2 =
    [WrData (ex_data 0); WrControl (ex_control TransportControlSpeedStart); WrControl (ex_data 2);
     WrControl (ex_control TransportControlSpeedStop); WrData (ex_data 1)] ∧
  ct_taken ex_conn_end.2 = [ex_data 3] ∧ length (ct_pool ex_conn_end.2) = 6.
Proof. vm_compute. done. Qed.
Lemma transport_connection_witness :
  conn_steps ex_platform_settings TransportModeH1 ex_conn (new_conn false, new_trace) = Some (ex_conn_end.1, ex_conn_end.2) ∧
  quiet false (ct_written ex_conn_end.2) = true.
Proof.
  assert (conn_steps ex_platform_settings TransportModeH1 ex_conn (new_conn false, new_trace) = Some (ex_conn_end.1, ex_conn_end.2)) as E
    by (vm_compute; reflexivity).
  split; [exact E|]. exact (proj1 (proj2 (transport_connection ex_platform_settings TransportModeH1 false ex_conn _ _ E))).
Defined.
(** A connection that comes up, and goes down when the transport is closed. *)
Definition ex_run (k : nat) : list platform_label := replicate k (PfRun TransportModeH1 RunNext).
Definition ex_up : list platform_label := PfRun TransportModeH1 RunNext :: PfRun TransportModeH1 (RunConnected true) :: ex_run 4.
Definition ex_life : list platform_label :=
  ex_up ++ [PfMain (MainNext preference_keys); PfMain (MainNext preference_keys); PfConn 0 (CnLook TransportModeH1 0); PfConn 0 CnCheck; PfClose] ++
  ex_run 6 ++ [PfRun TransportModeH1 RunEnd; PfMain MainEnd].
Definition ex_platform (ls : list platform_label) : PlatformTransport :=
  default (NewPlatformTransportWithTargetMode TransportModeAuto) (platform_steps ex_platform_settings ls (NewPlatformTransportWithTargetMode TransportModeAuto)).
Example ex_up_routes : elements (pf_routes (ex_platform ex_up)) = [(0, true); (0, false)] ∨ elements (pf_routes (ex_platform ex_up)) = [(0, false); (0, true)].
Proof. vm_compute. auto. Qed.
Lemma platform_routes_witness :
  platform_steps ex_platform_settings ex_life (NewPlatformTransportWithTargetMode TransportModeAuto) = Some (ex_platform ex_life) ∧
  pf_routes (ex_platform ex_life) = ∅.
Proof.
  assert (platform_steps ex_platform_settings ex_life (NewPlatformTransportWithTargetMode TransportModeAuto) = Some (ex_platform ex_life)) as E
    by (vm_compute; reflexivity).
  split; [exact E|]. apply (platform_routes ex_platform_settings TransportModeAuto ex_life _ E).
  intros m. destruct m; vm_compute; exact I.
Defined.
(** The usual order: [run] looks before the first connection is up, so that no
    mode is active while it is, and the connection is ended when it is idle. *)
Example idle_connection_ended :
  (λ p, (pf_mode p, (λ x, cn_handle_done x.2.1) <$> pf_conns p !! 0)) <$>
    platform_steps ex_platform_settings
      ([PfMain (MainNext preference_keys); PfMain (MainNext preference_keys)] ++ ex_up ++ [PfConn 0 (CnLook TransportModeNone 0); PfConn 0 CnIdle])
      (NewPlatformTransportWithTargetMode TransportModeAuto)
  = Some (TransportModeNone, Some true).
Proof. vm_compute. reflexivity. Qed.
(** The least preferred mode is active. *)
Example pump_before_h1 :
  choose_mode preference_keys {[TransportModeH1 := true; TransportModeH3DnsPump := true]} = Some TransportModeH3DnsPump.
Proof. vm_compute. reflexivity. Qed.
Example pump_host : pumpHost "connect.bringyour.com" false "ur.xyz" = Val "zone-ur-xyz.bringyour.com"%string.
Proof. reflexivity. Qed.
Example pump_host_panics : pumpHost "localhost" false "ur.xyz" = Panic "index out of range".
Proof. reflexivity. Qed.
End TransportExample.
