(* ===== verification/Frames.v ===== *)
(** * Frames: frame.go

    The messages that travel in frames, and the frames that carry them: a
    message is marshalled, or for later versions of the protocol put into the
    frame as it is. The protobuf codec is a class of functions with its law. *)

From S2P Require Import Prelude Contracts.
Open Scope go_scope.

(** ** Messages *)
(** The types that the two switches name. *)
Inductive MessageKind :=
| KPack | KAck | KContract | KProvide | KAuth | KStreamOpen | KStreamClose | KCreateContract
| KCreateContractResult | KCloseContract | KPeerAudit | KSimpleMessage | KControlPing | KProvidePing.
#[export] Instance MessageKind_eq_dec : EqDecision MessageKind.
Proof. solve_decision. Defined.
(** The numbers of frame.proto. *)
Definition kind_number (k : MessageKind) : Z :=
  match k with
  | KPack => MessageType_TransferPack
  | KAck => MessageType_TransferAck
  | KContract => MessageType_TransferContract
  | KProvide => 3
  | KAuth => 4
  | KStreamOpen => 8
  | KStreamClose => 9
  | KCreateContract => 10
  | KCreateContractResult => MessageType_TransferCreateContractResult
  | KCloseContract => 12
  | KPeerAudit => 13
  | KSimpleMessage => 14
  | KControlPing => 18
  | KProvidePing => 19
  end.
Definition all_kinds : list MessageKind :=
  [KPack; KAck; KContract; KProvide; KAuth; KStreamOpen; KStreamClose; KCreateContract;
   KCreateContractResult; KCloseContract; KPeerAudit; KSimpleMessage; KControlPing; KProvidePing].
Definition number_kind (t : Z) : option MessageKind := List.find (λ k, (kind_number k =? t)%Z) all_kinds.
Definition MessageType_IpIpPacketToProvider : Z := 15.
Definition MessageType_IpIpPacketFromProvider : Z := 16.
Definition MessageType_IpIpPing : Z := 17.

(** A message: the fields that frame.go looks at, or the [body] it does not
    look at. [None] for a packet is the nil pointer [IpPacket]. [MForeign] is a
    message of another type. *)
Inductive Message (Body : Type) :=
| MKnown (k : MessageKind) (body : Body)
| MIpPacketToProvider (ipPacket : option (list byte))
| MIpPacketFromProvider (ipPacket : option (list byte))
| MIpPing
| MForeign (body : Body).
Arguments MKnown {Body} k body.
Arguments MIpPacketToProvider {Body} ipPacket.
Arguments MIpPacketFromProvider {Body} ipPacket.
Arguments MIpPing {Body}.
Arguments MForeign {Body} body.

(** The type of a message: [MessageType_...] and the empty message of the type. *)
Definition message_number {Body} (message : Message Body) : option Z :=
  match message with
  | MKnown k _ => Some (kind_number k)
  | MIpPacketToProvider _ => Some MessageType_IpIpPacketToProvider
  | MIpPacketFromProvider _ => Some MessageType_IpIpPacketFromProvider
  | MIpPing => Some MessageType_IpIpPing
  | MForeign _ => None
  end.
Definition known_number (t : Z) : bool :=
  (t =? MessageType_IpIpPacketToProvider)%Z || (t =? MessageType_IpIpPacketFromProvider)%Z ||
  (t =? MessageType_IpIpPing)%Z || match number_kind t with Some _ => true | None => false end.

(** ** The codec *)
(** [ProtoMarshal] can fail; [ProtoUnmarshal] is into a message of a type. *)
Class FrameCodec (Body : Type) := {
  marshalMessage : Message Body → outcome (list byte);
  unmarshalMessage : Z → list byte → outcome (Message Body);
  marshalFrame : Frame → outcome (list byte);
  unmarshalFrame : list byte → outcome Frame
}.
Class FrameCodecLaws {Body} (codec : FrameCodec Body) := {
  unmarshal_message m b t : marshalMessage m = Val b → message_number m = Some t → unmarshalMessage t b = Val m;
  unmarshal_frame f b : marshalFrame f = Val b → unmarshalFrame b = Val f
}.

Section Frames.
Context {Body : Type} `{codec : FrameCodec Body}.

Definition nil_pointer {A} : outcome A := Panic "nil pointer dereference".
(** [v.IpPacket.PacketBytes] *)
Definition PacketBytes (ipPacket : option (list byte)) : outcome (list byte) :=
  match ipPacket with Some b => Val b | None => nil_pointer end.

Definition ToFrame (message : Message Body) (protocolVersion : Z) : outcome Frame :=
  let marshalled messageType :=
    let! b := marshalMessage message in Val (mkFrame messageType b false) in
  match message with
  | MKnown k _ => marshalled (kind_number k)
  | MIpPacketToProvider ipPacket =>
      if (2 <=? protocolVersion)%Z
      then let! b := PacketBytes ipPacket in Val (mkFrame MessageType_IpIpPacketToProvider b true)
      else marshalled MessageType_IpIpPacketToProvider
  | MIpPacketFromProvider ipPacket =>
      if (2 <=? protocolVersion)%Z
      then let! b := PacketBytes ipPacket in Val (mkFrame MessageType_IpIpPacketFromProvider b true)
      else marshalled MessageType_IpIpPacketFromProvider
  | MIpPing =>
      if (2 <=? protocolVersion)%Z then Val (mkFrame MessageType_IpIpPing [] true)
      else marshalled MessageType_IpIpPing
  | MForeign _ => Err "Unknown message type"
  end.
Definition FromFrame (frame : Frame) : outcome (Message Body) :=
  let unmarshalled := unmarshalMessage (MessageType frame) (MessageBytes frame) in
  if (MessageType frame =? MessageType_IpIpPacketToProvider)%Z then
    if Raw frame then Val (MIpPacketToProvider (Some (MessageBytes frame))) else unmarshalled
  else if (MessageType frame =? MessageType_IpIpPacketFromProvider)%Z then
    if Raw frame then Val (MIpPacketFromProvider (Some (MessageBytes frame))) else unmarshalled
  else if (MessageType frame =? MessageType_IpIpPing)%Z then
    if Raw frame then Val MIpPing else unmarshalled
  else match number_kind (MessageType frame) with
       | Some _ => unmarshalled
       | None => Err "Unknown message type"
       end.
(** [EncodeFrame] gives the bytes of a frame that is not raw back to the pool:
    the second component. *)
Definition EncodeFrame (message : Message Body) (protocolVersion : Z) : outcome (list byte * option (list byte)) :=
  let! frame := ToFrame message protocolVersion in
  let! b := marshalFrame frame in
  Val (b, if Raw frame then None else Some (MessageBytes frame)).
Definition DecodeFrame (b : list byte) : outcome (Message Body) :=
  let! frame := unmarshalFrame b in FromFrame frame.
End Frames.

(** ** Round trips *)
Section Proofs.
Context {Body : Type} `{codec : FrameCodec Body} `{!FrameCodecLaws codec}.

Lemma number_kind_number k : number_kind (kind_number k) = Some k.
Proof. by destruct k. Qed.
(** The bytes of a packet: only a packet that is there can go raw. *)
Definition has_packet (message : Message Body) : Prop :=
  match message with MIpPacketToProvider o | MIpPacketFromProvider o => is_Some o | _ => True end.
Lemma to_frame_from message version f : ToFrame message version = Val f → FromFrame f = Val message.
Proof.
  assert (∀ t, message_number message = Some t →
    obind (marshalMessage message) (λ b, Val (mkFrame t b false)) = Val f →
    f = mkFrame t (MessageBytes f) false ∧ unmarshalMessage t (MessageBytes f) = Val message) as Hm.
  { intros t Ht E. destruct (marshalMessage message) as [b| |] eqn:Eb; try done. cbn [obind] in E.
    injection E as <-. split; [done|]. by eapply unmarshal_message. }
  unfold ToFrame. destruct message as [k body|o|o| |body]; [..|done]; intros E.
  - destruct (Hm _ eq_refl E) as [-> E2]. unfold FromFrame. cbn [MessageType MessageBytes Raw].
    rewrite number_kind_number. by destruct k.
  - case_match.
    + destruct o as [b|]; [|done]. by injection E as <-.
    + destruct (Hm _ eq_refl E) as [-> E2]. done.
  - case_match.
    + destruct o as [b|]; [|done]. by injection E as <-.
    + destruct (Hm _ eq_refl E) as [-> E2]. done.
  - case_match; [by injection E as <-|]. destruct (Hm _ eq_refl E) as [-> E2]. done.
Qed.

(** A message that was framed for any version of the protocol is read as it
    was by a reader of any version, as a frame and as its bytes; the frame has
    the number of the message's type, and is raw exactly for packets and pings
    from version 2 on, when a packet is carried as it is, without a copy.
    Framing fails only for a type that it does not know, for a message that
    cannot be marshalled, and, by a nil pointer, for a raw message without its
    packet; reading a frame of an unknown type fails. *)
Theorem frame_roundtrip (message : Message Body) (version : Z) :
  (∀ f, ToFrame message version = Val f →
     FromFrame f = Val message ∧ message_number message = Some (MessageType f) ∧
     (Raw f = true ↔ (2 ≤ version)%Z ∧ ∀ k body, message ≠ MKnown k body) ∧
     (∀ p, Raw f = true → message = MIpPacketToProvider (Some p) ∨ message = MIpPacketFromProvider (Some p) →
        MessageBytes f = p)) ∧
  (∀ b r, EncodeFrame message version = Val (b, r) → DecodeFrame b = Val message) ∧
  (ToFrame message version = nil_pointer → marshalMessage message ≠ nil_pointer →
     (2 ≤ version)%Z ∧ ¬ has_packet message) ∧
  (∀ e, ToFrame message version = Err e → message_number message = None ∨ marshalMessage message = Err e) ∧
  (∀ f, known_number (MessageType f) = false → FromFrame f = Err "Unknown message type").
Proof.
  split_and!.
  - intros f E. split; [by eapply to_frame_from|]. unfold ToFrame in E.
    destruct message as [k body|o|o| |body]; [|case_bool..|done]; inv_val; simpl in *;
      try (destruct o; [|done]; inv_val); simpl; split_and!; naive_solver lia.
  - intros b r. unfold EncodeFrame, DecodeFrame. destruct (ToFrame message version) as [f| |] eqn:E; try done.
    cbn [obind]. destruct (marshalFrame f) as [c| |] eqn:Ec; try done. cbn [obind]. intros [= <- _].
    rewrite (unmarshal_frame f c Ec). cbn [obind]. by eapply to_frame_from.
  - unfold ToFrame, nil_pointer. intros E Hm.
    destruct message as [k body|o|o| |body]; [|case_bool..|done];
      try (by destruct (marshalMessage _); inversion E; subst; destruct Hm);
      try (destruct o; [done|]; split; [done|by intros [? ?]]); done.
  - unfold ToFrame. intros e E. destruct message as [k body|o|o| |body]; [|case_bool..|by left]; try right;
      try (by destruct (marshalMessage _); inversion E); by destruct o.
  - intros f. unfold known_number, FromFrame. destruct (_ =? _)%Z; [done|]. destruct (_ =? _)%Z; [done|].
    destruct (_ =? _)%Z; [done|]. by destruct (number_kind _).
Qed.
End Proofs.

(** ** A codec that satisfies the laws *)
Module FrameExample.
#[export] Instance Message_eq_dec : EqDecision (Message (list byte)).
Proof. solve_decision. Defined.
#[export] Program Instance MessageKind_countable : Countable MessageKind :=
  inj_countable kind_number number_kind _.
Next Obligation. apply number_kind_number. Qed.
#[export] Program Instance Message_countable : Countable (Message (list byte)) :=
  inj_countable'
    (λ m, match m with
          | MKnown k b => inl (k, b)
          | MIpPacketToProvider o => inr (inl o)
          | MIpPacketFromProvider o => inr (inr (inl o))
          | MIpPing => inr (inr (inr (inl tt)))
          | MForeign b => inr (inr (inr (inr b)))
          end)
    (λ m, match m with
          | inl (k, b) => MKnown k b
          | inr (inl o) => MIpPacketToProvider o
          | inr (inr (inl o)) => MIpPacketFromProvider o
          | inr (inr (inr (inl _))) => MIpPing
          | inr (inr (inr (inr b))) => MForeign b
          end) _.
Next Obligation. by intros []. Qed.
Definition ex_frames : FrameCodec (list byte) := {|
  marshalMessage m := Val (encode_bytes m);
  unmarshalMessage _ b := decode_bytes b;
  marshalFrame f := Val (encode_bytes f);
  unmarshalFrame b := decode_bytes b
|}.
#[export] Instance ex_frames_laws : FrameCodecLaws ex_frames.
Proof. split; [intros m b t [= <-] _|intros f b [= <-]]; apply decode_encode_bytes. Qed.

(** A packet to a provider, for the two versions; and a message of the transfer. *)
Definition ex_packet : Message (list byte) := MIpPacketToProvider (Some [Byte.x45; Byte.x00]).
Lemma frame_roundtrip_witness :
  (∃ f, ToFrame (codec := ex_frames) ex_packet 2 = Val f ∧ Raw f = true ∧ MessageBytes f = [Byte.x45; Byte.x00] ∧
     FromFrame (codec := ex_frames) f = Val ex_packet) ∧
  (∃ f, ToFrame (codec := ex_frames) ex_packet 1 = Val f ∧ Raw f = false ∧
     FromFrame (codec := ex_frames) f = Val ex_packet).
Proof.
  split; eexists; (split; [reflexivity|]); [split_and!; [done..|]|split; [done|]];
    first [by apply (frame_roundtrip (codec := ex_frames) ex_packet 2)
          |by apply (frame_roundtrip (codec := ex_frames) ex_packet 1)].
Defined.
(** A frame without its packet is read, the nil pointer is in the message. *)
Example packet_missing :
  FromFrame (codec := ex_frames) (mkFrame MessageType_IpIpPacketToProvider
    (encode_bytes (MIpPacketToProvider (Body := list byte) None)) false) = Val (MIpPacketToProvider None).
Proof. apply decode_encode_bytes. Qed.
End FrameExample.
