(* ===== verification/ControlSync.v ===== *)
(** * The synchronization of control messages: ControlSync of transfer_control.go

    A message of a scope is handed to the client, and again when its ack fails,
    until a newer message of the scope replaces it. Each [Send] has an index, a
    context, and a watcher that ends the context when a newer [Send] came; at
    most one goroutine, [controlSync], tries to send it again. A step is what is
    done under [sendLock], or between two points where another goroutine runs. *)

From stdpp Require Import gmap sorting.
From S2P Require Import Prelude Contracts.
Open Scope go_scope.

(** Where a message is: with the client until its ack, at the top of the loop of
    [controlSync], after a try that failed, acked, given up. *)
Inductive sync_pc :=
| ScPending (frame : Frame)
| ScLoop (frame : Frame)
| ScFailed (frame : Frame) (err : bool)
| ScAcked
| ScEnded.
Record Sync := mkSync {
  sy_frame : Frame;          (** the frame of [Send] *)
  sy_pc : sync_pc;
  sy_cancelled : bool        (** [handleCancel] was called *)
}.
Record ControlSync := mkControlSync {
  cs_closed : bool;
  cs_clientDone : bool;
  syncCount : Z;
  cs_syncs : gmap Z Sync;
  cs_sent : list (Z * Frame);       (** what the client took, in order *)
  cs_retried : list Z;              (** those of them that were retries *)
  cs_acked : list Z;                (** the calls of the ack callbacks *)
  cs_returned : list (Z * Frame)    (** the bytes given back to the pool by a sync that ends or goes on with other ones *)
}.
Definition NewControlSync : ControlSync := mkControlSync false false 0 ∅ [] [] [] [].
(** The frame that goes to the client shares the bytes. *)
Definition frame_copy (frame : Frame) : Frame := mkFrame (MessageType frame) (MessageBytes frame) false.

Definition set_sync (i : Z) (y : Sync) (s : ControlSync) : ControlSync :=
  mkControlSync (cs_closed s) (cs_clientDone s) (syncCount s) (<[i := y]> (cs_syncs s)) (cs_sent s) (cs_retried s) (cs_acked s) (cs_returned s).
Definition add_sent (i : Z) (frame : Frame) (s : ControlSync) : ControlSync :=
  mkControlSync (cs_closed s) (cs_clientDone s) (syncCount s) (cs_syncs s) (cs_sent s ++ [(i, frame_copy frame)]) (cs_retried s) (cs_acked s) (cs_returned s).
Definition add_acked (i : Z) (s : ControlSync) : ControlSync :=
  mkControlSync (cs_closed s) (cs_clientDone s) (syncCount s) (cs_syncs s) (cs_sent s) (cs_retried s) (cs_acked s ++ [i]) (cs_returned s).
Definition add_returned (i : Z) (frame : Frame) (s : ControlSync) : ControlSync :=
  mkControlSync (cs_closed s) (cs_clientDone s) (syncCount s) (cs_syncs s) (cs_sent s) (cs_retried s) (cs_acked s) (cs_returned s ++ [(i, frame)]).
Definition add_retried (i : Z) (s : ControlSync) : ControlSync :=
  mkControlSync (cs_closed s) (cs_clientDone s) (syncCount s) (cs_syncs s) (cs_sent s) (cs_retried s ++ [i]) (cs_acked s) (cs_returned s).
(** [handleCtx] is done. *)
Definition handle_done (s : ControlSync) (y : Sync) : bool := cs_closed s || sy_cancelled y.

(** What [SendWithTimeoutDetailed] returns. *)
Inductive try_result := TrySent | TryError | TryNot.
Inductive cs_label :=
| CsSend (frame : Frame) (success : bool)
| CsNotify (i : Z)
| CsAck (i : Z) (err : bool)
| CsTry (i : Z) (result : try_result)
| CsAfter (i : Z) (updated : option Frame)
| CsClose
| CsClientDone.
(** [Send] with its first try, that does not wait. *)
Definition ControlSync_Send (frame : Frame) (success : bool) (s : ControlSync) : ControlSync :=
  let i := u64 (syncCount s + 1) in
  let s := mkControlSync (cs_closed s) (cs_clientDone s) i (cs_syncs s) (cs_sent s) (cs_retried s) (cs_acked s) (cs_returned s) in
  if success then add_sent i frame (set_sync i (mkSync frame (ScPending frame) false) s)
  else set_sync i (mkSync frame (ScLoop frame) false) s.
(** A turn of [controlSync] under the lock; at its end it calls [handleCancel]. *)
Definition controlSync_try (i : Z) (y : Sync) (frame : Frame) (result : try_result) (s : ControlSync) : ControlSync :=
  if handle_done s y || negb (i =? syncCount s)%Z then
    add_returned i frame (set_sync i (mkSync (sy_frame y) ScEnded true) s)
  else match result with
       | TrySent => add_retried i (add_sent i frame (set_sync i (mkSync (sy_frame y) (ScPending frame) true) s))
       | TryError => set_sync i (mkSync (sy_frame y) (ScFailed frame true) (sy_cancelled y)) s
       | TryNot => set_sync i (mkSync (sy_frame y) (ScFailed frame false) (sy_cancelled y)) s
       end.
(** The rest of a turn; [updated] is another frame from [updateFrame]. *)
Definition controlSync_after (i : Z) (y : Sync) (frame : Frame) (err : bool) (updated : option Frame)
    (s : ControlSync) : ControlSync :=
  if err && (handle_done s y || cs_clientDone s) then
    add_returned i (sy_frame y) (set_sync i (mkSync (sy_frame y) ScEnded true) s)
  else match updated with
       | Some f => add_returned i frame (set_sync i (mkSync (sy_frame y) (ScLoop f) (sy_cancelled y)) s)
       | None => set_sync i (mkSync (sy_frame y) (ScLoop frame) (sy_cancelled y)) s
       end.
Definition cs_step (l : cs_label) (s : ControlSync) : option ControlSync :=
  match l with
  | CsSend frame success => Some (ControlSync_Send frame success s)
  | CsNotify i =>
      y ← cs_syncs s !! i;
      if (i =? syncCount s)%Z then None else Some (set_sync i (mkSync (sy_frame y) (sy_pc y) true) s)
  | CsAck i err =>
      y ← cs_syncs s !! i;
      match sy_pc y with
      | ScPending frame =>
          Some (if (err : bool) then set_sync i (mkSync (sy_frame y) (ScLoop frame) (sy_cancelled y)) s
                else add_returned i frame (add_acked i (set_sync i (mkSync (sy_frame y) ScAcked (sy_cancelled y)) s)))
      | _ => None
      end
  | CsTry i result =>
      y ← cs_syncs s !! i;
      match sy_pc y with ScLoop frame => Some (controlSync_try i y frame result s) | _ => None end
  | CsAfter i updated =>
      y ← cs_syncs s !! i;
      match sy_pc y with ScFailed frame err => Some (controlSync_after i y frame err updated s) | _ => None end
  | CsClose => Some (mkControlSync true (cs_clientDone s) (syncCount s) (cs_syncs s) (cs_sent s) (cs_retried s) (cs_acked s) (cs_returned s))
  | CsClientDone => Some (mkControlSync (cs_closed s) true (syncCount s) (cs_syncs s) (cs_sent s) (cs_retried s) (cs_acked s) (cs_returned s))
  end.
Fixpoint cs_steps (ls : list cs_label) (s : ControlSync) : option ControlSync :=
  match ls with [] => Some s | l :: ls => s ← cs_step l s; cs_steps ls s end.

(** ** What holds in every history *)
Definition sent_count (i : Z) (s : ControlSync) : nat := length (List.filter (Z.eqb i) (map fst (cs_sent s))).
Definition is_acked (p : sync_pc) : bool := match p with ScAcked => true | _ => false end.
(** Why a message can be given up, or its context end. *)
Definition give_up_cause (s : ControlSync) (i : Z) : Prop :=
  cs_closed s = true ∨ cs_clientDone s = true ∨ i ≠ syncCount s ∨ i ∈ cs_retried s.
Definition is_ended (p : sync_pc) : bool := match p with ScEnded => true | _ => false end.
Definition has_sent (p : sync_pc) : bool := match p with ScPending _ | ScAcked => true | _ => false end.
Record cs_inv (n : Z) (s : ControlSync) : Prop := {
  ci_count : (0 ≤ syncCount s ≤ n)%Z;
  ci_syncs i : is_Some (cs_syncs s !! i) ↔ (1 ≤ i ≤ syncCount s)%Z;
  ci_sorted : StronglySorted Z.le (map fst (cs_sent s));
  ci_bound i : i ∈ map fst (cs_sent s) → (1 ≤ i ≤ syncCount s)%Z;
  ci_acked i : i ∈ cs_acked s ↔ ∃ y, cs_syncs s !! i = Some y ∧ is_acked (sy_pc y) = true;
  ci_once : NoDup (cs_acked s);
  ci_sent i y : cs_syncs s !! i = Some y → has_sent (sy_pc y) = true → i ∈ map fst (cs_sent s);
  ci_tries i y : cs_syncs s !! i = Some y → sent_count i s ≤ if sy_cancelled y then 2 else 1;
  ci_retried i : i ∈ cs_retried s → i ∈ map fst (cs_sent s);
  ci_cause i y : cs_syncs s !! i = Some y → sy_cancelled y || is_ended (sy_pc y) = true → give_up_cause s i
}.
Lemma new_cs_inv : cs_inv 0 NewControlSync.
Proof.
  split; simpl; try (by constructor); try (intros *; by rewrite lookup_empty).
  - intros i. rewrite lookup_empty. split; [by intros [? ?]|lia].
  - intros i. set_solver.
  - intros i. split; [set_solver|]. intros (y & Hy & _). by rewrite lookup_empty in Hy.
  - done.
Qed.
Lemma cs_inv_mono n m s : (n ≤ m)%Z → cs_inv n s → cs_inv m s.
Proof. intros H []. split; try done. lia. Qed.
Lemma insert_known {A} (m : gmap Z A) i x x' j : m !! i = Some x → is_Some (<[i := x']> m !! j) ↔ is_Some (m !! j).
Proof.
  intros Hx. destruct (decide (i = j)) as [->|]; [|by rewrite lookup_insert_ne]. rewrite lookup_insert_eq, Hx. by split; eexists.
Qed.
(** Another state of a sync that is not acked. *)
Lemma set_sync_inv n i y y' s :
  cs_inv n s → cs_syncs s !! i = Some y → is_acked (sy_pc y) = false → is_acked (sy_pc y') = false →
  (has_sent (sy_pc y') = true → has_sent (sy_pc y) = true) → (sy_cancelled y = true → sy_cancelled y' = true) →
  (sy_cancelled y' || is_ended (sy_pc y') = true → sy_cancelled y || is_ended (sy_pc y) = true ∨ give_up_cause s i) →
  cs_inv n (set_sync i y' s).
Proof.
  intros [C S So B A O E T R K] Hy Ha Ha' Hs Hc He. split; try done; simpl.
  - intros j. by rewrite (insert_known _ _ _ _ _ Hy).
  - intros j. rewrite A. destruct (decide (i = j)) as [->|].
    + rewrite lookup_insert_eq. split; [intros (z & Hz & Hza)|intros (z & [= <-] & Hza)]; congruence.
    + by rewrite lookup_insert_ne.
  - intros j z [[<- <-]|[_ Hz]]%lookup_insert_Some; [|by apply E]. intros Hh. by apply (E i y); auto.
  - intros j z [[<- <-]|[_ Hz]]%lookup_insert_Some; [|by apply T]. specialize (T i y Hy). unfold sent_count in *. simpl.
    destruct (sy_cancelled y); [by rewrite Hc|]. destruct (sy_cancelled y'); lia.
  - intros j z [[<- <-]|[_ Hz]]%lookup_insert_Some Hd; [|by apply (K j z)].
    destruct (He Hd) as [Hd'|?]; [by apply (K i y)|done].
Qed.
Lemma add_returned_inv n i f s : cs_inv n s → cs_inv n (add_returned i f s).
Proof. intros []. by split. Qed.
Lemma count_app i j f s : length (List.filter (Z.eqb i) (map fst (cs_sent s ++ [(j, f)]))) =
  sent_count i s + (if (i =? j)%Z then 1 else 0).
Proof. unfold sent_count. rewrite map_app, List.filter_app, length_app. simpl. by destruct (i =? j)%Z. Qed.
Lemma sorted_snoc l (i : Z) : StronglySorted Z.le l → (∀ j, j ∈ l → (j ≤ i)%Z) → StronglySorted Z.le (l ++ [i]).
Proof.
  induction 1 as [|a l Hl IH Ha]; intros Hi; simpl; [repeat constructor|]. constructor.
  - apply IH. intros j Hj. apply Hi. by apply list_elem_of_further.
  - apply Forall_app. split; [done|]. constructor; [|constructor]. apply Hi, list_elem_of_here.
Qed.
Lemma send_inv n frame success s :
  cs_inv n s → (n + 1 < 2 ^ 64)%Z → cs_inv (n + 1) (ControlSync_Send frame success s).
Proof.
  intros [C S So B A O E T R K] Hn.
  assert (u64 (syncCount s + 1) = syncCount s + 1)%Z as Ei by (unfold u64; apply Z.mod_small; lia).
  assert (cs_syncs s !! (syncCount s + 1)%Z = None) as Hnew.
  { apply eq_None_not_Some. rewrite S. lia. }
  assert (∀ i, i ∈ map fst (cs_sent s) → i ≠ syncCount s + 1)%Z as Hns by (intros i ?%B; lia).
  assert (sent_count (syncCount s + 1) s = 0) as Hz.
  { unfold sent_count. destruct (List.filter _ _) as [|j l] eqn:Ef; [done|].
    assert (List.In j (List.filter (Z.eqb (syncCount s + 1)) (map fst (cs_sent s)))) as Hj by (rewrite Ef; by left).
    apply List.filter_In in Hj as [Hj Hj2]. apply Z.eqb_eq in Hj2. apply list_elem_of_In in Hj. specialize (Hns j Hj). lia. }
  assert (∀ i y, cs_syncs s !! i = Some y → i ≠ syncCount s + 1)%Z as Hold by (intros i y Hy ->; congruence).
  assert (∀ i s', is_Some (cs_syncs s !! i) → give_up_cause s i → cs_closed s' = cs_closed s → cs_clientDone s' = cs_clientDone s →
    syncCount s' = (syncCount s + 1)%Z → cs_retried s' = cs_retried s → give_up_cause s' i) as Hcause.
  { intros i s' Hi%S. unfold give_up_cause. intros [?|[?|[?|?]]] E1 E2 E3 E4; rewrite E1, E2, E3, E4; auto. right. right. left. lia. }
  unfold ControlSync_Send. rewrite Ei. destruct success; split; simpl; rewrite ?map_app; simpl; try done; try lia.
  - intros i. rewrite lookup_insert_is_Some, S. destruct (decide ((syncCount s + 1)%Z = i)); lia.
  - apply sorted_snoc; [done|]. intros j ?%B. lia.
  - intros i [Hi%B| ->%list_elem_of_singleton]%elem_of_app; lia.
  - intros i. rewrite A. split; intros (y & Hy & Hya).
    + exists y. by rewrite lookup_insert_ne by (apply not_eq_sym, (Hold i y Hy)).
    + apply lookup_insert_Some in Hy as [[_ <-]|[_ Hy]]; [done|by exists y].
  - intros i y [[<- <-]|[_ Hy]]%lookup_insert_Some Hh; [set_solver|]. apply elem_of_app. left. by apply (E i y).
  - intros i y. unfold sent_count in *. simpl. rewrite count_app. intros [[<- <-]|[Hi Hy]]%lookup_insert_Some.
    + rewrite Z.eqb_refl. unfold sent_count. rewrite Hz. done.
    + destruct (Z.eqb_spec i (syncCount s + 1)); [lia|]. rewrite Nat.add_0_r. by apply (T i y).
  - intros i Hi%R. apply elem_of_app. by left.
  - intros i y [[<- <-]|[Hi Hy]]%lookup_insert_Some Hd; [done|]. apply Hcause; [by eexists|by apply (K i y)|done..].
  - intros i. rewrite lookup_insert_is_Some, S. destruct (decide ((syncCount s + 1)%Z = i)); lia.
  - intros i Hi%B. lia.
  - intros i. rewrite A. split; intros (y & Hy & Hya).
    + exists y. by rewrite lookup_insert_ne by (apply not_eq_sym, (Hold i y Hy)).
    + apply lookup_insert_Some in Hy as [[_ <-]|[_ Hy]]; [done|by exists y].
  - intros i y [[<- <-]|[_ Hy]]%lookup_insert_Some Hh; [done|by apply (E i y)].
  - intros i y [[<- <-]|[Hi Hy]]%lookup_insert_Some; [|by apply (T i y)]. unfold sent_count in *. simpl in *. lia.
  - intros i y [[<- <-]|[Hi Hy]]%lookup_insert_Some Hd; [done|]. apply Hcause; [by eexists|by apply (K i y)|done..].
Qed.
(** A retry that the client took. *)
Lemma retry_inv n y frame s :
  cs_inv n s → cs_syncs s !! syncCount s = Some y → sy_pc y = ScLoop frame → handle_done s y = false →
  cs_inv n (add_retried (syncCount s)
    (add_sent (syncCount s) frame (set_sync (syncCount s) (mkSync (sy_frame y) (ScPending frame) true) s))).
Proof.
  intros [C S So B A O E T R K] Hy Hp Hd.
  assert (1 ≤ syncCount s)%Z as H1 by (apply (S (syncCount s)); by eexists).
  split; simpl; rewrite ?map_app; simpl; try done; try lia.
  - intros j. by rewrite (insert_known _ _ _ _ _ Hy).
  - apply sorted_snoc; [done|]. intros j ?%B. lia.
  - intros i [Hi%B| ->%list_elem_of_singleton]%elem_of_app; lia.
  - intros j. rewrite A. destruct (decide (syncCount s = j)) as [<-|].
    + rewrite lookup_insert_eq. split; [intros (z & Hz & Hza)|by intros (z & [= <-] & Hza)].
      assert (z = y) as -> by congruence. by rewrite Hp in Hza.
    + by rewrite lookup_insert_ne.
  - intros i z [[<- <-]|[_ Hz]]%lookup_insert_Some Hh; [set_solver|]. apply elem_of_app. left. by apply (E i z).
  - intros i z. unfold sent_count. simpl. rewrite count_app. intros [[<- <-]|[Hi Hz]]%lookup_insert_Some.
    + rewrite Z.eqb_refl. specialize (T _ _ Hy). apply orb_false_iff in Hd as [_ Hd]. rewrite Hd in T. simpl. lia.
    + destruct (Z.eqb_spec i (syncCount s)); [congruence|]. rewrite Nat.add_0_r. by apply (T i z).
  - intros i [Hi%R| ->%list_elem_of_singleton]%elem_of_app; set_solver.
  - intros i z [[<- <-]|[_ Hz]]%lookup_insert_Some Hc; unfold give_up_cause; simpl; [set_solver|].
    destruct (K i z Hz Hc) as [?|[?|[?|?]]]; [auto..|]. right. right. right. apply elem_of_app. by left.
Qed.
(** An ack. *)
Lemma ack_inv n i y frame s :
  cs_inv n s → cs_syncs s !! i = Some y → sy_pc y = ScPending frame →
  cs_inv n (add_acked i (set_sync i (mkSync (sy_frame y) ScAcked (sy_cancelled y)) s)).
Proof.
  intros [C S So B A O E T R K] Hy Hp. split; try done; simpl.
  - intros j. by rewrite (insert_known _ _ _ _ _ Hy).
  - intros j. rewrite elem_of_app, A, list_elem_of_singleton. destruct (decide (i = j)) as [<-|].
    + rewrite lookup_insert_eq. split; [intros _; by eexists|by right].
    + rewrite lookup_insert_ne by done. naive_solver.
  - apply NoDup_app. split_and!; [done| |apply NoDup_singleton]. intros j Hj ->%list_elem_of_singleton.
    apply A in Hj as (z & Hz & Hza). assert (z = y) as -> by congruence. by rewrite Hp in Hza.
  - intros j z [[<- <-]|[_ Hz]]%lookup_insert_Some Hh; [|by apply (E j z)]. apply (E i y Hy). by rewrite Hp.
  - intros j z [[<- <-]|[_ Hz]]%lookup_insert_Some; [|by apply (T j z)]. by apply (T i y).
  - intros j z [[<- <-]|[_ Hz]]%lookup_insert_Some Hd; [|by apply (K j z)]. simpl in Hd. rewrite orb_false_r in Hd. apply (K i y Hy). by rewrite Hd.
Qed.
Lemma cs_step_inv n l s s' : cs_inv n s → (n + 1 < 2 ^ 64)%Z → cs_step l s = Some s' → cs_inv (n + 1) s'.
Proof.
  intros Hs Hn E. destruct l as [frame success|i|i err|i result|i updated| |]; simpl in E.
  { injection E as <-. by apply send_inv. }
  all: apply (cs_inv_mono n); [lia|].
  - destruct (cs_syncs s !! i) as [y|] eqn:Hy; simpl in E; [|done].
    destruct (Z.eqb_spec i (syncCount s)) as [|Hi]; [done|]. injection E as <-. destruct Hs as [C S So B A O E T R K].
    split; try done; simpl.
    + intros j. by rewrite (insert_known _ _ _ _ _ Hy).
    + intros j. rewrite A. destruct (decide (i = j)) as [->|]; [rewrite lookup_insert_eq|by rewrite lookup_insert_ne].
      split; [intros (z & Hz & Hza)|intros (z & [= <-] & Hza)]; (eexists; split; [done|]); [|done]. simpl. congruence.
    + intros j z [[<- <-]|[_ Hz]]%lookup_insert_Some; [by apply (E i y)|by apply E].
    + intros j z [[<- <-]|[_ Hz]]%lookup_insert_Some; [|by apply (T j z)]. specialize (T i y Hy). simpl. unfold sent_count in *.
      simpl. destruct (sy_cancelled y); lia.
    + intros j z [[<- _]|[_ Hz]]%lookup_insert_Some Hd; [|by apply (K j z)]. right. right. by left.
  - destruct (cs_syncs s !! i) as [y|] eqn:Hy; simpl in E; [|done]. destruct (sy_pc y) eqn:Hp; try done.
    injection E as <-. destruct err.
    + apply (set_sync_inv n i y); rewrite ?Hp; try done. by left.
    + by apply add_returned_inv, (ack_inv n i y frame).
  - destruct (cs_syncs s !! i) as [y|] eqn:Hy; simpl in E; [|done]. destruct (sy_pc y) eqn:Hp; try done.
    injection E as <-. unfold controlSync_try.
    pose proof (ci_cause _ _ Hs i y Hy) as Hk. destruct (handle_done s y || _) eqn:Ed.
    + apply add_returned_inv, (set_sync_inv n i y); rewrite ?Hp; try done. intros _. unfold give_up_cause, handle_done in *.
      rewrite Hp in Hk. simpl in Hk. rewrite orb_false_r in Hk. destruct (cs_closed s); [by right; left|]. destruct (sy_cancelled y); [by left|].
      right. right. right. left. by apply negb_true_iff, Z.eqb_neq in Ed.
    + apply orb_false_iff in Ed as [Ed Ei]. apply negb_false_iff, Z.eqb_eq in Ei. subst i.
      destruct result; [by apply retry_inv|..]; apply (set_sync_inv n _ y); rewrite ?Hp; try done; simpl; by left.
  - destruct (cs_syncs s !! i) as [y|] eqn:Hy; simpl in E; [|done]. destruct (sy_pc y) eqn:Hp; try done.
    injection E as <-. unfold controlSync_after. destruct (_ && _) eqn:Ed.
    + apply add_returned_inv, (set_sync_inv n i y); rewrite ?Hp; try done. intros _. apply andb_true_iff in Ed as [_ Ed].
      unfold give_up_cause, handle_done in *. destruct (cs_closed s); [by right; left|]. destruct (sy_cancelled y); [by left|].
      right. right. by left.
    + destruct updated; [apply add_returned_inv|]; apply (set_sync_inv n i y); rewrite ?Hp; try done; simpl; by left.
  - injection E as <-. destruct Hs as [C S So B A O E T R K]. split; try done. intros i y Hy Hd. by left.
  - injection E as <-. destruct Hs as [C S So B A O E T R K]. split; try done. intros i y Hy Hd. right. by left.
Qed.
Lemma cs_steps_inv ls n s s' :
  cs_inv n s → (n + Z.of_nat (length ls) < 2 ^ 64)%Z → cs_steps ls s = Some s' → cs_inv (n + Z.of_nat (length ls)) s'.
Proof.
  revert n s. induction ls as [|l ls IH]; intros n s Hs Hn; simpl.
  { intros [= <-]. by rewrite Z.add_0_r. }
  destruct (cs_step l s) as [s1|] eqn:E; simpl; [|done]. simpl in Hn. intros E2.
  replace (n + Z.of_nat (S (length ls)))%Z with (n + 1 + Z.of_nat (length ls))%Z by lia.
  apply (IH (n + 1)%Z s1); [|lia|done]. apply (cs_step_inv n l s); [done|lia|done].
Qed.

(** C24. Control messages of a scope stay in order, in every interleaving of
    sends, acks, retries and ends of up to 2^64 steps: the client takes them in
    the order of their sends, a retry never after a newer message; a message
    that was replaced is given up at its next try, whatever the client would
    return; and an ack callback is called at most once, and only for a message
    that the client took. A message is given up only when the sync is closed,
    the client is done, a newer message came, or a retry of it was taken by the
    client (after which a failed ack is not retried again, since the goroutine
    that retries ends the context of the message when it returns). The latest
    message, as long as none of these holds, is retried: a failed ack leads to a
    try, a try that failed to another one, and a try of it hands it over. *)
Theorem control_sync_order (ls : list cs_label) (s : ControlSync) :
  (Z.of_nat (length ls) < 2 ^ 64)%Z → cs_steps ls NewControlSync = Some s →
  StronglySorted Z.le (map fst (cs_sent s)) ∧
  (∀ i y frame result, cs_syncs s !! i = Some y → i ≠ syncCount s → sy_pc y = ScLoop frame →
    ∃ s' y', cs_step (CsTry i result) s = Some s' ∧ cs_sent s' = cs_sent s ∧ cs_syncs s' !! i = Some y' ∧ sy_pc y' = ScEnded) ∧
  NoDup (cs_acked s) ∧ (∀ i, i ∈ cs_acked s → i ∈ map fst (cs_sent s)) ∧
  (∀ i y, cs_syncs s !! i = Some y → sy_pc y = ScEnded →
    cs_closed s = true ∨ cs_clientDone s = true ∨ i ≠ syncCount s ∨ i ∈ cs_retried s) ∧
  (∀ y, cs_syncs s !! syncCount s = Some y →
    cs_closed s = false → cs_clientDone s = false → syncCount s ∉ cs_retried s →
    let at_ (s' : option ControlSync) frame := ∃ s1 y1, s' = Some s1 ∧ cs_syncs s1 !! syncCount s = Some y1 ∧ sy_pc y1 = ScLoop frame in
    match sy_pc y with
    | ScPending frame => at_ (cs_step (CsAck (syncCount s) true) s) frame
    | ScLoop frame => ∃ s1, cs_step (CsTry (syncCount s) TrySent) s = Some s1 ∧
        cs_sent s1 = cs_sent s ++ [(syncCount s, frame_copy frame)]
    | ScFailed frame _ => ∀ updated, at_ (cs_step (CsAfter (syncCount s) updated) s) (default frame updated)
    | ScAcked => syncCount s ∈ cs_acked s
    | ScEnded => False
    end).
Proof.
  intros Hl E. pose proof (cs_steps_inv ls 0 _ s new_cs_inv Hl E) as [C S So B A O Es T R K].
  split_and!; [done| |done| | |].
  - intros i y frame result Hy Hi Hp. simpl. rewrite Hy. simpl. rewrite Hp. unfold controlSync_try.
    rewrite (proj2 (Z.eqb_neq _ _) Hi), orb_true_r. eexists _, _. split; [done|]. split; [done|].
    split; [apply lookup_insert_eq|done].
  - intros i (y & Hy & Ha)%A. apply (Es i y Hy). by destruct (sy_pc y).
  - intros i y Hy Hp. apply (K i y Hy). by rewrite Hp, orb_true_r.
  - intros y Hy Hcl Hcd Hr at_.
    assert (sy_cancelled y || is_ended (sy_pc y) = false) as Hk.
    { destruct (_ || _) eqn:Hd; [|done]. destruct (K _ _ Hy Hd) as [?|[?|[?|?]]]; congruence. }
    apply orb_false_iff in Hk as [Hk Hk'].
    destruct (sy_pc y) as [frame|frame|frame err| |] eqn:Hp; [..|done]; [| | |apply A; exists y; by rewrite Hp]; simpl; rewrite Hy; simpl; rewrite ?Hp.
    + eexists _, _. split; [done|]. split; [apply lookup_insert_eq|done].
    + unfold controlSync_try, handle_done. rewrite Hcl, Hk, Z.eqb_refl. by eexists.
    + intros updated. unfold controlSync_after, handle_done. rewrite Hcl, Hcd, Hk, andb_false_r.
      destruct updated; (eexists _, _; split; [done|]; split; [apply lookup_insert_eq|done]).
Qed.

(** A message is handed to the client at most twice: the goroutine that sends it
    again ends its context, and when the ack fails once more it is given up. *)
Theorem control_sync_two_tries (ls : list cs_label) (s : ControlSync) (i : Z) :
  (Z.of_nat (length ls) < 2 ^ 64)%Z → cs_steps ls NewControlSync = Some s → sent_count i s ≤ 2.
Proof.
  intros Hl E. pose proof (cs_steps_inv ls 0 _ s new_cs_inv Hl E) as [C S So B A O Es T R K].
  destruct (cs_syncs s !! i) as [y|] eqn:Hy; [specialize (T i y Hy); destruct (sy_cancelled y); lia|].
  unfold sent_count. destruct (List.filter _ _) as [|j l] eqn:Ef; [simpl; lia|].
  assert (List.In j (List.filter (Z.eqb i) (map fst (cs_sent s)))) as Hj by (rewrite Ef; by left).
  apply List.filter_In in Hj as [Hj Hj2]. apply Z.eqb_eq in Hj2. subst j. apply list_elem_of_In, B, S in Hj as [y Hy'].
  congruence.
Qed.

(** ** Histories *)
Module ControlSyncExample.
Definition ex_frame (n : Z) : Frame := mkFrame n [byte_of n] false.
(** The first message is taken and its ack fails; a second message comes; the
    first is given up and the second acked. *)
Definition ex_replaced : list cs_label :=
  [CsSend (ex_frame 3) true; CsAck 1 true; CsSend (ex_frame 4) true; CsNotify 1; CsTry 1 TrySent; CsAck 2 false].
Definition ex_replaced_end : ControlSync := default NewControlSync (cs_steps ex_replaced NewControlSync).
Lemma ex_replaced_runs : cs_steps ex_replaced NewControlSync = Some ex_replaced_end.
Proof. by vm_compute. Qed.
Lemma control_sync_order_witness :
  cs_sent ex_replaced_end = [(1%Z, ex_frame 3); (2%Z, ex_frame 4)] ∧ cs_acked ex_replaced_end = [2%Z] ∧
  StronglySorted Z.le (map fst (cs_sent ex_replaced_end)).
Proof.
  split; [by vm_compute|]. split; [by vm_compute|].
  exact (proj1 (control_sync_order ex_replaced ex_replaced_end ltac:(done) ex_replaced_runs)).
Defined.
(** The latest message is taken again after its ack failed; when the ack fails
    once more, the message is given up although nothing is closed. *)
Definition ex_lost : list cs_label :=
  [CsSend (ex_frame 3) true; CsAck 1 true; CsTry 1 TrySent; CsAck 1 true; CsTry 1 TrySent].
Definition ex_lost_end : ControlSync := default NewControlSync (cs_steps ex_lost NewControlSync).
Lemma ex_lost_runs : cs_steps ex_lost NewControlSync = Some ex_lost_end.
Proof. by vm_compute. Qed.
Lemma control_sync_two_tries_witness :
  sent_count 1 ex_lost_end ≤ 2 ∧ sent_count 1 ex_lost_end = 2 ∧ cs_closed ex_lost_end = false ∧ syncCount ex_lost_end = 1%Z ∧
  (sy_pc <$> cs_syncs ex_lost_end !! 1%Z) = Some ScEnded.
Proof.
  split; [exact (control_sync_two_tries ex_lost ex_lost_end 1 ltac:(done) ex_lost_runs)|]. by vm_compute.
Defined.
(** The message is given another frame, then the client is done: the first frame
    is given back to the pool twice, the other one never. *)
Example wrong_frame_returned :
  (cs_returned <$> cs_steps [CsSend (ex_frame 3) false; CsTry 1 TryNot; CsAfter 1 (Some (ex_frame 4));
                             CsTry 1 TryError; CsClientDone; CsAfter 1 None] NewControlSync) =
  Some [(1%Z, ex_frame 3); (1%Z, ex_frame 3)].
Proof. by vm_compute. Qed.
End ControlSyncExample.
