(* ===== verification/Wire.v ===== *)
(** * The transfer frames: protocol/transfer.proto

    The messages that go over a route, as records, and the protobuf codec, which
    is third party code: a class of functions, with the law that what was
    marshalled unmarshals to the same message. *)

From S2P Require Import Prelude Ids Contracts.
Open Scope go_scope.

Record Pack := mkPack {
  Pack_MessageId : list byte;
  Pack_SequenceId : list byte;
  Pack_SequenceNumber : Z;
  Head : bool;
  Frames : list Frame;
  Nack : bool;
  ContractFrame : option Frame;
  Pack_Tag : option Z;
  Pack_ContractId : option (list byte)
}.
Record ProtoAck := mkProtoAck {
  pa_MessageId : list byte;
  pa_SequenceId : list byte;
  pa_Selective : bool;
  pa_Tag : option Z
}.
Record TransferFrame := mkTransferFrame {
  tf_TransferPath : ProtoTransferPath;
  tf_Frame : option Frame;
  tf_MessageType : option Z;
  tf_Pack : option Pack;
  tf_Ack : option ProtoAck
}.
(** ** The codec

    [marshalled] bytes are read again as a whole frame, or as the
    [FilteredTransferFrame] that holds the path only. *)
Class TransferCodec := {
  marshalPack : Pack → list byte;
  unmarshalPack : list byte → outcome Pack;
  marshalTransferFrame : TransferFrame → list byte;
  unmarshalTransferFrame : list byte → outcome TransferFrame;
  unmarshalFiltered : list byte → outcome (option ProtoTransferPath);
  marshalAck : ProtoAck → list byte;
  unmarshalAck : list byte → outcome ProtoAck;
  marshalContract : Contract → list byte
}.
Class TransferCodecLaws (codec : TransferCodec) := {
  unmarshal_marshal_pack p : unmarshalPack (marshalPack p) = Val p;
  unmarshal_marshal_frame f : unmarshalTransferFrame (marshalTransferFrame f) = Val f;
  unmarshal_marshal_filtered f : unmarshalFiltered (marshalTransferFrame f) = Val (Some (tf_TransferPath f));
  unmarshal_marshal_ack a : unmarshalAck (marshalAck a) = Val a
}.

(** ** A codec that satisfies the laws *)
Module WireExample.
#[export] Instance Pack_eq_dec : EqDecision Pack.
Proof. solve_decision. Defined.
#[export] Program Instance Pack_countable : Countable Pack :=
  inj_countable'
    (λ p, (Pack_MessageId p, Pack_SequenceId p, Pack_SequenceNumber p, Head p, Frames p,
           (Nack p, ContractFrame p, Pack_Tag p, Pack_ContractId p)))
    (λ '(m, s, n, h, f, (k, c, t, i)), mkPack m s n h f k c t i) _.
Next Obligation. by intros []. Qed.
#[export] Instance ProtoTransferPath_eq_dec : EqDecision ProtoTransferPath.
Proof. solve_decision. Defined.
#[export] Program Instance ProtoTransferPath_countable : Countable ProtoTransferPath :=
  inj_countable' (λ p, (pSourceId p, pDestinationId p, pStreamId p))
    (λ '(s, d, t), mkProtoTransferPath s d t) _.
Next Obligation. by intros []. Qed.
#[export] Instance ProtoAck_eq_dec : EqDecision ProtoAck.
Proof. solve_decision. Defined.
#[export] Program Instance ProtoAck_countable : Countable ProtoAck :=
  inj_countable' (λ a, (pa_MessageId a, pa_SequenceId a, pa_Selective a, pa_Tag a))
    (λ '(m, s, e, t), mkProtoAck m s e t) _.
Next Obligation. by intros []. Qed.
#[export] Instance TransferFrame_eq_dec : EqDecision TransferFrame.
Proof. solve_decision. Defined.
#[export] Program Instance TransferFrame_countable : Countable TransferFrame :=
  inj_countable' (λ f, (tf_TransferPath f, tf_Frame f, tf_MessageType f, tf_Pack f, tf_Ack f))
    (λ '(p, f, m, k, a), mkTransferFrame p f m k a) _.
Next Obligation. by intros []. Qed.

Definition ex_codec : TransferCodec := {|
  marshalPack := encode_bytes;
  unmarshalPack := decode_bytes;
  marshalTransferFrame := encode_bytes;
  unmarshalTransferFrame := decode_bytes;
  unmarshalFiltered b := let! f := decode_bytes b in Val (Some (tf_TransferPath f));
  marshalAck := encode_bytes;
  unmarshalAck := decode_bytes;
  marshalContract := StoredContractBytes
|}.
#[export] Instance ex_codec_laws : TransferCodecLaws ex_codec.
Proof.
  split; intros; simpl; first [apply decode_encode_bytes | by rewrite decode_encode_bytes].
Qed.
End WireExample.
