(* ===== verification/ContractManager.v ===== *)
(** * The contract manager: transfer_contract_manager.go

    The provider keys and modes, the verification of contracts, the queues of
    contracts per contract key and the local statistics. Queues are shared
    pointers: [destinationContracts] maps a key to a pointer and [queues] is the
    store, because [TakeContract] keeps its pointer while others open, close and
    remove queues. Every method body between lock and unlock is one step. The
    messages that go to the platform are the outputs [cm_out]. *)

From S2P Require Import Prelude Ids Crypto Contracts.
Open Scope go_scope.

Record ContractKey := mkKey {
  Destination : TransferPath;
  IntermediaryIds : MultiHopId;
  CompanionContract : bool;
  ForceStream : bool
}.
#[export] Instance ContractKey_eq_dec : EqDecision ContractKey.
Proof. solve_decision. Defined.
#[export] Program Instance ContractKey_countable : Countable ContractKey :=
  inj_countable' (λ k, (Destination k, IntermediaryIds k, CompanionContract k, ForceStream k))
    (λ '(d, i, c, f), mkKey d i c f) _.
Next Obligation. by intros []. Qed.

Definition Legacy (self : ContractKey) : ContractKey :=
  mkKey (Destination self) MultiHopId_zero false false.

(** ** contractQueue *)
Record contractQueue := mkQueue {
  openCount : Z;
  contracts : gmap Id Contract;
  trackUsedContracts : bool;
  usedContractIds : gset Id
}.
Definition newContractQueue (track : bool) : contractQueue := mkQueue 0 ∅ track ∅.
Definition queue_Open (q : contractQueue) : contractQueue :=
  mkQueue (openCount q + 1) (contracts q) (trackUsedContracts q) (usedContractIds q).
Definition queue_Close (q : contractQueue) : contractQueue :=
  mkQueue (openCount q - 1) (contracts q) (trackUsedContracts q) (usedContractIds q).
(** [maps.Keys(contracts)[0]] is an arbitrary key: [choice] stands for the
    iteration order. *)
Definition queue_Poll (choice : nat) (q : contractQueue) : option (Id * Contract) * contractQueue :=
  let l := map_to_list (contracts q) in
  match l !! (choice `mod` length l) with
  | None => (None, q)
  | Some (contractId, contract) =>
      (Some (contractId, contract),
       mkQueue (openCount q) (delete contractId (contracts q)) (trackUsedContracts q)
         (usedContractIds q))
  end.
Definition queue_Add (contract : Contract) (stored : StoredContract) (q : contractQueue)
    : outcome contractQueue :=
  let! contractId := IdFromBytes (ContractId stored) in
  match contracts q !! contractId with
  | Some _ => Val (mkQueue (openCount q) (<[contractId := contract]> (contracts q))
                     (trackUsedContracts q) (usedContractIds q))
  | None =>
      if bool_decide (contractId ∉ usedContractIds q) then
        Val (mkQueue (openCount q) (<[contractId := contract]> (contracts q)) (trackUsedContracts q)
               (if trackUsedContracts q then {[contractId]} ∪ usedContractIds q
                else usedContractIds q))
      else Val q
  end.
Definition queue_RemoveUsedContract (contractId : Id) (q : contractQueue) : contractQueue :=
  mkQueue (openCount q) (contracts q) (trackUsedContracts q) (usedContractIds q ∖ {[contractId]}).
Definition queue_Flush (removeUsed : bool) (q : contractQueue) : list Contract * contractQueue :=
  (map snd (map_to_list (contracts q)),
   mkQueue (openCount q) ∅ (trackUsedContracts q) (if removeUsed then ∅ else usedContractIds q)).
Definition queue_IsDone (q : contractQueue) : bool :=
  if (0 <? openCount q)%Z then false
  else bool_decide (contracts q = ∅) && bool_decide (usedContractIds q = ∅).
Definition UsedContractIdBytes (q : contractQueue) : list (list byte) :=
  map Id_Bytes (elements (usedContractIds q)).

(** ** The manager *)
Record ContractManagerStats := mkStats {
  ContractOpenCount : Z;
  ContractCloseCount : Z;
  ContractOpenByteCounts : gmap Id Z;
  ContractOpenKeys : gmap Id ContractKey;
  ContractCloseByteCount : Z;
  ReceiveContractCloseByteCount : Z
}.
Definition NewContractManagerStats : ContractManagerStats := mkStats 0 0 ∅ ∅ 0 0.
Definition ContractOpenByteCount (s : ContractManagerStats) : Z :=
  foldl (λ net p, i64 (net + p.2)) 0%Z (map_to_list (ContractOpenByteCounts s)).

Record ContractManagerSettings := mkSettings {
  InitialContractTransferByteCount : Z;
  StandardContractTransferByteCount : Z;
  ContractTransferByteSeqScale : Z;
  NetworkEventTimeEnableContracts : time;
  LegacyCreateContract : bool;
  TrackUsedContracts : bool
}.
Definition ContractsEnabled (now : time) (s : ContractManagerSettings) : bool :=
  (NetworkEventTimeEnableContracts s <? now)%Z.

Record ContractManager := mkManager {
  cm_clientId : Id;
  settings : ContractManagerSettings;
  provideSecretKeys : gmap Z (list byte);
  provideModes : gmap Z bool;
  providePaused : bool;
  destinationContracts : gmap ContractKey positive;
  queues : gmap positive contractQueue;
  nextQueue : positive;
  receiveNoContractClientIds : gmap Id bool;
  sendNoContractClientIds : gmap Id bool;
  localStats : ContractManagerStats
}.
Definition set_keys (m : ContractManager) (keys : gmap Z (list byte)) (modes : gmap Z bool)
    (paused : bool) : ContractManager :=
  mkManager (cm_clientId m) (settings m) keys modes paused (destinationContracts m) (queues m)
    (nextQueue m) (receiveNoContractClientIds m) (sendNoContractClientIds m) (localStats m).
Definition set_queues (m : ContractManager) (dests : gmap ContractKey positive)
    (qs : gmap positive contractQueue) (next : positive) : ContractManager :=
  mkManager (cm_clientId m) (settings m) (provideSecretKeys m) (provideModes m) (providePaused m)
    dests qs next (receiveNoContractClientIds m) (sendNoContractClientIds m) (localStats m).
Definition set_peers (m : ContractManager) (r s : gmap Id bool) : ContractManager :=
  mkManager (cm_clientId m) (settings m) (provideSecretKeys m) (provideModes m) (providePaused m)
    (destinationContracts m) (queues m) (nextQueue m) r s (localStats m).
Definition set_stats (m : ContractManager) (st : ContractManagerStats) : ContractManager :=
  mkManager (cm_clientId m) (settings m) (provideSecretKeys m) (provideModes m) (providePaused m)
    (destinationContracts m) (queues m) (nextQueue m) (receiveNoContractClientIds m)
    (sendNoContractClientIds m) st.

Definition NewContractManager (clientId : Id) (s : ContractManagerSettings) : ContractManager :=
  let peers := <[clientId := true]> (<[ControlId := true]> ∅) in
  mkManager clientId s ∅ ∅ false ∅ ∅ 1 peers peers NewContractManagerStats.

(** What is sent to the platform or to the status callbacks. *)
Record CreateContract := mkCreate {
  Create_DestinationId : option (list byte);
  Create_TransferByteCount : Z;
  Companion : bool;
  UsedContractIds : list (list byte);
  Create_IntermediaryIds : list (list byte);
  Create_StreamId : option (list byte);
  Create_ForceStream : option bool
}.
Inductive cm_out :=
| OutCloseContract (contractId : Id) (acked unacked : Z) (checkpoint : bool)
| OutProvide (keys : list (Z * list byte))
| OutCreateContract (c : CreateContract)
| OutContractStatus (key : ContractKey) (error : option Z) (premium : bool).

(** *** Provide modes and keys *)
Definition mode_allowed (modes : gmap Z bool) (mode : Z) : bool := default false (modes !! mode).

(** The keys of [provideFrame]: every allowed mode that has a key; while paused
    only the stream mode. *)
Definition provideFrame (m : ContractManager) : list (Z * list byte) :=
  omap (λ p : Z * bool,
    if (p.2 && (negb (providePaused m) || (p.1 =? ProvideMode_Stream)%Z))%bool
    then pair p.1 <$> provideSecretKeys m !! p.1 else None)
    (map_to_list (provideModes m)).

Definition SetProvidePaused (paused : bool) (m : ContractManager)
    : bool * list cm_out * ContractManager :=
  if Bool.eqb (providePaused m) paused then (false, [], m)
  else let m := set_keys m (provideSecretKeys m) (provideModes m) paused in
       (true, [OutProvide (provideFrame m)], m).

(** [newKey mode] is what [rand.Read] fills a new key with. *)
Definition add_keys (newKey : Z → list byte) (modes : list (Z * bool))
    (keys : gmap Z (list byte)) : gmap Z (list byte) :=
  foldl (λ keys p, if (p : Z * bool).2
                   then match keys !! p.1 with
                        | Some _ => keys
                        | None => <[p.1 := newKey p.1]> keys
                        end
                   else keys) keys modes.
Definition SetProvideModes (newKey : Z → list byte) (modes : gmap Z bool) (m : ContractManager)
    : list cm_out * ContractManager :=
  let m := set_keys m (add_keys newKey (map_to_list modes) (provideSecretKeys m)) modes
             (providePaused m) in
  ([OutProvide (provideFrame m)], m).
Definition SetProvideModesWithReturnTraffic (newKey : Z → list byte) (modes : gmap Z bool)
    (m : ContractManager) : list cm_out * ContractManager :=
  SetProvideModes newKey (<[ProvideMode_Stream := true]> modes) m.
Definition LoadProvideSecretKeys (keys : gmap Z (list byte)) (m : ContractManager) : ContractManager :=
  set_keys m (keys ∪ provideSecretKeys m) (provideModes m) (providePaused m).
Definition InitProvideSecretKeys (newKey : Z → list byte) (m : ContractManager) : ContractManager :=
  set_keys m (add_keys newKey (map (λ i, (i, true)) [0; 1; 2; 3; 4; 5]%Z) (provideSecretKeys m))
    (provideModes m) (providePaused m).
Definition GetProvideSecretKey (mode : Z) (m : ContractManager) : option (list byte) :=
  if negb (mode_allowed (provideModes m) mode) then None else provideSecretKeys m !! mode.
Definition RequireProvideSecretKey (mode : Z) (m : ContractManager) : outcome (list byte) :=
  match GetProvideSecretKey mode m with
  | Some k => Val k
  | None => Panic "Missing provide secret"
  end.

Definition Verify (storedContractHmac storedContractBytes : list byte) (mode : Z)
    (m : ContractManager) : bool :=
  if (providePaused m && negb (mode =? ProvideMode_Stream)%Z)%bool then false
  else if negb (mode_allowed (provideModes m) mode) then false
  else match provideSecretKeys m !! mode with
       | None => false
       | Some key => hmac_Equal storedContractHmac (mac_Sum key [] storedContractBytes)
       end.

(** *** Peers without contracts *)
Definition AddNoContractPeer (clientId : Id) (m : ContractManager) : ContractManager :=
  set_peers m (<[clientId := true]> (receiveNoContractClientIds m))
    (<[clientId := true]> (sendNoContractClientIds m)).
Definition SendNoContract (now : time) (destinationId : Id) (m : ContractManager) : bool :=
  match sendNoContractClientIds m !! destinationId with
  | Some allow => allow
  | None => negb (ContractsEnabled now (settings m))
  end.
Definition ReceiveNoContract (now : time) (sourceId : Id) (m : ContractManager) : bool :=
  match receiveNoContractClientIds m !! sourceId with
  | Some allow => allow
  | None => negb (ContractsEnabled now (settings m))
  end.

(** *** Queues *)
Definition queue_key (m : ContractManager) (key : ContractKey) : ContractKey :=
  if LegacyCreateContract (settings m) then Legacy key else key.

Definition openContractQueue (key : ContractKey) (m : ContractManager) : positive * ContractManager :=
  let key := queue_key m key in
  match destinationContracts m !! key with
  | Some p =>
      (p, set_queues m (destinationContracts m) (alter queue_Open p (queues m)) (nextQueue m))
  | None =>
      let p := nextQueue m in
      (p, set_queues m (<[key := p]> (destinationContracts m))
            (<[p := queue_Open (newContractQueue (TrackUsedContracts (settings m)))]> (queues m))
            (p + 1))
  end.
Definition closeContractQueueWithForceRemove (key : ContractKey) (forceRemove : bool)
    (m : ContractManager) : ContractManager :=
  let key := queue_key m key in
  match destinationContracts m !! key with
  | None => m
  | Some p =>
      let qs := alter queue_Close p (queues m) in
      let done := match qs !! p with Some q => queue_IsDone q | None => false end in
      set_queues m (if (done || forceRemove)%bool then delete key (destinationContracts m)
                    else destinationContracts m) qs (nextQueue m)
  end.
Definition closeContractQueue (key : ContractKey) (m : ContractManager) : ContractManager :=
  closeContractQueueWithForceRemove key false m.

(** [TakeContract] in its steps: open, polls of the pointer it opened (one
    per turn of the loop), close. *)
Definition poll_queue (choice : nat) (p : positive) (m : ContractManager)
    : option (Id * Contract) * ContractManager :=
  match queues m !! p with
  | None => (None, m)
  | Some q => let (r, q) := queue_Poll choice q in
              (r, set_queues m (destinationContracts m) (<[p := q]> (queues m)) (nextQueue m))
  end.
(** With a zero timeout it is one poll. *)
Definition TakeContract (choice : nat) (key : ContractKey) (m : ContractManager)
    : option (Id * Contract) * ContractManager :=
  let (p, m) := openContractQueue key m in
  let (r, m) := poll_queue choice p m in
  (r, closeContractQueue key m).

(** *** Adding contracts *)
Section Messages.
Variable unmarshalStored : list byte → outcome StoredContract.

Definition queue_add_at (p : positive) (contract : Contract) (stored : StoredContract)
    (m : ContractManager) : ContractManager :=
  match queues m !! p with
  | Some q => match queue_Add contract stored q with
              | Val q => set_queues m (destinationContracts m) (<[p := q]> (queues m)) (nextQueue m)
              | _ => m
              end
  | None => m
  end.

Definition addContract (key : ContractKey) (contract : Contract) (m : ContractManager)
    : outcome ContractManager :=
  let! stored := unmarshalStored (StoredContractBytes contract) in
  let! path := TransferPathFromBytes (Stored_SourceId stored) (Stored_DestinationId stored)
                 (Stored_StreamId stored) in
  if (negb (IsStream path) && negb (bool_decide (SourceId_ path = cm_clientId m)))%bool
  then Err "Contract source must be this client" else
  let! contractId := IdFromBytes (ContractId stored) in
  let (p, m) := openContractQueue key m in
  let m := queue_add_at p contract stored m in
  let m := closeContractQueue key m in
  let st := localStats m in
  Val (set_stats m (mkStats (ContractOpenCount st + 1) (ContractCloseCount st)
         (<[contractId := i64 (TransferByteCount stored)]> (ContractOpenByteCounts st))
         (<[contractId := key]> (ContractOpenKeys st)) (ContractCloseByteCount st)
         (ReceiveContractCloseByteCount st))).

(** *** Control frames *)
Record CreateContractResult := mkResult {
  Result_Error : option Z;
  Result_Contract : option Contract;
  Result_CreateContract : option CreateContract
}.
Variable unmarshalResult : list byte → outcome CreateContractResult.

Definition result_key (v : CreateContractResult) : ContractKey :=
  match Result_CreateContract v with
  | None => mkKey (mkTransferPath Id_zero Id_zero Id_zero) MultiHopId_zero false false
  | Some c =>
      mkKey (mkTransferPath Id_zero Id_zero Id_zero)
        (match Create_IntermediaryIds c with
         | [] => MultiHopId_zero
         | l => match MultiHopIdFromBytes l with Val ids => ids | _ => MultiHopId_zero end
         end)
        (Companion c) (default false (Create_ForceStream c))
  end.
Definition with_destination (k : ContractKey) (d : TransferPath) : ContractKey :=
  mkKey d (IntermediaryIds k) (CompanionContract k) (ForceStream k).

(** [addResult]: at most one contract or one error. *)
Definition addResult (v : CreateContractResult) : list (ContractKey * Contract) * list (ContractKey * Z) :=
  let key := result_key v in
  match Result_Error v with
  | Some e =>
      match Result_CreateContract v with
      | Some c =>
          match TransferPathFromBytes None (Create_DestinationId c) (Create_StreamId c) with
          | Val d => ([], [(with_destination key d, e)])
          | _ => ([], [])
          end
      | None => ([], [(key, e)])
      end
  | None =>
      match Result_Contract v with
      | None => ([], [])
      | Some contract =>
          match unmarshalStored (StoredContractBytes contract) with
          | Val stored =>
              match TransferPathFromBytes None (Stored_DestinationId stored) (Stored_StreamId stored) with
              | Val d => ([(with_destination key d, contract)], [])
              | _ => ([], [])
              end
          | _ => ([], [])
          end
      end
  end.
Definition parseControlFrame (frame : Frame) : list (ContractKey * Contract) * list (ContractKey * Z) :=
  if (MessageType frame =? MessageType_TransferCreateContractResult)%Z then
    match unmarshalResult (MessageBytes frame) with Val r => addResult r | _ => ([], []) end
  else ([], []).

(** One contract of [Receive]: the status is reported only when the contract is
    added. *)
Definition receive_contract (acc : list cm_out * ContractManager) (kc : ContractKey * Contract)
    : list cm_out * ContractManager :=
  let (out, m) := acc in
  match addContract kc.1 kc.2 m with
  | Val m =>
      match unmarshalStored (StoredContractBytes kc.2) with
      | Val stored =>
          (out ++ [OutContractStatus kc.1 None
                     (match Priority stored with Some p => (0 <? p)%Z | None => false end)], m)
      | _ => (out, m)
      end
  | _ => (out, m)
  end.
Definition Receive (source : TransferPath) (frames : list Frame) (m : ContractManager)
    : list cm_out * ContractManager :=
  if IsControlSource source then
    let parsed := map parseControlFrame frames in
    let contracts : gmap ContractKey Contract :=
      foldl (λ acc p, list_to_map p.1 ∪ acc) ∅ parsed in
    let errors : gmap ContractKey Z := foldl (λ acc p, list_to_map p.2 ∪ acc) ∅ parsed in
    let (out, m) := foldl receive_contract ([], m) (map_to_list contracts) in
    (out ++ map (λ p, OutContractStatus p.1 (Some p.2) false) (map_to_list errors), m)
  else ([], m).

(** *** Creating and closing contracts *)
Definition contractByteCount (contractSeqIndex minByteCount : Z) (s : ContractManagerSettings) : Z :=
  let target :=
    if (ContractTransferByteSeqScale s <=? contractSeqIndex)%Z
    then StandardContractTransferByteCount s
    else i64 (InitialContractTransferByteCount s +
              i64 (u64 (contractSeqIndex * u64 (i64 (StandardContractTransferByteCount s
                                                    - InitialContractTransferByteCount s)))
                   `div` ContractTransferByteSeqScale s)) in
  Z.max target minByteCount.

Definition CreateContractMessage (key : ContractKey) (contractSeqIndex minByteCount : Z)
    (m : ContractManager) : list cm_out * ContractManager :=
  let (p, m) := openContractQueue key m in
  let used := if TrackUsedContracts (settings m)
              then match queues m !! p with Some q => UsedContractIdBytes q | None => [] end
              else [] in
  let msg := mkCreate (Some (Id_Bytes (DestinationId_ (Destination key))))
               (u64 (contractByteCount contractSeqIndex minByteCount (settings m)))
               (CompanionContract key) used (MultiHopId_Bytes (IntermediaryIds key))
               (Some (Id_Bytes (StreamId_ (Destination key)))) (Some (ForceStream key)) in
  ([OutCreateContract msg], closeContractQueue key m).

Definition CloseContractWithCheckpoint (contractId : Id) (acked unacked : Z) (checkpoint : bool)
    (m : ContractManager) : list cm_out * ContractManager :=
  let st := localStats m in
  let st := match ContractOpenByteCounts st !! contractId with
            | Some _ =>
                mkStats (ContractOpenCount st) (ContractCloseCount st + 1)
                  (delete contractId (ContractOpenByteCounts st))
                  (delete contractId (ContractOpenKeys st))
                  (i64 (ContractCloseByteCount st + acked)) (ReceiveContractCloseByteCount st)
            | None =>
                mkStats (ContractOpenCount st) (ContractCloseCount st) (ContractOpenByteCounts st)
                  (ContractOpenKeys st) (ContractCloseByteCount st)
                  (i64 (ReceiveContractCloseByteCount st + acked))
            end in
  ([OutCloseContract contractId acked unacked checkpoint], set_stats m st).
Definition CloseContract (contractId : Id) (acked unacked : Z) (m : ContractManager) :=
  CloseContractWithCheckpoint contractId acked unacked false m.
Definition CheckpointContract (contractId : Id) (acked unacked : Z) (m : ContractManager) :=
  CloseContractWithCheckpoint contractId acked unacked true m.
(** The callback of the close message when it succeeds and the contract was
    opened here, under its key. *)
Definition close_callback (key : ContractKey) (contractId : Id) (m : ContractManager)
    : ContractManager :=
  let (p, m) := openContractQueue key m in
  let m := set_queues m (destinationContracts m)
             (alter (queue_RemoveUsedContract contractId) p (queues m)) (nextQueue m) in
  closeContractQueue key m.

Definition close_one (acc : list Id * list cm_out * ContractManager) (contract : Contract)
    : list Id * list cm_out * ContractManager :=
  let '(ids, out, m) := acc in
  match unmarshalStored (StoredContractBytes contract) with
  | Val stored =>
      match IdFromBytes (ContractId stored) with
      | Val contractId =>
          let (o, m) := CloseContract contractId 0 0 m in (ids ++ [contractId], out ++ o, m)
      | _ => acc
      end
  | _ => acc
  end.
Definition closeContracts (cs : list Contract) (m : ContractManager)
    : list Id * list cm_out * ContractManager := foldl close_one ([], [], m) cs.

Definition Flush (resetUsed : bool) (m : ContractManager) : list Id * list cm_out * ContractManager :=
  let '(cs, qs) := foldl (λ acc (kp : ContractKey * positive),
      match acc.2 !! kp.2 with
      | Some q => let (c, q) := queue_Flush resetUsed q in (acc.1 ++ c, <[kp.2 := q]> acc.2)
      | None => acc
      end) ([], queues m) (map_to_list (destinationContracts m)) in
  closeContracts cs (set_queues m (destinationContracts m) qs (nextQueue m)).
Definition FlushContractQueue (key : ContractKey) (resetUsed : bool) (m : ContractManager)
    : list Id * list cm_out * ContractManager :=
  let (p, m) := openContractQueue key m in
  let '(cs, m) := match queues m !! p with
                  | Some q => let (c, q) := queue_Flush resetUsed q in
                              (c, set_queues m (destinationContracts m) (<[p := q]> (queues m)) (nextQueue m))
                  | None => ([], m)
                  end in
  let '(ids, out, m) := closeContracts cs m in
  (ids, out, closeContractQueueWithForceRemove key true m).
End Messages.

Definition LocalStats (m : ContractManager) : ContractManagerStats :=
  let st := localStats m in
  mkStats (ContractOpenCount st) (ContractCloseCount st) (ContractOpenByteCounts st) ∅
    (ContractCloseByteCount st) (ReceiveContractCloseByteCount st).
Definition ResetLocalStats (m : ContractManager) : ContractManager :=
  set_stats m NewContractManagerStats.

(** ** Verification *)

(** C35. What [Verify] accepts: while paused only the stream mode; otherwise a
    mode that is allowed and has a key; and then exactly the bytes followed by
    the HMAC of the {e empty} message under the key, because [mac.Sum(b)] appends
    the digest of what was written, which is nothing. So whoever has one
    verified contract of a mode can make [Verify] accept any contract bytes for
    that mode. *)
Theorem verify_characterization (m : ContractManager) (h b : list byte) (mode : Z) :
  (Verify h b mode m = true ↔
     (providePaused m = true → mode = ProvideMode_Stream) ∧
     mode_allowed (provideModes m) mode = true ∧
     ∃ key, provideSecretKeys m !! mode = Some key ∧ h = b ++ hmac_sha256 key []) ∧
  (∀ b', Verify h b mode m = true → Verify (b' ++ drop (length b) h) b' mode m = true).
Proof.
  assert (∀ h b, Verify h b mode m = true ↔
     (providePaused m = true → mode = ProvideMode_Stream) ∧
     mode_allowed (provideModes m) mode = true ∧
     ∃ key, provideSecretKeys m !! mode = Some key ∧ h = b ++ hmac_sha256 key []) as Hv.
  { clear. intros h b. unfold Verify, hmac_Equal, mac_Sum.
    destruct (providePaused m); simpl;
      [destruct (Z.eqb_spec mode ProvideMode_Stream) as [E|E]; simpl|].
    2: { split; [done|]. intros [H _]. by specialize (H eq_refl). }
    all: destruct (mode_allowed (provideModes m) mode); simpl; [|by split; [|intros (_ & ? & _)]].
    all: destruct (provideSecretKeys m !! mode) as [key|]; [|by split; [|intros (_ & _ & ? & ? & _)]].
    all: rewrite bool_decide_eq_true; split; [intros ->; split_and!; [done..|by exists key]|].
    all: by intros (_ & _ & ? & [= <-] & ?). }
  split; [apply Hv|]. intros b' (H1 & H2 & key & Hk & ->)%Hv. apply Hv.
  split_and!; [done..|]. exists key. split; [done|]. by rewrite drop_app_length.
Qed.

(** ** One queue *)
Inductive cq_op :=
| QAdd (contract : Contract) (stored : StoredContract)
| QPoll (choice : nat)
| QFlush.
(** The contract ids that an operation takes out. *)
Definition cq_step (op : cq_op) (q : contractQueue) : list Id * contractQueue :=
  match op with
  | QAdd c s => ([], match queue_Add c s q with Val q => q | _ => q end)
  | QPoll n => let (r, q) := queue_Poll n q in (match r with Some (i, _) => [i] | None => [] end, q)
  | QFlush => (map fst (map_to_list (contracts q)), (queue_Flush false q).2)
  end.
Fixpoint cq_run (ops : list cq_op) (q : contractQueue) : list Id * contractQueue :=
  match ops with
  | [] => ([], q)
  | op :: ops => let (o, q) := cq_step op q in let (os, q) := cq_run ops q in (o ++ os, q)
  end.
(** The valid ids that were added. *)
Definition added_id (op : cq_op) : gset Id :=
  match op with
  | QAdd _ s => match IdFromBytes (ContractId s) with Val i => {[i]} | _ => ∅ end
  | _ => ∅
  end.

Record cq_ok (added : gset Id) (taken : list Id) (q : contractQueue) : Prop := {
  co_track : trackUsedContracts q = true;
  co_used : usedContractIds q = added;
  co_taken : NoDup taken;
  co_disj i : i ∈ taken → contracts q !! i = None;
  co_all i : i ∈ added ↔ i ∈ taken ∨ is_Some (contracts q !! i)
}.
Lemma cq_step_ok added taken q op :
  cq_ok added taken q →
  let '(o, q') := cq_step op q in cq_ok (added ∪ added_id op) (taken ++ o) q'.
Proof.
  intros [Ht Hu Hn Hd Ha]. destruct op as [c s|n|]; simpl.
  - rewrite app_nil_r. unfold queue_Add.
    destruct (IdFromBytes (ContractId s)) as [i| |] eqn:Ei; simpl; [|by rewrite union_empty_r_L..].
    destruct (contracts q !! i) as [c0|] eqn:Ec.
    + assert (i ∈ added) as Hi by (apply Ha; rewrite Ec; eauto).
      replace (added ∪ {[i]}) with added by set_solver.
      split; simpl; try done.
      * intros j Hj. rewrite lookup_insert_ne; [by apply Hd|]. intros ->.
        rewrite (Hd j Hj) in Ec. done.
      * intros j. rewrite Ha, lookup_insert_is_Some'. destruct (decide (i = j)) as [->|]; [|naive_solver].
        split; [by auto|]. rewrite Ec. eauto.
    + case_bool_decide as Hin.
      * rewrite Ht. split; simpl; try done.
        -- rewrite Hu. set_solver.
        -- intros j Hj. rewrite lookup_insert_ne; [by apply Hd|]. intros ->.
           apply Hin. rewrite Hu. apply Ha. by left.
        -- intros j. rewrite elem_of_union, Ha, elem_of_singleton, lookup_insert_is_Some'. naive_solver.
      * assert (i ∈ added) as Hi by (rewrite <-Hu; destruct (decide (i ∈ usedContractIds q)); done).
        replace (added ∪ {[i]}) with added by set_solver. done.
  - rewrite union_empty_r_L. unfold queue_Poll.
    destruct (_ !! (n `mod` _)) as [[i c]|] eqn:El; simpl; [|by rewrite app_nil_r].
    apply list_elem_of_lookup_2, elem_of_map_to_list in El. split; simpl; try done.
    + apply NoDup_app. split_and!; [done| |by apply NoDup_singleton].
      intros j Hj ->%list_elem_of_singleton. by rewrite (Hd _ Hj) in El.
    + intros j [Hj| ->%list_elem_of_singleton]%elem_of_app; [|apply lookup_delete_eq].
      apply lookup_delete_None. auto.
    + intros j. rewrite Ha, elem_of_app, list_elem_of_singleton, lookup_delete_is_Some.
      destruct (decide (i = j)) as [->|]; [|naive_solver]. rewrite El. naive_solver eauto.
  - rewrite union_empty_r_L. split; simpl; try done.
    + apply NoDup_app. split_and!; [done| |apply NoDup_fst_map_to_list].
      intros j Hj [[j' c] [-> Hin]]%list_elem_of_fmap. apply elem_of_map_to_list in Hin.
      simpl in *. by rewrite (Hd _ Hj) in Hin.
    + intros j. rewrite Ha, elem_of_app, lookup_empty.
      assert (j ∈ map fst (map_to_list (contracts q)) ↔ is_Some (contracts q !! j)) as ->.
      { rewrite list_elem_of_fmap. split.
        - intros [[j' c] [-> Hin]]. apply elem_of_map_to_list in Hin. eauto.
        - intros [c Hc]. exists (j, c). split; [done|]. by apply elem_of_map_to_list. }
      split; [by auto|]. intros [H|[? ?]]; [done|done].
Qed.

(** A tracked contract queue hands out every contract id at most once and
    loses none: after any additions (repeats among them), polls with any
    choices and flushes that keep the used ids, the ids handed out have no
    duplicate, are not in the queue any more, and together with the ids still
    queued are exactly the valid ids that were added. *)
Theorem queue_hands_out_once (ops : list cq_op) :
  let '(taken, q) := cq_run ops (newContractQueue true) in
  NoDup taken ∧ (∀ i, i ∈ taken → contracts q !! i = None) ∧
  (∀ i, i ∈ ⋃ (map added_id ops) ↔ i ∈ taken ∨ is_Some (contracts q !! i)).
Proof.
  assert (∀ added taken q, cq_ok added taken q →
    let '(o, q') := cq_run ops q in cq_ok (added ∪ ⋃ (map added_id ops)) (taken ++ o) q') as H.
  { induction ops as [|op ops IH]; intros added taken q Hq; simpl.
    - by rewrite union_empty_r_L, app_nil_r.
    - pose proof (cq_step_ok _ _ _ op Hq) as H1. destruct (cq_step op q) as [o q1].
      specialize (IH _ _ _ H1). destruct (cq_run ops q1) as [os q2].
      by rewrite (assoc_L (∪)), (assoc_L (++)). }
  specialize (H ∅ [] (newContractQueue true)).
  destruct (cq_run ops (newContractQueue true)) as [taken q].
  destruct H as [_ _ Hn Hd Ha].
  - split; simpl; try done; [constructor|]. intros i. rewrite lookup_empty, !elem_of_nil.
    split; [set_solver|]. intros [[]|[]]; done.
  - simpl in *. split_and!; [done..|]. intros i. rewrite <-Ha. set_solver.
Qed.

(** ** Shared queue pointers

    [TakeContract], [addContract], [CreateContract] and the close callback each
    open a queue, work on the pointer they got, and close by key. The steps of
    any number of them interleave. *)
Inductive queue_work : contractQueue → contractQueue → Prop :=
| work_poll n q : queue_work q (queue_Poll n q).2
| work_add c s q q' : queue_Add c s q = Val q' → queue_work q q'
| work_remove_used i q : queue_work q (queue_RemoveUsedContract i q).

(** The open calls: the key and the pointer of each. *)
Inductive users_step : ContractManager * list (ContractKey * positive) →
    ContractManager * list (ContractKey * positive) → Prop :=
| us_open key m us p m' :
    openContractQueue key m = (p, m') → users_step (m, us) (m', (key, p) :: us)
| us_work key p q q' m us :
    (key, p) ∈ us → queues m !! p = Some q → queue_work q q' →
    users_step (m, us) (set_queues m (destinationContracts m) (<[p := q']> (queues m)) (nextQueue m), us)
| us_close key p m us us' :
    us ≡ₚ (key, p) :: us' → users_step (m, us) (closeContractQueue key m, us').

Definition users_of (m : ContractManager) (k : ContractKey) (us : list (ContractKey * positive)) : nat :=
  length (filter (λ u, queue_key m u.1 = k) us).

Record users_ok (s : ContractManager * list (ContractKey * positive)) : Prop := {
  uo_users key p : (key, p) ∈ s.2 → destinationContracts s.1 !! queue_key s.1 key = Some p;
  uo_dest k p : destinationContracts s.1 !! k = Some p →
    ∃ q, queues s.1 !! p = Some q ∧ openCount q = Z.of_nat (users_of s.1 k s.2);
  uo_next p q : queues s.1 !! p = Some q → (p < nextQueue s.1)%positive;
  uo_inj k k' p : destinationContracts s.1 !! k = Some p → destinationContracts s.1 !! k' = Some p → k = k';
  uo_lost p q : queues s.1 !! p = Some q → (∀ k, destinationContracts s.1 !! k ≠ Some p) →
    contracts q = ∅
}.

Lemma users_of_cons m k key p us :
  users_of m k ((key, p) :: us) = (if decide (queue_key m key = k) then 1 else 0) + users_of m k us.
Proof. unfold users_of. rewrite filter_cons. simpl. by case_decide. Qed.
Lemma users_of_perm m k us us' : us ≡ₚ us' → users_of m k us = users_of m k us'.
Proof. unfold users_of. by intros ->. Qed.
Lemma queue_work_open q q' : queue_work q q' → openCount q' = openCount q.
Proof.
  intros [n q0|c s q0 q1 H|i q0]; [|revert H|done].
  - unfold queue_Poll. by destruct (_ !! _) as [[? ?]|].
  - unfold queue_Add. destruct (IdFromBytes _); [|done..]. simpl.
    repeat case_match; intros; by simplify_eq.
Qed.
(** The parts of the manager that queue steps keep. *)
Lemma queue_key_set m d q n key : queue_key (set_queues m d q n) key = queue_key m key.
Proof. done. Qed.
Lemma users_of_set m d q n k us : users_of (set_queues m d q n) k us = users_of m k us.
Proof. done. Qed.

Lemma users_of_none m k us :
  (∀ key p, (key, p) ∈ us → queue_key m key ≠ k) → users_of m k us = 0.
Proof.
  induction us as [|[key p] us IH]; intros Hno; [done|]. rewrite users_of_cons.
  rewrite decide_False by (eapply Hno; by apply elem_of_cons; left).
  apply IH. intros key' p' Hin. eapply Hno. apply elem_of_cons. by right.
Qed.
Lemma users_of_zero m k us key p : users_of m k us = 0 → (key, p) ∈ us → queue_key m key ≠ k.
Proof.
  intros Hz Hin E. induction us as [|[key' p'] us IH]; [by apply elem_of_nil in Hin|].
  rewrite users_of_cons in Hz. apply elem_of_cons in Hin as [[= -> ->]|Hin].
  - rewrite decide_True in Hz by done. lia.
  - apply IH; [|done]. lia.
Qed.

Lemma users_open_old_ok m us key p :
  users_ok (m, us) → destinationContracts m !! queue_key m key = Some p →
  users_ok (set_queues m (destinationContracts m) (alter queue_Open p (queues m)) (nextQueue m),
            (key, p) :: us).
Proof.
  intros [Hu Hd Hn Hi Hl] Ek. simpl in *. destruct (Hd _ _ Ek) as (q & Hq & Hc). split; simpl; try done.
  - intros key' p' [[= -> ->]|Hin]%elem_of_cons; [done|by apply Hu].
  - intros k p' Hk. rewrite users_of_set, users_of_cons, lookup_alter.
    destruct (Hd _ _ Hk) as (q' & Hq' & Hc'). case_decide as E1; case_decide as E2; subst.
    + rewrite Hq. simpl. eexists. split; [done|]. simpl. lia.
    + destruct E2. by eapply Hi.
    + destruct E1. congruence.
    + by exists q'.
  - intros p' q'. rewrite lookup_alter. case_decide; subst; [|by apply Hn].
    intros _. by eapply Hn.
  - intros p' q'. rewrite lookup_alter. case_decide; subst; [|by apply Hl].
    intros _ Hno. by destruct (Hno _ Ek).
Qed.
Lemma users_open_new_ok m us key :
  users_ok (m, us) → destinationContracts m !! queue_key m key = None →
  let p := nextQueue m in
  users_ok (set_queues m (<[queue_key m key := p]> (destinationContracts m))
      (<[p := queue_Open (newContractQueue (TrackUsedContracts (settings m)))]> (queues m)) (p + 1),
    (key, p) :: us).
Proof.
  intros [Hu Hd Hn Hi Hl] Ek p. simpl in *.
  assert (∀ k p', destinationContracts m !! k = Some p' → p' ≠ p) as Hfresh.
  { intros k p' Hk ->. destruct (Hd _ _ Hk) as (q & Hq & _). apply Hn in Hq. subst p. lia. }
  assert (∀ key' p', (key', p') ∈ us → queue_key m key' ≠ queue_key m key) as Hno.
  { intros key' p' Hin%Hu E. congruence. }
  split; simpl.
  - intros key' p' [[= -> ->]|Hin]%elem_of_cons; [by rewrite lookup_insert_eq|].
    rewrite queue_key_set, lookup_insert_ne; [by apply Hu|]. by eapply not_eq_sym, Hno.
  - intros k p'. rewrite lookup_insert_Some, users_of_set, users_of_cons.
    intros [[<- <-]|[Hne Hk]].
    + rewrite lookup_insert_eq, decide_True, (users_of_none m _ us Hno) by done.
      eexists. split; [done|]. done.
    + rewrite lookup_insert_ne by (by eapply not_eq_sym, Hfresh). rewrite decide_False by done.
      by apply Hd.
  - intros p' q' [[<- _]|[_ Hq]]%lookup_insert_Some; [lia|]. apply Hn in Hq. subst p. lia.
  - intros k k' p' [[<- <-]|[Hne Hk]]%lookup_insert_Some [[<- E]|[Hne' Hk']]%lookup_insert_Some; try done.
    + by destruct (Hfresh _ _ Hk').
    + by destruct (Hfresh _ _ Hk).
    + by eapply Hi.
  - intros p' q' [[<- <-]|[Hne Hq]]%lookup_insert_Some Hnd.
    + destruct (Hnd (queue_key m key)). by apply lookup_insert_eq.
    + apply (Hl _ _ Hq). intros k Hk. apply (Hnd k).
      rewrite lookup_insert_ne; [done|]. congruence.
Qed.
Lemma users_open_ok m us key p m' :
  users_ok (m, us) → openContractQueue key m = (p, m') → users_ok (m', (key, p) :: us).
Proof.
  intros Hok H. unfold openContractQueue in H.
  destruct (destinationContracts m !! queue_key m key) as [p0|] eqn:Ek; injection H as <- <-.
  - by apply users_open_old_ok.
  - by apply users_open_new_ok.
Qed.

Lemma users_work_ok m us key p q q' :
  users_ok (m, us) → (key, p) ∈ us → queues m !! p = Some q → queue_work q q' →
  users_ok (set_queues m (destinationContracts m) (<[p := q']> (queues m)) (nextQueue m), us).
Proof.
  intros [Hu Hd Hn Hi Hl] Hin Hq Hw. simpl in *. apply queue_work_open in Hw.
  split; simpl; try done.
  - intros k p' Hk. rewrite users_of_set. destruct (Hd _ _ Hk) as (q0 & Hq0 & Hc).
    destruct (decide (p = p')) as [->|].
    + rewrite lookup_insert_eq. exists q'. split; [done|]. congruence.
    + rewrite lookup_insert_ne by done. by exists q0.
  - intros p' q0 [[<- _]|[_ H]]%lookup_insert_Some; [by eapply Hn|by eapply Hn].
  - intros p' q0 [[<- _]|[_ H]]%lookup_insert_Some Hno; [|by eapply Hl].
    by destruct (Hno _ (Hu _ _ Hin)).
Qed.

Lemma users_close_ok m us us' key p :
  users_ok (m, us) → us ≡ₚ (key, p) :: us' → users_ok (closeContractQueue key m, us').
Proof.
  intros [Hu Hd Hn Hi Hl] Hp. simpl in *. set (K := queue_key m key).
  assert (destinationContracts m !! K = Some p) as HK.
  { apply Hu. rewrite Hp. apply elem_of_cons. by left. }
  destruct (Hd _ _ HK) as (q & Hq & Hc). rewrite (users_of_perm _ _ _ _ Hp) in Hc.
  rewrite users_of_cons, decide_True in Hc by done.
  unfold closeContractQueue, closeContractQueueWithForceRemove. fold K.
  rewrite HK, lookup_alter_eq, Hq. simpl. rewrite orb_false_r.
  set (qc := queue_Close q). assert (openCount qc = Z.of_nat (users_of m K us')) as Hqc by (simpl; lia).
  assert (∀ key' p', (key', p') ∈ us' → destinationContracts m !! queue_key m key' = Some p') as Hu'.
  { intros key' p' Hin. apply Hu. rewrite Hp. apply elem_of_cons. by right. }
  assert (∀ k p', destinationContracts m !! k = Some p' → ∃ q0,
    alter queue_Close p (queues m) !! p' = Some q0 ∧ openCount q0 = Z.of_nat (users_of m k us')) as Hd'.
  { intros k p' Hk. destruct (Hd _ _ Hk) as (q0 & Hq0 & Hc0).
    rewrite (users_of_perm _ _ _ _ Hp), users_of_cons in Hc0.
    rewrite lookup_alter. destruct (decide (p = p')) as [<-|].
    - exists qc. rewrite Hq. split; [done|]. rewrite Hqc. by rewrite (Hi K k p HK Hk).
    - exists q0. split; [done|]. rewrite decide_False in Hc0; [done|]. subst K. congruence. }
  assert (∀ p' q0, alter queue_Close p (queues m) !! p' = Some q0 → (p' < nextQueue m)%positive ∧
    ((∀ k, destinationContracts m !! k ≠ Some p') → contracts q0 = ∅)) as Hn'.
  { intros p' q0. rewrite lookup_alter. destruct (decide (p = p')) as [<-|]; [rewrite Hq|].
    - intros _. split; [by eapply Hn|]. intros Hno. by destruct (Hno _ HK).
    - intros H. split; [by eapply Hn|]. by eapply Hl. }
  destruct (queue_IsDone qc) eqn:Edone; split; simpl; try done; try (intros; by eapply Hn').
  - intros key' p' Hin. rewrite lookup_delete_ne; [by apply Hu'|].
    unfold queue_IsDone in Edone. case_bool; [done|]. apply not_eq_sym.
    apply (users_of_zero m K us' key' p'); [lia|done].
  - intros k p' [_ Hk]%lookup_delete_Some. by apply Hd'.
  - intros k k' p' [_ Hk]%lookup_delete_Some [_ Hk']%lookup_delete_Some. by eapply Hi.
  - intros p' q0 Hq0 Hno. destruct (decide (p' = p)) as [->|Hne].
    + rewrite lookup_alter_eq, Hq in Hq0. injection Hq0 as <-. unfold queue_IsDone in Edone.
      case_bool; [done|]. apply andb_true_iff in Edone as [E _]. by apply bool_decide_eq_true in E.
    + apply (Hn' _ _ Hq0). intros k Hk. apply (Hno k). apply lookup_delete_Some. split; [|done].
      intros ->. congruence.
Qed.

Lemma new_users_ok clientId s : users_ok (NewContractManager clientId s, []).
Proof. split; simpl; try done. by intros ? ? ?%elem_of_nil. Qed.
(** While no queue is removed by force, the users of the contract queues
    share them faithfully: in every interleaving of opens, polls, additions,
    used id removals and closes by any number of calls, every call that is
    still open holds the pointer that its key leads to (so it sees the
    contracts that are added), the open count of a queue is the number of its
    users, and a queue that is no longer in the table holds no contract: no
    contract is lost. *)
Theorem queue_pointers_shared (clientId : Id) (s : ContractManagerSettings)
    (st : ContractManager * list (ContractKey * positive)) :
  rtc users_step (NewContractManager clientId s, []) st →
  (∀ key p, (key, p) ∈ st.2 → destinationContracts st.1 !! queue_key st.1 key = Some p) ∧
  (∀ k p, destinationContracts st.1 !! k = Some p → ∃ q, queues st.1 !! p = Some q ∧
     openCount q = Z.of_nat (users_of st.1 k st.2)) ∧
  (∀ p q, queues st.1 !! p = Some q → contracts q ≠ ∅ →
     ∃ k, destinationContracts st.1 !! k = Some p).
Proof.
  intros Hrun.
  pose proof (new_users_ok clientId s) as H0.
  assert (users_ok st) as [Hu Hd Hn Hi Hl].
  { induction Hrun as [|x y z Hstep _ IH]; [done|]. apply IH. destruct Hstep.
    - by eapply users_open_ok.
    - by eapply users_work_ok.
    - by eapply users_close_ok. }
  split_and!; [done..|]. intros p q Hq Hne.
  destruct (decide (map_Exists (λ _ p', p' = p) (destinationContracts st.1))) as [(k & p' & Hk & ->)|Hno].
  - by exists k.
  - destruct Hne. apply (Hl p q Hq). intros k Hk. apply Hno. by exists k, p.
Qed.

(** ** Contract sizes *)

(** The size of a new contract: at least what the message needs; between
    the initial and the standard size otherwise; non decreasing in the index of
    the contract in its sequence, and the standard size from the scale on. It
    needs that the products stay below 2^63. *)
Theorem contract_byte_count_bounds (i j mn : Z) (s : ContractManagerSettings) :
  (0 ≤ InitialContractTransferByteCount s ≤ StandardContractTransferByteCount s)%Z →
  (0 < ContractTransferByteSeqScale s)%Z →
  (ContractTransferByteSeqScale s * StandardContractTransferByteCount s < 2 ^ 63)%Z →
  (0 ≤ i ≤ j)%Z →
  (mn ≤ contractByteCount i mn s)%Z ∧
  (Z.max mn (InitialContractTransferByteCount s) ≤ contractByteCount i mn s
     ≤ Z.max mn (StandardContractTransferByteCount s))%Z ∧
  (contractByteCount i mn s ≤ contractByteCount j mn s)%Z ∧
  (ContractTransferByteSeqScale s ≤ i →
     contractByteCount i mn s = Z.max (StandardContractTransferByteCount s) mn)%Z.
Proof.
  destruct s as [ini std scale t leg tr]. simpl. intros Hst Hsc Hpr Hij.
  unfold contractByteCount. simpl.
  assert (∀ k, 0 ≤ k < scale → i64 (ini + i64 (u64 (k * u64 (i64 (std - ini))) `div` scale)) =
    ini + (k * (std - ini)) `div` scale ∧ 0 ≤ (k * (std - ini)) `div` scale ≤ std - ini)%Z as Hl.
  { intros k Hk. assert (std < 2 ^ 63)%Z by nia.
    rewrite (i64_small (std - ini)) by (unfold is_i64; lia).
    rewrite (u64_small (std - ini)) by (unfold is_u64; lia).
    assert (0 ≤ k * (std - ini) < 2 ^ 63)%Z by nia.
    rewrite u64_small by (unfold is_u64; lia).
    assert (0 ≤ (k * (std - ini)) `div` scale ≤ std - ini)%Z as Hd.
    { split; [apply Z.div_pos; lia|]. apply Z.div_le_upper_bound; [lia|]. nia. }
    split; [|done]. rewrite (i64_small (_ `div` _)) by (unfold is_i64; lia).
    by rewrite i64_small by (unfold is_i64; lia). }
  assert (∀ k, 0 ≤ k < scale → k ≤ j → j < scale →
    (k * (std - ini)) `div` scale ≤ (j * (std - ini)) `div` scale)%Z as Hmono.
  { intros k Hk Hkj Hj. apply Z.div_le_mono; [lia|]. nia. }
  destruct (Z.leb_spec scale i) as [Hi|Hi]; destruct (Z.leb_spec scale j) as [Hj|Hj]; try lia.
  - destruct (Hl i) as [-> ?]; [lia|]. lia.
  - destruct (Hl i) as [-> ?]; [lia|]. destruct (Hl j) as [-> ?]; [lia|].
    specialize (Hmono i). lia.
Qed.

(** ** Which contracts are taken in *)

(** The queue that a key leads to. *)
Definition queue_at (m : ContractManager) (key : ContractKey) : option contractQueue :=
  destinationContracts m !! queue_key m key ≫= (queues m !!.).
Definition contracts_of (m : ContractManager) (key : ContractKey) : gmap Id Contract := from_option contracts ∅ (queue_at m key).
Definition used_of (m : ContractManager) (key : ContractKey) : gset Id := from_option usedContractIds ∅ (queue_at m key).
Lemma open_spec m us key p m1 :
  users_ok (m, us) → openContractQueue key m = (p, m1) →
  ∃ q, destinationContracts m1 !! queue_key m key = Some p ∧ queues m1 !! p = Some q ∧
    contracts q = contracts_of m key ∧ usedContractIds q = used_of m key ∧
    (∀ k, queue_key m k ≠ queue_key m key → queue_at m1 k = queue_at m k) ∧
    settings m1 = settings m ∧ localStats m1 = localStats m.
Proof.
  intros [Hu Hd Hn Hi _]. simpl in *. unfold openContractQueue, contracts_of, used_of, queue_at.
  destruct (destinationContracts m !! queue_key m key) as [p0|] eqn:Ek; intros [= <- <-].
  - destruct (Hd _ _ Ek) as (q & Hq & _). exists (queue_Open q). simpl. rewrite Hq, lookup_alter_eq, Hq. split_and!; try done.
    intros k Hk. rewrite queue_key_set. destruct (destinationContracts m !! queue_key m k) as [p'|] eqn:Ek'; [|done]. simpl.
    rewrite lookup_alter_ne; [done|]. intros ->. by destruct (Hk (Hi _ _ _ Ek' Ek)).
  - eexists. simpl. rewrite !lookup_insert_eq. split_and!; try done. intros k Hk. rewrite queue_key_set, lookup_insert_ne by done.
    destruct (destinationContracts m !! queue_key m k) as [p'|] eqn:Ek'; [|done]. simpl. rewrite lookup_insert_ne; [done|].
    intros <-. destruct (Hd _ _ Ek') as (q & Hq & _). apply Hn in Hq. lia.
Qed.
(** A queue that is not empty stays when a user closes it. *)
Lemma close_spec m us us' key p q :
  users_ok (m, us) → us ≡ₚ (key, p) :: us' → queues m !! p = Some q → (contracts q ≠ ∅ ∨ usedContractIds q ≠ ∅) →
  queue_at (closeContractQueue key m) key = Some (queue_Close q) ∧
  (∀ k, queue_key m k ≠ queue_key m key → queue_at (closeContractQueue key m) k = queue_at m k) ∧
  settings (closeContractQueue key m) = settings m ∧ localStats (closeContractQueue key m) = localStats m.
Proof.
  intros [Hu Hd Hn Hi _] Hp Hq Hne. simpl in *.
  assert (destinationContracts m !! queue_key m key = Some p) as HK by (apply Hu; rewrite Hp; apply elem_of_cons; by left).
  assert (queue_IsDone (queue_Close q) = false) as Hdone.
  { unfold queue_IsDone. case_bool; [done|]. simpl. apply andb_false_iff. rewrite !bool_decide_eq_false. done. }
  unfold closeContractQueue, closeContractQueueWithForceRemove, queue_at. rewrite HK, lookup_alter_eq, Hq. simpl. rewrite Hdone. simpl.
  rewrite !queue_key_set, HK. simpl. rewrite lookup_alter_eq, Hq. split_and!; try done. intros k Hk. rewrite queue_key_set.
  destruct (destinationContracts m !! queue_key m k) as [p'|] eqn:Ek; [|done]. simpl. rewrite lookup_alter_ne; [done|].
  intros <-. by destruct (Hk (Hi _ _ _ Ek HK)).
Qed.
(** What [Add] does to a queue. *)
Definition added (cid : Id) (c : Contract) (l : gmap Id Contract) (used : gset Id) : gmap Id Contract :=
  if bool_decide (l !! cid = None ∧ cid ∈ used) then l else <[cid := c]> l.
Lemma queue_Add_spec c stored q cid :
  IdFromBytes (ContractId stored) = Val cid →
  ∃ q', queue_Add c stored q = Val q' ∧ contracts q' = added cid c (contracts q) (usedContractIds q) ∧
    (contracts q' ≠ ∅ ∨ usedContractIds q' ≠ ∅).
Proof.
  intros E. unfold queue_Add, added. rewrite E. simpl. destruct (contracts q !! cid) as [c0|] eqn:Ec.
  - eexists. split; [done|]. simpl. split; [done|]. left. apply insert_non_empty.
  - case_bool_decide as Hin; (eexists; split; [done|]); cbn [contracts usedContractIds]; case_bool_decide as Hu.
    + naive_solver.
    + split; [done|]. left. apply insert_non_empty.
    + split; [done|]. right. set_solver.
    + destruct Hu. split; [done|]. by destruct (decide (cid ∈ usedContractIds q)).
Qed.
Lemma users_ok_stats m us st : users_ok (m, us) → users_ok (set_stats m st, us).
Proof. intros []. by split. Qed.
(** [addContract] adds to the queue of its key, and to no other. *)
Lemma addContract_spec unmarshalStored key c m us stored path cid :
  users_ok (m, us) → unmarshalStored (StoredContractBytes c) = Val stored →
  TransferPathFromBytes (Stored_SourceId stored) (Stored_DestinationId stored) (Stored_StreamId stored) = Val path →
  IdFromBytes (ContractId stored) = Val cid → (IsStream path = true ∨ SourceId_ path = cm_clientId m) →
  ∃ m', addContract unmarshalStored key c m = Val m' ∧ users_ok (m', us) ∧
    contracts_of m' key = added cid c (contracts_of m key) (used_of m key) ∧
    (∀ k, queue_key m k ≠ queue_key m key → contracts_of m' k = contracts_of m k) ∧
    settings m' = settings m ∧
    localStats m' = mkStats (ContractOpenCount (localStats m) + 1) (ContractCloseCount (localStats m))
      (<[cid := i64 (TransferByteCount stored)]> (ContractOpenByteCounts (localStats m)))
      (<[cid := key]> (ContractOpenKeys (localStats m))) (ContractCloseByteCount (localStats m))
      (ReceiveContractCloseByteCount (localStats m)).
Proof.
  intros Hok Es Ep Ei Hsrc. unfold addContract. rewrite Es. simpl. rewrite Ep. simpl.
  replace (negb (IsStream path) && negb (bool_decide (SourceId_ path = cm_clientId m))) with false
    by (destruct Hsrc as [->|E]; [done|by rewrite bool_decide_true, andb_false_r]).
  rewrite Ei. simpl. destruct (openContractQueue key m) as [p m1] eqn:Eo.
  destruct (open_spec m us key p m1 Hok Eo) as (q & Hd & Hq & Hcs & Hus & Hot & Hset & Hst).
  pose proof (users_open_ok m us key p m1 Hok Eo) as Hok1.
  destruct (queue_Add_spec c stored q cid Ei) as (q' & Ea & Hc' & Hne).
  unfold queue_add_at. rewrite Hq, Ea. set (m2 := set_queues _ _ _ _).
  assert (users_ok (m2, (key, p) :: us)) as Hok2.
  { eapply users_work_ok; [exact Hok1| |exact Hq|by eapply work_add]. apply elem_of_cons. by left. }
  assert (∀ k, queue_key m2 k = queue_key m k) as Hkey by (intros k; unfold queue_key, m2; simpl; by rewrite Hset).
  assert (queues m2 !! p = Some q') as Hq' by apply lookup_insert_eq.
  destruct (close_spec m2 _ us key p q' Hok2 (Permutation_refl _) Hq' Hne) as (C1 & C2 & C3 & C4).
  eexists. split; [done|]. split; [apply users_ok_stats; by eapply users_close_ok|]. unfold contracts_of.
  change (queue_at (set_stats ?m ?st)) with (queue_at m). rewrite C1. simpl. split; [by rewrite Hc', Hcs, Hus|]. split.
  - intros k Hk. rewrite C2 by (by rewrite !Hkey). unfold queue_at at 1. rewrite Hkey. unfold m2. simpl.
    rewrite <-(Hot k Hk). unfold queue_at, queue_key. rewrite Hset. fold (queue_key m k).
    destruct (destinationContracts m1 !! queue_key m k) as [p'|] eqn:Ek; [|done]. simpl. rewrite lookup_insert_ne; [done|].
    intros <-. destruct (uo_inj _ Hok1 _ _ _ Ek Hd) as []. done.
  - split; [by rewrite C3|]. rewrite C4. unfold m2. simpl. by rewrite Hst.
Qed.

(** The contract of a queue that has one. *)
Lemma TakeContract_one m us key cid c choice :
  users_ok (m, us) → contracts_of m key = {[cid := c]} → (TakeContract choice key m).1 = Some (cid, c).
Proof.
  intros Hok Hc. unfold TakeContract. destruct (openContractQueue key m) as [p m1] eqn:Eo.
  destruct (open_spec m us key p m1 Hok Eo) as (q & _ & Hq & Hcs & _). unfold poll_queue. rewrite Hq. unfold queue_Poll.
  rewrite Hcs, Hc, map_to_list_singleton. cbn [length]. by rewrite Nat.mod_1_r.
Qed.
(** A single result of the platform. *)
Lemma Receive_one unmarshalStored unmarshalResult source frame r m :
  IsControlSource source = true → MessageType frame = MessageType_TransferCreateContractResult →
  unmarshalResult (MessageBytes frame) = Val r →
  (Receive unmarshalStored unmarshalResult source [frame] m).2 =
    match (addResult unmarshalStored r).1 with
    | [(key, c)] => match addContract unmarshalStored key c m with Val m' => m' | _ => m end
    | _ => m
    end.
Proof.
  intros Hs Ht Hr. unfold Receive. rewrite Hs. simpl. unfold parseControlFrame. rewrite Ht. simpl. rewrite Hr.
  assert ((addResult unmarshalStored r).1 = [] ∨ ∃ key c, (addResult unmarshalStored r).1 = [(key, c)] ∧
    ∃ stored, unmarshalStored (StoredContractBytes c) = Val stored) as [->|(key & c & -> & stored & Es)].
  { unfold addResult. repeat case_match; simpl; eauto 10. }
  - simpl. rewrite !map_union_empty, map_to_list_empty. done.
  - simpl. rewrite !map_union_empty, insert_empty, map_to_list_singleton. simpl. rewrite Es.
    by destruct (addContract unmarshalStored key c m).
Qed.

(** C36. Which contracts are taken in, and into which queue. From a source other
    than the platform [Receive] does nothing. A result of the platform with a
    contract that decodes goes to [addContract] with the key that is made of the
    destination or stream of the contract and of the intermediaries and flags of
    the request it answers; a result with an error changes nothing. [addContract]
    takes in a contract whose path is a stream or has this client as its source,
    and no other: it then is in the queue that its key leads to, in the place of
    one with its id, unless its id was used there before and is not in the queue
    any more; all other queues keep their contracts; and the contract is counted
    open, with its key and its size. So the next [TakeContract] of the key, when
    its queue was empty, returns it. This holds of any table of queues as calls
    that share them keep it ([users_ok]: [us] are the calls that have a queue
    open), and it stays so. *)
Theorem contracts_taken_in (unmarshalStored : list byte → outcome StoredContract)
    (unmarshalResult : list byte → outcome CreateContractResult) (m : ContractManager) (us : list (ContractKey * positive)) :
  users_ok (m, us) →
  (∀ source frames, IsControlSource source = false → Receive unmarshalStored unmarshalResult source frames m = ([], m)) ∧
  (∀ source frame r c stored d,
     IsControlSource source = true → MessageType frame = MessageType_TransferCreateContractResult →
     unmarshalResult (MessageBytes frame) = Val r → Result_Contract r = Some c →
     unmarshalStored (StoredContractBytes c) = Val stored →
     TransferPathFromBytes None (Stored_DestinationId stored) (Stored_StreamId stored) = Val d →
     (Receive unmarshalStored unmarshalResult source [frame] m).2 =
       match Result_Error r with
       | Some _ => m
       | None =>
           match addContract unmarshalStored
                   (mkKey d (IntermediaryIds (result_key r)) (from_option Companion false (Result_CreateContract r))
                      (default false (Result_CreateContract r ≫= Create_ForceStream))) c m with
           | Val m' => m'
           | _ => m
           end
       end) ∧
  (∀ key c stored path contractId,
     unmarshalStored (StoredContractBytes c) = Val stored →
     TransferPathFromBytes (Stored_SourceId stored) (Stored_DestinationId stored) (Stored_StreamId stored) = Val path →
     IdFromBytes (ContractId stored) = Val contractId →
     ((∃ m', addContract unmarshalStored key c m = Val m') ↔ IsStream path = true ∨ SourceId_ path = cm_clientId m) ∧
     ∀ m', addContract unmarshalStored key c m = Val m' →
       users_ok (m', us) ∧
       contracts_of m' key =
         (if bool_decide (contracts_of m key !! contractId = None ∧ contractId ∈ used_of m key)
          then contracts_of m key else <[contractId := c]> (contracts_of m key)) ∧
       (∀ key', queue_key m key' ≠ queue_key m key → contracts_of m' key' = contracts_of m key') ∧
       ContractOpenCount (localStats m') = (ContractOpenCount (localStats m) + 1)%Z ∧
       ContractOpenByteCounts (localStats m') !! contractId = Some (i64 (TransferByteCount stored)) ∧
       ContractOpenKeys (localStats m') !! contractId = Some key ∧
       (contracts_of m key = ∅ → contractId ∉ used_of m key → ∀ choice, (TakeContract choice key m').1 = Some (contractId, c))).
Proof.
  intros Hok. split; [unfold Receive; by intros source frames ->|]. split.
  - intros source frame r c stored d Hs Ht Hr Hc Es Ed. rewrite (Receive_one _ _ _ _ r) by done.
    unfold addResult. destruct (Result_Error r) as [e|].
    { destruct (Result_CreateContract r) as [cc|]; [|done]. by destruct (TransferPathFromBytes None (Create_DestinationId cc) (Create_StreamId cc)). }
    rewrite Hc, Es, Ed. simpl. unfold with_destination, result_key. by destruct (Result_CreateContract r) as [cc|].
  - intros key c stored path cid Es Ep Ei. split.
    + split; [|intros Hsrc; by destruct (addContract_spec unmarshalStored key c m us stored path cid Hok Es Ep Ei Hsrc) as (m' & ? & _); exists m'].
      intros [m' Ha]. unfold addContract in Ha. rewrite Es in Ha. simpl in Ha. rewrite Ep in Ha. simpl in Ha.
      destruct (IsStream path); [by left|right]. by case_bool_decide.
    + intros m' Ha. assert (IsStream path = true ∨ SourceId_ path = cm_clientId m) as Hsrc.
      { unfold addContract in Ha. rewrite Es in Ha. simpl in Ha. rewrite Ep in Ha. simpl in Ha.
        destruct (IsStream path); [by left|right]. by case_bool_decide. }
      destruct (addContract_spec unmarshalStored key c m us stored path cid Hok Es Ep Ei Hsrc) as (m2 & Ha2 & H1 & H2 & H3 & H4 & H5).
      assert (m2 = m') as -> by congruence. rewrite H5. simpl. split_and!; try done; try apply lookup_insert_eq.
      intros He Hu choice. apply (TakeContract_one _ us); [done|]. rewrite H2. unfold added.
      rewrite He, bool_decide_false by naive_solver. by rewrite insert_empty.
Qed.

(** ** Concrete runs *)
Module ManagerExample.
Import ContractExample.
Definition ex_settings : ContractManagerSettings :=
  mkSettings 16384 134217728 4 0 true false.
Definition ex_key : ContractKey := mkKey (DestinationId (ex_id 9)) MultiHopId_zero true false.

Lemma contract_byte_count_bounds_witness :
  (100 ≤ contractByteCount 1 100 ex_settings)%Z ∧
  (Z.max 100 16384 ≤ contractByteCount 1 100 ex_settings ≤ Z.max 100 134217728)%Z ∧
  (contractByteCount 1 100 ex_settings ≤ contractByteCount 4 100 ex_settings)%Z ∧
  (4 ≤ 1 → contractByteCount 1 100 ex_settings = Z.max 134217728 100)%Z.
Proof.
  apply (contract_byte_count_bounds 1 4 100 ex_settings); simpl; lia.
Defined.
Example contract_byte_count_value : contractByteCount 1 100 ex_settings = 33566720%Z.
Proof. reflexivity. Qed.

Definition ex_contract0 : Contract := mkContract (Id_Bytes (ex_id 5)) [] ProvideMode_Network.
Definition ex_stored : StoredContract :=
  mkStored (Id_Bytes (ex_id 5)) 1000 (Some (Id_Bytes (ex_id 1))) (Some (Id_Bytes (ex_id 9))) None None.
Definition ex_unmarshal (b : list byte) : outcome StoredContract :=
  if bool_decide (b = Id_Bytes (ex_id 5)) then Val ex_stored else Err "proto".

Definition ex_m0 : ContractManager := NewContractManager (ex_id 1) ex_settings.
Definition ex_m1 : ContractManager := (openContractQueue ex_key ex_m0).2.
Definition ex_m2 : ContractManager := (openContractQueue ex_key ex_m1).2.
Definition ex_m3 : ContractManager := closeContractQueue ex_key ex_m2.
Lemma queue_pointers_shared_witness :
  (∀ key p, (key, p) ∈ [(ex_key, 1%positive)] → destinationContracts ex_m3 !! queue_key ex_m3 key = Some p) ∧
  (∀ k p, destinationContracts ex_m3 !! k = Some p → ∃ q, queues ex_m3 !! p = Some q ∧
     openCount q = Z.of_nat (users_of ex_m3 k [(ex_key, 1%positive)])) ∧
  (∀ p q, queues ex_m3 !! p = Some q → contracts q ≠ ∅ →
     ∃ k, destinationContracts ex_m3 !! k = Some p).
Proof.
  apply (queue_pointers_shared (ex_id 1) ex_settings (ex_m3, [(ex_key, 1%positive)])).
  eapply rtc_l; [by apply (us_open ex_key ex_m0 [] 1%positive ex_m1)|].
  eapply rtc_l; [by apply (us_open ex_key ex_m1 [(ex_key, 1%positive)] 1%positive ex_m2)|].
  eapply rtc_l; [by apply (us_close ex_key 1%positive ex_m2 _ [(ex_key, 1%positive)])|].
  apply rtc_refl.
Defined.

Lemma contracts_taken_in_witness :
  (TakeContract 3 ex_key (match addContract ex_unmarshal ex_key ex_contract0 ex_m0 with Val m => m | _ => ex_m0 end)).1
    = Some (ex_id 5, ex_contract0).
Proof.
  destruct (contracts_taken_in ex_unmarshal (λ _, Err "proto"%string) ex_m0 [] (new_users_ok (ex_id 1) ex_settings)) as (_ & _ & H).
  destruct (H ex_key ex_contract0 ex_stored (mkTransferPath (ex_id 1) (ex_id 9) Id_zero) (ex_id 5)) as [[_ H1] H2];
    [vm_compute; reflexivity..|].
  destruct H1 as [m' Hm]; [right; reflexivity|]. rewrite Hm. destruct (H2 m' Hm) as (_ & _ & _ & _ & _ & _ & H3).
  apply H3; [reflexivity|]. apply not_elem_of_empty.
Defined.
(** A call that waits in [TakeContract] while the queue of its key is flushed is
    orphaned: the contract that is added next goes to a new queue, the waiting
    call's queue stays empty; and its close takes the open count of the new
    queue below zero, so that the next user's queue counts nobody. *)
Definition orphan_run : option (option (Id * Contract) * option Z * nat) :=
  let (p, m) := openContractQueue ex_key ex_m0 in
  let '(_, _, m) := FlushContractQueue ex_unmarshal ex_key true m in
  match addContract ex_unmarshal ex_key ex_contract0 m with
  | Val m =>
      let (r, m) := poll_queue 0 p m in
      let (_, m) := openContractQueue ex_key m in
      let m := closeContractQueue ex_key m in
      let queue := destinationContracts m !! queue_key m ex_key ≫= (queues m !!.) in
      Some (r, openCount <$> queue, default 0 (size ∘ contracts <$> queue))
  | _ => None
  end.
Example flush_orphans_waiting_take : orphan_run = Some (None, Some 0%Z, 1).
Proof. vm_compute. reflexivity. Qed.

(** Whatever its error, a contract that is rejected is not reported: the status
    callback is never called for it. *)
Example rejected_contract_not_reported :
  (receive_contract ex_unmarshal ([], ex_m0) (ex_key, mkContract [] [] 1)).1 = [].
Proof. vm_compute. reflexivity. Qed.

(** A verification with the empty-message HMAC: bytes that were never signed are
    accepted with the tail of another contract. *)
Definition ex_verify_m : ContractManager :=
  set_keys ex_m0 {[ProvideMode_Public := [Byte.x01; Byte.x02]]} {[ProvideMode_Public := true]} false.
Example verify_forgery :
  let h := mac_Sum [Byte.x01; Byte.x02] [] [Byte.x0a] in
  Verify h [Byte.x0a] ProvideMode_Public ex_verify_m = true ∧
  Verify ([Byte.x0b; Byte.x0c] ++ drop 1 h) [Byte.x0b; Byte.x0c] ProvideMode_Public ex_verify_m = true.
Proof. split; vm_compute; reflexivity. Qed.
End ManagerExample.
