(* ===== verification/ReceiveSequence.v ===== *)
(** * The receive sequence: ReceiveSequence of transfer.go

    One goroutine runs the sequence: it drains the receive queue, then takes a
    pack, a timeout or the end. A turn of that loop is [rs_turn]; what the code
    writes to others is the list [events]. The contract manager is shared with
    other goroutines, so every step is given the manager it finds ([cm]); the
    clock readings of a step are arguments too. *)

From Stdlib Require Import Floats.SpecFloat.
From stdpp Require Import sorting.
From S2P Require Import Prelude Ids GoHeap TransferQueue RttWindow Crypto Contracts Wire ContractManager.
Open Scope go_scope.

(** ** Packs and items *)
Record ReceivePack := mkReceivePack {
  rp_Pack : Pack;
  rp_ReceiveCallback : positive;
  rp_MessageByteCount : Z;
  rp_TransferFrameBytes : list byte
}.

(** [receiveItem] with its [transferItem]; the callback is a handle. *)
Record receiveItem := mkReceiveItem {
  ri_messageId : Id;
  ri_sequenceNumber : Z;
  ri_messageByteCount : Z;
  ri_contractId : option Id;
  ri_head : bool;
  ri_receiveTime : time;
  ri_frames : list Frame;
  ri_contractFrame : option Frame;
  ri_receiveCallback : positive;
  ri_ack : bool;
  ri_tag : option Z;
  ri_transferFrameBytes : list byte
}.
#[export] Instance receiveItem_eq_dec : EqDecision receiveItem.
Proof. solve_decision. Defined.
#[export] Program Instance receiveItem_countable : Countable receiveItem :=
  inj_countable'
    (λ i, (ri_messageId i, ri_sequenceNumber i, ri_messageByteCount i, ri_contractId i, ri_head i,
           (ri_receiveTime i, ri_frames i, ri_contractFrame i, ri_receiveCallback i, ri_ack i, ri_tag i,
            ri_transferFrameBytes i)))
    (λ '(m, s, b, c, h, (t, f, cf, cb, a, tg, tf)), mkReceiveItem m s b c h t f cf cb a tg tf) _.
Next Obligation. by intros []. Qed.
#[export] Instance receiveItem_item : TransferQueueItem receiveItem := {
  MessageId := ri_messageId;
  MessageByteCount := ri_messageByteCount;
  SequenceNumber := ri_sequenceNumber
}.
(** The comparison of [newReceiveQueue]. *)
Definition receive_cmp (a b : receiveItem) : Z :=
  if (ri_sequenceNumber a <? ri_sequenceNumber b)%Z then (-1)%Z
  else if (ri_sequenceNumber b <? ri_sequenceNumber a)%Z then 1%Z else 0%Z.
#[export] Instance receive_cmp_laws : TransferQueueCmp receive_cmp.
Proof. split; unfold receive_cmp; intros *; repeat case_bool; lia. Qed.

Definition set_contractId (i : receiveItem) (c : option Id) : receiveItem :=
  mkReceiveItem (ri_messageId i) (ri_sequenceNumber i) (ri_messageByteCount i) c (ri_head i)
    (ri_receiveTime i) (ri_frames i) (ri_contractFrame i) (ri_receiveCallback i) (ri_ack i)
    (ri_tag i) (ri_transferFrameBytes i).

Record ReceiveBufferSettings := mkReceiveSettings {
  GapTimeout : duration;
  IdleTimeout : duration;
  MinMessageByteCount : Z;
  ReceiveQueueMaxByteCount : Z;
  AllowLegacyNack : bool;
  MaxOpenReceiveContract : Z;
  MaxPeerAuditDuration : duration;
  Receive_ProtocolVersion : Z
}.

(** ** State *)
Inductive rs_event :=
| EvReceive (item : receiveItem) (mode : Z)
| EvPoolReturn (transferFrameBytes : list byte)
| EvContract (o : cm_out)
| EvAudit (a : AuditMessage).

Record ReceiveSequence := mkReceiveSequence {
  openReceiveContracts : gmap Id sequenceContract;
  receiveContract : option Id;
  receiveQueue : transferQueue receiveItem;
  nextSequenceNumber : Z;
  rs_peerAudit : SequencePeerAudit;
  rs_ackWindow : sequenceAckWindow;
  rs_nextLocalId : positive;
  events : list rs_event
}.
Definition rs_set_contracts (st : ReceiveSequence) (open : gmap Id sequenceContract)
    (cur : option Id) (next : positive) (ev : list rs_event) : ReceiveSequence :=
  mkReceiveSequence open cur (receiveQueue st) (nextSequenceNumber st) (rs_peerAudit st)
    (rs_ackWindow st) next (events st ++ ev).
Definition rs_set_queue (st : ReceiveSequence) (q : transferQueue receiveItem) (ev : list rs_event)
    : ReceiveSequence :=
  mkReceiveSequence (openReceiveContracts st) (receiveContract st) q (nextSequenceNumber st)
    (rs_peerAudit st) (rs_ackWindow st) (rs_nextLocalId st) (events st ++ ev).
Definition rs_set_next (st : ReceiveSequence) (n : Z) : ReceiveSequence :=
  mkReceiveSequence (openReceiveContracts st) (receiveContract st) (receiveQueue st) n
    (rs_peerAudit st) (rs_ackWindow st) (rs_nextLocalId st) (events st).
Definition rs_set_acks (st : ReceiveSequence) (w : sequenceAckWindow) : ReceiveSequence :=
  mkReceiveSequence (openReceiveContracts st) (receiveContract st) (receiveQueue st)
    (nextSequenceNumber st) (rs_peerAudit st) w (rs_nextLocalId st) (events st).
Definition rs_emit (st : ReceiveSequence) (ev : list rs_event) : ReceiveSequence :=
  mkReceiveSequence (openReceiveContracts st) (receiveContract st) (receiveQueue st)
    (nextSequenceNumber st) (rs_peerAudit st) (rs_ackWindow st) (rs_nextLocalId st) (events st ++ ev).
(** [peerAudit.Update] *)
Definition rs_audit (now : time) (f : PeerAudit → PeerAudit) (st : ReceiveSequence) : ReceiveSequence :=
  let (out, a) := audit_Update now f (rs_peerAudit st) in
  mkReceiveSequence (openReceiveContracts st) (receiveContract st) (receiveQueue st)
    (nextSequenceNumber st) a (rs_ackWindow st) (rs_nextLocalId st) (events st ++ map EvAudit out).

Definition NewReceiveSequence (source : TransferPath) (s : ReceiveBufferSettings)
    : outcome ReceiveSequence :=
  let! q := newTransferQueue receive_cmp in
  Val (mkReceiveSequence ∅ None q 0 (NewSequencePeerAudit source (MaxPeerAuditDuration s))
         newSequenceAckWindow 1 []).

Section ReceiveSequence.
Variable settings : ReceiveBufferSettings.
Variable source : TransferPath.
Variable unmarshalContract : list byte → outcome Contract.
Variable unmarshalStored : list byte → outcome StoredContract.

(** The [float32] 1.0 of the receiver's fill fraction. *)
Definition fill_one : spec_float := f32_of_Z 1.

Definition rs_sendAck (sequenceNumber : Z) (messageId : Id) (selective : bool) (tag : option Z)
    (st : ReceiveSequence) : ReceiveSequence :=
  rs_set_acks st (ackWindow_Update (mkAck sequenceNumber messageId selective tag) (rs_ackWindow st)).

(** *** Contracts *)
Definition by_localId (a b : sequenceContract) : Prop := (sc_localId a ≤ sc_localId b)%positive.
#[export] Instance by_localId_dec a b : Decision (by_localId a b).
Proof. unfold by_localId. apply _. Defined.

(** Closing the earliest contracts but for the current one. *)
Definition close_oldest (cur : Id) (acc : gmap Id sequenceContract * list rs_event)
    (c : sequenceContract) : gmap Id sequenceContract * list rs_event :=
  if bool_decide (sc_contractId c = cur) then acc
  else (delete (sc_contractId c) acc.1,
        acc.2 ++ [EvContract (OutCloseContract (sc_contractId c) (ackedByteCount c)
                                (unackedByteCount c) false)]).

Definition rs_setContract (next : sequenceContract) (st : ReceiveSequence) : ReceiveSequence :=
  let id := sc_contractId next in
  if bool_decide (receiveContract st = Some id) then st
  else match openReceiveContracts st !! id with
  | Some _ => rs_set_contracts st (openReceiveContracts st) (Some id) (rs_nextLocalId st) []
  | None =>
      let open := <[id := next]> (openReceiveContracts st) in
      let d := (Z.of_nat (size open) - MaxOpenReceiveContract settings)%Z in
      let ordered := merge_sort by_localId (map snd (map_to_list open)) in
      let '(open, ev) := if (0 <? d)%Z
                         then foldl (close_oldest id) (open, []) (take (Z.to_nat d) ordered)
                         else (open, []) in
      rs_set_contracts st open (Some id) (rs_nextLocalId st) ev
  end.

(** [registerContracts]: the error, if any, and the state. The codec and
    [newSequenceContract] return errors: they do not panic. *)
Definition registerContracts (now : time) (cm : ContractManager) (item : receiveItem)
    (st : ReceiveSequence) : option string * ReceiveSequence :=
  match ri_contractFrame item with
  | None => (None, st)
  | Some frame =>
      match unmarshalContract (MessageBytes frame) with
      | Val contract =>
          if negb (Verify (StoredContractHmac contract) (StoredContractBytes contract)
                     (Contract_ProvideMode contract) cm)
          then (Some "Contract verification failed.", rs_audit now audit_badContract st)
          else
            let localId := rs_nextLocalId st in
            match newSequenceContract unmarshalStored localId contract
                    (MinMessageByteCount settings) fill_one with
            | Val next =>
                let st := rs_set_contracts st (openReceiveContracts st) (receiveContract st)
                            (localId + 1) [] in
                (None, rs_setContract next st)
            | Err e | Panic e => (Some e, rs_audit now audit_badContract st)
            end
      | Err e | Panic e => (Some e, rs_audit now (audit_badMessage (ri_messageByteCount item)) st)
      end
  end.

(** [updateContract] may set the item's contract id. *)
Definition updateContract (now : time) (cm : ContractManager) (item : receiveItem)
    (st : ReceiveSequence) : bool * receiveItem * ReceiveSequence :=
  let noContract := (negb (IsStream source) && ReceiveNoContract now (SourceId_ source) cm)%bool in
  let debit (id : Id) :=
    match openReceiveContracts st !! id with
    | Some c => let (ok, c) := sc_update (ri_messageByteCount item) c in
                if (ok : bool) then Some (rs_set_contracts st (<[id := c]> (openReceiveContracts st))
                                 (receiveContract st) (rs_nextLocalId st) []) else None
    | None => None
    end in
  match ri_contractId item with
  | Some id =>
      match debit id with
      | Some st => (true, item, st)
      | None => (noContract, item, st)
      end
  | None =>
      match receiveContract st with
      | Some id =>
          match debit id with
          | Some st => (true, set_contractId item (Some id), st)
          | None => (noContract, item, st)
          end
      | None => (noContract, item, st)
      end
  end.

(** *** Delivery *)
Definition receiveHead (now : time) (item : receiveItem) (st : ReceiveSequence)
    : outcome ReceiveSequence :=
  let st := rs_audit now (audit_received (ri_messageByteCount item)) st in
  let! (mode, st) :=
    match ri_contractId item with
    | Some id =>
        match openReceiveContracts st !! id with
        | Some c =>
            let! c := sc_ack (ri_messageByteCount item) c in
            Val (provideMode c, rs_set_contracts st (<[id := c]> (openReceiveContracts st))
                                  (receiveContract st) (rs_nextLocalId st) [])
        | None => Panic "nil pointer dereference"
        end
    | None => Val (ProvideMode_Network, st)
    end in
  let st := rs_emit st [EvReceive item mode] in
  let st := if ri_ack item then rs_sendAck (ri_sequenceNumber item) (ri_messageId item) false (ri_tag item) st
            else st in
  Val (rs_emit st [EvPoolReturn (ri_transferFrameBytes item)]).

Definition make_item (now : time) (messageId : Id) (contractId : option Id) (p : ReceivePack)
    : receiveItem :=
  mkReceiveItem messageId (Pack_SequenceNumber (rp_Pack p)) (rp_MessageByteCount p) contractId
    (Head (rp_Pack p)) now (Frames (rp_Pack p)) (ContractFrame (rp_Pack p)) (rp_ReceiveCallback p)
    (negb (Nack (rp_Pack p))) (Pack_Tag (rp_Pack p)) (rp_TransferFrameBytes p).

(** The result of [receive] and [receiveNack]: received or not, or an error. *)
Inductive rs_result := Received (r : bool) | Failed (e : string).

Definition canQueue (byteCount : Z) (q : transferQueue receiveItem) : bool :=
  let (queueSize, queueByteCount) := QueueSize q in
  if (queueSize =? 0)%nat then true
  else (i64 (queueByteCount + byteCount) <? ReceiveQueueMaxByteCount settings)%Z.

(** The loop that removes later items to fit. *)
Fixpoint make_room (fuel : nat) (sequenceNumber byteCount : Z) (st : ReceiveSequence)
    : outcome ReceiveSequence :=
  match fuel with
  | 0 => Panic "fuel"
  | S fuel =>
      if canQueue byteCount (receiveQueue st) then Val st else
      match PeekLast (receiveQueue st) with
      | None => Panic "nil pointer dereference"
      | Some lastItem =>
          if (sequenceNumber <? ri_sequenceNumber lastItem)%Z then
            let! (_, q) := RemoveByMessageId receive_cmp (ri_messageId lastItem) (receiveQueue st) in
            make_room fuel sequenceNumber byteCount
              (rs_set_queue st q [EvPoolReturn (ri_transferFrameBytes lastItem)])
          else Val st
      end
  end.

(** Removing a queued copy, by number or by id, counts as a resend. *)
Definition rs_removed (now : time) (r : option receiveItem * transferQueue receiveItem)
    (st : ReceiveSequence) : ReceiveSequence :=
  let st := rs_set_queue st r.2 [] in
  match r.1 with
  | Some i => rs_audit now (audit_resend (ri_messageByteCount i)) st
  | None => st
  end.

Definition receive (now : time) (cm : ContractManager) (p : ReceivePack) (st : ReceiveSequence)
    : outcome (rs_result * ReceiveSequence) :=
  let sequenceNumber := Pack_SequenceNumber (rp_Pack p) in
  match IdFromBytes (Pack_MessageId (rp_Pack p)) with
  | Err _ | Panic _ => Val (Failed "Bad message_id", st)
  | Val messageId =>
      let item := make_item now messageId None p in
      let st := if (ri_head item && (nextSequenceNumber st <? sequenceNumber)%Z)%bool
                then rs_set_next st sequenceNumber else st in
      let! r := RemoveBySequenceNumber receive_cmp sequenceNumber (receiveQueue st) in
      let st := rs_removed now r st in
      let! r := RemoveByMessageId receive_cmp messageId (receiveQueue st) in
      let st := rs_removed now r st in
      if (sequenceNumber <=? nextSequenceNumber st)%Z then
        if (nextSequenceNumber st =? sequenceNumber)%Z then
          let st := rs_set_next st (u64 (nextSequenceNumber st + 1)) in
          match registerContracts now cm item st with
          | (Some e, st) => Val (Failed e, st)
          | (None, st) =>
              match updateContract now cm item st with
              | (true, item, st) => let! st := receiveHead now item st in Val (Received true, st)
              | (false, _, st) => Val (Failed "No contract", st)
              end
          end
        else
          Val (Received false,
               if ri_ack item then rs_sendAck sequenceNumber messageId false None st else st)
      else
        let! st := make_room (S (QueueSize (receiveQueue st)).1) sequenceNumber
                     (rp_MessageByteCount p) st in
        if canQueue (rp_MessageByteCount p) (receiveQueue st) then
          let! q := Add receive_cmp item (receiveQueue st) in
          Val (Received true, rs_sendAck sequenceNumber messageId true (ri_tag item) (rs_set_queue st q []))
        else Val (Received false, st)
  end.

Definition receiveNack (now : time) (cm : ContractManager) (p : ReceivePack) (st : ReceiveSequence)
    : outcome (rs_result * ReceiveSequence) :=
  match IdFromBytes (Pack_MessageId (rp_Pack p)) with
  | Err _ | Panic _ => Val (Failed "Bad message_id", st)
  | Val messageId =>
      match (match Pack_ContractId (rp_Pack p) with
             | None => Val None
             | Some b => let! id := IdFromBytes b in Val (Some id)
             end) with
      | Err _ | Panic _ => Val (Failed "Bad contract_id", st)
      | Val contractId =>
          if (bool_decide (contractId = None) && negb (AllowLegacyNack settings))%bool
          then Val (Received false, st) else
          let item := make_item now messageId contractId p in
          match registerContracts now cm item st with
          | (Some e, st) => Val (Failed e, st)
          | (None, st) =>
              if match contractId with
                 | Some id => bool_decide (openReceiveContracts st !! id = None)
                 | None => false
                 end
              then Val (Received false, st) else
              match updateContract now cm item st with
              | (true, item, st) => let! st := receiveHead now item st in Val (Received true, st)
              | (false, _, st) => Val (Received false, st)
              end
          end
      end
  end.

(** *** The loop *)
(** The drain at the top of a turn: [None] is the end of the sequence, [Some t]
    the time to wait. *)
Fixpoint drain (fuel : nat) (receiveTime : time) (cm : ContractManager) (st : ReceiveSequence)
    : outcome (option duration * ReceiveSequence) :=
  match fuel with
  | 0 => Panic "fuel"
  | S fuel =>
      match PeekFirst (receiveQueue st) with
      | None => Val (Some (GapTimeout settings), st)
      | Some item =>
          let itemGapTimeout := time_Sub (ri_receiveTime item + GapTimeout settings) receiveTime in
          if (itemGapTimeout <? 0)%Z then Val (None, st) else
          if (nextSequenceNumber st <? ri_sequenceNumber item)%Z then
            Val (Some (Z.min itemGapTimeout (GapTimeout settings)), st)
          else
            let! (_, q) := RemoveByMessageId receive_cmp (ri_messageId item) (receiveQueue st) in
            let st := rs_set_queue st q [] in
            if (nextSequenceNumber st =? ri_sequenceNumber item)%Z then
              match registerContracts receiveTime cm item st with
              | (Some _, st) => Val (None, st)
              | (None, st) =>
                  match updateContract receiveTime cm item st with
                  | (true, item, st) =>
                      let st := rs_set_next st (u64 (nextSequenceNumber st + 1)) in
                      let! st := receiveHead receiveTime item st in
                      drain fuel receiveTime cm st
                  | (false, _, st) => Val (None, st)
                  end
              end
            else
              drain fuel receiveTime cm
                (if ri_ack item
                 then rs_sendAck (ri_sequenceNumber item) (ri_messageId item) false None st else st)
      end
  end.
Definition rs_wait (receiveTime : time) (cm : ContractManager) (st : ReceiveSequence)
    : outcome (option duration * ReceiveSequence) :=
  let (queueSize, _) := QueueSize (receiveQueue st) in
  if (queueSize =? 0)%nat then Val (Some (IdleTimeout settings), st)
  else drain (S queueSize) receiveTime cm st.

(** What the select of a turn takes: a pack, the timeout (and whether the idle
    condition closed), or the end of the context or of the channel. *)
Inductive rs_input :=
| InPack (p : ReceivePack)
| InTimeout (idleClosed : bool)
| InDone.
(** A turn: its two clock readings, the manager, the input. *)
Record turn := mkTurn { t_start : time; t_now : time; t_cm : ContractManager; t_input : rs_input }.

(** [true] when the loop goes on. *)
Definition rs_turn (t : turn) (st : ReceiveSequence) : outcome (bool * ReceiveSequence) :=
  let! (w, st) := rs_wait (t_start t) (t_cm t) st in
  match w with
  | None => Val (false, st)
  | Some _ =>
      match t_input t with
      | InDone => Val (false, st)
      | InTimeout idleClosed =>
          Val (negb ((hLen (orderedItems (receiveQueue st)) =? 0)%nat && idleClosed), st)
      | InPack p =>
          let! (r, st) := (if Nack (rp_Pack p) then receiveNack (t_now t) (t_cm t) p st
                           else receive (t_now t) (t_cm t) p st) in
          match r with
          | Failed _ =>
              Val (false, rs_emit (rs_audit (t_now t) (audit_badMessage (rp_MessageByteCount p)) st)
                            [EvPoolReturn (rp_TransferFrameBytes p)])
          | Received false =>
              Val (true, rs_emit (rs_audit (t_now t) (audit_discard (rp_MessageByteCount p)) st)
                           [EvPoolReturn (rp_TransferFrameBytes p)])
          | Received true => Val (true, st)
          end
      end
  end.

(** The deferred function at the end of [Run]. *)
Definition rs_exit (now : time) (st : ReceiveSequence) : ReceiveSequence :=
  let closed := omap (λ p : Id * sequenceContract,
    if bool_decide (receiveContract st = Some p.1) then None
    else Some (EvContract (OutCloseContract p.1 (ackedByteCount p.2) (unackedByteCount p.2) false)))
    (map_to_list (openReceiveContracts st)) in
  let current := match receiveContract st ≫= λ id, openReceiveContracts st !! id with
    | Some c => [EvContract (OutCloseContract (sc_contractId c) (ackedByteCount c) (unackedByteCount c) true)]
    | None => []
    end in
  let st := rs_emit st (closed ++ current) in
  let st := foldl (λ st item,
      rs_emit (rs_audit now (audit_discard (ri_messageByteCount item)) st)
        [EvPoolReturn (ri_transferFrameBytes item)])
    st (h_items (orderedItems (receiveQueue st))) in
  let (out, a) := audit_Complete (rs_peerAudit st) in
  mkReceiveSequence (openReceiveContracts st) (receiveContract st) (receiveQueue st)
    (nextSequenceNumber st) a (rs_ackWindow st) (rs_nextLocalId st) (events st ++ map EvAudit out).

(** [Run] over the turns, up to the end of the sequence. *)
Fixpoint rs_run (turns : list turn) (st : ReceiveSequence) : outcome (bool * ReceiveSequence) :=
  match turns with
  | [] => Val (true, st)
  | t :: turns =>
      let! (go, st) := rs_turn t st in
      if (go : bool) then rs_run turns st else Val (false, rs_exit (t_now t) st)
  end.
End ReceiveSequence.

(** ** The ack writer

    The goroutine that compresses and sends the acks. It waits while
    [ack_waits], then for [AckCompressTimeout]; [ack_pass] is what follows, with
    the frames it writes. [order] is the order of iteration of the map. *)
Section AckWriter.
Context `{codec : TransferCodec}.
Variable settings : ReceiveBufferSettings.
Variable source : TransferPath.
Variable clientId : Id.
Variable sequenceId : Id.

Definition writeAck (sendAck : sequenceAck) : list byte :=
  let ack := mkProtoAck (Id_Bytes (ack_messageId sendAck)) (Id_Bytes sequenceId)
               (ack_selective sendAck) (ack_tag sendAck) in
  let path := ToProtobuf (AddSource (Reverse source) clientId) in
  marshalTransferFrame
    (if (2 <=? Receive_ProtocolVersion settings)%Z
     then mkTransferFrame path None (Some MessageType_TransferAck) None (Some ack)
     else mkTransferFrame path (Some (mkFrame MessageType_TransferAck (marshalAck ack) false))
            None None None).
Definition ack_waits (st : ReceiveSequence) : outcome bool :=
  let! (snap, _) := ackWindow_Snapshot false (rs_ackWindow st) in
  Val ((snap_ackUpdateCount snap =? 0)%Z && bool_decide (snap_selectiveAcks snap = ∅)).
Definition ack_pass (order : list (Id * sequenceAck) → list (Id * sequenceAck)) (st : ReceiveSequence)
    : outcome (list (list byte) * ReceiveSequence) :=
  let! (snap, w) := ackWindow_Snapshot true (rs_ackWindow st) in
  let! head :=
    (if (0 <? snap_ackUpdateCount snap)%Z
     then match snap_headAck snap with
          | Some ack => Val [writeAck ack]
          | None => Panic "nil pointer dereference"
          end
     else Val []) in
  Val (head ++ map (λ p : Id * sequenceAck,
                      writeAck (mkAck (ack_sequenceNumber p.2) p.1 true (ack_tag p.2)))
                 (order (map_to_list (snap_selectiveAcks snap))),
       rs_set_acks st w).
End AckWriter.

(** ** Invariant *)
Section Invariant.
Variable settings : ReceiveBufferSettings.
Variable source : TransferPath.
Variable unmarshalContract : list byte → outcome Contract.
Variable unmarshalStored : list byte → outcome StoredContract.
(** The byte counts of the settings and of the contracts are far from the
    64-bit bounds. *)
Hypothesis min_small : (0 ≤ MinMessageByteCount settings < 2 ^ 62)%Z.
Hypothesis max_small : (ReceiveQueueMaxByteCount settings ≤ 2 ^ 62)%Z.
Hypothesis stored_small : ∀ b s, unmarshalStored b = Val s →
  (f32_to_i64 (f32_mul (f32_of_Z (TransferByteCount s)) fill_one) < 2 ^ 62)%Z.

(** Where items come from: a predicate that holds of the items made from the
    packs of the run, whatever contract they are given. *)
Variable from : receiveItem → Prop.
Hypothesis from_contract : ∀ i c, from i → from (set_contractId i c).
Definition from_pack (now : time) (p : ReceivePack) : Prop :=
  ∀ m c, IdFromBytes (Pack_MessageId (rp_Pack p)) = Val m → from (make_item now m c p).
(** An item of the run that was acked, with this number and id. *)
Definition from_ack (number : Z) (id : Id) : Prop :=
  ∃ i, from i ∧ ri_ack i = true ∧ ri_sequenceNumber i = number ∧ ri_messageId i = id.

(** The trace of an earlier state of the run. *)
Variable base : list rs_event.

Definition noContract (now : time) (cm : ContractManager) : bool :=
  (negb (IsStream source) && ReceiveNoContract now (SourceId_ source) cm)%bool.

(** [cms] are the clock readings and the managers of the run so far. *)
Definition verified (cms : list (time * ContractManager)) (c : sequenceContract) : Prop :=
  ∃ t cm, (t, cm) ∈ cms ∧
    Verify (StoredContractHmac (sc_contract c)) (StoredContractBytes (sc_contract c)) (provideMode c) cm
      = true.
(** What allows a delivery: a verified contract that the item is debited from,
    or a peer that needs none. *)
Definition authorized (cms : list (time * ContractManager)) (item : receiveItem) (mode : Z) : Prop :=
  match ri_contractId item with
  | Some id => ∃ c, sc_contractId c = id ∧ mode = provideMode c ∧ verified cms c
  | None => mode = ProvideMode_Network ∧ ∃ t cm, (t, cm) ∈ cms ∧ noContract t cm = true
  end.

(** The contracts, with at most one debit pending. *)
Definition pending_of (pend : option (Id * Z)) (id : Id) : list Z :=
  match pend with Some (i, b) => if decide (i = id) then [b] else [] | None => [] end.
Record contracts_ok (cms : list (time * ContractManager)) (pend : option (Id * Z))
    (open : gmap Id sequenceContract) (cur : option Id) : Prop := {
  ck_cur id : cur = Some id → is_Some (open !! id);
  ck_id id c : open !! id = Some c → sc_contractId c = id;
  ck_acc id c : open !! id = Some c → sc_ok (pending_of pend id) c;
  ck_min id c : open !! id = Some c → minUpdateByteCount c = MinMessageByteCount settings;
  ck_ver id c : open !! id = Some c → verified cms c
}.
Abbreviation st_contracts cms pend st :=
  (contracts_ok cms pend (openReceiveContracts st) (receiveContract st)).

Definition is_receive (e : rs_event) : bool := match e with EvReceive _ _ => true | _ => false end.
Definition quiet (ev : list rs_event) : Prop := Forall (λ e, is_receive e = false) ev.

(** [st'] is [st] but for contracts, audit and events that deliver nothing. *)
Definition same_rest (st st' : ReceiveSequence) : Prop :=
  receiveQueue st' = receiveQueue st ∧ nextSequenceNumber st' = nextSequenceNumber st ∧
  rs_ackWindow st' = rs_ackWindow st ∧ ∃ ev, events st' = events st ++ ev ∧ quiet ev.

Lemma same_rest_refl st : same_rest st st.
Proof. split_and!; try done. exists []. split; [by rewrite app_nil_r|constructor]. Qed.
Lemma same_rest_trans st1 st2 st3 : same_rest st1 st2 → same_rest st2 st3 → same_rest st1 st3.
Proof.
  intros (?&?&?&ev1&E1&Q1) (?&?&?&ev2&E2&Q2). split_and!; try congruence.
  exists (ev1 ++ ev2). split; [by rewrite E2, E1, (assoc_L (++))|by apply Forall_app].
Qed.
Lemma quiet_audit out : quiet (map EvAudit out).
Proof. apply Forall_map, Forall_true. done. Qed.
Lemma rs_audit_rest now f st : same_rest st (rs_audit now f st) ∧
  openReceiveContracts (rs_audit now f st) = openReceiveContracts st ∧
  receiveContract (rs_audit now f st) = receiveContract st.
Proof.
  unfold rs_audit. destruct (audit_Update _ _ _) as [out a]. split; [|done].
  split_and!; try done. exists (map EvAudit out). split; [done|apply quiet_audit].
Qed.
Lemma rs_set_contracts_rest st o c n ev : quiet ev → same_rest st (rs_set_contracts st o c n ev).
Proof. intros Hq. split_and!; try done. by exists ev. Qed.
Lemma rs_emit_rest st ev : quiet ev → same_rest st (rs_emit st ev).
Proof. intros Hq. split_and!; try done. by exists ev. Qed.

Lemma contracts_ok_mono cms cms' pend o c :
  contracts_ok cms pend o c → (∀ x, x ∈ cms → x ∈ cms') → contracts_ok cms' pend o c.
Proof.
  intros [H1 H2 H3 H4 H5] Hs. split; try done. intros id x Hx.
  destruct (H5 id x Hx) as (t & m & ? & ?). exists t, m. auto.
Qed.

Lemma close_oldest_fold id cs open ev :
  let r := foldl (close_oldest id) (open, ev) cs in
  r.1 !! id = open !! id ∧ r.1 ⊆ open ∧ (quiet ev → quiet r.2).
Proof.
  revert open ev. induction cs as [|c cs IH]; intros open ev; [done|]. simpl.
  destruct (IH (close_oldest id (open, ev) c).1 (close_oldest id (open, ev) c).2) as (H1 & H2 & H3).
  rewrite <-surjective_pairing in *. unfold close_oldest in *.
  case_bool_decide as E; simpl in *; [done|]. split_and!.
  - rewrite H1. by apply lookup_delete_ne.
  - etrans; [done|]. apply delete_subseteq.
  - intros Hq. apply H3. apply Forall_app. split; [done|]. by apply Forall_singleton.
Qed.

Lemma rs_setContract_spec cms next st :
  st_contracts cms None st → sc_ok [] next → verified cms next →
  minUpdateByteCount next = MinMessageByteCount settings →
  let st' := rs_setContract settings next st in
  st_contracts cms None st' ∧ same_rest st st'.
Proof.
  intros Hc Hok Hv Hm. unfold rs_setContract.
  case_bool_decide; [by split; [|apply same_rest_refl]|].
  destruct (openReceiveContracts st !! sc_contractId next) as [c0|] eqn:E.
  { split; [|by apply rs_set_contracts_rest; constructor]. destruct Hc. split; simpl; try done.
    by intros id [= <-]. }
  set (open := <[sc_contractId next := next]> (openReceiveContracts st)).
  assert (∀ id c, open !! id = Some c → sc_contractId c = id ∧ sc_ok [] c ∧
    minUpdateByteCount c = MinMessageByteCount settings ∧ verified cms c) as Hopen.
  { intros id c [[<- <-]|[_ Hc0]]%lookup_insert_Some; [done|].
    split_and!; [eapply ck_id|eapply (ck_acc _ None)|eapply ck_min|eapply ck_ver]; done. }
  set (ordered := merge_sort _ _).
  assert (∃ open' ev, (if (0 <? Z.of_nat (size open) - MaxOpenReceiveContract settings)%Z
     then foldl (close_oldest (sc_contractId next)) (open, [])
       (take (Z.to_nat (Z.of_nat (size open) - MaxOpenReceiveContract settings)) ordered)
     else (open, [])) = (open', ev) ∧ open' !! sc_contractId next = Some next ∧ open' ⊆ open ∧ quiet ev)
    as (open' & ev & -> & H1 & H2 & H3).
  { case_bool.
    - pose proof (close_oldest_fold (sc_contractId next)
        (take (Z.to_nat (Z.of_nat (size open) - MaxOpenReceiveContract settings)) ordered) open [])
        as (H1 & H2 & H3).
      eexists _, _. split; [apply surjective_pairing|]. split_and!; [|done|apply H3; constructor].
      rewrite H1. apply lookup_insert_eq.
    - exists open, []. split_and!; [done|apply lookup_insert_eq|done|constructor]. }
  split; [|by apply rs_set_contracts_rest]. split; simpl.
  - intros id [= <-]. by rewrite H1.
  - intros id c Hid. apply (Hopen id c). by eapply lookup_weaken.
  - intros id c Hid. apply (Hopen id c). by eapply lookup_weaken.
  - intros id c Hid. apply (Hopen id c). by eapply lookup_weaken.
  - intros id c Hid. apply (Hopen id c). by eapply lookup_weaken.
Qed.

Lemma newSequenceContract_ok localId contract c :
  newSequenceContract unmarshalStored localId contract (MinMessageByteCount settings) fill_one = Val c →
  sc_ok [] c ∧ minUpdateByteCount c = MinMessageByteCount settings ∧ sc_contract c = contract ∧
  provideMode c = Contract_ProvideMode contract.
Proof.
  apply newSequenceContract_fresh; [lia|exact stored_small].
Qed.

Lemma registerContracts_spec cms now cm item st :
  st_contracts cms None st → (now, cm) ∈ cms →
  let r := registerContracts settings unmarshalContract unmarshalStored now cm item st in
  st_contracts cms None r.2 ∧ same_rest st r.2.
Proof.
  intros Hc Hin. unfold registerContracts.
  destruct (ri_contractFrame item) as [frame|]; [|by split; [|apply same_rest_refl]].
  assert (∀ f (o : option string), st_contracts cms None (o, rs_audit now f st).2 ∧
    same_rest st (o, rs_audit now f st).2) as Ha.
  { intros f o. simpl. destruct (rs_audit_rest now f st) as (H1 & -> & ->). done. }
  destruct (unmarshalContract (MessageBytes frame)) as [contract| |]; [|apply Ha..].
  destruct (Verify _ _ _ cm) eqn:Ev; simpl; [|by destruct (Ha audit_badContract None)].
  destruct (newSequenceContract _ _ _ _ _) as [next|e|e] eqn:En; simpl;
    [|by destruct (Ha audit_badContract None)..].
  destruct (newSequenceContract_ok _ _ _ En) as (Hok & Hmin & Ec & Em).
  set (st1 := rs_set_contracts st _ _ _ []).
  destruct (rs_setContract_spec cms next st1) as [H1 H2]; [done|done| |done|].
  { exists now, cm. rewrite Ec, Em. done. }
  split; [done|]. eapply same_rest_trans; [|done]. apply rs_set_contracts_rest. constructor.
Qed.

(** The debit of an item. *)
Lemma debit_spec cms id b st c c' :
  st_contracts cms None st → openReceiveContracts st !! id = Some c → (b < 2 ^ 62)%Z →
  sc_update b c = (true, c') →
  st_contracts cms (Some (id, b))
    (rs_set_contracts st (<[id := c']> (openReceiveContracts st)) (receiveContract st) (rs_nextLocalId st) []).
Proof.
  intros Hc Hid Hb Hup. destruct Hc as [H1 H2 H3 H4 H5].
  pose proof (sc_update_ok [] c b (H3 _ _ Hid)) as Hu. rewrite (H4 _ _ Hid) in Hu.
  specialize (Hu ltac:(lia) Hb). simpl in Hu. destruct (_ <=? _)%Z; [|congruence].
  destruct Hu as (c1 & E & Hok & Ec1). rewrite Hup in E. injection E as ->.
  split; simpl.
  - intros i Hi. rewrite lookup_insert_is_Some'. right. by apply H1.
  - intros i x [[<- <-]|[_ Hx]]%lookup_insert_Some; [|by apply H2]. rewrite Ec1. exact (H2 _ _ Hid).
  - intros i x [[<- <-]|[Hne Hx]]%lookup_insert_Some; [by rewrite decide_True|].
    rewrite decide_False by done. by apply (H3 i).
  - intros i x [[<- <-]|[_ Hx]]%lookup_insert_Some; [|by eapply H4]. rewrite Ec1. exact (H4 _ _ Hid).
  - intros i x [[<- <-]|[_ Hx]]%lookup_insert_Some; [|by eapply H5]. rewrite Ec1. exact (H5 _ _ Hid).
Qed.

(** [item] may be delivered in [st]: its debit is pending, or it needs none. *)
Definition may_deliver (cms : list (time * ContractManager)) (item : receiveItem) (st : ReceiveSequence)
    : Prop :=
  match ri_contractId item with
  | Some id => st_contracts cms (Some (id, ri_messageByteCount item)) st ∧
               is_Some (openReceiveContracts st !! id)
  | None => st_contracts cms None st ∧ ∃ t cm, (t, cm) ∈ cms ∧ noContract t cm = true
  end.
Definition same_item (i j : receiveItem) : Prop :=
  ∃ c, j = set_contractId i c.

Lemma updateContract_spec cms now cm item st :
  st_contracts cms None st → (now, cm) ∈ cms → (ri_messageByteCount item < 2 ^ 62)%Z →
  (ri_contractId item ≠ None → noContract now cm = false) →
  let '(ok, item', st') := updateContract source now cm item st in
  same_rest st st' ∧ same_item item item' ∧
  if (ok : bool) then may_deliver cms item' st' else st_contracts cms None st'.
Proof.
  intros Hc Hin Hb Hnc. unfold updateContract. fold (noContract now cm).
  assert (∀ ok : bool, (ok = true → noContract now cm = true ∧ ri_contractId item = None) →
    same_rest st st ∧ same_item item item ∧
    if ok then may_deliver cms item st else st_contracts cms None st) as Hkeep.
  { intros ok Hok. split_and!; [apply same_rest_refl|exists (ri_contractId item); by destruct item|].
    destruct ok; [|done]. destruct (Hok eq_refl) as [Hn Hi]. unfold may_deliver. rewrite Hi.
    split; [done|]. by exists now, cm. }
  assert (∀ id c c', openReceiveContracts st !! id = Some c →
    sc_update (ri_messageByteCount item) c = (true, c') →
    same_rest st (rs_set_contracts st (<[id:=c']> (openReceiveContracts st)) (receiveContract st)
      (rs_nextLocalId st) []) ∧
    ∀ item', ri_contractId item' = Some id → ri_messageByteCount item' = ri_messageByteCount item →
     may_deliver cms item' (rs_set_contracts st (<[id:=c']> (openReceiveContracts st))
       (receiveContract st) (rs_nextLocalId st) [])) as Hdeb.
  { intros id c c' Hid Hup. split; [apply rs_set_contracts_rest; constructor|].
    intros item' Hi Hbb. unfold may_deliver. rewrite Hi, Hbb. split; [by eapply debit_spec|].
    simpl. rewrite lookup_insert_eq. by eexists. }
  destruct (ri_contractId item) as [id|] eqn:Ei.
  - destruct (openReceiveContracts st !! id) as [c|] eqn:Eo;
      [destruct (sc_update _ c) as [[] c'] eqn:Eu|]; try (apply Hkeep; intros E; by rewrite Hnc in E).
    destruct (Hdeb id c c' Eo Eu) as [Hr Hm]. split_and!; [done| |by apply Hm].
    exists (Some id). rewrite <-Ei. by destruct item.
  - destruct (receiveContract st) as [id|] eqn:Er; [|rewrite <-Er in *; by apply Hkeep].
    rewrite <-Er in Hkeep, Hdeb. rewrite <-Er.
    destruct (openReceiveContracts st !! id) as [c|] eqn:Eo;
      [destruct (sc_update _ c) as [[] c'] eqn:Eu|]; try by apply Hkeep.
    destruct (Hdeb id c c' Eo Eu) as [Hr Hm]. split_and!; [done|by eexists|by apply Hm].
Qed.

(** *** Order of delivery, queue, acks *)
(** The items that were delivered and are to be acked, in order. *)
Definition delivered_item (e : rs_event) : option receiveItem :=
  match e with EvReceive i _ => if ri_ack i then Some i else None | _ => None end.
Definition delivered (st : ReceiveSequence) : list receiveItem := omap delivered_item (events st).

(** Every item follows the one before, or is marked as a head beyond it. *)
Fixpoint in_order (n : Z) (l : list receiveItem) : Prop :=
  match l with
  | [] => True
  | x :: l =>
      (ri_sequenceNumber x = n ∨ ri_head x = true ∧ (n < ri_sequenceNumber x)%Z) ∧
      in_order (ri_sequenceNumber x + 1) l
  end.
Definition next_after (n : Z) (l : list receiveItem) : Z :=
  foldl (λ _ x, (ri_sequenceNumber x + 1)%Z) n l.

Lemma in_order_snoc n l x :
  in_order n l →
  ri_sequenceNumber x = next_after n l ∨
    ri_head x = true ∧ (next_after n l < ri_sequenceNumber x)%Z →
  in_order n (l ++ [x]).
Proof.
  revert n. induction l as [|y l IH]; intros n Hl Hx; simpl in *; [done|].
  destruct Hl as [Hy Hl]. split; [done|]. by apply IH.
Qed.
Lemma next_after_snoc n l x : next_after n (l ++ [x]) = (ri_sequenceNumber x + 1)%Z.
Proof. unfold next_after. by rewrite foldl_app. Qed.

Lemma quiet_delivered ev : quiet ev → omap delivered_item ev = [].
Proof. induction 1 as [|e ev He _ IH]; [done|]. destruct e; try done; apply IH. Qed.
Lemma delivered_receive ev0 ev1 ev2 i m :
  quiet ev1 → quiet ev2 →
  omap delivered_item (ev0 ++ ev1 ++ EvReceive i m :: ev2) =
    omap delivered_item ev0 ++ (if ri_ack i then [i] else []).
Proof.
  intros H1 H2. rewrite !omap_app, (quiet_delivered ev1) by done. f_equal.
  apply quiet_delivered in H2. simpl. destruct (ri_ack i); by rewrite <-H2.
Qed.
Lemma quiet_not_receive ev i m : quiet ev → EvReceive i m ∉ ev.
Proof. intros Hq Hin. unfold quiet in Hq. rewrite Forall_forall in Hq. by specialize (Hq _ Hin). Qed.

Definition queued_ok (i : receiveItem) : Prop :=
  (0 ≤ ri_messageByteCount i < 2 ^ 62)%Z ∧ (0 ≤ ri_sequenceNumber i < 2 ^ 64 - 1)%Z ∧
  ri_contractId i = None ∧ ri_ack i = true ∧ from i.
Definition total (l : list receiveItem) : Z := zsum (map ri_messageByteCount l).
Definition fits (l : list receiveItem) : Prop :=
  length l ≤ 1 ∨ (total l < ReceiveQueueMaxByteCount settings)%Z.
Definition queue_inv (q : transferQueue receiveItem) (l : list receiveItem) : Prop :=
  queue_holds receive_cmp q l ∧ Forall queued_ok l ∧ fits l.

Lemma total_nonneg l : Forall queued_ok l → (0 ≤ total l)%Z.
Proof.
  intros H. apply zsum_nonneg, Forall_map. eapply Forall_impl; [done|].
  intros x (Hx & _). lia.
Qed.
Lemma total_small l : Forall queued_ok l → fits l → (total l < 2 ^ 62)%Z.
Proof.
  intros H [Hl|Hl]; [|lia]. destruct l as [|x [|]]; simpl in Hl; try lia; unfold total, zsum; simpl; [lia|].
  apply Forall_cons in H as [(Hx & _) _]. lia.
Qed.

Lemma removes_inv q q' l r l' :
  queue_inv q l → removes l r l' → queue_holds receive_cmp q' l' →
  queue_inv q' l' ∧ (∀ x, x ∈ l' → x ∈ l) ∧ (∀ x, r = Some x → x ∈ l ∧ (x ∉ l') ∧ (S (length l') = length l)).
Proof.
  intros (Hq & Hok & Hf) Hr Hq'. destruct r as [x|]; simpl in Hr.
  - assert (Forall queued_ok (x :: l')) as Hok' by (by rewrite Hr).
    apply Forall_cons in Hok' as [Hx Hok'].
    assert (NoDup (x :: l')) as [Hni _]%NoDup_cons.
    { rewrite Hr, <-(qh_items _ _ _ Hq). apply (qh_heap _ _ _ Hq). }
    split_and!.
    + split_and!; [done..|]. destruct Hf as [Hf|Hf].
      * left. rewrite <-Hr in Hf. simpl in Hf. lia.
      * right. unfold total in *. rewrite <-Hr in Hf. cbn [map] in Hf. rewrite zsum_cons in Hf.
        destruct Hx as (Hx & _). lia.
    + intros y Hy. rewrite <-Hr. apply elem_of_cons. by right.
    + intros y [= <-]. split_and!; [rewrite <-Hr; apply elem_of_cons; by left|done|by rewrite <-Hr].
  - split_and!; [split_and!; [done|by rewrite Hr|]|intros y; by rewrite Hr|done].
    unfold fits, total in *. by rewrite Hr.
Qed.

Lemma queue_unique_seq q l x y :
  queue_holds receive_cmp q l → x ∈ l → y ∈ l → ri_sequenceNumber x = ri_sequenceNumber y → x = y.
Proof.
  intros Hq Hx%(qh_seqs _ _ _ Hq) Hy%(qh_seqs _ _ _ Hq) E. simpl in *. rewrite E in Hx. congruence.
Qed.
Lemma queue_unique_id q l x y :
  queue_holds receive_cmp q l → x ∈ l → y ∈ l → ri_messageId x = ri_messageId y → x = y.
Proof.
  intros Hq Hx%(qh_ids _ _ _ Hq) Hy%(qh_ids _ _ _ Hq) E. simpl in *. rewrite E in Hx. congruence.
Qed.

Lemma remove_seq_inv q l s :
  queue_inv q l → ∃ r q' l', RemoveBySequenceNumber receive_cmp s q = Val (r, q') ∧ queue_inv q' l' ∧
    (∀ x, x ∈ l' → x ∈ l) ∧ (∀ x, x ∈ l' → ri_sequenceNumber x ≠ s).
Proof.
  intros Hinv. destruct (RemoveBySequenceNumber_holds receive_cmp q l s) as (r & q' & l' & E & Hp & Hr & Hq').
  { apply Hinv. }
  destruct (removes_inv _ _ _ _ _ Hinv Hr Hq') as (Hinv' & Hsub & Hx).
  exists r, q', l'. split_and!; try done. intros y Hy Es. destruct r as [x|]; simpl in Hp.
  - destruct (Hx x eq_refl) as (? & Hni & _). destruct Hni.
    rewrite (queue_unique_seq q l x y); [done|apply Hinv|done|by apply Hsub|]. by rewrite Es, (proj2 Hp).
  - by apply (Hp y (Hsub y Hy)).
Qed.
Lemma remove_id_inv q l m :
  queue_inv q l → ∃ r q' l', RemoveByMessageId receive_cmp m q = Val (r, q') ∧ queue_inv q' l' ∧
    (∀ x, x ∈ l' → x ∈ l) ∧ (∀ x, x ∈ l' → ri_messageId x ≠ m) ∧
    (∀ x, x ∈ l → ri_messageId x = m → r = Some x ∧ S (length l') = length l).
Proof.
  intros Hinv. destruct (RemoveByMessageId_holds receive_cmp q l m) as (r & q' & l' & E & Hp & Hr & Hq').
  { apply Hinv. }
  destruct (removes_inv _ _ _ _ _ Hinv Hr Hq') as (Hinv' & Hsub & Hx).
  exists r, q', l'. split_and!; try done.
  - intros y Hy Es. destruct r as [x|]; simpl in Hp.
    + destruct (Hx x eq_refl) as (? & Hni & _). destruct Hni.
      rewrite (queue_unique_id q l x y); [done|apply Hinv|done|by apply Hsub|]. by rewrite Es, (proj2 Hp).
    + by apply (Hp y (Hsub y Hy)).
  - intros x Hxl Em. destruct r as [y|]; simpl in Hp; [|by destruct (Hp x Hxl)].
    destruct (Hx y eq_refl) as (Hy & _ & Hlen). split; [|done]. f_equal.
    eapply queue_unique_id; [apply Hinv|done|done|]. by rewrite Em, (proj2 Hp).
Qed.

Record rest_ok (strict : bool) (cms : list (time * ContractManager)) (st : ReceiveSequence) : Prop := {
  re_order : in_order 0 (delivered st);
  re_next : (if strict then nextSequenceNumber st = next_after 0 (delivered st)
             else (next_after 0 (delivered st) ≤ nextSequenceNumber st)%Z);
  re_u64 : (0 ≤ nextSequenceNumber st < 2 ^ 64)%Z;
  re_acks h : headAck (rs_ackWindow st) = Some h → (ack_sequenceNumber h < next_after 0 (delivered st))%Z;
  re_count : headAck (rs_ackWindow st) = None → (ackUpdateCount (rs_ackWindow st) ≤ 0)%Z;
  re_base : base `prefix_of` events st;
  re_auth i m : EvReceive i m ∈ events st → authorized cms i m;
  re_from i m : EvReceive i m ∈ events st → from i;
  re_acked h : headAck (rs_ackWindow st) = Some h → from_ack (ack_sequenceNumber h) (ack_messageId h);
  re_queue : ∃ l, queue_inv (receiveQueue st) l
}.
Definition rs_ok (strict : bool) (cms : list (time * ContractManager)) (st : ReceiveSequence) : Prop :=
  st_contracts cms None st ∧ rest_ok strict cms st.

Lemma delivered_quiet st st' ev :
  events st' = events st ++ ev → quiet ev → delivered st' = delivered st.
Proof.
  intros E Hq. unfold delivered. by rewrite E, omap_app, (quiet_delivered ev), app_nil_r by done.
Qed.
Lemma same_rest_ok strict cms st st' : same_rest st st' → rest_ok strict cms st → rest_ok strict cms st'.
Proof.
  intros (Eq & En & Ew & ev & Ee & Hq) [H1 H2 H3 H4 Hcnt Hbase H5 H5' H6' H6].
  pose proof (delivered_quiet _ _ _ Ee Hq) as Ed.
  split; rewrite ?Ed, ?En, ?Ew, ?Eq; try done; [rewrite Ee; by apply prefix_app_r|..];
    intros i m; rewrite Ee, elem_of_app;
    (intros [Hin|Hin]; [eauto|]; by apply quiet_not_receive in Hin).
Qed.
Lemma rest_ok_mono strict cms cms' st :
  rest_ok strict cms st → (∀ x, x ∈ cms → x ∈ cms') → rest_ok strict cms' st.
Proof.
  intros [] Hs. split; try done. intros i m Hi. specialize (re_auth0 i m Hi). unfold authorized in *.
  destruct (ri_contractId i).
  - destruct re_auth0 as (c & ? & ? & t & cm & ? & ?). exists c. split_and!; try done. exists t, cm. auto.
  - destruct re_auth0 as (? & t & cm & ? & ?). split; [done|]. exists t, cm. auto.
Qed.
Lemma rest_ok_weaken strict cms st : rest_ok strict cms st → rest_ok false cms st.
Proof. intros []. split; try done. destruct strict; simpl in *; lia. Qed.

(** A queue change. *)
Lemma rest_ok_set_queue strict cms st q l ev :
  rest_ok strict cms st → queue_inv q l → quiet ev → rest_ok strict cms (rs_set_queue st q ev).
Proof.
  intros [H1 H2 H3 H4 Hcnt Hbase H5 H5' H6' H6] Hq Hev.
  assert (delivered (rs_set_queue st q ev) = delivered st) as Ed by (by eapply delivered_quiet).
  split; rewrite ?Ed; try done; [by apply prefix_app_r| | |by exists l]; simpl; intros i m [Hin|Hin]%elem_of_app; eauto;
    by apply quiet_not_receive in Hin.
Qed.
Lemma head_Update a w h :
  headAck (ackWindow_Update a w) = Some h → headAck w = Some h ∨ ack_selective a = false ∧ h = a.
Proof.
  unfold ackWindow_Update. case_match; simpl; [|by left].
  destruct (ack_selective a); simpl; [by left|]. intros [= <-]. by right.
Qed.
Lemma count_Update a w :
  (headAck w = None → (ackUpdateCount w ≤ 0)%Z) →
  headAck (ackWindow_Update a w) = None → (ackUpdateCount (ackWindow_Update a w) ≤ 0)%Z.
Proof.
  intros H. unfold ackWindow_Update. destruct (headAck w) as [h|] eqn:Eh; [case_bool|]; simpl; try done;
    destruct (ack_selective a); simpl; done || congruence || auto.
Qed.
(** An ack of something delivered, or a selective one. *)
Lemma rest_ok_ack strict cms st n id sel tag :
  rest_ok strict cms st → sel = true ∨ (n < next_after 0 (delivered st))%Z ∧ from_ack n id →
  rest_ok strict cms (rs_sendAck n id sel tag st).
Proof.
  intros [H1 H2 H3 H4 Hcnt Hbase H5 H5' H6' H6] Hn. split; try done; simpl; [|by apply count_Update|];
    (intros h [Hh|[Hs ->]]%head_Update; [by auto|]); simpl in *; destruct Hn as [->|[? ?]]; done.
Qed.

(** *** Delivery of an item *)
Lemma receiveHead_spec cms now item st :
  may_deliver cms item st →
  ∃ st' mode ev1 ev2, receiveHead now item st = Val st' ∧ st_contracts cms None st' ∧
    authorized cms item mode ∧ receiveQueue st' = receiveQueue st ∧
    nextSequenceNumber st' = nextSequenceNumber st ∧
    events st' = events st ++ ev1 ++ EvReceive item mode :: ev2 ∧ quiet ev1 ∧ quiet ev2 ∧
    rs_ackWindow st' = (if ri_ack item
      then ackWindow_Update (mkAck (ri_sequenceNumber item) (ri_messageId item) false (ri_tag item))
             (rs_ackWindow st) else rs_ackWindow st).
Proof.
  intros Hm. unfold receiveHead.
  destruct (rs_audit_rest now (audit_received (ri_messageByteCount item)) st)
    as ((Eq & En & Ew & ev & Ee & Hev) & Eo & Ec).
  set (st1 := rs_audit now _ st) in *. unfold may_deliver in Hm.
  assert (∃ mode st2, (match ri_contractId item with
    | Some id => match openReceiveContracts st1 !! id with
        | Some c => let! c0 := sc_ack (ri_messageByteCount item) c in
            Val (provideMode c0, rs_set_contracts st1 (<[id:=c0]> (openReceiveContracts st1))
                 (receiveContract st1) (rs_nextLocalId st1) [])
        | None => Panic "nil pointer dereference" end
    | None => Val (ProvideMode_Network, st1) end) = Val (mode, st2) ∧
    st_contracts cms None st2 ∧ authorized cms item mode ∧ same_rest st1 st2)
    as (mode & st2 & -> & Hc2 & Ha & (Eq2 & En2 & Ew2 & ev' & Ee2 & Hev')).
  { unfold authorized. destruct (ri_contractId item) as [id|].
    - destruct Hm as [[H1 H2 H3 H4 H5] [c Hid]]. rewrite Eo, Hid.
      pose proof (H3 _ _ Hid) as Hacc. simpl in Hacc. rewrite decide_True in Hacc by done.
      destruct (sc_ack_ok _ _ _ Hacc) as (c' & -> & Hok & Ec'). cbn [obind].
      eexists _, _. split; [done|]. split_and!; [split; simpl|exists c'|apply rs_set_contracts_rest; constructor].
      + intros i Hi. rewrite lookup_insert_is_Some'. right. rewrite Ec in Hi. by apply H1.
      + intros i x [[<- <-]|[_ Hx]]%lookup_insert_Some; [|by apply H2]. rewrite Ec'. exact (H2 _ _ Hid).
      + intros i x [[<- <-]|[Hne Hx]]%lookup_insert_Some; [done|].
        specialize (H3 i x Hx). simpl in H3. by rewrite decide_False in H3.
      + intros i x [[<- <-]|[_ Hx]]%lookup_insert_Some; [|by eapply H4]. rewrite Ec'. exact (H4 _ _ Hid).
      + intros i x [[<- <-]|[_ Hx]]%lookup_insert_Some; [|by eapply H5]. rewrite Ec'. exact (H5 _ _ Hid).
      + rewrite Ec'. split_and!; [exact (H2 _ _ Hid)|done|exact (H5 _ _ Hid)].
    - eexists _, _. split; [done|]. rewrite Eo, Ec. split_and!; [apply Hm|done|apply Hm|apply same_rest_refl]. }
  cbn [obind]. eexists _, mode, (ev ++ ev'), [EvPoolReturn (ri_transferFrameBytes item)].
  split; [done|].
  assert (events st2 = events st ++ ev ++ ev') as Ee3 by (by rewrite Ee2, Ee, (assoc_L (++))).
  destruct (ri_ack item); simpl; rewrite ?Ew2, ?Ew, ?Ee3; split_and!; try done; try congruence;
    try (by apply Forall_app); try (by apply Forall_singleton); by rewrite <-!(assoc_L (++)).
Qed.

(** A delivery in a state where [next] was advanced past the item. *)
Lemma deliver_ack cms now item st n :
  may_deliver cms item st → ri_ack item = true → from item → rest_ok false cms (rs_set_next st n) →
  next_after 0 (delivered st) = n ∨ ri_head item = true ∧ (next_after 0 (delivered st) < n)%Z →
  ri_sequenceNumber item = n → (0 ≤ n < 2 ^ 64 - 1)%Z → nextSequenceNumber st = (n + 1)%Z →
  ∃ st', receiveHead now item st = Val st' ∧ rs_ok true cms st'.
Proof.
  intros Hm Hack Hfrom [H1 H2 H3 H4 Hcnt Hbase H5 H5' H6' H6] Hn Hs Hn64 Hnext.
  destruct (receiveHead_spec cms now item st Hm)
    as (st' & mode & ev1 & ev2 & Hr & Hc & Ha & Eq & En & Ee & Hq1 & Hq2 & Ew).
  exists st'. split; [done|]. split; [done|].
  assert (delivered st' = delivered st ++ [item]) as Ed.
  { unfold delivered. by rewrite Ee, delivered_receive, Hack by done. }
  split; rewrite ?Ed, ?En, ?Eq, ?Hnext; try done.
  - apply in_order_snoc; [done|]. rewrite Hs. destruct Hn as [->|[? ?]]; auto.
  - by rewrite next_after_snoc, Hs.
  - lia.
  - intros h. rewrite Ew, Hack, next_after_snoc, Hs.
    intros [Hh|[_ ->]]%head_Update; [|simpl; lia]. specialize (H4 h Hh).
    change (delivered (rs_set_next st n)) with (delivered st) in H4. lia.
  - rewrite Ew, Hack. by apply count_Update.
  - rewrite Ee. by apply prefix_app_r.
  - intros i m. rewrite Ee, !elem_of_app, elem_of_cons.
    intros [Hin|[Hin|[[= -> ->]|Hin]]]; [by apply H5|by apply quiet_not_receive in Hin|done|].
    by apply quiet_not_receive in Hin.
  - intros i m. rewrite Ee, !elem_of_app, elem_of_cons.
    intros [Hin|[Hin|[[= -> ->]|Hin]]]; [by eapply H5'|by apply quiet_not_receive in Hin|done|].
    by apply quiet_not_receive in Hin.
  - intros h. rewrite Ew, Hack. intros [Hh|[_ ->]]%head_Update; [by apply H6'|]. by exists item.
Qed.
Lemma deliver_nack cms now item st strict :
  may_deliver cms item st → ri_ack item = false → from item → rest_ok strict cms st →
  ∃ st', receiveHead now item st = Val st' ∧ rs_ok strict cms st'.
Proof.
  intros Hm Hack Hfrom [H1 H2 H3 H4 Hcnt Hbase H5 H5' H6' H6].
  destruct (receiveHead_spec cms now item st Hm)
    as (st' & mode & ev1 & ev2 & Hr & Hc & Ha & Eq & En & Ee & Hq1 & Hq2 & Ew).
  exists st'. split; [done|]. split; [done|].
  assert (delivered st' = delivered st) as Ed.
  { unfold delivered. by rewrite Ee, delivered_receive, Hack, app_nil_r by done. }
  rewrite Hack in Ew. split; rewrite ?Ed, ?En, ?Eq, ?Ew; try done; [rewrite Ee; by apply prefix_app_r|..];
    (intros i m; rewrite Ee, !elem_of_app, elem_of_cons;
     intros [Hin|[Hin|[[= -> ->]|Hin]]]; [by eauto|by apply quiet_not_receive in Hin|done|];
     by apply quiet_not_receive in Hin).
Qed.

(** *** [receive] *)
Lemma rest_ok_bump strict cms st m :
  rest_ok strict cms st → (nextSequenceNumber st ≤ m < 2 ^ 64)%Z → rest_ok false cms (rs_set_next st m).
Proof.
  intros [H1 H2 H3 H4 Hcnt Hbase H5 H5' H6' H6] Hm. split; try done; simpl.
  - change (delivered (rs_set_next st m)) with (delivered st). destruct strict; lia.
  - lia.
Qed.
Lemma set_next_rest st st' m n :
  same_rest (rs_set_next st m) st' → nextSequenceNumber st = n → same_rest st (rs_set_next st' n).
Proof. intros (? & ? & ? & ev & ? & ?) <-. split_and!; try done. by exists ev. Qed.
Lemma same_rest_delivered st st' : same_rest st st' → delivered st' = delivered st.
Proof. intros (_ & _ & _ & ev & E & Hq). by eapply delivered_quiet. Qed.

(** [st'] differs from [st] in the queue, the audit and quiet events only. *)
Definition same_but_queue (st st' : ReceiveSequence) : Prop :=
  openReceiveContracts st' = openReceiveContracts st ∧ receiveContract st' = receiveContract st ∧
  nextSequenceNumber st' = nextSequenceNumber st ∧ delivered st' = delivered st.
Lemma same_but_queue_trans st1 st2 st3 :
  same_but_queue st1 st2 → same_but_queue st2 st3 → same_but_queue st1 st3.
Proof. intros (?&?&?&?) (?&?&?&?). split_and!; congruence. Qed.

Lemma rs_removed_spec strict cms now r l st :
  rest_ok strict cms st → queue_inv r.2 l →
  let st' := rs_removed now r st in
  rest_ok strict cms st' ∧ same_but_queue st st' ∧ receiveQueue st' = r.2.
Proof.
  intros Hst Hq. unfold rs_removed.
  assert (rest_ok strict cms (rs_set_queue st r.2 [])) as H1 by (eapply rest_ok_set_queue; try done; constructor).
  assert (same_but_queue st (rs_set_queue st r.2 [])) as H2.
  { split_and!; try done. eapply delivered_quiet; [done|constructor]. }
  destruct r.1 as [i|]; [|done].
  destruct (rs_audit_rest now (audit_resend (ri_messageByteCount i)) (rs_set_queue st r.2 []))
    as (Hs & Eo & Ec).
  split_and!; [by eapply same_rest_ok| |apply Hs].
  eapply same_but_queue_trans; [done|]. split_and!; [done|done|apply Hs|by apply same_rest_delivered].
Qed.

Lemma canQueue_fits b q l x :
  queue_inv q l → ri_messageByteCount x = b → (0 ≤ b < 2 ^ 62)%Z → canQueue settings b q = true →
  fits (x :: l).
Proof.
  intros (Hq & Hok & Hf) Hx Hb. unfold canQueue. rewrite (QueueSize_holds _ _ _ Hq).
  destruct (Nat.eqb_spec (length l) 0) as [E|E].
  { intros _. left. simpl. lia. }
  change (map MessageByteCount l) with (map ri_messageByteCount l).
  fold (total l). pose proof (total_small l Hok Hf). pose proof (total_nonneg l Hok).
  rewrite i64_add_l, i64_small by (unfold is_i64; lia). case_bool; [|done]. intros _. right.
  unfold total in *. cbn [map]. rewrite zsum_cons. lia.
Qed.

Lemma make_room_spec cms sequenceNumber b fuel st l :
  rest_ok true cms st → queue_inv (receiveQueue st) l → length l < fuel →
  ∃ st' l', make_room settings fuel sequenceNumber b st = Val st' ∧ rest_ok true cms st' ∧
    queue_inv (receiveQueue st') l' ∧ (∀ x, x ∈ l' → x ∈ l) ∧ same_but_queue st st'.
Proof.
  revert st l. induction fuel as [|fuel IH]; intros st l Hst Hq Hf; [lia|]. cbn [make_room].
  destruct (canQueue settings b (receiveQueue st)) eqn:Ec; [by exists st, l|].
  pose proof (PeekLast_holds receive_cmp _ _ (proj1 Hq)) as [Hp Hnone].
  destruct (PeekLast (receiveQueue st)) as [x|].
  - case_bool; [|by exists st, l]. destruct Hp as [Hx _].
    destruct (remove_id_inv _ _ (ri_messageId x) Hq) as (r & q' & l' & -> & Hq' & Hsub & _ & Hr).
    cbn [obind]. destruct (Hr x Hx eq_refl) as [_ Hlen].
    set (st1 := rs_set_queue st q' _).
    destruct (IH st1 l') as (st' & l'' & -> & H1 & H2 & H3 & H4); [|done|lia|].
    { eapply rest_ok_set_queue; [done|done|]. by apply Forall_singleton. }
    exists st', l''. split_and!; auto. eapply same_but_queue_trans; [|done].
    split_and!; try done. eapply delivered_quiet; [done|]. by apply Forall_singleton.
  - unfold canQueue in Ec. rewrite (QueueSize_holds _ _ _ (proj1 Hq)), (Hnone eq_refl) in Ec. done.
Qed.

Definition pack_ok (p : ReceivePack) : Prop :=
  (0 ≤ Pack_SequenceNumber (rp_Pack p) < 2 ^ 64 - 1)%Z ∧ (0 ≤ rp_MessageByteCount p < 2 ^ 62)%Z.
Definition strict_of (r : rs_result) : bool := match r with Failed _ => false | Received _ => true end.

(** The head of the sequence: register, debit, deliver. *)
Lemma deliver_head cms now cm item st n :
  st_contracts cms None st → rest_ok false cms st → (now, cm) ∈ cms → nextSequenceNumber st = n →
  next_after 0 (delivered st) = n ∨ ri_head item = true ∧ (next_after 0 (delivered st) < n)%Z →
  ri_sequenceNumber item = n → (0 ≤ n < 2 ^ 64 - 1)%Z → (ri_messageByteCount item < 2 ^ 62)%Z →
  ri_ack item = true → ri_contractId item = None → from item →
  let '(e, st1) := registerContracts settings unmarshalContract unmarshalStored now cm item
     (rs_set_next st (n + 1)) in
  rs_ok false cms st1 ∧
  let '(ok, item', st2) := updateContract source now cm item st1 in
  if (ok : bool) then ∃ st3, receiveHead now item' st2 = Val st3 ∧ rs_ok true cms st3
  else rs_ok false cms st2.
Proof.
  intros Hc Hst Hin Hn Hnext Hs Hn64 Hb Hack Hid Hfrom.
  pose proof (registerContracts_spec cms now cm item (rs_set_next st (n + 1)) Hc Hin) as [Hc1 Hr1].
  destruct (registerContracts _ _ _ now cm item _) as [e st1]. simpl in Hc1, Hr1.
  assert (rest_ok false cms (rs_set_next st (n + 1))) as Hb0 by (eapply rest_ok_bump; [done|lia]).
  split; [split; [done|by eapply same_rest_ok]|].
  pose proof (updateContract_spec cms now cm item st1 Hc1 Hin Hb) as Hup.
  destruct (updateContract source now cm item st1) as [[ok item'] st2].
  destruct Hup as (Hr2 & [c ->] & Hok); [by rewrite Hid|].
  pose proof (same_rest_trans _ _ _ Hr1 Hr2) as Hr.
  destruct ok; [|split; [done|by eapply same_rest_ok]].
  apply (deliver_ack cms now _ st2 n); try done; [by apply from_contract|..].
  - apply (same_rest_ok false cms st); [by eapply set_next_rest|done].
  - rewrite (same_rest_delivered _ _ Hr). by destruct item.
  - destruct Hr as (_ & -> & _). done.
Qed.

Lemma receive_spec cms now cm p st :
  rs_ok true cms st → (now, cm) ∈ cms → pack_ok p → from_pack now p → Nack (rp_Pack p) = false →
  ∃ r st', receive settings source unmarshalContract unmarshalStored now cm p st = Val (r, st') ∧
    rs_ok (strict_of r) cms st'.
Proof.
  intros [Hc Hst] Hin [Hseq Hb] Hfp Hnack. unfold receive. unfold from_pack in Hfp.
  destruct (IdFromBytes _) as [messageId|e|e];
    [|by eexists _, _; split; [done|]; split; [|eapply rest_ok_weaken]..].
  specialize (Hfp messageId None eq_refl). set (item := make_item now messageId None p) in *. set (s := Pack_SequenceNumber (rp_Pack p)) in *.
  set (st0 := if (ri_head item && (nextSequenceNumber st <? s)%Z)%bool then rs_set_next st s else st).
  assert (st_contracts cms None st0 ∧ delivered st0 = delivered st ∧
    (ri_head item = true ∧ nextSequenceNumber st0 = s ∧ (next_after 0 (delivered st) < s)%Z ∧ rest_ok false cms st0
     ∨ nextSequenceNumber st0 = next_after 0 (delivered st) ∧ rest_ok true cms st0)) as (Hc0 & Ed0 & Hst0).
  { unfold st0. pose proof (re_next _ _ _ Hst) as E. simpl in E.
    destruct (ri_head item); simpl; [|by split_and!; [..|right]].
    case_bool; [|by split_and!; [..|right]]. split_and!; [done..|left].
    split_and!; [done|done|lia|eapply rest_ok_bump; [done|lia]]. }
  assert (rest_ok false cms st0) as Hst0f.
  { destruct Hst0 as [(_ & _ & _ & H)|[_ H]]; [done|by eapply rest_ok_weaken]. }
  clearbody st0. destruct (re_queue _ _ _ Hst0f) as [l0 Hq0].
  destruct (remove_seq_inv _ _ s Hq0) as (r1 & q1 & l1 & -> & Hq1 & Hsub1 & Hseq1). cbn [obind].
  set (st1 := rs_removed now (r1, q1) st0).
  destruct (remove_id_inv q1 l1 messageId Hq1) as (r2 & q2 & l2 & E2 & Hq2 & Hsub2 & Hid2 & _).
  assert (∀ strict, rest_ok strict cms st0 → rest_ok strict cms (rs_removed now (r2, q2) st1)) as Hkeep.
  { intros strict H. destruct (rs_removed_spec strict cms now (r1, q1) l1 st0 H Hq1) as (H1 & _ & _).
    by destruct (rs_removed_spec strict cms now (r2, q2) l2 st1 H1 Hq2) as (? & _ & _). }
  destruct (rs_removed_spec false cms now (r1, q1) l1 st0 Hst0f Hq1) as (Hst1 & Hs1 & Eq1).
  destruct (rs_removed_spec false cms now (r2, q2) l2 st1 Hst1 Hq2) as (Hst2 & Hs2 & Eq2).
  fold st1 in Eq1, Hs1. simpl in Eq1, Eq2. rewrite Eq1, E2. cbn [obind].
  pose proof (same_but_queue_trans _ _ _ Hs1 Hs2) as (Eo & Ec & En & Ed).
  set (st2 := rs_removed now (r2, q2) st1) in *.
  assert (st_contracts cms None st2) as Hc2 by (by rewrite Eo, Ec). rewrite Ed0 in Ed.
  destruct (Z.leb_spec s (nextSequenceNumber st2)) as [Hle|Hgt].
  - destruct (Z.eqb_spec (nextSequenceNumber st2) s) as [Es|Hne].
    + rewrite Es, u64_small by (unfold is_u64; lia).
      pose proof (deliver_head cms now cm item st2 s Hc2 Hst2 Hin Es) as Hd.
      destruct (registerContracts _ _ _ now cm item _) as [e st3].
      destruct Hd as [Hok3 Hd]; try done.
      { rewrite Ed. destruct Hst0 as [(H1 & H2 & H3 & _)|[H1 _]]; [by right|left]. congruence. }
      { simpl. lia. }
      { simpl. by rewrite Hnack. }
      destruct e as [e|]; [by eexists _, _|].
      destruct (updateContract source now cm item st3) as [[ok item'] st4].
      destruct ok; [|by eexists _, _]. destruct Hd as (st5 & -> & Hok5). cbn [obind]. by eexists _, _.
    + eexists _, _. split; [done|].
      assert (rest_ok true cms st2) as Ht.
      { apply Hkeep. destruct Hst0 as [(H1 & H2 & _)|[_ H]]; [congruence|done]. }
      destruct (ri_ack item) eqn:Eack; (split; [done|]); [|done].
      apply rest_ok_ack; [done|right].
      pose proof (re_next _ _ _ Ht) as En2. simpl in En2. split; [lia|by exists item].
  - assert (rest_ok true cms st2) as Ht.
    { apply Hkeep. destruct Hst0 as [(H1 & H2 & _)|[_ H]]; [lia|done]. }
    rewrite Eq2, (QueueSize_holds _ _ _ (proj1 Hq2)). cbn [fst].
    destruct (make_room_spec cms s (rp_MessageByteCount p) (S (length l2)) st2 l2)
      as (st3 & l3 & -> & Ht3 & Hq3 & Hsub3 & (Eo3 & Ec3 & En3 & Ed3)); [done|by rewrite Eq2|lia|].
    cbn [obind].
    assert (st_contracts cms None st3) as Hc3 by (by rewrite Eo3, Ec3).
    destruct (canQueue settings (rp_MessageByteCount p) (receiveQueue st3)) eqn:Ecan;
      [|by eexists _, _; split; [done|]; split].
    destruct (Add_holds receive_cmp (receiveQueue st3) l3 item) as (q4 & -> & Hq4).
    { apply Hq3. }
    { intros x Hx. simpl. split; [by apply Hid2, Hsub3|by apply Hseq1, Hsub2, Hsub3]. }
    cbn [obind]. eexists _, _. split; [done|]. split; [done|].
    apply rest_ok_ack; [|by left]. eapply rest_ok_set_queue; [done| |constructor].
    split_and!; [done| |by eapply canQueue_fits].
    apply Forall_cons. split; [|apply Hq3]. split_and!; try done; simpl; [lia..|by rewrite Hnack].
Qed.

Definition nack_ok (now : time) (cm : ContractManager) (p : ReceivePack) : Prop :=
  Pack_ContractId (rp_Pack p) ≠ None → noContract now cm = false.

Lemma receiveNack_spec cms now cm p st :
  rs_ok true cms st → (now, cm) ∈ cms → pack_ok p → from_pack now p → Nack (rp_Pack p) = true →
  nack_ok now cm p →
  ∃ r st', receiveNack settings source unmarshalContract unmarshalStored now cm p st = Val (r, st') ∧
    rs_ok (strict_of r) cms st'.
Proof.
  intros [Hc Hst] Hin [Hseq Hb] Hfp Hnack Hnok. unfold receiveNack. unfold from_pack in Hfp.
  assert (∀ e, ∃ r st', Val (A := rs_result * ReceiveSequence) (Failed e, st) = Val (r, st') ∧
    rs_ok (strict_of r) cms st') as Hfail.
  { intros e. eexists _, _. split; [done|]. split; [done|by eapply rest_ok_weaken]. }
  destruct (IdFromBytes _) as [messageId|e|e]; [|apply Hfail..].
  set (oc := match Pack_ContractId (rp_Pack p) with
             | Some b => let! id := IdFromBytes b in Val (Some id) | None => Val None end).
  assert (∀ c, oc = Val c → c ≠ None → noContract now cm = false) as Hoc.
  { intros c Ec Hne. apply Hnok. intros E. unfold oc in Ec. rewrite E in Ec. congruence. }
  clearbody oc. destruct oc as [contractId|e|e]; [|apply Hfail..].
  destruct (bool_decide _ && _); [by eexists _, _|].
  specialize (Hfp messageId contractId eq_refl). set (item := make_item now messageId contractId p) in *.
  pose proof (registerContracts_spec cms now cm item st Hc Hin) as [Hc1 Hr1].
  destruct (registerContracts _ _ _ now cm item st) as [e st1]. simpl in Hc1, Hr1.
  pose proof (same_rest_ok _ _ _ _ Hr1 Hst) as Hst1.
  destruct e as [e|]; [eexists _, _; split; [done|]; split; [done|by eapply rest_ok_weaken]|].
  destruct (match contractId with Some id => _ | None => false end); [by eexists _, _|].
  pose proof (updateContract_spec cms now cm item st1 Hc1 Hin) as Hup.
  destruct (updateContract source now cm item st1) as [[ok item'] st2].
  destruct Hup as (Hr2 & [c ->] & Hok); [simpl; lia|by apply Hoc|].
  pose proof (same_rest_ok _ _ _ _ Hr2 Hst1) as Hst2.
  destruct ok; [|by eexists _, _].
  destruct (deliver_nack cms now (set_contractId item c) st2 true) as (st3 & -> & Hok3);
    [done| |by apply from_contract|done|].
  { simpl. by rewrite Hnack. }
  cbn [obind]. by eexists _, _.
Qed.

(** *** The loop *)
Lemma drain_spec cms t cm fuel st l :
  rs_ok true cms st → (t, cm) ∈ cms → queue_inv (receiveQueue st) l → length l < fuel →
  ∃ w st', drain settings source unmarshalContract unmarshalStored fuel t cm st = Val (w, st') ∧
    rs_ok (match w with Some _ => true | None => false end) cms st'.
Proof.
  intros Hok Hin. revert st l Hok. induction fuel as [|fuel IH]; intros st l [Hc Hst] Hq Hf; [lia|].
  cbn [drain]. pose proof (PeekFirst_holds receive_cmp _ _ (proj1 Hq)) as [Hp _].
  destruct (PeekFirst (receiveQueue st)) as [x|]; [|by eexists _, _].
  destruct Hp as [Hx _]. case_bool; [eexists _, _; split; [done|]; split; [done|by eapply rest_ok_weaken]|].
  destruct (Z.ltb_spec (nextSequenceNumber st) (ri_sequenceNumber x)) as [|Hge]; [by eexists _, _|].
  destruct (remove_id_inv _ _ (ri_messageId x) Hq) as (r & q' & l' & -> & Hq' & Hsub & _ & Hr).
  cbn [obind]. destruct (Hr x Hx eq_refl) as [_ Hlen].
  assert (queued_ok x) as (Hxb & Hxs & Hxc & Hxa & Hxf).
  { destruct Hq as (_ & Hall & _). rewrite Forall_forall in Hall. by apply Hall. }
  set (st1 := rs_set_queue st q' []).
  assert (rest_ok true cms st1) as Hst1 by (eapply rest_ok_set_queue; try done; constructor).
  destruct (Z.eqb_spec (nextSequenceNumber st1) (ri_sequenceNumber x)) as [E|Hne].
  - pose proof (registerContracts_spec cms t cm x st1 Hc Hin) as [Hc2 Hr2].
    destruct (registerContracts _ _ _ t cm x st1) as [e st2]. simpl in Hc2, Hr2.
    pose proof (same_rest_ok _ _ _ _ Hr2 Hst1) as Hst2.
    destruct e as [e|]; [eexists _, _; split; [done|]; split; [done|by eapply rest_ok_weaken]|].
    pose proof (updateContract_spec cms t cm x st2 Hc2 Hin) as Hup.
    destruct (updateContract source t cm x st2) as [[ok item'] st3].
    destruct Hup as (Hr3 & [c ->] & Hok3); [lia|by rewrite Hxc|].
    pose proof (same_rest_ok _ _ _ _ Hr3 Hst2) as Hst3.
    destruct ok; [|eexists _, _; split; [done|]; split; [done|by eapply rest_ok_weaken]].
    pose proof (same_rest_trans _ _ _ Hr2 Hr3) as Hr23.
    assert (nextSequenceNumber st3 = ri_sequenceNumber x) as E3 by (destruct Hr23 as (_ & -> & _); done).
    rewrite E3, u64_small by (unfold is_u64; lia).
    destruct (deliver_ack cms t (set_contractId x c) (rs_set_next st3 (ri_sequenceNumber x + 1))
      (ri_sequenceNumber x)) as (st4 & Eh & Hok4); try done; [by apply from_contract|..].
    { eapply rest_ok_weaken. eapply same_rest_ok; [|exact Hst3]. split_and!; try done.
      exists []. split; [by rewrite app_nil_r|constructor]. }
    { left. change (delivered (rs_set_next st3 _)) with (delivered st3).
      rewrite <-E3. symmetry. apply (re_next _ _ _ Hst3). }
    rewrite Eh. cbn [obind].
    destruct (receiveHead_spec cms t (set_contractId x c) (rs_set_next st3 (ri_sequenceNumber x + 1)))
      as (st4' & m & ev1 & ev2 & Eh' & _ & _ & Eq4 & _); [done|].
    rewrite Eh in Eh'. injection Eh' as <-.
    apply (IH st4 l'); [done| |lia]. rewrite Eq4. destruct Hr23 as (E23 & _). simpl. by rewrite E23.
  - apply (IH _ l'); [|by destruct (ri_ack x)|lia].
    rewrite Hxa. split; [done|]. apply rest_ok_ack; [done|].
    right. pose proof (re_next _ _ _ Hst1) as En1. simpl in *. split; [lia|by exists x].
Qed.

Lemma rs_wait_spec cms t cm st :
  rs_ok true cms st → (t, cm) ∈ cms →
  ∃ w st', rs_wait settings source unmarshalContract unmarshalStored t cm st = Val (w, st') ∧
    rs_ok (match w with Some _ => true | None => false end) cms st'.
Proof.
  intros Hok Hin. unfold rs_wait. destruct (re_queue _ _ _ (proj2 Hok)) as [l Hq].
  rewrite (QueueSize_holds _ _ _ (proj1 Hq)). case_bool; [by eexists _, _|].
  apply (drain_spec cms t cm _ st l); [done|done|done|lia].
Qed.

Definition turn_ok (t : turn) : Prop :=
  match t_input t with
  | InPack p => pack_ok p ∧ (Nack (rp_Pack p) = true → nack_ok (t_now t) (t_cm t) p)
  | _ => True
  end.
Definition seen (t : turn) : list (time * ContractManager) := [(t_start t, t_cm t); (t_now t, t_cm t)].

Lemma rs_turn_spec cms t st :
  rs_ok true cms st → turn_ok t → (∀ p, t_input t = InPack p → from_pack (t_now t) p) →
  ∃ go st', rs_turn settings source unmarshalContract unmarshalStored t st = Val (go, st') ∧
    rs_ok go (cms ++ seen t) st'.
Proof.
  intros [Hc Hst] Ht Hfp. unfold rs_turn.
  assert (rs_ok true (cms ++ seen t) st) as Hok.
  { assert (∀ x, x ∈ cms → x ∈ cms ++ seen t) as Hs by (intros; apply elem_of_app; auto).
    split; [by eapply contracts_ok_mono|by eapply rest_ok_mono]. }
  destruct (rs_wait_spec (cms ++ seen t) (t_start t) (t_cm t) st) as (w & st1 & -> & Hok1); [done| |].
  { apply elem_of_app. right. apply elem_of_cons. by left. }
  cbn [obind]. destruct w as [w|]; [|by eexists _, _].
  assert ((t_now t, t_cm t) ∈ cms ++ seen t) as Hin.
  { apply elem_of_app. right. apply elem_of_cons. right. by apply list_elem_of_singleton. }
  assert (∀ b st1, rs_ok b (cms ++ seen t) st1 → rs_ok false (cms ++ seen t) st1) as Hweak.
  { intros b st2 [? ?]. split; [done|by eapply rest_ok_weaken]. }
  unfold turn_ok in Ht. destruct (t_input t) as [p|idle|].
  - assert (∃ r st2, (if Nack (rp_Pack p)
        then receiveNack settings source unmarshalContract unmarshalStored (t_now t) (t_cm t) p st1
        else receive settings source unmarshalContract unmarshalStored (t_now t) (t_cm t) p st1) = Val (r, st2) ∧
      rs_ok (strict_of r) (cms ++ seen t) st2) as (r & st2 & -> & Hok2).
    { destruct Ht as [Hp Hn]. specialize (Hfp p eq_refl). destruct (Nack (rp_Pack p)) eqn:En;
        [apply receiveNack_spec|apply receive_spec]; auto. }
    cbn [obind].
    assert (∀ f b, rs_ok b (cms ++ seen t) st2 → rs_ok b (cms ++ seen t)
      (rs_emit (rs_audit (t_now t) f st2) [EvPoolReturn (rp_TransferFrameBytes p)])) as Hemit.
    { intros f b [Hc2 Hst2]. destruct (rs_audit_rest (t_now t) f st2) as (Hr & Eo & Ec).
      split; [simpl; by rewrite Eo, Ec|]. eapply same_rest_ok; [|done].
      eapply same_rest_trans; [done|]. apply rs_emit_rest. by apply Forall_singleton. }
    destruct r as [[]|e]; [by eexists _, _|..]; eexists _, _; (split; [done|]); by apply Hemit.
  - destruct (negb _) eqn:E; eexists _, _; (split; [done|]); [done|by eapply Hweak].
  - eexists _, _. split; [done|by eapply Hweak].
Qed.

Lemma rs_exit_ok strict cms now st : rs_ok strict cms st → rs_ok strict cms (rs_exit now st).
Proof.
  intros [Hc Hst]. unfold rs_exit.
  set (ev := omap _ _ ++ _).
  assert (quiet ev) as Hev.
  { apply Forall_app. split.
    - apply Forall_forall. intros e [[id c] [_ He]]%list_elem_of_omap. simpl in He.
      case_bool_decide; [done|]. by injection He as <-.
    - case_match; [by apply Forall_singleton|constructor]. }
  set (f := λ st item, _). set (its := h_items _). set (st1 := foldl f (rs_emit st ev) its).
  assert (∀ l st0, same_rest st0 (foldl f st0 l) ∧
    openReceiveContracts (foldl f st0 l) = openReceiveContracts st0 ∧
    receiveContract (foldl f st0 l) = receiveContract st0) as Hf.
  { intros l. induction l as [|x l IH]; intros st0; [split_and!; [apply same_rest_refl|done..]|].
    simpl. destruct (IH (f st0 x)) as (H1 & H2 & H3).
    destruct (rs_audit_rest now (audit_discard (ri_messageByteCount x)) st0) as (H4 & H5 & H6).
    split_and!; [|by rewrite H2|by rewrite H3].
    eapply same_rest_trans; [|done]. eapply same_rest_trans; [exact H4|].
    apply rs_emit_rest. by apply Forall_singleton. }
  destruct (Hf its (rs_emit st ev)) as (H1 & H2 & H3). fold st1 in H1, H2, H3.
  destruct (audit_Complete (rs_peerAudit st1)) as [out a].
  split; simpl; [by rewrite H2, H3|]. eapply same_rest_ok; [|done].
  eapply same_rest_trans; [by apply (rs_emit_rest st ev)|]. eapply same_rest_trans; [exact H1|].
  split_and!; try done. exists (map EvAudit out). split; [done|apply quiet_audit].
Qed.

Lemma rs_run_ok cms turns st :
  rs_ok true cms st → Forall turn_ok turns →
  (∀ t p, t ∈ turns → t_input t = InPack p → from_pack (t_now t) p) →
  ∃ go st' cms', rs_run settings source unmarshalContract unmarshalStored turns st = Val (go, st') ∧
    rs_ok go cms' st' ∧ cms' ⊆ cms ++ concat (map seen turns).
Proof.
  revert cms st. induction turns as [|t turns IH]; intros cms st Hok Ht Hfp.
  { exists true, st, cms. split_and!; try done. simpl. by rewrite app_nil_r. }
  apply Forall_cons in Ht as [Ht Hts]. cbn [rs_run].
  destruct (rs_turn_spec cms t st Hok Ht) as (go & st1 & -> & Hok1).
  { intros p. apply Hfp, elem_of_cons. by left. }
  cbn [obind]. destruct go.
  - destruct (IH _ _ Hok1 Hts) as (go & st2 & cms' & -> & Hok2 & Hsub).
    { intros t' p Ht'. apply Hfp, elem_of_cons. by right. }
    exists go, st2, cms'. split_and!; try done. cbn [map concat]. by rewrite (assoc_L (++)).
  - eexists false, _, _. split; [done|]. split; [by apply rs_exit_ok|]. cbn [map concat].
    rewrite (assoc_L (++)). intros x Hx. apply elem_of_app. by left.
Qed.

Lemma new_ok : base = [] → ∃ st0, NewReceiveSequence source settings = Val st0 ∧ rs_ok true [] st0.
Proof.
  intros Hbase. unfold NewReceiveSequence. destruct (newTransferQueue_holds receive_cmp) as (q & -> & Hq).
  cbn [obind]. eexists. split; [done|]. split.
  - split; simpl; try done.
  - split; simpl; try done; [by rewrite Hbase|by intros ? ? ?%elem_of_nil..|]. exists []. split_and!; [done|constructor|].
    left. simpl. lia.
Qed.

(** [Run] from the new sequence. *)
Definition receive_run (turns : list turn) : outcome (bool * ReceiveSequence) :=
  let! st0 := NewReceiveSequence source settings in
  rs_run settings source unmarshalContract unmarshalStored turns st0.

Lemma receive_run_ok turns :
  base = [] → Forall turn_ok turns → (∀ t p, t ∈ turns → t_input t = InPack p → from_pack (t_now t) p) →
  ∃ go st, receive_run turns = Val (go, st) ∧ rs_ok go (concat (map seen turns)) st.
Proof.
  intros Hbase Ht Hfp. unfold receive_run. destruct (new_ok Hbase) as (st0 & -> & H0). cbn [obind].
  destruct (rs_run_ok [] turns st0 H0 Ht Hfp) as (go & st & cms' & -> & [Hc Hst] & Hsub).
  exists go, st. split; [done|]. split; [by eapply contracts_ok_mono|by eapply rest_ok_mono].
Qed.

End Invariant.

(** Items may come from more, and the run be seen from elsewhere. *)
Lemma rest_ok_change settings source (from from' : receiveItem → Prop) base base' strict cms st :
  (∀ i, from i → from' i) → base' `prefix_of` events st →
  rest_ok settings source from base strict cms st → rest_ok settings source from' base' strict cms st.
Proof.
  intros Hf Hb [H1 H2 H3 H4 H5 _ H6 H7 H8 (l & Hq & Hl & Hfit)]. split; try done.
  - intros i m Hi. by eapply Hf, H7.
  - intros h Hh. destruct (H8 h Hh) as (i & ? & ?). exists i. split; [by apply Hf|done].
  - exists l. split_and!; [done| |done]. eapply Forall_impl; [exact Hl|].
    intros i (? & ? & ? & ? & ?). unfold queued_ok. split_and!; solve [done | lia | by apply Hf].
Qed.
Lemma in_order_snoc_inv n l x :
  in_order n (l ++ [x]) → in_order n l ∧
    (ri_sequenceNumber x = next_after n l ∨ ri_head x = true ∧ (next_after n l < ri_sequenceNumber x)%Z).
Proof.
  revert n. induction l as [|y l IH]; intros n; [by intros [? _]|]. intros [Hy Hl].
  destruct (IH _ Hl) as [? ?]. by split.
Qed.
Lemma next_after_seqZ l :
  map ri_sequenceNumber l = seqZ 0 (Z.of_nat (length l)) → next_after 0 l = Z.of_nat (length l).
Proof.
  destruct l as [|x l _] using rev_ind; [done|]. rewrite next_after_snoc, length_app, map_app. simpl. intros E.
  assert (seqZ 0 (Z.of_nat (length l + 1)) !! length l = Some (ri_sequenceNumber x)) as El.
  { rewrite <-E. rewrite lookup_app_r; rewrite length_map; [|done]. by rewrite Nat.sub_diag. }
  apply lookup_seqZ in El. lia.
Qed.

(** ** What a receive sequence promises *)
Section Promises.
Variable settings : ReceiveBufferSettings.
Variable source : TransferPath.
Variable unmarshalContract : list byte → outcome Contract.
Variable unmarshalStored : list byte → outcome StoredContract.
Hypothesis min_small : (0 ≤ MinMessageByteCount settings < 2 ^ 62)%Z.
Hypothesis max_small : (ReceiveQueueMaxByteCount settings ≤ 2 ^ 62)%Z.
Hypothesis stored_small : ∀ b s, unmarshalStored b = Val s →
  (f32_to_i64 (f32_mul (f32_of_Z (TransferByteCount s)) fill_one) < 2 ^ 62)%Z.
Abbreviation turn_ok := (turn_ok source).
Abbreviation receive_run := (receive_run settings source unmarshalContract unmarshalStored).

Lemma in_order_increasing n l :
  in_order n l → StronglySorted Z.lt (map ri_sequenceNumber l) ∧
    Forall (λ x, n ≤ ri_sequenceNumber x)%Z l.
Proof.
  revert n. induction l as [|x l IH]; intros n Hl; [by split; constructor|].
  destruct Hl as [Hx Hl]. destruct (IH _ Hl) as [Hs Hf]. simpl.
  assert (n ≤ ri_sequenceNumber x)%Z as Hn by (destruct Hx as [->|[_ ?]]; lia).
  split.
  - constructor; [done|]. apply Forall_map. eapply Forall_impl; [done|]. simpl. lia.
  - constructor; [done|]. eapply Forall_impl; [done|]. simpl. lia.
Qed.

(** [i] was made from a pack of the run. *)
Definition arrived (turns : list turn) (i : receiveItem) : Prop :=
  ∃ t p m c, t ∈ turns ∧ t_input t = InPack p ∧ IdFromBytes (Pack_MessageId (rp_Pack p)) = Val m ∧
    i = make_item (t_now t) m c p.
Lemma receive_run_arrived turns :
  Forall turn_ok turns →
  ∃ go st, receive_run turns = Val (go, st) ∧
    rs_ok settings source (arrived turns) [] go (concat (map seen turns)) st.
Proof.
  intros Ht. apply (receive_run_ok settings source unmarshalContract unmarshalStored min_small max_small
    stored_small); try done.
  - intros i c (t & p & m & c0 & Hin & Hp & Hm & ->). by exists t, p, m, c.
  - intros t p Hin Hp m c Hm. by exists t, p, m, c.
Qed.

(** C3. A receive sequence delivers in order and once, and never panics: for
    all packs (any order, repeats, sizes below 2^62, numbers below 2^64 - 1),
    clocks, timeouts and states of the contract manager, the run gives a result,
    and the messages delivered with an ack have strictly increasing numbers;
    the first is number 0 and each next the successor of the one before, except
    where the sender marked a message as the head of its sequence. Everything
    delivered was made from a pack that arrived. A nack with a contract id must
    not come from a peer that needs no contract. *)
Theorem receive_in_order (turns : list turn) :
  Forall turn_ok turns →
  ∃ go st, receive_run turns = Val (go, st) ∧ in_order 0 (delivered st) ∧
    StronglySorted Z.lt (map ri_sequenceNumber (delivered st)) ∧
    (∀ i mode, EvReceive i mode ∈ events st → arrived turns i).
Proof.
  intros Ht. destruct (receive_run_arrived turns Ht) as (go & st & Hr & _ & Hst).
  exists go, st. assert (in_order 0 (delivered st)) as Ho by apply Hst. split_and!; [done..| |].
  - by apply (in_order_increasing 0).
  - apply Hst.
Qed.

(** C5. Full acks are sound: while the sequence runs, the head ack that the
    ack window holds (everything up to it is acked) is below the number that
    follows the last delivered message, so nothing undelivered is acked in
    full; and it names a message that arrived, by its number and id. *)
Theorem receive_acks_sound (turns : list turn) :
  Forall turn_ok turns →
  ∃ go st, receive_run turns = Val (go, st) ∧
    (go = true → ∀ h, headAck (rs_ackWindow st) = Some h →
      (ack_sequenceNumber h < next_after 0 (delivered st))%Z ∧
      from_ack (arrived turns) (ack_sequenceNumber h) (ack_messageId h)).
Proof.
  intros Ht. destruct (receive_run_arrived turns Ht) as (go & st & Hr & _ & Hst).
  exists go, st. split; [done|]. intros -> h Hh. destruct Hst as [_ _ _ Ha _ _ _ _ Hf _].
  auto.
Qed.

(** C6. Nothing is delivered without being paid for: every delivery was
    debited from a contract that the contract manager verified during the run,
    with that contract's provide mode, or comes from a peer (never a stream)
    that the contract manager exempted; and every open contract was verified,
    has no debit pending, and has acked no more than its effective byte count. *)
Theorem receive_paid (turns : list turn) :
  Forall turn_ok turns →
  ∃ go st, receive_run turns = Val (go, st) ∧
    (∀ i mode, EvReceive i mode ∈ events st → authorized source (concat (map seen turns)) i mode) ∧
    (∀ id c, openReceiveContracts st !! id = Some c → sc_contractId c = id ∧
       verified (concat (map seen turns)) c ∧ unackedByteCount c = 0%Z ∧
       (0 ≤ ackedByteCount c ≤ Z.max 0 (effectiveTransferByteCount c))%Z).
Proof.
  intros Ht. destruct (receive_run_arrived turns Ht) as (go & st & Hr & Hc & Hst).
  exists go, st. split; [done|]. split; [apply Hst|]. intros id c Hid.
  destruct (ck_acc _ _ _ _ _ Hc _ _ Hid) as [_ Ha Hu Hf _]. simpl in Hu. unfold zsum in Hu. simpl in Hu.
  split_and!; [by eapply ck_id|by eapply ck_ver|done|done|lia].
Qed.

(** C20. The receive queue is bounded: whatever is sent, the queue holds at
    most one message or messages of fewer bytes in total than
    [ReceiveQueueMaxByteCount]. *)
Theorem receive_queue_bounded (turns : list turn) :
  Forall turn_ok turns →
  ∃ go st l, receive_run turns = Val (go, st) ∧ queue_holds receive_cmp (receiveQueue st) l ∧
    (length l ≤ 1 ∨ (zsum (map ri_messageByteCount l) < ReceiveQueueMaxByteCount settings)%Z).
Proof.
  intros Ht. destruct (receive_run_arrived turns Ht) as (go & st & Hr & _ & Hst).
  destruct Hst as [_ _ _ _ _ _ _ _ _ (l & Hq & _ & Hf)]. by exists go, st, l.
Qed.
End Promises.

(** ** A concrete run *)
Module ReceiveExample.
Import ContractExample ManagerExample.
Definition ex_rsettings : ReceiveBufferSettings :=
  mkReceiveSettings (60 * second) (60 * second) 10 1000 false 2 (60 * second) 2.
Definition ex_source : TransferPath := SourceId (ex_id 2).
Definition ex_key_bytes : list byte := [Byte.x01; Byte.x02].
Definition ex_cm : ContractManager :=
  set_keys ex_m0 {[ProvideMode_Public := ex_key_bytes]} {[ProvideMode_Public := true]} false.
Definition ex_good : Contract :=
  mkContract (Id_Bytes (ex_id 5)) (mac_Sum ex_key_bytes [] (Id_Bytes (ex_id 5))) ProvideMode_Public.
(** The codec of the example: one frame that holds the contract. *)
Definition ex_unmarshalContract (b : list byte) : outcome Contract :=
  if bool_decide (b = [Byte.x07]) then Val ex_good else Err "proto".

Definition ex_pack (n : Z) (nack : bool) (frame : option Frame) (cid : option (list byte)) : ReceivePack :=
  mkReceivePack (mkPack (Id_Bytes (ex_id n)) [] n false [] nack frame None cid) 1 20 [byte_of n].
Definition ex_turn (t : time) (p : ReceivePack) : turn := mkTurn t t ex_cm (InPack p).
Definition ex_frame : option Frame := Some (mkFrame 2 [Byte.x07] false).
(** Message 2 comes early, 0 carries the contract, 1 closes the gap, 1 again. *)
Definition ex_turns : list turn :=
  [ex_turn 10 (ex_pack 2 false None None); ex_turn 20 (ex_pack 0 false ex_frame None);
   ex_turn 30 (ex_pack 1 false None None); ex_turn 40 (ex_pack 1 false None None)].

Lemma ex_stored_small b s : ex_unmarshal b = Val s →
  (f32_to_i64 (f32_mul (f32_of_Z (TransferByteCount s)) fill_one) < 2 ^ 62)%Z.
Proof.
  unfold ex_unmarshal. case_bool_decide; [|done]. intros [= <-]. vm_compute. reflexivity.
Qed.
Lemma ex_turns_ok : Forall (turn_ok ex_source) ex_turns.
Proof. repeat constructor; simpl; try lia; by intros. Qed.

Example ex_run :
  (let! (go, st) := receive_run ex_rsettings ex_source ex_unmarshalContract ex_unmarshal ex_turns in
   Val (go, map ri_sequenceNumber (delivered st), ack_sequenceNumber <$> headAck (rs_ackWindow st),
        ackedByteCount <$> openReceiveContracts st !! ex_id 5))
  = Val (true, [0; 1; 2], Some 2, Some 60)%Z.
Proof. vm_compute. reflexivity. Qed.

Lemma receive_in_order_witness :
  ∃ go st, receive_run ex_rsettings ex_source ex_unmarshalContract ex_unmarshal ex_turns = Val (go, st) ∧
    in_order 0 (delivered st) ∧ StronglySorted Z.lt (map ri_sequenceNumber (delivered st)) ∧
    (∀ i mode, EvReceive i mode ∈ events st → arrived ex_turns i).
Proof.
  apply (receive_in_order ex_rsettings ex_source ex_unmarshalContract ex_unmarshal);
    [simpl; lia|simpl; lia|exact ex_stored_small|exact ex_turns_ok].
Defined.
Lemma receive_acks_sound_witness :
  ∃ go st, receive_run ex_rsettings ex_source ex_unmarshalContract ex_unmarshal ex_turns = Val (go, st) ∧
    (go = true → ∀ h, headAck (rs_ackWindow st) = Some h →
      (ack_sequenceNumber h < next_after 0 (delivered st))%Z ∧
      from_ack (arrived ex_turns) (ack_sequenceNumber h) (ack_messageId h)).
Proof.
  apply (receive_acks_sound ex_rsettings ex_source ex_unmarshalContract ex_unmarshal);
    [simpl; lia|simpl; lia|exact ex_stored_small|exact ex_turns_ok].
Defined.
Lemma receive_paid_witness :
  ∃ go st, receive_run ex_rsettings ex_source ex_unmarshalContract ex_unmarshal ex_turns = Val (go, st) ∧
    (∀ i mode, EvReceive i mode ∈ events st →
       authorized ex_source (concat (map seen ex_turns)) i mode) ∧
    (∀ id c, openReceiveContracts st !! id = Some c → sc_contractId c = id ∧
       verified (concat (map seen ex_turns)) c ∧ unackedByteCount c = 0%Z ∧
       (0 ≤ ackedByteCount c ≤ Z.max 0 (effectiveTransferByteCount c))%Z).
Proof.
  apply (receive_paid ex_rsettings ex_source ex_unmarshalContract ex_unmarshal);
    [simpl; lia|simpl; lia|exact ex_stored_small|exact ex_turns_ok].
Defined.
Lemma receive_queue_bounded_witness :
  ∃ go st l, receive_run ex_rsettings ex_source ex_unmarshalContract ex_unmarshal ex_turns = Val (go, st) ∧
    queue_holds receive_cmp (receiveQueue st) l ∧
    (length l ≤ 1 ∨ (zsum (map ri_messageByteCount l) < 1000)%Z).
Proof.
  apply (receive_queue_bounded ex_rsettings ex_source ex_unmarshalContract ex_unmarshal);
    [simpl; lia|simpl; lia|exact ex_stored_small|exact ex_turns_ok].
Defined.

(** A nack that names a full contract, from a peer that needs no contract:
    [updateContract] allows it, [receiveHead] then acks a debit that was never
    made and panics. *)
Definition ex_peer_cm : ContractManager := AddNoContractPeer (ex_id 2) ex_cm.
Definition ex_big (p : ReceivePack) : ReceivePack :=
  mkReceivePack (rp_Pack p) (rp_ReceiveCallback p) 2000 (rp_TransferFrameBytes p).
Example nack_full_contract_panics :
  receive_run ex_rsettings ex_source ex_unmarshalContract ex_unmarshal
    [mkTurn 10 10 ex_peer_cm (InPack (ex_pack 0 false ex_frame None));
     mkTurn 20 20 ex_peer_cm (InPack (ex_big (ex_pack 1 true None (Some (Id_Bytes (ex_id 5))))))]
  = Panic "Bad accounting".
Proof. vm_compute. reflexivity. Qed.
End ReceiveExample.
