(* ===== verification/SendSequence.v ===== *)
(** * The send sequence: SendSequence of transfer.go

    One send sequence: its contracts, the resend queue, the acks and the turns
    of [Run]. A turn applies the snapshot of the ack window, resends what is
    due, and takes at most one pack from the channel. The acks that the ack
    goroutine handles between two turns are an input of the turn, as are the
    clock, the ids that [NewId] draws, the managers that [TakeContract] finds
    and whether the write of an unacked message succeeds.

    Pointers: an item of the resend queue is only written while it is out of
    the queue, so the queue holds the records; [sendItems] shares them, and
    [write_item] writes the shared record (the pointer is the message id).
    [sendContract] is the id of a contract of [openSendContracts], and the
    pointer that a contract's ack callback keeps is its local id. *)

From Stdlib Require Import Floats.SpecFloat.
From S2P Require Import Prelude Ids GoHeap TransferQueue RttWindow Contracts Wire ContractManager ReceiveSequence.
Open Scope go_scope.

Definition f32_add (a b : spec_float) : spec_float := SFadd f32_prec f32_emax a b.
Definition f32_div (a b : spec_float) : spec_float := SFdiv f32_prec f32_emax a b.
(** ** Items *)
Inductive AckCallback := CbUser (h : positive) | CbContract (localId : positive).
#[export] Instance AckCallback_eq_dec : EqDecision AckCallback.
Proof. solve_decision. Defined.
#[export] Program Instance AckCallback_countable : Countable AckCallback :=
  inj_countable' (λ c, match c with CbUser h => inl h | CbContract l => inr l end)
    (λ s, match s with inl h => CbUser h | inr l => CbContract l end) _.
Next Obligation. by intros []. Qed.

Record sendItem := mkSendItem {
  si_messageId : Id;
  si_sequenceNumber : Z;
  si_messageByteCount : Z;
  si_contractId : option Id;
  si_head : bool;
  si_hasContractFrame : bool;
  si_sendTime : time;
  si_resendTime : time;
  si_sendCount : Z;
  si_transferFrameBytes : list byte;
  si_ackCallback : AckCallback
}.
#[export] Instance sendItem_eq_dec : EqDecision sendItem.
Proof. solve_decision. Defined.
#[export] Program Instance sendItem_countable : Countable sendItem :=
  inj_countable'
    (λ i, (si_messageId i, si_sequenceNumber i, si_messageByteCount i, si_contractId i, si_head i,
           (si_hasContractFrame i, si_sendTime i, si_resendTime i, si_sendCount i,
            si_transferFrameBytes i, si_ackCallback i)))
    (λ '(m, s, b, c, h, (hc, st, rt, n, tf, cb)), mkSendItem m s b c h hc st rt n tf cb) _.
Next Obligation. by intros []. Qed.
#[export] Instance sendItem_item : TransferQueueItem sendItem := {
  MessageId := si_messageId;
  MessageByteCount := si_messageByteCount;
  SequenceNumber := si_sequenceNumber
}.
(** The comparison of [newResendQueue]. *)
Definition send_cmp (a b : sendItem) : Z :=
  if (si_resendTime a <? si_resendTime b)%Z then (-1)%Z
  else if (si_resendTime b <? si_resendTime a)%Z then 1%Z else 0%Z.
#[export] Instance send_cmp_laws : TransferQueueCmp send_cmp.
Proof. split; unfold send_cmp; intros *; repeat case_bool; lia. Qed.

(** The writes of [Run] and [receiveAck] to an item. *)
Definition item_set_head (bytes : list byte) (i : sendItem) : sendItem :=
  mkSendItem (si_messageId i) (si_sequenceNumber i) (si_messageByteCount i) (si_contractId i) true
    (si_hasContractFrame i) (si_sendTime i) (si_resendTime i) (si_sendCount i) bytes (si_ackCallback i).
Definition item_set_resend (resendTime : time) (sendCount : Z) (i : sendItem) : sendItem :=
  mkSendItem (si_messageId i) (si_sequenceNumber i) (si_messageByteCount i) (si_contractId i)
    (si_head i) (si_hasContractFrame i) (si_sendTime i) resendTime sendCount
    (si_transferFrameBytes i) (si_ackCallback i).
Definition write_item (x : sendItem) (l : list sendItem) : list sendItem :=
  map (λ i, if bool_decide (si_messageId i = si_messageId x) then x else i) l.

Record SendBufferSettings := mkSendSettings {
  CreateContractTimeout : duration;
  MinResendInterval : duration;
  MaxResendInterval : duration;
  RttScale : spec_float;
  RttWindowSize : nat;
  RttWindowTimeout : duration;
  AckTimeout : duration;
  Send_IdleTimeout : duration;
  SelectiveAckTimeout : duration;
  Send_MinMessageByteCount : Z;
  ResendQueueMaxByteCount : Z;
  ContractFillFraction : spec_float;
  ProtocolVersion : Z
}.
Record SendPack := mkSendPack {
  sp_Frame : Frame;
  sp_AckCallback : positive;
  sp_Ack : bool;
  sp_MessageByteCount : Z
}.

(** ** State *)
Inductive ss_event :=
| EvTake (p : SendPack)
| EvQueue (item : sendItem)
| EvWrite (destination : TransferPath) (item : sendItem)
| EvCallback (messageId : option Id) (cb : AckCallback) (err : option string)
| EvReturn (bytes : list byte)
| EvManager (o : cm_out)
| EvUse (contract : sequenceContract)
| EvFlushContractQueue (key : ContractKey)
| EvOpenWriter (destination : TransferPath)
| EvCloseWriter (destination : TransferPath)
| EvAssociate (destination : TransferPath).

Record SendSequence := mkSendSequence {
  sendContract : option Id;
  sendContractAcked : bool;
  openSendContracts : gmap Id sequenceContract;
  resendQueue : transferQueue sendItem;
  sendItems : list sendItem;
  ss_nextSequenceNumber : Z;
  ss_rttWindow : RttWindow;
  ss_ackWindow : sequenceAckWindow;
  contractMultiRouteWriter : option TransferPath;
  contractSeqIndex : Z;
  ss_nextLocalId : positive;
  ss_events : list ss_event
}.
Definition ss_set_contracts (cur : option Id) (acked : bool) (open : gmap Id sequenceContract)
    (st : SendSequence) : SendSequence :=
  mkSendSequence cur acked open (resendQueue st) (sendItems st) (ss_nextSequenceNumber st)
    (ss_rttWindow st) (ss_ackWindow st) (contractMultiRouteWriter st) (contractSeqIndex st)
    (ss_nextLocalId st) (ss_events st).
Definition ss_set_items (q : transferQueue sendItem) (l : list sendItem) (st : SendSequence)
    : SendSequence :=
  mkSendSequence (sendContract st) (sendContractAcked st) (openSendContracts st) q l
    (ss_nextSequenceNumber st) (ss_rttWindow st) (ss_ackWindow st) (contractMultiRouteWriter st)
    (contractSeqIndex st) (ss_nextLocalId st) (ss_events st).
Definition ss_set_next (n : Z) (st : SendSequence) : SendSequence :=
  mkSendSequence (sendContract st) (sendContractAcked st) (openSendContracts st) (resendQueue st)
    (sendItems st) n (ss_rttWindow st) (ss_ackWindow st) (contractMultiRouteWriter st)
    (contractSeqIndex st) (ss_nextLocalId st) (ss_events st).
Definition ss_set_rtt (w : RttWindow) (st : SendSequence) : SendSequence :=
  mkSendSequence (sendContract st) (sendContractAcked st) (openSendContracts st) (resendQueue st)
    (sendItems st) (ss_nextSequenceNumber st) w (ss_ackWindow st) (contractMultiRouteWriter st)
    (contractSeqIndex st) (ss_nextLocalId st) (ss_events st).
Definition ss_set_acks (w : sequenceAckWindow) (st : SendSequence) : SendSequence :=
  mkSendSequence (sendContract st) (sendContractAcked st) (openSendContracts st) (resendQueue st)
    (sendItems st) (ss_nextSequenceNumber st) (ss_rttWindow st) w (contractMultiRouteWriter st)
    (contractSeqIndex st) (ss_nextLocalId st) (ss_events st).
Definition ss_set_writer (w : option TransferPath) (st : SendSequence) : SendSequence :=
  mkSendSequence (sendContract st) (sendContractAcked st) (openSendContracts st) (resendQueue st)
    (sendItems st) (ss_nextSequenceNumber st) (ss_rttWindow st) (ss_ackWindow st) w
    (contractSeqIndex st) (ss_nextLocalId st) (ss_events st).
Definition ss_set_index (n : Z) (st : SendSequence) : SendSequence :=
  mkSendSequence (sendContract st) (sendContractAcked st) (openSendContracts st) (resendQueue st)
    (sendItems st) (ss_nextSequenceNumber st) (ss_rttWindow st) (ss_ackWindow st)
    (contractMultiRouteWriter st) n (ss_nextLocalId st) (ss_events st).
Definition ss_set_local (p : positive) (st : SendSequence) : SendSequence :=
  mkSendSequence (sendContract st) (sendContractAcked st) (openSendContracts st) (resendQueue st)
    (sendItems st) (ss_nextSequenceNumber st) (ss_rttWindow st) (ss_ackWindow st)
    (contractMultiRouteWriter st) (contractSeqIndex st) p (ss_events st).
Definition ss_emit (ev : list ss_event) (st : SendSequence) : SendSequence :=
  mkSendSequence (sendContract st) (sendContractAcked st) (openSendContracts st) (resendQueue st)
    (sendItems st) (ss_nextSequenceNumber st) (ss_rttWindow st) (ss_ackWindow st)
    (contractMultiRouteWriter st) (contractSeqIndex st) (ss_nextLocalId st) (ss_events st ++ ev).

Definition NewSendSequence (s : SendBufferSettings) : outcome SendSequence :=
  let! w := NewRttWindow (RttWindowSize s) (RttWindowTimeout s) (RttScale s) (MinResendInterval s)
              (MaxResendInterval s) in
  let! q := newTransferQueue send_cmp in
  Val (mkSendSequence None false ∅ q [] 0 w newSequenceAckWindow None 0 1 []).

Section SendSequence.
Context `{codec : TransferCodec}.
Variable settings : SendBufferSettings.
Variable clientId : Id.
Variable sequenceId : Id.
(** The destination, the intermediaries and the two flags. *)
Variable key : ContractKey.
Variable unmarshalStored : list byte → outcome StoredContract.

Definition current_contract (st : SendSequence) : option sequenceContract :=
  sendContract st ≫= λ id, openSendContracts st !! id.

(** *** Callbacks and acks *)
(** [ackCallback(err)]: that of a contract is [setContractAcked]. *)
Definition setContractAcked (localId : positive) (ack : bool) (st : SendSequence) : SendSequence :=
  match current_contract st with
  | Some c => if bool_decide (sc_localId c = localId)
              then ss_set_contracts (sendContract st) ack (openSendContracts st) st else st
  | None => st
  end.
Definition call_back (messageId : option Id) (cb : AckCallback) (err : option string)
    (st : SendSequence) : SendSequence :=
  let st := ss_emit [EvCallback messageId cb err] st in
  match cb with
  | CbUser _ => st
  | CbContract localId => setContractAcked localId true st
  end.

Definition close_contract (c : sequenceContract) : ss_event :=
  EvManager (OutCloseContract (sc_contractId c) (ackedByteCount c) (unackedByteCount c) false).

Definition ackItem (item : sendItem) (st : SendSequence) : outcome SendSequence :=
  let! st :=
    match si_contractId item with
    | None => Val st
    | Some id =>
        match openSendContracts st !! id with
        | None => Val st
        | Some c =>
            let! c := sc_ack (si_messageByteCount item) c in
            if (bool_decide (sendContract st ≠ Some id) && (unackedByteCount c =? 0)%Z)%bool
            then Val (ss_emit [close_contract c]
                        (ss_set_contracts (sendContract st) (sendContractAcked st)
                           (delete (sc_contractId c) (openSendContracts st)) st))
            else Val (ss_set_contracts (sendContract st) (sendContractAcked st)
                        (<[id := c]> (openSendContracts st)) st)
        end
    end in
  Val (ss_emit [EvReturn (si_transferFrameBytes item)]
         (call_back (Some (si_messageId item)) (si_ackCallback item) None st)).

(** The loop over the earlier items: those that are left. *)
Fixpoint ack_through (sequenceNumber : Z) (l : list sendItem) (st : SendSequence)
    : outcome SendSequence :=
  match l with
  | [] => Val (ss_set_items (resendQueue st) [] st)
  | implicitItem :: l' =>
      if (sequenceNumber <? si_sequenceNumber implicitItem)%Z
      then Val (ss_set_items (resendQueue st) l st) else
      let! (removed, q) := RemoveByMessageId send_cmp (si_messageId implicitItem) (resendQueue st) in
      match removed with
      | None => Panic "Missing item"
      | Some _ =>
          let! st := ackItem implicitItem (ss_set_items q (sendItems st) st) in
          ack_through sequenceNumber l' st
      end
  end.

Definition receiveAck (now : time) (messageId : Id) (selective : bool) (tag : option Z)
    (st : SendSequence) : outcome SendSequence :=
  match GetByMessageId messageId (resendQueue st) with
  | None => Val st
  | Some item =>
      let! st := match tag with
                 | Some t => let! w := closeTag t now (ss_rttWindow st) in Val (ss_set_rtt w st)
                 | None => Val st
                 end in
      if selective then
        let! (removed, q) := RemoveByMessageId send_cmp messageId (resendQueue st) in
        match removed with
        | None => Panic "Missing item"
        | Some _ =>
            let item := item_set_resend (now + SelectiveAckTimeout settings) (si_sendCount item) item in
            let! q := Add send_cmp item q in
            Val (ss_set_items q (write_item item (sendItems st)) st)
        end
      else ack_through (si_sequenceNumber item) (sendItems st) st
  end.

(** The ack goroutine. [Ack] has checked the sequence id. *)
Definition take_ack (ack : ProtoAck) (st : SendSequence) : SendSequence :=
  match IdFromBytes (pa_MessageId ack) with
  | Val messageId =>
      match ContainsMessageId messageId (resendQueue st) with
      | Some sequenceNumber =>
          ss_set_acks (ackWindow_Update (mkAck sequenceNumber messageId (pa_Selective ack) (pa_Tag ack))
                         (ss_ackWindow st)) st
      | None => st
      end
  | _ => st
  end.
(** [Ack] puts an ack into the channel only when it is for this sequence. *)
Definition accept_ack (ack : ProtoAck) (st : SendSequence) : SendSequence :=
  match IdFromBytes (pa_SequenceId ack) with
  | Val id => if bool_decide (sequenceId = id) then take_ack ack st else st
  | _ => st
  end.

(** *** Writing *)
Definition openContractMultiRouteWriter (st : SendSequence) : SendSequence :=
  let destination := match current_contract st with
                     | None => Destination key
                     | Some c => DestinationMask (sc_path c)
                     end in
  if bool_decide (contractMultiRouteWriter st = Some destination) then st else
  ss_set_writer (Some destination)
    (ss_emit (match contractMultiRouteWriter st with Some d => [EvCloseWriter d] | None => [] end
              ++ [EvOpenWriter destination; EvAssociate destination]) st).
Definition closeContractMultiRouteWriter (st : SendSequence) : SendSequence :=
  match contractMultiRouteWriter st with
  | Some d => ss_set_writer None (ss_emit [EvCloseWriter d] st)
  | None => st
  end.
Definition write (item : sendItem) (st : SendSequence) : SendSequence :=
  let st := openContractMultiRouteWriter st in
  ss_emit (match contractMultiRouteWriter st with Some d => [EvWrite d item] | None => [] end) st.

(** The bytes of a pack: protocol 2 embeds it, before it is a frame. *)
Definition frame_bytes (path : ProtoTransferPath) (pack : Pack) : list byte :=
  marshalTransferFrame
    (if (2 <=? ProtocolVersion settings)%Z
     then mkTransferFrame path None (Some MessageType_TransferPack) (Some pack) None
     else mkTransferFrame path (Some (mkFrame MessageType_TransferPack (marshalPack pack) false))
            None None None).
Definition contract_frame (c : sequenceContract) : Frame :=
  mkFrame MessageType_TransferContract (marshalContract (sc_contract c)) false.

Definition sendWithSetContract (now : time) (writeErr : option string) (messageId : Id)
    (frame : option Frame) (ackCallback : AckCallback) (ack setContract : bool) (st : SendSequence)
    : outcome SendSequence :=
  let cur := current_contract st in
  let ack := (ack || (bool_decide (sendContract st ≠ None) && negb (sendContractAcked st)))%bool in
  let head := (ack && (length (sendItems st) =? 0)%nat)%bool in
  let sequenceNumber := if ack then ss_nextSequenceNumber st else 0%Z in
  let st := if ack then ss_set_next (u64 (ss_nextSequenceNumber st + 1)) st else st in
  let contractFrame := if (head || setContract)%bool then contract_frame <$> cur else None in
  let frames := option_list frame in
  let pack := mkPack (Id_Bytes messageId) (Id_Bytes sequenceId) sequenceNumber head frames (negb ack)
                contractFrame (Some (openTag now))
                (if ack then None else Id_Bytes <$> sendContract st) in
  let path := match cur with
              | None => AddSource (Destination key) clientId
              | Some c => sc_path c
              end in
  let! (rtt, w) := scaledRtt now (ss_rttWindow st) in
  let st := ss_set_rtt w st in
  let item := mkSendItem messageId sequenceNumber (MessageByteCount_frames frames) (sendContract st)
                head (bool_decide (contractFrame ≠ None)) now (now + rtt) 1
                (frame_bytes (ToProtobuf path) pack) ackCallback in
  let st := write item st in
  let! st :=
    (if ack then
       let! q := Add send_cmp item (resendQueue st) in
       Val (ss_emit [EvQueue item] (ss_set_items q (sendItems st ++ [item]) st))
     else match writeErr with
          | None => ackItem item st
          | Some e => Val (ss_emit [EvReturn (si_transferFrameBytes item)]
                             (call_back (Some messageId) ackCallback (Some e) st))
          end) in
  Val (ss_emit ((if (2 <=? ProtocolVersion settings)%Z then [] else [EvReturn (marshalPack pack)])
                ++ map (λ f, EvReturn (MessageBytes f)) frames
                ++ map (λ f, EvReturn (MessageBytes f)) (option_list contractFrame)) st).

(** [setHead]: the bytes of the item as the head, with its contract. *)
Definition pack_with_head (tag : Z) (contractFrame : option Frame) (p : Pack) : Pack :=
  mkPack (Pack_MessageId p) (Pack_SequenceId p) (Pack_SequenceNumber p) true (Frames p) (Nack p)
    contractFrame (Some tag) (Pack_ContractId p).
Definition pack_of (tf : TransferFrame) : outcome Pack :=
  match tf_Pack tf with
  | Some p => Val p
  | None => match tf_Frame tf with
            | Some f => unmarshalPack (MessageBytes f)
            | None => Panic "nil pointer dereference"
            end
  end.
Definition setHead (now : time) (item : sendItem) (st : SendSequence) : outcome (list byte) :=
  let! tf := unmarshalTransferFrame (si_transferFrameBytes item) in
  let! pack := pack_of tf in
  let! contractFrame :=
    match si_contractId item with
    | Some id =>
        if si_hasContractFrame item then Val (ContractFrame pack)
        else match openSendContracts st !! id with
             | Some c => Val (Some (contract_frame c))
             | None => Panic "nil pointer dereference"
             end
    | None => Val (ContractFrame pack)
    end in
  let pack := pack_with_head (openTag now) contractFrame pack in
  Val (marshalTransferFrame
         (match tf_Pack tf, tf_Frame tf with
          | None, Some f =>
              mkTransferFrame (tf_TransferPath tf) (Some (mkFrame (MessageType f) (marshalPack pack) (Raw f)))
                (tf_MessageType tf) None (tf_Ack tf)
          | _, f => mkTransferFrame (tf_TransferPath tf) f (tf_MessageType tf) (Some pack) (tf_Ack tf)
          end)).

(** *** Contracts *)
Definition ss_setContract (next : sequenceContract) (st : SendSequence) : SendSequence :=
  let '(open, ev) :=
    match current_contract st with
    | Some c => if (unackedByteCount c =? 0)%Z
                then (delete (sc_contractId c) (openSendContracts st), [close_contract c])
                else (openSendContracts st, [])
    | None => (openSendContracts st, [])
    end in
  ss_emit ev (ss_set_contracts (Some (sc_contractId next)) false
                (<[sc_contractId next := next]> open) st).

(** An attempt to take a contract: the clock before it and when it has returned,
    the manager as the last poll finds it, and the key it picks. *)
Record attempt := mkAttempt { at_time : time; at_end : time; at_cm : ContractManager; at_choice : nat }.

Definition setNextContract (now : time) (messageId : Id) (messageByteCount : Z) (contract : Contract)
    (st : SendSequence) : outcome (bool * SendSequence) :=
  let localId := ss_nextLocalId st in
  match newSequenceContract unmarshalStored localId contract (Send_MinMessageByteCount settings)
          (ContractFillFraction settings) with
  | Val next =>
      let id := sc_contractId next in
      let st := ss_set_local (localId + 1) st in
      if bool_decide (openSendContracts st !! id ≠ None) then Val (false, st) else
      let st := ss_emit [EvUse next] st in
      let (ok, next) := sc_update 0 next in
      let (ok, next) := if (ok : bool) then sc_update messageByteCount next else (false, next) in
      if (ok : bool) then
        let st := ss_setContract next st in
        let! st := sendWithSetContract now None messageId None (CbContract localId) true true st in
        Val (true, st)
      else Val (false, ss_emit [EvManager (OutCloseContract id 0 0 false)] st)
  | _ => Val (false, st)
  end.

Definition create_contract (contractSeqIndex minByteCount : Z) (cm : ContractManager)
    (st : SendSequence) : SendSequence :=
  ss_emit (map EvManager (CreateContractMessage key contractSeqIndex minByteCount cm).1) st.
(** [ByteCount(32 + float32(n) / ContractFillFraction)] *)
Definition fill_size (n : Z) : Z :=
  f32_to_i64 (f32_add (f32_of_Z 32) (f32_div (f32_of_Z (i64 n)) (ContractFillFraction settings))).

Definition nextContract (a : attempt) (messageId : Id) (messageByteCount : Z) (st : SendSequence)
    : outcome (bool * SendSequence) :=
  match (TakeContract (at_choice a) key (at_cm a)).1 with
  | None => Val (false, st)
  | Some (_, contract) =>
      let! (ok, st) := setNextContract (at_time a) messageId messageByteCount contract st in
      if (ok : bool) then
        let st := ss_set_index (u64 (contractSeqIndex st + 1)) st in
        Val (true, create_contract (contractSeqIndex st)
                     (fill_size (messageByteCount + Send_MinMessageByteCount settings)) (at_cm a) st)
      else Val (false, st)
  end.
(** The retries; the context ends when the attempts do. *)
Fixpoint contract_loop (endTime : time) (attempts : list attempt) (messageId : Id)
    (messageByteCount : Z) (st : SendSequence) : outcome (bool * SendSequence) :=
  match attempts with
  | [] => Val (false, st)
  | a :: attempts =>
      if (time_Sub endTime (at_time a) <=? 0)%Z then Val (false, st) else
      let st := create_contract (contractSeqIndex st)
                  (fill_size (messageByteCount + messageByteCount + Send_MinMessageByteCount settings))
                  (at_cm a) st in
      let! (ok, st) := nextContract a messageId messageByteCount st in
      if (ok : bool) then Val (true, st)
      else contract_loop endTime attempts messageId messageByteCount st
  end.

Definition noSendContract (now : time) (cm : ContractManager) : bool :=
  (negb (IsStream (Destination key) || (0 <? MultiHopId_Len (IntermediaryIds key))%nat)
   && SendNoContract now (DestinationId_ (Destination key)) cm)%bool.
Definition contract_capacity (cm : ContractManager) : Z :=
  f32_to_i64 (f32_mul (f32_of_Z (StandardContractTransferByteCount (ContractManager.settings cm)))
                (ContractFillFraction settings)).

(** [attempts] are the first attempt, without a wait, and the retries. *)
Definition ss_updateContract (now : time) (cm : ContractManager) (attempts : list attempt)
    (messageId : Id) (messageByteCount : Z) (st : SendSequence) : outcome (bool * SendSequence) :=
  if noSendContract now cm then Val (true, st) else
  let '(ok, st) :=
    match sendContract st, current_contract st with
    | Some id, Some c =>
        let (ok, c) := sc_update messageByteCount c in
        (ok, ss_set_contracts (Some id) (sendContractAcked st) (<[id := c]> (openSendContracts st)) st)
    | _, _ => (false, st)
    end in
  if (ok : bool) then Val (true, st) else
  if (contract_capacity cm <? i64 (messageByteCount + Send_MinMessageByteCount settings))%Z
  then Panic "Message too large for contract. It can never be sent." else
  match attempts with
  | [] => Val (false, st)
  | a :: attempts =>
      let! (ok, st) := nextContract a messageId messageByteCount st in
      if (ok : bool) then Val (true, st)
      else contract_loop (at_end a + CreateContractTimeout settings) attempts messageId
             messageByteCount st
  end.

(** *** The loop *)
(** Resending what is due: [None] is the end of the sequence, [Some t] the time
    to wait. *)
Fixpoint resend (fuel : nat) (sendTime : time) (timeout : duration) (st : SendSequence)
    : outcome (option duration * SendSequence) :=
  match fuel with
  | 0 => Panic "fuel"
  | S fuel =>
      match PeekFirst (resendQueue st) with
      | None => Val (Some timeout, st)
      | Some item =>
          let itemAckTimeout := time_Sub (si_sendTime item + AckTimeout settings) sendTime in
          if (itemAckTimeout <=? 0)%Z then Val (None, st) else
          let timeout := Z.min itemAckTimeout timeout in
          if (sendTime <? si_resendTime item)%Z
          then Val (Some (Z.min (time_Sub (si_resendTime item) sendTime) timeout), st) else
          let! (_, q) := RemoveByMessageId send_cmp (si_messageId item) (resendQueue st) in
          let st := ss_set_items q (sendItems st) st in
          match sendItems st with
          | [] => Panic "index out of range"
          | first :: _ =>
              match (if ((si_sequenceNumber first =? si_sequenceNumber item)%Z && negb (si_head item))%bool
                     then let! bytes := setHead sendTime item st in
                          Val (item_set_head bytes item, [EvReturn (si_transferFrameBytes item)])
                     else Val (item, [])) with
              | Err _ => Val (None, st)
              | Panic e => Panic e
              | Val (item, ev) =>
                  let st := write item (ss_emit ev st) in
                  let! (rtt, w) := scaledRtt sendTime (ss_rttWindow st) in
                  let item := item_set_resend (sendTime + Z.min itemAckTimeout rtt)
                                (si_sendCount item + 1) item in
                  let! q := Add send_cmp item (resendQueue st) in
                  resend fuel sendTime timeout
                    (ss_set_rtt w (ss_set_items q (write_item item (sendItems st)) st))
              end
          end
      end
  end.
Definition ss_wait (sendTime : time) (st : SendSequence) : outcome (option duration * SendSequence) :=
  let n := hLen (orderedItems (resendQueue st)) in
  if (n =? 0)%nat then Val (Some (Send_IdleTimeout settings), st)
  else resend (S n) sendTime (AckTimeout settings) st.

Definition canSend (q : transferQueue sendItem) : bool :=
  let (queueSize, queueByteCount) := QueueSize q in
  if (queueSize =? 0)%nat then true else (queueByteCount <? ResendQueueMaxByteCount settings)%Z.

Inductive ss_input :=
| SendPackInput (p : SendPack)
| SendNotify
| SendTimeout (idleClosed : bool)
| SendDone.
(** A turn: the acks since the last one, the clock readings (for the acks, the
    resends, when the pack is taken and when it is written), the manager and the attempts to take a contract,
    the ids drawn for a contract message and for a pack, the result of writing
    an unacked message, the order in which the selective acks are iterated,
    and what the select takes. *)
Record ss_turn := mkSendTurn {
  u_acks : list ProtoAck;
  u_ackTime : time;
  u_sendTime : time;
  u_takeTime : time;
  u_writeTime : time;
  u_cm : ContractManager;
  u_attempts : list attempt;
  u_contractMessageId : Id;
  u_messageId : Id;
  u_writeErr : option string;
  u_order : list (Id * sequenceAck) → list (Id * sequenceAck);
  u_input : ss_input
}.

Fixpoint selective_acks (now : time) (l : list (Id * sequenceAck)) (st : SendSequence)
    : outcome SendSequence :=
  match l with
  | [] => Val st
  | (messageId, ack) :: l =>
      let! st := receiveAck now messageId true (ack_tag ack) st in selective_acks now l st
  end.
Definition apply_acks (t : ss_turn) (st : SendSequence) : outcome SendSequence :=
  let st := foldl (λ st ack, accept_ack ack st) st (u_acks t) in
  let! (snap, w) := ackWindow_Snapshot true (ss_ackWindow st) in
  let st := ss_set_acks w st in
  let! st := (if (0 <? snap_ackUpdateCount snap)%Z
              then match snap_headAck snap with
                   | Some h => receiveAck (u_ackTime t) (ack_messageId h) false (ack_tag h) st
                   | None => Panic "nil pointer dereference"
                   end
              else Val st) in
  selective_acks (u_ackTime t) (u_order t (map_to_list (snap_selectiveAcks snap))) st.

Definition take_pack (t : ss_turn) (p : SendPack) (st : SendSequence)
    : outcome (bool * SendSequence) :=
  let st := ss_emit [EvTake p] st in
  let! (ok, st) := ss_updateContract (u_takeTime t) (u_cm t) (u_attempts t) (u_contractMessageId t)
                     (sp_MessageByteCount p) st in
  if (ok : bool) then
    let! st := sendWithSetContract (u_writeTime t) (u_writeErr t) (u_messageId t) (Some (sp_Frame p))
                 (CbUser (sp_AckCallback p)) (sp_Ack p) false st in
    Val (true, st)
  else Val (false, ss_emit [EvReturn (MessageBytes (sp_Frame p))]
                     (call_back None (CbUser (sp_AckCallback p)) (Some "No contract"%string) st)).

(** [true] when the loop goes on. With a full queue no pack is taken. *)
Definition ss_turn_step (t : ss_turn) (st : SendSequence) : outcome (bool * SendSequence) :=
  let! st := apply_acks t st in
  let! (w, st) := ss_wait (u_sendTime t) st in
  match w with
  | None => Val (false, st)
  | Some _ =>
      match u_input t with
      | SendDone => Val (false, st)
      | SendNotify => Val (true, st)
      | SendTimeout idleClosed =>
          Val (negb ((hLen (orderedItems (resendQueue st)) =? 0)%nat && idleClosed), st)
      | SendPackInput p => if canSend (resendQueue st) then take_pack t p st else Val (true, st)
      end
  end.

(** The deferred function at the end of [Run]. *)
Definition ss_exit (st : SendSequence) : SendSequence :=
  let st := ss_emit (map (λ p : Id * sequenceContract, close_contract p.2)
                       (map_to_list (openSendContracts st))) st in
  let st := foldl (λ st item,
      ss_emit [EvReturn (si_transferFrameBytes item)]
        (call_back (Some (si_messageId item)) (si_ackCallback item)
           (Some "Send sequence closed."%string) st))
    st (h_items (orderedItems (resendQueue st))) in
  closeContractMultiRouteWriter (ss_emit [EvFlushContractQueue key] st).

Fixpoint ss_run (turns : list ss_turn) (st : SendSequence) : outcome (bool * SendSequence) :=
  match turns with
  | [] => Val (true, st)
  | t :: turns =>
      let! (go, st) := ss_turn_step t st in
      if (go : bool) then ss_run turns st else Val (false, ss_exit st)
  end.
Definition send_run (turns : list ss_turn) : outcome (bool * SendSequence) :=
  let! st := NewSendSequence settings in ss_run turns st.
End SendSequence.

(** ** Invariant *)
(** What the trace says of the contracts: those that were used, and those that
    were closed with their counts. *)
Definition uses (ev : list ss_event) : list sequenceContract :=
  omap (λ e, match e with EvUse c => Some c | _ => None end) ev.
Definition closes (ev : list ss_event) : list (Id * Z * Z) :=
  omap (λ e, match e with
             | EvManager (OutCloseContract i a u false) => Some (i, a, u)
             | _ => None
             end) ev.
Definition contract_quiet (ev : list ss_event) : Prop := uses ev = [] ∧ closes ev = [].

(** The debits of a contract among the debits of messages. *)
Abbreviation debit := (option Id * Z)%type (only parsing).
Definition pend (D : list debit) (id : Id) : list Z :=
  omap (λ d : debit, if bool_decide (d.1 = Some id) then Some d.2 else None) D.
Definition item_debit (i : sendItem) : debit := (si_contractId i, si_messageByteCount i).

#[export] Instance pend_proper : Proper ((≡ₚ) ==> (=) ==> (≡ₚ)) pend.
Proof. intros D D' HD id ? <-. unfold pend. by rewrite HD. Qed.
Lemma pend_app D D' id : pend (D ++ D') id = pend D id ++ pend D' id.
Proof. apply omap_app. Qed.
Lemma pend_hit id b D : pend ((Some id, b) :: D) id = b :: pend D id.
Proof. unfold pend. simpl. by rewrite bool_decide_true. Qed.
Lemma pend_miss d D id : d.1 ≠ Some id → pend (d :: D) id = pend D id.
Proof. intros H. unfold pend. simpl. by rewrite bool_decide_false. Qed.
Lemma uses_app ev ev' : uses (ev ++ ev') = uses ev ++ uses ev'.
Proof. apply omap_app. Qed.
Lemma closes_app ev ev' : closes (ev ++ ev') = closes ev ++ closes ev'.
Proof. apply omap_app. Qed.

Definition close_fits (ev : list ss_event) (x : Id * Z * Z) : Prop :=
  ∃ c, c ∈ uses ev ∧ sc_contractId c = x.1.1 ∧ (0 ≤ x.1.2)%Z ∧ (0 ≤ x.2)%Z ∧
    (x.1.2 + x.2 ≤ Z.max 0 (effectiveTransferByteCount c))%Z.

Section Contracts.
Variable minByteCount : Z.
Hypothesis min_ok : (0 < minByteCount < 2 ^ 62)%Z.
(** Whether the peer needs no contract. *)
Variable noC : bool.

Definition contract_ok (ev : list ss_event) (id : Id) (pending : list Z) (c : sequenceContract) : Prop :=
  sc_contractId c = id ∧ minUpdateByteCount c = minByteCount ∧
  (∃ lost, sc_ok (pending ++ lost) c) ∧
  ∃ c0, c0 ∈ uses ev ∧ sc_contractId c0 = id ∧
    effectiveTransferByteCount c0 = effectiveTransferByteCount c.

Record contracts_inv (D : list debit) (cur : option Id) (open : gmap Id sequenceContract)
    (ev : list ss_event) : Prop := {
  ci_cur id : cur = Some id → is_Some (open !! id);
  ci_ok id c : open !! id = Some c → contract_ok ev id (pend D id) c;
  ci_open id : pend D id ≠ [] → is_Some (open !! id);
  ci_none : noC = true → open = ∅;
  ci_closes x : x ∈ closes ev → close_fits ev x;
  ci_uses : map (λ x, x.1.1) (closes ev) ++ map fst (map_to_list open) ≡ₚ map sc_contractId (uses ev)
}.

Lemma contract_ok_quiet ev ev' id p c : contract_ok ev id p c → contract_ok (ev ++ ev') id p c.
Proof.
  intros (? & ? & ? & c0 & Hc0 & ?). split_and!; try done. exists c0. rewrite uses_app.
  split; [apply elem_of_app; by left|done].
Qed.
Lemma close_fits_app ev ev' x : close_fits ev x → close_fits (ev ++ ev') x.
Proof. intros (c & ? & ?). exists c. rewrite uses_app. split; [apply elem_of_app; by left|done]. Qed.

Lemma contracts_inv_quiet D cur open ev ev' :
  contract_quiet ev' → contracts_inv D cur open ev → contracts_inv D cur open (ev ++ ev').
Proof.
  intros [Hu Hc] []. split; try done.
  - intros id c Hid. apply contract_ok_quiet. eauto.
  - intros x. rewrite closes_app, Hc, app_nil_r. intros Hx. apply close_fits_app. eauto.
  - by rewrite closes_app, uses_app, Hu, Hc, !app_nil_r.
Qed.
Lemma contracts_inv_perm D D' cur open ev :
  D ≡ₚ D' → contracts_inv D cur open ev → contracts_inv D' cur open ev.
Proof.
  intros HD []. split; try done.
  - intros id c Hid. destruct (ci_ok0 id c Hid) as (? & ? & (lost & ?) & ?). split_and!; try done.
    exists lost. eapply sc_ok_perm; [|done]. by rewrite HD.
  - intros id Hne. apply ci_open0. intros E. apply Hne. apply Permutation_nil. by rewrite <-HD, E.
Qed.
(** A debit that will never be acked. *)
Lemma contracts_inv_lose d D cur open ev :
  contracts_inv (d :: D) cur open ev → contracts_inv D cur open ev.
Proof.
  intros []. destruct d as [[i|] b].
  - split; try done.
    + intros id c Hid. destruct (ci_ok0 id c Hid) as (? & ? & (lost & Hs) & ?). split_and!; try done.
      destruct (decide (Some i = Some id)) as [[= ->]|Hne].
      * exists (b :: lost). eapply sc_ok_perm; [|done]. rewrite pend_hit. simpl. apply Permutation_middle.
      * exists lost. by rewrite pend_miss in Hs.
    + intros id Hne. apply ci_open0. destruct (decide (Some i = Some id)) as [[= ->]|Hn].
      * by rewrite pend_hit.
      * by rewrite pend_miss.
  - split; done.
Qed.
Lemma contracts_inv_none D b cur open ev :
  contracts_inv D cur open ev → contracts_inv ((None, b) :: D) cur open ev.
Proof. intros []. split; done. Qed.

(** An open contract is replaced by itself with other counts. *)
Lemma contracts_inv_set D D' cur open ev id c c' :
  contracts_inv D cur open ev → open !! id = Some c →
  (∀ j, j ≠ id → pend D' j = pend D j) → contract_ok ev id (pend D' id) c' →
  contracts_inv D' cur (<[id := c']> open) ev.
Proof.
  intros [] Hid Hj Hok. split; try done.
  - intros i Hi. rewrite lookup_insert_is_Some'. right. by apply ci_cur0.
  - intros i x [[<- <-]|[Hne Hx]]%lookup_insert_Some; [done|]. rewrite Hj by done. by apply ci_ok0.
  - intros i Hi. rewrite lookup_insert_is_Some'. destruct (decide (id = i)); [by left|right].
    apply ci_open0. by rewrite <-Hj.
  - intros Hn. rewrite ci_none0 in Hid by done. done.
  - rewrite <-ci_uses0. f_equiv. rewrite <-(insert_delete_id open id c) at 2 by done.
    rewrite <-(insert_delete_eq open), !map_to_list_insert by apply lookup_delete_eq. done.
Qed.
Lemma contracts_inv_acked D b cur open ev id c c' :
  contracts_inv ((Some id, b) :: D) cur open ev → open !! id = Some c → sc_ack b c = Val c' →
  contracts_inv D cur (<[id := c']> open) ev.
Proof.
  intros H Hid Ha. eapply contracts_inv_set; [done|done| |].
  - intros j Hj. rewrite pend_miss; [done|]. simpl. congruence.
  - destruct (ci_ok _ _ _ _ H id c Hid) as (E1 & E2 & (lost & Hs) & E3). rewrite pend_hit in Hs.
    destruct (sc_ack_ok _ _ _ Hs) as (c1 & E & Hs1 & ->). rewrite Ha in E. injection E as ->.
    split_and!; try done. by exists lost.
Qed.
Lemma contracts_inv_ack_val D b cur open ev id c :
  contracts_inv ((Some id, b) :: D) cur open ev → open !! id = Some c →
  ∃ c', sc_ack b c = Val c'.
Proof.
  intros H Hid. destruct (ci_ok _ _ _ _ H id c Hid) as (_ & _ & (lost & Hs) & _).
  rewrite pend_hit in Hs. destruct (sc_ack_ok _ _ _ Hs) as (c' & ? & _). by exists c'.
Qed.

Lemma sc_ok_unacked0 p c : sc_ok p c → minUpdateByteCount c = minByteCount → unackedByteCount c = 0%Z → p = [].
Proof.
  intros [H1 H2 H3 H4 H5] Hm Hu. destruct p as [|b p]; [done|]. rewrite Hu in H3. cbn [map] in H3.
  rewrite zsum_cons in H3. assert (0 ≤ zsum (map (effectiveByteCount c) p))%Z.
  { apply zsum_nonneg, Forall_map, Forall_true. intros b'. by apply effective_nonneg. }
  unfold effectiveByteCount at 1 in H3. lia.
Qed.
Lemma ok_close_fits ev id p c :
  contract_ok ev id p c → close_fits ev (sc_contractId c, ackedByteCount c, unackedByteCount c).
Proof.
  intros (E1 & E2 & (lost & Hs) & c0 & ? & ? & E). exists c0. simpl.
  pose proof (pending_nonneg _ _ Hs). destruct Hs. rewrite E. split_and!; try done; congruence.
Qed.
Lemma contracts_inv_close D cur open ev id c :
  contracts_inv D cur open ev → open !! id = Some c → cur ≠ Some id → unackedByteCount c = 0%Z →
  contracts_inv D cur (delete id open) (ev ++ [close_contract c]).
Proof.
  intros H Hid Hcur Hu. pose proof (ci_ok _ _ _ _ H id c Hid) as Hok.
  assert (pend D id = []) as Hp.
  { destruct Hok as (_ & E2 & (lost & Hs) & _). apply sc_ok_unacked0 in Hs; [|done..].
    by apply app_nil in Hs as [-> _]. }
  destruct H. assert (sc_contractId c = id) as Eid by apply Hok. split.
  - intros i Hi. rewrite lookup_delete_ne by congruence. by apply ci_cur0.
  - intros i x [Hne Hx]%lookup_delete_Some. by apply contract_ok_quiet, ci_ok0.
  - intros i Hi. rewrite lookup_delete_ne by congruence. by apply ci_open0.
  - intros Hn. rewrite ci_none0 in Hid by done. done.
  - intros x. rewrite closes_app. intros [Hx|Hx]%elem_of_app; apply close_fits_app; [by apply ci_closes0|].
    apply list_elem_of_singleton in Hx as ->. by eapply ok_close_fits.
  - rewrite closes_app, uses_app, app_nil_r, <-ci_uses0. simpl. rewrite map_app, <-(assoc_L (++)).
    f_equiv. rewrite <-(insert_delete_id open id c) at 2 by done.
    rewrite map_to_list_insert by apply lookup_delete_eq. simpl. by rewrite Eid.
Qed.
(** A new contract becomes the current one, with the debits [bs]. *)
Lemma contracts_inv_open D cur open ev c c0 bs :
  contracts_inv D cur open ev → noC = false → open !! sc_contractId c = None →
  sc_contractId c0 = sc_contractId c → effectiveTransferByteCount c0 = effectiveTransferByteCount c →
  minUpdateByteCount c = minByteCount → sc_ok bs c →
  contracts_inv (map (pair (Some (sc_contractId c))) bs ++ D) (Some (sc_contractId c))
    (<[sc_contractId c := c]> open) (ev ++ [EvUse c0]).
Proof.
  intros H HnC Hno Ei Ee Hm Hs. set (id := sc_contractId c) in *.
  assert (∀ j, j ≠ id → pend (map (pair (Some id)) bs ++ D) j = pend D j) as Hj.
  { intros j Hj. clear -Hj. induction bs as [|b bs IH]; [done|]. cbn [map app]. rewrite pend_miss; [done|].
    simpl. congruence. }
  assert (pend (map (pair (Some id)) bs ++ D) id = bs) as Hi.
  { rewrite pend_app. assert (pend D id = []) as ->.
    { destruct (pend D id) eqn:E; [done|]. destruct (ci_open _ _ _ _ H id) as [? ?]; [|congruence].
      by rewrite E. }
    rewrite app_nil_r. clear. induction bs as [|b bs IH]; [done|]. cbn [map]. by rewrite pend_hit, IH. }
  destruct H. split.
  - intros i [= <-]. rewrite lookup_insert_eq. by eexists.
  - intros i x [[<- <-]|[Hne Hx]]%lookup_insert_Some.
    + rewrite Hi. split_and!; [done..| |].
      * exists []. by rewrite app_nil_r.
      * exists c0. rewrite uses_app. split_and!; [|done..]. apply elem_of_app. right. by apply list_elem_of_singleton.
    + rewrite Hj by done. by apply contract_ok_quiet, ci_ok0.
  - intros i Hi'. rewrite lookup_insert_is_Some'. destruct (decide (id = i)) as [|Hne]; [by left|right].
    apply ci_open0. by rewrite <-Hj.
  - by intros; congruence.
  - intros x. rewrite closes_app, app_nil_r. intros Hx. by apply close_fits_app, ci_closes0.
  - rewrite closes_app, uses_app, map_app, app_nil_r, map_to_list_insert by done. simpl.
    rewrite map_app, <-Permutation_middle, ci_uses0. simpl. rewrite Ei. by rewrite Permutation_app_comm.
Qed.
(** A contract that was too small is closed at once. *)
Lemma contracts_inv_too_small D cur open ev c0 :
  contracts_inv D cur open ev →
  contracts_inv D cur open
    (ev ++ [EvUse c0; EvManager (OutCloseContract (sc_contractId c0) 0 0 false)]).
Proof.
  intros []. split; try done.
  - intros id c Hid. by apply contract_ok_quiet, ci_ok0.
  - intros x. rewrite closes_app. intros [Hx|Hx]%elem_of_app; [by apply close_fits_app, ci_closes0|].
    apply list_elem_of_singleton in Hx as ->. exists c0. rewrite uses_app. simpl.
    split_and!; try lia; [|done]. apply elem_of_app. right. by apply list_elem_of_singleton.
  - rewrite closes_app, uses_app, !map_app, <-ci_uses0. simpl. rewrite <-!(assoc_L (++)). f_equiv.
    by rewrite Permutation_app_comm.
Qed.
End Contracts.

(** *** The items and the trace *)
Definition queued (ev : list ss_event) : list sendItem :=
  omap (λ e, match e with EvQueue i => Some i | _ => None end) ev.
Definition written (ev : list ss_event) : list sendItem :=
  omap (λ e, match e with EvWrite _ i => Some i | _ => None end) ev.
(** The messages whose callback was called without an error. *)
Definition acked (ev : list ss_event) : list Id :=
  omap (λ e, match e with EvCallback (Some id) _ None => Some id | _ => None end) ev.
(** The callbacks of the packs: those called, and those of the packs taken. *)
Definition cb_user (cb : AckCallback) : option positive :=
  match cb with CbUser h => Some h | CbContract _ => None end.
Definition called (ev : list ss_event) : list positive :=
  omap (λ e, match e with EvCallback _ cb _ => cb_user cb | _ => None end) ev.
Definition taken (ev : list ss_event) : list positive :=
  omap (λ e, match e with EvTake p => Some (sp_AckCallback p) | _ => None end) ev.
Definition users (l : list sendItem) : list positive := omap (cb_user ∘ si_ackCallback) l.

Definition item_key (i : sendItem) : Id * Z := (si_messageId i, si_sequenceNumber i).
Definition in_ids (l : list sendItem) (id : Id) : Prop := id ∈ map si_messageId l.
#[export] Instance in_ids_dec l id : Decision (in_ids l id).
Proof. unfold in_ids. apply _. Defined.

Lemma filter_in_ext {A} (P Q : A → Prop) `{!∀ x, Decision (P x), !∀ x, Decision (Q x)} (l : list A) :
  (∀ x, x ∈ l → P x ↔ Q x) → filter P l = filter Q l.
Proof.
  induction l as [|x l IH]; intros Hl; [done|]. rewrite !filter_cons, IH by (intros; apply Hl, elem_of_cons; by right).
  assert (P x ↔ Q x) as E by (apply Hl, elem_of_cons; by left). by repeat case_decide; tauto.
Qed.
Lemma in_ids_snoc l x id : in_ids (l ++ [x]) id ↔ in_ids l id ∨ id = si_messageId x.
Proof. unfold in_ids. rewrite map_app, elem_of_app. cbn [map]. by rewrite list_elem_of_singleton. Qed.

Section Items.
Context `{codec : TransferCodec}.
(** The messages that the receiver acked in full. *)
Variable full : Id → Prop.

(** The pack that the bytes of an item hold, and nothing else. *)
Definition only_pack (tf : TransferFrame) : outcome Pack :=
  match tf_Ack tf, tf_Frame tf, tf_Pack tf with
  | None, None, Some p => Val p
  | None, Some f, None => if (MessageType f =? MessageType_TransferPack)%Z then unmarshalPack (MessageBytes f)
                          else Err "not a pack"
  | _, _, _ => Err "not a pack"
  end.
Definition item_pack (i : sendItem) : outcome Pack :=
  let! tf := unmarshalTransferFrame (si_transferFrameBytes i) in only_pack tf.
Lemma only_pack_of tf p : only_pack tf = Val p → pack_of tf = Val p.
Proof. unfold only_pack, pack_of. destruct (tf_Ack tf), (tf_Frame tf), (tf_Pack tf); try done. by case_bool. Qed.
(** The bytes are the message of the item, marked as head when the item is, and
    then with the contract frame of the item's contract. *)
Definition item_ok (i : sendItem) : Prop :=
  ∃ p, item_pack i = Val p ∧ Pack_MessageId p = Id_Bytes (si_messageId i) ∧
    Pack_SequenceNumber p = si_sequenceNumber i ∧ Head p = si_head i ∧
    ((si_head i || si_hasContractFrame i)%bool = true → si_contractId i ≠ None → ContractFrame p ≠ None).
Definition is_nack (i : sendItem) : Prop :=
  si_head i = false ∧ ∃ p, item_pack i = Val p ∧ Nack p = true.
(** What the bytes of an item carry: whether it is a nack, and the frames. *)
Definition item_body (i : sendItem) : outcome (bool * list Frame) :=
  let! p := item_pack i in Val (Nack p, Frames p).
(** [i] is the message of a queued item: same id, number and body. *)
Definition listed (ev : list ss_event) (i : sendItem) : Prop :=
  ∃ q, q ∈ queued ev ∧ item_key q = item_key i ∧ item_body q = item_body i.
(** A head comes after messages that are all acked. *)
Definition head_ok (ev : list ss_event) (i : sendItem) : Prop :=
  si_head i = true → ∀ q, q ∈ queued ev → (si_sequenceNumber q < si_sequenceNumber i)%Z →
    si_messageId q ∈ acked ev.
(** A queued item carries the frame of a pack that was taken, with its
    callback, or it is the message of a contract and carries none. *)
Definition from_take (ev : list ss_event) (cb : AckCallback) (frame : option Frame) : Prop :=
  match cb_user cb with
  | None => frame = None
  | Some h => ∃ p, EvTake p ∈ ev ∧ sp_AckCallback p = h ∧ frame = Some (sp_Frame p)
  end.
Definition sourced (ev : list ss_event) (q : sendItem) : Prop :=
  ∃ frame, item_body q = Val (false, option_list frame) ∧ from_take ev (si_ackCallback q) frame.

(** Messages up to number [n] are acked: by a full ack of that one or a later. *)
Definition covered (ev : list ss_event) (n : Z) : Prop :=
  ∃ j, j ∈ queued ev ∧ full (si_messageId j) ∧ (n ≤ si_sequenceNumber j)%Z.

(** [X] are the callbacks of the packs taken but not sent yet. *)
Record wire_inv (X : list positive) (l : list sendItem) (ev : list ss_event) : Prop := {
  wi_writes i : i ∈ written ev → item_ok i ∧ head_ok ev i ∧ (is_nack i ∨ listed ev i);
  wi_pending i : i ∈ l → listed ev i ∧ head_ok ev i;
  wi_source q : q ∈ queued ev → sourced ev q;
  wi_order : users (queued ev) ++ X `sublist_of` taken ev
}.

Record items_inv (used : list Id) (X : list positive) (l : list sendItem) (next : Z)
    (ev : list ss_event) : Prop := {
  ii_numbers : map si_sequenceNumber (queued ev) = seqZ 0 next;
  ii_next : next = Z.of_nat (length (queued ev));
  ii_fifo : ∃ done, map item_key (queued ev) = done ++ map item_key l ∧
    map fst done = filter (in_ids (queued ev)) (acked ev);
  ii_covered : next = Z.of_nat (length l) ∨ covered ev (next - Z.of_nat (length l) - 1);
  ii_used id : in_ids (queued ev) id ∨ id ∈ acked ev → id ∈ used;
  ii_nodup : NoDup (map si_messageId (queued ev));
  ii_calls : taken ev ≡ₚ called ev ++ X ++ users l;
  ii_items : Forall item_ok l;
  ii_wire : wire_inv X l ev
}.

Lemma key_id l : map fst (map item_key l) = map si_messageId l.
Proof. rewrite map_map. done. Qed.
Lemma covered_app ev ev' n : covered ev n → covered (ev ++ ev') n.
Proof. intros (j & ? & ?). exists j. unfold queued in *. rewrite omap_app, elem_of_app. auto. Qed.
Lemma items_l_in used X l next ev i : items_inv used X l next ev → i ∈ l → in_ids (queued ev) (si_messageId i).
Proof.
  intros [] Hi. destruct ii_fifo0 as (done & E & _). unfold in_ids. rewrite <-key_id, E, map_app, key_id.
  apply elem_of_app. right. by apply list_elem_of_fmap_2.
Qed.
Lemma items_nodup used X l next ev : items_inv used X l next ev → NoDup (map si_messageId l).
Proof.
  intros []. destruct ii_fifo0 as (done & E & _). rewrite <-key_id, E, map_app, key_id in ii_nodup0.
  by apply NoDup_app in ii_nodup0 as (_ & _ & ?).
Qed.
Lemma items_same used X l next ev x y :
  items_inv used X l next ev → x ∈ l → y ∈ l → si_messageId x = si_messageId y → x = y.
Proof.
  intros H%items_nodup Hx Hy E. clear -H Hx Hy E.
  apply list_elem_of_lookup in Hx as [i Hi]. apply list_elem_of_lookup in Hy as [j Hj].
  assert (i = j) as ->; [|congruence].
  eapply NoDup_lookup; [exact H| |]; rewrite list_lookup_fmap.
  - rewrite Hi. simpl. done.
  - rewrite Hj. simpl. by rewrite E.
Qed.
Lemma items_mono used used' X l next ev :
  (∀ i, i ∈ used → i ∈ used') → items_inv used X l next ev → items_inv used' X l next ev.
Proof. intros Hs []. split; auto. Qed.
(** Events that say nothing of the items. *)
Definition item_quiet (ev : list ss_event) : Prop :=
  queued ev = [] ∧ written ev = [] ∧ acked ev = [] ∧ called ev = [] ∧ taken ev = [].
Lemma queued_app ev ev' : queued (ev ++ ev') = queued ev ++ queued ev'.
Proof. apply omap_app. Qed.
Lemma written_app ev ev' : written (ev ++ ev') = written ev ++ written ev'.
Proof. apply omap_app. Qed.
Lemma acked_app ev ev' : acked (ev ++ ev') = acked ev ++ acked ev'.
Proof. apply omap_app. Qed.
Lemma called_app ev ev' : called (ev ++ ev') = called ev ++ called ev'.
Proof. apply omap_app. Qed.
Lemma taken_app ev ev' : taken (ev ++ ev') = taken ev ++ taken ev'.
Proof. apply omap_app. Qed.
Lemma users_cons x l : users (x :: l) = option_list (cb_user (si_ackCallback x)) ++ users l.
Proof. unfold users. simpl. by destruct (cb_user _). Qed.
Lemma users_app l l' : users (l ++ l') = users l ++ users l'.
Proof. apply omap_app. Qed.

(** Events that queue nothing. *)
Lemma listed_app ev ev' i : listed ev i → listed (ev ++ ev') i.
Proof. intros (q & ? & ?). exists q. rewrite queued_app, elem_of_app. auto. Qed.
Lemma listed_key ev i : listed ev i → item_key i ∈ map item_key (queued ev).
Proof. intros (q & Hq & <- & _). by apply list_elem_of_fmap_2. Qed.
Lemma sourced_app ev ev' q : sourced ev q → sourced (ev ++ ev') q.
Proof.
  intros (f & E & Hf). exists f. split; [done|]. unfold from_take in *. destruct (cb_user _); [|done].
  destruct Hf as (k & ? & ?). exists k. rewrite elem_of_app. auto.
Qed.
Lemma head_ok_app ev ev' i : queued ev' = [] → head_ok ev i → head_ok (ev ++ ev') i.
Proof.
  intros E H Hh q. rewrite queued_app, E, app_nil_r, acked_app, elem_of_app. intros Hq Hn. left. by apply H.
Qed.
Lemma wire_app X X' l l' ev ev' :
  wire_inv X l ev → queued ev' = [] → (∀ i, i ∈ l' → listed ev i ∧ head_ok ev i) →
  (∀ i, i ∈ written ev' → item_ok i ∧ head_ok ev i ∧ (is_nack i ∨ listed ev i)) →
  users (queued ev) ++ X' `sublist_of` taken ev ++ taken ev' → wire_inv X' l' (ev ++ ev').
Proof.
  intros [W1 W2 W3 W4] E Hl Hw Ho. split; rewrite ?queued_app, ?written_app, ?taken_app, ?E, ?app_nil_r; try done.
  - intros i Hi. assert (item_ok i ∧ head_ok ev i ∧ (is_nack i ∨ listed ev i)) as (? & ? & Hor).
    { apply elem_of_app in Hi as [Hi|Hi]; auto. }
    split_and!; [done|by apply head_ok_app|]. destruct Hor; [by left|right]. by apply listed_app.
  - intros i [? ?]%Hl. split; [by apply listed_app|by apply head_ok_app].
  - intros q Hq%W3. by apply sourced_app.
Qed.

Lemma items_quiet used X l next ev ev' :
  item_quiet ev' → items_inv used X l next ev → items_inv used X l next (ev ++ ev').
Proof.
  intros (E1 & E2 & E3 & E4 & E5) []. split;
    rewrite ?queued_app, ?acked_app, ?called_app, ?taken_app, ?E1, ?E3, ?E4, ?E5, ?app_nil_r; try done.
  - destruct ii_covered0; [by left|right]. by apply covered_app.
  - eapply wire_app; [done|done|apply ii_wire0|rewrite E2; by intros i ?%elem_of_nil|].
    rewrite E5, app_nil_r. apply ii_wire0.
Qed.
Lemma items_take used l next ev p :
  items_inv used [] l next ev → items_inv used [sp_AckCallback p] l next (ev ++ [EvTake p]).
Proof.
  intros []. split; rewrite ?queued_app, ?acked_app, ?called_app, ?taken_app, ?app_nil_r; try done.
  - destruct ii_covered0; [by left|right]. by apply covered_app.
  - simpl. rewrite ii_calls0. by rewrite (Permutation_app_comm _ [_]), <-Permutation_middle.
  - eapply wire_app; [done|done|apply ii_wire0|by intros i ?%elem_of_nil|].
    apply sublist_app; [|done]. pose proof (wi_order _ _ _ ii_wire0) as Ho. by rewrite app_nil_r in Ho.
Qed.
(** The oldest item is acked. *)
Lemma items_first_number used X x l next ev :
  items_inv used X (x :: l) next ev → si_sequenceNumber x = (next - Z.of_nat (length (x :: l)))%Z.
Proof.
  intros [I1 I2 (done & E & _) _ _ _ _ _ _].
  assert (map snd (map item_key (queued ev)) = seqZ 0 next) as En by (by rewrite map_map).
  rewrite E, map_app in En. pose proof (lookup_seqZ 0 next (length done) (si_sequenceNumber x)) as Hl.
  rewrite <-En, lookup_app_r, length_map, Nat.sub_diag in Hl by (by rewrite length_map).
  destruct Hl as [Hl _]. specialize (Hl eq_refl).
  assert (length (map item_key (queued ev)) = length (done ++ map item_key (x :: l))) as El by congruence.
  rewrite length_app, !length_map in El. lia.
Qed.
(** Messages before those of the queue are acked. *)
Lemma items_before used X l next ev q :
  items_inv used X l next ev → q ∈ queued ev →
  (si_sequenceNumber q < next - Z.of_nat (length l))%Z → si_messageId q ∈ acked ev.
Proof.
  intros [I1 I2 (done & E & Ed) _ _ _ _ _ _] Hq Hn. apply list_elem_of_lookup in Hq as [k Hk].
  assert (si_sequenceNumber q = Z.of_nat k) as En.
  { assert (map si_sequenceNumber (queued ev) !! k = Some (si_sequenceNumber q)) as Hs
      by (rewrite list_lookup_fmap, Hk; done).
    rewrite I1 in Hs. apply lookup_seqZ in Hs. lia. }
  assert (length (map item_key (queued ev)) = length (done ++ map item_key l)) as El by congruence.
  rewrite length_app, !length_map in El.
  assert (map item_key (queued ev) !! k = Some (item_key q)) as Hs by (rewrite list_lookup_fmap, Hk; done).
  rewrite E, lookup_app_l in Hs by lia. apply list_elem_of_lookup_2 in Hs.
  apply (list_elem_of_fmap_2 fst) in Hs. change (fst <$> done) with (map fst done) in Hs.
  rewrite Ed in Hs. by apply list_elem_of_filter in Hs as [_ ?].
Qed.
Lemma items_first_head used X x l next ev y :
  items_inv used X (x :: l) next ev → si_sequenceNumber y = si_sequenceNumber x → head_ok ev y.
Proof.
  intros H Ey _ q Hq Hn. eapply items_before; [done..|]. rewrite <-(items_first_number _ _ _ _ _ _ H). lia.
Qed.
Lemma items_ack used X x l next ev :
  items_inv used X (x :: l) next ev → covered ev (si_sequenceNumber x) →
  items_inv used X l next (ev ++ [EvCallback (Some (si_messageId x)) (si_ackCallback x) None]).
Proof.
  intros H Hcov. pose proof (items_l_in _ _ _ _ _ x H ltac:(apply elem_of_cons; by left)) as Hin.
  pose proof (items_first_number _ _ _ _ _ _ H) as Hnum. destruct H.
  split; rewrite ?queued_app, ?acked_app, ?called_app, ?taken_app, ?app_nil_r; try done.
  - destruct ii_fifo0 as (done & E & Ed). exists (done ++ [item_key x]). split.
    + by rewrite E, <-(assoc_L (++)).
    + rewrite map_app, Ed, filter_app. f_equal.
      change (acked [_]) with [si_messageId x]. by rewrite filter_cons_True.
  - right. apply covered_app. cbn [length] in Hnum. by replace (next - _ - 1)%Z with (si_sequenceNumber x) by lia.
  - intros id [Hid|[Hid|Hid%list_elem_of_singleton]%elem_of_app]; [auto..|subst; auto].
  - rewrite ii_calls0, users_cons. simpl. destruct (cb_user (si_ackCallback x)); simpl;
      rewrite ?app_nil_r; [|done]. by rewrite <-(assoc_L (++)), <-Permutation_middle.
  - by inversion ii_items0.
  - eapply wire_app; [done|done| |by intros i ?%elem_of_nil|rewrite app_nil_r; apply ii_wire0].
    intros i Hi. apply ii_wire0, elem_of_cons. by right.
Qed.
(** A message that is not queued gets its callback. *)
Lemma items_call used X l next ev mid cb err :
  (∀ id, mid = Some id → ¬ in_ids (queued ev) id ∧ id ∈ used) →
  items_inv used (option_list (cb_user cb) ++ X) l next ev →
  items_inv used X l next (ev ++ [EvCallback mid cb err]).
Proof.
  intros Hm []. split; rewrite ?queued_app, ?acked_app, ?called_app, ?taken_app, ?app_nil_r; try done.
  - destruct ii_fifo0 as (done & E & Ed). exists done. split; [done|]. rewrite Ed, filter_app.
    destruct mid as [id|]; [|by rewrite app_nil_r]. destruct err; [by rewrite app_nil_r|].
    change (acked [_]) with [id]. rewrite filter_cons_False, app_nil_r; [done|]. by apply Hm.
  - destruct ii_covered0; [by left|right]. by apply covered_app.
  - intros id [Hid|[Hid|Hid]%elem_of_app]; [auto..|]. destruct mid as [id'|], err; simpl in Hid;
      try by apply elem_of_nil in Hid. apply list_elem_of_singleton in Hid as ->. by apply Hm.
  - rewrite ii_calls0. simpl. destruct (cb_user cb); simpl; rewrite ?app_nil_r; [|done].
    by rewrite <-(assoc_L (++)).
  - eapply wire_app; [done|done|apply ii_wire0|by intros i ?%elem_of_nil|].
    rewrite app_nil_r. etrans; [|apply (wi_order _ _ _ ii_wire0)].
    apply sublist_app; [done|]. by apply sublist_inserts_l.
Qed.
(** A pending item is written again, or one that is never queued. *)
Lemma items_write used X l next ev d x :
  items_inv used X l next ev → item_ok x → head_ok ev x → is_nack x ∨ listed ev x →
  items_inv used X l next (ev ++ [EvWrite d x]).
Proof.
  intros [] Hx Hh Hk. split; rewrite ?queued_app, ?acked_app, ?called_app, ?taken_app, ?app_nil_r; try done.
  - destruct ii_covered0; [by left|right]. by apply covered_app.
  - eapply wire_app; [done|done|apply ii_wire0| |rewrite app_nil_r; apply ii_wire0].
    by intros i ->%list_elem_of_singleton.
Qed.

Definition same_entry (i j : sendItem) : Prop :=
  item_key i = item_key j ∧ si_ackCallback i = si_ackCallback j ∧ item_debit i = item_debit j ∧
  si_sendTime i = si_sendTime j ∧ item_body i = item_body j.
Lemma same_entry_listed ev i j : same_entry i j → listed ev j → listed ev i.
Proof. intros (E1 & _ & _ & _ & E2) (q & ? & ? & ?). exists q. split_and!; congruence. Qed.
Lemma write_item_same used X l next ev x y :
  items_inv used X l next ev → y ∈ l → same_entry x y → Forall2 same_entry (write_item x l) l.
Proof.
  intros H Hy Hs. apply Forall2_fmap_l. apply Forall_Forall2_diag. apply Forall_forall. intros z Hz. unfold compose.
  case_bool_decide as E; [|done]. assert (z = y) as ->; [|done].
  eapply items_same; [done..|]. destruct Hs as [Hk _]. unfold item_key in Hk. congruence.
Qed.
Lemma same_entry_maps l l' : Forall2 same_entry l l' →
  map item_key l = map item_key l' ∧ users l = users l' ∧ map item_debit l = map item_debit l'.
Proof.
  induction 1 as [|i j l l' (E1 & E2 & E3 & _) _ (IH1 & IH2 & IH3)]; [done|]. cbn [map].
  split_and!; [congruence| |congruence]. by rewrite !users_cons, E2, IH2.
Qed.
Lemma items_rewrite used X l next ev x y :
  items_inv used X l next ev → y ∈ l → same_entry x y → item_ok x → head_ok ev x →
  items_inv used X (write_item x l) next ev ∧ map item_debit (write_item x l) = map item_debit l.
Proof.
  intros H Hy Hs Hx Hh. pose proof (write_item_same _ _ _ _ _ _ _ H Hy Hs) as H2.
  apply same_entry_maps in H2 as (E1 & E2 & E3). split; [|done]. destruct H. split; try done.
  - by rewrite E1.
  - unfold write_item. by rewrite length_map.
  - by rewrite E2.
  - apply Forall_map. eapply Forall_impl; [done|]. intros z Hz. by case_bool_decide.
  - destruct ii_wire0 as [W1 W2 W3 W4]. split; try done. intros i (z & -> & Hz)%list_elem_of_fmap.
    case_bool_decide; [|by apply W2]. split; [|done]. eapply same_entry_listed; [done|]. by apply W2.
Qed.
(** A new item is written and queued. *)
Lemma wire_queue X l next ev d x :
  wire_inv (option_list (cb_user (si_ackCallback x)) ++ X) l ev →
  map si_sequenceNumber (queued ev) = seqZ 0 next → si_sequenceNumber x = next →
  item_ok x → sourced ev x → head_ok ev x → wire_inv X (l ++ [x]) (ev ++ [EvWrite d x; EvQueue x]).
Proof.
  intros [W1 W2 W3 W4] Hnum Hn Hx Hsrc Hhx.
  assert (∀ i, i ∈ queued ev → (si_sequenceNumber i < next)%Z) as Hlt.
  { intros i Hi. apply (list_elem_of_fmap_2 si_sequenceNumber) in Hi.
    change (si_sequenceNumber <$> queued ev) with (map si_sequenceNumber (queued ev)) in Hi.
    rewrite Hnum in Hi. apply elem_of_seqZ in Hi. lia. }
  set (ev' := ev ++ _). assert (queued ev' = queued ev ++ [x]) as Eq by apply queued_app.
  assert (∀ i, head_ok ev i → (si_sequenceNumber i ≤ next)%Z → head_ok ev' i) as Hho.
  { intros i Hi Hle Hh q. rewrite Eq. unfold ev'. rewrite acked_app, !elem_of_app. intros [Hq|Hq] Hlq.
    - left. by apply Hi.
    - apply list_elem_of_singleton in Hq as ->. lia. }
  assert (∀ i, is_nack i → head_ok ev' i) as Hnk by (intros i (E & _); unfold head_ok; by rewrite E).
  assert (∀ i, listed ev i → (si_sequenceNumber i < next)%Z) as Hll.
  { intros i (q & Hq & Ek & _). injection Ek as _ <-. by apply Hlt. }
  assert (head_ok ev' x) as Hhx' by (apply Hho; [done|lia]).
  assert (listed ev' x) as Hlx. { exists x. rewrite Eq. split; [|done]. apply elem_of_app. right. by apply list_elem_of_singleton. }
  split; rewrite ?Eq.
  - intros i. unfold ev' at 1. rewrite written_app. intros [Hi|Hi%list_elem_of_singleton]%elem_of_app; [|subst; auto].
    destruct (W1 i Hi) as (? & ? & [Hik|Hil]); (split; [done|]); [by auto|].
    split; [|right; by apply listed_app]. apply Hho; [done|]. specialize (Hll i Hil). lia.
  - intros i [Hi|Hi%list_elem_of_singleton]%elem_of_app; [|by subst].
    destruct (W2 i Hi) as [Hil ?]. split; [by apply listed_app|]. apply Hho; [done|]. specialize (Hll i Hil). lia.
  - intros q [Hq|Hq%list_elem_of_singleton]%elem_of_app; [|subst]; apply sourced_app; auto.
  - unfold ev'. rewrite taken_app, users_app, app_nil_r, (users_cons x []). simpl. rewrite app_nil_r.
    by rewrite <-(assoc_L (++)).
Qed.
Lemma items_queue used X l next ev ev' d x :
  item_quiet ev' → items_inv used (option_list (cb_user (si_ackCallback x)) ++ X) l next ev →
  si_sequenceNumber x = next → si_messageId x ∉ used → item_ok x → sourced ev x →
  (si_head x = true → l = []) →
  items_inv (si_messageId x :: used) X (l ++ [x]) (next + 1) (ev ++ ev' ++ [EvWrite d x; EvQueue x]).
Proof.
  intros Hq H Hn Hu Hx Hsrc Hh. rewrite (assoc_L (++)). apply (items_quiet _ _ _ _ _ ev' Hq) in H.
  apply (sourced_app _ ev') in Hsrc.
  revert H Hsrc. generalize (ev ++ ev'). clear ev ev' Hq. intros ev H Hsrc.
  assert (head_ok ev x) as Hhx.
  { intros E q Hq Hlt. eapply items_before; [done..|]. rewrite (Hh E). simpl. lia. }
  destruct H. split; rewrite ?queued_app, ?acked_app, ?called_app, ?taken_app, ?app_nil_r; simpl.
  - rewrite map_app, ii_numbers0. simpl. rewrite Hn. by rewrite seqZ_app by lia.
  - rewrite length_app. simpl. lia.
  - destruct ii_fifo0 as (done & E & Ed). exists done. rewrite !map_app, E, <-(assoc_L (++)).
    split; [done|]. rewrite Ed. apply filter_in_ext. intros id Hid. rewrite in_ids_snoc.
    split; [auto|]. intros [Hq| ->]; [done|].
    destruct Hu. apply ii_used0. by right.
  - rewrite length_app. cbn [length]. destruct ii_covered0 as [->|Hc]; [left; lia|right].
    apply (covered_app _ ([EvWrite d x] ++ [EvQueue x])) in Hc. by replace (_ - _ - 1)%Z with
      (next - Z.of_nat (length l) - 1)%Z by lia.
  - intros id. rewrite in_ids_snoc. intros [[Hid|Hid]|Hid]; apply elem_of_cons; [right|left|right]; [|done|]; apply ii_used0; auto.
  - rewrite map_app. apply NoDup_app. split_and!; [done| |apply NoDup_singleton].
    intros id Hid Hid'. apply list_elem_of_singleton in Hid' as ->. destruct Hu. apply ii_used0. by left.
  - rewrite ii_calls0, users_app, (users_cons x []). destruct (cb_user _); simpl;
      rewrite ?app_nil_r; [|done]. f_equiv. by rewrite (assoc_L (++)), (Permutation_app_comm _ [_]).
  - apply Forall_app. split; [done|]. by apply Forall_singleton.
  - by eapply wire_queue.
Qed.
End Items.
