(* ===== verification/SendInvariant.v ===== *)
(** * The send sequence: its invariant and what it promises

    The proofs about SendSequence.v: one invariant over the whole state and the
    trace, kept by every operation and by every turn of [Run], and the theorems
    that follow from it. *)

From Stdlib Require Import Floats.SpecFloat.
From S2P Require Import Prelude Ids GoHeap TransferQueue RttWindow Contracts Wire ContractManager ReceiveSequence SendSequence.
Open Scope go_scope.

(** ** The state *)

(** ** The trace only grows *)
Section Extends.
Context `{codec : TransferCodec}.
Variable settings : SendBufferSettings.
Variable clientId : Id.
Variable sequenceId : Id.
Variable key : ContractKey.
Variable unmarshalStored : list byte → outcome StoredContract.

Definition extends (st st' : SendSequence) : Prop := ∃ ev, ss_events st' = ss_events st ++ ev.
#[local] Instance extends_preorder : PreOrder extends.
Proof.
  split.
  - intros st. exists []. by rewrite app_nil_r.
  - intros st1 st2 st3 [ev E] [ev' E']. exists (ev ++ ev'). by rewrite E', E, (assoc_L (++)).
Qed.
Lemma extends_refl st : extends st st.
Proof. reflexivity. Qed.
Lemma extends_trans st1 st2 st3 : extends st1 st2 → extends st2 st3 → extends st1 st3.
Proof. intros. by etrans. Qed.
Lemma extends_in st st' e : extends st st' → e ∈ ss_events st → e ∈ ss_events st'.
Proof. intros [ev ->] He. apply elem_of_app. by left. Qed.
Lemma extends_same st st1 st2 : ss_events st1 = ss_events st2 → extends st st1 → extends st st2.
Proof. intros E [ev Ee]. exists ev. by rewrite <-E. Qed.
Lemma extends_emit st ev st' : extends st st' → extends st (ss_emit ev st').
Proof. intros [ev' E]. exists (ev' ++ ev). simpl. by rewrite E, (assoc_L (++)). Qed.
Lemma extends_call_back st mid cb err st' : extends st st' → extends st (call_back mid cb err st').
Proof.
  intros H. apply (extends_emit _ [EvCallback mid cb err]) in H. unfold call_back. destruct cb; [done|].
  unfold setContractAcked. destruct (current_contract _); [|done]. case_bool_decide; [|done].
  by eapply extends_same.
Qed.

(** Closes [extends] goals about states built from setters and emits. *)
Ltac ext :=
  repeat first [ assumption | reflexivity
    | match goal with
      | |- extends _ (ss_emit _ _) => apply extends_emit
      | |- extends _ (call_back _ _ _ _) => apply extends_call_back
      | |- extends _ (ss_set_contracts _ _ _ ?s) => apply (extends_same _ s); [reflexivity|]
      | |- extends _ (ss_set_items _ _ ?s) => apply (extends_same _ s); [reflexivity|]
      | |- extends _ (ss_set_next _ ?s) => apply (extends_same _ s); [reflexivity|]
      | |- extends _ (ss_set_rtt _ ?s) => apply (extends_same _ s); [reflexivity|]
      | |- extends _ (ss_set_acks _ ?s) => apply (extends_same _ s); [reflexivity|]
      | |- extends _ (ss_set_writer _ ?s) => apply (extends_same _ s); [reflexivity|]
      | |- extends _ (ss_set_index _ ?s) => apply (extends_same _ s); [reflexivity|]
      | |- extends _ (ss_set_local _ ?s) => apply (extends_same _ s); [reflexivity|]
      end ].

Lemma ackItem_extends st0 x st st' : extends st0 st → ackItem x st = Val st' → extends st0 st'.
Proof.
  intros H E. unfold ackItem in E. apply obind_Val in E as (st1 & E1 & [= <-]). ext.
  repeat (first [case_match | progress inv_val]); ext.
Qed.
Lemma ack_through_extends st0 n l st st' : extends st0 st → ack_through n l st = Val st' → extends st0 st'.
Proof.
  revert st. induction l as [|x l IH]; intros st H E; cbn [ack_through] in E; [inv_val; ext|].
  case_match; [inv_val; ext|]. apply obind_Val in E as ([r q] & _ & E). destruct r; [|done].
  apply obind_Val in E as (st1 & E1 & E). apply (IH st1); [|done]. eapply ackItem_extends; [|done]. ext.
Qed.
Lemma receiveAck_extends st0 now mid sel tag st st' :
  extends st0 st → receiveAck settings now mid sel tag st = Val st' → extends st0 st'.
Proof.
  intros H E. unfold receiveAck in E. case_match; [|inv_val; ext].
  apply obind_Val in E as (st1 & E1 & E).
  assert (extends st0 st1) as H1.
  { destruct tag; [|inv_val; ext]. apply obind_Val in E1 as (w & _ & [= <-]). ext. }
  destruct sel; [|by eapply ack_through_extends].
  apply obind_Val in E as ([r q] & _ & E). destruct r; [|done].
  apply obind_Val in E as (q' & _ & [= <-]). ext.
Qed.
Lemma accept_ack_extends st0 ack st : extends st0 st → extends st0 (accept_ack sequenceId ack st).
Proof. intros H. unfold accept_ack, take_ack. repeat case_match; ext. Qed.
Lemma selective_acks_extends st0 now l st st' :
  extends st0 st → selective_acks settings now l st = Val st' → extends st0 st'.
Proof.
  revert st. induction l as [|[m a] l IH]; intros st H E; cbn [selective_acks] in E; [inv_val; ext|].
  apply obind_Val in E as (st1 & E1 & E). apply (IH st1); [|done]. by eapply receiveAck_extends.
Qed.
Lemma apply_acks_extends st0 t st st' :
  extends st0 st → apply_acks settings sequenceId t st = Val st' → extends st0 st'.
Proof.
  intros H E. unfold apply_acks in E.
  assert (∀ l st, extends st0 st → extends st0 (foldl (λ st ack, accept_ack sequenceId ack st) st l)) as Hf.
  { intros l. induction l as [|a l IH]; intros s Hs; [done|]. by apply IH, accept_ack_extends. }
  apply (Hf (u_acks t)) in H. revert H E. generalize (foldl (λ st ack, accept_ack sequenceId ack st) st (u_acks t)).
  intros s H E. apply obind_Val in E as ([snap w] & _ & E). apply obind_Val in E as (st1 & E1 & E).
  eapply selective_acks_extends; [|done]. case_match; [|inv_val; ext]. case_match; [|done].
  eapply receiveAck_extends; [|done]. ext.
Qed.
Lemma write_extends st0 item st : extends st0 st → extends st0 (write key item st).
Proof. intros H. unfold write, openContractMultiRouteWriter. repeat case_match; ext. Qed.
Lemma send_extends st0 now e mid frame cb ack setc st st' :
  extends st0 st →
  sendWithSetContract settings clientId sequenceId key now e mid frame cb ack setc st = Val st' →
  extends st0 st'.
Proof.
  intros H E. unfold sendWithSetContract in E. set (a := (ack || _)%bool) in *.
  apply obind_Val in E as ([rtt w] & _ & E). apply obind_Val in E as (st1 & E1 & [= <-]). ext.
  match type of E1 with context [write key ?i ?s] =>
    assert (extends st0 (write key i s)) as Hw by (apply write_extends; destruct a; ext) end.
  destruct a.
  - apply obind_Val in E1 as (q & _ & [= <-]). ext.
  - destruct e; [inv_val; ext|]. by eapply ackItem_extends.
Qed.
Lemma create_contract_extends st0 i n cm st : extends st0 st → extends st0 (create_contract key i n cm st).
Proof. intros H. unfold create_contract. ext. Qed.
Lemma setNextContract_extends st0 now mid b c st ok st' :
  extends st0 st →
  setNextContract settings clientId sequenceId key unmarshalStored now mid b c st = Val (ok, st') →
  extends st0 st'.
Proof.
  intros H E. unfold setNextContract in E. case_match; [|inv_val; ext..].
  case_bool_decide; [inv_val; ext|]. destruct (sc_update 0 _) as [o1 n1].
  destruct (if o1 then sc_update b n1 else (false, n1)) as [o2 n2]. destruct o2; [|inv_val; ext].
  apply obind_Val in E as (st1 & E1 & [= <- <-]). eapply send_extends; [|done].
  unfold ss_setContract. repeat case_match; ext.
Qed.
Lemma nextContract_extends st0 a mid b st ok st' :
  extends st0 st → nextContract settings clientId sequenceId key unmarshalStored a mid b st = Val (ok, st') →
  extends st0 st'.
Proof.
  intros H E. unfold nextContract in E. case_match; [|inv_val; ext]. case_match.
  apply obind_Val in E as ([ok1 st1] & E1%(setNextContract_extends st0) & E); [|done].
  destruct ok1; inv_val; [|ext]. apply create_contract_extends. ext.
Qed.
Lemma contract_loop_extends st0 endTime l mid b st ok st' :
  extends st0 st →
  contract_loop settings clientId sequenceId key unmarshalStored endTime l mid b st = Val (ok, st') →
  extends st0 st'.
Proof.
  revert st. induction l as [|a l IH]; intros st H E; cbn [contract_loop] in E; [inv_val; ext|].
  case_match; [inv_val; ext|].
  apply obind_Val in E as ([ok1 st1] & E1%(nextContract_extends st0) & E); [|by apply create_contract_extends].
  destruct ok1; [inv_val; ext|]. by apply (IH st1).
Qed.
Lemma ss_updateContract_extends st0 now cm l mid b st ok st' :
  extends st0 st →
  ss_updateContract settings clientId sequenceId key unmarshalStored now cm l mid b st = Val (ok, st') →
  extends st0 st'.
Proof.
  intros H E. unfold ss_updateContract in E. destruct (noSendContract key now cm); [inv_val; ext|].
  match type of E with (let '(_, _) := ?m in _) = _ =>
    assert (extends st0 m.2) as H1; [|destruct m as [ok1 st1]; simpl in H1] end.
  { destruct (sendContract st); [|done]. destruct (current_contract st) as [c|]; [|done].
    destruct (sc_update b c). ext. }
  destruct ok1; [inv_val; ext|].
  destruct (contract_capacity settings cm <? _)%Z; [done|]. destruct l as [|a l]; [inv_val; ext|].
  apply obind_Val in E as ([ok2 st2] & E2%(nextContract_extends st0) & E); [|done].
  destruct ok2; [inv_val; ext|]. eapply contract_loop_extends; [|exact E]. done.
Qed.
Lemma resend_extends st0 fuel t w st r st' :
  extends st0 st → resend settings key fuel t w st = Val (r, st') → extends st0 st'.
Proof.
  revert w st. induction fuel as [|fuel IH]; intros w st H E; cbn [resend] in E; [done|].
  case_match; [|inv_val; ext]. case_match; [inv_val; ext|]. case_match; [inv_val; ext|].
  apply obind_Val in E as ([r1 q] & _ & E). case_match; [done|]. case_match; [|inv_val; ext|done].
  case_match. apply obind_Val in E as ([rtt w'] & _ & E). apply obind_Val in E as (q' & _ & E).
  apply IH in E; [done|]. ext. apply write_extends. ext.
Qed.
Lemma ss_exit_extends st0 st : extends st0 st → extends st0 (ss_exit key st).
Proof.
  intros H. unfold ss_exit, closeContractMultiRouteWriter.
  assert (∀ l st, extends st0 st → extends st0 (foldl (λ st item,
    ss_emit [EvReturn (si_transferFrameBytes item)]
      (call_back (Some (si_messageId item)) (si_ackCallback item) (Some "Send sequence closed."%string) st))
    st l)) as Hf.
  { intros l. induction l as [|x l IH]; intros s Hs; [done|]. apply IH. ext. }
  case_match; ext; apply Hf; ext.
Qed.
Lemma ss_turn_extends t st go st' :
  ss_turn_step settings clientId sequenceId key unmarshalStored t st = Val (go, st') → extends st st'.
Proof.
  intros E. unfold ss_turn_step in E.
  apply obind_Val in E as (st1 & E1%(apply_acks_extends st) & E); [|reflexivity].
  apply obind_Val in E as ([w st2] & E2 & E).
  assert (extends st st2) as H2.
  { clear E. unfold ss_wait in E2. case_match; [inv_val; ext|]. by eapply resend_extends. }
  destruct w; [|inv_val; ext]. case_match; [|inv_val; ext..]. case_match; [|inv_val; ext].
  unfold take_pack in E. apply obind_Val in E as ([ok st3] & E3%(ss_updateContract_extends st) & E); [|ext].
  destruct ok; [|inv_val; ext]. apply obind_Val in E as (st4 & E4%(send_extends st) & E); [|done].
  inv_val; ext.
Qed.
End Extends.

(** ** The invariant *)
Section Invariant.
Context `{codec : TransferCodec} `{!TransferCodecLaws codec}.
Variable settings : SendBufferSettings.
Variable clientId : Id.
Variable sequenceId : Id.
Variable key : ContractKey.
Variable unmarshalStored : list byte → outcome StoredContract.
(** Whether the peer needs no contract: it does not change during the run. *)
Variable noC : bool.
Hypothesis min_ok : (0 < Send_MinMessageByteCount settings < 2 ^ 62)%Z.
Hypothesis resend_ok : (0 < MinResendInterval settings)%Z ∧ (0 < MaxResendInterval settings)%Z.
Hypothesis window_ok : RttWindowSize settings ≠ 0.
Hypothesis stored_small : ∀ b s, unmarshalStored b = Val s →
  (f32_to_i64 (f32_mul (f32_of_Z (TransferByteCount s)) (ContractFillFraction settings)) < 2 ^ 62)%Z.

(** The messages that are acked in full during the run. *)
Variable full : Id → Prop.
Abbreviation iinv := (items_inv full).
Abbreviation cinv := (contracts_inv (Send_MinMessageByteCount settings) noC).

(** [l] are the items of the queue; [X] are the callbacks of packs that were
    taken but not sent yet, [E] the debits made for them. *)
Record ss_inv (used : list Id) (X : list positive) (E : list debit) (now : time)
    (l : list sendItem) (st : SendSequence) : Prop := {
  sv_queue : queue_holds send_cmp (resendQueue st) l;
  sv_items : iinv used X l (ss_nextSequenceNumber st) (ss_events st);
  sv_contracts : cinv (map item_debit l ++ E) (sendContract st) (openSendContracts st) (ss_events st);
  sv_rtt : rtt_ok now (ss_rttWindow st);
  sv_minRtt : minScaledRtt (ss_rttWindow st) = MinResendInterval settings;
  sv_maxRtt : maxScaledRtt (ss_rttWindow st) = MaxResendInterval settings;
  sv_acks : headAck (ss_ackWindow st) = None → (ackUpdateCount (ss_ackWindow st) ≤ 0)%Z;
  sv_full h : headAck (ss_ackWindow st) = Some h → full (ack_messageId h)
}.
Definition good (used : list Id) (X : list positive) (E : list debit) (now : time)
    (st : SendSequence) : Prop := ss_inv used X E now (sendItems st) st.

(** Everything but the contracts, the writer and the trace. *)
Definition ss_rest (st : SendSequence) :=
  (resendQueue st, sendItems st, ss_nextSequenceNumber st, ss_rttWindow st, ss_ackWindow st).
Definition ss_cur (st : SendSequence) := (sendContract st, openSendContracts st).

Lemma ss_inv_change used X E now l used' X' E' l' st st' :
  ss_inv used X E now l st →
  ss_rttWindow st' = ss_rttWindow st → ss_ackWindow st' = ss_ackWindow st →
  queue_holds send_cmp (resendQueue st') l' →
  iinv used' X' l' (ss_nextSequenceNumber st') (ss_events st') →
  cinv (map item_debit l' ++ E') (sendContract st') (openSendContracts st') (ss_events st') →
  ss_inv used' X' E' now l' st'.
Proof. intros [] E1 E2 ? ? ?. split; rewrite ?E1, ?E2; done. Qed.
Lemma ss_inv_emit used X E now l st ev :
  item_quiet ev → contract_quiet ev → ss_inv used X E now l st → ss_inv used X E now l (ss_emit ev st).
Proof. intros Hi Hc []. split; try done; [by apply items_quiet|by apply contracts_inv_quiet]. Qed.
Lemma ss_inv_writer used X E now l st w :
  ss_inv used X E now l st → ss_inv used X E now l (ss_set_writer w st).
Proof. by intros []. Qed.
Lemma ss_inv_later used X E now now' l st :
  (now ≤ now')%Z → ss_inv used X E now l st → ss_inv used X E now' l st.
Proof. intros Hn []. split; try done. by eapply rtt_ok_later. Qed.
Lemma ss_inv_used used used' X E now l st :
  (∀ i, i ∈ used → i ∈ used') → ss_inv used X E now l st → ss_inv used' X E now l st.
Proof. intros Hs []. split; try done. by eapply items_mono. Qed.

Lemma item_quiet_returns (l : list (list byte)) : item_quiet (map EvReturn l) ∧ contract_quiet (map EvReturn l).
Proof. induction l as [|b l [(E1&E2&E3&E4&E5) (E6&E7)]]; [done|]. by repeat split. Qed.

(** Callbacks change the trace and perhaps [sendContractAcked]. *)
Lemma call_back_spec mid cb err st :
  let st' := call_back mid cb err st in
  ss_rest st' = ss_rest st ∧ ss_cur st' = ss_cur st ∧ ss_events st' = ss_events st ++ [EvCallback mid cb err].
Proof.
  unfold call_back. destruct cb as [h|p]; [done|]. unfold setContractAcked.
  destruct (current_contract _) as [c|]; [|done]. by case_bool_decide.
Qed.

(** The contract of an acked item. *)
Lemma ackItem_spec x D st :
  cinv (item_debit x :: D) (sendContract st) (openSendContracts st) (ss_events st) →
  ∃ st' ev1, ackItem x st = Val st' ∧ ss_rest st' = ss_rest st ∧ sendContract st' = sendContract st ∧
    cinv D (sendContract st') (openSendContracts st') (ss_events st') ∧
    ss_events st' = (ss_events st ++ ev1 ++ [EvCallback (Some (si_messageId x)) (si_ackCallback x) None])
      ++ [EvReturn (si_transferFrameBytes x)] ∧
    item_quiet ev1.
Proof.
  intros H. unfold ackItem.
  assert (∃ st1 ev1,
    match si_contractId x with
    | None => Val st
    | Some id =>
        match openSendContracts st !! id with
        | None => Val st
        | Some c =>
            let! c := sc_ack (si_messageByteCount x) c in
            if (bool_decide (sendContract st ≠ Some id) && (unackedByteCount c =? 0)%Z)%bool
            then Val (ss_emit [close_contract c]
                        (ss_set_contracts (sendContract st) (sendContractAcked st)
                           (delete (sc_contractId c) (openSendContracts st)) st))
            else Val (ss_set_contracts (sendContract st) (sendContractAcked st)
                        (<[id := c]> (openSendContracts st)) st)
        end
    end = Val st1 ∧ ss_rest st1 = ss_rest st ∧ sendContract st1 = sendContract st ∧
    cinv D (sendContract st1) (openSendContracts st1) (ss_events st1) ∧
    ss_events st1 = ss_events st ++ ev1 ∧ item_quiet ev1) as (st1 & ev1 & -> & E1 & E2 & H1 & E3 & Hq).
  { unfold item_debit in H. destruct (si_contractId x) as [id|] eqn:Ex.
    - assert (is_Some (openSendContracts st !! id)) as [c Hc].
      { eapply ci_open; [done|]. by rewrite pend_hit. }
      rewrite Hc. destruct (contracts_inv_ack_val _ _ _ _ _ _ _ _ _ H Hc) as [c' Hc']. rewrite Hc'.
      cbn [obind]. pose proof (contracts_inv_acked _ _ _ _ _ _ _ _ _ _ H Hc Hc') as H1.
      assert (sc_contractId c' = id) as Eid.
      { unfold sc_ack in Hc'. destruct (_ <? _)%Z; [done|]. injection Hc' as <-.
        by apply (ci_ok _ _ _ _ _ _ H id c Hc). }
      case_bool_decide as Hcur; cbn [andb].
      + destruct (Z.eqb_spec (unackedByteCount c') 0) as [Hz|].
        * eexists _, [close_contract c']. split; [done|]. split_and!; try done.
          cbn [openSendContracts ss_set_contracts ss_emit sendContract ss_events]. rewrite Eid.
          rewrite <-(delete_insert_eq (openSendContracts st) id c').
          eapply contracts_inv_close; [exact min_ok|done| |done|done]. by rewrite lookup_insert_eq.
        * eexists _, []. by rewrite app_nil_r.
      + eexists _, []. by rewrite app_nil_r.
    - eexists _, []. rewrite app_nil_r. split_and!; try done. by eapply contracts_inv_lose. }
  cbn [obind]. destruct (call_back_spec (Some (si_messageId x)) (si_ackCallback x) None st1) as (E4 & E5 & E6).
  set (st2 := call_back _ _ _ _) in *. clearbody st2. injection E5 as E7 E8.
  exists (ss_emit [EvReturn (si_transferFrameBytes x)] st2), ev1. split; [done|]. split_and!.
  - change (ss_rest st2 = ss_rest st). congruence.
  - simpl. congruence.
  - simpl. rewrite E6, E7, E8, <-(assoc_L (++)). by apply contracts_inv_quiet.
  - simpl. by rewrite E6, E3, <-!(assoc_L (++)).
  - done.
Qed.

Lemma covered_le ev m n : covered full ev n → (m ≤ n)%Z → covered full ev m.
Proof. intros (j & ? & ? & ?) ?. exists j. split_and!; [done..|lia]. Qed.
Lemma ack_through_spec used X E now n l st :
  ss_inv used X E now l st → covered full (ss_events st) n →
  ∃ st' l1, ack_through n l st = Val st' ∧ good used X E now st' ∧ l = l1 ++ sendItems st' ∧
    ss_nextSequenceNumber st' = ss_nextSequenceNumber st ∧
    Forall (λ i, si_sequenceNumber i ≤ n)%Z l1 ∧
    match sendItems st' with i :: _ => (n < si_sequenceNumber i)%Z | [] => True end.
Proof.
  revert st. induction l as [|x l IH]; intros st H Hcov; cbn [ack_through].
  - eexists _, []. split; [done|]. split_and!; try done. by destruct H.
  - case_bool.
    { eexists _, []. split; [done|]. split_and!; try done. by destruct H. }
    destruct (RemoveByMessageId_item send_cmp _ x _ l (sv_queue _ _ _ _ _ _ H)) as (q & Hr & Hq'); [done|].
    cbn [MessageId sendItem_item] in Hr. rewrite Hr. cbn [obind].
    pose proof (sv_contracts _ _ _ _ _ _ H) as Hc.
    destruct (ackItem_spec x (map item_debit l ++ E) (ss_set_items q (sendItems st) st) Hc)
      as (st1 & ev1 & -> & E1 & _ & Hc1 & Ev1 & Hq1). cbn [obind].
    injection E1 as E1 _ E2 E3 E4.
    destruct (IH st1) as (st' & l1 & -> & Hg & -> & En & Hl & Hh).
    { eapply ss_inv_change; [done|done|done|by rewrite E1| |done]. rewrite Ev1, E2.
      apply items_quiet; [done|]. rewrite (assoc_L (++)). apply items_ack.
      - apply items_quiet; [done|]. apply H.
      - apply covered_app. by eapply covered_le. }
    { rewrite Ev1, <-(assoc_L (++)). by apply covered_app. }
    eexists _, (x :: l1). split; [done|]. split_and!; try done; [by rewrite En, E2|].
    constructor; [lia|done].
Qed.

(** Writing to an item and putting it back. *)
Lemma write_item_perm x y l l' :
  NoDup (map si_messageId l) → y :: l' ≡ₚ l → si_messageId x = si_messageId y →
  x :: l' ≡ₚ write_item x l.
Proof.
  intros Hn Hl E. unfold write_item. rewrite <-Hl. cbn [map]. rewrite bool_decide_true by done. f_equiv.
  rewrite <-Hl in Hn. cbn [map] in Hn. apply NoDup_cons in Hn as [Hni _]. rewrite <-E in Hni.
  clear -Hni. induction l' as [|z l' IH]; [done|]. cbn [map] in *.
  rewrite bool_decide_false by (intros Ez; apply Hni, elem_of_cons; auto).
  f_equiv. apply IH. intros Hz. apply Hni, elem_of_cons. by right.
Qed.
Lemma Add_back q x y l l' :
  queue_holds send_cmp q l' → y :: l' ≡ₚ l → NoDup (map si_messageId l) →
  NoDup (map si_sequenceNumber l) → item_key x = item_key y →
  ∃ q', Add send_cmp x q = Val q' ∧ queue_holds send_cmp q' (write_item x l).
Proof.
  intros Hq Hl Hn1 Hn2 Hk. injection Hk as E1 E2.
  destruct (Add_holds send_cmp q l' x Hq) as (q' & Ha & Hq').
  { intros z Hz. simpl. rewrite <-Hl in Hn1, Hn2. cbn [map] in *.
    apply NoDup_cons in Hn1 as [Hn1 _]. apply NoDup_cons in Hn2 as [Hn2 _]. rewrite E1, E2.
    split; intros Ez; [apply Hn1|apply Hn2]; rewrite <-Ez; by apply list_elem_of_fmap_2. }
  exists q'. split; [done|]. by rewrite <-(write_item_perm x y l l').
Qed.
Lemma items_numbers_nodup used X l next ev :
  iinv used X l next ev → NoDup (map si_sequenceNumber l).
Proof.
  intros H. destruct (ii_fifo _ _ _ _ _ _ H) as (done & E & _).
  assert (map snd (map item_key (queued ev)) = seqZ 0 next) as En
    by (rewrite map_map; apply (ii_numbers _ _ _ _ _ _ H)).
  rewrite E, map_app, map_map in En. pose proof (NoDup_seqZ 0 next) as Hn. rewrite <-En in Hn.
  by apply NoDup_app in Hn as (_ & _ & ?).
Qed.

Lemma receiveAck_spec used X E t0 now mid sel tag st :
  good used X E t0 st → (t0 ≤ now)%Z → (sel = false → full mid) →
  ∃ st', receiveAck settings now mid sel tag st = Val st' ∧ good used X E now st' ∧
    ss_nextSequenceNumber st' = ss_nextSequenceNumber st.
Proof.
  intros H Ht Hfull. unfold receiveAck, GetByMessageId.
  pose proof (id_picks send_cmp _ _ mid (sv_queue _ _ _ _ _ _ H)) as Hp.
  destruct (messageIdItems (resendQueue st) !! mid) as [y|]; simpl in Hp;
    [|exists st; split_and!; [done|by eapply ss_inv_later|done]].
  destruct Hp as [Hy Eid].
  assert (∃ st1, match tag with
                 | Some t => let! w := closeTag t now (ss_rttWindow st) in Val (ss_set_rtt w st)
                 | None => Val st
                 end = Val st1 ∧ good used X E now st1 ∧ sendItems st1 = sendItems st ∧
                 ss_nextSequenceNumber st1 = ss_nextSequenceNumber st) as (st1 & -> & H1 & El & En).
  { destruct tag as [t|]; [|exists st; split_and!; [done|by eapply ss_inv_later|done..]].
    destruct (closeTag_spec t0 t now _ (sv_rtt _ _ _ _ _ _ H) Ht) as (w & -> & Hw & ? & ? & ? & ? & ?).
    cbn [obind]. eexists. split; [done|]. split_and!; try done. destruct H. split; simpl; try congruence; done. }
  cbn [obind]. rewrite <-El in Hy. destruct sel.
  - apply elem_of_Permutation in Hy as (l' & Hl). symmetry in Hl.
    destruct (RemoveByMessageId_item send_cmp _ y _ l' (sv_queue _ _ _ _ _ _ H1) Hl) as (q & Hr & Hq).
    simpl in Hr. rewrite Eid in Hr. rewrite Hr. cbn [obind].
    set (x := item_set_resend _ _ y).
    pose proof (sv_items _ _ _ _ _ _ H1) as Hi.
    destruct (Add_back q x y _ l' Hq Hl) as (q' & -> & Hq'); [by eapply items_nodup|by eapply items_numbers_nodup|done|].
    cbn [obind]. eexists. split; [done|]. split; [|done].
    assert (y ∈ sendItems st1) as Hy by (rewrite <-Hl; apply elem_of_cons; by left).
    destruct (items_rewrite _ _ _ _ _ _ x y Hi Hy) as [Hi' Ed]; [done| | |].
    { pose proof (ii_items _ _ _ _ _ _ Hi) as Hall. rewrite Forall_forall in Hall. apply (Hall y Hy). }
    { apply (wi_pending _ _ _ (ii_wire _ _ _ _ _ _ Hi) y Hy). }
    eapply (ss_inv_change _ _ _ _ _ _ _ _ (write_item x (sendItems st1)) st1); [exact H1|done..|].
    rewrite Ed. apply H1.
  - destruct (ack_through_spec used X E now (si_sequenceNumber y) _ _ H1) as (st' & l1 & -> & Hg & _ & En' & _).
    { destruct (ii_fifo _ _ _ _ _ _ (sv_items _ _ _ _ _ _ H1)) as (done & Ed & _).
      assert (item_key y ∈ map item_key (queued (ss_events st1))) as Hk.
      { rewrite Ed. apply elem_of_app. right. by apply list_elem_of_fmap_2. }
      apply list_elem_of_fmap in Hk as (j & [= E1 E2] & Hj). exists j. rewrite <-E1, <-E2, Eid.
      split_and!; [done|by apply Hfull|lia]. }
    exists st'. split_and!; [done|done|]. congruence.
Qed.

(** *** Writing *)
Lemma write_spec item st :
  ∃ d ev0, write key item st = ss_emit (ev0 ++ [EvWrite d item]) (ss_set_writer (Some d) st) ∧
    item_quiet ev0 ∧ contract_quiet ev0.
Proof.
  unfold write, openContractMultiRouteWriter.
  set (d := match current_contract st with None => _ | Some c => _ end). clearbody d.
  exists d. case_bool_decide as E.
  - exists []. rewrite E. split; [|by repeat split]. by destruct st; simpl in *; subst.
  - eexists. split; [|split; cycle 1].
    + unfold ss_emit, ss_set_writer. simpl. rewrite <-(assoc_L (++)). reflexivity.
    + by destruct (contractMultiRouteWriter st).
    + by destruct (contractMultiRouteWriter st).
Qed.

Lemma item_pack_frame path p i :
  si_transferFrameBytes i = frame_bytes settings path p → item_pack i = Val p.
Proof.
  intros E. unfold item_pack, frame_bytes in *. rewrite E, unmarshal_marshal_frame. cbn [obind].
  unfold only_pack. case_bool; cbn [tf_Ack tf_Pack tf_Frame MessageBytes]; [done|]. apply unmarshal_marshal_pack.
Qed.

Lemma setHead_spec now item st :
  item_ok item → (∀ id, si_contractId item = Some id → is_Some (openSendContracts st !! id)) →
  ∃ bytes, setHead now item st = Val bytes ∧ item_ok (item_set_head bytes item) ∧
    item_body (item_set_head bytes item) = item_body item.
Proof.
  intros (p & Hp & E1 & E2 & E3 & E4) Ho. unfold setHead, item_pack in *.
  destruct (unmarshalTransferFrame _) as [tf| |] eqn:Etf; cbn [obind] in *; [|done..].
  pose proof (only_pack_of _ _ Hp) as Hp'. rewrite Hp'. cbn [obind].
  assert (∃ cf, (match si_contractId item with
    | Some id =>
        if si_hasContractFrame item then Val (ContractFrame p)
        else match openSendContracts st !! id with
             | Some c => Val (Some (contract_frame c))
             | None => Panic "nil pointer dereference"
             end
    | None => Val (ContractFrame p)
    end) = Val cf ∧ (si_contractId item ≠ None → cf ≠ None)) as (cf & -> & Hcf).
  { destruct (si_contractId item) as [id|]; [|by eexists].
    destruct (si_hasContractFrame item).
    - eexists. split; [done|]. intros _. apply E4; [|done]. by rewrite orb_true_r.
    - destruct (Ho id eq_refl) as [c ->]. by eexists. }
  cbn [obind]. eexists. split; [done|].
  match goal with |- item_ok (item_set_head ?b _) ∧ _ => set (bytes := b) end.
  assert (item_pack (item_set_head bytes item) = Val (pack_with_head (openTag now) cf p)) as Hpack.
  { unfold item_pack. cbn [si_transferFrameBytes item_set_head]. unfold bytes. rewrite unmarshal_marshal_frame.
    unfold only_pack in *. cbn [obind]. destruct (tf_Ack tf) eqn:Ea, (tf_Pack tf), (tf_Frame tf) as [f|]; try done.
    cbn [tf_Ack tf_Pack tf_Frame MessageBytes MessageType]. revert Hp. case_bool; [|done].
    intros _. apply unmarshal_marshal_pack. }
  split; [by exists (pack_with_head (openTag now) cf p)|].
  unfold item_body. rewrite Hpack. unfold item_pack. rewrite Etf. cbn [obind]. by rewrite Hp.
Qed.

Definition returns_of (pack : Pack) (frames cframes : list Frame) : list ss_event :=
  (if (2 <=? ProtocolVersion settings)%Z then [] else [EvReturn (marshalPack pack)])
  ++ map (λ f, EvReturn (MessageBytes f)) frames ++ map (λ f, EvReturn (MessageBytes f)) cframes.
Lemma returns_quiet pack frames cframes :
  item_quiet (returns_of pack frames cframes) ∧ contract_quiet (returns_of pack frames cframes).
Proof.
  assert (returns_of pack frames cframes = map EvReturn ((if (2 <=? ProtocolVersion settings)%Z then []
    else [marshalPack pack]) ++ map MessageBytes frames ++ map MessageBytes cframes)) as ->.
  { unfold returns_of. rewrite !map_app, !map_map. by case_bool. }
  apply item_quiet_returns.
Qed.

Lemma cinv_events D cur open ev ev' :
  contract_quiet ev' → cinv D cur open ev → cinv D cur open (ev ++ ev').
Proof. apply contracts_inv_quiet. Qed.

(** The new item of a queue: it goes last. *)
Lemma queue_item used X E now st d ev0 item :
  good used (option_list (cb_user (si_ackCallback item)) ++ X) (item_debit item :: E) now st →
  item_quiet ev0 → contract_quiet ev0 → item_ok item → si_messageId item ∉ used →
  si_sequenceNumber item = ss_nextSequenceNumber st → sourced (ss_events st) item →
  (si_head item = true → sendItems st = []) →
  let st1 := ss_set_next (ss_nextSequenceNumber st + 1)
               (ss_emit (ev0 ++ [EvWrite d item]) (ss_set_writer (Some d) st)) in
  ∃ q, Add send_cmp item (resendQueue st1) = Val q ∧
    good (si_messageId item :: used) X E now
      (ss_emit [EvQueue item] (ss_set_items q (sendItems st1 ++ [item]) st1)).
Proof.
  intros H Hi0 Hc0 Hok Hu Hn Hsrc Hhd st1. pose proof (sv_items _ _ _ _ _ _ H) as Hi.
  assert (∀ x, x ∈ sendItems st → si_messageId x ≠ si_messageId item ∧
    si_sequenceNumber x ≠ si_sequenceNumber item) as Hdiff.
  { intros x Hx. split.
    - intros E1. apply Hu. rewrite <-E1. eapply ii_used; [done|]. left. by eapply items_l_in.
    - intros E1. rewrite Hn in E1. destruct (ii_fifo _ _ _ _ _ _ Hi) as (done & Ed & _).
      assert (si_sequenceNumber x ∈ seqZ 0 (ss_nextSequenceNumber st)) as Hin.
      { rewrite <-(ii_numbers _ _ _ _ _ _ Hi). change (map si_sequenceNumber (queued (ss_events st)))
          with (map (λ i, (item_key i).2) (queued (ss_events st))).
        rewrite <-map_map, Ed, map_app, map_map. apply elem_of_app. right.
        apply list_elem_of_fmap. by exists x. }
      apply elem_of_seqZ in Hin. lia. }
  destruct (Add_holds send_cmp _ _ item (sv_queue _ _ _ _ _ _ H)) as (q & Ha & Hq); [exact Hdiff|].
  exists q. split; [exact Ha|].
  assert (queue_holds send_cmp q (sendItems st ++ [item])) as Hq'.
  { by rewrite (Permutation_app_comm _ [_]). }
  eapply (ss_inv_change _ _ _ _ _ _ _ _ _ _ _ H); [done|done|exact Hq'| |].
  - cbn [ss_emit ss_set_items ss_events ss_nextSequenceNumber ss_set_next ss_set_writer st1].
    rewrite <-!(assoc_L (++)). by apply items_queue.
  - cbn [ss_emit ss_set_items ss_events st1 ss_set_next ss_set_writer sendContract openSendContracts].
    rewrite <-!(assoc_L (++)).
    eapply contracts_inv_perm; [|apply cinv_events; [|exact (sv_contracts _ _ _ _ _ _ H)]].
    + change (map item_debit (sendItems st) ++ item_debit item :: E ≡ₚ
        map item_debit (sendItems st ++ [item]) ++ E). rewrite map_app, <-(assoc_L (++)). done.
    + destruct Hc0 as [E1 E2]. split; [rewrite uses_app, E1|rewrite closes_app, E2]; done.
Qed.

(** A message that is not acked by the receiver: its callback is called at once. *)
Lemma nack_item used X E now st d ev0 item writeErr :
  good used (option_list (cb_user (si_ackCallback item)) ++ X) (item_debit item :: E) now st →
  item_quiet ev0 → contract_quiet ev0 → item_ok item → is_nack item → si_messageId item ∉ used →
  let st1 := ss_emit (ev0 ++ [EvWrite d item]) (ss_set_writer (Some d) st) in
  ∃ st2, match writeErr with
         | None => ackItem item st1
         | Some e => Val (ss_emit [EvReturn (si_transferFrameBytes item)]
                            (call_back (Some (si_messageId item)) (si_ackCallback item) (Some e) st1))
         end = Val st2 ∧ good (si_messageId item :: used) X E now st2 ∧
    ss_nextSequenceNumber st2 = ss_nextSequenceNumber st ∧ sendContract st2 = sendContract st.
Proof.
  intros H Hi0 Hc0 Hok Hnk Hu st1.
  assert (ss_inv (si_messageId item :: used) (option_list (cb_user (si_ackCallback item)) ++ X)
    (item_debit item :: E) now (sendItems st) st1) as H1.
  { eapply (ss_inv_change _ _ _ _ _ _ _ _ _ _ _ H); [done|done|apply H| |].
    - cbn [st1 ss_emit ss_set_writer ss_events ss_nextSequenceNumber]. rewrite (assoc_L (++)).
      apply items_write; [|done|by intros Eh; destruct Hnk as [Eh' _]; congruence|by left]. apply items_quiet; [done|].
      eapply items_mono; [|exact (sv_items _ _ _ _ _ _ H)]. intros; by apply elem_of_cons; right.
    - cbn [st1 ss_emit ss_set_writer ss_events sendContract openSendContracts].
      apply cinv_events; [|exact (sv_contracts _ _ _ _ _ _ H)].
      destruct Hc0 as [E1 E2]. split; [rewrite uses_app, E1|rewrite closes_app, E2]; done. }
  pose proof (sv_contracts _ _ _ _ _ _ H1) as Hc1.
  assert (∀ id, Some (si_messageId item) = Some id →
    ¬ in_ids (queued (ss_events st1)) id ∧ id ∈ si_messageId item :: used) as Hm.
  { intros id [= <-]. split; [|apply elem_of_cons; by left]. intros Hin. apply Hu.
    eapply (ii_used _ _ _ _ _ _ (sv_items _ _ _ _ _ _ H)). left.
    cbn [st1 ss_emit ss_events ss_set_writer] in Hin. destruct Hi0 as (E1 & _).
    rewrite !queued_app, E1 in Hin. cbn [app] in Hin. by rewrite app_nil_r in Hin. }
  destruct writeErr as [e|].
  - destruct (call_back_spec (Some (si_messageId item)) (si_ackCallback item) (Some e) st1) as (E1 & E2 & E3).
    eexists. split; [done|]. set (st2 := call_back _ _ _ _) in *. clearbody st2.
    injection E1 as Eq El En Er Ea. injection E2 as Ec Eo.
    split_and!; [|by simpl; rewrite En|by simpl; rewrite Ec].
    unfold good. cbn [sendItems ss_emit]. rewrite El.
    apply ss_inv_emit; [done|done|].
    eapply (ss_inv_change _ _ _ _ _ _ _ _ _ _ _ H1); [done|done|rewrite Eq; apply H1| |].
    + rewrite E3, En. apply items_call; [exact Hm|]. apply H1.
    + rewrite E3, Ec, Eo. apply cinv_events; [done|]. eapply contracts_inv_lose.
      eapply contracts_inv_perm; [|exact Hc1]. symmetry. apply Permutation_middle.
  - destruct (ackItem_spec item (map item_debit (sendItems st) ++ E) st1)
      as (st2 & ev1 & -> & E1 & Ec & Hc2 & E3 & Hq1).
    { eapply contracts_inv_perm; [|exact Hc1]. symmetry. apply Permutation_middle. }
    eexists. split; [done|]. injection E1 as Eq El En Er Ea.
    split_and!; [|by rewrite En|by rewrite Ec]. unfold good. rewrite El.
    eapply (ss_inv_change _ _ _ _ _ _ _ _ _ _ _ H1); [done|done|rewrite Eq; apply H1| |done].
    rewrite E3, En. apply items_quiet; [done|]. rewrite (assoc_L (++)). apply items_call.
    + intros id Hid. destruct (Hm id Hid) as [Hn ?]. split; [|done]. rewrite queued_app.
      destruct Hq1 as (-> & _). by rewrite app_nil_r.
    + apply items_quiet; [done|]. apply H1.
Qed.

Lemma send_spec used X E t0 now writeErr mid frame cb ack0 setc st :
  good used (option_list (cb_user cb) ++ X)
    ((sendContract st, MessageByteCount_frames (option_list frame)) :: E) t0 st →
  (t0 ≤ now)%Z → mid ∉ used → (ss_nextSequenceNumber st < 2 ^ 64 - 1)%Z →
  from_take (ss_events st) cb frame →
  ∃ st', sendWithSetContract settings clientId sequenceId key now writeErr mid frame cb ack0 setc st = Val st' ∧
    good (mid :: used) X E now st' ∧ sendContract st' = sendContract st ∧
    (ss_nextSequenceNumber st ≤ ss_nextSequenceNumber st' ≤ ss_nextSequenceNumber st + 1)%Z.
Proof.
  intros H Ht Hu Hlt Hft. unfold sendWithSetContract.
  set (ack := (ack0 || _)%bool). clearbody ack.
  set (head := (ack && _)%bool). assert (head = true → ack = true ∧ sendItems st = []) as Hha.
  { subst head. destruct ack; [|done]. simpl. intros El%Nat.eqb_eq. split; [done|]. by destruct (sendItems st). }
  clearbody head. set (cf := if (head || setc)%bool then _ else None).
  assert ((head || bool_decide (cf ≠ None))%bool = true → sendContract st ≠ None → cf ≠ None) as Hcf.
  { intros Hh Hc. case_bool_decide as Ecf; [done|]. rewrite orb_false_r in Hh. subst head. simpl in cf.
    destruct (sendContract st) as [id|] eqn:Es; [|done].
    destruct (ci_cur _ _ _ _ _ _ (sv_contracts _ _ _ _ _ _ H) id) as [c Hc']; [by rewrite Es|].
    intros Ec. unfold cf, current_contract in Ec. rewrite Es in Ec. simpl in Ec. by rewrite Hc' in Ec. }
  clearbody cf. cbv zeta. set (path := ToProtobuf _). clearbody path.
  set (pack := mkPack _ _ _ _ _ _ _ _ _).
  set (st0 := if ack then ss_set_next _ st else st).
  assert (ss_rttWindow st0 = ss_rttWindow st ∧ sendContract st0 = sendContract st) as [Er Es] by (by destruct ack).
  rewrite Er. apply (ss_inv_later _ _ _ _ now) in H; [|done].
  destruct (scaledRtt_spec now now _ (sv_rtt _ _ _ _ _ _ H)) as (w & -> & Hw & (_ & _ & Hmn & Hmx & _) & _);
    [lia|]. cbn [obind]. change (sendContract (ss_set_rtt w st0)) with (sendContract st0). rewrite Es.
  set (item := mkSendItem mid _ _ _ _ _ _ _ _ _ _).
  assert (item_ok item) as Hok.
  { exists pack. split_and!; try done. by eapply item_pack_frame. }
  assert (item_pack item = Val pack) as Hpk by by eapply item_pack_frame.
  assert (item_body item = Val (negb ack, option_list frame)) as Hbody by (unfold item_body; by rewrite Hpk).
  destruct (write_spec item (ss_set_rtt w st0)) as (d & ev0 & -> & Hi0 & Hc0).
  set (st1 := ss_set_rtt w st).
  assert (good used (option_list (cb_user cb) ++ X) (item_debit item :: E) now st1) as H1.
  { destruct H. split; simpl; try done; congruence. }
  destruct (returns_quiet pack (option_list frame) (option_list cf)) as [Hr1 Hr2].
  destruct ack.
  - destruct (queue_item used X E now st1 d ev0 item H1) as (q & Ha & Hg);
      [done..|by exists frame|by intros Eh; apply Hha|].
    assert (u64 (ss_nextSequenceNumber st + 1) = ss_nextSequenceNumber st + 1)%Z as En.
    { apply u64_small. pose proof (ii_next _ _ _ _ _ _ (sv_items _ _ _ _ _ _ H)). unfold is_u64. lia. }
    subst st0. cbn [resendQueue ss_emit ss_set_writer ss_set_rtt ss_set_next] in *. rewrite En in *.
    change (resendQueue st1) with (resendQueue st) in Ha. rewrite Ha. cbn [obind].
    eexists. split; [done|]. split_and!; [|done|simpl; lia|simpl; lia].
    apply (ss_inv_emit _ _ _ _ _ _ _ Hr1 Hr2). exact Hg.
  - destruct (nack_item used X E now st1 d ev0 item writeErr H1) as (st2 & E2 & Hg & En & Ec);
      [done..| |done|].
    { split; [|by exists pack]. simpl. destruct head; [|done]. by destruct (Hha eq_refl). }
    subst st0. cbv zeta in E2.
    match type of E2 with ?l = _ => match goal with |- context [obind ?m _] => change m with l end end.
    rewrite E2. cbn [obind]. eexists. split; [done|]. simpl in En.
    split_and!; [|done|simpl; lia|simpl; lia].
    apply (ss_inv_emit _ _ _ _ _ _ _ Hr1 Hr2). exact Hg.
Qed.

(** *** Contracts *)
Lemma sc_update_same b c c' : sc_update b c = (true, c') →
  sc_contractId c' = sc_contractId c ∧ minUpdateByteCount c' = minUpdateByteCount c ∧
  effectiveTransferByteCount c' = effectiveTransferByteCount c.
Proof. unfold sc_update. case_bool; [done|]. by intros [= <-]. Qed.
Lemma sc_update_debit p b c c' :
  sc_ok p c → (minUpdateByteCount c < 2 ^ 62)%Z → (b < 2 ^ 62)%Z → sc_update b c = (true, c') →
  sc_ok (b :: p) c'.
Proof.
  intros Hc Hm Hb E. pose proof (sc_update_ok _ _ b Hc Hm Hb) as H. simpl in H.
  destruct (_ <=? _)%Z; [|congruence]. destruct H as (c1 & E1 & ? & _). congruence.
Qed.

Lemma setContract_spec used X E now st next n b :
  good used X E now st → noC = false → openSendContracts st !! sc_contractId n = None →
  sc_contractId next = sc_contractId n → effectiveTransferByteCount next = effectiveTransferByteCount n →
  minUpdateByteCount n = Send_MinMessageByteCount settings → sc_ok [b; 0%Z] n →
  let st' := ss_setContract n (ss_emit [EvUse next] st) in
  good used X ((Some (sc_contractId n), 0%Z) :: (Some (sc_contractId n), b) :: E) now st' ∧
  sendContract st' = Some (sc_contractId n) ∧ ss_nextSequenceNumber st' = ss_nextSequenceNumber st.
Proof.
  intros H HnC Hno Ei Ee Hm Hs. unfold ss_setContract. set (id := sc_contractId n) in *.
  pose proof (sv_contracts _ _ _ _ _ _ H) as Hc.
  pose proof (contracts_inv_open _ _ _ _ _ _ n next [b; 0%Z] Hc HnC Hno Ei Ee Hm Hs) as Ho.
  assert (∀ D', [(Some id, b); (Some id, 0%Z)] ++ (D' ++ E) ≡ₚ
    D' ++ (Some id, 0%Z) :: (Some id, b) :: E) as HD.
  { intros D'. simpl. rewrite <-!(Permutation_middle D'). apply perm_swap. }
  change (current_contract (ss_emit _ st)) with (current_contract st).
  assert (∀ open ev, item_quiet ev →
    cinv ([(Some id, b); (Some id, 0%Z)] ++ map item_debit (sendItems st) ++ E) (Some id)
      (<[id := n]> open) ((ss_events st ++ [EvUse next]) ++ ev) →
    good used X ((Some id, 0%Z) :: (Some id, b) :: E) now
      (ss_emit ev (ss_set_contracts (Some id) false (<[id := n]> open) (ss_emit [EvUse next] st)))) as Hfin.
  { intros open ev Hev Hopen. eapply (ss_inv_change _ _ _ _ _ _ _ _ _ _ _ H); [done|done|apply H| |].
    - simpl. apply items_quiet; [done|]. apply items_quiet; [done|]. apply H.
    - simpl. eapply contracts_inv_perm; [apply HD|]. exact Hopen. }
  unfold current_contract. destruct (sendContract st) as [id0|] eqn:Es; cbn [mbind option_bind];
    [destruct (openSendContracts st !! id0) as [c0|] eqn:E0; [destruct (Z.eqb_spec (unackedByteCount c0) 0)|]|].
  - split; [|done]. apply (Hfin (delete _ (openSendContracts st)) [close_contract c0]); [done|].
    assert (sc_contractId c0 = id0) as Eid by apply (ci_ok _ _ _ _ _ _ Hc id0 c0 E0).
    assert (id ≠ id0) as Hne by congruence.
    rewrite Eid, <-delete_insert_ne by done.
    eapply contracts_inv_close; [exact min_ok|exact Ho| |congruence|done].
    by rewrite lookup_insert_ne.
  - split; [|done]. apply Hfin; [done|]. by rewrite app_nil_r.
  - split; [|done]. apply Hfin; [done|]. by rewrite app_nil_r.
  - split; [|done]. apply Hfin; [done|]. by rewrite app_nil_r.
Qed.

(** The outcome of an attempt: with the debit of the message, or without. *)
Definition contract_result (used : list Id) (X : list positive) (E : list debit) (mid : Id) (b : Z)
    (now : time) (st : SendSequence) (r : outcome (bool * SendSequence)) : Prop :=
  ∃ (ok : bool) st', r = Val (ok, st') ∧
    good (mid :: used) X (if ok then (sendContract st', b) :: E else E) now st' ∧
    (ss_nextSequenceNumber st ≤ ss_nextSequenceNumber st' ≤ ss_nextSequenceNumber st + 1)%Z ∧
    (ok = false → good used X E now st' ∧ ss_nextSequenceNumber st' = ss_nextSequenceNumber st).

Lemma contract_result_false used X E mid b now st st' :
  good used X E now st' → ss_nextSequenceNumber st' = ss_nextSequenceNumber st →
  contract_result used X E mid b now st (Val (false, st')).
Proof.
  intros H En. exists false, st'. split_and!; [done| |lia|lia|done].
  eapply ss_inv_used; [|done]. intros; apply elem_of_cons; by right.
Qed.

Lemma setNextContract_spec used X E now mid b contract st :
  good used X E now st → noC = false → mid ∉ used → (ss_nextSequenceNumber st < 2 ^ 64 - 1)%Z →
  (b < 2 ^ 62)%Z →
  contract_result used X E mid b now st
    (setNextContract settings clientId sequenceId key unmarshalStored now mid b contract st).
Proof.
  intros H HnC Hu Hlt Hb. unfold setNextContract.
  destruct (newSequenceContract _ _ _ _ _) as [next| |] eqn:En; [|by apply contract_result_false..].
  apply newSequenceContract_fresh in En as (Hok & Hm & _ & _); [|lia|exact stored_small].
  set (st1 := ss_set_local _ st). assert (good used X E now st1) as H1 by (by destruct H).
  case_bool_decide as Hopen; [by apply contract_result_false|].
  assert (good used X E now (ss_emit [EvManager (OutCloseContract (sc_contractId next) 0 0 false)]
    (ss_emit [EvUse next] st1))) as Hsmall.
  { eapply (ss_inv_change _ _ _ _ _ _ _ _ _ _ _ H1); [done|done|apply H1| |]; simpl; rewrite <-(assoc_L (++)).
    - apply items_quiet; [done|]. apply H1.
    - apply contracts_inv_too_small. apply H1. }
  destruct (sc_update 0 next) as [ok1 n1] eqn:E1. destruct ok1; [|by apply contract_result_false].
  destruct (sc_update b n1) as [ok2 n2] eqn:E2. destruct ok2; [|by apply contract_result_false].
  pose proof (sc_update_same _ _ _ E1) as (A1 & A2 & A3).
  pose proof (sc_update_same _ _ _ E2) as (B1 & B2 & B3).
  assert (sc_ok [b; 0%Z] n2) as Hs.
  { eapply sc_update_debit; [|rewrite A2, Hm; lia|done|done].
    eapply sc_update_debit; [done|rewrite Hm; lia|lia|done]. }
  destruct (setContract_spec used X E now st1 next n2 b) as (H2 & Ec & En2); [done|done| |congruence..|done|].
  { rewrite B1, A1. exact Hopen. }
  set (st2 := ss_setContract n2 _) in *. clearbody st2.
  destruct (send_spec used X ((Some (sc_contractId n2), b) :: E) now now None mid None
    (CbContract (ss_nextLocalId st)) true true st2) as (st3 & -> & H3 & Ec3 & Hn3).
  { simpl. rewrite Ec. exact H2. }
  { done. } { done. } { rewrite En2. exact Hlt. } { done. }
  cbn [obind]. exists true, st3. split_and!; [done| | | |done].
  - rewrite Ec3, Ec. exact H3.
  - rewrite En2 in Hn3. simpl in Hn3. lia.
  - rewrite En2 in Hn3. simpl in Hn3. lia.
Qed.

Lemma good_later used X E now now' st : good used X E now st → (now ≤ now')%Z → good used X E now' st.
Proof. intros ? ?. by apply (ss_inv_later _ _ _ now). Qed.

Fixpoint chain (now : time) (ts : list time) (last : time) : Prop :=
  match ts with [] => (now ≤ last)%Z | t :: ts => (now ≤ t)%Z ∧ chain t ts last end.
Lemma chain_le now ts last : chain now ts last → (now ≤ last)%Z.
Proof. revert now. induction ts as [|t ts IH]; intros now; [done|]. intros [? ?%IH]. lia. Qed.

Lemma create_contract_good used X E now st idx n cm :
  good used X E now st → good used X E now (create_contract key idx n cm st).
Proof.
  intros H. unfold create_contract, CreateContractMessage. destruct (openContractQueue _ _).
  by apply ss_inv_emit.
Qed.
Lemma contract_result_later used X E mid b now now' st r :
  (now ≤ now')%Z → contract_result used X E mid b now st r → contract_result used X E mid b now' st r.
Proof.
  intros Hn (ok & st' & -> & H & Hx & Hf). exists ok, st'.
  split_and!; [done|by eapply good_later|lia|lia|]. intros E1. destruct (Hf E1).
  split; [by eapply good_later|done].
Qed.

Lemma nextContract_spec used X E a mid b st :
  good used X E (at_time a) st → noC = false → mid ∉ used → (ss_nextSequenceNumber st < 2 ^ 64 - 1)%Z →
  (b < 2 ^ 62)%Z →
  contract_result used X E mid b (at_time a) st
    (nextContract settings clientId sequenceId key unmarshalStored a mid b st).
Proof.
  intros H HnC Hu Hlt Hb. unfold nextContract.
  destruct (TakeContract _ _ _).1 as [[id contract]|]; [|by apply contract_result_false].
  destruct (setNextContract_spec used X E (at_time a) mid b contract st) as (ok & st1 & -> & H1 & Hn & Hf);
    [done..|]. cbn [obind]. destruct ok.
  - exists true. eexists. split; [done|]. split_and!; [|simpl; lia|simpl; lia|done].
    apply create_contract_good. by destruct H1.
  - apply contract_result_false; by apply Hf.
Qed.
Lemma contract_loop_spec used X E now endTime attempts last mid b st st0 :
  good used X E now st → chain now (map at_time attempts) last → noC = false → mid ∉ used →
  ss_nextSequenceNumber st = ss_nextSequenceNumber st0 →
  (ss_nextSequenceNumber st0 < 2 ^ 64 - 1)%Z → (b < 2 ^ 62)%Z →
  contract_result used X E mid b last st0
    (contract_loop settings clientId sequenceId key unmarshalStored endTime attempts mid b st).
Proof.
  revert now st. induction attempts as [|a attempts IH]; intros now st H Hch HnC Hu En Hlt Hb;
    cbn [contract_loop].
  - apply contract_result_false; [by eapply good_later|done].
  - pose proof (chain_le _ _ _ Hch). destruct Hch as [Ha Hch].
    case_bool; [apply contract_result_false; [by eapply good_later|done]|].
    set (st1 := create_contract _ _ _ _ st).
    assert (good used X E (at_time a) st1) as Hg1.
    { apply create_contract_good. by eapply good_later. }
    destruct (nextContract_spec used X E a mid b st1) as (ok & st2 & -> & H2 & Hn & Hf);
      [done..|simpl; lia|done|].
    change (ss_nextSequenceNumber st1) with (ss_nextSequenceNumber st) in *.
    cbn [obind]. destruct ok.
    + exists true, st2. split_and!; [done| |lia|lia|done]. eapply good_later; [done|].
      by apply chain_le in Hch.
    + destruct (Hf eq_refl) as [H3 E3]. apply (IH (at_time a)); try done. congruence.
Qed.

Lemma ss_updateContract_spec used X E now cm attempts last mid b st :
  good used X E now st → chain now (map at_time attempts) last →
  noSendContract key now cm = noC → mid ∉ used →
  (ss_nextSequenceNumber st < 2 ^ 64 - 1)%Z → (0 ≤ b < 2 ^ 62)%Z →
  (noC = false → b + Send_MinMessageByteCount settings ≤ contract_capacity settings cm)%Z →
  contract_result used X E mid b last st
    (ss_updateContract settings clientId sequenceId key unmarshalStored now cm attempts mid b st).
Proof.
  intros H Hch HnC Hu Hlt Hb Hcap. unfold ss_updateContract.
  pose proof (sv_contracts _ _ _ _ _ _ H) as Hc. pose proof (chain_le _ _ _ Hch) as Hle.
  assert (∀ D, cinv D (sendContract st) (openSendContracts st) (ss_events st) →
    ∀ id, sendContract st = Some id → noC = false) as Hcur.
  { intros D HD id Eid. assert (noC ≠ true); [|by destruct noC]. intros EnC. destruct (ci_cur _ _ _ _ _ _ HD id Eid) as [c Hc'].
    by rewrite (ci_none _ _ _ _ _ _ HD) in Hc' by done. }
  assert (noC = true ∨ noC = false) as [EnC|EnC] by (destruct noC; auto); rewrite HnC, EnC.
  - exists true, st. split_and!; [done| |lia|lia|done].
    assert (sendContract st = None) as -> by (destruct (sendContract st) as [id|] eqn:Es;
      [by rewrite (Hcur _ Hc id eq_refl) in EnC|done]).
    eapply ss_inv_used; [intros i Hi; apply elem_of_cons; by right|].
    eapply good_later; [|done]. destruct H. split; try done.
    eapply contracts_inv_perm; [apply Permutation_middle|]. by apply contracts_inv_none.
  - match goal with |- contract_result _ _ _ _ _ _ _ (let '(_, _) := ?m in _) =>
      assert (∃ (ok : bool) st1, m = (ok, st1) ∧ ss_nextSequenceNumber st1 = ss_nextSequenceNumber st ∧
        good used X (if ok then (sendContract st1, b) :: E else E) now st1) as (ok & st1 & -> & En & H1) end.
    { unfold current_contract. destruct (sendContract st) as [id|] eqn:Es; [|by exists false, st].
      cbn [mbind option_bind]. destruct (openSendContracts st !! id) as [c|] eqn:Ec; [|by exists false, st].
      destruct (sc_update b c) as [ok c'] eqn:Eu. exists ok. eexists. split; [done|]. split; [done|].
      destruct (ci_ok _ _ _ _ _ _ Hc id c Ec) as (E1 & E2 & (lost & Hs) & E3).
      destruct ok.
      - pose proof (sc_update_same _ _ _ Eu) as (A1 & A2 & A3).
        eapply (ss_inv_change _ _ _ _ _ _ _ _ _ _ _ H); [done|done|apply H|apply H|]. simpl.
        eapply contracts_inv_perm; [apply Permutation_middle|].
        eapply contracts_inv_set; [exact Hc|done| |].
        + intros j Hj. rewrite pend_miss; [done|]. simpl. congruence.
        + rewrite pend_hit. split_and!; [congruence|congruence| |by rewrite A3].
          exists lost. eapply (sc_update_debit _ _ _ _ Hs); [rewrite E2; lia|lia|done].
      - assert (c' = c) as ->. { unfold sc_update in Eu. destruct (_ <? _)%Z; by injection Eu. }
        eapply (ss_inv_change _ _ _ _ _ _ _ _ _ _ _ H); [done|done|apply H|apply H|]. simpl.
        rewrite (insert_id (openSendContracts st) id c) by done. exact Hc. }
    destruct ok.
    + exists true, st1. split_and!; [done| |lia|lia|done]. eapply good_later; [|done].
      eapply ss_inv_used; [|done]. intros; apply elem_of_cons; by right.
    + rewrite i64_small by (unfold is_i64; lia). specialize (Hcap EnC). case_bool; [lia|].
      destruct attempts as [|a attempts].
      { apply contract_result_false; [by eapply good_later|done]. }
      destruct Hch as [Ha Hch]. pose proof (chain_le _ _ _ Hch) as Hle'.
      destruct (nextContract_spec used X E a mid b st1) as (ok & st2 & -> & H2 & Hn & Hf);
        [by eapply good_later|done|done|lia|lia|].
      cbn [obind]. destruct ok.
      * exists true, st2. split_and!; [done| |lia|lia|done]. by eapply good_later.
      * destruct (Hf eq_refl) as [H3 E3].
        apply (contract_loop_spec used X E (at_time a)); try done; [congruence|lia].
Qed.

(** *** Resending *)
Definition due (sendTime : time) (l : list sendItem) : list sendItem :=
  filter (λ i, si_resendTime i ≤ sendTime)%Z l.
(** What the writes [ev] do for an item that was due: it was written, as the
    head when it is the oldest. *)
Definition resent (l : list sendItem) (ev : list ss_event) (i : sendItem) : Prop :=
  ∃ x, x ∈ written ev ∧ item_key x = item_key i ∧
    (head (map item_key l) = Some (item_key i) → si_head x = true).

Lemma due_write sendTime x y l :
  NoDup (map si_messageId l) → y ∈ l → (si_resendTime y ≤ sendTime < si_resendTime x)%Z →
  si_messageId x = si_messageId y →
  length (due sendTime l) = S (length (due sendTime (write_item x l))).
Proof.
  intros Hn Hy Ht E. apply elem_of_Permutation in Hy as (l' & Hl). symmetry in Hl.
  unfold due. rewrite <-(write_item_perm x y l l') by done. rewrite <-Hl, !filter_cons.
  rewrite decide_True by lia. rewrite decide_False by lia. done.
Qed.
Lemma write_item_other x l z : z ∈ l → si_messageId z ≠ si_messageId x → z ∈ write_item x l.
Proof.
  intros Hz Hne. apply list_elem_of_fmap. exists z. by rewrite bool_decide_false.
Qed.
Lemma write_item_in x z l : z ∈ write_item x l → z = x ∨ z ∈ l.
Proof.
  intros (y & -> & Hy)%list_elem_of_fmap. case_bool_decide; [by left|by right].
Qed.

Lemma pend_item l E item id :
  item ∈ l → si_contractId item = Some id → pend (map item_debit l ++ E) id ≠ [].
Proof.
  intros Hin Hid Hp. assert (si_messageByteCount item ∈ ([] : list Z)) as Hx; [|by apply elem_of_nil in Hx].
  rewrite <-Hp. apply list_elem_of_omap. exists (item_debit item). split.
  - apply elem_of_app. left. by apply list_elem_of_fmap_2.
  - unfold item_debit. simpl. by rewrite bool_decide_true.
Qed.
(** The oldest item becomes the head. *)
Lemma head_item used X E sendTime st q item first rest :
  good used X E sendTime st → item ∈ sendItems st → sendItems st = first :: rest → item_ok item →
  ∃ item1 ev1,
    (if ((si_sequenceNumber first =? si_sequenceNumber item)%Z && negb (si_head item))%bool
      then let! bytes := setHead sendTime item (ss_set_items q (sendItems st) st) in
           Val (item_set_head bytes item, [EvReturn (si_transferFrameBytes item)])
      else Val (item, [])) = Val (item1, ev1) ∧ item_ok item1 ∧ same_entry item1 item ∧
    head_ok (ss_events st) item1 ∧ item_quiet ev1 ∧ contract_quiet ev1 ∧
    (item_key first = item_key item → si_head item1 = true).
Proof.
  intros H Hin Es Hok. pose proof (sv_items _ _ _ _ _ _ H) as Hi.
  destruct (wi_pending _ _ _ (ii_wire _ _ _ _ _ _ Hi) item Hin) as [_ Hho].
  destruct (Z.eqb_spec (si_sequenceNumber first) (si_sequenceNumber item)) as [Ef|Ef]; cbn [andb].
  - destruct (si_head item) eqn:Eh; cbn [negb]; [by exists item, []|].
    destruct (setHead_spec sendTime item (ss_set_items q (sendItems st) st) Hok) as (bytes & Hb & Hokb & Hbd).
    { intros id Hid. eapply ci_open; [exact (sv_contracts _ _ _ _ _ _ H)|]. by eapply pend_item. }
    rewrite Hb. cbn [obind]. eexists _, _. split_and!; try done.
    unfold good in H. rewrite Es in Hi. by eapply items_first_head.
  - exists item, []. split_and!; try done. intros Ek. injection Ek as _ Ek. done.
Qed.

(** One resend. *)
Lemma resend_one used X E sendTime st item :
  good used X E sendTime st → item ∈ sendItems st → (si_resendTime item ≤ sendTime)%Z →
  (0 < time_Sub (si_sendTime item + AckTimeout settings) sendTime)%Z →
  ∃ q, RemoveByMessageId send_cmp (si_messageId item) (resendQueue st) = Val (Some item, q) ∧
  ∃ first rest, sendItems st = first :: rest ∧
  ∃ item1 ev1, (if ((si_sequenceNumber first =? si_sequenceNumber item)%Z && negb (si_head item))%bool
      then let! bytes := setHead sendTime item (ss_set_items q (sendItems st) st) in
           Val (item_set_head bytes item, [EvReturn (si_transferFrameBytes item)])
      else Val (item, [])) = Val (item1, ev1) ∧
  let st1 := write key item1 (ss_emit ev1 (ss_set_items q (sendItems st) st)) in
  ∃ rtt w, scaledRtt sendTime (ss_rttWindow st1) = Val (rtt, w) ∧
  let item2 := item_set_resend
    (sendTime + Z.min (time_Sub (si_sendTime item + AckTimeout settings) sendTime) rtt)
    (si_sendCount item1 + 1) item1 in
  ∃ q2, Add send_cmp item2 (resendQueue st1) = Val q2 ∧
  let st2 := ss_set_rtt w (ss_set_items q2 (write_item item2 (sendItems st1)) st1) in
  good used X E sendTime st2 ∧ ss_nextSequenceNumber st2 = ss_nextSequenceNumber st ∧
  sendItems st2 = write_item item2 (sendItems st) ∧ same_entry item2 item ∧
  (sendTime < si_resendTime item2)%Z ∧
  ∃ ev, ss_events st2 = ss_events st ++ ev ∧ resent (sendItems st) ev item.
Proof.
  intros H Hin Hdue Hack. pose proof (sv_items _ _ _ _ _ _ H) as Hi.
  pose proof Hin as Hin'. apply elem_of_Permutation in Hin' as (l' & Hl). symmetry in Hl.
  destruct (RemoveByMessageId_item send_cmp _ item _ l' (sv_queue _ _ _ _ _ _ H) Hl) as (q & Hr & Hq).
  exists q. split; [exact Hr|].
  destruct (sendItems st) as [|first rest] eqn:Es; [by apply elem_of_nil in Hin|].
  exists first, rest. split; [done|].
  assert (item_ok item) as Hok.
  { pose proof (ii_items _ _ _ _ _ _ Hi) as Ha. rewrite Forall_forall in Ha. by apply Ha. }
  destruct (head_item used X E sendTime st q item first rest H)
    as (item1 & ev1 & Hset & Hok1 & Hse & Hho1 & Hq1 & Hc1 & Hhead); [by rewrite Es|done..|]. rewrite Es in Hset.
  exists item1, ev1. split; [exact Hset|]. cbv zeta.
  destruct (write_spec item1 (ss_emit ev1 (ss_set_items q (first :: rest) st))) as (d & ev0 & -> & Hi0 & Hc0).
  cbn [ss_emit ss_set_writer ss_set_items ss_rttWindow].
  destruct (scaledRtt_spec sendTime sendTime _ (sv_rtt _ _ _ _ _ _ H))
    as (w & Hs & Hw & (_ & _ & Hmn & Hmx & _) & _); [lia|].
  eexists. exists w. split; [exact Hs|].
  set (rtt := clamp_rtt _ _ _ _).
  assert (0 < rtt)%Z as Hrtt.
  { unfold rtt, clamp_rtt. rewrite (sv_minRtt _ _ _ _ _ _ H), (sv_maxRtt _ _ _ _ _ _ H). lia. }
  clearbody rtt. set (item2 := item_set_resend _ _ item1).
  assert (same_entry item2 item) as Hse2 by exact Hse.
  assert (item_ok item2) as Hok2 by exact Hok1.
  cbn [resendQueue].
  destruct (Add_back q item2 item (first :: rest) l' Hq Hl) as (q2 & Ha & Hq2).
  { by eapply items_nodup. }
  { by eapply items_numbers_nodup. }
  { apply Hse2. }
  exists q2. split; [exact Ha|].
  assert (sendTime < si_resendTime item2)%Z as Hlt by (simpl; lia).
  destruct (items_rewrite _ _ _ _ _ _ item2 item Hi Hin Hse2 Hok2 Hho1) as [Hi2 Ed].
  set (ev := ev1 ++ ev0 ++ [EvWrite d item1]).
  assert (ss_events st ++ ev = (ss_events st ++ ev1) ++ ev0 ++ [EvWrite d item1]) as Eev
    by apply (assoc_L (++)).
  split_and!; try done.
  - unfold good. cbn [sendItems ss_set_rtt ss_set_items ss_emit ss_set_writer].
    split; cbn [resendQueue ss_nextSequenceNumber ss_events sendContract openSendContracts ss_rttWindow
      ss_ackWindow ss_set_rtt ss_set_items ss_emit ss_set_writer]; try done.
    + rewrite <-Eev. unfold ev. rewrite (assoc_L (++) ev1), (assoc_L (++) (ss_events st)).
      assert (queued (ev1 ++ ev0) = []) as Hqn.
      { destruct Hq1 as (A1 & _), Hi0 as (B1 & _). by rewrite queued_app, A1, B1. }
      apply items_write; [|done|by apply head_ok_app|right; apply listed_app].
      * apply items_quiet; [|done]. destruct Hq1 as (A1&A2&A3&A4&A5), Hi0 as (B1&B2&B3&B4&B5).
        unfold item_quiet. rewrite queued_app, written_app, acked_app, called_app, taken_app.
        rewrite A1, A2, A3, A4, A5, B1, B2, B3, B4, B5. done.
      * eapply same_entry_listed; [exact Hse|]. by apply (wi_pending _ _ _ (ii_wire _ _ _ _ _ _ Hi)).
    + rewrite Ed, <-Es, <-Eev. apply cinv_events; [|exact (sv_contracts _ _ _ _ _ _ H)].
      destruct Hc1 as [A1 A2], Hc0 as [B1 B2]. unfold contract_quiet, ev.
      rewrite !uses_app, !closes_app, A1, A2, B1, B2. done.
    + by rewrite Hmn, (sv_minRtt _ _ _ _ _ _ H).
    + by rewrite Hmx, (sv_maxRtt _ _ _ _ _ _ H).
    + exact (sv_acks _ _ _ _ _ _ H).
    + exact (sv_full _ _ _ _ _ _ H).
  - exists ev. split; [by rewrite Eev|]. exists item1. split_and!; [|apply Hse|].
    + unfold ev. rewrite !written_app. apply elem_of_app. right. apply elem_of_app. right.
      by apply list_elem_of_singleton.
    + intros [= Ek1 Ek2]. apply Hhead. unfold item_key. congruence.
Qed.

(** The whole pass. With [None] the sequence ends on an ack timeout; otherwise
    nothing is left that is due, and what was due was written. *)
Record resend_result (used : list Id) (X : list positive) (E : list debit) (sendTime : time)
    (st : SendSequence) (r : option duration) (st' : SendSequence) : Prop := {
  rr_good : good used X E sendTime st';
  rr_next : ss_nextSequenceNumber st' = ss_nextSequenceNumber st;
  rr_keys : map item_key (sendItems st') = map item_key (sendItems st);
  rr_events : ∃ ev, ss_events st' = ss_events st ++ ev ∧
    (r ≠ None → Forall (resent (sendItems st) ev) (due sendTime (sendItems st)));
  rr_due : r ≠ None → due sendTime (sendItems st') = [];
  rr_none : r = None → ∃ i, i ∈ sendItems st ∧ (time_Sub (si_sendTime i + AckTimeout settings) sendTime ≤ 0)%Z
}.
Lemma resent_l l ev ev' i : resent l ev i → resent l (ev ++ ev') i.
Proof. intros (x & Hx & ?). exists x. rewrite written_app. split; [apply elem_of_app; by left|done]. Qed.
Lemma resent_r l ev ev' i : resent l ev i → resent l (ev' ++ ev) i.
Proof. intros (x & Hx & ?). exists x. rewrite written_app. split; [apply elem_of_app; by right|done]. Qed.
Lemma resent_same l l' ev i j : map item_key l = map item_key l' → item_key i = item_key j →
  resent l ev i → resent l' ev j.
Proof. intros El Ei (x & ? & ? & ?). exists x. rewrite <-El, <-Ei. done. Qed.

Lemma match_cons {A B} (l : list A) x r (d : B) (f : A → B) :
  l = x :: r → match l with [] => d | y :: _ => f y end = f x.
Proof. by intros ->. Qed.

Lemma resend_spec used X E sendTime timeout fuel st :
  good used X E sendTime st → length (due sendTime (sendItems st)) < fuel →
  ∃ r st', resend settings key fuel sendTime timeout st = Val (r, st') ∧
    resend_result used X E sendTime st r st' ∧
    (∀ t, r = Some t → (t ≤ timeout)%Z ∧ ((0 < timeout)%Z → (0 < t)%Z)).
Proof.
  revert timeout st. induction fuel as [|fuel IH]; intros timeout st H Hf; [lia|]. cbn [resend].
  destruct (PeekFirst_holds send_cmp _ _ (sv_queue _ _ _ _ _ _ H)) as [Hp Hn].
  assert (∀ r, (r ≠ None → due sendTime (sendItems st) = []) →
    (r = None → ∃ i, i ∈ sendItems st ∧ (time_Sub (si_sendTime i + AckTimeout settings) sendTime ≤ 0)%Z) →
    resend_result used X E sendTime st r st) as Hstop.
  { intros r Hd Hnone. split; try done. exists []. rewrite app_nil_r. split; [done|]. intros Hr.
    by rewrite (Hd Hr). }
  destruct (PeekFirst (resendQueue st)) as [item|]; simpl in Hp.
  2:{ eexists _, st. split; [done|]. split; [|intros t [= <-]; lia]. apply Hstop; [|done]. by rewrite (Hn eq_refl). }
  destruct Hp as [Hin Hfirst].
  destruct (Z.leb_spec (time_Sub (si_sendTime item + AckTimeout settings) sendTime) 0) as [Hack|Hack].
  { exists None, st. split; [done|]. split; [apply Hstop; [done|by exists item]|done]. }
  assert (∀ y, y ∈ sendItems st → si_resendTime item ≤ si_resendTime y)%Z as Hmin.
  { intros y Hy. specialize (Hfirst y Hy). unfold send_cmp in Hfirst. repeat case_bool; lia. }
  destruct (Z.ltb_spec sendTime (si_resendTime item)) as [Hlater|Hdue].
  { eexists _, st. split; [done|]. split.
    - apply Hstop; [|done]. intros _. unfold due. destruct (filter _ _) as [|z l] eqn:Ef; [done|].
      assert (z ∈ filter (λ i, si_resendTime i ≤ sendTime)%Z (sendItems st)) as Hz
        by (rewrite Ef; apply elem_of_cons; by left).
      apply list_elem_of_filter in Hz as [Hz1 Hz2]. specialize (Hmin z Hz2). lia.
    - intros t [= <-]. unfold time_Sub in *. lia. }
  destruct (resend_one used X E sendTime st item H Hin)
    as (q & Hr & first & rest & Es & item1 & ev1 & Hset & rtt & w & Hs & q2 & Ha & H2 & En2 & El2 & Hse &
      Hlt & ev & Eev & Hres); [lia|lia|].
  rewrite Hr. cbn [obind].
  rewrite (match_cons (sendItems (ss_set_items q (sendItems st) st)) first rest _ _ Es), Hset. cbv zeta. rewrite Hs. cbn [obind]. rewrite Ha. cbn [obind].
  set (st2 := ss_set_rtt w _) in *. cbv zeta in H2, En2, El2, Eev. clearbody st2.
  set (item2 := item_set_resend _ _ item1) in *. clearbody item2.
  pose proof (items_nodup _ _ _ _ _ _ (sv_items _ _ _ _ _ _ H)) as Hnd.
  assert (si_messageId item2 = si_messageId item) as Eid by (destruct Hse as [[= ? ?] _]; done).
  assert (length (due sendTime (sendItems st)) = S (length (due sendTime (sendItems st2)))) as Hdl.
  { rewrite El2. apply (due_write _ _ item); [done|done|lia|done]. }
  destruct (IH (Z.min (time_Sub (si_sendTime item + AckTimeout settings) sendTime) timeout) st2 H2)
    as (r & st' & -> & Hrr & Ht); [lia|].
  assert (map item_key (sendItems st2) = map item_key (sendItems st)) as Ek.
  { rewrite El2. apply same_entry_maps. eapply write_item_same; [exact (sv_items _ _ _ _ _ _ H)|done|done]. }
  eexists r, st'. split; [done|]. split.
  2:{ intros t Et. destruct (Ht t Et). lia. }
  destruct Hrr as [R1 R2 R3 (ev' & R4 & R5) R6 R7]. split; [done|congruence|congruence| |done|]; cycle 1.
  { intros Er. destruct (R7 Er) as (z & Hz & Hzt). rewrite El2 in Hz.
    apply write_item_in in Hz as [->|Hz]; [|by exists z]. exists item.
    destruct Hse as (_ & _ & _ & Est & _). by rewrite <-Est. }
  exists (ev ++ ev'). split; [by rewrite R4, Eev, (assoc_L (++))|]. intros Hne.
  apply Forall_forall. intros z [Hz1 Hz2]%list_elem_of_filter.
  destruct (decide (si_messageId z = si_messageId item)) as [Ez|Ez].
  - assert (z = item) as ->; [|by apply resent_l].
    eapply items_same; [exact (sv_items _ _ _ _ _ _ H)|done..].
  - apply (resent_same (sendItems st2) _ _ z z); [done|done|]. apply resent_r.
    pose proof (R5 Hne) as Hall. rewrite Forall_forall in Hall. apply Hall.
    apply list_elem_of_filter. split; [done|]. rewrite El2. apply write_item_other; [done|congruence].
Qed.

Lemma ss_wait_spec used X E sendTime st :
  good used X E sendTime st →
  ∃ r st', ss_wait settings key sendTime st = Val (r, st') ∧ resend_result used X E sendTime st r st'.
Proof.
  intros H. unfold ss_wait.
  assert (hLen (orderedItems (resendQueue st)) = length (sendItems st)) as El.
  { unfold hLen. by rewrite (qh_items _ _ _ (sv_queue _ _ _ _ _ _ H)). }
  rewrite El. case_bool.
  - eexists _, st. split; [done|]. split; try done.
    + exists []. rewrite app_nil_r. split; [done|]. intros _. by destruct (sendItems st).
    + intros _. by destruct (sendItems st).
  - destruct (resend_spec used X E sendTime (AckTimeout settings) (S (length (sendItems st))) st H)
      as (r & st' & E1 & Hrr & _); [|by exists r, st'].
    unfold due. pose proof (length_filter (λ i, si_resendTime i ≤ sendTime)%Z (sendItems st)). lia.
Qed.

(** *** The turn *)
(** The full acks of this sequence. *)
Definition confirms (ack : ProtoAck) (id : Id) : Prop :=
  IdFromBytes (pa_SequenceId ack) = Val sequenceId ∧ IdFromBytes (pa_MessageId ack) = Val id ∧
  pa_Selective ack = false.
Lemma accept_ack_good used X E now st ack :
  good used X E now st → (∀ id, confirms ack id → full id) → good used X E now (accept_ack sequenceId ack st) ∧
  ss_nextSequenceNumber (accept_ack sequenceId ack st) = ss_nextSequenceNumber st.
Proof.
  intros H Hf. unfold accept_ack, take_ack. destruct (IdFromBytes (pa_SequenceId ack)) as [sid| |] eqn:Es; [|done..].
  case_bool_decide as Esid; [|done]. destruct (IdFromBytes (pa_MessageId ack)) as [m| |] eqn:Em; [|done..].
  destruct (ContainsMessageId m _) as [n|]; [|done]. split; [|done].
  assert (pa_Selective ack = false → full m) as Hm by (intros Esel; apply Hf; split_and!; congruence).
  pose proof (sv_acks _ _ _ _ _ _ H) as Ha. pose proof (sv_full _ _ _ _ _ _ H) as Hh.
  destruct H. split; try done; simpl; unfold ackWindow_Update; simpl;
    destruct (headAck (ss_ackWindow st)) as [h|] eqn:Eh; simpl; [case_bool|..|case_bool|]; simpl;
    destruct (pa_Selective ack) eqn:Esel; simpl; try done; auto.
  - intros h' [= <-]. by apply Hm.
  - intros h' [= <-]. by apply Hm.
Qed.
Lemma selective_acks_spec used X E now l st :
  good used X E now st →
  ∃ st', selective_acks settings now l st = Val st' ∧ good used X E now st' ∧
    ss_nextSequenceNumber st' = ss_nextSequenceNumber st.
Proof.
  revert st. induction l as [|[m a] l IH]; intros st H; cbn [selective_acks]; [by exists st|].
  destruct (receiveAck_spec used X E now now m true (ack_tag a) st H) as (st1 & -> & H1 & E1); [lia|done|].
  cbn [obind]. destruct (IH st1 H1) as (st' & -> & ? & ?). exists st'. split_and!; [done|done|congruence].
Qed.
Lemma apply_acks_spec used X E t0 t st :
  good used X E t0 st → (t0 ≤ u_ackTime t)%Z →
  (∀ a id, a ∈ u_acks t → confirms a id → full id) →
  ∃ st', apply_acks settings sequenceId t st = Val st' ∧ good used X E (u_ackTime t) st' ∧
    ss_nextSequenceNumber st' = ss_nextSequenceNumber st.
Proof.
  intros H Ht Hcf. unfold apply_acks.
  assert (∀ acks st, good used X E t0 st → (∀ a, a ∈ acks → a ∈ u_acks t) →
    good used X E t0 (foldl (λ st ack, accept_ack sequenceId ack st) st acks) ∧
    ss_nextSequenceNumber (foldl (λ st ack, accept_ack sequenceId ack st) st acks)
      = ss_nextSequenceNumber st) as Hfold.
  { intros acks. induction acks as [|a acks IH]; intros s Hs Hin; [done|]. simpl.
    destruct (accept_ack_good _ _ _ _ _ a Hs) as [Ha Ea].
    { intros id. apply Hcf, Hin, elem_of_cons. by left. }
    destruct (IH _ Ha) as [Hb Eb]; [|split; [done|congruence]].
    intros x Hx. apply Hin, elem_of_cons. by right. }
  destruct (Hfold (u_acks t) st H) as [H1 E1]; [done|]. set (st1 := foldl _ _ _) in *. clearbody st1.
  pose proof (sv_acks _ _ _ _ _ _ H1) as Hacks. pose proof (sv_full _ _ _ _ _ _ H1) as Hhead.
  unfold ackWindow_Snapshot.
  assert (∃ sel, (if (0 <? ackUpdateCount (ss_ackWindow st1))%Z
    then match headAck (ss_ackWindow st1) with
         | Some h => Val (filter (after_head h) (selectiveAcks (ss_ackWindow st1)))
         | None => if bool_decide (selectiveAcks (ss_ackWindow st1) = ∅) then Val ∅
                   else Panic "nil pointer dereference"
         end
    else Val (selectiveAcks (ss_ackWindow st1))) = Val sel) as [sel ->].
  { case_bool; [|by eexists]. destruct (headAck _); [by eexists|]. specialize (Hacks eq_refl). lia. }
  cbn [obind snap_ackUpdateCount snap_headAck snap_selectiveAcks].
  set (st2 := ss_set_acks _ st1).
  assert (good used X E (u_ackTime t) st2) as H2.
  { destruct (good_later _ _ _ _ (u_ackTime t) _ H1 Ht). by split. }
  assert (∃ st3, (if (0 <? ackUpdateCount (ss_ackWindow st1))%Z
    then match headAck (ss_ackWindow st1) with
         | Some h => receiveAck settings (u_ackTime t) (ack_messageId h) false (ack_tag h) st2
         | None => Panic "nil pointer dereference"
         end
    else Val st2) = Val st3 ∧ good used X E (u_ackTime t) st3 ∧
    ss_nextSequenceNumber st3 = ss_nextSequenceNumber st) as (st3 & -> & H3 & E3).
  { case_bool; [|by exists st2]. destruct (headAck _) as [h|]; [|specialize (Hacks eq_refl); lia].
    destruct (receiveAck_spec used X E (u_ackTime t) (u_ackTime t) (ack_messageId h) false (ack_tag h) st2 H2)
      as (st3 & -> & ? & E3); [lia|intros _; by apply Hhead|]. exists st3. split_and!; [done|done|]. by rewrite E3. }
  cbn [obind]. destruct (selective_acks_spec used X E (u_ackTime t)
    (u_order t (map_to_list sel)) st3 H3) as (st4 & -> & H4 & E4).
  exists st4. split_and!; [done|done|congruence].
Qed.

(** What a turn must satisfy: clocks in order, a configuration of contracts that
    does not change, packs as [Client] makes them, which fit a contract. *)
Record turn_ok (t : ss_turn) : Prop := {
  uk_times : (u_ackTime t ≤ u_sendTime t ≤ u_takeTime t)%Z;
  uk_chain : chain (u_takeTime t) (map at_time (u_attempts t)) (u_writeTime t);
  uk_noC : noSendContract key (u_takeTime t) (u_cm t) = noC;
  uk_pack p : u_input t = SendPackInput p →
    sp_MessageByteCount p = Z.of_nat (length (MessageBytes (sp_Frame p))) ∧
    (sp_MessageByteCount p < 2 ^ 62)%Z ∧
    (noC = false → sp_MessageByteCount p + Send_MinMessageByteCount settings
                   ≤ contract_capacity settings (u_cm t))%Z
}.
Definition turn_ids (t : ss_turn) : list Id := [u_contractMessageId t; u_messageId t].

Lemma take_pack_spec used now t p st :
  good used [] [] now st → (now ≤ u_takeTime t)%Z → turn_ok t → u_input t = SendPackInput p →
  NoDup (turn_ids t) → (∀ i, i ∈ turn_ids t → i ∉ used) →
  (ss_nextSequenceNumber st < 2 ^ 64 - 2)%Z →
  ∃ go st', take_pack settings clientId sequenceId key unmarshalStored t p st = Val (go, st') ∧
    good (turn_ids t ++ used) [] [] (u_writeTime t) st' ∧
    (ss_nextSequenceNumber st' ≤ ss_nextSequenceNumber st + 2)%Z.
Proof.
  intros H Ht [_ Hch HnC Hp] Ep Hnd Hni Hlt. destruct (Hp p Ep) as (Eb & Hb & Hcap).
  unfold take_pack. set (st0 := ss_emit [EvTake p] st).
  assert (good used [sp_AckCallback p] [] (u_takeTime t) st0) as H0.
  { apply good_later with (now := now); [|done].
    eapply (ss_inv_change _ _ _ _ _ _ _ _ _ _ _ H); [done|done|apply H| |].
    - apply items_take. apply H.
    - apply cinv_events; [done|apply H]. }
  unfold turn_ids in *.
  assert (u_contractMessageId t ∉ used) as Hu1 by (apply Hni, elem_of_cons; by left).
  assert (u_messageId t ∉ u_contractMessageId t :: used) as Hu2.
  { intros [E1|Hu]%elem_of_cons.
    - apply NoDup_cons in Hnd as [Hnd _]. apply Hnd. rewrite <-E1. by apply list_elem_of_singleton.
    - revert Hu. apply Hni, elem_of_cons. right. by apply list_elem_of_singleton. }
  assert (∀ i, i ∈ u_contractMessageId t :: used → i ∈ [u_contractMessageId t; u_messageId t] ++ used) as Hs1.
  { intros i. rewrite elem_of_app, !elem_of_cons. tauto. }
  assert (∀ i, i ∈ u_messageId t :: u_contractMessageId t :: used →
    i ∈ [u_contractMessageId t; u_messageId t] ++ used) as Hs2.
  { intros i. rewrite elem_of_app, !elem_of_cons. tauto. }
  destruct (ss_updateContract_spec used [sp_AckCallback p] [] (u_takeTime t) (u_cm t) (u_attempts t)
    (u_writeTime t) (u_contractMessageId t) (sp_MessageByteCount p) st0 H0 Hch HnC Hu1)
    as (ok & st1 & Eu & H1 & Hn1 & _); [simpl; lia|lia|done|].
  assert (from_take (ss_events st1) (CbUser (sp_AckCallback p)) (Some (sp_Frame p))) as Hft.
  { exists p. split_and!; [|done..]. eapply extends_in.
    { eapply (ss_updateContract_extends _ _ _ _ _ st0); [apply extends_refl|exact Eu]. }
    simpl. apply elem_of_app. right. by apply list_elem_of_singleton. }
  rewrite Eu. cbn [obind].
  change (ss_nextSequenceNumber st0) with (ss_nextSequenceNumber st) in Hn1.
  destruct ok.
  - assert (MessageByteCount_frames (option_list (Some (sp_Frame p))) = sp_MessageByteCount p) as Ebc.
    { unfold MessageByteCount_frames. simpl. rewrite Eb in *. apply i64_small. unfold is_i64. lia. }
    destruct (send_spec (u_contractMessageId t :: used) [] [] (u_writeTime t) (u_writeTime t) (u_writeErr t)
      (u_messageId t) (Some (sp_Frame p)) (CbUser (sp_AckCallback p)) (sp_Ack p) false st1)
      as (st2 & -> & H2 & _ & Hn2); [by rewrite Ebc|lia|done|lia|done|].
    cbn [obind]. exists true, st2. split_and!; [done| |lia]. by eapply ss_inv_used.
  - eexists false, _. split; [done|]. split.
    + apply ss_inv_emit; [done|done|]. cbn [call_back].
      eapply (ss_inv_used (u_contractMessageId t :: used)); [done|].
      eapply (ss_inv_change _ _ _ _ _ _ _ _ _ _ _ H1); [done|done|apply H1| |].
      * apply items_call; [done|]. apply H1.
      * apply cinv_events; [done|apply H1].
    + simpl. lia.
Qed.

Lemma turn_spec used now t st :
  good used [] [] now st → (now ≤ u_ackTime t)%Z → turn_ok t →
  (∀ a id, a ∈ u_acks t → confirms a id → full id) →
  NoDup (turn_ids t) → (∀ i, i ∈ turn_ids t → i ∉ used) →
  (ss_nextSequenceNumber st < 2 ^ 64 - 2)%Z →
  ∃ go st', ss_turn_step settings clientId sequenceId key unmarshalStored t st = Val (go, st') ∧
    good (turn_ids t ++ used) [] [] (u_writeTime t) st' ∧
    (ss_nextSequenceNumber st' ≤ ss_nextSequenceNumber st + 2)%Z.
Proof.
  intros H Hnow Ht Hcf Hnd Hni Hlt. unfold ss_turn_step.
  pose proof (uk_times _ Ht) as Hc1. pose proof (chain_le _ _ _ (uk_chain _ Ht)) as Hc2.
  destruct (apply_acks_spec used [] [] now t st H Hnow Hcf) as (st1 & -> & H1 & E1). cbn [obind].
  destruct (ss_wait_spec used [] [] (u_sendTime t) st1) as (r & st2 & -> & Hrr); [eapply good_later; [done|lia]|].
  cbn [obind]. destruct Hrr as [H2 E2 _ _ _ _].
  assert (good (turn_ids t ++ used) [] [] (u_writeTime t) st2) as H3.
  { apply good_later with (now := u_sendTime t); [|lia]. eapply ss_inv_used; [|exact H2]. intros i Hi. apply elem_of_app. by right. }
  assert (∀ go : bool, ∃ (go' : bool) (st' : SendSequence), Val (go, st2) = Val (go', st') ∧
    good (turn_ids t ++ used) [] [] (u_writeTime t) st' ∧
    (ss_nextSequenceNumber st' ≤ ss_nextSequenceNumber st + 2)%Z) as Hsame.
  { intros go. exists go, st2. split_and!; [done|done|]. rewrite E2, E1. lia. }
  destruct r as [w|]; [|by apply Hsame]. destruct (u_input t) as [p| |idle|] eqn:Ein; [|by apply Hsame..].
  destruct (canSend settings (resendQueue st2)); [|by apply Hsame].
  destruct (take_pack_spec used (u_sendTime t) t p st2) as (go & st' & -> & H4 & Hn); try done; [lia|lia|].
  exists go, st'. split_and!; [done|done|lia].
Qed.

(** *** The end *)
(** What the trace of a run shows. *)
Record trace_ok (ev : list ss_event) : Prop := {
  tk_numbers : map si_sequenceNumber (queued ev) = seqZ 0 (Z.of_nat (length (queued ev)));
  tk_ids : NoDup (map si_messageId (queued ev));
  tk_fifo : ∃ done rest, map si_messageId (queued ev) = done ++ rest ∧
    done = filter (in_ids (queued ev)) (acked ev);
  tk_covered id : in_ids (queued ev) id → id ∈ acked ev →
    ∃ i, i ∈ queued ev ∧ si_messageId i = id ∧ covered full ev (si_sequenceNumber i);
  tk_writes i : i ∈ written ev → item_ok i ∧ head_ok ev i ∧ (is_nack i ∨ listed ev i);
  tk_source q : q ∈ queued ev → sourced ev q;
  tk_order : users (queued ev) `sublist_of` taken ev;
  tk_closes x : x ∈ closes ev → close_fits ev x
}.
(** And at the end of the sequence: every callback was called, every contract
    closed. *)
Definition trace_ended (ev : list ss_event) : Prop :=
  taken ev ≡ₚ called ev ∧ map (λ x, x.1.1) (closes ev) ≡ₚ map sc_contractId (uses ev).

Lemma good_trace used X E now st : good used X E now st → trace_ok (ss_events st).
Proof.
  intros H. destruct (sv_items _ _ _ _ _ _ H) as [I1 I2 (done & I3 & I3') I3c I4 I5 I6 I7 I8].
  split; try done.
  - by rewrite I1, I2.
  - exists (map fst done), (map si_messageId (sendItems st)).
    split; [|done]. by rewrite <-key_id, I3, map_app, key_id.
  - intros id Hin Hack. assert (id ∈ map fst done) as Hd by (rewrite I3'; by apply list_elem_of_filter).
    apply list_elem_of_fmap in Hd as ([id' n] & -> & Hd). apply list_elem_of_lookup in Hd as [k Hk].
    pose proof (lookup_lt_Some _ _ _ Hk) as Hlt.
    assert (map item_key (queued (ss_events st)) !! k = Some (id', n)) as Hq by (rewrite I3; by apply lookup_app_l_Some).
    rewrite list_lookup_fmap in Hq. destruct (queued (ss_events st) !! k) as [i|] eqn:Ei; [|done].
    injection Hq as E1 E2. exists i. split; [by apply list_elem_of_lookup_2 with k|]. split; [done|].
    assert (map si_sequenceNumber (queued (ss_events st)) !! k = Some n) as Hn
      by (rewrite list_lookup_fmap, Ei; simpl; congruence).
    rewrite I1 in Hn. apply lookup_seqZ in Hn as [Hn _].
    assert (length (map item_key (queued (ss_events st))) = length (done ++ map item_key (sendItems st)))
      as El by congruence. rewrite length_app, !length_map in El.
    destruct I3c as [I3c|I3c]; [lia|]. eapply covered_le; [exact I3c|lia].
  - apply I8.
  - apply I8.
  - etrans; [|apply I8]. by apply sublist_inserts_r.
  - exact (ci_closes _ _ _ _ _ _ (sv_contracts _ _ _ _ _ _ H)).
Qed.
Lemma trace_ok_app ev ev' :
  queued ev' = [] → written ev' = [] → acked ev' = [] → trace_ok ev →
  (∀ x, x ∈ closes ev' → close_fits ev x) → trace_ok (ev ++ ev').
Proof.
  intros E1 E2 E3 [T1 T2 T3 T3' T4 T5 T6 T7] Hc. split;
    rewrite ?queued_app, ?written_app, ?acked_app, ?E1, ?E2, ?E3, ?app_nil_r; try done.
  { intros id Hq Ha. destruct (T3' id Hq Ha) as (i & ? & ? & ?). exists i. split_and!; try done.
    by apply covered_app. }
  { intros i Hi. destruct (T4 i Hi) as (? & ? & Hor). split_and!; [done|by apply head_ok_app|].
    destruct Hor; [by left|right]. by apply listed_app. }
  { intros q Hq. apply sourced_app, T5, Hq. }
  { etrans; [exact T6|]. rewrite taken_app. by apply sublist_inserts_r. }
  intros x. rewrite closes_app. intros [Hx|Hx]%elem_of_app; apply close_fits_app; auto.
Qed.

Definition end_events (l : list sendItem) : list ss_event :=
  flat_map (λ i, [EvCallback (Some (si_messageId i)) (si_ackCallback i) (Some "Send sequence closed."%string);
                  EvReturn (si_transferFrameBytes i)]) l.
Lemma end_events_spec l :
  queued (end_events l) = [] ∧ written (end_events l) = [] ∧ acked (end_events l) = [] ∧
  taken (end_events l) = [] ∧ called (end_events l) = users l ∧ contract_quiet (end_events l).
Proof.
  induction l as [|x l (E1 & E2 & E3 & E4 & E5 & E6)]; [done|].
  change (end_events (x :: l)) with ([EvCallback (Some (si_messageId x)) (si_ackCallback x)
    (Some "Send sequence closed."%string); EvReturn (si_transferFrameBytes x)] ++ end_events l).
  unfold contract_quiet in *. destruct E6 as [E6 E7].
  rewrite queued_app, written_app, acked_app, taken_app, called_app, uses_app, closes_app.
  rewrite E1, E2, E3, E4, E5, E6, E7, users_cons. by split_and!.
Qed.
Lemma exit_fold l st :
  ss_events (foldl (λ st item,
      ss_emit [EvReturn (si_transferFrameBytes item)]
        (call_back (Some (si_messageId item)) (si_ackCallback item)
           (Some "Send sequence closed."%string) st)) st l) = ss_events st ++ end_events l.
Proof.
  revert st. induction l as [|x l IH]; intros st; [by rewrite app_nil_r|]. cbn [foldl]. rewrite IH.
  destruct (call_back_spec (Some (si_messageId x)) (si_ackCallback x) (Some "Send sequence closed."%string) st)
    as (_ & _ & E). cbn [ss_emit ss_events]. rewrite E, <-!(assoc_L (++)). done.
Qed.

Lemma exit_spec used now st :
  good used [] [] now st → trace_ok (ss_events (ss_exit key st)) ∧ trace_ended (ss_events (ss_exit key st)).
Proof.
  intros H. set (cl := map (λ p : Id * sequenceContract, close_contract p.2) (map_to_list (openSendContracts st))).
  assert (∃ ev', ss_events (ss_exit key st) =
    ((ss_events st ++ cl) ++ end_events (h_items (orderedItems (resendQueue st)))) ++ ev' ∧
    item_quiet ev' ∧ contract_quiet ev') as (ev' & -> & Hi' & Hc').
  { unfold ss_exit. set (st1 := foldl _ _ _).
    assert (ss_events st1 = (ss_events st ++ cl) ++ end_events (h_items (orderedItems (resendQueue st)))) as E1
      by apply exit_fold.
    clearbody st1. unfold closeContractMultiRouteWriter. cbn [contractMultiRouteWriter ss_emit].
    destruct (contractMultiRouteWriter st1); cbn [ss_events ss_emit ss_set_writer]; rewrite E1.
    - eexists. split; [by rewrite <-(assoc_L (++))|done].
    - by eexists. }
  set (l := h_items _). assert (users l ≡ₚ users (sendItems st)) as Hl.
  { unfold users, l. by rewrite (qh_items _ _ _ (sv_queue _ _ _ _ _ _ H)). }
  destruct (end_events_spec l) as (E1 & E2 & E3 & E4 & E5 & E6 & E7).
  pose proof (sv_contracts _ _ _ _ _ _ H) as Hc. pose proof (good_trace _ _ _ _ _ H) as Ht.
  assert (queued cl = [] ∧ written cl = [] ∧ acked cl = [] ∧ taken cl = [] ∧ called cl = [] ∧ uses cl = [] ∧
    closes cl = map (λ p : Id * sequenceContract, (sc_contractId p.2, ackedByteCount p.2, unackedByteCount p.2))
      (map_to_list (openSendContracts st))) as (C1 & C2 & C3 & C4 & C5 & C6 & C7).
  { unfold cl. clear. induction (map_to_list _) as [|[i c] l (I1 & I2 & I3 & I4 & I5 & I6 & I7)]; [done|].
    cbn [map]. split_and!; [exact I1|exact I2|exact I3|exact I4|exact I5|exact I6|]. by rewrite <-I7. }
  assert (∀ x, x ∈ closes cl → close_fits (ss_events st) x) as Hfit.
  { rewrite C7. intros x ([i c] & -> & Hx)%list_elem_of_fmap. apply elem_of_map_to_list in Hx.
    eapply ok_close_fits. exact (ci_ok _ _ _ _ _ _ Hc i c Hx). }
  destruct Hi' as (I1 & I2 & I3 & I4 & I5), Hc' as (I6 & I7).
  split.
  - repeat apply trace_ok_app; try done.
    + rewrite E7. by intros x ?%elem_of_nil.
    + rewrite I7. by intros x ?%elem_of_nil.
  - split.
    + rewrite !taken_app, !called_app, C4, C5, E4, E5, I4, I5, !app_nil_r, Hl.
      apply (ii_calls _ _ _ _ _ _ (sv_items _ _ _ _ _ _ H)).
    + rewrite !closes_app, !uses_app, C6, C7, E6, E7, I6, I7, !app_nil_r, <-(ci_uses _ _ _ _ _ _ Hc).
      rewrite map_app, map_map. f_equiv.
      assert (∀ l, Forall (λ p : Id * sequenceContract, sc_contractId p.2 = p.1) l →
        map (λ p : Id * sequenceContract, sc_contractId p.2) l = map fst l) as Hm.
      { induction 1 as [|p l' Hp _ IH]; [done|]. cbn [map]. by rewrite Hp, IH. }
      rewrite Hm; [done|]. apply Forall_forall. intros [i c] Hx%elem_of_map_to_list.
      apply (ci_ok _ _ _ _ _ _ Hc i c Hx).
Qed.

Fixpoint turns_ok (now : time) (turns : list ss_turn) : Prop :=
  match turns with
  | [] => True
  | t :: turns => (now ≤ u_ackTime t)%Z ∧ turn_ok t ∧ turns_ok (u_writeTime t) turns
  end.
Fixpoint end_of (now : time) (turns : list ss_turn) : time :=
  match turns with [] => now | t :: turns => end_of (u_writeTime t) turns end.
(** A run: the clock, the turns, fresh message ids, fewer than 2^63 turns. *)
Record run_ok (t0 : time) (turns : list ss_turn) : Prop := {
  ro_turns : turns_ok t0 turns;
  ro_ids : NoDup (flat_map turn_ids turns);
  ro_count : (2 * Z.of_nat (length turns) < 2 ^ 64)%Z
}.

Lemma end_of_le now turns : turns_ok now turns → (now ≤ end_of now turns)%Z.
Proof.
  revert now. induction turns as [|t turns IH]; intros now; [done|]. intros (H1 & H2 & H3%IH).
  simpl. pose proof (uk_times _ H2). pose proof (chain_le _ _ _ (uk_chain _ H2)). lia.
Qed.
Lemma ss_run_spec used now turns st :
  good used [] [] now st → turns_ok now turns → NoDup (flat_map turn_ids turns) →
  (∀ a id, a ∈ flat_map u_acks turns → confirms a id → full id) →
  (∀ i, i ∈ flat_map turn_ids turns → i ∉ used) →
  (ss_nextSequenceNumber st + 2 * Z.of_nat (length turns) < 2 ^ 64)%Z →
  ∃ go st', ss_run settings clientId sequenceId key unmarshalStored turns st = Val (go, st') ∧
    trace_ok (ss_events st') ∧
    if (go : bool) then ∃ used', good used' [] [] (end_of now turns) st' else trace_ended (ss_events st').
Proof.
  revert used now st. induction turns as [|t turns IH]; intros used now st H Ht Hnd Hcf Hni Hlt; cbn [ss_run].
  { exists true, st. split_and!; [done|by eapply good_trace|by exists used]. }
  destruct Ht as (Hnow & Htk & Hts). cbn [flat_map] in *.
  apply NoDup_app in Hnd as (Hnd1 & Hnd2 & Hnd3). cbn [length] in Hlt.
  destruct (turn_spec used now t st H Hnow Htk ltac:(intros a id Ha; apply Hcf, elem_of_app; by left) Hnd1) as (go & st1 & -> & H1 & Hn1);
    [intros i Hi; apply Hni, elem_of_app; by left|lia|]. cbn [obind]. destruct go.
  - apply (IH (turn_ids t ++ used)); try done; [intros a id Ha; apply Hcf, elem_of_app; by right| |lia].
    intros i Hi [Hi'|Hi']%elem_of_app; [by apply (Hnd2 i)|]. revert Hi'. apply Hni, elem_of_app. by right.
  - destruct (exit_spec _ _ _ H1). by eexists false, _.
Qed.

Lemma ss_run_snoc turns t st :
  ss_run settings clientId sequenceId key unmarshalStored (turns ++ [t]) st =
  let! (go, st1) := ss_run settings clientId sequenceId key unmarshalStored turns st in
  if (go : bool) then
    let! (go, st2) := ss_turn_step settings clientId sequenceId key unmarshalStored t st1 in
    Val (go, if (go : bool) then st2 else ss_exit key st2)
  else Val (false, st1).
Proof.
  revert st. induction turns as [|t' turns IH]; intros st; cbn [app ss_run obind].
  - destruct (ss_turn_step _ _ _ _ _ t st) as [[[] ?]| |]; done.
  - destruct (ss_turn_step _ _ _ _ _ t' st) as [[[] ?]| |]; try done. cbn [obind]. apply IH.
Qed.
Abbreviation send_run_at0 := (send_run settings clientId sequenceId key unmarshalStored).
Lemma new_good t0 : ∃ st0, NewSendSequence settings = Val st0 ∧ good [] [] [] t0 st0 ∧
  ss_nextSequenceNumber st0 = 0%Z.
Proof.
  unfold NewSendSequence.
  destruct (NewRttWindow_ok (RttWindowSize settings) (RttWindowTimeout settings) (RttScale settings)
    (MinResendInterval settings) (MaxResendInterval settings) t0 window_ok) as (w & -> & Hw & _ & _ & E1 & E2 & _).
  cbn [obind]. destruct (newTransferQueue_holds send_cmp) as (q & -> & Hq). cbn [obind].
  eexists. split; [done|]. split; [|done]. split; try done.
  - split; try done; [by exists []|by left|by intros i [?%elem_of_nil|?%elem_of_nil]|constructor|].
    split; try done; by intros i ?%elem_of_nil.
  - split; try done. by intros x ?%elem_of_nil.
Qed.
Lemma send_run_full t0 turns :
  run_ok t0 turns → (∀ a id, a ∈ flat_map u_acks turns → confirms a id → full id) →
  ∃ go st, send_run_at0 turns = Val (go, st) ∧ trace_ok (ss_events st) ∧
    if (go : bool) then ∃ used, good used [] [] (end_of t0 turns) st else trace_ended (ss_events st).
Proof.
  intros [Ht Hi Hc] Hf. unfold send_run. destruct (new_good t0) as (st0 & -> & H0 & E0). cbn [obind].
  apply (ss_run_spec [] t0); try done; [by intros i _ ?%elem_of_nil|lia].
Qed.
End Invariant.

(** ** What a send sequence promises *)
Section Promises.
Context `{codec : TransferCodec} `{!TransferCodecLaws codec}.
Variable settings : SendBufferSettings.
Variable clientId : Id.
Variable sequenceId : Id.
Variable key : ContractKey.
Variable unmarshalStored : list byte → outcome StoredContract.
Variable noC : bool.
Hypothesis min_ok : (0 < Send_MinMessageByteCount settings < 2 ^ 62)%Z.
Hypothesis resend_ok : (0 < MinResendInterval settings)%Z ∧ (0 < MaxResendInterval settings)%Z.
Hypothesis window_ok : RttWindowSize settings ≠ 0.
Hypothesis stored_small : ∀ b s, unmarshalStored b = Val s →
  (f32_to_i64 (f32_mul (f32_of_Z (TransferByteCount s)) (ContractFillFraction settings)) < 2 ^ 62)%Z.

Abbreviation run_ok := (run_ok settings key noC).
Abbreviation send_run_at := (send_run settings clientId sequenceId key unmarshalStored).

(** A full ack for the message, among those of the run. *)
Definition confirmed (turns : list ss_turn) (id : Id) : Prop :=
  ∃ a, a ∈ flat_map u_acks turns ∧ confirms sequenceId a id.

Lemma send_run_ok t0 turns :
  run_ok t0 turns →
  ∃ go st, send_run_at turns = Val (go, st) ∧ trace_ok (confirmed turns) (ss_events st) ∧
    if (go : bool) then ∃ used, good settings noC (confirmed turns) used [] [] (end_of t0 turns) st
    else trace_ended (ss_events st).
Proof. intros H. apply send_run_full; try done. intros a id Ha Hc. by exists a. Qed.

(** C4. A send sequence numbers and acks in order: for all acks (any ids, any
    order, repeated), contracts, and clocks and packs as below, the run gives a
    result, without a panic, and the messages it queues are numbered 0, 1, 2, ...
    in the order in which they are queued, under distinct ids; and those whose
    callback reported success are, in that order, the first of them. Assumed
    ([run_ok]): clocks that do not go back; fresh message ids; fewer than 2^63
    turns; packs with the size of their frame, below 2^62 bytes, which fit into a
    standard contract when the peer needs one; and that whether the peer needs a
    contract does not change. The last two are needed: a pack that does not fit
    makes the code panic (Example message_too_large_panics), and so does the ack
    of a message after the peer came to need no contract (Example
    no_contract_peer_panics); no other panic is left ("Missing item", "Bad
    accounting", a nil contract). *)
Theorem send_in_order (t0 : time) (turns : list ss_turn) :
  run_ok t0 turns →
  ∃ go st, send_run_at turns = Val (go, st) ∧
    map si_sequenceNumber (queued (ss_events st)) = seqZ 0 (Z.of_nat (length (queued (ss_events st)))) ∧
    NoDup (map si_messageId (queued (ss_events st))) ∧
    filter (in_ids (queued (ss_events st))) (acked (ss_events st)) `prefix_of`
      map si_messageId (queued (ss_events st)).
Proof.
  intros H. destruct (send_run_ok t0 turns H) as (go & st & Hr & [T1 T2 (d & rest & T3 & ->) _ _ _] & _).
  exists go, st. split_and!; [done..|]. by exists rest.
Qed.

(** C7. Success means acked: when the callback of a queued message reported
    success, the receiver sent a full ack for this sequence, of that message or
    of one queued after it. *)
Theorem send_success_acked (t0 : time) (turns : list ss_turn) :
  run_ok t0 turns →
  ∃ go st, send_run_at turns = Val (go, st) ∧
    ∀ id, in_ids (queued (ss_events st)) id → id ∈ acked (ss_events st) →
      ∃ i j, i ∈ queued (ss_events st) ∧ j ∈ queued (ss_events st) ∧ si_messageId i = id ∧
        (si_sequenceNumber i ≤ si_sequenceNumber j)%Z ∧ confirmed turns (si_messageId j).
Proof.
  intros H. destruct (send_run_ok t0 turns H) as (go & st & Hr & Ht & _). exists go, st.
  split; [done|]. intros id Hq Ha.
  destruct (tk_covered _ _ Ht id Hq Ha) as (i & Hi & Eid & j & Hj & Hf & Hn). by exists i, j.
Qed.

(** C8. Every pack gets its callback exactly once: while the sequence runs,
    the packs taken are those whose callback was called and those whose message
    waits for an ack; when it ends, the callback of every pack taken was called
    (with success, or with the error of the end), and none twice. *)
Theorem send_callbacks_once (t0 : time) (turns : list ss_turn) :
  run_ok t0 turns →
  ∃ go st, send_run_at turns = Val (go, st) ∧
    taken (ss_events st) ≡ₚ called (ss_events st) ++ (if (go : bool) then users (sendItems st) else []).
Proof.
  intros H. destruct (send_run_ok t0 turns H) as (go & st & Hr & _ & Hend). exists go, st.
  split; [done|]. destruct go.
  - destruct Hend as [used Hg]. exact (ii_calls _ _ _ _ _ _ (sv_items _ _ _ _ _ _ _ _ _ Hg)).
  - rewrite app_nil_r. apply Hend.
Qed.

(** C9. Contracts are neither overspent nor lost: every contract is closed at
    most once, with counts of acked and unacked bytes that are not negative and
    together within its effective byte count; while the sequence runs the
    contracts it used are those closed and those open, and when it ends all of
    them are closed. *)
Theorem send_contracts_closed (t0 : time) (turns : list ss_turn) :
  run_ok t0 turns →
  ∃ go st, send_run_at turns = Val (go, st) ∧
    (∀ x, x ∈ closes (ss_events st) → close_fits (ss_events st) x) ∧
    map (λ x, x.1.1) (closes (ss_events st)) ++
      (if (go : bool) then map fst (map_to_list (openSendContracts st)) else [])
    ≡ₚ map sc_contractId (uses (ss_events st)).
Proof.
  intros H. destruct (send_run_ok t0 turns H) as (go & st & Hr & Ht & Hend). exists go, st.
  split_and!; [done|apply Ht|]. destruct go.
  - destruct Hend as [used Hg]. exact (ci_uses _ _ _ _ _ _ (sv_contracts _ _ _ _ _ _ _ _ _ Hg)).
  - rewrite app_nil_r. apply Hend.
Qed.

(** What is on the wire: every frame written holds the pack of its item,
    with its id and number. It is marked as head exactly when the item is, and
    then it carries the contract of the item if it has one, and all the messages
    before it are acked. A frame that is not a nack carries the id, the number
    and the frames of one of the queued messages; and the queued messages carry
    the frames of the packs taken, in the order in which they were taken (with
    the messages of contracts, that carry no frame, between them). *)
Theorem send_frames (t0 : time) (turns : list ss_turn) :
  run_ok t0 turns →
  ∃ go st, send_run_at turns = Val (go, st) ∧
    (∀ i, i ∈ written (ss_events st) → item_ok i ∧ head_ok (ss_events st) i ∧
      (is_nack i ∨ listed (ss_events st) i)) ∧
    (∀ q, q ∈ queued (ss_events st) → sourced (ss_events st) q) ∧
    users (queued (ss_events st)) `sublist_of` taken (ss_events st).
Proof.
  intros H. destruct (send_run_ok t0 turns H) as (go & st & Hr & Ht & _). exists go, st.
  split; [done|]. split_and!; apply Ht.
Qed.

(** C11. Nothing that is due waits: after any run that goes on, the next pass
    over the resend queue terminates; it ends the sequence only when a message
    has waited for its ack longer than [AckTimeout]; otherwise every message that
    was due has been written again, the oldest one marked as head, and no
    message that is left is due. *)
Theorem send_resends_due (t0 : time) (turns : list ss_turn) (sendTime : time) :
  run_ok t0 turns → (end_of t0 turns ≤ sendTime)%Z →
  ∃ go st, send_run_at turns = Val (go, st) ∧
    (go = true → ∃ r st' ev, ss_wait settings key sendTime st = Val (r, st') ∧
      ss_events st' = ss_events st ++ ev ∧
      match r with
      | None => ∃ i, i ∈ sendItems st ∧ (time_Sub (si_sendTime i + AckTimeout settings) sendTime ≤ 0)%Z
      | Some _ => Forall (resent (sendItems st) ev) (due sendTime (sendItems st)) ∧
                  due sendTime (sendItems st') = []
      end).
Proof.
  intros H Ht. destruct (send_run_ok t0 turns H) as (go & st & Hr & _ & Hend). exists go, st.
  split; [done|]. intros ->. destruct Hend as [used Hg].
  destruct (ss_wait_spec settings sequenceId key noC resend_ok window_ok (confirmed turns) used [] [] sendTime st) as (r & st' & E & [_ _ _ (ev & Eev & Hev) Hd Hn]).
  { by eapply good_later. }
  exists r, st', ev. split_and!; [done|done|]. destruct r; [|by apply Hn]. split; [by apply Hev|by apply Hd].
Qed.
End Promises.

(** ** Concrete runs *)
Module SendExample.
Import ContractExample WireExample ManagerExample.

Definition half : spec_float := S754_finite false 1 (-1).
Definition ex_ssettings : SendBufferSettings :=
  mkSendSettings (30 * second) second (5 * second) (f32_of_Z 1) 128 (5 * second) (30 * second)
    (60 * second) (30 * second) 1 1000 half 2.
(** A manager that has one contract for the destination. *)
Definition ex_send_cm : ContractManager :=
  match addContract ex_unmarshal ex_key ex_contract0 ex_m0 with Val m => m | _ => ex_m0 end.
Definition ex_sequence : Id := ex_id 77.
Definition ex_send_pack (h : positive) (ack : bool) : SendPack :=
  mkSendPack (mkFrame 14 [Byte.x01; Byte.x02] false) h ack 2.
Definition ex_full_ack (n : Z) : ProtoAck :=
  mkProtoAck (Id_Bytes (ex_id n)) (Id_Bytes ex_sequence) false None.
Definition ex_send_turn (t : time) (n : Z) (cm : ContractManager) (acks : list ProtoAck) (input : ss_input)
    : ss_turn :=
  mkSendTurn acks t t t t cm [mkAttempt t t cm 0] (ex_id (2 * n)) (ex_id (2 * n + 1)) None id input.
(** The first pack brings the contract; it is acked, then the second goes out. *)
Definition ex_send_turns : list ss_turn :=
  [ex_send_turn second 100 ex_send_cm [] (SendPackInput (ex_send_pack 1 true));
   ex_send_turn (2 * second) 101 ex_send_cm [ex_full_ack 201] (SendPackInput (ex_send_pack 2 true));
   ex_send_turn (3 * second) 102 ex_send_cm [] (SendTimeout false)]%Z.

Lemma ex_send_small b s : ex_unmarshal b = Val s →
  (f32_to_i64 (f32_mul (f32_of_Z (TransferByteCount s)) half) < 2 ^ 62)%Z.
Proof. unfold ex_unmarshal. case_bool_decide; [|done]. intros [= <-]. vm_compute. reflexivity. Qed.
Lemma ex_turn_ok t n acks input :
  (0 < t)%Z → (∀ p, input = SendPackInput p → ∃ h ack, p = ex_send_pack h ack) →
  turn_ok ex_ssettings ex_key false (ex_send_turn t n ex_send_cm acks input).
Proof.
  intros Ht Hp. split; simpl; try lia.
  - unfold noSendContract. simpl. unfold SendNoContract.
    assert (sendNoContractClientIds ex_send_cm !! ex_id 9 = None) as -> by (vm_compute; reflexivity).
    unfold ContractsEnabled. assert (NetworkEventTimeEnableContracts (ContractManager.settings ex_send_cm) = 0%Z)
      as -> by (vm_compute; reflexivity). case_bool; [done|lia].
  - intros p (h & ack & ->)%Hp. split; [done|]. split; [done|]. intros _. vm_compute. discriminate.
Qed.
Lemma ex_send_ok : run_ok ex_ssettings ex_key false 0 ex_send_turns.
Proof.
  split; [|apply (bool_decide_unpack _); vm_compute; exact I|vm_compute; reflexivity].
  do 3 (split; [simpl; unfold second; lia|]; split;
    [apply ex_turn_ok; [unfold second; lia|intros p [= <-]; eexists _, _; reflexivity]|]).
  exact I.
Qed.
Abbreviation ex_send_run := (send_run (codec := ex_codec) ex_ssettings (ex_id 1) ex_sequence ex_key ex_unmarshal).
Ltac send_hypotheses :=
  first [exact ex_send_small | exact ex_send_ok | split; vm_compute; (reflexivity || discriminate) | done].

Example ex_send_value :
  (let! (go, st) := ex_send_run ex_send_turns in
   Val (go, map si_sequenceNumber (queued (ss_events st)), map (λ i, (si_sequenceNumber i, si_head i)) (sendItems st),
        called (ss_events st),
        map (λ p, (ackedByteCount p.2, unackedByteCount p.2)) (map_to_list (openSendContracts st)))) =
  Val (true, [0; 1; 2]%Z, [(2%Z, true)], [1%positive], [(3, 2)%Z]).
Proof. vm_compute. reflexivity. Qed.

Lemma send_in_order_witness :
  ∃ go st, ex_send_run ex_send_turns = Val (go, st) ∧
    map si_sequenceNumber (queued (ss_events st)) = seqZ 0 (Z.of_nat (length (queued (ss_events st)))) ∧
    NoDup (map si_messageId (queued (ss_events st))) ∧
    filter (in_ids (queued (ss_events st))) (acked (ss_events st)) `prefix_of`
      map si_messageId (queued (ss_events st)).
Proof.
  apply (send_in_order ex_ssettings (ex_id 1) ex_sequence ex_key ex_unmarshal false) with (t0 := 0%Z);
    send_hypotheses.
Defined.
Lemma send_success_acked_witness :
  ∃ go st, ex_send_run ex_send_turns = Val (go, st) ∧
    ∀ id, in_ids (queued (ss_events st)) id → id ∈ acked (ss_events st) →
      ∃ i j, i ∈ queued (ss_events st) ∧ j ∈ queued (ss_events st) ∧ si_messageId i = id ∧
        (si_sequenceNumber i ≤ si_sequenceNumber j)%Z ∧ confirmed ex_sequence ex_send_turns (si_messageId j).
Proof.
  apply (send_success_acked ex_ssettings (ex_id 1) ex_sequence ex_key ex_unmarshal false) with (t0 := 0%Z);
    send_hypotheses.
Defined.
Lemma send_callbacks_once_witness :
  ∃ go st, ex_send_run ex_send_turns = Val (go, st) ∧
    taken (ss_events st) ≡ₚ called (ss_events st) ++ (if (go : bool) then users (sendItems st) else []).
Proof.
  apply (send_callbacks_once ex_ssettings (ex_id 1) ex_sequence ex_key ex_unmarshal false) with (t0 := 0%Z);
    send_hypotheses.
Defined.
Lemma send_contracts_closed_witness :
  ∃ go st, ex_send_run ex_send_turns = Val (go, st) ∧
    (∀ x, x ∈ closes (ss_events st) → close_fits (ss_events st) x) ∧
    map (λ x, x.1.1) (closes (ss_events st)) ++
      (if (go : bool) then map fst (map_to_list (openSendContracts st)) else [])
    ≡ₚ map sc_contractId (uses (ss_events st)).
Proof.
  apply (send_contracts_closed ex_ssettings (ex_id 1) ex_sequence ex_key ex_unmarshal false) with (t0 := 0%Z);
    send_hypotheses.
Defined.
Lemma send_frames_witness :
  ∃ go st, ex_send_run ex_send_turns = Val (go, st) ∧
    (∀ i, i ∈ written (ss_events st) → item_ok (codec := ex_codec) i ∧ head_ok (ss_events st) i ∧
      (is_nack (codec := ex_codec) i ∨ listed (codec := ex_codec) (ss_events st) i)) ∧
    (∀ q, q ∈ queued (ss_events st) → sourced (codec := ex_codec) (ss_events st) q) ∧
    users (queued (ss_events st)) `sublist_of` taken (ss_events st).
Proof.
  apply (send_frames ex_ssettings (ex_id 1) ex_sequence ex_key ex_unmarshal false) with (t0 := 0%Z);
    send_hypotheses.
Defined.
Lemma send_resends_due_witness :
  ∃ go st, ex_send_run ex_send_turns = Val (go, st) ∧
    (go = true → ∃ r st' ev, ss_wait (codec := ex_codec) ex_ssettings ex_key (5 * second) st = Val (r, st') ∧
      ss_events st' = ss_events st ++ ev ∧
      match r with
      | None => ∃ i, i ∈ sendItems st ∧ (time_Sub (si_sendTime i + 30 * second) (5 * second) ≤ 0)%Z
      | Some _ => Forall (resent (sendItems st) ev) (due (5 * second) (sendItems st)) ∧
                  due (5 * second) (sendItems st') = []
      end).
Proof.
  apply (send_resends_due ex_ssettings (ex_id 1) ex_sequence ex_key ex_unmarshal false) with (t0 := 0%Z);
    send_hypotheses.
Defined.

(** A peer that comes to need no contract while a contract is current: the next
    message is not debited but keeps the contract's id, and its ack takes from
    the contract what was never put there. *)
Definition ex_peer_turns : list ss_turn :=
  [ex_send_turn second 100 ex_send_cm [] (SendPackInput (ex_send_pack 1 true));
   ex_send_turn (2 * second) 101 (AddNoContractPeer (ex_id 9) ex_send_cm) [ex_full_ack 201]
     (SendPackInput (ex_send_pack 2 true));
   ex_send_turn (3 * second) 102 (AddNoContractPeer (ex_id 9) ex_send_cm) [ex_full_ack 203] SendNotify]%Z.
Example no_contract_peer_panics : is_panic (ex_send_run ex_peer_turns) = true ∧
  ex_send_run ex_peer_turns = Panic "Bad accounting".
Proof. split; vm_compute; reflexivity. Qed.

(** A message that does not fit into a standard contract. *)
Definition ex_small_cm : ContractManager := NewContractManager (ex_id 1) (mkSettings 1 1 4 0 true false).
Example message_too_large_panics :
  ex_send_run [ex_send_turn second 100 ex_small_cm [] (SendPackInput (ex_send_pack 1 true))] =
  Panic "Message too large for contract. It can never be sent.".
Proof. vm_compute. reflexivity. Qed.

(** When the write of an unacked message fails, its debit stays: the contract is
    not closed before the sequence ends, although nothing of it is pending. *)
Definition ex_nack_turns : list ss_turn :=
  [ex_send_turn second 100 ex_send_cm [] (SendPackInput (ex_send_pack 1 true));
   mkSendTurn [ex_full_ack 201] (2 * second) (2 * second) (2 * second) (2 * second) ex_send_cm [] (ex_id 202)
     (ex_id 203) (Some "Timeout"%string) id (SendPackInput (ex_send_pack 2 false))]%Z.
Example failed_nack_keeps_debit :
  (let! (go, st) := ex_send_run ex_nack_turns in
   Val (go, length (sendItems st), called (ss_events st),
        map (λ p, (ackedByteCount p.2, unackedByteCount p.2)) (map_to_list (openSendContracts st)))) =
  Val (true, 0, [1; 2]%positive, [(3, 2)%Z]).
Proof. vm_compute. reflexivity. Qed.
End SendExample.
