(* ===== verification/Buffers.v ===== *)
(** * The tables of sequences: SendBuffer, ReceiveBuffer, ForwardBuffer

    A buffer holds the open sequences by key, starts one when a pack finds none,
    and forgets it when its goroutine ends. Pointers to sequences are instance
    numbers, drawn in order; the flags of an instance say how far its goroutine
    is: cancelled, returned from [Run], cleaned up. The mutex of the buffer makes
    each operation a step. *)

From stdpp Require Import gmap.
From S2P Require Import Prelude Ids Contracts ContractManager PackChannel.
Open Scope go_scope.

(** ** A table *)
Section Table.
Context {K : Type} `{Countable K}.

Record instance := mkInstance {
  in_key : K;
  in_cancelled : bool;
  in_exited : bool;
  in_cleaned : bool
}.
Record Table := mkTable {
  tb_sequences : gmap K positive;
  tb_instances : gmap positive instance;
  tb_next : positive
}.
Definition NewTable : Table := mkTable ∅ ∅ 1.

Definition tb_update (f : instance → instance) (i : positive) (t : Table) : Table :=
  mkTable (tb_sequences t) (alter f i (tb_instances t)) (tb_next t).
(** [Cancel], the end of [Run], and [Close] with the clean up of the table. *)
Definition in_cancel (x : instance) : instance := mkInstance (in_key x) true (in_exited x) (in_cleaned x).
Definition tb_cancel : positive → Table → Table := tb_update in_cancel.
Definition tb_exit : positive → Table → Table :=
  tb_update (λ x, mkInstance (in_key x) true true (in_cleaned x)).
Definition tb_cleanup (i : positive) (t : Table) : Table :=
  match tb_instances t !! i with
  | Some x =>
      let t := tb_update (λ x, mkInstance (in_key x) true (in_exited x) true) i t in
      if bool_decide (tb_sequences t !! in_key x = Some i)
      then mkTable (delete (in_key x) (tb_sequences t)) (tb_instances t) (tb_next t) else t
  | None => t
  end.
(** [New...Sequence], the entry of the table and the goroutine. *)
Definition tb_create (key : K) (t : Table) : positive * Table :=
  (tb_next t,
   mkTable (<[key := tb_next t]> (tb_sequences t))
     (<[tb_next t := mkInstance key false false false]> (tb_instances t)) (tb_next t + 1)).
(** [initSendSequence], [initForwardSequence] *)
Definition tb_init (key : K) (skip : option positive) (t : Table) : positive * Table :=
  match tb_sequences t !! key with
  | Some i => if bool_decide (skip = None ∨ skip ≠ Some i) then (i, t) else tb_create key (tb_cancel i t)
  | None => tb_create key t
  end.
(** [Close], [Cancel] and [Flush] of the buffers. *)
Definition tb_cancelAll (t : Table) : Table :=
  mkTable (tb_sequences t)
    (map_imap (λ i x, Some (if bool_decide (tb_sequences t !! in_key x = Some i) then in_cancel x else x))
       (tb_instances t)) (tb_next t).
Definition tb_remove (key : K) (t : Table) : Table :=
  mkTable (delete key (tb_sequences t)) (tb_instances t) (tb_next t).

(** The instances that a caller can still send to are those of the table. *)
Record tb_inv (t : Table) : Prop := {
  ti_next i : is_Some (tb_instances t !! i) → (i < tb_next t)%positive;
  ti_entry k i : tb_sequences t !! k = Some i → ∃ x, tb_instances t !! i = Some x ∧ in_key x = k ∧ in_cleaned x = false;
  ti_open i x : tb_instances t !! i = Some x → in_cancelled x = false → tb_sequences t !! in_key x = Some i;
  ti_exit i x : tb_instances t !! i = Some x → in_exited x = true ∨ in_cleaned x = true → in_cancelled x = true
}.
Lemma new_table_inv : tb_inv NewTable.
Proof. by split; simpl; intros *; rewrite ?lookup_empty; first [done | intros [? ?]]. Qed.

(** Updates that only set flags. *)
Lemma tb_update_inv f i t :
  (∀ x, in_key (f x) = in_key x) → (∀ x, in_cancelled (f x) = true) →
  (∀ x, in_cleaned x = false → tb_sequences t !! in_key x = Some i → in_cleaned (f x) = false) →
  tb_inv t → tb_inv (tb_update f i t).
Proof.
  intros Hk Hc Hcl [H1 H2 H3 H4]. unfold tb_update. split; simpl.
  - intros j Hj. apply H1. revert Hj. rewrite lookup_alter. case_decide; [|done]. subst.
    by destruct (tb_instances t !! j).
  - intros k j Hj. destruct (H2 k j Hj) as (x & Hx & Ex & Hf). rewrite lookup_alter. case_decide.
    + subst. rewrite Hx. exists (f x). split_and!; [done|by apply Hk|]. by apply Hcl.
    + by exists x.
  - intros j x. rewrite lookup_alter. case_decide; [|by apply H3]. subst.
    destruct (tb_instances t !! j) as [y|]; [|done]. intros [= <-]. by rewrite Hc.
  - intros j x. rewrite lookup_alter. case_decide; [|by apply H4]. subst.
    destruct (tb_instances t !! j) as [y|]; [|done]. intros [= <-] _. by apply Hc.
Qed.
Lemma tb_cancel_inv i t : tb_inv t → tb_inv (tb_cancel i t).
Proof. by apply tb_update_inv. Qed.
Lemma tb_exit_inv i t : tb_inv t → tb_inv (tb_exit i t).
Proof. by apply tb_update_inv. Qed.
Lemma tb_remove_inv k t : (∀ i x, tb_sequences t !! k = Some i → tb_instances t !! i = Some x → in_cancelled x = true) →
  tb_inv t → tb_inv (tb_remove k t).
Proof.
  intros Hk [H1 H2 H3 H4]. split; simpl; [done| | |done].
  - intros k' i [_ Hi]%lookup_delete_Some. by apply H2.
  - intros i x Hx Hc. apply lookup_delete_Some. pose proof (H3 i x Hx Hc) as Hs. split; [|done].
    intros E. rewrite <-E in Hs. specialize (Hk i x Hs Hx). congruence.
Qed.
Lemma tb_create_inv key t :
  tb_inv t → (∀ i x, tb_sequences t !! key = Some i → tb_instances t !! i = Some x → in_cancelled x = true) →
  tb_inv (tb_create key t).2.
Proof.
  intros [H1 H2 H3 H4] Hk. simpl.
  assert (∀ i, is_Some (tb_instances t !! i) → i ≠ tb_next t) as Hne by (intros i ?%H1; lia).
  split; simpl.
  - intros i. rewrite lookup_insert_is_Some. intros [<-|[_ ?%H1]]; lia.
  - intros k i [[<- <-]|[Hkk Hi]]%lookup_insert_Some.
    + rewrite lookup_insert_eq. by eexists.
    + destruct (H2 k i Hi) as (x & Hx & ?). exists x. split; [|done]. rewrite lookup_insert_ne; [done|].
      apply not_eq_sym, (Hne i). by eexists.
  - intros i x [[<- <-]|[Hi Hx]]%lookup_insert_Some Hc; [by rewrite lookup_insert_eq|].
    pose proof (H3 i x Hx Hc) as Hs. rewrite lookup_insert_ne; [done|]. intros E.
    rewrite <-E in Hs. specialize (Hk i x Hs Hx). congruence.
  - intros i x [[<- <-]|[Hi Hx]]%lookup_insert_Some; [by intros [?|?]|]. by apply (H4 i).
Qed.
Lemma tb_cancelled i t x : tb_instances (tb_cancel i t) !! i = Some x → in_cancelled x = true.
Proof.
  simpl. rewrite lookup_alter_eq. destruct (tb_instances t !! i); [|done]. by intros [= <-].
Qed.
Lemma tb_init_inv key skip t : tb_inv t → tb_inv (tb_init key skip t).2.
Proof.
  intros Hi. unfold tb_init. destruct (tb_sequences t !! key) as [i|] eqn:E.
  - case_bool_decide; [done|]. apply tb_create_inv; [by apply tb_cancel_inv|].
    intros j x Hj Hx. simpl in Hj. assert (j = i) as -> by congruence. by eapply tb_cancelled.
  - apply tb_create_inv; [done|]. intros. congruence.
Qed.
Lemma tb_cleanup_inv i t : tb_inv t → tb_inv (tb_cleanup i t).
Proof.
  intros Hi. unfold tb_cleanup. destruct (tb_instances t !! i) as [x|] eqn:Ex; [|done].
  set (t1 := tb_update _ i t).
  case_bool_decide as Es.
  - pose proof Hi as [H1 H2 H3 H4]. split; simpl.
    + intros j Hj. apply H1. revert Hj. rewrite lookup_alter. case_decide; [|done]. subst.
      by destruct (tb_instances t !! j).
    + intros k j [Hk Hj]%lookup_delete_Some. destruct (H2 k j Hj) as (y & Hy & Ek & ?).
      rewrite lookup_alter_ne; [by exists y|]. intros <-. congruence.
    + intros j y Hy Hc. rewrite lookup_alter in Hy. case_decide; subst.
      { rewrite Ex in Hy. injection Hy as <-. done. }
      apply lookup_delete_Some. pose proof (H3 j y Hy Hc) as Hs. split; [|done]. intros E. simpl in Es.
      rewrite E in Es. congruence.
    + intros j y. rewrite lookup_alter. case_decide; [|by apply H4]. subst. rewrite Ex. by intros [= <-].
  - apply tb_update_inv; try done. intros y _ Hy. exfalso. apply Es. subst t1. simpl.
    destruct (ti_entry _ Hi _ _ Hy) as (y' & Hy' & Ek & _). congruence.
Qed.
Lemma tb_cancelAll_inv t : tb_inv t → tb_inv (tb_cancelAll t).
Proof.
  intros [H1 H2 H3 H4]. unfold tb_cancelAll. split; simpl.
  - intros i. rewrite map_lookup_imap. destruct (tb_instances t !! i) eqn:E; simpl; [|by intros [? ?]].
    intros _. apply H1. by rewrite E.
  - intros k i Hi. destruct (H2 k i Hi) as (x & Hx & Ek & Hc). rewrite map_lookup_imap, Hx. simpl.
    eexists. split; [done|]. by case_bool_decide.
  - intros i x. rewrite map_lookup_imap. destruct (tb_instances t !! i) as [y|] eqn:E; [|done]. simpl.
    intros [= <-]. case_bool_decide as Ed; [done|]. intros Hc. by destruct Ed; apply H3.
  - intros i x. rewrite map_lookup_imap. destruct (tb_instances t !! i) as [y|] eqn:E; [|done]. simpl.
    intros [= <-]. case_bool_decide; [done|]. by apply (H4 i).
Qed.
(** After [Close] every instance is cancelled. *)
Lemma tb_cancelAll_all t i x : tb_inv t → tb_instances (tb_cancelAll t) !! i = Some x → in_cancelled x = true.
Proof.
  intros Hi. simpl. rewrite map_lookup_imap. destruct (tb_instances t !! i) as [y|] eqn:E; [|done]. simpl.
  intros [= <-]. case_bool_decide as Ed; [done|]. destruct (in_cancelled y) eqn:Ec; [done|].
  by destruct Ed; apply (ti_open _ Hi).
Qed.
Lemma tb_one_open t i j x y :
  tb_inv t → tb_instances t !! i = Some x → tb_instances t !! j = Some y → in_cancelled x = false →
  in_cancelled y = false → in_key x = in_key y → i = j.
Proof.
  intros Hi Hx Hy Hcx Hcy E. pose proof (ti_open _ Hi i x Hx Hcx) as H1.
  pose proof (ti_open _ Hi j y Hy Hcy) as H2. congruence.
Qed.
Lemma tb_all_cleaned t :
  tb_inv t → (∀ i x, tb_instances t !! i = Some x → in_cleaned x = true) → tb_sequences t = ∅.
Proof.
  intros Hi Hc. apply map_empty. intros k. destruct (tb_sequences t !! k) as [i|] eqn:E; [|done].
  destruct (ti_entry _ Hi k i E) as (x & Hx & _ & Hf). specialize (Hc i x Hx). congruence.
Qed.
Lemma tb_init_skip key i t : tb_inv t → is_Some (tb_instances t !! i) → (tb_init key (Some i) t).1 ≠ i.
Proof.
  intros Hi Hs. pose proof (ti_next _ Hi i Hs). unfold tb_init.
  destruct (tb_sequences t !! key) as [j|]; [case_bool_decide as E|]; simpl; [|lia..].
  destruct E as [?|E]; [done|]. congruence.
Qed.

(** Instances are never forgotten, and only the clean up marks them so. *)
Definition tb_keeps (t t' : Table) : Prop :=
  ∀ i x, tb_instances t !! i = Some x → ∃ x', tb_instances t' !! i = Some x' ∧ in_key x' = in_key x ∧
    in_cleaned x' = in_cleaned x ∧ (in_exited x = true → in_exited x' = true) ∧
    (in_cancelled x = true → in_cancelled x' = true).
Lemma tb_keeps_refl t : tb_keeps t t.
Proof. intros i x Hx. by exists x. Qed.
Lemma tb_keeps_trans t1 t2 t3 : tb_keeps t1 t2 → tb_keeps t2 t3 → tb_keeps t1 t3.
Proof.
  intros H1 H2 i x Hx. destruct (H1 i x Hx) as (y & Hy & ? & ? & ? & ?).
  destruct (H2 i y Hy) as (z & Hz & ? & ? & ? & ?). exists z. split_and!; [done|congruence|congruence|auto..].
Qed.
Lemma tb_update_keeps f i t :
  (∀ x, in_key (f x) = in_key x ∧ in_cleaned (f x) = in_cleaned x ∧ (in_exited x = true → in_exited (f x) = true) ∧
        (in_cancelled x = true → in_cancelled (f x) = true)) → tb_keeps t (tb_update f i t).
Proof.
  intros Hf j x Hx. simpl. rewrite lookup_alter. case_decide; [subst; rewrite Hx|by exists x].
  exists (f x). split; [done|]. apply Hf.
Qed.
Lemma tb_create_keeps key t : tb_inv t → tb_keeps t (tb_create key t).2.
Proof.
  intros Hi i x Hx. simpl. exists x. split; [|done]. rewrite lookup_insert_ne; [done|].
  pose proof (ti_next _ Hi i ltac:(by eexists)). lia.
Qed.
Lemma tb_init_keeps key skip t : tb_inv t → tb_keeps t (tb_init key skip t).2.
Proof.
  intros Hi. unfold tb_init. destruct (tb_sequences t !! key) as [i|]; [|by apply tb_create_keeps].
  case_bool_decide; [apply tb_keeps_refl|]. eapply tb_keeps_trans; [|by apply tb_create_keeps, tb_cancel_inv].
  by apply tb_update_keeps.
Qed.
Lemma tb_cancelAll_keeps t : tb_keeps t (tb_cancelAll t).
Proof.
  intros i x Hx. simpl. rewrite map_lookup_imap, Hx. simpl. eexists. split; [done|]. by case_bool_decide.
Qed.
Lemma tb_cleanup_instances i t : tb_instances (tb_cleanup i t) =
  alter (λ x, mkInstance (in_key x) true (in_exited x) true) i (tb_instances t).
Proof.
  unfold tb_cleanup. destruct (tb_instances t !! i) eqn:E; [by case_bool_decide|].
  apply map_eq. intros j. rewrite lookup_alter. case_decide; [subst; by rewrite E|done].
Qed.

(** [Pack] of the send and forward buffers: two tries, the second with another
    sequence. What happens around them is given: whether the context is done,
    what others do to the table before, and what [Pack] of a sequence returns. *)
Record attempt_env := mkAttemptEnv {
  ae_done : bool;
  ae_before : Table → Table;
  ae_pack : positive → bool * option string
}.
Fixpoint pack_tries (key : K) (skip : option positive) (last : bool * option string) (envs : list attempt_env)
    (t : Table) : (bool * option string) * Table :=
  match envs with
  | [] => (last, t)
  | e :: envs =>
      let t := ae_before e t in
      if ae_done e then ((false, Some "Done."%string), t) else
      let (i, t) := tb_init key skip t in
      match ae_pack e i with
      | (success, None) => ((success, None), t)
      | r => pack_tries key (Some i) r envs t
      end
  end.
Definition buffer_Pack (key : K) (first second : attempt_env) (t : Table) : (bool * option string) * Table :=
  pack_tries key None (false, None) [first; second] t.
End Table.
Arguments instance : clear implicits.
Arguments Table K {_ _}.

(** ** SendBuffer *)
Record SendBuffer := mkSendBuffer {
  sb_table : Table ContractKey;
  sendSequencesByDestination : gmap TransferPath (gset positive);
  sendSequenceDestinations : gmap positive (gset TransferPath)
}.
Definition NewSendBuffer : SendBuffer := mkSendBuffer NewTable ∅ ∅.
Definition sb_set_table (t : Table ContractKey) (b : SendBuffer) : SendBuffer :=
  mkSendBuffer t (sendSequencesByDestination b) (sendSequenceDestinations b).

Definition AssociateDestination (i : positive) (destination : TransferPath) (b : SendBuffer) : SendBuffer :=
  let sequences := default ∅ (sendSequencesByDestination b !! destination) in
  let destinations := default ∅ (sendSequenceDestinations b !! i) in
  mkSendBuffer (sb_table b)
    (<[destination := sequences ∪ {[i]}]> (sendSequencesByDestination b))
    (<[i := destinations ∪ {[destination]}]> (sendSequenceDestinations b)).
(** The inner loop of the clean up, for one destination. *)
Definition forget_at (i : positive) (destination : TransferPath) (m : gmap TransferPath (gset positive))
    : gmap TransferPath (gset positive) :=
  match m !! destination with
  | Some sequences =>
      let sequences := sequences ∖ {[i]} in
      if bool_decide (sequences = ∅) then delete destination m else <[destination := sequences]> m
  | None => m
  end.
Definition sb_cleanup (i : positive) (b : SendBuffer) : SendBuffer :=
  let t := tb_cleanup i (sb_table b) in
  match sendSequenceDestinations b !! i with
  | Some destinations =>
      mkSendBuffer t (foldr (forget_at i) (sendSequencesByDestination b) (elements destinations))
        (delete i (sendSequenceDestinations b))
  | None => sb_set_table t b
  end.
(** [Ack]: the sequence that is offered the ack, the first in the order in which
    the map is iterated. *)
Definition SendBuffer_Ack (order : list positive → list positive) (destination : TransferPath) (b : SendBuffer)
    : option positive :=
  head (order (elements (default ∅ (sendSequencesByDestination b !! destination)))).

Inductive sb_label :=
| SbInit (key : ContractKey) (skip : option positive)
| SbAssociate (i : positive) (destination : TransferPath)
| SbExit (i : positive)
| SbCleanup (i : positive)
| SbCancelAll.
(** A sequence associates destinations while it runs, and is cleaned up after. *)
Definition sb_step (l : sb_label) (b : SendBuffer) : option SendBuffer :=
  match l with
  | SbInit key skip => Some (sb_set_table (tb_init key skip (sb_table b)).2 b)
  | SbAssociate i d =>
      x ← tb_instances (sb_table b) !! i;
      if (in_exited x || in_cleaned x)%bool then None else Some (AssociateDestination i d b)
  | SbExit i => x ← tb_instances (sb_table b) !! i; Some (sb_set_table (tb_exit i (sb_table b)) b)
  | SbCleanup i =>
      x ← tb_instances (sb_table b) !! i;
      if (in_exited x && negb (in_cleaned x))%bool then Some (sb_cleanup i b) else None
  | SbCancelAll => Some (sb_set_table (tb_cancelAll (sb_table b)) b)
  end.
Fixpoint sb_steps (ls : list sb_label) (b : SendBuffer) : option SendBuffer :=
  match ls with [] => Some b | l :: ls => b ← sb_step l b; sb_steps ls b end.

Definition seqs_at (b : SendBuffer) (d : TransferPath) : gset positive := default ∅ (sendSequencesByDestination b !! d).
Definition dests_of (b : SendBuffer) (i : positive) : gset TransferPath := default ∅ (sendSequenceDestinations b !! i).
Record sb_inv (b : SendBuffer) : Prop := {
  si_table : tb_inv (sb_table b);
  si_assoc i d : i ∈ seqs_at b d ↔ d ∈ dests_of b i;
  si_some d s : sendSequencesByDestination b !! d = Some s → s ≠ ∅;
  si_known i s : sendSequenceDestinations b !! i = Some s →
    ∃ x, tb_instances (sb_table b) !! i = Some x ∧ in_cleaned x = false
}.
Lemma sb_set_table_inv t b : sb_inv b → tb_inv t → tb_keeps (sb_table b) t → sb_inv (sb_set_table t b).
Proof.
  intros [H1 H2 H3 H4] Ht Hk. split; try done. intros i s Hs. destruct (H4 i s Hs) as (x & Hx & Hc).
  destruct (Hk i x Hx) as (y & Hy & _ & Ec & _). exists y. split; [done|congruence].
Qed.
Lemma associate_inv i d b x :
  sb_inv b → tb_instances (sb_table b) !! i = Some x → in_cleaned x = false → sb_inv (AssociateDestination i d b).
Proof.
  intros [H1 H2 H3 H4] Hx Hc. split; [done|..].
  - intros j e. specialize (H2 j e). unfold seqs_at, dests_of, AssociateDestination in *. simpl.
    destruct (decide (d = e)) as [<-|Hd], (decide (i = j)) as [<-|Hi];
      rewrite ?lookup_insert_eq, ?lookup_insert_ne by done; simpl; set_solver.
  - intros e s. simpl. intros [[<- <-]|[_ ?]]%lookup_insert_Some; [set_solver|by eapply H3].
  - intros j s. simpl. intros [[<- <-]|[_ ?]]%lookup_insert_Some; [by exists x|by eapply H4].
Qed.
Lemma forget_at_lookup i d m e :
  default ∅ (forget_at i d m !! e) = (if decide (d = e) then default ∅ (m !! e) ∖ {[i]} else default ∅ (m !! e)).
Proof.
  unfold forget_at. destruct (m !! d) as [s|] eqn:Es.
  - case_bool_decide as E; case_decide; subst; rewrite ?lookup_delete_eq, ?lookup_insert_eq, ?lookup_delete_ne,
      ?lookup_insert_ne, ?Es by done; simpl; done || by rewrite E.
  - case_decide; [|done]. subst. rewrite Es. set_solver.
Qed.
Lemma forget_at_some i d m :
  (∀ e s, m !! e = Some s → s ≠ ∅) → ∀ e s, forget_at i d m !! e = Some s → s ≠ ∅.
Proof.
  intros H e s. unfold forget_at. destruct (m !! d) as [s0|] eqn:Es; [|apply H].
  case_bool_decide.
  - intros [_ ?]%lookup_delete_Some. by eapply H.
  - intros [[_ <-]|[_ ?]]%lookup_insert_Some; [done|by eapply H].
Qed.
Lemma forget_all i l m :
  (∀ e s, m !! e = Some s → s ≠ ∅) →
  let m' := foldr (forget_at i) m l in
  (∀ e s, m' !! e = Some s → s ≠ ∅) ∧
  (∀ e j, j ∈ (default ∅ (m' !! e) : gset positive) ↔ j ∈ (default ∅ (m !! e) : gset positive) ∧ (j = i → e ∉ l)).
Proof.
  intros Hm. induction l as [|d l [IH1 IH2]]; [split; [done|set_solver]|]. simpl. split.
  - by apply forget_at_some.
  - intros e j. rewrite forget_at_lookup. specialize (IH2 e j). case_decide; set_solver.
Qed.
Lemma sb_cleanup_inv i b : sb_inv b → sb_inv (sb_cleanup i b).
Proof.
  intros [H1 H2 H3 H4]. unfold sb_cleanup.
  assert (∀ j s, j ≠ i → sendSequenceDestinations b !! j = Some s →
    ∃ x, tb_instances (tb_cleanup i (sb_table b)) !! j = Some x ∧ in_cleaned x = false) as Hk.
  { intros j s Hj Hs. rewrite tb_cleanup_instances, lookup_alter_ne by done. by eapply H4. }
  destruct (sendSequenceDestinations b !! i) as [ds|] eqn:Ed.
  - destruct (forget_all i (elements ds) (sendSequencesByDestination b) H3) as [F1 F2].
    split; simpl; [by apply tb_cleanup_inv| |done|].
    + intros j d. unfold seqs_at, dests_of in *. simpl. rewrite F2, H2.
      destruct (decide (j = i)) as [->|Hj].
      * rewrite lookup_delete_eq, Ed. simpl. set_solver.
      * rewrite lookup_delete_ne by done. set_solver.
    + intros j s [Hj Hs]%lookup_delete_Some. by eapply Hk.
  - split; try done; [by apply tb_cleanup_inv|]. intros j s Hs. apply (Hk j s); [intros ->; simpl in Hs; congruence|done].
Qed.
Lemma sb_step_inv l b b' : sb_inv b → sb_step l b = Some b' → sb_inv b'.
Proof.
  intros Hb. pose proof (si_table _ Hb) as Ht. destruct l as [key skip|i d|i|i|]; simpl.
  - intros [= <-]. apply sb_set_table_inv; [done|by apply tb_init_inv|by apply tb_init_keeps].
  - destruct (tb_instances _ !! i) as [x|] eqn:Ex; simpl; [|done].
    destruct (_ || _)%bool eqn:E; [done|]. intros [= <-]. apply orb_false_iff in E as [_ E].
    by eapply associate_inv.
  - destruct (tb_instances _ !! i) as [x|] eqn:Ex; simpl; [|done]. intros [= <-].
    apply sb_set_table_inv; [done|by apply tb_exit_inv|by apply tb_update_keeps].
  - destruct (tb_instances _ !! i) as [x|] eqn:Ex; simpl; [|done]. destruct (_ && _)%bool; [|done].
    intros [= <-]. by apply sb_cleanup_inv.
  - intros [= <-]. apply sb_set_table_inv; [done|by apply tb_cancelAll_inv|apply tb_cancelAll_keeps].
Qed.
Lemma sb_steps_inv ls b b' : sb_inv b → sb_steps ls b = Some b' → sb_inv b'.
Proof.
  revert b. induction ls as [|l ls IH]; intros b Hb; simpl; [by intros [= <-]|].
  destruct (sb_step l b) as [b1|] eqn:E; simpl; [|done]. apply IH. by eapply sb_step_inv.
Qed.
Lemma new_sb_inv : sb_inv NewSendBuffer.
Proof.
  split; simpl; [apply new_table_inv| |by intros *; rewrite lookup_empty..].
  intros i d. unfold seqs_at, dests_of. simpl. rewrite !lookup_empty. set_solver.
Qed.

(** The tables of the send buffer stay consistent and leak nothing: in every
    interleaving of sends, associations, cancels, ends and clean ups, at most
    one sequence of each key is not cancelled, and a retry never gets the
    sequence that failed; the two maps of associations are inverse to each
    other; an ack is offered to a sequence that is associated with the
    destination it came from, and to the only one if there is one; and once all
    sequences have ended and are cleaned up, every map is empty. *)
Theorem send_buffer_tables (ls : list sb_label) (b : SendBuffer) :
  sb_steps ls NewSendBuffer = Some b →
  (∀ i j x y, tb_instances (sb_table b) !! i = Some x → tb_instances (sb_table b) !! j = Some y →
    in_cancelled x = false → in_cancelled y = false → in_key x = in_key y → i = j) ∧
  (∀ key i, is_Some (tb_instances (sb_table b) !! i) → (tb_init key (Some i) (sb_table b)).1 ≠ i) ∧
  (∀ i d, i ∈ seqs_at b d ↔ d ∈ dests_of b i) ∧
  (∀ order d, (∀ l, order l ≡ₚ l) →
    (∀ i, SendBuffer_Ack order d b = Some i → d ∈ dests_of b i) ∧
    (∀ i, seqs_at b d = {[i]} → SendBuffer_Ack order d b = Some i)) ∧
  ((∀ i x, tb_instances (sb_table b) !! i = Some x → in_cleaned x = true) →
    tb_sequences (sb_table b) = ∅ ∧ sendSequencesByDestination b = ∅ ∧ sendSequenceDestinations b = ∅).
Proof.
  intros E. pose proof (sb_steps_inv _ _ _ new_sb_inv E) as [H1 H2 H3 H4]. split_and!.
  - intros. by eapply tb_one_open.
  - intros key i Hi. by apply tb_init_skip.
  - done.
  - intros order d Ho. unfold SendBuffer_Ack. change (default ∅ _) with (seqs_at b d). split; intros i Hi.
    + apply head_Some_elem_of in Hi. rewrite Ho in Hi. apply H2. by apply elem_of_elements in Hi.
    + rewrite Hi, elements_singleton. assert (order [i] = [i]) as -> by (by apply Permutation_singleton_r, Ho).
      done.
  - intros Hc. assert (sendSequenceDestinations b = ∅) as Ed.
    { apply map_empty. intros i. destruct (sendSequenceDestinations b !! i) as [s|] eqn:Es; [|done].
      destruct (H4 i s Es) as (x & Hx & Hf). specialize (Hc i x Hx). congruence. }
    split_and!; [by apply tb_all_cleaned| |done]. apply map_empty. intros d.
    destruct (sendSequencesByDestination b !! d) as [s|] eqn:Es; [|done]. exfalso.
    apply (H3 d s Es). apply set_eq. intros i. split; [|set_solver]. intros Hi.
    assert (i ∈ seqs_at b d) as Hi' by (unfold seqs_at; by rewrite Es).
    apply H2 in Hi'. unfold dests_of in Hi'. rewrite Ed, lookup_empty in Hi'. set_solver.
Qed.

(** ** ForwardBuffer: a table by destination *)
Definition ForwardBuffer : Type := Table TransferPath.
Definition NewForwardBuffer : ForwardBuffer := NewTable.
Definition ForwardBuffer_Pack : TransferPath → attempt_env → attempt_env → ForwardBuffer →
    (bool * option string) * ForwardBuffer := buffer_Pack.

(** ** ReceiveBuffer *)
(** Keys are a source and a sequence id; the head is the key of each source. *)
Abbreviation receiveSequenceId := (TransferPath * Id)%type.
(** While [initReceiveSequence] waits for the exit of the older sequence it has
    the mutex: [rb_waiting] is the key to open and the instance it waits for. *)
Record ReceiveBuffer := mkReceiveBuffer {
  rb_table : Table receiveSequenceId;
  headReceiveSequenceIds : gmap TransferPath receiveSequenceId;
  rb_waiting : option (receiveSequenceId * positive)
}.
Definition NewReceiveBuffer : ReceiveBuffer := mkReceiveBuffer NewTable ∅ None.
Definition rb_set_table (t : Table receiveSequenceId) (b : ReceiveBuffer) : ReceiveBuffer :=
  mkReceiveBuffer t (headReceiveSequenceIds b) (rb_waiting b).
(** The end of [initReceiveSequence]. *)
Definition rb_create (key : receiveSequenceId) (t : Table receiveSequenceId) (b : ReceiveBuffer)
    : positive * ReceiveBuffer :=
  let (i, t) := tb_create key t in
  (i, mkReceiveBuffer t (<[key.1 := key]> (headReceiveSequenceIds b)) None).

(** The sequence, or none when the pack is of an older sequence, or a wait. *)
Inductive rb_result := RbSequence (i : positive) | RbDrop | RbWait.
Definition initReceiveSequence (key : receiveSequenceId) (skip : option positive) (b : ReceiveBuffer)
    : outcome (rb_result * ReceiveBuffer) :=
  let t := rb_table b in
  match tb_sequences t !! key with
  | Some i =>
      if bool_decide (skip = None ∨ skip ≠ Some i) then Val (RbSequence i, b) else
      let t := tb_cancel i t in
      if bool_decide (headReceiveSequenceIds b !! key.1 = Some key)
      then let (i, b) := rb_create key t b in Val (RbSequence i, b)
      else Panic "incorrect head sequence"
  | None =>
      match headReceiveSequenceIds b !! key.1 with
      | Some head =>
          if Id_LessThan key.2 head.2 then Val (RbDrop, b) else
          if bool_decide (head.2 = key.2) then Panic "upgrade older sequence" else
          match tb_sequences t !! head with
          | Some i => Val (RbWait, mkReceiveBuffer (tb_cancel i t) (headReceiveSequenceIds b) (Some (key, i)))
          | None => Panic "nil pointer dereference"
          end
      | None => let (i, b) := rb_create key t b in Val (RbSequence i, b)
      end
  end.
(** After [WaitForExit]. *)
Definition rb_upgrade (b : ReceiveBuffer) : option (positive * ReceiveBuffer) :=
  '(key, i) ← rb_waiting b;
  x ← tb_instances (rb_table b) !! i;
  head ← headReceiveSequenceIds b !! key.1;
  if in_exited x then Some (rb_create key (tb_remove head (rb_table b)) b) else None.
Definition rb_cleanup (i : positive) (b : ReceiveBuffer) : ReceiveBuffer :=
  match tb_instances (rb_table b) !! i with
  | Some x =>
      mkReceiveBuffer (tb_cleanup i (rb_table b))
        (if bool_decide (tb_sequences (rb_table b) !! in_key x = Some i)
         then delete (in_key x).1 (headReceiveSequenceIds b) else headReceiveSequenceIds b) (rb_waiting b)
  | None => b
  end.

Inductive rb_label :=
| RbInit (key : receiveSequenceId) (skip : option positive)
| RbUpgrade
| RbExit (i : positive)
| RbCleanup (i : positive)
| RbCancelAll.
(** Everything but an exit needs the mutex. *)
Definition rb_step (l : rb_label) (b : ReceiveBuffer) : option (outcome ReceiveBuffer) :=
  match l with
  | RbExit i => x ← tb_instances (rb_table b) !! i; Some (Val (rb_set_table (tb_exit i (rb_table b)) b))
  | RbUpgrade => r ← rb_upgrade b; Some (Val r.2)
  | _ =>
      match rb_waiting b with
      | Some _ => None
      | None =>
          match l with
          | RbInit key skip => Some (let! (_, b) := initReceiveSequence key skip b in Val b)
          | RbCleanup i =>
              x ← tb_instances (rb_table b) !! i;
              if (in_exited x && negb (in_cleaned x))%bool then Some (Val (rb_cleanup i b)) else None
          | _ => Some (Val (rb_set_table (tb_cancelAll (rb_table b)) b))
          end
      end
  end.
Fixpoint rb_steps (ls : list rb_label) (b : ReceiveBuffer) : option (outcome ReceiveBuffer) :=
  match ls with
  | [] => Some (Val b)
  | l :: ls => match rb_step l b with Some (Val b) => rb_steps ls b | r => r end
  end.

Record rb_inv (b : ReceiveBuffer) : Prop := {
  rv_table : tb_inv (rb_table b);
  rv_head s k : headReceiveSequenceIds b !! s = Some k → k.1 = s ∧ is_Some (tb_sequences (rb_table b) !! k);
  rv_entry k i : tb_sequences (rb_table b) !! k = Some i → headReceiveSequenceIds b !! k.1 = Some k;
  rv_wait k i : rb_waiting b = Some (k, i) → ∃ head x, headReceiveSequenceIds b !! k.1 = Some head ∧
    tb_sequences (rb_table b) !! head = Some i ∧ tb_sequences (rb_table b) !! k = None ∧
    Id_LessThan head.2 k.2 = true ∧ tb_instances (rb_table b) !! i = Some x ∧ in_cancelled x = true
}.
Lemma new_rb_inv : rb_inv NewReceiveBuffer.
Proof. split; simpl; [apply new_table_inv|by intros *; rewrite lookup_empty..|done]. Qed.
Lemma rb_create_inv key t b :
  rb_inv b → tb_inv t → (∀ i x, tb_sequences t !! key = Some i → tb_instances t !! i = Some x → in_cancelled x = true) →
  (∀ k i, tb_sequences t !! k = Some i → k.1 = key.1 → k = key) →
  (∀ k, k.1 ≠ key.1 → tb_sequences t !! k = tb_sequences (rb_table b) !! k) →
  rb_inv (rb_create key t b).2.
Proof.
  intros [H1 H2 H3 H4] Ht Hc Hone Hsame. unfold rb_create. pose proof (tb_create_inv key t Ht Hc) as Hcr.
  unfold tb_create in *. split; simpl in *; [done| | |done].
  - intros s k [[<- <-]|[Hs Hk]]%lookup_insert_Some.
    + split; [done|]. rewrite lookup_insert_eq. by eexists.
    + destruct (H2 s k Hk) as [<- Hk2]. split; [done|]. rewrite lookup_insert_ne by congruence. by rewrite Hsame.
  - intros k i [[<- <-]|[Hne Hk]]%lookup_insert_Some; [by rewrite lookup_insert_eq|].
    destruct (decide (k.1 = key.1)) as [E|E]; [by destruct Hne; rewrite (Hone k i Hk E)|].
    rewrite lookup_insert_ne by done. apply (H3 k i). by rewrite <-Hsame.
Qed.

Lemma tb_remove_entry {K} `{Countable K} k (t : Table K) : tb_sequences (tb_remove k t) !! k = None.
Proof. apply lookup_delete_eq. Qed.
Lemma rb_set_table_inv t b : rb_inv b → tb_inv t → tb_keeps (rb_table b) t →
  tb_sequences t = tb_sequences (rb_table b) → rb_inv (rb_set_table t b).
Proof.
  intros [H1 H2 H3 H4] Ht Hk E. split; simpl; rewrite ?E; try done. intros k i Hw.
  destruct (H4 k i Hw) as (head & x & ? & ? & ? & ? & Hx & Hc). destruct (Hk i x Hx) as (y & Hy & _ & _ & _ & Hcy).
  exists head, y. split_and!; auto.
Qed.
Lemma Id_not_less a b : Id_LessThan a b = false → a ≠ b → Id_LessThan b a = true.
Proof.
  unfold Id_LessThan. intros E Hne. pose proof (Id_cmp_loop_antisym (vec_to_list a) (vec_to_list b)) as Ha.
  assert (Id_Cmp a b ≠ 0%Z) as Hz by (by rewrite Id_Cmp_eq). unfold Id_Cmp in *.
  apply Z.ltb_ge in E. apply Z.ltb_lt. lia.
Qed.
(** The heads of a source only get newer, unless the source has none. *)
Definition newer_heads (b b' : ReceiveBuffer) : Prop :=
  ∀ s k k', headReceiveSequenceIds b !! s = Some k → headReceiveSequenceIds b' !! s = Some k' →
    k' = k ∨ Id_LessThan k.2 k'.2 = true.
Lemma newer_create key t b :
  (∀ k, headReceiveSequenceIds b !! key.1 = Some k → k = key ∨ Id_LessThan k.2 key.2 = true) →
  newer_heads b (rb_create key t b).2.
Proof.
  intros Hk s k k' E. unfold rb_create, tb_create. simpl. intros [[<- <-]|[_ E']]%lookup_insert_Some.
  - destruct (Hk k E) as [-> |?]; auto.
  - left. congruence.
Qed.
Lemma newer_same b b' : headReceiveSequenceIds b' = headReceiveSequenceIds b → newer_heads b b'.
Proof. intros E s k k'. rewrite E. intros. left. congruence. Qed.

Lemma rb_init_spec key skip b :
  rb_inv b → rb_waiting b = None →
  ∃ r b', initReceiveSequence key skip b = Val (r, b') ∧ rb_inv b' ∧ newer_heads b b'.
Proof.
  intros Hb Hw. pose proof Hb as [H1 H2 H3 H4]. unfold initReceiveSequence.
  destruct (tb_sequences (rb_table b) !! key) as [i|] eqn:Ek.
  - case_bool_decide; [eexists _, _; split; [done|]; split; [done|by apply newer_same]|].
    rewrite bool_decide_eq_true_2 by (by eapply H3).
    pose proof (rb_create_inv key (tb_cancel i (rb_table b)) b Hb (tb_cancel_inv i _ H1)) as Hc.
    pose proof (newer_create key (tb_cancel i (rb_table b)) b) as Hnew.
    destruct (rb_create key _ b) as [j b'] eqn:Er. eexists _, _. split; [done|]. simpl in *. split.
    + apply Hc; [|simpl|done].
      * intros i' x Hs. assert (i' = i) as -> by congruence. apply tb_cancelled.
      * intros k i' Hk E. pose proof (H3 k i' Hk) as E1. pose proof (H3 key i Ek) as E2. congruence.
    + apply Hnew. intros k E. left. pose proof (H3 key i Ek). congruence.
  - destruct (headReceiveSequenceIds b !! key.1) as [head|] eqn:Eh.
    + destruct (Id_LessThan key.2 head.2) eqn:El.
      { eexists _, _. split; [done|]. split; [done|by apply newer_same]. }
      destruct (H2 _ _ Eh) as [E1 [i Ei]].
      rewrite bool_decide_eq_false_2.
      2: { intros E2. destruct key, head; simpl in *. congruence. }
      rewrite Ei. eexists _, _. split; [done|]. split; [|by apply newer_same].
      destruct (ti_entry _ H1 _ _ Ei) as (x & Hx & _).
      split; simpl; [by apply tb_cancel_inv|done|done|]. intros k j [= <- <-].
      exists head, (in_cancel x). split_and!; try done.
      * apply Id_not_less; [done|]. intros E2. destruct key, head; simpl in *. congruence.
      * rewrite lookup_alter_eq, Hx. done.
    + pose proof (rb_create_inv key (rb_table b) b Hb H1) as Hc.
      pose proof (newer_create key (rb_table b) b) as Hnew.
      destruct (rb_create key _ b) as [j b'] eqn:Er. eexists _, _. split; [done|]. simpl in *. split.
      * apply Hc; [congruence| |done]. intros k i Hk E. pose proof (H3 k i Hk). congruence.
      * apply Hnew. congruence.
Qed.
Lemma rb_upgrade_spec b i b' : rb_inv b → rb_upgrade b = Some (i, b') → rb_inv b' ∧ newer_heads b b'.
Proof.
  intros Hb E. pose proof Hb as [H1 H2 H3 H4]. unfold rb_upgrade in E.
  destruct (rb_waiting b) as [[key j]|] eqn:Ew; [|done]. cbn [mbind option_bind] in E.
  destruct (H4 key j eq_refl) as (head & x & Eh & Es & En & El & Ex & Hc). rewrite Ex, Eh in E.
  cbn [mbind option_bind] in E. destruct (in_exited x); [|done].
  assert ((rb_create key (tb_remove head (rb_table b)) b).2 = b') as <-
    by (apply (inj Some) in E; by rewrite E). clear E. split.
  - apply rb_create_inv; [done| | | |].
    + apply tb_remove_inv; [|done]. intros i' y Hs Hy. congruence.
    + simpl. intros i' y [_ Hs]%lookup_delete_Some. congruence.
    + simpl. intros k i' [Hne Hk]%lookup_delete_Some E. pose proof (H3 k i' Hk) as Hk3. congruence.
    + simpl. intros k Hk. rewrite lookup_delete_ne; [done|]. intros <-. destruct (H2 _ _ Eh). congruence.
  - apply newer_create. intros k Ek. right. congruence.
Qed.
Lemma tb_cleanup_sequences {K} `{Countable K} i (t : Table K) x :
  tb_instances t !! i = Some x → tb_sequences (tb_cleanup i t) =
    (if bool_decide (tb_sequences t !! in_key x = Some i) then delete (in_key x) (tb_sequences t)
     else tb_sequences t).
Proof. intros E. unfold tb_cleanup. rewrite E. simpl. by case_bool_decide. Qed.
Lemma rb_cleanup_spec i b : rb_inv b → rb_waiting b = None → rb_inv (rb_cleanup i b) ∧ newer_heads b (rb_cleanup i b).
Proof.
  intros Hb Hw. pose proof Hb as [H1 H2 H3 H4]. unfold rb_cleanup.
  destruct (tb_instances (rb_table b) !! i) as [x|] eqn:Ex; [|split; [done|by apply newer_same]].
  pose proof (tb_cleanup_sequences i (rb_table b) x Ex) as Es.
  split; [split; simpl; rewrite ?Es|].
  - by apply tb_cleanup_inv.
  - intros s k. case_bool_decide as Ed; [|by apply H2]. intros [Hne Hk]%lookup_delete_Some.
    destruct (H2 s k Hk) as [<- Hi]. split; [done|]. rewrite lookup_delete_ne; [done|]. congruence.
  - intros k j. case_bool_decide as Ed; [|by apply H3]. intros [Hne Hk]%lookup_delete_Some.
    pose proof (H3 k j Hk) as E1. rewrite lookup_delete_ne; [done|]. intros E.
    pose proof (H3 _ _ Ed) as E2. rewrite E in E2. congruence.
  - intros k j. by rewrite Hw.
  - intros s k k' Hk. simpl. case_bool_decide; [intros [_ Hk']%lookup_delete_Some|intros Hk']; left; congruence.
Qed.
Lemma rb_step_spec l b r : rb_inv b → rb_step l b = Some r → ∃ b', r = Val b' ∧ rb_inv b' ∧ newer_heads b b'.
Proof.
  intros Hb E. pose proof (rv_table _ Hb) as Ht. destruct l as [key skip| |i|i|]; simpl in E.
  - destruct (rb_waiting b) eqn:Ew; [done|]. injection E as <-.
    destruct (rb_init_spec key skip b Hb Ew) as (x & b' & -> & ? & ?). by exists b'.
  - destruct (rb_upgrade b) as [[i b']|] eqn:Eu; [|done]. injection E as <-. exists b'. split; [done|].
    by eapply rb_upgrade_spec.
  - destruct (tb_instances _ !! i) as [x|] eqn:Ex; [|done]. injection E as <-. eexists. split; [done|].
    split; [|by apply newer_same]. apply rb_set_table_inv; [done|by apply tb_exit_inv|by apply tb_update_keeps|done].
  - destruct (rb_waiting b) eqn:Ew; [done|]. destruct (tb_instances _ !! i) as [x|] eqn:Ex; [|done].
    cbn [mbind option_bind] in E. destruct (_ && _)%bool; [|done]. injection E as <-. eexists. split; [done|].
    by apply rb_cleanup_spec.
  - destruct (rb_waiting b) eqn:Ew; [done|]. injection E as <-. eexists. split; [done|].
    split; [|by apply newer_same].
    apply rb_set_table_inv; [done|by apply tb_cancelAll_inv|apply tb_cancelAll_keeps|done].
Qed.
Lemma rb_steps_inv ls b r : rb_inv b → rb_steps ls b = Some r → ∃ b', r = Val b' ∧ rb_inv b'.
Proof.
  revert b. induction ls as [|l ls IH]; intros b Hb E; simpl in E; [injection E as <-; by exists b|].
  destruct (rb_step l b) as [r'|] eqn:El; [|done].
  destruct (rb_step_spec l b r' Hb El) as (b' & -> & Hb' & _). by eapply IH.
Qed.

(** C12. The receive buffer keeps one open sequence for each source: in every
    interleaving of packs, exits, clean ups and cancels, none of its panics
    ("incorrect head sequence", "upgrade older sequence", a nil head) can
    happen; at most one sequence of a source is not cancelled, and its id is the
    head of the source; the head of a source is only ever replaced by a greater
    sequence id; a pack is dropped only when the head of its source is greater,
    and it always finds a sequence otherwise, once the one that it replaces has
    exited; and once all sequences are cleaned up the tables are empty. *)
Theorem receive_buffer_heads (ls : list rb_label) (r : outcome ReceiveBuffer) :
  rb_steps ls NewReceiveBuffer = Some r →
  ∃ b, r = Val b ∧
    (∀ i j x y, tb_instances (rb_table b) !! i = Some x → tb_instances (rb_table b) !! j = Some y →
      in_cancelled x = false → in_cancelled y = false → (in_key x).1 = (in_key y).1 → i = j) ∧
    (∀ i x, tb_instances (rb_table b) !! i = Some x → in_cancelled x = false →
      headReceiveSequenceIds b !! (in_key x).1 = Some (in_key x)) ∧
    (∀ l b', rb_step l b = Some (Val b') → newer_heads b b') ∧
    (∀ key skip, rb_waiting b = None → ∃ res b', initReceiveSequence key skip b = Val (res, b') ∧
      match res with
      | RbSequence i => tb_sequences (rb_table b') !! key = Some i
      | RbDrop => ∃ head, headReceiveSequenceIds b !! key.1 = Some head ∧ Id_LessThan key.2 head.2 = true
      | RbWait => ∃ i, rb_waiting b' = Some (key, i)
      end) ∧
    ((∀ i x, tb_instances (rb_table b) !! i = Some x → in_cleaned x = true) →
      tb_sequences (rb_table b) = ∅ ∧ headReceiveSequenceIds b = ∅).
Proof.
  intros E. destruct (rb_steps_inv _ _ _ new_rb_inv E) as (b & -> & Hb). exists b. split; [done|].
  pose proof Hb as [H1 H2 H3 H4].
  assert (∀ i x, tb_instances (rb_table b) !! i = Some x → in_cancelled x = false →
    headReceiveSequenceIds b !! (in_key x).1 = Some (in_key x)) as Hh.
  { intros i x Hx Hc. eapply H3. by apply (ti_open _ H1). }
  split_and!.
  - intros i j x y Hx Hy Hcx Hcy Ek. pose proof (Hh i x Hx Hcx) as E1. pose proof (Hh j y Hy Hcy) as E2.
    eapply tb_one_open; [done..|]. congruence.
  - done.
  - intros l b' El. destruct (rb_step_spec l b _ Hb El) as (? & [= <-] & _ & ?). done.
  - intros key skip Hw. destruct (rb_init_spec key skip b Hb Hw) as (res & b' & Ei & _ & _).
    exists res, b'. split; [done|]. unfold initReceiveSequence in Ei.
    destruct (tb_sequences (rb_table b) !! key) as [i|] eqn:Ek.
    + case_bool_decide; [by injection Ei as <- <-|]. case_bool_decide; [|done].
      destruct (rb_create key _ b) as [j b1] eqn:Er. injection Ei as <- <-. injection Er as <- <-.
      apply lookup_insert_eq.
    + destruct (headReceiveSequenceIds b !! key.1) as [head|] eqn:Eh.
      * destruct (Id_LessThan key.2 head.2) eqn:El; [injection Ei as <- <-; by exists head|].
        case_bool_decide; [done|]. destruct (tb_sequences _ !! head) as [i|]; [|done]. injection Ei as <- <-. by exists i.
      * destruct (rb_create key _ b) as [j b1] eqn:Er. injection Ei as <- <-. injection Er as <- <-.
        apply lookup_insert_eq.
  - intros Hc. assert (tb_sequences (rb_table b) = ∅) as Es by by apply tb_all_cleaned. split; [done|].
    apply map_empty. intros s. destruct (headReceiveSequenceIds b !! s) as [k|] eqn:Ek; [|done].
    destruct (H2 s k Ek) as [_ [i Hi]]. by rewrite Es in Hi.
Qed.

(** ** Concrete runs *)
Module BuffersExample.
Import ContractExample.
Definition ex_dest : TransferPath := DestinationId (ex_id 9).
Definition ex_plain : ContractKey := mkKey ex_dest MultiHopId_zero false false.
Definition ex_companion : ContractKey := mkKey ex_dest MultiHopId_zero true false.
(** Two sequences to one destination: [Ack] offers the ack to one of them only. *)
Definition ex_two : list sb_label :=
  [SbInit ex_plain None; SbInit ex_companion None; SbAssociate 1 ex_dest; SbAssociate 2 ex_dest].
Definition ex_sb : SendBuffer := default NewSendBuffer (sb_steps ex_two NewSendBuffer).
Example ack_offered_to_one :
  SendBuffer_Ack id ex_dest ex_sb ≠ SendBuffer_Ack (@rev _) ex_dest ex_sb.
Proof. vm_compute. discriminate. Qed.
Lemma send_buffer_tables_witness :
  2%positive ∈ seqs_at ex_sb ex_dest ↔ ex_dest ∈ dests_of ex_sb 2.
Proof.
  destruct (send_buffer_tables ex_two ex_sb) as (_ & _ & H & _); [|apply H]. unfold ex_sb.
  assert (match sb_steps ex_two NewSendBuffer with Some _ => true | None => false end = true) as E
    by (vm_compute; reflexivity).
  destruct (sb_steps ex_two NewSendBuffer); [reflexivity|discriminate].
Defined.

Definition ex_src : TransferPath := SourceId (ex_id 9).
Definition ex_first : receiveSequenceId := (ex_src, ex_id 1).
Definition ex_second : receiveSequenceId := (ex_src, ex_id 2).
Definition ex_rb_labels : list rb_label := [RbInit ex_first None; RbInit ex_second None; RbExit 1; RbUpgrade].
Definition ex_rb (ls : list rb_label) : ReceiveBuffer :=
  match rb_steps ls NewReceiveBuffer with Some (Val b) => b | _ => NewReceiveBuffer end.
Lemma receive_buffer_heads_witness :
  headReceiveSequenceIds (ex_rb ex_rb_labels) !! ex_src = Some ex_second.
Proof.
  destruct (receive_buffer_heads ex_rb_labels (Val (ex_rb ex_rb_labels))) as (b & [= <-] & _ & Hh & _).
  { unfold ex_rb.
    assert (match rb_steps ex_rb_labels NewReceiveBuffer with Some (Val _) => true | _ => false end = true) as E
      by (vm_compute; reflexivity).
    destruct (rb_steps ex_rb_labels NewReceiveBuffer) as [[?|?|?]|]; [reflexivity|discriminate..]. }
  apply (Hh 2%positive (mkInstance ex_second false false false)); vm_compute; reflexivity.
Defined.

(** After a flush the retry replaces a cancelled sequence without waiting for
    its exit, and an upgrade then waits for the replacement only: sequences of
    two ids of one source run at the same time. *)
Definition ex_overlap : list rb_label :=
  [RbInit ex_first None; RbCancelAll; RbInit ex_first (Some 1%positive); RbInit ex_second None; RbExit 2; RbUpgrade].
Example two_ids_run :
  (λ x, (in_key x, in_exited x)) <$> tb_instances (rb_table (ex_rb ex_overlap)) !! 1%positive = Some (ex_first, false) ∧
  (λ x, (in_key x, in_exited x)) <$> tb_instances (rb_table (ex_rb ex_overlap)) !! 3%positive = Some (ex_second, false).
Proof. vm_compute. split; reflexivity. Qed.
End BuffersExample.
