(* ===== verification/UserNat.v ===== *)
(** * The user NAT of a provider: LocalUserNat, UdpBuffer and TcpBuffer of ip.go

    A packet of a client goes to the sequence of its flow. The four buffers, for
    UDP and TCP over the two versions of IP, hold the sequences by flow and by
    source, start one when a packet finds none, and forget it when its goroutine
    ends. The tables are those of Buffers.v: pointers to sequences are instance
    numbers. A step is what is done under the mutex of a buffer. *)

From stdpp Require Import gmap sorting.
From S2P Require Import Prelude Ids Ip TcpSequence UdpSequence Buffers.
Open Scope go_scope.

(** ** The limit of a user *)
Section Limit.
Context {R : Type} (lastActivityTime : R → Z).
Definition activity_order (a b : R) : Prop := (lastActivityTime a ≤ lastActivityTime b)%Z.
#[export] Instance activity_order_dec : RelDecision activity_order.
Proof. intros a b. unfold activity_order. apply _. Defined.
#[export] Instance activity_order_total : Total activity_order.
Proof. intros a b. unfold activity_order. lia. Qed.
#[export] Instance activity_order_trans : Transitive activity_order.
Proof. intros a b c. unfold activity_order. lia. Qed.

(** The resources that the loop cancels. *)
Fixpoint limit_loop (limitCallback : R → bool) (n i : Z) (resources : list R) : list R :=
  match resources with
  | [] => []
  | r :: rs =>
      let c := limitCallback r in
      let i := if c then (i + 1)%Z else i in
      (if c then [r] else []) ++ (if (n <=? i)%Z then [] else limit_loop limitCallback n i rs)
  end.
Definition applyLruUserLimit (resources : list R) (ulimit : Z) (limitCallback : R → bool) : list R :=
  let n := (Z.of_nat (length resources) - ulimit)%Z in
  if (0 <? n)%Z then limit_loop limitCallback n 0 (merge_sort activity_order resources) else [].

Lemma limit_loop_take cb n i l :
  (i < n)%Z → limit_loop cb n i l = take (Z.to_nat (n - i)) (List.filter cb l).
Proof.
  revert i. induction l as [|r l IH]; intros i Hi; simpl; [by rewrite take_nil|]. destruct (cb r); simpl.
  - replace (Z.to_nat (n - i)) with (S (Z.to_nat (n - (i + 1)))) by lia. simpl. f_equal.
    destruct (Z.leb_spec n (i + 1)); [by replace (Z.to_nat (n - (i + 1))) with 0 by lia|apply IH; lia].
  - destruct (Z.leb_spec n i); [lia|]. by apply IH.
Qed.
Lemma filter_sorted cb l : StronglySorted activity_order l → StronglySorted activity_order (List.filter cb l).
Proof.
  induction 1 as [|a l Hl IH Ha]; simpl; [constructor|]. destruct (cb a); [|done]. constructor; [done|].
  apply List.Forall_forall. intros x [Hx _]%List.filter_In. by apply (proj1 (List.Forall_forall _ _) Ha).
Qed.
Lemma sorted_take_drop l k x y :
  StronglySorted activity_order l → x ∈ take k l → y ∈ drop k l → (lastActivityTime x ≤ lastActivityTime y)%Z.
Proof.
  intros Hl. revert k. induction Hl as [|a l Hl IH Ha]; intros k Hx Hy; [by rewrite take_nil in Hx; set_solver|].
  destruct k as [|k]; [set_solver|]. simpl in *. apply elem_of_cons in Hx as [->|Hx]; [|by apply (IH k)].
  rewrite Forall_forall in Ha. apply Ha. rewrite <-(take_drop k l). apply elem_of_app. by right.
Qed.

(** The limit cancels the least recently active: of the resources, which are
    distinct and in any order, it cancels as many as are over the limit, or all
    that the callback accepts if these are fewer; only such that the callback
    accepts; and none that was active later than one that the callback accepts
    and that it keeps. With a callback that accepts all, as many are left as the
    limit says. *)
Theorem lru_user_limit (resources : list R) (ulimit : Z) (limitCallback : R → bool) :
  NoDup resources →
  let cancelled := applyLruUserLimit resources ulimit limitCallback in
  let accepted := List.filter limitCallback resources in
  length cancelled = min (Z.to_nat (Z.of_nat (length resources) - ulimit)) (length accepted) ∧
  NoDup cancelled ∧ (∀ x, x ∈ cancelled → x ∈ resources ∧ limitCallback x = true) ∧
  (∀ x y, x ∈ cancelled → y ∈ accepted → y ∉ cancelled → (lastActivityTime x ≤ lastActivityTime y)%Z) ∧
  ((∀ x, limitCallback x = true) → (0 ≤ ulimit)%Z →
   Z.of_nat (length resources - length cancelled) = Z.min ulimit (Z.of_nat (length resources))).
Proof.
  intros Hnd cancelled accepted.
  set (sorted := List.filter limitCallback (merge_sort activity_order resources)).
  set (k := Z.to_nat (Z.of_nat (length resources) - ulimit)).
  assert (cancelled = take k sorted) as Ec.
  { unfold cancelled, applyLruUserLimit. destruct (Z.ltb_spec 0 (Z.of_nat (length resources) - ulimit)).
    - rewrite limit_loop_take by done. by rewrite Z.sub_0_r.
    - by replace k with 0 by (unfold k; lia). }
  pose proof (merge_sort_Permutation activity_order resources) as Hp.
  assert (sorted ≡ₚ accepted) as Hs.
  { unfold sorted, accepted. clear -Hp. induction Hp; simpl; repeat case_match; try done.
    - by constructor.
    - apply perm_swap.
    - by etrans. }
  assert (∀ x, x ∈ accepted → x ∈ resources ∧ limitCallback x = true) as Hacc.
  { intros x Hx. apply list_elem_of_In in Hx. apply List.filter_In in Hx as [Hx ?].
    split; [by apply list_elem_of_In|done]. }
  assert (NoDup accepted) as Hna.
  { apply NoDup_ListNoDup, List.NoDup_filter. by apply NoDup_ListNoDup. }
  assert (length cancelled = min k (length accepted)) as El.
  { by rewrite Ec, length_take, Hs. }
  split_and!; [done|..].
  - rewrite Ec. apply (NoDup_app (take k sorted) (drop k sorted)). rewrite take_drop. by rewrite Hs.
  - intros x Hx. apply Hacc. rewrite <-Hs. rewrite Ec in Hx. rewrite <-(take_drop k sorted). apply elem_of_app. by left.
  - intros x y Hx Hy Hny. rewrite Ec in Hx, Hny. apply (sorted_take_drop sorted k); [|done|].
    + apply filter_sorted, StronglySorted_merge_sort; apply _.
    + rewrite <-Hs in Hy. rewrite <-(take_drop k sorted) in Hy. apply elem_of_app in Hy as [?|?]; done.
  - intros Hall Hu. rewrite El. assert (accepted = resources) as ->.
    { unfold accepted. clear -Hall. induction resources as [|x l IH]; [done|]. simpl. by rewrite Hall, IH. }
    unfold k. lia.
Qed.
End Limit.

(** ** Flows *)
(** [BufferId4] and [BufferId6] differ in the width of the addresses. *)
Record BufferId (n : nat) := mkBufferId {
  bi_source : TransferPath;
  bi_sourceIp : vec byte n;
  bi_sourcePort : Z;
  bi_destinationIp : vec byte n;
  bi_destinationPort : Z
}.
Arguments mkBufferId {n}.
Arguments bi_source {n}.
Arguments bi_sourceIp {n}.
Arguments bi_sourcePort {n}.
Arguments bi_destinationIp {n}.
Arguments bi_destinationPort {n}.
#[export] Instance BufferId_eq_dec n : EqDecision (BufferId n).
Proof. solve_decision. Defined.
#[export] Program Instance BufferId_countable n : Countable (BufferId n) :=
  inj_countable'
    (λ b, (bi_source b, vec_to_list (bi_sourceIp b), bi_sourcePort b, vec_to_list (bi_destinationIp b), bi_destinationPort b))
    (λ '(s, i, p, d, q), mkBufferId s (to_array n i) p (to_array n d) q) _.
Next Obligation. intros n []. simpl. by rewrite !to_array_vec. Qed.
(** The conversion of a slice to an array panics when the slice is shorter. *)
Definition slice_array (n : nat) (l : list byte) : outcome (vec byte n) :=
  if n <=? length l then Val (to_array n l) else Panic "cannot convert slice to array".
Definition NewBufferId (n : nat) (source : TransferPath) (sourceIp : IP) (sourcePort : Z) (destinationIp : IP)
    (destinationPort : Z) : outcome (BufferId n) :=
  let! s := slice_array n sourceIp in
  let! d := slice_array n destinationIp in
  Val (mkBufferId source s sourcePort d destinationPort).

(** ** The dispatch of packets: LocalUserNat.Run *)
Inductive nat_action :=
| NatUdp4 (bufferId : BufferId 4) (item : UdpSendItem)
| NatUdp6 (bufferId : BufferId 16) (item : UdpSendItem)
| NatTcp4 (bufferId : BufferId 4) (tcp : TcpLayer) (payload : list byte)
| NatTcp6 (bufferId : BufferId 16) (tcp : TcpLayer) (payload : list byte)
| NatReturn      (** dropped, the packet is given back to the pool *)
| NatForget.     (** dropped, the packet is not given back *)
Section Dispatch.
Context `{GoPacket}.
Definition nat_dispatch (source : TransferPath) (ipPacket : list byte) : outcome nat_action :=
  let! ipVersion := packet_version ipPacket in
  if (ipVersion =? 4)%Z then
    let '(ip, l) := decodeIPv4 ipPacket in
    if (ip_Protocol ip =? IPProtocolUDP)%Z then
      let '(udp, payload) := decodeUDP l in
      let! b := NewBufferId 4 source (ip_SrcIP ip) (udp_SrcPort udp) (ip_DstIP ip) (udp_DstPort udp) in
      Val (NatUdp4 b (mkUdpSendItem payload ipPacket))
    else if (ip_Protocol ip =? IPProtocolTCP)%Z then
      let '(tcp, payload) := decodeTCP l in
      let! b := NewBufferId 4 source (ip_SrcIP ip) (tcp_SrcPort tcp) (ip_DstIP ip) (tcp_DstPort tcp) in
      Val (NatTcp4 b tcp payload)
    else Val NatReturn
  else if (ipVersion =? 6)%Z then
    let '(ip, l) := decodeIPv6 ipPacket in
    if (ip_Protocol ip =? IPProtocolUDP)%Z then
      let '(udp, payload) := decodeUDP l in
      let! b := NewBufferId 16 source (ip_SrcIP ip) (udp_SrcPort udp) (ip_DstIP ip) (udp_DstPort udp) in
      Val (NatUdp6 b (mkUdpSendItem payload ipPacket))
    else if (ip_Protocol ip =? IPProtocolTCP)%Z then
      let '(tcp, payload) := decodeTCP l in
      let! b := NewBufferId 16 source (ip_SrcIP ip) (tcp_SrcPort tcp) (ip_DstIP ip) (tcp_DstPort tcp) in
      Val (NatTcp6 b tcp payload)
    else Val NatReturn
  else Val NatForget.
(** The flow of a path, as a key of the buffers. *)
Definition path_buffer (n : nat) (source : TransferPath) (p : IpPath) : outcome (BufferId n) :=
  NewBufferId n source (SourceIp p) (SourcePort p) (DestinationIp p) (DestinationPort p).
(** What is done with a packet is decided by its path. *)
Lemma nat_dispatch_parsed source packet p payload :
  ParseIpPathWithPayload packet = Val (p, payload) →
  nat_dispatch source packet =
    match Protocol p with
    | IpProtocolUdp =>
        if (Version p =? 4)%Z then let! b := path_buffer 4 source p in Val (NatUdp4 b (mkUdpSendItem payload packet))
        else let! b := path_buffer 16 source p in Val (NatUdp6 b (mkUdpSendItem payload packet))
    | _ =>
        let tcp := (decodeTCP (decodeIP (Version p) packet).2).1 in
        if (Version p =? 4)%Z then let! b := path_buffer 4 source p in Val (NatTcp4 b tcp payload)
        else let! b := path_buffer 16 source p in Val (NatTcp6 b tcp payload)
    end.
Proof.
  unfold ParseIpPathWithPayload, nat_dispatch, path_buffer. intros E.
  destruct (packet_version packet) as [v| |]; [|discriminate E|discriminate E].
  cbn [obind] in E |- *. destruct (Z.eqb_spec v 4) as [E4|].
  - subst v. destruct (decodeIPv4 packet) as [ip l] eqn:Ed. unfold parse_transport in E.
    destruct (_ =? IPProtocolUDP)%Z; [destruct (decodeUDP l); injection E as <- <-; done|].
    destruct (_ =? IPProtocolTCP)%Z; [|done]. destruct (decodeTCP l) eqn:Et. injection E as <- <-.
    cbn. rewrite Ed. cbn. by rewrite Et.
  - destruct (Z.eqb_spec v 6) as [E6|]; [subst v|done].
    destruct (decodeIPv6 packet) as [ip l] eqn:Ed. unfold parse_transport in E.
    destruct (_ =? IPProtocolUDP)%Z; [destruct (decodeUDP l); injection E as <- <-; done|].
    destruct (_ =? IPProtocolTCP)%Z; [|done]. destruct (decodeTCP l) eqn:Et. injection E as <- <-.
    cbn. rewrite Ed. cbn. by rewrite Et.
Qed.
End Dispatch.

(** ** The buffers *)
Section NatBuffer.
Context {n : nat}.
Abbreviation Id_ := (BufferId n).

(** [UdpBuffer] and [TcpBuffer], with the last activity of each sequence. *)
Record NatBuffer := mkNatBuffer {
  nb_table : Table Id_;
  sourceSequences : gmap TransferPath (gmap Id_ positive);
  nb_activity : gmap positive Z
}.
Definition newNatBuffer : NatBuffer := mkNatBuffer NewTable ∅ ∅.
Definition nb_set_table (t : Table Id_) (b : NatBuffer) : NatBuffer :=
  mkNatBuffer t (sourceSequences b) (nb_activity b).
Definition forget_source (bufferId : Id_) (m : gmap TransferPath (gmap Id_ positive))
    : gmap TransferPath (gmap Id_ positive) :=
  let sequences := delete bufferId (default ∅ (m !! bi_source bufferId)) in
  if bool_decide (sequences = ∅) then delete (bi_source bufferId) m
  else <[bi_source bufferId := sequences]> m.
(** [sequence.Cancel()] and the two tables. *)
Definition nb_remove (bufferId : Id_) (i : positive) (b : NatBuffer) : NatBuffer :=
  mkNatBuffer (tb_remove bufferId (tb_cancel i (nb_table b)))
    (forget_source bufferId (sourceSequences b)) (nb_activity b).
(** The limit of a source; [order] is the order in which its map is iterated. *)
Definition nb_limit (userLimit : Z) (order : list positive → list positive) (source : TransferPath) (b : NatBuffer)
    : NatBuffer :=
  let sequences := default ∅ (sourceSequences b !! source) in
  if (0 <? userLimit)%Z && (userLimit <? Z.of_nat (size sequences))%Z then
    nb_set_table
      (foldr tb_cancel (nb_table b)
         (applyLruUserLimit (λ i, default 0%Z (nb_activity b !! i)) (order (map snd (map_to_list sequences))) userLimit
            (λ _, true))) b
  else b.
(** [New...Sequence], the entry of the table and the goroutine. *)
Definition nb_create (now : Z) (bufferId : Id_) (b : NatBuffer) : positive * NatBuffer :=
  let (i, t) := tb_create bufferId (nb_table b) in
  (i, mkNatBuffer t (sourceSequences b) (<[i := now]> (nb_activity b))).

(** [initSequence] of [udpSend]. *)
Definition udp_initSequence (userLimit : Z) (order : list positive → list positive) (now : Z) (bufferId : Id_)
    (skip : option positive) (b : NatBuffer) : positive * NatBuffer :=
  let create b := nb_create now bufferId (nb_limit userLimit order (bi_source bufferId) b) in
  match tb_sequences (nb_table b) !! bufferId with
  | Some i => if bool_decide (skip = None ∨ skip ≠ Some i) then (i, b) else create (nb_remove bufferId i b)
  | None => create b
  end.
(** [initSequence] of [tcpSend]: no sequence when the packet is dropped, and
    whether its buffer is given back to the pool. *)
Definition tcp_initSequence (userLimit : Z) (order : list positive → list positive) (now : Z) (bufferId : Id_)
    (syn rst : bool) (b : NatBuffer) : (option positive * bool) * NatBuffer :=
  match tb_sequences (nb_table b) !! bufferId with
  | Some i => if rst then ((None, false), nb_remove bufferId i b) else ((Some i, false), b)
  | None =>
      if negb syn then ((None, true), b)
      else let (i, b) := nb_create now bufferId (nb_limit userLimit order (bi_source bufferId) b) in ((Some i, false), b)
  end.
(** The deferred function of the goroutine. *)
Definition nb_cleanup (i : positive) (b : NatBuffer) : NatBuffer :=
  match tb_instances (nb_table b) !! i with
  | Some x =>
      let found := bool_decide (tb_sequences (nb_table b) !! in_key x = Some i) in
      mkNatBuffer (tb_cleanup i (nb_table b))
        (if found then forget_source (in_key x) (sourceSequences b) else sourceSequences b) (nb_activity b)
  | None => b
  end.

(** [udpSend]: a second try with another sequence when [send] of the first
    returned an error. What others do before each try, and what [send] returns,
    is given. *)
Record nat_attempt := mkNatAttempt {
  na_before : NatBuffer → NatBuffer;
  na_now : Z;
  na_send : positive → bool * option string
}.
Definition udpSend (userLimit : Z) (order : list positive → list positive) (bufferId : Id_)
    (first second : nat_attempt) (b : NatBuffer) : (bool * option string) * NatBuffer :=
  let (i, b) := udp_initSequence userLimit order (na_now first) bufferId None (na_before first b) in
  match na_send first i with
  | (success, None) => ((success, None), b)
  | _ =>
      let (j, b) := udp_initSequence userLimit order (na_now second) bufferId (Some i) (na_before second b) in
      (na_send second j, b)
  end.

(** ** Histories of a buffer *)
Inductive nb_label :=
| NbUdp (now : Z) (bufferId : Id_) (skip : option positive)
| NbTcp (now : Z) (bufferId : Id_) (syn rst : bool)
| NbActivity (now : Z) (i : positive)
| NbExit (i : positive)
| NbCleanup (i : positive)
| NbCancelAll.
Definition nb_step (userLimit : Z) (order : list positive → list positive) (l : nb_label) (b : NatBuffer)
    : option NatBuffer :=
  match l with
  | NbUdp now bufferId skip => Some (udp_initSequence userLimit order now bufferId skip b).2
  | NbTcp now bufferId syn rst => Some (tcp_initSequence userLimit order now bufferId syn rst b).2
  | NbActivity now i => Some (mkNatBuffer (nb_table b) (sourceSequences b) (<[i := now]> (nb_activity b)))
  | NbExit i => x ← tb_instances (nb_table b) !! i; Some (nb_set_table (tb_exit i (nb_table b)) b)
  | NbCleanup i =>
      x ← tb_instances (nb_table b) !! i;
      if (in_exited x && negb (in_cleaned x))%bool then Some (nb_cleanup i b) else None
  | NbCancelAll => Some (nb_set_table (tb_cancelAll (nb_table b)) b)
  end.
Fixpoint nb_steps (userLimit : Z) (order : list positive → list positive) (ls : list nb_label) (b : NatBuffer)
    : option NatBuffer :=
  match ls with [] => Some b | l :: ls => b ← nb_step userLimit order l b; nb_steps userLimit order ls b end.
End NatBuffer.
Arguments NatBuffer n : clear implicits.
Arguments nb_label n : clear implicits.

(** ** What holds in every history *)
Section NatProofs.
Context {n : nat} (userLimit : Z) (order : list positive → list positive).

(** Nothing is ever put into [sourceSequences]. *)
Record nb_inv (b : NatBuffer n) : Prop := {
  ni_table : tb_inv (nb_table b);
  ni_sources : sourceSequences b = ∅
}.
Lemma new_nb_inv : nb_inv (newNatBuffer (n := n)).
Proof. split; [apply new_table_inv|done]. Qed.
Lemma forget_source_empty (k : BufferId n) : forget_source k ∅ = ∅.
Proof. unfold forget_source. rewrite lookup_empty. cbn [default]. rewrite delete_empty. by rewrite bool_decide_true by done. Qed.
Lemma nb_limit_none source (b : NatBuffer n) : sourceSequences b = ∅ → nb_limit userLimit order source b = b.
Proof.
  intros E. unfold nb_limit. rewrite E, lookup_empty. cbn [default]. rewrite map_size_empty.
  destruct (Z.ltb_spec 0 userLimit); [|done]. by destruct (Z.ltb_spec userLimit (Z.of_nat 0)); [lia|].
Qed.
(** The tables are those of a send buffer. *)
Lemma nb_remove_create (k : BufferId n) i t : (tb_create k (tb_remove k (tb_cancel i t))).2 = (tb_create k (tb_cancel i t)).2.
Proof. unfold tb_create, tb_remove. simpl. by rewrite insert_delete_eq. Qed.
Lemma udp_init_table now k skip (b : NatBuffer n) :
  nb_inv b →
  let r := udp_initSequence userLimit order now k skip b in
  r.1 = (tb_init k skip (nb_table b)).1 ∧ nb_table r.2 = (tb_init k skip (nb_table b)).2 ∧ sourceSequences r.2 = ∅.
Proof.
  intros [_ Es]. unfold udp_initSequence, tb_init.
  destruct (tb_sequences (nb_table b) !! k) as [i|]; [case_bool_decide; [done|]|].
  - unfold nb_remove. rewrite Es, forget_source_empty, nb_limit_none by done. simpl.
    split_and!; [done|by apply nb_remove_create|done].
  - by rewrite nb_limit_none.
Qed.
Lemma nb_remove_inv (k : BufferId n) i b :
  nb_inv b → tb_sequences (nb_table b) !! k = Some i → nb_inv (nb_remove k i b).
Proof.
  intros [Ht Es] Hk. split; simpl; [|by rewrite Es, forget_source_empty].
  apply tb_remove_inv; [|by apply tb_cancel_inv]. intros j x Hj Hx. simpl in Hj.
  assert (j = i) as -> by congruence. by eapply tb_cancelled.
Qed.
Lemma nb_step_inv l (b b' : NatBuffer n) : nb_inv b → nb_step userLimit order l b = Some b' → nb_inv b'.
Proof.
  intros Hb. pose proof Hb as [Ht Es]. destruct l as [now k skip|now k syn rst|now i|i|i|]; simpl.
  - intros [= <-]. destruct (udp_init_table now k skip b Hb) as (_ & E & ?). split; [|done]. rewrite E. by apply tb_init_inv.
  - intros [= <-]. unfold tcp_initSequence. destruct (tb_sequences (nb_table b) !! k) as [i|] eqn:Ek.
    + destruct rst; [by apply nb_remove_inv|done].
    + destruct syn; [|done]. cbn [negb]. rewrite nb_limit_none by done. split; [|done]. simpl.
      apply (tb_create_inv k); [done|]. intros. congruence.
  - by intros [= <-].
  - destruct (tb_instances _ !! i); simpl; [|done]. intros [= <-]. split; [by apply tb_exit_inv|done].
  - destruct (tb_instances _ !! i) eqn:Ei; simpl; [|done]. destruct (_ && _)%bool; [|done]. intros [= <-].
    unfold nb_cleanup. rewrite Ei. split; [by apply tb_cleanup_inv|]. simpl. rewrite Es.
    case_bool_decide; [apply forget_source_empty|done].
  - intros [= <-]. split; [by apply tb_cancelAll_inv|done].
Qed.
Lemma nb_steps_inv ls (b b' : NatBuffer n) : nb_inv b → nb_steps userLimit order ls b = Some b' → nb_inv b'.
Proof.
  revert b. induction ls as [|l ls IH]; intros b Hb; simpl; [by intros [= <-]|].
  destruct (nb_step userLimit order l b) as [b1|] eqn:E; simpl; [|done]. apply IH. by eapply nb_step_inv.
Qed.
Lemma tb_init_other (k : BufferId n) skip t j x :
  tb_inv t → tb_instances t !! j = Some x → in_key x ≠ k → tb_instances (tb_init k skip t).2 !! j = Some x.
Proof.
  intros Ht Hj Hx. pose proof (ti_next _ Ht j ltac:(by eexists)) as Hn.
  unfold tb_init. destruct (tb_sequences t !! k) as [i|] eqn:Ek; [case_bool_decide; [done|]|]; simpl.
  - rewrite lookup_insert_ne by lia. rewrite lookup_alter_ne; [done|]. intros ->.
    destruct (ti_entry _ Ht k j Ek) as (y & Hy & ? & _). congruence.
  - by rewrite lookup_insert_ne by lia.
Qed.
(** The sequence of a TCP packet. *)
Lemma tcp_init_result now k syn rst (b : NatBuffer n) :
  nb_inv b →
  let '((o, returned), b') := tcp_initSequence userLimit order now k syn rst b in
  (is_Some o ↔ match tb_sequences (nb_table b) !! k with Some _ => rst = false | None => syn = true end) ∧
  (returned = true ↔ tb_sequences (nb_table b) !! k = None ∧ syn = false) ∧
  (∀ j x, tb_instances (nb_table b) !! j = Some x → in_key x ≠ k → tb_instances (nb_table b') !! j = Some x) ∧
  (rst = true → ∀ i x, tb_sequences (nb_table b) !! k = Some i → tb_instances (nb_table b') !! i = Some x → in_cancelled x = true).
Proof.
  intros [Ht Es]. unfold tcp_initSequence. destruct (tb_sequences (nb_table b) !! k) as [i|] eqn:Ek.
  - destruct rst.
    + split_and!; [split; [by intros [? ?]|done]|naive_solver| |].
      * intros j x Hj Hx. simpl. rewrite lookup_alter_ne; [done|]. intros ->.
        destruct (ti_entry _ Ht k j Ek) as (y & Hy & ? & _). congruence.
      * intros _ i' x [= <-] Hx. by apply (tb_cancelled i (nb_table b)).
    + split_and!; try done; naive_solver.
  - destruct syn; cbn [negb].
    + rewrite nb_limit_none by done. simpl. split_and!; try done; [naive_solver|].
      intros j x Hj Hx. pose proof (ti_next _ Ht j ltac:(by eexists)). by rewrite lookup_insert_ne by lia.
    + by split_and!.
Qed.

(** The tables of the user NAT, in every history of packets, cancels, ends
    and clean ups of a buffer: at most one sequence of each flow is not
    cancelled, and the second try of a UDP packet never gets the sequence that
    failed; a packet of one flow leaves the sequences of the others as they are;
    a TCP packet gets a sequence exactly if its flow has one and it is no RST,
    or if it is a SYN of a new flow, its buffer is given back exactly when it is
    neither, and a RST cancels the sequence of its flow; once all sequences are
    cleaned up the tables are empty. *)
Theorem user_nat_tables (ls : list (nb_label n)) (b : NatBuffer n) :
  nb_steps userLimit order ls newNatBuffer = Some b →
  (∀ i j x y, tb_instances (nb_table b) !! i = Some x → tb_instances (nb_table b) !! j = Some y →
    in_cancelled x = false → in_cancelled y = false → in_key x = in_key y → i = j) ∧
  (∀ now k i, is_Some (tb_instances (nb_table b) !! i) →
    (udp_initSequence userLimit order now k (Some i) b).1 ≠ i) ∧
  (∀ now k skip j x, tb_instances (nb_table b) !! j = Some x → in_key x ≠ k →
    tb_instances (nb_table (udp_initSequence userLimit order now k skip b).2) !! j = Some x) ∧
  (∀ now k syn rst,
    let '((o, returned), b') := tcp_initSequence userLimit order now k syn rst b in
    (is_Some o ↔ match tb_sequences (nb_table b) !! k with Some _ => rst = false | None => syn = true end) ∧
    (returned = true ↔ tb_sequences (nb_table b) !! k = None ∧ syn = false) ∧
    (∀ j x, tb_instances (nb_table b) !! j = Some x → in_key x ≠ k → tb_instances (nb_table b') !! j = Some x) ∧
    (rst = true → ∀ i x, tb_sequences (nb_table b) !! k = Some i → tb_instances (nb_table b') !! i = Some x →
       in_cancelled x = true)) ∧
  ((∀ i x, tb_instances (nb_table b) !! i = Some x → in_cleaned x = true) →
    tb_sequences (nb_table b) = ∅ ∧ sourceSequences b = ∅).
Proof.
  intros E. pose proof (nb_steps_inv _ _ _ new_nb_inv E) as Hb. pose proof Hb as [Ht Es].
  split_and!; [|intros now k i|intros now k skip j x Hj Hx|intros now k syn rst|].
  - intros i j x y. by apply tb_one_open.
  - destruct (udp_init_table now k (Some i) b Hb) as (-> & _). by apply tb_init_skip.
  - destruct (udp_init_table now k skip b Hb) as (_ & -> & _). by apply tb_init_other.
  - by apply tcp_init_result.
  - intros Hc. split; [by apply tb_all_cleaned|done].
Qed.

(** Every sequence of the table is open. *)
Definition all_open (b : NatBuffer n) : Prop :=
  ∀ k i, tb_sequences (nb_table b) !! k = Some i → ∃ x, tb_instances (nb_table b) !! i = Some x ∧ in_cancelled x = false.
Lemma udp_open_one now k (b : NatBuffer n) :
  nb_inv b → all_open b →
  let b' := (udp_initSequence userLimit order now k None b).2 in
  nb_inv b' ∧ all_open b' ∧ is_Some (tb_sequences (nb_table b') !! k) ∧
  ∀ k', is_Some (tb_sequences (nb_table b) !! k') → is_Some (tb_sequences (nb_table b') !! k').
Proof.
  intros Hb Ho b'. assert (nb_inv b') as Hb' by (by apply (nb_step_inv (NbUdp now k None) b)).
  split; [done|]. destruct (udp_init_table now k None b Hb) as (_ & Et & _). fold b' in Et. unfold tb_init in Et.
  unfold all_open. rewrite Et. destruct (tb_sequences (nb_table b) !! k) eqn:Ek; simpl.
  { split_and!; [done|by rewrite Ek|done]. }
  split_and!.
  - intros k' i [[<- <-]|[Hk Hi]]%lookup_insert_Some; [rewrite lookup_insert_eq; by eexists|].
    destruct (Ho _ _ Hi) as (x & Hx & ?). exists x. split; [|done]. rewrite lookup_insert_ne; [done|].
    pose proof (ti_next _ (ni_table _ Hb) i ltac:(by eexists)). lia.
  - by rewrite lookup_insert_eq.
  - intros k' Hk. rewrite lookup_insert. by case_decide.
Qed.
Lemma udp_open_all now flows (b : NatBuffer n) :
  nb_inv b → all_open b →
  ∃ b', nb_steps userLimit order (map (λ k, NbUdp now k None) flows) b = Some b' ∧ nb_inv b' ∧ all_open b' ∧
    (∀ k, k ∈ flows → is_Some (tb_sequences (nb_table b') !! k)) ∧
    (∀ k, is_Some (tb_sequences (nb_table b) !! k) → is_Some (tb_sequences (nb_table b') !! k)).
Proof.
  revert b. induction flows as [|k flows IH]; intros b Hb Ho; [exists b; split_and!; [done..|set_solver|done]|].
  destruct (udp_open_one now k b Hb Ho) as (H1 & H2 & H3 & H4).
  destruct (IH _ H1 H2) as (b' & E & H5 & H6 & H7 & H8).
  exists b'. split_and!; [exact E|done|done| |auto]. intros k' [->|?]%elem_of_cons; auto.
Qed.

(** The limit of sockets of a user never applies: whatever it is, any number of
    flows of one source are open at once. *)
Theorem user_limit_not_enforced (now : Z) (flows : list (BufferId n)) :
  ∃ b, nb_steps userLimit order (map (λ k, NbUdp now k None) flows) newNatBuffer = Some b ∧
    ∀ k, k ∈ flows → ∃ i x, tb_sequences (nb_table b) !! k = Some i ∧
      tb_instances (nb_table b) !! i = Some x ∧ in_key x = k ∧ in_cancelled x = false.
Proof.
  destruct (udp_open_all now flows newNatBuffer new_nb_inv) as (b & E & Hb & Ho & Hk & _); [done|].
  exists b. split; [done|]. intros k [i Hi]%Hk. destruct (Ho _ _ Hi) as (x & Hx & Hc). exists i, x.
  destruct (ti_entry _ (ni_table _ Hb) k i Hi) as (y & Hy & Ek & _). split_and!; congruence.
Qed.
End NatProofs.

(** ** Concrete histories *)
Module UserNatExample.
Import IpExample TcpExample.
(** Three sockets that were active at 30, 10 and 20, one over the limit. *)
Definition ex_activity (r : nat) : Z := nth r [30; 10; 20]%Z 0%Z.
Lemma lru_user_limit_witness :
  NoDup [0; 1; 2] ∧ applyLruUserLimit ex_activity [0; 1; 2] 2 (λ _, true) = [1] ∧
  length (applyLruUserLimit ex_activity [0; 1; 2] 2 (λ _, true)) = 1.
Proof.
  assert (NoDup [0; 1; 2]) as Hnd by (by apply (bool_decide_unpack _); vm_compute).
  split; [done|]. split; [by vm_compute|].
  by destruct (lru_user_limit ex_activity [0; 1; 2] 2 (λ _, true) Hnd) as (-> & _).
Defined.

Definition ex_client : TransferPath := SourceId (to_array 16 (bytes [1]%Z)).
Definition ex_buffer (port : Z) : BufferId 4 :=
  mkBufferId ex_client (to_array 4 (bytes [10; 0; 0; 1]%Z)) port (to_array 4 (bytes [93; 184; 216; 34]%Z)) 443.
(** A UDP flow whose sequence ends and is replaced by a retry before its clean
    up, and a second flow. *)
Definition ex_nat : list (nb_label 4) :=
  [NbUdp 1 (ex_buffer 5000) None; NbUdp 2 (ex_buffer 5001) None; NbExit 1; NbUdp 3 (ex_buffer 5000) (Some 1%positive);
   NbCleanup 1].
Definition ex_nat_end : NatBuffer 4 := default newNatBuffer (nb_steps 1 id ex_nat newNatBuffer).
Lemma ex_nat_runs : nb_steps 1 id ex_nat newNatBuffer = Some ex_nat_end.
Proof.
  assert (match nb_steps 1 id ex_nat newNatBuffer with Some _ => true | None => false end = true) as E by (by vm_compute).
  unfold ex_nat_end. by destruct (nb_steps 1 id ex_nat newNatBuffer).
Qed.
Lemma user_nat_tables_witness :
  nb_steps 1 id ex_nat newNatBuffer = Some ex_nat_end ∧
  tb_sequences (nb_table ex_nat_end) !! ex_buffer 5000 = Some 3%positive ∧
  ∀ i j x y, tb_instances (nb_table ex_nat_end) !! i = Some x → tb_instances (nb_table ex_nat_end) !! j = Some y →
    in_cancelled x = false → in_cancelled y = false → in_key x = in_key y → i = j.
Proof.
  split; [apply ex_nat_runs|]. split; [by vm_compute|]. exact (proj1 (user_nat_tables 1 id ex_nat ex_nat_end ex_nat_runs)).
Defined.
(** A packet of no bytes ends the NAT; one of another version is not given back. *)
Example nat_empty_packet :
  nat_dispatch ex_client [] = Panic "index out of range" ∧ nat_dispatch ex_client (bytes [16]%Z) = Val NatForget.
Proof. by vm_compute. Qed.
End UserNatExample.
