(* ===== verification/StreamManager.v ===== *)
(** * Streams: StreamManager, StreamBuffer and StreamSequence of transfer_stream_manager.go

    The control of a client opens and closes streams. An open stream has a
    sequence, which is found by its id with its ends, and by the id of the stream
    alone: a stream with other ends replaces the one before. The table by ids and
    ends is that of Buffers.v; a step is what is done under the mutex. *)

From stdpp Require Import gmap.
From S2P Require Import Prelude Ids Util Contracts Frames Buffers.
Open Scope go_scope.

(** ** Control messages *)
(** [StreamOpen] and [StreamClose] of the protocol. *)
Record StreamOpen := mkStreamOpen {
  so_SourceId : option (list byte);
  so_DestinationId : option (list byte);
  so_StreamId : list byte
}.
Record StreamClose := mkStreamClose { sc_StreamId : list byte }.
(** The bodies of messages, for this component. *)
Inductive ControlBody := StreamOpenBody (m : StreamOpen) | StreamCloseBody (m : StreamClose) | OtherBody (b : list byte).

Inductive StreamCall :=
| OpenCall (sourceId destinationId : option Id) (streamId : Id)
| CloseCall (streamId : Id).
Definition optional_id (b : option (list byte)) : outcome (option Id) :=
  match b with Some b => let! id := IdFromBytes b in Val (Some id) | None => Val None end.
Section Control.
Context `{codec : FrameCodec ControlBody}.
(** [handleControlFrame]: the call on the buffer, if any; its error is ignored. *)
Definition handleControlFrame (frame : Frame) : outcome (option StreamCall) :=
  match FromFrame frame with
  | Val (MKnown KStreamOpen (StreamOpenBody v)) =>
      let! sourceId := optional_id (so_SourceId v) in
      let! destinationId := optional_id (so_DestinationId v) in
      let! streamId := IdFromBytes (so_StreamId v) in
      Val (Some (OpenCall sourceId destinationId streamId))
  | Val (MKnown KStreamClose (StreamCloseBody v)) =>
      let! streamId := IdFromBytes (sc_StreamId v) in Val (Some (CloseCall streamId))
  | _ => Val None
  end.
Definition stream_Receive (source : TransferPath) (frames : list Frame) : list StreamCall :=
  if IsControlSource source then
    omap (λ frame, match handleControlFrame frame with Val o => o | _ => None end) frames
  else [].
End Control.

(** ** The buffer *)
Record streamSequenceId := mkStreamSequenceId {
  ssi_SourceId : option Id;
  ssi_DestinationId : option Id;
  ssi_StreamId : Id
}.
#[export] Instance streamSequenceId_eq_dec : EqDecision streamSequenceId.
Proof. solve_decision. Defined.
#[export] Program Instance streamSequenceId_countable : Countable streamSequenceId :=
  inj_countable' (λ s, (ssi_SourceId s, ssi_DestinationId s, ssi_StreamId s))
    (λ '(s, d, i), mkStreamSequenceId s d i) _.
Next Obligation. by intros []. Qed.

Record StreamBuffer := mkStreamBuffer {
  sm_table : Table streamSequenceId;
  streamSequencesByStreamId : gmap Id positive
}.
Definition NewStreamBuffer : StreamBuffer := mkStreamBuffer NewTable ∅.
Definition sm_set_table (t : Table streamSequenceId) (b : StreamBuffer) : StreamBuffer :=
  mkStreamBuffer t (streamSequencesByStreamId b).
Definition sm_create (key : streamSequenceId) (b : StreamBuffer) : positive * StreamBuffer :=
  let t := match streamSequencesByStreamId b !! ssi_StreamId key with
           | Some j => tb_cancel j (sm_table b)
           | None => sm_table b
           end in
  let (i, t) := tb_create key t in
  (i, mkStreamBuffer t (<[ssi_StreamId key := i]> (streamSequencesByStreamId b))).
(** [initStreamSequence] *)
Definition initStreamSequence (key : streamSequenceId) (skip : option positive) (b : StreamBuffer)
    : positive * StreamBuffer :=
  match tb_sequences (sm_table b) !! key with
  | Some i =>
      if bool_decide (skip = None ∨ skip ≠ Some i) then (i, b)
      else sm_create key (sm_set_table (tb_remove key (tb_cancel i (sm_table b))) b)
  | None => sm_create key b
  end.
(** The deferred function of the goroutine. *)
Definition sm_cleanup (i : positive) (b : StreamBuffer) : StreamBuffer :=
  match tb_instances (sm_table b) !! i with
  | Some x =>
      mkStreamBuffer (tb_cleanup i (sm_table b))
        (if bool_decide (streamSequencesByStreamId b !! ssi_StreamId (in_key x) = Some i)
         then delete (ssi_StreamId (in_key x)) (streamSequencesByStreamId b) else streamSequencesByStreamId b)
  | None => b
  end.
(** [CloseStream] cancels the sequence, which leaves the tables when it is
    cleaned up. *)
Definition CloseStream (streamId : Id) (b : StreamBuffer) : StreamBuffer :=
  match streamSequencesByStreamId b !! streamId with
  | Some i => sm_set_table (tb_cancel i (sm_table b)) b
  | None => b
  end.
Definition IsStreamOpen (streamId : Id) (b : StreamBuffer) : bool :=
  match streamSequencesByStreamId b !! streamId with Some _ => true | None => false end.

(** [StreamSequence.Open], with the idle condition of the sequence. *)
Definition StreamSequence_Open (cancelled : bool) (idle : IdleCondition) : (bool * option string) * IdleCondition :=
  if cancelled then ((false, Some "Done."%string), idle)
  else let (open, idle) := UpdateOpen idle in
       if negb open then ((false, Some "Done."%string), idle) else ((true, None), UpdateClose idle).
(** [OpenStream]: two tries, the second with another sequence. What happens
    around them is given. *)
Record open_env := mkOpenEnv {
  oe_done : bool;
  oe_before : StreamBuffer → StreamBuffer;
  oe_open : positive → bool * option string
}.
Fixpoint open_tries (key : streamSequenceId) (skip : option positive) (last : bool * option string)
    (envs : list open_env) (b : StreamBuffer) : (bool * option string) * StreamBuffer :=
  match envs with
  | [] => (last, b)
  | e :: envs =>
      let b := oe_before e b in
      if oe_done e then ((false, Some "Done."%string), b) else
      let (i, b) := initStreamSequence key skip b in
      match oe_open e i with
      | (success, None) => ((success, None), b)
      | r => open_tries key (Some i) r envs b
      end
  end.
Definition OpenStream (sourceId destinationId : option Id) (streamId : Id) (first second : open_env) (b : StreamBuffer)
    : (bool * option string) * StreamBuffer :=
  open_tries (mkStreamSequenceId sourceId destinationId streamId) None (false, None) [first; second] b.

Inductive sm_label :=
| SmInit (key : streamSequenceId) (skip : option positive)
| SmClose (streamId : Id)
| SmExit (i : positive)
| SmCleanup (i : positive).
Definition sm_step (l : sm_label) (b : StreamBuffer) : option StreamBuffer :=
  match l with
  | SmInit key skip => Some (initStreamSequence key skip b).2
  | SmClose streamId => Some (CloseStream streamId b)
  | SmExit i => x ← tb_instances (sm_table b) !! i; Some (sm_set_table (tb_exit i (sm_table b)) b)
  | SmCleanup i =>
      x ← tb_instances (sm_table b) !! i;
      if (in_exited x && negb (in_cleaned x))%bool then Some (sm_cleanup i b) else None
  end.
Fixpoint sm_steps (ls : list sm_label) (b : StreamBuffer) : option StreamBuffer :=
  match ls with [] => Some b | l :: ls => b ← sm_step l b; sm_steps ls b end.

(** ** The sequence of a stream *)
Inductive PeerType := PeerTypeSource | PeerTypeDestination.
(** The route managers of a sequence. *)
Inductive stream_routes := ClientRoutes | ToDestinationRoutes | ToSourceRoutes.
Record P2pTransport := mkP2pTransport {
  p2p_sendRoutes : stream_routes;
  p2p_receiveRoutes : stream_routes;
  p2p_peerId : Id;
  p2p_peerType : PeerType
}.
(** The transports that [StreamSequence.Run] starts. *)
Definition stream_transports (key : streamSequenceId) : list P2pTransport :=
  match ssi_SourceId key, ssi_DestinationId key with
  | Some s, None => [mkP2pTransport ClientRoutes ClientRoutes s PeerTypeSource]
  | None, Some d => [mkP2pTransport ClientRoutes ClientRoutes d PeerTypeDestination]
  | None, None => []
  | Some s, Some d =>
      [mkP2pTransport ToDestinationRoutes ToSourceRoutes d PeerTypeDestination;
       mkP2pTransport ToSourceRoutes ToDestinationRoutes s PeerTypeSource]
  end.
(** The goroutine [forward] of an intermediary: at its first select, which has
    no default and leads nowhere but to the return, at its read, at its write, returned. *)
Inductive forward_pc := FwSelect | FwRead (checkpointId : Z) | FwWrite (transferFrameBytes : list byte) | FwExit.
Record forwarder := mkForwarder {
  fw_pc : forward_pc;
  fw_cancelled : bool;
  fw_idle : IdleCondition;
  fw_read : list (list byte);
  fw_written : list (list byte)
}.
Definition fw_set (pc : forward_pc) (w : forwarder) : forwarder :=
  mkForwarder pc (fw_cancelled w) (fw_idle w) (fw_read w) (fw_written w).
Inductive forward_label :=
| FwDone                                   (** the context is done *)
| FwSelectDone
| FwReadFrame (transferFrameBytes : list byte)
| FwReadIdle
| FwReadError
| FwWriteFrame (success err : bool).
Definition forward_step (l : forward_label) (w : forwarder) : option forwarder :=
  match l, fw_pc w with
  | FwDone, _ => Some (mkForwarder (fw_pc w) true (fw_idle w) (fw_read w) (fw_written w))
  | FwSelectDone, FwSelect => if fw_cancelled w then Some (fw_set FwExit w) else None
  | FwReadFrame b, FwRead _ =>
      Some (mkForwarder (FwWrite b) (fw_cancelled w) (fw_idle w) (fw_read w ++ [b]) (fw_written w))
  | FwReadIdle, FwRead c =>
      let (closed, idle) := Idle_Close c (fw_idle w) in
      Some (mkForwarder (if (closed : bool) then FwExit else FwSelect) (fw_cancelled w) idle (fw_read w) (fw_written w))
  | FwReadError, FwRead _ => Some (fw_set (FwWrite []) w)
  | FwWriteFrame success err, FwWrite b =>
      Some (mkForwarder (if (err : bool) then FwExit else FwSelect) (fw_cancelled w) (fw_idle w) (fw_read w)
              (if (success : bool) then fw_written w ++ [b] else fw_written w))
  | _, _ => None
  end.
Fixpoint forward_steps (ls : list forward_label) (w : forwarder) : option forwarder :=
  match ls with [] => Some w | l :: ls => w ← forward_step l w; forward_steps ls w end.
Definition new_forwarder : forwarder := mkForwarder FwSelect false NewIdleCondition [] [].

(** ** What holds in every history *)
Record sm_inv (b : StreamBuffer) : Prop := {
  mi_table : tb_inv (sm_table b);
  mi_by s i : streamSequencesByStreamId b !! s = Some i →
    ∃ x, tb_instances (sm_table b) !! i = Some x ∧ ssi_StreamId (in_key x) = s ∧ in_cleaned x = false;
  mi_open i x : tb_instances (sm_table b) !! i = Some x → in_cancelled x = false →
    streamSequencesByStreamId b !! ssi_StreamId (in_key x) = Some i
}.
Lemma new_sm_inv : sm_inv NewStreamBuffer.
Proof. split; simpl; [apply new_table_inv|intros s i; by rewrite lookup_empty|intros i x; by rewrite lookup_empty]. Qed.
(** Steps of the table that forget nothing, open nothing and clean nothing. *)
Definition tb_only_cancels (t t' : Table streamSequenceId) : Prop :=
  ∀ i x', tb_instances t' !! i = Some x' → ∃ x, tb_instances t !! i = Some x ∧ in_key x' = in_key x ∧
    (in_cancelled x' = false → in_cancelled x = false).
Lemma sm_set_table_inv t b :
  sm_inv b → tb_inv t → tb_keeps (sm_table b) t → tb_only_cancels (sm_table b) t → sm_inv (sm_set_table t b).
Proof.
  intros [H1 H2 H3] Ht Hk Ho. split; [done|..]; simpl.
  - intros s i Hs. destruct (H2 s i Hs) as (x & Hx & Es & Hc). destruct (Hk i x Hx) as (y & Hy & Ek & Ec & _).
    exists y. split_and!; [done|congruence|congruence].
  - intros i x Hx Hc. destruct (Ho i x Hx) as (y & Hy & Ek & Hyc). rewrite Ek. apply (H3 i y); auto.
Qed.
Lemma tb_update_only f i t :
  (∀ x, in_key (f x) = in_key x ∧ in_cancelled (f x) = true) → tb_only_cancels t (tb_update f i t).
Proof.
  intros Hf j x'. simpl. rewrite lookup_alter. case_decide; [subst|intros Hx; by exists x'].
  destruct (tb_instances t !! j) as [x|]; [|done]. intros [= <-]. exists x. destruct (Hf x) as [-> ->]. by split_and!.
Qed.
Lemma sm_cancel_inv i b : sm_inv b → sm_inv (sm_set_table (tb_cancel i (sm_table b)) b).
Proof.
  intros Hb. apply sm_set_table_inv; [done|apply tb_cancel_inv, Hb|by apply tb_update_keeps|by apply tb_update_only].
Qed.
Lemma sm_remove_inv key i b :
  sm_inv b → tb_sequences (sm_table b) !! key = Some i →
  sm_inv (sm_set_table (tb_remove key (tb_cancel i (sm_table b))) b).
Proof.
  intros Hb Hk. apply sm_set_table_inv; [done| | |].
  - apply tb_remove_inv; [|apply tb_cancel_inv, Hb]. intros j x Hj Hx. simpl in Hj.
    assert (j = i) as -> by congruence. by eapply tb_cancelled.
  - by apply (tb_update_keeps in_cancel i (sm_table b)).
  - by apply (tb_update_only in_cancel i (sm_table b)).
Qed.
Lemma sm_create_inv key b : sm_inv b → tb_sequences (sm_table b) !! key = None → sm_inv (sm_create key b).2.
Proof.
  intros Hb Hn. unfold sm_create.
  set (t := match streamSequencesByStreamId b !! ssi_StreamId key with
            | Some j => tb_cancel j (sm_table b) | None => sm_table b end).
  assert (sm_inv (sm_set_table t b) ∧ tb_sequences t = tb_sequences (sm_table b) ∧
    (∀ i x, tb_instances t !! i = Some x → ssi_StreamId (in_key x) = ssi_StreamId key → in_cancelled x = true)) as (Ht & Es & Hc).
  { unfold t. destruct (streamSequencesByStreamId b !! ssi_StreamId key) as [j|] eqn:Ej.
    - split; [by apply sm_cancel_inv|]. split; [done|]. intros i x Hx Ek.
      destruct (in_cancelled x) eqn:Ec; [done|].
      pose proof (mi_open _ (sm_cancel_inv j b Hb) i x Hx Ec) as Hi. simpl in Hi. rewrite Ek, Ej in Hi.
      injection Hi as ->. by rewrite (tb_cancelled _ _ _ Hx) in Ec.
    - split; [by destruct b|]. split; [done|]. intros i x Hx Ek. destruct (in_cancelled x) eqn:Ec; [done|].
      pose proof (mi_open _ Hb i x Hx Ec) as Hi. rewrite Ek, Ej in Hi. done. }
  destruct Ht as [H1 H2 H3]. simpl in H1, H2, H3. split; simpl.
  - apply (tb_create_inv key); [done|]. rewrite Es. intros i x. by rewrite Hn.
  - intros s i [[<- <-]|[Hs Hi]]%lookup_insert_Some; [rewrite lookup_insert_eq; by eexists|].
    destruct (H2 s i Hi) as (x & Hx & ?). exists x. split; [|done]. rewrite lookup_insert_ne; [done|].
    pose proof (ti_next _ H1 i ltac:(by eexists)). lia.
  - intros i x [[<- <-]|[Hi Hx]]%lookup_insert_Some Hxc; [apply lookup_insert_eq|].
    rewrite lookup_insert_ne; [by apply H3|]. intros E. symmetry in E. by rewrite (Hc i x Hx E) in Hxc.
Qed.
Lemma sm_init_inv key skip b : sm_inv b → sm_inv (initStreamSequence key skip b).2.
Proof.
  intros Hb. unfold initStreamSequence. destruct (tb_sequences (sm_table b) !! key) as [i|] eqn:Ek.
  - case_bool_decide; [done|]. apply sm_create_inv; [by apply sm_remove_inv|]. simpl. apply lookup_delete_eq.
  - by apply sm_create_inv.
Qed.
Lemma sm_cleanup_inv i b : sm_inv b → sm_inv (sm_cleanup i b).
Proof.
  intros [H1 H2 H3]. unfold sm_cleanup. destruct (tb_instances (sm_table b) !! i) as [x|] eqn:Ex; [|done].
  split; simpl; [by apply tb_cleanup_inv|..]; rewrite tb_cleanup_instances.
  - intros s j Hj. assert (streamSequencesByStreamId b !! s = Some j ∧ j ≠ i) as [Hs Hne].
    { case_bool_decide as E.
      - apply lookup_delete_Some in Hj as [Hs Hj]. split; [done|]. intros ->.
        destruct (H2 s i Hj) as (y & Hy & Ey & _). congruence.
      - split; [done|]. intros ->. destruct (H2 s i Hj) as (y & Hy & Ey & _). congruence. }
    destruct (H2 s j Hs) as (y & Hy & ?). exists y. by rewrite lookup_alter_ne.
  - intros j y Hy Hc. rewrite lookup_alter in Hy. case_decide; subst; [rewrite Ex in Hy; by injection Hy as <-|].
    pose proof (H3 j y Hy Hc) as Hj. case_bool_decide as E; [|done]. apply lookup_delete_Some. split; [|done].
    intros Es. congruence.
Qed.
Lemma sm_steps_inv ls b b' : sm_inv b → sm_steps ls b = Some b' → sm_inv b'.
Proof.
  revert b. induction ls as [|l ls IH]; intros b Hb; simpl; [by intros [= <-]|].
  destruct (sm_step l b) as [b1|] eqn:E; simpl; [|done]. apply IH. destruct l as [key skip|s|i|i]; simpl in E.
  - injection E as <-. by apply sm_init_inv.
  - injection E as <-. unfold CloseStream. destruct (streamSequencesByStreamId b !! s); [by apply sm_cancel_inv|done].
  - destruct (tb_instances _ !! i); simpl in E; [|done]. injection E as <-.
    apply sm_set_table_inv; [done|apply tb_exit_inv, Hb|by apply tb_update_keeps|by apply tb_update_only].
  - destruct (tb_instances _ !! i); simpl in E; [|done]. destruct (_ && _)%bool; [|done]. injection E as <-.
    by apply sm_cleanup_inv.
Qed.

(** The tables of streams, in every history of opens, retries, closes, ends
    and clean ups: a stream has at most one sequence that is not cancelled, so
    that one with other ends replaces the one before; the retry of an open never
    gets the sequence that failed; after a close every sequence of the stream is
    cancelled; a stream that is open has a sequence that is not cleaned up; and once all sequences are cleaned up both tables
    are empty. *)
Theorem stream_buffer_tables (ls : list sm_label) (b : StreamBuffer) :
  sm_steps ls NewStreamBuffer = Some b →
  (∀ i j x y, tb_instances (sm_table b) !! i = Some x → tb_instances (sm_table b) !! j = Some y →
    in_cancelled x = false → in_cancelled y = false →
    ssi_StreamId (in_key x) = ssi_StreamId (in_key y) → i = j) ∧
  (∀ key i, is_Some (tb_instances (sm_table b) !! i) → (initStreamSequence key (Some i) b).1 ≠ i) ∧
  (∀ s i x, tb_instances (sm_table (CloseStream s b)) !! i = Some x → ssi_StreamId (in_key x) = s →
    in_cancelled x = true) ∧
  (∀ s, IsStreamOpen s b = true → ∃ i x, tb_instances (sm_table b) !! i = Some x ∧ ssi_StreamId (in_key x) = s ∧
    in_cleaned x = false) ∧
  ((∀ i x, tb_instances (sm_table b) !! i = Some x → in_cleaned x = true) →
    tb_sequences (sm_table b) = ∅ ∧ streamSequencesByStreamId b = ∅).
Proof.
  intros E. pose proof (sm_steps_inv _ _ _ new_sm_inv E) as Hb. pose proof Hb as [H1 H2 H3]. split_and!.
  - intros i j x y Hx Hy Hcx Hcy Es. pose proof (H3 i x Hx Hcx). pose proof (H3 j y Hy Hcy). congruence.
  - intros key i Hi. pose proof (ti_next _ H1 i Hi). unfold initStreamSequence, sm_create.
    destruct (tb_sequences (sm_table b) !! key) as [j|]; [case_bool_decide as Ed|]; simpl; try case_match; simpl; try lia.
    all: destruct Ed as [?|Ed]; [done|congruence].
  - intros s i x Hx Es. destruct (in_cancelled x) eqn:Ec; [done|]. unfold CloseStream in Hx.
    destruct (streamSequencesByStreamId b !! s) as [j|] eqn:Ej.
    + pose proof (mi_open _ (sm_cancel_inv j b Hb) i x Hx Ec) as Hi. simpl in Hi. rewrite Es, Ej in Hi.
      injection Hi as ->. by rewrite (tb_cancelled _ _ _ Hx) in Ec.
    + pose proof (H3 i x Hx Ec). congruence.
  - intros s. unfold IsStreamOpen. destruct (streamSequencesByStreamId b !! s) as [i|] eqn:Ei; [|done]. intros _.
    destruct (H2 s i Ei) as (x & ?). by exists i, x.
  - intros Hc. split; [by apply tb_all_cleaned|]. apply map_empty. intros s.
    destruct (streamSequencesByStreamId b !! s) as [i|] eqn:Ei; [|done].
    destruct (H2 s i Ei) as (x & Hx & _ & Hf). specialize (Hc i x Hx). congruence.
Qed.

(** An intermediary of a stream forwards nothing: its goroutines wait at their
    first select for the end of the context, and then return. *)
Theorem stream_forwards_nothing (ls : list forward_label) (w : forwarder) :
  forward_steps ls new_forwarder = Some w →
  fw_read w = [] ∧ fw_written w = [] ∧ (fw_pc w = FwSelect ∨ fw_pc w = FwExit).
Proof.
  assert (∀ w0, fw_read w0 = [] ∧ fw_written w0 = [] ∧ (fw_pc w0 = FwSelect ∨ fw_pc w0 = FwExit) →
    forward_steps ls w0 = Some w → fw_read w = [] ∧ fw_written w = [] ∧ (fw_pc w = FwSelect ∨ fw_pc w = FwExit)) as Hgen.
  { induction ls as [|l ls IH]; intros w0 H0; simpl; [by intros [= <-]|].
    destruct (forward_step l w0) as [w1|] eqn:E; simpl; [|done]. apply IH. revert E.
    destruct H0 as (H1 & H2 & [Hp|Hp]); unfold forward_step; rewrite Hp; destruct l; try done; try case_match; try done;
      intros [= <-]; simpl; auto. }
  apply Hgen. simpl. auto.
Qed.

(** ** A stream *)
Module StreamExample.
Definition ex_sid (n : Z) : Id := to_array 16 [byte_of n].
(** A stream from 1 to 2 is opened again from 3 to 2; the first sequence ends. *)
Definition ex_stream (source : Z) : streamSequenceId := mkStreamSequenceId (Some (ex_sid source)) (Some (ex_sid 2)) (ex_sid 9).
Definition ex_history : list sm_label :=
  [SmInit (ex_stream 1) None; SmInit (ex_stream 3) None; SmExit 1; SmCleanup 1].
Definition ex_buffer_end : StreamBuffer := default NewStreamBuffer (sm_steps ex_history NewStreamBuffer).
Lemma ex_history_runs : sm_steps ex_history NewStreamBuffer = Some ex_buffer_end.
Proof.
  assert (match sm_steps ex_history NewStreamBuffer with Some _ => true | None => false end = true) as E by (by vm_compute).
  unfold ex_buffer_end. by destruct (sm_steps ex_history NewStreamBuffer).
Qed.
Lemma stream_buffer_tables_witness :
  sm_steps ex_history NewStreamBuffer = Some ex_buffer_end ∧
  streamSequencesByStreamId ex_buffer_end !! ex_sid 9 = Some 2%positive ∧
  ∀ i j x y, tb_instances (sm_table ex_buffer_end) !! i = Some x → tb_instances (sm_table ex_buffer_end) !! j = Some y →
    in_cancelled x = false → in_cancelled y = false →
    ssi_StreamId (in_key x) = ssi_StreamId (in_key y) → i = j.
Proof.
  split; [exact ex_history_runs|]. split; [by vm_compute|].
  exact (proj1 (stream_buffer_tables ex_history ex_buffer_end ex_history_runs)).
Defined.
(** A stream that was closed is open until its sequence is cleaned up, and opening
    it again finds the sequence that was cancelled. *)
Example closed_still_open :
  IsStreamOpen (ex_sid 9) (CloseStream (ex_sid 9) ex_buffer_end) = true ∧
  (initStreamSequence (ex_stream 3) None (CloseStream (ex_sid 9) ex_buffer_end)).1 = 2%positive.
Proof. by vm_compute. Qed.
(** A stream without a source and a destination has no transports. *)
Example no_ends : stream_transports (mkStreamSequenceId None None (ex_sid 9)) = [].
Proof. done. Qed.
Lemma stream_forwards_nothing_witness :
  ∃ w, forward_steps [FwDone; FwSelectDone] new_forwarder = Some w ∧ fw_read w = [] ∧ fw_pc w = FwExit.
Proof.
  eexists. split; [reflexivity|].
  split; [exact (proj1 (stream_forwards_nothing [FwDone; FwSelectDone] _ eq_refl))|reflexivity].
Defined.
End StreamExample.
