(* ===== verification/Client.v ===== *)
(** * The client: Client of transfer.go

    What [Client.run] does with a frame that it reads from its routes, and what
    [Client.send...] does with a message: the routing decisions between the
    loopback, the buffers of sequences and the forward callbacks. *)

From S2P Require Import Prelude Ids RttWindow Contracts Wire ContractManager ReceiveSequence SendSequence.
Open Scope go_scope.

(** ** Receiving *)
Inductive ClientAction :=
| ClAudit (out : list AuditMessage)
| ClAck (destination : TransferPath) (ack : ProtoAck)
| ClPack (source : TransferPath) (sequenceId : Id) (p : ReceivePack)
| ClForward (path : TransferPath) (transferFrameBytes : list byte)
| ClPoolReturn (transferFrameBytes : list byte).

(** The handle of the method [self.receive]. *)
Definition client_receive_callback : positive := 1.

Section Client.
Context `{codec : TransferCodec}.
Variable clientId : Id.
Variable isStreamOpen : Id → bool.

(** [updatePeerAudit]: an audit that is complete at once. *)
Definition updatePeerAudit (now : time) (source : TransferPath) (callback : PeerAudit → PeerAudit)
    : ClientAction :=
  let (out, a) := audit_Update now callback (NewSequencePeerAudit source 0) in
  ClAudit (out ++ (audit_Complete a).1).

(** The ack and the pack of a frame, [None] when it is a bad message. *)
Definition frame_contents (tf : TransferFrame) : option (option ProtoAck * option Pack) :=
  match tf_Frame tf with
  | None => Some (tf_Ack tf, tf_Pack tf)
  | Some frame =>
      if (MessageType frame =? MessageType_TransferAck)%Z then
        match unmarshalAck (MessageBytes frame) with
        | Val ack => Some (Some ack, tf_Pack tf)
        | _ => None
        end
      else if (MessageType frame =? MessageType_TransferPack)%Z then
        match unmarshalPack (MessageBytes frame) with
        | Val pack => Some (tf_Ack tf, Some pack)
        | _ => None
        end
      else None
  end.

Definition handle_local (now : time) (source : TransferPath) (transferFrameBytes : list byte)
    : list ClientAction :=
  let bad := [updatePeerAudit now source (audit_badMessage (Z.of_nat (length transferFrameBytes)));
              ClPoolReturn transferFrameBytes] in
  match unmarshalTransferFrame transferFrameBytes with
  | Val tf =>
      match frame_contents tf with
      | None => bad
      | Some (ack, pack) =>
          match ack with
          | Some ack => [ClAck (Reverse source) ack; ClPoolReturn transferFrameBytes]
          | None => []
          end ++
          match pack with
          | Some pack =>
              match IdFromBytes (Pack_SequenceId pack) with
              | Val sequenceId =>
                  [ClPack source sequenceId
                     (mkReceivePack pack client_receive_callback (MessageByteCount_frames (Frames pack))
                        transferFrameBytes)]
              | _ => [ClPoolReturn transferFrameBytes]
              end
          | None => []
          end
      end
  | _ => bad
  end.

(** A turn of the read loop of [run] that read a frame. *)
Definition handle_frame (now : time) (transferFrameBytes : list byte) : list ClientAction :=
  match unmarshalFiltered transferFrameBytes with
  | Val (Some protoPath) =>
      match TransferPathFromProtobuf protoPath with
      | Val path =>
          let toLocal := if IsStream path then isStreamOpen (StreamId_ path)
                         else bool_decide (DestinationId_ path = clientId) in
          if (toLocal : bool) then handle_local now (SourceMask path) transferFrameBytes
          else [ClForward path transferFrameBytes]
      | _ => [ClPoolReturn transferFrameBytes]
      end
  | _ => [ClPoolReturn transferFrameBytes]
  end.
End Client.

(** ** Sending *)
Record TransferOptions := mkTransferOptions {
  opt_Ack : bool;
  opt_CompanionContract : bool;
  opt_ForceStream : bool
}.
Definition DefaultTransferOpts : TransferOptions := mkTransferOptions true false false.
Inductive SendOption :=
| OptTransferOptions (o : TransferOptions)
| OptSetAck (ack : bool)
| OptSetForceStream (forceStream : bool)
| OptSetCompanionContract (companionContract : bool).
Definition apply_option (transferOpts : TransferOptions) (opt : SendOption) : TransferOptions :=
  match opt with
  | OptTransferOptions o => o
  | OptSetAck b => mkTransferOptions b (opt_CompanionContract transferOpts) (opt_ForceStream transferOpts)
  | OptSetForceStream b => mkTransferOptions (opt_Ack transferOpts) (opt_CompanionContract transferOpts) b
  | OptSetCompanionContract b => mkTransferOptions (opt_Ack transferOpts) b (opt_ForceStream transferOpts)
  end.
Definition NoAck : SendOption := OptSetAck false.
Definition CompanionContract_ : SendOption := OptSetCompanionContract true.
Definition ForceStream_ : SendOption := OptSetForceStream true.

(** Where a message goes: the loopback channel, or [SendBuffer.Pack], with the
    id of the send sequence, that has the fields of a contract key. *)
Inductive SendAction :=
| SendLoopback (p : SendPack)
| SendToBuffer (sendSequenceId : ContractKey) (p : SendPack).
Definition sendWithTimeoutDetailed (clientId : Id) (done : bool) (frame : Frame) (destination : TransferPath)
    (intermediaryIds : MultiHopId) (ackCallback : positive) (opts : list SendOption)
    : outcome SendAction :=
  if negb (IsDestinationMask destination) then Panic "Destination required for send" else
  if done then Err "Done" else
  let transferOpts := foldl apply_option DefaultTransferOpts opts in
  let sendPack := mkSendPack frame ackCallback (opt_Ack transferOpts) (Z.of_nat (length (MessageBytes frame))) in
  if bool_decide (DestinationId_ destination = clientId) then Val (SendLoopback sendPack)
  else Val (SendToBuffer (mkKey destination intermediaryIds (opt_CompanionContract transferOpts)
                            (opt_ForceStream transferOpts)) sendPack).
Definition SendWithTimeoutDetailed (clientId : Id) (done : bool) (frame : Frame) (destination : TransferPath)
    (ackCallback : positive) (opts : list SendOption) : outcome SendAction :=
  sendWithTimeoutDetailed clientId done frame destination MultiHopId_zero ackCallback opts.
Definition SendMultiHopWithTimeoutDetailed (clientId : Id) (done : bool) (frame : Frame)
    (destination : MultiHopId) (ackCallback : positive) (opts : list SendOption) : outcome SendAction :=
  if (MultiHopId_Len destination =? 0)%nat then Err "Must have at least one destination id." else
  let! (intermediaryIds, destinationId) := MultiHopId_SplitTail destination in
  sendWithTimeoutDetailed clientId done frame (DestinationId destinationId) intermediaryIds ackCallback opts.

(** The loopback goroutine: the receive callbacks, then the ack callback. *)
Inductive LoopbackEvent :=
| LbReceive (source : TransferPath) (frames : list Frame) (provideMode : Z)
| LbAckCallback (ackCallback : positive) (err : option string)
| LbPoolReturn (messageBytes : list byte).
Definition loopback (clientId : Id) (sendPack : SendPack) : list LoopbackEvent :=
  [LbReceive (SourceId clientId) [sp_Frame sendPack] ProvideMode_Network;
   LbAckCallback (sp_AckCallback sendPack) None;
   LbPoolReturn (MessageBytes (sp_Frame sendPack))].

(** ** Between two clients *)
Section Routing.
Context `{codec : TransferCodec} `{!TransferCodecLaws codec}.

Lemma handle_frame_path clientId open now tf path :
  path_canonical path → tf_TransferPath tf = ToProtobuf path →
  (if IsStream path then open (StreamId_ path) else bool_decide (DestinationId_ path = clientId)) = true →
  handle_frame clientId open now (marshalTransferFrame tf) =
    handle_local now (SourceMask path) (marshalTransferFrame tf).
Proof.
  intros Hc Ep Hl. unfold handle_frame. rewrite unmarshal_marshal_filtered, Ep, TransferPath_proto by done.
  by rewrite Hl.
Qed.
Lemma handle_pack clientId open now s path pack sequenceId :
  path_canonical path → IdFromBytes (Pack_SequenceId pack) = Val sequenceId →
  (if IsStream path then open (StreamId_ path) else bool_decide (DestinationId_ path = clientId)) = true →
  handle_frame clientId open now (frame_bytes s (ToProtobuf path) pack) =
    [ClPack (SourceMask path) sequenceId
       (mkReceivePack pack client_receive_callback (MessageByteCount_frames (Frames pack))
          (frame_bytes s (ToProtobuf path) pack))].
Proof.
  intros Hc Hs Hl. unfold frame_bytes. match goal with |- context [marshalTransferFrame ?f] => set (tf := f) end.
  rewrite (handle_frame_path clientId open now tf path) by (done || (subst tf; by case_bool)).
  unfold handle_local. rewrite unmarshal_marshal_frame.
  assert (frame_contents tf = Some (None, Some pack)) as ->.
  { subst tf. case_bool; [done|]. unfold frame_contents. simpl. by rewrite unmarshal_marshal_pack. }
  simpl. by rewrite Hs.
Qed.
Lemma handle_ack clientId open now s source peerId sequenceId a :
  let path := AddSource (Reverse source) peerId in
  path_canonical path →
  (if IsStream path then open (StreamId_ path) else bool_decide (DestinationId_ path = clientId)) = true →
  handle_frame clientId open now (writeAck s source peerId sequenceId a) =
    [ClAck (Reverse (SourceMask path))
       (mkProtoAck (Id_Bytes (ack_messageId a)) (Id_Bytes sequenceId) (ack_selective a) (ack_tag a));
     ClPoolReturn (writeAck s source peerId sequenceId a)].
Proof.
  intros path Hc Hl. unfold writeAck. set (ack := mkProtoAck _ _ _ _). match goal with |- context [marshalTransferFrame ?f] => set (tf := f) end.
  rewrite (handle_frame_path clientId open now tf path) by (done || (subst tf; by case_bool)).
  unfold handle_local. rewrite unmarshal_marshal_frame.
  assert (frame_contents tf = Some (Some ack, None)) as ->.
  { subst tf. case_bool; [done|]. unfold frame_contents. simpl. by rewrite unmarshal_marshal_ack. }
  done.
Qed.

(** The path of the acks of a frame with [path]. *)
Lemma ack_path path receiver :
  path_canonical path → (IsStream path = false → DestinationId_ path = receiver) →
  let back := AddSource (Reverse (SourceMask path)) receiver in
  path_canonical back ∧ IsStream back = IsStream path ∧
  (if IsStream path then StreamId_ back = StreamId_ path else DestinationId_ back = SourceId_ path) ∧
  Reverse (SourceMask back) = DestinationMask path.
Proof.
  intros Hc Hd back. unfold back, AddSource. rewrite IsStream_Reverse.
  change (IsStream (SourceMask path)) with (IsStream path). unfold path_canonical in *.
  destruct (IsStream path) eqn:Es.
  - destruct (Hc eq_refl) as [E1 E2]. destruct path as [src dst str]. simpl in *. subst.
    by rewrite IsStream_Reverse.
  - rewrite <-(Hd eq_refl). assert (StreamId_ path = Id_zero) as E.
    { unfold IsStream in Es. apply bool_decide_eq_false in Es. by destruct (decide (StreamId_ path = Id_zero)). }
    destruct path as [src dst str]. simpl in *. subst. unfold DestinationMask. simpl.
    by split_and!.
Qed.

(** C37. Packs and acks find their sequences: a frame that a send sequence
    writes for [path], in either protocol version, is given by the client it is
    addressed to (or that has the stream open) to the receive sequence of its
    source and sequence id, as the pack it was made from; and the acks that
    this receive sequence writes back, in either version, are given by the
    sender to the send sequences associated with [path]'s destination. *)
Theorem client_frames_return (s : SendBufferSettings) (r : ReceiveBufferSettings)
    (sender receiver : Id) (open_s open_r : Id → bool) (now : time) (path : TransferPath) (pack : Pack)
    (sequenceId : Id) (a : sequenceAck) :
  path_canonical path → IdFromBytes (Pack_SequenceId pack) = Val sequenceId →
  (if IsStream path then open_s (StreamId_ path) = true ∧ open_r (StreamId_ path) = true
   else SourceId_ path = sender ∧ DestinationId_ path = receiver) →
  let source := SourceMask path in
  let bytes := frame_bytes s (ToProtobuf path) pack in
  let ackBytes := writeAck r source receiver sequenceId a in
  handle_frame receiver open_r now bytes =
    [ClPack source sequenceId (mkReceivePack pack client_receive_callback
       (MessageByteCount_frames (Frames pack)) bytes)] ∧
  handle_frame sender open_s now ackBytes =
    [ClAck (DestinationMask path)
       (mkProtoAck (Id_Bytes (ack_messageId a)) (Id_Bytes sequenceId) (ack_selective a) (ack_tag a));
     ClPoolReturn ackBytes].
Proof.
  intros Hc Hs Hl source bytes ackBytes. split.
  - apply handle_pack; [done|done|]. destruct (IsStream path); [by apply Hl|].
    apply bool_decide_eq_true. by destruct Hl.
  - destruct (ack_path path receiver Hc) as (E1 & E2 & E3 & <-).
    { destruct (IsStream path); [done|]. intros _. by destruct Hl. }
    unfold source in *. apply handle_ack; [done|]. rewrite E2. destruct (IsStream path).
    + rewrite E3. by apply Hl.
    + apply bool_decide_eq_true. rewrite E3. by destruct Hl.
Qed.

(** The actions that give up the bytes of the frame: back to the pool, or to
    the one that will return them. *)
Definition gives_up (a : ClientAction) : bool :=
  match a with ClPack _ _ _ | ClForward _ _ | ClPoolReturn _ => true | _ => false end.
Definition given_up (l : list ClientAction) : nat := length (filter (λ a, gives_up a = true) l).

(** What becomes of a frame, whatever its bytes: one for another client, or
    of a stream that is not open, is passed to the forward callbacks with its
    bytes untouched, and is not read further. Any other frame is never
    forwarded; its acks and packs go to the buffers under its own source; and
    its bytes are given up exactly once, unless the frame carries both an ack
    and a pack (then twice) or neither (then never). *)
Theorem client_dispatch (clientId : Id) (open : Id → bool) (now : time) (bytes : list byte) :
  let acts := handle_frame clientId open now bytes in
  (∀ pp path, unmarshalFiltered bytes = Val (Some pp) → TransferPathFromProtobuf pp = Val path →
    if (if IsStream path then open (StreamId_ path) else bool_decide (DestinationId_ path = clientId))
    then (∀ p b, ClForward p b ∉ acts) ∧
         (∀ d a, ClAck d a ∈ acts → d = Reverse (SourceMask path)) ∧
         (∀ src sid p, ClPack src sid p ∈ acts → src = SourceMask path ∧
            IdFromBytes (Pack_SequenceId (rp_Pack p)) = Val sid ∧ rp_TransferFrameBytes p = bytes)
    else acts = [ClForward path bytes]) ∧
  (given_up acts = 1 ∨
   ∃ tf ack pack, unmarshalTransferFrame bytes = Val tf ∧ frame_contents tf = Some (ack, pack) ∧
     (given_up acts = 2 ∧ is_Some ack ∧ is_Some pack ∨ given_up acts = 0 ∧ ack = None ∧ pack = None)).
Proof.
  set (loc := λ path, if IsStream path then open (StreamId_ path) else bool_decide (DestinationId_ path = clientId)).
  assert (∀ src, let acts := handle_local now src bytes in
    (∀ p b, ClForward p b ∉ acts) ∧ (∀ d a, ClAck d a ∈ acts → d = Reverse src) ∧
    (∀ s sid p, ClPack s sid p ∈ acts → s = src ∧
       IdFromBytes (Pack_SequenceId (rp_Pack p)) = Val sid ∧ rp_TransferFrameBytes p = bytes) ∧
    (given_up acts = 1 ∨
     ∃ tf ack pack, unmarshalTransferFrame bytes = Val tf ∧ frame_contents tf = Some (ack, pack) ∧
       (given_up acts = 2 ∧ is_Some ack ∧ is_Some pack ∨ given_up acts = 0 ∧ ack = None ∧ pack = None))) as Hloc.
  { intros src acts. subst acts. unfold handle_local.
    destruct (unmarshalTransferFrame bytes) as [tf| |];
      [destruct (frame_contents tf) as [[ack pack]|] eqn:Ec|..]; cycle 1.
    1-3: unfold updatePeerAudit; destruct (audit_Update _ _ _); set_unfold; split_and!;
         [naive_solver..|by left].
    destruct ack as [ack|], pack as [pack|]; simpl;
      [destruct (IdFromBytes (Pack_SequenceId pack)) eqn:Es| |destruct (IdFromBytes (Pack_SequenceId pack)) eqn:Es|].
    all: split_and!; [set_unfold; naive_solver..|].
    all: first [by left | right; exists tf; eexists _, _; split; [done|]; split; [exact Ec|]; naive_solver]. }
  intros acts. subst acts. unfold handle_frame.
  destruct (unmarshalFiltered bytes) as [[pp|]| |] eqn:Ef; [|split; [by intros|by left]..].
  destruct (TransferPathFromProtobuf pp) as [path| |] eqn:Ep;
    [|split; [intros pp' path' [= <-]; by rewrite Ep|by left]..].
  cbv zeta. fold (loc path). destruct (loc path) eqn:El.
  - destruct (Hloc (SourceMask path)) as (H1 & H2 & H3 & H4). split; [|exact H4].
    intros pp' path' [= <-]. rewrite Ep. intros [= <-]. fold (loc path). by rewrite El.
  - split; [|by left]. intros pp' path' [= <-]. rewrite Ep. intros [= <-]. fold (loc path). by rewrite El.
Qed.
End Routing.

(** Where [SendMultiHop] sends: the last hop is the destination and the
    others, in order, the intermediaries; options are applied from left to
    right; and a message for this client itself goes to the loopback. An empty
    path is an error and no other path panics. *)
Theorem send_multi_hop_routes (clientId : Id) (frame : Frame) (m : MultiHopId) (ackCallback : positive)
    (opts : list SendOption) :
  multihop_wf m →
  let p := mkSendPack frame ackCallback (opt_Ack (foldl apply_option DefaultTransferOpts opts))
             (Z.of_nat (length (MessageBytes frame))) in
  match SendMultiHopWithTimeoutDetailed clientId false frame m ackCallback opts with
  | Val (SendLoopback p') => p' = p ∧ ∃ pre, MultiHopId_Ids m = pre ++ [clientId]
  | Val (SendToBuffer key p') => p' = p ∧ ∃ d, Destination key = DestinationId d ∧ d ≠ clientId ∧
      MultiHopId_Ids m = MultiHopId_Ids (IntermediaryIds key) ++ [d] ∧ multihop_wf (IntermediaryIds key) ∧
      CompanionContract key = opt_CompanionContract (foldl apply_option DefaultTransferOpts opts) ∧
      ForceStream key = opt_ForceStream (foldl apply_option DefaultTransferOpts opts)
  | Err _ => MultiHopId_Ids m = []
  | Panic _ => False
  end.
Proof.
  intros Hm p. unfold SendMultiHopWithTimeoutDetailed.
  destruct (Nat.eqb_spec (MultiHopId_Len m) 0) as [E|E].
  { unfold MultiHopId_Len, MultiHopId_Ids in *. by rewrite E. }
  destruct (MultiHopId_SplitTail_spec m Hm E) as (pre & tail & -> & _ & Hpre & Ei). cbn [obind].
  unfold sendWithTimeoutDetailed, IsDestinationMask. simpl. case_bool_decide as Ed.
  - split; [done|]. exists (MultiHopId_Ids pre). by rewrite Ei, Ed.
  - split; [done|]. by exists tail.
Qed.

(** ** Concrete frames *)
Module ClientExample.
Import ContractExample WireExample.
Definition ex_sender : Id := ex_id 1.
Definition ex_receiver : Id := ex_id 2.
Definition ex_path : TransferPath := mkTransferPath ex_sender ex_receiver Id_zero.
Definition ex_none (_ : Id) : bool := false.
Definition ex_send_settings (version : Z) : SendBufferSettings :=
  mkSendSettings second second second (f32_of_Z 1) 128 second second second second 1 1000
    (f32_of_Z 1) version.
Definition ex_receive_settings (version : Z) : ReceiveBufferSettings :=
  mkReceiveSettings second second 1 1000 false 2 second version.
Definition ex_wire_pack : Pack :=
  mkPack (Id_Bytes (ex_id 7)) (Id_Bytes (ex_id 77)) 3 false [mkFrame 14 [Byte.x01] false] false None (Some 5%Z) None.

Lemma client_frames_return_witness :
  let s := ex_send_settings 1 in let r := ex_receive_settings 1 in
  let bytes := frame_bytes (codec := ex_codec) s (ToProtobuf ex_path) ex_wire_pack in
  let ackBytes := writeAck (codec := ex_codec) r (SourceMask ex_path) ex_receiver (ex_id 77)
                    (mkAck 3 (ex_id 7) false None) in
  handle_frame (codec := ex_codec) ex_receiver ex_none 0 bytes =
    [ClPack (SourceMask ex_path) (ex_id 77) (mkReceivePack ex_wire_pack client_receive_callback
       (MessageByteCount_frames (Frames ex_wire_pack)) bytes)] ∧
  handle_frame (codec := ex_codec) ex_sender ex_none 0 ackBytes =
    [ClAck (DestinationMask ex_path) (mkProtoAck (Id_Bytes (ex_id 7)) (Id_Bytes (ex_id 77)) false None);
     ClPoolReturn ackBytes].
Proof.
  apply (client_frames_return (codec := ex_codec) (ex_send_settings 1) (ex_receive_settings 1) ex_sender
    ex_receiver ex_none ex_none 0 ex_path ex_wire_pack (ex_id 77) (mkAck 3 (ex_id 7) false None)).
  - unfold path_canonical. vm_compute. discriminate.
  - vm_compute. reflexivity.
  - assert (IsStream ex_path = false) as -> by (vm_compute; reflexivity). split; reflexivity.
Defined.

(** A frame with both an ack and a pack: its bytes go back to the pool while the
    receive sequence still holds them. One with neither never goes back. *)
Definition ex_both : TransferFrame :=
  mkTransferFrame (ToProtobuf ex_path) None None (Some ex_wire_pack)
    (Some (mkProtoAck (Id_Bytes (ex_id 7)) (Id_Bytes (ex_id 77)) false None)).
Definition ex_neither : TransferFrame := mkTransferFrame (ToProtobuf ex_path) None None None None.
Example both_given_up_twice :
  given_up (handle_frame (codec := ex_codec) ex_receiver ex_none 0 (encode_bytes ex_both)) = 2.
Proof. vm_compute. reflexivity. Qed.
Example neither_not_given_up :
  given_up (handle_frame (codec := ex_codec) ex_receiver ex_none 0 (encode_bytes ex_neither)) = 0.
Proof. vm_compute. reflexivity. Qed.
(** A frame for a third client is forwarded with its bytes untouched. *)
Definition ex_third : TransferFrame :=
  mkTransferFrame (ToProtobuf (mkTransferPath ex_sender (ex_id 3) Id_zero)) None None (Some ex_wire_pack) None.
Lemma client_dispatch_witness :
  handle_frame (codec := ex_codec) ex_receiver ex_none 0 (encode_bytes ex_third) =
    [ClForward (mkTransferPath ex_sender (ex_id 3) Id_zero) (encode_bytes ex_third)].
Proof.
  apply (proj1 (client_dispatch (codec := ex_codec) ex_receiver ex_none 0 (encode_bytes ex_third))
    (ToProtobuf (mkTransferPath ex_sender (ex_id 3) Id_zero)) (mkTransferPath ex_sender (ex_id 3) Id_zero));
    vm_compute; reflexivity.
Defined.

Definition ex_hops : MultiHopId := mkMultiHopId ([ex_id 3; ex_id 4] ++ replicate 6 Id_zero) 2.
Lemma send_multi_hop_routes_witness :
  multihop_wf ex_hops ∧
  match SendMultiHopWithTimeoutDetailed ex_sender false (mkFrame 14 [] false) ex_hops 1
          [NoAck; ForceStream_] with
  | Val (SendToBuffer key p') => sp_Ack p' = false ∧ ForceStream key = true ∧
      MultiHopId_Ids (IntermediaryIds key) = [ex_id 3]
  | _ => False
  end.
Proof.
  assert (multihop_wf ex_hops) as Hm by (unfold multihop_wf; vm_compute; repeat split; lia || reflexivity).
  split; [exact Hm|].
  pose proof (send_multi_hop_routes ex_sender (mkFrame 14 [] false) ex_hops 1 [NoAck; ForceStream_] Hm) as H.
  revert H. vm_compute. intros (_ & d & E & _). repeat split.
Defined.
End ClientExample.
