(* ===== verification/RemoteUserNat.v ===== *)
(** * The two ends of a user NAT: RemoteUserNatClient, RemoteUserNatProvider and pathTable of ip.go

    A client frames the packets that its policy allows and sends them to one of
    its destinations; a provider takes the packets out of the frames, asks its
    policy again, and gives them to its local NAT; replies go the other way. The
    callbacks are functions from what they are given to what they send and
    call. *)

From stdpp Require Import gmap.
From S2P Require Import Prelude Ids Contracts Frames Ip Security.
From S2P Require Import TcpSequence UdpSequence UserNat ContractManager SendSequence Client.
Open Scope go_scope.

Definition DefaultProtocolVersion : Z := 2.

Section Remote.
Context {Body : Type} `{codec : FrameCodec Body} `{GoPacket}.
Context (blockIp4s : vec byte 4 → bool).

(** ** The destinations of flows *)
Record pathTable := mkPathTable {
  pt_destinations : list MultiHopId;
  pt_paths4 : gmap Ip4Path MultiHopId;
  pt_paths6 : gmap Ip6Path MultiHopId
}.
Definition newPathTable (destinations : list MultiHopId) : outcome pathTable :=
  if length destinations =? 0 then Err "No destinations." else Val (mkPathTable destinations ∅ ∅).
(** [self.destinations[mathrand.Intn(len(self.destinations))]]: [i] is what
    [Intn] returns. *)
Definition pick_destination (i : nat) (t : pathTable) : outcome MultiHopId :=
  match pt_destinations t !! i with Some d => Val d | None => Panic "invalid argument to Intn" end.
Definition SelectDestination (i : nat) (packet : list byte) (t : pathTable) : outcome (MultiHopId * pathTable) :=
  match pt_destinations t with
  | [d] => Val (d, t)
  | _ =>
      let! ipPath := ParseIpPath packet in
      if (Version ipPath =? 4)%Z then
        match pt_paths4 t !! ToIp4Path ipPath with
        | Some d => Val (d, t)
        | None =>
            let! d := pick_destination i t in
            Val (d, mkPathTable (pt_destinations t) (<[ToIp4Path ipPath := d]> (pt_paths4 t)) (pt_paths6 t))
        end
      else if (Version ipPath =? 6)%Z then
        match pt_paths6 t !! ToIp6Path ipPath with
        | Some d => Val (d, t)
        | None =>
            let! d := pick_destination i t in
            Val (d, mkPathTable (pt_destinations t) (pt_paths4 t) (<[ToIp6Path ipPath := d]> (pt_paths6 t)))
        end
      else Err "No support for ip version"
  end.

(** ** Sends of a client *)
(** The handle of the ack callback that does nothing. *)
Definition no_callback : positive := 1.
(** [success && err == nil]: [None] when nothing was handed to the client. *)
Definition sent_or_not (o : outcome SendAction) : outcome (option SendAction) :=
  match o with Val a => Val (Some a) | Err _ => Val None | Panic e => Panic e end.

(** ** RemoteUserNatClient *)
Record RemoteUserNatClient := mkRemoteClient {
  rc_clientId : Id;
  rc_stats : SecurityPolicyStatsCollector;
  rc_pathTable : pathTable
}.
Definition client_opts (ipPath : IpPath) : list SendOption :=
  match Protocol ipPath with IpProtocolUdp => [NoAck] | _ => [] end.
(** [SendPacket]; [done]: the context of the client. *)
Definition client_SendPacket (done : bool) (i : nat) (packet : list byte) (c : RemoteUserNatClient)
    : outcome (option SendAction * RemoteUserNatClient) :=
  match ParseIpPath packet with
  | Panic e => Panic e
  | Err _ => Val (None, c)
  | Val ipPath =>
      let '(r, stats) := Inspect blockIp4s EgressPolicy ipPath (rc_stats c) in
      let c := mkRemoteClient (rc_clientId c) stats (rc_pathTable c) in
      match r with
      | SecurityPolicyResultAllow =>
          match SelectDestination i packet (rc_pathTable c) with
          | Panic e => Panic e
          | Err _ => Val (None, c)
          | Val (destination, t) =>
              let! frame := must (ToFrame (MIpPacketToProvider (Some packet)) DefaultProtocolVersion) in
              let! sent := sent_or_not (SendMultiHopWithTimeoutDetailed (rc_clientId c) done frame destination no_callback
                                          (client_opts ipPath)) in
              Val (sent, mkRemoteClient (rc_clientId c) (rc_stats c) t)
          end
      | _ => Val (None, c)
      end
  end.
(** [ClientReceive]: the calls of the receive callback. *)
Record ReceivedPacket := mkReceivedPacket {
  rv_source : TransferPath;
  rv_provideMode : Z;
  rv_ipPath : IpPath;
  rv_packet : list byte
}.
Definition client_receive_frame (source : TransferPath) (provideMode : Z) (frame : Frame) : outcome (list ReceivedPacket) :=
  if (MessageType frame =? MessageType_IpIpPacketFromProvider)%Z then
    let! message := must (FromFrame frame) in
    match message with
    | MIpPacketFromProvider ipPacket =>
        let! packet := PacketBytes ipPacket in
        match ParseIpPath packet with
        | Val ipPath => Val [mkReceivedPacket source provideMode ipPath packet]
        | Err _ => Val []
        | Panic e => Panic e
        end
    | _ => Panic "interface conversion"
    end
  else Val [].
Fixpoint client_ClientReceive (source : TransferPath) (frames : list Frame) (provideMode : Z)
    : outcome (list ReceivedPacket) :=
  match frames with
  | [] => Val []
  | frame :: frames =>
      let! calls := client_receive_frame source provideMode frame in
      let! rest := client_ClientReceive source frames provideMode in
      Val (calls ++ rest)
  end.

(** ** RemoteUserNatProvider *)
(** [Receive]: what the local NAT sends back to a source. *)
Definition provider_Receive (clientId : Id) (protocolVersion : Z) (done : bool) (source : TransferPath) (ipPath : IpPath)
    (packet : list byte) : outcome (option SendAction) :=
  if bool_decide (clientId = SourceId_ source) then Val None else
  let! frame := must (ToFrame (MIpPacketFromProvider (Some packet)) protocolVersion) in
  let send opts := sent_or_not (SendWithTimeoutDetailed clientId done frame (Reverse source) no_callback opts) in
  match Protocol ipPath with
  | IpProtocolUdp => send [CompanionContract_; NoAck]
  | IpProtocolTcp => send [CompanionContract_]
  | IpProtocolUnknown => Val None
  end.
Inductive ProviderAction :=
| PvEcho (a : option SendAction)
| PvSendPacket (source : TransferPath) (provideMode : Z) (packet : list byte)
| PvReportAbuse (source : TransferPath).
(** A frame of [ClientReceive], with the counts of the policy. *)
Definition provider_receive_frame (clientId : Id) (done : bool) (source : TransferPath) (provideMode : Z) (frame : Frame)
    (stats : SecurityPolicyStatsCollector) : outcome (list ProviderAction * SecurityPolicyStatsCollector) :=
  if (MessageType frame =? MessageType_IpIpPing)%Z then
    let! sent := sent_or_not (SendWithTimeoutDetailed clientId done frame (Reverse source) no_callback []) in
    Val ([PvEcho sent], stats)
  else if (MessageType frame =? MessageType_IpIpPacketToProvider)%Z then
    let! message := must (FromFrame frame) in
    match message with
    | MIpPacketToProvider ipPacket =>
        let! packet := PacketBytes ipPacket in
        match ParseIpPath packet with
        | Panic e => Panic e
        | Err _ => Val ([], stats)
        | Val ipPath =>
            let '(r, stats) := Inspect blockIp4s EgressPolicy ipPath stats in
            Val (match r with
                 | SecurityPolicyResultAllow => [PvSendPacket source provideMode packet]
                 | SecurityPolicyResultIncident => [PvReportAbuse source]
                 | SecurityPolicyResultDrop => []
                 end, stats)
        end
    | _ => Panic "interface conversion"
    end
  else Val ([], stats).
Fixpoint provider_ClientReceive (clientId : Id) (done : bool) (source : TransferPath) (frames : list Frame)
    (provideMode : Z) (stats : SecurityPolicyStatsCollector)
    : outcome (list ProviderAction * SecurityPolicyStatsCollector) :=
  match frames with
  | [] => Val ([], stats)
  | frame :: frames =>
      let! (actions, stats) := provider_receive_frame clientId done source provideMode frame stats in
      let! (rest, stats) := provider_ClientReceive clientId done source frames provideMode stats in
      Val (actions ++ rest, stats)
  end.
End Remote.

(** ** Sticky destinations *)
Section PathTable.
Context `{GoPacket}.

(** The results of calls of [SelectDestination], up to a panic. *)
Fixpoint select_all (calls : list (nat * list byte)) (t : pathTable) : list (outcome MultiHopId) :=
  match calls with
  | [] => []
  | (i, packet) :: calls =>
      match SelectDestination i packet t with
      | Val (d, t) => Val d :: select_all calls t
      | Err e => Err e :: select_all calls t
      | Panic e => [Panic e]
      end
  end.
Definition flow_key (packet : list byte) : option (Ip4Path + Ip6Path) :=
  match ParseIpPath packet with
  | Val p => if (Version p =? 4)%Z then Some (inl (ToIp4Path p))
             else if (Version p =? 6)%Z then Some (inr (ToIp6Path p)) else None
  | _ => None
  end.
Definition pt_lookup (t : pathTable) (key : Ip4Path + Ip6Path) : option MultiHopId :=
  match key with inl k => pt_paths4 t !! k | inr k => pt_paths6 t !! k end.
Lemma ParseIpPath_panic packet e : ParseIpPath packet = Panic e → packet = [].
Proof.
  unfold ParseIpPath, ParseIpPathWithPayload, packet_version. destruct packet as [|b packet]; [done|]. cbn [obind].
  unfold parse_transport. intros E. exfalso. revert E.
  repeat (case_match; cbn [obind] in *; simplify_eq); done.
Qed.
Lemma select_step i packet t d t' :
  SelectDestination i packet t = Val (d, t') → length (pt_destinations t) ≠ 1 →
  (∀ key d, pt_lookup t key = Some d → d ∈ pt_destinations t) →
  pt_destinations t' = pt_destinations t ∧ d ∈ pt_destinations t ∧
  (∀ key, flow_key packet = Some key → pt_lookup t' key = Some d) ∧
  (∀ key d', pt_lookup t key = Some d' → pt_lookup t' key = Some d') ∧
  (∀ key d, pt_lookup t' key = Some d → d ∈ pt_destinations t).
Proof.
  intros E Hl Ht. unfold SelectDestination in E. unfold flow_key.
  assert (∃ p, ParseIpPath packet = Val p ∧
    (if (Version p =? 4)%Z then
       match pt_paths4 t !! ToIp4Path p with
       | Some d => Val (d, t)
       | None => let! d := pick_destination i t in
           Val (d, mkPathTable (pt_destinations t) (<[ToIp4Path p := d]> (pt_paths4 t)) (pt_paths6 t))
       end
     else if (Version p =? 6)%Z then
       match pt_paths6 t !! ToIp6Path p with
       | Some d => Val (d, t)
       | None => let! d := pick_destination i t in
           Val (d, mkPathTable (pt_destinations t) (pt_paths4 t) (<[ToIp6Path p := d]> (pt_paths6 t)))
       end
     else Err "No support for ip version") = Val (d, t')) as (p & -> & E').
  { destruct (pt_destinations t) as [|? [|? ?]]; [..|]; try done;
      destruct (ParseIpPath packet) as [p| |]; try done; by exists p. }
  clear E. assert (∀ d, pick_destination i t = Val d → d ∈ pt_destinations t) as Hpick.
  { unfold pick_destination. intros d0 Hd. destruct (pt_destinations t !! i) eqn:Ei; [|done]. injection Hd as <-.
    by eapply list_elem_of_lookup_2. }
  destruct (Version p =? 4)%Z.
  - destruct (pt_paths4 t !! ToIp4Path p) as [d0|] eqn:Ek.
    + injection E' as <- <-. split_and!; [done|by apply (Ht (inl (ToIp4Path p)))|by intros key [= <-]|done|done].
    + destruct (pick_destination i t) as [d0| |] eqn:Ed; try done. injection E' as <- <-. simpl.
      split_and!; [done|by apply Hpick| | |].
      * intros key [= <-]. apply lookup_insert_eq.
      * intros [k|k] d' Hk; simpl in *; [|done]. rewrite lookup_insert_ne; [done|congruence].
      * intros [k|k] d'; simpl; [|by apply (Ht (inr k))].
        intros [[<- <-]|[_ Hk]]%lookup_insert_Some; [by apply Hpick|by apply (Ht (inl k))].
  - destruct (Version p =? 6)%Z; [|done]. destruct (pt_paths6 t !! ToIp6Path p) as [d0|] eqn:Ek.
    + injection E' as <- <-. split_and!; [done|by apply (Ht (inr (ToIp6Path p)))|by intros key [= <-]|done|done].
    + destruct (pick_destination i t) as [d0| |] eqn:Ed; try done. injection E' as <- <-. simpl.
      split_and!; [done|by apply Hpick| | |].
      * intros key [= <-]. apply lookup_insert_eq.
      * intros [k|k] d' Hk; simpl in *; [done|]. rewrite lookup_insert_ne; [done|congruence].
      * intros [k|k] d'; simpl; [by apply (Ht (inl k))|].
        intros [[<- <-]|[_ Hk]]%lookup_insert_Some; [by apply Hpick|by apply (Ht (inr k))].
Qed.
Definition table_ok (t : pathTable) : Prop :=
  length (pt_destinations t) ≠ 1 ∧ ∀ key d, pt_lookup t key = Some d → d ∈ pt_destinations t.
Lemma select_all_known calls t k packet d key d' i :
  table_ok t → select_all calls t !! k = Some (Val d) → calls !! k = Some (i, packet) → flow_key packet = Some key →
  d ∈ pt_destinations t ∧ (pt_lookup t key = Some d' → d = d').
Proof.
  revert t k. induction calls as [|[i0 p0] calls IH]; intros t k [Hl Ht] Hr Hc Hk; [done|]. simpl in Hr.
  destruct (SelectDestination i0 p0 t) as [[d0 t0]| |] eqn:E.
  - destruct (select_step _ _ _ _ _ E Hl Ht) as (E1 & H1 & H2 & H3 & H4). destruct k as [|k].
    + injection Hr as <-. injection Hc as -> ->. split; [done|]. intros Hd. apply H3 in Hd. specialize (H2 key Hk). congruence.
    + destruct (IH t0 k) as [H5 H6]; [|done..|].
      * split; [by rewrite E1|]. intros key' d1. rewrite E1. apply H4.
      * rewrite <-E1. split; [done|]. intros Hd. by apply H6, H3.
  - destruct k as [|k]; [done|]. by apply (IH t k).
  - by destruct k.
Qed.
Lemma select_all_same calls t j k pj pk dj dk key ij ik :
  table_ok t → j ≤ k → select_all calls t !! j = Some (Val dj) → select_all calls t !! k = Some (Val dk) →
  calls !! j = Some (ij, pj) → calls !! k = Some (ik, pk) → flow_key pj = Some key → flow_key pk = Some key → dj = dk.
Proof.
  revert t j k. induction calls as [|[i0 p0] calls IH]; intros t j k [Hl Ht] Hjk Hrj Hrk Hcj Hck Hkj Hkk; [done|].
  simpl in Hrj, Hrk.
  destruct (SelectDestination i0 p0 t) as [[d0 t0]| |] eqn:E; [| |by destruct j].
  - destruct (select_step _ _ _ _ _ E Hl Ht) as (E1 & H1 & H2 & H3 & H4).
    assert (table_ok t0) as Ht0 by (split; [by rewrite E1|]; intros key' d1; rewrite E1; apply H4).
    destruct j as [|j], k as [|k]; [congruence| |lia|].
    + injection Hrj as <-. injection Hcj as -> ->. symmetry. by eapply select_all_known; eauto.
    + by apply (IH t0 j k); [|lia|..].
  - destruct j as [|j]; [done|]. destruct k as [|k]; [done|]. by apply (IH t j k); [|lia|..].
Qed.

Lemma select_panic i packet t e :
  SelectDestination i packet t = Panic e → i < length (pt_destinations t) → packet = [].
Proof.
  intros E Hi. assert (∃ d, pick_destination i t = Val d) as [d Hd].
  { unfold pick_destination. destruct (pt_destinations t !! i) eqn:Ei; [by eexists|]. apply lookup_ge_None in Ei. lia. }
  assert (∀ o : IpPath → outcome (MultiHopId * pathTable), obind (ParseIpPath packet) o = Panic e → (∀ p, o p ≠ Panic e) → packet = []) as Hp.
  { intros o. destruct (ParseIpPath packet) as [p| |] eqn:Ep; cbn [obind]; [naive_solver|done|].
    intros _ _. by eapply ParseIpPath_panic. }
  unfold SelectDestination in E. destruct (pt_destinations t) as [|? [|? ?]]; [..|]; try done; apply Hp in E; try done;
    intros p; rewrite Hd; cbn [obind]; repeat case_match; done.
Qed.

(** C23. A flow keeps its destination: of the calls of [SelectDestination] on a
    new table, in any order of the packets of any flows and with any choices,
    each result is one of the destinations, and two calls for packets of one
    flow give the same one. Only a packet without bytes makes one panic. *)
Theorem flow_keeps_destination (destinations : list MultiHopId) (t : pathTable) (calls : list (nat * list byte)) :
  newPathTable destinations = Val t → Forall (λ c, c.1 < length destinations) calls →
  let results := select_all calls t in
  (∀ k i packet d, calls !! k = Some (i, packet) → flow_key packet ≠ None → results !! k = Some (Val d) → d ∈ destinations) ∧
  (∀ j k ij ik pj pk dj dk, calls !! j = Some (ij, pj) → calls !! k = Some (ik, pk) →
    flow_key pj = flow_key pk → flow_key pj ≠ None →
    results !! j = Some (Val dj) → results !! k = Some (Val dk) → dj = dk) ∧
  (∀ e, Panic e ∈ results → ∃ i, (i, []) ∈ calls).
Proof.
  intros E Hi results. unfold newPathTable in E. destruct (Nat.eqb_spec (length destinations) 0) as [|H0]; [done|].
  assert (t = mkPathTable destinations ∅ ∅) as -> by congruence. clear E. set (t := mkPathTable destinations ∅ ∅) in *.
  destruct (decide (length destinations = 1)) as [H1|H1].
  - destruct destinations as [|d [|? ?]]; try done.
    assert (results = map (λ _, Val d) calls) as ->.
    { subst results. clear Hi H0. induction calls as [|[i packet] calls IH]; [done|]. simpl. by rewrite IH. }
    split_and!.
    + intros k i packet d' Hc _. rewrite list_lookup_fmap, Hc. intros [= <-]. set_solver.
    + intros j k ij ik pj pk dj dk Hj Hk _ _. rewrite !list_lookup_fmap, Hj, Hk. by intros [= <-] [= <-].
    + intros e He. apply list_elem_of_fmap in He as (? & ? & _). done.
  - assert (table_ok t) as Ht by (split; [done|]; intros [k|k] d; simpl; by rewrite lookup_empty).
    split_and!.
    + intros k i packet d Hc Hf Hr. destruct (flow_key packet) as [key|] eqn:Ek; [|done].
      by eapply (select_all_known calls t k packet d key d).
    + intros j k ij ik pj pk dj dk Hj Hk Ef Hf Hrj Hrk. destruct (flow_key pj) as [key|] eqn:Ek; [|done].
      destruct (Nat.le_ge_cases j k); [|symmetry]; by eapply select_all_same; eauto.
    + intros e He. subst results. assert (length (pt_destinations t) = length destinations) as Hlen by done.
      assert (∀ t', pt_destinations t' = destinations → table_ok t' → Panic e ∈ select_all calls t' → ∃ i, (i, []) ∈ calls)
        as Hgen; [|by apply (Hgen t)]. clear t Ht He Hlen.
      induction Hi as [|[i packet] calls Hi _ IH]; intros t Et Ht He; simpl in He; [set_solver|].
      assert ((∃ t', pt_destinations t' = destinations ∧ table_ok t' ∧ Panic e ∈ select_all calls t') →
        ∃ i0, (i0, []) ∈ (i, packet) :: calls) as Hrec.
      { intros (t' & ? & ? & ?). destruct (IH t') as [i0 ?]; [done..|]. exists i0. set_solver. }
      destruct (SelectDestination i packet t) as [[d t']| |] eqn:E.
      * apply elem_of_cons in He as [?|He]; [done|]. apply Hrec. exists t'. destruct Ht as [Hl Ht].
        destruct (select_step _ _ _ _ _ E Hl Ht) as (E1 & _ & _ & _ & H4). split_and!; [congruence| |done].
        split; [by rewrite E1|]. intros key d1. rewrite E1. apply H4.
      * apply elem_of_cons in He as [?|He]; [done|]. apply Hrec. by exists t.
      * exists i. rewrite (select_panic _ _ _ _ E); [apply list_elem_of_here|by rewrite Et].
Qed.
End PathTable.

(** ** From end to end *)
Section EndToEnd.
Context {Body : Type} `{codec : FrameCodec Body} `{!FrameCodecLaws codec} `{GP : GoPacket}.
Context (blockIp4s : vec byte 4 → bool).

Lemma sent_frame o (a : SendAction) : sent_or_not o = Val (Some a) → o = Val a.
Proof. destruct o; try done. by intros [= <-]. Qed.
Definition action_pack (a : SendAction) : SendPack := match a with SendLoopback p | SendToBuffer _ p => p end.
Lemma send_multi_hop_pack clientId done frame d cb opts a :
  SendMultiHopWithTimeoutDetailed clientId done frame d cb opts = Val a →
  sp_Frame (action_pack a) = frame ∧ sp_Ack (action_pack a) = opt_Ack (foldl apply_option DefaultTransferOpts opts).
Proof.
  unfold SendMultiHopWithTimeoutDetailed. destruct (_ =? 0); [by intros|].
  destruct (MultiHopId_SplitTail d) as [[pre tail]| |]; try by intros. cbn [obind].
  unfold sendWithTimeoutDetailed. destruct (negb _); [by intros|]. destruct done; [by intros|].
  case_bool_decide; by intros [= <-].
Qed.
(** A provider decides about a packet that came in a frame as about the packet. *)
Lemma provider_frame clientId done source mode packet version f stats p :
  ToFrame (MIpPacketToProvider (Body := Body) (Some packet)) version = Val f → ParseIpPath packet = Val p →
  provider_receive_frame blockIp4s clientId done source mode f stats =
    let '(r, stats) := Inspect blockIp4s EgressPolicy p stats in
    Val (match r with
         | SecurityPolicyResultAllow => [PvSendPacket source mode packet]
         | SecurityPolicyResultIncident => [PvReportAbuse source]
         | SecurityPolicyResultDrop => []
         end, stats).
Proof.
  intros Ef Ep. pose proof (to_frame_from _ _ _ Ef) as Efrom. unfold provider_receive_frame.
  assert (MessageType f = MessageType_IpIpPacketToProvider) as ->.
  { unfold ToFrame in Ef. case_bool; [by injection Ef as <-|]. destruct (marshalMessage _); try done. by injection Ef as <-. }
  cbn [Z.eqb Pos.eqb MessageType_IpIpPing MessageType_IpIpPacketToProvider]. rewrite Efrom. cbn [must obind PacketBytes].
  by rewrite Ep.
Qed.
Lemma client_frame source mode packet version f p :
  ToFrame (MIpPacketFromProvider (Body := Body) (Some packet)) version = Val f → ParseIpPath packet = Val p →
  client_receive_frame source mode f = Val [mkReceivedPacket source mode p packet].
Proof.
  intros Ef Ep. pose proof (to_frame_from _ _ _ Ef) as Efrom. unfold client_receive_frame.
  assert (MessageType f = MessageType_IpIpPacketFromProvider) as ->.
  { unfold ToFrame in Ef. case_bool; [by injection Ef as <-|]. destruct (marshalMessage _); try done. by injection Ef as <-. }
  cbn [Z.eqb Pos.eqb MessageType_IpIpPacketFromProvider]. rewrite Efrom. cbn [must obind PacketBytes]. by rewrite Ep.
Qed.
(** A provider sends on only packets that its policy allows. *)
Lemma provider_frame_allowed clientId done source mode f stats acts stats' s m packet :
  provider_receive_frame blockIp4s clientId done source mode f stats = Val (acts, stats') →
  PvSendPacket s m packet ∈ acts →
  s = source ∧ m = mode ∧ ∃ p, ParseIpPath packet = Val p ∧ egress_inspect blockIp4s p = SecurityPolicyResultAllow.
Proof.
  unfold provider_receive_frame. destruct (_ =? _)%Z.
  { destruct (sent_or_not _); try done. cbn [obind]. intros [= <- _]. set_solver. }
  destruct (_ =? _)%Z; [|intros [= <- _]; set_solver].
  destruct (must (FromFrame f)) as [[| [b|] | | |]| |]; try done. cbn [obind PacketBytes].
  destruct (ParseIpPath b) as [p| |] eqn:Ep; [|intros [= <- _]; set_solver|done].
  cbn [Inspect]. intros [= <- _]. destruct (egress_inspect blockIp4s p) eqn:Ei; [set_solver| |set_solver].
  intros [= -> -> ->]%list_elem_of_singleton. split_and!; [done..|]. by exists p.
Qed.
Lemma provider_allowed clientId done source mode frames stats acts stats' s m packet :
  provider_ClientReceive blockIp4s clientId done source frames mode stats = Val (acts, stats') →
  PvSendPacket s m packet ∈ acts →
  s = source ∧ m = mode ∧ ∃ p, ParseIpPath packet = Val p ∧ egress_inspect blockIp4s p = SecurityPolicyResultAllow.
Proof.
  revert stats acts. induction frames as [|f frames IH]; intros stats acts; simpl; [intros [= <- _]; set_solver|].
  destruct (provider_receive_frame _ _ _ _ _ f stats) as [[a1 s1]| |] eqn:E1; try done. cbn [obind].
  destruct (provider_ClientReceive _ _ _ _ frames mode s1) as [[a2 s2]| |] eqn:E2; try done. cbn [obind].
  intros [= <- <-] [Ha|Ha]%elem_of_app; [by eapply provider_frame_allowed|]. by eapply (IH s1).
Qed.

(** C14. A packet goes through a provider unchanged or not at all: what a client
    sends for a packet is one frame, without an ack for UDP; a provider that
    reads this frame, with any counts, gives exactly this packet to its NAT, from
    the source and with the provide mode that it came with, and the NAT gives it
    to the sequence of the flow that the packet's path names. A packet that the
    client does not parse or that its policy does not allow is not sent, and
    whatever frames a provider is given, it passes on only packets that its
    policy allows. *)
Theorem packets_through_provider (done done' : bool) (i : nat) (packet : list byte) (c c' : RemoteUserNatClient)
    (sent : option SendAction) :
  client_SendPacket (codec := codec) blockIp4s done i packet c = Val (sent, c') →
  (∀ a, sent = Some a → ∃ p, ParseIpPath packet = Val p ∧ egress_inspect blockIp4s p = SecurityPolicyResultAllow ∧
    sp_Ack (action_pack a) = negb (bool_decide (Protocol p = IpProtocolUdp)) ∧
    ∀ clientId source mode stats, ∃ stats',
      provider_ClientReceive blockIp4s clientId done' source [sp_Frame (action_pack a)] mode stats =
        Val ([PvSendPacket source mode packet], stats') ∧
      ∀ payload, ParseIpPathWithPayload packet = Val (p, payload) →
        (∀ b, Version p = 4%Z → path_buffer 4 source p = Val b →
          if bool_decide (Protocol p = IpProtocolUdp) then nat_dispatch source packet = Val (NatUdp4 b (mkUdpSendItem payload packet))
          else ∃ tcp, nat_dispatch source packet = Val (NatTcp4 b tcp payload)) ∧
        (∀ b, Version p = 6%Z → path_buffer 16 source p = Val b →
          if bool_decide (Protocol p = IpProtocolUdp) then nat_dispatch source packet = Val (NatUdp6 b (mkUdpSendItem payload packet))
          else ∃ tcp, nat_dispatch source packet = Val (NatTcp6 b tcp payload))) ∧
  (∀ clientId source frames mode stats acts stats' s m b,
    provider_ClientReceive blockIp4s clientId done' source frames mode stats = Val (acts, stats') →
    PvSendPacket s m b ∈ acts →
    s = source ∧ m = mode ∧ ∃ p, ParseIpPath b = Val p ∧ egress_inspect blockIp4s p = SecurityPolicyResultAllow).
Proof.
  intros E. split; [|by intros; eapply provider_allowed].
  intros a ->. unfold client_SendPacket in E. destruct (ParseIpPath packet) as [p| |] eqn:Ep; try done.
  cbn [Inspect] in E. destruct (egress_inspect blockIp4s p) eqn:Ei; try done.
  destruct (SelectDestination _ _ _) as [[d t]| |]; try done.
  destruct (ToFrame _ _) as [f| |] eqn:Ef; try done. cbn [must obind] in E.
  destruct (sent_or_not _) as [sent| |] eqn:Es; try done. cbn [obind] in E. injection E as -> _.
  apply sent_frame, send_multi_hop_pack in Es as [Hfr Hack].
  exists p. split_and!; [done..| |].
  - rewrite Hack. unfold client_opts. by destruct (Protocol p).
  - intros clientId source mode stats. eexists. rewrite Hfr. cbn [provider_ClientReceive].
    rewrite (provider_frame _ _ _ _ _ _ _ _ _ Ef Ep). cbn [Inspect]. rewrite Ei. cbn [obind app]. split; [done|].
    intros payload Epp. rewrite (nat_dispatch_parsed _ _ _ _ Epp).
    split; intros b Hv Eb; rewrite Hv; cbn [Z.eqb Pos.eqb]; rewrite Eb; cbn [obind];
      by destruct (Protocol p); simpl; eauto.
Qed.

(** C15. Replies come back unchanged: for a packet that its NAT got for a flow, a
    provider sends one frame of any protocol version to the source of the flow,
    under the companion contract and without an ack for UDP, or nothing when the
    source is the provider itself or its context is done; and the client that
    reads the frame calls its callback with this packet and its path. The
    packets of a UDP sequence for one datagram reach the callback as replies
    from the destination of the flow to its source that hold the datagram. *)
Theorem replies_through_provider (clientId : Id) (version : Z) (source source' : TransferPath) (mode : Z)
    (ipPath : IpPath) (packet : list byte) :
  (∀ a p, provider_Receive (codec := codec) clientId version false source ipPath packet = Val (Some a) →
    ParseIpPath packet = Val p →
    clientId ≠ SourceId_ source ∧ Protocol ipPath ≠ IpProtocolUnknown ∧
    sp_Ack (action_pack a) = negb (bool_decide (Protocol ipPath = IpProtocolUdp)) ∧
    (a = SendLoopback (action_pack a) ∨
     a = SendToBuffer (mkKey (Reverse source) MultiHopId_zero true false) (action_pack a)) ∧
    client_ClientReceive source' [sp_Frame (action_pack a)] mode = Val [mkReceivedPacket source' mode p packet]) ∧
  (∀ flow settings d ps, @datagram_packets GP flow settings d ps → ∀ fs,
    Forall2 (λ b f, ToFrame (codec := codec) (MIpPacketFromProvider (Some b)) version = Val f) ps fs →
    ∃ pays, concat pays = d ∧ Forall2 (λ b pay, ∃ q, ParseIpPathWithPayload b = Val (q, pay)) ps pays ∧
    client_ClientReceive source' fs mode =
      Val (map (mkReceivedPacket source' mode
                  (flow_path (fl_ipVersion flow) IpProtocolUdp (fl_destinationIp flow) (fl_destinationPort flow)
                     (fl_sourceIp flow) (fl_sourcePort flow))) ps)).
Proof.
  split.
  - intros a p E Ep. unfold provider_Receive in E. case_bool_decide as Ec; [done|].
    destruct (ToFrame _ _) as [f| |] eqn:Ef; try done. cbn [must obind] in E.
    assert (∀ opts, sent_or_not (SendWithTimeoutDetailed clientId false f (Reverse source) no_callback opts) = Val (Some a) →
      opt_CompanionContract (foldl apply_option DefaultTransferOpts opts) = true →
      opt_ForceStream (foldl apply_option DefaultTransferOpts opts) = false →
      sp_Ack (action_pack a) = opt_Ack (foldl apply_option DefaultTransferOpts opts) ∧
      (a = SendLoopback (action_pack a) ∨ a = SendToBuffer (mkKey (Reverse source) MultiHopId_zero true false) (action_pack a)) ∧
      client_ClientReceive source' [sp_Frame (action_pack a)] mode = Val [mkReceivedPacket source' mode p packet]) as Hs.
    { intros opts Es%sent_frame Hcc Hfs. unfold SendWithTimeoutDetailed, sendWithTimeoutDetailed in Es.
      rewrite Hcc, Hfs in Es. destruct (negb _); [done|].
      assert (sp_Frame (action_pack a) = f) as ->; [by case_bool_decide; injection Es as <-|].
      cbn [client_ClientReceive]. rewrite (client_frame _ _ _ _ _ _ Ef Ep). cbn [obind].
      case_bool_decide; injection Es as <-; simpl; auto. }
    destruct (Protocol ipPath); [done|..]; (destruct (Hs _ E) as (H1 & H2 & H3); [done..|]); by rewrite H1.
  - intros flow settings d ps (pays & Ed & Hps & _) fs Hfs. exists pays. split; [done|]. split.
    { eapply Forall2_impl; [exact Hps|]. intros b pay [Eb _]. by eexists. }
    clear Ed. revert fs Hfs. induction Hps as [|b pay ps pays [Eb _] _ IH]; intros fs Hfs.
    + by apply Forall2_nil_inv_l in Hfs as ->.
    + apply Forall2_cons_inv_l in Hfs as (f & fs' & Ef & Hfs & ->). cbn [client_ClientReceive].
      assert (ParseIpPath b = Val (flow_path (fl_ipVersion flow) IpProtocolUdp (fl_destinationIp flow)
        (fl_destinationPort flow) (fl_sourceIp flow) (fl_sourcePort flow))) as Ep by (unfold ParseIpPath; by rewrite Eb).
      rewrite (client_frame _ _ _ _ _ _ Ef Ep). cbn [obind]. by rewrite (IH fs' Hfs).
Qed.
End EndToEnd.

(** ** A client and a provider *)
Module RemoteExample.
Import IpExample TcpExample FrameExample SecurityExample UdpExample.
Definition ex_id (n : Z) : Id := to_array 16 (bytes [n]%Z).
Definition ex_hop (n : Z) : MultiHopId := mkMultiHopId (ex_id n :: replicate (MaxMultihopLength - 1) Id_zero) 1.
(** A UDP packet of two bytes from a port to a port of a server. *)
Definition ex_udp_packet (port : Z) : list byte :=
  match serializeUDP (mkIpLayer 4 64 (bytes [10; 0; 0; 1]%Z) (bytes [93; 184; 216; 34]%Z) IPProtocolUDP)
          (mkUdpLayer port 443) (bytes [7; 8]%Z) with Val b => b | _ => [] end.
Definition ex_destinations : list MultiHopId := [ex_hop 2; ex_hop 3].
Definition ex_table : pathTable := mkPathTable ex_destinations ∅ ∅.
(** Two flows; the second packet of the first one comes with another choice. *)
Definition ex_calls : list (nat * list byte) := [(1, ex_udp_packet 5000); (0, ex_udp_packet 5001); (0, ex_udp_packet 5000)].
Lemma flow_keeps_destination_witness :
  newPathTable ex_destinations = Val ex_table ∧
  select_all ex_calls ex_table !! 0 = Some (Val (ex_hop 3)) ∧
  ∀ d, select_all ex_calls ex_table !! 2 = Some (Val d) → ex_hop 3 = d.
Proof.
  split; [done|]. assert (select_all ex_calls ex_table !! 0 = Some (Val (ex_hop 3))) as E by (by vm_compute).
  split; [exact E|]. intros d Hd.
  destruct (flow_keeps_destination ex_destinations ex_table ex_calls) as (_ & H & _).
  - done.
  - repeat (apply Forall_cons; split); try done; simpl; lia.
  - exact (H 0 2 1 0 _ _ _ _ eq_refl eq_refl eq_refl ltac:(by vm_compute) E Hd).
Defined.

Definition ex_remote : RemoteUserNatClient := mkRemoteClient (ex_id 1) DefaultSecurityPolicyStatsCollector ex_table.
Definition ex_sent : outcome (option SendAction * RemoteUserNatClient) :=
  client_SendPacket (codec := ex_frames) ex_blocked false 1 (ex_udp_packet 5000) ex_remote.
Definition ex_action : SendAction :=
  match ex_sent with Val (Some a, _) => a | _ => SendLoopback (mkSendPack (mkFrame 0 [] false) 1 false 0) end.
Definition ex_remote_after : RemoteUserNatClient := match ex_sent with Val (_, c) => c | _ => ex_remote end.
Lemma ex_sent_value : ex_sent = Val (Some ex_action, ex_remote_after).
Proof.
  assert (match ex_sent with Val (Some _, _) => true | _ => false end = true) as E by (by vm_compute).
  unfold ex_action, ex_remote_after. by destruct ex_sent as [[[a|] c]| |].
Qed.
Lemma packets_through_provider_witness :
  ex_sent = Val (Some ex_action, ex_remote_after) ∧ sp_Ack (action_pack ex_action) = false ∧
  ∃ stats', provider_ClientReceive (codec := ex_frames) ex_blocked (ex_id 3) false (SourceId (ex_id 1))
    [sp_Frame (action_pack ex_action)] ProvideMode_Network DefaultSecurityPolicyStatsCollector =
    Val ([PvSendPacket (SourceId (ex_id 1)) ProvideMode_Network (ex_udp_packet 5000)], stats').
Proof.
  split; [exact ex_sent_value|]. split; [by vm_compute|].
  destruct (proj1 (packets_through_provider (codec := ex_frames) ex_blocked false false 1 (ex_udp_packet 5000) ex_remote
    ex_remote_after (Some ex_action) ex_sent_value) ex_action eq_refl) as (p & _ & _ & _ & H).
  destruct (H (ex_id 3) (SourceId (ex_id 1)) ProvideMode_Network DefaultSecurityPolicyStatsCollector) as (stats' & E & _).
  by exists stats'.
Defined.
(** The reply of the server, by a provider of the first version. *)
Definition ex_reply : list byte :=
  match serializeUDP (mkIpLayer 4 64 (bytes [93; 184; 216; 34]%Z) (bytes [10; 0; 0; 1]%Z) IPProtocolUDP)
          (mkUdpLayer 443 5000) (bytes [9]%Z) with Val b => b | _ => [] end.
Definition ex_reply_path : IpPath :=
  flow_path 4 IpProtocolUdp (bytes [93; 184; 216; 34]%Z) 443 (bytes [10; 0; 0; 1]%Z) 5000.
Definition ex_reply_action : SendAction :=
  match provider_Receive (codec := ex_frames) (ex_id 3) 1 false (SourceId (ex_id 1)) (IpPath_Reverse ex_reply_path) ex_reply with
  | Val (Some a) => a | _ => SendLoopback (mkSendPack (mkFrame 0 [] false) 1 false 0) end.
Lemma replies_through_provider_witness :
  client_ClientReceive (codec := ex_frames) (SourceId (ex_id 3)) [sp_Frame (action_pack ex_reply_action)] ProvideMode_Public =
    Val [mkReceivedPacket (SourceId (ex_id 3)) ProvideMode_Public ex_reply_path ex_reply].
Proof.
  destruct (proj1 (replies_through_provider (codec := ex_frames) (ex_id 3) 1 (SourceId (ex_id 1)) (SourceId (ex_id 3))
    ProvideMode_Public (IpPath_Reverse ex_reply_path) ex_reply) ex_reply_action ex_reply_path) as (_ & _ & _ & _ & E);
    [by vm_compute..|exact E].
Defined.
(** A frame without a packet ends the receive callback of a provider. *)
Example provider_packet_missing :
  provider_ClientReceive (codec := ex_frames) ex_blocked (ex_id 3) false (SourceId (ex_id 1))
    [mkFrame MessageType_IpIpPacketToProvider (encode_bytes (MIpPacketToProvider (Body := list byte) None)) false]
    ProvideMode_Network DefaultSecurityPolicyStatsCollector = Panic "nil pointer dereference".
Proof. by vm_compute. Qed.
End RemoteExample.
