(* ===== verification/Delivery.v ===== *)
(** * Delivery: a send sequence and its receive sequence, joined by the network

    The two machines of SendSequence.v and ReceiveSequence.v and the two clients
    of Client.v, put together: the frames that the sender writes reach the
    receiver's client in any order, any number of times or never, and so do the
    frames of acks on the way back. The promises of the two machines, each made
    for all inputs, compose here to the promise of the protocol. *)

From S2P Require Import Prelude Ids GoHeap TransferQueue RttWindow Contracts Wire ContractManager ReceiveSequence SendSequence SendInvariant Client.
Open Scope go_scope.

(** ** The joint system *)
(** A sequence between two clients. *)
Record Link := mkLink {
  lk_sendSettings : SendBufferSettings;
  lk_receiveSettings : ReceiveBufferSettings;
  lk_sender : Id;
  lk_receiver : Id;
  lk_key : ContractKey;
  lk_sequenceId : Id;
  lk_source : TransferPath;
  lk_openSender : Id → bool;
  lk_openReceiver : Id → bool
}.
Record Joint := mkJoint {
  j_send : SendSequence;
  j_sending : bool;
  j_recv : ReceiveSequence;
  j_receiving : bool;
  j_ackFrames : list (list byte)
}.
(** A step: a turn of the sender, with the frames of acks that reach its client
    since the last one; a turn of the receiver, with the frame that reaches its
    client; a pass of the ack writer. Frames are named by their position among
    those written so far. *)
Inductive recv_input :=
| RecvFrame (i : nat)
| RecvTimeout (idleClosed : bool)
| RecvDone.
Inductive joint_input :=
| JSend (t : ss_turn) (acks : list nat)
| JRecv (start now : time) (cm : ContractManager) (input : recv_input)
| JAcks (order : list (Id * sequenceAck) → list (Id * sequenceAck)).

Definition with_acks (acks : list ProtoAck) (t : ss_turn) : ss_turn :=
  mkSendTurn acks (u_ackTime t) (u_sendTime t) (u_takeTime t) (u_writeTime t) (u_cm t) (u_attempts t)
    (u_contractMessageId t) (u_messageId t) (u_writeErr t) (u_order t) (u_input t).

Section Joint.
Context `{codec : TransferCodec}.
Variable lk : Link.
Variable unmarshalContract : list byte → outcome Contract.
Variable unmarshalStored : list byte → outcome StoredContract.

(** What a client makes of a frame: the acks for the send buffer, and the packs
    for this receive sequence. *)
Definition acks_of (now : time) (bytes : list byte) : list ProtoAck :=
  omap (λ a, match a with ClAck _ ack => Some ack | _ => None end)
    (handle_frame (lk_sender lk) (lk_openSender lk) now bytes).
Definition packs_of (now : time) (bytes : list byte) : list ReceivePack :=
  omap (λ a, match a with
             | ClPack source sequenceId p =>
                 if bool_decide (source = lk_source lk ∧ sequenceId = lk_sequenceId lk) then Some p else None
             | _ => None
             end)
    (handle_frame (lk_receiver lk) (lk_openReceiver lk) now bytes).

Definition sent_frames (st : SendSequence) : list (list byte) :=
  map si_transferFrameBytes (written (ss_events st)).
Definition arriving_acks (now : time) (l : list nat) (j : Joint) : list ProtoAck :=
  l ≫= λ i, match j_ackFrames j !! i with Some f => acks_of now f | None => [] end.
Definition arriving_turn (start now : time) (cm : ContractManager) (input : recv_input) (j : Joint)
    : option turn :=
  match input with
  | RecvFrame i => f ← sent_frames (j_send j) !! i; p ← head (packs_of now f);
                   Some (mkTurn start now cm (InPack p))
  | RecvTimeout idleClosed => Some (mkTurn start now cm (InTimeout idleClosed))
  | RecvDone => Some (mkTurn start now cm InDone)
  end.

Definition joint_step (i : joint_input) (j : Joint) : outcome Joint :=
  match i with
  | JSend t acks =>
      if j_sending j then
        let! (go, st) := ss_turn_step (lk_sendSettings lk) (lk_sender lk) (lk_sequenceId lk) (lk_key lk)
                           unmarshalStored (with_acks (arriving_acks (u_ackTime t) acks j) t) (j_send j) in
        Val (mkJoint (if (go : bool) then st else ss_exit (lk_key lk) st) go (j_recv j) (j_receiving j)
               (j_ackFrames j))
      else Val j
  | JRecv start now cm input =>
      match arriving_turn start now cm input j with
      | Some t =>
          if j_receiving j then
            let! (go, st) := rs_turn (lk_receiveSettings lk) (lk_source lk) unmarshalContract unmarshalStored
                               t (j_recv j) in
            Val (mkJoint (j_send j) (j_sending j) (if (go : bool) then st else rs_exit now st) go (j_ackFrames j))
          else Val j
      | None => Val j
      end
  | JAcks order =>
      let! (frames, st) := ack_pass (lk_receiveSettings lk) (lk_source lk) (lk_receiver lk) (lk_sequenceId lk)
                             order (j_recv j) in
      Val (mkJoint (j_send j) (j_sending j) st (j_receiving j) (j_ackFrames j ++ frames))
  end.
Definition joint_start : outcome Joint :=
  let! s := NewSendSequence (lk_sendSettings lk) in
  let! r := NewReceiveSequence (lk_source lk) (lk_receiveSettings lk) in
  Val (mkJoint s true r true []).
Fixpoint joint_steps (l : list joint_input) (j : Joint) : outcome Joint :=
  match l with
  | [] => Val j
  | i :: l => let! j := joint_step i j in joint_steps l j
  end.
Definition joint_run (l : list joint_input) : outcome Joint :=
  let! j := joint_start in joint_steps l j.

(** The packs that arrive are of the sizes and from the peers that the receive
    sequence is promised for. *)
#[export] Instance receive_turn_ok_dec source t : Decision (ReceiveSequence.turn_ok source t).
Proof. unfold ReceiveSequence.turn_ok, pack_ok, nack_ok. destruct (t_input t); apply _. Defined.
Definition arrival_ok (i : joint_input) (j : Joint) : bool :=
  match i with
  | JRecv start now cm input =>
      match arriving_turn start now cm input j with
      | Some t => bool_decide (ReceiveSequence.turn_ok (lk_source lk) t)
      | None => true
      end
  | _ => true
  end.
Fixpoint arrivals_ok (l : list joint_input) (j : Joint) : bool :=
  match l with
  | [] => true
  | i :: l => arrival_ok i j && match joint_step i j with Val j => arrivals_ok l j | _ => true end
  end.
Definition run_arrivals_ok (l : list joint_input) : bool :=
  match joint_start with Val j => arrivals_ok l j | _ => true end.
Definition sender_turns (l : list joint_input) : list ss_turn :=
  omap (λ i, match i with JSend t _ => Some t | _ => None end) l.
End Joint.

(** ** The invariant *)
(** *** Items that the sender wrote *)
Section Sent.
Context `{codec : TransferCodec}.

(** [i] was made from a frame of the trace. *)
Definition sent_item (ev : list ss_event) (i : receiveItem) : Prop :=
  ∃ w p now m c rp, w ∈ written ev ∧ item_pack w = Val p ∧ rp_Pack rp = p ∧
    IdFromBytes (Pack_MessageId p) = Val m ∧ i = make_item now m c rp.
Lemma sent_item_contract ev i c : sent_item ev i → sent_item ev (set_contractId i c).
Proof. intros (w & p & now & m & c0 & rp & ? & ? & ? & ? & ->). by exists w, p, now, m, c, rp. Qed.
Lemma sent_item_app ev ev' i : sent_item ev i → sent_item (ev ++ ev') i.
Proof.
  intros (w & p & now & m & c & rp & ? & ?). exists w, p, now, m, c, rp. split; [|done].
  rewrite written_app. apply elem_of_app. by left.
Qed.
(** What the receiver acks is one of the queued messages. *)
Lemma sent_listed full ev i :
  trace_ok full ev → sent_item ev i → ri_ack i = true →
  ∃ q, q ∈ queued ev ∧ si_messageId q = ri_messageId i ∧ si_sequenceNumber q = ri_sequenceNumber i ∧
    item_body q = Val (false, ri_frames i) ∧
    (ri_head i = true → ∀ q', q' ∈ queued ev → (si_sequenceNumber q' < ri_sequenceNumber i)%Z →
      si_messageId q' ∈ acked ev).
Proof.
  intros Ht (w & p & now & m & c & rp & Hw & Hp & Erp & Em & ->) Hack.
  destruct (tk_writes _ _ Ht w Hw) as ((p' & Hp' & Eid & En & Eh & _) & Hh & Hk).
  assert (p' = p) as -> by congruence. rewrite Eid, IdFromBytes_Bytes in Em. injection Em as <-.
  simpl in *. rewrite Erp in *. apply negb_true_iff in Hack.
  destruct Hk as [(_ & p' & Hp'' & Hn)|(q & Hq & Ek & Eb)]; [congruence|]. injection Ek as Ek1 Ek2.
  exists q. split_and!; [done|done|congruence| |].
  - rewrite Eb. unfold item_body. rewrite Hp. simpl. by rewrite Hack.
  - rewrite Eh. intros Hw' q' Hq'. rewrite En. by apply Hh.
Qed.

(** The queued message with a number. *)
Lemma queued_at full ev n : trace_ok full ev → (0 ≤ n < Z.of_nat (length (queued ev)))%Z →
  ∃ q, queued ev !! Z.to_nat n = Some q ∧ si_sequenceNumber q = n.
Proof.
  intros Ht Hn. destruct (lookup_lt_is_Some_2 (queued ev) (Z.to_nat n)) as [q Hq]; [lia|].
  exists q. split; [done|].
  assert (map si_sequenceNumber (queued ev) !! Z.to_nat n = Some (si_sequenceNumber q)) as Hs
    by (rewrite list_lookup_fmap, Hq; done).
  rewrite (tk_numbers _ _ Ht) in Hs. apply lookup_seqZ in Hs. lia.
Qed.
Lemma queued_number full ev q : trace_ok full ev → q ∈ queued ev →
  (0 ≤ si_sequenceNumber q < Z.of_nat (length (queued ev)))%Z ∧
  queued ev !! Z.to_nat (si_sequenceNumber q) = Some q.
Proof.
  intros Ht [k Hk]%list_elem_of_lookup.
  assert (map si_sequenceNumber (queued ev) !! k = Some (si_sequenceNumber q)) as Hs
    by (rewrite list_lookup_fmap, Hk; done).
  rewrite (tk_numbers _ _ Ht) in Hs. apply lookup_seqZ in Hs as [Hs ?]. rewrite Hs.
  split; [lia|]. by replace (Z.to_nat (0 + Z.of_nat k)) with k by lia.
Qed.
Lemma queued_same_id full ev q q' : trace_ok full ev → q ∈ queued ev → q' ∈ queued ev →
  si_messageId q = si_messageId q' → q = q'.
Proof.
  intros Ht [i Hi]%list_elem_of_lookup [j Hj]%list_elem_of_lookup E.
  assert (i = j) as ->; [|congruence].
  eapply NoDup_lookup; [exact (tk_ids _ _ Ht)| |]; rewrite list_lookup_fmap.
  - rewrite Hi. done.
  - rewrite Hj. simpl. by rewrite E.
Qed.

(** An acked message is below what the receiver confirmed. *)
Lemma acked_below full ev q n :
  trace_ok full ev → q ∈ queued ev → si_messageId q ∈ acked ev →
  (∀ id, full id → ∃ q, q ∈ queued ev ∧ si_messageId q = id ∧ (si_sequenceNumber q < n)%Z) →
  (si_sequenceNumber q < n)%Z.
Proof.
  intros Ht Hq Ha Hf. destruct (tk_covered _ _ Ht (si_messageId q)) as (i & Hi & Ei & j & Hj & Hfj & Hle);
    [by apply list_elem_of_fmap_2|done|].
  rewrite (queued_same_id full ev i q) in Hle by done.
  destruct (Hf _ Hfj) as (q' & Hq' & Eq' & Hn). rewrite (queued_same_id full ev q' j) in Hn by done. lia.
Qed.

(** Deliveries in order have no gaps: a head comes after messages that are
    acked, thus already delivered. *)
Lemma no_gaps full ev D0 D1 :
  trace_ok full ev →
  (∀ id, full id → ∃ q, q ∈ queued ev ∧ si_messageId q = id ∧ (si_sequenceNumber q < Z.of_nat (length D0))%Z) →
  map ri_sequenceNumber D0 = seqZ 0 (Z.of_nat (length D0)) →
  in_order 0 (D0 ++ D1) → (∀ i, i ∈ D1 → sent_item ev i ∧ ri_ack i = true) →
  map ri_sequenceNumber (D0 ++ D1) = seqZ 0 (Z.of_nat (length (D0 ++ D1))).
Proof.
  intros Ht Hf H0. induction D1 as [|x D1 IH] using rev_ind; intros Ho Hs; [by rewrite app_nil_r|].
  rewrite (assoc_L (++)) in *. apply in_order_snoc_inv in Ho as [Ho Hx].
  specialize (IH Ho). rewrite map_app, length_app. cbn [length map].
  assert (∀ i, i ∈ D1 → sent_item ev i ∧ ri_ack i = true) as Hs1
    by (intros i Hi; apply Hs, elem_of_app; by left).
  specialize (IH Hs1). rewrite (next_after_seqZ _ IH) in Hx.
  set (n := Z.of_nat (length (D0 ++ D1))) in *.
  assert (ri_sequenceNumber x = n) as E.
  { destruct Hx as [?|[Hh Hlt]]; [done|]. exfalso.
    destruct (Hs x) as [Hsx Hax]; [apply elem_of_app; right; by apply list_elem_of_singleton|].
    destruct (sent_listed full ev x Ht Hsx Hax) as (q & Hq & _ & En & _ & Hbefore).
    destruct (queued_number full ev q Ht Hq) as [Hn _]. rewrite En in Hn.
    destruct (queued_at full ev n Ht) as (q' & Hq' & En'); [lia|]. apply list_elem_of_lookup_2 in Hq'.
    assert (si_sequenceNumber q' < Z.of_nat (length D0))%Z as Hlow.
    { eapply acked_below; [done|done| |exact Hf]. apply Hbefore; [done|done|lia]. }
    subst n. rewrite length_app in *. lia. }
  rewrite IH, E. unfold n. rewrite Nat2Z.inj_add. rewrite seqZ_app by lia. f_equal.
Qed.
End Sent.

(** *** Frames on the way *)
Section Frames.
Context `{codec : TransferCodec} `{!TransferCodecLaws codec}.
Variable lk : Link.

Lemma local_pack now source bytes tf s sid p :
  unmarshalTransferFrame bytes = Val tf → ClPack s sid p ∈ handle_local now source bytes →
  ∃ ack, frame_contents tf = Some (ack, Some (rp_Pack p)).
Proof.
  intros E. unfold handle_local. rewrite E. destruct (frame_contents tf) as [[ack [pack|]]|].
  - intros Hin. exists ack. assert (rp_Pack p = pack) as ->; [|done].
    destruct ack, (IdFromBytes (Pack_SequenceId pack)); set_unfold in Hin; naive_solver.
  - destruct ack; set_unfold; naive_solver.
  - unfold updatePeerAudit. destruct (audit_Update _ _ _). set_unfold. naive_solver.
Qed.
Lemma local_ack now source bytes tf d a :
  unmarshalTransferFrame bytes = Val tf → ClAck d a ∈ handle_local now source bytes →
  ∃ pack, frame_contents tf = Some (Some a, pack).
Proof.
  intros E. unfold handle_local. rewrite E. destruct (frame_contents tf) as [[[ack|] pack]|].
  - intros Hin. exists pack. assert (a = ack) as ->; [|done].
    destruct pack as [pack|]; [destruct (IdFromBytes (Pack_SequenceId pack))|]; set_unfold in Hin; naive_solver.
  - destruct pack as [pack|]; [destruct (IdFromBytes (Pack_SequenceId pack))|]; set_unfold; naive_solver.
  - unfold updatePeerAudit. destruct (audit_Update _ _ _). set_unfold. naive_solver.
Qed.
Lemma dispatched clientId open now bytes a :
  a ∈ handle_frame clientId open now bytes →
  (∃ source, a ∈ handle_local now source bytes) ∨ (∃ path, a = ClForward path bytes) ∨ a = ClPoolReturn bytes.
Proof.
  unfold handle_frame. destruct (unmarshalFiltered bytes) as [[pp|]| |]; [|set_unfold; naive_solver..].
  destruct (TransferPathFromProtobuf pp) as [path| |]; [|set_unfold; naive_solver..].
  cbv zeta. destruct (if IsStream path then _ else _); [|set_unfold; naive_solver]. intros H. left. eauto.
Qed.

(** What the receiver makes of a frame that the sender wrote. *)
Lemma packs_of_pack now w pack p :
  item_pack w = Val pack → p ∈ packs_of lk now (si_transferFrameBytes w) → rp_Pack p = pack.
Proof.
  unfold item_pack, packs_of. intros Hp (a & Ha & Hs)%list_elem_of_omap.
  destruct a as [|? ?|s sid rp|? ?|?]; try done. case_bool_decide; [|done]. injection Hs as ->.
  destruct (unmarshalTransferFrame _) as [tf| |] eqn:E; [|done..]. cbn [obind] in Hp.
  apply dispatched in Ha as [(src & Ha)|[[? ?]|?]]; [|done..].
  destruct (local_pack _ _ _ _ _ _ _ E Ha) as (ack & Hc).
  unfold only_pack, frame_contents in *. destruct (tf_Ack tf), (tf_Frame tf) as [f|], (tf_Pack tf); try done.
  - revert Hp. case_bool; [|done]. intros Hp. rewrite Hp in Hc. revert Hc.
    unfold MessageType_TransferAck, MessageType_TransferPack in *. case_bool; [lia|]. naive_solver.
  - naive_solver.
Qed.
(** What the sender makes of a frame that the ack writer wrote. *)
Lemma acks_of_ack s source peerId sequenceId now sa a :
  a ∈ acks_of lk now (writeAck s source peerId sequenceId sa) →
  a = mkProtoAck (Id_Bytes (ack_messageId sa)) (Id_Bytes sequenceId) (ack_selective sa) (ack_tag sa).
Proof.
  unfold acks_of. intros (c & Hc & Hs)%list_elem_of_omap. destruct c as [|d a'| | |]; try done. injection Hs as ->.
  apply dispatched in Hc as [(src & Hc)|[[? ?]|?]]; [|done..].
  assert (∃ tf, unmarshalTransferFrame (writeAck s source peerId sequenceId sa) = Val tf ∧
    frame_contents tf = Some (Some (mkProtoAck (Id_Bytes (ack_messageId sa)) (Id_Bytes sequenceId)
      (ack_selective sa) (ack_tag sa)), None)) as (tf & E & Ef).
  { unfold writeAck. eexists. split; [apply unmarshal_marshal_frame|]. case_bool; [done|].
    unfold frame_contents. simpl. by rewrite unmarshal_marshal_ack. }
  destruct (local_ack _ _ _ _ _ _ E Hc) as (pk & Ec). congruence.
Qed.
End Frames.

(** *** The joint invariant *)
Section Invariant.
Context `{codec : TransferCodec} `{!TransferCodecLaws codec}.
Variable lk : Link.
Variable unmarshalContract : list byte → outcome Contract.
Variable unmarshalStored : list byte → outcome StoredContract.
Variable noC : bool.
Hypothesis min_ok : (0 < Send_MinMessageByteCount (lk_sendSettings lk) < 2 ^ 62)%Z.
Hypothesis resend_ok : (0 < MinResendInterval (lk_sendSettings lk))%Z ∧ (0 < MaxResendInterval (lk_sendSettings lk))%Z.
Hypothesis window_ok : RttWindowSize (lk_sendSettings lk) ≠ 0.
Hypothesis min_small : (0 ≤ MinMessageByteCount (lk_receiveSettings lk) < 2 ^ 62)%Z.
Hypothesis max_small : (ReceiveQueueMaxByteCount (lk_receiveSettings lk) ≤ 2 ^ 62)%Z.
Hypothesis stored_small : ∀ b s, unmarshalStored b = Val s →
  (f32_to_i64 (f32_mul (f32_of_Z (TransferByteCount s)) (ContractFillFraction (lk_sendSettings lk))) < 2 ^ 62)%Z ∧
  (f32_to_i64 (f32_mul (f32_of_Z (TransferByteCount s)) fill_one) < 2 ^ 62)%Z.

Abbreviation sends := (send_run (lk_sendSettings lk) (lk_sender lk) (lk_sequenceId lk) (lk_key lk) unmarshalStored).
Abbreviation sender_ok := (SendInvariant.run_ok (lk_sendSettings lk) (lk_key lk) noC).
Abbreviation sent j := (ss_events (j_send j)).

(** The run of the sender is one of turns that differ from those of the inputs
    in the acks, which come from frames. *)
Definition same_turn (t t' : ss_turn) : Prop := ∃ acks, t = with_acks acks t'.
Record joint_inv (past : list ss_turn) (j : Joint) : Prop := {
  ji_run : ∃ turns, sends turns = Val (j_sending j, j_send j) ∧
    (∃ rest, Forall2 same_turn turns (take (length turns) past) ∧ past = take (length turns) past ++ rest ∧
      (j_sending j = true → rest = [])) ∧
    (∀ a, a ∈ flat_map u_acks turns → ∃ now f, f ∈ j_ackFrames j ∧ a ∈ acks_of lk now f);
  ji_recv : ∃ cms, rs_ok (lk_receiveSettings lk) (lk_source lk) (sent_item (sent j)) [] (j_receiving j) cms (j_recv j);
  ji_numbers : map ri_sequenceNumber (delivered (j_recv j)) = seqZ 0 (Z.of_nat (length (delivered (j_recv j))));
  ji_acks now f a id : f ∈ j_ackFrames j → a ∈ acks_of lk now f → confirms (lk_sequenceId lk) a id →
    ∃ q, q ∈ queued (sent j) ∧ si_messageId q = id ∧
      (si_sequenceNumber q < Z.of_nat (length (delivered (j_recv j))))%Z
}.

Lemma turns_ok_same t0 turns turns' :
  Forall2 same_turn turns turns' →
  turns_ok (lk_sendSettings lk) (lk_key lk) noC t0 turns' → turns_ok (lk_sendSettings lk) (lk_key lk) noC t0 turns.
Proof.
  intros H. revert t0. induction H as [|t t' l l' (acks & ->) _ IH]; intros t0; [done|].
  intros (H1 & [H2 H3 H4 H5] & H6%IH). split_and!; [done|by split|done].
Qed.
Lemma turns_ok_app t0 l l' :
  turns_ok (lk_sendSettings lk) (lk_key lk) noC t0 (l ++ l') → turns_ok (lk_sendSettings lk) (lk_key lk) noC t0 l.
Proof. revert t0. induction l as [|t l IH]; intros t0; [done|]. simpl. intros (? & ? & ?%IH). done. Qed.
Lemma sender_ok_same t0 past rest turns :
  sender_ok t0 (past ++ rest) → Forall2 same_turn turns past → sender_ok t0 turns.
Proof.
  intros [H1 H2 H3] Hs. split.
  - eapply turns_ok_same; [done|]. by eapply turns_ok_app.
  - assert (flat_map turn_ids turns = flat_map turn_ids past) as ->.
    { clear -Hs. induction Hs as [|t t' l l' (acks & ->) _ IH]; [done|]. simpl. by rewrite IH. }
    rewrite flat_map_app in H2. by apply NoDup_app in H2 as [? _].
  - rewrite (Forall2_length _ _ _ Hs). rewrite length_app in H3. lia.
Qed.

(** What the trace of the sender is like, with the messages that the receiver
    acked in full. *)
Lemma joint_trace past j t0 rest :
  joint_inv past j → sender_ok t0 (past ++ rest) →
  ∃ full, trace_ok full (sent j) ∧
    ∀ id, full id → ∃ q, q ∈ queued (sent j) ∧ si_messageId q = id ∧
      (si_sequenceNumber q < Z.of_nat (length (delivered (j_recv j))))%Z.
Proof.
  intros [(turns & Hr & (rest' & Hs & Ep & _) & Ha) _ _ Hk] Hok.
  assert (sender_ok t0 turns) as Hok'.
  { eapply sender_ok_same; [|exact Hs]. rewrite Ep, <-(assoc_L (++)) in Hok. exact Hok. }
  destruct (send_run_ok (lk_sendSettings lk) (lk_sender lk) (lk_sequenceId lk) (lk_key lk) unmarshalStored noC
    min_ok resend_ok window_ok (λ b s H, proj1 (stored_small b s H)) t0 turns Hok') as (go & st & E & Ht & _).
  rewrite Hr in E. injection E as <- <-.
  exists (confirmed (lk_sequenceId lk) turns). split; [done|]. intros id (a & Hin & Hc).
  destruct (Ha a Hin) as (now & f & Hf & Haf). by eapply Hk.
Qed.

(** *** The steps *)
Lemma send_step past rest j t0 t acks :
  joint_inv past j → sender_ok t0 (past ++ t :: rest) →
  ∃ j', joint_step lk unmarshalContract unmarshalStored (JSend t acks) j = Val j' ∧ joint_inv (past ++ [t]) j'.
Proof.
  intros Hj Hok. pose proof Hj as [(turns & Hr & (rest' & Hs & Ep & Hrest) & Ha) (cms & Hc & Hrs) Hn Hk].
  pose proof (Forall2_length _ _ _ Hs) as Hlen. rewrite length_take in Hlen.
  cbn [joint_step]. destruct (j_sending j) eqn:Esend.
  - rewrite (Hrest eq_refl), app_nil_r in Ep. rewrite <-Ep in Hs. pose proof (Forall2_length _ _ _ Hs) as Hlen'.
    set (t' := with_acks (arriving_acks lk (u_ackTime t) acks j) t).
    assert (sender_ok t0 (turns ++ [t'])) as Hok'.
    { apply (sender_ok_same _ (past ++ [t]) rest); [by rewrite <-(assoc_L (++))|].
      apply Forall2_app; [done|]. apply Forall2_cons. split; [by eexists|done]. }
    destruct (send_run_ok (lk_sendSettings lk) (lk_sender lk) (lk_sequenceId lk) (lk_key lk) unmarshalStored noC
      min_ok resend_ok window_ok (λ b s H, proj1 (stored_small b s H)) t0 _ Hok') as (go & st & E & _).
    pose proof E as E0. unfold send_run in E, Hr. destruct (NewSendSequence _) as [st0| |]; [|done..].
    cbn [obind] in *. rewrite ss_run_snoc, Hr in E. cbn [obind] in E.
    destruct (ss_turn_step _ _ _ _ _ t' (j_send j)) as [[go' st1]| |] eqn:Et; [|done..].
    cbn [obind] in *. injection E as <- <-. eexists. split; [done|].
    assert (∃ ev, ss_events (if go' then st1 else ss_exit (lk_key lk) st1) = sent j ++ ev) as (ev & Eev).
    { change (extends (j_send j) (if go' then st1 else ss_exit (lk_key lk) st1)).
      apply ss_turn_extends in Et. destruct go'; [done|]. by apply ss_exit_extends. }
    split; cbn [j_send j_sending j_recv j_receiving j_ackFrames]; rewrite ?Eev.
    + exists (turns ++ [t']). split; [done|]. split.
      * exists []. rewrite take_ge; [|rewrite !length_app, Hlen'; done]. rewrite app_nil_r. split_and!; [|done..].
        apply Forall2_app; [done|]. apply Forall2_cons. split; [by eexists|done].
      * intros a. rewrite flat_map_app, elem_of_app. intros [Hin|Hin]; [by apply Ha|].
        simpl in Hin. rewrite app_nil_r in Hin. unfold arriving_acks in Hin.
        apply list_elem_of_bind in Hin as (i & Hin & _). destruct (j_ackFrames j !! i) as [f|] eqn:Ef;
          [|by apply elem_of_nil in Hin]. exists (u_ackTime t), f. split; [|done]. by eapply list_elem_of_lookup_2.
    + exists cms. split; [done|]. eapply rest_ok_change; [|by apply Hrs|exact Hrs].
      intros i. apply sent_item_app.
    + done.
    + intros now f a id Hf Hin Hc'. destruct (Hk now f a id Hf Hin Hc') as (q & Hq & ?). exists q.
      split; [|done]. rewrite queued_app. apply elem_of_app. by left.
  - exists j. split; [done|]. split; [|by exists cms|done|done].
    exists turns. split; [by rewrite Esend|]. split; [|done]. exists (rest' ++ [t]).
    rewrite take_app_le by lia. split_and!; [done| |by rewrite Esend].
    rewrite (assoc_L (++)). by rewrite <-Ep.
Qed.

Lemma recv_step past rest j t0 start now cm input :
  joint_inv past j → sender_ok t0 (past ++ rest) → arrival_ok lk (JRecv start now cm input) j = true →
  ∃ j', joint_step lk unmarshalContract unmarshalStored (JRecv start now cm input) j = Val j' ∧ joint_inv past j'.
Proof.
  intros Hj Hok Harr. pose proof Hj as [Hrun (cms & Hc & Hrs) Hn Hk].
  destruct (joint_trace _ _ _ _ Hj Hok) as (full & Ht & Hfull).
  cbn [joint_step arrival_ok] in *. destruct (arriving_turn lk start now cm input j) as [t|] eqn:Et; [|by exists j].
  destruct (j_receiving j) eqn:Er; [|by exists j]. apply bool_decide_eq_true in Harr.
  set (from := sent_item (sent j)) in *.
  assert (rs_ok (lk_receiveSettings lk) (lk_source lk) from (events (j_recv j)) true cms (j_recv j)) as Hrs'.
  { split; [done|]. by eapply rest_ok_change. }
  destruct (rs_turn_spec (lk_receiveSettings lk) (lk_source lk) unmarshalContract unmarshalStored min_small
    max_small (λ b s H, proj2 (stored_small b s H)) from ltac:(intros; by apply sent_item_contract)
    (events (j_recv j)) cms t (j_recv j) Hrs' Harr) as (go & st & -> & Hst).
  { intros p Hp m c Hm. unfold arriving_turn in Et. destruct input as [i| |].
    - destruct (sent_frames (j_send j) !! i) as [f|] eqn:Ef; [|done]. cbn [mbind option_bind] in Et.
      destruct (head (packs_of lk now f)) as [p'|] eqn:Ep; [|done]. injection Et as <-. injection Hp as ->.
      apply list_elem_of_lookup_2 in Ef. apply list_elem_of_fmap in Ef as (w & -> & Hw).
      apply head_Some_elem_of in Ep.
      destruct (tk_writes _ _ Ht w Hw) as ((pk & Hpk & _) & _).
      pose proof (packs_of_pack lk now w pk p Hpk Ep) as E. rewrite E in Hm.
      by exists w, pk, now, m, c, p.
    - injection Et as <-. done.
    - injection Et as <-. done. }
  assert (t_now t = now) as Enow.
  { unfold arriving_turn in Et. destruct input as [i| |]; [|by injection Et as <-..].
    destruct (sent_frames (j_send j) !! i) as [f|]; [|done]. cbn [mbind option_bind] in Et.
    destruct (head (packs_of lk now f)); [|done]. by injection Et as <-. }
  cbn [obind]. eexists. split; [done|].
  set (st' := if go then st else rs_exit now st).
  assert (rs_ok (lk_receiveSettings lk) (lk_source lk) from (events (j_recv j)) go (cms ++ seen t) st') as Hst'.
  { unfold st'. destruct go; [done|]. by apply rs_exit_ok. }
  assert (∃ D1, delivered st' = delivered (j_recv j) ++ D1) as (D1 & ED).
  { destruct (re_base _ _ _ _ _ _ _ (proj2 Hst')) as [ev Eev]. unfold delivered. rewrite Eev, omap_app. by eexists. }
  assert (map ri_sequenceNumber (delivered st') = seqZ 0 (Z.of_nat (length (delivered st')))) as Hn'.
  { rewrite ED. eapply (no_gaps full (sent j)); [done|exact Hfull|done| |].
    - rewrite <-ED. apply Hst'.
    - intros i Hi. assert (i ∈ delivered st') as Hi' by (rewrite ED; apply elem_of_app; by right).
      unfold delivered in Hi'. apply list_elem_of_omap in Hi' as ([x m| | |] & He & Hx); try done.
      simpl in Hx. destruct (ri_ack x) eqn:Ex; [|done]. injection Hx as ->. split; [|done].
      eapply re_from; [apply Hst'|done]. }
  split; cbn [j_send j_sending j_recv j_receiving j_ackFrames]; try done.
  - exists (cms ++ seen t). destruct Hst' as [H1 H2]. split; [done|]. eapply rest_ok_change; [..|exact H2]; [done|].
    by exists (events st').
  - intros now' f a id Hf Ha Hci. destruct (Hk now' f a id Hf Ha Hci) as (q & ? & ? & ?).
    exists q. split_and!; [done..|]. fold st'. rewrite ED, length_app. lia.
Qed.
(** The ack writer: what it writes in full is the head ack of the window. *)
Lemma ack_pass_spec from strict cms order st :
  rs_ok (lk_receiveSettings lk) (lk_source lk) from [] strict cms st →
  ∃ frames st', ack_pass (lk_receiveSettings lk) (lk_source lk) (lk_receiver lk) (lk_sequenceId lk) order st
      = Val (frames, st') ∧
    rs_ok (lk_receiveSettings lk) (lk_source lk) from [] strict cms st' ∧ events st' = events st ∧
    ∀ f, f ∈ frames → ∃ a, f = writeAck (lk_receiveSettings lk) (lk_source lk) (lk_receiver lk) (lk_sequenceId lk) a ∧
      (headAck (rs_ackWindow st) = Some a ∨ ack_selective a = true).
Proof.
  intros [Hc [H1 H2 H3 H4 H5 H6 H7 H8 H9 H10]]. unfold ack_pass, ackWindow_Snapshot.
  assert (∃ sel, (if (0 <? ackUpdateCount (rs_ackWindow st))%Z
    then match headAck (rs_ackWindow st) with
         | Some h => Val (filter (after_head h) (selectiveAcks (rs_ackWindow st)))
         | None => if bool_decide (selectiveAcks (rs_ackWindow st) = ∅) then Val ∅
                   else Panic "nil pointer dereference"
         end
    else Val (selectiveAcks (rs_ackWindow st))) = Val sel) as [sel ->].
  { case_bool; [|by eexists]. destruct (headAck _); [by eexists|]. specialize (H5 eq_refl). lia. }
  cbn [obind snap_ackUpdateCount snap_headAck snap_selectiveAcks].
  assert (∃ hd, (if (0 <? ackUpdateCount (rs_ackWindow st))%Z
    then match headAck (rs_ackWindow st) with
         | Some ack => Val [writeAck (lk_receiveSettings lk) (lk_source lk) (lk_receiver lk) (lk_sequenceId lk) ack]
         | None => Panic "nil pointer dereference"
         end
    else Val []) = Val hd ∧ ∀ f, f ∈ hd → ∃ a,
      f = writeAck (lk_receiveSettings lk) (lk_source lk) (lk_receiver lk) (lk_sequenceId lk) a ∧
      headAck (rs_ackWindow st) = Some a) as (hd & -> & Hhd).
  { case_bool; [|exists []; split; [done|]; by intros f ?%elem_of_nil].
    destruct (headAck _) as [h|]; [|specialize (H5 eq_refl); lia]. eexists. split; [done|].
    intros f ->%list_elem_of_singleton. by exists h. }
  cbn [obind]. eexists _, _. split; [done|]. split_and!; [|done|].
  - split; [done|]. split; try done.
  - intros f [(a & -> & Ha)%Hhd|(p & -> & _)%list_elem_of_fmap]%elem_of_app.
    + exists a. auto.
    + eexists. split; [done|]. by right.
Qed.
Lemma ack_step past rest j t0 order :
  joint_inv past j → sender_ok t0 (past ++ rest) →
  ∃ j', joint_step lk unmarshalContract unmarshalStored (JAcks order) j = Val j' ∧ joint_inv past j'.
Proof.
  intros Hj Hok. pose proof Hj as [(turns & Hr & Hs & Ha) (cms & Hrs) Hn Hk].
  destruct (joint_trace _ _ _ _ Hj Hok) as (full & Ht & _).
  destruct (ack_pass_spec _ _ _ order _ Hrs) as (frames & st' & E & Hrs' & Ee & Hf).
  cbn [joint_step]. rewrite E. cbn [obind]. eexists. split; [done|].
  assert (delivered st' = delivered (j_recv j)) as Ed by (unfold delivered; by rewrite Ee).
  split; cbn [j_send j_sending j_recv j_receiving j_ackFrames]; rewrite ?Ed.
  - exists turns. split_and!; [done..|]. intros a (now & f & Hin & Haf)%Ha. exists now, f. split; [|done].
    apply elem_of_app. by left.
  - by exists cms.
  - done.
  - intros now f a id [Hin|Hin]%elem_of_app Haf Hci; [by eapply Hk|].
    destruct (Hf f Hin) as (sa & -> & Hor).
    apply acks_of_ack in Haf as ->. destruct Hci as (_ & Em & Esel). cbn [pa_MessageId pa_Selective] in *.
    destruct Hor as [Hh|?]; [|congruence]. rewrite IdFromBytes_Bytes in Em. injection Em as <-.
    destruct (re_acked _ _ _ _ _ _ _ (proj2 Hrs) sa Hh) as (i & Hi & Hack & En & Ei).
    pose proof (re_acks _ _ _ _ _ _ _ (proj2 Hrs) sa Hh) as Hlt. rewrite (next_after_seqZ _ Hn) in Hlt.
    destruct (sent_listed full _ i Ht Hi Hack) as (q & Hq & Eq & Eqn & _).
    exists q. split_and!; [done|congruence|lia].
Qed.

Lemma joint_steps_spec past l j t0 :
  joint_inv past j → sender_ok t0 (past ++ sender_turns l) →
  arrivals_ok lk unmarshalContract unmarshalStored l j = true →
  ∃ j', joint_steps lk unmarshalContract unmarshalStored l j = Val j' ∧ joint_inv (past ++ sender_turns l) j'.
Proof.
  revert past j. induction l as [|i l IH]; intros past j Hj Hok Harr; cbn [joint_steps arrivals_ok] in *.
  { exists j. split; [done|]. by rewrite app_nil_r. }
  apply andb_true_iff in Harr as [Hai Harr].
  assert (∃ j', joint_step lk unmarshalContract unmarshalStored i j = Val j' ∧
    joint_inv (past ++ sender_turns [i]) j') as (j' & E & Hj').
  { destruct i as [t acks|start now cm input|order]; cbn [sender_turns omap list_omap] in *; rewrite ?app_nil_r.
    - by eapply send_step.
    - by eapply recv_step.
    - by eapply ack_step. }
  rewrite E in *. cbn [obind].
  assert (sender_turns (i :: l) = sender_turns [i] ++ sender_turns l) as El by apply (omap_app _ [i] l).
  rewrite El, (assoc_L (++)) in *. by apply IH.
Qed.
Lemma joint_start_spec : ∃ j, joint_start lk = Val j ∧ joint_inv [] j.
Proof.
  unfold joint_start.
  destruct (new_good (lk_sendSettings lk) noC window_ok (λ _, True) 0)
    as (s & Es & Hs & _). rewrite Es. cbn [obind].
  destruct (new_ok (lk_receiveSettings lk) (lk_source lk) min_small (sent_item (ss_events s)) [] eq_refl)
    as (r & Er & Hr). rewrite Er. cbn [obind]. eexists. split; [done|].
  assert (events r = []) as Ee.
  { unfold NewReceiveSequence in Er. destruct (newTransferQueue receive_cmp); [|done..]. by injection Er as <-. }
  assert (delivered r = []) as Ed by (unfold delivered; by rewrite Ee).
  split; cbn [j_send j_sending j_recv j_receiving j_ackFrames]; rewrite ?Ed.
  - exists []. split_and!; [unfold send_run; by rewrite Es| |by intros a ?%elem_of_nil]. by exists [].
  - by exists [].
  - done.
  - by intros now f a id ?%elem_of_nil.
Qed.
Lemma joint_run_spec l t0 :
  sender_ok t0 (sender_turns l) → run_arrivals_ok lk unmarshalContract unmarshalStored l = true →
  ∃ j, joint_run lk unmarshalContract unmarshalStored l = Val j ∧ joint_inv (sender_turns l) j.
Proof.
  intros Hok Harr. unfold run_arrivals_ok, joint_run in *. destruct joint_start_spec as (j & E & Hj).
  rewrite E in *. cbn [obind]. by apply (joint_steps_spec [] l j t0).
Qed.

(** ** What the link promises *)
(** A message that was delivered is one that was queued: same id, number and
    frames. *)
Definition same_message (i : receiveItem) (q : sendItem) : Prop :=
  ri_messageId i = si_messageId q ∧ ri_sequenceNumber i = si_sequenceNumber q ∧
  item_body q = Val (false, ri_frames i).
Lemma delivered_sent past j i :
  joint_inv past j → i ∈ delivered (j_recv j) → sent_item (sent j) i ∧ ri_ack i = true.
Proof.
  intros [_ (cms & _ & Hst) _ _] ([x m| | |] & He & Hx)%list_elem_of_omap; try done. simpl in Hx.
  destruct (ri_ack x) eqn:Ex; [|done]. injection Hx as ->. split; [|done]. eapply re_from; [exact Hst|done].
Qed.
Lemma delivered_queued past j t0 rest k i :
  joint_inv past j → sender_ok t0 (past ++ rest) → delivered (j_recv j) !! k = Some i →
  ∃ q, queued (sent j) !! k = Some q ∧ same_message i q.
Proof.
  intros Hj Hok Hi. destruct (joint_trace _ _ _ _ Hj Hok) as (full & Ht & _).
  destruct (delivered_sent _ _ i Hj) as [Hs Hack]; [by eapply list_elem_of_lookup_2|].
  destruct (sent_listed full _ i Ht Hs Hack) as (q & Hq & E1 & E2 & E3 & _). exists q.
  assert (ri_sequenceNumber i = Z.of_nat k) as En.
  { assert (map ri_sequenceNumber (delivered (j_recv j)) !! k = Some (ri_sequenceNumber i)) as Hk
      by (rewrite list_lookup_fmap, Hi; done).
    rewrite (ji_numbers _ _ Hj) in Hk. apply lookup_seqZ in Hk. lia. }
  destruct (queued_number full _ q Ht Hq) as [_ Hk]. rewrite E2, En, Nat2Z.id in Hk.
  split; [done|]. unfold same_message. split_and!; congruence.
Qed.

(** C1. A sequence delivers what was sent, in order, once and without gaps:
    whatever the network does to the frames of the sender and to those of the
    acks (losing, repeating, delaying and reordering them), and whatever the
    clocks, contracts and timeouts, neither side panics; the messages that the
    receiver delivered with an ack are exactly the first of those that the
    sender queued, each once, with its id and its frames; and the frames queued
    are those of the packs that the sender took, in that order. It is assumed
    that the frames are of this sequence and that the receive sequence is not
    restarted. *)
Theorem delivered_in_order (t0 : time) (l : list joint_input) :
  sender_ok t0 (sender_turns l) → run_arrivals_ok lk unmarshalContract unmarshalStored l = true →
  ∃ j, joint_run lk unmarshalContract unmarshalStored l = Val j ∧
    Forall2 same_message (delivered (j_recv j))
      (take (length (delivered (j_recv j))) (queued (ss_events (j_send j)))) ∧
    (∀ q, q ∈ queued (ss_events (j_send j)) → sourced (ss_events (j_send j)) q) ∧
    users (queued (ss_events (j_send j))) `sublist_of` taken (ss_events (j_send j)).
Proof.
  intros Hok Harr. destruct (joint_run_spec l t0 Hok Harr) as (j & E & Hj). exists j. split; [done|].
  rewrite <-(app_nil_r (sender_turns l)) in Hok.
  destruct (joint_trace _ _ _ _ Hj Hok) as (full & Ht & _). split_and!; [|apply Ht..].
  apply Forall2_same_length_lookup_2.
  - rewrite length_take. destruct (decide (length (delivered (j_recv j)) ≤ length (queued (sent j)))); [lia|].
    destruct (lookup_lt_is_Some_2 (delivered (j_recv j)) (length (queued (sent j)))) as [i Hi]; [lia|].
    destruct (delivered_queued _ _ _ _ _ _ Hj Hok Hi) as (q & Hq & _). apply lookup_lt_Some in Hq. lia.
  - intros k i q Hi Hq. apply lookup_take_Some in Hq as [Hq _].
    destruct (delivered_queued _ _ _ _ _ _ Hj Hok Hi) as (q' & Hq' & ?). congruence.
Qed.

(** C2. A success that is reported is true: when the callback of a message that
    the sender queued reported success, the receiver has delivered that message
    to its callback, with the frames that were sent. *)
Theorem success_means_delivered (t0 : time) (l : list joint_input) :
  sender_ok t0 (sender_turns l) → run_arrivals_ok lk unmarshalContract unmarshalStored l = true →
  ∃ j, joint_run lk unmarshalContract unmarshalStored l = Val j ∧
    ∀ q, q ∈ queued (ss_events (j_send j)) → si_messageId q ∈ acked (ss_events (j_send j)) →
      ∃ i mode, EvReceive i mode ∈ events (j_recv j) ∧ same_message i q.
Proof.
  intros Hok Harr. destruct (joint_run_spec l t0 Hok Harr) as (j & E & Hj). exists j. split; [done|].
  intros q Hq Ha. rewrite <-(app_nil_r (sender_turns l)) in Hok.
  destruct (joint_trace _ _ _ _ Hj Hok) as (full & Ht & Hf).
  pose proof (acked_below _ _ _ _ Ht Hq Ha Hf) as Hlt.
  destruct (queued_number full _ q Ht Hq) as [Hn Hk].
  destruct (lookup_lt_is_Some_2 (delivered (j_recv j)) (Z.to_nat (si_sequenceNumber q))) as [i Hi]; [lia|].
  destruct (delivered_queued _ _ _ _ _ _ Hj Hok Hi) as (q' & Hq' & Hs).
  assert (q' = q) as -> by congruence. apply list_elem_of_lookup_2, list_elem_of_omap in Hi as ([x m| | |] & He & Hx); try done.
  simpl in Hx. destruct (ri_ack x); [|done]. injection Hx as ->. by exists i, m.
Qed.
End Invariant.

(** ** A concrete run *)
Module DeliveryExample.
Import ContractExample WireExample ManagerExample ClientExample SendExample.
Definition ex_link : Link :=
  mkLink ex_ssettings (ex_receive_settings 1) ex_sender ex_receiver
    (mkKey (DestinationId ex_receiver) MultiHopId_zero false false) (ex_id 77) (SourceId ex_sender)
    ex_none ex_none.
(** Neither side needs contracts of the other. *)
Definition ex_cm_s : ContractManager := AddNoContractPeer ex_receiver ex_m0.
Definition ex_cm_r : ContractManager := AddNoContractPeer ex_sender ex_m0.
(** Two messages, the first of them resent; the second arrives first, then the
    first twice; the acks of the
    passes arrive in the opposite order. *)
Definition ex_inputs : list joint_input :=
  [JSend (ex_send_turn second 100 ex_cm_s [] (SendPackInput (ex_send_pack 1 true))) [];
   JSend (ex_send_turn (2 * second) 101 ex_cm_s [] (SendPackInput (ex_send_pack 2 true))) [];
   JRecv second second ex_cm_r (RecvFrame 2);
   JAcks id;
   JRecv second second ex_cm_r (RecvFrame 1);
   JRecv second second ex_cm_r (RecvFrame 0);
   JAcks id;
   JSend (ex_send_turn (3 * second) 102 ex_cm_s [] SendNotify) [1%nat; 0%nat]]%Z.
Definition ex_unmarshalNone (b : list byte) : outcome Contract := Err "proto".
Abbreviation ex_joint := (joint_run (codec := ex_codec) ex_link ex_unmarshalNone ex_unmarshal).

Example ex_joint_value :
  (let! j := ex_joint ex_inputs in
   Val (j_sending j, j_receiving j, map si_sequenceNumber (written (ss_events (j_send j))),
        map (λ i, (ri_sequenceNumber i, length (ri_frames i))) (delivered (j_recv j)),
        length (j_ackFrames j), acked (ss_events (j_send j)))) =
  Val (true, true, [0; 0; 1]%Z, [(0%Z, 1); (1%Z, 1)], 2, [ex_id 201; ex_id 203]).
Proof. vm_compute. reflexivity. Qed.

Lemma ex_stored_both b s : ex_unmarshal b = Val s →
  (f32_to_i64 (f32_mul (f32_of_Z (TransferByteCount s)) half) < 2 ^ 62)%Z ∧
  (f32_to_i64 (f32_mul (f32_of_Z (TransferByteCount s)) fill_one) < 2 ^ 62)%Z.
Proof. unfold ex_unmarshal. case_bool_decide; [|done]. intros [= <-]. split; vm_compute; reflexivity. Qed.
Lemma ex_link_turn_ok t n acks input :
  (0 < t)%Z → (∀ p, input = SendPackInput p → ∃ h ack, p = ex_send_pack h ack) →
  SendInvariant.turn_ok ex_ssettings (lk_key ex_link) true (ex_send_turn t n ex_cm_s acks input).
Proof.
  intros Ht Hp. split; simpl; try lia; [vm_compute; reflexivity|].
  intros p (h & ack & ->)%Hp. split; [done|]. split; done.
Qed.
Lemma ex_joint_ok : SendInvariant.run_ok ex_ssettings (lk_key ex_link) true 0 (sender_turns ex_inputs).
Proof.
  split; [|apply (bool_decide_unpack _); vm_compute; exact I|vm_compute; reflexivity].
  do 3 (split; [simpl; unfold second; lia|]; split;
    [apply ex_link_turn_ok; [unfold second; lia|intros p [= <-]; eexists _, _; reflexivity]|]).
  exact I.
Qed.
Ltac link_hypotheses :=
  first [exact ex_joint_ok | exact ex_stored_both | vm_compute; reflexivity
        | split; vm_compute; (reflexivity || discriminate) | vm_compute; discriminate ].
Lemma delivered_in_order_witness :
  ∃ j, ex_joint ex_inputs = Val j ∧
    Forall2 (same_message (codec := ex_codec)) (delivered (j_recv j))
      (take (length (delivered (j_recv j))) (queued (ss_events (j_send j)))) ∧
    (∀ q, q ∈ queued (ss_events (j_send j)) → sourced (codec := ex_codec) (ss_events (j_send j)) q) ∧
    users (queued (ss_events (j_send j))) `sublist_of` taken (ss_events (j_send j)).
Proof.
  apply (delivered_in_order (codec := ex_codec) ex_link ex_unmarshalNone ex_unmarshal true) with (t0 := 0%Z);
    link_hypotheses.
Defined.
Lemma success_means_delivered_witness :
  ∃ j, ex_joint ex_inputs = Val j ∧
    ∀ q, q ∈ queued (ss_events (j_send j)) → si_messageId q ∈ acked (ss_events (j_send j)) →
      ∃ i mode, EvReceive i mode ∈ events (j_recv j) ∧ same_message (codec := ex_codec) i q.
Proof.
  apply (success_means_delivered (codec := ex_codec) ex_link ex_unmarshalNone ex_unmarshal true) with (t0 := 0%Z);
    link_hypotheses.
Defined.
End DeliveryExample.
